(* ===== verification/_CoqProject ===== *)
-Q . S2P
Prelude.v
Base.v
Cron.v
Jobs.v
Scheduler.v
Runner.v
Store.v
Window.v
ContextStore.v
ContextRedb.v
Policy.v
Trust.v
Tools.v
Serde.v
Graph.v
Config.v
Registry.v
Kernel.v
Breaker.v
Resilience.v
Ledger.v
Quota.v
Agent.v
Approval.v
Text.v
Summary.v
Paths.v
Extract.v
Net.v
AuditTrail.v
AuditRedb.v
Frame.v
Ipc.v
Daemon.v
Memory.v
MemoryRedb.v
MemoryTools.v
Exec.v
Fs.v
Providers.v
OpenAi.v
Anthropic.v
Ollama.v
Mcp.v
McpSession.v
JobsRedb.v
ScheduleTools.v
Args.v
Settings.v
Terminal.v
