(* ===== verification/Prelude.v ===== *)
(** * AI-kernel: a verification development

    The AI-kernel is a Rust workspace: a small kernel that assembles, starts and stops
    components ([crates/core]), the interfaces components offer one another ([crates/api]), and
    components built on them.  This development translates the logic that decides - who may do
    what, in which order things start and stop, what is retried, charged, fired or refused -
    into executable definitions and proves what that logic is for.

    ** The parts, and how they meet

    [Base] is what everything shares: errors with their source chains ([core/src/error.rs]),
    time ([clock.rs]), JSON values, principals and permission requests
    ([api/src/permission.rs]) and the execution context every call carries
    ([api/src/execution.rs]).  This file holds what is not about the program: results and
    stateful fallible actions with their notations, machine integers, strings, lists and the
    tactics the proofs share.

    The kernel.  [Graph] ([core/src/graph.rs], [component.rs]) orders components by their
    dependencies; [Kernel] ([core/src/kernel.rs]) builds, starts, rolls back and shuts down;
    [Registry] ([core/src/registry.rs]) is how components find one another's services;
    [Config] ([core/src/config.rs]) is the layered configuration they read.

    Authorization.  [Policy] ([crates/policy]) answers permission requests by the first rule
    that matches.  [Trust] ([api/src/provenance.rs], [tools/src/trust.rs]) remembers which
    conversations have read untrusted content.  [Tools] ([tools/src/registry.rs]) is the gate in
    front of every tool: it asks the policy engine, the trust ledger and, through approvals, a
    human, before it runs a tool's body, and it audits every call.  It is proved against the
    interface [TrustLedger], which [Trust] implements.

    Model calls.  [Breaker] ([resilience/src/breaker.rs], [backoff.rs], [stream.rs]) holds the
    circuit breaker, the backoff schedule and the watched stream; [Resilience]
    ([provider.rs], [limit.rs]) is the retry loop over them.  [Ledger] ([quota/src/ledger.rs])
    counts usage; [Quota] ([document.rs], [period.rs], [guard.rs]) checks and charges turns
    against the interface [UsageLedger], which [Ledger] implements.

    Unattended work.  [Cron] ([scheduler/src/cron.rs]) parses expressions and finds their next
    occurrence; [Jobs] ([state.rs], [owner.rs]) says when a job is due and what becomes of one
    that was missed; [Scheduler] ([scheduler.rs]) is the schedule with its callers, its driver
    and its runs interleaving, over the interface [JobStore], which [JobsRedb]
    ([scheduler/src/persistent.rs]) implements on disk; [Runner] ([runner.rs]) is one firing,
    attempt by attempt; [ScheduleTools] ([crates/runtime/src/schedule_tools.rs]) is how a
    conversation schedules a prompt, which [Daemon] has the agent asked.

    Conversations.  [Window] and [ContextStore] ([crates/context/src/window.rs], [store.rs],
    [session.rs]) are a conversation's window of tokens and the store in memory; [ContextRedb]
    ([persistent.rs]) is the store on disk, over the transactions of [Store] ([crates/store]),
    and is proved to refine the one in memory.  [Summary] ([crates/summary]) is the compaction
    that turns the oldest messages into a recap.

    The agent.  [Agent] ([crates/agent/src/run.rs], [agent.rs]) is the loop of model turns and
    tool calls, written against the class [AgentWorld] of everything it uses.  [Approval]
    ([crates/approval]) is the meeting of a question with the person who answers it, as a state
    machine whose steps interleave.

    Tools.  [Text], [Paths] and [Serde] hold what they use of the language: UTF-8, paths, and
    the derived readers of arguments.  [Exec] ([crates/exec]) runs one allowed program in a
    sandbox; [Fs] ([crates/fs]) reads, lists and writes under one root; [Net] and [Extract]
    ([crates/net]) fetch a page from an allowed address and turn it into text; [MemoryTools]
    ([crates/memory/src/tools]) are an agent's access to [Memory], the store in memory, and
    [MemoryRedb], the one on disk ([crates/memory]), against the interface [MemoryStore] both
    keep.

    Records and processes.  [AuditTrail] and [AuditRedb] ([crates/audit]) are the trail of
    decisions and its store on disk, against the interface [AuditStoreLaws].  [Frame] and [Ipc]
    ([crates/ipc]) are messages on a stream of bytes and the protocol spoken in them; [Daemon]
    ([crates/daemon]) is a host's side of a connection, its calls interleaving.

    Model services.  [Providers] holds what the clients share - the loop that cuts a stream of
    bytes into lines, deadlines, the reading of HTTP failures, what of a conversation has to be
    replayed as it was - and [OpenAi], [Anthropic] and [Ollama] ([crates/openai],
    [crates/anthropic], [crates/ollama]) are the clients: the translation of a conversation into
    a request, and of an answer, whole or streamed, into what the agent reads.

    Programs.  [Args] ([cli/src/args.rs], [daemon/src/args.rs]) is what the command lines of
    [aik] and [aikd] mean; [Settings] ([runtime/src/settings.rs], [cli/src/settings.rs],
    [daemon/src/settings.rs], [store/src/settings.rs], [ipc/src/endpoint.rs]) is what they, a
    configuration file and the environment come to together; [Terminal] ([cli/src/render.rs],
    [approval.rs], [audit.rs], [recorder.rs]) is what is printed of a run, a question and the
    trail, and what a run records.

    Tools of other programs.  [Mcp] ([crates/mcp/src/protocol.rs], [settings.rs], [client.rs],
    [catalog.rs]) reads what a tool server says, lists and calls its tools and files those of
    several servers under names of their own, over the class [McpHost] of what a process and its
    session do; [McpSession] ([session.rs]) is one such session, its reader and its calls
    interleaving.

    ** How the code is rendered

    A [Result] is [result Error]; [?] is [let?].  An operation on shared state is an [action]:
    a function from the state to the state and a result, so that what was written before a
    failure stays written.  Unsigned integers are [Z] with their saturation, wrapping or
    overflow written out; a [Duration] is its nanoseconds, a [Timestamp] its milliseconds.
    [HashMap] and [BTreeMap] are [gmap], read in key order where the code reads a [BTreeMap] in
    order; a JSON object keeps its entries as an ordered list.  Identifiers that the code draws
    at random are numbers never given before.  Where a lock is held throughout an operation the
    operation is one action; where it is let go, the operation is several, and other steps may
    come in between.  What the code calls and does not define - [tokio], [chrono], [redb],
    [serde], a tool's body, a handler, a provider - is an argument or a class ([Calendar],
    [Chrono], [Outside], [JobStore], ...), with its documented behaviour as the laws of a class
    or as hypotheses; each theorem that uses such laws has an example at a concrete instance.

    ** What the theorems show

    - Policy: patterns mean what they print as; the first matching rule decides; a grant made
      to a delegate of one principal is no grant for another; an engine's answers and a
      document's errors are informative.
    - Trust and tools: the bounded ledger fails safe; no tool runs unless every question was
      answered in its favour; every call is audited; untrusted output taints before it is seen;
      over any run a tainted conversation cannot reach outside against the enforcement.
    - Kernel: resolution returns the one greedy order, whatever the registration order, or a
      genuine cycle or missing dependency; start is all or nothing; shutdown stops everything
      once, in reverse; components only see legal lifecycle calls; service resolution is exact;
      configuration layers merge as documented and a path that is set reads back.
    - Model calls: backoff stays in its bounds; the breaker is a function of its history; the
      retry loop ends, retries only what may be retried, and leaks no permit; ledger rows add up;
      a turn passes exactly when every ceiling allows it, ceilings hold, and a turn is charged
      its price.
    - Unattended work: a cron field is what it says; the search for an occurrence ends at the
      first one; a periodic job neither drifts nor works off a backlog; a job never overlaps
      itself; a claim is durable before it is acted on; jobs belong to their owners; the disk
      mirrors the schedule and is read back exactly; no occurrence is delivered twice, even
      across a crash; a firing ends and follows its protocol; a reminder is what was claimed.
    - Conversations: the window's account is right and what is sent fits; the store on disk
      answers as the one in memory; a round of compaction forgets only what it told, and a
      transcript cannot close its own delimiter.
    - The agent: a run ends; every tool call is answered in the conversation before the model is
      asked again; an approval's outcome is the answer that was given, and an overdue question
      ends.
    - Tools: a command's line reads back as the command; a sandbox's arguments are those of its
      plan; what is run, read, written or fetched is what was claimed and lies within the
      bounds that were set; memories belong to their owners, and remembering does not launder
      where text came from.
    - Records and processes: a query of the audit store finds exactly what is asked for, and
      what a sweep removes is recorded; messages cross a stream whole however it is cut;
      authentication is exact; a client does not choose who it acts for; a call is answered
      once.
    - Model services: a streamed answer does not depend on how the stream is cut; tool calls
      are whole; the conversation is sent whole and in order; keys go only where they may, and
      configured parameters override nothing the client sets; a turn that is cut off is not
      reported as done.
    - Tools of other programs: a call gets the answer to its own id; a session that ends leaves
      no call waiting, and a server that asks is refused; frames do not depend on how the stream
      is cut; servers are started, greeted, used and stopped in that order; listings are bounded;
      a name tells which tool of which server it is.
    - Programs: what a command line asks for is read from it, and nothing else: powers are
      asked for by name, options that are accepted agree, and what can be asked for is read as
      it is written; a terminal and a host over one project are the same assistant; the database
      that is reported is the one that is opened; what an update or a question puts on a
      terminal cannot drive it; a timestamp is shown as the date it is.

    ** Bounds and fuel

    Loops that are not structural run on fuel that is shown to be enough: [Graph.drain] removes
    a component per turn and has one turn per component; [Resilience.retry_loop] and
    [Runner.attempt_loop] have a turn per attempt the settings allow; [Cron.mark] a turn per
    value of a field; [Cron.search] doubles its turns to [2^23], and each moves the candidate a
    minute or more towards a horizon of at most nine years.  The agent's loop has the turns its
    limits allow; a sweep of a table at least a row per batch; the bisection of a window halves
    it; the fetch loop a turn per redirect; readers of text and of markup a turn per character;
    readers of a stream a turn per byte that is left; a listing of a server's tools a turn per
    page the code allows.  Running out is a separate outcome
    ([OutOfFuel], [NoFuel]) which the theorems exclude, or the equations of the loop are proved
    for the fuel it is given.  Arithmetic that can overflow is a separate outcome too; where the
    code can reach it the theorem says when.  The one sum that is left unbounded is that of the
    pinned messages' tokens in [Summary.plan], whose terms are counts of text in memory.
    Floating point is the IEEE 754 arithmetic of the standard library's [SpecFloat].

    ** What is not modelled

    - Wiring: a component's [init] that registers a modelled part as a service, builders, and
      the settings that are only read and passed on.  They hold no state of their own.
    - The assembly of the runtime from its settings, and the binaries: reading the keyboard, and
      driving the modelled client, host and agent with it.
    - Sockets, files of credentials, the starting and reaping of processes: input and output of
      the operating system.  What the modelled parts use of them is an argument or a class.
    - [redb], [tokio], [serde], [reqwest], [url] and the other libraries: arguments and classes
      with their documented behaviour.  A row of a table is the value its bytes decode to.
    - The event bus and the task tracker, thin layers over library channels: a published event
      is an entry of a component's log.
    - The tests. *)

From stdpp Require Export base tactics list option numbers strings gmap sorting pretty.
From Stdlib Require Export Ascii ZArith Lia.

#[export] Set Warnings "-register-all,-clear-no-such-hyp".
#[export] Set Default Goal Selector "!".
#[export] Set Default Proof Using "Type".

(** ** Results

    Rust's [Result<T, E>].  [Ok] and [Err] are the constructors of the source; the bind is
    the [?] operator. *)

(** What awaiting a future gives: its value, or nothing, ever. *)
Inductive Reading (A : Type) := Ready (a : A) | Waiting.
Arguments Ready {A}.
Arguments Waiting {A}.

Inductive result (E A : Type) : Type :=
  | Ok (a : A)
  | Err (e : E).
Arguments Ok {E A} a.
Arguments Err {E A} e.

Definition result_bind {E A B} (k : A -> result E B) (m : result E A) : result E B :=
  match m with Ok a => k a | Err e => Err e end.

Definition result_map {E A B} (f : A -> B) (m : result E A) : result E B :=
  match m with Ok a => Ok (f a) | Err e => Err e end.

(** [Result::map_err]. *)
Definition map_err {E F A} (f : E -> F) (m : result E A) : result F A :=
  match m with Ok a => Ok a | Err e => Err (f e) end.

(** [Result::ok]. *)
Definition result_ok {E A} (m : result E A) : option A :=
  match m with Ok a => Some a | Err _ => None end.

Definition is_ok {E A} (m : result E A) : bool :=
  match m with Ok _ => true | Err _ => false end.

(** [Option::ok_or]. *)
Definition ok_or {E A} (o : option A) (e : E) : result E A :=
  match o with Some a => Ok a | None => Err e end.

#[export] Instance result_eq_dec {E A} `{EqDecision E, EqDecision A} : EqDecision (result E A).
Proof. solve_decision. Defined.

Declare Scope rust_scope.
Delimit Scope rust_scope with rust.
Notation "'let?' x ':=' m 'in' k" := (result_bind (fun x => k) m)
  (at level 10, x pattern, m at level 100, k at level 200) : rust_scope.
Open Scope rust_scope.

Lemma result_bind_ok {E A B} (k : A -> result E B) (m : result E A) b :
  result_bind k m = Ok b <-> exists a, m = Ok a /\ k a = Ok b.
Proof.
  destruct m; simpl; split; [eauto| |done|].
  - by intros (? & [= <-] & ?).
  - by intros (? & [=] & ?).
Qed.

Lemma result_bind_err {E A B} (k : A -> result E B) (m : result E A) e :
  result_bind k m = Err e <-> m = Err e \/ exists a, m = Ok a /\ k a = Err e.
Proof.
  destruct m; simpl; split; [eauto| |by intros [= ->]; left|].
  - intros [?|(? & [= <-] & ?)]; done.
  - intros [?|(? & ? & ?)]; intros; congruence.
Qed.

(** ** Stateful fallible code

    A method of a shared object: it reads and writes the object's state and may fail, and
    what it wrote before failing stays written. *)

Definition action (S E A : Type) : Type := S -> S * result E A.

Definition ret {S E A} (a : A) : action S E A := fun s => (s, Ok a).
Definition throw {S E A} (e : E) : action S E A := fun s => (s, Err e).
Definition bind {S E A B} (m : action S E A) (k : A -> action S E B) : action S E B :=
  fun s => match m s with
           | (s', Ok a) => k a s'
           | (s', Err e) => (s', Err e)
           end.
(** Run [m] and keep its result as a value, without propagating its error ([match m.await]). *)
Definition try {S E A} (m : action S E A) : action S E (result E A) :=
  fun s => let (s', r) := m s in (s', Ok r).
Definition modify {S E} (f : S -> S) : action S E unit := fun s => (f s, Ok tt).
Definition gets {S E A} (f : S -> A) : action S E A := fun s => (s, Ok (f s)).
Definition lift {S E A} (r : result E A) : action S E A := fun s => (s, r).

Notation "'let!' x ':=' m 'in' k" := (bind m (fun x => k))
  (at level 10, x pattern, m at level 100, k at level 200) : rust_scope.
Notation "m ';!' k" := (bind m (fun _ => k)) (at level 199, right associativity) : rust_scope.

(** [for x in l { f(x)?; }] *)
Fixpoint for_each {S E A} (f : A -> action S E unit) (l : list A) : action S E unit :=
  match l with
  | [] => ret tt
  | x :: l => f x ;! for_each f l
  end.

(** An action relates the state before it to the state after it by a preorder. *)
Section Keeps.
  Context {S E : Type} (R : S -> S -> Prop) `{!PreOrder R}.

Definition keeps {A} (m : action S E A) : Prop := forall s s' r, m s = (s', r) -> R s s'.

Lemma keeps_ret {A} (a : A) : keeps (ret a).
Proof using Type*. by intros s s' r [= <- _]. Qed.
Lemma keeps_throw {A} e : keeps (A := A) (throw e).
Proof using Type*. by intros s s' r [= <- _]. Qed.
Lemma keeps_gets {A} (f : S -> A) : keeps (gets f).
Proof using Type*. by intros s s' r [= <- _]. Qed.
Lemma keeps_lift {A} (x : result E A) : keeps (lift x).
Proof using Type*. by intros s s' r [= <- _]. Qed.
Lemma keeps_modify f : (forall s, R s (f s)) -> keeps (modify f).
Proof. by intros H s s' r [= <- _]. Qed.
Lemma keeps_bind {A B} (m : action S E A) (k : A -> action S E B) :
  keeps m -> (forall a, keeps (k a)) -> keeps (bind m k).
Proof using Type*.
  intros Hm Hk s s' r. unfold bind. destruct (m s) as [s1 [a|e]] eqn:E1.
  - intros E2. etrans; [by eapply Hm|by eapply Hk].
  - intros [= <- _]. by eapply Hm.
Qed.
Lemma keeps_try {A} (m : action S E A) : keeps m -> keeps (try m).
Proof. intros Hm s s' r. unfold try. destruct (m s) as [s1 r1] eqn:E1. intros [= <- _]. by eapply Hm. Qed.
Lemma keeps_for_each {A} (f : A -> action S E unit) l : (forall a, keeps (f a)) -> keeps (for_each f l).
Proof using Type*.
  intros Hf. induction l as [|a l IH]; simpl; [apply keeps_ret|]. by apply keeps_bind.
Qed.
End Keeps.

(** What a sequence did: its first part succeeded, or it stopped there. *)
Lemma bind_inv {S E A B} (m : action S E A) (k : A -> action S E B) s s' r :
  bind m k s = (s', r) ->
  (exists s1 a, m s = (s1, Ok a) /\ k a s1 = (s', r)) \/ (exists e, m s = (s', Err e) /\ r = Err e).
Proof.
  unfold bind. destruct (m s) as [s1 [a|e]]; [by left; exists s1, a|]. intros [= <- <-]. right. by exists e.
Qed.

(** ** Machine integers

    [u32], [u64], [u128] and [usize] quantities are [Z]; the wrapping, saturating and
    checked operators of Rust's standard library are written out at their width. *)

Definition u32_max : Z := 2 ^ 32 - 1.
Definition u64_max : Z := 2 ^ 64 - 1.
Definition u128_max : Z := 2 ^ 128 - 1.

Definition wrap64 (z : Z) : Z := z `mod` 2 ^ 64.
Definition sat_add (max a b : Z) : Z := Z.min (a + b) max.
Definition sat_mul (max a b : Z) : Z := Z.min (a * b) max.
Definition sat_sub (a b : Z) : Z := Z.max (a - b) 0.

Definition u64_ok (z : Z) : Prop := (0 <= z <= u64_max)%Z.
Definition u32_ok (z : Z) : Prop := (0 <= z <= u32_max)%Z.

Abbreviation sat_add64 := (sat_add u64_max).
Abbreviation sat_mul64 := (sat_mul u64_max).

(** [u64::div_ceil] *)
Definition div_ceil (a b : Z) : Z := ((a + b - 1) `div` b)%Z.

Lemma u64_max_eq : u64_max = 18446744073709551615%Z.
Proof. reflexivity. Qed.

Lemma wrap64_small z : u64_ok z -> wrap64 z = z.
Proof. unfold u64_ok, wrap64, u64_max. intros. apply Z.mod_small. lia. Qed.

Lemma wrap64_ok z : u64_ok (wrap64 z).
Proof. unfold u64_ok, wrap64, u64_max. pose proof (Z.mod_pos_bound z (2 ^ 64)). lia. Qed.

Ltac unfold_ints :=
  unfold u64_ok, u32_ok, sat_add, sat_mul, sat_sub, wrap64, u32_max, u64_max, u128_max in *.
(** Linear arithmetic over the saturating operators. *)
Ltac int_lia := unfold_ints; lia.

(** ** Strings

    A Rust [str] is its UTF-8 bytes; a Coq [string] is a list of bytes.  Lengths are byte
    lengths, comparison is bytewise, as in Rust. *)

Definition str_len (s : string) : Z := Z.of_nat (String.length s).

Lemma str_len_nonneg s : (0 <= str_len s)%Z.
Proof. apply Nat2Z.is_nonneg. Qed.

Lemma str_len_app a b : str_len (a +:+ b) = (str_len a + str_len b)%Z.
Proof.
  unfold str_len. rewrite <- Nat2Z.inj_add. f_equal. induction a as [|c a IH]; [done|]. exact (f_equal S IH).
Qed.

Definition str_is_empty (s : string) : bool := match s with EmptyString => true | _ => false end.

(** [str::starts_with] *)
Definition starts_with (s prefix : string) : bool := String.prefix prefix s.

(** [str::strip_prefix] *)
Fixpoint strip_prefix (s prefix : string) {struct prefix} : option string :=
  match prefix, s with
  | EmptyString, _ => Some s
  | String a p, String b s => if decide (a = b) then strip_prefix s p else None
  | String _ _, EmptyString => None
  end.

(** [str::strip_suffix] with a one-character pattern *)
Fixpoint strip_suffix_char (c : ascii) (s : string) : option string :=
  match s with
  | EmptyString => None
  | String a EmptyString => if decide (a = c) then Some EmptyString else None
  | String a s' => String a <$> strip_suffix_char c s'
  end.

(** [str::to_ascii_lowercase], bytewise *)
Definition ascii_lower (c : ascii) : ascii :=
  let n := N_of_ascii c in
  if ((65 <=? n) && (n <=? 90))%N%bool then ascii_of_N (n + 32) else c.
Fixpoint to_ascii_lowercase (s : string) : string :=
  match s with EmptyString => EmptyString | String c s => String (ascii_lower c) (to_ascii_lowercase s) end.

(** One leading character of Unicode's [White_Space] property, as [char::is_whitespace]
    decides it, on its UTF-8 encoding. *)
Definition strip_whitespace_char (s : string) : option string :=
  match s with
  | String a s1 =>
    let n := N_of_ascii a in
    if ((9 <=? n) && (n <=? 13) || (n =? 32))%N%bool then Some s1 else
    match s1 with
    | String b s2 =>
      let m := N_of_ascii b in
      if ((n =? 194) && ((m =? 133) || (m =? 160)))%N%bool then Some s2 else
      match s2 with
      | String c s3 =>
        let k := N_of_ascii c in
        if (((n =? 225) && (m =? 154) && (k =? 128))
            || ((n =? 226) && (m =? 128)
                && (((128 <=? k) && (k <=? 138)) || (k =? 168) || (k =? 169) || (k =? 175)))
            || ((n =? 226) && (m =? 129) && (k =? 159))
            || ((n =? 227) && (m =? 128) && (k =? 128)))%N%bool
        then Some s3 else None
      | EmptyString => None
      end
    | EmptyString => None
    end
  | EmptyString => None
  end.

(** [text.trim().is_empty()]: every character is white space.  The fuel is the length of
    the string, which every step shortens. *)
Fixpoint is_blank_fuel (fuel : nat) (s : string) : bool :=
  match fuel, s with
  | _, EmptyString => true
  | O, _ => false
  | S fuel, _ => match strip_whitespace_char s with
                 | Some s' => is_blank_fuel fuel s'
                 | None => false
                 end
  end.
Definition is_blank (s : string) : bool := is_blank_fuel (String.length s) s.

(** [str::split] on a one-character pattern: always at least one segment. *)
Fixpoint split_char (c : ascii) (s : string) : list string :=
  match s with
  | EmptyString => [EmptyString]
  | String a s' =>
      if decide (a = c) then EmptyString :: split_char c s'
      else match split_char c s' with
           | h :: t => String a h :: t
           | [] => [String a EmptyString]
           end
  end.

(** [str::split] on a string pattern: leftmost matches that do not overlap.  The fuel is the
    length of the string, which every step shortens. *)
Fixpoint split_str_fuel (fuel : nat) (pat s : string) : list string :=
  match fuel, s with
  | _, EmptyString | O, _ => [s]
  | S fuel, String a s' =>
      match strip_prefix s pat with
      | Some rest => EmptyString :: split_str_fuel fuel pat rest
      | None => match split_str_fuel fuel pat s' with
                | h :: t => String a h :: t
                | [] => [String a EmptyString]
                end
      end
  end.
Definition split_str (pat s : string) : list string := split_str_fuel (String.length s) pat s.

Definition ascii_digit (c : ascii) : option Z :=
  let n := Z.of_N (N_of_ascii c) in
  if ((48 <=? n) && (n <=? 57))%Z%bool then Some (n - 48)%Z else None.

Fixpoint parse_digits (max acc : Z) (s : string) : option Z :=
  match s with
  | EmptyString => Some acc
  | String c s =>
      match ascii_digit c with
      | Some d => let acc := (acc * 10 + d)%Z in
                  if (acc <=? max)%Z then parse_digits max acc s else None
      | None => None
      end
  end.

(** [str::parse] for an unsigned integer type whose greatest value is [max]: an optional [+],
    then at least one decimal digit, and no overflow. *)
Definition parse_uint (max : Z) (s : string) : option Z :=
  match s with
  | EmptyString => None
  | String c s' =>
      if decide (c = "+"%char)
      then match s' with EmptyString => None | _ => parse_digits max 0 s' end
      else parse_digits max 0 s
  end.

(** [str::split_once] on a one-character pattern *)
Fixpoint split_once (c : ascii) (s : string) : option (string * string) :=
  match s with
  | EmptyString => None
  | String a s' =>
      if decide (a = c) then Some (EmptyString, s')
      else match split_once c s' with
           | Some (before, after) => Some (String a before, after)
           | None => None
           end
  end.

(** [str::split_whitespace]: the runs of characters that are not white space; [word] is the
    run read so far, last character first.  Each step shortens the string. *)
Definition push_word (word : list ascii) (words : list string) : list string :=
  match word with [] => words | _ => String.string_of_list_ascii (reverse word) :: words end.
Fixpoint split_whitespace_fuel (fuel : nat) (word : list ascii) (s : string) : list string :=
  match fuel, s with
  | O, _ | _, EmptyString => push_word word []
  | S fuel, String a s' =>
      match strip_whitespace_char s with
      | Some rest => push_word word (split_whitespace_fuel fuel [] rest)
      | None => split_whitespace_fuel fuel (a :: word) s'
      end
  end.
Definition split_whitespace (s : string) : list string :=
  split_whitespace_fuel (S (String.length s)) [] s.

Lemma split_char_nonempty c s : split_char c s <> [].
Proof. destruct s as [|a s]; simpl; [done|]. by repeat case_match. Qed.

Lemma parse_digits_bounds max acc s v : (0 <= acc <= max)%Z -> parse_digits max acc s = Some v -> (0 <= v <= max)%Z.
Proof.
  revert acc. induction s as [|c s IH]; intros acc Hacc; simpl; [by intros [= <-]|].
  unfold ascii_digit. set (n := Z.of_N (N_of_ascii c)).
  destruct ((48 <=? n) && (n <=? 57))%Z%bool eqn:E; simpl; [|done]. apply andb_true_iff in E as [E1 E2].
  destruct (Z.leb_spec (acc * 10 + (n - 48)) max); [|done]. apply IH. lia.
Qed.

Lemma parse_uint_bounds max s v : (0 <= max)%Z -> parse_uint max s = Some v -> (0 <= v <= max)%Z.
Proof.
  intros Hm. unfold parse_uint. destruct s as [|c s]; [done|].
  case_decide; [destruct s as [|a s]; [done|]|]; intros Hv; by eapply parse_digits_bounds in Hv.
Qed.

Lemma strip_prefix_spec s p r : strip_prefix s p = Some r <-> s = (p +:+ r)%string.
Proof.
  revert s. induction p as [|a p IH]; intros s; simpl.
  { split; [by intros [= ->]|by intros ->]. }
  destruct s as [|b s]; [done|]. case_decide; [rewrite IH|]; simpl.
  - subst. split; [by intros ->|by intros [= ->]].
  - split; [done|intros [=]; congruence].
Qed.

Lemma starts_with_spec s p : starts_with s p = true <-> exists r, s = (p +:+ r)%string.
Proof.
  unfold starts_with. revert s. induction p as [|a p IH]; intros s.
  { destruct s; simpl; split; eauto. }
  destruct s as [|b s]; simpl.
  { split; [done|]. by intros [r [=]]. }
  destruct (ascii_dec a b) as [->|].
  - rewrite IH. split; intros [r H]; exists r; [by rewrite H|by injection H].
  - split; [done|]. intros [r [=]]. congruence.
Qed.

Lemma starts_with_refl s : starts_with s s = true.
Proof. unfold starts_with. induction s as [|a s IH]; simpl; [done|]. by destruct (ascii_dec a a). Qed.

Lemma strip_suffix_char_spec c s r :
  strip_suffix_char c s = Some r <-> s = (r +:+ String c EmptyString)%string.
Proof.
  revert r. induction s as [|a s IH]; intros r; simpl.
  { by destruct r. }
  destruct s as [|b s].
  { case_decide; subst; destruct r as [|? [|??]]; split; try done; intros [=]; congruence. }
  rewrite fmap_Some. split.
  - intros (r' & H%IH & ->). by rewrite H.
  - destruct r as [|a' r]; [done|]. intros [= -> H]. exists r.
    split; [by apply IH|done].
Qed.

Lemma strip_suffix_char_None c s :
  strip_suffix_char c s = None <-> forall r, s <> (r +:+ String c EmptyString)%string.
Proof.
  split.
  - intros H r Hr%strip_suffix_char_spec. congruence.
  - intros H. destruct (strip_suffix_char c s) as [r|] eqn:E; [|done].
    apply strip_suffix_char_spec in E. by destruct (H r).
Qed.

Lemma append_char_inj a b c :
  (a +:+ String c EmptyString = b +:+ String c EmptyString)%string -> a = b.
Proof.
  intros H. assert (Some a = Some b); [|congruence].
  rewrite <- (proj2 (strip_suffix_char_spec c _ a) eq_refl), H.
  by apply strip_suffix_char_spec.
Qed.

Lemma str_app_assoc (a b c : string) : ((a +:+ b) +:+ c = a +:+ (b +:+ c))%string.
Proof.
  induction a as [|x a IH]; [done|].
  change (String x ((a +:+ b) +:+ c) = String x (a +:+ (b +:+ c))). by rewrite IH.
Qed.

Lemma str_app_nil (a : string) : (a +:+ EmptyString = a)%string.
Proof. induction a as [|x a IH]; [done|]. change (String x (a +:+ EmptyString) = String x a)%string. by rewrite IH. Qed.

(** [str]'s order is a total order. *)
Lemma compare_lt_trans (a b c : string) :
  String.compare a b = Lt -> String.compare b c = Lt -> String.compare a c = Lt.
Proof.
  revert b c. induction a as [|x a IH]; intros [|y b] [|z c]; simpl; try done.
  unfold Ascii.compare. destruct (N.compare_spec (N_of_ascii x) (N_of_ascii y)) as [E|L|L]; try done;
    destruct (N.compare_spec (N_of_ascii y) (N_of_ascii z)) as [E'|L'|L']; try done; intros H1 H2;
    destruct (N.compare_spec (N_of_ascii x) (N_of_ascii z)) as [E''|L''|L'']; try lia; try done.
  by eapply IH.
Qed.

Lemma leb_lt_eq a b : String.leb a b = true <-> a = b \/ String.compare a b = Lt.
Proof.
  unfold String.leb. destruct (String.compare a b) eqn:E; split; try done; [|by right|].
  2: { intros [->|]; [|done]. pose proof (String.compare_antisym b b) as Ha. by rewrite E in Ha. }
  intros _. left. by apply String.compare_eq_iff.
Qed.

Lemma leb_trans a b c : String.leb a b = true -> String.leb b c = true -> String.leb a c = true.
Proof.
  rewrite !leb_lt_eq. intros [->|H1] [->|H2]; [by left|by right..|]. right. by eapply compare_lt_trans.
Qed.

(** [format!] writes an unsigned integer in decimal. *)
Definition fmt_u (z : Z) : string := pretty z.

(** ** Lists *)

Definition sum_Z (l : list Z) : Z := foldr Z.add 0%Z l.

Lemma sum_Z_app l k : sum_Z (l ++ k) = (sum_Z l + sum_Z k)%Z.
Proof. induction l; simpl; lia. Qed.

Lemma sum_Z_nonneg l : Forall (fun z => 0 <= z)%Z l -> (0 <= sum_Z l)%Z.
Proof. induction 1; simpl; lia. Qed.

(** [iter().find] *)
Fixpoint find_first {A} (p : A -> bool) (l : list A) : option A :=
  match l with
  | [] => None
  | x :: l => if p x then Some x else find_first p l
  end.

Lemma find_first_Some {A} (p : A -> bool) l x :
  find_first p l = Some x <->
  exists i, l !! i = Some x /\ p x = true /\
            forall j y, (j < i)%nat -> l !! j = Some y -> p y = false.
Proof.
  induction l as [|a l IH]; simpl.
  { split; [done|]. intros (i & Hi & _). by rewrite lookup_nil in Hi. }
  destruct (p a) eqn:Hpa.
  - split.
    + intros [= ->]. exists 0%nat. repeat split; [done..|]. intros; lia.
    + intros ([|i] & Hi & Hp & Hj); simpl in *; [done|].
      specialize (Hj 0%nat a ltac:(lia) eq_refl). congruence.
  - rewrite IH. split.
    + intros (i & Hi & Hp & Hj). exists (S i). repeat split; [done..|].
      intros [|j] y Hlt Hy; simpl in *; [congruence|]. eapply Hj; [|done]. lia.
    + intros ([|i] & Hi & Hp & Hj); simpl in *; [congruence|].
      exists i. repeat split; [done..|]. intros j y Hlt Hy. apply (Hj (S j)); [lia|done].
Qed.

Lemma find_first_None {A} (p : A -> bool) l :
  find_first p l = None <-> Forall (fun x => p x = false) l.
Proof.
  induction l as [|a l IH]; simpl; [by split|].
  rewrite Forall_cons. destruct (p a); [naive_solver|]. rewrite IH. naive_solver.
Qed.

Lemma NoDup_map_inj {A B} (f : A -> B) l x y :
  NoDup (map f l) -> x ∈ l -> y ∈ l -> f x = f y -> x = y.
Proof.
  intros Hnd [i Hi]%list_elem_of_lookup [j Hj]%list_elem_of_lookup Heq.
  assert (i = j) as ->; [|congruence].
  eapply NoDup_lookup; [exact Hnd|..]; rewrite list_lookup_fmap; [by rewrite Hi|].
  rewrite Hj. simpl. by rewrite Heq.
Qed.

Lemma NoDup_map_map {A B C} (f : A -> B) (g : A -> C) l :
  NoDup (map f l) -> (forall x y, x ∈ l -> y ∈ l -> g x = g y -> x = y) -> NoDup (map g l).
Proof.
  induction l as [|a l IH]; simpl; intros Hnd Hinj; [constructor|]. apply NoDup_cons in Hnd as [Ha Hnd].
  apply NoDup_cons. split.
  - intros (b & Hb & Hin)%list_elem_of_fmap. apply Ha, list_elem_of_fmap. exists a.
    split; [done|]. rewrite (Hinj a b); [done|by left|by right|done].
  - apply IH; [done|]. intros x y Hx Hy. apply Hinj; by right.
Qed.

Lemma NoDup_map_filter {A B} (f : A -> B) (P : A -> Prop) `{!forall x, base.Decision (P x)} l :
  NoDup (map f l) -> NoDup (map f (filter P l)).
Proof.
  induction l as [|a l IH]; [done|]. rewrite filter_cons. intros [Ha Hl]%NoDup_cons.
  destruct (decide (P a)); simpl; [|by apply IH]. apply NoDup_cons. split; [|by apply IH].
  intros (b & Hb & [_ Hin]%list_elem_of_filter)%list_elem_of_fmap. apply Ha, list_elem_of_fmap. by exists b.
Qed.

Lemma Forall_sublist {A} (P : A -> Prop) l k : Forall P k -> l `sublist_of` k -> Forall P l.
Proof.
  intros Hk Hlk. induction Hlk as [|x l k _ IH|x l k _ IH]; [done| |]; apply Forall_cons in Hk as [Hx Hk].
  - constructor; [done|by apply IH].
  - by apply IH.
Qed.

Lemma filter_sublist {A} (f : A -> bool) l : List.filter f l `sublist_of` l.
Proof. induction l as [|x l IH]; simpl; [done|]. destruct (f x); [by apply sublist_skip|by apply sublist_cons]. Qed.

Lemma StronglySorted_sublist {A} (R : relation A) l k : l `sublist_of` k -> StronglySorted R k -> StronglySorted R l.
Proof.
  induction 1 as [|x l k Hlk IH|x l k Hlk IH]; intros Hs; [done| |]; inversion_clear Hs as [|? ? Hk Hx].
  - constructor; [by apply IH|]. by eapply Forall_sublist.
  - by apply IH.
Qed.

Lemma StronglySorted_snoc {A} (R : relation A) l z : StronglySorted R l -> Forall (fun x => R x z) l -> StronglySorted R (l ++ [z]).
Proof.
  induction 1 as [|x l Hs IH Hx]; intros Hz; simpl; [by repeat constructor|]. inversion_clear Hz as [|? ? Hxz Hl].
  constructor; [by apply IH|]. apply Forall_app. split; [done|by constructor].
Qed.

Lemma NoDup_omap {A B} (f : A -> option B) l :
  NoDup l -> (forall x y b, x ∈ l -> y ∈ l -> f x = Some b -> f y = Some b -> x = y) -> NoDup (omap f l).
Proof.
  induction l as [|a l IH]; simpl; intros Hnd Hinj; [constructor|]. apply NoDup_cons in Hnd as [Ha Hnd].
  assert (NoDup (omap f l)) by (apply IH; [done|]; intros x y b Hx Hy; apply Hinj; by right).
  destruct (f a) as [b|] eqn:E; [|done]. apply NoDup_cons. split; [|done].
  intros (x & Hx & Hf)%list_elem_of_omap. apply Ha. by rewrite (Hinj a x b); [|left|right|..].
Qed.

(** A sorted list is what its members are, when no two of them are of the same rank. *)
Lemma concat_NoDup {A B} (f : A -> list B) l :
  NoDup l -> (forall a, NoDup (f a)) -> (forall a a' b, b ∈ f a -> b ∈ f a' -> a = a') -> NoDup (concat (map f l)).
Proof.
  intros Hl Hf Hd. induction Hl as [|a l Ha Hl IH]; simpl; [constructor|]. apply NoDup_app. split_and!; [apply Hf| |done].
  intros b Hb (l' & Hin & Hb')%list_elem_of_In%in_concat. apply list_elem_of_In, list_elem_of_fmap in Hin as (a' & -> & Hin).
  apply Ha. rewrite (Hd a a' b); [done|done|]. by apply list_elem_of_In.
Qed.

Lemma merge_sort_members {A} (R : relation A) `{!RelDecision R, !Transitive R, !Total R} l k :
  NoDup l -> NoDup k -> (forall x, x ∈ l <-> x ∈ k) -> (forall x y, x ∈ l -> y ∈ l -> R x y -> R y x -> x = y) ->
  StronglySorted R k -> merge_sort R l = k.
Proof.
  intros Hl Hk Hlk Hanti Hs. eapply (StronglySorted_unique_strong R); [|by apply StronglySorted_merge_sort|done|].
  - intros x y. rewrite merge_sort_Permutation, <- (Hlk y). apply Hanti.
  - rewrite merge_sort_Permutation. by apply NoDup_Permutation.
Qed.

(** [Vec::dedup] *)
Fixpoint dedup {A} `{EqDecision A} (l : list A) : list A :=
  match l with
  | [] => []
  | x :: l => match dedup l with
              | y :: l' => if decide (x = y) then y :: l' else x :: y :: l'
              | [] => [x]
              end
  end.

(** On a sorted list it keeps one of each. *)
Lemma dedup_sorted {A} `{EqDecision A} (R : relation A) l :
  (forall x y, R x y -> R y x -> x = y) -> StronglySorted R l ->
  StronglySorted (fun x y => R x y /\ x <> y) (dedup l) /\ forall x, x ∈ dedup l <-> x ∈ l.
Proof.
  intros Hanti. induction l as [|x l IH]; intros Hs; [split; [constructor|done]|].
  apply StronglySorted_inv in Hs as [Hs Hx]. destruct (IH Hs) as [Hd Hin]. simpl.
  destruct (dedup l) as [|y l'] eqn:E.
  { split; [repeat constructor|]. intros z. rewrite !elem_of_cons, <- Hin. done. }
  case_decide as Hxy; [subst; split; [done|]; intros z; rewrite (elem_of_cons l), <- Hin, elem_of_cons; tauto|].
  split; [|intros z; rewrite (elem_of_cons (y :: l')), (elem_of_cons l), Hin; tauto].
  constructor; [done|]. rewrite Forall_forall in *. intros z Hz. split; [by apply Hx, Hin|].
  intros <-. apply StronglySorted_inv in Hd as [_ Hy]. rewrite Forall_forall in Hy.
  apply elem_of_cons in Hz as [->|Hz]; [done|]. apply Hxy, Hanti; [apply Hx, Hin; left|by apply Hy].
Qed.

Lemma dedup_NoDup {A} `{EqDecision A} (R : relation A) l :
  (forall x y, R x y -> R y x -> x = y) -> StronglySorted R l -> NoDup (dedup l).
Proof.
  intros Hanti Hs. destruct (dedup_sorted R l Hanti Hs) as [Hd _]. clear Hs.
  induction Hd as [|x k _ IH Hx]; constructor; [|done]. intros Hin.
  rewrite Forall_forall in Hx. by destruct (Hx _ Hin).
Qed.

(** [take(limit)], the limit a [usize]. *)
Fixpoint take_Z {A} (limit : Z) (l : list A) : list A :=
  match l with
  | [] => []
  | x :: l => if (limit <=? 0)%Z then [] else x :: take_Z (limit - 1) l
  end.

Lemma take_Z_take {A} limit (l : list A) : take_Z limit l = take (Z.to_nat limit) l.
Proof.
  revert limit. induction l as [|x l IH]; intros limit; simpl; [by rewrite take_nil|].
  destruct (Z.leb_spec limit 0) as [|Hlt]; [by replace (Z.to_nat limit) with 0%nat by lia|].
  replace (Z.to_nat limit) with (S (Z.to_nat (limit - 1))) by lia. simpl. by rewrite IH.
Qed.

(** [slice::sort_by]: stable, by a comparison. *)
Fixpoint insert_by {A} (cmp : A -> A -> comparison) (x : A) (l : list A) : list A :=
  match l with
  | [] => [x]
  | y :: k => match cmp x y with Gt => y :: insert_by cmp x k | _ => x :: l end
  end.
Definition sort_by {A} (cmp : A -> A -> comparison) (l : list A) : list A := foldr (insert_by cmp) [] l.

(** [Ordering::then_with] *)
Definition then_with (c d : comparison) : comparison := match c with Eq => d | _ => c end.

(** Lists of integers, compared element by element: what a chain of [then_with] amounts to. *)
Fixpoint lex (a b : list Z) : comparison :=
  match a, b with
  | x :: a, y :: b => then_with (x ?= y)%Z (lex a b)
  | [], [] => Eq
  | [], _ => Lt
  | _, [] => Gt
  end.

Lemma lex_antisym a b : lex b a = CompOpp (lex a b).
Proof.
  revert b. induction a as [|x a IH]; intros [|y b]; simpl; try done. rewrite Z.compare_antisym, IH. by destruct (x ?= y)%Z.
Qed.

Lemma lex_eq a b : lex a b = Eq -> a = b.
Proof.
  revert b. induction a as [|x a IH]; intros [|y b]; simpl; try done.
  destruct (Z.compare_spec x y) as [->| |]; simpl; try done. by intros ->%IH.
Qed.

Lemma lex_trans a b c : lex a b <> Gt -> lex b c <> Gt -> lex a c <> Gt.
Proof.
  revert b c. induction a as [|x a IH]; intros [|y b] [|z c]; simpl; try done.
  destruct (Z.compare_spec x y), (Z.compare_spec y z), (Z.compare_spec x z); simpl; try done; subst; try lia. apply IH.
Qed.

Lemma insert_by_Permutation {A} (cmp : A -> A -> comparison) x l : insert_by cmp x l ≡ₚ x :: l.
Proof. induction l as [|y l IH]; simpl; [done|]. destruct (cmp x y); try done. rewrite IH. apply Permutation_swap. Qed.

Lemma sort_by_Permutation {A} (cmp : A -> A -> comparison) l : sort_by cmp l ≡ₚ l.
Proof. induction l as [|x l IH]; simpl; [done|]. by rewrite insert_by_Permutation, IH. Qed.

(** Sorting by keys, where the comparison at hand is theirs. *)
Lemma sort_by_sorted {A} (key : A -> list Z) (cmp : A -> A -> comparison) l :
  (forall x y, x ∈ l -> y ∈ l -> cmp x y = lex (key x) (key y)) ->
  StronglySorted (fun x y => lex (key x) (key y) <> Gt) (sort_by cmp l).
Proof.
  induction l as [|x l IH]; intros Hkey; simpl; [constructor|].
  assert (Hs := IH (fun y z Hy Hz => Hkey y z (list_elem_of_further _ _ _ Hy) (list_elem_of_further _ _ _ Hz))).
  assert (Hx : forall y, y ∈ sort_by cmp l -> cmp x y = lex (key x) (key y)).
  { intros y Hy. rewrite sort_by_Permutation in Hy. apply Hkey; [by left|by right]. }
  clear IH Hkey. fold (sort_by cmp l). induction Hs as [|y k Hs IH Hy]; simpl; [by repeat constructor|].
  pose proof (lex_antisym (key x) (key y)) as Ha. rewrite Hx by (by left).
  assert (Hfirst : lex (key x) (key y) <> Gt -> StronglySorted (fun x y => lex (key x) (key y) <> Gt) (x :: y :: k)).
  { intros Hle. constructor; [by constructor|]. constructor; [done|]. eapply Forall_impl; [exact Hy|]. simpl. intros z. by apply lex_trans. }
  destruct (lex (key x) (key y)) eqn:E; [by apply Hfirst|by apply Hfirst|]. constructor.
  - apply IH. intros z Hz. apply Hx. by right.
  - rewrite Forall_forall in *. intros z Hz. rewrite insert_by_Permutation in Hz.
    apply elem_of_cons in Hz as [->|Hz]; [by rewrite Ha|by apply Hy].
Qed.

(** The result depends on the elements alone where their keys tell them apart. *)
Lemma sort_by_unique {A} (key : A -> list Z) (cmp : A -> A -> comparison) l k :
  (forall x y, x ∈ l -> y ∈ l -> cmp x y = lex (key x) (key y)) ->
  (forall x y, x ∈ l -> y ∈ l -> key x = key y -> x = y) -> l ≡ₚ k -> sort_by cmp l = sort_by cmp k.
Proof.
  intros Hcmp Hkey Hp. apply (StronglySorted_unique_strong (fun x y => lex (key x) (key y) <> Gt)).
  - intros x y. rewrite !sort_by_Permutation, <- Hp. intros Hx Hy Hxy Hyx. apply Hkey; [done..|]. apply lex_eq.
    rewrite lex_antisym in Hyx. by destruct (lex (key x) (key y)).
  - by apply sort_by_sorted.
  - apply sort_by_sorted. intros x y. rewrite <- Hp. apply Hcmp.
  - by rewrite !sort_by_Permutation.
Qed.

Lemma foldl_id {A B} (l : list A) (b : B) : foldl (fun b _ => b) b l = b.
Proof. by induction l. Qed.

Lemma map_const {A B} (b : B) (l : list A) : map (fun _ => b) l = replicate (length l) b.
Proof. induction l as [|a l IH]; simpl; [done|]. by rewrite IH. Qed.

Lemma pair_snd {A B} (p : A * B) b : snd p = b -> p = (fst p, b).
Proof. destruct p. by intros <-. Qed.

(** ** Automation *)

(** One step of the decomposition of a composed action for [keeps]. *)
Ltac keeps_step :=
  first
    [ apply keeps_ret; exact _ | apply keeps_throw; exact _ | apply keeps_gets; exact _
    | apply keeps_lift; exact _ | apply keeps_bind; [exact _| |intros ?]
    | apply keeps_try | apply keeps_for_each; [exact _|intros ?] | progress case_match ].

(** Peels the first action off a composed one that was run in [H]: the case where it went on,
    then the case where it failed, with what the action did in [E]. *)
Ltac peel H E :=
  apply bind_inv in H;
  let s1 := fresh "s" in let a := fresh "a" in let e := fresh "e" in
  let Hr := fresh "Hr" in
  destruct H as [(s1 & a & E & H)|(e & E & Hr)];
  [|first [discriminate Hr | match type of Hr with ?r = _ => subst r end]].
(** The same where the first action only reads or updates the state. *)
Ltac peel_pure H :=
  let E := fresh in
  peel H E; cbv [gets modify ret throw lift] in E; first [discriminate E|injection E as <- <-].

(** Splits every boolean conjunction, disjunction and negation in the hypotheses. *)
Ltac bools :=
  repeat match goal with
  | H : (_ && _)%bool = true |- _ => apply andb_true_iff in H as [? ?]
  | H : (_ || _)%bool = false |- _ => apply orb_false_iff in H as [? ?]
  | H : negb _ = true |- _ => apply negb_true_iff in H
  | H : negb _ = false |- _ => apply negb_false_iff in H
  | H : bool_decide _ = true |- _ => apply bool_decide_eq_true in H
  | H : bool_decide _ = false |- _ => apply bool_decide_eq_false in H
  end.
(** Case analysis on the innermost [match] or [if] in the goal or a hypothesis, with the
    contradictory cases closed. *)
Ltac cases := repeat (case_match; simplify_eq/=; try done).
