(* ===== verification/Base.v ===== *)
(** * Base: errors, time, JSON values, principals and the execution context

    The types every component shares: [crates/core/src/error.rs], [crates/core/src/clock.rs],
    [crates/api/src/permission.rs], [crates/api/src/execution.rs] and the part of
    [crates/api/src/resilience.rs] that reads an error's source chain.  [serde_json::Value]
    is the library's data type; an object is the library's ordered map. *)

From S2P Require Import Prelude.
Open Scope Z_scope.

(** ** Time *)

(** [std::time::Duration], in nanoseconds. *)
Abbreviation Duration := Z.
Definition from_millis (ms : Z) : Duration := ms * 1000000.
Definition as_millis (d : Duration) : Z := d `div` 1000000.

(** Milliseconds since the epoch, a [u64]. *)
Abbreviation Timestamp := Z.

(** [self.0.saturating_add(duration.as_millis() as u64)]: the cast keeps the low 64 bits. *)
Definition Timestamp_saturating_add (self : Timestamp) (duration : Duration) : Timestamp :=
  sat_add64 self (wrap64 (as_millis duration)).

Definition Timestamp_saturating_since (self earlier : Timestamp) : Duration :=
  from_millis (sat_sub self earlier).

Lemma as_millis_from_millis ms : as_millis (from_millis ms) = ms.
Proof. unfold as_millis, from_millis. by rewrite Z.div_mul. Qed.

Lemma saturating_add_millis t ms :
  u64_ok ms -> Timestamp_saturating_add t (from_millis ms) = sat_add64 t ms.
Proof.
  intros ?. unfold Timestamp_saturating_add. by rewrite as_millis_from_millis, wrap64_small.
Qed.

Lemma saturating_since_zero a b : Timestamp_saturating_since a b <= 0 <-> a <= b.
Proof. unfold Timestamp_saturating_since, from_millis. int_lia. Qed.

(** ** Errors *)

Inductive LifecyclePhase := Phase_Init | Phase_Start | Phase_Stop.

Inductive ErrorKind :=
  | Kind_Config | Kind_NotFound | Kind_Conflict | Kind_Wiring | Kind_Lifecycle
  | Kind_InvalidArgument | Kind_Unsupported | Kind_Permission | Kind_Confinement
  | Kind_Timeout | Kind_Cancelled | Kind_Serialization | Kind_Other.

(** [Error] and the boxed errors it can carry as a source: another [Error], a
    [TransientFailure], or an error type of another crate. *)
Inductive Error :=
  | Config (path message : string)
  | NotFound (kind id : string)
  | AlreadyExists (kind id : string)
  | Ambiguous (service : string) (candidates : list string)
  | MissingDependency (component dependency : string)
  | DependencyCycle (members : list string)
  | Lifecycle (message : string)
  | Component (component : string) (phase : LifecyclePhase) (source : BoxError)
  | InvalidArgument (message : string)
  | Unsupported (message : string)
  | PermissionDenied (message : string)
  | Confinement (message : string)
  | Timeout (after : Duration)
  | Cancelled
  | Serialization (source : BoxError)
  | Other (context : string) (source : option BoxError)
with BoxError :=
  | BoxKernel (e : Error)
  | BoxTransient (detail : string) (retry_after : option Duration) (source : option BoxError)
  | BoxForeign (display : string) (source : option BoxError).

Abbreviation Result := (result Error).

Definition Error_other (context : string) : Error := Other context None.
Definition Error_wrap (context : string) (source : BoxError) : Error := Other context (Some source).

(** [Error::kind] *)
Definition Error_kind (self : Error) : ErrorKind :=
  match self with
  | Config _ _ => Kind_Config
  | NotFound _ _ => Kind_NotFound
  | AlreadyExists _ _ => Kind_Conflict
  | Ambiguous _ _ | MissingDependency _ _ | DependencyCycle _ => Kind_Wiring
  | Lifecycle _ | Component _ _ _ => Kind_Lifecycle
  | InvalidArgument _ => Kind_InvalidArgument
  | Unsupported _ => Kind_Unsupported
  | PermissionDenied _ => Kind_Permission
  | Confinement _ => Kind_Confinement
  | Timeout _ => Kind_Timeout
  | Cancelled => Kind_Cancelled
  | Serialization _ => Kind_Serialization
  | Other _ _ => Kind_Other
  end.

(** [format!("{:?}", error.kind()).to_lowercase()], the spelling the audit trail keeps. *)
Definition ErrorKind_lowercase (k : ErrorKind) : string :=
  match k with
  | Kind_Config => "config" | Kind_NotFound => "notfound" | Kind_Conflict => "conflict"
  | Kind_Wiring => "wiring" | Kind_Lifecycle => "lifecycle"
  | Kind_InvalidArgument => "invalidargument" | Kind_Unsupported => "unsupported"
  | Kind_Permission => "permission" | Kind_Confinement => "confinement"
  | Kind_Timeout => "timeout" | Kind_Cancelled => "cancelled"
  | Kind_Serialization => "serialization" | Kind_Other => "other"
  end%string.

(** [std::error::Error::source] *)
Definition Error_source (self : Error) : option BoxError :=
  match self with
  | Component _ _ source | Serialization source => Some source
  | Other _ source => source
  | _ => None
  end.

(** A [TransientFailure] value. *)
Record TransientFailure := {
  tf_detail : string;
  tf_retry_after : option Duration;
  tf_source : option BoxError;
}.

Definition TransientFailure_new (detail : string) : TransientFailure :=
  {| tf_detail := detail; tf_retry_after := None; tf_source := None |}.

Definition TransientFailure_after (self : TransientFailure) (d : Duration) : TransientFailure :=
  {| tf_detail := tf_detail self; tf_retry_after := Some d; tf_source := tf_source self |}.

Definition TransientFailure_wrapped (self : TransientFailure) (context : string) : Error :=
  Error_wrap context (BoxTransient (tf_detail self) (tf_retry_after self) (tf_source self)).

(** The first [TransientFailure] along a chain of sources ([while let Some(source)]). *)
Fixpoint chain_transient (b : BoxError) : option TransientFailure :=
  match b with
  | BoxTransient detail retry_after source =>
      Some {| tf_detail := detail; tf_retry_after := retry_after; tf_source := source |}
  | BoxForeign _ None => None
  | BoxForeign _ (Some b) => chain_transient b
  | BoxKernel e =>
      match e with
      | Component _ _ b | Serialization b => chain_transient b
      | Other _ (Some b) => chain_transient b
      | _ => None
      end
  end.

Definition transient_failure (error : Error) : option TransientFailure :=
  match error with
  | Cancelled | Timeout _ => None
  | _ => match Error_source error with
         | Some source => chain_transient source
         | None => None
         end
  end.

(** ** JSON values *)

(** [serde_json::Number]: an integer, or a double written [m * 2^e] with [m] odd (or zero),
    so that equality is the library's. *)
Inductive Number := NInt (z : Z) | NFloat (m e : Z).
#[export] Instance Number_eq_dec : EqDecision Number.
Proof. solve_decision. Defined.

(** [serde_json::Value]; an object's entries are in key order, as in its [BTreeMap]. *)
Inductive Value :=
  | VNull
  | VBool (b : bool)
  | VNumber (n : Number)
  | VString (s : string)
  | VArray (items : list Value)
  | VObject (entries : list (string * Value)).

Abbreviation Map := (list (string * Value)).

Section Value_ind.
  Context (P : Value -> Prop).
  Hypothesis Hnull : P VNull.
  Hypothesis Hbool : forall b, P (VBool b).
  Hypothesis Hnumber : forall n, P (VNumber n).
  Hypothesis Hstring : forall s, P (VString s).
  Hypothesis Harray : forall l, Forall P l -> P (VArray l).
  Hypothesis Hobject : forall m, Forall (fun kv => P (snd kv)) m -> P (VObject m).

Fixpoint Value_nested_ind (v : Value) : P v :=
  match v with
  | VNull => Hnull
  | VBool b => Hbool b
  | VNumber n => Hnumber n
  | VString s => Hstring s
  | VArray l => Harray l
      ((fix go l : Forall P l :=
          match l with
          | [] => Forall_nil_2 P
          | v :: l => Forall_cons_2 P v l (Value_nested_ind v) (go l)
          end) l)
  | VObject m => Hobject m
      ((fix go m : Forall (fun kv => P (snd kv)) m :=
          match m with
          | [] => Forall_nil_2 _
          | kv :: m => Forall_cons_2 _ kv m (Value_nested_ind (snd kv)) (go m)
          end) m)
  end.
End Value_ind.

(** [PartialEq for Value] *)
Fixpoint Value_eqb (x y : Value) : bool :=
  match x, y with
  | VNull, VNull => true
  | VBool a, VBool b => Bool.eqb a b
  | VNumber a, VNumber b => bool_decide (a = b)
  | VString a, VString b => bool_decide (a = b)
  | VArray l, VArray k =>
      (fix go l k := match l, k with
                     | [], [] => true
                     | a :: l, b :: k => Value_eqb a b && go l k
                     | _, _ => false
                     end) l k
  | VObject l, VObject k =>
      (fix go l k := match l, k with
                     | [], [] => true
                     | (i, a) :: l, (j, b) :: k => bool_decide (i = j) && Value_eqb a b && go l k
                     | _, _ => false
                     end) l k
  | _, _ => false
  end.

Lemma Value_eqb_eq x y : Value_eqb x y = true <-> x = y.
Proof.
  revert y. induction x as [|b|n|s|l IH|m IH] using Value_nested_ind; intros y; destruct y; simpl;
    try (split; [done|congruence]).
  - rewrite Bool.eqb_true_iff. split; congruence.
  - rewrite bool_decide_eq_true. split; congruence.
  - rewrite bool_decide_eq_true. split; congruence.
  - transitivity (l = items); [|split; congruence].
    revert items. induction IH as [|v l Hv _ IH]; intros [|w k]; try (split; congruence).
    rewrite andb_true_iff, Hv, IH. split; [intros [-> ->]|intros [= -> ->]]; done.
  - transitivity (m = entries); [|split; congruence].
    revert entries.
    induction IH as [|[i v] m Hv _ IH]; intros [|[j w] k]; try (split; congruence).
    simpl in Hv. rewrite !andb_true_iff, Hv, IH, bool_decide_eq_true.
    split; [intros [[-> ->] ->]|intros [= -> -> ->]]; done.
Qed.

#[export] Instance Value_eq_dec : EqDecision Value.
Proof.
  intros x y. destruct (Value_eqb x y) eqn:E.
  - left. by apply Value_eqb_eq.
  - right. intros H%Value_eqb_eq. congruence.
Defined.

(** [Map::get] *)
Fixpoint Map_get (key : string) (m : Map) : option Value :=
  match m with
  | [] => None
  | (k, v) :: m => if decide (key = k) then Some v else Map_get key m
  end.

(** [Map::insert]: in key order, replacing an equal key. *)
Fixpoint Map_insert (key : string) (value : Value) (m : Map) : Map :=
  match m with
  | [] => [(key, value)]
  | (k, v) :: m =>
      if decide (key = k) then (k, value) :: m
      else if String.ltb key k then (key, value) :: (k, v) :: m
      else (k, v) :: Map_insert key value m
  end.

(** [json!] of an object *)
Definition json_object (entries : list (string * Value)) : Value :=
  VObject (foldl (fun m p => Map_insert (fst p) (snd p) m) [] entries).

Lemma Map_get_insert_eq k v m : Map_get k (Map_insert k v m) = Some v.
Proof.
  induction m as [|[j w] m IH]; simpl.
  { by rewrite decide_True. }
  case_decide; simpl; [by rewrite decide_True|].
  case_match; simpl; [by rewrite decide_True|by rewrite decide_False].
Qed.

Lemma Map_get_insert_ne k j v m : k <> j -> Map_get k (Map_insert j v m) = Map_get k m.
Proof.
  intros Hne. induction m as [|[i w] m IH]; simpl.
  { by rewrite decide_False. }
  case_decide as Hj; simpl.
  { subst. by rewrite !decide_False by done. }
  case_match; simpl.
  - by rewrite (decide_False (P := k = j)).
  - case_decide; [done|apply IH].
Qed.

(** [Value::get] with a string index: an object's entry, and nothing for the rest. *)
Definition Value_get (v : Value) (key : string) : option Value :=
  match v with VObject m => Map_get key m | _ => None end.

(** [Value::as_str] *)
Definition Value_as_str (v : Value) : option string :=
  match v with VString s => Some s | _ => None end.

Definition Value_is_null (v : Value) : bool :=
  match v with VNull => true | _ => false end.

(** ** Principals and permission requests *)

(** Identifiers are strings with a name of their own; a generated (UUID) identifier is its
    textual form. *)
Abbreviation PrincipalId := string.
Abbreviation ActionId := string.
Abbreviation ResourceId := string.
Abbreviation CorrelationId := string.
Abbreviation ComponentId := string.

Inductive PrincipalKind := User | Agent | Plugin | System | External.
#[export] Instance PrincipalKind_eq_dec : EqDecision PrincipalKind.
Proof. solve_decision. Defined.

Record Principal := {
  principal_id : PrincipalId;
  principal_kind : PrincipalKind;
  on_behalf_of : option PrincipalId;
}.

Definition Principal_SYSTEM : string := "system".

Definition Principal_new (id : PrincipalId) (kind : PrincipalKind) : Principal :=
  {| principal_id := id; principal_kind := kind; on_behalf_of := None |}.

Definition Principal_system : Principal := Principal_new Principal_SYSTEM System.

(** [Principal::on_behalf_of] *)
Definition Principal_on_behalf_of (self : Principal) (p : PrincipalId) : Principal :=
  {| principal_id := principal_id self; principal_kind := principal_kind self;
     on_behalf_of := Some p |}.

Definition may_act_for (self : Principal) (owner : PrincipalId) : bool :=
  bool_decide (principal_id self = owner) || bool_decide (on_behalf_of self = Some owner).

Lemma may_act_for_spec p owner :
  may_act_for p owner = true <-> principal_id p = owner \/ on_behalf_of p = Some owner.
Proof. unfold may_act_for. by rewrite orb_true_iff, !bool_decide_eq_true. Qed.

Record PermissionRequest := {
  req_principal : Principal;
  req_action : ActionId;
  req_resource : option ResourceId;
  req_context : Value;
}.

Inductive Decision :=
  | Allow
  | Deny (reason : string)
  | RequireApproval (prompt : string).

(** ** The execution context

    The cancellation token is shared with whoever may cancel; [cancellation] is what it says
    when it is read. *)
Record ExecutionContext := {
  correlation : CorrelationId;
  principal : option Principal;
  deadline : option Timestamp;
  cancellation : bool;
  attributes : Map;
}.

Definition principal_or_system (cx : ExecutionContext) : Principal :=
  match principal cx with Some p => p | None => Principal_system end.

(** [ExecutionContext::child] *)
Definition cx_child (cx : ExecutionContext) : ExecutionContext :=
  {| correlation := correlation cx; principal := principal cx; deadline := deadline cx;
     cancellation := cancellation cx; attributes := attributes cx |}.

(** [ExecutionContext::with_attribute] *)
Definition with_attribute (cx : ExecutionContext) (key : string) (v : Value) : ExecutionContext :=
  {| correlation := correlation cx; principal := principal cx; deadline := deadline cx;
     cancellation := cancellation cx; attributes := Map_insert key v (attributes cx) |}.

(** [ExecutionContext::is_expired] at the clock reading [now]. *)
Definition is_expired (cx : ExecutionContext) (now : Timestamp) : bool :=
  cancellation cx || match deadline cx with Some d => d <=? now | None => false end.
