(* ===== verification/Cron.v ===== *)
(** * Cron: the scheduler's cron dialect

    [crates/scheduler/src/cron.rs].  An expression is five fields, each a set of values; the
    next occurrence is found by skipping from a candidate minute past every month, day, hour
    and minute that does not match.  The calendar is [chrono]'s: its operations are the class
    [Calendar], its documented behaviour the class [CalendarLaws]. *)

From S2P Require Import Prelude Base.

(** ** Fields *)

Record Field := { included : list bool; is_wildcard : bool }.

(** One comma-separated part of a field: its first value, its last and its step. *)
Definition parse_part (min max : Z) (part : string) : result string (Z * Z * Z) :=
  let u32 := parse_uint u32_max in
  let? (range, step) :=
    match split_once "/" part with
    | Some (range, step) =>
        let? step := ok_or (u32 step) ("invalid step in `" +:+ part +:+ "`") in Ok (range, step)
    | None => Ok (part, 1)
    end in
  if step =? 0 then Err ("step of zero in `" +:+ part +:+ "`")
  else
    let invalid := "invalid value in `" +:+ part +:+ "`" in
    let? (start, end_) :=
      if bool_decide (range = "*"%string) then Ok (min, max)
      else match split_once "-" range with
           | Some (a, b) =>
               let? a := ok_or (u32 a) invalid in
               let? b := ok_or (u32 b) invalid in
               Ok (a, b)
           | None => let? v := ok_or (u32 range) invalid in Ok (v, v)
           end in
    if (start <? min) || (max <? end_) || (end_ <? start) then
      Err ("`" +:+ part +:+ "` is outside the range " +:+ fmt_u min +:+ "-" +:+ fmt_u max)
    else Ok (start, end_, step).

(** [while v <= end { included[v] = true; v += step }].  No value is the overflow of [v += step],
    which panics or wraps with the build; a step advances [v], so one turn per value is enough. *)
Fixpoint mark (fuel : nat) (v end_ step : Z) (included : list bool) : option (list bool) :=
  match fuel with
  | O => Some included
  | S fuel =>
      if end_ <? v then Some included
      else if u32_max <? v + step then None
      else mark fuel (v + step) end_ step (<[Z.to_nat v := true]> included)
  end.

Fixpoint parse_parts (min max : Z) (parts : list string) (included : list bool) :
    option (result string (list bool)) :=
  match parts with
  | [] => Some (Ok included)
  | part :: parts =>
      match parse_part min max part with
      | Err e => Some (Err e)
      | Ok (start, end_, step) =>
          match mark (S (Z.to_nat max)) start end_ step included with
          | Some included => parse_parts min max parts included
          | None => None
          end
      end
  end.

(** [Field::parse] *)
Definition Field_parse (text : string) (min max : Z) : option (result string Field) :=
  match parse_parts min max (split_char "," text) (replicate (S (Z.to_nat max)) false) with
  | Some (Ok included) => Some (Ok {| included := included; is_wildcard := bool_decide (text = "*"%string) |})
  | Some (Err e) => Some (Err e)
  | None => None
  end.

(** [Field::contains] *)
Definition contains (self : Field) (value : Z) : bool := default false (included self !! Z.to_nat value).

(** ** Expressions *)

Record CronSchedule := {
  minute : Field;
  hour : Field;
  day_of_month : Field;
  month : Field;
  day_of_week : Field;
}.

(** The fields are parsed in the order the code evaluates them: the day of the week first. *)
Definition parse_field (text : string) (min max : Z) (k : Field -> option (result string CronSchedule)) :
    option (result string CronSchedule) :=
  match Field_parse text min max with
  | Some (Ok field) => k field
  | Some (Err e) => Some (Err e)
  | None => None
  end.

Definition fold_sunday (dow : Field) : Field :=
  if contains dow 7 then {| included := <[0%nat := true]> (included dow); is_wildcard := is_wildcard dow |}
  else dow.

(** [CronSchedule::parse] *)
Definition CronSchedule_parse (expression : string) : option (result string CronSchedule) :=
  let fields := split_whitespace expression in
  match fields with
  | [minute; hour; day_of_month; month; day_of_week] =>
      parse_field day_of_week 0 7 (fun dow =>
      parse_field minute 0 59 (fun minute =>
      parse_field hour 0 23 (fun hour =>
      parse_field day_of_month 1 31 (fun dom =>
      parse_field month 1 12 (fun month =>
        Some (Ok {| minute := minute; hour := hour; day_of_month := dom; month := month;
                    day_of_week := fold_sunday dow |}))))))
  | _ => Some (Err ("expected 5 fields (minute hour day-of-month month day-of-week), found "
                    +:+ fmt_u (Z.of_nat (length fields))))
  end.

(** ** Searching the calendar *)

(** The operations of [chrono::DateTime<Utc>] the search uses.  Adding a duration panics past
    the last representable instant, which is no value. *)
Class Calendar := {
  DateTime : Type;
  timestamp_millis_opt : Z -> option DateTime;
  timestamp_millis : DateTime -> Z;
  date_year : DateTime -> Z;
  date_month : DateTime -> Z;
  date_day : DateTime -> Z;
  date_weekday : DateTime -> Z;
  time_hour : DateTime -> Z;
  time_minute : DateTime -> Z;
  with_second : Z -> DateTime -> option DateTime;
  with_nanosecond : Z -> DateTime -> option DateTime;
  with_minute : Z -> DateTime -> option DateTime;
  with_hour : Z -> DateTime -> option DateTime;
  with_day : Z -> DateTime -> option DateTime;
  add_minutes : Z -> DateTime -> option DateTime;
  add_hours : Z -> DateTime -> option DateTime;
  add_days : Z -> DateTime -> option DateTime;
  checked_add_months : Z -> DateTime -> option DateTime;
}.

(** The documented behaviour of those operations in UTC, for the instants outside leap seconds,
    which are the only ones [timestamp_millis_opt] and the operations below produce: fields are
    read from the instant, the [with_] operations zero a field, additions move by their duration,
    and fail only in the last representable year. *)
Class CalendarLaws `(Calendar) := {
  max_year : Z;
  law_of_millis m dt : timestamp_millis_opt m = Some dt -> timestamp_millis dt = m;
  law_with_second dt : exists t, with_second 0 dt = Some t /\
    timestamp_millis t = timestamp_millis dt `div` 60000 * 60000 + timestamp_millis dt `mod` 1000;
  law_with_nanosecond dt : exists t, with_nanosecond 0 dt = Some t /\
    timestamp_millis t = timestamp_millis dt `div` 1000 * 1000;
  law_with_minute dt : exists t, with_minute 0 dt = Some t /\
    timestamp_millis t = timestamp_millis dt - time_minute dt * 60000;
  law_with_hour dt : exists t, with_hour 0 dt = Some t /\
    timestamp_millis t = timestamp_millis dt - time_hour dt * 3600000;
  law_with_day dt : exists t, with_day 1 dt = Some t /\
    timestamp_millis t = timestamp_millis dt - (date_day dt - 1) * 86400000;
  law_minute dt : time_minute dt = (timestamp_millis dt `div` 60000) `mod` 60;
  law_hour dt : time_hour dt = (timestamp_millis dt `div` 3600000) `mod` 24;
  law_date x y : timestamp_millis x `div` 86400000 = timestamp_millis y `div` 86400000 ->
    date_year x = date_year y /\ date_month x = date_month y /\ date_day x = date_day y /\
    date_weekday x = date_weekday y;
  law_add_minutes n dt t : add_minutes n dt = Some t -> timestamp_millis t = timestamp_millis dt + n * 60000;
  law_add_hours n dt t : add_hours n dt = Some t -> timestamp_millis t = timestamp_millis dt + n * 3600000;
  law_add_days n dt t : add_days n dt = Some t -> timestamp_millis t = timestamp_millis dt + n * 86400000;
  law_add_months dt t : date_day dt = 1 -> timestamp_millis dt `mod` 86400000 = 0 ->
    checked_add_months 1 dt = Some t ->
    timestamp_millis t `mod` 86400000 = 0 /\
    forall x, timestamp_millis dt <= timestamp_millis x ->
      timestamp_millis x < timestamp_millis t <-> date_year x = date_year dt /\ date_month x = date_month dt;
  law_first_day x y : timestamp_millis y = timestamp_millis x - (date_day x - 1) * 86400000 ->
    date_day y = 1 /\ date_month y = date_month x /\ date_year y = date_year x /\
    timestamp_millis y <= timestamp_millis x;
  law_year x y : timestamp_millis x <= timestamp_millis y ->
    date_year x <= date_year y /\
    timestamp_millis y - timestamp_millis x <= 366 * 86400000 * (date_year y - date_year x + 1);
  law_add_total dt : date_year dt < max_year ->
    is_Some (add_minutes 1 dt) /\ is_Some (add_hours 1 dt) /\ is_Some (add_days 1 dt) /\
    is_Some (checked_add_months 1 dt);
}.

(** How a search ends.  [OutOfFuel] is not an outcome of the code. *)
Inductive Search := Found (at_ : Timestamp) | NotFound | Panicked | OutOfFuel.

Definition SEARCH_HORIZON_YEARS : Z := 8.

Section Search.
  Context `{Calendar}.

Definition truncate_to_minute (dt : DateTime) : option DateTime := dt ← with_second 0 dt; with_nanosecond 0 dt.
Definition start_of_hour (dt : DateTime) : option DateTime := dt ← truncate_to_minute dt; with_minute 0 dt.
Definition start_of_day (dt : DateTime) : option DateTime := dt ← start_of_hour dt; with_hour 0 dt.

Definition day_matches (self : CronSchedule) (date : DateTime) : bool :=
  let dom_ok := contains (day_of_month self) (date_day date) in
  let dow_ok := contains (day_of_week self) (date_weekday date) in
  match is_wildcard (day_of_month self), is_wildcard (day_of_week self) with
  | true, true => true
  | true, false => dow_ok
  | false, true => dom_ok
  | false, false => dom_ok || dow_ok
  end.

(** One turn of [next_after]'s loop: the next candidate, or how the search ends. *)
Definition search_step (self : CronSchedule) (horizon : Z) (candidate : DateTime) : DateTime + Search :=
  let advance (next : option DateTime) := match next with Some c => inl c | None => inr Panicked end in
  if horizon <? date_year candidate then inr NotFound
  else if negb (contains (month self) (date_month candidate)) then
    match start_of_day candidate with
    | None => inr Panicked
    | Some day =>
        match (first ← with_day 1 day; checked_add_months 1 first) with
        | Some c => inl c
        | None => inr NotFound
        end
    end
  else if negb (day_matches self candidate) then advance (day ← start_of_day candidate; add_days 1 day)
  else if negb (contains (hour self) (time_hour candidate)) then
    advance (h ← start_of_hour candidate; add_hours 1 h)
  else if negb (contains (minute self) (time_minute candidate)) then advance (add_minutes 1 candidate)
  else
    let millis := timestamp_millis candidate in
    inr (if 0 <=? millis then Found millis else NotFound).

(** The loop, run for up to [2^n] turns. *)
Fixpoint search (n : nat) (self : CronSchedule) (horizon : Z) (candidate : DateTime) : DateTime + Search :=
  match n with
  | O => search_step self horizon candidate
  | S n => match search n self horizon candidate with
           | inl candidate => search n self horizon candidate
           | inr r => inr r
           end
  end.

Definition i64_max : Z := 2 ^ 63 - 1.

(** [CronSchedule::next_after].  Each turn advances the candidate by at least a minute, and
    the horizon is less than [2^23] minutes away. *)
Definition next_after (self : CronSchedule) (after : Timestamp) : Search :=
  match (if after <=? i64_max then timestamp_millis_opt after else None) with
  | None => NotFound
  | Some after =>
      match (t ← truncate_to_minute after; add_minutes 1 t) with
      | None => Panicked
      | Some candidate =>
          match search 23 self (date_year after + SEARCH_HORIZON_YEARS) candidate with
          | inl _ => OutOfFuel
          | inr r => r
          end
      end
  end.
End Search.

(** ** Parsing a field *)

Lemma parse_part_ok min max part s e st :
  parse_part min max part = Ok (s, e, st) -> min <= s /\ s <= e /\ e <= max /\ 1 <= st.
Proof.
  unfold parse_part. rewrite result_bind_ok. intros ([range step] & Hstep & Hrest).
  assert (0 <= step) as Hnn.
  { destruct (split_once "/" part) as [[r t]|]; [|by injection Hstep as _ <-; lia].
    apply result_bind_ok in Hstep as (x & Hx & [= _ <-]).
    destruct (parse_uint u32_max t) eqn:E; [|done]. injection Hx as <-. apply parse_uint_bounds in E; [lia|done]. }
  destruct (Z.eqb_spec step 0) as [|H0]; [done|].
  apply result_bind_ok in Hrest as ([s' e'] & _ & Hrest).
  destruct ((s' <? min) || (max <? e') || (e' <? s')) eqn:E; [done|]. injection Hrest as <- <- <-.
  bools. lia.
Qed.

(** The values a part stands for. *)
Definition in_part (s e st v : Z) : bool := (s <=? v) && (v <=? e) && ((v - s) `mod` st =? 0).

Lemma in_part_step s e st v :
  1 <= st -> s <= e -> in_part s e st v = bool_decide (v = s) || in_part (s + st) e st v.
Proof.
  intros Hst Hse. unfold in_part. apply Bool.eq_iff_eq_true.
  rewrite orb_true_iff, !andb_true_iff, bool_decide_eq_true, !Z.leb_le, !Z.eqb_eq.
  replace (v - (s + st)) with (v - s + (-1) * st) by lia. rewrite Z.mod_add by lia.
  split.
  - intros [[Hs He] Hm]. destruct (decide (v = s)) as [|Hne]; [by left|right].
    split_and!; [|done|done]. apply Z.div_exact in Hm; [|lia].
    assert (0 < (v - s) `div` st); nia.
  - intros [->|[[Hs He] Hm]]; [|lia]. rewrite Z.sub_diag, Z.mod_0_l by lia. lia.
Qed.

Lemma mark_spec fuel v e st inc :
  0 <= v -> 1 <= st -> (Z.to_nat e < length inc)%nat -> e - v < Z.of_nat fuel ->
  match mark fuel v e st inc with
  | Some inc' => length inc' = length inc /\
      forall x, 0 <= x -> default false (inc' !! Z.to_nat x) = default false (inc !! Z.to_nat x) || in_part v e st x
  | None => u32_max < e + st
  end.
Proof.
  revert v inc. induction fuel as [|fuel IH]; intros v inc Hv Hst Hlen Hf; simpl.
  { split; [done|]. intros x Hx. unfold in_part. destruct (Z.leb_spec v x), (Z.leb_spec x e); try lia;
      by rewrite ?orb_false_r. }
  destruct (Z.ltb_spec e v) as [He|He].
  { split; [done|]. intros x Hx. unfold in_part. destruct (Z.leb_spec v x), (Z.leb_spec x e); try lia;
      by rewrite ?orb_false_r. }
  destruct (Z.ltb_spec u32_max (v + st)) as [Ho|Ho]; [lia|].
  specialize (IH (v + st) (<[Z.to_nat v := true]> inc)).
  rewrite length_insert in IH. specialize (IH ltac:(lia) Hst Hlen ltac:(lia)).
  destruct (mark fuel (v + st) e st _) as [inc'|]; [|done]. destruct IH as [-> IH]. split; [done|].
  intros x Hx. rewrite IH by done. rewrite (in_part_step v e st x) by lia. rewrite orb_assoc. f_equal.
  destruct (decide (x = v)) as [->|Hne].
  - rewrite list_lookup_insert_eq by lia. rewrite bool_decide_true by done. by rewrite orb_true_r.
  - rewrite list_lookup_insert_ne by lia. rewrite bool_decide_false by done. by rewrite orb_false_r.
Qed.

Lemma parse_parts_spec min max parts inc :
  0 <= min -> length inc = S (Z.to_nat max) ->
  match parse_parts min max parts inc with
  | Some (Ok inc') => Forall (fun part => is_ok (parse_part min max part) = true) parts /\
      forall x, 0 <= x -> default false (inc' !! Z.to_nat x) = true <->
        default false (inc !! Z.to_nat x) = true \/
        exists part s e st, part ∈ parts /\ parse_part min max part = Ok (s, e, st) /\ in_part s e st x = true
  | Some (Err err) => exists part, part ∈ parts /\ parse_part min max part = Err err
  | None => exists part s e st, part ∈ parts /\ parse_part min max part = Ok (s, e, st) /\ u32_max < e + st
  end.
Proof.
  intros Hmin. revert inc. induction parts as [|part parts IH]; intros inc Hlen; cbn [parse_parts].
  { split; [constructor|]. intros x _. split; [by left|]. intros [?|(? & ? & ? & ? & Hin & _)]; [done|].
    by apply not_elem_of_nil in Hin. }
  destruct (parse_part min max part) as [[[s e] st]|err] eqn:E; [|exists part; split; [left|done]].
  pose proof (parse_part_ok _ _ _ _ _ _ E) as (Hs & Hse & He & Hst).
  pose proof (mark_spec (S (Z.to_nat max)) s e st inc ltac:(lia) Hst ltac:(lia) ltac:(lia)) as Hm.
  destruct (mark _ _ _ _ _) as [inc1|]; [|exists part, s, e, st; split; [left|done]].
  destruct Hm as [Hlen1 Hm]. specialize (IH inc1 ltac:(congruence)).
  destruct (parse_parts min max parts inc1) as [[inc'|err]|].
  - destruct IH as [Hall IH]. split; [constructor; [by rewrite E|done]|]. intros x Hx.
    rewrite IH, Hm, orb_true_iff by done. split.
    + intros [[?|Hp]|(p & s' & e' & st' & Hin & ?)]; [by left|right|right].
      * exists part, s, e, st. split_and!; [left|done..].
      * exists p, s', e', st'. split; [by right|done].
    + intros [?|(p & s' & e' & st' & [->|Hin]%elem_of_cons & Hp & ?)]; [by left; left| |].
      * rewrite E in Hp. injection Hp as <- <- <-. by left; right.
      * right. by exists p, s', e', st'.
  - destruct IH as (p & ? & ?). exists p. split; [by right|done].
  - destruct IH as (p & s' & e' & st' & ? & ?). exists p, s', e', st'. split; [by right|done].
Qed.

(**  A cron field means what its syntax says.  When it parses, a value is included exactly
    when some comma-separated part covers it - between the part's first and last value, a whole
    number of steps from the first - and every part lies within the field's range; when it is
    refused, some part is malformed, out of range or has a step of zero; and the only other
    outcome, an arithmetic overflow, needs a step that leaves the range of a [u32]. *)
Theorem Field_parse_correct text min max :
  0 <= min ->
  match Field_parse text min max with
  | Some (Ok field) =>
      (forall v, 0 <= v -> contains field v = true <->
         exists part s e st, part ∈ split_char "," text /\ parse_part min max part = Ok (s, e, st) /\
           min <= s /\ e <= max /\ s <= v <= e /\ (v - s) `mod` st = 0) /\
      (is_wildcard field = true <-> text = "*"%string)
  | Some (Err err) => exists part, part ∈ split_char "," text /\ parse_part min max part = Err err
  | None => exists part s e st, part ∈ split_char "," text /\ parse_part min max part = Ok (s, e, st) /\
              u32_max < e + st
  end.
Proof.
  intros Hmin. unfold Field_parse.
  pose proof (parse_parts_spec min max (split_char "," text) (replicate (S (Z.to_nat max)) false) Hmin
                ltac:(by rewrite length_replicate)) as H.
  destruct (parse_parts _ _ _ _) as [[inc|err]|]; [|done..]. destruct H as [_ H].
  split; [|cbn [is_wildcard]; by rewrite bool_decide_eq_true]. intros v Hv. unfold contains. cbn [included]. rewrite H by done. split.
  - intros [Hf|(part & s & e & st & Hin & Hp & Hv')].
    + destruct (replicate _ false !! Z.to_nat v) eqn:E; [|done]. apply lookup_replicate in E as [-> _]. done.
    + exists part, s, e, st. pose proof (parse_part_ok _ _ _ _ _ _ Hp). unfold in_part in Hv'. bools.
      split_and!; try done; try lia.
  - intros (part & s & e & st & Hin & Hp & _ & _ & Hse & Hm). right. exists part, s, e, st.
    split_and!; [done..|]. unfold in_part. rewrite !andb_true_iff, !Z.leb_le, Z.eqb_eq. done.
Qed.

(** Two parts that parse, one of them with a step. *)
Lemma Field_parse_correct_witness :
  0 <= 0 /\ exists field, Field_parse "5,10-20/4" 0 59 = Some (Ok field) /\
    (contains field 14 = true <->
     exists part s e st, part ∈ split_char "," "5,10-20/4" /\ parse_part 0 59 part = Ok (s, e, st) /\
       0 <= s /\ e <= 59 /\ s <= 14 <= e /\ (14 - s) `mod` st = 0).
Proof.
  split; [lia|]. pose proof (Field_parse_correct "5,10-20/4" 0 59 ltac:(lia)) as H.
  destruct (Field_parse "5,10-20/4" 0 59) as [[f|e]|] eqn:E; [|vm_compute in E; discriminate..].
  exists f. split; [done|]. destruct H as [H _]. apply H. lia.
Defined.

(** ** Finding the next occurrence *)

Section Next.
  Context {C : Calendar} {L : CalendarLaws C}.
#[local] Set Default Proof Using "Type*".

  Abbreviation ms := timestamp_millis.

#[local] Ltac Zify.zify_post_hook ::= Z.to_euclidean_division_equations.

(** The instants an expression names: a whole minute every field agrees with. *)
Definition matches (self : CronSchedule) (dt : DateTime) : Prop :=
  ms dt `mod` 60000 = 0 /\ contains (month self) (date_month dt) = true /\ day_matches self dt = true /\
  contains (hour self) (time_hour dt) = true /\ contains (minute self) (time_minute dt) = true.

Lemma truncate_to_minute_ms dt :
  exists t, truncate_to_minute dt = Some t /\ ms t = ms dt `div` 60000 * 60000.
Proof.
  destruct (law_with_second dt) as (s & Hs & Es). destruct (law_with_nanosecond s) as (t & Ht & Et).
  exists t. unfold truncate_to_minute. rewrite Hs. split; [done|]. rewrite Et, Es. lia.
Qed.

Lemma start_of_hour_ms dt : exists t, start_of_hour dt = Some t /\ ms t = ms dt `div` 3600000 * 3600000.
Proof.
  destruct (truncate_to_minute_ms dt) as (s & Hs & Es). destruct (law_with_minute s) as (t & Ht & Et).
  exists t. unfold start_of_hour. rewrite Hs. split; [done|]. rewrite Et, law_minute, Es. lia.
Qed.

Lemma start_of_day_ms dt : exists t, start_of_day dt = Some t /\ ms t = ms dt `div` 86400000 * 86400000.
Proof.
  destruct (start_of_hour_ms dt) as (s & Hs & Es). destruct (law_with_hour s) as (t & Ht & Et).
  exists t. unfold start_of_day. rewrite Hs. split; [done|]. rewrite Et, law_hour, Es. lia.
Qed.

(** Instants of one day, of one hour, of one minute agree on what is constant there. *)
Lemma same_day_matches self x y :
  ms x `div` 86400000 = ms y `div` 86400000 -> day_matches self x = day_matches self y.
Proof. intros (_ & _ & Hd & Hw)%law_date. unfold day_matches. by rewrite Hd, Hw. Qed.

Lemma same_hour x y : ms x `div` 3600000 = ms y `div` 3600000 -> time_hour x = time_hour y.
Proof. intros E. by rewrite !law_hour, E. Qed.

Lemma same_minute x y : ms x `div` 60000 = ms y `div` 60000 -> time_minute x = time_minute y.
Proof. intros E. by rewrite !law_minute, E. Qed.

(** Skipping a month that does not match: the next candidate starts the following month. *)
Lemma next_month_ms c day first t :
  start_of_day c = Some day -> with_day 1 day = Some first -> checked_add_months 1 first = Some t ->
  ms t `mod` 86400000 = 0 /\ ms c < ms t /\ forall x, ms c <= ms x < ms t -> date_month x = date_month c.
Proof.
  intros Hday Hfirst Ht.
  destruct (start_of_day_ms c) as (d & Hd & Ed). rewrite Hday in Hd. injection Hd as <-.
  destruct (law_with_day day) as (f & Hf & Ef). rewrite Hfirst in Hf. injection Hf as <-.
  destruct (law_date c day ltac:(lia)) as (Ey & Em & Ed' & _).
  destruct (law_first_day day first Ef) as (H1 & Hm & Hy & Hle).
  destruct (law_add_months first t H1 ltac:(lia) Ht) as (Hmod & Hin).
  assert (ms c < ms t) by (apply Hin; [lia|split; congruence]). split_and!; [done..|].
  intros x Hx. destruct (proj1 (Hin x ltac:(lia)) ltac:(lia)). congruence.
Qed.

(** A turn that continues moves to a later whole minute and skips nothing that matches. *)
Lemma search_step_continue self horizon c c' :
  ms c `mod` 60000 = 0 -> search_step self horizon c = inl c' ->
  date_year c <= horizon /\ ms c' `mod` 60000 = 0 /\ ms c + 60000 <= ms c' /\
  forall x, ms c <= ms x < ms c' -> ~ matches self x.
Proof.
  intros Hc. unfold search_step. destruct (Z.ltb_spec horizon (date_year c)) as [|Hy]; [done|].
  destruct (contains (month self) (date_month c)) eqn:Em; cbn [negb].
  2: { destruct (start_of_day c) as [d|] eqn:Ed; [|done]. simpl.
       destruct (with_day 1 d) as [f|] eqn:Ef; simpl; [|done].
       destruct (checked_add_months 1 f) as [t|] eqn:Et; [|done]. intros [= <-].
       destruct (next_month_ms c d f t Ed Ef Et) as (Hmod & Hlt & Hmon).
       split_and!; [done|lia|lia|]. intros x Hx (_ & Hm & _). rewrite (Hmon x Hx) in Hm. congruence. }
  destruct (day_matches self c) eqn:Ed; cbn [negb].
  2: { destruct (start_of_day_ms c) as (d & -> & Hd). simpl.
       destruct (add_days 1 d) as [t|] eqn:Et; [|done]. intros [= <-]. apply law_add_days in Et.
       split_and!; [done|lia|lia|]. intros x Hx (_ & _ & Hm & _).
       rewrite (same_day_matches self x c) in Hm by lia. congruence. }
  destruct (contains (hour self) (time_hour c)) eqn:Eh; cbn [negb].
  2: { destruct (start_of_hour_ms c) as (d & -> & Hd). simpl.
       destruct (add_hours 1 d) as [t|] eqn:Et; [|done]. intros [= <-]. apply law_add_hours in Et.
       split_and!; [done|lia|lia|]. intros x Hx (_ & _ & _ & Hm & _).
       rewrite (same_hour x c) in Hm by lia. congruence. }
  destruct (contains (minute self) (time_minute c)) eqn:Ei; cbn [negb]; [done|].
  destruct (add_minutes 1 c) as [t|] eqn:Et; [|done]. intros [= <-]. apply law_add_minutes in Et.
  split_and!; [done|lia|lia|]. intros x Hx (_ & _ & _ & _ & Hm).
  rewrite (same_minute x c) in Hm by lia. congruence.
Qed.

(** A turn that stops found its candidate, or has nothing to find before the horizon. *)
Lemma search_step_stop self horizon c r :
  ms c `mod` 60000 = 0 -> horizon < max_year -> search_step self horizon c = inr r ->
  (matches self c /\ r = (if 0 <=? ms c then Found (ms c) else NotFound)) \/ (r = NotFound /\ horizon < date_year c).
Proof.
  intros Hc Hmax. unfold search_step.
  destruct (Z.ltb_spec horizon (date_year c)) as [|Hy]; [intros [= <-]; by right|].
  destruct (start_of_day_ms c) as (d & -> & Hd). destruct (start_of_hour_ms c) as (h & -> & Hh). simpl.
  destruct (law_with_day d) as (f & -> & Ef). simpl.
  destruct (law_first_day d f Ef) as (_ & _ & Hfy & _).
  pose proof (proj1 (law_year d c ltac:(lia))). pose proof (proj1 (law_year h c ltac:(lia))).
  destruct (law_add_total d) as (_ & _ & [? ->] & _); [lia|].
  destruct (law_add_total h) as (_ & [? ->] & _); [lia|].
  destruct (law_add_total c) as ([? ->] & _); [lia|].
  destruct (law_add_total f) as (_ & _ & _ & [? ->]); [lia|].
  destruct (contains (month self) (date_month c)) eqn:Em; [|done].
  destruct (day_matches self c) eqn:Ed; [|done].
  destruct (contains (hour self) (time_hour c)) eqn:Eh; [|done].
  destruct (contains (minute self) (time_minute c)) eqn:Ei; [|done]. intros [= <-]. left. split; [|done].
  by split_and!.
Qed.

(** What a search from [c] that is still running, or has ended, has established. *)
Lemma search_spec n self horizon c :
  ms c `mod` 60000 = 0 ->
  match search n self horizon c with
  | inl c' => ms c' `mod` 60000 = 0 /\ (forall x, ms c <= ms x < ms c' -> ~ matches self x) /\
      ms c + 60000 * 2 ^ Z.of_nat n <= ms c' /\
      exists last, date_year last <= horizon /\ ms c + 60000 * (2 ^ Z.of_nat n - 1) <= ms last
  | inr r => exists c', ms c <= ms c' /\ ms c' `mod` 60000 = 0 /\ search_step self horizon c' = inr r /\
      forall x, ms c <= ms x < ms c' -> ~ matches self x
  end.
Proof.
  revert c. induction n as [|n IH]; intros c Hc.
  - cbn [search]. destruct (search_step self horizon c) as [c'|r] eqn:E.
    + destruct (search_step_continue _ _ _ _ Hc E) as (Hy & Hm & Hlt & Hno).
      split_and!; [done..|simpl; lia|]. exists c. simpl. split; [done|lia].
    + exists c. split_and!; [lia|done..|]. intros; lia.
  - cbn [search]. rewrite Nat2Z.inj_succ, Z.pow_succ_r by lia.
    pose proof (IH c Hc) as H1. destruct (search n self horizon c) as [c1|r]; [|done].
    destruct H1 as (Hm1 & Hno1 & Hlt1 & _). pose proof (IH c1 Hm1) as H2.
    assert (Hjoin : forall y, (forall x, ms c1 <= ms x < y -> ~ matches self x) ->
                      forall x, ms c <= ms x < y -> ~ matches self x).
    { intros y Hno2 x Hx. destruct (Z.lt_ge_cases (ms x) (ms c1)); [apply Hno1|apply Hno2]; lia. }
    destruct (search n self horizon c1) as [c2|r].
    + destruct H2 as (Hm2 & Hno2 & Hlt2 & last & Hlast & Hlt3). split_and!; [done|by apply Hjoin|lia|].
      exists last. split; [done|lia].
    + destruct H2 as (c2 & Hle & Hm2 & Hr & Hno2). exists c2. split_and!; [lia|done..|by apply Hjoin].
Qed.

(** Whatever the calendar, an occurrence that is found is later than the time asked about. *)
Lemma next_after_later self after at_ : next_after self after = Found at_ -> after < at_.
Proof.
  unfold next_after. destruct (after <=? i64_max); [|done].
  destruct (timestamp_millis_opt after) as [now|] eqn:Hnow; [|done].
  pose proof (law_of_millis _ _ Hnow) as Hms. destruct (truncate_to_minute_ms now) as (t & -> & Et).
  cbn [mbind option_bind]. destruct (add_minutes 1 t) as [c|] eqn:Hc; [|done]. apply law_add_minutes in Hc.
  pose proof (search_spec 23 self (date_year now + SEARCH_HORIZON_YEARS) c ltac:(lia)) as Hs.
  destruct (search 23 _ _ _) as [c'|r]; [done|]. intros ->. destruct Hs as (c' & Hle & _ & Hstep & _).
  unfold search_step in Hstep. repeat case_match; simplify_eq; lia.
Qed.

(** C9.  The next occurrence of a schedule is the right one: [next_after] returns the first
    instant strictly after [after] that the expression names, or nothing when the expression
    names none up to its horizon of eight years; it always finishes, and never panics. *)
Theorem next_after_correct self after now :
  0 <= after <= i64_max -> timestamp_millis_opt after = Some now ->
  date_year now + SEARCH_HORIZON_YEARS < max_year ->
  match next_after self after with
  | Found at_ => after < at_ /\ (exists dt, ms dt = at_ /\ matches self dt) /\
      forall x, after < ms x < at_ -> ~ matches self x
  | NotFound => forall x, after < ms x -> date_year x <= date_year now + SEARCH_HORIZON_YEARS -> ~ matches self x
  | Panicked | OutOfFuel => False
  end.
Proof.
  intros Ha Hnow Hyear. unfold next_after. rewrite (proj2 (Z.leb_le _ _)) by lia. rewrite Hnow.
  pose proof (law_of_millis _ _ Hnow) as Hms. destruct (truncate_to_minute_ms now) as (t & -> & Et). cbn [mbind option_bind].
  pose proof (proj1 (law_year t now ltac:(lia))) as Hty.
  destruct (law_add_total t) as ([c Hadd] & _); [unfold SEARCH_HORIZON_YEARS in *; lia|]. rewrite Hadd.
  apply law_add_minutes in Hadd.
  assert (Hskip : forall x, after < ms x < ms c -> ~ matches self x) by (intros x Hx [Hx0 _]; lia).
  pose proof (search_spec 23 self (date_year now + SEARCH_HORIZON_YEARS) c ltac:(lia)) as Hs.
  destruct (search 23 _ _ _) as [c'|r].
  { destruct Hs as (_ & _ & _ & last & Hly & Hlt).
    destruct (law_year now last ltac:(lia)) as [_ Hspan]. unfold SEARCH_HORIZON_YEARS in *. lia. }
  destruct Hs as (c' & Hle & Hc' & Hstep & Hno).
  assert (Hall : forall x, after < ms x < ms c' -> ~ matches self x).
  { intros x Hx. destruct (Z.lt_ge_cases (ms x) (ms c)); [apply Hskip|apply Hno]; lia. }
  apply search_step_stop in Hstep as [[Hmat ->]|[-> Hgt]]; [| |done|done].
  - rewrite (proj2 (Z.leb_le _ _)) by lia. split_and!; [lia|by exists c'|done].
  - intros x Hx Hxy. apply Hall. split; [done|]. destruct (Z.lt_ge_cases (ms x) (ms c')) as [|Hge]; [done|].
    pose proof (proj1 (law_year c' x Hge)). lia.
Qed.
End Next.

(** A calendar of thirty-day months on which the search can be run. *)
#[local] Instance banker_calendar : Calendar := {|
  DateTime := Z;
  timestamp_millis_opt := Some;
  timestamp_millis := id;
  date_year t := t `div` 31104000000;
  date_month t := (t `div` 2592000000) `mod` 12 + 1;
  date_day t := (t `div` 86400000) `mod` 30 + 1;
  date_weekday t := (t `div` 86400000 + 4) `mod` 7;
  time_hour t := (t `div` 3600000) `mod` 24;
  time_minute t := (t `div` 60000) `mod` 60;
  with_second s t := Some (t `div` 60000 * 60000 + s * 1000 + t `mod` 1000);
  with_nanosecond n t := Some (t `div` 1000 * 1000 + n `div` 1000000);
  with_minute m t := Some (t - (t `div` 60000) `mod` 60 * 60000 + m * 60000);
  with_hour h t := Some (t - (t `div` 3600000) `mod` 24 * 3600000 + h * 3600000);
  with_day d t := Some (t - (t `div` 86400000) `mod` 30 * 86400000 + (d - 1) * 86400000);
  add_minutes n t := Some (t + n * 60000);
  add_hours n t := Some (t + n * 3600000);
  add_days n t := Some (t + n * 86400000);
  checked_add_months n t := Some (t + n * 2592000000);
|}.

Ltac calendar_lia :=
  repeat match goal with H : Some _ = Some _ |- _ => injection H as <- end; Z.to_euclidean_division_equations; lia.

#[local] Instance banker_laws : CalendarLaws banker_calendar.
Proof.
  refine {| max_year := 262142 |}; cbn; unfold id; intros;
    try (eexists; split; [reflexivity|]); try (split_and!; by eauto); try calendar_lia.
  all: repeat split; calendar_lia.
Defined.

(** The witness's schedule: half past three on the second of the month or on a Sunday. *)
Lemma next_after_correct_witness :
  exists self, CronSchedule_parse "30 3 2 * 0" = Some (Ok self) /\
    next_after self 1000 = Found 99000000 /\
    forall x : @DateTime banker_calendar, 1000 < timestamp_millis x < 99000000 -> ~ matches self x.
Proof.
  destruct (CronSchedule_parse "30 3 2 * 0") as [[self|e]|] eqn:E; [|vm_compute in E; discriminate..].
  vm_compute in E. injection E as <-. eexists. split; [reflexivity|].
  match goal with |- context [next_after ?s _] => set (self := s) end.
  assert (E : next_after self 1000 = Found 99000000) by (vm_compute; reflexivity).
  split; [exact E|].
  pose proof (next_after_correct self 1000 1000 ltac:(vm_compute; split; discriminate) eq_refl eq_refl) as H.
  rewrite E in H. exact (proj2 (proj2 H)).
Defined.

(** A step near the top of the [u32] range takes [v += step] out of it. *)
Example greatest_step_overflows : Field_parse "5-10/4294967295" 0 59 = None.
Proof. reflexivity. Qed.
