(* ===== verification/Jobs.v ===== *)
(** * Jobs: what is scheduled and when it is due

    [crates/scheduler/src/state.rs], [crates/scheduler/src/owner.rs] and the job types of
    [crates/api/src/scheduler.rs].  Everything here is a function of a job and of the time it
    is given; the scheduler that applies it to a schedule is the file Scheduler, a single
    firing the file Runner. *)

From S2P Require Import Prelude Base Cron.

(** ** Specifications *)

Abbreviation JobId := string.
Abbreviation EventName := string.

Inductive Trigger :=
  | At (timestamp : Timestamp)
  | After (delay : Duration)
  | Every (interval : Duration)
  | Cron (expression : string)
  | OnEvent (event : EventName).

Record RetryPolicy := {
  attempts : Z;
  backoff : Duration;
  max_backoff : Duration;
}.

Record JobSpec := {
  spec_id : JobId;
  trigger : Trigger;
  handler : ComponentId;
  payload : Value;
  persistent : bool;
  retry : RetryPolicy;
  timeout : option Duration;
}.

Record JobState := {
  spec : JobSpec;
  owner : Principal;
  next_run_at : option Timestamp;
  last_run : option Timestamp;
}.

Record ScheduledJob := {
  sj_spec : JobSpec;
  sj_owner : PrincipalId;
  sj_next_run : option Timestamp;
  sj_last_run : option Timestamp;
}.

(** [JobState::to_scheduled] *)
Definition to_scheduled (self : JobState) : ScheduledJob :=
  {| sj_spec := spec self; sj_owner := principal_id (owner self);
     sj_next_run := next_run_at self; sj_last_run := last_run self |}.

Definition is_event_driven (self : JobState) : bool :=
  match trigger (spec self) with OnEvent _ => true | _ => false end.

Definition awaited_event (self : JobState) : option EventName :=
  match trigger (spec self) with OnEvent event => Some event | _ => None end.

(** ** When a job is due *)

(** [Debug for Duration] is the standard library's; only messages show it. *)
Definition u64_of_duration (d : Duration) : Z := Z.min (as_millis d) u64_max.

Definition next_occurrence (anchor : Timestamp) (interval : Duration) (now : Timestamp) : Timestamp :=
  let interval_ms := Z.max (u64_of_duration interval) 1 in
  if now <? anchor then anchor
  else
    let elapsed := now - anchor in
    let steps := sat_add64 (elapsed `div` interval_ms) 1 in
    sat_add64 anchor (sat_mul64 steps interval_ms).

Section Due.
  Context {C : Calendar}.
  Context (duration_debug : Duration -> string).

(** The refusal of a specification the scheduler cannot honour.  No value is a panic. *)
Definition validate (spec : JobSpec) (persistence : bool) : option (Result unit) :=
  if persistent spec && negb persistence then
    Some (Err (Unsupported ("job `" +:+ spec_id spec +:+ "` asks to be persistent, but this scheduler keeps its schedule in memory only; wire the persistent scheduler component instead")))
  else
    match trigger spec with
    | Every interval =>
        if as_millis interval =? 0 then
          Some (Err (InvalidArgument ("job `" +:+ spec_id spec +:+ "` asks to repeat every "
            +:+ duration_debug interval +:+ ", which is below the one-millisecond resolution the kernel clock keeps and would fire without ever advancing")))
        else Some (Ok tt)
    | Cron expression =>
        match CronSchedule_parse expression with
        | None => None
        | Some (Ok _) => Some (Ok tt)
        | Some (Err reason) =>
            Some (Err (InvalidArgument ("job `" +:+ spec_id spec +:+ "` uses the cron expression `"
              +:+ expression +:+ "`, which this scheduler's dialect rejects: " +:+ reason)))
        end
    | _ => Some (Ok tt)
    end.

(** [CronSchedule::parse(expression).ok().and_then(|schedule| schedule.next_after(now))].  No
    value is a panic. *)
Definition cron_next (expression : string) (now : Timestamp) : option (option Timestamp) :=
  match CronSchedule_parse expression with
  | None => None
  | Some (Err _) => Some None
  | Some (Ok schedule) =>
      match next_after schedule now with
      | Found at_ => Some (Some at_)
      | NotFound => Some None
      | Panicked | OutOfFuel => None
      end
  end.

Definition first_run (trigger : Trigger) (now : Timestamp) : option (option Timestamp) :=
  match trigger with
  | At timestamp => Some (Some timestamp)
  | After delay => Some (Some (Timestamp_saturating_add now delay))
  | Every interval => Some (Some (Timestamp_saturating_add now interval))
  | Cron expression => cron_next expression now
  | OnEvent _ => Some None
  end.

Definition next_run (trigger : Trigger) (fired_for now : Timestamp) : option (option Timestamp) :=
  match trigger with
  | Every interval => Some (Some (next_occurrence fired_for interval now))
  | Cron expression => cron_next expression now
  | At _ | After _ | OnEvent _ => Some None
  end.

(** ** Recovery after downtime *)

Inductive Recovery :=
  | Pending
  | Overdue (due : Timestamp)
  | Expired (missed : Timestamp) (next : option Timestamp).

Definition recover (state : JobState) (now : Timestamp) (window : Duration) : option Recovery :=
  match next_run_at state with
  | None => Some Pending
  | Some due =>
      if now <? due then Some Pending
      else if Timestamp_saturating_since now due <=? window then Some (Overdue due)
      else
        match next_run (trigger (spec state)) due now with
        | Some next => Some (Expired due next)
        | None => None
        end
  end.
End Due.

(** ** Whose job it is *)

Definition RUN_PRINCIPAL : string := "scheduler".

Definition authorize (id : JobId) (owner : PrincipalId) (principal : Principal) : Result unit :=
  if may_act_for principal owner then Ok tt
  else Err (PermissionDenied ("job `" +:+ id +:+ "` belongs to `" +:+ owner +:+ "`, not to `"
                              +:+ principal_id principal +:+ "`")).

Definition run_principal (owner : PrincipalId) : Principal :=
  Principal_on_behalf_of (Principal_new RUN_PRINCIPAL System) owner.

(** ** What is kept of a job *)

Record StoredJob := {
  sto_owner : Principal;
  sto_trigger : Trigger;
  sto_handler : ComponentId;
  sto_payload : Value;
  sto_retry : RetryPolicy;
  sto_timeout_ms : option Z;
  sto_next_run : option Timestamp;
  sto_last_run : option Timestamp;
}.

(** [StoredJob::from_state] *)
Definition from_state (state : JobState) : StoredJob :=
  {| sto_owner := owner state;
     sto_trigger := trigger (spec state);
     sto_handler := handler (spec state);
     sto_payload := payload (spec state);
     sto_retry := retry (spec state);
     sto_timeout_ms := option_map u64_of_duration (timeout (spec state));
     sto_next_run := next_run_at state;
     sto_last_run := last_run state |}.

(** [StoredJob::into_state] *)
Definition into_state (self : StoredJob) (id : JobId) : JobState :=
  {| spec := {| spec_id := id;
                trigger := sto_trigger self;
                handler := sto_handler self;
                payload := sto_payload self;
                persistent := true;
                retry := sto_retry self;
                timeout := option_map from_millis (sto_timeout_ms self) |};
     owner := sto_owner self;
     next_run_at := sto_next_run self;
     last_run := sto_last_run self |}.

(** [duration_millis] of [api/src/scheduler.rs]: a duration is written as its milliseconds, cast
    to a [u64], and read back from them. *)
Definition rewritten (d : Duration) : Duration := from_millis (wrap64 (as_millis d)).

Definition rewritten_trigger (t : Trigger) : Trigger :=
  match t with After delay => After (rewritten delay) | Every interval => Every (rewritten interval) | t => t end.

Definition rewritten_retry (r : RetryPolicy) : RetryPolicy :=
  {| attempts := attempts r; backoff := rewritten (backoff r); max_backoff := rewritten (max_backoff r) |}.

(** What a stored job is read back as. *)
Definition read_back (self : StoredJob) : StoredJob :=
  {| sto_owner := sto_owner self; sto_trigger := rewritten_trigger (sto_trigger self); sto_handler := sto_handler self;
     sto_payload := sto_payload self; sto_retry := rewritten_retry (sto_retry self); sto_timeout_ms := sto_timeout_ms self;
     sto_next_run := sto_next_run self; sto_last_run := sto_last_run self |}.

(** ** Events *)

Record JobEvent := {
  je_job : JobId;
  je_run : nat;
  je_handler : ComponentId;
  je_correlation : nat;
  je_timestamp : Timestamp;
  je_owner : PrincipalId;
  je_owner_kind : PrincipalKind;
}.

Inductive SkipReason := AlreadyRunning | Missed.

(** The kind and the message of a failure are functions of its error. *)
Inductive Event :=
  | JobStarted (event : JobEvent) (attempt : Z) (scheduled_for : Timestamp)
  | JobCompleted (event : JobEvent) (attempt duration_ms : Z)
  | JobFailed (event : JobEvent) (attempt duration_ms : Z) (error : Error) (will_retry : bool)
  | JobCancelled (event : JobEvent) (attempt : Z)
  | JobSkipped (event : JobEvent) (scheduled_for : Timestamp) (reason : SkipReason).

(** ** Lemmas *)

(** A whole number of milliseconds, the precision of a timeout's serial form. *)
Definition whole_millis (d : Duration) : Prop := exists ms, u64_ok ms /\ d = from_millis ms.

(** The durations of a job, its timeout among them, are written exactly. *)
Definition durations_ok (sp : JobSpec) : Prop :=
  (forall d, timeout sp = Some d -> whole_millis d) /\
  (match trigger sp with After d | Every d => whole_millis d | _ => True end) /\
  whole_millis (backoff (retry sp)) /\ whole_millis (max_backoff (retry sp)).

Definition storable (state : JobState) : Prop :=
  persistent (spec state) = true /\ (forall n, next_run_at state = Some n -> 0 <= n) /\ durations_ok (spec state).

Lemma rewritten_whole d : whole_millis d -> rewritten d = d.
Proof. intros (ms & Hms & ->). unfold rewritten. rewrite as_millis_from_millis. f_equal. unfold wrap64. apply Z.mod_small. int_lia. Qed.

Lemma rewritten_is_whole d : whole_millis (rewritten d).
Proof. exists (wrap64 (as_millis d)). split; [apply wrap64_ok|done]. Qed.

Lemma stored_job_roundtrip state :
  storable state -> into_state (read_back (from_state state)) (spec_id (spec state)) = state.
Proof.
  destruct state as [[id tr h p per [ra rb rm] t] o n l]. intros (Hp & _ & Ht & Htr & Hb & Hm). simpl in *. subst per.
  unfold into_state, read_back, from_state, rewritten_retry. simpl. rewrite !rewritten_whole by done.
  assert (rewritten_trigger tr = tr) as -> by (destruct tr; simpl; by rewrite ?rewritten_whole).
  do 2 f_equal. destruct t as [d|]; [|done]. simpl. f_equal.
  destruct (Ht d eq_refl) as (ms & Hms & ->). unfold u64_of_duration. rewrite as_millis_from_millis.
  f_equal. int_lia.
Qed.

(** ** Occurrences *)

Lemma div_steps e i k : 0 < i -> 0 <= e -> e < k * i <-> e `div` i + 1 <= k.
Proof.
  intros Hi He. pose proof (Z.div_mod e i ltac:(lia)). pose proof (Z.mod_pos_bound e i Hi). split; intros; nia.
Qed.

(**  A periodic job never drifts and never works off a backlog: after firing for [anchor],
    the next occurrence is the first of [anchor], [anchor + interval], [anchor + 2 interval], ...
    that is strictly later than [now] - exactly, with no overflow, and stopping only at the end
    of representable time. *)
Theorem next_occurrence_correct anchor interval now :
  u64_ok anchor -> u64_ok now -> 0 <= interval ->
  let step := Z.max 1 (Z.min (as_millis interval) u64_max) in
  exists k, 0 <= k /\
    next_occurrence anchor interval now = Z.min (anchor + k * step) u64_max /\
    now < anchor + k * step /\
    forall j, 0 <= j -> now < anchor + j * step -> k <= j.
Proof.
  intros Ha Hn Hi step. assert (Hstep : 1 <= step) by lia.
  unfold next_occurrence, u64_of_duration. rewrite (Z.max_comm _ 1). fold step.
  destruct (Z.ltb_spec now anchor) as [Hlt|Hge].
  { exists 0. split_and!; [lia|int_lia|lia|intros; lia]. }
  exists ((now - anchor) `div` step + 1).
  pose proof (Z.div_pos (now - anchor) step ltac:(lia) ltac:(lia)) as Hpos.
  pose proof (proj2 (div_steps (now - anchor) step _ ltac:(lia) ltac:(lia)) (Z.le_refl _)) as Hlater.
  split_and!; [lia| |lia|].
  - unfold sat_add, sat_mul. unfold u64_ok in *.
    destruct (Z.le_gt_cases ((now - anchor) `div` step + 1) u64_max); [|nia].
    rewrite (Z.min_l (_ + 1)) by lia. lia.
  - intros j Hj Hlt. apply div_steps; lia.
Qed.

(** A seven-millisecond job that fired for 1000 and finds itself at 1030. *)
Lemma next_occurrence_correct_witness :
  exists k, 0 <= k /\ next_occurrence 1000 7500000 1030 = 1000 + k * 7 /\ 1030 < 1000 + k * 7 /\
    forall j, 0 <= j -> 1030 < 1000 + j * 7 -> k <= j.
Proof.
  destruct (next_occurrence_correct 1000 7500000 1030 ltac:(int_lia) ltac:(int_lia) ltac:(lia))
    as (k & Hk & E & Hlt & Hmin).
  change (Z.max 1 (Z.min (as_millis 7500000) u64_max)) with 7 in *.
  exists k. assert (k = 5) as -> by (assert (k <= 5) by (apply Hmin; lia); lia).
  split_and!; [lia|reflexivity|lia|exact Hmin].
Defined.

(** ** What the scheduler relies on *)

Lemma next_occurrence_later anchor interval now :
  0 <= anchor -> now < u64_max -> now < next_occurrence anchor interval now.
Proof.
  intros Ha Hn. unfold next_occurrence. set (i := Z.max _ 1). assert (1 <= i) by lia.
  destruct (Z.ltb_spec now anchor); [done|].
  pose proof (proj2 (div_steps (now - anchor) i _ ltac:(lia) ltac:(lia)) (Z.le_refl _)).
  pose proof (Z.div_le_upper_bound (now - anchor) i (now - anchor) ltac:(lia) ltac:(nia)).
  int_lia.
Qed.

Section Later.
  Context {C : Calendar} {L : CalendarLaws C}.
#[local] Set Default Proof Using "Type*".

(** A job that has fired is never due again at the same time or earlier. *)
Lemma next_run_later trigger fired_for now next :
  0 <= fired_for -> now < u64_max -> next_run trigger fired_for now = Some (Some next) -> now < next.
Proof.
  intros Hf Hn. destruct trigger as [| |interval|expression|]; simpl; try done.
  - intros [= <-]. by apply next_occurrence_later.
  - unfold cron_next. destruct (CronSchedule_parse expression) as [[schedule|]|]; try done.
    destruct (next_after schedule now) eqn:E; try done. intros [= <-]. by eapply next_after_later.
Qed.
End Later.
