(* ===== verification/Scheduler.v ===== *)
(** * Scheduler: claims, runs, ownership and the durable mirror

    [crates/scheduler/src/scheduler.rs], the exclusion slots of
    [crates/scheduler/src/runner.rs] and the events of [crates/scheduler/src/events.rs].  The
    schedule is behind one lock, so each operation that holds it throughout is one action on
    [State]; [fire_for_event] lets go of it half-way and is two.  The driver, its callers and
    the runs it starts interleave in the relation [step].  The store is the class [JobStore]. *)

From S2P Require Import Prelude Base Cron Jobs.

(** ** The store *)

Class JobStore (D : Type) := {
  load : D -> D * Result (list JobState);
  put : JobState -> D -> D * Result unit;
  remove : JobId -> D -> D * Result unit;
}.

(** What the trait requires: durable on return, total, exact; an operation that fails is
    abandoned. *)
Class JobStoreLaws (D : Type) `{JobStore D} := {
  durable : D -> gmap JobId JobState;
  load_exact : forall d d' l, load d = (d', Ok l) ->
    durable d' = durable d /\ NoDup (map (fun st => spec_id (spec st)) l) /\
    forall st, st ∈ l <-> durable d !! spec_id (spec st) = Some st;
  load_storable : forall d id st, durable d !! id = Some st -> storable st /\ spec_id (spec st) = id;
  put_ok : forall st d d', storable st -> put st d = (d', Ok tt) ->
    durable d' = <[spec_id (spec st) := st]> (durable d);
  put_err : forall st d d' e, put st d = (d', Err e) -> durable d' = durable d;
  remove_ok : forall id d d', remove id d = (d', Ok tt) -> durable d' = delete id (durable d);
  remove_err : forall id d d' e, remove id d = (d', Err e) -> durable d' = durable d;
}.

(** ** State *)

Abbreviation RunId := nat.

(** A run's cancellation token is named by the run. *)
Record RunSlot := {
  slot_run : RunId;
  slot_owner : PrincipalId;
}.

Record Firing := {
  f_spec : JobSpec;
  f_owner : Principal;
  f_run : RunId;
  f_scheduled_for : Timestamp;
}.

(** What the scheduler published, and how often it has read the clock and made identifiers. *)
Record Trace := {
  events : list Event;
  reads : nat;
  ids : nat;
}.

(** [live] are the run tasks that still hold their guard; a run's token is cancelled when its
    run is in [cancelled_runs] or the whole scope is. *)
Record State (D : Type) := {
  schedule : gmap JobId JobState;
  running : gmap JobId RunSlot;
  handlers : option (gset ComponentId);
  store : option D;
  tasks_cancelled : bool;
  cancelled_runs : gset RunId;
  driving : bool;
  woken : bool;
  live : list Firing;
  trace : Trace;
}.
Arguments schedule {D}. Arguments running {D}. Arguments handlers {D}. Arguments store {D}.
Arguments tasks_cancelled {D}. Arguments cancelled_runs {D}. Arguments driving {D}.
Arguments woken {D}. Arguments live {D}. Arguments trace {D}.

(** How an operation ends without an answer. *)
Inductive Interrupt := Fail (error : Error) | Panic.

Inductive Claim := Dispatched | Skipped | Gone | StoreFailed.

Section Scheduler.
  Context {C : Calendar} {D : Type} `{JobStore D}.
  Context (duration_debug : Duration -> string) (clock : nat -> Timestamp) (catch_up_window : Duration).

  Abbreviation S_ := (State D).
  Abbreviation M := (action S_ Interrupt).

Definition set_schedule (m : gmap JobId JobState) (s : S_) : S_ :=
  {| schedule := m; running := running s; handlers := handlers s; store := store s;
     tasks_cancelled := tasks_cancelled s; cancelled_runs := cancelled_runs s;
     driving := driving s; woken := woken s; live := live s; trace := trace s |}.

Definition set_runs (m : gmap JobId RunSlot) (l : list Firing) (s : S_) : S_ :=
  {| schedule := schedule s; running := m; handlers := handlers s; store := store s;
     tasks_cancelled := tasks_cancelled s; cancelled_runs := cancelled_runs s;
     driving := driving s; woken := woken s; live := l; trace := trace s |}.

Definition set_store (d : option D) (s : S_) : S_ :=
  {| schedule := schedule s; running := running s; handlers := handlers s; store := d;
     tasks_cancelled := tasks_cancelled s; cancelled_runs := cancelled_runs s;
     driving := driving s; woken := woken s; live := live s; trace := trace s |}.

Definition set_trace (t : Trace) (s : S_) : S_ :=
  {| schedule := schedule s; running := running s; handlers := handlers s; store := store s;
     tasks_cancelled := tasks_cancelled s; cancelled_runs := cancelled_runs s;
     driving := driving s; woken := woken s; live := live s; trace := t |}.

Definition set_tokens (all : bool) (runs : gset RunId) (s : S_) : S_ :=
  {| schedule := schedule s; running := running s; handlers := handlers s; store := store s;
     tasks_cancelled := all; cancelled_runs := runs;
     driving := driving s; woken := woken s; live := live s; trace := trace s |}.

Definition set_driver (hs : option (gset ComponentId)) (on : bool) (s : S_) : S_ :=
  {| schedule := schedule s; running := running s; handlers := hs; store := store s;
     tasks_cancelled := tasks_cancelled s; cancelled_runs := cancelled_runs s;
     driving := on; woken := woken s; live := live s; trace := trace s |}.

(** [self.wake.notify_one()] *)
Definition notify_one : M unit := modify (fun s =>
  {| schedule := schedule s; running := running s; handlers := handlers s; store := store s;
     tasks_cancelled := tasks_cancelled s; cancelled_runs := cancelled_runs s;
     driving := driving s; woken := true; live := live s; trace := trace s |}).

(** ** Publishing *)

Definition now : M Timestamp := fun s =>
  (set_trace {| events := events (trace s); reads := S (reads (trace s)); ids := ids (trace s) |} s,
   Ok (clock (reads (trace s)))).

(** [RunId::new()] and [CorrelationId::new()]: an identifier not given before. *)
Definition new_id : M nat := fun s =>
  (set_trace {| events := events (trace s); reads := reads (trace s); ids := S (ids (trace s)) |} s,
   Ok (ids (trace s))).

Definition publish (event : Event) : M unit := modify (fun s =>
  set_trace {| events := events (trace s) ++ [event]; reads := reads (trace s); ids := ids (trace s) |} s).

Definition job_event (id : JobId) (handler : ComponentId) (owner : Principal) (run correlation : nat) :
    M JobEvent :=
  let! timestamp := now in
  ret {| je_job := id; je_run := run; je_handler := handler; je_correlation := correlation;
         je_timestamp := timestamp; je_owner := principal_id owner;
         je_owner_kind := principal_kind owner |}.

Definition publish_skipped (state : JobState) (scheduled_for : Timestamp) (reason : SkipReason) : M unit :=
  let! correlation := new_id in
  let! run := new_id in
  let! event := job_event (spec_id (spec state)) (handler (spec state)) (owner state) run correlation in
  publish (JobSkipped event scheduled_for reason).

Definition publish_missing_handler (state : JobState) (run : RunId) : M unit :=
  let! correlation := new_id in
  let error := Base.NotFound "job handler" (handler (spec state)) in
  let! event := job_event (spec_id (spec state)) (handler (spec state)) (owner state) run correlation in
  publish (JobFailed event 0 0 error false).

(** ** Effects an operation may not have *)

Definition fallible {A} (r : Result A) : M A := lift (map_err Fail r).

Definition no_panic {A} (o : option A) : M A := lift (ok_or o Panic).

(** [if let Some(store) = &self.store { op(store).await? }] *)
Definition with_store (op : D -> D * Result unit) : M unit := fun s =>
  match store s with
  | None => (s, Ok tt)
  | Some d => let (d', r) := op d in (set_store (Some d') s, map_err Fail r)
  end.

Definition is_persistent (s : S_) : bool := bool_decide (is_Some (store s)).

(** [schedule.values()], in the order of the map's keys *)
Definition values (m : gmap JobId JobState) : list JobState :=
  map snd (merge_sort (fun a b => String.le (fst a) (fst b)) (map_to_list m)).

(** ** Runs *)

Definition is_running (id : JobId) (s : S_) : bool := bool_decide (is_Some (running s !! id)).

(** The slot is claimed by [RunGuard::claim] before the run's task is spawned. *)
Definition dispatch (state : JobState) (scheduled_for : Timestamp) : M unit :=
  let! run := new_id in
  let! hs := gets handlers in
  match hs with
  | None => ret tt
  | Some hs =>
      if negb (bool_decide (handler (spec state) ∈ hs)) then publish_missing_handler state run
      else
        modify (fun s =>
          set_runs (<[spec_id (spec state) := {| slot_run := run; slot_owner := principal_id (owner state) |}]> (running s))
                   (live s ++ [{| f_spec := spec state; f_owner := owner state; f_run := run;
                                  f_scheduled_for := scheduled_for |}]) s)
  end.

(** A run's task ends: [RunGuard::drop]. *)
Definition finish (f : Firing) (s : S_) : S_ :=
  let job := spec_id (f_spec f) in
  let running' :=
    match running s !! job with
    | Some slot => if (slot_run slot =? f_run f)%nat then delete job (running s) else running s
    | None => running s
    end in
  set_runs running' (filter (fun g => f_run g <> f_run f) (live s)) s.

(** ** Firing *)

Definition advance (state : JobState) (scheduled_for : Timestamp) (next : option Timestamp) : JobState :=
  {| spec := spec state; owner := owner state; next_run_at := next; last_run := Some scheduled_for |}.

(** [next_run.filter(|next| *next <= now)] *)
Definition due_at (state : JobState) (now : Timestamp) : option Timestamp :=
  match next_run_at state with
  | Some next => if next <=? now then Some next else None
  | None => None
  end.

(** The durable half of a claim. *)
Definition write_advance (id : JobId) (advanced : JobState) : M unit :=
  if persistent (spec advanced) then
    match next_run_at advanced with
    | Some _ => with_store (put advanced)
    | None => with_store (remove id)
    end
  else ret tt.

(** [JobScheduler::claim], under the schedule's lock from beginning to end. *)
Definition claim (id : JobId) (now : Timestamp) : M Claim :=
  let! state := gets (fun s => schedule s !! id) in
  match state with
  | None => ret Gone
  | Some state =>
      match due_at state now with
      | None => ret Gone
      | Some scheduled_for =>
          let! next := no_panic (next_run (trigger (spec state)) scheduled_for now) in
          let advanced := advance state scheduled_for next in
          let! written := try (write_advance id advanced) in
          match written with
          | Err _ => ret StoreFailed
          | Ok _ =>
              modify (fun s => set_schedule (match next with
                                             | Some _ => <[id := advanced]> (schedule s)
                                             | None => delete id (schedule s)
                                             end) s) ;!
              let! busy := gets (is_running id) in
              if busy : bool then publish_skipped advanced scheduled_for AlreadyRunning ;! ret Skipped
              else dispatch advanced scheduled_for ;! ret Dispatched
          end
      end
  end.

(** The ids of the jobs that are due, in order. *)
Definition due_jobs (now : Timestamp) (s : State D) : list JobId :=
  map (fun st => spec_id (spec st))
    (List.filter (fun st => negb (is_event_driven st) && bool_decide (is_Some (due_at st now)))
       (values (schedule s))).

Fixpoint claim_all (l : list JobId) (now : Timestamp) (store_failed : bool) : M bool :=
  match l with
  | [] => ret store_failed
  | id :: l =>
      let! claimed := claim id now in
      claim_all l now (store_failed || match claimed with StoreFailed => true | _ => false end)
  end.

Definition fire_due : M bool :=
  let! now := now in
  let! due := gets (due_jobs now) in
  claim_all due now false.

(** The part of [fire_for_event] under the lock, for one job. *)
Definition touch (id : JobId) (now : Timestamp) : M (option JobState) :=
  let! state := gets (fun s => schedule s !! id) in
  match state with
  | None => ret None
  | Some state =>
      let fired := advance state now (next_run_at state) in
      modify (fun s => set_schedule (<[id := fired]> (schedule s)) s) ;!
      ret (Some fired)
  end.

(** The part after the lock is released. *)
Definition fire (fired : JobState) (now : Timestamp) : M unit :=
  let! busy := gets (is_running (spec_id (spec fired))) in
  if busy : bool then publish_skipped fired now AlreadyRunning else dispatch fired now.

Definition waiting_for (event : EventName) (s : State D) : list JobId :=
  map (fun st => spec_id (spec st))
    (List.filter (fun st => bool_decide (awaited_event st = Some event)) (values (schedule s))).

Definition fire_for_event (event : EventName) : M unit :=
  let! now := now in
  let! waiting := gets (waiting_for event) in
  for_each (fun id =>
    let! fired := touch id now in
    match fired with
    | None => ret tt
    | Some fired => fire fired now
    end) waiting.

(** [JobScheduler::horizon]: how long until the earliest job is due, and whether any job waits
    for an event. *)
Definition horizon : M (option Duration * bool) :=
  let! now := now in
  let! jobs := gets (fun s => values (schedule s)) in
  let timed := List.filter (fun st => negb (is_event_driven st)) jobs in
  let earliest := foldl (fun (earliest : option Timestamp) st =>
                           match next_run_at st with
                           | Some next => Some (match earliest with Some e => Z.min e next | None => next end)
                           | None => earliest
                           end) None timed in
  ret (option_map (fun next => Timestamp_saturating_since next now) earliest,
       existsb is_event_driven jobs).

(** ** The interface *)

(** Durable before in-memory: the end of [Scheduler::schedule]. *)
Definition install (state : JobState) (was_persistent : bool) : M unit :=
  let id := spec_id (spec state) in
  (if persistent (spec state) then with_store (put state)
   else if was_persistent then with_store (remove id) else ret tt) ;!
  modify (fun s => set_schedule (<[id := state]> (schedule s)) s) ;!
  notify_one.

(** [Scheduler::schedule].  Nothing in it reads what a run may change meanwhile. *)
Definition schedule_job (spec : JobSpec) (cx : ExecutionContext) : M unit :=
  let! stopped := gets tasks_cancelled in
  if stopped : bool then throw (Fail Cancelled)
  else
    let! persistence := gets is_persistent in
    let! valid := no_panic (validate duration_debug spec persistence) in
    let! _ := fallible valid in
    let principal := principal_or_system cx in
    let! now := now in
    let! previous := gets (fun s => schedule s !! spec_id spec) in
    let! owner :=
      match previous with
      | Some previous =>
          let! _ := fallible (authorize (spec_id spec) (principal_id (owner previous)) principal) in
          ret (owner previous)
      | None => ret principal
      end in
    let was_persistent := match previous with Some p => persistent (Jobs.spec p) | None => false end in
    let last_run := previous ≫= last_run in
    let! next := no_panic (first_run (trigger spec) now) in
    let state := {| Jobs.spec := spec; owner := owner; next_run_at := next; last_run := last_run |} in
    install state was_persistent.

(** [Scheduler::cancel].  The slot is read under the schedule's lock; its run may end at any
    time, and then cancelling its token means nothing. *)
Definition cancel (id : JobId) (cx : ExecutionContext) : M bool :=
  let principal := principal_or_system cx in
  let! scheduled := gets (fun s => schedule s !! id) in
  let! in_flight := gets (fun s => running s !! id) in
  let! _ := fallible (match scheduled with
                      | Some existing => authorize id (principal_id (owner existing)) principal
                      | None => Ok tt
                      end) in
  let! _ := fallible (match in_flight with
                      | Some slot => authorize id (slot_owner slot) principal
                      | None => Ok tt
                      end) in
  (match scheduled with
   | Some existing =>
       (if persistent (spec existing) then with_store (remove id) else ret tt) ;!
       modify (fun s => set_schedule (delete id (schedule s)) s)
   | None => ret tt
   end) ;!
  (match in_flight with
   | Some slot => modify (fun s => set_tokens (tasks_cancelled s) ({[slot_run slot]} ∪ cancelled_runs s) s)
   | None => ret tt
   end) ;!
  match scheduled, in_flight with
  | None, None => ret false
  | _, _ => notify_one ;! ret true
  end.

(** [Scheduler::list] *)
Definition list_jobs (cx : ExecutionContext) (s : State D) : list ScheduledJob :=
  map to_scheduled
    (List.filter (fun st => may_act_for (principal_or_system cx) (principal_id (owner st)))
       (values (schedule s))).

(** ** Starting and stopping *)

(** What becomes of one row that was read back. *)
Definition recover_row (now : Timestamp) (state : JobState) : M unit :=
  let id := spec_id (spec state) in
  let! known := gets (fun s => schedule s !! id) in
  match known with
  | Some _ => ret tt
  | None =>
      let! decision := no_panic (recover state now catch_up_window) in
      match decision with
      | Pending | Overdue _ => modify (fun s => set_schedule (<[id := state]> (schedule s)) s)
      | Expired missed next =>
          publish_skipped state missed Missed ;!
          match next with
          | Some next =>
              let state := {| spec := spec state; owner := owner state; next_run_at := Some next;
                              last_run := last_run state |} in
              with_store (put state) ;!
              modify (fun s => set_schedule (<[id := state]> (schedule s)) s)
          | None => with_store (remove id)
          end
      end
  end.

(** [store.load().await?] *)
Definition load_rows : M (option (list JobState)) := fun s =>
  match store s with
  | None => (s, Ok None)
  | Some d => let (d', r) := load d in (set_store (Some d') s, map_err Fail (result_map Some r))
  end.

Definition recover_persisted : M unit :=
  let! loaded := load_rows in
  match loaded with
  | None => ret tt
  | Some loaded => let! now := now in for_each (recover_row now) loaded
  end.

Definition start (hs : gset ComponentId) : M unit :=
  let! already := gets handlers in
  match already with
  | Some _ => throw (Fail (Lifecycle "the scheduler has already been started"))
  | None =>
      modify (fun s => set_driver (Some hs) (driving s) s) ;!
      recover_persisted ;!
      modify (fun s => set_driver (handlers s) true s)
  end.

(** Cancelling the scope asks the driver and every run to stop; the driver may be in the middle
    of a pass. *)
Definition stop (s : State D) : State D := set_tokens true (cancelled_runs s) s.

(** [JobScheduler::build] *)
Definition build (d : option D) : State D :=
  {| schedule := ∅; running := ∅; handlers := None; store := d; tasks_cancelled := false;
     cancelled_runs := ∅; driving := false; woken := false; live := [];
     trace := {| events := []; reads := 0; ids := 0 |} |}.

(** ** The system

    The driver is one task: between the two halves of [fire_for_event] it holds the job it read. *)

Inductive Driver := Idle | Holding (fired : JobState) (now : Timestamp).

Inductive Label :=
  | Call_schedule (spec : JobSpec) (cx : ExecutionContext)
  | Call_cancel (id : JobId) (cx : ExecutionContext)
  | Drive_claim (id : JobId) (now : Timestamp) (r : result Interrupt Claim)
  | Drive_touch (id : JobId) (now : Timestamp)
  | Drive_fire
  | Run_ends (f : Firing)
  | Scope_stops.

(** Times are [u64] milliseconds; the precision of a duration is that of its serial form. *)
Definition spec_ok (spec : JobSpec) : Prop :=
  (forall t, trigger spec = At t -> 0 <= t) /\ durations_ok spec.

Definition now_ok (now : Timestamp) : Prop := 0 <= now < u64_max.

Inductive step : State D * Driver -> Label -> State D * Driver -> Prop :=
  | Step_schedule s s' d spec cx r :
      spec_ok spec -> schedule_job spec cx s = (s', r) -> step (s, d) (Call_schedule spec cx) (s', d)
  | Step_cancel s s' d id cx r :
      cancel id cx s = (s', r) -> step (s, d) (Call_cancel id cx) (s', d)
  | Step_claim s s' id now r :
      driving s = true -> now_ok now -> claim id now s = (s', r) -> step (s, Idle) (Drive_claim id now r) (s', Idle)
  | Step_touch s s' id now fired :
      driving s = true -> now_ok now -> touch id now s = (s', Ok (Some fired)) ->
      step (s, Idle) (Drive_touch id now) (s', Holding fired now)
  | Step_fire s s' fired now r :
      fire fired now s = (s', r) -> step (s, Holding fired now) Drive_fire (s', Idle)
  | Step_ends s d f : f ∈ live s -> step (s, d) (Run_ends f) (finish f s, d)
  | Step_stops s d : step (s, d) Scope_stops (stop s, d).

(** The occurrence a step uses up: a claim that is dispatched or skipped. *)
Definition used (s : State D) (l : Label) : list (JobId * Timestamp) :=
  match l with
  | Drive_claim id _ (Ok (Dispatched | Skipped)) =>
      match schedule s !! id ≫= next_run_at with Some t => [(id, t)] | None => [] end
  | _ => []
  end.

(** A run of the system whose labels all satisfy [P], with the occurrences it uses up. *)
Inductive run (P : Label -> Prop) : State D * Driver -> list (JobId * Timestamp) -> State D * Driver -> Prop :=
  | run_nil c : run P c [] c
  | run_cons s d l c c' occs :
      P l -> step (s, d) l c -> run P c occs c' -> run P (s, d) (used s l ++ occs) c'.

(** ** What the operations do *)

#[local] Set Default Proof Using "Type*".

Lemma publish_skipped_run st t0 why s :
  exists t e, publish_skipped st t0 why s = (set_trace t s, Ok tt) /\
    events t = events (trace s) ++ [JobSkipped e t0 why] /\
    je_job e = spec_id (spec st) /\ je_owner e = principal_id (owner st) /\ (ids (trace s) <= ids t)%nat.
Proof. do 2 eexists. split; [reflexivity|]. simpl. split_and!; [done..|lia]. Qed.

Definition new_firing (st : JobState) (run : RunId) (t0 : Timestamp) : Firing :=
  {| f_spec := spec st; f_owner := owner st; f_run := run; f_scheduled_for := t0 |}.

Definition slot_of (f : Firing) : RunSlot :=
  {| slot_run := f_run f; slot_owner := principal_id (f_owner f) |}.

Lemma dispatch_cases st t0 s s' r :
  dispatch st t0 s = (s', r) ->
  r = Ok tt /\ exists t, (ids (trace s) < ids t)%nat /\
    (s' = set_trace t s \/
     let f := new_firing st (ids (trace s)) t0 in
     s' = set_runs (<[spec_id (spec st) := slot_of f]> (running s)) (live s ++ [f]) (set_trace t s)).
Proof.
  unfold dispatch, bind at 1. simpl. unfold bind at 1. simpl.
  destruct (handlers s) as [hs|]; simpl.
  - destruct (bool_decide (handler (spec st) ∈ hs)); simpl; intros [= <- <-]; (split; [done|]);
      eexists; (split; [|first [by right|by left]]); simpl; lia.
  - intros [= <- <-]. split; [done|]. eexists. split; [|by left]. simpl. lia.
Qed.

Lemma with_store_cases op s s' r :
  with_store op s = (s', r) ->
  (store s = None /\ s' = s /\ r = Ok tt) \/
  exists d d' r', store s = Some d /\ op d = (d', r') /\ s' = set_store (Some d') s /\ r = map_err Fail r'.
Proof.
  unfold with_store. destruct (store s) as [d|] eqn:E.
  - destruct (op d) as [d' r'] eqn:E'. intros [= <- <-]. right. by exists d, d', r'.
  - intros [= <- <-]. by left.
Qed.

(** Every way a claim can end. *)
Inductive claimed (id : JobId) (now : Timestamp) (s : State D) : State D -> result Interrupt Claim -> Prop :=
  | claimed_gone :
      (forall st, schedule s !! id = Some st -> due_at st now = None) -> claimed id now s s (Ok Gone)
  | claimed_panic : claimed id now s s (Err Panic)
  | claimed_store_failed st due next s1 e :
      schedule s !! id = Some st -> due_at st now = Some due ->
      next_run (trigger (spec st)) due now = Some next ->
      write_advance id (advance st due next) s = (s1, Err e) ->
      claimed id now s s1 (Ok StoreFailed)
  | claimed_done st due next s1 s' r :
      schedule s !! id = Some st -> due_at st now = Some due ->
      next_run (trigger (spec st)) due now = Some next ->
      write_advance id (advance st due next) s = (s1, Ok tt) ->
      let s2 := set_schedule (match next with
                              | Some _ => <[id := advance st due next]> (schedule s1)
                              | None => delete id (schedule s1)
                              end) s1 in
      (if is_running id s1 then
         r = Ok Skipped /\ publish_skipped (advance st due next) due AlreadyRunning s2 = (s', Ok tt)
       else r = Ok Dispatched /\ dispatch (advance st due next) due s2 = (s', Ok tt)) ->
      claimed id now s s' r.

Lemma claim_claimed id now s s' r : claim id now s = (s', r) -> claimed id now s s' r.
Proof.
  unfold claim. unfold bind at 1, gets at 1. destruct (schedule s !! id) as [st|] eqn:Est.
  2: { intros [= <- <-]. constructor. intros st. by rewrite Est. }
  destruct (due_at st now) as [due|] eqn:Edue.
  2: { intros [= <- <-]. constructor. intros st'. rewrite Est. by intros [= <-]. }
  unfold bind at 1, no_panic, lift.
  destruct (next_run (trigger (spec st)) due now) as [next|] eqn:Enext; simpl; [|intros [= <- <-]; constructor].
  unfold bind at 1, try.
  destruct (write_advance id (advance st due next) s) as [s1 [[]|e]] eqn:Ew.
  2: { intros [= <- <-]. by econstructor. }
  unfold bind at 1, modify at 1. unfold bind at 1, gets. set (s2 := set_schedule _ s1).
  change (is_running id s2) with (is_running id s1).
  destruct (is_running id s1) eqn:Erun; intros Hend.
  - destruct (publish_skipped_run (advance st due next) due AlreadyRunning s2) as (t & e & Ep & _).
    unfold bind in Hend. rewrite Ep in Hend. injection Hend as <- <-.
    eapply claimed_done; [done..|]. rewrite Erun. by split.
  - unfold bind in Hend. destruct (dispatch _ _ s2) as [s3 r3] eqn:Ed.
    destruct (dispatch_cases _ _ _ _ _ Ed) as (-> & _). injection Hend as <- <-.
    eapply claimed_done; [done..|]. rewrite Erun. by split.
Qed.

(** ** One run per job *)

(** The runs are untouched, and identifiers only move on. *)
Definition runs_same (s s' : State D) : Prop :=
  running s' = running s /\ live s' = live s /\ (ids (trace s) <= ids (trace s'))%nat.

#[local] Instance runs_same_preorder : PreOrder runs_same.
Proof.
  split; [by intros s|]. intros s1 s2 s3 (? & ? & ?) (? & ? & ?). unfold runs_same.
  split_and!; [congruence..|lia].
Qed.

Lemma with_store_runs op : keeps runs_same (with_store op).
Proof. intros s s' r [(_ & -> & _)|(d & d' & r' & _ & _ & -> & _)]%with_store_cases; done. Qed.

Lemma now_runs : keeps runs_same now.
Proof. by intros s s' r [= <- _]. Qed.

Lemma publish_skipped_runs st t0 why : keeps runs_same (publish_skipped st t0 why).
Proof.
  intros s s' r. destruct (publish_skipped_run st t0 why s) as (t & e & -> & _ & _ & _ & Hids).
  by intros [= <- _].
Qed.

Ltac frame :=
  unfold no_panic, fallible, notify_one;
  repeat first
    [ apply with_store_runs | apply now_runs | apply publish_skipped_runs | keeps_step
    | apply keeps_modify; intros; split_and!; done ].

Lemma write_advance_runs id st : keeps runs_same (write_advance id st).
Proof. unfold write_advance. frame. Qed.

Lemma schedule_job_runs spec cx : keeps runs_same (schedule_job spec cx).
Proof. unfold schedule_job. frame. Qed.

Lemma cancel_runs id cx : keeps runs_same (cancel id cx).
Proof. unfold cancel. frame. Qed.

Lemma touch_runs id t0 : keeps runs_same (touch id t0).
Proof. unfold touch. frame. Qed.

Lemma recover_row_runs t0 st : keeps runs_same (recover_row t0 st).
Proof. unfold recover_row. frame. Qed.

Lemma start_runs hs : keeps runs_same (start hs).
Proof.
  unfold start, recover_persisted. frame; try apply recover_row_runs.
  intros s s' r. unfold load_rows. destruct (store s); [destruct (load _)|]; by intros [= <- _].
Qed.

Definition job_of (f : Firing) : JobId := spec_id (f_spec f).

(** The slots are exactly those of the live runs, and each run has an identifier of its own. *)
Definition exclusive (s : State D) : Prop :=
  NoDup (map f_run (live s)) /\
  (forall f, f ∈ live s -> (f_run f < ids (trace s))%nat /\ running s !! job_of f = Some (slot_of f)) /\
  forall id slot, running s !! id = Some slot -> exists f, f ∈ live s /\ job_of f = id /\ slot = slot_of f.

Lemma exclusive_same s s' : runs_same s s' -> exclusive s -> exclusive s'.
Proof.
  intros (Hr & Hl & Hi) (Hnd & Hlive & Hrun). unfold exclusive. rewrite Hr, Hl. split_and!; [done| |done].
  intros f Hf. destruct (Hlive f Hf). split; [lia|done].
Qed.

Lemma exclusive_inj s f g : exclusive s -> f ∈ live s -> g ∈ live s -> f_run f = f_run g -> f = g.
Proof. intros (Hnd & _) Hf Hg Heq. by eapply NoDup_map_inj. Qed.

Lemma exclusive_dispatch st t0 s s' r :
  is_running (spec_id (spec st)) s = false -> exclusive s -> dispatch st t0 s = (s', r) -> exclusive s'.
Proof.
  unfold is_running. intros Hfree He Hd. apply bool_decide_eq_false, eq_None_not_Some in Hfree.
  apply dispatch_cases in Hd as (_ & t & Hids & [->| ->]).
  { eapply exclusive_same; [|exact He]. split_and!; [done..|]. simpl. lia. }
  destruct He as (Hnd & Hlive & Hrun). set (f := new_firing st _ _). split_and!; simpl.
  - rewrite map_app. apply NoDup_app. split_and!; [done| |apply NoDup_singleton].
    intros n (g & -> & Hg)%list_elem_of_fmap Hn. apply list_elem_of_singleton in Hn.
    destruct (Hlive g Hg) as [Hlt _]. simpl in Hn. lia.
  - intros g [Hg| ->%list_elem_of_singleton]%elem_of_app.
    + destruct (Hlive g Hg) as [Hlt Hslot]. split; [lia|]. rewrite lookup_insert_ne; [done|].
      intros E. simpl in E. rewrite <- E, Hfree in Hslot. done.
    + split; [done|]. unfold job_of. simpl. by rewrite lookup_insert_eq.
  - intros id slot [[<- <-]|[Hne Hs]]%lookup_insert_Some.
    + exists f. split_and!; [|done..]. apply elem_of_app. right. by left.
    + destruct (Hrun id slot Hs) as (g & Hg & ?). exists g. split; [|done]. apply elem_of_app. by left.
Qed.

Lemma exclusive_finish s f : f ∈ live s -> exclusive s -> exclusive (finish f s).
Proof.
  intros Hf He. pose proof He as (Hnd & Hlive & Hrun). unfold finish. fold (job_of f).
  destruct (Hlive f Hf) as [_ ->]. simpl. rewrite Nat.eqb_refl. split_and!; simpl.
  - by apply NoDup_map_filter.
  - intros g [Hne Hg]%list_elem_of_filter. destruct (Hlive g Hg) as [Hlt Hslot]. split; [done|].
    rewrite lookup_delete_ne; [done|]. intros E. destruct (Hlive f Hf) as [_ Hslot'].
    rewrite E in Hslot'. rewrite Hslot in Hslot'. injection Hslot' as E1 _. done.
  - intros id slot [Hne Hs]%lookup_delete_Some. destruct (Hrun id slot Hs) as (g & Hg & <- & ->).
    exists g. split_and!; [|done..]. apply list_elem_of_filter. split; [|done].
    intros E. apply Hne. by rewrite (exclusive_inj s g f).
Qed.

Lemma claimed_exclusive id t0 s s' r :
  (forall st, schedule s !! id = Some st -> spec_id (spec st) = id) ->
  claimed id t0 s s' r -> exclusive s -> exclusive s'.
Proof.
  intros Hkey Hc He. destruct Hc as [| |st due next s1 e _ _ _ Hw|st due next s1 s' r Hst _ _ Hw s2 Hend]; [done..| |].
  - eapply exclusive_same; [|exact He]. by eapply write_advance_runs.
  - assert (exclusive s2) as He2.
    { eapply (exclusive_same s1); [done|]. eapply exclusive_same; [|exact He]. by eapply write_advance_runs. }
    destruct (is_running id s1) eqn:Hrun; destruct Hend as [_ Hend].
    + eapply exclusive_same; [|exact He2]. by eapply publish_skipped_runs.
    + eapply exclusive_dispatch; [|exact He2|exact Hend]. simpl. rewrite (Hkey _ Hst). exact Hrun.
Qed.

Lemma fire_exclusive fired t0 s s' r : fire fired t0 s = (s', r) -> exclusive s -> exclusive s'.
Proof.
  unfold fire, bind at 1, gets. destruct (is_running _ s) eqn:Hrun; intros Hf He.
  - eapply exclusive_same; [|exact He]. by eapply publish_skipped_runs.
  - by eapply exclusive_dispatch.
Qed.

(** ** The schedule and the store *)

Section Mirror.
  Context `{!JobStoreLaws D} {L : CalendarLaws C} (Hclock : forall n, now_ok (clock n)).

(** What is on disk, where there is a store. *)
Definition disk (s : State D) : option (gmap JobId JobState) := durable <$> store s.

Lemma with_store_err op s s1 e :
  (forall d d' e, op d = (d', Err e) -> durable d' = durable d) ->
  with_store op s = (s1, Err e) -> (exists d, s1 = set_store d s) /\ disk s1 = disk s.
Proof.
  intros Hop [(_ & _ & [=])|(d & d' & r & Hs & Ho & -> & Hr)]%with_store_cases. split; [by eexists|].
  destruct r as [|e']; [done|]. unfold disk. simpl. by rewrite Hs, (Hop _ _ _ Ho).
Qed.

Lemma with_store_ok op (f : gmap JobId JobState -> gmap JobId JobState) s s1 :
  (forall d d', op d = (d', Ok tt) -> durable d' = f (durable d)) ->
  with_store op s = (s1, Ok tt) -> (exists d, s1 = set_store d s) /\ disk s1 = f <$> disk s.
Proof.
  intros Hop [(Hs & -> & _)|(d & d' & r & Hs & Ho & -> & Hr)]%with_store_cases.
  - unfold disk. rewrite Hs. split; [|done]. exists None. by destruct s; simpl in *; subst.
  - split; [by eexists|]. destruct r as [[]|]; [|done]. unfold disk. simpl. rewrite Hs. simpl. by rewrite (Hop _ _ Ho).
Qed.

(** What a write has done to the disk: an insertion for a persistent job that goes on, a removal
    for one that does not. *)
Definition write_effect (id : JobId) (st : JobState) (d : gmap JobId JobState) : gmap JobId JobState :=
  if persistent (spec st) then
    match next_run_at st with Some _ => <[id := st]> d | None => delete id d end
  else d.

Lemma id_fmap_disk s : disk s = (fun d => d) <$> disk s.
Proof. by destruct (disk s). Qed.

Lemma write_advance_effect id st s s1 r :
  (persistent (spec st) = true -> storable st /\ spec_id (spec st) = id) ->
  write_advance id st s = (s1, r) ->
  (exists d, s1 = set_store d s) /\
  disk s1 = match r with Ok _ => write_effect id st <$> disk s | Err _ => disk s end.
Proof.
  unfold write_advance, write_effect. intros Hst. destruct (persistent (spec st)).
  2: { intros [= <- <-]. rewrite <- id_fmap_disk. split; [|done]. exists (store s). by destruct s. }
  destruct (Hst eq_refl) as [Hsto <-]. destruct (next_run_at st) as [n|], r as [[]|e]; intros Hw.
  - apply (with_store_ok _ (fun d => <[spec_id (spec st) := st]> d)) in Hw; [done|]. intros d d'. by apply put_ok.
  - apply with_store_err in Hw; [done|]. intros d d' e'. apply put_err.
  - apply (with_store_ok _ (fun d => delete (spec_id (spec st)) d)) in Hw; [done|]. intros d d'. apply remove_ok.
  - apply with_store_err in Hw; [done|]. intros d d' e'. apply remove_err.
Qed.

(** ** The shape of the schedule *)

Definition job_ok (id : JobId) (st : JobState) : Prop :=
  spec_id (spec st) = id /\ (forall n, next_run_at st = Some n -> 0 <= n) /\
  durations_ok (spec st).

Lemma job_ok_storable id st : job_ok id st -> persistent (spec st) = true -> storable st /\ spec_id (spec st) = id.
Proof. by intros (? & ? & ?) ?. Qed.

Definition keyed (s : State D) : Prop := forall id st, schedule s !! id = Some st -> job_ok id st.

Definition persisted (s : State D) (id : JobId) : option JobState :=
  match schedule s !! id with
  | Some st => if persistent (spec st) then Some st else None
  | None => None
  end.

(** All of a job but when it last ran. *)
Definition essence (st : JobState) : JobSpec * Principal * option Timestamp :=
  (spec st, owner st, next_run_at st).

(** The store is the mirror of the persistent jobs of the schedule. *)
Definition mirrored (s : State D) : Prop :=
  forall d, disk s = Some d -> forall id, essence <$> d !! id = essence <$> persisted s id.

Lemma mirrored_insert s s' id st :
  mirrored s -> schedule s' = <[id := st]> (schedule s) ->
  disk s' = (if persistent (spec st) then insert id st <$> disk s
             else if bool_decide (is_Some (persisted s id)) then delete id <$> disk s else disk s) ->
  mirrored s'.
Proof.
  intros Hm Hs Hd d' Hd'. rewrite Hd' in Hd. intros k. unfold persisted. rewrite Hs.
  destruct (disk s) as [d|] eqn:E; [|by destruct (persistent (spec st)), (bool_decide (is_Some (persisted s id)))]. specialize (Hm d E).
  destruct (decide (k = id)) as [->|Hne].
  - rewrite lookup_insert_eq. destruct (persistent (spec st)) eqn:Ep.
    + injection Hd as ->. by rewrite lookup_insert_eq.
    + destruct (bool_decide (is_Some (persisted s id))) eqn:Eb; injection Hd as ->; [by rewrite lookup_delete_eq|].
      apply bool_decide_eq_false, eq_None_not_Some in Eb. by rewrite Hm, Eb.
  - rewrite lookup_insert_ne by done. fold (persisted s k). rewrite <- Hm. f_equal.
    destruct (persistent (spec st)); [injection Hd as ->; by rewrite lookup_insert_ne|].
    destruct (bool_decide (is_Some (persisted s id))); injection Hd as ->; [by rewrite lookup_delete_ne|done].
Qed.

Lemma mirrored_delete s s' id :
  mirrored s -> schedule s' = delete id (schedule s) ->
  disk s' = (if bool_decide (is_Some (persisted s id)) then delete id <$> disk s else disk s) ->
  mirrored s'.
Proof.
  intros Hm Hs Hd d' Hd'. rewrite Hd' in Hd. intros k. unfold persisted. rewrite Hs.
  destruct (disk s) as [d|] eqn:E; [|by destruct (bool_decide (is_Some (persisted s id)))]. specialize (Hm d E).
  destruct (decide (k = id)) as [->|Hne].
  - rewrite lookup_delete_eq. destruct (bool_decide (is_Some (persisted s id))) eqn:Eb; injection Hd as ->; [by rewrite lookup_delete_eq|].
    apply bool_decide_eq_false, eq_None_not_Some in Eb. by rewrite Hm, Eb.
  - rewrite lookup_delete_ne by done. fold (persisted s k). rewrite <- Hm. f_equal.
    destruct (bool_decide (is_Some (persisted s id))); injection Hd as ->; [by rewrite lookup_delete_ne|done].
Qed.

(** Nothing about the schedule changes but when a job last ran. *)
Lemma mirrored_same s s' :
  mirrored s -> (forall id, essence <$> schedule s' !! id = essence <$> schedule s !! id) ->
  disk s' = disk s -> mirrored s'.
Proof.
  intros Hm Hs Hd d Hd' k. rewrite Hd in Hd'. rewrite (Hm d Hd'). specialize (Hs k). unfold persisted.
  destruct (schedule s !! k) as [a|], (schedule s' !! k) as [b|]; try done. simpl in Hs. injection Hs as E1 E2 E3.
  rewrite E1. destruct (persistent (spec a)); [|done]. simpl. unfold essence. by rewrite E1, E2, E3.
Qed.

(** Everything about jobs but the trace and the wake-up is as it was. *)
Definition kept (s s' : State D) : Prop :=
  schedule s' = schedule s /\ disk s' = disk s /\ handlers s' = handlers s /\
  tasks_cancelled s' = tasks_cancelled s /\ cancelled_runs s' = cancelled_runs s /\ runs_same s s'.

#[local] Instance kept_preorder : PreOrder kept.
Proof.
  split; [by intros s; split_and!|]. intros s1 s2 s3 (? & ? & ? & ? & ? & ?) (? & ? & ? & ? & ? & ?).
  split_and!; [congruence..|by etrans].
Qed.

Lemma kept_trace s t : (ids (trace s) <= ids t)%nat -> kept s (set_trace t s).
Proof. intros Hi. by split_and!. Qed.

Lemma kept_store s s1 : (exists d, s1 = set_store d s) -> disk s1 = disk s -> kept s s1.
Proof. intros [d ->] Hd. by split_and!. Qed.

Lemma first_run_nonneg trigger t n :
  (forall t, trigger = At t -> 0 <= t) -> now_ok t -> first_run trigger t = Some (Some n) -> 0 <= n.
Proof.
  intros Hat [Ht _]. unfold first_run, cron_next. destruct trigger as [t0|d|d|e|e]; simpl.
  - intros [= <-]. by apply Hat.
  - intros [= <-]. unfold Timestamp_saturating_add. pose proof (wrap64_ok (as_millis d)). int_lia.
  - intros [= <-]. unfold Timestamp_saturating_add. pose proof (wrap64_ok (as_millis d)). int_lia.
  - destruct (CronSchedule_parse e) as [[c|]|]; try done. destruct (next_after c t) eqn:E; try done.
    intros [= <-]. apply next_after_later in E. lia.
  - done.
Qed.

(** Every way a call to [schedule] can end. *)
Inductive scheduled (sp : JobSpec) (p : Principal) (s : State D) : State D -> result Interrupt unit -> Prop :=
  | scheduled_refused s' e :
      kept s s' ->
      (forall prev, schedule s !! spec_id sp = Some prev -> tasks_cancelled s = false ->
         validate duration_debug sp (is_persistent s) = Some (Ok tt) ->
         may_act_for p (principal_id (owner prev)) = false ->
         e = Fail (PermissionDenied ("job `" +:+ spec_id sp +:+ "` belongs to `" +:+ principal_id (owner prev)
                                     +:+ "`, not to `" +:+ principal_id p +:+ "`"))) ->
      scheduled sp p s s' (Err e)
  | scheduled_accepted s' st :
      spec st = sp -> job_ok (spec_id sp) st ->
      match schedule s !! spec_id sp with
      | Some prev => owner st = owner prev /\ may_act_for p (principal_id (owner prev)) = true
      | None => owner st = p
      end ->
      schedule s' = <[spec_id sp := st]> (schedule s) ->
      disk s' = (if persistent sp then insert (spec_id sp) st <$> disk s
                 else if bool_decide (is_Some (persisted s (spec_id sp))) then delete (spec_id sp) <$> disk s
                 else disk s) ->
      cancelled_runs s' = cancelled_runs s -> runs_same s s' ->
      scheduled sp p s s' (Ok tt).

Lemma install_runs st was : keeps runs_same (install st was).
Proof. unfold install. frame. Qed.

Lemma install_effect st was s s' r :
  (persistent (spec st) = true -> storable st) -> install st was s = (s', r) ->
  match r with
  | Err _ => kept s s'
  | Ok _ =>
      schedule s' = <[spec_id (spec st) := st]> (schedule s) /\
      disk s' = (if persistent (spec st) then insert (spec_id (spec st)) st <$> disk s
                 else if was then delete (spec_id (spec st)) <$> disk s else disk s) /\
      cancelled_runs s' = cancelled_runs s
  end.
Proof.
  unfold install. intros Hst Hcall. peel Hcall E.
  - peel_pure Hcall. unfold notify_one in Hcall. injection Hcall as <- <-.
    assert ((exists d, s0 = set_store d s) /\
      disk s0 = (if persistent (spec st) then insert (spec_id (spec st)) st <$> disk s
                 else if was then delete (spec_id (spec st)) <$> disk s else disk s)) as [[d0 ->] Hd].
    { destruct a, (persistent (spec st)); [|destruct was].
      - apply (with_store_ok _ (insert (spec_id (spec st)) st)) in E; [done|]. intros d d'. apply put_ok. by apply Hst.
      - apply (with_store_ok _ (delete (spec_id (spec st)))) in E; [done|]. intros d d'. apply remove_ok.
      - injection E as <-. split; [|done]. exists (store s). by destruct s. }
    split_and!; [done|exact Hd|done].
  - destruct (persistent (spec st)); [|destruct was; [|done]].
    + apply with_store_err in E as [Hs Hd]; [by apply kept_store|]. intros d d' e'. apply put_err.
    + apply with_store_err in E as [Hs Hd]; [by apply kept_store|]. intros d d' e'. apply remove_err.
Qed.

Lemma schedule_job_scheduled sp cx s s' r :
  spec_ok sp -> schedule_job sp cx s = (s', r) -> scheduled sp (principal_or_system cx) s s' r.
Proof.
  intros [Hat Hto] Hcall. pose proof (schedule_job_runs sp cx s s' r Hcall) as Hruns.
  unfold schedule_job in Hcall. set (p := principal_or_system cx) in *.
  peel_pure Hcall. destruct (tasks_cancelled s) eqn:Estop.
  { injection Hcall as <- <-. apply scheduled_refused; [by split_and!|congruence]. }
  peel_pure Hcall. peel Hcall Ev; unfold no_panic, lift in Ev; injection Ev as <- Ev.
  2: { apply scheduled_refused; [by split_and!|]. intros prev _ _ Hv. by rewrite Hv in Ev. }
  destruct (validate duration_debug sp (is_persistent s)) as [valid|] eqn:Evalid; [|done]. injection Ev as <-.
  peel Hcall Ev; unfold fallible, lift in Ev; injection Ev as <- Ev; (destruct valid as [[]|e1]; [|]); try discriminate Ev.
  2: { apply scheduled_refused; [by split_and!|]. intros prev _ _ Hv. by rewrite Hv in Evalid. }
  clear a Ev. peel Hcall Enow; unfold now in Enow; [injection Enow as <- <-|discriminate Enow].
  set (t0 := clock _) in Hcall. set (s1 := set_trace _ s) in Hcall.
  assert (kept s s1) as Hk by (by apply kept_trace).
  peel_pure Hcall. change (schedule s1) with (schedule s) in Hcall.
  peel Hcall Eowner.
  2: { destruct (schedule s !! spec_id sp) as [prev|] eqn:Eprev; [|discriminate Eowner].
       unfold fallible, lift, bind, authorize in Eowner.
       destruct (may_act_for p (principal_id (owner prev))) eqn:Eact; simpl in Eowner; [discriminate Eowner|].
       injection Eowner as <- <-. apply scheduled_refused; [done|]. rewrite Eprev. by intros prev' [= <-] _ _ _. }
  assert (s0 = s1 /\ match schedule s !! spec_id sp with
                     | Some prev => a = owner prev /\ may_act_for p (principal_id (owner prev)) = true
                     | None => a = p
                     end) as [-> Ha].
  { destruct (schedule s !! spec_id sp) as [prev|]; [|by injection Eowner as <- <-].
    unfold fallible, lift, bind, authorize in Eowner.
    destruct (may_act_for p (principal_id (owner prev))); simpl in Eowner; [|discriminate Eowner].
    by injection Eowner as <- <-. }
  clear Eowner. peel Hcall En; unfold no_panic, lift in En; injection En as <- En.
  2: { apply scheduled_refused; [done|]. intros prev Eprev _ _ Hno. rewrite Eprev in Ha. destruct Ha; congruence. }
  destruct (first_run (trigger sp) t0) as [next|] eqn:Efirst; [|done]. injection En as <-.
  set (st := {| spec := sp |}) in Hcall.
  assert (job_ok (spec_id sp) st) as Hok.
  { split_and!; [done| |exact Hto]. intros n Hn. eapply first_run_nonneg; [exact Hat|apply Hclock|].
    unfold t0 in Efirst. rewrite Efirst. f_equal. exact Hn. }
  pose proof (install_effect st _ s1 s' r (fun Hp => proj1 (job_ok_storable _ _ Hok Hp)) Hcall) as Heff.
  destruct r as [[]|e].
  - destruct Heff as (Hs & Hd & Ht).
    apply scheduled_accepted with st; [done|exact Hok|exact Ha|exact Hs| |exact Ht|exact Hruns].
    rewrite Hd. simpl. destruct (persistent sp); [done|]. unfold persisted.
    change (disk s1) with (disk s). destruct (schedule s !! spec_id sp) as [prev|]; [|done].
    by destruct (persistent (spec prev)).
  - apply scheduled_refused; [by etrans|]. intros prev Eprev _ _ Hno. rewrite Eprev in Ha. destruct Ha; congruence.
Qed.

(** Whether [p] may cancel what lives under [id]: the entry, and the run in flight. *)
Definition may_cancel (p : Principal) (id : JobId) (s : State D) : Prop :=
  (forall st, schedule s !! id = Some st -> may_act_for p (principal_id (owner st)) = true) /\
  (forall slot, running s !! id = Some slot -> may_act_for p (slot_owner slot) = true).

(** Every way a call to [cancel] can end. *)
Inductive cancelled (id : JobId) (p : Principal) (s : State D) : State D -> result Interrupt bool -> Prop :=
  | cancelled_refused s' e : kept s s' ->
      (~ may_cancel p id s -> exists message, e = Fail (PermissionDenied message)) ->
      cancelled id p s s' (Err e)
  | cancelled_nothing : schedule s !! id = None -> running s !! id = None -> cancelled id p s s (Ok false)
  | cancelled_done s' :
      may_cancel p id s -> (is_Some (schedule s !! id) \/ is_Some (running s !! id)) ->
      schedule s' = delete id (schedule s) ->
      disk s' = (if bool_decide (is_Some (persisted s id)) then delete id <$> disk s else disk s) ->
      cancelled_runs s' = match running s !! id with
                          | Some slot => {[slot_run slot]} ∪ cancelled_runs s
                          | None => cancelled_runs s
                          end ->
      runs_same s s' ->
      cancelled id p s s' (Ok true).

Lemma authorize_cases id o p :
  (authorize id o p = Ok tt /\ may_act_for p o = true) \/
  exists m, authorize id o p = Err (PermissionDenied m) /\ may_act_for p o = false.
Proof. unfold authorize. destruct (may_act_for p o); [by left|right; eauto]. Qed.

Lemma drop_entry_effect id s s1 r :
  (match schedule s !! id with
   | Some existing =>
       (if persistent (spec existing) then with_store (remove id) else ret tt) ;!
       modify (fun s => set_schedule (delete id (schedule s)) s)
   | None => ret tt
   end) s = (s1, r) ->
  match r with
  | Err _ => kept s s1
  | Ok _ => schedule s1 = delete id (schedule s) /\
      disk s1 = (if bool_decide (is_Some (persisted s id)) then delete id <$> disk s else disk s) /\
      cancelled_runs s1 = cancelled_runs s /\ (schedule s !! id = None -> s1 = s)
  end.
Proof.
  unfold persisted. destruct (schedule s !! id) as [st|] eqn:Est.
  2: { intros [= <- <-]. split_and!; [by rewrite delete_id|done..]. }
  intros Hcall. peel Hcall E.
  - injection Hcall as <- <-. destruct a, (persistent (spec st)).
    + apply (with_store_ok _ (delete id)) in E as [[d0 ->] Hd]; [|intros d d'; apply remove_ok].
      split_and!; [done|exact Hd|done|congruence].
    + injection E as <-. split_and!; [done..|congruence].
  - destruct (persistent (spec st)); [|done].
    apply with_store_err in E as [Hs Hd]; [by apply kept_store|]. intros d d' e'. apply remove_err.
Qed.

Lemma cancel_cancelled id cx s s' r : cancel id cx s = (s', r) -> cancelled id (principal_or_system cx) s s' r.
Proof.
  intros Hcall. pose proof (cancel_runs id cx s s' r Hcall) as Hruns. unfold cancel in Hcall.
  set (p := principal_or_system cx) in *. peel_pure Hcall. peel_pure Hcall.
  peel Hcall E; unfold fallible, lift in E; injection E as <- E.
  2: { apply cancelled_refused; [done|]. intros _. destruct (schedule s !! id) as [st|]; [|done].
       destruct (authorize_cases id (principal_id (owner st)) p) as [[Hm _]|(m & Hm & _)];
         rewrite Hm in E; [done|]. injection E as <-. by exists m. }
  assert (Hentry : forall st, schedule s !! id = Some st -> may_act_for p (principal_id (owner st)) = true).
  { intros st Hst. rewrite Hst in E.
    by destruct (authorize_cases id (principal_id (owner st)) p) as [[_ ?]|(m & Hm & _)]; [|rewrite Hm in E]. }
  clear a E. peel Hcall E; unfold fallible, lift in E; injection E as <- E.
  2: { apply cancelled_refused; [done|]. intros _. destruct (running s !! id) as [slot|]; [|done].
       destruct (authorize_cases id (slot_owner slot) p) as [[Hm _]|(m & Hm & _)];
         rewrite Hm in E; [done|]. injection E as <-. by exists m. }
  assert (may_cancel p id s) as Hmay.
  { split; [done|]. intros slot Hslot. rewrite Hslot in E.
    by destruct (authorize_cases id (slot_owner slot) p) as [[_ ?]|(m & Hm & _)]; [|rewrite Hm in E]. }
  clear a E. peel Hcall E; apply drop_entry_effect in E; [|by apply cancelled_refused].
  destruct E as (Hs & Hd & Ht & Hnone).
  destruct (schedule s !! id) as [st|] eqn:Est, (running s !! id) as [slot|] eqn:Erun;
    peel_pure Hcall; try (unfold notify_one in Hcall; injection Hcall as <- <-;
      apply cancelled_done; rewrite ?Erun; simpl; rewrite ?Ht; first [done|eauto]).
  unfold ret in Hcall. injection Hcall as <- <-. rewrite (Hnone eq_refl). by apply cancelled_nothing.
Qed.

(** The occurrence [due] of a job has been used up: the schedule has moved on, on disk first. *)
Definition moved_on (id : JobId) (t0 : Timestamp) (s s' : State D) : Prop :=
  exists st due next,
    schedule s !! id = Some st /\ next_run_at st = Some due /\ due <= t0 /\
    (forall n, next = Some n -> t0 < n) /\
    schedule s' = match next with
                  | Some _ => <[id := advance st due next]> (schedule s)
                  | None => delete id (schedule s)
                  end /\
    disk s' = write_effect id (advance st due next) <$> disk s /\
    cancelled_runs s' = cancelled_runs s /\ tasks_cancelled s' = tasks_cancelled s.

Lemma advance_ok id t0 s st due next :
  keyed s -> now_ok t0 -> schedule s !! id = Some st -> due_at st t0 = Some due ->
  next_run (trigger (spec st)) due t0 = Some next ->
  next_run_at st = Some due /\ due <= t0 /\ (forall n, next = Some n -> t0 < n) /\
  job_ok id (advance st due next).
Proof.
  intros Hkey [Ht0 Hmax] Hst Hdue Hnext. destruct (Hkey id st Hst) as (Hid & Hpos & Hto).
  unfold due_at in Hdue. destruct (next_run_at st) as [n|]; [|done].
  destruct (Z.leb_spec n t0) as [Hle|]; [|done]. injection Hdue as ->.
  assert (forall n, next = Some n -> t0 < n) as Hlater.
  { intros n ->. eapply next_run_later; [|exact Hmax|exact Hnext]. by apply Hpos. }
  split_and!; [done..|]. split_and!; [done| |done]. simpl. intros n Hn. specialize (Hlater n Hn). lia.
Qed.

Lemma claimed_effect id t0 s s' r :
  keyed s -> now_ok t0 -> claimed id t0 s s' r ->
  match r with
  | Ok Dispatched | Ok Skipped => moved_on id t0 s s'
  | _ => kept s s'
  end.
Proof.
  intros Hkey Ht0 [| |st due next s1 e Hst Hdue Hnext Hw|st due next s1 s2 r' Hst Hdue Hnext Hw s3 Hend]; [done..| |];
    destruct (advance_ok _ _ _ _ _ _ Hkey Ht0 Hst Hdue Hnext) as (En & Hle & Hlater & Hok);
    (apply write_advance_effect in Hw as [Hs1 Hd]; [|by apply job_ok_storable]).
  - by apply kept_store.
  - destruct Hs1 as [d0 ->].
    assert (moved_on id t0 s s3) as Hmoved.
    { exists st, due, next. split_and!; [done..|exact Hd|done|done]. }
    assert (moved_on id t0 s s2) as Hfinal.
    { destruct Hmoved as (a & b & c & ? & ? & ? & ? & Hs & Hdk & Hcr & Htc). exists a, b, c.
      destruct (is_running id _); destruct Hend as [_ Hend].
      - destruct (publish_skipped_run (advance st due next) due AlreadyRunning s3) as (t & e & Ep & _).
        rewrite Ep in Hend. injection Hend as <-. by split_and!.
      - apply dispatch_cases in Hend as (_ & t & _ & [->| ->]); by split_and!. }
    by destruct (is_running id _); destruct Hend as [-> _].
Qed.

(** The invariant of the system between two steps. *)
Definition sound (s : State D) : Prop := keyed s /\ mirrored s.

Lemma kept_sound s s' : kept s s' -> sound s -> sound s'.
Proof.
  intros (Hs & Hd & _) [Hk Hm]. split.
  - intros id st. rewrite Hs. apply Hk.
  - apply (mirrored_same s); [done| |done]. intros id. by rewrite Hs.
Qed.

Lemma moved_on_sound id t0 s s' : now_ok t0 -> moved_on id t0 s s' -> sound s -> sound s'.
Proof.
  intros [Ht0 _] (st & due & next & Hst & Hdue & Hle & Hlater & Hs & Hd & _) [Hk Hm].
  destruct (Hk id st Hst) as (Hid & Hpos & Hto). unfold write_effect in Hd. simpl in Hd.
  assert (persisted s id = if persistent (spec st) then Some st else None) as Hper by (unfold persisted; by rewrite Hst).
  destruct next as [n|].
  - split.
    + intros k a. rewrite Hs. intros [[<- <-]|[_ Ha]]%lookup_insert_Some; [|by apply Hk].
      split_and!; [done| |done]. intros m [= <-]. specialize (Hlater n eq_refl). lia.
    + eapply mirrored_insert; [done|exact Hs|]. simpl. rewrite Hd, Hper.
      destruct (persistent (spec st)); [done|]. by rewrite <- id_fmap_disk.
  - split.
    + intros k a. rewrite Hs. intros [_ Ha]%lookup_delete_Some. by apply Hk.
    + eapply mirrored_delete; [done|exact Hs|]. rewrite Hd, Hper.
      destruct (persistent (spec st)); [done|]. by rewrite <- id_fmap_disk.
Qed.

Lemma scheduled_sound sp p s s' r : scheduled sp p s s' r -> sound s -> sound s'.
Proof.
  intros [s'' e Hkept _|s'' st Hsp Hok _ Hs Hd _ _] [Hk Hm]; [by eapply kept_sound|]. split.
  - intros k a. rewrite Hs. intros [[<- <-]|[_ Ha]]%lookup_insert_Some; [done|by apply Hk].
  - eapply mirrored_insert; [done|exact Hs|]. by rewrite Hd, Hsp.
Qed.

Lemma cancelled_sound id p s s' r : cancelled id p s s' r -> sound s -> sound s'.
Proof.
  intros [s'' e Hkept _|_ _|s'' _ _ Hs Hd _ _] [Hk Hm]; [by eapply kept_sound|done|]. split.
  - intros k a. rewrite Hs. intros [_ Ha]%lookup_delete_Some. by apply Hk.
  - by eapply mirrored_delete.
Qed.

Lemma touch_effect id t0 s s' fired :
  touch id t0 s = (s', Ok (Some fired)) ->
  exists st, schedule s !! id = Some st /\ fired = advance st t0 (next_run_at st) /\
    s' = set_schedule (<[id := fired]> (schedule s)) s.
Proof.
  unfold touch. intros Hcall. peel_pure Hcall. destruct (schedule s !! id) as [st|]; [|done].
  peel_pure Hcall. injection Hcall as <- <-. by exists st.
Qed.

Lemma touch_sound id t0 s s' fired : touch id t0 s = (s', Ok (Some fired)) -> sound s -> sound s'.
Proof.
  intros (st & Hst & -> & ->)%touch_effect [Hk Hm]. split.
  - intros k a. simpl. intros [[<- <-]|[_ Ha]]%lookup_insert_Some; [by apply (Hk id st)|by apply Hk].
  - apply (mirrored_same s); [done| |done]. intros k. simpl.
    destruct (decide (k = id)) as [->|]; [by rewrite lookup_insert_eq, Hst|by rewrite lookup_insert_ne].
Qed.

(** Firing leaves the schedule, the store and the tokens alone. *)
Lemma fire_effect fired t0 s s' r :
  fire fired t0 s = (s', r) ->
  schedule s' = schedule s /\ disk s' = disk s /\ cancelled_runs s' = cancelled_runs s /\
  tasks_cancelled s' = tasks_cancelled s.
Proof.
  unfold fire, bind at 1, gets. destruct (is_running _ s).
  - destruct (publish_skipped_run fired t0 AlreadyRunning s) as (t & e & -> & _). by intros [= <- _].
  - intros (_ & t & _ & [->| ->])%dispatch_cases; done.
Qed.

Lemma same_sound s s' : schedule s' = schedule s -> disk s' = disk s -> sound s -> sound s'.
Proof.
  intros Hs Hd [Hk Hm]. split; [intros id st; rewrite Hs; apply Hk|].
  apply (mirrored_same s); [done| |done]. intros id. by rewrite Hs.
Qed.

Lemma step_sound c l c' : step c l c' -> sound c.1 -> sound c'.1.
Proof.
  intros [s s' d sp cx r Hok Hc|s s' d id cx r Hc|s s' id t0 r _ Ht0 Hc|s s' id t0 fired _ _ Hc
         |s s' fired t0 r Hc|s d f _|s d]; simpl; intros Hs.
  - eapply scheduled_sound; [|exact Hs]. by eapply schedule_job_scheduled.
  - eapply cancelled_sound; [|exact Hs]. by eapply cancel_cancelled.
  - pose proof (claimed_effect id t0 s s' r (proj1 Hs) Ht0 (claim_claimed _ _ _ _ _ Hc)) as He.
    destruct r as [[]|]; try (by eapply kept_sound); by eapply moved_on_sound.
  - by eapply touch_sound.
  - apply fire_effect in Hc as (? & ? & _). by eapply same_sound.
  - by eapply same_sound.
  - by eapply same_sound.
Qed.

(** ** Reading the schedule back *)

(** [st] is the job of the row [row], due no earlier. *)
Definition descends (row st : JobState) : Prop :=
  spec st = spec row /\ owner st = owner row /\
  forall n, next_run_at st = Some n -> exists n0, next_run_at row = Some n0 /\ n0 <= n.

Lemma recover_row_effect t0 st s s' :
  now_ok t0 -> storable st -> schedule s !! spec_id (spec st) = None ->
  recover_row t0 st s = (s', Ok tt) ->
  let id := spec_id (spec st) in
  exists o : option JobState,
    schedule s' = match o with Some st' => <[id := st']> (schedule s) | None => schedule s end /\
    (forall st', o = Some st' -> descends st st' /\ storable st') /\
    (forall d, disk s = Some d -> d !! id = Some st ->
       disk s' = Some (match o with Some st' => <[id := st']> d | None => delete id d end)).
Proof.
  intros Ht0 Hst Hnone Hcall id. unfold recover_row in Hcall. peel_pure Hcall. rewrite Hnone in Hcall.
  peel Hcall E; unfold no_panic, lift in E; injection E as <- E.
  destruct (recover st t0 catch_up_window) as [decision|] eqn:Erec; [|done]. injection E as <-.
  assert (Hkeep : modify (E := Interrupt) (fun s => set_schedule (<[id := st]> (schedule s)) s) s = (s', Ok tt) -> exists o,
    schedule s' = match o with Some st' => <[id := st']> (schedule s) | None => schedule s end /\
    (forall st', o = Some st' -> descends st st' /\ storable st') /\
    (forall d, disk s = Some d -> d !! id = Some st ->
       disk s' = Some (match o with Some st' => <[id := st']> d | None => delete id d end))).
  { intros [= <-]. exists (Some st). split_and!; [done| |].
    - intros ? [= <-]. split; [|done]. split; [done|split; [done|]]. intros n Hn. exists n. split; [done|lia].
    - intros d Hd Hid. rewrite (insert_id d) by done. exact Hd. }
  unfold recover in Erec. destruct (next_run_at st) as [due|] eqn:Edue; [|by injection Erec as <-; apply Hkeep].
  destruct (Z.ltb_spec t0 due) as [|Hle]; [by injection Erec as <-; apply Hkeep|].
  destruct (_ <=? catch_up_window); [by injection Erec as <-; apply Hkeep|]. clear Hkeep.
  destruct (next_run (trigger (spec st)) due t0) as [next|] eqn:Enext; [|done]. injection Erec as <-.
  assert (0 <= due) as Hdue by (by apply Hst).
  peel Hcall E. destruct (publish_skipped_run st due Missed s) as (t & e & Ep & _). rewrite Ep in E. injection E as <- _.
  destruct next as [n|].
  - peel Hcall E. injection Hcall as <-. set (st' := {| spec := spec st |}) in *. destruct a0.
    pose proof (next_run_later _ _ _ _ Hdue (proj2 Ht0) Enext) as Hlater.
    assert (storable st') as Hst'.
    { destruct Hst as (? & _ & ?). split_and!; [done| |done]. intros m [= <-]. lia. }
    destruct (with_store_ok _ (insert id st') _ _ (fun d d' => put_ok st' d d' Hst') E) as [[d0 Hs0] Hd].
    exists (Some st'). split_and!; [by rewrite Hs0| |].
    + intros ? [= <-]. split; [|done]. split; [done|split; [done|]]. intros m [= <-]. exists due. split; [done|lia].
    + intros d Hd' _. change (disk (set_trace t s)) with (disk s) in Hd.
      rewrite Hd' in Hd. exact Hd.
  - destruct (with_store_ok _ (delete id) _ _ (remove_ok id) Hcall) as [[d0 Hs0] Hd].
    exists None. split_and!; [by rewrite Hs0|done|]. intros d Hd' _. change (disk (set_trace t s)) with (disk s) in Hd.
      rewrite Hd' in Hd. exact Hd.
Qed.

(** The rows still to be recovered are those of the disk that the schedule does not hold yet. *)
Definition recovering (d0 : gmap JobId JobState) (rest : list JobState) (s : State D) : Prop :=
  keyed s /\ NoDup (map (fun st => spec_id (spec st)) rest) /\
  (forall st, st ∈ rest -> storable st /\ schedule s !! spec_id (spec st) = None) /\
  (forall id st, schedule s !! id = Some st -> exists row, d0 !! id = Some row /\ descends row st) /\
  exists d, disk s = Some d /\
    (forall st, st ∈ rest -> d !! spec_id (spec st) = Some st) /\
    forall id, id ∉ map (fun st => spec_id (spec st)) rest -> essence <$> d !! id = essence <$> persisted s id.

Lemma recovering_step d0 t0 st rest s s' :
  now_ok t0 -> d0 !! spec_id (spec st) = Some st -> recovering d0 (st :: rest) s ->
  recover_row t0 st s = (s', Ok tt) -> recovering d0 rest s'.
Proof.
  intros Ht0 Hd0 (Hk & [Hnotin Hnd]%NoDup_cons & Hrest & Hdesc & Hdisk) Hcall. set (id := spec_id (spec st)) in *.
  destruct (Hrest st ltac:(by left)) as [Hst Hnone].
  destruct (recover_row_effect t0 st s s' Ht0 Hst Hnone Hcall) as (o & Hs & Ho & Hd). fold id in Hs, Hd.
  assert (Hother : forall k, k <> id -> schedule s' !! k = schedule s !! k).
  { intros k Hne. rewrite Hs. destruct o; [by rewrite lookup_insert_ne|done]. }
  assert (Hhere : schedule s' !! id = o).
  { rewrite Hs. destruct o; [by rewrite lookup_insert_eq|done]. }
  assert (Hne : forall st', st' ∈ rest -> spec_id (spec st') <> id).
  { intros st' Hin E. apply Hnotin. apply list_elem_of_fmap. by exists st'. }
  split_and!; [|done| | |].
  - intros k a Ha. destruct (decide (k = id)) as [->|Hk']; [|rewrite Hother in Ha by done; by apply Hk].
    rewrite Hhere in Ha. destruct (Ho a Ha) as [(Hsp & _ & _) (_ & Hpos & Hto)]. split_and!; [by rewrite Hsp|done..].
  - intros st' Hin. destruct (Hrest st' ltac:(by right)). split; [done|]. by rewrite Hother by auto.
  - intros k a Ha. destruct (decide (k = id)) as [->|Hk']; [|rewrite Hother in Ha by done; by apply Hdesc].
    rewrite Hhere in Ha. exists st. split; [done|]. by apply Ho.
  - destruct Hdisk as (d & Ed & Hrows & Hmir). specialize (Hd d Ed (Hrows st ltac:(by left))).
    eexists. split_and!; [exact Hd| |].
    + intros st' Hin. specialize (Hne st' Hin). specialize (Hrows st' ltac:(by right)).
      destruct o; [by rewrite lookup_insert_ne|by rewrite lookup_delete_ne].
    + intros k Hk'. unfold persisted. destruct (decide (k = id)) as [->|Hkid].
      * rewrite Hhere. destruct o as [a|]; [|by rewrite lookup_delete_eq].
        destruct (Ho a eq_refl) as [_ (-> & _)]. by rewrite lookup_insert_eq.
      * rewrite Hother by done. fold (persisted s k).
        rewrite <- (Hmir k) by (simpl; rewrite not_elem_of_cons; done).
        destruct o; [by rewrite lookup_insert_ne|by rewrite lookup_delete_ne].
Qed.

Lemma recovering_all d0 t0 rows s s' :
  now_ok t0 -> (forall st, st ∈ rows -> d0 !! spec_id (spec st) = Some st) -> recovering d0 rows s ->
  for_each (recover_row t0) rows s = (s', Ok tt) -> recovering d0 [] s'.
Proof.
  intros Ht0. revert s. induction rows as [|st rows IH]; intros s Hd0 Hr; simpl; [by intros [= <-]|].
  intros Hcall. peel Hcall E. destruct a.
  eapply IH; [intros st' ?; apply Hd0; by right| |exact Hcall].
  eapply recovering_step; [done| |exact Hr|exact E]. apply Hd0. by left.
Qed.

(** What holds once a newly built scheduler has started. *)
Definition from_disk (d : option D) (s : State D) : Prop :=
  forall id st, schedule s !! id = Some st ->
    exists rows row, disk (build d) = Some rows /\ rows !! id = Some row /\ descends row st.

Lemma start_sound hs d s1 :
  start hs (build d) = (s1, Ok tt) -> sound s1 /\ exclusive s1 /\ driving s1 = true /\ from_disk d s1.
Proof.
  intros Hcall. assert (exclusive s1) as He.
  { eapply exclusive_same; [by eapply start_runs|]. split_and!; [constructor|by intros f ?%not_elem_of_nil|done]. }
  unfold start in Hcall. peel_pure Hcall. simpl in Hcall. peel_pure Hcall.
  peel Hcall E. injection Hcall as <-. unfold from_disk.
  cut (sound s /\ from_disk d s); [intros [Hs Hf]; split_and!; [by eapply same_sound|done..|exact Hf]|].
  unfold recover_persisted in E. peel E El.
  unfold load_rows in El. simpl in El. destruct d as [d|]; simpl in El.
  2: { injection El as <- <-. injection E as <- _. split; [|done]. split; [done|]. intros d' [=]. }
  destruct (load d) as [d' [rows|e]] eqn:Eload; simpl in El; [|done]. injection El as <- <-.
  apply load_exact in Eload as (Hdur & Hnd & Hrows). simpl in E. peel E En. unfold now in En. injection En as <- <-.
  set (t0 := clock _) in E. destruct a.
  assert (recovering (durable d) [] s) as (Hk & _ & _ & Hdesc & d2 & Hd2 & _ & Hmir).
  { eapply recovering_all; [apply Hclock| | |exact E].
    - intros st Hin. by apply Hrows.
    - split_and!; [done|exact Hnd| |done|].
      + intros st Hin. split; [|done]. apply Hrows in Hin. by apply load_storable in Hin as [? _].
      + exists (durable d'). split_and!; [done| |].
        * intros st Hin. rewrite Hdur. by apply Hrows.
        * intros id Hnot. unfold persisted. simpl. rewrite lookup_empty. simpl. rewrite Hdur.
          destruct (durable d !! id) as [st|] eqn:Est; [|done]. exfalso. apply Hnot.
          apply list_elem_of_fmap. exists st. pose proof (load_storable _ _ _ Est) as [_ Hid].
          split; [done|]. apply Hrows. by rewrite Hid. }
  split.
  - split; [done|]. intros d3 Hd3 id. rewrite Hd3 in Hd2. injection Hd2 as ->. apply Hmir. by apply not_elem_of_nil.
  - intros id st Hst. destruct (Hdesc id st Hst) as (row & Hrow & Hd). by exists (durable d), row.
Qed.

Lemma step_exclusive c l c' : step c l c' -> sound c.1 -> exclusive c.1 -> exclusive c'.1.
Proof.
  intros [s s' d sp cx r _ Hc|s s' d id cx r Hc|s s' id t0 r _ _ Hc|s s' id t0 fired _ _ Hc
         |s s' fired t0 r Hc|s d f Hf|s d]; simpl; intros Hs He.
  - eapply exclusive_same; [|exact He]. by eapply schedule_job_runs.
  - eapply exclusive_same; [|exact He]. by eapply cancel_runs.
  - eapply claimed_exclusive; [|by apply claim_claimed|exact He]. intros st Hst. by apply (proj1 Hs).
  - eapply exclusive_same; [|exact He]. by eapply touch_runs.
  - by eapply fire_exclusive.
  - by apply exclusive_finish.
  - done.
Qed.

Lemma run_sound P c occs c' : run P c occs c' -> sound c.1 /\ exclusive c.1 -> sound c'.1 /\ exclusive c'.1.
Proof.
  induction 1 as [|s d l c c' occs _ Hstep _ IH]; [done|]. intros [Hs He]. apply IH.
  split; [by eapply (step_sound (s, d))|by eapply (step_exclusive (s, d))].
Qed.

(** ** Occurrences are used up in order *)

Definition pending (s : State D) (id : JobId) : option Timestamp := schedule s !! id ≫= next_run_at.

(** Nobody schedules anything under [id]. *)
Definition not_rescheduled (id : JobId) (l : Label) : Prop :=
  match l with Call_schedule sp _ => spec_id sp <> id | _ => True end.

(** The occurrences of [id] among those used up, in order. *)
Definition times (id : JobId) (occs : list (JobId * Timestamp)) : list Timestamp :=
  map snd (filter (fun o => fst o = id) occs).

Lemma times_app id a b : times id (a ++ b) = times id a ++ times id b.
Proof. unfold times. by rewrite filter_app, map_app. Qed.

Lemma pending_same s s' id : schedule s' !! id = schedule s !! id -> pending s' id = pending s id.
Proof. unfold pending. by intros ->. Qed.

Lemma moved_on_pending k t0 s s' :
  moved_on k t0 s s' ->
  exists due, pending s k = Some due /\ (forall n', pending s' k = Some n' -> due < n') /\
    forall id, id <> k -> schedule s' !! id = schedule s !! id.
Proof.
  intros (st & due & next & Hst & Hdue & Hle & Hlater & Hsch & _). exists due.
  unfold pending. rewrite Hst, Hsch. split_and!; [done| |].
  - intros n'. destruct next as [n|]; [|by rewrite lookup_delete_eq].
    rewrite lookup_insert_eq. intros [= <-]. specialize (Hlater n eq_refl). lia.
  - intros id Hne. destruct next; [by rewrite lookup_insert_ne|by rewrite lookup_delete_ne].
Qed.

(** Unless it is scheduled again, the time a job is due only moves on. *)
Lemma step_pending s d l c id :
  step (s, d) l c -> sound s -> not_rescheduled id l ->
  forall n', pending c.1 id = Some n' -> exists n, pending s id = Some n /\ n <= n'.
Proof.
  intros Hstep Hs Hl.
  assert (Hsame : forall s', schedule s' !! id = schedule s !! id ->
            forall n', pending s' id = Some n' -> exists n, pending s id = Some n /\ n <= n').
  { intros s' E n' Hn'. rewrite (pending_same _ _ _ E) in Hn'. exists n'. split; [done|lia]. }
  inversion Hstep as [? s' ? sp cx r Hok Hc|? s' ? k cx r Hc|? s' k t0 r _ Ht0 Hc|? s' k t0 fired _ _ Hc
                     |? s' fired t0 r Hc|? ? f _|]; subst; simpl; try by apply Hsame.
  - apply Hsame. apply schedule_job_scheduled in Hc; [|done].
    destruct Hc as [s'' e Hk _|s'' st _ _ _ Hsch _ _ _]; [by rewrite (proj1 Hk)|].
    rewrite Hsch, lookup_insert_ne; done.
  - apply cancel_cancelled in Hc. destruct Hc as [s'' e Hk _|_ _|s'' _ _ Hsch _ _ _];
      [by apply Hsame; rewrite (proj1 Hk)|by apply Hsame|].
    destruct (decide (id = k)) as [->|Hne]; [|by apply Hsame; rewrite Hsch, lookup_delete_ne].
    intros n'. unfold pending. by rewrite Hsch, lookup_delete_eq.
  - apply claim_claimed, claimed_effect in Hc; [|apply Hs|done].
    destruct r as [[]|]; try (by apply Hsame; rewrite (proj1 Hc));
      (destruct (moved_on_pending _ _ _ _ Hc) as (due & Hdue & Hlater & Hother);
       (destruct (decide (id = k)) as [->|Hne]; [|by apply Hsame, Hother]);
       intros n' Hn'; exists due; specialize (Hlater n' Hn'); split; [done|lia]).
  - apply touch_effect in Hc as (st & Hst & -> & ->). intros n'. unfold pending. simpl.
    destruct (decide (id = k)) as [->|Hne]; [rewrite lookup_insert_eq, Hst|rewrite lookup_insert_ne by done];
      intros Hn; exists n'; (split; [done|lia]).
  - apply fire_effect in Hc as (Hsch & _). apply Hsame. by rewrite Hsch.
Qed.

(** A step uses up at most the occurrence that was due, and moves past it. *)
Lemma step_used s d l c id :
  step (s, d) l c -> sound s ->
  times id (used s l) = [] \/
  exists t, times id (used s l) = [t] /\ pending s id = Some t /\ forall n', pending c.1 id = Some n' -> t < n'.
Proof.
  intros Hstep Hs.
  inversion Hstep as [| |? s' k t0 r _ Ht0 Hc| | | |]; subst; simpl; try by left.
  apply claim_claimed, claimed_effect in Hc; [|apply Hs|done].
  destruct r as [[]|]; try (by left);
    (destruct (moved_on_pending _ _ _ _ Hc) as (due & Hdue & Hlater & _);
     fold (pending s k); rewrite Hdue; unfold times; rewrite filter_cons; simpl;
     destruct (decide (k = id)) as [->|Hne]; [right; by exists due|by left]).
Qed.

(** Over a run, what is used up lies between what was due before and what is due after. *)
Lemma run_times id c occs c' :
  run (not_rescheduled id) c occs c' -> sound c.1 ->
  (forall n', pending c'.1 id = Some n' -> exists n, pending c.1 id = Some n /\ n <= n') /\
  StronglySorted Z.lt (times id occs) /\
  (forall t, t ∈ times id occs -> exists n, pending c.1 id = Some n /\ n <= t) /\
  forall t n', t ∈ times id occs -> pending c'.1 id = Some n' -> t < n'.
Proof.
  induction 1 as [c|s d l c c' occs Hl Hstep _ IH]; intros Hs.
  { split_and!; [intros n' ?; exists n'; split; [done|lia]|apply SSorted_nil|by intros t ?%not_elem_of_nil
      |by intros t n' ?%not_elem_of_nil]. }
  destruct (IH ltac:(by eapply (step_sound (s, d)))) as (Hmono & Hsort & Hlow & Hhigh).
  pose proof (step_pending s d l c id Hstep Hs Hl) as Hpend. simpl in *. rewrite times_app.
  assert (Hmono' : forall n', pending c'.1 id = Some n' -> exists n, pending s id = Some n /\ n <= n').
  { intros n' (n & Hn & Hle)%Hmono. destruct (Hpend n Hn) as (m & Hm & ?). exists m. split; [done|lia]. }
  assert (Hlow' : forall t, t ∈ times id occs -> exists n, pending s id = Some n /\ n <= t).
  { intros t (n & Hn & Hle)%Hlow. destruct (Hpend n Hn) as (m & Hm & ?). exists m. split; [done|lia]. }
  destruct (step_used s d l c id Hstep Hs) as [->|(t & -> & Ht & Hlt)]; [done|].
  split_and!; [done| | |].
  - apply SSorted_cons; [done|]. apply Forall_forall. intros u Hu.
    destruct (Hlow u Hu) as (n & Hn & Hle). specialize (Hlt n Hn). lia.
  - intros u [->|Hu]%elem_of_cons; [exists t; split; [done|lia]|by apply Hlow'].
  - intros u n' [->|Hu]%elem_of_cons Hn'; [|by eapply Hhigh].
    destruct (Hmono n' Hn') as (n & Hn & Hle). specialize (Hlt n Hn). lia.
Qed.

(** ** What the scheduler guarantees *)

(** The states of a scheduler that was built over [d] and started. *)
Definition reachable (d : option D) (c : State D * Driver) : Prop :=
  exists hs s1 occs, start hs (build d) = (s1, Ok tt) /\ run (fun _ => True) (s1, Idle) occs c.

Lemma reachable_sound d c : reachable d c -> sound c.1 /\ exclusive c.1.
Proof. intros (hs & s1 & occs & Hstart & Hrun). apply start_sound in Hstart as (? & ? & _). by eapply run_sound. Qed.

(** C10.  A job never overlaps itself.  However calls, claims, event firings and the ends of runs
    interleave, no two live runs are of the same job, and the slot under a job's id - what
    [cancel] reaches and what a new firing is refused for - is that of its live run, and is there
    exactly while there is one. *)
Theorem one_run_per_job d s dr :
  reachable d (s, dr) ->
  NoDup (map job_of (live s)) /\
  forall id slot, running s !! id = Some slot <-> exists f, f ∈ live s /\ job_of f = id /\ slot = slot_of f.
Proof.
  intros [_ He]%reachable_sound. simpl in He. pose proof He as (Hnd & Hlive & Hrun). split.
  - assert (Hinj : forall f g, f ∈ live s -> g ∈ live s -> job_of f = job_of g -> f = g).
    { intros f g Hf Hg E. destruct (Hlive f Hf) as [_ Hsf], (Hlive g Hg) as [_ Hsg].
      rewrite E, Hsg in Hsf. injection Hsf as E' _. by apply (exclusive_inj s). }
    by apply (NoDup_map_map f_run job_of).
  - intros id slot. split; [apply Hrun|]. intros (f & Hf & <- & ->). by apply Hlive.
Qed.

(**  A claim is durable before it is acted on.  A claim that finds nothing due changes
    nothing; one whose write fails leaves the schedule, the disk and the runs as they were, so
    the occurrence is still due; otherwise schedule and disk have both moved past the
    occurrence, and only then is it skipped, if the job is still running, or handed to a single
    new run. *)
Theorem claim_is_durable_first d s dr id t0 s' r :
  reachable d (s, dr) -> now_ok t0 -> claim id t0 s = (s', r) ->
  match r with
  | Ok Gone => s' = s /\ forall st, schedule s !! id = Some st -> due_at st t0 = None
  | Ok StoreFailed => kept s s'
  | Ok Skipped => moved_on id t0 s s' /\ is_running id s = true /\ runs_same s s'
  | Ok Dispatched =>
      moved_on id t0 s s' /\ is_running id s = false /\
      (runs_same s s' \/
       exists f, live s' = live s ++ [f] /\ running s' = <[id := slot_of f]> (running s) /\
         job_of f = id /\ pending s id = Some (f_scheduled_for f))
  | Err _ => s' = s
  end.
Proof.
  intros [[Hkey _] _]%reachable_sound Ht0 Hc%claim_claimed. simpl in Hkey.
  pose proof (claimed_effect _ _ _ _ _ Hkey Ht0 Hc) as Heff.
  destruct Hc as [Hnone| |st due next s1 e Hst Hdue Hnext Hw|st due next s1 s2 r' Hst Hdue Hnext Hw s3 Hend]; [by split|done..|].
  destruct (advance_ok _ _ _ _ _ _ Hkey Ht0 Hst Hdue Hnext) as (En & _ & _ & Hid & _).
  assert (Hp : pending s id = Some due) by (unfold pending; by rewrite Hst).
  pose proof (write_advance_runs _ _ _ _ _ Hw) as Hruns.
  assert (Hbusy : is_running id s1 = is_running id s) by (unfold is_running; by rewrite (proj1 Hruns)).
  rewrite Hbusy in Hend. destruct (is_running id s) eqn:Erun; destruct Hend as [-> Hend].
  - split_and!; [exact Heff|done|]. etrans; [exact Hruns|]. apply (publish_skipped_runs _ _ _ _ _ _ Hend).
  - split; [exact Heff|split; [done|]].
    apply dispatch_cases in Hend as (_ & t & Hids & [->| ->]).
    + left. etrans; [exact Hruns|]. split_and!; [done..|simpl; simpl in Hids; lia].
    + right. destruct Hruns as (Hr & Hl & _). simpl in Hid. eexists. simpl. rewrite Hr, Hl, Hid. split_and!; [done..|exact Hp].
Qed.

(** A job is still there with its owner, and with its specification unless someone entitled to
    replace it did; or it is gone, claimed for the last time or cancelled by someone entitled. *)
Definition entry_follows (s s' : State D) (l : Label) (id : JobId) (st : JobState) : Prop :=
  (exists st', schedule s' !! id = Some st' /\ owner st' = owner st /\
     (spec st' = spec st \/
      exists cx, l = Call_schedule (spec st') cx /\
        may_act_for (principal_or_system cx) (principal_id (owner st)) = true)) \/
  (schedule s' !! id = None /\
     ((exists t0 r, l = Drive_claim id t0 r) \/
      exists cx, l = Call_cancel id cx /\ may_act_for (principal_or_system cx) (principal_id (owner st)) = true)).

Lemma step_entry_follows s dr l s' dr' id st :
  step (s, dr) l (s', dr') -> sound s -> schedule s !! id = Some st -> entry_follows s s' l id st.
Proof.
  intros Hstep [Hkey _] Hst. pose proof (Hkey id st Hst) as (Hid & _).
  assert (Hsame : schedule s' !! id = schedule s !! id -> entry_follows s s' l id st).
  { intros E. left. exists st. rewrite E. split_and!; [done..|by left]. }
  inversion Hstep as [? ? ? sp cx r Hok Hc|? ? ? k cx r Hc|? ? k t0 r _ Ht0 Hc|? ? k t0 fired _ _ Hc
                     |? ? fired t0 r Hc|? ? f _|]; subst; try by apply Hsame.
  - apply schedule_job_scheduled in Hc; [|done].
    destruct Hc as [s'' e Hk _|s'' st' Hsp _ Hown Hsch _ _ _]; [by apply Hsame; rewrite (proj1 Hk)|].
    destruct (decide (spec_id sp = spec_id (spec st))) as [E|Hne]; [|by apply Hsame; rewrite Hsch, lookup_insert_ne].
    rewrite E, Hst in Hown. destruct Hown as [Hown Hmay]. left. exists st'. rewrite Hsch, E, lookup_insert_eq.
    split_and!; [done..|]. right. exists cx. by rewrite Hsp.
  - apply cancel_cancelled in Hc. destruct Hc as [s'' e Hk _|_ _|s'' [Hmay _] _ Hsch _ _ _];
      [by apply Hsame; rewrite (proj1 Hk)|by apply Hsame|].
    destruct (decide (k = spec_id (spec st))) as [->|Hne]; [|by apply Hsame; rewrite Hsch, lookup_delete_ne].
    right. rewrite Hsch, lookup_delete_eq. split; [done|]. right. exists cx. split; [done|]. by apply Hmay.
  - apply claim_claimed, claimed_effect in Hc; [|done..].
    destruct r as [[]|]; try (by apply Hsame; rewrite (proj1 Hc));
      (destruct Hc as (st' & due & next & Hst' & _ & _ & _ & Hsch & _);
       (destruct (decide (k = spec_id (spec st))) as [->|Hne];
        [|apply Hsame; rewrite Hsch; destruct next; [by rewrite lookup_insert_ne|by rewrite lookup_delete_ne]]);
       rewrite Hst in Hst'; injection Hst' as <-; unfold entry_follows; rewrite Hsch; destruct next;
       [left; eexists; rewrite lookup_insert_eq; split_and!; [done..|by left]
       |right; rewrite lookup_delete_eq; split; [done|left; eauto]]).
  - apply touch_effect in Hc as (st' & Hst' & -> & ->).
    destruct (decide (k = spec_id (spec st))) as [->|Hne]; [|by apply Hsame; simpl; rewrite lookup_insert_ne].
    rewrite Hst in Hst'. injection Hst' as <-. left. eexists. simpl. rewrite lookup_insert_eq.
    split_and!; [done..|by left].
  - apply fire_effect in Hc as (Hsch & _). apply Hsame. by rewrite Hsch.
Qed.

(** A run is told to stop only on behalf of the principal it runs for. *)
Lemma step_tokens s dr l s' dr' run :
  step (s, dr) l (s', dr') -> sound s -> run ∈ cancelled_runs s' -> run ∉ cancelled_runs s ->
  exists id cx slot, l = Call_cancel id cx /\ running s !! id = Some slot /\ slot_run slot = run /\
    may_act_for (principal_or_system cx) (slot_owner slot) = true.
Proof.
  intros Hstep [Hkey _] Hin Hnot.
  assert (Hsame : cancelled_runs s' = cancelled_runs s -> False) by (intros E; rewrite E in Hin; done).
  inversion Hstep as [? ? ? sp cx r Hok Hc|? ? ? k cx r Hc|? ? k t0 r _ Ht0 Hc|? ? k t0 fired _ _ Hc
                     |? ? fired t0 r Hc|? ? f _|]; subst; try by destruct Hsame.
  - apply schedule_job_scheduled in Hc; [|done].
    by destruct Hc as [s'' e (_ & _ & _ & _ & E & _) _|s'' st' _ _ _ _ _ E _]; destruct Hsame.
  - apply cancel_cancelled in Hc.
    destruct Hc as [s'' e (_ & _ & _ & _ & E & _) _|_ _|s'' [_ Hmay] _ _ _ E _]; [by destruct Hsame..|].
    destruct (running s !! k) as [slot|] eqn:Eslot; [|by destruct Hsame].
    rewrite E in Hin. apply elem_of_union in Hin as [->%elem_of_singleton|]; [|done].
    exists k, cx, slot. split_and!; [done..|]. by apply Hmay.
  - apply claim_claimed, claimed_effect in Hc; [|done..].
    destruct r as [[]|]; destruct Hsame; first [by destruct Hc as (_ & _ & _ & _ & E & _)
      |by destruct Hc as (? & ? & ? & _ & _ & _ & _ & _ & _ & E & _)].
  - apply touch_effect in Hc as (st' & _ & -> & ->). by destruct Hsame.
  - apply fire_effect in Hc as (_ & _ & E & _). by destruct Hsame.
Qed.

(**  A job belongs to whoever scheduled it.  Whatever step the system takes, a scheduled job
    keeps its owner, its specification is replaced and it is cancelled only by callers who may
    act for that owner, and a run's token is cancelled only by a caller who may act for the owner
    of the run; [list] shows a caller exactly the jobs it may act for. *)
Theorem jobs_belong_to_their_owner d s dr l s' dr' :
  reachable d (s, dr) -> step (s, dr) l (s', dr') ->
  (forall id st, schedule s !! id = Some st -> entry_follows s s' l id st) /\
  (forall run, run ∈ cancelled_runs s' -> run ∉ cancelled_runs s ->
     exists cx f, l = Call_cancel (job_of f) cx /\ f ∈ live s /\ f_run f = run /\
       may_act_for (principal_or_system cx) (principal_id (f_owner f)) = true) /\
  (forall cx j, j ∈ list_jobs cx s <-> exists id st, schedule s !! id = Some st /\ j = to_scheduled st /\
     may_act_for (principal_or_system cx) (principal_id (owner st)) = true).
Proof.
  intros [Hs (_ & _ & Hrun)]%reachable_sound Hstep. simpl in Hs, Hrun. split_and!.
  - intros id st. by eapply step_entry_follows.
  - intros run Hin Hnot. destruct (step_tokens _ _ _ _ _ run Hstep Hs Hin Hnot) as (id & cx & slot & -> & Hslot & <- & Hmay).
    destruct (Hrun id slot Hslot) as (f & Hf & <- & ->). by exists cx, f.
  - intros cx j. unfold list_jobs. rewrite list_elem_of_fmap. setoid_rewrite list_elem_of_In.
    setoid_rewrite filter_In. unfold values. split.
    + intros (st & -> & [Hin Hmay]). apply list_elem_of_In, list_elem_of_fmap in Hin as ([id st'] & -> & Hin).
      rewrite merge_sort_Permutation in Hin. apply elem_of_map_to_list in Hin. by exists id, st'.
    + intros (id & st & Hst & -> & Hmay). exists st. split_and!; [done| |done].
      apply list_elem_of_In, list_elem_of_fmap. exists (id, st). split; [done|].
      rewrite merge_sort_Permutation. by apply elem_of_map_to_list.
Qed.

End Mirror.
End Scheduler.

(** ** Across a crash *)


(** ** A store to run the scheduler over *)

Record Table := { table : gmap JobId JobState; available : bool }.

Definition whole_millis_b (d : Duration) : bool := (d `mod` 1000000 =? 0) && (0 <=? d) && (as_millis d <=? u64_max).

Definition durations_ok_b (sp : JobSpec) : bool :=
  match timeout sp with Some d => whole_millis_b d | None => true end &&
  match trigger sp with After d | Every d => whole_millis_b d | _ => true end &&
  whole_millis_b (backoff (retry sp)) && whole_millis_b (max_backoff (retry sp)).

Definition storable_b (st : JobState) : bool :=
  persistent (spec st) &&
  match next_run_at st with Some n => 0 <=? n | None => true end &&
  durations_ok_b (spec st).

Lemma whole_millis_b_spec d : whole_millis_b d = true <-> whole_millis d.
Proof.
  unfold whole_millis_b, whole_millis, as_millis, from_millis. rewrite !andb_true_iff, Z.eqb_eq, !Z.leb_le. split.
  - intros [[Hm H0] Hle]. exists (d `div` 1000000). pose proof (Z.div_mod d 1000000 ltac:(lia)).
    pose proof (Z.div_pos d 1000000 H0 ltac:(lia)). split; [int_lia|lia].
  - intros (ms & Hms & ->). rewrite Z.mod_mul, Z.div_mul by lia. int_lia.
Qed.

Lemma durations_ok_b_spec sp : durations_ok_b sp = true <-> durations_ok sp.
Proof.
  unfold durations_ok_b, durations_ok. rewrite !andb_true_iff, !whole_millis_b_spec.
  destruct (timeout sp) as [d|], (trigger sp); rewrite ?whole_millis_b_spec; naive_solver.
Qed.

Lemma storable_b_spec st : storable_b st = true <-> storable st.
Proof.
  unfold storable_b, storable. rewrite !andb_true_iff, durations_ok_b_spec.
  destruct (next_run_at st) as [n|]; rewrite ?Z.leb_le; naive_solver.
Qed.

Definition good_row (p : JobId * JobState) : Prop := storable_b (snd p) = true /\ spec_id (spec (snd p)) = fst p.
#[local] Instance good_row_dec p : base.Decision (good_row p).
Proof. unfold good_row. apply _. Defined.

Definition good_rows (d : Table) : gmap JobId JobState := filter good_row (table d).

#[local] Instance table_store : JobStore Table := {
  load d := (d, if available d then Ok (map snd (map_to_list (good_rows d))) else Err (Error_other "unavailable"));
  put st d := if available d then ({| table := <[spec_id (spec st) := st]> (table d); available := true |}, Ok tt)
              else (d, Err (Error_other "unavailable"));
  remove id d := if available d then ({| table := delete id (table d); available := true |}, Ok tt)
                 else (d, Err (Error_other "unavailable"));
}.

Lemma good_rows_lookup d id st : good_rows d !! id = Some st <-> table d !! id = Some st /\ good_row (id, st).
Proof. apply map_lookup_filter_Some. Qed.

#[local] Instance table_store_laws : JobStoreLaws Table.
Proof.
  refine {| durable := good_rows |}; simpl.
  - intros d d' l Hl. destruct (available d); [|done]. injection Hl as <- <-. split; [done|].
    assert (Hid : forall p, p ∈ map_to_list (good_rows d) -> spec_id (spec (snd p)) = fst p).
    { intros [id st] Hp%elem_of_map_to_list%good_rows_lookup. apply Hp. }
    split.
    + rewrite map_map. eapply (NoDup_map_map fst); [apply NoDup_fst_map_to_list|].
      intros [a x] [b y] Hx Hy. pose proof (Hid _ Hx) as Ex. pose proof (Hid _ Hy) as Ey. simpl in *.
      rewrite Ex, Ey. intros <-.
      apply elem_of_map_to_list in Hx, Hy. congruence.
    + intros st. rewrite list_elem_of_fmap. split.
      * intros ([id st'] & -> & Hp). pose proof (Hid _ Hp) as E. simpl in *. rewrite E.
        by apply elem_of_map_to_list in Hp.
      * intros Hst. exists (spec_id (spec st), st). split; [done|]. by apply elem_of_map_to_list.
  - intros d id st [_ [Hst Hid]]%good_rows_lookup. by apply storable_b_spec in Hst.
  - intros st d d' Hst. destruct (available d); [|done]. intros [= <-]. unfold good_rows. simpl.
    apply map_filter_insert_True. split; [by apply storable_b_spec|done].
  - intros st d d' e. destruct (available d); [done|]. by intros [= <- _].
  - intros id d d'. destruct (available d); [|done]. intros [= <-]. unfold good_rows. simpl. apply map_filter_delete.
  - intros id d d' e. destruct (available d); [done|]. by intros [= <- _].
Defined.

Lemma run_impl {C : Calendar} {D : Type} {J : JobStore D} debug clock (P Q : Label -> Prop)
    (c c' : State D * Driver) occs :
  (forall l, P l -> Q l) -> run debug clock P c occs c' -> run debug clock Q c occs c'.
Proof. intros HPQ. induction 1; [constructor|]. econstructor; eauto. Qed.

(** ** Examples: a persistent job of Alice's, overdue when the scheduler starts *)

Module Demo.
#[local] Existing Instance banker_calendar.
#[local] Existing Instance banker_laws.

Definition clock (n : nat) : Timestamp := 1000 + (10 * Z.of_nat n) `mod` 100.
Definition debug (d : Duration) : string := "".
Definition catch_up : Duration := from_millis 3600000.
Definition alice : Principal := Principal_new "alice" User.
Definition as_alice : ExecutionContext :=
  {| correlation := ""; principal := Some alice; deadline := None; cancellation := false; attributes := [] |}.

Definition tick : JobSpec :=
  {| spec_id := "tick"; trigger := Every (from_millis 10); handler := "h"; payload := VNull;
     persistent := true; retry := {| attempts := 0; backoff := 0; max_backoff := 0 |}; timeout := None |}.

Definition rows : Table :=
  {| table := {["tick" := {| spec := tick; owner := alice; next_run_at := Some 903; last_run := None |}]};
     available := true |}.

Definition handlers : gset ComponentId := {["h"]}.
Definition started : State Table := fst (start clock catch_up handlers (build (Some rows))).
Definition fired : State Table := fst (claim clock "tick" 1010 started).
Definition restarted : State Table := fst (start clock catch_up handlers (build (store fired))).
Definition refired : State Table := fst (claim clock "tick" 1020 restarted).

Lemma clock_ok n : now_ok (clock n).
Proof. unfold now_ok, clock. pose proof (Z.mod_pos_bound (10 * Z.of_nat n) 100 ltac:(lia)). split; int_lia. Qed.

Lemma started_ok : start clock catch_up handlers (build (Some rows)) = (started, Ok tt).
Proof. apply pair_snd. vm_compute. reflexivity. Qed.

Lemma restarted_ok : start clock catch_up handlers (build (store fired)) = (restarted, Ok tt).
Proof. apply pair_snd. vm_compute. reflexivity. Qed.

Lemma fired_run : run debug clock (not_rescheduled "tick") (started, Idle) [("tick", 903)] (fired, Idle).
Proof.
  refine (run_cons _ _ _ _ _ (Drive_claim "tick" 1010 (Ok Dispatched)) _ _ [] I _ (run_nil _ _ _ _)).
  apply Step_claim; [vm_compute; reflexivity|split; int_lia|].
  apply pair_snd. vm_compute. reflexivity.
Qed.

Lemma refired_run : run debug clock (not_rescheduled "tick") (restarted, Idle) [("tick", 1013)] (refired, Idle).
Proof.
  refine (run_cons _ _ _ _ _ (Drive_claim "tick" 1020 (Ok Dispatched)) _ _ [] I _ (run_nil _ _ _ _)).
  apply Step_claim; [vm_compute; reflexivity|split; int_lia|].
  apply pair_snd. vm_compute. reflexivity.
Qed.

Lemma fired_reachable : reachable debug clock catch_up (Some rows) (fired, Idle).
Proof.
  exists handlers, started, [("tick", 903)]. split; [apply started_ok|]. eapply run_impl; [|apply fired_run]. done.
Qed.
End Demo.

Lemma one_run_per_job_witness :
  map job_of (live Demo.fired) = ["tick"] /\
  forall slot, running Demo.fired !! "tick" = Some slot <->
    exists f, f ∈ live Demo.fired /\ job_of f = "tick" /\ slot = slot_of f.
Proof.
  split; [vm_compute; reflexivity|].
  exact (proj2 (one_run_per_job (L := banker_laws) _ _ _ Demo.clock_ok _ _ _ Demo.fired_reachable) "tick").
Defined.

Lemma claim_is_durable_first_witness :
  exists s', claim (C := banker_calendar) Demo.clock "tick" 1030 Demo.fired = (s', Ok Skipped) /\
    moved_on "tick" 1030 Demo.fired s' /\ is_running "tick" Demo.fired = true /\ runs_same Demo.fired s'.
Proof.
  exists (fst (claim (C := banker_calendar) Demo.clock "tick" 1030 Demo.fired)).
  assert (E : claim (C := banker_calendar) Demo.clock "tick" 1030 Demo.fired =
              (fst (claim (C := banker_calendar) Demo.clock "tick" 1030 Demo.fired), Ok Skipped)).
  { apply pair_snd. vm_compute. reflexivity. }
  assert (Ht : now_ok 1030) by (split; int_lia).
  split; [exact E|].
  exact (claim_is_durable_first (L := banker_laws) _ _ _ Demo.clock_ok _ _ _ _ _ _ _ Demo.fired_reachable
           Ht E).
Defined.

Lemma jobs_belong_to_their_owner_witness :
  exists s' st, schedule Demo.fired !! "tick" = Some st /\ owner st = Demo.alice /\
    entry_follows Demo.fired s' (Call_cancel "tick" Demo.as_alice) "tick" st /\
    (0%nat ∈ cancelled_runs s') /\ (0%nat ∉ cancelled_runs Demo.fired).
Proof.
  pose (out := cancel "tick" Demo.as_alice Demo.fired).
  assert (Hstep : step (C := banker_calendar) Demo.debug Demo.clock (Demo.fired, Idle)
                    (Call_cancel "tick" Demo.as_alice) (fst out, Idle)).
  { eapply Step_cancel. apply surjective_pairing. }
  destruct (schedule Demo.fired !! "tick") as [st|] eqn:Est; [|vm_compute in Est; discriminate Est].
  exists (fst out), st. split_and!; [done|vm_compute in Est; injection Est as <-; reflexivity| |..].
  - exact (proj1 (jobs_belong_to_their_owner (L := banker_laws) _ _ _ Demo.clock_ok _ _ _ _ _ _
                    Demo.fired_reachable Hstep) "tick" st Est).
  - apply (bool_decide_unpack (0%nat ∈ cancelled_runs (fst out))). vm_compute. exact I.
  - apply (bool_decide_unpack (0%nat ∉ cancelled_runs Demo.fired)). vm_compute. exact I.
Defined.



(** ** What the examples show *)

Module Cases.
#[local] Existing Instance banker_calendar.

Definition with_trigger (id : JobId) (t : Trigger) (per : bool) : JobSpec :=
  {| spec_id := id; trigger := t; handler := "h"; payload := VNull; persistent := per;
     retry := {| attempts := 0; backoff := 0; max_backoff := 0 |}; timeout := None |}.
Definition as_bob : ExecutionContext :=
  {| correlation := ""; principal := Some (Principal_new "bob" User); deadline := None;
     cancellation := false; attributes := [] |}.
Definition schedule_as (cx : ExecutionContext) (sp : JobSpec) (s : State Table) : State Table :=
  fst (schedule_job Demo.debug Demo.clock sp cx s).
Definition start_over (d : option Table) : State Table := fst (start Demo.clock Demo.catch_up Demo.handlers (build d)).

(** A job that was replaced by a periodic one after the driver listed it for an event is run by
    the event, although a periodic job waits a full interval first. *)
Example event_fires_replaced_job :
  let s1 := schedule_as Demo.as_alice (with_trigger "j" (OnEvent "e") false) (start_over None) in
  let s2 := schedule_as Demo.as_alice (with_trigger "j" (Every (from_millis 60000)) false) s1 in
  waiting_for "e" s1 = ["j"] /\
  map (fun f => trigger (f_spec f))
    (live (fst ((let! fired := touch "j" 1000 in
                 match fired with Some fired => fire Demo.clock fired 1000 | None => ret tt end) s2)))
  = [Every (from_millis 60000)].
Proof. split; vm_compute; reflexivity. Qed.

(** A volatile job scheduled before [start] under the id of a row on disk is accepted whoever
    owns the row, and leaves it there: when the caller has cancelled it, the next process
    brings the replaced job back. *)
Example early_volatile_job_leaves_row :
  let s1 := schedule_as as_bob (with_trigger "tick" (Every (from_millis 60000)) false) (build (Some Demo.rows)) in
  let s2 := fst (start Demo.clock Demo.catch_up Demo.handlers s1) in
  let s3 := fst (cancel "tick" as_bob s2) in
  option_map owner (schedule s2 !! "tick") = Some (Principal_new "bob" User) /\
  schedule s3 !! "tick" = None /\
  option_map owner (schedule (start_over (store s3)) !! "tick") = Some Demo.alice.
Proof. split_and!; vm_compute; reflexivity. Qed.
End Cases.
