(* ===== verification/Runner.v ===== *)
(** * Runner: one firing, attempt by attempt

    [crates/scheduler/src/runner.rs] and [RetryPolicy] of [crates/api/src/scheduler.rs].  A
    firing is a loop of attempts with backoff between them, ended by success, by exhaustion or
    by cancellation.  The handler, the timers and the tokens are the class [Outside]; [log]
    records, in order, what was published, what the handler was given and answered, and the
    waits. *)

From S2P Require Import Prelude Base Cron Jobs Scheduler.

(** ** Retries *)

(** The greatest [Duration]: [u64::MAX] seconds and 999999999 nanoseconds. *)
Definition duration_max : Duration := u64_max * 1000000000 + 999999999.

(** [1u32.checked_shl(n).unwrap_or(u32::MAX)] *)
Definition shift_or_max (n : Z) : Z := if n <? 32 then Z.shiftl 1 n else u32_max.

Definition delay_before (self : RetryPolicy) (attempt : Z) : option Duration :=
  if (attempt =? 0) || (attempts self <? attempt) then None
  else
    let product := backoff self * shift_or_max (attempt - 1) in
    let doubled := if product <=? duration_max then product else max_backoff self in
    Some (Z.min doubled (max_backoff self)).

(** ** The world of a firing *)

Class Outside (W : Type) := {
  clock_now : W -> W * Timestamp;
  instant_now : W -> W * Z;
  token_cancelled : RunId -> W -> bool;
  handler_run : ComponentId -> JobSpec -> ExecutionContext -> W -> W * Result unit;
  (** [tokio::time::timeout]: no answer when the time ran out first. *)
  handler_run_within : Duration -> ComponentId -> JobSpec -> ExecutionContext -> W -> W * option (Result unit);
  cancel_attempt : ExecutionContext -> W -> W;
  (** The [select!] between the run's token and a sleep: whether the token won. *)
  cancelled_while_sleeping : RunId -> Duration -> W -> W * bool;
}.

Inductive Entry :=
  | Published (event : Event)
  | Ran (cx : ExecutionContext) (outcome : Result unit)
  | Slept (delay : Duration) (cancelled : bool).

(** How an operation stops without an answer; [NoFuel] is not an outcome of the code. *)
Inductive Stuck := Overflow | NoFuel.

Section Runner.
  Context {W : Type} `{Outside W}.
  (** The textual forms of generated identifiers. *)
  Context (show_id : nat -> string).

Record RunState := { world : W; log : list Entry }.

Abbreviation M := (action RunState Stuck).

Definition record (e : Entry) : M unit := modify (fun s => {| world := world s; log := log s ++ [e] |}).

Definition on_world {A} (f : W -> W * A) : M A := fun s =>
  let (w, a) := f (world s) in ({| world := w; log := log s |}, Ok a).

(** [Publisher::job_event] *)
Definition firing_event (firing : Firing) (correlation : nat) : M JobEvent :=
  let! timestamp := on_world clock_now in
  ret {| je_job := spec_id (f_spec firing); je_run := f_run firing; je_handler := handler (f_spec firing);
         je_correlation := correlation; je_timestamp := timestamp;
         je_owner := principal_id (f_owner firing); je_owner_kind := principal_kind (f_owner firing) |}.

Definition publish_cancelled (firing : Firing) (correlation : nat) (attempt : Z) : M unit :=
  let! event := firing_event firing correlation in
  record (Published (JobCancelled event attempt)).

(** [runner::context] *)
Definition context (firing : Firing) (correlation : nat) (now : Timestamp) (cancelled : bool) : ExecutionContext :=
  {| correlation := show_id correlation;
     principal := Some (run_principal (principal_id (f_owner firing)));
     deadline := option_map (Timestamp_saturating_add now) (timeout (f_spec firing));
     cancellation := cancelled;
     attributes := Map_insert "run" (VString (show_id (f_run firing)))
                     (Map_insert "job" (VString (spec_id (f_spec firing))) []) |}.

Definition attempt_once (spec : JobSpec) (cx : ExecutionContext) : M (Result unit) :=
  match timeout spec with
  | None => on_world (handler_run (handler spec) spec cx)
  | Some timeout =>
      let! outcome := on_world (handler_run_within timeout (handler spec) spec cx) in
      match outcome with
      | Some result => ret result
      | None =>
          on_world (fun w => (cancel_attempt cx w, tt)) ;!
          ret (Err (Base.Timeout timeout))
      end
  end.

(** [u64::try_from(started.elapsed().as_millis()).unwrap_or(u64::MAX)], in nanoseconds. *)
Definition elapsed_ms (started finished : Z) : Z := u64_of_duration (finished - started).

(** The loop of [execute]. *)
Fixpoint attempt_loop (fuel : nat) (firing : Firing) (correlation : nat) (attempt : Z) : M unit :=
  match fuel with
  | O => throw NoFuel
  | S fuel =>
      let! cancelled := gets (fun s => token_cancelled (f_run firing) (world s)) in
      if cancelled : bool then publish_cancelled firing correlation attempt
      else
        let! now := on_world clock_now in
        let! child := gets (fun s => token_cancelled (f_run firing) (world s)) in
        let cx := context firing correlation now child in
        let! event := firing_event firing correlation in
        record (Published (JobStarted event attempt (f_scheduled_for firing))) ;!
        let! started := on_world instant_now in
        let! outcome := attempt_once (f_spec firing) cx in
        record (Ran cx outcome) ;!
        let! finished := on_world instant_now in
        let duration_ms := elapsed_ms started finished in
        match outcome with
        | Ok _ =>
            let! event := firing_event firing correlation in
            record (Published (JobCompleted event attempt duration_ms))
        | Err error =>
            let! cancelled := gets (fun s => token_cancelled (f_run firing) (world s)) in
            if cancelled : bool then publish_cancelled firing correlation attempt
            else if u32_max <? attempt + 1 then throw Overflow
            else
              let delay := delay_before (retry (f_spec firing)) (attempt + 1) in
              let! event := firing_event firing correlation in
              record (Published (JobFailed event attempt duration_ms error (bool_decide (is_Some delay)))) ;!
              match delay with
              | None => ret tt
              | Some delay =>
                  let! cancelled := on_world (cancelled_while_sleeping (f_run firing) delay) in
                  record (Slept delay cancelled) ;!
                  if cancelled : bool then publish_cancelled firing correlation attempt
                  else attempt_loop fuel firing correlation (attempt + 1)
              end
        end
  end.

(** [runner::execute]: one turn per attempt the policy allows is enough. *)
Definition execute (firing : Firing) (correlation : nat) : M unit :=
  attempt_loop (S (Z.to_nat (attempts (retry (f_spec firing))))) firing correlation 0.

(** ** What a firing may look like from outside *)

Definition of_firing (firing : Firing) (correlation : nat) (e : JobEvent) : Prop :=
  je_job e = spec_id (f_spec firing) /\ je_run e = f_run firing /\ je_handler e = handler (f_spec firing) /\
  je_correlation e = correlation /\ je_owner e = principal_id (f_owner firing) /\
  je_owner_kind e = principal_kind (f_owner firing).

(** The handler acts as the scheduler on behalf of the job's owner. *)
Definition for_owner (firing : Firing) (cx : ExecutionContext) : Prop :=
  principal cx = Some {| principal_id := RUN_PRINCIPAL; principal_kind := System;
                         on_behalf_of := Some (principal_id (f_owner firing)) |}.

(** The wait after attempt [a] failed: doubling from the base, up to the ceiling. *)
Definition backoff_after_attempt (p : RetryPolicy) (a : Z) : Duration :=
  Z.min (backoff p * Z.min (2 ^ a) u32_max) (max_backoff p).

(** The logs a firing can leave from attempt [a] on. *)
Inductive protocol (firing : Firing) (correlation : nat) : Z -> list Entry -> Prop :=
  | stopped_before a e :
      of_firing firing correlation e -> protocol firing correlation a [Published (JobCancelled e a)]
  | succeeded a e1 cx e2 ms :
      of_firing firing correlation e1 -> for_owner firing cx -> of_firing firing correlation e2 ->
      protocol firing correlation a
        [Published (JobStarted e1 a (f_scheduled_for firing)); Ran cx (Ok tt); Published (JobCompleted e2 a ms)]
  | stopped_during a e1 cx error e2 :
      of_firing firing correlation e1 -> for_owner firing cx -> of_firing firing correlation e2 ->
      protocol firing correlation a
        [Published (JobStarted e1 a (f_scheduled_for firing)); Ran cx (Err error); Published (JobCancelled e2 a)]
  | gave_up a e1 cx error e2 ms :
      of_firing firing correlation e1 -> for_owner firing cx -> of_firing firing correlation e2 ->
      a = attempts (retry (f_spec firing)) ->
      protocol firing correlation a
        [Published (JobStarted e1 a (f_scheduled_for firing)); Ran cx (Err error);
         Published (JobFailed e2 a ms error false)]
  | stopped_waiting a e1 cx error e2 ms e3 :
      of_firing firing correlation e1 -> for_owner firing cx -> of_firing firing correlation e2 ->
      of_firing firing correlation e3 -> a < attempts (retry (f_spec firing)) ->
      protocol firing correlation a
        [Published (JobStarted e1 a (f_scheduled_for firing)); Ran cx (Err error);
         Published (JobFailed e2 a ms error true);
         Slept (backoff_after_attempt (retry (f_spec firing)) a) true; Published (JobCancelled e3 a)]
  | retried a e1 cx error e2 ms rest :
      of_firing firing correlation e1 -> for_owner firing cx -> of_firing firing correlation e2 ->
      a < attempts (retry (f_spec firing)) -> protocol firing correlation (a + 1) rest ->
      protocol firing correlation a
        ([Published (JobStarted e1 a (f_scheduled_for firing)); Ran cx (Err error);
          Published (JobFailed e2 a ms error true);
          Slept (backoff_after_attempt (retry (f_spec firing)) a) false] ++ rest).

(** ** The pieces *)

Lemma shift_or_max_spec n : 0 <= n -> shift_or_max n = Z.min (2 ^ n) u32_max.
Proof.
  intros Hn. unfold shift_or_max. destruct (Z.ltb_spec n 32) as [Hlt|Hge].
  - rewrite Z.shiftl_1_l. pose proof (Z.pow_le_mono_r 2 n 31 ltac:(lia) ltac:(lia)). int_lia.
  - pose proof (Z.pow_le_mono_r 2 32 n ltac:(lia) ltac:(lia)). int_lia.
Qed.

(** A policy's durations are durations. *)
Definition policy_ok (p : RetryPolicy) : Prop :=
  0 <= attempts p < u32_max /\ 0 <= backoff p <= duration_max /\ 0 <= max_backoff p <= duration_max.

Lemma delay_before_spec p a :
  policy_ok p -> 0 <= a ->
  delay_before p (a + 1) = if a <? attempts p then Some (backoff_after_attempt p a) else None.
Proof.
  intros (_ & _ & Hmax) Ha. unfold delay_before. rewrite (proj2 (Z.eqb_neq _ _)) by lia. simpl.
  destruct (Z.ltb_spec (attempts p) (a + 1)), (Z.ltb_spec a (attempts p)); try lia; [done|].
  rewrite shift_or_max_spec by lia. replace (a + 1 - 1) with a by lia. unfold backoff_after_attempt. f_equal.
  destruct (Z.leb_spec (backoff p * Z.min (2 ^ a) u32_max) duration_max); lia.
Qed.

Lemma firing_event_run f c s s' r :
  firing_event f c s = (s', r) -> log s' = log s /\ exists e, r = Ok e /\ of_firing f c e.
Proof.
  intros Hc. unfold firing_event in Hc. peel Hc E; unfold on_world in E;
    destruct (clock_now (world s)) as [w t]; [|done]. injection E as <- <-. injection Hc as <- <-.
  split; [done|]. eexists. by split_and!.
Qed.

Lemma publish_cancelled_run f c a s s' r :
  publish_cancelled f c a s = (s', r) ->
  r = Ok tt /\ exists e, of_firing f c e /\ log s' = log s ++ [Published (JobCancelled e a)].
Proof.
  intros Hc. unfold publish_cancelled in Hc. peel Hc E; apply firing_event_run in E as (Hl & e1 & He & Hf); [|done].
  injection He as ->. injection Hc as <- <-. split; [done|]. exists e1. simpl. by rewrite Hl.
Qed.

Lemma on_world_run {A} (g : W -> W * A) s s' r : on_world g s = (s', r) -> log s' = log s /\ exists a, r = Ok a.
Proof. unfold on_world. destruct (g (world s)) as [w a]. intros [= <- <-]. split; [done|by exists a]. Qed.

Lemma attempt_once_run sp cx s s' r : attempt_once sp cx s = (s', r) -> log s' = log s /\ exists o, r = Ok o.
Proof.
  unfold attempt_once. destruct (timeout sp) as [t|]; [|apply on_world_run]. intros Hc.
  peel Hc E; apply on_world_run in E as (Hl & o & Ho); [|done]. injection Ho as ->.
  destruct o as [res|]; [injection Hc as <- <-; split; [done|by exists res]|].
  peel Hc E; apply on_world_run in E as (Hl' & o & Ho); [|done]. injection Hc as <- <-.
  split; [congruence|by eexists].
Qed.

(** What an attempt does up to the handler's answer. *)
Definition started_attempt (f : Firing) (c : nat) (a : Z) (s s' : RunState) (o : Result unit) : Prop :=
  exists e cx, of_firing f c e /\ for_owner f cx /\
    log s' = log s ++ [Published (JobStarted e a (f_scheduled_for f)); Ran cx o].

(** The failure branch, once the run has not been cancelled. *)
Definition after_error (f : Firing) (c : nat) (a ms : Z) (error : Error) (again : M unit) : M unit :=
  let delay := delay_before (retry (f_spec f)) (a + 1) in
  let! event := firing_event f c in
  record (Published (JobFailed event a ms error (bool_decide (is_Some delay)))) ;!
  match delay with
  | None => ret tt
  | Some delay =>
      let! cancelled := on_world (cancelled_while_sleeping (f_run f) delay) in
      record (Slept delay cancelled) ;!
      if cancelled : bool then publish_cancelled f c a else again
  end.

Lemma after_error_run f c a ms error again s0 s s' r :
  policy_ok (retry (f_spec f)) -> 0 <= a <= attempts (retry (f_spec f)) ->
  started_attempt f c a s0 s (Err error) ->
  (forall s2, again s2 = (s', r) -> a < attempts (retry (f_spec f)) ->
     r = Ok tt /\ exists l, log s' = log s2 ++ l /\ protocol f c (a + 1) l) ->
  after_error f c a ms error again s = (s', r) ->
  r = Ok tt /\ exists l, log s' = log s0 ++ l /\ protocol f c a l.
Proof.
  intros Hp Ha (e & cx & He & Hcx & Hlog) Hagain. unfold after_error, record. rewrite delay_before_spec by (done || lia).
  intros Hc. peel Hc E; apply firing_event_run in E as (Hl1 & e1 & Hr & He1); [injection Hr as ->|done].
  peel_pure Hc. destruct (Z.ltb_spec a (attempts (retry (f_spec f)))) as [Hlt|Hge]; simpl in Hc.
  2: { injection Hc as <- <-. split; [done|]. eexists. simpl. rewrite Hl1, Hlog, <- app_assoc. split; [done|].
       apply gave_up; [done..|lia]. }
  peel Hc E; apply on_world_run in E as (Hl2 & won & Hr); [injection Hr as ->|done]. simpl in Hl2.
  peel_pure Hc. destruct won.
  - apply publish_cancelled_run in Hc as (-> & e3 & He3 & Hl3). split; [done|]. eexists.
    rewrite Hl3. simpl. rewrite Hl2, Hl1, Hlog, <- !app_assoc. split; [done|]. by apply stopped_waiting.
  - apply Hagain in Hc as (-> & rest & Hl3 & Hrest); [|done]. split; [done|]. eexists.
    rewrite Hl3. simpl. rewrite Hl2, Hl1, Hlog, <- !app_assoc. split; [done|]. by apply retried.
Qed.

Lemma attempt_loop_run fuel f c a s s' r :
  policy_ok (retry (f_spec f)) -> 0 <= a <= attempts (retry (f_spec f)) ->
  attempts (retry (f_spec f)) - a < Z.of_nat fuel -> attempt_loop fuel f c a s = (s', r) ->
  r = Ok tt /\ exists l, log s' = log s ++ l /\ protocol f c a l.
Proof.
  revert a s s' r. induction fuel as [|fuel IH]; intros a s s' r Hp Ha Hfuel Hc; [lia|]. cbn [attempt_loop] in Hc. unfold record in Hc.
  peel_pure Hc. destruct (token_cancelled _ _).
  { apply publish_cancelled_run in Hc as (-> & e & He & Hl). split; [done|]. eexists. split; [exact Hl|].
    by apply stopped_before. }
  peel Hc E; apply on_world_run in E as (Hl1 & t0 & Hr); [injection Hr as ->|done].
  peel_pure Hc. set (cx := context _ _ _ _) in Hc.
  assert (for_owner f cx) as Hfor by done. clearbody cx.
  peel Hc E; apply firing_event_run in E as (Hl2 & e1 & Hr & He1); [injection Hr as ->|done].
  peel_pure Hc.
  peel Hc E; apply on_world_run in E as (Hl3 & t1 & Hr); [injection Hr as ->|done].
  peel Hc E; apply attempt_once_run in E as (Hl4 & o & Hr); [injection Hr as ->|done].
  peel_pure Hc.
  peel Hc E; apply on_world_run in E as (Hl5 & t2 & Hr); [injection Hr as ->|done].
  lazymatch type of Hc with _ ?s1 = _ => assert (started_attempt f c a s s1 o) as Hstart end.
  { exists e1, cx. split_and!; [done..|]. rewrite Hl5. simpl. rewrite Hl4, Hl3. simpl.
    by rewrite Hl2, Hl1, <- app_assoc. }
  destruct o as [[]|error].
  - peel Hc E; apply firing_event_run in E as (Hl6 & e2 & Hr & He2); [injection Hr as ->|done].
    injection Hc as <- <-. split; [done|]. destruct Hstart as (e & cx' & He & Hcx & Hlog).
    eexists. simpl. rewrite Hl6, Hlog, <- app_assoc. split; [done|]. by apply succeeded.
  - peel_pure Hc. destruct (token_cancelled _ _).
    + apply publish_cancelled_run in Hc as (-> & e2 & He2 & Hl6). split; [done|].
      destruct Hstart as (e & cx' & He & Hcx & Hlog). eexists. rewrite Hl6, Hlog, <- app_assoc.
      split; [done|]. by apply stopped_during.
    + destruct (Z.ltb_spec u32_max (a + 1)); [destruct Hp; lia|].
      eapply (after_error_run f c a _ error (attempt_loop fuel f c (a + 1))); [done|done|exact Hstart| |exact Hc].
      intros sn Hsn Hlt. apply IH in Hsn; [done|done|lia|lia].
Qed.

(** How often a log says the handler ran. *)
Definition ran_count (l : list Entry) : Z :=
  Z.of_nat (length (List.filter (fun e => match e with Ran _ _ => true | _ => false end) l)).

(** The handler runs at most once more than the policy retries. *)
Lemma protocol_bounded f c a l :
  protocol f c a l -> a <= attempts (retry (f_spec f)) -> ran_count l <= attempts (retry (f_spec f)) - a + 1.
Proof.
  induction 1; intros Ha; unfold ran_count in *; simpl in *; lia.
Qed.

(**  A firing always ends, and is reported faithfully.  Whatever the handler answers and
    whenever the run is cancelled, [execute] finishes without overflow, having left a log of the
    protocol: attempts numbered from zero, each announced before the handler runs, on behalf of
    the job's owner; success reported once and final; a failure reported as retried exactly when
    the policy allows another attempt, which then waits the policy's backoff; and one final
    event - completed, failed for good, or cancelled - with no attempt after it.  The handler runs
    at most once more than the policy retries. *)
Theorem execute_follows_protocol firing correlation s s' r :
  policy_ok (retry (f_spec firing)) -> execute firing correlation s = (s', r) ->
  r = Ok tt /\ exists l, log s' = log s ++ l /\ protocol firing correlation 0 l /\
    ran_count l <= attempts (retry (f_spec firing)) + 1.
Proof.
  intros Hp Hc. pose proof (proj1 Hp) as Ha. apply attempt_loop_run in Hc as (-> & l & Hl & Hprot); [|done|lia|lia].
  split; [done|]. exists l. split_and!; [done..|]. apply protocol_bounded in Hprot; lia.
Qed.
End Runner.

(** ** A handler that fails twice and then succeeds *)

Record Toy := { ticks : Z; failures : nat }.

Definition tick_toy (w : Toy) : Toy := {| ticks := ticks w + 1; failures := failures w |}.

#[local] Instance toy_outside : Outside Toy := {
  clock_now w := (tick_toy w, ticks w);
  instant_now w := (tick_toy w, ticks w * 1000000);
  token_cancelled _ _ := false;
  handler_run _ _ _ w :=
    match failures w with
    | O => (w, Ok tt)
    | S n => ({| ticks := ticks w; failures := n |}, Err (Error_other "failed"))
    end;
  handler_run_within _ _ _ _ w := (w, None);
  cancel_attempt _ w := w;
  cancelled_while_sleeping _ _ w := (w, false);
}.

Definition toy_firing : Firing :=
  {| f_spec := {| spec_id := "j"; trigger := At 0; handler := "h"; payload := VNull; persistent := false;
                  retry := {| attempts := 2; backoff := from_millis 10; max_backoff := from_millis 15 |};
                  timeout := None |};
     f_owner := Principal_new "alice" User; f_run := 0; f_scheduled_for := 5 |}.

Lemma execute_follows_protocol_witness :
  exists s', execute (fun _ => "") toy_firing 1 {| world := {| ticks := 0; failures := 2 |}; log := [] |} = (s', Ok tt) /\
    protocol toy_firing 1 0 (log s') /\ ran_count (log s') = 3.
Proof.
  destruct (execute (fun _ => "") toy_firing 1 {| world := {| ticks := 0; failures := 2 |}; log := [] |})
    as [s' r] eqn:E.
  assert (Hp : policy_ok (retry (f_spec toy_firing))) by (repeat split; vm_compute; first [reflexivity|discriminate]).
  destruct (execute_follows_protocol _ _ _ _ _ _ Hp E) as (-> & l & Hl & Hprot & _). simpl in Hl. subst l.
  exists s'. split_and!; [done|exact Hprot|]. vm_compute in E. injection E as <-. vm_compute. reflexivity.
Defined.
