(* ===== verification/Store.v ===== *)
(** * Store: transactions over an embedded database

    [crates/store/src/error.rs] and [schema.rs], and the discipline every table of the system
    is written under.  [redb] is a library: what is used of it is that a write transaction's
    changes are seen together, once it commits, or not at all, and that any call may fail.
    Which calls fail is a script, [disk]; a database whose disk never fails is [healthy]. *)

From S2P Require Import Prelude Base.

(** ** Errors *)

(** [redb::Error], with the variants [store_error] names. *)
Inductive RedbError :=
  | DatabaseAlreadyOpen
  | UpgradeRequired (version : Z)
  | TableTypeMismatch (table : string)
  | TableIsMultimap (table : string)
  | TableIsNotMultimap (table : string)
  | TypeDefinitionChanged (name : string)
  | TableDoesNotExist (table : string)
  | TableExists (table : string)
  | TableAlreadyOpen (table : string)
  | ValueTooLarge (bytes : Z)
  | Corrupted (detail : string)
  | OtherRedb (source : BoxError).

Definition SETTING : string := "components.store.db.path".

Definition shape_error (table : string) : Error :=
  Config SETTING ("table `" +:+ table +:+ "` does not have the shape this build expects, so the database "
                  +:+ "was written by an incompatible binary").

Definition store_error (context : string) (error : RedbError) : Error :=
  match error with
  | DatabaseAlreadyOpen => AlreadyExists "exclusive claim on the database file" context
  | UpgradeRequired version =>
      Config SETTING ("the database is in redb file format v" +:+ fmt_u version +:+ " and must be upgraded manually "
                      +:+ "before this build can open it")
  | TableTypeMismatch table | TableIsMultimap table | TableIsNotMultimap table => shape_error table
  | TypeDefinitionChanged name =>
      Config SETTING ("the stored definition of type `" +:+ name +:+ "` differs from this build's, so the "
                      +:+ "database was written by an incompatible binary")
  | TableDoesNotExist table => NotFound "table" table
  | TableExists table | TableAlreadyOpen table => AlreadyExists "table" table
  | ValueTooLarge bytes =>
      InvalidArgument (context +:+ ": the value is " +:+ fmt_u bytes +:+ " bytes, which exceeds what the database accepts")
  | Corrupted detail => Error_other (context +:+ ": the database is corrupted: " +:+ detail)
  | OtherRedb source => Error_wrap context source
  end.

(** ** A database *)

(** The tables, the number of identifiers drawn so far, and what the calls to come will answer. *)
Record Db (T : Type) := {
  tables : T;
  drawn : nat;
  disk : list (option RedbError);
}.
Arguments tables {T}.
Arguments drawn {T}.
Arguments disk {T}.
Arguments Build_Db {T}.

Section Db.
  Context {T : Type}.

Abbreviation M := (action (Db T) Error).

Definition with_tables (t : T) (s : Db T) : Db T := Build_Db t (drawn s) (disk s).

(** One call: [.map_err(|error| store_error(context, error))?]. *)
Definition io (context : string) : M unit := fun s =>
  match disk s with
  | [] => (s, Ok tt)
  | o :: disk =>
      (Build_Db (tables s) (drawn s) disk,
       match o with None => Ok tt | Some error => Err (store_error context error) end)
  end.

(** Reading, and writing inside a transaction. *)
Definition reads {A} (f : T -> A) : M A := gets (fun s => f (tables s)).
Definition writes (f : T -> T) : M unit := modify (fun s => with_tables (f (tables s)) s).

(** A fresh identifier. *)
Definition draw (name : nat -> string) : M string := fun s =>
  (Build_Db (tables s) (S (drawn s)) (disk s), Ok (name (drawn s))).

(** How the body of a write transaction ends: at the commit, or with an early return that drops
    the transaction. *)
Inductive Ending (A : Type) := Committing (a : A) | Dropping (a : A).
Arguments Committing {A}.
Arguments Dropping {A}.

Definition write_transaction {A} (beginning committing : string) (body : M (Ending A)) : M A := fun s =>
  match (io beginning ;! body) s with
  | (s', Ok (Committing a)) =>
      match io committing s' with
      | (s'', Ok _) => (s'', Ok a)
      | (s'', Err e) => (with_tables (tables s) s'', Err e)
      end
  | (s', Ok (Dropping a)) => (with_tables (tables s) s', Ok a)
  | (s', Err e) => (with_tables (tables s) s', Err e)
  end.

(** ** Reasoning about runs

    A run either shows what it was meant to, or was stopped by the disk. *)

Definition healthy (s : Db T) : Prop := Forall (eq None) (disk s).

Definition wp {A} (m : M A) (s : Db T) (Q : T -> nat -> Result A -> Prop) : Prop :=
  let (s', r) := m s in
  disk s' `suffix_of` disk s /\ (drawn s <= drawn s')%nat /\
  (Q (tables s') (drawn s') r \/ (is_ok r = false /\ ~ healthy s)).

Lemma healthy_suffix s s' : disk s' `suffix_of` disk s -> ~ healthy s' -> ~ healthy s.
Proof. intros [k Hk] Hn Hs. apply Hn. unfold healthy in *. rewrite Hk, Forall_app in Hs. tauto. Qed.

Lemma wp_consequence {A} (m : M A) s (Q Q' : T -> nat -> Result A -> Prop) :
  wp m s Q -> (forall t d r, (drawn s <= d)%nat -> Q t d r -> Q' t d r) -> wp m s Q'.
Proof. unfold wp. destruct (m s) as [s' r]. intros (? & ? & HQ) Himp; split_and!; [done..|]. destruct HQ; [left; by apply Himp|by right]. Qed.

Lemma wp_ret {A} (a : A) s (Q : T -> nat -> Result A -> Prop) : Q (tables s) (drawn s) (Ok a) -> wp (ret a) s Q.
Proof. intros H. unfold wp, ret. split_and!; [done|lia|by left]. Qed.

Lemma wp_throw {A} e s (Q : T -> nat -> Result A -> Prop) : Q (tables s) (drawn s) (Err e) -> wp (throw e) s Q.
Proof. intros H. unfold wp, throw. split_and!; [done|lia|by left]. Qed.

Lemma wp_lift {A} (r : Result A) s (Q : T -> nat -> Result A -> Prop) : Q (tables s) (drawn s) r -> wp (lift r) s Q.
Proof. intros H. unfold wp, lift. split_and!; [done|lia|by left]. Qed.

Lemma wp_reads {A} (f : T -> A) s (Q : T -> nat -> Result A -> Prop) :
  Q (tables s) (drawn s) (Ok (f (tables s))) -> wp (reads f) s Q.
Proof. intros H. unfold wp, reads, gets. split_and!; [done|lia|by left]. Qed.

Lemma wp_writes f s (Q : T -> nat -> Result unit -> Prop) :
  Q (f (tables s)) (drawn s) (Ok tt) -> wp (writes f) s Q.
Proof. intros H. unfold wp, writes, modify. simpl. split_and!; [done|lia|by left]. Qed.

Lemma wp_draw name s (Q : T -> nat -> Result string -> Prop) :
  Q (tables s) (S (drawn s)) (Ok (name (drawn s))) -> wp (draw name) s Q.
Proof. intros H. unfold wp, draw. simpl. split_and!; [done|lia|by left]. Qed.

Lemma wp_io context s (Q : T -> nat -> Result unit -> Prop) :
  Q (tables s) (drawn s) (Ok tt) -> wp (io context) s Q.
Proof.
  intros H. unfold wp, io, healthy. destruct (disk s) as [|[e|] d] eqn:E; simpl; rewrite ?E.
  - split_and!; [done|lia|by left].
  - split_and!; [by exists [Some e]|lia|right]. split; [done|]. by inversion 1.
  - split_and!; [by exists [None]|lia|by left].
Qed.

Lemma wp_bind {A B} (m : M A) (k : A -> M B) s (Q : T -> nat -> Result B -> Prop) :
  wp m s (fun t d r => match r with
    | Ok a => forall s', tables s' = t -> drawn s' = d -> wp (k a) s' Q
    | Err e => Q t d (Err e) end) ->
  wp (bind m k) s Q.
Proof.
  unfold wp, bind. destruct (m s) as [s1 [a|e]]; intros (Hd & Hn & [H|[Hr Hh]]); try done.
  - specialize (H s1 eq_refl eq_refl). destruct (k a s1) as [s2 r]. destruct H as (Hd' & Hn' & H).
    split_and!; [by etrans|lia|]. destruct H as [H|[Hr Hh]]; [by left|right]. split; [done|]. by eapply healthy_suffix.
  - split_and!; [done|done|by left].
  - split_and!; [done|done|by right].
Qed.

(** A transaction leaves the tables its body left when it commits, and those before it else. *)
Lemma wp_transaction {A} b c (body : M (Ending A)) s (Q : T -> nat -> Result A -> Prop) :
  (forall s', tables s' = tables s -> drawn s' = drawn s -> wp body s' (fun t d r => match r with
    | Ok (Committing a) => Q t d (Ok a)
    | Ok (Dropping a) => Q (tables s) d (Ok a)
    | Err e => Q (tables s) d (Err e) end)) ->
  wp (write_transaction b c body) s Q.
Proof.
  intros H. assert (Hb : wp (io b ;! body) s (fun t d r => match r with
    | Ok (Committing a) => Q t d (Ok a)
    | Ok (Dropping a) => Q (tables s) d (Ok a)
    | Err e => Q (tables s) d (Err e) end)).
  { apply wp_bind, wp_io. intros s' Ht Hd. by apply H. }
  unfold wp, write_transaction in *. destruct ((io b ;! body) s) as [s1 [[a|a]|e]].
  - destruct Hb as (Hd & Hn & [Hq|[[=] _]]). pose proof (wp_io c s1 (fun t d r => Q t d (Ok a)) Hq) as Hc. unfold wp in Hc.
    destruct (io c s1) as [s2 [[]|e]] eqn:E; destruct Hc as (Hd' & Hn' & Hc); simpl.
    + split_and!; [by etrans|lia|]. destruct Hc as [Hc|[[=] _]]. by left.
    + split_and!; [by etrans|lia|right]. split; [done|]. apply (healthy_suffix _ s1); [done|].
      intros Hh. unfold io, healthy in *. destruct (disk s1) as [|[e'|] d]; [done|by inversion Hh|done].
  - destruct Hb as (Hd & Hn & [Hq|[[=] _]]). simpl. split_and!; [done|done|by left].
  - destruct Hb as (Hd & Hn & [Hq|[_ Hh]]); simpl; split_and!; try done; [by left|by right].
Qed.

(** A loop each turn of which does [g] to the tables. *)
Lemma wp_for_each {A} (f : A -> M unit) (g : A -> T -> T) (l : list A) s (Q : T -> nat -> Result unit -> Prop) :
  (forall x s (Q : T -> nat -> Result unit -> Prop), Q (g x (tables s)) (drawn s) (Ok tt) -> wp (f x) s Q) ->
  Q (foldl (fun t x => g x t) (tables s) l) (drawn s) (Ok tt) -> wp (for_each f l) s Q.
Proof.
  intros Hf. revert s. induction l as [|x l IH]; intros s HQ; simpl in *; [by apply wp_ret|].
  apply wp_bind, Hf. intros s' Ht Hd. apply IH. by rewrite Ht, Hd.
Qed.

(** Atomicity: an operation that is one transaction and fails has changed nothing. *)
Lemma transaction_atomic {A} b c (body : M (Ending A)) s s' e :
  write_transaction b c body s = (s', Err e) -> tables s' = tables s.
Proof.
  unfold write_transaction. destruct ((io b ;! body) s) as [s1 [[a|a]|e1]]; [|done|by intros [= <- _]].
  destruct (io c s1) as [s2 [[]|e2]]; [done|]. by intros [= <- _].
Qed.

Lemma wp_healthy {A} (m : M A) s (Q : T -> nat -> Result A -> Prop) :
  healthy s -> wp m s Q -> let (s', r) := m s in Q (tables s') (drawn s') r /\ healthy s'.
Proof.
  unfold wp, healthy. destruct (m s) as [s' r]. intros Hs ([k Hk] & _ & [H|[_ H]]); [|done]. split; [done|].
  rewrite Hk, Forall_app in Hs. tauto.
Qed.
End Db.

Arguments Committing {A}.
Arguments Dropping {A}.
Arguments wp_consequence {T A} m s Q.

(** The state after a call, told by the state before it, which is forgotten. *)
Ltac wp_state :=
  let s' := fresh "s" in let Ht' := fresh "Ht" in let Hd' := fresh "Hd" in
  intros s' Ht' Hd';
  try match goal with
  | Ht : tables ?s1 = _, Hd : drawn ?s1 = _ |- _ =>
      lazymatch s1 with s' => fail | _ => idtac end;
      rewrite ?Ht, ?Hd in Ht'; rewrite ?Ht, ?Hd in Hd'; rewrite ?Ht, ?Hd; clear Ht Hd; try clear s1
  end.

(** Steps through the calls of an operation, up to the first decision. *)
Ltac wp_step :=
  lazymatch goal with
  | |- wp (bind _ _) _ _ => apply wp_bind
  | |- wp (io _) _ _ => apply wp_io
  | |- wp (ret _) _ _ => apply wp_ret
  | |- wp (throw _) _ _ => apply wp_throw
  | |- wp (lift _) _ _ => apply wp_lift
  | |- wp (reads _) _ _ => apply wp_reads
  | |- wp (writes _) _ _ => apply wp_writes
  | |- wp (draw _) _ _ => apply wp_draw
  | |- wp (write_transaction _ _ _) _ _ => apply wp_transaction
  | |- forall s', tables s' = _ -> drawn s' = _ -> _ => wp_state
  end.
(** What the state at hand is. *)
Ltac wp_here := repeat match goal with Ht : tables ?s1 = _, Hd : drawn ?s1 = _ |- context [?s1] => progress rewrite ?Ht, ?Hd end.
Ltac wp_run := repeat (wp_step; cbn beta iota); wp_here.

(** ** Reading changes nothing *)

Definition unchanged {T} (s s' : Db T) : Prop := tables s' = tables s /\ drawn s' = drawn s.

#[export] Instance unchanged_preorder {T} : PreOrder (@unchanged T).
Proof. split; [done|]. intros a b c [] []. split; congruence. Qed.

Lemma keeps_io {T} c : keeps (@unchanged T) (io c).
Proof. intros s s' r. unfold io. destruct (disk s); by intros [= <- _]. Qed.

Lemma keeps_reads {T A} (f : T -> A) : keeps (E := Error) unchanged (reads f).
Proof. by intros s s' r [= <- _]. Qed.

(** ** Operations that change nothing when they fail, and removals *)

Definition safe {T A} (op : action (Db T) Error A) : Prop := forall s s' e, op s = (s', Err e) -> tables s' = tables s.

Lemma reads_safe {T A} (op : action (Db T) Error A) : keeps unchanged op -> safe op.
Proof. intros Hm s s' e H. by apply Hm in H as [? _]. Qed.

Lemma transaction_safe {T A} b c (body : action (Db T) Error (Ending A)) : safe (write_transaction b c body).
Proof. intros s s' e. apply transaction_atomic. Qed.

Section Gone.
  Context {K V X : Type} `{Countable K}.

(** A map without the keys of some index entries. *)
Definition gone (m : gmap K V) (due : list (X * K)) : gmap K V := foldl (fun m p => delete (snd p) m) m due.

Lemma gone_lookup m due j : gone m due !! j = if decide (j ∈ map snd due) then None else m !! j.
Proof.
  revert m. induction due as [|p due IH]; intros m.
  { rewrite decide_False; [done|]. apply not_elem_of_nil. }
  change (gone m (p :: due)) with (gone (delete (snd p) m) due). change (map snd (p :: due)) with (snd p :: map snd due).
  rewrite IH. destruct (decide (j = snd p)) as [->|Hj].
  - rewrite lookup_delete_eq, (decide_True (P := _ ∈ _ :: _)) by (by left). by case_decide.
  - rewrite lookup_delete_ne by done. apply decide_ext. rewrite elem_of_cons. naive_solver.
Qed.

Lemma gone_size m due : NoDup (map snd due) -> Forall (fun p => is_Some (m !! snd p)) due -> (size (gone m due) + length due = size m)%nat.
Proof.
  revert m. induction due as [|p due IH]; intros m Hnd Hdue; [simpl; lia|]. simpl in Hnd. apply NoDup_cons in Hnd as [Hp Hnd].
  apply Forall_cons in Hdue as [[v Hv] Hdue]. change (gone m (p :: due)) with (gone (delete (snd p) m) due).
  assert (Hdue' : Forall (fun q => is_Some (delete (snd p) m !! snd q)) due).
  { rewrite Forall_forall in *. intros q Hq. rewrite lookup_delete_ne; [by apply Hdue|].
    intros E. apply Hp. rewrite E. by apply list_elem_of_fmap_2. }
  specialize (IH _ Hnd Hdue'). rewrite map_size_delete_Some in IH by (by eexists). simpl.
  assert (size m <> 0)%nat; [|lia]. intros Hz%map_size_empty_inv. rewrite Hz, lookup_empty in Hv. done.
Qed.
End Gone.

(** ** Schema versions *)

Definition META_name : string := "aik.meta".

Section Schema.
  Context {D : Type}.

(** The version recorded in the meta table, and the names and contents of the other tables. *)
Record Schema := {
  schema_version : option Z;
  foreign_tables : list string;
  contents : D;
}.

Record Migration := {
  to : Z;
  apply : action (Db Schema) Error unit;
}.

Definition out_of_order (previous : Z) (migration : Migration) : Error :=
  Error_other ("the migration list is out of order: version " +:+ fmt_u (to migration) +:+ " follows " +:+ fmt_u previous).

Fixpoint check_each (previous : Z) (migrations : list Migration) : Result Z :=
  match migrations with
  | [] => Ok previous
  | migration :: migrations =>
      if to migration <=? previous then Err (out_of_order previous migration)
      else check_each (to migration) migrations
  end.

Definition check_ordering (target : Z) (migrations : list Migration) : Result unit :=
  let? _ := check_each 0 migrations in
  match last migrations with
  | Some final =>
      if negb (to final =? target)
      then Err (Error_other ("the last migration produces version " +:+ fmt_u (to final)
                             +:+ " but the target schema version is " +:+ fmt_u target))
      else Ok tt
  | None => Ok tt
  end.

Definition foreign_error (foreign : list string) : Error :=
  Config SETTING ("the database records no schema version but already holds tables ("
                  +:+ String.concat ", " foreign +:+ "); it was not written by aik and will not be used").

Definition read_version : action (Db Schema) Error (option Z) :=
  io "opening the meta table" ;!
  io "reading the schema version" ;!
  let! recorded := reads schema_version in
  match recorded with
  | Some _ => ret recorded
  | None =>
      io "listing the database's tables" ;!
      let! foreign := reads foreign_tables in
      if bool_decide (foreign = []) then ret recorded else throw (foreign_error foreign)
  end.

Definition write_version (version : Z) : action (Db Schema) Error unit :=
  io "opening the meta table" ;!
  io "recording the schema version" ;!
  writes (fun t => {| schema_version := Some version; foreign_tables := foreign_tables t; contents := contents t |}).

Definition newer_error (version target : Z) : Error :=
  Config SETTING ("the database is at schema version " +:+ fmt_u version +:+ " but this build understands only version "
                  +:+ fmt_u target +:+ "; it was written by a newer build of aik and opening it here could silently destroy data").

Definition due (version : Z) (migrations : list Migration) : list Migration :=
  List.filter (fun m => version <? to m) migrations.

Definition migrate (target : Z) (migrations : list Migration) : action (Db Schema) Error unit :=
  lift (check_ordering target migrations) ;!
  write_transaction "beginning the schema-version transaction" "committing the schema version" (
    let! current := read_version in
    match current with
    | Some version =>
        if version =? target then ret (Dropping tt)
        else if target <? version then throw (newer_error version target)
        else for_each apply (due version migrations) ;! write_version target ;! ret (Committing tt)
    | None => write_version target ;! ret (Committing tt)
    end).

Lemma check_each_sorted previous migrations final :
  check_each previous migrations = Ok final ->
  StronglySorted Z.lt (previous :: map to migrations) /\ final = default previous (to <$> last migrations).
Proof.
  revert previous. induction migrations as [|m l IH]; intros previous; simpl.
  { intros [= <-]. split; [by repeat constructor|done]. }
  destruct (Z.leb_spec (to m) previous) as [|Hlt]; [done|]. intros H. destruct (IH _ H) as [Hs ->]. split.
  - constructor; [done|]. inversion_clear Hs as [|? ? _ Hf]. constructor; [lia|].
    eapply Forall_impl; [exact Hf|]. simpl. lia.
  - rewrite last_cons. by destruct (last l).
Qed.
End Schema.
Arguments Schema D : clear implicits.
Arguments Migration D : clear implicits.

Section Migrate.
  Context {D : Type}.

Lemma io_inv {T} c (s s' : Db T) r : io c s = (s', r) -> tables s' = tables s.
Proof. unfold io. destruct (disk s); by intros [= <- _]. Qed.

Lemma reads_inv {T A} (f : T -> A) (s s' : Db T) r : reads f s = (s', r) -> s' = s /\ r = Ok (f (tables s)).
Proof. by intros [= <- <-]. Qed.

Lemma read_version_inv (s s' : Db (Schema D)) v :
  read_version s = (s', Ok v) ->
  tables s' = tables s /\ schema_version (tables s) = v /\ (v = None -> foreign_tables (tables s) = []).
Proof.
  unfold read_version. intros H. peel H E1. peel H E2. apply io_inv in E1, E2. peel H E3.
  apply reads_inv in E3 as [-> [= ->]]. rewrite E2, E1 in H. destruct (schema_version (tables s)) as [w|].
  { injection H as <- <-. split_and!; [congruence|done|done]. }
  peel H E4. apply io_inv in E4. peel H E5. apply reads_inv in E5 as [-> [= ->]]. rewrite E4, E2, E1 in H.
  case_bool_decide; [|done]. injection H as <- <-. split_and!; [congruence|done|done].
Qed.

Lemma write_version_inv v (s s' : Db (Schema D)) u :
  write_version v s = (s', Ok u) ->
  schema_version (tables s') = Some v /\ contents (tables s') = contents (tables s).
Proof.
  unfold write_version. intros H. peel H E1. peel H E2. apply io_inv in E1, E2. injection H as <-. simpl.
  by rewrite E2, E1.
Qed.

(** What opening a database may do to it. *)
Definition upgraded (target : Z) (migrations : list (Migration D)) (before after : Db (Schema D)) : Prop :=
  schema_version (tables after) = Some target /\
  match schema_version (tables before) with
  | Some v =>
      v <= target /\ (v = target -> tables after = tables before) /\
      (v < target -> exists s1 s2 u, tables s1 = tables before /\
         for_each apply (due v migrations) s1 = (s2, Ok u) /\ contents (tables after) = contents (tables s2))
  | None => foreign_tables (tables before) = [] /\ contents (tables after) = contents (tables before)
  end.

Lemma migrate_failed target migrations (s s' : Db (Schema D)) e : migrate target migrations s = (s', Err e) -> tables s' = tables s.
Proof.
  unfold migrate, bind, lift. destruct (check_ordering target migrations); [apply transaction_atomic|by intros [= <- _]].
Qed.

Lemma transaction_ok {T A} b c (body : action (Db T) Error (Ending A)) (s s' : Db T) a :
  write_transaction b c body s = (s', Ok a) ->
  exists s1 s2 x, tables s1 = tables s /\ body s1 = (s2, Ok x) /\
    ((x = Committing a /\ tables s' = tables s2) \/ (x = Dropping a /\ tables s' = tables s)).
Proof.
  unfold write_transaction. destruct ((io b ;! body) s) as [s2 [x|e]] eqn:E; [|done]. peel E Eb.
  apply io_inv in Eb. intros H. eexists _, s2, x. split_and!; [exact Eb|exact E|].
  destruct x as [a'|a'].
  - left. destruct (io c s2) as [s3 [[]|]] eqn:Ec; [|done]. apply io_inv in Ec. by injection H as <- ->.
  - right. by injection H as <- ->.
Qed.

(** opening a database upgrades it or refuses it, and refusing changes nothing: whatever call
    fails, a failed [migrate] leaves the tables as they were; one that succeeds leaves them at
    the target version, from an older version by exactly the migrations above that version, in
    ascending order up to the target, from an equal version untouched, from no version only
    when the file held nothing else - and never from a newer one. *)
Theorem migrate_upgrades_or_refuses (target : Z) (migrations : list (Migration D)) (s s' : Db (Schema D)) (r : Result unit) :
  migrate target migrations s = (s', r) ->
  (is_ok r = false -> tables s' = tables s) /\
  (is_ok r = true -> upgraded target migrations s s' /\
     StronglySorted Z.lt (0 :: map to migrations) /\ (migrations = [] \/ to <$> last migrations = Some target)).
Proof.
  intros H. split; [intros Hr; destruct r; [done|]; by eapply migrate_failed|]. destruct r as [[]|]; [intros _|done].
  unfold migrate in H. peel H Ec. injection Ec as <- Ec. apply transaction_ok in H as (s1 & s2 & x & Ht & H & Hx). split.
  - unfold upgraded. peel H Ev. apply read_version_inv in Ev as (Ht' & <- & Hf). rewrite Ht in *.
    destruct (schema_version (tables s)) as [v|] eqn:Ev.
    + destruct (Z.eqb_spec v target) as [->|Hne].
      { injection H as <- <-. destruct Hx as [[[=] _]|[_ ->]]. split; [done|]. split_and!; [lia|done|lia]. }
      destruct (Z.ltb_spec target v); [done|]. peel H Em. peel H Ew. apply write_version_inv in Ew as [Hv Hc].
      injection H as <- <-. destruct Hx as [[_ ->]|[[=] _]]. split; [done|]. split_and!; [lia|lia|intros _].
      by eexists _, _, _.
    + peel H Ew. apply write_version_inv in Ew as [Hv Hc]. injection H as <- <-.
      destruct Hx as [[_ ->]|[[=] _]]. rewrite Hc, Ht'. by rewrite Hf.
  - unfold check_ordering in Ec. apply result_bind_ok in Ec as (final & Hs & Hl).
    apply check_each_sorted in Hs as [Hs _]. split; [done|].
    destruct (last migrations) as [m|] eqn:El; [right|by left; apply last_None in El]. simpl.
    destruct (Z.eqb_spec (to m) target); [by f_equal|done].
Qed.
End Migrate.

(** A file of version 1, and a step to version 2 that appends to it. *)
Definition a_step : Migration (list Z) :=
  {| to := 2;
     apply := writes (fun t => {| schema_version := schema_version t; foreign_tables := foreign_tables t;
                                  contents := contents t ++ [2] |}) |}.

Definition an_old_file : Db (Schema (list Z)) :=
  Build_Db {| schema_version := Some 1; foreign_tables := []; contents := [1] |} 0 [None; None].

Lemma migrate_upgrades_or_refuses_witness :
  let s' := fst (migrate 2 [a_step] an_old_file) in
  tables s' = {| schema_version := Some 2; foreign_tables := []; contents := [1; 2] |} /\
  upgraded 2 [a_step] an_old_file s'.
Proof.
  split; [vm_compute; reflexivity|].
  apply (migrate_upgrades_or_refuses 2 [a_step] an_old_file (fst (migrate 2 [a_step] an_old_file)) (Ok tt)); vm_compute; reflexivity.
Defined.
