(* ===== verification/Window.v ===== *)
(** * Window: turning a conversation into a bounded model payload

    [crates/context/src/window.rs] over the messages of [crates/api/src/model.rs] and the
    records, budgets and token counter of [crates/api/src/context.rs].  Oversized parts are
    elided, what still does not fit is dropped from the oldest end, and tool results whose call
    was dropped are removed.  A token count is a [u64] sum in the code and exact here: the
    records of a conversation that has been stored fit one.  [Display for Value] belongs to
    [serde_json]. *)

From S2P Require Import Prelude Base.

(** ** Messages *)

Abbreviation ContextId := string.
Abbreviation SessionId := string.
Abbreviation ToolName := string.

Inductive Role := Role_System | Role_User | Role_Assistant | Role_Tool.
#[export] Instance Role_eq_dec : EqDecision Role.
Proof. solve_decision. Defined.

Record ToolCall := {
  call_id : string;
  call_name : ToolName;
  arguments : Value;
}.

Inductive ContentPart :=
  | Text (text : string)
  | Blob (mime_type data : string)
  | Part_ToolCall (call : ToolCall)
  | ToolResult (call_id : string) (content : Value) (is_error : bool)
  | Part_Other (value : Value).

Record Message := {
  role : Role;
  content : list ContentPart;
  name : option string;
}.

(** [Message::text] *)
Definition Message_text (r : Role) (text : string) : Message :=
  {| role := r; content := [Text text]; name := None |}.

(** ** Records, budgets, windows *)

Record ContextRecord := {
  record_id : ContextId;
  record_session : SessionId;
  record_sequence : Z;
  record_message : Message;
  record_pinned : bool;
  record_principal : PrincipalId;
  record_created_at : Timestamp;
  record_tokens : Z;
}.

Record ContextBudget := {
  max_tokens : option Z;
  max_records : option Z;
  max_part_tokens : option Z;
}.

Record ContextUsage := {
  included_records : Z;
  included_tokens : Z;
  dropped_records : Z;
  dropped_tokens : Z;
  elided_parts : Z;
  elided_tokens : Z;
  over_budget : bool;
}.

Record ContextWindow := {
  messages : list Message;
  records : list ContextId;
  usage : ContextUsage;
}.

Definition ContextUsage_default : ContextUsage :=
  {| included_records := 0; included_tokens := 0; dropped_records := 0; dropped_tokens := 0;
     elided_parts := 0; elided_tokens := 0; over_budget := false |}.

Definition ContextWindow_empty : ContextWindow :=
  {| messages := []; records := []; usage := ContextUsage_default |}.

(** [ContextUsage::total_tokens] *)
Definition total_tokens (u : ContextUsage) : Z := included_tokens u + elided_tokens u + dropped_tokens u.

Definition ELISION_MARKER : string := "aik.elided".
Definition MESSAGE_OVERHEAD_TOKENS : Z := 4.

(** ** Counting *)

(** The trait [TokenCounter], with its default methods. *)
Class TokenCounter := {
  count_text : string -> Z;
  json_string : Value -> string;
}.

(** The trait's obligations. *)
Class TokenCounterLaws `(TokenCounter) := {
  count_text_nonneg s : 0 <= count_text s;
  count_text_prefix a b : count_text a <= count_text (a +:+ b);
}.

Section Counting.
  Context `{TokenCounter}.

Definition count_json (value : Value) : Z :=
  match value with
  | VString text => count_text text
  | other => count_text (json_string other)
  end.

Definition count_part (part : ContentPart) : Z :=
  match part with
  | Text text => count_text text
  | Blob mime_type data => count_text mime_type + count_text data
  | Part_ToolCall call => count_text (call_name call) + count_json (arguments call)
  | ToolResult _ content _ => count_json content
  | Part_Other value => count_json value
  end.

Definition count_message (message : Message) : Z :=
  MESSAGE_OVERHEAD_TOKENS
  + match name message with Some name => count_text name | None => 0 end
  + sum_Z (map count_part (content message)).

(** ** Elision *)

(** [text.char_indices()]: the positions of the bytes that begin a character. *)
Definition begins_char (c : ascii) : bool :=
  let n := Z.of_N (N_of_ascii c) in negb ((128 <=? n) && (n <? 192)).

Fixpoint char_indices (i : nat) (text : string) : list nat :=
  match text with
  | EmptyString => []
  | String c text => if begins_char c then i :: char_indices (S i) text else char_indices (S i) text
  end.

(** The binary search of [truncate_to_tokens]: a turn per boundary is enough. *)
Fixpoint bisect (fuel : nat) (text : string) (limit : Z) (boundaries : list nat) (low high : nat) : nat :=
  match fuel with
  | O => low
  | S fuel =>
      if (low + 1 <? high)%nat then
        let middle := (low + (high - low) / 2)%nat in
        if count_text (String.substring 0 (default 0%nat (boundaries !! middle)) text) <=? limit
        then bisect fuel text limit boundaries middle high
        else bisect fuel text limit boundaries low middle
      else low
  end.

Definition truncate_to_tokens (text : string) (limit : Z) : string :=
  if count_text text <=? limit then text
  else
    let boundaries := char_indices 0 text in
    match boundaries with
    | [] => text
    | _ =>
        let low := bisect (length boundaries) text limit boundaries 0 (length boundaries) in
        String.substring 0 (default 0%nat (boundaries !! low)) text
    end.

Definition text_note (record : ContextId) (removed total : Z) : string :=
  " [" +:+ ELISION_MARKER +:+ ": " +:+ fmt_u removed +:+ " of " +:+ fmt_u total
  +:+ " bytes removed; context record " +:+ record +:+ "]".

Definition elided_value (record : ContextId) (bytes : Z) : Value :=
  VObject [(ELISION_MARKER, VObject (Map_insert "bytes" (VNumber (NInt bytes)) (Map_insert "record" (VString record) [])))].

(** What would stand for an oversized part. *)
Definition stand_in (part : ContentPart) (record : ContextId) (limit : Z) : option ContentPart :=
  match part with
  | Text text =>
      let kept := truncate_to_tokens text limit in
      let removed := str_len text - str_len kept in
      Some (Text (kept +:+ text_note record removed (str_len text)))
  | Blob mime_type data =>
      Some (Text ("[" +:+ ELISION_MARKER +:+ ": " +:+ mime_type +:+ " payload of " +:+ fmt_u (str_len data)
                  +:+ " bytes removed; context record " +:+ record +:+ "]"))
  | Part_ToolCall call =>
      Some (Part_ToolCall {| call_id := call_id call; call_name := call_name call;
                             arguments := elided_value record (str_len (json_string (arguments call))) |})
  | ToolResult id content is_error =>
      Some (ToolResult id (elided_value record (str_len (json_string content))) is_error)
  | Part_Other _ => None
  end.

Definition elide_part (part : ContentPart) (record : ContextId) (limit : Z) : option ContentPart :=
  match stand_in part record limit with
  | Some replacement => if count_part replacement <? count_part part then Some replacement else None
  | None => None
  end.

Fixpoint elide_parts (parts : list ContentPart) (record : ContextId) (limit : Z) : list ContentPart * Z :=
  match parts with
  | [] => ([], 0)
  | part :: parts =>
      let (rest, elided) := elide_parts parts record limit in
      if count_part part <=? limit then (part :: rest, elided)
      else match elide_part part record limit with
           | Some replacement => (replacement :: rest, elided + 1)
           | None => (part :: rest, elided)
           end
  end.

Definition elide_message (message : Message) (record : ContextId) (limit : Z) : Message * Z :=
  let (parts, elided) := elide_parts (content message) record limit in
  ({| role := role message; content := parts; name := name message |}, elided).

(** ** Results without a call *)

Fixpoint drop_from_parts (answered : gset string) (parts : list ContentPart) : gset string * list ContentPart * Z :=
  match parts with
  | [] => (answered, [], 0)
  | part :: parts =>
      match part with
      | Part_ToolCall call =>
          let '(answered, kept, dropped) := drop_from_parts ({[call_id call]} ∪ answered) parts in
          (answered, part :: kept, dropped)
      | ToolResult id _ _ =>
          let '(answered', kept, dropped) := drop_from_parts answered parts in
          if bool_decide (id ∈ answered) then (answered', part :: kept, dropped) else (answered', kept, dropped + 1)
      | _ =>
          let '(answered, kept, dropped) := drop_from_parts answered parts in
          (answered, part :: kept, dropped)
      end
  end.

Fixpoint drop_orphans_from (answered : gset string) (l : list Message) : list Message * Z :=
  match l with
  | [] => ([], 0)
  | message :: l =>
      let '(answered, kept, dropped) := drop_from_parts answered (content message) in
      let (rest, dropped') := drop_orphans_from answered l in
      ({| role := role message; content := kept; name := name message |} :: rest, dropped + dropped')
  end.

Definition drop_orphan_results (l : list Message) : list Message * Z := drop_orphans_from ∅ l.

(** ** Assembly *)

Record Prepared := {
  p_id : ContextId;
  p_pinned : bool;
  p_message : Message;
  p_original_tokens : Z;
  p_tokens : Z;
  p_elided_parts : Z;
}.

Definition prepare (budget : ContextBudget) (record : ContextRecord) : Prepared :=
  let (message, elided) :=
    match max_part_tokens budget with
    | Some limit => elide_message (record_message record) (record_id record) limit
    | None => (record_message record, 0)
    end in
  {| p_id := record_id record;
     p_pinned := record_pinned record;
     p_message := message;
     p_original_tokens := record_tokens record;
     p_tokens := if elided =? 0 then record_tokens record else count_message message;
     p_elided_parts := elided |}.

(** [allowance.is_some_and(|allowance| used > allowance)] *)
Definition beyond (allowance : option Z) (used : Z) : bool :=
  match allowance with Some allowance => allowance <? used | None => false end.

(** The selection, from the newest record back: what is kept, newest first. *)
Fixpoint select (token_allowance record_allowance : option Z) (accepting : bool) (used_tokens used_records : Z)
    (newest_first : list Prepared) : list bool :=
  match newest_first with
  | [] => []
  | candidate :: older =>
      if p_pinned candidate then
        true :: select token_allowance record_allowance accepting used_tokens used_records older
      else if negb accepting then
        false :: select token_allowance record_allowance accepting used_tokens used_records older
      else if beyond record_allowance (used_records + 1) || beyond token_allowance (used_tokens + p_tokens candidate) then
        false :: select token_allowance record_allowance false used_tokens used_records older
      else
        true :: select token_allowance record_allowance true (used_tokens + p_tokens candidate) (used_records + 1) older
  end.

Definition selection (budget : ContextBudget) (prepared : list Prepared) : list bool :=
  let pinned := List.filter p_pinned prepared in
  let pinned_tokens := sum_Z (map p_tokens pinned) in
  let pinned_count := Z.of_nat (length pinned) in
  reverse (select (option_map (fun m => sat_sub m pinned_tokens) (max_tokens budget))
                  (option_map (fun m => sat_sub m pinned_count) (max_records budget))
                  true 0 0 (reverse prepared)).

(** The elements whose flag is [b]. *)
Definition flagged {A} (b : bool) (flags : list bool) (l : list A) : list A :=
  map snd (List.filter (fun p => Bool.eqb (fst p) b) (zip flags l)).

(** One kept message of the window, or one that lost everything in it. *)
Definition collect (acc : list ContextId * list Message * ContextUsage) (entry : Message * Prepared) :
    list ContextId * list Message * ContextUsage :=
  let '(ids, kept, u) := acc in
  let '(message, candidate) := entry in
  match content message with
  | [] =>
      (ids, kept,
       {| included_records := included_records u; included_tokens := included_tokens u;
          dropped_records := dropped_records u + 1;
          dropped_tokens := dropped_tokens u + p_original_tokens candidate;
          elided_parts := elided_parts u; elided_tokens := elided_tokens u; over_budget := over_budget u |})
  | _ =>
      let tokens := count_message message in
      (ids ++ [p_id candidate], kept ++ [message],
       {| included_records := included_records u + 1; included_tokens := included_tokens u + tokens;
          dropped_records := dropped_records u; dropped_tokens := dropped_tokens u;
          elided_parts := elided_parts u + p_elided_parts candidate;
          elided_tokens := elided_tokens u + sat_sub (p_original_tokens candidate) tokens;
          over_budget := over_budget u |})
  end.

Definition assemble (l : list ContextRecord) (budget : ContextBudget) : ContextWindow :=
  let prepared := map (prepare budget) l in
  let pinned_tokens := sum_Z (map p_tokens (List.filter p_pinned prepared)) in
  let over_budget_flag := match max_tokens budget with Some m => m <? pinned_tokens | None => false end in
  let keep := selection budget prepared in
  let selected := flagged true keep prepared in
  let (kept, orphans) := drop_orphan_results (map p_message selected) in
  let start := {| included_records := 0; included_tokens := 0; dropped_records := 0; dropped_tokens := 0;
                  elided_parts := orphans; elided_tokens := 0; over_budget := over_budget_flag |} in
  let '(ids, kept_messages, u) := foldl collect ([], [], start) (zip kept selected) in
  let evicted := flagged false keep prepared in
  {| messages := kept_messages;
     records := ids;
     usage := {| included_records := included_records u; included_tokens := included_tokens u;
                 dropped_records := dropped_records u + Z.of_nat (length evicted);
                 dropped_tokens := dropped_tokens u + sum_Z (map p_original_tokens evicted);
                 elided_parts := elided_parts u; elided_tokens := elided_tokens u;
                 over_budget := over_budget_flag |} |}.
End Counting.

(** ** Counting what is left *)

Section Costs.
  Context {T : TokenCounter} {TL : TokenCounterLaws T}.

#[local] Set Default Proof Using "Type*".

Lemma count_part_nonneg part : 0 <= count_part part.
Proof.
  assert (forall v, 0 <= count_json v) as Hj by (intros []; apply count_text_nonneg).
  destruct part as [t|m d|c|i v e|v]; simpl; try apply Hj; try apply count_text_nonneg.
  - pose proof (count_text_nonneg m). pose proof (count_text_nonneg d). lia.
  - pose proof (count_text_nonneg (call_name c)). pose proof (Hj (arguments c)). lia.
Qed.

Lemma parts_nonneg parts : 0 <= sum_Z (map count_part parts).
Proof. induction parts as [|p parts IH]; simpl; [lia|]. pose proof (count_part_nonneg p). lia. Qed.

Lemma elide_parts_spec parts record limit :
  let '(kept, n) := elide_parts parts record limit in
  0 <= n /\ (n = 0 -> kept = parts) /\ sum_Z (map count_part kept) <= sum_Z (map count_part parts).
Proof.
  induction parts as [|p parts IH]; simpl; [split_and!; [lia|done|lia]|]. destruct (elide_parts parts record limit) as [rest n].
  destruct IH as (Hn & Hsame & Hle). destruct (count_part p <=? limit); simpl.
  { split_and!; [done| |lia]. intros H0. by rewrite Hsame. }
  unfold elide_part. destruct (stand_in p record limit) as [q|]; simpl.
  2: { split_and!; [done| |lia]. intros H0. by rewrite Hsame. }
  destruct (Z.ltb_spec (count_part q) (count_part p)); simpl; split_and!; try lia.
  intros H0. by rewrite Hsame.
Qed.

(** A record whose count is the one its counter gives, as the store writes it. *)
Definition counted (r : ContextRecord) : Prop := record_tokens r = count_message (record_message r).

Lemma prepare_spec budget r :
  counted r ->
  let p := prepare budget r in
  p_id p = record_id r /\ p_pinned p = record_pinned r /\ p_original_tokens p = record_tokens r /\
  p_tokens p = count_message (p_message p) /\ p_tokens p <= p_original_tokens p.
Proof.
  intros Hr. unfold prepare. destruct (max_part_tokens budget) as [limit|]; simpl.
  2: { split_and!; [done..|lia]. }
  unfold elide_message. pose proof (elide_parts_spec (content (record_message r)) (record_id r) limit) as He.
  destruct (elide_parts _ _ _) as [kept n]. destruct He as (Hn & Hsame & Hle). simpl.
  destruct (Z.eqb_spec n 0) as [->|Hne]; split_and!; try done; try lia.
  - rewrite Hr, Hsame by done. by destruct (record_message r).
  - rewrite Hr. unfold count_message. simpl. lia.
Qed.

(** ** Results without a call *)

(** Every tool result is preceded by its call, among [before] or the parts. *)
Fixpoint answers (before : gset string) (parts : list ContentPart) : Prop :=
  match parts with
  | [] => True
  | Part_ToolCall call :: parts => answers ({[call_id call]} ∪ before) parts
  | ToolResult id _ _ :: parts => id ∈ before /\ answers before parts
  | _ :: parts => answers before parts
  end.

(** The calls known after some parts. *)
Fixpoint calls_after (before : gset string) (parts : list ContentPart) : gset string :=
  match parts with
  | [] => before
  | Part_ToolCall call :: parts => calls_after ({[call_id call]} ∪ before) parts
  | _ :: parts => calls_after before parts
  end.

Definition not_result (p : ContentPart) : bool :=
  match p with ToolResult _ _ _ => false | _ => true end.

Lemma drop_from_parts_spec before parts :
  let '(after, kept, n) := drop_from_parts before parts in
  0 <= n /\ answers before kept /\ after = calls_after before kept /\
  kept `sublist_of` parts /\ sum_Z (map count_part kept) <= sum_Z (map count_part parts) /\
  List.filter not_result kept = List.filter not_result parts /\ (answers before parts -> kept = parts).
Proof.
  revert before. induction parts as [|p parts IH]; intros before; simpl.
  { split_and!; [lia|done..|lia|done|done]. }
  pose proof (count_part_nonneg p) as Hp.
  assert (Hkeep : forall before', let '(after, kept, n) := drop_from_parts before' parts in
            sum_Z (map count_part (p :: kept)) <= sum_Z (map count_part (p :: parts)) /\ p :: kept `sublist_of` p :: parts).
  { intros before'. specialize (IH before'). destruct (drop_from_parts before' parts) as [[after kept] n].
    destruct IH as (_ & _ & _ & Hsub & Hle & _). simpl. split; [lia|by apply sublist_skip]. }
  destruct p as [t|m d|c|i v e|v]; simpl in *.
  all: match goal with |- context [drop_from_parts ?b ?ps] =>
         specialize (IH b); specialize (Hkeep b); destruct (drop_from_parts b ps) as [[after kept] n] end.
  all: destruct IH as (Hn & Ha & Hafter & Hsub & Hle & Hrest & Hsame), Hkeep as [Hle' Hsub'].
  4: { case_bool_decide; simpl; split_and!; try done; try lia; [|by apply sublist_cons|by intros [? _]].
       intros [_ Hb]. f_equal. by apply Hsame. }
  all: split_and!; try done; try (simpl; by f_equal); try (intros Hb; f_equal; by apply Hsame).
Qed.

Lemma answers_app before a b : answers before (a ++ b) <-> answers before a /\ answers (calls_after before a) b.
Proof.
  revert before. induction a as [|p a IH]; intros before; simpl; [naive_solver|].
  destruct p; rewrite ?IH; naive_solver.
Qed.

(** One message cut down to some of its parts. *)
Definition cut_from (m m' : Message) : Prop :=
  role m' = role m /\ name m' = name m /\ content m' `sublist_of` content m /\
  List.filter not_result (content m') = List.filter not_result (content m) /\ count_message m' <= count_message m.

Lemma drop_orphans_spec before l :
  let '(kept, n) := drop_orphans_from before l in
  0 <= n /\ answers before (concat (map content kept)) /\ Forall2 cut_from l kept /\
  (answers before (concat (map content l)) -> kept = l).
Proof.
  revert before. induction l as [|m l IH]; intros before; simpl; [split_and!; [lia|done|constructor|done]|].
  pose proof (drop_from_parts_spec before (content m)) as Hd.
  destruct (drop_from_parts before (content m)) as [[after parts] n].
  destruct Hd as (Hn & Ha & -> & Hsub & Hle & Hrest & Hsame).
  specialize (IH (calls_after before parts)). destruct (drop_orphans_from _ l) as [rest n'].
  destruct IH as (Hn' & Ha' & Hcut & Hsame'). simpl. split_and!; [lia| | |].
  - apply answers_app. by split.
  - constructor; [|done]. split_and!; [done..|]. unfold count_message. simpl. lia.
  - intros [Hm Hl]%answers_app. rewrite (Hsame Hm) in *. rewrite Hsame' by done. by destruct m.
Qed.

(** ** The selection *)

Definition unpinned (p : Prepared) : bool := negb (p_pinned p).

Definition tokens_of (l : list Prepared) : Z := sum_Z (map p_tokens l).

Lemma tokens_app a b : tokens_of (a ++ b) = tokens_of a + tokens_of b.
Proof. unfold tokens_of. by rewrite map_app, sum_Z_app. Qed.

Lemma tokens_split l : tokens_of l = tokens_of (List.filter p_pinned l) + tokens_of (List.filter unpinned l).
Proof. unfold tokens_of, unpinned. induction l as [|p l IH]; simpl; [done|]. destruct (p_pinned p); simpl; lia. Qed.

Lemma length_split (l : list Prepared) :
  length l = (length (List.filter p_pinned l) + length (List.filter unpinned l))%nat.
Proof. unfold unpinned. induction l as [|p l IH]; simpl; [done|]. destruct (p_pinned p); simpl; lia. Qed.

Lemma select_closed ta ra ut ur l : select ta ra false ut ur l = map p_pinned l.
Proof. induction l as [|p l IH]; simpl; [done|]. rewrite IH. by destruct (p_pinned p). Qed.

(** Newest first, everything is kept up to the first record that does not fit, and after that
    what is pinned. *)
Lemma select_spec ta ra ut ur l :
  beyond ta ut = false -> beyond ra ur = false ->
  exists k, (k <= length l)%nat /\
    select ta ra true ut ur l = replicate k true ++ map p_pinned (drop k l) /\
    let new := List.filter unpinned (take k l) in
    beyond ta (ut + tokens_of new) = false /\ beyond ra (ur + Z.of_nat (length new)) = false /\
    (k = length l \/ exists c, l !! k = Some c /\ p_pinned c = false /\
       (beyond ta (ut + tokens_of new + p_tokens c) = true \/ beyond ra (ur + Z.of_nat (length new) + 1) = true)).
Proof.
  revert ut ur. induction l as [|p l IH]; intros ut ur Ht Hr; simpl.
  { exists 0%nat. simpl. rewrite !Z.add_0_r. split_and!; try done. by left. }
  assert (Hu : unpinned p = negb (p_pinned p)) by done.
  destruct (p_pinned p) eqn:Ep; simpl in Hu.
  { destruct (IH ut ur Ht Hr) as (k & Hk & -> & Hfit & Hrec & Hend). exists (S k). simpl.
    rewrite Hu. simpl. split_and!; [lia|done..|].
    destruct Hend as [->|(c & Hc)]; [by left|right; by exists c]. }
  destruct (beyond ra (ur + 1) || beyond ta (ut + p_tokens p)) eqn:E.
  { exists 0%nat. simpl. rewrite select_closed, ?Ep, !Z.add_0_r. split_and!; [lia|done..|]. right. exists p.
    split_and!; [done..|]. apply orb_true_iff in E as [?|?]; [by right|by left]. }
  apply orb_false_iff in E as [E1 E2].
  destruct (IH _ _ E2 E1) as (k & Hk & -> & Hfit & Hrec & Hend). exists (S k). simpl.
  rewrite Hu. unfold tokens_of in *. simpl.
  replace (ut + (p_tokens p + sum_Z (map p_tokens (List.filter unpinned (take k l)))))
    with (ut + p_tokens p + sum_Z (map p_tokens (List.filter unpinned (take k l)))) by lia.
  replace (ur + Z.of_nat (S (length (List.filter unpinned (take k l)))))
    with (ur + 1 + Z.of_nat (length (List.filter unpinned (take k l)))) by lia.
  split_and!; [lia|done..|]. destruct Hend as [->|(c & Hc)]; [by left|right; by exists c].
Qed.

Lemma flagged_app {A} b f g (l k : list A) :
  length f = length l -> flagged b (f ++ g) (l ++ k) = flagged b f l ++ flagged b g k.
Proof. intros E. unfold flagged. by rewrite zip_with_app, List.filter_app, map_app. Qed.

Lemma flagged_replicate {A} b c (l : list A) :
  flagged b (replicate (length l) c) l = if Bool.eqb c b then l else [].
Proof. unfold flagged. induction l as [|a l IH]; simpl; [by destruct (Bool.eqb c b)|]. destruct (Bool.eqb c b); simpl; congruence. Qed.

Lemma flagged_map {A} b (f : A -> bool) l : flagged b (map f l) l = List.filter (fun a => Bool.eqb (f a) b) l.
Proof. unfold flagged. induction l as [|a l IH]; simpl; [done|]. destruct (Bool.eqb (f a) b); simpl; congruence. Qed.

(** What was selected: from the cut [j] on everything, before it what is pinned.  The cut is as
    early as the budget allows. *)
Definition cut_at (budget : ContextBudget) (l : list Prepared) (j : nat) : Prop :=
  let pinned := List.filter p_pinned l in
  let new := List.filter unpinned (drop j l) in
  (j <= length l)%nat /\
  flagged true (selection budget l) l = List.filter p_pinned (take j l) ++ drop j l /\
  flagged false (selection budget l) l = List.filter unpinned (take j l) /\
  (forall m, max_tokens budget = Some m -> tokens_of new <= Z.max 0 (m - tokens_of pinned)) /\
  (forall n, max_records budget = Some n -> Z.of_nat (length new) <= Z.max 0 (n - Z.of_nat (length pinned))) /\
  (j = 0%nat \/ exists c, l !! pred j = Some c /\ p_pinned c = false /\
     ((exists m, max_tokens budget = Some m /\ Z.max 0 (m - tokens_of pinned) < tokens_of new + p_tokens c) \/
      (exists n, max_records budget = Some n /\ Z.max 0 (n - Z.of_nat (length pinned)) < Z.of_nat (length new) + 1))).

Lemma filter_reverse {A} (f : A -> bool) l : List.filter f (reverse l) = reverse (List.filter f l).
Proof.
  induction l as [|a l IH]; [done|]. rewrite reverse_cons, List.filter_app, IH. simpl.
  destruct (f a); simpl; [by rewrite reverse_cons|by rewrite app_nil_r].
Qed.

Lemma tokens_reverse l : tokens_of (reverse l) = tokens_of l.
Proof.
  induction l as [|a l IH]; [done|]. rewrite reverse_cons, tokens_app, IH. unfold tokens_of. simpl. lia.
Qed.

Lemma selection_cut budget l : exists j, cut_at budget l j.
Proof.
  unfold cut_at, selection.
  set (ta := option_map _ (max_tokens budget)). set (ra := option_map _ (max_records budget)).
  destruct (select_spec ta ra 0 0 (reverse l)) as (k & Hk & Hsel & Hfit & Hrec & Hend).
  { unfold ta. destruct (max_tokens budget); simpl; [|done]. apply Z.ltb_ge. int_lia. }
  { unfold ra. destruct (max_records budget); simpl; [|done]. apply Z.ltb_ge. int_lia. }
  rewrite length_reverse in Hk. exists (length l - k)%nat. rewrite Hsel.
  set (j := (length l - k)%nat).
  assert (Htake : take k (reverse l) = reverse (drop j l)) by (unfold j; by rewrite take_reverse).
  assert (Hdrop : drop k (reverse l) = reverse (take j l)) by (unfold j; by rewrite drop_reverse).
  assert (Hkj : k = length (drop j l)) by (rewrite length_drop; lia).
  rewrite Htake, filter_reverse, tokens_reverse, length_reverse in *. rewrite !Z.add_0_l in *.
  assert (Hflag : forall b, flagged b (reverse (replicate k true ++ map p_pinned (drop k (reverse l)))) l =
            List.filter (fun p => Bool.eqb (p_pinned p) b) (take j l) ++ (if b then drop j l else [])).
  { intros b. rewrite Hdrop, reverse_app, reverse_replicate, <- (fmap_reverse p_pinned), reverse_involutive, Hkj.
    rewrite <- (take_drop j l) at 3. rewrite flagged_app by (by rewrite length_map).
    rewrite (flagged_map b p_pinned), flagged_replicate. by destruct b. }
  rewrite !Hflag, app_nil_r. split_and!.
  - lia.
  - f_equal. apply filter_ext. intros p. by destruct (p_pinned p).
  - apply filter_ext. intros p. unfold unpinned. by destruct (p_pinned p).
  - intros m Hm. unfold ta in Hfit. rewrite Hm in Hfit. simpl in Hfit. apply Z.ltb_ge in Hfit. unfold tokens_of in *. int_lia.
  - intros n Hn. unfold ra in Hrec. rewrite Hn in Hrec. simpl in Hrec. apply Z.ltb_ge in Hrec. int_lia.
  - destruct Hend as [->|(c & Hc & Hp & Hout)]; [left; lia|right]. exists c. split_and!; [|done|].
    + apply reverse_lookup_Some in Hc as [Hc Hlt]. rewrite <- Hc. f_equal. lia.
    + destruct Hout as [Hout|Hout]; [left|right].
      * unfold ta in Hout. destruct (max_tokens budget) as [m|]; [|done]. exists m. split; [done|].
        simpl in Hout. apply Z.ltb_lt in Hout. unfold tokens_of in *. int_lia.
      * unfold ra in Hout. destruct (max_records budget) as [n|]; [|done]. exists n. split; [done|].
        simpl in Hout. apply Z.ltb_lt in Hout. rewrite length_reverse in Hout. int_lia.
Qed.

(** ** The fold over the kept messages *)

Definition has_content (m : Message) : bool :=
  match content m with [] => false | _ => true end.

Definition live (entries : list (Message * Prepared)) := List.filter (fun e => has_content (fst e)) entries.
Definition dead (entries : list (Message * Prepared)) := List.filter (fun e => negb (has_content (fst e))) entries.

Definition cost (e : Message * Prepared) : Z := count_message (fst e).
Definition original (e : Message * Prepared) : Z := p_original_tokens (snd e).
Definition saved (e : Message * Prepared) : Z := sat_sub (original e) (cost e).

Lemma collect_spec entries ids kept u :
  let '(ids', kept', u') := foldl collect (ids, kept, u) entries in
  ids' = ids ++ map (fun e => p_id (snd e)) (live entries) /\
  kept' = kept ++ map fst (live entries) /\
  included_records u' = included_records u + Z.of_nat (length (live entries)) /\
  included_tokens u' = included_tokens u + sum_Z (map cost (live entries)) /\
  dropped_records u' = dropped_records u + Z.of_nat (length (dead entries)) /\
  dropped_tokens u' = dropped_tokens u + sum_Z (map original (dead entries)) /\
  elided_tokens u' = elided_tokens u + sum_Z (map saved (live entries)).
Proof.
  unfold live, dead. revert ids kept u. induction entries as [|[m p] entries IH]; intros ids kept u.
  { simpl. rewrite !app_nil_r. split_and!; try done; lia. }
  cbn [foldl List.filter fst]. destruct (collect (ids, kept, u) (m, p)) as [[ids1 kept1] u1] eqn:E. specialize (IH ids1 kept1 u1).
  destruct (foldl collect _ entries) as [[ids' kept'] u']. unfold collect in E.
  assert (Hm : has_content m = match content m with [] => false | _ => true end) by done.
  destruct (content m) as [|c parts]; injection E as <- <- <-; rewrite Hm; simpl in *;
    destruct IH as (-> & -> & ? & ? & ? & ? & ?); rewrite <- ?app_assoc; unfold saved, original, cost in *; simpl;
    split_and!; try done; lia.
Qed.

Lemma live_dead (f : Message * Prepared -> Z) entries :
  sum_Z (map f entries) = sum_Z (map f (live entries)) + sum_Z (map f (dead entries)).
Proof. unfold live, dead. induction entries as [|e l IH]; simpl; [done|]. destruct (has_content (fst e)); simpl; lia. Qed.

Lemma length_live_dead entries : length entries = (length (live entries) + length (dead entries))%nat.
Proof. unfold live, dead. induction entries as [|e l IH]; simpl; [done|]. destruct (has_content (fst e)); simpl; lia. Qed.

Lemma count_message_nonneg m : 0 <= count_message m.
Proof.
  unfold count_message, MESSAGE_OVERHEAD_TOKENS. pose proof (parts_nonneg (content m)).
  destruct (name m) as [n|]; [pose proof (count_text_nonneg n)|]; lia.
Qed.

(** What assembling comes to: the cut, the repair of what it selected, and the sums. *)
Definition assembled (budget : ContextBudget) (l : list Prepared) (w : ContextWindow) (j : nat) (kept : list Message) : Prop :=
  let selected := List.filter p_pinned (take j l) ++ drop j l in
  let entries := zip kept selected in
  let evicted := List.filter unpinned (take j l) in
  Forall2 cut_from (map p_message selected) kept /\
  answers ∅ (concat (map content kept)) /\
  (answers ∅ (concat (map content (map p_message selected))) -> kept = map p_message selected) /\
  records w = map (fun e => p_id (snd e)) (live entries) /\
  messages w = map fst (live entries) /\
  included_records (usage w) = Z.of_nat (length (live entries)) /\
  included_tokens (usage w) = sum_Z (map cost (live entries)) /\
  dropped_records (usage w) = Z.of_nat (length (dead entries)) + Z.of_nat (length evicted) /\
  dropped_tokens (usage w) = sum_Z (map original (dead entries)) + sum_Z (map p_original_tokens evicted) /\
  elided_tokens (usage w) = sum_Z (map saved (live entries)) /\
  over_budget (usage w) = match max_tokens budget with Some m => m <? tokens_of (List.filter p_pinned l) | None => false end.

Lemma assemble_spec l budget :
  exists j kept, cut_at budget (map (prepare budget) l) j /\ assembled budget (map (prepare budget) l) (assemble l budget) j kept.
Proof.
  destruct (selection_cut budget (map (prepare budget) l)) as [j Hj]. pose proof Hj as (_ & Hkeep & Hevict & _).
  unfold assemble, drop_orphan_results. rewrite Hkeep, Hevict.
  set (selected := List.filter p_pinned _ ++ _). pose proof (drop_orphans_spec ∅ (map p_message selected)) as Ho.
  destruct (drop_orphans_from ∅ (map p_message selected)) as [kept n]. destruct Ho as (_ & Ha & Hcut & Hsame).
  exists j, kept. split; [done|]. unfold assembled. fold selected.
  match goal with |- context [foldl collect ([], [], ?u) ?es] => pose proof (collect_spec es [] [] u) as Hc end.
  destruct (foldl collect _ _) as [[ids kept'] u]. simpl in *. destruct Hc as (-> & -> & ? & ? & ? & ? & ?).
  split_and!; try done; lia.
Qed.

Section Assembled.
  Context (budget : ContextBudget) (l : list ContextRecord) (j : nat) (kept : list Message).
  Hypothesis counted_all : Forall counted l.

Let prepared := map (prepare budget) l.
Let selected := List.filter p_pinned (take j prepared) ++ drop j prepared.

Hypothesis repaired : Forall2 cut_from (map p_message selected) kept.

(** Nothing costs more than it did. *)
Lemma entries_cost : Forall (fun e => 0 <= cost e <= p_tokens (snd e) /\ p_tokens (snd e) <= original e) (zip kept selected).
Proof.
  assert (Hp : Forall (fun p => p_tokens p = count_message (p_message p) /\ p_tokens p <= p_original_tokens p) selected).
  { assert (Hall : Forall (fun p => p_tokens p = count_message (p_message p) /\ p_tokens p <= p_original_tokens p) prepared).
    { unfold prepared. apply Forall_fmap. eapply Forall_impl; [exact counted_all|]. intros r Hr. by apply prepare_spec. }
    apply Forall_app. split; [|by apply Forall_drop].
    eapply List.incl_Forall; [apply List.incl_filter|]. by apply Forall_take. }
  remember (map p_message selected) as ms eqn:Hms. revert Hms Hp. generalize selected as sel. clear - repaired TL.
  induction repaired as [|m m' ms kept' Hcut _ IH]; intros [|p sel] Hms Hp; try done; simpl in *.
  injection Hms as -> ->. inversion_clear Hp as [|? ? [Ht Ho] Hps]. constructor; [|by apply IH; [inversion repaired|..]].
  unfold cost, original. simpl. destruct Hcut as (_ & _ & _ & _ & Hle). pose proof (count_message_nonneg m'). lia.
Qed.

Lemma zip_selected : map snd (zip kept selected) = selected.
Proof. apply snd_zip. apply Forall2_length in repaired. rewrite length_map in repaired. lia. Qed.

Lemma over_entries (f : Prepared -> Z) : sum_Z (map (fun e => f (snd e)) (zip kept selected)) = sum_Z (map f selected).
Proof. rewrite <- zip_selected at 2. by rewrite map_map. Qed.

Lemma sum_le {A} (f g : A -> Z) l' : Forall (fun a => f a <= g a) l' -> sum_Z (map f l') <= sum_Z (map g l').
Proof. clear. induction 1; simpl; lia. Qed.

Lemma included_le : sum_Z (map cost (live (zip kept selected))) <= tokens_of selected.
Proof.
  pose proof entries_cost as Hc. unfold tokens_of. rewrite <- over_entries. rewrite (live_dead (fun e => p_tokens (snd e))).
  assert (forall f, Forall (fun e => 0 <= cost e <= p_tokens (snd e) /\ p_tokens (snd e) <= original e)
    (List.filter f (zip kept selected))) as Hf by (intros f; eapply List.incl_Forall; [apply List.incl_filter|done]).
  assert (sum_Z (map cost (live (zip kept selected))) <= sum_Z (map (fun e => p_tokens (snd e)) (live (zip kept selected)))).
  { apply sum_le. eapply Forall_impl; [apply Hf|]. simpl. lia. }
  assert (sum_Z (map (fun _ => 0) (dead (zip kept selected))) <= sum_Z (map (fun e => p_tokens (snd e)) (dead (zip kept selected)))) as H0.
  { apply sum_le. eapply Forall_impl; [apply Hf|]. simpl. lia. }
  assert (forall es : list (Message * Prepared), sum_Z (map (fun _ => 0) es) = 0) as Hz by (induction es; simpl; lia).
  rewrite Hz in H0. lia.
Qed.

Lemma cost_saved :
  sum_Z (map cost (live (zip kept selected))) + sum_Z (map saved (live (zip kept selected)))
  = sum_Z (map original (live (zip kept selected))).
Proof.
  assert (Hc : Forall (fun e => cost e <= original e) (live (zip kept selected))).
  { eapply List.incl_Forall; [apply List.incl_filter|]. eapply Forall_impl; [apply entries_cost|]. simpl. lia. }
  induction Hc as [|e es He _ IH]; simpl; [done|]. unfold saved at 1, sat_sub. lia.
Qed.

Lemma original_selected : sum_Z (map original (zip kept selected)) = sum_Z (map p_original_tokens selected).
Proof. apply over_entries. Qed.
End Assembled.

(** What a window costs, as its usage tells it. *)
Definition accounts_for (l : list ContextRecord) (budget : ContextBudget) (w : ContextWindow) : Prop :=
  let pinned := List.filter p_pinned (map (prepare budget) l) in
  let u := usage w in
  included_tokens u = sum_Z (map count_message (messages w)) /\
  included_records u = Z.of_nat (length (messages w)) /\
  length (records w) = length (messages w) /\
  (over_budget u = true <-> exists m, max_tokens budget = Some m /\ m < tokens_of pinned) /\
  (forall m, max_tokens budget = Some m -> over_budget u = false -> included_tokens u <= m) /\
  (forall n, max_records budget = Some n -> included_records u <= Z.max n (Z.of_nat (length pinned))) /\
  included_records u + dropped_records u = Z.of_nat (length l) /\
  total_tokens u = sum_Z (map record_tokens l).

Lemma sum_prepared budget l :
  Forall counted l -> sum_Z (map p_original_tokens (map (prepare budget) l)) = sum_Z (map record_tokens l).
Proof.
  induction 1 as [|r l Hr _ IH]; [done|]. simpl. rewrite IH.
  destruct (prepare_spec budget r Hr) as (_ & _ & -> & _). done.
Qed.

(** C13. a window costs what its usage says and fits its budget: the tokens reported are those of
    the messages that are in it, they stay within [max_tokens] unless the pinned records alone
    exceed it - which is exactly when [over_budget] is set -, the number of records stays within
    [max_records] or is that of the pinned ones, and every record and every stored token is
    accounted for once, as included, elided or dropped. *)
Theorem window_accounts_and_fits (l : list ContextRecord) (budget : ContextBudget) :
  Forall counted l -> accounts_for l budget (assemble l budget).
Proof.
  intros Hl. destruct (assemble_spec l budget) as (j & kept & Hcut & Hw).
  pose proof Hw as (Hrep & _ & _ & Hr & Hm & Hir & Hit & Hdr & Hdt & Het & Hob).
  pose proof (included_le budget l j kept Hl Hrep) as Hle. pose proof (cost_saved budget l j kept Hl Hrep) as Hsaved.
  pose proof (original_selected budget l j kept Hl Hrep) as Horig. pose proof (zip_selected budget l j kept Hl Hrep) as Hzip.
  pose proof (sum_prepared budget l Hl) as Hsum. unfold accounts_for. rewrite (live_dead original) in Horig.
  apply (f_equal length) in Hzip. rewrite length_map, length_live_dead in Hzip.
  set (prepared := map (prepare budget) l) in *. assert (Hlen : length prepared = length l) by apply length_map.
  rewrite <- (take_drop j prepared), map_app, sum_Z_app in Hsum. rewrite <- (take_drop j prepared), length_app in Hlen.
  destruct Hcut as (_ & _ & _ & Htok & Hrec & _).
  assert (Hpin : List.filter p_pinned prepared = List.filter p_pinned (take j prepared) ++ List.filter p_pinned (drop j prepared))
    by by rewrite <- List.filter_app, take_drop.
  rewrite tokens_app, (tokens_split (drop j prepared)) in Hle.
  rewrite map_app, sum_Z_app in Horig. rewrite length_app in Hzip.
  rewrite !(length_split (take j prepared)), !(length_split (drop j prepared)) in *.
  rewrite Hr, Hm, Hob, Hpin, !map_map, !length_map, tokens_app, length_app in *. split_and!.
  - by rewrite Hit.
  - done.
  - done.
  - destruct (max_tokens budget) as [m|]; [rewrite Z.ltb_lt|]; naive_solver.
  - intros m Hmax. rewrite Hmax. intros Hover%Z.ltb_ge. specialize (Htok m Hmax). lia.
  - intros n Hmax. specialize (Hrec n Hmax). lia.
  - lia.
  - unfold total_tokens. assert (Hs : forall q, sum_Z (map p_original_tokens q) =
      sum_Z (map p_original_tokens (List.filter p_pinned q)) + sum_Z (map p_original_tokens (List.filter unpinned q))).
    { unfold unpinned. clear. induction q as [|p q IH]; simpl; [done|]. destruct (p_pinned p); simpl; lia. }
    rewrite (Hs (take j prepared)) in Hsum. lia.
Qed.

Lemma concat_live (kept : list Message) (l : list Prepared) :
  length kept = length l -> concat (map content (map fst (live (zip kept l)))) = concat (map content kept).
Proof.
  unfold live. revert l. induction kept as [|m kept IH]; intros [|p l] Hlen; try done; simpl in *.
  unfold has_content. destruct (content m) eqn:E; simpl; rewrite ?E, IH; by try lia.
Qed.

(** What a window shows of its conversation: from a cut on everything and before it what is
    pinned, the cut as early as the budget allows, each message whole but for elided parts and
    tool results that nothing called for, in order, and no message without content. *)
Definition shows (l : list ContextRecord) (budget : ContextBudget) (w : ContextWindow) : Prop :=
  let prepared := map (prepare budget) l in
  exists (j : nat) (kept : list Message),
    cut_at budget prepared j /\
    let selected := List.filter p_pinned (take j prepared) ++ drop j prepared in
    Forall2 cut_from (map p_message selected) kept /\
    (answers ∅ (concat (map content (map p_message selected))) -> kept = map p_message selected) /\
    zip (records w) (messages w) = map (fun e => (p_id (snd e), fst e)) (live (zip kept selected)).

(** a window is a coherent conversation: read in order, every tool result in it is preceded
    by its call, whatever was evicted; what it shows are the pinned records and the latest
    records, without a hole, as many as the budget allows; and nothing but the results whose
    call is gone is removed from them. *)
Theorem window_is_coherent (l : list ContextRecord) (budget : ContextBudget) :
  answers ∅ (concat (map content (messages (assemble l budget)))) /\ shows l budget (assemble l budget).
Proof.
  destruct (assemble_spec l budget) as (j & kept & Hcut & Hrep & Hans & Hsame & Hr & Hm & _).
  pose proof (Forall2_length _ _ _ Hrep) as Hlen. rewrite length_map in Hlen. split.
  - by rewrite Hm, concat_live.
  - exists j, kept. split; [done|]. split_and!; [done..|]. rewrite Hr, Hm.
    generalize (live (zip kept (List.filter p_pinned (take j (map (prepare budget) l)) ++ drop j (map (prepare budget) l)))).
    intros es. induction es as [|e es IH]; simpl; [done|]. by rewrite IH.
Qed.
End Costs.

(** ** The counter the system comes with *)

Section Heuristic.
  Context (bytes_per_token : Z) (json : Value -> string).

(** [HeuristicTokenCounter], [with_bytes_per_token]'s divisor of zero read as one. *)
Definition heuristic_count_text (text : string) : Z :=
  div_ceil (str_len text) (if bytes_per_token =? 0 then 1 else bytes_per_token).

#[export] Instance HeuristicTokenCounter : TokenCounter :=
  {| count_text := heuristic_count_text; json_string := json |}.

(** It keeps the trait's obligations. *)
Lemma heuristic_laws : 0 <= bytes_per_token -> TokenCounterLaws HeuristicTokenCounter.
Proof.
  intros Hb. split; intros; simpl; unfold heuristic_count_text, div_ceil; rewrite ?str_len_app;
    repeat match goal with |- context [str_len ?x] => pose proof (str_len_nonneg x); generalize dependent (str_len x); intros end; destruct (Z.eqb_spec bytes_per_token 0).
  - rewrite Z.div_1_r. lia.
  - apply Z.div_pos; lia.
  - rewrite !Z.div_1_r. lia.
  - apply Z.div_le_mono; lia.
Qed.
End Heuristic.

(** ** An example *)

(** A pinned instruction, a call, its oversized result, and an answer, under a budget that keeps
    the call out. *)
Definition a_record (id : ContextId) (pinned : bool) (r : Role) (parts : list ContentPart) : ContextRecord :=
  let m := {| role := r; content := parts; name := None |} in
  {| record_id := id; record_session := "s"; record_sequence := 0; record_message := m; record_pinned := pinned;
     record_principal := "alice"; record_created_at := 0;
     record_tokens := @count_message (HeuristicTokenCounter 4 (fun _ => "{}")) m |}.

Definition a_conversation : list ContextRecord :=
  [ a_record "r0" true Role_System [Text "be brief"];
    a_record "r1" false Role_Assistant
      [Part_ToolCall {| call_id := "c1"; call_name := "read"; arguments := VString (String.concat "" (repeat "path/" 20)) |}];
    a_record "r2" false Role_Tool [ToolResult "c1" (VString (String.concat "" (repeat "data" 40))) false];
    a_record "r3" false Role_Assistant [Text "done"] ].

Definition a_budget : ContextBudget :=
  {| max_tokens := Some 40; max_records := Some 4; max_part_tokens := Some 20 |}.

Example a_window :
  records (@assemble (HeuristicTokenCounter 4 (fun _ => "{}")) a_conversation a_budget) = ["r0"; "r1"; "r2"; "r3"].
Proof. vm_compute. reflexivity. Qed.

Lemma window_accounts_and_fits_witness :
  accounts_for (T := HeuristicTokenCounter 4 (fun _ => "{}")) a_conversation a_budget
    (@assemble (HeuristicTokenCounter 4 (fun _ => "{}")) a_conversation a_budget).
Proof.
  apply (window_accounts_and_fits (TL := heuristic_laws 4 (fun _ => "{}") ltac:(lia))).
  repeat constructor; vm_compute; reflexivity.
Defined.

(** The same conversation where only the latest two records fit: the result's call is gone, and so is the result. *)
Definition a_small_budget : ContextBudget :=
  {| max_tokens := Some 30; max_records := Some 3; max_part_tokens := Some 20 |}.

Lemma window_is_coherent_witness :
  let w := @assemble (HeuristicTokenCounter 4 (fun _ => "{}")) a_conversation a_small_budget in
  records w = ["r0"; "r3"] /\ answers ∅ (concat (map content (messages w))).
Proof.
  cbv zeta. split; [vm_compute; reflexivity|].
  apply (window_is_coherent (TL := heuristic_laws 4 (fun _ => "{}") ltac:(lia)) a_conversation a_small_budget).
Defined.
