(* ===== verification/ContextStore.v ===== *)
(** * ContextStore: conversations kept in memory

    [crates/context/src/store.rs] and [session.rs].  A store is its sessions, the identifiers
    drawn so far and what was published; the lock is held throughout each operation, so each is
    one action.  [Uuid::new_v4] is [ContextId_new] of a number never used before. *)

From S2P Require Import Prelude Base Window.

(** ** Entries and statistics *)

Record ContextEntry := {
  entry_message : Message;
  entry_pinned : bool;
}.

Record ContextStats := {
  stats_session : SessionId;
  stats_owner : PrincipalId;
  stats_records : Z;
  stats_tokens : Z;
  stats_created_at : Timestamp;
  stats_updated_at : Timestamp;
}.

Record ContextAssembled := {
  assembled_correlation : CorrelationId;
  assembled_timestamp : Timestamp;
  assembled_session : SessionId;
  assembled_usage : ContextUsage;
}.

(** [AssemblyReporter::report]: what is published, if anything listens. *)
Definition report (events : bool) (cx : ExecutionContext) (session : SessionId) (timestamp : Timestamp)
    (usage : ContextUsage) : list ContextAssembled :=
  if events then
    [{| assembled_correlation := correlation cx; assembled_timestamp := timestamp; assembled_session := session;
        assembled_usage := usage |}]
  else [].

Definition belongs_message (session : SessionId) (owner : PrincipalId) (principal : Principal) : string :=
  "context session `" +:+ session +:+ "` belongs to `" +:+ owner +:+ "`, not to `" +:+ principal_id principal +:+ "`".

(** [session::authorize] *)
Definition authorize (session : SessionId) (owner : PrincipalId) (principal : Principal) : Result unit :=
  if may_act_for principal owner then Ok tt else Err (PermissionDenied (belongs_message session owner principal)).

Definition full_error (session : SessionId) (max_records : Z) : Error :=
  Error_other ("context session `" +:+ session +:+ "` is full at " +:+ fmt_u max_records +:+ " records; compact or clear it").

(** [compaction_boundary]: walking back from the newest, the position after the [keep + 1]st
    record that is not pinned. *)
Fixpoint boundary_from (newest_first : list bool) (keep seen : Z) : nat :=
  match newest_first with
  | [] => 0
  | true :: older => boundary_from older keep seen
  | false :: older => if keep <? seen + 1 then S (length older) else boundary_from older keep (seen + 1)
  end.

Definition compaction_boundary (pinned : list bool) (keep : Z) : nat := boundary_from (reverse pinned) keep 0.

(** [right.updated_at.cmp(&left.updated_at).then_with(|| left.session.cmp(&right.session))] *)
Definition listed_before (left right : ContextStats) : Prop :=
  stats_updated_at right < stats_updated_at left \/
  (stats_updated_at right = stats_updated_at left /\ String.leb (stats_session left) (stats_session right) = true).
#[export] Instance listed_before_dec : RelDecision listed_before.
Proof. intros l r. unfold listed_before. apply _. Defined.

Definition sort_sessions (l : list ContextStats) : list ContextStats := merge_sort listed_before l.

(** ** The store *)

Record SessionState := {
  owner : PrincipalId;
  created_at : Timestamp;
  updated_at : Timestamp;
  next_sequence : Z;
  tokens : Z;
  session_records : list ContextRecord;
  index : gmap ContextId nat;
}.

Record InMemoryContextStore := {
  sessions : gmap SessionId SessionState;
  ids_drawn : nat;
  published : list ContextAssembled;
}.

Definition with_sessions (f : gmap SessionId SessionState -> gmap SessionId SessionState) (s : InMemoryContextStore) :
    InMemoryContextStore :=
  {| sessions := f (sessions s); ids_drawn := ids_drawn s; published := published s |}.

Definition stats_of (session : SessionId) (st : SessionState) : ContextStats :=
  {| stats_session := session; stats_owner := owner st; stats_records := Z.of_nat (length (session_records st));
     stats_tokens := tokens st; stats_created_at := created_at st; stats_updated_at := updated_at st |}.

Section InMemory.
  Context `{TokenCounter} (ContextId_new : nat -> ContextId).
  (** [with_max_records], [with_events] *)
  Context (max_records : Z) (events : bool).

Abbreviation M := (action InMemoryContextStore Error).

Definition empty_session (principal : Principal) (now : Timestamp) : SessionState :=
  {| owner := principal_id principal; created_at := now; updated_at := now; next_sequence := 0; tokens := 0;
     session_records := []; index := ∅ |}.

Definition append_to (st : SessionState) (record : ContextRecord) (now : Timestamp) : SessionState :=
  {| owner := owner st; created_at := created_at st; updated_at := now; next_sequence := next_sequence st + 1;
     tokens := tokens st + record_tokens record; session_records := session_records st ++ [record];
     index := <[record_id record := length (session_records st)]> (index st) |}.

(** Whether a session takes another record. *)
Definition check_append (session : SessionId) (existing : option SessionState) (principal : Principal) : Result unit :=
  match existing with
  | Some state =>
      let? _ := authorize session (owner state) principal in
      if max_records <=? Z.of_nat (length (session_records state)) then Err (full_error session max_records) else Ok tt
  | None => if max_records =? 0 then Err (full_error session 0) else Ok tt
  end.

Definition append (session : SessionId) (entry : ContextEntry) (cx : ExecutionContext) (now : Timestamp) : M ContextRecord :=
  let principal := principal_or_system cx in
  let count := count_message (entry_message entry) in
  let! existing := gets (fun s => sessions s !! session) in
  lift (check_append session existing principal) ;!
  let state := default (empty_session principal now) existing in
  let! drawn := gets ids_drawn in
  let record := {| record_id := ContextId_new drawn; record_session := session; record_sequence := next_sequence state;
                   record_message := entry_message entry; record_pinned := entry_pinned entry;
                   record_principal := principal_id principal; record_created_at := now; record_tokens := count |} in
  modify (fun s => {| sessions := <[session := append_to state record now]> (sessions s);
                      ids_drawn := S (ids_drawn s); published := published s |}) ;!
  ret record.

(** The session, if there is one, once its owner has been asked about. *)
Definition session_for (session : SessionId) (cx : ExecutionContext) : M (option SessionState) :=
  let! existing := gets (fun s => sessions s !! session) in
  match existing with
  | None => ret None
  | Some state => lift (authorize session (owner state) (principal_or_system cx)) ;! ret (Some state)
  end.

Definition get (session : SessionId) (id : ContextId) (cx : ExecutionContext) : M (option ContextRecord) :=
  let! found := session_for session cx in
  match found with
  | None => ret None
  | Some state =>
      ret (match index state !! id with Some position => session_records state !! position | None => None end)
  end.

Definition window (session : SessionId) (budget : ContextBudget) (cx : ExecutionContext) (now : Timestamp) : M ContextWindow :=
  let! found := session_for session cx in
  match found with
  | None => ret ContextWindow_empty
  | Some state =>
      let window := assemble (session_records state) budget in
      modify (fun s => {| sessions := sessions s; ids_drawn := ids_drawn s;
                          published := published s ++ report events cx session now (usage window) |}) ;!
      ret window
  end.

Definition stats (session : SessionId) (cx : ExecutionContext) : M (option ContextStats) :=
  let! found := session_for session cx in
  match found with
  | None => ret None
  | Some state => ret (Some (stats_of session state))
  end.

Definition clear (session : SessionId) (cx : ExecutionContext) : M Z :=
  let! found := session_for session cx in
  match found with
  | None => ret 0
  | Some state =>
      modify (with_sessions (fun m => delete session m)) ;! ret (Z.of_nat (length (session_records state)))
  end.

Definition list_sessions (cx : ExecutionContext) : M (list ContextStats) :=
  let principal := principal_or_system cx in
  let! all := gets sessions in
  ret (sort_sessions (map (fun p => stats_of (fst p) (snd p))
    (List.filter (fun p => may_act_for principal (owner (snd p))) (map_to_list all)))).

(** The records compaction keeps: everything from the boundary on, and what is pinned. *)
Definition compacted (boundary : nat) (l : list ContextRecord) : list ContextRecord :=
  List.filter record_pinned (take boundary l) ++ drop boundary l.
Definition compacted_away (boundary : nat) (l : list ContextRecord) : list ContextRecord :=
  List.filter (fun r => negb (record_pinned r)) (take boundary l).

Fixpoint index_from (index : gmap ContextId nat) (position : nat) (l : list ContextRecord) : gmap ContextId nat :=
  match l with
  | [] => index
  | record :: l => index_from (<[record_id record := position]> index) (S position) l
  end.

Definition compact_state (boundary : nat) (st : SessionState) : SessionState :=
  let kept := compacted boundary (session_records st) in
  {| owner := owner st; created_at := created_at st; updated_at := updated_at st; next_sequence := next_sequence st;
     tokens := sat_sub (tokens st) (sum_Z (map record_tokens (compacted_away boundary (session_records st))));
     session_records := kept; index := index_from ∅ 0 kept |}.

Definition compact (session : SessionId) (keep : Z) (cx : ExecutionContext) : M Z :=
  let! found := session_for session cx in
  match found with
  | None => ret 0
  | Some state =>
      let boundary := compaction_boundary (map record_pinned (session_records state)) keep in
      if (boundary =? 0)%nat then ret 0
      else
        modify (with_sessions (fun m => <[session := compact_state boundary state]> m)) ;!
        ret (Z.of_nat (length (compacted_away boundary (session_records state))))
  end.

(** [RetentionSweeper::sweep_stale] *)
Definition sweep_stale (cutoff : Timestamp) : M Z :=
  let! before := gets (fun s => Z.of_nat (size (sessions s))) in
  modify (with_sessions (filter (fun p => cutoff < updated_at (snd p)))) ;!
  let! after := gets (fun s => Z.of_nat (size (sessions s))) in
  ret (before - after).

(** The trait [ContextStore], and [RetentionSweeper], as requests. *)
Inductive Request :=
  | Append (session : SessionId) (entry : ContextEntry)
  | Get (session : SessionId) (id : ContextId)
  | Window (session : SessionId) (budget : ContextBudget)
  | Stats (session : SessionId)
  | Clear (session : SessionId)
  | Sessions
  | Compact (session : SessionId) (keep : Z)
  | SweepStale (cutoff : Timestamp).

Inductive Response :=
  | Appended (record : ContextRecord)
  | Found (record : option ContextRecord)
  | Assembled (window : ContextWindow)
  | StatsAre (stats : option ContextStats)
  | Removed (count : Z)
  | Listed (stats : list ContextStats).

Definition answer {S A} (f : A -> Response) (m : action S Error A) : action S Error Response :=
  let! a := m in ret (f a).

Definition serve (request : Request) (cx : ExecutionContext) (now : Timestamp) : M Response :=
  match request with
  | Append session entry => answer Appended (append session entry cx now)
  | Get session id => answer Found (get session id cx)
  | Window session budget => answer Assembled (window session budget cx now)
  | Stats session => answer StatsAre (stats session cx)
  | Clear session => answer Removed (clear session cx)
  | Sessions => answer Listed (list_sessions cx)
  | Compact session keep => answer Removed (compact session keep cx)
  | SweepStale cutoff => answer Removed (sweep_stale cutoff)
  end.

(** The requests of a run, one after the other, with the caller and the time of each. *)
Fixpoint serve_all (requests : list (Request * ExecutionContext * Timestamp)) (s : InMemoryContextStore) :
    InMemoryContextStore * list (Result Response) :=
  match requests with
  | [] => (s, [])
  | (request, cx, now) :: requests =>
      let (s, r) := serve request cx now s in
      let (s, rs) := serve_all requests s in (s, r :: rs)
  end.
End InMemory.

Definition InMemoryContextStore_new : InMemoryContextStore :=
  {| sessions := ∅; ids_drawn := 0; published := [] |}.

(** ** Running an operation *)

Section Runs.
  Context {T : TokenCounter} (ContextId_new : nat -> ContextId) (max_records : Z) (events : bool).

Lemma session_for_run session cx s :
  session_for session cx s =
  (s, match sessions s !! session with
      | None => Ok None
      | Some st => let? _ := authorize session (owner st) (principal_or_system cx) in Ok (Some st)
      end).
Proof.
  unfold session_for, bind, gets, lift, ret. destruct (sessions s !! session) as [st|]; [|done].
  by destruct (authorize _ _ _).
Qed.

(** A successful append, spelled out. *)
Lemma append_run session entry cx now s s' r :
  append ContextId_new max_records session entry cx now s = (s', r) ->
  match check_append max_records session (sessions s !! session) (principal_or_system cx) with
  | Err e => s' = s /\ r = Err e
  | Ok _ =>
      let st := default (empty_session (principal_or_system cx) now) (sessions s !! session) in
      let record := {| record_id := ContextId_new (ids_drawn s); record_session := session;
        record_sequence := next_sequence st; record_message := entry_message entry; record_pinned := entry_pinned entry;
        record_principal := principal_id (principal_or_system cx); record_created_at := now;
        record_tokens := count_message (entry_message entry) |} in
      r = Ok record /\
      s' = {| sessions := <[session := append_to st record now]> (sessions s); ids_drawn := S (ids_drawn s);
              published := published s |}
  end.
Proof.
  unfold append, bind, gets, lift, modify, ret. destruct (check_append _ _ _ _); intros [= <- <-]; done.
Qed.

(** ** Whose conversations they are *)

Definition named (request : Request) : option SessionId :=
  match request with
  | Append k _ | Get k _ | Window k _ | Stats k | Clear k | Compact k _ => Some k
  | Sessions | SweepStale _ => None
  end.

Lemma authorize_denied k o p : may_act_for p o = false -> authorize k o p = Err (PermissionDenied (belongs_message k o p)).
Proof. unfold authorize. by intros ->. Qed.

Lemma session_for_denied session cx s st :
  sessions s !! session = Some st -> may_act_for (principal_or_system cx) (owner st) = false ->
  session_for session cx s = (s, Err (PermissionDenied (belongs_message session (owner st) (principal_or_system cx)))).
Proof. intros Hst Hp. rewrite session_for_run, Hst. simpl. by rewrite authorize_denied. Qed.

Lemma named_denied request cx now s k st :
  sessions s !! k = Some st -> may_act_for (principal_or_system cx) (owner st) = false -> named request = Some k ->
  serve ContextId_new max_records events request cx now s
  = (s, Err (PermissionDenied (belongs_message k (owner st) (principal_or_system cx)))).
Proof.
  intros Hst Hp Hk. destruct request; simpl in Hk; try done; injection Hk as ->; simpl; unfold answer, bind at 1.
  { unfold append, bind, gets, lift. rewrite Hst. simpl. by rewrite authorize_denied. }
  all: unfold get, window, stats, clear, compact, bind at 1; by rewrite (session_for_denied _ _ _ _ Hst Hp).
Qed.

Lemma sessions_untouched request cx now s s' r k :
  serve ContextId_new max_records events request cx now s = (s', r) -> named request <> Some k ->
  (forall cutoff, request <> SweepStale cutoff) -> sessions s' !! k = sessions s !! k.
Proof.
  intros H Hk Hsweep. destruct request as [j entry|j id|j budget|j|j| |j keep|cutoff]; simpl in *; unfold answer in H; unfold bind at 1 in H.
  1: { destruct (append _ _ _ _ _ _ s) as [s1 r1] eqn:E. apply append_run in E.
       destruct (check_append _ _ _ _); destruct E as [-> ->]; injection H as <- _; [|done].
       simpl. rewrite lookup_insert_ne; congruence. }
  1-4, 6: unfold get, window, stats, clear, compact in H; unfold bind at 1 in H; rewrite session_for_run in H;
    destruct (sessions s !! j) as [st|]; simpl in H; [destruct (authorize _ _ _)|]; simpl in H; try (by injection H as <- _).
  - injection H as <- _. simpl. rewrite lookup_delete_ne; congruence.
  - destruct (_ =? 0)%nat; injection H as <- _; [done|]. simpl. rewrite lookup_insert_ne; congruence.
  - by injection H as <- _.
  - by destruct (Hsweep cutoff).
Qed.

(** a conversation is private to its owner and to who acts for them: any other caller is
    refused every operation on it, with nothing changed, does not find it among the sessions
    listed, and cannot change it by operating on another; only the retention sweep removes it,
    when it was last touched no later than the cutoff. *)
Theorem conversations_are_private (request : Request) (cx : ExecutionContext) (now : Timestamp)
    (s s' : InMemoryContextStore) (r : Result Response) (k : SessionId) (st : SessionState) :
  serve ContextId_new max_records events request cx now s = (s', r) ->
  sessions s !! k = Some st ->
  may_act_for (principal_or_system cx) (owner st) = false ->
  (named request = Some k ->
     s' = s /\ r = Err (PermissionDenied (belongs_message k (owner st) (principal_or_system cx)))) /\
  (forall l, r = Ok (Listed l) -> k ∉ map stats_session l) /\
  sessions s' !! k =
    match request with
    | SweepStale cutoff => if decide (cutoff < updated_at st) then Some st else None
    | _ => Some st
    end.
Proof.
  intros H Hst Hp. split_and!.
  - intros Hk. rewrite (named_denied _ _ _ _ _ _ Hst Hp Hk) in H. by injection H as <- <-.
  - intros l ->. destruct request; simpl in H; unfold answer in H; apply bind_inv in H as [(s1 & a & H & Hr)|(e & _ & [=])]; try done.
    injection Hr as <- <-. injection H as <- <-. intros (x & -> & Hx)%list_elem_of_fmap.
    unfold sort_sessions in Hx. rewrite merge_sort_Permutation in Hx. apply list_elem_of_fmap in Hx as ([k' st'] & -> & Hin).
    simpl in *. apply list_elem_of_In, filter_In in Hin as [Hin Hmay]. apply list_elem_of_In, elem_of_map_to_list in Hin. simpl in Hmay.
    assert (st' = st) by congruence. subst. congruence.
  - destruct (decide (named request = Some k)) as [Hk|Hk].
    { rewrite (named_denied _ _ _ _ _ _ Hst Hp Hk) in H. injection H as <- <-. by destruct request. }
    destruct request as [| | | | | | |cutoff]; try (rewrite (sessions_untouched _ _ _ _ _ _ _ H Hk); [done|by intros]).
    simpl in H. injection H as <- _. simpl. apply option_eq. intros st'. rewrite map_lookup_filter_Some, Hst. simpl.
    case_decide; naive_solver.
Qed.
End Runs.

(** ** What a session always is *)

Section Invariant.
  Context {T : TokenCounter} {TL : TokenCounterLaws T} (ContextId_new : nat -> ContextId).
  Context {fresh : Inj eq eq ContextId_new}.
  Context (max_records : Z) (events : bool).

#[local] Set Default Proof Using "TL fresh".

Record well_formed (d : nat) (k : SessionId) (st : SessionState) : Prop := {
  wf_session : Forall (fun r => record_session r = k) (session_records st);
  wf_counted : Forall counted (session_records st);
  wf_sequences : StronglySorted Z.lt (map record_sequence (session_records st));
  wf_below : Forall (fun r => 0 <= record_sequence r < next_sequence st) (session_records st);
  wf_next : 0 <= next_sequence st;
  wf_ids : NoDup (map record_id (session_records st));
  wf_drawn : Forall (fun r => exists n, (n < d)%nat /\ record_id r = ContextId_new n) (session_records st);
  wf_index i p : index st !! i = Some p <-> exists r, session_records st !! p = Some r /\ record_id r = i;
  wf_tokens : tokens st = sum_Z (map record_tokens (session_records st));
}.

Definition store_well_formed (s : InMemoryContextStore) : Prop :=
  map_Forall (well_formed (ids_drawn s)) (sessions s).

Lemma wf_more d d' k st : (d <= d')%nat -> well_formed d k st -> well_formed d' k st.
Proof using.
  intros Hd H. destruct H. split; try done. eapply Forall_impl; [done|]. intros r (n & Hn & Hr). exists n.
  split; [lia|done].
Qed.

Lemma wf_empty d k p now : well_formed d k (empty_session p now).
Proof using.
  split; simpl; try constructor; try done.
  intros Hi. destruct Hi as (r & Hr & _). by rewrite lookup_nil in Hr.
Qed.

(** A record appended with the next sequence number and an identifier not drawn before. *)
Lemma wf_append d k st r now :
  well_formed d k st -> record_id r = ContextId_new d -> record_session r = k -> counted r ->
  record_sequence r = next_sequence st ->
  well_formed (S d) k (append_to st r now).
Proof.
  intros H Hid Hk Hc Hq. assert (Hfresh : record_id r ∉ map record_id (session_records st)).
  { intros (r' & Hr' & Hin)%list_elem_of_fmap. pose proof (wf_drawn _ _ _ H) as Hd. rewrite Forall_forall in Hd.
    destruct (Hd r' Hin) as (n & Hnd & Hrn). rewrite Hid, Hrn in Hr'. apply fresh in Hr'. lia. }
  destruct H as [Hs Hcs Hsq Hb Hn Hids Hdr Hix Ht]. split; simpl; rewrite ?map_app; simpl.
  - apply Forall_app. split; [done|by constructor].
  - apply Forall_app. split; [done|by constructor].
  - rewrite Hq. apply StronglySorted_snoc; [done|]. apply Forall_fmap. eapply Forall_impl; [exact Hb|]. simpl. lia.
  - apply Forall_app. split; [eapply Forall_impl; [exact Hb|]; simpl; lia|]. constructor; [lia|done].
  - lia.
  - apply NoDup_app. split_and!; [done| |apply NoDup_singleton].
    intros x Hx ->%list_elem_of_singleton. done.
  - apply Forall_app. split; [|constructor; [by exists d; split; [lia|]|done]].
    eapply Forall_impl; [exact Hdr|]. intros x (n & ? & ?). exists n. split; [lia|done].
  - intros i p. rewrite lookup_insert_Some, Hix. split.
    + intros [[<- <-]|[Hne (r' & Hr' & Hi)]].
      * exists r. by rewrite list_lookup_middle.
      * exists r'. split; [|done]. by apply lookup_app_l_Some.
    + intros (r' & [Hr'|[Hlen Hr']]%lookup_app_Some & Hi).
      * right. split; [|by exists r']. intros Hri. apply Hfresh. rewrite Hri, <- Hi. apply list_elem_of_fmap.
        exists r'. split; [done|]. by eapply list_elem_of_lookup_2.
      * left. destruct (p - length (session_records st))%nat as [|n] eqn:E; [|done].
        injection Hr' as ->. split; [done|lia].
  - rewrite Ht, sum_Z_app. simpl. lia.
Qed.

(** ** Compaction *)

Lemma boundary_from_spec l keep seen :
  0 <= seen <= keep ->
  let b := boundary_from l keep seen in
  let n := Z.of_nat (length (List.filter negb (take (length l - b) l))) in
  (b <= length l)%nat /\ seen + n <= keep /\
  (b = 0%nat \/ (seen + n = keep /\ l !! (length l - b)%nat = Some false)).
Proof using.
  revert seen. induction l as [|[] l IH]; intros seen Hs; simpl.
  - split_and!; [lia|lia|by left].
  - destruct (IH seen Hs) as (Hb & Hn & He). rewrite Nat.sub_succ_l by done. simpl. split_and!; [lia|done|done].
  - destruct (Z.ltb_spec keep (seen + 1)).
    + rewrite Nat.sub_diag. simpl. split_and!; [lia|lia|right]. split; [lia|done].
    + destruct (IH (seen + 1) ltac:(lia)) as (Hb & Hn & He). rewrite Nat.sub_succ_l by done. simpl. split_and!; [lia|lia|].
      destruct He as [->|[He Hl]]; [by left|right]. split; [lia|done].
Qed.

(** The newest [keep] records that are not pinned stay, and one more would not. *)
Lemma compaction_boundary_spec (pinned : list bool) keep :
  0 <= keep ->
  let b := compaction_boundary pinned keep in
  let kept := Z.of_nat (length (List.filter negb (drop b pinned))) in
  (b <= length pinned)%nat /\ kept <= keep /\
  (b = 0%nat \/ (kept = keep /\ pinned !! pred b = Some false)).
Proof using.
  intros Hk. unfold compaction_boundary. destruct (boundary_from_spec (reverse pinned) keep 0 ltac:(lia)) as (Hb & Hn & He).
  set (b := boundary_from _ _ _) in *. rewrite length_reverse in *. rewrite take_reverse, filter_reverse, length_reverse in *.
  replace (length pinned - (length pinned - b))%nat with b in * by lia. simpl. split_and!; [done|lia|].
  destruct He as [->|[He Hl]]; [by left|right]. split; [lia|]. apply reverse_lookup_Some in Hl as [Hl Hlt].
  rewrite <- Hl. f_equal. lia.
Qed.

Lemma compacted_sublist b l : compacted b l `sublist_of` l.
Proof using.
  unfold compacted. rewrite <- (take_drop b l) at 3. apply sublist_app; [apply filter_sublist|done].
Qed.

Lemma index_from_spec m n l i p :
  NoDup (map record_id l) -> (forall r, r ∈ l -> m !! record_id r = None) ->
  index_from m n l !! i = Some p <->
  m !! i = Some p \/ (n <= p)%nat /\ exists r, l !! (p - n)%nat = Some r /\ record_id r = i.
Proof using.
  revert m n. induction l as [|r l IH]; intros m n Hnd Hm; simpl.
  { split; [by left|]. intros [H|(_ & r & Hr & _)]; [done|by rewrite lookup_nil in Hr]. }
  simpl in Hnd. apply NoDup_cons in Hnd as [Hr Hnd]. rewrite IH; [|done|].
  2: { intros r' Hr'. rewrite lookup_insert_ne; [by apply Hm; right|]. intros E. apply Hr, list_elem_of_fmap. by exists r'. }
  rewrite lookup_insert_Some. split.
  - intros [[[<- <-]|[_ H]]|(Hle & r' & Hr' & Hi)]; [right|by left|right].
    + rewrite Nat.sub_diag. split; [done|]. by exists r.
    + split; [lia|]. exists r'. split; [|done]. by replace (p - n)%nat with (S (p - S n)) by lia.
  - intros [H|(Hle & r' & Hr' & Hi)].
    + left. right. split; [|done]. intros <-. rewrite Hm in H; [done|by left].
    + destruct (p - n)%nat as [|q] eqn:E; simpl in Hr'.
      * left. left. injection Hr' as <-. split; [done|lia].
      * right. split; [lia|]. exists r'. split; [|done]. by replace (p - S n)%nat with q by lia.
Qed.

Lemma compacted_tokens b l :
  Forall (fun r => 0 <= record_tokens r) l ->
  sat_sub (sum_Z (map record_tokens l)) (sum_Z (map record_tokens (compacted_away b l))) = sum_Z (map record_tokens (compacted b l)).
Proof using.
  intros Hl. assert (Hs : sum_Z (map record_tokens l) =
    sum_Z (map record_tokens (compacted_away b l)) + sum_Z (map record_tokens (compacted b l))).
  { unfold compacted, compacted_away. rewrite <- (take_drop b l) at 1. rewrite !map_app, !sum_Z_app.
    induction (take b l) as [|r k IH]; simpl; [lia|]. destruct (record_pinned r); simpl; lia. }
  assert (0 <= sum_Z (map record_tokens (compacted b l))); [|int_lia].
  apply sum_Z_nonneg, Forall_fmap. eapply Forall_sublist; [exact Hl|apply compacted_sublist].
Qed.

Lemma counted_nonneg l : Forall counted l -> Forall (fun r => 0 <= record_tokens r) l.
Proof using TL. intros Hl. eapply Forall_impl; [exact Hl|]. intros r ->. apply count_message_nonneg. Qed.

(** ** Every operation keeps it *)

Lemma wf_compact d k b st : well_formed d k st -> well_formed d k (compact_state b st).
Proof.
  intros H. destruct H as [Hs Hcs Hsq Hb Hn Hids Hdr Hix Ht]. pose proof (compacted_sublist b (session_records st)) as Hsub.
  assert (Hids' : NoDup (map record_id (compacted b (session_records st)))).
  { eapply sublist_NoDup; [exact Hids|]. by apply (fmap_sublist _). }
  split; simpl; try (eapply Forall_sublist; [|exact Hsub]; done); try done.
  - eapply StronglySorted_sublist; [|exact Hsq]. by apply (fmap_sublist _).
  - intros i p. rewrite index_from_spec; [|done|done]. rewrite lookup_empty, Nat.sub_0_r. split.
    + by intros [[=]|[_ Hr]].
    + intros Hr. right. split; [lia|done].
  - rewrite Ht. by apply compacted_tokens, counted_nonneg.
Qed.

Lemma serve_keeps request cx now s s' r :
  store_well_formed s -> serve ContextId_new max_records events request cx now s = (s', r) ->
  store_well_formed s' /\ (ids_drawn s <= ids_drawn s')%nat.
Proof.
  intros Hs. assert (Hsame : s' = s -> store_well_formed s' /\ (ids_drawn s <= ids_drawn s')%nat) by (by intros ->).
  assert (Hread : forall session, match sessions s !! session with None => True | Some st => well_formed (ids_drawn s) session st end).
  { intros session. destruct (sessions s !! session) eqn:E; [by apply Hs|done]. }
  destruct request as [k entry|k id|k budget|k|k| |k keep|cutoff]; simpl; unfold answer; unfold bind at 1.
  - destruct (append _ _ _ _ _ _ s) as [s1 r1] eqn:E. apply append_run in E.
    destruct (check_append _ _ _ _); [|destruct E as [-> ->]; by intros [= <- _]]. destruct E as [-> ->].
    intros [= <- _]. simpl. split; [|lia]. apply map_Forall_insert_2.
    + apply wf_append; try done. specialize (Hread k). destruct (sessions s !! k); simpl; [done|apply wf_empty].
    + intros k' st' Hst. eapply wf_more; [|by apply Hs]. simpl. lia.
  - unfold get, bind at 1. rewrite session_for_run. destruct (sessions s !! k); simpl; [destruct (authorize _ _ _)|]; intros [= <- _]; by apply Hsame.
  - unfold window, bind at 1. rewrite session_for_run. destruct (sessions s !! k); simpl; [destruct (authorize _ _ _)|]; intros [= <- _]; try by apply Hsame.
    split; [done|]. simpl. lia.
  - unfold stats, bind at 1. rewrite session_for_run. destruct (sessions s !! k); simpl; [destruct (authorize _ _ _)|]; intros [= <- _]; by apply Hsame.
  - unfold clear, bind at 1. rewrite session_for_run. destruct (sessions s !! k); simpl; [destruct (authorize _ _ _)|]; intros [= <- _]; try by apply Hsame.
    split; [|simpl; lia]. by apply map_Forall_delete.
  - intros [= <- _]. by apply Hsame.
  - unfold compact, bind at 1. rewrite session_for_run. specialize (Hread k). destruct (sessions s !! k) as [st|]; simpl; [destruct (authorize _ _ _)|];
      try (intros [= <- _]; by apply Hsame). simpl.
    destruct (_ =? 0)%nat; intros [= <- _]; [by apply Hsame|]. split; [|simpl; lia].
    apply map_Forall_insert_2; [by apply wf_compact|done].
  - intros [= <- _]. split; [|simpl; lia]. intros k st Hst. simpl in Hst. apply map_lookup_filter_Some in Hst as [Hst _]. by apply Hs.
Qed.
End Invariant.

(** ** An example *)

(** Alice's session, and Mallory asking for it. *)
Definition mallory : ExecutionContext :=
  {| correlation := "c"; principal := Some (Principal_new "mallory" User); deadline := None; cancellation := false; attributes := [] |}.

Definition alices : InMemoryContextStore :=
  {| sessions := {[ "s1" := empty_session (Principal_new "alice" User) 3 ]}; ids_drawn := 0; published := [] |}.

Lemma conversations_are_private_witness :
  let request := Window "s1" {| max_tokens := None; max_records := None; max_part_tokens := None |} in
  let (s', r) := serve (H := HeuristicTokenCounter 4 (fun _ => "{}")) (fun n => pretty n) 10 true request mallory 9 alices in
  s' = alices /\ r = Err (PermissionDenied "context session `s1` belongs to `alice`, not to `mallory`").
Proof.
  cbv zeta. destruct (serve _ _ _ _ _ _ alices) as [s' r] eqn:E.
  destruct (conversations_are_private (T := HeuristicTokenCounter 4 (fun _ => "{}")) (fun n => pretty n) 10 true _ _ _ _ _ _ "s1"
    (empty_session (Principal_new "alice" User) 3) E ltac:(vm_compute; reflexivity) ltac:(vm_compute; reflexivity)) as [H _].
  exact (H eq_refl).
Defined.
