(* ===== verification/ContextRedb.v ===== *)
(** * ContextRedb: conversations kept on disk

    [crates/context/src/persistent.rs]: the same operations as [ContextStore], over five tables
    of an embedded database, each one a transaction of [Store].  A row is the value its bytes
    decode to: [serde_json] reads back what it wrote, and a [RecordSummary] is three fields of
    the record it is decoded from. *)

From S2P Require Import Prelude Base Store Window ContextStore.

(** ** Rows and tables *)

Record SessionHeader := {
  h_owner : PrincipalId;
  h_created_at : Timestamp;
  h_updated_at : Timestamp;
  h_next_sequence : Z;
  h_records : Z;
  h_tokens : Z;
}.

Record StoredRecord := {
  sr_id : ContextId;
  sr_message : Message;
  sr_pinned : bool;
  sr_principal : PrincipalId;
  sr_created_at : Timestamp;
  sr_tokens : Z;
}.

(** [StoredRecord::into_record] *)
Definition into_record (self : StoredRecord) (session : SessionId) (sequence : Z) : ContextRecord :=
  {| record_id := sr_id self; record_session := session; record_sequence := sequence; record_message := sr_message self;
     record_pinned := sr_pinned self; record_principal := sr_principal self; record_created_at := sr_created_at self;
     record_tokens := sr_tokens self |}.

(** [SESSIONS], [RECORDS], [RECORD_IDS], [BY_OWNER] and [BY_UPDATED]. *)
Record ContextTables := {
  SESSIONS : gmap SessionId SessionHeader;
  RECORDS : gmap (SessionId * Z) StoredRecord;
  RECORD_IDS : gmap (SessionId * ContextId) Z;
  BY_OWNER : gset (PrincipalId * SessionId);
  BY_UPDATED : gset (Timestamp * SessionId);
}.

Definition set_sessions f t := {| SESSIONS := f (SESSIONS t); RECORDS := RECORDS t; RECORD_IDS := RECORD_IDS t;
  BY_OWNER := BY_OWNER t; BY_UPDATED := BY_UPDATED t |}.
Definition set_records f t := {| SESSIONS := SESSIONS t; RECORDS := f (RECORDS t); RECORD_IDS := RECORD_IDS t;
  BY_OWNER := BY_OWNER t; BY_UPDATED := BY_UPDATED t |}.
Definition set_ids f t := {| SESSIONS := SESSIONS t; RECORDS := RECORDS t; RECORD_IDS := f (RECORD_IDS t);
  BY_OWNER := BY_OWNER t; BY_UPDATED := BY_UPDATED t |}.
Definition set_by_owner f t := {| SESSIONS := SESSIONS t; RECORDS := RECORDS t; RECORD_IDS := RECORD_IDS t;
  BY_OWNER := f (BY_OWNER t); BY_UPDATED := BY_UPDATED t |}.
Definition set_by_updated f t := {| SESSIONS := SESSIONS t; RECORDS := RECORDS t; RECORD_IDS := RECORD_IDS t;
  BY_OWNER := BY_OWNER t; BY_UPDATED := f (BY_UPDATED t) |}.

Definition no_tables : ContextTables :=
  {| SESSIONS := ∅; RECORDS := ∅; RECORD_IDS := ∅; BY_OWNER := ∅; BY_UPDATED := ∅ |}.

Definition header_stats (session : SessionId) (header : SessionHeader) : ContextStats :=
  {| stats_session := session; stats_owner := h_owner header; stats_records := h_records header;
     stats_tokens := h_tokens header; stats_created_at := h_created_at header; stats_updated_at := h_updated_at header |}.

(** [table.range(record_range(key))]: a session's rows, in the order of their keys. *)
Definition sequence_le (a b : Z * StoredRecord) : Prop := fst a <= fst b.
#[export] Instance sequence_le_dec : RelDecision sequence_le.
Proof. intros a b. unfold sequence_le. apply _. Defined.

Definition session_rows (session : SessionId) (t : ContextTables) : list (Z * StoredRecord) :=
  merge_sort sequence_le
    (omap (fun p => if decide (fst (fst p) = session) then Some (snd (fst p), snd p) else None) (map_to_list (RECORDS t))).

(** [by_owner.range(owner_range(owner))]: an owner's sessions, in the order of their ids. *)
Definition string_le (a b : string) : Prop := String.leb a b = true.
#[export] Instance string_le_dec : RelDecision string_le.
Proof. intros a b. unfold string_le. apply _. Defined.

Definition owned_sessions (owner : PrincipalId) (t : ContextTables) : list SessionId :=
  merge_sort string_le
    (omap (fun p => if decide (fst p = owner) then Some (snd p) else None) (elements (BY_OWNER t))).

(** [by_updated.range(..=(cutoff, u128::MAX))], up to [limit] entries of it. *)
Definition updated_le (a b : Timestamp * SessionId) : Prop :=
  fst a < fst b \/ (fst a = fst b /\ String.leb (snd a) (snd b) = true).
#[export] Instance updated_le_dec : RelDecision updated_le.
Proof. intros a b. unfold updated_le. apply _. Defined.

Definition stale_entries (cutoff : Timestamp) (limit : nat) (t : ContextTables) : list (Timestamp * SessionId) :=
  take limit (merge_sort updated_le (filter (fun p => fst p <= cutoff) (elements (BY_UPDATED t)))).

(** ** Operations *)

Abbreviation M := (action (Db ContextTables) Error).

Definition open_table (what : string) : M unit := io ("opening the context " +:+ what +:+ " table").

Definition read_header (key : SessionId) : M (option SessionHeader) :=
  io "reading a context session" ;! reads (fun t => SESSIONS t !! key).

Section Redb.
  Context `{TokenCounter} (ContextId_new : nat -> ContextId).
  Context (max_records : Z) (retention_batch : nat).

(** A new session's header, or the one there is if [principal] may write to it. *)
Definition header_for (session : SessionId) (existing : option SessionHeader) (principal : Principal) (now : Timestamp) :
    Result SessionHeader :=
  match existing with
  | Some header => let? _ := authorize session (h_owner header) principal in Ok header
  | None => Ok {| h_owner := principal_id principal; h_created_at := now; h_updated_at := now; h_next_sequence := 0;
                  h_records := 0; h_tokens := 0 |}
  end.

Definition header_after (header : SessionHeader) (count : Z) (now : Timestamp) : SessionHeader :=
  {| h_owner := h_owner header; h_created_at := h_created_at header; h_updated_at := now;
     h_next_sequence := h_next_sequence header + 1; h_records := h_records header + 1; h_tokens := h_tokens header + count |}.

Definition is_some {A} (o : option A) : bool := match o with Some _ => true | None => false end.

Definition append_blocking (session : SessionId) (entry : ContextEntry) (principal : Principal) (now : Timestamp) :
    M ContextRecord :=
  let count := count_message (entry_message entry) in
  write_transaction "beginning a context append" "committing a context append" (
    open_table "session" ;!
    let! existing := read_header session in
    let! header := lift (header_for session existing principal now) in
    if max_records <=? h_records header then throw (full_error session max_records)
    else
      let sequence := h_next_sequence header in
      let! id := draw ContextId_new in
      let stored := {| sr_id := id; sr_message := entry_message entry; sr_pinned := entry_pinned entry;
                       sr_principal := principal_id principal; sr_created_at := now; sr_tokens := count |} in
      open_table "record" ;!
      io "writing a context record" ;!
      writes (set_records <[(session, sequence) := stored]>) ;!
      open_table "record index" ;!
      io "indexing a context record" ;!
      writes (set_ids <[(session, id) := sequence]>) ;!
      let previously_updated := h_updated_at header in
      let header := header_after header count now in
      io "updating a context session" ;!
      writes (set_sessions <[session := header]>) ;!
      (if is_some existing then ret tt
       else open_table "owner index" ;!
            io "indexing a context session by owner" ;!
            writes (set_by_owner (fun s => {[(h_owner header, session)]} ∪ s))) ;!
      open_table "updated index" ;!
      (if is_some existing && negb (previously_updated =? now)
       then io "moving a context updated index entry" ;!
            writes (set_by_updated (fun s => s ∖ {[(previously_updated, session)]}))
       else ret tt) ;!
      io "indexing a context session by idle time" ;!
      writes (set_by_updated (fun s => {[(now, session)]} ∪ s)) ;!
      ret (Committing (into_record stored session sequence))).

(** The header a read starts from, once its owner has been asked about. *)
Definition header_read (beginning : string) (session : SessionId) (principal : Principal) : M (option SessionHeader) :=
  io beginning ;!
  open_table "session" ;!
  let! found := read_header session in
  match found with
  | None => ret None
  | Some header => lift (authorize session (h_owner header) principal) ;! ret (Some header)
  end.

Definition dangling_record (session : SessionId) (id : ContextId) (sequence : Z) : Error :=
  Error_other ("context session `" +:+ session +:+ "` indexes record `" +:+ id +:+ "` at sequence " +:+ fmt_u sequence
               +:+ ", but no record is stored there").

Definition get_blocking (session : SessionId) (id : ContextId) (principal : Principal) : M (option ContextRecord) :=
  let! found := header_read "beginning a context read" session principal in
  match found with
  | None => ret None
  | Some _ =>
      open_table "record index" ;!
      io "reading the context record index" ;!
      let! sequence := reads (fun t => RECORD_IDS t !! (session, id)) in
      match sequence with
      | None => ret None
      | Some sequence =>
          open_table "record" ;!
          io "reading a context record" ;!
          let! stored := reads (fun t => RECORDS t !! (session, sequence)) in
          match stored with
          | None => throw (dangling_record session id sequence)
          | Some stored => ret (Some (into_record stored session sequence))
          end
      end
  end.

(** A scan reports a failure at its start or at any row; each row is a call. *)
Definition scan {A} (scanning reading : string) (rows : list A) : M (list A) :=
  io scanning ;! for_each (fun _ => io reading) rows ;! ret rows.

Definition read_session_blocking (session : SessionId) (principal : Principal) : M (option (list ContextRecord)) :=
  let! found := header_read "beginning a context read" session principal in
  match found with
  | None => ret None
  | Some _ =>
      open_table "record" ;!
      let! rows := reads (session_rows session) in
      let! rows := scan "scanning a context session" "reading a context record" rows in
      ret (Some (map (fun p => into_record (snd p) session (fst p)) rows))
  end.

Definition stats_blocking (session : SessionId) (principal : Principal) : M (option ContextStats) :=
  let! found := header_read "beginning a context read" session principal in
  match found with
  | None => ret None
  | Some header => ret (Some (header_stats session header))
  end.

Definition remove_session_rows (key : SessionId) (header : SessionHeader) : M unit :=
  open_table "record" ;!
  io "removing a context session's records" ;!
  writes (set_records (filter (fun p => fst (fst p) <> key))) ;!
  open_table "record index" ;!
  io "removing a context session's record index" ;!
  writes (set_ids (filter (fun p => fst (fst p) <> key))) ;!
  open_table "owner index" ;!
  io "removing a context owner index entry" ;!
  writes (set_by_owner (fun s => s ∖ {[(h_owner header, key)]})) ;!
  open_table "updated index" ;!
  io "removing a context updated index entry" ;!
  writes (set_by_updated (fun s => s ∖ {[(h_updated_at header, key)]})).

Definition clear_blocking (session : SessionId) (principal : Principal) : M Z :=
  write_transaction "beginning a context clear" "committing a context clear" (
    open_table "session" ;!
    let! found := read_header session in
    match found with
    | None => ret (Dropping 0)
    | Some header =>
        lift (authorize session (h_owner header) principal) ;!
        io "removing a context session" ;!
        writes (set_sessions (delete session)) ;!
        remove_session_rows session header ;!
        ret (Committing (h_records header))
    end).

Definition accessible_owners (principal : Principal) : list PrincipalId :=
  principal_id principal ::
  match on_behalf_of principal with
  | Some delegator => if decide (delegator = principal_id principal) then [] else [delegator]
  | None => []
  end.

Definition dangling_owner (session : SessionId) (owner : PrincipalId) : Error :=
  Error_other ("the context owner index names session `" +:+ session +:+ "` under owner `" +:+ owner
               +:+ "`, but no session is stored under that id").

(** The sessions of one owner that [principal] may see. *)
Fixpoint list_owned (principal : Principal) (owner : PrincipalId) (keys : list SessionId) : M (list ContextStats) :=
  match keys with
  | [] => ret []
  | session :: keys =>
      io "reading the context owner index" ;!
      let! found := read_header session in
      match found with
      | None => throw (dangling_owner session owner)
      | Some header =>
          let! rest := list_owned principal owner keys in
          ret (if may_act_for principal (h_owner header) then header_stats session header :: rest else rest)
      end
  end.

Fixpoint list_owners (principal : Principal) (owners : list PrincipalId) : M (list ContextStats) :=
  match owners with
  | [] => ret []
  | owner :: owners =>
      io "scanning the context owner index" ;!
      let! keys := reads (owned_sessions owner) in
      let! listed := list_owned principal owner keys in
      let! rest := list_owners principal owners in
      ret (listed ++ rest)
  end.

Definition sessions_blocking (principal : Principal) : M (list ContextStats) :=
  io "beginning a context session listing" ;!
  open_table "session" ;!
  open_table "owner index" ;!
  let! listed := list_owners principal (accessible_owners principal) in
  ret (sort_sessions listed).

Definition remove_doomed (session : SessionId) (p : Z * StoredRecord) : M unit :=
  io "removing a compacted context record" ;!
  writes (set_records (delete (session, fst p))) ;!
  io "removing a compacted context record index entry" ;!
  writes (set_ids (delete (session, sr_id (snd p)))).

Definition compact_blocking (session : SessionId) (keep : Z) (principal : Principal) : M Z :=
  write_transaction "beginning a context compaction" "committing a context compaction" (
    open_table "session" ;!
    let! found := read_header session in
    match found with
    | None => ret (Dropping 0)
    | Some header =>
        lift (authorize session (h_owner header) principal) ;!
        open_table "record" ;!
        let! rows := reads (session_rows session) in
        let! summaries := scan "scanning a context session" "reading a context record" rows in
        let boundary := compaction_boundary (map (fun p => sr_pinned (snd p)) summaries) keep in
        if (boundary =? 0)%nat then ret (Dropping 0)
        else
          let doomed := List.filter (fun p => negb (sr_pinned (snd p))) (take boundary summaries) in
          if bool_decide (doomed = []) then ret (Dropping 0)
          else
            let reclaimed := sum_Z (map (fun p => sr_tokens (snd p)) doomed) in
            open_table "record" ;!
            open_table "record index" ;!
            for_each (remove_doomed session) doomed ;!
            let count := Z.of_nat (length doomed) in
            io "updating a context session" ;!
            writes (set_sessions <[session :=
              {| h_owner := h_owner header; h_created_at := h_created_at header; h_updated_at := h_updated_at header;
                 h_next_sequence := h_next_sequence header; h_records := sat_sub (h_records header) count;
                 h_tokens := sat_sub (h_tokens header) reclaimed |}]>) ;!
            ret (Committing count)
    end).

Definition dangling_updated (session : SessionId) (updated : Timestamp) : Error :=
  Error_other ("the context updated index names session `" +:+ session +:+ "` at " +:+ fmt_u updated
               +:+ "ms, but no session is stored under that id").

Definition sweep_entry (p : Timestamp * SessionId) : M unit :=
  open_table "session" ;!
  io "removing a stale context session" ;!
  let! found := reads (fun t => SESSIONS t !! snd p) in
  writes (set_sessions (delete (snd p))) ;!
  match found with
  | None => throw (dangling_updated (snd p) (fst p))
  | Some header => remove_session_rows (snd p) header
  end.

Definition sweep_batch_blocking (cutoff : Timestamp) (limit : nat) : M nat :=
  write_transaction "beginning a context retention sweep" "committing a context retention sweep" (
    open_table "updated index" ;!
    io "scanning the context updated index" ;!
    let! due := reads (stale_entries cutoff limit) in
    for_each (fun _ => io "reading the context updated index") due ;!
    match due with
    | [] => ret (Dropping 0%nat)
    | _ => for_each sweep_entry due ;! ret (Committing (length due))
    end).

(** The loop over batches: it ends at the first that was not full; [None] is running out of turns. *)
Fixpoint sweep_loop (fuel : nat) (cutoff : Timestamp) (total : nat) : M (option nat) :=
  match fuel with
  | O => ret None
  | S fuel =>
      let! removed := sweep_batch_blocking cutoff retention_batch in
      if (removed <? retention_batch)%nat then ret (Some (total + removed)%nat)
      else sweep_loop fuel cutoff (total + removed)%nat
  end.

(** A batch that is full has removed a session at least: a turn for each, and one more. *)
Definition redb_sweep_stale (cutoff : Timestamp) : M (option nat) := fun s =>
  sweep_loop (S (size (SESSIONS (tables s)))) cutoff 0 s.

Definition wanted_owner (t : ContextTables) : gset (PrincipalId * SessionId) :=
  map_to_set (fun key header => (h_owner header, key)) (SESSIONS t).
Definition wanted_updated (t : ContextTables) : gset (Timestamp * SessionId) :=
  map_to_set (fun key header => (h_updated_at header, key)) (SESSIONS t).

Definition reconcile_indexes : M unit :=
  open_table "session" ;!
  let! headers := reads (fun t => map_to_list (SESSIONS t)) in
  scan "scanning the context session table" "reading a context session" headers ;!
  let! wanted_o := reads wanted_owner in
  let! wanted_u := reads wanted_updated in
  open_table "owner index" ;!
  let! present := reads BY_OWNER in
  scan "scanning the context owner index" "reading the context owner index" (elements present) ;!
  for_each (fun p => io "removing a stale context owner index entry" ;! writes (set_by_owner (fun s => s ∖ {[p]})))
    (elements (present ∖ wanted_o)) ;!
  for_each (fun p => io "restoring a context owner index entry" ;! writes (set_by_owner (fun s => {[p]} ∪ s)))
    (elements (wanted_o ∖ present)) ;!
  open_table "updated index" ;!
  let! present := reads BY_UPDATED in
  scan "scanning the context updated index" "reading the context updated index" (elements present) ;!
  for_each (fun p => io "removing a stale context updated index entry" ;! writes (set_by_updated (fun s => s ∖ {[p]})))
    (elements (present ∖ wanted_u)) ;!
  for_each (fun p => io "restoring a context updated index entry" ;! writes (set_by_updated (fun s => {[p]} ∪ s)))
    (elements (wanted_u ∖ present)).

Definition open_tables : M unit :=
  write_transaction "beginning the context schema transaction" "committing the context schema" (
    io "creating the context record table" ;!
    io "creating the context record index" ;!
    reconcile_indexes ;!
    ret (Committing tt)).
End Redb.

(** ** The store *)

(** The database, and what was published. *)
Record RedbContextStore := {
  db : Db ContextTables;
  redb_published : list ContextAssembled;
}.

Section Serve.
  Context `{TokenCounter} (ContextId_new : nat -> ContextId).
  Context (max_records : Z) (retention_batch : nat) (events : bool).

(** An operation that only touches the database. *)
Definition on_db {A} (f : A -> Response) (m : M A) (s : RedbContextStore) : RedbContextStore * option (Result Response) :=
  let (d, r) := m (db s) in ({| db := d; redb_published := redb_published s |}, Some (result_map f r)).

(** [window]: the records are read on the blocking thread; what was assembled is then reported. *)
Definition redb_window (session : SessionId) (budget : ContextBudget) (cx : ExecutionContext) (now : Timestamp)
    (s : RedbContextStore) : RedbContextStore * option (Result Response) :=
  let (d, r) := read_session_blocking session (principal_or_system cx) (db s) in
  match r with
  | Ok (Some records) =>
      let window := assemble records budget in
      ({| db := d; redb_published := redb_published s ++ report events cx session now (usage window) |},
       Some (Ok (Assembled window)))
  | Ok None => ({| db := d; redb_published := redb_published s |}, Some (Ok (Assembled ContextWindow_empty)))
  | Err e => ({| db := d; redb_published := redb_published s |}, Some (Err e))
  end.

(** [None] is a sweep out of turns. *)
Definition redb_serve (request : Request) (cx : ExecutionContext) (now : Timestamp) (s : RedbContextStore) :
    RedbContextStore * option (Result Response) :=
  let principal := principal_or_system cx in
  match request with
  | Append session entry => on_db Appended (append_blocking ContextId_new max_records session entry principal now) s
  | Get session id => on_db Found (get_blocking session id principal) s
  | Window session budget => redb_window session budget cx now s
  | Stats session => on_db StatsAre (stats_blocking session principal) s
  | Clear session => on_db Removed (clear_blocking session principal) s
  | Sessions => on_db Listed (sessions_blocking principal) s
  | Compact session keep => on_db Removed (compact_blocking session keep principal) s
  | SweepStale cutoff =>
      let (d, r) := redb_sweep_stale retention_batch cutoff (db s) in
      ({| db := d; redb_published := redb_published s |},
       match r with
       | Ok (Some n) => Some (Ok (Removed (Z.of_nat n)))
       | Ok None => None
       | Err e => Some (Err e)
       end)
  end.
End Serve.

(** ** The tables of a store *)

Definition header_of (st : SessionState) : SessionHeader :=
  {| h_owner := owner st; h_created_at := created_at st; h_updated_at := updated_at st; h_next_sequence := next_sequence st;
     h_records := Z.of_nat (length (session_records st)); h_tokens := tokens st |}.

Definition stored_of (r : ContextRecord) : StoredRecord :=
  {| sr_id := record_id r; sr_message := record_message r; sr_pinned := record_pinned r; sr_principal := record_principal r;
     sr_created_at := record_created_at r; sr_tokens := record_tokens r |}.

Lemma into_stored r : into_record (stored_of r) (record_session r) (record_sequence r) = r.
Proof. by destruct r. Qed.

(** The tables that stand for the sessions [m]. *)
Record related (m : gmap SessionId SessionState) (t : ContextTables) : Prop := {
  rel_header k : SESSIONS t !! k = header_of <$> m !! k;
  rel_rows k q sr : RECORDS t !! (k, q) = Some sr <->
    exists st r, m !! k = Some st /\ r ∈ session_records st /\ record_sequence r = q /\ sr = stored_of r;
  rel_ids k i q : RECORD_IDS t !! (k, i) = Some q <->
    exists st r, m !! k = Some st /\ r ∈ session_records st /\ record_id r = i /\ record_sequence r = q;
  rel_owner o k : (o, k) ∈ BY_OWNER t <-> exists st, m !! k = Some st /\ owner st = o;
  rel_updated u k : (u, k) ∈ BY_UPDATED t <-> exists st, m !! k = Some st /\ updated_at st = u;
}.

Lemma related_empty : related ∅ no_tables.
Proof. split; intros; simpl; rewrite ?lookup_empty; split; try set_solver; naive_solver. Qed.

#[export] Instance sequence_le_trans : Transitive sequence_le.
Proof. intros a b c. unfold sequence_le. lia. Qed.
#[export] Instance sequence_le_total : Total sequence_le.
Proof. intros a b. unfold sequence_le. lia. Qed.
#[export] Instance string_le_trans : Transitive string_le.
Proof. intros a b c. apply leb_trans. Qed.
#[export] Instance string_le_total : Total string_le.
Proof. intros a b. apply String.leb_total. Qed.
#[export] Instance updated_le_trans : Transitive updated_le.
Proof. intros a b c [H|[H H']] [K|[K K']]; unfold updated_le; [left; lia..|right]. split; [lia|]. by eapply leb_trans. Qed.
#[export] Instance updated_le_total : Total updated_le.
Proof.
  intros a b. unfold updated_le. destruct (Z.lt_trichotomy (fst a) (fst b)) as [|[E|]]; [tauto| |tauto].
  destruct (String.leb_total (snd a) (snd b)); [left|right]; right; by split.
Qed.

Section Rows.
  Context {T : TokenCounter} (ContextId_new : nat -> ContextId).

Lemma rows_members k t p :
  p ∈ omap (fun p : (SessionId * Z) * StoredRecord => if decide (fst (fst p) = k) then Some (snd (fst p), snd p) else None)
        (map_to_list (RECORDS t))
  <-> RECORDS t !! (k, fst p) = Some (snd p).
Proof.
  rewrite list_elem_of_omap. split.
  - intros ([[k' q] sr] & Hin & Hf). apply elem_of_map_to_list in Hin. simpl in *. case_decide; [|done]. by injection Hf as <-; subst.
  - intros H. exists ((k, fst p), snd p). rewrite elem_of_map_to_list. simpl. rewrite decide_True by done. split; [done|by destruct p].
Qed.

(** A session's rows are its records, in order. *)
Lemma session_rows_related m t d k st :
  related m t -> m !! k = Some st -> well_formed ContextId_new d k st ->
  session_rows k t = map (fun r => (record_sequence r, stored_of r)) (session_records st).
Proof.
  intros Hr Hst Hwf. pose proof (wf_sequences _ _ _ _ Hwf) as Hseq. unfold session_rows. apply (merge_sort_members sequence_le).
  - apply NoDup_omap; [apply NoDup_map_to_list|]. intros [[k1 q1] s1] [[k2 q2] s2] b _ _. simpl.
    repeat case_decide; try done. intros [= <-] [= -> ->]. by subst.
  - clear -Hseq. induction (session_records st) as [|r l IH]; [constructor|]. simpl in *. inversion_clear Hseq as [|? ? Hl Hlt].
    apply NoDup_cons. split; [|by apply IH]. intros (r' & [= E _] & Hin)%list_elem_of_fmap.
    rewrite Forall_fmap, Forall_forall in Hlt. specialize (Hlt r' Hin). simpl in Hlt. lia.
  - intros [q sr]. rewrite rows_members, (rel_rows _ _ Hr), list_elem_of_fmap. simpl. split.
    + intros (st' & r & Hst' & Hin & <- & ->). assert (st' = st) as -> by congruence. by exists r.
    + intros (r & [= -> ->] & Hin). by exists st, r.
  - intros [q1 s1] [q2 s2]. rewrite !rows_members. unfold sequence_le. simpl. intros H1 H2 ? ?.
    assert (q1 = q2) as -> by lia. congruence.
  - clear -Hseq. induction (session_records st) as [|r l IH]; [constructor|]. simpl in *. inversion_clear Hseq as [|? ? Hl Hlt].
    constructor; [by apply IH|]. rewrite List.Forall_map in *. eapply Forall_impl; [exact Hlt|]. unfold sequence_le. simpl. lia.
Qed.
End Rows.

(** ** What each operation does to the tables *)

Lemma related_update m t t' k st' :
  related m t ->
  SESSIONS t' = <[k := header_of st']> (SESSIONS t) ->
  (forall j q sr, RECORDS t' !! (j, q) = Some sr <->
     if decide (j = k) then exists r, r ∈ session_records st' /\ record_sequence r = q /\ sr = stored_of r
     else RECORDS t !! (j, q) = Some sr) ->
  (forall j i q, RECORD_IDS t' !! (j, i) = Some q <->
     if decide (j = k) then exists r, r ∈ session_records st' /\ record_id r = i /\ record_sequence r = q
     else RECORD_IDS t !! (j, i) = Some q) ->
  (forall o j, (o, j) ∈ BY_OWNER t' <-> if decide (j = k) then owner st' = o else (o, j) ∈ BY_OWNER t) ->
  (forall u j, (u, j) ∈ BY_UPDATED t' <-> if decide (j = k) then updated_at st' = u else (u, j) ∈ BY_UPDATED t) ->
  related (<[k := st']> m) t'.
Proof.
  intros [Hh Hr Hi Ho Hu] Eh Er Ei Eo Eu. split.
  - intros j. rewrite Eh. destruct (decide (j = k)) as [->|Hj]; [by rewrite !lookup_insert_eq|by rewrite !lookup_insert_ne].
  - intros j q sr. rewrite Er. case_decide as Hj; [subst; rewrite lookup_insert_eq; naive_solver|by rewrite lookup_insert_ne].
  - intros j i q. rewrite Ei. case_decide as Hj; [subst; rewrite lookup_insert_eq; naive_solver|by rewrite lookup_insert_ne].
  - intros o j. rewrite Eo. case_decide as Hj; [subst; rewrite lookup_insert_eq; naive_solver|by rewrite lookup_insert_ne].
  - intros u j. rewrite Eu. case_decide as Hj; [subst; rewrite lookup_insert_eq; naive_solver|by rewrite lookup_insert_ne].
Qed.

Lemma header_of_append st r now : header_of (append_to st r now) = header_after (header_of st) (record_tokens r) now.
Proof. unfold header_of, header_after, append_to. simpl. f_equal. rewrite length_app. simpl. lia. Qed.

(** One more record in a session, new or not. *)
Lemma related_append m t t' k st r now :
  related m t -> m !! k = Some st \/ (m !! k = None /\ session_records st = []) ->
  record_sequence r ∉ map record_sequence (session_records st) -> record_id r ∉ map record_id (session_records st) ->
  SESSIONS t' = <[k := header_after (header_of st) (record_tokens r) now]> (SESSIONS t) ->
  RECORDS t' = <[(k, record_sequence r) := stored_of r]> (RECORDS t) ->
  RECORD_IDS t' = <[(k, record_id r) := record_sequence r]> (RECORD_IDS t) ->
  (forall o j, (o, j) ∈ BY_OWNER t' <-> if decide (j = k) then owner st = o else (o, j) ∈ BY_OWNER t) ->
  (forall u j, (u, j) ∈ BY_UPDATED t' <-> if decide (j = k) then now = u else (u, j) ∈ BY_UPDATED t) ->
  related (<[k := append_to st r now]> m) t'.
Proof.
  intros Hrel Hst Hseq Hid Eh Er Ei Eo Eu. pose proof Hrel as [Hh Hr Hi Ho Hu].
  assert (Hold : forall P : ContextRecord -> Prop, (exists st' x, m !! k = Some st' /\ x ∈ session_records st' /\ P x) <->
            exists x, x ∈ session_records st /\ P x).
  { intros P. destruct Hst as [Hst|[Hst He]]; rewrite Hst; [naive_solver|]. rewrite He. split; [naive_solver|].
    intros (x & Hx & _). by apply not_elem_of_nil in Hx. }
  apply (related_update _ t); [done|by rewrite header_of_append| | | |done].
  - intros j q sr. rewrite Er. case_decide as Hj; [subst|by rewrite lookup_insert_ne by congruence].
    rewrite lookup_insert_Some, Hr, Hold. simpl. setoid_rewrite elem_of_app. setoid_rewrite list_elem_of_singleton. split.
    + intros [([= <-] & <-)|[_ (x & Hx & <- & ->)]]; [exists r; naive_solver|exists x; naive_solver].
    + intros (x & [Hx| ->] & <- & ->); [right|by left]. split; [|by exists x].
      intros [= Hq]. apply Hseq. rewrite Hq. by apply list_elem_of_fmap_2.
  - intros j i q. rewrite Ei. case_decide as Hj; [subst|by rewrite lookup_insert_ne by congruence].
    rewrite lookup_insert_Some, Hi, Hold. simpl. setoid_rewrite elem_of_app. setoid_rewrite list_elem_of_singleton. split.
    + intros [([= <-] & <-)|[_ (x & Hx & <- & <-)]]; [exists r; naive_solver|exists x; naive_solver].
    + intros (x & [Hx| ->] & <- & <-); [right|by left]. split; [|by exists x].
      intros [= Hq]. apply Hid. rewrite Hq. by apply list_elem_of_fmap_2.
  - done.
Qed.

Definition removed (k : SessionId) (header : SessionHeader) (t : ContextTables) : ContextTables :=
  set_by_updated (fun s => s ∖ {[(h_updated_at header, k)]})
    (set_by_owner (fun s => s ∖ {[(h_owner header, k)]})
      (set_ids (filter (fun p => fst (fst p) <> k))
        (set_records (filter (fun p => fst (fst p) <> k))
          (set_sessions (delete k) t)))).

Lemma related_delete m t k st :
  related m t -> m !! k = Some st -> related (delete k m) (removed k (header_of st) t).
Proof.
  intros [Hh Hr Hi Ho Hu] Hst. split; simpl.
  - intros j. destruct (decide (j = k)) as [->|Hj]; [by rewrite !lookup_delete_eq|by rewrite !lookup_delete_ne].
  - intros j q sr. rewrite map_lookup_filter_Some, Hr. simpl. destruct (decide (j = k)) as [->|Hj]; [rewrite lookup_delete_eq; naive_solver|].
    rewrite lookup_delete_ne by done. naive_solver.
  - intros j i q. rewrite map_lookup_filter_Some, Hi. simpl. destruct (decide (j = k)) as [->|Hj]; [rewrite lookup_delete_eq; naive_solver|].
    rewrite lookup_delete_ne by done. naive_solver.
  - intros o j. rewrite elem_of_difference, Ho, elem_of_singleton. destruct (decide (j = k)) as [->|Hj];
      [rewrite lookup_delete_eq|rewrite lookup_delete_ne by done]; naive_solver.
  - intros o j. rewrite elem_of_difference, Hu, elem_of_singleton. destruct (decide (j = k)) as [->|Hj];
      [rewrite lookup_delete_eq|rewrite lookup_delete_ne by done]; naive_solver.
Qed.

(** ** The retention sweep *)

Section Sweep.
  Context (cutoff : Timestamp).

Definition all_stale (t : ContextTables) := merge_sort updated_le (filter (fun p => fst p <= cutoff) (elements (BY_UPDATED t))).
Definition live (m : gmap SessionId SessionState) := filter (fun p => cutoff < updated_at (snd p)) m.

(** An entry of a session that has been idle for too long. *)
Definition idle (m : gmap SessionId SessionState) (p : Timestamp * SessionId) : Prop :=
  exists st, m !! snd p = Some st /\ updated_at st = fst p /\ fst p <= cutoff.

Lemma all_stale_members m t p : related m t -> p ∈ all_stale t <-> idle m p.
Proof.
  intros Hrel. unfold all_stale. rewrite merge_sort_Permutation, list_elem_of_filter, elem_of_elements.
  destruct p as [u k]. rewrite (rel_updated _ _ Hrel). unfold idle. simpl. naive_solver.
Qed.

Lemma stale_NoDup m t limit : related m t -> NoDup (map snd (stale_entries cutoff limit t)).
Proof.
  intros Hrel. unfold stale_entries. fold (all_stale t). eapply sublist_NoDup; [|apply (fmap_sublist snd), sublist_take].
  apply (NoDup_map_map id).
  - rewrite map_id. unfold all_stale. rewrite merge_sort_Permutation. apply NoDup_filter, NoDup_elements.
  - intros [u k] [u' k'] Hx Hy E. simpl in E. subst. apply (all_stale_members _ _ _ Hrel) in Hx as (st & Hst & Hu & _).
    apply (all_stale_members _ _ _ Hrel) in Hy as (st' & Hst' & Hu' & _). simpl in *. congruence.
Qed.

Lemma sweep_entries_wp m due (s : Db ContextTables) (Q : ContextTables -> nat -> Result unit -> Prop) :
  related m (tables s) -> NoDup (map snd due) -> Forall (idle m) due ->
  (forall t, related (gone m due) t -> Q t (drawn s) (Ok tt)) -> wp (for_each sweep_entry due) s Q.
Proof.
  revert m s. induction due as [|[u k] due IH]; intros m s Hrel Hnd Hidle HQ; simpl in *; [by apply wp_ret, HQ|].
  apply NoDup_cons in Hnd as [Hk Hnd]. apply Forall_cons in Hidle as [(st & Hst & _) Hidle]. simpl in Hst.
  unfold sweep_entry, remove_session_rows, open_table. wp_run. simpl. rewrite (rel_header _ _ Hrel), Hst. simpl. wp_run.
  apply (IH (delete k m)).
  - wp_here. by apply related_delete.
  - done.
  - rewrite Forall_forall in *. intros p Hp. destruct (Hidle p Hp) as (st' & Hst' & ?). exists st'. split; [|done].
    rewrite lookup_delete_ne; [done|]. intros ->. apply Hk. by apply list_elem_of_fmap_2.
  - wp_here. done.
Qed.

Lemma idle_there m due : Forall (idle m) due -> Forall (fun p => is_Some (m !! snd p)) due.
Proof. intros H. eapply Forall_impl; [exact H|]. simpl. intros p (st & Hst & _). by exists st. Qed.

Lemma gone_live m due : Forall (idle m) due -> live (gone m due) = live m.
Proof.
  intros Hidle. apply map_eq. intros j. apply option_eq. intros st. unfold live. rewrite !map_lookup_filter_Some, gone_lookup.
  case_decide as Hj; [|done]. split; [by intros [? _]|]. intros [Hst Hlive]. apply list_elem_of_fmap in Hj as (p & -> & Hp).
  rewrite Forall_forall in Hidle. destruct (Hidle p Hp) as (st' & Hst' & E & ?). simpl in Hlive. assert (st' = st) as -> by congruence. lia.
Qed.

(** A batch that is not full has left only what is live. *)
Lemma gone_all m t limit :
  related m t -> (length (stale_entries cutoff limit t) < limit)%nat -> gone m (stale_entries cutoff limit t) = live m.
Proof.
  intros Hrel. unfold stale_entries. fold (all_stale t). rewrite length_take. intros Hlen. rewrite take_ge by lia.
  apply map_eq. intros j. apply option_eq. intros st. unfold live. rewrite map_lookup_filter_Some, gone_lookup. simpl.
  case_decide as Hj.
  - apply list_elem_of_fmap in Hj as (p & -> & Hp). apply (all_stale_members _ _ _ Hrel) in Hp as (st' & Hst' & ? & ?).
    split; [done|]. intros [Hst ?]. assert (st' = st) as -> by congruence. lia.
  - split; [|by intros [? _]]. intros Hst. split; [done|]. apply Z.lt_nge. intros Hle. apply Hj.
    apply list_elem_of_fmap. exists (updated_at st, j). split; [done|]. apply (all_stale_members _ _ _ Hrel). by exists st.
Qed.

Lemma sweep_batch_wp m limit (s : Db ContextTables) (Q : ContextTables -> nat -> Result nat -> Prop) :
  related m (tables s) -> let due := stale_entries cutoff limit (tables s) in
  (forall t, related (gone m due) t -> Q t (drawn s) (Ok (length due))) -> wp (sweep_batch_blocking cutoff limit) s Q.
Proof.
  intros Hrel due HQ. unfold sweep_batch_blocking, open_table. wp_run. fold due.
  apply (wp_for_each _ (fun _ t => t)); [intros x s' Q' HQ'; by wp_run|].
  rewrite foldl_id. wp_run. assert (Hdue : Forall (idle m) due).
  { apply (Forall_sublist _ _ (all_stale (tables s))); [|apply sublist_take]. apply Forall_forall. intros p.
    by apply all_stale_members. }
  pose proof (stale_NoDup m _ limit Hrel) as Hnd. fold due in Hnd. destruct due as [|p rest] eqn:E; [wp_run; by apply HQ|].
  wp_run. apply (sweep_entries_wp m); [by wp_here|done|done|]. wp_here. intros t Ht'. wp_run. by apply HQ.
Qed.

Lemma live_size m : (size (live m) <= size m)%nat.
Proof.
  unfold live. induction m as [|k st m Hk IH] using map_ind; [done|]. destruct (decide (cutoff < updated_at st)).
  - rewrite map_filter_insert_True by done. rewrite !map_size_insert_None; [lia|done|]. by apply map_lookup_filter_None_2; left.
  - rewrite map_filter_insert_False by done. rewrite delete_id by done. rewrite map_size_insert_None by done. lia.
Qed.

(** The batches add up to everything that is stale, whatever their size. *)
Lemma sweep_loop_wp batch fuel m total (s : Db ContextTables) (Q : ContextTables -> nat -> Result (option nat) -> Prop) :
  (0 < batch)%nat -> related m (tables s) -> (size m < fuel)%nat ->
  (forall t, related (live m) t -> Q t (drawn s) (Ok (Some (total + (size m - size (live m)))%nat))) ->
  wp (sweep_loop batch fuel cutoff total) s Q.
Proof.
  intros Hbatch. revert m total s. induction fuel as [|fuel IH]; intros m total s Hrel Hfuel HQ; [lia|]. simpl.
  apply wp_bind, (sweep_batch_wp m _ _ _ Hrel). intros t Hrel'. wp_state. set (due := stale_entries cutoff batch (tables s)) in *.
  assert (Hidle : Forall (idle m) due).
  { apply (Forall_sublist _ _ (all_stale (tables s))); [|apply sublist_take]. apply Forall_forall. intros p.
    by apply all_stale_members. }
  pose proof (gone_size m due (stale_NoDup m _ batch Hrel) (idle_there _ _ Hidle)) as Hsize. pose proof (gone_live m due Hidle) as Hlive.
  destruct (Nat.ltb_spec (length due) batch) as [Hlt|Hge].
  - wp_run. pose proof (gone_all m _ batch Hrel Hlt) as Hall. fold due in Hall. rewrite Hall in *.
    replace (total + length due)%nat with (total + (size m - size (live m)))%nat by lia. by apply HQ.
  - apply (IH (gone m due)); [by wp_here|lia|]. wp_here. intros t' Ht'. rewrite Hlive in *.
    replace (total + length due + (size (gone m due) - size (live m)))%nat with (total + (size m - size (live m)))%nat; [by apply HQ|].
    pose proof (live_size (gone m due)) as Hle. rewrite Hlive in Hle. lia.
Qed.
End Sweep.
(** ** Opening *)

Section Reconcile.
  Context {A : Type} `{Countable A}.
  (** An index, reached by [get] and changed by [set]. *)
  Context (get : ContextTables -> gset A) (set : (gset A -> gset A) -> ContextTables -> ContextTables).
  Hypothesis get_set : forall f t, get (set f t) = f (get t).
  Hypothesis set_set : forall f g t, set f (set g t) = set (fun s => f (g s)) t.
  Hypothesis set_get : forall t, set (fun _ => get t) t = t.
  Hypothesis set_ext : forall f g t, f (get t) = g (get t) -> set f t = set g t.

Lemma removing_all l t : foldl (fun t p => set (fun s => s ∖ {[p]}) t) t l = set (fun s => s ∖ list_to_set l) t.
Proof using Type*.
  revert t. induction l as [|p l IH]; intros t; simpl.
  - rewrite <- (set_get t) at 1. apply set_ext. set_solver.
  - rewrite IH, set_set. apply set_ext. set_solver.
Qed.

Lemma inserting_all l t : foldl (fun t p => set (fun s => {[p]} ∪ s) t) t l = set (fun s => list_to_set l ∪ s) t.
Proof using Type*.
  revert t. induction l as [|p l IH]; intros t; simpl.
  - rewrite <- (set_get t) at 1. apply set_ext. set_solver.
  - rewrite IH, set_set. apply set_ext. set_solver.
Qed.

(** Taking away what is not wanted and adding what is missing. *)
Lemma reconciled wanted t :
  foldl (fun t p => set (fun s => {[p]} ∪ s) t)
    (foldl (fun t p => set (fun s => s ∖ {[p]}) t) t (elements (get t ∖ wanted))) (elements (wanted ∖ get t))
  = set (fun _ => wanted) t.
Proof using Type*.
  rewrite removing_all, inserting_all, set_set. apply set_ext. rewrite !list_to_set_elements_L. apply leibniz_equiv.
  intros x. rewrite elem_of_union, !elem_of_difference. destruct (decide (x ∈ get t)), (decide (x ∈ wanted)); tauto.
Qed.
End Reconcile.

Lemma reconciled_owner wanted t :
  foldl (fun t p => set_by_owner (fun s => {[p]} ∪ s) t)
    (foldl (fun t p => set_by_owner (fun s => s ∖ {[p]}) t) t (elements (BY_OWNER t ∖ wanted))) (elements (wanted ∖ BY_OWNER t))
  = set_by_owner (fun _ => wanted) t.
Proof.
  apply (reconciled BY_OWNER set_by_owner); [by intros ??|by intros ???|by intros []|].
  intros f g [] E. unfold set_by_owner. simpl in *. by rewrite E.
Qed.

Lemma reconciled_updated wanted t :
  foldl (fun t p => set_by_updated (fun s => {[p]} ∪ s) t)
    (foldl (fun t p => set_by_updated (fun s => s ∖ {[p]}) t) t (elements (BY_UPDATED t ∖ wanted))) (elements (wanted ∖ BY_UPDATED t))
  = set_by_updated (fun _ => wanted) t.
Proof.
  apply (reconciled BY_UPDATED set_by_updated); [by intros ??|by intros ???|by intros []|].
  intros f g [] E. unfold set_by_updated. simpl in *. by rewrite E.
Qed.

(** Opening leaves the two indexes what the headers say, and the rest as it was. *)
Lemma open_tables_wp (s : Db ContextTables) (Q : ContextTables -> nat -> Result unit -> Prop) :
  let t := tables s in
  Q (set_by_updated (fun _ => wanted_updated t) (set_by_owner (fun _ => wanted_owner t) t)) (drawn s) (Ok tt) ->
  wp open_tables s Q.
Proof.
  intros t HQ. unfold open_tables, reconcile_indexes, open_table.
  assert (Hscan : forall {A} sc rd (rows : list A) s Q, Q (tables s) (drawn s) (Ok rows) -> wp (T := ContextTables) (scan sc rd rows) s Q).
  { clear. intros A sc rd rows s Q HQ. unfold scan. wp_run.
    apply (wp_for_each _ (fun _ t => t)); [intros x s' Q' HQ'; by wp_run|]. rewrite foldl_id. by wp_run. }
  wp_run. apply Hscan. wp_run. apply Hscan. wp_run.
  apply (wp_for_each _ (fun p => set_by_owner (fun s => s ∖ {[p]}))); [intros x s' Q' HQ'; by wp_run|]. wp_run.
  apply (wp_for_each _ (fun p => set_by_owner (fun s => {[p]} ∪ s))); [intros x s' Q' HQ'; by wp_run|]. wp_run.
  rewrite reconciled_owner. apply Hscan. wp_run.
  apply (wp_for_each _ (fun p => set_by_updated (fun s => s ∖ {[p]}))); [intros x s' Q' HQ'; by wp_run|]. wp_run.
  apply (wp_for_each _ (fun p => set_by_updated (fun s => {[p]} ∪ s))); [intros x s' Q' HQ'; by wp_run|]. wp_run.
  rewrite reconciled_owner, reconciled_updated. exact HQ.
Qed.

(** Tables whose rows are those of [m] are, once opened, the tables of [m], whatever their indexes said. *)
Lemma opened_related m t :
  (forall k, SESSIONS t !! k = header_of <$> m !! k) ->
  (forall k q sr, RECORDS t !! (k, q) = Some sr <->
     exists st r, m !! k = Some st /\ r ∈ session_records st /\ record_sequence r = q /\ sr = stored_of r) ->
  (forall k i q, RECORD_IDS t !! (k, i) = Some q <->
     exists st r, m !! k = Some st /\ r ∈ session_records st /\ record_id r = i /\ record_sequence r = q) ->
  related m (set_by_updated (fun _ => wanted_updated t) (set_by_owner (fun _ => wanted_owner t) t)).
Proof.
  intros Hh Hr Hi. split; simpl; try done.
  - intros o k. unfold wanted_owner. rewrite elem_of_map_to_set. setoid_rewrite Hh. setoid_rewrite fmap_Some. split.
    + intros (k' & h & (st & Hst & ->) & [= <- ->]). by exists st.
    + intros (st & Hst & <-). exists k, (header_of st). split; [by exists st|done].
  - intros u k. unfold wanted_updated. rewrite elem_of_map_to_set. setoid_rewrite Hh. setoid_rewrite fmap_Some. split.
    + intros (k' & h & (st & Hst & ->) & [= <- ->]). by exists st.
    + intros (st & Hst & <-). exists k, (header_of st). split; [by exists st|done].
Qed.

(** ** What compaction keeps *)

(** What stays is what is not taken away. *)
Lemma compacted_or_away b l (r : ContextRecord) :
  r ∈ l <-> r ∈ compacted b l \/ r ∈ compacted_away b l.
Proof.
  unfold compacted, compacted_away. rewrite <- (take_drop b l) at 1. rewrite !elem_of_app, !list_elem_of_In, !filter_In.
  destruct (record_pinned r); naive_solver.
Qed.

(** Records apart in their sequence numbers or identifiers. *)
Lemma kept_apart {B} b l (f : ContextRecord -> B) r x :
  NoDup (map f l) -> r ∈ compacted b l -> x ∈ compacted_away b l -> f r <> f x.
Proof.
  intros Hnd Hr Hx Heq. assert (r = x) as ->.
  { eapply (NoDup_map_inj f); [exact Hnd| | |exact Heq]; rewrite (compacted_or_away b l); tauto. }
  revert Hr Hx. unfold compacted, compacted_away. apply NoDup_fmap_1 in Hnd. rewrite <- (take_drop b l) in Hnd.
  apply NoDup_app in Hnd as (_ & Hd & _). rewrite elem_of_app, !list_elem_of_In, !filter_In, <- !list_elem_of_In.
  intros [[_ ->]|Hr] [Hx Hp]; [done|]. by eapply Hd.
Qed.

Section Simulation.
  Context {T : TokenCounter} {TL : TokenCounterLaws T} (ContextId_new : nat -> ContextId).
  Context {fresh : Inj eq eq ContextId_new}.
  Context (max_records : Z) (events : bool) (max_records_nonneg : 0 <= max_records).

#[local] Set Default Proof Using "Type*".

(** An operation on the tables against the one in memory: the same result and related states,
    unless the disk failed. *)
Definition simulates {A} (mem : action InMemoryContextStore Error A) (redb : M A) : Prop :=
  forall m s, store_well_formed ContextId_new m -> related (sessions m) (tables s) -> ids_drawn m = drawn s ->
    wp redb s (fun t d r => let (m', r') := mem m in r' = r /\ related (sessions m') t /\ ids_drawn m' = d).

Lemma header_lookup m t k : related m t -> SESSIONS t !! k = header_of <$> m !! k.
Proof. intros H. apply (rel_header _ _ H). Qed.

(** What a header lets through is what the session lets through. *)
Lemma header_for_check m t k p now :
  related m t ->
  match check_append max_records k (m !! k) p with
  | Err e => (let? header := header_for k (SESSIONS t !! k) p now in
              if max_records <=? h_records header then Err (full_error k max_records) else Ok header) = Err e
  | Ok _ => let st := default (empty_session p now) (m !! k) in
      header_for k (SESSIONS t !! k) p now = Ok (header_of st) /\ (max_records <=? h_records (header_of st)) = false
  end.
Proof.
  intros Hrel. rewrite (header_lookup _ _ k Hrel). destruct (m !! k) as [st|]; simpl.
  - destruct (authorize k (owner st) p); simpl; [|done]. destruct (max_records <=? _) eqn:E; simpl; by rewrite ?E.
  - destruct (Z.eqb_spec max_records 0) as [->|Hne]; simpl; [done|]. split; [done|]. apply Z.leb_gt. simpl. lia.
Qed.

(** The record an append is about to add is new to its session. *)
Lemma append_new m k p now st :
  store_well_formed ContextId_new m -> st = default (empty_session p now) (sessions m !! k) ->
  (next_sequence st ∉ map record_sequence (session_records st)) /\
  (ContextId_new (ids_drawn m) ∉ map record_id (session_records st)).
Proof.
  intros Hwf ->. destruct (sessions m !! k) as [st|] eqn:Hst; simpl; [|split; apply not_elem_of_nil].
  destruct (Hwf k st Hst) as [_ _ _ Hb _ _ Hd _ _]. rewrite Forall_forall in Hb, Hd. split.
  - intros (r & Hr & Hin)%list_elem_of_fmap. specialize (Hb r Hin). lia.
  - intros (r & Hr & Hin)%list_elem_of_fmap. destruct (Hd r Hin) as (n & Hn & E). rewrite E in Hr. apply fresh in Hr. lia.
Qed.

(** Membership of an index after an operation, from what its entries were. *)
Ltac index_entries Hrel :=
  intros; case_decide; subst;
  rewrite ?elem_of_union, ?elem_of_difference, ?elem_of_singleton, ?(rel_owner _ _ Hrel), ?(rel_updated _ _ Hrel);
  naive_solver.

Lemma append_simulates session entry cx now :
  simulates (append ContextId_new max_records session entry cx now)
    (append_blocking ContextId_new max_records session entry (principal_or_system cx) now).
Proof.
  intros m s Hwf Hrel Hdrawn. unfold append_blocking.
  destruct (append ContextId_new max_records session entry cx now m) as [m' r'] eqn:Em. apply append_run in Em.
  pose proof (header_for_check _ _ session (principal_or_system cx) now Hrel) as Hcheck.
  destruct (append_new m session (principal_or_system cx) now _ Hwf eq_refl) as [Hseq Hid].
  unfold open_table, read_header. wp_run.
  destruct (check_append max_records session (sessions m !! session) (principal_or_system cx)) as [[]|e].
  - destruct Hcheck as [-> Hfull], Em as [-> ->]. wp_run. rewrite Hfull. wp_run.
    rewrite (header_lookup _ _ session Hrel). destruct (sessions m !! session) as [st|] eqn:Hst; simpl in *; wp_run.
    + destruct (Z.eqb_spec (updated_at st) now); simpl; wp_run; rewrite <- Hdrawn; split_and!; try done;
        (eapply related_append; [exact Hrel|by left|done..| |]); simpl.
      all: index_entries Hrel.
    + rewrite <- Hdrawn. split_and!; [done| |done].
      eapply related_append; [exact Hrel|by right|done..| |]; simpl; index_entries Hrel.
  - destruct Em as [-> ->]. destruct (header_for _ _ _ _) as [h|]; simpl in Hcheck; [|by injection Hcheck as ->].
    wp_run. destruct (max_records <=? h_records h); [|done]. injection Hcheck as <-. by wp_run.
Qed.

(** Reading operations: the same session, or the same refusal. *)
Lemma header_read_sim b k cx m s (Q : ContextTables -> nat -> Result (option SessionHeader) -> Prop) :
  related (sessions m) (tables s) ->
  Q (tables s) (drawn s) (result_map (fmap header_of) (snd (session_for k cx m))) ->
  wp (header_read b k (principal_or_system cx)) s Q.
Proof.
  intros Hrel. rewrite session_for_run. unfold header_read, open_table, read_header. simpl. intros HQ. wp_run.
  rewrite (header_lookup _ _ k Hrel). destruct (sessions m !! k) as [st|]; simpl in *; wp_run; [|done].
  destruct (authorize k (owner st) (principal_or_system cx)); simpl in *; wp_run; done.
Qed.

(** Starts the simulation of an operation on an existing session. *)
Ltac sim_session op blocking :=
  let m' := fresh "m'" in let r' := fresh "r'" in let E := fresh "E" in
  intros m s Hwf Hrel Hdrawn;
  match goal with |- wp _ _ (fun t d r => let (m1, r1) := ?mem m in _) =>
    destruct (mem m) as [m' r'] eqn:E; unfold op, bind in E; rewrite session_for_run in E end;
  unfold blocking, open_table, read_header; apply wp_bind; apply (header_read_sim _ _ _ m); [done|];
  rewrite session_for_run; cbn [snd fst] in *;
  match goal with E : context [sessions m !! ?k] |- _ => destruct (sessions m !! k) as [st|] eqn:Hst end;
  simpl in *; [|by injection E as <- <-; wp_run];
  match goal with E : context [authorize ?k ?o ?p] |- _ => destruct (authorize k o p) end;
  simpl in *; [|by injection E as <- <-]; injection E as <- <-.

Lemma get_simulates k id cx : simulates (get k id cx) (get_blocking k id (principal_or_system cx)).
Proof.
  sim_session @get @get_blocking. wp_run. pose proof (Hwf k st Hst) as Hw.
  destruct (RECORD_IDS (tables s) !! (k, id)) as [q|] eqn:Eq; wp_run.
  - apply (rel_ids _ _ Hrel) in Eq as (st' & r & Hst' & Hin & <- & <-). assert (st' = st) as -> by congruence.
    assert (Er : RECORDS (tables s) !! (k, record_sequence r) = Some (stored_of r)).
    { apply (rel_rows _ _ Hrel). by exists st, r. }
    rewrite Er. wp_run. apply list_elem_of_lookup in Hin as [p Hp].
    assert (index st !! record_id r = Some p) as -> by (apply (wf_index _ _ _ _ Hw); by exists r). rewrite Hp.
    split_and!; [|done..]. do 2 f_equal. pose proof (wf_session _ _ _ _ Hw) as Hs. rewrite Forall_forall in Hs.
    rewrite <- (Hs r) by (by eapply list_elem_of_lookup_2). by rewrite into_stored.
  - split_and!; [|done..]. do 2 f_equal. destruct (index st !! id) as [p|] eqn:Ei; [|done].
    apply (wf_index _ _ _ _ Hw) in Ei as (r & Hr & <-).
    assert (RECORD_IDS (tables s) !! (k, record_id r) = Some (record_sequence r)); [|congruence].
    apply (rel_ids _ _ Hrel). exists st, r. split_and!; try done. by eapply list_elem_of_lookup_2.
Qed.

Lemma stats_simulates k cx : simulates (stats k cx) (stats_blocking k (principal_or_system cx)).
Proof. sim_session @stats @stats_blocking. by wp_run. Qed.

Lemma wp_scan {A} sc rd (rows : list A) (s : Db ContextTables) (Q : ContextTables -> nat -> Result (list A) -> Prop) :
  Q (tables s) (drawn s) (Ok rows) -> wp (scan sc rd rows) s Q.
Proof.
  clear. intros HQ. unfold scan. wp_run. apply (wp_for_each _ (fun _ t => t)).
  - intros x s' Q' HQ'. by apply wp_io.
  - rewrite foldl_id. by wp_run.
Qed.

(** The records a window is assembled from. *)
Definition read_session (k : SessionId) (cx : ExecutionContext) : action InMemoryContextStore Error (option (list ContextRecord)) :=
  let! found := session_for k cx in ret (session_records <$> found).

Lemma read_session_simulates k cx : simulates (read_session k cx) (read_session_blocking k (principal_or_system cx)).
Proof.
  sim_session @read_session @read_session_blocking. wp_run. apply wp_scan. wp_run. split_and!; [|done..].
  rewrite (session_rows_related ContextId_new _ _ _ _ _ Hrel Hst (Hwf k st Hst)), map_map. simpl. do 2 f_equal.
  pose proof (wf_session _ _ _ _ (Hwf k st Hst)) as Hs. induction Hs as [|r l Hr Hs IH]; simpl; [done|].
  rewrite <- IH. f_equal. by rewrite <- Hr, into_stored.
Qed.

(** ** Operations that change the tables *)

Lemma clear_simulates k cx : simulates (clear k cx) (clear_blocking k (principal_or_system cx)).
Proof.
  intros m s Hwf Hrel Hdrawn. destruct (clear k cx m) as [m' r'] eqn:E. unfold clear, bind in E. rewrite session_for_run in E.
  unfold clear_blocking, remove_session_rows, open_table, read_header. wp_run. rewrite (header_lookup _ _ k Hrel).
  destruct (sessions m !! k) as [st|] eqn:Hst; simpl in *; wp_run; [|by injection E as <- <-].
  destruct (authorize _ _ _); simpl in *; wp_run; injection E as <- <-; split_and!; try done.
  by apply related_delete.
Qed.

Section Compaction.
  Context (k : SessionId) (b : nat) (st : SessionState).

Let away := map (fun r => (record_sequence r, stored_of r)) (compacted_away b (session_records st)).

Definition doomed_away (t : ContextTables) : ContextTables :=
  foldl (fun t p => set_ids (delete (k, sr_id (snd p))) (set_records (delete (k, fst p)) t)) t away.

Lemma doomed_away_lookup t :
  let t' := doomed_away t in
  SESSIONS t' = SESSIONS t /\ BY_OWNER t' = BY_OWNER t /\ BY_UPDATED t' = BY_UPDATED t /\
  (forall j q, RECORDS t' !! (j, q) = if decide (j = k /\ q ∈ map record_sequence (compacted_away b (session_records st)))
     then None else RECORDS t !! (j, q)) /\
  (forall j i, RECORD_IDS t' !! (j, i) = if decide (j = k /\ i ∈ map record_id (compacted_away b (session_records st)))
     then None else RECORD_IDS t !! (j, i)).
Proof using.
  clear. unfold doomed_away, away. revert t. induction (compacted_away b (session_records st)) as [|r l IH]; intros t; simpl.
  { split_and!; try done; intros; rewrite decide_False; try done; intros [_ H]; by apply not_elem_of_nil in H. }
  destruct (IH (set_ids (delete (k, record_id r)) (set_records (delete (k, record_sequence r)) t))) as (-> & -> & -> & Hr & Hi).
  simpl. split_and!; try done.
  - intros j q. rewrite Hr. simpl. destruct (decide ((j, q) = (k, record_sequence r))) as [[= -> ->]|Hne].
    + rewrite lookup_delete_eq. rewrite (decide_True (P := k = k /\ _ ∈ _ :: _)) by (split; [done|by left]). by case_decide.
    + rewrite lookup_delete_ne by congruence. apply decide_ext. rewrite elem_of_cons. naive_solver.
  - intros j q. rewrite Hi. simpl. destruct (decide ((j, q) = (k, record_id r))) as [[= -> ->]|Hne].
    + rewrite lookup_delete_eq. rewrite (decide_True (P := k = k /\ _ ∈ _ :: _)) by (split; [done|by left]). by case_decide.
    + rewrite lookup_delete_ne by congruence. apply decide_ext. rewrite elem_of_cons. naive_solver.
Qed.

Lemma related_compact m t t' d :
  related m t -> m !! k = Some st -> well_formed ContextId_new d k st ->
  SESSIONS t' = <[k := header_of (compact_state b st)]> (SESSIONS t) ->
  RECORDS t' = RECORDS (doomed_away t) -> RECORD_IDS t' = RECORD_IDS (doomed_away t) ->
  BY_OWNER t' = BY_OWNER t -> BY_UPDATED t' = BY_UPDATED t ->
  related (<[k := compact_state b st]> m) t'.
Proof.
  intros Hrel Hst Hw Eh Er Ei Eo Eu. destruct (doomed_away_lookup t) as (_ & _ & _ & Hr & Hi). rewrite <- Er in Hr. rewrite <- Ei in Hi.
  assert (Hseq : NoDup (map record_sequence (session_records st))).
  { pose proof (wf_sequences _ _ _ _ Hw) as Hs. clear -Hs. induction Hs as [|x l Hs IH Hx]; [constructor|]. apply NoDup_cons.
    split; [|done]. intros Hin. rewrite Forall_forall in Hx. specialize (Hx x Hin). lia. }
  assert (Hrows : forall {B} (f : ContextRecord -> B) q (P : ContextRecord -> Prop), NoDup (map f (session_records st)) ->
    (forall x, P x -> f x = q) ->
    ((q ∉ map f (compacted_away b (session_records st))) /\ (exists x, x ∈ session_records st /\ P x)) <->
    (exists x, x ∈ compacted b (session_records st) /\ P x)).
  { intros B f q P Hnd HP. split.
    - intros [Hq (x & [Hx|Hx]%(compacted_or_away b) & Hp)]; [by exists x|]. destruct Hq. rewrite <- (HP x Hp). by apply list_elem_of_fmap_2.
    - intros (x & Hx & Hp). split; [|exists x; split; [rewrite (compacted_or_away b); by left|done]].
      intros (y & Hy & Hin)%list_elem_of_fmap. rewrite <- (HP x Hp) in Hy. by eapply (kept_apart b _ f x y). }
  apply (related_update _ t); [done|done| | | |].
  - intros j q sr. rewrite Hr. case_decide as Hj.
    + destruct Hj as [-> Hq]. rewrite decide_True by done. split; [done|]. simpl. intros Hx.
      apply (Hrows _ record_sequence q (fun x => record_sequence x = q /\ sr = stored_of x)) in Hx as [Hn _]; [done..|by intros x []].
    + destruct (decide (j = k)) as [->|Hjk]; [|done]. rewrite (rel_rows _ _ Hrel). simpl.
      rewrite <- (Hrows _ record_sequence q (fun x => record_sequence x = q /\ sr = stored_of x)); [|done|by intros x []].
      rewrite Hst. naive_solver.
  - intros j i q. rewrite Hi. case_decide as Hj.
    + destruct Hj as [-> Hq]. rewrite decide_True by done. split; [done|]. simpl. intros Hx.
      apply (Hrows _ record_id i (fun x => record_id x = i /\ record_sequence x = q)) in Hx as [Hn _]; [done|apply (wf_ids _ _ _ _ Hw)|by intros x []].
    + destruct (decide (j = k)) as [->|Hjk]; [|done]. rewrite (rel_ids _ _ Hrel). simpl.
      rewrite <- (Hrows _ record_id i (fun x => record_id x = i /\ record_sequence x = q)); [|apply (wf_ids _ _ _ _ Hw)|by intros x []].
      rewrite Hst. naive_solver.
  - rewrite Eo. index_entries Hrel.
  - rewrite Eu. index_entries Hrel.
Qed.
End Compaction.

(** Decoding only the summaries of the rows decides as the records do. *)
Lemma doomed_rows b l :
  List.filter (fun p => negb (sr_pinned (snd p))) (take b (map (fun r => (record_sequence r, stored_of r)) l))
  = map (fun r => (record_sequence r, stored_of r)) (compacted_away b l).
Proof using.
  clear. unfold compacted_away. rewrite firstn_map. induction (firstn b l) as [|r k IH]; simpl; [done|].
  rewrite IH. by destruct (record_pinned r).
Qed.

Lemma length_compacted b l : Z.of_nat (length (compacted b l)) = sat_sub (Z.of_nat (length l)) (Z.of_nat (length (compacted_away b l))).
Proof using.
  clear. unfold compacted, compacted_away. rewrite <- (take_drop b l) at 3. rewrite !length_app.
  assert (length (take b l) = length (List.filter record_pinned (take b l)) + length (List.filter (fun r => negb (record_pinned r)) (take b l)))%nat.
  { induction (take b l) as [|r k IH]; simpl; [done|]. destruct (record_pinned r); simpl; lia. }
  unfold sat_sub. lia.
Qed.

Lemma compact_simulates k keep cx : simulates (compact k keep cx) (compact_blocking k keep (principal_or_system cx)).
Proof.
  intros m s Hwf Hrel Hdrawn. destruct (compact k keep cx m) as [m' r'] eqn:E. unfold compact, bind in E. rewrite session_for_run in E.
  unfold compact_blocking, open_table, read_header. wp_run. rewrite (header_lookup _ _ k Hrel).
  destruct (sessions m !! k) as [st|] eqn:Hst; simpl in *; wp_run; [|by injection E as <- <-].
  destruct (authorize _ _ _); simpl in *; wp_run; [|by injection E as <- <-]. apply wp_scan. wp_state.
  pose proof (Hwf k st Hst) as Hw. rewrite (session_rows_related ContextId_new _ _ _ _ _ Hrel Hst Hw), map_map, doomed_rows. simpl.
  set (b := compaction_boundary _ keep) in *. destruct (b =? 0)%nat; [injection E as <- <-; by wp_run|].
  injection E as <- <-. case_bool_decide as Hnone; wp_run.
  - apply map_eq_nil in Hnone. rewrite Hnone. simpl. split_and!; [done| |done]. apply (related_compact k b st _ (tables s) _ (ids_drawn m)); try done.
    + rewrite insert_id; [done|]. rewrite (header_lookup _ _ k Hrel), Hst. simpl. f_equal. unfold header_of, compact_state. simpl.
      rewrite length_compacted, Hnone. simpl. unfold sat_sub. pose proof (wf_tokens _ _ _ _ Hw) as Htok.
      assert (0 <= sum_Z (map record_tokens (session_records st))); [|f_equal; lia].
      apply sum_Z_nonneg, Forall_fmap, counted_nonneg, Hw.
    + unfold doomed_away. by rewrite Hnone.
    + unfold doomed_away. by rewrite Hnone.
  - apply (wp_for_each _ (fun p t => set_ids (delete (k, sr_id (snd p))) (set_records (delete (k, fst p)) t))).
    { intros x s' Q' HQ'. unfold remove_doomed. by wp_run. }
    wp_run. rewrite length_map. split_and!; [done| |done]. fold (doomed_away k b st (tables s)).
    destruct (doomed_away_lookup k b st (tables s)) as (Es & Eo & Eu & _).
    eapply related_compact; [exact Hrel|exact Hst|exact Hw|..]; simpl; try done. rewrite Es. f_equal. unfold header_of. simpl.
    rewrite length_compacted, map_map. done.
Qed.

(** ** Listing *)

(** The statistics of some sessions that [p] may see. *)
Definition visible (m : gmap SessionId SessionState) (p : Principal) (keys : list SessionId) : list ContextStats :=
  omap (fun k => match m !! k with
    | Some st => if may_act_for p (owner st) then Some (stats_of k st) else None
    | None => None end) keys.

Lemma visible_members m p keys x :
  x ∈ visible m p keys <-> exists k st, k ∈ keys /\ m !! k = Some st /\ may_act_for p (owner st) = true /\ x = stats_of k st.
Proof using.
  clear. unfold visible. rewrite list_elem_of_omap. split.
  - intros (k & Hk & Hx). destruct (m !! k) as [st|] eqn:E; [|done]. destruct (may_act_for p (owner st)) eqn:Ep; [|done].
    exists k, st. by injection Hx as <-.
  - intros (k & st & Hk & Hst & Hp & ->). exists k. by rewrite Hst, Hp.
Qed.

Lemma visible_NoDup m p keys : NoDup keys -> NoDup (visible m p keys).
Proof using.
  clear. intros Hk. apply NoDup_omap; [done|]. intros x y b _ _. repeat case_match; try done. by intros [= <-] [= E _].
Qed.

Lemma owned_members o t k : k ∈ owned_sessions o t <-> (o, k) ∈ BY_OWNER t.
Proof using.
  clear. unfold owned_sessions. rewrite merge_sort_Permutation, list_elem_of_omap. split.
  - intros ([o' k'] & Hin & H). apply elem_of_elements in Hin. simpl in *. case_decide; [|done]. by injection H as <-; subst.
  - intros H. exists (o, k). rewrite elem_of_elements. simpl. by rewrite decide_True.
Qed.

Lemma owned_NoDup o t : NoDup (owned_sessions o t).
Proof using.
  clear. unfold owned_sessions. rewrite merge_sort_Permutation. apply NoDup_omap; [apply NoDup_elements|].
  intros [o1 k1] [o2 k2] b _ _. simpl. repeat case_decide; try done. intros [= <-] [= <-]. by subst.
Qed.

Lemma list_owned_wp m p o keys (s : Db ContextTables) (Q : ContextTables -> nat -> Result (list ContextStats) -> Prop) :
  related m (tables s) -> Forall (fun k => is_Some (m !! k)) keys ->
  Q (tables s) (drawn s) (Ok (visible m p keys)) -> wp (list_owned p o keys) s Q.
Proof using.
  clear. intros Hrel Hk. revert s Q Hrel. induction Hk as [|k keys [st Hst] _ IH]; intros s Q Hrel HQ; simpl; [by wp_run|].
  unfold read_header. wp_run. rewrite (rel_header _ _ Hrel), Hst. simpl. wp_run. apply IH; [by wp_here|]. wp_run.
  simpl in HQ. rewrite Hst in HQ. simpl. by destruct (may_act_for p (owner st)).
Qed.

Lemma list_owners_wp m p owners (s : Db ContextTables) (Q : ContextTables -> nat -> Result (list ContextStats) -> Prop) :
  related m (tables s) ->
  Q (tables s) (drawn s) (Ok (concat (map (fun o => visible m p (owned_sessions o (tables s))) owners))) ->
  wp (list_owners p owners) s Q.
Proof using.
  clear. revert s Q. induction owners as [|o owners IH]; intros s Q Hrel HQ; simpl; [by wp_run|]. wp_run.
  apply (list_owned_wp m); [by wp_here| |].
  - apply Forall_forall. intros k Hk. apply owned_members, (rel_owner _ _ Hrel) in Hk as (st & Hst & _). by exists st.
  - wp_run. apply IH; [by wp_here|]. by wp_run.
Qed.

Lemma accessible_owners_spec p o : o ∈ accessible_owners p <-> may_act_for p o = true.
Proof using.
  clear. rewrite may_act_for_spec. unfold accessible_owners. rewrite elem_of_cons.
  destruct (on_behalf_of p) as [d|]; [case_decide|]; rewrite ?list_elem_of_singleton; set_solver.
Qed.

Lemma accessible_owners_NoDup p : NoDup (accessible_owners p).
Proof using.
  clear. unfold accessible_owners. destruct (on_behalf_of p) as [d|]; [case_decide|]; repeat constructor; set_solver.
Qed.

Instance listed_before_trans : Transitive listed_before.
Proof using.
  clear. intros a b c [H|[H H']] [K|[K K']]; unfold listed_before; [left; lia..|right]. split; [lia|]. by eapply leb_trans.
Qed.
Instance listed_before_total : Total listed_before.
Proof using.
  clear. intros a b. unfold listed_before. destruct (Z.lt_trichotomy (stats_updated_at a) (stats_updated_at b)) as [|[E|]]; [tauto| |tauto].
  destruct (String.leb_total (stats_session a) (stats_session b)); [left|right]; right; by split.
Qed.

Lemma all_visible m p x :
  x ∈ map (fun q => stats_of (fst q) (snd q)) (List.filter (fun q => may_act_for p (owner (snd q))) (map_to_list m))
  <-> exists k st, m !! k = Some st /\ may_act_for p (owner st) = true /\ x = stats_of k st.
Proof using.
  clear. rewrite list_elem_of_fmap. split.
  - intros ([k st] & -> & Hin). apply list_elem_of_In, filter_In in Hin as [Hin Hp]. apply list_elem_of_In, elem_of_map_to_list in Hin. by exists k, st.
  - intros (k & st & Hst & Hp & ->). exists (k, st). split; [done|]. apply list_elem_of_In, filter_In. split; [|done].
    by apply list_elem_of_In, elem_of_map_to_list.
Qed.

Lemma sessions_simulates cx : simulates (list_sessions cx) (sessions_blocking (principal_or_system cx)).
Proof.
  intros m s Hwf Hrel Hdrawn. unfold sessions_blocking, open_table. wp_run.
  apply (list_owners_wp (sessions m)); [by wp_here|]. wp_run.
  unfold list_sessions, bind, gets, ret. split_and!; [|done..]. f_equal.
  set (p := principal_or_system cx). symmetry. unfold sort_sessions. apply (merge_sort_members listed_before).
  - apply concat_NoDup; [apply accessible_owners_NoDup|intros o; apply visible_NoDup, owned_NoDup|].
    intros o o' x (k & st & Hk & Hst & _ & ->)%visible_members (k' & st' & Hk' & Hst' & _ & E)%visible_members.
    injection E as <- _ _ _ _ _. apply owned_members, (rel_owner _ _ Hrel) in Hk as (? & ? & <-).
    apply owned_members, (rel_owner _ _ Hrel) in Hk' as (? & ? & <-). congruence.
  - rewrite merge_sort_Permutation. apply (NoDup_map_map fst).
    + eapply sublist_NoDup; [apply (NoDup_fst_map_to_list (sessions m))|]. apply (fmap_sublist fst), filter_sublist.
    + intros [k st] [k' st'] Hx Hy E. apply (f_equal stats_session) in E. simpl in E. subst.
      apply list_elem_of_In, filter_In in Hx as [Hx _], Hy as [Hy _].
      apply list_elem_of_In, elem_of_map_to_list in Hx, Hy. congruence.
  - intros x. rewrite merge_sort_Permutation, all_visible, list_elem_of_In, in_concat. split.
    + intros (l & Hl & Hx). apply list_elem_of_In, list_elem_of_fmap in Hl as (o & -> & _).
      apply list_elem_of_In, visible_members in Hx as (k & st & _ & ? & ? & ->). by exists k, st.
    + intros (k & st & Hst & Hp & ->). exists (visible (sessions m) p (owned_sessions (owner st) (tables s))).
      rewrite <- !list_elem_of_In. split.
      * apply list_elem_of_fmap. exists (owner st). split; [done|]. by apply accessible_owners_spec.
      * apply visible_members. exists k, st. split_and!; try done. apply owned_members, (rel_owner _ _ Hrel). by exists st.
  - intros x y Hx Hy. rewrite list_elem_of_In, in_concat in Hx, Hy.
    destruct Hx as (l & Hl & Hx), Hy as (l' & Hl' & Hy). apply list_elem_of_In, list_elem_of_fmap in Hl as (o & -> & _).
    apply list_elem_of_In, list_elem_of_fmap in Hl' as (o' & -> & _).
    apply list_elem_of_In, visible_members in Hx as (k & st & _ & Hst & _ & ->).
    apply list_elem_of_In, visible_members in Hy as (k' & st' & _ & Hst' & _ & ->). unfold listed_before. simpl.
    intros [H|[H H1]] [K|[K H2]]; [lia..|]. assert (k = k') as <- by (by apply String.leb_antisym). congruence.
  - apply StronglySorted_merge_sort; apply _.
Qed.


Lemma related_size m t : related m t -> size (SESSIONS t) = size m.
Proof using.
  clear. intros Hrel. rewrite <- !size_dom. f_equal. apply set_eq. intros k.
  rewrite !elem_of_dom, (rel_header _ _ Hrel). by rewrite fmap_is_Some.
Qed.

Lemma sweep_simulates cutoff batch : (0 < batch)%nat ->
  simulates (let! n := sweep_stale cutoff in ret (Some (Z.to_nat n))) (redb_sweep_stale batch cutoff).
Proof.
  intros Hbatch m s Hwf Hrel Hdrawn.
  match goal with |- wp _ _ ?Q => change (wp (sweep_loop batch (S (size (SESSIONS (tables s)))) cutoff 0) s Q) end.
  rewrite (related_size _ _ Hrel).
  apply (sweep_loop_wp _ _ _ (sessions m)); [done|done|lia|]. intros t Ht. cbn. split_and!; [|done..]. do 2 f_equal.
  pose proof (live_size cutoff (sessions m)). unfold live in *. lia.
Qed.

(** ** The refinement *)

Definition linked (m : InMemoryContextStore) (s : RedbContextStore) : Prop :=
  store_well_formed ContextId_new m /\ related (sessions m) (tables (db s)) /\ ids_drawn m = drawn (db s) /\
  published m = redb_published s.

Ltac reading :=
  repeat first [apply keeps_io | apply keeps_reads | keeps_step].

Lemma get_reads k id p : keeps unchanged (get_blocking k id p).
Proof. unfold get_blocking, header_read, open_table, read_header. reading. Qed.
Lemma stats_reads k p : keeps unchanged (stats_blocking k p).
Proof. unfold stats_blocking, header_read, open_table, read_header. reading. Qed.
Lemma session_reads k p : keeps unchanged (read_session_blocking k p).
Proof. unfold read_session_blocking, header_read, open_table, read_header, scan. reading. Qed.
Lemma listing_reads p : keeps unchanged (sessions_blocking p).
Proof.
  unfold sessions_blocking, open_table. assert (forall o keys, keeps unchanged (list_owned p o keys)) as Howned.
  { intros o keys. induction keys as [|k keys IH]; simpl; unfold read_header; reading; done. }
  assert (forall owners, keeps unchanged (list_owners p owners)) as Howners.
  { induction owners as [|o owners IH]; simpl; repeat first [apply Howned | done | apply keeps_io | apply keeps_reads | keeps_step]. }
  repeat first [apply Howners | apply keeps_io | apply keeps_reads | keeps_step].
Qed.

Definition is_sweep (request : Request) : bool := match request with SweepStale _ => true | _ => false end.

(** What a request to the tables comes to, against the store in memory. *)
Definition outcome (request : Request) (m m' : InMemoryContextStore) (r' : Result Response)
    (s s' : RedbContextStore) (r : option (Result Response)) : Prop :=
  (r = Some r' /\ linked m' s') \/
  (exists e m'', r = Some (Err e) /\ ~ healthy (db s) /\ linked m'' s' /\
     (is_sweep request = false -> sessions m'' = sessions m)).

Lemma failed_linked m s d :
  linked m s -> tables d = tables (db s) -> (drawn (db s) <= drawn d)%nat ->
  exists m'', linked m'' {| db := d; redb_published := redb_published s |} /\ sessions m'' = sessions m.
Proof.
  intros (Hwf & Hrel & Hd & Hp) Ht Hle. exists {| sessions := sessions m; ids_drawn := drawn d; published := published m |}.
  split; [|done]. split_and!; simpl; [|by rewrite Ht|done|done].
  intros k st Hst. eapply wf_more; [|by apply Hwf]. simpl. lia.
Qed.

Lemma on_db_outcome {A} request (f : A -> Response) (mem : action InMemoryContextStore Error A) (redb : M A) m m' r' s s' r :
  simulates mem redb -> safe redb -> linked m s -> published (fst (mem m)) = published m ->
  answer f mem m = (m', r') -> store_well_formed ContextId_new m' -> on_db f redb s = (s', r) ->
  outcome request m m' r' s s' r.
Proof.
  intros Hsim Hsafe Hl Hpub Hm Hwf' Hs. pose proof Hl as (Hwf & Hrel & Hd & Hp). specialize (Hsim m (db s) Hwf Hrel Hd).
  unfold on_db in Hs. unfold wp in Hsim. destruct (redb (db s)) as [d rd] eqn:E. injection Hs as <- <-.
  destruct Hsim as (_ & Hle & [Hsim|[Hfail Hh]]).
  - left. unfold answer, bind in Hm. destruct (mem m) as [m1 r1]. destruct Hsim as (-> & Hrel' & Hd').
    assert (m1 = m' /\ r' = result_map f rd) as [<- ->] by (by destruct rd; injection Hm as <- <-).
    split; [done|]. split_and!; try done. simpl in *. congruence.
  - right. destruct rd as [|e]; [done|]. destruct (failed_linked m s d Hl (Hsafe _ _ _ E) Hle) as (m'' & Hl' & Hs').
    by exists e, m''.
Qed.

(** A sweep that fails part-way has done some of the work, whole sessions at a time. *)
Lemma sweep_partial batch fuel cutoff total m s s' r :
  related m (tables s) -> map_Forall (well_formed ContextId_new (drawn s)) m ->
  sweep_loop batch fuel cutoff total s = (s', r) ->
  exists m', related m' (tables s') /\ map_Forall (well_formed ContextId_new (drawn s')) m'.
Proof.
  revert m total s. induction fuel as [|fuel IH]; intros m total s Hrel Hwf; simpl; [intros [= <- _]; by exists m|].
  intros H. assert (Hbatch : forall s1 r1, sweep_batch_blocking cutoff batch s = (s1, r1) ->
    exists m', related m' (tables s1) /\ map_Forall (well_formed ContextId_new (drawn s1)) m').
  { intros s1 r1 E. pose proof (sweep_batch_wp cutoff m batch s (fun t d r => d = drawn s /\ related (gone m (stale_entries cutoff batch (tables s))) t) Hrel) as Hb.
    specialize (Hb ltac:(by intros)). unfold wp in Hb. rewrite E in Hb. destruct Hb as (_ & Hle & [[Hd Hr]|[Hf _]]).
    - exists (gone m (stale_entries cutoff batch (tables s))). split; [done|]. intros k st Hst. rewrite gone_lookup in Hst.
      case_decide; [done|]. rewrite Hd. by apply Hwf.
    - exists m. destruct r1 as [|e]; [done|]. rewrite (transaction_atomic _ _ _ _ _ _ E). split; [done|].
      intros k st Hst. eapply wf_more; [|by apply Hwf]. lia. }
  apply bind_inv in H as [(s1 & n & E & H)|(e & E & ->)]; destruct (Hbatch _ _ E) as (m1 & Hr1 & Hw1).
  - destruct (n <? batch)%nat; [injection H as <- _; by exists m1|]. by eapply IH.
  - by exists m1.
Qed.

Lemma sweep_outcome batch cutoff cx now m s s' r :
  (0 < batch)%nat -> linked m s -> redb_serve ContextId_new max_records batch events (SweepStale cutoff) cx now s = (s', r) ->
  let (m', r') := serve ContextId_new max_records events (SweepStale cutoff) cx now m in
  outcome (SweepStale cutoff) m m' r' s s' r.
Proof.
  intros Hbatch Hl H. pose proof Hl as (Hwf & Hrel & Hd & Hp).
  destruct (serve ContextId_new max_records events (SweepStale cutoff) cx now m) as [m' r'] eqn:Em.
  pose proof (serve_keeps ContextId_new max_records events _ _ _ _ _ _ Hwf Em) as [Hwf' _].
  pose proof (sweep_simulates cutoff batch Hbatch m (db s) Hwf Hrel Hd) as Hsim. unfold redb_serve in H. unfold wp in Hsim.
  destruct (redb_sweep_stale batch cutoff (db s)) as [d rd] eqn:E. injection H as <- <-.
  destruct Hsim as (_ & Hle & [Hsim|[Hfail Hh]]).
  - left. cbn in Em, Hsim. injection Em as <- <-. destruct Hsim as (<- & Hrel' & Hd'). split.
    + do 3 f_equal. rewrite Z2Nat.id; [done|]. pose proof (live_size cutoff (sessions m)). unfold live in *. lia.
    + split_and!; done.
  - right. destruct rd as [|e]; [done|]. unfold store_well_formed in Hwf. rewrite Hd in Hwf.
    destruct (sweep_partial _ _ _ _ _ _ _ _ Hrel Hwf E) as (m1 & Hr1 & Hw1).
    exists e, {| sessions := m1; ids_drawn := drawn d; published := published m |}. split_and!; done.
Qed.

Lemma window_outcome k budget cx now m s s' r :
  linked m s -> redb_window events k budget cx now s = (s', r) ->
  let (m', r') := answer Assembled (window events k budget cx now) m in
  outcome (Window k budget) m m' r' s s' r.
Proof.
  intros Hl H. pose proof Hl as (Hwf & Hrel & Hd & Hp). pose proof (read_session_simulates k cx m (db s) Hwf Hrel Hd) as Hsim.
  unfold redb_window in H. unfold wp in Hsim. destruct (read_session_blocking k (principal_or_system cx) (db s)) as [d rd] eqn:E.
  destruct Hsim as (_ & Hle & [Hsim|[Hfail Hh]]).
  - unfold answer, window, read_session, bind in *. rewrite session_for_run in *.
    destruct (sessions m !! k) as [st|] eqn:Hst; simpl in *; [destruct (authorize k (owner st) (principal_or_system cx)); simpl in *|];
      destruct Hsim as (<- & Hrel' & Hd'); injection H as <- <-; left; (split; [done|]); split_and!; simpl; try done; congruence.
  - destruct (answer Assembled (window events k budget cx now) m) as [m' r']. right. destruct rd as [|e]; [done|].
    injection H as <- <-. destruct (failed_linked m s d Hl (reads_safe _ (session_reads k _) _ _ _ E) Hle) as (m'' & Hl' & Hs'). by exists e, m''.
Qed.

(** C14. the persistent store is the store in memory: on linked states - and a freshly opened
    empty database is linked to an empty store - every request gets the same answer, publishes
    the same and leads to linked states, unless a call to the disk failed; and when one did, the
    request is answered by an error, and the tables still are those of a well-formed store, the
    same as before if the request was not a sweep. *)
Theorem persistent_store_refines_memory (batch : nat) (request : Request) (cx : ExecutionContext) (now : Timestamp)
    (m : InMemoryContextStore) (s s' : RedbContextStore) (r : option (Result Response)) :
  (0 < batch)%nat -> linked m s ->
  redb_serve ContextId_new max_records batch events request cx now s = (s', r) ->
  let (m', r') := serve ContextId_new max_records events request cx now m in
  outcome request m m' r' s s' r.
Proof.
  intros Hbatch Hl H. destruct (is_sweep request) eqn:Es; [destruct request; try done; by eapply sweep_outcome|].
  destruct (serve ContextId_new max_records events request cx now m) as [m' r'] eqn:Em. pose proof Hl as (Hwf & _).
  pose proof (serve_keeps ContextId_new max_records events _ _ _ _ _ _ Hwf Em) as [Hwf' _].
  assert (Hpub : forall k, published (fst (session_for k cx m)) = published m) by (intros k; by rewrite session_for_run).
  destruct request as [k entry|k id|k budget|k|k| |k keep|]; try done; simpl in H, Em.
  - eapply (on_db_outcome _ Appended); [apply append_simulates|apply transaction_safe|done| |done..].
    destruct (append _ _ _ _ _ _ m) as [m1 r1] eqn:E. apply append_run in E.
    destruct (check_append _ _ _ _); destruct E; by subst.
  - eapply (on_db_outcome _ Found); [apply get_simulates|apply reads_safe, get_reads|done| |done..].
    unfold get, bind. rewrite session_for_run. destruct (sessions m !! k) as [st|]; simpl; [destruct (authorize _ _ _)|]; done.
  - pose proof (window_outcome _ _ _ _ _ _ _ _ Hl H) as Hw. by rewrite Em in Hw.
  - eapply (on_db_outcome _ StatsAre); [apply stats_simulates|apply reads_safe, stats_reads|done| |done..].
    unfold stats, bind. rewrite session_for_run. destruct (sessions m !! k) as [st|]; simpl; [destruct (authorize _ _ _)|]; done.
  - eapply (on_db_outcome _ Removed); [apply clear_simulates|apply transaction_safe|done| |done..].
    unfold clear, bind. rewrite session_for_run. destruct (sessions m !! k) as [st|]; simpl; [destruct (authorize _ _ _)|]; done.
  - eapply (on_db_outcome _ Listed); [apply sessions_simulates|apply reads_safe, listing_reads|done|done|done..].
  - eapply (on_db_outcome _ Removed); [apply compact_simulates|apply transaction_safe|done| |done..].
    unfold compact, bind. rewrite session_for_run. destruct (sessions m !! k) as [st|]; simpl; [destruct (authorize _ _ _)|]; simpl; try done.
    by destruct (_ =? 0)%nat.
Qed.
End Simulation.

(** ** An example *)

Definition a_name (n : nat) : ContextId := pretty n.

#[export] Instance a_name_inj : Inj eq eq a_name.
Proof. unfold a_name. apply _. Qed.

Definition a_caller : ExecutionContext :=
  {| correlation := "c"; principal := Some (Principal_new "alice" User); deadline := None; cancellation := false; attributes := [] |}.

Definition an_entry : ContextEntry := {| entry_message := Message_text Role_User "hello"; entry_pinned := false |}.

Definition a_counter : TokenCounter := HeuristicTokenCounter 4 (fun _ => "{}").

Lemma linked_empty disk :
  linked (T := a_counter) a_name InMemoryContextStore_new {| db := Build_Db no_tables 0 disk; redb_published := [] |}.
Proof. split_and!; [apply map_Forall_empty|apply related_empty|done|done]. Qed.

(** An append whose index write fails, and one that does not. *)
Definition a_store (disk : list (option RedbError)) : RedbContextStore :=
  {| db := Build_Db no_tables 0 disk; redb_published := [] |}.

Example failed_append :
  let (s, r) := redb_serve (H := a_counter) a_name 10 2 true (Append "s1" an_entry) a_caller 7
    (a_store [None; None; None; None; None; None; Some (TableDoesNotExist "context.record_ids")]) in
  (tables (db s), r) = (no_tables, Some (Err (NotFound "table" "context.record_ids"))).
Proof. vm_compute. reflexivity. Qed.

Lemma persistent_store_refines_memory_witness :
  let s := a_store [] in
  let (s', r) := redb_serve (H := a_counter) a_name 10 2 true (Append "s1" an_entry) a_caller 7 s in
  let (m', r') := serve (H := a_counter) a_name 10 true (Append "s1" an_entry) a_caller 7 InMemoryContextStore_new in
  outcome (T := a_counter) a_name (Append "s1" an_entry) InMemoryContextStore_new m' r' s s' r.
Proof.
  cbv zeta. destruct (redb_serve (H := a_counter) a_name 10 2 true (Append "s1" an_entry) a_caller 7 (a_store [])) as [s' r] eqn:E.
  apply (persistent_store_refines_memory (TL := heuristic_laws 4 (fun _ => "{}") ltac:(lia)) a_name 10 true ltac:(lia) 2 _ _ _
           InMemoryContextStore_new (a_store []) s' r ltac:(lia) (linked_empty []) E).
Defined.
