(* ===== verification/Policy.v ===== *)
(** * Policy: the rule-based policy engine

    [crates/policy/src/pattern.rs], [rule.rs], [document.rs] and [engine.rs].  A pattern is
    parsed from configuration text, a rule is a conjunction of matchers with an effect, a
    document is an ordered list of rules that is validated when an engine is built, and the
    engine answers a request with the effect of the first rule that matches. *)

From S2P Require Import Prelude Base.

(** ** Patterns *)

Inductive Pattern :=
  | Any
  | Prefix (prefix : string)
  | Exact (exact : string).
#[export] Instance Pattern_eq_dec : EqDecision Pattern.
Proof. solve_decision. Defined.

Definition Pattern_parse (text : string) : Pattern :=
  if decide (text = "*"%string) then Any
  else match strip_suffix_char "*" text with
       | Some prefix => Prefix prefix
       | None => Exact text
       end.

Definition Pattern_matches (self : Pattern) (value : string) : bool :=
  match self with
  | Any => true
  | Prefix prefix => starts_with value prefix
  | Exact exact => bool_decide (value = exact)
  end.

Definition Pattern_is_vacuous (self : Pattern) : bool :=
  match self with
  | Exact exact => str_is_empty exact
  | _ => false
  end.

Definition Pattern_fmt (self : Pattern) : string :=
  match self with
  | Any => "*"
  | Prefix prefix => prefix +:+ "*"
  | Exact exact => exact
  end.

(** ** Rules *)

Record PrincipalMatcher := {
  pm_id : Pattern;
  pm_kind : option PrincipalKind;
  pm_on_behalf_of : option Pattern;
}.

Definition PrincipalMatcher_default : PrincipalMatcher :=
  {| pm_id := Any; pm_kind := None; pm_on_behalf_of := None |}.

Definition delegation_matches (matcher : option Pattern) (owner : option PrincipalId) : bool :=
  match matcher with
  | None => true
  | Some pattern => match owner with
                    | Some owner => Pattern_matches pattern owner
                    | None => false
                    end
  end.

Definition PrincipalMatcher_matches (self : PrincipalMatcher) (p : Principal) : bool :=
  Pattern_matches (pm_id self) (principal_id p)
  && match pm_kind self with
     | None => true
     | Some kind => bool_decide (kind = principal_kind p)
     end
  && delegation_matches (pm_on_behalf_of self) (on_behalf_of p).

Record PolicyRule := {
  rule_principal : PrincipalMatcher;
  rule_action : Pattern;
  rule_resource : option Pattern;
  rule_context : option (list (string * Value));
  rule_effect : Decision;
  rule_description : option string;
}.

Definition resource_matches (pattern : option Pattern) (resource : option ResourceId) : bool :=
  match pattern, resource with
  | None, None => true
  | None, Some _ => false
  | Some Any, _ => true
  | Some pattern, Some resource => Pattern_matches pattern resource
  | Some _, None => false
  end.

Definition context_matches (constraints : option (list (string * Value)))
    (request : PermissionRequest) (cx : ExecutionContext) : bool :=
  match constraints with
  | None => true
  | Some constraints =>
      forallb (fun '(key, expected) =>
        let actual := match Value_get (req_context request) key with
                      | Some v => Some v
                      | None => Map_get key (attributes cx)
                      end in
        bool_decide (actual = Some expected)) constraints
  end.

Definition PolicyRule_matches (self : PolicyRule) (request : PermissionRequest)
    (cx : ExecutionContext) : bool :=
  PrincipalMatcher_matches (rule_principal self) (req_principal request)
  && Pattern_matches (rule_action self) (req_action request)
  && resource_matches (rule_resource self) (req_resource request)
  && context_matches (rule_context self) request cx.

(** Some early-return guards of [validate] test a pattern inside an option. *)
Definition option_vacuous (p : option Pattern) : bool :=
  match p with Some p => Pattern_is_vacuous p | None => false end.

Definition PolicyRule_validate (self : PolicyRule) : Result unit :=
  if Pattern_is_vacuous (rule_action self) then
    Err (Config "action" "action pattern must not be empty")
  else if Pattern_is_vacuous (pm_id (rule_principal self)) then
    Err (Config "principal.id" "principal id pattern must not be empty")
  else if option_vacuous (pm_on_behalf_of (rule_principal self)) then
    Err (Config "principal.on_behalf_of" "principal on_behalf_of pattern must not be empty")
  else if option_vacuous (rule_resource self) then
    Err (Config "resource" "resource pattern must not be empty")
  else match rule_effect self with
       | Deny reason =>
           if is_blank reason
           then Err (Config "effect.reason" "deny reason must not be empty") else Ok tt
       | RequireApproval prompt =>
           if is_blank prompt
           then Err (Config "effect.prompt" "approval prompt must not be empty") else Ok tt
       | Allow => Ok tt
       end.

(** ** Documents *)

Record PolicyDocument := { rules : list PolicyRule }.

Definition prefix_path (error : Error) (prefix : string) : Error :=
  match error with
  | Config path message =>
      Config (if str_is_empty path then prefix else prefix +:+ "." +:+ path) message
  | other => other
  end.

Fixpoint validate_from (index : nat) (l : list PolicyRule) : Result unit :=
  match l with
  | [] => Ok tt
  | rule :: l =>
      let? _ := map_err (fun error => prefix_path error ("rules[" +:+ fmt_u (Z.of_nat index) +:+ "]"))
                        (PolicyRule_validate rule) in
      validate_from (S index) l
  end.

Definition PolicyDocument_validate (self : PolicyDocument) : Result unit := validate_from 0 (rules self).

(** ** The engine *)

Record RuleBasedPolicyEngine := { engine_rules : list PolicyRule }.

Definition RuleBasedPolicyEngine_new (document : PolicyDocument) : Result RuleBasedPolicyEngine :=
  let? _ := PolicyDocument_validate document in
  Ok {| engine_rules := rules document |}.

Definition no_rule_matched : Decision := Deny "no policy rule matched this request".

Fixpoint evaluate_rules (l : list PolicyRule) (request : PermissionRequest)
    (cx : ExecutionContext) : Decision :=
  match l with
  | [] => no_rule_matched
  | rule :: l => if PolicyRule_matches rule request cx then rule_effect rule
                     else evaluate_rules l request cx
  end.

(** [<RuleBasedPolicyEngine as PolicyEngine>::evaluate] *)
Definition evaluate (self : RuleBasedPolicyEngine) (request : PermissionRequest)
    (cx : ExecutionContext) : Result Decision :=
  Ok (evaluate_rules (engine_rules self) request cx).

(** ** Patterns: parsing, printing and matching *)

Lemma Pattern_fmt_parse text : Pattern_fmt (Pattern_parse text) = text.
Proof.
  unfold Pattern_parse. case_decide as Ht; [by subst|].
  destruct (strip_suffix_char "*" text) eqn:E; [|done].
  apply strip_suffix_char_spec in E. by subst.
Qed.

(**  A pattern written in configuration means what its documentation says: text ending
    in [*] matches exactly the values that start with what comes before the star (so a bare
    [*] matches everything), any other text matches only itself; and printing a parsed
    pattern gives the text back. *)
Theorem Pattern_parse_correct text value :
  (Pattern_matches (Pattern_parse text) value = true <->
   (exists prefix rest, text = (prefix +:+ "*")%string /\ value = (prefix +:+ rest)%string) \/
   ((forall prefix, text <> (prefix +:+ "*")%string) /\ value = text)) /\
  Pattern_fmt (Pattern_parse text) = text.
Proof.
  split; [|apply Pattern_fmt_parse].
  unfold Pattern_parse. case_decide as Ht; simpl.
  { subst. split; [|done]. left. by exists ""%string, value. }
  destruct (strip_suffix_char "*" text) as [p|] eqn:E; simpl.
  - apply strip_suffix_char_spec in E as ->. rewrite starts_with_spec. split.
    + intros [r ->]. left. by exists p, r.
    + intros [(p' & r & Hp & ->)|[Hne _]]; [|by destruct (Hne p)].
      apply append_char_inj in Hp as ->. by exists r.
  - rewrite strip_suffix_char_None in E. rewrite bool_decide_eq_true. split; [by right|].
    intros [(p & r & Hp & _)|[_ ->]]; [|done]. by destruct (E p).
Qed.

(** ** Rule matching *)

Lemma delegation_matches_Some p owner :
  delegation_matches (Some p) owner = true <-> exists o, owner = Some o /\ Pattern_matches p o = true.
Proof.
  destruct owner as [o|]; simpl; split; [eauto|by intros (? & [= ->] & ?)|done|by intros (? & ? & _)].
Qed.

Lemma PolicyRule_matches_principal r req cx :
  PolicyRule_matches r req cx = true ->
  PrincipalMatcher_matches (rule_principal r) (req_principal req) = true.
Proof. unfold PolicyRule_matches. intros. by bools. Qed.

Lemma PolicyRule_matches_action r req cx :
  PolicyRule_matches r req cx = true -> Pattern_matches (rule_action r) (req_action req) = true.
Proof. unfold PolicyRule_matches. intros. by bools. Qed.

(** ** The engine: the first rule that matches decides, and nothing matching is a denial *)

(** What the documentation of the engine promises: an abstract specification of a decision
    over the ordered rules. *)
Definition decided_by (l : list PolicyRule) (request : PermissionRequest) (cx : ExecutionContext)
    (d : Decision) : Prop :=
  (exists i r, l !! i = Some r /\ PolicyRule_matches r request cx = true /\ d = rule_effect r /\
     forall j r', (j < i)%nat -> l !! j = Some r' -> PolicyRule_matches r' request cx = false)
  \/ (Forall (fun r => PolicyRule_matches r request cx = false) l /\ d = no_rule_matched).

Lemma evaluate_rules_find l request cx :
  evaluate_rules l request cx =
  match find_first (fun r => PolicyRule_matches r request cx) l with
  | Some r => rule_effect r
  | None => no_rule_matched
  end.
Proof. induction l as [|r l IH]; simpl; [done|]. rewrite IH. by destruct (PolicyRule_matches r request cx). Qed.

(** C1.  [evaluate] never fails, and its decision is the effect of the first rule, in
    document order, whose principal, action, resource and context matchers all match; when
    no rule matches (an empty document included) the request is denied.  The decision is the
    only one the specification [decided_by] allows. *)
Theorem evaluate_first_match engine request cx d :
  evaluate engine request cx = Ok d <-> decided_by (engine_rules engine) request cx d.
Proof.
  unfold evaluate, decided_by. rewrite evaluate_rules_find.
  destruct (find_first _ _) as [r|] eqn:E.
  - pose proof E as (i & Hi & Hr & Hj)%find_first_Some. split.
    + intros [= <-]. left. exists i, r. done.
    + intros [(i' & r' & Hi' & Hr' & -> & Hj')|[Hall _]].
      * do 2 f_equal. assert (i = i') as <-; [|congruence].
        destruct (lt_eq_lt_dec i i') as [[Hlt| ->]|Hlt]; [|done|].
        -- specialize (Hj' _ _ Hlt Hi). congruence.
        -- specialize (Hj _ _ Hlt Hi'). congruence.
      * rewrite Forall_lookup in Hall. specialize (Hall _ _ Hi). simpl in Hall. congruence.
  - apply find_first_None in E. split.
    + intros [= <-]. by right.
    + intros [(i & r & Hi & Hr & _)|[_ ->]]; [|done].
      rewrite Forall_lookup in E. specialize (E _ _ Hi). simpl in E. congruence.
Qed.

(** The decision comes from a rule that matched, or is the default denial. *)
Lemma evaluate_rules_inv l request cx d :
  evaluate_rules l request cx = d ->
  d = no_rule_matched \/ exists r, r ∈ l /\ PolicyRule_matches r request cx = true /\ rule_effect r = d.
Proof.
  induction l as [|r l IH]; simpl; [by left|].
  case_match eqn:Hm; intros Hd.
  - right. exists r. split_and!; [set_solver|done..].
  - destruct (IH Hd) as [?|(r' & ? & ? & ?)]; [by left|right]. exists r'.
    split_and!; [set_solver|done..].
Qed.

(**  Delegated authority is isolated by delegator: when every rule that could grant the
    requested action (its effect is not a denial) names [owner] in [on_behalf_of], a request
    is allowed or put to a human only if its principal is acting for [owner] - a principal
    acting for anybody else, or for nobody, is denied, whatever its id. *)
Theorem delegated_grants_are_isolated engine request cx owner :
  (forall r, r ∈ engine_rules engine -> Pattern_matches (rule_action r) (req_action request) = true ->
     (exists reason, rule_effect r = Deny reason) \/
     pm_on_behalf_of (rule_principal r) = Some (Exact owner)) ->
  on_behalf_of (req_principal request) <> Some owner ->
  exists reason, evaluate engine request cx = Ok (Deny reason).
Proof.
  intros Hrules Hne. unfold evaluate.
  destruct (evaluate_rules_inv (engine_rules engine) request cx _ eq_refl)
    as [->|(r & Hin & Hm & <-)]; [by eexists|].
  destruct (Hrules r Hin (PolicyRule_matches_action _ _ _ Hm)) as [[reason ->]|Hobo]; [by eexists|].
  exfalso. apply PolicyRule_matches_principal in Hm.
  unfold PrincipalMatcher_matches in Hm. bools.
  rewrite Hobo in *. apply delegation_matches_Some in H0 as (o & Ho & Hp).
  simpl in Hp. bools. congruence.
Qed.

(** ** Validation *)

Definition informative (d : Decision) : Prop :=
  match d with
  | Allow => True
  | Deny reason => is_blank reason = false
  | RequireApproval prompt => is_blank prompt = false
  end.

Lemma PolicyRule_validate_informative r : PolicyRule_validate r = Ok tt -> informative (rule_effect r).
Proof. unfold PolicyRule_validate, informative. intros H. repeat case_match; done. Qed.

Lemma PolicyRule_validate_err r e :
  PolicyRule_validate r = Err e ->
  exists path message, e = Config path message /\ str_is_empty path = false.
Proof. unfold PolicyRule_validate. intros H. repeat case_match; simplify_eq; eauto. Qed.

Lemma validate_from_ok i l :
  validate_from i l = Ok tt <-> Forall (fun r => PolicyRule_validate r = Ok tt) l.
Proof.
  revert i. induction l as [|r l IH]; intros i; simpl; [by split|].
  rewrite Forall_cons, <- (IH (S i)). destruct (PolicyRule_validate r) as [[]|e]; simpl.
  - split; [done|by intros [_ ?]].
  - split; [done|by intros [? _]].
Qed.

Lemma validate_from_err i l e :
  validate_from i l = Err e ->
  exists k r path message,
    l !! k = Some r /\ PolicyRule_validate r = Err (Config path message) /\
    e = Config ("rules[" +:+ fmt_u (Z.of_nat (i + k)) +:+ "]." +:+ path) message /\
    Forall (fun r => PolicyRule_validate r = Ok tt) (take k l).
Proof.
  revert i. induction l as [|r l IH]; intros i; simpl; [done|].
  destruct (PolicyRule_validate r) as [[]|e'] eqn:E; simpl.
  - intros (k & r' & p & m & ? & ? & -> & ?)%IH. exists (S k), r', p, m.
    split_and!; [done..| |by constructor]. by replace (i + S k)%nat with (S i + k)%nat by lia.
  - intros [= <-]. destruct (PolicyRule_validate_err _ _ E) as (p & m & -> & Hp).
    exists 0%nat, r, p, m. rewrite Nat.add_0_r. split_and!; [done..| |by constructor].
    simpl. rewrite Hp. by rewrite !str_app_assoc.
Qed.

(**  An engine built from a document answers every request with a decision a human can
    act on: a denial always carries a reason and a request for approval always carries a
    prompt that is not blank, whether the decision is a rule's or the default. *)
Theorem engine_decisions_are_informative document engine request cx d :
  RuleBasedPolicyEngine_new document = Ok engine ->
  evaluate engine request cx = Ok d ->
  informative d.
Proof.
  unfold RuleBasedPolicyEngine_new, evaluate. rewrite result_bind_ok.
  intros ([] & Hv & [= <-]) [= <-]. simpl.
  unfold PolicyDocument_validate in Hv. rewrite validate_from_ok, Forall_forall in Hv.
  destruct (evaluate_rules_inv (rules document) request cx _ eq_refl) as [->|(r & Hin & _ & <-)].
  - done.
  - by apply PolicyRule_validate_informative, Hv.
Qed.

(**  A document that is refused is refused for its first bad rule, and the error names
    it: the path is [rules[i].field] where [i] is that rule's position, [field] and the
    message are what validating the rule alone reports, and every rule before it is valid.
    A document all of whose rules are valid is accepted with its rules unchanged. *)
Theorem document_error_names_first_bad_rule document :
  match RuleBasedPolicyEngine_new document with
  | Ok engine => engine_rules engine = rules document /\
                 Forall (fun r => PolicyRule_validate r = Ok tt) (rules document)
  | Err e =>
      exists i r path message,
        rules document !! i = Some r /\ PolicyRule_validate r = Err (Config path message) /\
        e = Config ("rules[" +:+ fmt_u (Z.of_nat i) +:+ "]." +:+ path) message /\
        Forall (fun r => PolicyRule_validate r = Ok tt) (take i (rules document))
  end.
Proof.
  unfold RuleBasedPolicyEngine_new, PolicyDocument_validate.
  destruct (validate_from 0 (rules document)) as [[]|e] eqn:E; simpl.
  - split; [done|]. by apply validate_from_ok in E.
  - by apply validate_from_err in E.
Qed.

(** ** Witnesses *)

Definition scheduler_rules : PolicyDocument := {| rules := [
  {| rule_principal := {| pm_id := Exact "scheduler"; pm_kind := None;
                          pm_on_behalf_of := Some (Exact "alice") |};
     rule_action := Pattern_parse "filesystem.*"; rule_resource := Some (Pattern_parse "/home/alice/*");
     rule_context := None; rule_effect := Allow; rule_description := None |};
  {| rule_principal := PrincipalMatcher_default;
     rule_action := Any; rule_resource := Some Any;
     rule_context := None; rule_effect := Deny "not on this machine"; rule_description := None |}] |}.

Definition bob_request : PermissionRequest :=
  {| req_principal := Principal_on_behalf_of (Principal_new "scheduler" System) "bob";
     req_action := "filesystem.write"; req_resource := Some "/home/alice/notes"%string;
     req_context := VNull |}.

Definition empty_cx : ExecutionContext :=
  {| correlation := "c"; principal := None; deadline := None; cancellation := false;
     attributes := [] |}.

Lemma delegated_grants_are_isolated_witness :
  exists reason,
    evaluate {| engine_rules := rules scheduler_rules |} bob_request empty_cx = Ok (Deny reason).
Proof.
  apply (delegated_grants_are_isolated _ _ _ "alice").
  - intros r Hr _. simpl in Hr. rewrite !elem_of_cons, elem_of_nil in Hr.
    destruct Hr as [->|[->|[]]]; [by right|left; by eexists].
  - discriminate.
Defined.

Lemma engine_decisions_are_informative_witness : informative (Deny "not on this machine").
Proof.
  by apply (engine_decisions_are_informative scheduler_rules
              {| engine_rules := rules scheduler_rules |} bob_request empty_cx).
Defined.
