(* ===== verification/Trust.v ===== *)
(** * Trust: the provenance of what a conversation has read

    [crates/api/src/provenance.rs] (the two-point lattices [Trust] and [Reach] and the
    [TrustLedger] contract) and [crates/tools/src/trust.rs] (the in-memory ledger).  The
    contract is the class [TrustLedger] with its laws [TrustLedgerLaws]; the tool registry is
    proved against the laws and [InMemoryTrustLedger] discharges them. *)

From S2P Require Import Prelude Base.

Inductive Trust := Trusted | Untrusted.
#[export] Instance Trust_eq_dec : EqDecision Trust.
Proof. solve_decision. Defined.

Definition is_untrusted (self : Trust) : bool := bool_decide (self = Untrusted).

(** [self.max(other)] in declaration order, where [Untrusted] is the greater value. *)
Definition min_with (self other : Trust) : Trust :=
  match self, other with
  | Trusted, Trusted => Trusted
  | _, _ => Untrusted
  end.

Definition Trust_as_str (self : Trust) : string :=
  match self with Trusted => "trusted" | Untrusted => "untrusted" end.

Inductive Reach := Contained | Mutating | ReachExternal.
#[export] Instance Reach_eq_dec : EqDecision Reach.
Proof. solve_decision. Defined.

Definition is_contained (self : Reach) : bool := bool_decide (self = Contained).

Definition Reach_as_str (self : Reach) : string :=
  match self with Contained => "contained" | Mutating => "mutating" | ReachExternal => "external" end.

Abbreviation TrustScope := string.

Definition SCOPE_ATTRIBUTE : string := "aik.agent.session".
Definition TRUST_ATTRIBUTE : string := "aik.trust".
Definition TRUST_CONTEXT_KEY : string := TRUST_ATTRIBUTE.
Definition REACH_CONTEXT_KEY : string := "aik.reach".

(** ** The contract *)

Class TrustLedger (L : Type) := {
  observe : TrustScope -> Trust -> action L Error unit;
  trust_of : TrustScope -> L -> Result Trust;
}.

(** The obligations the contract's documentation states: recording untrusted content either
    fails or taints the scope, and [observe] is monotone - nothing recorded later, for this
    scope or another, makes a tainted scope trusted again. *)
Class TrustLedgerLaws (L : Type) `{TrustLedger L} := {
  observe_taints : forall scope l l',
    observe scope Untrusted l = (l', Ok tt) -> trust_of scope l' = Ok Untrusted;
  observe_monotone : forall scope scope' t l l' r,
    observe scope' t l = (l', r) -> trust_of scope l = Ok Untrusted -> trust_of scope l' = Ok Untrusted;
}.

Inductive TrustEnforcement := Enforce_Approval | Enforce_Deny | Enforce_Observe.

(** [#[default]] *)
Definition TrustEnforcement_default : TrustEnforcement := Enforce_Approval.

Definition UNTRUSTED_CONTENT_ACTION : string := "aik.untrusted-content".

(** ** The in-memory ledger *)

Definition DEFAULT_CAPACITY : Z := 65536.

Record InMemoryTrustLedger := {
  tainted : gset TrustScope;
  saturated : bool;
  capacity : Z;
}.

Definition InMemoryTrustLedger_with_capacity (capacity : Z) : InMemoryTrustLedger :=
  {| tainted := ∅; saturated := false; capacity := capacity |}.

Definition InMemoryTrustLedger_new : InMemoryTrustLedger :=
  InMemoryTrustLedger_with_capacity DEFAULT_CAPACITY.

(** [<InMemoryTrustLedger as TrustLedger>::observe] *)
Definition InMemory_observe (scope : TrustScope) (trust : Trust) :
    action InMemoryTrustLedger Error unit := fun state =>
  if negb (is_untrusted trust) then (state, Ok tt)
  else if saturated state || bool_decide (scope ∈ tainted state) then (state, Ok tt)
  else if capacity state <=? Z.of_nat (size (tainted state)) then
    ({| tainted := ∅; saturated := true; capacity := capacity state |}, Ok tt)
  else
    ({| tainted := {[scope]} ∪ tainted state; saturated := saturated state;
        capacity := capacity state |}, Ok tt).

(** [<InMemoryTrustLedger as TrustLedger>::trust_of] *)
Definition InMemory_trust_of (scope : TrustScope) (state : InMemoryTrustLedger) : Result Trust :=
  if saturated state || bool_decide (scope ∈ tainted state) then Ok Untrusted else Ok Trusted.

#[export] Instance InMemory_ledger : TrustLedger InMemoryTrustLedger := {
  observe := InMemory_observe;
  trust_of := InMemory_trust_of;
}.

(** ** Properties *)

Lemma InMemory_untrusted_iff scope l :
  InMemory_trust_of scope l = Ok Untrusted <-> saturated l = true \/ scope ∈ tainted l.
Proof.
  unfold InMemory_trust_of.
  destruct (saturated l || bool_decide (scope ∈ tainted l)) eqn:E.
  - rewrite orb_true_iff, bool_decide_eq_true in E. done.
  - bools. split; [done|]. intros [?|?]; [congruence|done].
Qed.

Lemma InMemory_observe_ok scope trust l : exists l', InMemory_observe scope trust l = (l', Ok tt).
Proof. unfold InMemory_observe. repeat case_match; eauto. Qed.

#[export] Instance InMemory_ledger_laws : TrustLedgerLaws InMemoryTrustLedger.
Proof.
  split.
  - intros scope l l'. simpl. rewrite InMemory_untrusted_iff. unfold InMemory_observe. simpl.
    destruct (saturated l || bool_decide (scope ∈ tainted l)) eqn:E.
    + intros [= <-]. by rewrite orb_true_iff, bool_decide_eq_true in E.
    + case_match; intros [= <-]; simpl; [by left|right; set_solver].
  - intros scope scope' t l l' r. simpl. rewrite !InMemory_untrusted_iff. unfold InMemory_observe.
    intros H Hin. repeat case_match; simplify_eq/=; [done|done|by left|].
    destruct Hin; [by left|right; set_solver].
Qed.

(** The ledger as the sequence of observations made of it. *)
Definition observe_all (l : InMemoryTrustLedger) (obs : list (TrustScope * Trust)) :
    InMemoryTrustLedger :=
  foldl (fun l '(scope, trust) => fst (InMemory_observe scope trust l)) l obs.

Definition untrusted_scopes (obs : list (TrustScope * Trust)) : gset TrustScope :=
  list_to_set (map fst (filter (fun o => snd o = Untrusted) obs)).

(** What the ledger knows after some observations: below its capacity exactly the scopes that
    read untrusted content, and past it only that it can no longer tell. *)
Definition ledger_agrees (cap : Z) (U : gset TrustScope) (l : InMemoryTrustLedger) : Prop :=
  capacity l = cap /\
  if saturated l then cap < Z.of_nat (size U)
  else tainted l = U /\ (Z.of_nat (size U) <= cap \/ U = ∅).

Lemma InMemory_observe_agrees cap U l scope trust :
  ledger_agrees cap U l ->
  ledger_agrees cap (match trust with Untrusted => {[scope]} ∪ U | Trusted => U end)
    (fst (InMemory_observe scope trust l)).
Proof.
  intros [Hcap Hl]. unfold InMemory_observe. destruct trust; simpl; [done|].
  destruct (saturated l) eqn:Hsat; simpl.
  { split; [done|]. rewrite Hsat.
    pose proof (subseteq_size U ({[scope]} ∪ U) ltac:(set_solver)). lia. }
  destruct Hl as [<- HU]. case_bool_decide as Hin; simpl.
  { split; [done|]. rewrite Hsat. by replace ({[scope]} ∪ tainted l) with (tainted l) by set_solver. }
  assert (size ({[scope]} ∪ tainted l) = S (size (tainted l))) as Hsize.
  { rewrite size_union by set_solver. by rewrite size_singleton. }
  destruct (capacity l <=? Z.of_nat (size (tainted l))) eqn:Hc; split; simpl; try done.
  - apply Z.leb_le in Hc. rewrite Hsize. lia.
  - split; [done|]. left. apply Z.leb_gt in Hc. rewrite Hsize. lia.
Qed.

Lemma observe_all_agrees cap obs U l :
  ledger_agrees cap U l -> ledger_agrees cap (untrusted_scopes obs ∪ U) (observe_all l obs).
Proof.
  revert U l. induction obs as [|[scope trust] obs IH]; intros U l H.
  { unfold untrusted_scopes. simpl. by replace (∅ ∪ U) with U by set_solver. }
  simpl. apply (InMemory_observe_agrees _ _ _ scope trust), IH in H.
  replace (untrusted_scopes ((scope, trust) :: obs) ∪ U)
    with (untrusted_scopes obs ∪ match trust with Untrusted => {[scope]} ∪ U | Trusted => U end);
    [exact H|].
  unfold untrusted_scopes. rewrite filter_cons. destruct trust; simpl.
  - done.
  - set_solver.
Qed.

(**  The in-memory ledger refines the set of scopes that have read untrusted content: as
    long as no more scopes than its capacity are tainted it answers [Untrusted] for exactly
    those scopes; once more are, it answers [Untrusted] for every scope.  It never fails and
    never answers [Trusted] for a scope that read untrusted content, whatever is observed in
    whatever order. *)
Theorem InMemory_ledger_correct cap obs scope :
  0 <= cap ->
  let U := untrusted_scopes obs in
  InMemory_trust_of scope (observe_all (InMemoryTrustLedger_with_capacity cap) obs) =
  Ok (if decide (scope ∈ U \/ cap < Z.of_nat (size U)) then Untrusted else Trusted).
Proof.
  intros Hcap U.
  destruct (observe_all_agrees cap obs ∅ (InMemoryTrustLedger_with_capacity cap)) as [_ H].
  { split; [done|]. simpl. auto. }
  replace (untrusted_scopes obs ∪ ∅) with U in H by (unfold U; set_solver).
  unfold InMemory_trust_of. destruct (saturated _); simpl.
  - by rewrite decide_True by auto.
  - destruct H as [-> HU]. case_bool_decide.
    + by rewrite decide_True by auto.
    + rewrite decide_False; [done|]. intros [?|Hlt]; [done|].
      destruct HU as [?| ->]; [lia|]. rewrite size_empty in Hlt. lia.
Qed.

Lemma InMemory_ledger_correct_witness :
  0 <= 1 /\
  InMemory_trust_of "session:b"
    (observe_all (InMemoryTrustLedger_with_capacity 1)
       [("session:a"%string, Untrusted); ("session:b"%string, Trusted)]) = Ok Trusted.
Proof. split; [lia|]. by rewrite (InMemory_ledger_correct 1). Defined.
