(* ===== verification/Tools.v ===== *)
(** * Tools: the authorization gate in front of every tool

    [crates/tools/src/registry.rs] and the types of [crates/api/src/tool.rs] and
    [crates/api/src/audit.rs] it uses.  [InProcessToolRegistry::invoke] looks a tool up, reads
    the trust of the conversation, asks the policy engine (and, where it says so, a human)
    every question the call raises, runs the tool's body, and records provenance and an audit
    event.  The world outside the registry - policy engine, approval sink, clocks, the tools'
    own effects - is a type [W] the section is parametric in. *)

From S2P Require Import Prelude Base Trust.

Abbreviation ToolName := string.

(** ** Audit events ([crates/api/src/audit.rs]) *)

Inductive AuthorizationPhase := Phase_Tool | Phase_Resource | Phase_DiscoveredResource | Phase_Trust.

Inductive AuthorizationOutcome :=
  | Allowed
  | Denied (reason : string)
  | ApprovalGranted
  | ApprovalRefused
  | ApprovalUnavailable
  | PolicyUnavailable.

Definition AuthorizationOutcome_is_allowed (self : AuthorizationOutcome) : bool :=
  match self with Allowed | ApprovalGranted => true | _ => false end.

Inductive InvocationOutcome :=
  | Succeeded
  | ReportedError
  | Failed (kind : string)
  | InvocationDenied
  | InvocationNotFound.

Record AuthorizationDecided := {
  ad_correlation : CorrelationId;
  ad_timestamp : Timestamp;
  ad_tool : ToolName;
  ad_principal : PrincipalId;
  ad_principal_kind : PrincipalKind;
  ad_on_behalf_of : option PrincipalId;
  ad_action : ActionId;
  ad_resource : option ResourceId;
  ad_scope_trust : option Trust;
  ad_phase : AuthorizationPhase;
  ad_duration_ms : Z;
  ad_approval_wait_ms : option Z;
  ad_outcome : AuthorizationOutcome;
}.

Record ToolInvoked := {
  ti_correlation : CorrelationId;
  ti_timestamp : Timestamp;
  ti_tool : ToolName;
  ti_principal : PrincipalId;
  ti_principal_kind : PrincipalKind;
  ti_on_behalf_of : option PrincipalId;
  ti_output_trust : option Trust;
  ti_duration_ms : Z;
  ti_authorization_duration_ms : option Z;
  ti_execution_duration_ms : option Z;
  ti_outcome : InvocationOutcome;
}.

(** What the registry publishes on the audit bus. *)
Inductive AuditEvent :=
  | DecisionEvent (event : AuthorizationDecided)
  | InvocationEvent (event : ToolInvoked).

(** ** Tools ([crates/api/src/tool.rs]) *)

Record ResourceClaim := { claim_action : ActionId; claim_resource : ResourceId }.

Record ToolSpec := {
  spec_name : ToolName;
  spec_description : string;
  spec_input_schema : Value;
  spec_output_schema : option Value;
  spec_required_permissions : list ActionId;
  spec_read_only : bool;
  spec_output_trust : Trust;
  spec_reach : Reach;
}.

Record ToolOutcome := { output : Value; is_error : bool; outcome_trust : Trust }.

(** [ToolOutcome::ok], [ToolOutcome::error] *)
Definition ToolOutcome_ok (output : Value) : ToolOutcome :=
  {| output := output; is_error := false; outcome_trust := Trusted |}.
Definition ToolOutcome_error (output : Value) : ToolOutcome :=
  {| output := output; is_error := true; outcome_trust := Trusted |}.

Section Registry.
  Context {W : Type}.
  (** The kernel clock and the monotonic clock ([Instant::now], in nanoseconds). *)
  Context (clock_now : W -> Timestamp) (instant : W -> Duration).
  (** [Display for Error], derived by [thiserror]. *)
  Context (error_to_string : Error -> string).
  Context {L : Type} `{TrustLedger L}.

(** A tool's body.  All it can do to the registry is ask the authorizer it is handed; the
    rest of what it does is an effect on the world outside. *)
Inductive ToolBody : Type :=
  | Return (r : Result ToolOutcome)
  | Authorize (action : ActionId) (resource : ResourceId) (k : Result unit -> ToolBody)
  | Effect (f : W -> W) (k : W -> ToolBody).

(** A [Tool] implementation: its methods [spec], [planned_resources] and [invoke]. *)
Record Tool := {
  tool_spec : ToolSpec;
  planned_resources : Value -> W -> Result (list ResourceClaim);
  tool_invoke : Value -> ExecutionContext -> ToolBody;
}.

Record InProcessToolRegistry := {
  tools : gmap ToolName Tool;
  policy : option (PermissionRequest -> ExecutionContext -> W -> W * Result Decision);
  approvals : option (PermissionRequest -> string -> ExecutionContext -> W -> W * Result bool);
  audit_bus : bool;
  enforcement : TrustEnforcement;
}.

(** What the registry shares and changes: the outside world, the ledger and the audit bus. *)
Record State := { world : W; ledger : L; trail : list AuditEvent }.

Abbreviation M := (action State Error).

Definition on_world {A} (f : W -> W * Result A) : M A := fun s =>
  let (w, r) := f (world s) in
  ({| world := w; ledger := ledger s; trail := trail s |}, r).

Definition on_ledger {A} (f : action L Error A) : M A := fun s =>
  let (l, r) := f (ledger s) in
  ({| world := world s; ledger := l; trail := trail s |}, r).

(** [Instant::now()] *)
Definition now_instant : M Duration := gets (fun s => instant (world s)).

(** [millis(instant.elapsed())]: the milliseconds since [started], saturated to a [u64]. *)
Definition millis (d : Duration) : Z := Z.min (as_millis d) u64_max.
Definition elapsed_ms (started : Duration) (s : State) : Z := millis (instant (world s) - started).

(** [fn audit]: publishes when a bus is configured. *)
Definition audit (self : InProcessToolRegistry) (event : State -> AuditEvent) : M unit := fun s =>
  if audit_bus self
  then ({| world := world s; ledger := ledger s; trail := trail s ++ [event s] |}, Ok tt)
  else (s, Ok tt).

(** [InProcessToolRegistry::register_arc] *)
Definition register_arc (self : InProcessToolRegistry) (tool : Tool) : Result InProcessToolRegistry :=
  let name := spec_name (tool_spec tool) in
  match tools self !! name with
  | Some _ => Err (AlreadyExists "tool" name)
  | None => Ok {| tools := <[name := tool]> (tools self); policy := policy self;
                  approvals := approvals self; audit_bus := audit_bus self;
                  enforcement := enforcement self |}
  end.

(** [<InProcessToolRegistry as ToolRegistry>::list]: the specs in name order. *)
Definition list_tools (self : InProcessToolRegistry) : list ToolSpec :=
  merge_sort (fun a b => String.le (spec_name a) (spec_name b))
    ((fun '(_, tool) => tool_spec tool) <$> map_to_list (tools self)).

(** ** Questions *)

Record Question := {
  q_cx : ExecutionContext;
  q_tool : ToolName;
  q_principal : Principal;
  q_action : ActionId;
  q_resource : option ResourceId;
  q_phase : AuthorizationPhase;
  q_trust : Trust;
  q_reach : Reach;
}.

Definition describe (self : Question) : string :=
  match q_resource self with
  | Some resource => "`" +:+ q_action self +:+ "` on `" +:+ resource +:+ "`"
  | None => "`" +:+ q_action self +:+ "`"
  end.

Definition question_request (self : Question) : PermissionRequest :=
  let context := Map_insert "tool" (VString (q_tool self)) [] in
  let context := Map_insert TRUST_CONTEXT_KEY (VString (Trust_as_str (q_trust self))) context in
  let context := Map_insert REACH_CONTEXT_KEY (VString (Reach_as_str (q_reach self))) context in
  {| req_principal := q_principal self; req_action := q_action self;
     req_resource := q_resource self; req_context := VObject context |}.

Definition scope_of (cx : ExecutionContext) : TrustScope :=
  match Map_get SCOPE_ATTRIBUTE (attributes cx) ≫= Value_as_str with
  | Some session => if str_is_empty session then "operation:" +:+ correlation cx
                    else "session:" +:+ session
  | None => "operation:" +:+ correlation cx
  end.

Definition describe_reach (reach : Reach) : string :=
  match reach with
  | Contained => "read state this deployment already holds"
  | Mutating => "change state on this machine"
  | ReachExternal => "send data outside this deployment"
  end.

(** ** Recording *)

Definition record_decision (self : InProcessToolRegistry) (q : Question)
    (outcome : AuthorizationOutcome) (started : Duration) (approval_wait : option Z) : M unit :=
  audit self (fun s => DecisionEvent {|
    ad_correlation := correlation (q_cx q);
    ad_timestamp := clock_now (world s);
    ad_tool := q_tool q;
    ad_principal := principal_id (q_principal q);
    ad_principal_kind := principal_kind (q_principal q);
    ad_on_behalf_of := on_behalf_of (q_principal q);
    ad_action := q_action q;
    ad_resource := q_resource q;
    ad_scope_trust := Some (q_trust q);
    ad_phase := q_phase q;
    ad_duration_ms := elapsed_ms started s;
    ad_approval_wait_ms := approval_wait;
    ad_outcome := outcome |}).

Definition record_invocation (self : InProcessToolRegistry) (cx : ExecutionContext)
    (tool : ToolName) (p : Principal) (outcome : InvocationOutcome) (output_trust : option Trust)
    (started : Duration) (authorization execution : option Z) : M unit :=
  audit self (fun s => InvocationEvent {|
    ti_correlation := correlation cx;
    ti_timestamp := clock_now (world s);
    ti_tool := tool;
    ti_principal := principal_id p;
    ti_principal_kind := principal_kind p;
    ti_on_behalf_of := on_behalf_of p;
    ti_output_trust := output_trust;
    ti_duration_ms := elapsed_ms started s;
    ti_authorization_duration_ms := authorization;
    ti_execution_duration_ms := execution;
    ti_outcome := outcome |}).

Definition classify_authorization_error (error : Error) : InvocationOutcome :=
  match Error_kind error with
  | Kind_Permission => InvocationDenied
  | kind => Failed (ErrorKind_lowercase kind)
  end.

(** ** Deciding one question

    Both [decide] and [enforce_trust] may put a question to the approval sink; what each does
    with the answer is the triple (outcome, refusal message, time spent waiting), or an error
    that is recorded and propagated unchanged. *)
Definition request_approval (self : InProcessToolRegistry) (q : Question) (started : Duration)
    (sink : PermissionRequest -> string -> ExecutionContext -> W -> W * Result bool)
    (prompt refused : string) : M (AuthorizationOutcome * option string * option Z) :=
  let! approval_started := now_instant in
  let! answer := try (on_world (sink (question_request q) prompt (q_cx q))) in
  let! wait := gets (elapsed_ms approval_started) in
  match answer with
  | Ok true => ret (ApprovalGranted, None, Some wait)
  | Ok false => ret (ApprovalRefused, Some refused, Some wait)
  | Err error =>
      record_decision self q ApprovalUnavailable started (Some wait) ;! throw error
  end.

Definition decide_question (self : InProcessToolRegistry) (q : Question) : M unit :=
  let! started := now_instant in
  let subject := describe q in
  match policy self with
  | None =>
      record_decision self q PolicyUnavailable started None ;!
      throw (PermissionDenied ("tool `" +:+ q_tool q +:+ "`: " +:+ subject
               +:+ " is required, but no policy engine is configured"))
  | Some policy =>
      let! decision := try (on_world (policy (question_request q) (q_cx q))) in
      match decision with
      | Err error => record_decision self q PolicyUnavailable started None ;! throw error
      | Ok decision =>
          let! (outcome, error, approval_wait) :=
            match decision with
            | Allow => ret (Allowed, None, None)
            | Deny reason => ret (Denied reason, Some (subject +:+ ": " +:+ reason), None)
            | RequireApproval prompt =>
                match approvals self with
                | None => ret (ApprovalUnavailable,
                    Some (subject +:+ " requires approval, but no approval sink is configured"), None)
                | Some sink =>
                    request_approval self q started sink prompt (subject +:+ " was not approved")
                end
            end in
          record_decision self q outcome started approval_wait ;!
          match error with
          | Some message => throw (PermissionDenied ("tool `" +:+ q_tool q +:+ "`: " +:+ message))
          | None => ret tt
          end
      end
  end.

Definition trust_question (cx : ExecutionContext) (spec : ToolSpec) (p : Principal) (trust : Trust) :
    Question :=
  {| q_cx := cx; q_tool := spec_name spec; q_principal := p; q_action := UNTRUSTED_CONTENT_ACTION;
     q_resource := None; q_phase := Phase_Trust; q_trust := trust; q_reach := spec_reach spec |}.

Definition trust_prompt (tool effect : string) : string :=
  "This conversation has read content from outside this deployment — a fetched page, a file, a program's output, or an external tool server. Running `"
  +:+ tool +:+ "` now would let that content " +:+ effect
  +:+ ". Untrusted content asking for exactly this is what a prompt injection looks like. Allow it?".

Definition enforce_trust (self : InProcessToolRegistry) (cx : ExecutionContext) (spec : ToolSpec)
    (p : Principal) (trust : Trust) : M unit :=
  if negb (is_untrusted trust) || is_contained (spec_reach spec) then ret tt
  else
    let! started := now_instant in
    let question := trust_question cx spec p trust in
    let tool := spec_name spec in
    let effect := describe_reach (spec_reach spec) in
    let reason := "this conversation has read untrusted content, and `" +:+ tool +:+ "` can " +:+ effect in
    let! (outcome, error, approval_wait) :=
      match enforcement self with
      | Enforce_Observe => ret (Allowed, None, None)
      | Enforce_Deny => ret (Denied reason, Some reason, None)
      | Enforce_Approval =>
          match approvals self with
          | None => ret (ApprovalUnavailable, Some (reason +:+ ", and there is nobody to ask"), None)
          | Some sink =>
              request_approval self question started sink (trust_prompt tool effect)
                (reason +:+ ", and it was not approved")
          end
      end in
    record_decision self question outcome started approval_wait ;!
    match error with
    | Some message => throw (PermissionDenied ("tool `" +:+ tool +:+ "`: " +:+ message))
    | None => ret tt
    end.

(** ** Authorizing a call *)

Definition permission_question (cx : ExecutionContext) (spec : ToolSpec) (p : Principal)
    (trust : Trust) (act : ActionId) : Question :=
  {| q_cx := cx; q_tool := spec_name spec; q_principal := p; q_action := act;
     q_resource := None; q_phase := Phase_Tool; q_trust := trust; q_reach := spec_reach spec |}.

Definition claim_question (cx : ExecutionContext) (spec : ToolSpec) (p : Principal)
    (trust : Trust) (claim : ResourceClaim) : Question :=
  {| q_cx := cx; q_tool := spec_name spec; q_principal := p; q_action := claim_action claim;
     q_resource := Some (claim_resource claim); q_phase := Phase_Resource; q_trust := trust;
     q_reach := spec_reach spec |}.

Definition authorize (self : InProcessToolRegistry) (cx : ExecutionContext) (spec : ToolSpec)
    (p : Principal) (claims : list ResourceClaim) (trust : Trust) : M unit :=
  for_each (fun act => decide_question self (permission_question cx spec p trust act))
           (spec_required_permissions spec) ;!
  for_each (fun claim => decide_question self (claim_question cx spec p trust claim)) claims ;!
  enforce_trust self cx spec p trust.

(** [ScopedAuthorizer::authorize], the authorizer a running tool is handed. *)
Definition scoped_authorize (self : InProcessToolRegistry) (tool : ToolName) (p : Principal)
    (cx : ExecutionContext) (trust : Trust) (reach : Reach) (act : ActionId) (res : ResourceId) :
    M unit :=
  decide_question self {| q_cx := cx; q_tool := tool; q_principal := p; q_action := act;
                          q_resource := Some res; q_phase := Phase_DiscoveredResource;
                          q_trust := trust; q_reach := reach |}.

(** Running a body: [tool.invoke(arguments, &authorizer, cx)]. *)
Fixpoint run_body (authorizer : ActionId -> ResourceId -> M unit) (body : ToolBody) :
    M ToolOutcome := fun s =>
  match body with
  | Return r => (s, r)
  | Authorize act res k => let (s', r) := authorizer act res s in run_body authorizer (k r) s'
  | Effect f k =>
      run_body authorizer (k (world s))
        {| world := f (world s); ledger := ledger s; trail := trail s |}
  end.

(** ** Invoking a tool *)

(** The tail of [invoke]: the body has run with result [r]; its trust is recorded before the
    result is handed back, and a failure to record discards the result. *)
Definition settle (self : InProcessToolRegistry) (cx : ExecutionContext) (name : ToolName)
    (p : Principal) (spec : ToolSpec) (scope : TrustScope) (r : Result ToolOutcome)
    (started : Duration) (authorization_ms execution_ms : Z) : M ToolOutcome :=
  let output_trust :=
    match r with
    | Ok outcome => Some (min_with (spec_output_trust spec) (outcome_trust outcome))
    | Err _ => None
    end in
  let outcome :=
    match r with
    | Ok outcome => if is_error outcome then ReportedError else Succeeded
    | Err error => classify_authorization_error error
    end in
  let! ledger_failure :=
    match output_trust with
    | Some trust =>
        let! r := try (on_ledger (observe scope trust)) in
        ret (match r with Ok _ => None | Err e => Some e end)
    | None => ret None
    end in
  let '(outcome, output_trust) :=
    match ledger_failure with
    | None => (outcome, output_trust)
    | Some error => (Failed (ErrorKind_lowercase (Error_kind error)), None)
    end in
  record_invocation self cx name p outcome output_trust started
    (Some authorization_ms) (Some execution_ms) ;!
  match ledger_failure with
  | None => lift r
  | Some error =>
      throw (Error_other ("tool `" +:+ name
        +:+ "` ran, but its result was discarded: the provenance of what it returned could not be recorded: "
        +:+ error_to_string error))
  end.

(** The part of [invoke] past the gate: the body runs against a child context that carries the
    trust of the conversation, and its result is settled. *)
Definition execute (self : InProcessToolRegistry) (cx : ExecutionContext) (name : ToolName)
    (p : Principal) (tool : Tool) (arguments : Value) (trust : Trust) (started : Duration)
    (authorization_ms : Z) : M ToolOutcome :=
  let spec := tool_spec tool in
  let scope := scope_of cx in
  let cx := with_attribute (cx_child cx) TRUST_ATTRIBUTE (VString (Trust_as_str trust)) in
  let! execution_started := now_instant in
  let! r := try (run_body (scoped_authorize self name p cx trust (spec_reach spec))
                          (tool_invoke tool arguments cx)) in
  let! execution_ms := gets (elapsed_ms execution_started) in
  settle self cx name p spec scope r started authorization_ms execution_ms.

Definition invoke (self : InProcessToolRegistry) (name : ToolName) (arguments : Value)
    (cx : ExecutionContext) : M ToolOutcome :=
  let! started := now_instant in
  let p := principal_or_system cx in
  match tools self !! name with
  | None =>
      record_invocation self cx name p InvocationNotFound None started None None ;!
      throw (NotFound "tool" name)
  | Some tool =>
      let spec := tool_spec tool in
      let! authorization_started := now_instant in
      let scope := scope_of cx in
      let! trust := gets (fun s => trust_of scope (ledger s)) in
      match trust with
      | Err error =>
          let! waited := gets (elapsed_ms authorization_started) in
          record_invocation self cx name p InvocationDenied None started (Some waited) None ;!
          throw (PermissionDenied ("tool `" +:+ name
            +:+ "`: the trust of this conversation could not be established: "
            +:+ error_to_string error))
      | Ok trust =>
          let! claims := gets (fun s => planned_resources tool arguments (world s)) in
          match claims with
          | Err error =>
              let! waited := gets (elapsed_ms authorization_started) in
              record_invocation self cx name p (Failed (ErrorKind_lowercase (Error_kind error))) None
                started (Some waited) None ;!
              throw error
          | Ok claims =>
              let! authorized := try (authorize self cx spec p claims trust) in
              let! authorization_ms := gets (elapsed_ms authorization_started) in
              match authorized with
              | Err error =>
                  record_invocation self cx name p InvocationDenied None started
                    (Some authorization_ms) None ;!
                  throw error
              | Ok _ => execute self cx name p tool arguments trust started authorization_ms
              end
          end
      end
  end.
End Registry.

Arguments Tool W : clear implicits.
Arguments ToolBody W : clear implicits.
Arguments InProcessToolRegistry W : clear implicits.
Arguments State W L : clear implicits.

(** ** What a permitted question is *)

Section Permitted.
  Context {W : Type}.
  Implicit Types (self : InProcessToolRegistry W) (q : Question).

(** The policy engine answered the question with [d]. *)
Definition policy_answered self q (d : Decision) : Prop :=
  exists evaluate w w', policy self = Some evaluate /\
    evaluate (question_request q) (q_cx q) w = (w', Ok d).

(** A human was shown [prompt] for the question and approved it. *)
Definition human_approved self q (prompt : string) : Prop :=
  exists sink w w', approvals self = Some sink /\
    sink (question_request q) prompt (q_cx q) w = (w', Ok true).

Definition permitted self q : Prop :=
  policy_answered self q Allow \/
  exists prompt, policy_answered self q (RequireApproval prompt) /\ human_approved self q prompt.

(** What the trust of a conversation permits a tool to do. *)
Definition trust_permits self (cx : ExecutionContext) (spec : ToolSpec) (p : Principal) (trust : Trust) : Prop :=
  trust = Trusted \/ spec_reach spec = Contained \/ enforcement self = Enforce_Observe \/
  (enforcement self = Enforce_Approval /\
   human_approved self (trust_question cx spec p trust)
     (trust_prompt (spec_name spec) (describe_reach (spec_reach spec)))).

(** Every question a call raises was answered in its favour. *)
Definition call_permitted self (cx : ExecutionContext) (spec : ToolSpec) (claims : list ResourceClaim)
    (trust : Trust) : Prop :=
  let p := principal_or_system cx in
  Forall (fun act => permitted self (permission_question cx spec p trust act))
    (spec_required_permissions spec) /\
  Forall (fun claim => permitted self (claim_question cx spec p trust claim)) claims /\
  trust_permits self cx spec p trust.
End Permitted.

(** ** Reasoning about the gate's effects

    [triple m Q]: whatever [m] does from state [s], it leaves the ledger alone, extends the
    audit trail by some events, and those events and its result satisfy [Q]. *)

Section Triples.
  Context {W L : Type}.

Definition triple {A} (m : action (State W L) Error A) (Q : list AuditEvent -> Result A -> Prop) : Prop :=
  forall s s' r, m s = (s', r) -> exists evs, trail s' = trail s ++ evs /\ ledger s' = ledger s /\ Q evs r.

Lemma triple_weaken {A} (m : action (State W L) Error A) (P Q : list AuditEvent -> Result A -> Prop) :
  triple m P -> (forall evs r, P evs r -> Q evs r) -> triple m Q.
Proof. intros Hm HPQ s s' r H. destruct (Hm s s' r H) as (evs & ? & ? & ?). eauto. Qed.

Lemma triple_ret {A} (a : A) (Q : list AuditEvent -> Result A -> Prop) :
  Q [] (Ok a) -> triple (ret a) Q.
Proof. intros HQ s s' r [= <- <-]. exists []. by rewrite app_nil_r. Qed.

Lemma triple_throw {A} e (Q : list AuditEvent -> Result A -> Prop) :
  Q [] (Err e) -> triple (throw e) Q.
Proof. intros HQ s s' r [= <- <-]. exists []. by rewrite app_nil_r. Qed.

Lemma triple_lift {A} (x : Result A) (Q : list AuditEvent -> Result A -> Prop) :
  Q [] x -> triple (lift x) Q.
Proof. intros HQ s s' r [= <- <-]. exists []. by rewrite app_nil_r. Qed.

Lemma triple_gets {A} (f : State W L -> A) (Q : list AuditEvent -> Result A -> Prop) :
  (forall s, Q [] (Ok (f s))) -> triple (gets f) Q.
Proof. intros HQ s s' r [= <- <-]. exists []. by rewrite app_nil_r. Qed.

Lemma triple_on_world {A} (f : W -> W * Result A) (Q : list AuditEvent -> Result A -> Prop) :
  (forall w w' r, f w = (w', r) -> Q [] r) -> triple (on_world f) Q.
Proof.
  intros HQ s s' r. unfold on_world. destruct (f (world s)) as [w x] eqn:E.
  intros [= <- <-]. exists []. rewrite app_nil_r. eauto.
Qed.

Lemma triple_try {A} (m : action (State W L) Error A) (Q : list AuditEvent -> Result (Result A) -> Prop) :
  triple m (fun evs r => Q evs (Ok r)) -> triple (try m) Q.
Proof.
  intros Hm s s' r. unfold try. destruct (m s) as [t x] eqn:E. intros [= <- <-]. eapply Hm, E.
Qed.

Lemma triple_bind {A B} (m : action (State W L) Error A) (k : A -> action (State W L) Error B)
    (P : list AuditEvent -> Result A -> Prop) (Q : list AuditEvent -> Result B -> Prop) :
  triple m P ->
  (forall evs e, P evs (Err e) -> Q evs (Err e)) ->
  (forall evs a, P evs (Ok a) -> triple (k a) (fun evs' r => Q (evs ++ evs') r)) ->
  triple (bind m k) Q.
Proof.
  intros Hm Herr Hk s s' r. unfold bind. destruct (m s) as [t [a|e]] eqn:E.
  - destruct (Hm _ _ _ E) as (evs & Ht & Hl & HP). intros (evs' & Hs' & Hl' & HQ)%(Hk _ _ HP).
    exists (evs ++ evs'). by rewrite Hs', Ht, Hl', Hl, app_assoc.
  - destruct (Hm _ _ _ E) as (evs & Ht & Hl & HP). intros [= <- <-]. eauto.
Qed.
End Triples.

(** Steps through reads, which publish nothing and cannot fail. *)
Ltac triple_read :=
  eapply (triple_bind _ _ (fun evs r => evs = [] /\ exists a, r = Ok a));
  [first [apply triple_gets; eauto | apply triple_try, triple_on_world; eauto]
  |intros ? ? [_ [? [=]]]|intros ? ? [-> _]; simpl].

(** ** The audit trail of one question and of one call *)

(** [ev] records question [q]. *)
Definition asked (q : Question) (ev : AuthorizationDecided) : Prop :=
  ad_tool ev = q_tool q /\ ad_principal ev = principal_id (q_principal q) /\
  ad_on_behalf_of ev = on_behalf_of (q_principal q) /\ ad_action ev = q_action q /\
  ad_resource ev = q_resource q /\ ad_phase ev = q_phase q /\
  ad_scope_trust ev = Some (q_trust q) /\ ad_correlation ev = correlation (q_cx q).

Section Gate.
  Context {W : Type} (clock_now : W -> Timestamp) (instant : W -> Duration).
  Context (error_to_string : Error -> string).
  Context {L : Type} `{TrustLedger L}.
  Implicit Types (self : InProcessToolRegistry W) (q : Question).

(** [event] if the bus is configured, nothing otherwise. *)
Definition published self (events : list AuditEvent) : list AuditEvent :=
  if audit_bus self then events else [].

Lemma published_app self a b : published self a ++ published self b = published self (a ++ b).
Proof. unfold published. by destruct (audit_bus self). Qed.

Lemma published_nil self : published self [] = [].
Proof. unfold published. by destruct (audit_bus self). Qed.

(** The events and result of one authorization question: exactly one decision event, which
    records the question and says "allowed" exactly when the caller may go on; and going on
    means the policy engine, or the human it deferred to, permitted it. *)
Definition decided {A} self q (P : Prop) (evs : list AuditEvent) (r : Result A) : Prop :=
  exists ev, evs = published self [DecisionEvent ev] /\ asked q ev /\
    AuthorizationOutcome_is_allowed (ad_outcome ev) = is_ok r /\ (is_ok r = true -> P).

Lemma triple_record_decision self q outcome started wait :
  triple (record_decision (L := L) clock_now instant self q outcome started wait)
    (fun evs r => r = Ok tt /\ exists ev, evs = published self [DecisionEvent ev] /\ asked q ev /\
                                          ad_outcome ev = outcome).
Proof.
  intros s s' r. unfold record_decision, audit, published.
  destruct (audit_bus self); intros [= <- <-]; eexists; simpl.
  - split_and!; [done..|]. by eexists.
  - split; [by rewrite app_nil_r|]. split_and!; [done..|]. exists {| ad_correlation := correlation (q_cx q); ad_timestamp := 0;
      ad_tool := q_tool q; ad_principal := principal_id (q_principal q);
      ad_principal_kind := principal_kind (q_principal q);
      ad_on_behalf_of := on_behalf_of (q_principal q); ad_action := q_action q;
      ad_resource := q_resource q; ad_scope_trust := Some (q_trust q); ad_phase := q_phase q;
      ad_duration_ms := 0; ad_approval_wait_ms := None; ad_outcome := outcome |}. done.
Qed.

(** Record a refusal and fail: one event, not allowed. *)
Lemma triple_refuse {A} self q P outcome started wait e :
  AuthorizationOutcome_is_allowed outcome = false ->
  triple (record_decision (L := L) clock_now instant self q outcome started wait ;! throw e)
    (fun evs r => r = Err e /\ decided (A := A) self q P evs r).
Proof.
  intros Ho. eapply triple_bind; [apply triple_record_decision|by intros ?? [? _]|].
  intros evs a [_ (ev & -> & Hasked & Hout)]. apply triple_throw. rewrite app_nil_r.
  split; [done|]. exists ev. split_and!; [done..|by rewrite Hout, Ho|done].
Qed.

(** Record an outcome, and fail with a message exactly when the outcome is a refusal. *)
Lemma triple_conclude self q (P : Prop) outcome error started wait tool :
  AuthorizationOutcome_is_allowed outcome = bool_decide (error = None) ->
  (error = None -> P) ->
  triple (record_decision (L := L) clock_now instant self q outcome started wait ;!
          match error with
          | Some message => throw (PermissionDenied ("tool `" +:+ tool +:+ "`: " +:+ message))
          | None => ret tt
          end)
    (decided self q P).
Proof.
  intros Ho HP. eapply triple_bind; [apply triple_record_decision|by intros ?? [? _]|].
  intros evs a [_ (ev & -> & Hasked & Hout)]. destruct error.
  - apply triple_throw. rewrite app_nil_r. exists ev. split_and!; [done..|by rewrite Hout, Ho|done].
  - apply triple_ret. rewrite app_nil_r. exists ev. split_and!; [done..|by rewrite Hout, Ho|auto].
Qed.

(** What a sub-step of a question leaves: an outcome still to be recorded, or an error that
    has been. *)
Definition pending self q (P : Prop) (evs : list AuditEvent)
    (r : Result (AuthorizationOutcome * option string * option Z)) : Prop :=
  match r with
  | Err e => decided self q P evs r
  | Ok (outcome, error, wait) => evs = [] /\
      AuthorizationOutcome_is_allowed outcome = bool_decide (error = None) /\ (error = None -> P)
  end.

Lemma triple_request_approval self q (P : Prop) started sink prompt refused :
  (forall w w', sink (question_request q) prompt (q_cx q) w = (w', Ok true) -> P) ->
  triple (request_approval (L := L) clock_now instant self q started sink prompt refused)
    (pending self q P).
Proof.
  intros HP. unfold request_approval, now_instant.
  triple_read.
  eapply (triple_bind _ _ (fun evs r => evs = [] /\ exists x w w', r = Ok x /\
            sink (question_request q) prompt (q_cx q) w = (w', x))).
  { apply triple_try, triple_on_world. eauto 10. }
  { intros ?? [_ (? & ? & ? & [=] & _)]. }
  intros ? answer [-> (x & w & w' & [= <-] & Hsink)]. simpl.
  triple_read.
  destruct answer as [[]|e].
  - apply triple_ret. split_and!; [done..|]. intros _. eapply HP, Hsink.
  - apply triple_ret. done.
  - eapply triple_weaken; [by apply (triple_refuse _ _ P)|].
    by intros evs ? [-> Hd].
Qed.

Lemma triple_decide_question self q :
  triple (decide_question (L := L) clock_now instant self q) (decided self q (permitted self q)).
Proof.
  unfold decide_question, now_instant. triple_read.
  destruct (policy self) as [evaluate|] eqn:Hpolicy.
  2: { eapply triple_weaken; [by apply (triple_refuse _ _ (permitted self q))|by intros ?? [_ ?]]. }
  eapply (triple_bind _ _ (fun evs r => evs = [] /\ exists d w w', r = Ok d /\
            evaluate (question_request q) (q_cx q) w = (w', d))).
  { apply triple_try, triple_on_world. eauto 10. }
  { intros ?? [_ (? & ? & ? & [=] & _)]. }
  intros ? decision [-> (d & w & w' & [= <-] & Heval)]. simpl.
  destruct decision as [decision|e].
  2: { eapply triple_weaken; [by apply (triple_refuse _ _ (permitted self q))|by intros ?? [_ ?]]. }
  assert (policy_answered self q decision) as Hans by (exists evaluate, w, w'; done).
  eapply (triple_bind _ _ (pending self q (permitted self q))).
  - destruct decision as [|reason|prompt].
    + apply triple_ret. split_and!; [done..|]. intros _. by left.
    + by apply triple_ret.
    + destruct (approvals self) as [sink|] eqn:Happ; [|by apply triple_ret].
      apply triple_request_approval. intros v v' Hs. right. exists prompt. split; [done|].
      by exists sink, v, v'.
  - intros evs e Hd. exact Hd.
  - intros evs [[outcome error] wait] (-> & Hout & HP). simpl. by apply triple_conclude.
Qed.

(** ** The audit trail of an authorization *)

(** A list of questions, each with what a favourable answer means, asked in order and stopped
    at the first refusal: the events are one decision per question asked. *)
Definition answered {A} self (qs : list (Question * Prop)) (evs : list AuditEvent) (r : Result A) : Prop :=
  exists ds, evs = published self (map DecisionEvent ds) /\
  match r with
  | Ok _ => Forall2 (fun qp d => asked (fst qp) d /\ AuthorizationOutcome_is_allowed (ad_outcome d) = true /\ snd qp) qs ds
  | Err _ => exists (qs1 : list (Question * Prop)) (q : Question * Prop) qs2 ds1 d,
      qs = qs1 ++ q :: qs2 /\ ds = ds1 ++ [d] /\
      Forall2 (fun qp d => asked (fst qp) d /\ AuthorizationOutcome_is_allowed (ad_outcome d) = true /\ snd qp) qs1 ds1 /\
      asked (fst q) d /\ AuthorizationOutcome_is_allowed (ad_outcome d) = false
  end.

Lemma answered_nil {A} self (a : A) : answered self [] [] (Ok a).
Proof. exists []. split; [by rewrite published_nil|constructor]. Qed.

Lemma answered_one {A} self q P evs (r : Result A) : decided self q P evs r -> answered self [(q, P)] evs r.
Proof.
  intros (ev & -> & Hasked & Hout & HP). exists [ev]. split; [done|]. destruct r; simpl in *.
  - constructor; [|constructor]. simpl. auto.
  - exists [], (q, P), [], [], ev. split_and!; done || constructor.
Qed.

Lemma answered_app {A B} self qs1 qs2 evs1 evs2 (a : A) (r : Result B) :
  answered self qs1 evs1 (Ok a) -> answered self qs2 evs2 r ->
  answered self (qs1 ++ qs2) (evs1 ++ evs2) r.
Proof.
  intros (ds1 & -> & H1) (ds2 & -> & H2). exists (ds1 ++ ds2).
  rewrite published_app, map_app. split; [done|]. destruct r.
  - by apply Forall2_app.
  - destruct H2 as (qs & q & qs' & ds & d & -> & -> & HF & Hd).
    exists (qs1 ++ qs), q, qs', (ds1 ++ ds), d. rewrite <- !app_assoc.
    split_and!; [done..|by apply Forall2_app|apply Hd|apply Hd].
Qed.

Lemma answered_err {A B} self qs1 qs2 evs e :
  answered (A := A) self qs1 evs (Err e) -> answered (A := B) self (qs1 ++ qs2) evs (Err e).
Proof.
  intros (ds & -> & qs & q & qs' & ds' & d & -> & -> & HF & Hd). exists (ds' ++ [d]).
  split; [done|]. exists qs, q, (qs' ++ qs2), ds', d. by rewrite <- app_assoc.
Qed.

Lemma answered_bind {A B} self (m : action (State W L) Error A) (k : A -> action (State W L) Error B) qs1 qs2 :
  triple m (answered self qs1) -> (forall a, triple (k a) (answered self qs2)) ->
  triple (bind m k) (answered self (qs1 ++ qs2)).
Proof.
  intros Hm Hk. eapply triple_bind; [exact Hm|intros ??; apply answered_err|].
  intros evs a H1. eapply triple_weaken; [apply Hk|]. intros ?? H2. by eapply answered_app.
Qed.

Lemma triple_for_each {X} self (f : X -> Question) (l : list X) :
  triple (for_each (fun x => decide_question (L := L) clock_now instant self (f x)) l)
    (answered self (map (fun x => (f x, permitted self (f x))) l)).
Proof.
  induction l as [|x l IH]; simpl; [apply triple_ret, answered_nil|].
  apply (answered_bind _ _ _ [_]); [|done].
  eapply triple_weaken; [apply triple_decide_question|]. intros ??. apply answered_one.
Qed.

Definition trust_questions self (cx : ExecutionContext) (spec : ToolSpec) (p : Principal) (trust : Trust) :
    list (Question * Prop) :=
  if negb (is_untrusted trust) || is_contained (spec_reach spec) then []
  else [(trust_question cx spec p trust, trust_permits self cx spec p trust)].

Lemma triple_enforce_trust self cx spec p trust :
  triple (enforce_trust (L := L) clock_now instant self cx spec p trust)
    (answered self (trust_questions self cx spec p trust)).
Proof.
  unfold enforce_trust, trust_questions.
  destruct (negb (is_untrusted trust) || is_contained (spec_reach spec)) eqn:E.
  { apply triple_ret, answered_nil. }
  unfold now_instant. triple_read.
  eapply (triple_bind _ _ (pending self (trust_question cx spec p trust) (trust_permits self cx spec p trust))).
  - destruct (enforcement self) eqn:Hmode.
    + destruct (approvals self) as [sink|] eqn:Happ; [|by apply triple_ret].
      apply triple_request_approval. intros v v' Hs. do 3 right. split; [done|]. by exists sink, v, v'.
    + by apply triple_ret.
    + apply triple_ret. split_and!; [done..|]. intros _. by do 2 right; left.
  - intros evs e Hd. apply answered_one. exact Hd.
  - intros evs [[outcome error] wait] (-> & Hout & HP). simpl.
    eapply triple_weaken; [by apply triple_conclude|]. intros ??. apply answered_one.
Qed.

(** The questions one call raises, in the order they are asked: a capability question per
    required permission, a question per planned resource, and last - for a conversation that
    has read untrusted content and a tool that is not contained - the trust question. *)
Definition call_questions self (cx : ExecutionContext) (spec : ToolSpec) (claims : list ResourceClaim)
    (trust : Trust) : list (Question * Prop) :=
  let p := principal_or_system cx in
  map (fun act => let q := permission_question cx spec p trust act in (q, permitted self q))
    (spec_required_permissions spec) ++
  map (fun claim => let q := claim_question cx spec p trust claim in (q, permitted self q)) claims ++
  trust_questions self cx spec p trust.

Lemma triple_authorize self cx spec claims trust :
  triple (authorize (L := L) clock_now instant self cx spec (principal_or_system cx) claims trust)
    (answered self (call_questions self cx spec claims trust)).
Proof.
  unfold authorize, call_questions. cbv zeta.
  apply answered_bind; [apply triple_for_each|]. intros _.
  apply answered_bind; [apply triple_for_each|]. intros _. apply triple_enforce_trust.
Qed.

(** An authorization that succeeds had every question answered in its favour. *)
Lemma answered_permitted self cx spec claims trust evs (a : unit) :
  answered self (call_questions self cx spec claims trust) evs (Ok a) ->
  call_permitted self cx spec claims trust.
Proof.
  intros (ds & _ & HF).
  assert (Forall snd (call_questions self cx spec claims trust)) as H2.
  { induction HF; constructor; naive_solver. }
  unfold call_questions in H2. rewrite !Forall_app, !Forall_map in H2.
  destruct H2 as (H1 & H2 & H3). split_and!.
  - eapply Forall_impl; [exact H1|done].
  - eapply Forall_impl; [exact H2|done].
  - unfold trust_questions in H3. unfold is_untrusted, is_contained in H3.
    destruct trust; [by left|]. simpl in H3.
    case_bool_decide; [by right; left|]. by apply Forall_cons in H3 as [? _].
Qed.

(** ** One call *)

Lemma triple_run_body self tool p cx trust reach body :
  triple (run_body (scoped_authorize (L := L) clock_now instant self tool p cx trust reach) body)
    (fun evs r => exists ds, evs = published self (map DecisionEvent ds) /\
                             Forall (fun d => ad_phase d = Phase_DiscoveredResource) ds).
Proof.
  induction body as [r|act res k IH|f k IH]; intros s s' r'; simpl.
  - intros [= <- <-]. exists []. split_and!; [by rewrite app_nil_r|done|].
    exists []. by rewrite published_nil.
  - destruct (scoped_authorize _ _ _ _ _ _ _ _ _ _ s) as [t x] eqn:E.
    intros (evs & Ht & Hl & ds & -> & Hds)%IH.
    destruct (triple_decide_question self _ _ _ _ E) as (evs1 & Ht1 & Hl1 & d & -> & Hd & _).
    exists (published self [DecisionEvent d] ++ published self (map DecisionEvent ds)).
    split_and!; [by rewrite Ht, Ht1, app_assoc|congruence|].
    exists (d :: ds). rewrite published_app. split; [done|]. constructor; [apply Hd|done].
  - intros (evs & Ht & Hl & HQ)%IH. eauto.
Qed.

(** The invocation event describes the call. *)
Definition describes (name : ToolName) (cx : ExecutionContext) (inv : ToolInvoked) : Prop :=
  let p := principal_or_system cx in
  ti_tool inv = name /\ ti_correlation inv = correlation cx /\
  ti_principal inv = principal_id p /\ ti_on_behalf_of inv = on_behalf_of p.

(** The outcome an event records, given the result the caller gets. *)
Definition invocation_agrees (r : Result ToolOutcome) (inv : ToolInvoked) : Prop :=
  match r with
  | Ok out => ti_outcome inv = (if is_error out then ReportedError else Succeeded) /\
              exists t, ti_output_trust inv = Some (min_with t (outcome_trust out))
  | Err _ => ti_outcome inv <> Succeeded /\ ti_outcome inv <> ReportedError /\
             ti_output_trust inv = None
  end.

Lemma record_invocation_run self cx name p outcome trust started a e s :
  exists inv,
    record_invocation (L := L) clock_now instant self cx name p outcome trust started a e s =
      ({| world := world s; ledger := ledger s;
          trail := trail s ++ published self [InvocationEvent inv] |}, Ok tt) /\
    ti_tool inv = name /\ ti_correlation inv = correlation cx /\ ti_principal inv = principal_id p /\
    ti_on_behalf_of inv = on_behalf_of p /\ ti_outcome inv = outcome /\ ti_output_trust inv = trust.
Proof.
  unfold record_invocation, audit, published. destruct (audit_bus self).
  - eexists. split; [done|]. done.
  - eexists {| ti_correlation := correlation cx; ti_timestamp := 0; ti_tool := name;
      ti_principal := principal_id p; ti_principal_kind := principal_kind p;
      ti_on_behalf_of := on_behalf_of p; ti_output_trust := trust; ti_duration_ms := 0;
      ti_authorization_duration_ms := None; ti_execution_duration_ms := None;
      ti_outcome := outcome |}.
    rewrite app_nil_r. split; [by destruct s|]. done.
Qed.

Lemma classify_not_success e :
  classify_authorization_error e <> Succeeded /\ classify_authorization_error e <> ReportedError.
Proof. unfold classify_authorization_error. by repeat case_match. Qed.

Ltac record_call self cx name p started :=
  match goal with |- context [record_invocation _ _ self cx name p ?o ?t started ?x ?y ?st] =>
    destruct (record_invocation_run self cx name p o t started x y st) as (inv & -> & Hinv) end.

(** How a call ends: what it does to the ledger and the trail, and its result. *)
Lemma settle_run self cx name p spec scope r started a e s s' r' :
  settle clock_now instant error_to_string self cx name p spec scope r started a e s = (s', r') ->
  (r' = r \/ exists e, r' = Err e) /\
  exists inv, trail s' = trail s ++ published self [InvocationEvent inv] /\
    ti_tool inv = name /\ ti_correlation inv = correlation cx /\ ti_principal inv = principal_id p /\
    ti_on_behalf_of inv = on_behalf_of p /\ invocation_agrees r' inv /\
  match r with
  | Err _ => ledger s' = ledger s
  | Ok out => exists x, observe scope (min_with (spec_output_trust spec) (outcome_trust out)) (ledger s)
                        = (ledger s', x) /\ is_ok r' = is_ok x
  end.
Proof.
  unfold settle, bind, try, on_ledger, ret, lift, throw.
  destruct r as [out|err].
  - destruct (observe _ _ (ledger s)) as [l [[]|err]] eqn:Eo; simpl.
    + record_call self cx name p started.
      intros [= <- <-]. split; [by left|]. exists inv.
      destruct Hinv as (? & ? & ? & ? & Ho & Ht). split_and!; try done.
      * simpl. split; [by rewrite Ho; destruct (is_error out)|]. by eexists.
      * by exists (Ok tt).
    + record_call self cx name p started.
      intros [= <- <-]. split; [right; by eexists|]. exists inv.
      destruct Hinv as (? & ? & ? & ? & Ho & Ht). split_and!; try done.
      * simpl. rewrite Ho, Ht. done.
      * by exists (Err err).
  - simpl.
    record_call self cx name p started.
    intros [= <- <-]. split; [by left|]. exists inv.
    destruct Hinv as (? & ? & ? & ? & Ho & Ht). split_and!; try done.
    simpl. rewrite Ho, Ht. split_and!; [apply classify_not_success..|done].
Qed.

(** The same registry with another body behind the tool's name. *)
Definition with_body self (name : ToolName) (tool : Tool W)
    (body : Value -> ExecutionContext -> ToolBody W) : InProcessToolRegistry W :=
  {| tools := <[name := {| tool_spec := tool_spec tool; planned_resources := planned_resources tool;
                           tool_invoke := body |}]> (tools self);
     policy := policy self; approvals := approvals self; audit_bus := audit_bus self;
     enforcement := enforcement self |}.

Abbreviation call := (invoke clock_now instant error_to_string).

(** A call that was refused: the ledger is untouched, the refusal is audited, and what the
    tool's body would have done makes no difference. *)
Definition refused self name arguments cx (s s' : State W L) (r : Result ToolOutcome) : Prop :=
  (exists e, r = Err e) /\ ledger s' = ledger s /\
  (exists ds inv, trail s' = trail s ++ published self (map DecisionEvent ds ++ [InvocationEvent inv]) /\
     describes name cx inv /\ invocation_agrees r inv) /\
  (forall tool body, tools self !! name = Some tool ->
     call (with_body self name tool body) name arguments cx s = (s', r)).

(** A call whose body ran, with result [r0], after every question was answered in its favour. *)
Definition ran self name arguments cx (s s' : State W L) (r : Result ToolOutcome) : Prop :=
  exists tool trust claims ds1 ds2 r0 inv,
    tools self !! name = Some tool /\ trust_of (scope_of cx) (ledger s) = Ok trust /\
    planned_resources tool arguments (world s) = Ok claims /\
    call_permitted self cx (tool_spec tool) claims trust /\
    Forall2 (fun qp d => asked (fst qp) d /\ AuthorizationOutcome_is_allowed (ad_outcome d) = true /\ snd qp)
      (call_questions self cx (tool_spec tool) claims trust) ds1 /\
    Forall (fun d => ad_phase d = Phase_DiscoveredResource) ds2 /\
    trail s' = trail s ++ published self (map DecisionEvent (ds1 ++ ds2) ++ [InvocationEvent inv]) /\
    describes name cx inv /\ invocation_agrees r inv /\ (r = r0 \/ exists e, r = Err e) /\
    match r0 with
    | Err _ => ledger s' = ledger s
    | Ok out => exists x,
        observe (scope_of cx) (min_with (spec_output_trust (tool_spec tool)) (outcome_trust out)) (ledger s)
        = (ledger s', x) /\ is_ok r = is_ok x
    end.

Lemma execute_ran self name arguments cx tool trust claims ds1 started a s s1 s' r :
  tools self !! name = Some tool -> trust_of (scope_of cx) (ledger s) = Ok trust ->
  planned_resources tool arguments (world s) = Ok claims ->
  call_permitted self cx (tool_spec tool) claims trust ->
  Forall2 (fun qp d => asked (fst qp) d /\ AuthorizationOutcome_is_allowed (ad_outcome d) = true /\ snd qp)
    (call_questions self cx (tool_spec tool) claims trust) ds1 ->
  trail s1 = trail s ++ published self (map DecisionEvent ds1) -> ledger s1 = ledger s ->
  execute clock_now instant error_to_string self cx name (principal_or_system cx) tool arguments
    trust started a s1 = (s', r) ->
  ran self name arguments cx s s' r.
Proof.
  intros Htool Htrust Hclaims Hperm HF Ht1 Hl1. unfold execute, now_instant.
  unfold bind at 1, gets at 1. cbv beta iota zeta. unfold bind at 1, try at 1.
  destruct (run_body _ _ s1) as [s2 r0] eqn:Hrun.
  destruct (triple_run_body self _ _ _ _ _ _ _ _ _ Hrun) as (evs & Ht2 & Hl2 & ds2 & -> & Hds2).
  unfold bind at 1, gets at 1. cbv beta iota.
  intros (Hr & inv & Ht & ? & ? & ? & ? & Hagree & Hledger)%settle_run.
  exists tool, trust, claims, ds1, ds2, r0, inv. split_and!; try done.
  - rewrite Ht, Ht2, Ht1, <- !app_assoc, map_app, <- !published_app, <- !app_assoc. done.
  - by rewrite <- Hl1, <- Hl2.
Qed.

Lemma refuse_now self cx name outcome trust started a (e : Error) t :
  outcome <> Succeeded -> outcome <> ReportedError -> trust = None ->
  exists s' inv,
    (record_invocation (L := L) clock_now instant self cx name (principal_or_system cx) outcome trust started a None ;!
     throw (A := ToolOutcome) e) t = (s', Err e) /\
    ledger s' = ledger t /\ trail s' = trail t ++ published self [InvocationEvent inv] /\
    describes name cx inv /\ invocation_agrees (Err e) inv.
Proof.
  intros H1 H2 ->. unfold bind.
  destruct (record_invocation_run self cx name (principal_or_system cx) outcome None started a None t)
    as (inv & -> & ? & ? & ? & ? & Ho & Ht).
  eexists _, inv. split; [done|]. simpl. rewrite Ho, Ht. done.
Qed.

(** The call is refused in state [s]: its invocation event is all that is left to do. *)
Ltac refuse_call self cx name s :=
  match goal with |- context [record_invocation _ _ self cx name _ ?o ?tr ?st ?a ?b ;! throw ?e] =>
    destruct (refuse_now self cx name o tr st a e s) as (t & inv & Hrun & Hl & Ht & Hd & Ha) end;
    try done.

Lemma call_cases self name arguments cx s s' r :
  call self name arguments cx s = (s', r) ->
  refused self name arguments cx s s' r \/ ran self name arguments cx s s' r.
Proof.
  unfold invoke, now_instant. unfold bind at 1, gets at 1. cbv beta iota zeta.
  destruct (tools self !! name) as [tool|] eqn:Htool.
  2: { refuse_call self cx name s. rewrite Hrun.
       intros [= <- <-]. left. split_and!; [by eexists|done| |congruence].
       exists [], inv. done. }
  unfold bind at 1, gets at 1. cbv beta iota. unfold bind at 1, gets at 1. cbv beta iota.
  destruct (trust_of (scope_of cx) (ledger s)) as [trust|e] eqn:Htrust.
  2: { unfold bind at 1, gets at 1. cbv beta iota.
       refuse_call self cx name s.
       rewrite Hrun. intros [= <- <-]. left. split_and!; [by eexists|done|by exists [], inv|].
       intros tool' body Ht'. rewrite Htool in Ht'. injection Ht' as <-.
       unfold invoke, now_instant, with_body, bind, gets. simpl.
       rewrite lookup_insert_eq. simpl. rewrite Htrust. exact Hrun. }
  unfold bind at 1, gets at 1. cbv beta iota.
  destruct (planned_resources tool arguments (world s)) as [claims|e] eqn:Hclaims.
  2: { unfold bind at 1, gets at 1. cbv beta iota.
       refuse_call self cx name s.
       rewrite Hrun. intros [= <- <-]. left. split_and!; [by eexists|done|by exists [], inv|].
       intros tool' body Ht'. rewrite Htool in Ht'. injection Ht' as <-.
       unfold invoke, now_instant, with_body, bind, gets. simpl.
       rewrite lookup_insert_eq. simpl. rewrite Htrust, Hclaims. exact Hrun. }
  unfold bind at 1, try at 1.
  destruct (authorize clock_now instant self cx (tool_spec tool) (principal_or_system cx) claims trust s)
    as [s1 authorized] eqn:Hauth.
  destruct (triple_authorize self cx (tool_spec tool) claims trust _ _ _ Hauth)
    as (evs & Ht1 & Hl1 & Hans).
  cbv beta iota. unfold bind at 1, gets at 1. cbv beta iota.
  destruct authorized as [[]|e].
  - intros Hex. right. pose proof (answered_permitted _ _ _ _ _ _ _ Hans) as Hperm.
    destruct Hans as (ds & -> & HF). by eapply execute_ran.
  - destruct Hans as (ds & -> & _).
    refuse_call self cx name s1.
    rewrite Hrun. intros [= <- <-]. left. split_and!; [by eexists|congruence| |].
    + exists ds, inv. by rewrite Ht, Ht1, <- app_assoc, published_app.
    + intros tool' body Ht'. rewrite Htool in Ht'. injection Ht' as <-.
      unfold invoke, now_instant, with_body, bind, gets, try. simpl.
      rewrite lookup_insert_eq. simpl. rewrite Htrust, Hclaims. simpl.
      replace (authorize _ _ _ cx _ _ claims trust s) with (s1, @Err Error unit e) by (by rewrite <- Hauth).
      exact Hrun.
Qed.

(** C2.  A tool's body runs only once every question its call raises has been answered in the
    call's favour: each required permission and each planned resource allowed by the policy
    engine or approved by a human the engine deferred to, and, when the conversation has read
    untrusted content and the tool is not contained, the trust question too (approved by a
    human, or waived by configuration).  Otherwise the call fails, the ledger is untouched, and
    its result and every effect are the same whatever the body would have done. *)
Theorem tool_runs_only_if_permitted self name arguments cx s :
  let (s', r) := call self name arguments cx s in
  (exists tool trust claims,
     tools self !! name = Some tool /\ trust_of (scope_of cx) (ledger s) = Ok trust /\
     planned_resources tool arguments (world s) = Ok claims /\
     call_permitted self cx (tool_spec tool) claims trust) \/
  ((exists e, r = Err e) /\ ledger s' = ledger s /\
   forall tool body, tools self !! name = Some tool ->
     call (with_body self name tool body) name arguments cx s = (s', r)).
Proof.
  destruct (call self name arguments cx s) as [s' r] eqn:E.
  destruct (call_cases _ _ _ _ _ _ _ E) as [(? & ? & _ & ?)|(tool & trust & claims & ? & ? & ? & ? & ? & ? & ? & ? & _)].
  - right. done.
  - left. by exists tool, trust, claims.
Qed.

(**  Every call leaves exactly one invocation event on the audit bus, after the decision
    events it caused and nothing else: the event names the tool, the operation and the
    principal, its outcome agrees with the result the caller gets, and a call that returns a
    result has, first, one allowed decision event for each question the call raised, in order,
    followed only by decisions the running tool asked for. *)
Theorem every_call_is_audited self name arguments cx s :
  let (s', r) := call self name arguments cx s in
  exists ds inv,
    trail s' = trail s ++ published self (map DecisionEvent ds ++ [InvocationEvent inv]) /\
    describes name cx inv /\ invocation_agrees r inv /\
    (is_ok r = true -> exists tool trust claims ds1 ds2,
       tools self !! name = Some tool /\ trust_of (scope_of cx) (ledger s) = Ok trust /\
       planned_resources tool arguments (world s) = Ok claims /\ ds = ds1 ++ ds2 /\
       Forall2 (fun qp d => asked (fst qp) d /\ AuthorizationOutcome_is_allowed (ad_outcome d) = true)
         (call_questions self cx (tool_spec tool) claims trust) ds1 /\
       Forall (fun d => ad_phase d = Phase_DiscoveredResource) ds2).
Proof.
  destruct (call self name arguments cx s) as [s' r] eqn:E.
  destruct (call_cases _ _ _ _ _ _ _ E)
    as [([e ->] & _ & (ds & inv & Ht & Hd & Ha) & _)
       |(tool & trust & claims & ds1 & ds2 & r0 & inv & ? & ? & ? & _ & HF & ? & Ht & Hd & Ha & _)].
  - by exists ds, inv.
  - exists (ds1 ++ ds2), inv. split_and!; [done..|]. intros _.
    exists tool, trust, claims, ds1, ds2. split_and!; try done.
    eapply Forall2_impl; [exact HF|]. by intros ?? (? & ? & _).
Qed.

(** What a successful call did to the ledger. *)
Lemma call_observed self name arguments cx s s' out tool :
  call self name arguments cx s = (s', Ok out) -> tools self !! name = Some tool ->
  observe (scope_of cx) (min_with (spec_output_trust (tool_spec tool)) (outcome_trust out)) (ledger s)
  = (ledger s', Ok tt).
Proof.
  intros Hcall Htool.
  destruct (call_cases _ _ _ _ _ _ _ Hcall)
    as [([e [=]] & _)|(tool' & ? & ? & ? & ? & r0 & ? & Ht & _ & _ & _ & _ & _ & _ & _ & _ & Hr & Hl)].
  rewrite Htool in Ht. injection Ht as <-. destruct Hr as [<-|[? [=]]].
  destruct Hl as ([[]|] & Ho & Hx); [exact Ho|done].
Qed.

Lemma call_taints `{!TrustLedgerLaws L} self name arguments cx s s' out tool :
  call self name arguments cx s = (s', Ok out) -> tools self !! name = Some tool ->
  spec_output_trust (tool_spec tool) = Untrusted \/ outcome_trust out = Untrusted ->
  trust_of (scope_of cx) (ledger s') = Ok Untrusted.
Proof.
  intros Hcall Htool Hu. pose proof (call_observed _ _ _ _ _ _ _ _ Hcall Htool) as Ho.
  apply (observe_taints _ (ledger s)).
  by destruct Hu as [Hu|Hu]; rewrite Hu in Ho; [|destruct (spec_output_trust _)].
Qed.

(** A step never makes a tainted conversation trusted again. *)
Lemma call_keeps_taint `{!TrustLedgerLaws L} self name arguments cx s s' r scope :
  call self name arguments cx s = (s', r) ->
  trust_of scope (ledger s) = Ok Untrusted -> trust_of scope (ledger s') = Ok Untrusted.
Proof.
  intros Hcall Ht.
  destruct (call_cases _ _ _ _ _ _ _ Hcall)
    as [(_ & -> & _)|(? & ? & ? & ? & ? & r0 & ? & _ & _ & _ & _ & _ & _ & _ & _ & _ & _ & Hl)]; [done|].
  destruct r0 as [out|e].
  - destruct Hl as (res & Ho & _). by eapply observe_monotone.
  - by rewrite Hl.
Qed.

(**  A result that may carry untrusted content is handed back only after the ledger has
    recorded it: when a call returns a result and either the tool's spec or the result itself
    is marked untrusted, the conversation is tainted in the state the caller resumes in, and
    when nothing is marked untrusted the ledger saw a trusted observation only. *)
Theorem untrusted_output_is_recorded `{!TrustLedgerLaws L} self name arguments cx s s' out tool :
  call self name arguments cx s = (s', Ok out) ->
  tools self !! name = Some tool ->
  (spec_output_trust (tool_spec tool) = Untrusted \/ outcome_trust out = Untrusted ->
   trust_of (scope_of cx) (ledger s') = Ok Untrusted) /\
  (spec_output_trust (tool_spec tool) = Trusted -> outcome_trust out = Trusted ->
   observe (scope_of cx) Trusted (ledger s) = (ledger s', Ok tt)).
Proof.
  intros Hcall Htool. split; [by eapply call_taints|]. intros Ha Hb.
  pose proof (call_observed _ _ _ _ _ _ _ _ Hcall Htool) as Ho. by rewrite Ha, Hb in Ho.
Qed.

(** ** A conversation: calls, and whatever else happens in between

    Other components may record observations of their own, and the world moves on. *)
Inductive gate_step self : State W L -> State W L -> Prop :=
  | Step_call name arguments cx s s' r :
      call self name arguments cx s = (s', r) -> gate_step self s s'
  | Step_observe scope trust s l r :
      observe scope trust (ledger s) = (l, r) ->
      gate_step self s {| world := world s; ledger := l; trail := trail s |}
  | Step_world w s :
      gate_step self s {| world := w; ledger := ledger s; trail := trail s |}.

Lemma taint_is_sticky `{!TrustLedgerLaws L} self scope s s' :
  rtc (gate_step self) s s' ->
  trust_of scope (ledger s) = Ok Untrusted -> trust_of scope (ledger s') = Ok Untrusted.
Proof.
  induction 1 as [|s t s' Hstep _ IH]; [done|]. intros Ht. apply IH. destruct Hstep; simpl.
  - by eapply call_keeps_taint.
  - by eapply observe_monotone.
  - done.
Qed.

(** C3.  The prompt-injection defence holds over a whole run: once a call has returned
    untrusted content to a conversation, no sequence of later calls, observations and outside
    events lets a tool that is not contained return a result to that conversation when the
    deployment denies such calls; where a human is asked, one has approved that very tool. *)
Theorem tainted_conversation_is_contained `{!TrustLedgerLaws L} self name arguments cx s s1 out tool
    name' arguments' cx' s2 s3 out' tool' :
  call self name arguments cx s = (s1, Ok out) -> tools self !! name = Some tool ->
  spec_output_trust (tool_spec tool) = Untrusted ->
  rtc (gate_step self) s1 s2 -> scope_of cx' = scope_of cx ->
  call self name' arguments' cx' s2 = (s3, Ok out') -> tools self !! name' = Some tool' ->
  spec_reach (tool_spec tool') = Contained \/ enforcement self = Enforce_Observe \/
  (enforcement self = Enforce_Approval /\
   human_approved self (trust_question cx' (tool_spec tool') (principal_or_system cx') Untrusted)
     (trust_prompt (spec_name (tool_spec tool')) (describe_reach (spec_reach (tool_spec tool'))))).
Proof.
  intros Hcall Htool Hout Hsteps Hscope Hcall' Htool'.
  assert (trust_of (scope_of cx') (ledger s2) = Ok Untrusted) as Ht.
  { rewrite Hscope. eapply taint_is_sticky; [exact Hsteps|]. eapply call_taints; eauto. }
  destruct (call_cases _ _ _ _ _ _ _ Hcall')
    as [([e [=]] & _)|(tool2 & trust & ? & ? & ? & ? & ? & Htool2 & Htrust & _ & Hperm & _)].
  rewrite Htool' in Htool2. injection Htool2 as <-. rewrite Ht in Htrust. injection Htrust as <-.
  destruct Hperm as (_ & _ & [[=]|Hperm]). exact Hperm.
Qed.
End Gate.

(** ** Witnesses: a deployment whose world is a clock *)

Definition plain_spec (name : ToolName) (trust : Trust) (reach : Reach) : ToolSpec :=
  {| spec_name := name; spec_description := ""; spec_input_schema := VNull;
     spec_output_schema := None; spec_required_permissions := ["net.fetch"%string];
     spec_read_only := true; spec_output_trust := trust; spec_reach := reach |}.

Definition plain_tool (name : ToolName) (trust : Trust) (reach : Reach) : Tool Z :=
  {| tool_spec := plain_spec name trust reach;
     planned_resources := fun _ _ => Ok [{| claim_action := "net.fetch"; claim_resource := "https://a" |}];
     tool_invoke := fun _ _ => Effect (Z.add 1) (fun t =>
       Return (Ok {| output := VNumber (NInt t); is_error := false; outcome_trust := Trusted |})) |}.

Definition plain_registry : InProcessToolRegistry Z :=
  {| tools := {[ "fetch"%string := plain_tool "fetch" Untrusted ReachExternal;
                 "shell"%string := plain_tool "shell" Trusted Mutating;
                 "echo"%string := plain_tool "echo" Trusted Contained ]};
     policy := Some (fun _ _ t => (t + 1, Ok Allow)); approvals := None; audit_bus := true;
     enforcement := Enforce_Deny |}.

Definition plain_cx : ExecutionContext :=
  {| correlation := "c"; principal := None; deadline := None; cancellation := false;
     attributes := [(SCOPE_ATTRIBUTE, VString "s")] |}.

Definition plain_start : State Z InMemoryTrustLedger :=
  {| world := 0; ledger := InMemoryTrustLedger_new; trail := [] |}.

Definition plain_call (name : ToolName) :=
  invoke (fun t => t) (fun t => t) (fun _ => "error"%string) plain_registry name VNull plain_cx.

Definition after (name : ToolName) (s : State Z InMemoryTrustLedger) := fst (plain_call name s).

Definition clock_result (t : Z) : ToolOutcome :=
  {| output := VNumber (NInt t); is_error := false; outcome_trust := Trusted |}.

(** The defence, evaluated: a shell tool runs before a page is fetched, and not after. *)
Example shell_before_and_after :
  is_ok (snd (plain_call "shell" plain_start)) = true /\
  is_ok (snd (plain_call "shell" (after "fetch" plain_start))) = false.
Proof. by vm_compute. Qed.

Lemma untrusted_output_is_recorded_witness :
  trust_of (scope_of plain_cx) (ledger (after "fetch" plain_start)) = Ok Untrusted.
Proof.
  apply (untrusted_output_is_recorded (fun t => t) (fun t => t) (fun _ => "error"%string) plain_registry
           "fetch" VNull plain_cx plain_start _ (clock_result 2) (plain_tool "fetch" Untrusted ReachExternal)).
  - reflexivity.
  - reflexivity.
  - by left.
Defined.

Lemma tainted_conversation_is_contained_witness :
  Contained = Contained \/ enforcement plain_registry = Enforce_Observe \/
  (enforcement plain_registry = Enforce_Approval /\
   human_approved plain_registry
     (trust_question plain_cx (plain_spec "echo" Trusted Contained) Principal_system Untrusted)
     (trust_prompt "echo" (describe_reach Contained))).
Proof.
  apply (tainted_conversation_is_contained (fun t => t) (fun t => t) (fun _ => "error"%string) plain_registry
           "fetch" VNull plain_cx plain_start (after "fetch" plain_start) (clock_result 2)
           (plain_tool "fetch" Untrusted ReachExternal)
           "echo" VNull plain_cx (after "fetch" plain_start) (after "echo" (after "fetch" plain_start))
           (clock_result 5) (plain_tool "echo" Trusted Contained));
    first [apply rtc_refl | vm_compute; reflexivity].
Defined.
