(* ===== verification/Serde.v ===== *)
(** * Serde: what the derived decoders and the JSON macros of the tools have in common

    A structure with a derived [Deserialize] is read from an object's entries or from the
    elements of a sequence in order; whether an entry that names no field is refused depends on
    [#[serde(deny_unknown_fields)]].  The second part is the vocabulary of the schemas. *)

From S2P Require Import Prelude Base.

(** ** Derived decoders *)

(** The fields' values, where unknown entries are refused. *)
Definition struct_fields (names : list string) (v : Value) : option (list (option Value)) :=
  match v with
  | VObject m => if forallb (fun kv => bool_decide (kv.1 ∈ names)) m then Some (map (fun n => Map_get n m) names) else None
  | VArray items =>
      if (length items <=? length names)%nat then Some (map Some items ++ replicate (length names - length items) None) else None
  | _ => None
  end.

(** The fields' values, where unknown entries are skipped. *)
Definition open_fields (names : list string) (v : Value) : option (list (option Value)) :=
  match v with
  | VObject m => Some (map (fun n => Map_get n m) names)
  | VArray items =>
      if (length items <=? length names)%nat then Some (map Some items ++ replicate (length names - length items) None) else None
  | _ => None
  end.

Definition as_u64 (v : Value) : option Z :=
  match v with VNumber (NInt z) => if (0 <=? z) && (z <=? u64_max) then Some z else None | _ => None end.

Definition as_strings (v : Value) : option (list string) := match v with VArray items => mapM Value_as_str items | _ => None end.
Definition as_object (v : Value) : option Map := match v with VObject m => Some m | _ => None end.

(** A field with a default, and one whose type is an [Option] as well. *)
Definition defaulted {A} (f : Value -> option A) (d : A) (v : option Value) : option A := match v with Some v => f v | None => Some d end.
Definition optional {A} (f : Value -> option A) (v : option Value) : option (option A) :=
  match v with None | Some VNull => Some None | Some v => Some <$> f v end.

(** ** Schemas *)

Local Notation "k =: v" := (k%string, v) (at level 60, only parsing).

Definition jtype (t : string) : Value := json_object ["type" =: VString t].
Definition jstring (description : string) : Value := json_object ["type" =: VString "string"; "description" =: VString description].
Definition jint (z : Z) : Value := VNumber (NInt z).
Definition jrequired (l : list string) : string * Value := "required" =: VArray (map VString l).
Definition closed_object (properties : Value) (required : list (string * Value)) : Value :=
  json_object (["type" =: VString "object"; "properties" =: properties; "additionalProperties" =: VBool false] ++ required).
