(* ===== verification/Graph.v ===== *)
(** * Graph: the order components are started in

    [crates/core/src/component.rs] (descriptors), [crates/core/src/graph.rs]
    ([resolve_order], Kahn's algorithm over the declared dependencies with the ready set kept
    sorted by id) and [reject_duplicate_components] of [crates/core/src/kernel.rs], which runs
    before it.  A [BTreeMap] is a [gmap] read in key order, a [BTreeSet]'s first element is its
    least in string order. *)

From S2P Require Import Prelude Base.

Record Dependency := { dep_id : ComponentId; optional : bool }.

Record ComponentDescriptor := {
  desc_id : ComponentId;
  description : option string;
  dependencies : list Dependency;
  metadata : gmap string string;
}.

Definition ComponentDescriptor_new (id : ComponentId) : ComponentDescriptor :=
  {| desc_id := id; description := None; dependencies := []; metadata := ∅ |}.

Definition add_dependency (self : ComponentDescriptor) (d : Dependency) : ComponentDescriptor :=
  {| desc_id := desc_id self; description := description self;
     dependencies := dependencies self ++ [d]; metadata := metadata self |}.

(** [ComponentDescriptor::requires] and [ComponentDescriptor::optionally_requires] *)
Definition requires (self : ComponentDescriptor) (id : ComponentId) : ComponentDescriptor :=
  add_dependency self {| dep_id := id; optional := false |}.
Definition optionally_requires (self : ComponentDescriptor) (id : ComponentId) : ComponentDescriptor :=
  add_dependency self {| dep_id := id; optional := true |}.

(** [reject_duplicate_components], over the ids seen so far *)
Fixpoint reject_duplicates_from (seen : gset ComponentId) (l : list ComponentDescriptor) : Result unit :=
  match l with
  | [] => Ok tt
  | d :: l => if bool_decide (desc_id d ∈ seen) then Err (AlreadyExists "component" (desc_id d))
              else reject_duplicates_from ({[desc_id d]} ∪ seen) l
  end.

Definition reject_duplicate_components (l : list ComponentDescriptor) : Result unit :=
  reject_duplicates_from ∅ l.

(** ** [resolve_order] *)

(** The edges counted so far: who depends on a component (with repetitions), and how many
    dependencies of a component are still to come. *)
Record Edges := {
  dependents : gmap ComponentId (list ComponentId);
  remaining : gmap ComponentId Z;
}.

Definition push_dependent (m : gmap ComponentId (list ComponentId)) (dependency dependent : ComponentId) :=
  <[dependency := default [] (m !! dependency) ++ [dependent]]> m.

(** The inner loop: the dependencies of one component. *)
Fixpoint count_dependencies (known : gset ComponentId) (id : ComponentId) (deps : list Dependency)
    (dependents : gmap ComponentId (list ComponentId)) (count : Z) :
    Result (gmap ComponentId (list ComponentId) * Z) :=
  match deps with
  | [] => Ok (dependents, count)
  | d :: deps =>
      if negb (bool_decide (dep_id d ∈ known)) then
        if optional d then count_dependencies known id deps dependents count
        else Err (MissingDependency id (dep_id d))
      else if bool_decide (dep_id d = id) then Err (DependencyCycle [id])
      else count_dependencies known id deps (push_dependent dependents (dep_id d) id) (count + 1)
  end.

(** The outer loop. *)
Fixpoint count_edges (known : gset ComponentId) (l : list ComponentDescriptor) (e : Edges) : Result Edges :=
  match l with
  | [] => Ok e
  | descriptor :: l =>
      let? (dependents, count) :=
        count_dependencies known (desc_id descriptor) (dependencies descriptor) (dependents e) 0 in
      count_edges known l {| dependents := dependents;
                             remaining := <[desc_id descriptor := count]> (remaining e) |}
  end.

(** The first element of a [BTreeSet]. *)
Definition first_of (l : list ComponentId) : option ComponentId :=
  match l with
  | [] => None
  | x :: l => Some (foldr (fun y least => if String.leb y least then y else least) x l)
  end.

(** [for dependent in dependents.get(&next).into_iter().flatten()] *)
Fixpoint release (deps : list ComponentId) (remaining : gmap ComponentId Z) (ready : gset ComponentId) :
    gmap ComponentId Z * gset ComponentId :=
  match deps with
  | [] => (remaining, ready)
  | d :: deps =>
      match remaining !! d with
      | Some count =>
          let remaining := <[d := count - 1]> remaining in
          release deps remaining (if count - 1 =? 0 then {[d]} ∪ ready else ready)
      | None => release deps remaining ready
      end
  end.

(** The main loop; each iteration removes a component from [remaining], so one unit of fuel
    per component is enough. *)
Fixpoint drain (fuel : nat) (dependents : gmap ComponentId (list ComponentId))
    (remaining : gmap ComponentId Z) (ready : gset ComponentId) (ordered : list ComponentId) :
    gmap ComponentId Z * list ComponentId :=
  match first_of (elements ready), fuel with
  | None, _ | _, O => (remaining, ordered)
  | Some next, S fuel =>
      let (remaining, ready) :=
        release (default [] (dependents !! next)) (delete next remaining) (ready ∖ {[next]}) in
      drain fuel dependents remaining ready (ordered ++ [next])
  end.

(** [BTreeMap::into_keys] *)
Definition sorted_keys (m : gmap ComponentId Z) : list ComponentId :=
  merge_sort String.le (elements (dom m)).

Definition resolve_order (descriptors : list ComponentDescriptor) : Result (list ComponentId) :=
  let known : gset ComponentId := list_to_set (map desc_id descriptors) in
  let? e := count_edges known descriptors {| dependents := ∅; remaining := ∅ |} in
  let ready := dom (filter (fun '(_, count) => count = 0) (remaining e)) in
  let (remaining, ordered) := drain (length descriptors) (dependents e) (remaining e) ready [] in
  if decide (remaining = ∅) then Ok ordered else Err (DependencyCycle (sorted_keys remaining)).

(** ** What an order must be *)

(** [c] declares a dependency, required or optional, on the registered component [x]. *)
Definition depends (ds : list ComponentDescriptor) (c x : ComponentId) : Prop :=
  exists d, d ∈ ds /\ desc_id d = c /\ x ∈ map dep_id (dependencies d) /\ x ∈ map desc_id ds.

(** [c] can be started once [done] have been. *)
Definition available (ds : list ComponentDescriptor) (done : list ComponentId) (c : ComponentId) : Prop :=
  c ∈ map desc_id ds /\ (c ∉ done) /\ forall x, depends ds c x -> x ∈ done.

(** Of the components that can be started next, the one with the least id. *)
Definition next_up (ds : list ComponentDescriptor) (done : list ComponentId) (c : ComponentId) : Prop :=
  available ds done c /\ forall c', available ds done c' -> String.le c c'.

Definition greedy (ds : list ComponentDescriptor) (order : list ComponentId) : Prop :=
  forall i c, order !! i = Some c -> next_up ds (take i order) c.

(** The start order: every component once, each the least that can be started by then. *)
Definition start_order (ds : list ComponentDescriptor) (order : list ComponentId) : Prop :=
  Permutation order (map desc_id ds) /\ greedy ds order.

Lemma next_up_unique ds done c c' : next_up ds done c -> next_up ds done c' -> c = c'.
Proof. intros [Ha Hl] [Ha' Hl']. apply (anti_symm String.le); auto. Qed.

Lemma start_order_unique ds o o' : start_order ds o -> start_order ds o' -> o = o'.
Proof.
  intros [Hp Hg] [Hp' Hg'].
  assert (length o = length o') as Hlen by (rewrite Hp, Hp'; done).
  assert (forall n, take n o = take n o') as Htake.
  { intros n. induction n as [|n IH]; [done|].
    destruct (o !! n) as [c|] eqn:E.
    - destruct (lookup_lt_is_Some_2 o' n) as [c' E'].
      { rewrite <- Hlen. by eapply lookup_lt_Some. }
      rewrite (take_S_r _ _ _ E), (take_S_r _ _ _ E'), IH. do 2 f_equal.
      pose proof (Hg _ _ E) as H1. pose proof (Hg' _ _ E') as H2. rewrite <- IH in H2.
      by eapply next_up_unique.
    - apply lookup_ge_None in E. rewrite !take_ge by lia. by rewrite !take_ge in IH by lia. }
  specialize (Htake (length o)). by rewrite !take_ge in Htake by lia.
Qed.

Lemma depends_perm ds ds' c x : Permutation ds ds' -> depends ds c x -> depends ds' c x.
Proof.
  intros Hp (d & Hd & Hc & Hx & Hk). exists d. rewrite <- Hp. split_and!; done.
Qed.

Lemma available_perm ds ds' done c : Permutation ds ds' -> available ds done c -> available ds' done c.
Proof.
  intros Hp (Hc & Hn & Hd). split_and!; [by rewrite <- Hp|done|].
  intros x Hx. apply Hd. by eapply depends_perm; [symmetry|].
Qed.

Lemma start_order_perm ds ds' o : Permutation ds ds' -> start_order ds o -> start_order ds' o.
Proof.
  intros Hp [Ho Hg]. split; [by rewrite <- Hp|]. intros i c Hi.
  destruct (Hg i c Hi) as [Ha Hl]. split; [by eapply available_perm|].
  intros c' Hc'. apply Hl. by eapply available_perm; [symmetry|].
Qed.

(** ** Duplicate components *)

Lemma reject_duplicates_from_ok seen l :
  reject_duplicates_from seen l = Ok tt <->
  NoDup (map desc_id l) /\ forall x, x ∈ map desc_id l -> x ∉ seen.
Proof.
  revert seen. induction l as [|d l IH]; intros seen; simpl.
  { split; [|done]. intros _. split; [constructor|set_solver]. }
  case_bool_decide as Hd.
  - split; [done|]. intros [_ H]. destruct (H (desc_id d)); set_solver.
  - rewrite IH, NoDup_cons. set_solver.
Qed.

Lemma reject_duplicates_from_err seen l e :
  reject_duplicates_from seen l = Err e -> exists id, e = AlreadyExists "component" id.
Proof.
  revert seen. induction l as [|d l IH]; intros seen; simpl; [done|].
  case_bool_decide; [intros [= <-]; by eexists|apply IH].
Qed.

(** ** Counting edges *)

Definition occ (x : ComponentId) (l : list ComponentId) : Z := Z.of_nat (length (filter (x =.) l)).

Lemma occ_app x a b : occ x (a ++ b) = occ x a + occ x b.
Proof. unfold occ. rewrite filter_app, length_app. lia. Qed.

Lemma occ_cons x y l : occ x (y :: l) = (if decide (x = y) then 1 else 0) + occ x l.
Proof. unfold occ. rewrite filter_cons. case_decide; simpl; lia. Qed.

Lemma occ_nonneg x l : 0 <= occ x l.
Proof. unfold occ. lia. Qed.

Lemma occ_zero x l : occ x l = 0 <-> x ∉ l.
Proof.
  induction l as [|y l IH]; [by split; [set_solver|]|].
  rewrite occ_cons. pose proof (occ_nonneg x l). case_decide; set_solver by lia.
Qed.

(** The registered dependencies of a component, with repetitions. *)
Definition known_deps (known : gset ComponentId) (d : ComponentDescriptor) : list ComponentId :=
  filter (fun x => x ∈ known) (map dep_id (dependencies d)).

Abbreviation known_of ds := (list_to_set (C := gset ComponentId) (map desc_id ds)).

Abbreviation lookups m x := (default [] ((m : gmap ComponentId (list ComponentId)) !! x)).

Lemma push_dependent_occ m a b x id :
  occ id (lookups (push_dependent m a b) x) =
  occ id (lookups m x) + (if decide (x = a /\ id = b) then 1 else 0).
Proof.
  unfold push_dependent. destruct (decide (x = a)) as [->|Hne].
  - rewrite lookup_insert_eq. simpl. rewrite occ_app, occ_cons. change (occ id []) with 0.
    destruct (decide (id = b)); [rewrite decide_True by done|rewrite decide_False by naive_solver]; lia.
  - rewrite lookup_insert_ne by done. rewrite decide_False by naive_solver. lia.
Qed.

Lemma count_dependencies_ok known id deps m c m' c' :
  count_dependencies known id deps m c = Ok (m', c') ->
  let kd := filter (fun x => x ∈ known) (map dep_id deps) in
  c' = c + Z.of_nat (length kd) /\ (id ∉ kd) /\
  (forall d, d ∈ deps -> optional d = false -> dep_id d ∈ known) /\
  forall x y, occ y (lookups m' x) = occ y (lookups m x) + (if decide (y = id) then occ x kd else 0).
Proof.
  revert m c. induction deps as [|d deps IH]; intros m c; simpl.
  { intros [= <- <-]. split_and!; [lia|set_solver..|]. intros x y. change (occ x (filter _ [])) with 0. case_decide; lia. }
  rewrite filter_cons. case_bool_decide as Hk; simpl.
  - case_bool_decide as Hself; [done|]. rewrite decide_True by done.
    intros (-> & Hn & Ho & Hocc)%IH. split_and!.
    + simpl. lia.
    + set_solver.
    + intros d' [->|?]%elem_of_cons; auto.
    + intros x y. rewrite Hocc, push_dependent_occ, occ_cons.
      repeat case_decide; naive_solver lia.
  - rewrite decide_False by done. destruct (optional d) eqn:Hopt; [|done].
    intros (-> & Hn & Ho & Hocc)%IH. split_and!; [done..| |done].
    intros d' [->|?]%elem_of_cons; [congruence|auto].
Qed.

Lemma count_dependencies_err known id deps m c e :
  count_dependencies known id deps m c = Err e ->
  (exists d, d ∈ deps /\ optional d = false /\ (dep_id d ∉ known) /\ e = MissingDependency id (dep_id d)) \/
  (e = DependencyCycle [id] /\ id ∈ known /\ id ∈ map dep_id deps).
Proof.
  revert m c. induction deps as [|d deps IH]; intros m c; simpl; [done|].
  case_bool_decide as Hk; simpl.
  - case_bool_decide as Hself.
    + intros [= <-]. right. subst. split_and!; [done..|]. left.
    + intros [(d' & ? & ?)|(-> & ? & ?)]%IH; [left; exists d'; set_solver|right; set_solver].
  - destruct (optional d) eqn:Hopt.
    + intros [(d' & ? & ?)|(-> & ? & ?)]%IH; [left; exists d'; set_solver|right; set_solver].
    + intros [= <-]. left. exists d. set_solver.
Qed.

(** What the edges say about the descriptors counted so far. *)
Definition edges_agree (known : gset ComponentId) (l : list ComponentDescriptor) (e : Edges) : Prop :=
  dom (remaining e) = list_to_set (map desc_id l) /\
  forall d, d ∈ l ->
    remaining e !! desc_id d = Some (Z.of_nat (length (known_deps known d))) /\
    (desc_id d ∉ known_deps known d) /\
    (forall dep, dep ∈ dependencies d -> optional dep = false -> dep_id dep ∈ known) /\
    forall x, occ (desc_id d) (lookups (dependents e) x) = occ x (known_deps known d).

Lemma count_edges_ok known l1 l2 e e' :
  NoDup (map desc_id (l1 ++ l2)) ->
  edges_agree known l1 e ->
  (forall x y, y ∉ map desc_id l1 -> occ y (lookups (dependents e) x) = 0) ->
  count_edges known l2 e = Ok e' -> edges_agree known (l1 ++ l2) e'.
Proof.
  revert l1 e. induction l2 as [|d l2 IH]; intros l1 e Hnd He Hfresh; simpl.
  { intros [= <-]. by rewrite app_nil_r. }
  rewrite result_bind_ok. intros ([m c] & Hc & Hrest).
  destruct (count_dependencies_ok _ _ _ _ _ _ _ Hc) as (-> & Hself & Hreq & Hocc). cbv zeta in Hself, Hocc.
  assert (desc_id d ∉ map desc_id l1) as Hd.
  { rewrite map_app in Hnd. apply NoDup_app in Hnd as (_ & Hnd & _). intros Hin.
    apply (Hnd _ Hin). left. }
  rewrite (cons_middle d l1 l2), app_assoc in Hnd |- *.
  eapply IH in Hrest; [exact Hrest|done|..].
  - destruct He as [Hdom He]. split; simpl.
    { rewrite dom_insert_L, Hdom, map_app. simpl. set_solver. }
    intros d' [Hin| ->%list_elem_of_singleton]%elem_of_app.
    + assert (desc_id d' <> desc_id d) as Hne.
      { intros Heq. apply Hd. rewrite <- Heq. by apply list_elem_of_fmap_2. }
      rewrite lookup_insert_ne by done. destruct (He d' Hin) as (? & ? & ? & Ho).
      split_and!; [done..|]. intros x. rewrite Hocc, Ho, decide_False by done. lia.
    + rewrite lookup_insert_eq. split_and!; [done..|].
      intros x. rewrite Hocc, Hfresh by done. by rewrite decide_True by done.
  - simpl. intros x y Hy. rewrite map_app in Hy. rewrite Hocc, Hfresh by set_solver.
    rewrite decide_False; [done|]. set_solver.
Qed.

Lemma count_edges_err known l e e' :
  (forall d, d ∈ l -> desc_id d ∈ known) ->
  count_edges known l e = Err e' ->
  (exists d dep, d ∈ l /\ dep ∈ dependencies d /\ optional dep = false /\ (dep_id dep ∉ known) /\
                 e' = MissingDependency (desc_id d) (dep_id dep)) \/
  (exists d, d ∈ l /\ desc_id d ∈ map dep_id (dependencies d) /\ e' = DependencyCycle [desc_id d]).
Proof.
  revert e. induction l as [|d l IH]; intros e Hk; simpl; [done|].
  rewrite result_bind_err. intros [Hc|([m c] & _ & Hrest)].
  - apply count_dependencies_err in Hc as [(dep & ? & ? & ? & ->)|(-> & ? & ?)].
    + left. exists d, dep. set_solver.
    + right. exists d. set_solver.
  - apply IH in Hrest as [(d' & dep & ? & Hrest)|(d' & ? & Hrest)]; [..|set_solver].
    + left. exists d', dep. set_solver.
    + right. exists d'. set_solver.
Qed.

(** ** Releasing the dependents of a component *)

Lemma release_spec deps r ready r' ready' :
  release deps r ready = (r', ready') ->
  (forall k, r' !! k = (fun c => c - occ k deps) <$> r !! k) /\
  (forall k, k ∈ ready' <-> k ∈ ready \/ exists c, r !! k = Some c /\ 1 <= c <= occ k deps).
Proof.
  revert r ready. induction deps as [|d deps IH]; intros r ready; simpl.
  { intros [= <- <-]. split.
    - intros k. change (occ k []) with 0. destruct (r !! k); simpl; [f_equal; lia|done].
    - intros k. change (occ k []) with 0. split; [by left|]. intros [?|(? & _ & ?)]; [done|lia]. }
  destruct (r !! d) as [count|] eqn:E; intros [Hr Hready]%IH; split; intros k.
  - rewrite Hr, occ_cons. destruct (decide (k = d)) as [->|Hne].
    + rewrite lookup_insert_eq, E. simpl. f_equal. lia.
    + rewrite lookup_insert_ne by done. destruct (r !! k); simpl; [f_equal; lia|done].
  - rewrite Hready, occ_cons. pose proof (occ_nonneg k deps). destruct (decide (k = d)) as [->|Hne].
    + rewrite lookup_insert_eq, E. destruct (Z.eqb_spec (count - 1) 0) as [H0|H0].
      * assert (count = 1) as -> by lia. split; [|set_solver].
        intros _. right. exists 1. split; [done|lia].
      * split; intros [?|(c & [= <-] & ?)]; [by left|right; eexists; split; [done|lia]|by left|].
        right. eexists. split; [done|lia].
    + rewrite lookup_insert_ne by done. case_match; set_solver.
  - rewrite Hr, occ_cons. destruct (decide (k = d)) as [->|Hne]; [by rewrite E|].
    destruct (r !! k); simpl; [f_equal; lia|done].
  - rewrite Hready, occ_cons. destruct (decide (k = d)) as [->|Hne]; [rewrite E|done].
    split; (intros [?|(? & [=] & _)]; by left).
Qed.

Lemma first_of_None l : first_of l = None <-> l = [].
Proof. by destruct l. Qed.

Lemma first_of_Some l x : first_of l = Some x -> x ∈ l /\ forall y, y ∈ l -> String.le x y.
Proof.
  destruct l as [|a l]; [done|]. cbn [first_of]. intros [= <-].
  induction l as [|b l [IHin IHle]]; cbn [foldr].
  { split; [left|]. by intros y ->%list_elem_of_singleton. }
  set (m := foldr _ a l) in *. destruct (String.leb b m) eqn:E.
  - split; [right; left|].
    assert (String.le b m) as Hb by (by unfold String.le; rewrite E).
    intros y [->|[->|Hy]%elem_of_cons]%elem_of_cons; [|done|].
    + transitivity m; [done|]. apply IHle. left.
    + transitivity m; [done|]. apply IHle. by right.
  - split; [set_solver|].
    assert (String.le m b) as Hb.
    { destruct (total String.le m b) as [?|Hbm]; [done|]. unfold String.le in Hbm. by rewrite E in Hbm. }
    intros y [->|[->|Hy]%elem_of_cons]%elem_of_cons; [|done|]; apply IHle; set_solver.
Qed.

(** ** The main loop *)

Section Loop.
  #[local] Set Default Proof Using "All".
  Context (ds : list ComponentDescriptor) (e : Edges).
  Hypothesis (Hnd : NoDup (map desc_id ds)) (He : edges_agree (known_of ds) ds e).

Abbreviation kdeps d := (known_deps (known_of ds) d).

Lemma depends_iff d x : d ∈ ds -> depends ds (desc_id d) x <-> x ∈ kdeps d.
Proof.
  intros Hd. unfold known_deps. rewrite list_elem_of_filter, elem_of_list_to_set. split.
  - intros (d' & Hd' & Heq & ? & ?). assert (d' = d) as ->; [|done].
    by eapply (NoDup_map_inj desc_id).
  - intros [? ?]. by exists d.
Qed.

Record loop_inv (ordered : list ComponentId) (remaining : gmap ComponentId Z)
    (ready : gset ComponentId) : Prop := {
  li_nodup : NoDup ordered;
  li_sub : forall k, k ∈ ordered -> k ∈ map desc_id ds;
  li_dom : forall k, is_Some (remaining !! k) <-> k ∈ map desc_id ds /\ k ∉ ordered;
  li_count : forall d, d ∈ ds -> desc_id d ∉ ordered ->
    remaining !! desc_id d = Some (Z.of_nat (length (filter (.∉ ordered) (kdeps d))));
  li_ready : forall k, k ∈ ready <-> remaining !! k = Some 0;
  li_greedy : greedy ds ordered;
}.

Lemma ready_available ordered r ready k :
  loop_inv ordered r ready -> k ∈ ready <-> available ds ordered k.
Proof.
  intros Hi. rewrite (li_ready _ _ _ Hi). unfold available. split.
  - intros Hk. destruct (proj1 (li_dom _ _ _ Hi k)) as [Hin Hno]; [by eexists|].
    split_and!; [done..|]. apply list_elem_of_fmap in Hin as (d & -> & Hd).
    rewrite (li_count _ _ _ Hi) in Hk by done. injection Hk as Hk.
    intros x Hx%depends_iff; [|done]. destruct (decide (x ∈ ordered)); [done|].
    assert (x ∈ filter (.∉ ordered) (kdeps d)) as Hx' by (by apply list_elem_of_filter).
    destruct (filter _ (kdeps d)); [by apply not_elem_of_nil in Hx'|simpl in Hk; lia].
  - intros (Hin & Hno & Hdep). apply list_elem_of_fmap in Hin as (d & -> & Hd).
    rewrite (li_count _ _ _ Hi) by done. do 2 f_equal.
    destruct (filter (.∉ ordered) (kdeps d)) as [|x l] eqn:E; [done|].
    assert (x ∈ filter (.∉ ordered) (kdeps d)) as Hx by (rewrite E; left).
    apply list_elem_of_filter in Hx as [Hx Hx']. by apply depends_iff, Hdep in Hx'.
Qed.

Lemma pending_after next ordered l :
  next ∉ ordered ->
  Z.of_nat (length (filter (.∉ ordered ++ [next]) l)) =
  Z.of_nat (length (filter (.∉ ordered) l)) - occ next l.
Proof.
  intros Hn. induction l as [|x l IH]; [done|]. rewrite !filter_cons, occ_cons.
  destruct (decide (next = x)) as [->|Hne].
  - rewrite decide_False by set_solver. rewrite (decide_True _ _ Hn). simpl length. lia.
  - destruct (decide (x ∉ ordered)).
    + rewrite decide_True by set_solver. simpl length. lia.
    + rewrite decide_False by set_solver. lia.
Qed.

Lemma loop_step ordered r ready next r' ready' :
  loop_inv ordered r ready -> first_of (elements ready) = Some next ->
  release (lookups (dependents e) next) (delete next r) (ready ∖ {[next]}) = (r', ready') ->
  loop_inv (ordered ++ [next]) r' ready'.
Proof.
  intros Hi [Hin Hleast]%first_of_Some Hrel. apply elem_of_elements in Hin.
  pose proof (proj1 (ready_available _ _ _ _ Hi) Hin) as Hav.
  destruct Hav as (Hids & Hno & Hdeps).
  destruct (release_spec _ _ _ _ _ Hrel) as [Hr Hready].
  assert (forall d, d ∈ ds -> desc_id d <> next -> desc_id d ∉ ordered ->
    r' !! desc_id d = Some (Z.of_nat (length (filter (.∉ ordered ++ [next]) (kdeps d))))) as Hcount.
  { intros d Hd Hne Hdo. rewrite Hr, lookup_delete_ne by done. rewrite (li_count _ _ _ Hi) by done.
    simpl. f_equal. rewrite pending_after by done. f_equal. by apply He. }
  split.
  - apply NoDup_app. split_and!; [apply Hi| |apply NoDup_singleton]. set_solver.
  - intros k [?| ->%list_elem_of_singleton]%elem_of_app; [by apply (li_sub _ _ _ Hi)|done].
  - intros k. rewrite Hr, fmap_is_Some. destruct (decide (k = next)) as [->|Hne].
    + rewrite lookup_delete_eq. split; [by intros [? [=]]|set_solver].
    + rewrite lookup_delete_ne by done. rewrite (li_dom _ _ _ Hi). set_solver.
  - intros d Hd Hd'. apply Hcount; set_solver.
  - intros k. rewrite Hready, Hr, elem_of_difference, (li_ready _ _ _ Hi), elem_of_singleton.
    destruct (decide (k = next)) as [->|Hne].
    { rewrite lookup_delete_eq. split; [intros [[_ ?]|(? & [=] & _)]; done|done]. }
    rewrite lookup_delete_ne by done.
    destruct (r !! k) as [c|] eqn:E; simpl; [|split; [intros [[? ?]|(? & ? & _)]; done|done]].
    destruct (proj1 (li_dom _ _ _ Hi k)) as [Hk Hko]; [by eexists|].
    apply list_elem_of_fmap in Hk as (d & -> & Hd).
    pose proof (Hcount d Hd Hne Hko) as Hc. rewrite Hr, lookup_delete_ne, E in Hc by done.
    injection Hc as Hc. pose proof (occ_nonneg (desc_id d) (lookups (dependents e) next)).
    split.
    + intros [[[= ->] _]|(? & [= <-] & ?)]; f_equal; lia.
    + intros [= Hz]. destruct (decide (c = 0)) as [->|]; [by left|right]. eexists. split; [done|lia].
  - intros i c. destruct (decide (i < length ordered)%nat) as [Hlt|Hge].
    + rewrite lookup_app_l, take_app_le by lia. apply Hi.
    + rewrite lookup_app_r by lia. intros H. pose proof (lookup_lt_Some _ _ _ H). simpl in *.
      replace (i - length ordered)%nat with 0%nat in H by lia. injection H as <-.
      rewrite take_app_le, take_ge by lia. split; [done|].
      intros c' Hc'. apply Hleast, elem_of_elements. by eapply ready_available.
Qed.

Lemma drain_inv fuel ordered r ready r' ordered' :
  loop_inv ordered r ready -> (length ds <= fuel + length ordered)%nat ->
  drain fuel (dependents e) r ready ordered = (r', ordered') ->
  loop_inv ordered' r' ∅.
Proof.
  revert ordered r ready. induction fuel as [|fuel IH]; intros ordered r ready Hi Hf; simpl;
    (destruct (first_of (elements ready)) as [next|] eqn:E;
     [|intros [= <- <-]; apply first_of_None, elements_empty_iff in E;
       by replace ∅ with ready by (apply leibniz_equiv; done)]).
  - intros _. exfalso. apply first_of_Some in E as [Hin%elem_of_elements _].
    apply (ready_available _ _ _ _ Hi) in Hin as (Hin & Hno & _).
    assert (length (next :: ordered) <= length (map desc_id ds))%nat as Hlen.
    { apply submseteq_length, NoDup_submseteq.
      - constructor; [done|apply Hi].
      - intros x [->|Hx]%elem_of_cons; [done|]. by apply (li_sub _ _ _ Hi). }
    rewrite length_map in Hlen. simpl in Hlen. lia.
  - destruct (release _ _ _) as [r2 ready2] eqn:Hrel.
    intros Hd. eapply IH, Hd; [by eapply loop_step|]. rewrite length_app. simpl. lia.
Qed.

Lemma initial_inv : loop_inv [] (remaining e) (dom (filter (fun '(_, count) => count = 0) (remaining e))).
Proof.
  destruct He as [Hdom Hd]. split.
  - constructor.
  - set_solver.
  - intros k. rewrite <- elem_of_dom, Hdom, elem_of_list_to_set. set_solver.
  - intros d Hin _. destruct (Hd d Hin) as (-> & _). do 3 f_equal.
    generalize (kdeps d). intros l. induction l as [|x l IH]; [done|].
    rewrite filter_cons, decide_True by set_solver. by f_equal.
  - intros k. rewrite elem_of_dom. unfold is_Some. setoid_rewrite map_lookup_filter_Some.
    split; [by intros (x & ? & ->)|eauto].
  - intros i c Hi. by rewrite lookup_nil in Hi.
Qed.

(** When nothing more is ready and something remains, every component that remains waits for
    another that does. *)
Lemma stuck_cycle ordered r k :
  loop_inv ordered r ∅ -> is_Some (r !! k) -> exists x, depends ds k x /\ is_Some (r !! x).
Proof.
  intros Hi Hk. apply (li_dom _ _ _ Hi) in Hk as [Hk Hko].
  apply list_elem_of_fmap in Hk as (d & -> & Hd).
  pose proof (li_count _ _ _ Hi d Hd Hko) as Hc.
  destruct (filter (.∉ ordered) (kdeps d)) as [|x l] eqn:E.
  { exfalso. simpl in Hc. apply (li_ready _ _ _ Hi) in Hc. set_solver. }
  assert (x ∈ filter (.∉ ordered) (kdeps d)) as Hx by (rewrite E; left).
  apply list_elem_of_filter in Hx as [Hx Hxd]. apply depends_iff in Hxd; [|done].
  exists x. split; [done|]. apply (li_dom _ _ _ Hi). destruct Hxd as (? & _ & _ & _ & ?). done.
Qed.
End Loop.

(** ** Resolution *)

(** How resolution fails: a required dependency nobody registered, or a set of components
    each of which waits for another of the set. *)
Definition missing (ds : list ComponentDescriptor) (c x : ComponentId) : Prop :=
  exists d dep, d ∈ ds /\ desc_id d = c /\ dep ∈ dependencies d /\ optional dep = false /\
                dep_id dep = x /\ (x ∉ map desc_id ds).

Definition cyclic (ds : list ComponentDescriptor) (members : list ComponentId) : Prop :=
  members <> [] /\ forall c, c ∈ members -> exists x, x ∈ members /\ depends ds c x.

Lemma sorted_keys_in (m : gmap ComponentId Z) k : k ∈ sorted_keys m <-> is_Some (m !! k).
Proof. unfold sorted_keys. by rewrite merge_sort_Permutation, elem_of_elements, elem_of_dom. Qed.

Lemma resolve_order_cases ds :
  NoDup (map desc_id ds) ->
  match resolve_order ds with
  | Ok order => start_order ds order /\ forall c x, ~ missing ds c x
  | Err (MissingDependency c x) => missing ds c x
  | Err (DependencyCycle members) => cyclic ds members
  | Err _ => False
  end.
Proof.
  intros Hnd. unfold resolve_order.
  destruct (count_edges _ ds _) as [e|err] eqn:Hcount; simpl.
  2: { apply count_edges_err in Hcount as
         [(d & dep & Hd & Hdep & Hopt & Hno & ->)|(d & Hd & Hself & ->)].
       - exists d, dep. rewrite elem_of_list_to_set in Hno. done.
       - split; [done|]. intros c ->%list_elem_of_singleton. exists (desc_id d).
         split; [left|]. exists d. split_and!; [done..|]. by apply list_elem_of_fmap_2.
       - intros d Hd. rewrite elem_of_list_to_set. by apply list_elem_of_fmap_2. }
  apply (count_edges_ok _ []) in Hcount; [|done|split; [done|set_solver]|done].
  simpl in Hcount. destruct (drain _ _ _ _ _) as [r ordered] eqn:Hdrain.
  apply (drain_inv ds e Hnd Hcount) in Hdrain; [|by apply initial_inv|simpl; lia].
  case_decide as Hr.
  - subst. split; [split; [|apply Hdrain]|].
    + apply NoDup_Permutation; [apply Hdrain|done|]. intros x. split; [apply (li_sub _ _ _ _ Hdrain)|].
      intros Hx. destruct (decide (x ∈ ordered)); [done|].
      destruct (proj2 (li_dom _ _ _ _ Hdrain x)) as [? Hl]; [done|]. by rewrite lookup_empty in Hl.
    + intros c x (d & dep & Hd & _ & Hdep & Hopt & <- & Hno).
      destruct Hcount as [_ Hagree]. destruct (Hagree d Hd) as (_ & _ & Hreq & _).
      apply Hno. rewrite <- (elem_of_list_to_set (C := gset ComponentId)). by apply Hreq.
  - split.
    + intros Hnil. apply Hr, map_empty. intros k. apply eq_None_not_Some. intros Hk.
      apply sorted_keys_in in Hk. rewrite Hnil in Hk. by apply not_elem_of_nil in Hk.
    + intros c Hc%sorted_keys_in. destruct (stuck_cycle ds e Hnd Hcount _ _ _ Hdrain Hc) as (x & ? & ?).
      exists x. by rewrite sorted_keys_in.
Qed.

(** An order that can be started rules out both failures. *)
Lemma start_order_no_cycle ds order members : start_order ds order -> ~ cyclic ds members.
Proof.
  intros [Hp Hg] [Hne Hcyc].
  assert (forall n c i, (i < n)%nat -> order !! i = Some c -> c ∉ members) as H.
  { induction n as [|n IH]; intros c i Hlt Hi Hc; [lia|].
    destruct (Hcyc c Hc) as (x & Hx & Hdep). destruct (Hg i c Hi) as [(_ & _ & Hd) _].
    apply Hd, list_elem_of_lookup in Hdep as [j Hj].
    apply lookup_take_Some in Hj as [Hj Hji]. apply (IH x j); [lia|done|done]. }
  destruct members as [|c members]; [done|].
  destruct (Hcyc c) as (x & Hx & (d & _ & _ & _ & Hids)); [left|].
  rewrite <- Hp in Hids. apply list_elem_of_lookup in Hids as [i Hi]. by apply (H (S i) x i); [lia|..].
Qed.

(** C4.  Resolution is right on every input the kernel accepts (no two components share an
    id, which is checked first): it returns an order exactly when one exists - every component
    once, each the least id that can be started at that point, so dependencies always come
    first - and otherwise names the failure: a component with a required dependency nobody
    registered, or a non-empty set of components each of which waits for another of the set,
    in which case no order exists. *)
Theorem resolve_order_correct ds :
  match reject_duplicate_components ds with
  | Err e => (exists id, e = AlreadyExists "component" id) /\ ~ NoDup (map desc_id ds)
  | Ok _ =>
      match resolve_order ds with
      | Ok order => start_order ds order /\ (forall c x, ~ missing ds c x) /\
                    forall i c x, order !! i = Some c -> depends ds c x -> x ∈ take i order
      | Err (MissingDependency c x) => missing ds c x
      | Err (DependencyCycle members) => cyclic ds members /\ forall order, ~ start_order ds order
      | Err _ => False
      end
  end.
Proof.
  unfold reject_duplicate_components. destruct (reject_duplicates_from ∅ ds) as [[]|e] eqn:E.
  - apply reject_duplicates_from_ok in E as [Hnd _].
    pose proof (resolve_order_cases ds Hnd) as H. destruct (resolve_order ds) as [order|[]]; try done.
    + destruct H as [H Hm]. split_and!; [done..|]. intros i c x Hi Hd.
      destruct H as [_ Hg]. destruct (Hg i c Hi) as [(_ & _ & Hav) _]. auto.
    + split; [done|]. intros order Ho. by eapply start_order_no_cycle.
  - split; [by eapply reject_duplicates_from_err|]. intros Hnd.
    assert (reject_duplicates_from ∅ ds = Ok tt); [|congruence].
    apply reject_duplicates_from_ok. split; [done|set_solver].
Qed.

(**  The start order does not depend on the order components were registered in: two
    registrations of the same components that resolve give the same order, and one resolves
    exactly when the other does. *)
Theorem resolve_order_registration_independent ds ds' :
  NoDup (map desc_id ds) -> Permutation ds ds' ->
  result_ok (resolve_order ds) = result_ok (resolve_order ds').
Proof.
  intros Hnd Hp.
  assert (NoDup (map desc_id ds')) as Hnd' by (by rewrite <- Hp).
  assert (forall l l' o, Permutation l l' -> NoDup (map desc_id l) -> NoDup (map desc_id l') ->
            resolve_order l = Ok o -> resolve_order l' = Ok o) as H.
  { intros l l' o Hll Hl Hl' Ho.
    pose proof (resolve_order_cases l Hl) as H1. rewrite Ho in H1. destruct H1 as [H1 Hm].
    apply (start_order_perm _ _ _ Hll) in H1.
    pose proof (resolve_order_cases l' Hl') as H2. destruct (resolve_order l') as [o'|[]]; try done.
    - f_equal. eapply start_order_unique; [apply H2|done].
    - destruct H2 as (d & dep & Hd & Hc & Hdep & Hopt & <- & Hno).
      destruct (Hm component (dep_id dep)). exists d, dep. rewrite !Hll. done.
    - by destruct (start_order_no_cycle _ _ members H1). }
  destruct (resolve_order ds) as [o|e] eqn:E; simpl.
  - by rewrite (H ds ds' o).
  - destruct (resolve_order ds') as [o'|e'] eqn:E'; [|done]. by rewrite (H ds' ds o') in E.
Qed.

(** ** Witness *)

Definition app_components : list ComponentDescriptor :=
  [requires (requires (ComponentDescriptor_new "app") "db") "cache";
   requires (ComponentDescriptor_new "cache") "config";
   requires (optionally_requires (ComponentDescriptor_new "db") "metrics") "config";
   ComponentDescriptor_new "config"].

Example app_order : resolve_order app_components = Ok ["config"; "cache"; "db"; "app"]%string.
Proof. by vm_compute. Qed.

Example cycle_members :
  resolve_order [requires (ComponentDescriptor_new "b") "a"; requires (ComponentDescriptor_new "a") "b"]
  = Err (DependencyCycle ["a"; "b"]%string).
Proof. by vm_compute. Qed.

Lemma resolve_order_registration_independent_witness :
  result_ok (resolve_order app_components) = result_ok (resolve_order (reverse app_components)).
Proof.
  apply resolve_order_registration_independent.
  - apply (bool_decide_unpack _). by vm_compute.
  - symmetry. apply reverse_Permutation.
Defined.
