(* ===== verification/Config.v ===== *)
(** * Config: layered, immutable configuration

    [crates/core/src/config.rs].  A configuration is a JSON tree assembled from layers that are
    deep-merged, single paths that are set, and environment variables.  [serde]'s conversions
    ([from_str], [from_value], the defaults of a settings type) belong to the library: they are
    arguments of the operations that use them. *)

From S2P Require Import Prelude Base.

Record Config := { root : Value }.

Definition Config_empty : Config := {| root := VObject [] |}.
Definition Config_from_value (value : Value) : Config := {| root := value |}.

(** One step of [Config::value]'s loop. *)
Definition index_value (current : Value) (segment : string) : option Value :=
  match current with
  | VObject map => Map_get segment map
  | VArray items => index ← parse_uint u64_max segment; items !! Z.to_nat index
  | _ => None
  end.

Fixpoint value_at (segments : list string) (current : Value) : option Value :=
  match segments with
  | [] => Some current
  | segment :: segments => current ← index_value current segment; value_at segments current
  end.

(** [Config::value] *)
Definition Config_value (self : Config) (path : string) : option Value :=
  if str_is_empty path then Some (root self) else value_at (split_char "." path) (root self).

Definition contains (self : Config) (path : string) : bool :=
  match Config_value self path with Some v => negb (Value_is_null v) | None => false end.

Section Typed.
  (** [serde_json::from_value], with the text of its error, and [T::default()]. *)
  Context {T : Type} (from_value : Value -> result string T) (default_value : T).

Definition get_optional (self : Config) (path : string) : Result (option T) :=
  match Config_value self path with
  | None => Ok None
  | Some value =>
      if Value_is_null value then Ok None
      else map_err (fun error => Base.Config path error) (result_map Some (from_value value))
  end.

Definition get (self : Config) (path : string) : Result T :=
  let? found := get_optional self path in
  match found with
  | Some value => Ok value
  | None => Err (Base.Config path "required setting is missing")
  end.

Definition get_or_default (self : Config) (path : string) : Result T :=
  let? found := get_optional self path in Ok (default default_value found).
End Typed.

Definition section (self : Config) (path : string) : Config :=
  match Config_value self path with
  | Some value => Config_from_value value
  | None => Config_empty
  end.

(** ** Building *)

Fixpoint merge (target layer : Value) {struct layer} : Value :=
  match target, layer with
  | VObject target, VObject layer =>
      VObject ((fix go (target : Map) (layer : Map) : Map :=
        match layer with
        | [] => target
        | (key, value) :: layer =>
            go (Map_insert key
                  match Map_get key target with
                  | Some existing => merge existing value
                  | None => value
                  end target) layer
        end) target layer)
  | _, layer => layer
  end.

(** The map a segment of [set_path] descends into: anything that is not an object is replaced
    by an empty one. *)
Definition ensure_object (current : Value) : Map :=
  match current with VObject map => map | _ => [] end.

Fixpoint set_segments (current : Value) (segments : list string) (value : Value) : Value :=
  match segments with
  | [] => current
  | [segment] => VObject (Map_insert segment value (ensure_object current))
  | segment :: segments =>
      let map := ensure_object current in
      VObject (Map_insert segment
        (set_segments (default VNull (Map_get segment map)) segments value) map)
  end.

Definition set_path (root : Value) (path : string) (value : Value) : Value :=
  if str_is_empty path then value else set_segments root (split_char "." path) value.

Record ConfigBuilder := { builder_root : Value }.

Definition ConfigBuilder_new : ConfigBuilder := {| builder_root := VObject [] |}.
Definition layer (self : ConfigBuilder) (layer : Value) : ConfigBuilder :=
  {| builder_root := merge (builder_root self) layer |}.
Definition set (self : ConfigBuilder) (path : string) (value : Value) : ConfigBuilder :=
  {| builder_root := set_path (builder_root self) path value |}.
Definition build (self : ConfigBuilder) : Config := Config_from_value (builder_root self).

(** [ConfigBuilder::env_from]; [from_str] is [serde_json::from_str]. *)
Definition env_path (rest : string) : string :=
  String.concat "." (map to_ascii_lowercase (split_str "__" rest)).

Fixpoint env_from (from_str : string -> option Value) (self : ConfigBuilder) (prefix : string)
    (vars : list (string * string)) : ConfigBuilder :=
  match vars with
  | [] => self
  | (key, raw) :: vars =>
      match strip_prefix key prefix with
      | None => env_from from_str self prefix vars
      | Some rest =>
          if str_is_empty rest then env_from from_str self prefix vars
          else
            let parsed := default (VString raw) (from_str raw) in
            env_from from_str (set self (env_path rest) parsed) prefix vars
      end
  end.

(** ** Lookups through objects *)

Fixpoint get_in (q : list string) (v : Value) : option Value :=
  match q with
  | [] => Some v
  | k :: q => match v with VObject m => w ← Map_get k m; get_in q w | _ => None end
  end.

(** A layer decides what is at a path when it has something there, or something other than an
    object above it. *)
Fixpoint decides (q : list string) (layer : Value) : bool :=
  match q, layer with
  | k :: q, VObject m => match Map_get k m with Some w => decides q w | None => false end
  | _, _ => true
  end.

(** No object holds a key twice. *)
Fixpoint wf (v : Value) : Prop :=
  match v with
  | VObject m => NoDup (map fst m) /\
      (fix all (m : Map) := match m with [] => True | (_, w) :: m => wf w /\ all m end) m
  | VArray l => (fix all l := match l with [] => True | w :: l => wf w /\ all l end) l
  | _ => True
  end.

Fixpoint merge_entries (target layer : Map) : Map :=
  match layer with
  | [] => target
  | (key, value) :: layer =>
      merge_entries (Map_insert key
        match Map_get key target with
        | Some existing => merge existing value
        | None => value
        end target) layer
  end.

Lemma merge_objects target layer : merge (VObject target) (VObject layer) = VObject (merge_entries target layer).
Proof. reflexivity. Qed.

Definition is_object (v : Value) : bool := match v with VObject _ => true | _ => false end.

Lemma merge_other target layer : is_object target && is_object layer = false -> merge target layer = layer.
Proof. by destruct target, layer. Qed.

Lemma Map_get_not_in k m : k ∉ map fst m -> Map_get k m = None.
Proof.
  induction m as [|[j w] m IH]; simpl; [done|]. intros H.
  rewrite decide_False by set_solver. apply IH. set_solver.
Qed.

Lemma merge_entries_get k target layer :
  NoDup (map fst layer) ->
  Map_get k (merge_entries target layer) =
  match Map_get k layer with
  | Some v => Some match Map_get k target with Some existing => merge existing v | None => v end
  | None => Map_get k target
  end.
Proof.
  revert target. induction layer as [|[j w] layer IH]; intros target; simpl; [done|].
  intros [Hj Hnd]%NoDup_cons. rewrite IH by done. case_decide as Hkj.
  - subst. by rewrite (Map_get_not_in j layer), Map_get_insert_eq.
  - by rewrite Map_get_insert_ne.
Qed.

Lemma wf_get m k v : wf (VObject m) -> Map_get k m = Some v -> wf v.
Proof.
  intros [_ H]. revert H. induction m as [|[j w] m IH]; simpl; [done|].
  intros [Hw Hm]. case_decide; [by intros [= <-]|auto].
Qed.

Lemma merge_get_in q target layer :
  wf layer ->
  get_in q (merge target layer) =
  match get_in q layer with
  | Some v => Some match get_in q target with Some existing => merge existing v | None => v end
  | None => if decides q layer then None else get_in q target
  end.
Proof.
  revert target layer. induction q as [|k q IH]; intros target layer Hwf; [done|].
  destruct (is_object target && is_object layer) eqn:E.
  - apply andb_true_iff in E as [Et El]. destruct target as [| | | | |t], layer as [| | | | |l]; try done.
    rewrite merge_objects. simpl. rewrite merge_entries_get by apply Hwf.
    destruct (Map_get k l) as [v|] eqn:Hl; simpl; [|done].
    pose proof (wf_get _ _ _ Hwf Hl) as Hv.
    destruct (Map_get k t) as [w|] eqn:Ht; simpl; [by apply IH|].
    destruct (get_in q v) eqn:Hq; [done|]. by case_match.
  - rewrite merge_other by done. destruct layer as [| | | | |l]; simpl; try done.
    destruct target as [| | | | |t]; try done;
      (destruct (Map_get k l) as [v|]; simpl; [|done]; destruct (get_in q v); [done|by case_match]).
Qed.

(**  Layering is what it is documented to be: after a layer is merged, what is at any
    path (through objects) is the layer's own value there - merged with what was there when
    both are objects, replacing it otherwise - and, where the layer has nothing to say, what
    was there before.  Arrays, scalars and nulls replace wholesale. *)
Theorem merge_layers target layer q :
  wf layer ->
  get_in q (merge target layer) =
    match get_in q layer with
    | Some v => Some match get_in q target with Some existing => merge existing v | None => v end
    | None => if decides q layer then None else get_in q target
    end /\
  (is_object target && is_object layer = false -> merge target layer = layer).
Proof. intros Hwf. split; [by apply merge_get_in|apply merge_other]. Qed.

(** ** Setting one path *)

Lemma set_segments_cons current k ks value :
  ks <> [] ->
  set_segments current (k :: ks) value =
  VObject (Map_insert k (set_segments (default VNull (Map_get k (ensure_object current))) ks value)
             (ensure_object current)).
Proof. by destruct ks. Qed.

Lemma value_at_set segments current value :
  segments <> [] -> value_at segments (set_segments current segments value) = Some value.
Proof.
  revert current. induction segments as [|k ks IH]; intros current Hne; [done|].
  destruct (decide (ks = [])) as [->|Hks]; simpl; [by rewrite Map_get_insert_eq|].
  destruct ks as [|k' ks]; [done|]. cbn [index_value]. rewrite Map_get_insert_eq. by apply IH.
Qed.

Lemma get_in_object current q : q <> [] -> get_in q (VObject (ensure_object current)) = get_in q current.
Proof. by destruct q, current. Qed.

Lemma get_in_set_other segments q current value :
  ~ segments `prefix_of` q -> ~ q `prefix_of` segments ->
  get_in q (set_segments current segments value) = get_in q current.
Proof.
  revert q current. induction segments as [|k ks IH]; intros [|j q] current Hpq Hqp; [done|done|..].
  { destruct Hqp. apply prefix_nil. }
  rewrite <- (get_in_object current) by done.
  destruct (decide (j = k)) as [->|Hne].
  - assert (ks <> []) as Hks by (intros ->; apply Hpq, prefix_cons, prefix_nil).
    assert (q <> []) as Hq by (intros ->; apply Hqp, prefix_cons, prefix_nil).
    rewrite set_segments_cons by done. simpl. rewrite Map_get_insert_eq. simpl. rewrite IH.
    + destruct (Map_get k (ensure_object current)); [done|]. by destruct q.
    + intros ?. by apply Hpq, prefix_cons.
    + intros ?. by apply Hqp, prefix_cons.
  - destruct ks as [|k' ks]; simpl; by rewrite Map_get_insert_ne.
Qed.

(**  Setting a path and reading it back gives the value that was set, whatever was there
    before (intermediate objects are created, anything else in the way is replaced), and what
    is at every other path through objects that neither contains nor is contained in it is
    unchanged. *)
Theorem set_then_value builder path value :
  Config_value (build (set builder path value)) path = Some value /\
  (str_is_empty path = false -> forall q,
     ~ split_char "." path `prefix_of` q -> ~ q `prefix_of` split_char "." path ->
     get_in q (root (build (set builder path value))) = get_in q (builder_root builder)).
Proof.
  unfold Config_value, build, set, set_path. simpl.
  destruct (str_is_empty path); [done|]. split.
  - apply value_at_set, split_char_nonempty.
  - intros _ q. apply get_in_set_other.
Qed.

(** ** Witnesses and examples *)

Definition defaults_layer : Value :=
  VObject [("kernel"%string, VObject [("event_capacity"%string, VNumber (NInt 16));
                                      ("shutdown_timeout_ms"%string, VNumber (NInt 1000))])].

Lemma merge_layers_witness :
  get_in ["kernel"; "event_capacity"]%string
    (merge defaults_layer (VObject [("kernel"%string, VObject [("event_capacity"%string, VNumber (NInt 512))])]))
  = Some (VNumber (NInt 512)).
Proof.
  refine (eq_trans (proj1 (merge_layers defaults_layer _ _ _)) _).
  - split; [repeat constructor; set_solver|]. split; [|done]. split; [repeat constructor; set_solver|done].
  - reflexivity.
Defined.

(** An environment variable sets its path; it is not merged as a layer would be.  An object
    in one replaces the whole section, and a numeric segment replaces an array. *)
Lemma env_object_replaces_section (from_str : string -> option Value) :
  from_str "{}"%string = Some (VObject []) ->
  let config := build (env_from from_str (layer ConfigBuilder_new defaults_layer) "AIK_"
                         [("AIK_KERNEL"%string, "{}"%string)]) in
  Config_value config "kernel.shutdown_timeout_ms" = None /\
  merge defaults_layer (VObject [("kernel"%string, VObject [])]) = defaults_layer.
Proof. intros H. simpl. rewrite H. by vm_compute. Qed.

Example env_path_example : env_path "KERNEL__EVENT_CAPACITY" = "kernel.event_capacity"%string.
Proof. by vm_compute. Qed.
