(* ===== verification/Registry.v ===== *)
(** * Registry: the typed service registry

    [crates/core/src/registry.rs].  Services are stored per capability (a type, here its name)
    and component id, type-erased; a capability may have a default.  [Erased] keeps the type a
    service was stored under, which is what [downcast_ref] tests. *)

From S2P Require Import Prelude Base.

Abbreviation TypeName := string.

Section Registry.
  Context {S : Type}.

Record Erased := { erased_type : TypeName; erased_service : S }.

(** [erased.downcast_ref::<Arc<T>>().cloned()] *)
Definition downcast (T : TypeName) (e : Erased) : option S :=
  if decide (erased_type e = T) then Some (erased_service e) else None.

Record RegistryState := {
  services : gmap TypeName (gmap ComponentId Erased);
  defaults : gmap TypeName ComponentId;
}.

Definition Registry_new : RegistryState := {| services := ∅; defaults := ∅ |}.

(** [state.services.entry(TypeId::of::<T>()).or_default()] *)
Definition slot_of (self : RegistryState) (T : TypeName) : gmap ComponentId Erased :=
  default ∅ (services self !! T).

Definition with_slot (self : RegistryState) (T : TypeName) (slot : gmap ComponentId Erased) : RegistryState :=
  {| services := <[T := slot]> (services self); defaults := defaults self |}.

Definition service_id (T : TypeName) (id : ComponentId) : string := T +:+ "/" +:+ id.

Definition register (T : TypeName) (id : ComponentId) (service : S) : action RegistryState Error unit := fun self =>
  let slot := slot_of self T in
  match slot !! id with
  | Some _ => (with_slot self T slot, Err (AlreadyExists "service" (service_id T id)))
  | None => (with_slot self T (<[id := {| erased_type := T; erased_service := service |}]> slot), Ok tt)
  end.

Definition set_default (T : TypeName) (id : ComponentId) : action RegistryState Error unit := fun self =>
  match services self !! T ≫= (.!! id) with
  | None => (self, Err (NotFound "service" (service_id T id)))
  | Some _ => ({| services := services self; defaults := <[T := id]> (defaults self) |}, Ok tt)
  end.

Definition register_default (T : TypeName) (id : ComponentId) (service : S) : action RegistryState Error unit :=
  register T id service ;! set_default T id.

Definition replace (T : TypeName) (id : ComponentId) (service : S) (self : RegistryState) : RegistryState * bool :=
  let slot := slot_of self T in
  (with_slot self T (<[id := {| erased_type := T; erased_service := service |}]> slot),
   bool_decide (is_Some (slot !! id))).

Definition try_get (self : RegistryState) (T : TypeName) (id : ComponentId) : option S :=
  slot ← services self !! T; e ← slot !! id; downcast T e.

Definition get (self : RegistryState) (T : TypeName) (id : ComponentId) : Result S :=
  ok_or (try_get self T id) (NotFound "service" (service_id T id)).

Definition sorted_ids (slot : gmap ComponentId Erased) : list ComponentId :=
  merge_sort String.le (elements (dom slot)).

Definition resolve (self : RegistryState) (T : TypeName) : Result S :=
  match services self !! T with
  | None => Err (NotFound "service" T)
  | Some slot =>
      let? erased :=
        match defaults self !! T with
        | Some id => ok_or (slot !! id) (NotFound "service" (service_id T id))
        | None =>
            match map_to_list slot with
            | [] => Err (NotFound "service" T)
            | [(_, erased)] => Ok erased
            | _ => Err (Ambiguous T (sorted_ids slot))
            end
        end in
      ok_or (downcast T erased) (Error_other ("service `" +:+ T +:+ "` has the wrong type"))
  end.

Definition list_services (self : RegistryState) (T : TypeName) : list (ComponentId * S) :=
  match services self !! T with
  | None => []
  | Some slot =>
      merge_sort (fun a b => String.le (fst a) (fst b))
        (omap (fun '(id, e) => (fun s => (id, s)) <$> downcast T e) (map_to_list slot))
  end.

Definition names (self : RegistryState) (T : TypeName) : list ComponentId :=
  match services self !! T with Some slot => sorted_ids slot | None => [] end.

Definition remove (T : TypeName) (id : ComponentId) (self : RegistryState) : RegistryState * bool :=
  match services self !! T with
  | None => (self, false)
  | Some slot =>
      let removed := bool_decide (is_Some (slot !! id)) in
      let state := with_slot self T (delete id slot) in
      (if removed && bool_decide (defaults self !! T = Some id)
       then {| services := services state; defaults := delete T (defaults state) |}
       else state, removed)
  end.

(** ** Reachable registries *)

Inductive registry_step : RegistryState -> RegistryState -> Prop :=
  | Step_register T id service s s' r : register T id service s = (s', r) -> registry_step s s'
  | Step_register_default T id service s s' r : register_default T id service s = (s', r) -> registry_step s s'
  | Step_set_default T id s s' r : set_default T id s = (s', r) -> registry_step s s'
  | Step_replace T id service s s' r : replace T id service s = (s', r) -> registry_step s s'
  | Step_remove T id s s' r : remove T id s = (s', r) -> registry_step s s'.

(** Every service is stored under its own type, and a default names a service that exists. *)
Definition registry_inv (s : RegistryState) : Prop :=
  (forall T slot id e, services s !! T = Some slot -> slot !! id = Some e -> erased_type e = T) /\
  (forall T id, defaults s !! T = Some id -> is_Some (services s !! T ≫= (.!! id))).

Lemma slot_inv s T id e : registry_inv s -> slot_of s T !! id = Some e -> erased_type e = T.
Proof.
  intros [Ht _]. unfold slot_of. destruct (services s !! T) as [slot|] eqn:E; simpl; [|done]. by apply Ht.
Qed.

(** Writing a slot keeps the invariant when what is in it has the right type and the default
    is still there. *)
Lemma with_slot_inv s T slot :
  registry_inv s ->
  (forall id e, slot !! id = Some e -> erased_type e = T) ->
  (forall id, defaults s !! T = Some id -> is_Some (slot !! id)) ->
  registry_inv (with_slot s T slot).
Proof.
  intros [Ht Hd] Hslot Hdef. split; simpl.
  - intros T' slot' id e [[<- <-]|[Hne Hs]]%lookup_insert_Some He; [by eapply Hslot|by eapply Ht].
  - intros T' id Hid. destruct (decide (T = T')) as [<-|Hne].
    + rewrite lookup_insert_eq. simpl. by apply Hdef.
    + rewrite lookup_insert_ne by done. by apply Hd.
Qed.

Lemma default_in_slot s T id : registry_inv s -> defaults s !! T = Some id -> is_Some (slot_of s T !! id).
Proof.
  intros [_ Hd] H. unfold slot_of. apply Hd in H as [e He]. destruct (services s !! T); [by exists e|done].
Qed.

Lemma register_inv T id service s s' r :
  registry_inv s -> register T id service s = (s', r) -> registry_inv s'.
Proof.
  intros Hi. unfold register. destruct (slot_of s T !! id) eqn:E; intros [= <- <-]; apply with_slot_inv; try done.
  - intros ??. by apply slot_inv.
  - intros ?. by apply default_in_slot.
  - intros id' e [[<- <-]|[_ ?]]%lookup_insert_Some; [done|by eapply slot_inv].
  - intros id' (e & He)%default_in_slot; [|done]. destruct (decide (id = id')) as [<-|].
    + rewrite lookup_insert_eq. by eexists.
    + rewrite lookup_insert_ne by done. by eexists.
Qed.

Lemma set_default_inv T id s s' r :
  registry_inv s -> set_default T id s = (s', r) -> registry_inv s'.
Proof.
  intros Hi. unfold set_default. destruct (services s !! T ≫= (.!! id)) eqn:E; intros [= <- <-]; [|done].
  split; simpl; [apply Hi|]. intros T' id' [[<- <-]|[_ ?]]%lookup_insert_Some; [by eexists|by apply Hi].
Qed.

Lemma registry_step_inv s s' : registry_inv s -> registry_step s s' -> registry_inv s'.
Proof.
  intros Hi Hstep. destruct Hstep as [T id v s s' r H|T id v s s' r H|T id s s' r H|T id v s s' r H|T id s s' r H].
  - by eapply register_inv.
  - unfold register_default, bind in H. destruct (register T id v s) as [t [[]|e]] eqn:E.
    + eapply set_default_inv; [|exact H]. by eapply register_inv.
    + injection H as <- <-. by eapply register_inv.
  - by eapply set_default_inv.
  - injection H as <- <-. apply with_slot_inv; [done|..].
    + intros id' e [[<- <-]|[_ ?]]%lookup_insert_Some; [done|by eapply slot_inv].
    + intros id' (e & He)%default_in_slot; [|done]. rewrite lookup_insert_is_Some'. right. by eexists.
  - unfold remove in H. destruct (services s !! T) as [slot|] eqn:Hs; [|by injection H as <- <-].
    injection H as <- <-. destruct Hi as [Ht Hd].
    assert (forall b : bool, (b = false -> defaults s !! T <> Some id \/ slot !! id = None) ->
      registry_inv {| services := <[T := delete id slot]> (services s);
                      defaults := if b then delete T (defaults s) else defaults s |}) as Hgoal.
    { intros b Hb. split; simpl.
      - intros T' slot' id' e [[<- <-]|[_ ?]]%lookup_insert_Some He; [|by eapply Ht].
        apply lookup_delete_Some in He as [_ He]. by eapply Ht.
      - intros T' id'. destruct (decide (T = T')) as [<-|Hne].
        + rewrite lookup_insert_eq. destruct b; [by rewrite lookup_delete_eq|]. simpl.
          intros Hdef. pose proof (Hd T id' Hdef) as [e He]. rewrite Hs in He. simpl in He.
          rewrite lookup_delete_ne; [by eexists|]. intros <-. destruct (Hb eq_refl); congruence.
        + rewrite lookup_insert_ne by done. intros Hdef. apply Hd. destruct b; [|done].
          by rewrite lookup_delete_ne in Hdef. }
    destruct (bool_decide (is_Some (slot !! id)) && bool_decide (defaults s !! T = Some id)) eqn:E.
    + apply (Hgoal true). done.
    + apply (Hgoal false). intros _. apply andb_false_iff in E as [E|E]; bools; [right|by left].
      by apply eq_None_not_Some.
Qed.

Lemma registry_reachable_inv s : rtc registry_step Registry_new s -> registry_inv s.
Proof.
  intros H. assert (registry_inv Registry_new) as Hi by (split; simpl; intros *; rewrite lookup_empty; done).
  induction H as [|s t u Hst _ IH] in Hi |- *; [done|]. by eapply IH, registry_step_inv.
Qed.

Lemma sorted_ids_in slot id : id ∈ sorted_ids slot <-> is_Some (slot !! id).
Proof. unfold sorted_ids. by rewrite merge_sort_Permutation, elem_of_elements, elem_of_dom. Qed.

Lemma sorted_ids_length slot : length (sorted_ids slot) = length (map_to_list slot).
Proof.
  unfold sorted_ids. rewrite merge_sort_Permutation, length_map_to_list.
  apply (size_dom (D := gset ComponentId)).
Qed.

Lemma try_get_stored s T id e slot :
  registry_inv s -> services s !! T = Some slot -> slot !! id = Some e ->
  downcast T e = Some (erased_service e) /\ try_get s T id = Some (erased_service e).
Proof.
  intros [Ht _] Hs He. unfold try_get, downcast. rewrite Hs. simpl. rewrite He. simpl.
  by rewrite decide_True by eauto.
Qed.

(**  In every registry that registration, replacement, removal and default-setting can
    produce, resolving a capability gives its default when it has one (which is then always
    still registered) and otherwise its only service; it fails only because nothing is
    registered, or because several services are and none is the default, in which case the
    error lists exactly the registered names.  A stored service never has the wrong type. *)
Theorem resolve_correct s T :
  rtc registry_step Registry_new s ->
  match resolve s T with
  | Ok v => exists id, try_get s T id = Some v /\
      (defaults s !! T = Some id \/ (defaults s !! T = None /\ names s T = [id]))
  | Err (NotFound _ _) => names s T = []
  | Err (Ambiguous T' candidates) => T' = T /\ defaults s !! T = None /\
      candidates = names s T /\ (2 <= length (names s T))%nat
  | Err _ => False
  end.
Proof.
  intros Hi%registry_reachable_inv. unfold resolve, names.
  destruct (services s !! T) as [slot|] eqn:Hs; [|done].
  destruct (defaults s !! T) as [id|] eqn:Hd.
  - destruct (proj2 Hi T id Hd) as [e He]. rewrite Hs in He. simpl in He. rewrite He. simpl.
    destruct (try_get_stored s T id e slot Hi Hs He) as [-> ?]. simpl. exists id. auto.
  - pose proof (sorted_ids_length slot) as Hlen.
    destruct (map_to_list slot) as [|[id e] [|ide l]] eqn:Hl; simpl.
    + by destruct (sorted_ids slot).
    + assert (slot !! id = Some e) as He by (apply elem_of_map_to_list; rewrite Hl; left).
      destruct (try_get_stored s T id e slot Hi Hs He) as [-> ?]. simpl. exists id. split; [done|].
      right. split; [done|]. destruct (sorted_ids slot) as [|x [|]] eqn:Hx; try done.
      assert (id ∈ sorted_ids slot) as Hin by (apply sorted_ids_in; by eexists).
      rewrite Hx in Hin. by apply list_elem_of_singleton in Hin as <-.
    + split_and!; [done..|]. rewrite Hlen. simpl. lia.
Qed.
End Registry.

Lemma resolve_correct_witness :
  exists id, try_get (fst (register "cache" "redis" 7%nat Registry_new)) "cache" id = Some 7%nat /\
    (defaults (fst (register "cache" "redis" 7%nat Registry_new)) !! "cache"%string = Some id \/
     (defaults (fst (register "cache" "redis" 7%nat Registry_new)) !! "cache"%string = None /\
      names (fst (register "cache" "redis" 7%nat Registry_new)) "cache" = [id])).
Proof.
  apply (resolve_correct (fst (register "cache" "redis" 7%nat Registry_new)) "cache").
  apply rtc_once. eapply Step_register. reflexivity.
Defined.
