(* ===== verification/Kernel.v ===== *)
(** * Kernel: assembly, startup and shutdown

    [crates/core/src/kernel.rs].  Components are initialised and started in dependency order,
    a failed start is rolled back, and shutdown stops what runs in reverse order.  What a
    component does in a phase is an effect on the world [W] outside the kernel with a result;
    [log] records, in order, the phases the kernel ran, the states it published and the tasks
    it cancelled or waited for. *)

From S2P Require Import Prelude Base Graph Config.

Inductive KernelState := Created | Starting | Kernel_Running | ShuttingDown | Kernel_Stopped | Kernel_Failed.
#[export] Instance KernelState_eq_dec : EqDecision KernelState.
Proof. solve_decision. Defined.

Inductive ComponentState := Registered | Initialized | Running | Stopped | Failed.
#[export] Instance ComponentState_eq_dec : EqDecision ComponentState.
Proof. solve_decision. Defined.
#[export] Instance LifecyclePhase_eq_dec : EqDecision LifecyclePhase.
Proof. solve_decision. Defined.

(** [Debug for KernelState] *)
Definition KernelState_debug (s : KernelState) : string :=
  match s with
  | Created => "Created" | Starting => "Starting" | Kernel_Running => "Running"
  | ShuttingDown => "ShuttingDown" | Kernel_Stopped => "Stopped" | Kernel_Failed => "Failed"
  end.

(** What the kernel did, in order; components are named by their position. *)
Inductive Entry :=
  | Called (index : nat) (phase : LifecyclePhase) (succeeded : bool)
  | ComponentStateChanged (index : nat) (state : ComponentState)
  | KernelStateChanged (state : KernelState)
  | TasksCancelled (index : nat)
  | TasksShutdown.
#[export] Instance Entry_eq_dec : EqDecision Entry.
Proof. solve_decision. Defined.

Section Kernel.
  Context {W : Type}.
  (** [self.ctx.tasks().shutdown(timeout)]: the task tracker belongs to [tokio]. *)
  Context (tasks_shutdown : Duration -> W -> W * Result unit).

(** The trait [Component]: [descriptor], and [init], [start] and [stop] by phase. *)
Record Component := {
  descriptor : ComponentDescriptor;
  on_phase : LifecyclePhase -> W -> W * Result unit;
}.

Record Kernel := {
  components : list Component;
  shutdown_timeout : Duration;
}.

(** The state of a kernel: its own, and each component's, by position. *)
Record State := {
  state : KernelState;
  states : list ComponentState;
  world : W;
  log : list Entry;
}.

Abbreviation M := (action State Error).

Definition emit (entry : Entry) : M unit :=
  modify (fun s => {| state := state s; states := states s; world := world s; log := log s ++ [entry] |}).

(** [Managed::set_state] *)
Definition set_state (index : nat) (new : ComponentState) : M unit :=
  modify (fun s => {| state := state s; states := <[index := new]> (states s); world := world s;
                      log := log s ++ [ComponentStateChanged index new] |}).

Definition transition (new : KernelState) : M unit :=
  modify (fun s => {| state := new; states := states s; world := world s;
                      log := log s ++ [KernelStateChanged new] |}).

(** [match phase { Init => component.init(..), .. }] *)
Definition call_phase (index : nat) (c : Component) (phase : LifecyclePhase) : M unit := fun s =>
  let (w, r) := on_phase c phase (world s) in
  ({| state := state s; states := states s; world := w;
      log := log s ++ [Called index phase (is_ok r)] |}, r).

Definition run_phase (index : nat) (c : Component) (phase : LifecyclePhase) : M unit :=
  let! outcome := try (call_phase index c phase) in
  match outcome with
  | Ok _ => ret tt
  | Err error =>
      set_state index Failed ;!
      throw (Base.Component (desc_id (descriptor c)) phase (BoxKernel error))
  end.

(** [first_error.or(Some(error))] *)
Definition option_or {A} (a b : option A) : option A := match a with Some _ => a | None => b end.

(** The states in which there is nothing to stop. *)
Definition nothing_to_stop (s : ComponentState) : bool :=
  match s with Registered | Stopped | Failed => true | Initialized | Running => false end.

(** The loop of [stop_range], over the components still to be stopped, last first. *)
Fixpoint stop_components (l : list (nat * Component)) (first_error : option Error) : M (option Error) :=
  match l with
  | [] => ret first_error
  | (index, c) :: l =>
      let! current := gets (fun s => default Registered (states s !! index)) in
      if nothing_to_stop current then
        emit (TasksCancelled index) ;! stop_components l first_error
      else
        let! stopped := try (run_phase index c Phase_Stop) in
        let! first_error :=
          match stopped with
          | Ok _ => set_state index Stopped ;! ret first_error
          | Err error => ret (option_or first_error (Some error))
          end in
        emit (TasksCancelled index) ;!
        stop_components l first_error
  end.

(** [self.components[..count].iter().rev()], with positions *)
Definition upto (self : Kernel) (count : nat) : list (nat * Component) :=
  reverse (take count (imap pair (components self))).

Definition stop_range (self : Kernel) (count : nat) : M (option Error) :=
  stop_components (upto self count) None.

Definition shutdown_tasks (self : Kernel) : M unit := fun s =>
  let (w, r) := tasks_shutdown (shutdown_timeout self) (world s) in
  ({| state := state s; states := states s; world := w; log := log s ++ [TasksShutdown] |}, r).

Definition rollback (self : Kernel) (count : nat) : M unit :=
  match count with
  | O => ret tt
  | _ => let! _ := stop_range self count in
         let! _ := try (shutdown_tasks self) in
         ret tt
  end.

(** The two loops of [start]: [reached] is how far a failure unwinds. *)
Fixpoint init_loop (self : Kernel) (index : nat) (l : list Component) : M unit :=
  match l with
  | [] => ret tt
  | c :: l =>
      let! r := try (run_phase index c Phase_Init) in
      match r with
      | Err error => rollback self index ;! transition Kernel_Failed ;! throw error
      | Ok _ => set_state index Initialized ;! init_loop self (S index) l
      end
  end.

Fixpoint start_loop (self : Kernel) (reached : nat) (index : nat) (l : list Component) : M unit :=
  match l with
  | [] => ret tt
  | c :: l =>
      let! r := try (run_phase index c Phase_Start) in
      match r with
      | Err error => rollback self reached ;! transition Kernel_Failed ;! throw error
      | Ok _ => set_state index Running ;! start_loop self reached (S index) l
      end
  end.

(** [Kernel::start] *)
Definition start (self : Kernel) : M unit :=
  let! current := gets state in
  match current with
  | Created =>
      transition Starting ;!
      init_loop self 0 (components self) ;!
      start_loop self (length (components self)) 0 (components self) ;!
      transition Kernel_Running
  | other => throw (Lifecycle ("cannot start a kernel in state `" +:+ KernelState_debug other +:+ "`"))
  end.

(** [Kernel::shutdown] *)
Definition shutdown (self : Kernel) : M unit :=
  let! current := gets state in
  match current with
  | Kernel_Stopped => ret tt
  | Created => transition Kernel_Stopped
  | _ =>
      transition ShuttingDown ;!
      let! first_error := stop_range self (length (components self)) in
      let! drained := try (shutdown_tasks self) in
      let first_error :=
        match drained with Ok _ => first_error | Err error => option_or first_error (Some error) end in
      transition Kernel_Stopped ;!
      match first_error with Some error => throw error | None => ret tt end
  end.

(** ** Assembly *)

Record PluginMetadata := { plugin_id : string; plugin_version : string; abi_version : Z;
                           plugin_description : option string }.

Definition KERNEL_ABI_VERSION : Z := 1.

(** A plugin's [register] pushes components and may fail. *)
Record Plugin := { plugin_metadata : PluginMetadata; plugin_register : list Component * Result unit }.

Record KernelSettings := { event_capacity : Z; shutdown_timeout_ms : Z }.

Record KernelBuilder := {
  b_config : option Config.Config;
  b_components : list Component;
  b_plugins : list Plugin;
  b_event_capacity : option Z;
  b_shutdown_timeout : option Duration;
}.

Fixpoint collect_plugins (seen : gset string) (plugins : list Plugin) (comps : list Component) :
    Result (list PluginMetadata * list Component) :=
  match plugins with
  | [] => Ok ([], comps)
  | plugin :: plugins =>
      let metadata := plugin_metadata plugin in
      if negb (abi_version metadata =? KERNEL_ABI_VERSION) then
        Err (Unsupported ("plugin `" +:+ plugin_id metadata +:+ "` was built against kernel ABI "
          +:+ fmt_u (abi_version metadata) +:+ ", but this kernel is ABI " +:+ fmt_u KERNEL_ABI_VERSION))
      else if bool_decide (plugin_id metadata ∈ seen) then
        Err (AlreadyExists "plugin" (plugin_id metadata))
      else
        let (pushed, r) := plugin_register plugin in
        let? _ := r in
        let? (collected, comps) :=
          collect_plugins ({[plugin_id metadata]} ∪ seen) plugins (comps ++ pushed) in
        Ok (metadata :: collected, comps)
  end.

(** [by_id[positions[&id]].take()]: the component registered under an id. *)
Definition component_by_id (comps : list Component) (id : ComponentId) : option Component :=
  find_first (fun c => bool_decide (desc_id (descriptor c) = id)) comps.

(** [KernelBuilder::build]; [from_value] and [default_settings] are [KernelSettings]'s
    derived deserialisation and its [Default]. *)
Definition build (from_value : Value -> result string KernelSettings) (default_settings : KernelSettings)
    (self : KernelBuilder) : Result (Kernel * list PluginMetadata * list ComponentState) :=
  let config := default Config_empty (b_config self) in
  let? settings := get_or_default from_value default_settings config "kernel" in
  let? (plugins, comps) := collect_plugins ∅ (b_plugins self) (b_components self) in
  let descriptors := map descriptor comps in
  let? _ := reject_duplicate_components descriptors in
  let? order := resolve_order descriptors in
  let capacity := default (event_capacity settings) (b_event_capacity self) in
  if capacity =? 0 then Err (Base.Config "kernel.event_capacity" "must be greater than zero")
  else
    let ordered := omap (component_by_id comps) order in
    Ok ({| components := ordered;
           shutdown_timeout := default (from_millis (shutdown_timeout_ms settings)) (b_shutdown_timeout self) |},
        plugins, map (fun _ => Registered) ordered).
End Kernel.

(** ** The phases a component goes through *)

(** The calls of a log: component, phase and whether it succeeded. *)
Definition phase_of (entry : Entry) : option (nat * LifecyclePhase * bool) :=
  match entry with Called index phase ok => Some (index, phase, ok) | _ => None end.

Abbreviation phases log := (omap phase_of log).

(** What a component may be asked to do, and the state it leaves it in: initialised once,
    started only once initialised, stopped only when one of those succeeded, and never called
    again after a stop or a failure. *)
Definition protocol_step (st : ComponentState) (phase : LifecyclePhase) (ok : bool) : option ComponentState :=
  match st, phase with
  | Registered, Phase_Init => Some (if ok then Initialized else Failed)
  | Initialized, Phase_Start => Some (if ok then Running else Failed)
  | (Initialized | Running), Phase_Stop => Some (if ok then Stopped else Failed)
  | _, _ => None
  end.

Definition follow (i : nat) (st : option ComponentState) (call : nat * LifecyclePhase * bool) :
    option ComponentState :=
  let '(j, phase, ok) := call in
  if decide (i = j) then st ← st; protocol_step st phase ok else st.

Definition protocol (i : nat) (calls : list (nat * LifecyclePhase * bool)) : option ComponentState :=
  foldl (follow i) (Some Registered) calls.

Section Lifecycle.
  Context {W : Type} (tasks_shutdown : Duration -> W -> W * Result unit).
  Implicit Types (self : Kernel (W := W)) (s : State (W := W)) (c : Component (W := W)).

(** Every component's state is where its calls have brought it. *)
Definition tracked s : Prop :=
  forall i st, states s !! i = Some st -> protocol i (phases (log s)) = Some st.

Lemma protocol_snoc i calls call : protocol i (calls ++ [call]) = follow i (protocol i calls) call.
Proof. unfold protocol. by rewrite foldl_app. Qed.

Lemma phases_snoc l entry :
  phases (l ++ [entry]) = phases l ++ match phase_of entry with Some call => [call] | None => [] end.
Proof. rewrite omap_app. simpl. by destruct (phase_of entry). Qed.

Lemma run_phase_spec index c phase s s' r :
  run_phase index c phase s = (s', r) ->
  phases (log s') = phases (log s) ++ [(index, phase, is_ok r)] /\ state s' = state s /\
  states s' = (if is_ok r then states s else <[index := Failed]> (states s)) /\
  match r with
  | Ok _ => True
  | Err e => exists err, e = Base.Component (desc_id (descriptor c)) phase (BoxKernel err)
  end.
Proof.
  unfold run_phase, call_phase, bind, try.
  destruct (on_phase c phase (world s)) as [w [[]|err]]; simpl; intros [= <- <-]; simpl.
  - by rewrite phases_snoc.
  - rewrite !phases_snoc, app_nil_r. split_and!; [done..|]. by eexists.
Qed.

(** A call the protocol allows, followed by the state it says, keeps the states tracked. *)
Lemma tracked_step s s' index st phase ok st' :
  tracked s -> states s !! index = Some st -> protocol_step st phase ok = Some st' ->
  phases (log s') = phases (log s) ++ [(index, phase, ok)] ->
  states s' = <[index := st']> (states s) -> tracked s'.
Proof.
  intros Ht Hst Hstep Hlog Hstates i sti. rewrite Hstates, Hlog, protocol_snoc. simpl.
  intros [(<- & <- & _)|[Hne Hi]]%list_lookup_insert_Some.
  - rewrite decide_True by done. by rewrite (Ht _ _ Hst).
  - rewrite decide_False by done. by apply Ht.
Qed.

(** Neither the calls nor the states change. *)
Lemma tracked_same s s' : tracked s -> phases (log s') = phases (log s) -> states s' = states s -> tracked s'.
Proof. intros Ht Hl Hs i st. rewrite Hl, Hs. apply Ht. Qed.

Definition active s (i : nat) : bool := negb (nothing_to_stop (default Registered (states s !! i))).

(** Stops called on the components [ixs], in that order. *)
Definition stops (ixs : list nat) (oks : list bool) : list (nat * LifecyclePhase * bool) :=
  zip_with (fun i ok => (i, Phase_Stop, ok)) ixs oks.

Record stopped (ixs : list nat) s s' : Prop := {
  st_state : state s' = state s;
  st_length : length (states s') = length (states s);
  st_calls : exists oks, length oks = length (filter (active s) ixs) /\
    phases (log s') = phases (log s) ++ stops (filter (active s) ixs) oks;
  st_inactive : forall i, i ∈ ixs -> active s' i = false;
  st_other : forall i, i ∉ ixs -> states s' !! i = states s !! i;
  st_tracked : tracked s -> tracked s';
}.

Lemma filter_ext_in (p q : nat -> bool) (l : list nat) :
  (forall i, i ∈ l -> p i = q i) -> filter p l = filter q l.
Proof.
  induction l as [|i l IH]; intros H; [done|]. rewrite !filter_cons, (H i), IH; [done|set_solver..].
Qed.

Lemma active_lookup s s' i : states s' !! i = states s !! i -> active s' i = active s i.
Proof. unfold active. by intros ->. Qed.

Lemma stopped_nil s : stopped [] s s.
Proof. split; try done; [|set_solver]. exists []. split; [done|]. by rewrite app_nil_r. Qed.

(** One component stopped (or passed over), then the rest. *)
Lemma stopped_cons i ixs s s1 s' :
  i ∉ ixs -> stopped [i] s s1 -> stopped ixs s1 s' -> stopped (i :: ixs) s s'.
Proof.
  intros Hi H1 H2.
  assert (filter (active s1) ixs = filter (active s) ixs) as Hf.
  { apply filter_ext_in. intros j Hj. apply active_lookup.
    apply H1. set_solver. }
  destruct (st_calls _ _ _ H1) as (oks1 & Hl1 & Hc1), (st_calls _ _ _ H2) as (oks2 & Hl2 & Hc2).
  rewrite Hf in Hl2, Hc2. split.
  - by rewrite (st_state _ _ _ H2), (st_state _ _ _ H1).
  - by rewrite (st_length _ _ _ H2), (st_length _ _ _ H1).
  - exists (oks1 ++ oks2). change (i :: ixs) with ([i] ++ ixs). rewrite filter_app, !length_app.
    split; [lia|]. rewrite Hc2, Hc1, <- app_assoc. f_equal. unfold stops.
    by rewrite zip_with_app by done.
  - intros j [->|Hj]%elem_of_cons; [|by apply (st_inactive _ _ _ H2)].
    rewrite (active_lookup s1); [apply H1; left|]. by apply (st_other _ _ _ H2).
  - intros j Hj. rewrite (st_other _ _ _ H2), (st_other _ _ _ H1); set_solver.
  - intros Ht. by apply H2, H1.
Qed.

Lemma stop_components_spec l first_error s s' r :
  NoDup l.*1 ->
  stop_components l first_error s = (s', r) ->
  stopped l.*1 s s' /\ exists e, r = Ok e.
Proof.
  revert first_error s. induction l as [|[i c] l IH]; intros first_error s Hnd;
    cbn [stop_components].
  { intros [= <- <-]. split; [apply stopped_nil|by eexists]. }
  apply NoDup_cons in Hnd as [Hi Hnd].
  unfold bind at 1, gets at 1. cbv beta iota.
  destruct (nothing_to_stop _) eqn:Hn.
  - unfold bind at 1, emit at 1, modify at 1. cbv beta iota. intros [Hst Hr]%IH; [|done].
    assert (active s i = false) as Hact by (unfold active; by rewrite Hn).
    split; [|done]. eapply stopped_cons; [done| |exact Hst].
    split; simpl; try done.
    + exists []. rewrite filter_cons, Hact. split; [done|]. simpl. by rewrite phases_snoc.
    + by intros j ->%list_elem_of_singleton.
    + intros Ht. eapply tracked_same; [exact Ht| |done]. simpl. by rewrite phases_snoc, app_nil_r.
  - unfold bind at 1, try at 1. destruct (run_phase i c Phase_Stop s) as [s1 r1] eqn:Hrun.
    destruct (run_phase_spec _ _ _ _ _ _ Hrun) as (Hp & Hst1 & Hs1 & _).
    destruct (states s !! i) as [st|] eqn:Hsti; [|done]. simpl in Hn.
    assert (active s i = true) as Hact by (unfold active; rewrite Hsti; simpl; by rewrite Hn).
    assert (forall (ok : bool) (s2 : State (W := W)), phases (log s2) = phases (log s) ++ [(i, Phase_Stop, ok)] ->
      states s2 = <[i := if ok then Stopped else Failed]> (states s) -> state s2 = state s ->
      stopped [i] s s2) as Hone.
    { intros ok s2 Hl2 Hs2 Hk2. split; [done|by rewrite Hs2, length_insert|..].
      - exists [ok]. rewrite Hl2. rewrite filter_cons, Hact. done.
      - intros j ->%list_elem_of_singleton. unfold active. rewrite Hs2, list_lookup_insert_eq.
        + by destruct ok.
        + by eapply lookup_lt_Some.
      - intros j Hj. rewrite Hs2, list_lookup_insert_ne; [done|]. set_solver.
      - intros Ht. eapply (tracked_step s s2); [done..| |exact Hl2|exact Hs2].
        destruct st; try done; by destruct ok. }
    destruct r1 as [[]|e]; cbv beta iota; unfold bind at 1;
      [unfold bind at 1, set_state at 1, modify at 1|]; unfold ret at 1; cbv beta iota;
      unfold bind at 1, emit at 1, modify at 1; cbv beta iota; (intros [Hst Hr]%IH; [|done]);
      (split; [|done]); (eapply stopped_cons; [done| |exact Hst]).
    + apply (Hone true); simpl; [|by rewrite Hs1|done].
      by rewrite !phases_snoc, !app_nil_r, Hp.
    + apply (Hone false); simpl; [|by rewrite Hs1|done].
      by rewrite !phases_snoc, !app_nil_r, Hp.
Qed.

Lemma upto_indices self k :
  (k <= length (components self))%nat -> (upto self k).*1 = reverse (seq 0 k).
Proof.
  intros Hk. unfold upto. rewrite fmap_reverse, fmap_take. f_equal.
  assert ((imap pair (components self)).*1 = seq 0 (length (components self))) as ->.
  { rewrite fmap_imap. apply list_eq. intros i. rewrite list_lookup_imap. simpl.
    destruct (components self !! i) eqn:E; simpl.
    - rewrite lookup_seq_lt; [done|]. by eapply lookup_lt_Some.
    - symmetry. apply lookup_seq_ge. by apply lookup_ge_None. }
  rewrite take_seq. by replace (k `min` length (components self))%nat with k by lia.
Qed.

Lemma NoDup_upto k : NoDup (reverse (seq 0 k)).
Proof. rewrite reverse_Permutation. apply NoDup_seq. Qed.

Lemma stop_range_spec self k s s' r :
  (k <= length (components self))%nat -> stop_range self k s = (s', r) ->
  stopped (reverse (seq 0 k)) s s' /\ exists e, r = Ok e.
Proof.
  intros Hk H. rewrite <- (upto_indices self) by done. eapply stop_components_spec, H.
  rewrite upto_indices by done. apply NoDup_upto.
Qed.

(** Later changes that are neither calls nor states of components. *)
Lemma stopped_then ixs s s1 s2 k :
  stopped ixs s s1 -> state s = k -> phases (log s2) = phases (log s1) -> states s2 = states s1 ->
  state s2 = k -> stopped ixs s s2.
Proof.
  intros H Hk Hl Hs Hk2. split.
  - congruence.
  - rewrite Hs. apply H.
  - rewrite Hl. apply H.
  - intros i Hi. rewrite (active_lookup s1); [by apply (st_inactive _ _ _ H)|by rewrite Hs].
  - intros i Hi. rewrite Hs. by apply (st_other _ _ _ H).
  - intros Ht. eapply tracked_same; [by apply (st_tracked _ _ _ H)|done|done].
Qed.

(** What a failure in [start] does from [s]: components before [k] are stopped, the kernel has
    failed, and the error is passed on. *)
Lemma unwind_spec self k e s s' r :
  (k <= length (components self))%nat ->
  (rollback tasks_shutdown self k ;! transition Kernel_Failed ;! throw e) s = (s', r) ->
  r = Err (A := unit) e /\ state s' = Kernel_Failed /\
  exists s1, stopped (reverse (seq 0 k)) s s1 /\ states s' = states s1 /\
    phases (log s') = phases (log s1) /\ (tracked s -> tracked s').
Proof.
  intros Hk. unfold rollback. destruct k as [|k].
  - intros [= <- <-]. split_and!; [done..|]. exists s. simpl. rewrite phases_snoc, app_nil_r.
    split_and!; [apply stopped_nil|done..|].
    intros Ht. eapply tracked_same; [exact Ht|simpl; by rewrite phases_snoc, app_nil_r|done].
  - unfold bind, try, shutdown_tasks.
    destruct (stop_range self (S k) s) as [s1 r1] eqn:Hstop.
    destruct (stop_range_spec _ _ _ _ _ Hk Hstop) as [Hs1 [fe ->]].
    destruct (tasks_shutdown _ _) as [w x]. intros [= <- <-]. split_and!; [done..|]. exists s1. simpl.
    rewrite !phases_snoc, !app_nil_r. split_and!; [done..|].
    intros Ht%(st_tracked _ _ _ Hs1). eapply tracked_same; [exact Ht| |done].
    simpl. by rewrite !phases_snoc, !app_nil_r.
Qed.

(** [phase] called on the [m] components from position [k], each succeeding. *)
Definition calls (phase : LifecyclePhase) (k m : nat) : list (nat * LifecyclePhase * bool) :=
  map (fun i => (i, phase, true)) (seq k m).

(** A start that failed at component [j] in [phase], having unwound [ixs] in that order. *)
Definition start_failed self (s s' : State (W := W)) (before : list (nat * LifecyclePhase * bool))
    (j : nat) (phase : LifecyclePhase) (ixs : list nat) (e : Error) : Prop :=
  (exists c err, components self !! j = Some c /\
     e = Base.Component (desc_id (descriptor c)) phase (BoxKernel err)) /\
  state s' = Kernel_Failed /\ (forall i, active s' i = false) /\
  exists oks, length oks = length ixs /\
    phases (log s') = phases (log s) ++ before ++ (j, phase, false) :: stops ixs oks.

Lemma calls_S phase k m : calls phase k (S m) = (k, phase, true) :: calls phase (S k) m.
Proof. done. Qed.

Lemma calls_snoc phase k m : calls phase k m ++ [((k + m)%nat, phase, true)] = calls phase k (S m).
Proof. unfold calls. rewrite seq_S, map_app. done. Qed.

(** Advancing one component of a row of equal states. *)
Lemma insert_row {A} (a b c : A) k m :
  <[k := c]> (replicate k a ++ replicate (S m) b) = replicate k a ++ c :: replicate m b.
Proof.
  rewrite insert_app_r_alt by (rewrite length_replicate; lia).
  by rewrite length_replicate, Nat.sub_diag.
Qed.

Lemma row_S {A} (a b : A) k m : replicate k a ++ a :: replicate m b = replicate (S k) a ++ replicate m b.
Proof. by rewrite replicate_S_end, <- app_assoc. Qed.

Lemma row_lookup {A} (a b c : A) k m i :
  (replicate k a ++ b :: replicate m c) !! i =
  if decide (i < k)%nat then Some a else if decide (i = k) then Some b
  else if decide (i <= k + m)%nat then Some c else None.
Proof.
  destruct (decide (i < k)%nat) as [Hi|Hi].
  - rewrite lookup_app_l by (rewrite length_replicate; lia). by apply lookup_replicate_2.
  - rewrite lookup_app_r by (rewrite length_replicate; lia). rewrite length_replicate.
    destruct (decide (i = k)) as [->|Hne]; [by rewrite Nat.sub_diag|].
    replace (i - k)%nat with (S (i - k - 1))%nat by lia. simpl. case_decide.
    + apply lookup_replicate_2. lia.
    + apply lookup_replicate_None. lia.
Qed.

(** A phase that fails while components before [k] are up. *)
Lemma fail_spec self j c phase k s s1 e s' r st :
  components self !! j = Some c -> run_phase j c phase s = (s1, Err e) ->
  (k <= length (components self))%nat -> states s !! j = Some st ->
  protocol_step st phase false = Some Failed ->
  (forall i, (k <= i)%nat -> i <> j -> active s i = false) ->
  (rollback tasks_shutdown self k ;! transition Kernel_Failed ;! throw e) s1 = (s', r) ->
  r = Err (A := unit) e /\ (tracked s -> tracked s') /\
  start_failed self s s' [] j phase (filter (active s1) (reverse (seq 0 k))) e.
Proof.
  intros Hc Hrun Hk Hst Hstep Hrest Hun.
  destruct (run_phase_spec _ _ _ _ _ _ Hrun) as (Hp & Hk1 & Hs1 & [err ->]). simpl in Hs1, Hp.
  destruct (unwind_spec _ _ _ _ _ _ Hk Hun) as (-> & Hstate & s2 & Hstop & Hs' & Hp' & Htr).
  split; [done|]. split; [|split_and!].
  - intros Ht. apply Htr. eapply tracked_step; eauto.
  - by exists c, err.
  - done.
  - intros i. rewrite (active_lookup s2) by (by rewrite Hs').
    destruct (decide (i < k)%nat) as [Hi|Hi].
    + apply (st_inactive _ _ _ Hstop). rewrite elem_of_reverse, elem_of_seq. lia.
    + rewrite (active_lookup s1).
      * unfold active. rewrite Hs1. destruct (decide (i = j)) as [->|Hne].
        { rewrite list_lookup_insert_eq; [done|]. by eapply lookup_lt_Some. }
        rewrite list_lookup_insert_ne by done. apply Hrest; [lia|done].
      * apply (st_other _ _ _ Hstop). rewrite elem_of_reverse, elem_of_seq. lia.
  - destruct (st_calls _ _ _ Hstop) as (oks & Hl & Hc'). exists oks. split; [done|].
    by rewrite Hp', Hc', Hp, <- app_assoc.
Qed.

Lemma start_failed_cons self s s1 s' before j phase ixs e :
  phases (log s1) = phases (log s) ++ [before] -> start_failed self s1 s' [] j phase ixs e ->
  start_failed self s s' [before] j phase ixs e.
Proof.
  intros Hp (Hc & Hs & Ha & oks & Hl & Hp'). split_and!; [done..|]. exists oks. split; [done|].
  by rewrite Hp', Hp, <- app_assoc.
Qed.

Lemma start_failed_more self s s1 s' call before j phase ixs e :
  phases (log s1) = phases (log s) ++ [call] -> start_failed self s1 s' before j phase ixs e ->
  start_failed self s s' (call :: before) j phase ixs e.
Proof.
  intros Hp (Hc & Hs & Ha & oks & Hl & Hp'). split_and!; [done..|]. exists oks. split; [done|].
  by rewrite Hp', Hp, <- app_assoc.
Qed.

Lemma filter_all (p : nat -> bool) (l : list nat) : (forall i, i ∈ l -> p i = true) -> filter p l = l.
Proof.
  induction l as [|i l IH]; intros H; [done|]. rewrite filter_cons, (H i) by set_solver.
  simpl. f_equal. apply IH. set_solver.
Qed.

Lemma init_loop_spec self k l s s' r :
  drop k (components self) = l -> (k <= length (components self))%nat ->
  states s = replicate k Initialized ++ replicate (length l) Registered ->
  init_loop tasks_shutdown self k l s = (s', r) ->
  (tracked s -> tracked s') /\
  match r with
  | Ok _ => state s' = state s /\ states s' = replicate (k + length l) Initialized /\
            phases (log s') = phases (log s) ++ calls Phase_Init k (length l)
  | Err e => exists j, (k <= j)%nat /\
      start_failed self s s' (calls Phase_Init k (j - k)) j Phase_Init (reverse (seq 0 j)) e
  end.
Proof.
  revert k s. induction l as [|c l IH]; intros k s Hd Hk Hrow; cbn [init_loop].
  { intros [= <- <-]. split; [done|]. split; [done|]. simpl in Hrow. rewrite app_nil_r in Hrow.
    simpl. by rewrite Nat.add_0_r, app_nil_r. }
  assert (components self !! k = Some c) as Hc by (rewrite <- (Nat.add_0_r k), <- lookup_drop, Hd; done).
  assert (drop (S k) (components self) = l) as Hd'.
  { rewrite (drop_S _ _ _ Hc) in Hd. congruence. }
  assert (states s !! k = Some Registered) as Hreg.
  { rewrite Hrow, lookup_app_r by (rewrite length_replicate; lia). by rewrite length_replicate, Nat.sub_diag. }
  unfold bind at 1, try at 1. destruct (run_phase k c Phase_Init s) as [s1 r1] eqn:Hrun.
  cbv beta iota. destruct (run_phase_spec _ _ _ _ _ _ Hrun) as (Hp & Hst & Hs1 & _).
  destruct r1 as [[]|e].
  - unfold bind at 1, set_state at 1, modify at 1. cbv beta iota. simpl in Hs1, Hp. intros Hrest.
    apply IH in Hrest as [Htr Hr]; [|done| |].
    2: { apply lookup_lt_Some in Hc. lia. }
    2: { simpl. rewrite Hs1, Hrow. simpl length. rewrite insert_row, row_S. done. }
    split.
    + intros Ht. apply Htr. apply (tracked_step s _ k _ Phase_Init true Initialized Ht Hreg); [done| |simpl; by rewrite Hs1].
      simpl. rewrite phases_snoc, app_nil_r. exact Hp.
    + destruct r as [[]|e].
      * destruct Hr as (-> & -> & ->). simpl. rewrite phases_snoc, app_nil_r, Hp.
        split_and!; [done|by rewrite Nat.add_succ_r|by rewrite <- app_assoc].
      * destruct Hr as (j & Hj & Hf). exists j. split; [lia|].
        replace (j - k)%nat with (S (j - S k)) by lia. rewrite calls_S.
        eapply start_failed_more; [|exact Hf]. simpl. by rewrite phases_snoc, app_nil_r.
  - intros Hun. eapply fail_spec in Hun as (-> & Htr & Hf); [|done..| |].
    2: { done. }
    2: { intros i Hi Hne. unfold active. rewrite Hrow. simpl length. simpl replicate.
         rewrite row_lookup. repeat case_decide; done || lia. }
    split; [done|]. exists k. split; [done|]. rewrite Nat.sub_diag.
    rewrite filter_all in Hf; [exact Hf|]. intros i. rewrite elem_of_reverse, elem_of_seq. intros Hi.
    unfold active. rewrite Hs1. simpl. rewrite list_lookup_insert_ne by lia. rewrite Hrow.
    rewrite lookup_app_l by (rewrite length_replicate; lia). rewrite lookup_replicate_2 by lia. done.
Qed.

Lemma start_loop_spec self k l s s' r :
  drop k (components self) = l -> (k <= length (components self))%nat ->
  states s = replicate k Running ++ replicate (length l) Initialized ->
  start_loop tasks_shutdown self (length (components self)) k l s = (s', r) ->
  (tracked s -> tracked s') /\
  match r with
  | Ok _ => state s' = state s /\ states s' = replicate (k + length l) Running /\
            phases (log s') = phases (log s) ++ calls Phase_Start k (length l)
  | Err e => exists j, (k <= j)%nat /\
      start_failed self s s' (calls Phase_Start k (j - k)) j Phase_Start
        (filter (fun i => bool_decide (i <> j)) (reverse (seq 0 (length (components self))))) e
  end.
Proof.
  revert k s. induction l as [|c l IH]; intros k s Hd Hk Hrow; cbn [start_loop].
  { intros [= <- <-]. split; [done|]. split; [done|]. simpl in Hrow. rewrite app_nil_r in Hrow.
    simpl. by rewrite Nat.add_0_r, app_nil_r. }
  assert (components self !! k = Some c) as Hc by (rewrite <- (Nat.add_0_r k), <- lookup_drop, Hd; done).
  assert (length (components self) = k + S (length l))%nat as Hn.
  { apply (f_equal length) in Hd. rewrite length_drop in Hd. simpl in Hd. lia. }
  assert (drop (S k) (components self) = l) as Hd'.
  { rewrite (drop_S _ _ _ Hc) in Hd. congruence. }
  assert (states s !! k = Some Initialized) as Hreg.
  { rewrite Hrow, lookup_app_r by (rewrite length_replicate; lia). by rewrite length_replicate, Nat.sub_diag. }
  unfold bind at 1, try at 1. destruct (run_phase k c Phase_Start s) as [s1 r1] eqn:Hrun.
  cbv beta iota. destruct (run_phase_spec _ _ _ _ _ _ Hrun) as (Hp & Hst & Hs1 & _).
  destruct r1 as [[]|e].
  - unfold bind at 1, set_state at 1, modify at 1. cbv beta iota. simpl in Hs1, Hp. intros Hrest.
    apply IH in Hrest as [Htr Hr]; [|done|lia|].
    2: { simpl. rewrite Hs1, Hrow. simpl length. rewrite insert_row, row_S. done. }
    split.
    + intros Ht. apply Htr. apply (tracked_step s _ k _ Phase_Start true Running Ht Hreg); [done| |simpl; by rewrite Hs1].
      simpl. rewrite phases_snoc, app_nil_r. exact Hp.
    + destruct r as [[]|e].
      * destruct Hr as (-> & -> & ->). simpl. rewrite phases_snoc, app_nil_r, Hp.
        split_and!; [done|by rewrite Nat.add_succ_r|by rewrite <- app_assoc].
      * destruct Hr as (j & Hj & Hf). exists j. split; [lia|].
        replace (j - k)%nat with (S (j - S k)) by lia. rewrite calls_S.
        eapply start_failed_more; [|exact Hf]. simpl. by rewrite phases_snoc, app_nil_r.
  - intros Hun. eapply fail_spec in Hun as (-> & Htr & Hf); [|done..| |].
    2: { done. }
    2: { intros i Hi Hne. unfold active. rewrite Hrow. simpl length. simpl replicate.
         rewrite row_lookup. repeat case_decide; done || lia. }
    split; [done|]. exists k. split; [done|]. rewrite Nat.sub_diag.
    erewrite filter_ext_in in Hf; [exact Hf|]. intros i. rewrite elem_of_reverse, elem_of_seq. intros Hi.
    unfold active. rewrite Hs1, Hrow. simpl length. simpl is_ok. cbv iota. rewrite insert_row, row_lookup.
    repeat case_decide; simpl; try lia; case_bool_decide; done || lia.
Qed.

(** A kernel as [build] leaves it: nothing has been called. *)
Definition fresh self s : Prop :=
  state s = Created /\ states s = replicate (length (components self)) Registered /\ phases (log s) = [].

(** C5.  Starting is all or nothing.  From a fresh kernel, a start that succeeds has called
    [init] on every component in dependency order, then [start] on every one in the same
    order, and nothing else; the kernel and all components are running.  A start that fails
    fails with the first error, attributed to its component and phase; every component that
    had come up - all of them but the one that failed - has been stopped, in reverse order,
    exactly once; the kernel has failed and no component is left initialised or running. *)
Theorem start_all_or_nothing self s s' r :
  fresh self s -> start tasks_shutdown self s = (s', r) ->
  let n := length (components self) in
  match r with
  | Ok _ => state s' = Kernel_Running /\ states s' = replicate n Running /\
            phases (log s') = calls Phase_Init 0 n ++ calls Phase_Start 0 n
  | Err e =>
      (exists j, start_failed self s s' (calls Phase_Init 0 j) j Phase_Init (reverse (seq 0 j)) e) \/
      (exists j, start_failed self s s' (calls Phase_Init 0 n ++ calls Phase_Start 0 j) j Phase_Start
                   (filter (fun i => bool_decide (i <> j)) (reverse (seq 0 n))) e)
  end.
Proof.
  intros (Hst & Hrow & Hlog). cbv zeta. unfold start. unfold bind at 1, gets at 1. cbv beta iota.
  rewrite Hst. unfold bind at 1, transition at 1, modify at 1. cbv beta iota.
  set (s0 := {| state := Starting; states := states s; world := world s; log := log s ++ _ |}).
  assert (phases (log s0) = []) as Hlog0 by (simpl; by rewrite phases_snoc, app_nil_r).
  unfold bind at 1. destruct (init_loop _ self 0 _ s0) as [s1 r1] eqn:Hinit.
  apply init_loop_spec in Hinit as [_ Hinit]; [|done|lia|done].
  destruct r1 as [[]|e].
  2: { intros [= <- <-]. left. destruct Hinit as (j & _ & Hf). exists j. rewrite Nat.sub_0_r in Hf.
       destruct Hf as (? & ? & ? & oks & ? & Hp). split_and!; [done..|]. exists oks. split; [done|].
       by rewrite Hp, Hlog0, Hlog. }
  destruct Hinit as (Hst1 & Hrow1 & Hlog1). rewrite Hlog0 in Hlog1. simpl in Hrow1, Hlog1.
  unfold bind at 1. destruct (start_loop _ self _ 0 _ s1) as [s2 r2] eqn:Hstart.
  apply start_loop_spec in Hstart as [_ Hstart]; [|done|lia|done].
  destruct r2 as [[]|e]; intros [= <- <-]; simpl.
  - destruct Hstart as (_ & Hrow2 & Hlog2). rewrite phases_snoc, app_nil_r, Hlog2, Hlog1. done.
  - right. destruct Hstart as (j & _ & Hf). exists j. rewrite Nat.sub_0_r in Hf.
    destruct Hf as (? & ? & ? & oks & ? & Hp). split_and!; [done..|]. exists oks. split; [done|].
    by rewrite Hp, Hlog1, Hlog, <- app_assoc.
Qed.

(** ** Shutdown *)

(** The error of [stop_range] is missing exactly when there was none before and every stop
    succeeded. *)
Lemma stop_components_errors l first_error s s' r :
  stop_components l first_error s = (s', r) ->
  exists e evs, r = Ok e /\ phases (log s') = phases (log s) ++ evs /\
    (e = None <-> first_error = None /\ Forall (fun call => snd call = true) evs).
Proof.
  revert first_error s. induction l as [|[i c] l IH]; intros first_error s; cbn [stop_components].
  { intros [= <- <-]. exists first_error, []. rewrite app_nil_r. split_and!; [done..|].
    split; [done|by intros [? _]]. }
  unfold bind at 1, gets at 1. cbv beta iota. destruct (nothing_to_stop _).
  - unfold bind at 1, emit at 1, modify at 1. cbv beta iota.
    intros (e & evs & -> & Hp & He)%IH. exists e, evs. split_and!; [done| |done].
    simpl in Hp. by rewrite phases_snoc, app_nil_r in Hp.
  - unfold bind at 1, try at 1. destruct (run_phase i c Phase_Stop s) as [s1 r1] eqn:Hrun.
    destruct (run_phase_spec _ _ _ _ _ _ Hrun) as (Hp1 & _).
    destruct r1 as [[]|e1]; cbv beta iota; unfold bind at 1;
      [unfold bind at 1, set_state at 1, modify at 1|]; unfold ret at 1; cbv beta iota;
      unfold bind at 1, emit at 1, modify at 1; cbv beta iota;
      intros (e & evs & -> & Hp & He)%IH; simpl in Hp; rewrite !phases_snoc, !app_nil_r, Hp1 in Hp.
    + exists e, ((i, Phase_Stop, true) :: evs). rewrite <- app_assoc in Hp. split_and!; [done..|].
      rewrite He, Forall_cons. naive_solver.
    + exists e, ((i, Phase_Stop, false) :: evs). rewrite <- app_assoc in Hp. split_and!; [done..|].
      rewrite He, Forall_cons. simpl. split; [|naive_solver]. destruct first_error; by intros [[=] _].
Qed.

(** A shutdown that has work to do, from where it starts stopping to where it has stopped. *)
Lemma shutdown_run self s s' r :
  state s <> Kernel_Stopped -> state s <> Created -> shutdown tasks_shutdown self s = (s', r) ->
  exists s0 s1 fe, phases (log s0) = phases (log s) /\ states s0 = states s /\
    stop_components (upto self (length (components self))) None s0 = (s1, Ok fe) /\
    state s' = Kernel_Stopped /\ states s' = states s1 /\ phases (log s') = phases (log s1) /\
    (r = Ok tt -> fe = None).
Proof.
  intros Hs Hc Hrun.
  exists {| state := ShuttingDown; states := states s; world := world s;
            log := log s ++ [KernelStateChanged ShuttingDown] |}.
  unfold shutdown, stop_range, shutdown_tasks, transition, modify, try, bind, gets in Hrun.
  destruct (state s); try done;
    (destruct (stop_components _ _ _) as [s1 x] eqn:Hstop;
     destruct (stop_components_errors _ _ _ _ _ Hstop) as (fe & _ & -> & _);
     exists s1, fe; destruct (tasks_shutdown _ (world s1)) as [w d];
     split; [simpl; by rewrite phases_snoc, app_nil_r|]; split; [done|]; split; [done|];
     destruct fe, d; simpl in Hrun; injection Hrun as <- <-; simpl;
     rewrite !phases_snoc, !app_nil_r; done).
Qed.

Lemma shutdown_stopped self s : state s = Kernel_Stopped -> shutdown tasks_shutdown self s = (s, Ok tt).
Proof. intros Ht. unfold shutdown, bind, gets. by rewrite Ht. Qed.

Lemma shutdown_created self s :
  state s = Created ->
  shutdown tasks_shutdown self s =
  ({| state := Kernel_Stopped; states := states s; world := world s;
      log := log s ++ [KernelStateChanged Kernel_Stopped] |}, Ok tt).
Proof. intros Ht. unfold shutdown, bind, gets. by rewrite Ht. Qed.

Lemma shutdown_tracked self s s' r :
  tracked s -> shutdown tasks_shutdown self s = (s', r) -> tracked s'.
Proof.
  intros Ht Hrun.
  destruct (decide (state s = Kernel_Stopped)) as [Hs|Hs].
  { rewrite shutdown_stopped in Hrun by done. by injection Hrun as <- <-. }
  destruct (decide (state s = Created)) as [Hc|Hc].
  { rewrite shutdown_created in Hrun by done. injection Hrun as <- <-.
    eapply tracked_same; [exact Ht| |done]. simpl. by rewrite phases_snoc, app_nil_r. }
  destruct (shutdown_run _ _ _ _ Hs Hc Hrun) as (s0 & s1 & fe & Hp0 & Hs0 & Hstop & Hst & Hs1 & Hp1 & Hr).
  destruct (stop_components_spec _ _ _ _ _ ltac:(rewrite upto_indices by done; apply NoDup_upto) Hstop)
    as [Hspec _].
  eapply tracked_same; [|exact Hp1|exact Hs1]. apply (st_tracked _ _ _ Hspec). eapply tracked_same; eauto.
Qed.

(**  Shutting down a kernel that is not stopped (and was not just built) stops every
    component that is initialised or running, in reverse dependency order, exactly once each,
    whatever fails along the way; afterwards the kernel is stopped and nothing is left up.  It
    succeeds only if every stop did (and the background tasks ended in time).  A kernel that
    was never started is just marked stopped, and shutting down again does nothing. *)
Theorem shutdown_stops_everything self s s' r :
  shutdown tasks_shutdown self s = (s', r) ->
  state s' = Kernel_Stopped /\
  (state s = Kernel_Stopped -> s' = s /\ r = Ok tt) /\
  (state s = Created -> r = Ok tt /\ states s' = states s /\ phases (log s') = phases (log s)) /\
  (state s <> Kernel_Stopped -> state s <> Created ->
     let up := filter (active s) (reverse (seq 0 (length (components self)))) in
     exists oks, length oks = length up /\ phases (log s') = phases (log s) ++ stops up oks /\
       (forall i, (i < length (components self))%nat -> active s' i = false) /\
       (r = Ok tt -> Forall (fun call => snd call = true) (stops up oks))) /\
  shutdown tasks_shutdown self s' = (s', Ok tt).
Proof.
  destruct (decide (state s = Kernel_Stopped)) as [Hs|Hs].
  { rewrite shutdown_stopped by done. intros [= <- <-]. split_and!; try done. by apply shutdown_stopped. }
  destruct (decide (state s = Created)) as [Hc|Hc].
  { rewrite shutdown_created by done. intros [= <- <-]. simpl. rewrite phases_snoc, app_nil_r. done. }
  intros Hrun.
  destruct (shutdown_run _ _ _ _ Hs Hc Hrun) as (s0 & s1 & fe & Hp0 & Hs0 & Hstop & Hst & Hs1 & Hp1 & Hr).
  destruct (stop_components_spec _ _ _ _ _ ltac:(rewrite upto_indices by done; apply NoDup_upto) Hstop)
    as [Hspec _]. rewrite upto_indices in Hspec by done.
  destruct (stop_components_errors _ _ _ _ _ Hstop) as (fe' & evs & [= <-] & Hevs & Hfe).
  assert (filter (active s0) (reverse (seq 0 (length (components self)))) =
          filter (active s) (reverse (seq 0 (length (components self))))) as Hf.
  { apply filter_ext_in. intros j _. apply active_lookup. by rewrite Hs0. }
  split_and!; try done; [|by apply shutdown_stopped].
  - intros _ _. destruct (st_calls _ _ _ Hspec) as (oks & Hl & Hcalls). rewrite Hf in Hl, Hcalls.
    exists oks. rewrite Hp1, Hcalls, Hp0. split_and!; [done..| |].
    + intros i Hi. rewrite (active_lookup s1) by (by rewrite Hs1).
      apply (st_inactive _ _ _ Hspec). rewrite elem_of_reverse, elem_of_seq. lia.
    + intros Hok. apply Hr, Hfe in Hok as [_ Hall]. rewrite Hevs in Hcalls.
      apply app_inv_head in Hcalls as <-. done.
Qed.

(** ** A kernel's whole life *)

Inductive kernel_step self : State (W := W) -> State (W := W) -> Prop :=
  | Step_start s s' r : start tasks_shutdown self s = (s', r) -> kernel_step self s s'
  | Step_shutdown s s' r : shutdown tasks_shutdown self s = (s', r) -> kernel_step self s s'
  | Step_outside s w : kernel_step self s {| state := state s; states := states s; world := w; log := log s |}.

Definition kernel_inv self s : Prop :=
  tracked s /\ (state s = Created -> states s = replicate (length (components self)) Registered).

Lemma start_inv self s s' r : kernel_inv self s -> start tasks_shutdown self s = (s', r) -> kernel_inv self s'.
Proof.
  intros [Ht Hrow]. unfold start. unfold bind at 1, gets at 1. cbv beta iota.
  destruct (decide (state s = Created)) as [Hst|Hst].
  2: { destruct (state s) eqn:E; try done; intros [= <- <-]; split; auto; congruence. }
  rewrite Hst. unfold bind at 1, transition at 1, modify at 1. cbv beta iota.
  set (s0 := {| state := Starting; states := states s; world := world s; log := log s ++ _ |}).
  assert (tracked s0) as Ht0.
  { eapply tracked_same; [exact Ht| |done]. simpl. by rewrite phases_snoc, app_nil_r. }
  unfold bind at 1. destruct (init_loop _ self 0 _ s0) as [s1 r1] eqn:Hinit.
  apply init_loop_spec in Hinit as [Ht1 Hinit]; [|done|lia|by apply Hrow].
  destruct r1 as [[]|e].
  2: { intros [= <- <-]. destruct Hinit as (j & _ & _ & Hf & _). split; [auto|congruence]. }
  destruct Hinit as (Hst1 & Hrow1 & _). simpl in Hrow1.
  unfold bind at 1. destruct (start_loop _ self _ 0 _ s1) as [s2 r2] eqn:Hstart.
  apply start_loop_spec in Hstart as [Ht2 Hstart]; [|done|lia|done].
  destruct r2 as [[]|e]; intros [= <- <-].
  - split; [|done]. eapply tracked_same; [by apply Ht2, Ht1| |done]. simpl. by rewrite phases_snoc, app_nil_r.
  - destruct Hstart as (j & _ & _ & Hf & _). split; [auto|congruence].
Qed.

Lemma kernel_step_inv self s s' : kernel_inv self s -> kernel_step self s s' -> kernel_inv self s'.
Proof.
  intros Hi Hstep. destruct Hstep as [s s' r H|s s' r H|s w].
  - by eapply start_inv.
  - split; [eapply shutdown_tracked, H; apply Hi|].
    destruct (decide (state s = Kernel_Stopped)) as [Hs|Hs].
    { rewrite shutdown_stopped in H by done. injection H as <- <-. apply Hi. }
    destruct (decide (state s = Created)) as [Hc|Hc].
    { rewrite shutdown_created in H by done. by injection H as <- <-. }
    destruct (shutdown_run _ _ _ _ Hs Hc H) as (? & ? & ? & _ & _ & _ & -> & _). done.
  - split; [|apply Hi]. eapply tracked_same; [apply Hi|done..].
Qed.

(**  Whatever sequence of starts and shutdowns a kernel goes through, every component is
    called only as its lifecycle allows: [init] first and once, [start] at most once and only
    after a successful [init], [stop] at most once and only if it was initialised or running,
    and nothing after a stop or a failure; and the state the kernel reports for it is the one
    those calls brought it to. *)
Theorem components_follow_the_lifecycle self s s' :
  fresh self s -> rtc (kernel_step self) s s' ->
  forall i st, states s' !! i = Some st -> protocol i (phases (log s')) = Some st.
Proof.
  intros (Hst & Hrow & Hlog) Hsteps.
  assert (kernel_inv self s) as Hi.
  { split; [|done]. intros i st. rewrite Hrow, Hlog. by intros [-> _]%lookup_replicate. }
  assert (kernel_inv self s') as [Ht _]; [|done].
  clear Hst Hrow Hlog. induction Hsteps as [|s t u Hstep _ IH]; [done|]. by eapply IH, kernel_step_inv.
Qed.
End Lifecycle.

(** ** Assembly *)

Section Assembly.
  Context {W : Type}.
  Implicit Types (comps : list (Component (W := W))).

Abbreviation id_of c := (desc_id (descriptor c)).

Lemma component_by_id_spec comps id c :
  component_by_id comps id = Some c -> c ∈ comps /\ id_of c = id.
Proof.
  intros (i & Hi & Hc & _)%find_first_Some. bools. split; [by eapply list_elem_of_lookup_2|done].
Qed.

Lemma component_by_id_known comps id : id ∈ map (fun c => id_of c) comps -> is_Some (component_by_id comps id).
Proof.
  intros Hid. destruct (component_by_id comps id) eqn:E; [by eexists|].
  apply find_first_None in E. apply list_elem_of_fmap in Hid as (c & -> & Hc).
  rewrite Forall_forall in E. specialize (E c Hc). by bools.
Qed.

Lemma layout_ids comps order :
  (forall id, id ∈ order -> id ∈ map (fun c => id_of c) comps) ->
  map (fun c => id_of c) (omap (component_by_id comps) order) = order.
Proof.
  induction order as [|id order IH]; intros H; simpl; [done|].
  destruct (component_by_id_known comps id) as [c Hc]; [apply H; left|]. rewrite Hc. simpl.
  apply component_by_id_spec in Hc as [_ ->]. f_equal. apply IH. set_solver.
Qed.

(**  A kernel that builds manages exactly the components that were registered or pushed
    by its plugins, each once, laid out in the start order of their dependencies (see C11), all
    of them registered and none called yet, and its event capacity is not zero. *)
Theorem build_lays_out_components from_value default_settings builder kernel plugins sts :
  build (W := W) from_value default_settings builder = Ok (kernel, plugins, sts) ->
  exists comps settings,
    collect_plugins ∅ (b_plugins builder) (b_components builder) = Ok (plugins, comps) /\
    Permutation (components kernel) comps /\
    start_order (map descriptor comps) (map (fun c => id_of c) (components kernel)) /\
    sts = replicate (length (components kernel)) Registered /\
    get_or_default from_value default_settings (default Config_empty (b_config builder)) "kernel" = Ok settings /\
    default (event_capacity settings) (b_event_capacity builder) <> 0.
Proof.
  unfold build. rewrite result_bind_ok. intros (settings & Hset & Hb).
  rewrite result_bind_ok in Hb. destruct Hb as ([plugins' comps] & Hplug & Hb).
  rewrite result_bind_ok in Hb. destruct Hb as ([] & Hdup & Hb).
  rewrite result_bind_ok in Hb. destruct Hb as (order & Hres & Hb).
  destruct (_ =? 0) eqn:Hcap; [done|]. injection Hb as <- <- <-. simpl.
  apply reject_duplicates_from_ok in Hdup as [Hnd _].
  pose proof (resolve_order_cases _ Hnd) as Hord. rewrite Hres in Hord. destruct Hord as [Hord _].
  assert (map desc_id (map descriptor comps) = map (fun c => id_of c) comps) as Hids by (by rewrite map_map).
  assert (map (fun c => id_of c) (omap (component_by_id comps) order) = order) as Hlay.
  { apply layout_ids. intros id Hid. by rewrite <- Hids, <- (proj1 Hord). }
  exists comps, settings. split_and!; try done.
  - apply NoDup_Permutation.
    + apply (NoDup_fmap_1 (fun c => id_of c)). change (NoDup (map (fun c => id_of c) (omap (component_by_id comps) order))).
      rewrite Hlay, (proj1 Hord). done.
    + apply (NoDup_fmap_1 (fun c => id_of c)). change (NoDup (map (fun c => id_of c) comps)). by rewrite <- Hids.
    + intros c. rewrite list_elem_of_omap. split.
      * intros (id & _ & Hc). by apply component_by_id_spec in Hc as [? _].
      * intros Hc. exists (id_of c).
        assert (id_of c ∈ map (fun c => id_of c) comps) as Hin by (by apply (list_elem_of_fmap_2 (fun c => id_of c))).
        split; [by rewrite (proj1 Hord), Hids|].
        destruct (component_by_id_known comps _ Hin) as [c' Hc']. rewrite Hc'. f_equal.
        apply component_by_id_spec in Hc' as [Hc'in Heq]. rewrite Hids in Hnd.
        by eapply (NoDup_map_inj (fun c => id_of c)).
  - by rewrite Hlay.
  - apply map_const.
  - by apply Z.eqb_neq.
Qed.
End Assembly.

(** ** Witnesses: three components, the last of which fails to start *)

Definition fine (d : ComponentDescriptor) : Component (W := nat) :=
  {| descriptor := d; on_phase := fun _ w => (S w, Ok tt) |}.

Definition failing (d : ComponentDescriptor) (in_phase : LifecyclePhase) : Component (W := nat) :=
  {| descriptor := d;
     on_phase := fun phase w => (S w, if decide (phase = in_phase) then Err (Error_other "boom") else Ok tt) |}.

Definition three : list (Component (W := nat)) :=
  [failing (requires (ComponentDescriptor_new "app") "db") Phase_Start;
   fine (requires (ComponentDescriptor_new "db") "config"); fine (ComponentDescriptor_new "config")].

Definition no_tasks : Duration -> nat -> nat * Result unit := fun _ w => (w, Ok tt).

Definition three_builder : KernelBuilder (W := nat) :=
  {| b_config := None; b_components := three; b_plugins := []; b_event_capacity := None;
     b_shutdown_timeout := None |}.

Definition default_settings : KernelSettings := {| event_capacity := 1024; shutdown_timeout_ms := 10000 |}.

Definition three_kernel : Kernel (W := nat) :=
  {| components := reverse three; shutdown_timeout := from_millis 10000 |}.

Definition three_start : State (W := nat) :=
  {| state := Created; states := replicate 3 Registered; world := 0%nat; log := [] |}.

Definition three_failed : State (W := nat) := fst (start no_tasks three_kernel three_start).

(** The run, evaluated: config, db and app are initialised, app fails to start, and db and
    config are stopped in that order. *)
Example three_phases :
  phases (log three_failed) =
  [(0, Phase_Init, true); (1, Phase_Init, true); (2, Phase_Init, true);
   (0, Phase_Start, true); (1, Phase_Start, true); (2, Phase_Start, false);
   (1, Phase_Stop, true); (0, Phase_Stop, true)]%nat.
Proof. by vm_compute. Qed.

(** A failed start waits for the background tasks, except when the very first component is
    the one that fails. *)
Example first_failure_leaves_tasks :
  TasksShutdown ∈ log three_failed /\
  TasksShutdown ∉ log (fst (start no_tasks
    {| components := [failing (ComponentDescriptor_new "app") Phase_Init]; shutdown_timeout := 0 |}
    {| state := Created; states := [Registered]; world := 0%nat; log := [] |})).
Proof. apply (bool_decide_unpack _). by vm_compute. Qed.

Lemma start_all_or_nothing_witness :
  exists j, start_failed three_kernel three_start three_failed
    (calls Phase_Init 0 3 ++ calls Phase_Start 0 j) j Phase_Start
    (filter (fun i => bool_decide (i <> j)) (reverse (seq 0 3)))
    (Base.Component "app" Phase_Start (BoxKernel (Error_other "boom"))).
Proof.
  destruct (start_all_or_nothing no_tasks three_kernel three_start three_failed
    (Err (Base.Component "app" Phase_Start (BoxKernel (Error_other "boom")))))
    as [(j & ((c & err & _ & Herr) & _))|H]; [split_and!; reflexivity|vm_compute; reflexivity|..].
  - discriminate Herr.
  - exact H.
Defined.

Lemma shutdown_stops_everything_witness :
  state (fst (shutdown no_tasks three_kernel three_failed)) = Kernel_Stopped.
Proof.
  apply (shutdown_stops_everything no_tasks three_kernel three_failed _
    (snd (shutdown no_tasks three_kernel three_failed))).
  vm_compute. reflexivity.
Defined.

Lemma components_follow_the_lifecycle_witness :
  protocol 2 (phases (log (fst (shutdown no_tasks three_kernel three_failed)))) = Some Failed.
Proof.
  apply (components_follow_the_lifecycle no_tasks three_kernel three_start).
  - split_and!; reflexivity.
  - apply (rtc_l _ _ three_failed).
    { apply (Step_start _ _ _ _ (snd (start no_tasks three_kernel three_start))). vm_compute. reflexivity. }
    apply rtc_once. apply (Step_shutdown _ _ _ _ (snd (shutdown no_tasks three_kernel three_failed))).
    vm_compute. reflexivity.
  - vm_compute. reflexivity.
Defined.

Lemma build_lays_out_components_witness :
  exists comps settings,
    collect_plugins (W := nat) ∅ [] three = Ok ([], comps) /\
    Permutation (components three_kernel) comps /\
    start_order (map descriptor comps) (map (fun c => desc_id (descriptor c)) (components three_kernel)) /\
    replicate 3 Registered = replicate 3 Registered /\
    get_or_default (fun _ => Err "no"%string) default_settings Config_empty "kernel" = Ok settings /\
    default (event_capacity settings) None <> 0.
Proof.
  apply (build_lays_out_components (fun _ => Err "no"%string) default_settings three_builder
    three_kernel [] (replicate 3 Registered)).
  vm_compute. reflexivity.
Defined.
