(* ===== verification/Breaker.v ===== *)
(** * Breaker: circuit breaker, backoff and the watched stream

    [crates/resilience/src/breaker.rs], [backoff.rs], [settings.rs] and [stream.rs], with
    [CircuitState] and [ProviderCircuitChanged] of [crates/api/src/resilience.rs].  The clock
    is read once by each operation, so each takes the time it reads. *)

From S2P Require Import Prelude Base.

(** ** Settings *)

Record RetrySettings := {
  max_attempts : Z;
  base_delay_ms : Z;
  max_delay_ms : Z;
  max_retry_after_ms : Z;
}.

Definition RetrySettings_default : RetrySettings :=
  {| max_attempts := 3; base_delay_ms := 500; max_delay_ms := 8000; max_retry_after_ms := 60000 |}.

Record BreakerSettings := { failure_threshold : Z; cooldown_ms : Z }.

Definition BreakerSettings_default : BreakerSettings := {| failure_threshold := 5; cooldown_ms := 30000 |}.

Record ResilienceSettings := {
  retry : RetrySettings;
  breaker : BreakerSettings;
  max_concurrent : Z;
  acquire_timeout_ms : Z;
}.

Definition ResilienceSettings_default : ResilienceSettings :=
  {| retry := RetrySettings_default; breaker := BreakerSettings_default; max_concurrent := 4;
     acquire_timeout_ms := 30000 |}.

Definition pass_through : ResilienceSettings :=
  {| retry := {| max_attempts := 1; base_delay_ms := 0; max_delay_ms := 0; max_retry_after_ms := 0 |};
     breaker := {| failure_threshold := 0; cooldown_ms := 0 |}; max_concurrent := 0;
     acquire_timeout_ms := 0 |}.

(** The values a [RetrySettings] and a [BreakerSettings] can hold. *)
Definition RetrySettings_ok (s : RetrySettings) : Prop :=
  u32_ok (max_attempts s) /\ u64_ok (base_delay_ms s) /\ u64_ok (max_delay_ms s) /\ u64_ok (max_retry_after_ms s).
Definition BreakerSettings_ok (s : BreakerSettings) : Prop :=
  u32_ok (failure_threshold s) /\ u64_ok (cooldown_ms s).

(** ** Jitter: splitmix64 *)

Definition splitmix64 (seed : Z) : Z :=
  let z := wrap64 (seed + 0x9E3779B97F4A7C15) in
  let z := wrap64 (Z.lxor z (Z.shiftr z 30) * 0xBF58476D1CE4E5B9) in
  let z := wrap64 (Z.lxor z (Z.shiftr z 27) * 0x94D049BB133111EB) in
  Z.lxor z (Z.shiftr z 31).

(** [Jitter::next_up_to]: the next state and the value.  [bound + 1] does not fit when the
    bound is the greatest [u64]: the addition, or the remainder by zero it wraps to, panics,
    which is [None]. *)
Definition next_up_to (state bound : Z) : Z * option Z :=
  if bound =? 0 then (state, Some 0)
  else
    let z := splitmix64 state in
    (wrap64 (state + 0x9E3779B97F4A7C15),
     if bound =? u64_max then None else Some (z `mod` (bound + 1))).

(** ** Backoff *)

Inductive Backoff :=
  | Wait (delay : Duration) (honoured_retry_after : bool)
  | Exhausted.

Record BackoffSchedule := { schedule_settings : RetrySettings; jitter : Z }.

Definition BackoffSchedule_max_attempts (self : BackoffSchedule) : Z :=
  Z.max (max_attempts (schedule_settings self)) 1.

Definition backoff_ceiling (s : RetrySettings) (attempt : Z) : Z :=
  let exponent := Z.min (sat_sub attempt 1) 16 in
  Z.min (sat_mul64 (base_delay_ms s) (Z.shiftl 1 exponent)) (max_delay_ms s).

(** [BackoffSchedule::after]; no value is a panic of the jitter. *)
Definition backoff_after (self : BackoffSchedule) (attempt : Z) (retry_after : option Duration) :
    BackoffSchedule * option Backoff :=
  if BackoffSchedule_max_attempts self <=? attempt then (self, Some Exhausted)
  else match retry_after with
  | Some requested =>
      (self, Some (Wait (Z.min requested (from_millis (max_retry_after_ms (schedule_settings self)))) true))
  | None =>
      let (state, value) := next_up_to (jitter self) (backoff_ceiling (schedule_settings self) attempt) in
      ({| schedule_settings := schedule_settings self; jitter := state |},
       (fun ms => Wait (from_millis ms) false) <$> value)
  end.

(** ** The circuit breaker *)

Inductive CircuitState := Closed | Open | HalfOpen.
#[export] Instance CircuitState_eq_dec : EqDecision CircuitState.
Proof. solve_decision. Defined.

Record ProviderCircuitChanged := {
  pc_timestamp : Timestamp;
  pc_provider : ComponentId;
  pc_from : CircuitState;
  pc_to : CircuitState;
  pc_consecutive_failures : Z;
}.

(** What does not change ([provider], [settings]) and what does: the mutex-protected state and
    the events published. *)
Record CircuitBreaker := {
  provider : ComponentId;
  settings : BreakerSettings;
  circuit : CircuitState;
  consecutive_failures : Z;
  opened_until : Timestamp;
  published : list ProviderCircuitChanged;
}.

Definition CircuitBreaker_new (provider : ComponentId) (settings : BreakerSettings) : CircuitBreaker :=
  {| provider := provider; settings := settings; circuit := Closed; consecutive_failures := 0;
     opened_until := 0; published := [] |}.

Definition enabled (self : CircuitBreaker) : bool := 0 <? failure_threshold (settings self).

Definition announce (self : CircuitBreaker) (at_ : Timestamp) (from to : CircuitState) (failures : Z) :
    CircuitBreaker :=
  {| provider := provider self; settings := settings self; circuit := circuit self;
     consecutive_failures := consecutive_failures self; opened_until := opened_until self;
     published := published self ++
       [{| pc_timestamp := at_; pc_provider := provider self; pc_from := from; pc_to := to;
           pc_consecutive_failures := failures |}] |}.

Definition with_state (self : CircuitBreaker) (c : CircuitState) (failures : Z) (until : Timestamp) :
    CircuitBreaker :=
  {| provider := provider self; settings := settings self; circuit := c;
     consecutive_failures := failures; opened_until := until; published := published self |}.

(** The refusal of an open circuit. *)
Definition circuit_open_error (provider : ComponentId) (remaining : Duration) : Error :=
  TransientFailure_wrapped
    (TransientFailure_after
      (TransientFailure_new ("the circuit for provider `" +:+ provider +:+ "` is open for another "
         +:+ fmt_u (as_millis remaining) +:+ "ms"))
      remaining)
    ("calling model provider `" +:+ provider +:+ "`").

(** [CircuitBreaker::admit] *)
Definition admit_call (self : CircuitBreaker) (now : Timestamp) : CircuitBreaker * Result unit :=
  if negb (enabled self) then (self, Ok tt)
  else match circuit self with
  | Closed | HalfOpen => (self, Ok tt)
  | Open =>
      if opened_until self <=? now then
        let failures := consecutive_failures self in
        (announce (with_state self HalfOpen failures (opened_until self)) now Open HalfOpen failures, Ok tt)
      else
        (self, Err (circuit_open_error (provider self) (Timestamp_saturating_since (opened_until self) now)))
  end.

(** [CircuitBreaker::record_success] *)
Definition record_success (self : CircuitBreaker) (now : Timestamp) : CircuitBreaker :=
  if negb (enabled self) then self
  else
    let was := circuit self in
    let self := with_state self Closed 0 (opened_until self) in
    if negb (bool_decide (was = Closed)) then announce self now was Closed 0 else self.

(** [CircuitBreaker::record_failure] *)
Definition record_failure (self : CircuitBreaker) (now : Timestamp) : CircuitBreaker :=
  if negb (enabled self) then self
  else
    let cooldown := from_millis (cooldown_ms (settings self)) in
    let was := circuit self in
    let failures := sat_add u32_max (consecutive_failures self) 1 in
    let should_open := bool_decide (was = HalfOpen) || (failure_threshold (settings self) <=? failures) in
    if negb should_open then with_state self was failures (opened_until self)
    else announce (with_state self Open failures (Timestamp_saturating_add now cooldown)) now was Open failures.

(** ** Watching a stream *)

(** What [poll_next] of the inner stream can return; a chunk is abstract. *)
Inductive Poll (A : Type) := Pending | Ready (a : A).
Arguments Pending {A}.
Arguments Ready {A} a.

(** [WatchedStream::poll_next], given what the inner stream returned and the clock: whether
    the stream is settled, and the breaker, afterwards. *)
Definition watched_poll {Chunk} (settled : bool) (self : CircuitBreaker) (now : Timestamp)
    (polled : Poll (option (Result Chunk))) : bool * CircuitBreaker :=
  match polled with
  | Ready (Some (Err error)) =>
      if settled then (settled, self)
      else (true, match transient_failure error with Some _ => record_failure self now | None => self end)
  | Ready None => if settled then (settled, self) else (true, record_success self now)
  | _ => (settled, self)
  end.

Definition watched_polls {Chunk} (settled : bool) (self : CircuitBreaker)
    (polls : list (Timestamp * Poll (option (Result Chunk)))) : bool * CircuitBreaker :=
  foldl (fun '(settled, self) '(now, polled) => watched_poll settled self now polled) (settled, self) polls.

(** ** Backoff: the delay before the next attempt *)

Lemma splitmix64_nonneg seed : 0 <= splitmix64 seed.
Proof.
  unfold splitmix64. cbv zeta. apply Z.lxor_nonneg. split; intros _.
  - apply Z.shiftr_nonneg, wrap64_ok.
  - apply wrap64_ok.
Qed.

Lemma next_up_to_bound state bound :
  0 <= bound <= u64_max ->
  match snd (next_up_to state bound) with
  | Some v => 0 <= v <= bound
  | None => bound = u64_max
  end.
Proof.
  intros Hb. unfold next_up_to. destruct (Z.eqb_spec bound 0) as [->|H0]; simpl; [lia|].
  destruct (Z.eqb_spec bound u64_max) as [->|Hm]; [done|].
  pose proof (Z.mod_pos_bound (splitmix64 state) (bound + 1)). lia.
Qed.

(** The exponential schedule, without saturation. *)
Definition exponential_ms (s : RetrySettings) (attempt : Z) : Z :=
  Z.min (base_delay_ms s * 2 ^ Z.min (attempt - 1) 16) (max_delay_ms s).

Lemma backoff_ceiling_exact s attempt :
  RetrySettings_ok s -> 1 <= attempt -> backoff_ceiling s attempt = exponential_ms s attempt.
Proof.
  intros (_ & Hb & Hm & _) Ha. unfold backoff_ceiling, exponential_ms.
  replace (Z.shiftl 1 (Z.min (sat_sub attempt 1) 16)) with (2 ^ Z.min (attempt - 1) 16).
  - int_lia.
  - rewrite Z.shiftl_1_l. f_equal. int_lia.
Qed.

Lemma exponential_range s attempt :
  RetrySettings_ok s -> 1 <= attempt -> 0 <= exponential_ms s attempt <= u64_max.
Proof.
  intros (_ & Hb & Hm & _) Ha. unfold exponential_ms.
  pose proof (Z.pow_nonneg 2 (Z.min (attempt - 1) 16)). int_lia.
Qed.

Lemma backoff_after_panic self attempt retry_after :
  RetrySettings_ok (schedule_settings self) -> 1 <= attempt ->
  snd (backoff_after self attempt retry_after) = None -> exponential_ms (schedule_settings self) attempt = u64_max.
Proof.
  intros Hok Ha. unfold backoff_after. case_match; [done|]. destruct retry_after; [done|].
  rewrite backoff_ceiling_exact by done.
  pose proof (next_up_to_bound (jitter self) _ (exponential_range _ _ Hok Ha)) as Hb.
  by destruct (next_up_to _ _) as [st [v|]].
Qed.

(**  The backoff schedule: a failed attempt is the last exactly when it is the
    [max_attempts]-th (at least one is always made); a [retry-after] the service named is
    honoured verbatim up to its cap; otherwise the delay is jittered between nothing and
    [min (base * 2^(attempt-1), max_delay)] milliseconds, with the doubling stopping at the
    seventeenth attempt and never overflowing.  The one exception is a ceiling of the greatest
    [u64], which panics. *)
Theorem backoff_schedule self attempt retry_after :
  RetrySettings_ok (schedule_settings self) -> 1 <= attempt ->
  let s := schedule_settings self in
  let last := Z.max (max_attempts s) 1 in
  match snd (backoff_after self attempt retry_after) with
  | Some Exhausted => last <= attempt
  | Some (Wait delay true) => attempt < last /\
      exists requested, retry_after = Some requested /\ delay = Z.min requested (from_millis (max_retry_after_ms s))
  | Some (Wait delay false) => attempt < last /\ retry_after = None /\
      0 <= delay <= from_millis (exponential_ms s attempt)
  | None => attempt < last /\ retry_after = None /\ exponential_ms s attempt = u64_max
  end.
Proof.
  intros Hok Ha. cbv zeta. unfold backoff_after, BackoffSchedule_max_attempts.
  destruct (Z.leb_spec (Z.max (max_attempts (schedule_settings self)) 1) attempt) as [Hl|Hl]; [done|].
  destruct retry_after as [requested|]; simpl; [by eauto|].
  rewrite backoff_ceiling_exact by done.
  pose proof (exponential_range _ _ Hok Ha) as Hc.
  pose proof (next_up_to_bound (jitter self) _ Hc) as H.
  destruct (next_up_to _ _) as [st [v|]]; simpl in *; [|done].
  split_and!; [done..| |]; unfold from_millis; lia.
Qed.

(** ** The breaker's history *)

Inductive BreakerEvent :=
  | Admit (now : Timestamp)
  | Success (now : Timestamp)
  | Failure (now : Timestamp).

Definition apply_event (e : BreakerEvent) (b : CircuitBreaker) : CircuitBreaker :=
  match e with
  | Admit now => fst (admit_call b now)
  | Success now => record_success b now
  | Failure now => record_failure b now
  end.

(** The breaker after a history, latest event first. *)
Definition after_history (b : CircuitBreaker) (h : list BreakerEvent) : CircuitBreaker :=
  foldr apply_event b h.

(** The failures since the last success. *)
Fixpoint failures (h : list BreakerEvent) : Z :=
  match h with
  | [] => 0
  | Failure _ :: h => failures h + 1
  | Success _ :: _ => 0
  | Admit _ :: h => failures h
  end.

(** When the cooldown of the latest failure ends. *)
Fixpoint cooldown_end (cooldown : Z) (h : list BreakerEvent) : Timestamp :=
  match h with
  | [] => 0
  | Failure t :: _ => sat_add64 t cooldown
  | _ :: h => cooldown_end cooldown h
  end.

(** Whether a call was made after that cooldown, since that failure. *)
Fixpoint probed (cooldown : Z) (h : list BreakerEvent) : bool :=
  match h with
  | [] => false
  | Admit t :: h => probed cooldown h || (cooldown_end cooldown h <=? t)
  | _ => false
  end.

Lemma failures_nonneg h : 0 <= failures h.
Proof. induction h as [|[] h IH]; simpl; lia. Qed.

Lemma admit_same b now :
  settings (fst (admit_call b now)) = settings b /\ provider (fst (admit_call b now)) = provider b.
Proof. unfold admit_call. by repeat case_match. Qed.

Lemma after_history_same b h :
  settings (after_history b h) = settings b /\ provider (after_history b h) = provider b.
Proof.
  induction h as [|e h [IHs IHp]]; simpl; [done|]. rewrite <- IHs, <- IHp. destruct e; simpl.
  - apply admit_same.
  - unfold record_success. by repeat case_match.
  - unfold record_failure. by repeat case_match.
Qed.

(** What the state of a breaker says about its history. *)
Record history_state (thr cooldown : Z) (h : list BreakerEvent) (b : CircuitBreaker) : Prop := {
  hs_circuit : circuit b =
    if failures h <? thr then Closed else if probed cooldown h then HalfOpen else Open;
  hs_failures : consecutive_failures b = Z.min (failures h) u32_max;
  hs_until : thr <= failures h -> opened_until b = cooldown_end cooldown h;
}.

Lemma admit_history b now thr cooldown h :
  thr = failure_threshold (settings b) -> 0 < thr -> history_state thr cooldown h b ->
  history_state thr cooldown (Admit now :: h) (fst (admit_call b now)) /\
  snd (admit_call b now) =
    (if (failures h <? thr) || probed cooldown h || (cooldown_end cooldown h <=? now) then Ok tt
     else Err (circuit_open_error (provider b) (Timestamp_saturating_since (cooldown_end cooldown h) now))).
Proof.
  intros -> Hthr [Hc Hf Hu]. unfold admit_call, enabled. destruct (Z.ltb_spec 0 (failure_threshold (settings b))); [|lia].
  simpl negb. cbv iota. rewrite Hc. destruct (Z.ltb_spec (failures h) (failure_threshold (settings b))) as [Hlt|Hge].
  { split; [|done]. split; simpl; [|done|intros; lia]. rewrite Hc. by rewrite (proj2 (Z.ltb_lt _ _) Hlt). }
  destruct (probed cooldown h) eqn:Hp.
  { split; [|done]. split; simpl; [|done|done]. rewrite Hc, Hp. by rewrite (proj2 (Z.ltb_ge _ _) Hge). }
  simpl. rewrite Hu by done. destruct (Z.leb_spec (cooldown_end cooldown h) now) as [Hn|Hn].
  - split; [|done]. split; simpl; [|done|done]. rewrite Hp, (proj2 (Z.ltb_ge _ _) Hge).
    by rewrite (proj2 (Z.leb_le _ _) Hn).
  - split; [|done]. split; simpl; [|done|done]. rewrite Hc, Hp, (proj2 (Z.ltb_ge _ _) Hge).
    by rewrite (proj2 (Z.leb_gt _ _) Hn).
Qed.

Lemma history_state_reached id s h :
  BreakerSettings_ok s -> 0 < failure_threshold s ->
  history_state (failure_threshold s) (cooldown_ms s) h (after_history (CircuitBreaker_new id s) h).
Proof.
  intros [Hthr Hcool] Hpos. induction h as [|e h IH].
  { split; simpl; [|int_lia|lia]. by rewrite (proj2 (Z.ltb_lt _ _) Hpos). }
  destruct (after_history_same (CircuitBreaker_new id s) h) as [Hs _]. simpl in Hs.
  cbn [after_history foldr apply_event]. fold (after_history (CircuitBreaker_new id s) h).
  set (b := after_history _ h) in *. pose proof (failures_nonneg h) as Hnn.
  assert (enabled b = true) as Hen by (unfold enabled; rewrite Hs; by apply Z.ltb_lt).
  destruct e as [now|now|now]; cbn [apply_event].
  - apply admit_history; by rewrite ?Hs.
  - unfold record_success. rewrite Hen. simpl.
    case_bool_decide; split; simpl; try (by rewrite (proj2 (Z.ltb_lt _ _) Hpos)); int_lia.
  - destruct IH as [Hc Hf Hu]. unfold record_failure. rewrite Hen. simpl. rewrite Hc, Hf, Hs.
    set (thr := failure_threshold s) in *.
    assert ((thr <=? sat_add u32_max (Z.min (failures h) u32_max) 1) = (thr <=? failures h + 1)) as Hle.
    { apply Bool.eq_iff_eq_true. rewrite !Z.leb_le. int_lia. }
    rewrite Hle. destruct (Z.leb_spec thr (failures h + 1)) as [Hge|Hlt].
    + rewrite orb_true_r. simpl. split; simpl.
      * by rewrite (proj2 (Z.ltb_ge _ _) Hge).
      * int_lia.
      * intros _. by apply saturating_add_millis.
    + rewrite (proj2 (Z.ltb_lt (failures h) thr)) by lia. simpl. split; simpl.
      * by rewrite (proj2 (Z.ltb_lt _ _) Hlt).
      * int_lia.
      * lia.
Qed.

(** A breaker that is switched off does nothing, whatever happens. *)
Lemma disabled_history b h : enabled b = false -> after_history b h = b.
Proof.
  intros Hen. induction h as [|e h IH]; [done|]. cbn [after_history foldr]. fold (after_history b h).
  rewrite IH. destruct e; simpl; [unfold admit_call|unfold record_success|unfold record_failure]; by rewrite Hen.
Qed.


(** ** Watched streams *)

Definition terminal {Chunk} (polled : Poll (option (Result Chunk))) : bool :=
  match polled with Ready None | Ready (Some (Err _)) => true | _ => false end.

Lemma watched_settled {Chunk} self (polls : list (Timestamp * Poll (option (Result Chunk)))) :
  watched_polls true self polls = (true, self).
Proof.
  induction polls as [|[now p] polls IH]; [done|]. unfold watched_polls in *. simpl.
  by destruct p as [|[[]|]].
Qed.

(**  A watched stream reports at most one outcome to the breaker, whatever it is polled
    for and however often after it ended: nothing while chunks arrive or it is pending; on the
    first terminal item, a success if the stream ended, a failure if it broke with an error
    marked transient, and nothing for any other error. *)
Theorem stream_reports_one_outcome {Chunk} self (polls : list (Timestamp * Poll (option (Result Chunk)))) :
  snd (watched_polls false self polls) =
  match find_first (fun p => terminal (snd p)) polls with
  | Some (now, Ready None) => record_success self now
  | Some (now, Ready (Some (Err error))) =>
      match transient_failure error with Some _ => record_failure self now | None => self end
  | _ => self
  end.
Proof.
  induction polls as [|[now p] polls IH]; [done|]. cbn [find_first snd].
  assert (watched_polls false self ((now, p) :: polls) =
    let '(settled, self) := watched_poll false self now p in watched_polls settled self polls) as ->.
  { unfold watched_polls. simpl. by destruct (watched_poll false self now p). }
  destruct p as [|[[c|e]|]]; simpl; [done|done|by rewrite watched_settled..].
Qed.

(** Calls whose streams are accepted and then break: [with_retries] has recorded a success
    when the stream was established, and its end records a failure. *)
Definition broken_streams (b : CircuitBreaker) (times : list (Timestamp * Timestamp)) : CircuitBreaker :=
  foldl (fun b '(accepted, broke) => record_failure (record_success b accepted) broke) b times.

(** A service that accepts every request and fails halfway through every answer never opens
    the circuit unless the threshold is one: each success wipes out the failure before it. *)
Lemma broken_streams_never_open id s times :
  BreakerSettings_ok s -> 2 <= failure_threshold s ->
  circuit (broken_streams (CircuitBreaker_new id s) times) = Closed.
Proof.
  intros Hs Ht.
  assert (forall b, settings b = s -> circuit b = Closed ->
    circuit (broken_streams b times) = Closed) as H; [|by apply H].
  induction times as [|[a t] times IH]; intros b Hb Hc; [done|].
  change (circuit (broken_streams (record_failure (record_success b a) t) times) = Closed).
  assert (record_failure (record_success b a) t = with_state b Closed 1 (opened_until b)) as ->.
  { assert (enabled b = true) as Hen by (unfold enabled; rewrite Hb; apply Z.ltb_lt; lia).
    unfold record_success. rewrite Hen, Hc. simpl. unfold record_failure.
    change (enabled (with_state b Closed 0 (opened_until b))) with (enabled b). rewrite Hen. simpl. rewrite Hb.
    replace (sat_add u32_max 0 1) with 1 by int_lia.
    by rewrite (proj2 (Z.leb_gt _ _)) by lia. }
  by apply IH.
Qed.

(** A half-open circuit admits every call, not one. *)
Lemma half_open_admits_all b now now' :
  circuit b = Open -> enabled b = true -> opened_until b <= now ->
  snd (admit_call b now) = Ok tt /\ snd (admit_call (fst (admit_call b now)) now') = Ok tt.
Proof.
  intros Hc He Hn. unfold admit_call at 1 3. rewrite He, Hc, (proj2 (Z.leb_le _ _) Hn). simpl. split; [done|].
  unfold admit_call. simpl. by destruct (enabled _).
Qed.

(** ** Witnesses *)

Definition day_schedule : BackoffSchedule := {| schedule_settings := RetrySettings_default; jitter := 42 |}.

Lemma backoff_schedule_witness :
  match snd (backoff_after day_schedule 2 None) with
  | Some (Wait delay false) => 0 <= delay <= from_millis 1000
  | _ => False
  end.
Proof.
  pose proof (backoff_schedule day_schedule 2 None) as H.
  assert (RetrySettings_ok (schedule_settings day_schedule)) as Hok by (unfold RetrySettings_ok; simpl; int_lia).
  specialize (H Hok ltac:(lia)). cbv zeta in H.
  destruct (snd (backoff_after day_schedule 2 None)) as [[delay []|]|] eqn:E;
    [vm_compute in E; discriminate E| |vm_compute in E; discriminate E..].
  apply H.
Defined.

(** The greatest ceiling: drawing the jitter panics. *)
Example greatest_ceiling_panics :
  snd (backoff_after {| schedule_settings := {| max_attempts := 3; base_delay_ms := u64_max;
    max_delay_ms := u64_max; max_retry_after_ms := 0 |}; jitter := 0 |} 1 None) = None.
Proof. by vm_compute. Qed.

