(* ===== verification/Resilience.v ===== *)
(** * Resilience: a provider wrapped in retries, a breaker and a concurrency limit

    [crates/resilience/src/provider.rs] and [limit.rs].  [with_retries] is generic over the
    operation attempted; the semaphore, the timers and the cancellation token belong to
    [tokio], and what the attempt does belongs to the wrapped provider: all of them act on a
    world [W]. *)

From S2P Require Import Prelude Base Breaker.

Abbreviation ModelId := string.

Record ProviderRetryScheduled := {
  rs_correlation : CorrelationId;
  rs_timestamp : Timestamp;
  rs_provider : ComponentId;
  rs_model : ModelId;
  rs_attempt : Z;
  rs_delay_ms : Z;
  rs_honoured_retry_after : bool;
}.

(** How a [tokio::select!] over cancellation, a free slot and a timer ends. *)
Inductive Acquire := CancelledFirst | SlotFree | Elapsed.

(** How a call ends without a value: an error, or a panic of the jitter (see [next_up_to]).
    [OutOfFuel] is not an outcome of the code; it is shown never to happen. *)
Inductive Exit := Fail (e : Error) | Panicked | OutOfFuel.

Section Resilience.
  Context {W T : Type} (clock_now : W -> Timestamp).
  (** The semaphore: [try_acquire_owned], dropping a permit, and waiting for a slot against
      cancellation and a timer. *)
  Context (try_acquire : W -> W * bool) (release : W -> W).
  Context (wait_for_slot : ExecutionContext -> Duration -> W -> W * Acquire).
  (** [tokio::time::sleep] against cancellation: whether cancellation came first. *)
  Context (sleep : ExecutionContext -> Duration -> W -> W * bool).
  (** The operation: one call of the wrapped provider. *)
  Context (attempt : ExecutionContext -> W -> W * Result T).

Record ConcurrencyLimit := { permits : Z; acquire_timeout : Duration }.

Record ResilientProvider := {
  rp_provider : ComponentId;
  limit : ConcurrencyLimit;
  has_events : bool;
}.

(** What a call changes.  [held] counts the permits the call holds and [outcomes] what the
    wrapped provider answered, in order. *)
Record State := {
  world : W;
  breaker : CircuitBreaker;
  schedule : BackoffSchedule;
  retries : list ProviderRetryScheduled;
  held : Z;
  outcomes : list (Result T);
}.

Abbreviation M := (action State Exit).

Definition with_world (s : State) (w : W) : State :=
  {| world := w; breaker := breaker s; schedule := schedule s; retries := retries s; held := held s;
     outcomes := outcomes s |}.
Definition with_breaker (s : State) (b : CircuitBreaker) : State :=
  {| world := world s; breaker := b; schedule := schedule s; retries := retries s; held := held s;
     outcomes := outcomes s |}.
Definition hold (s : State) (n : Z) : State :=
  {| world := world s; breaker := breaker s; schedule := schedule s; retries := retries s; held := held s + n;
     outcomes := outcomes s |}.

Definition on_world {A} (f : W -> W * A) : M A := fun s =>
  let (w, a) := f (world s) in (with_world s w, Ok a).

Definition breaker_admit : M unit := fun s =>
  let (b, r) := admit_call (breaker s) (clock_now (world s)) in (with_breaker s b, map_err Fail r).
Definition breaker_success : M unit :=
  modify (fun s => with_breaker s (record_success (breaker s) (clock_now (world s)))).
Definition breaker_failure : M unit :=
  modify (fun s => with_breaker s (record_failure (breaker s) (clock_now (world s)))).

(** [self.schedule.after(number, retry_after)] *)
Definition schedule_after (number : Z) (retry_after : option Duration) : M Backoff := fun s =>
  let (sch, r) := backoff_after (schedule s) number retry_after in
  ({| world := world s; breaker := breaker s; schedule := sch; retries := retries s; held := held s;
      outcomes := outcomes s |},
   match r with Some b => Ok b | None => Err Panicked end).

Definition remaining_budget (cx : ExecutionContext) (w : W) : option Duration :=
  (fun deadline => Timestamp_saturating_since deadline (clock_now w)) <$> deadline cx.

(** [ConcurrencyLimit::acquire]: whether a permit is held. *)
Definition acquire (self : ResilientProvider) (cx : ExecutionContext) : M bool :=
  if permits (limit self) <=? 0 then ret false
  else
    let! free := on_world try_acquire in
    if free then modify (fun s => hold s 1) ;! ret true
    else
      let! remaining := gets (fun s => remaining_budget cx (world s)) in
      let! wait :=
        match remaining with
        | Some budget => if budget <=? 0 then throw (Fail (Timeout 0))
                         else ret (Z.min budget (acquire_timeout (limit self)))
        | None => ret (acquire_timeout (limit self))
        end in
      let! selected := on_world (wait_for_slot cx wait) in
      match selected with
      | CancelledFirst => throw (Fail Cancelled)
      | SlotFree => modify (fun s => hold s 1) ;! ret true
      | Elapsed =>
          if match remaining with Some budget => budget <=? wait | None => false end
          then throw (Fail (Timeout wait))
          else throw (Fail (TransientFailure_wrapped
                 (TransientFailure_new ("no slot became free within " +:+ fmt_u (as_millis wait) +:+ "ms"))
                 "waiting for a model provider slot"))
      end.

(** Dropping the permit at the end of its block. *)
Definition drop_permit (permit : bool) : M unit :=
  if permit then modify (fun s => hold (with_world s (release (world s))) (-1)) else ret tt.

Definition attempt_once (cx : ExecutionContext) : M (Result T) := fun s =>
  let (w, r) := attempt cx (world s) in
  ({| world := w; breaker := breaker s; schedule := schedule s; retries := retries s; held := held s;
      outcomes := outcomes s ++ [r] |}, Ok r).

(** [ResilientProvider::affordable] *)
Definition affordable (cx : ExecutionContext) (delay : Duration) (w : W) : bool :=
  match deadline cx with
  | None => true
  | Some deadline => delay <? Timestamp_saturating_since deadline (clock_now w)
  end.

Definition announce_retry (self : ResilientProvider) (model : ModelId) (cx : ExecutionContext)
    (attempt_number : Z) (delay : Duration) (honoured : bool) : M unit :=
  modify (fun s =>
    if has_events self then
      {| world := world s; breaker := breaker s; schedule := schedule s;
         retries := retries s ++ [{| rs_correlation := correlation cx; rs_timestamp := clock_now (world s);
           rs_provider := rp_provider self; rs_model := model; rs_attempt := attempt_number;
           rs_delay_ms := wrap64 (as_millis delay); rs_honoured_retry_after := honoured |}];
         held := held s; outcomes := outcomes s |}
    else s).

(** What follows a failed attempt: give up with an error, or wait and go round again. *)
Definition after_failure (self : ResilientProvider) (model : ModelId) (cx : ExecutionContext)
    (number : Z) (error : Error) (failure : TransientFailure) : M unit :=
  breaker_failure ;!
  let! backoff := schedule_after number (tf_retry_after failure) in
  match backoff with
  | Exhausted => throw (Fail error)
  | Wait delay honoured =>
      let! can := gets (fun s => affordable cx delay (world s)) in
      if negb can then throw (Fail error)
      else
        announce_retry self model cx number delay honoured ;!
        let! cancelled := on_world (sleep cx delay) in
        if cancelled : bool then throw (Fail Cancelled) else ret tt
  end.

(** One turn of the loop up to the outcome of the attempt. *)
Definition try_once (self : ResilientProvider) (cx : ExecutionContext) : M (Result T) :=
  breaker_admit ;!
  let! permit := acquire self cx in
  let! outcome := attempt_once cx in
  drop_permit permit ;!
  ret outcome.

Fixpoint retry_loop (fuel : nat) (self : ResilientProvider) (model : ModelId) (cx : ExecutionContext)
    (number : Z) : M T :=
  match fuel with
  | O => throw OutOfFuel
  | S fuel =>
      let number := number + 1 in
      let! outcome := try_once self cx in
      match outcome with
      | Ok value => breaker_success ;! ret value
      | Err error =>
          match transient_failure error with
          | None => throw (Fail error)
          | Some failure =>
              after_failure self model cx number error failure ;!
              retry_loop fuel self model cx number
          end
      end
  end.

(** [ResilientProvider::with_retries].  Every turn but the last leaves at least one attempt
    unused, so the attempts allowed are fuel enough. *)
Definition with_retries (self : ResilientProvider) (model : ModelId) (cx : ExecutionContext) : M T := fun s =>
  retry_loop (Z.to_nat (BackoffSchedule_max_attempts (schedule s))) self model cx 0 s.

(** ** What a call does *)

Definition is_transient (e : Error) : bool :=
  match transient_failure e with Some _ => true | None => false end.

(** Settings that fit their types, and a delay cap below the one that panics. *)
Definition calm (s : State) : Prop :=
  RetrySettings_ok (schedule_settings (schedule s)) /\ max_delay_ms (schedule_settings (schedule s)) < u64_max.

(** What most steps of a call leave alone: what it holds, what the provider answered and the
    settings; and they end with an error at worst. *)
Definition quiet {A} (m : M A) : Prop :=
  forall s s' r, m s = (s', r) -> held s' = held s /\ outcomes s' = outcomes s /\
    schedule_settings (schedule s') = schedule_settings (schedule s) /\
    r <> Err OutOfFuel /\ (calm s -> r <> Err Panicked).

Lemma quiet_bind {A B} (m : M A) (k : A -> M B) :
  quiet m -> (forall a, quiet (k a)) -> quiet (bind m k).
Proof.
  intros Hm Hk s s' r. unfold bind. destruct (m s) as [t [a|e]] eqn:E.
  - intros H%Hk. destruct (Hm _ _ _ E) as (? & ? & Hs & _), H as (? & ? & ? & ? & Hp).
    split_and!; [congruence..|]. unfold calm in *. by rewrite <- Hs.
  - intros [= <- <-]. destruct (Hm _ _ _ E) as (? & ? & ? & ? & Hp). split_and!; [congruence..|].
    intros Hc [= ->]. by apply Hp.
Qed.

Lemma quiet_ret {A} (a : A) : quiet (ret a).
Proof. by intros s s' r [= <- <-]. Qed.

Lemma quiet_fail {A} e : quiet (throw (A := A) (Fail e)).
Proof. by intros s s' r [= <- <-]. Qed.

Lemma quiet_gets {A} (f : State -> A) : quiet (gets f).
Proof. by intros s s' r [= <- <-]. Qed.

Lemma quiet_world {A} (f : W -> W * A) : quiet (on_world f).
Proof. intros s s' r. unfold on_world. destruct (f (world s)). by intros [= <- <-]. Qed.

Lemma quiet_admit : quiet breaker_admit.
Proof. intros s s' r. unfold breaker_admit. destruct (admit_call _ _) as [b [[]|e]]; by intros [= <- <-]. Qed.

Lemma backoff_after_settings sch n ra : schedule_settings (fst (backoff_after sch n ra)) = schedule_settings sch.
Proof. unfold backoff_after. repeat case_match; done. Qed.

Lemma quiet_schedule n ra : 1 <= n -> quiet (schedule_after n ra).
Proof.
  intros Hn s s' r. unfold schedule_after. pose proof (backoff_after_settings (schedule s) n ra) as H.
  destruct (backoff_after _ _ _) as [sch [b|]] eqn:E; intros [= <- <-]; [done|].
  split_and!; [done..|]. intros [Hok Hmax] _.
  pose proof (backoff_after_panic (schedule s) n ra Hok Hn) as Hp. rewrite E in Hp. specialize (Hp eq_refl).
  unfold exponential_ms in Hp. lia.
Qed.

Lemma quiet_after_failure self model cx n e f : 1 <= n -> quiet (after_failure self model cx n e f).
Proof.
  intros Hn. unfold after_failure, breaker_failure, announce_retry.
  apply quiet_bind; [by intros s s' r [= <- <-]|]. intros _.
  apply quiet_bind; [by apply quiet_schedule|]. intros [delay honoured|]; [|apply quiet_fail].
  apply quiet_bind; [apply quiet_gets|]. intros []; [|apply quiet_fail]. simpl.
  apply quiet_bind.
  { intros s s' r [= <- <-]. by destruct (has_events self). }
  intros _. apply quiet_bind; [apply quiet_world|]. intros []; [apply quiet_fail|apply quiet_ret].
Qed.

(** The prelude of an attempt leaves a permit exactly when it says so. *)
Lemma acquire_spec self cx s s' r :
  acquire self cx s = (s', r) ->
  outcomes s' = outcomes s /\ schedule_settings (schedule s') = schedule_settings (schedule s) /\
  match r with
  | Ok permit => held s' = held s + (if permit : bool then 1 else 0)
  | Err e => held s' = held s /\ exists err, e = Fail err
  end.
Proof.
  unfold acquire, on_world. case_match; [intros [= <- <-]; split_and!; [done..|lia]|].
  unfold bind, gets, modify, ret, throw.
  destruct (try_acquire _) as [w1 []]; [by intros [= <- <-]|].
  destruct (remaining_budget _ _) as [budget|]; [destruct (budget <=? 0)|];
    try (intros [= <- <-]; eauto; done);
    destruct (wait_for_slot _ _ _) as [w2 []]; try case_match; intros [= <- <-]; eauto.
Qed.

Lemma try_once_spec self cx s s' r :
  try_once self cx s = (s', r) ->
  held s' = held s /\ schedule_settings (schedule s') = schedule_settings (schedule s) /\
  match r with
  | Ok outcome => outcomes s' = outcomes s ++ [outcome]
  | Err e => outcomes s' = outcomes s /\ exists err, e = Fail err
  end.
Proof.
  unfold try_once. unfold bind at 1. destruct (breaker_admit s) as [s1 [[]|e]] eqn:E1.
  2: { intros [= <- <-]. unfold breaker_admit in E1. destruct (admit_call _ _) as [b [[]|err]]; [done|].
       injection E1 as <- <-. eauto. }
  destruct (quiet_admit _ _ _ E1) as (Hh1 & Ho1 & Hs1 & _).
  unfold bind at 1. destruct (acquire self cx s1) as [s2 [permit|e]] eqn:E2.
  2: { intros [= <- <-]. apply acquire_spec in E2 as (Ho2 & Hs2 & Hh2 & Hf). split_and!; [congruence..|done]. }
  apply acquire_spec in E2 as (Ho2 & Hs2 & Hh2).
  unfold bind, attempt_once, drop_permit, modify, ret. destruct (attempt _ _) as [w o].
  destruct permit; intros [= <- <-]; simpl; split_and!; [lia|congruence|congruence|lia|congruence|congruence].
Qed.

(** What a run of the loop leaves, with [left] attempts still allowed. *)
Definition loop_post (left : Z) (s s' : State) (r : result Exit T) : Prop :=
  held s' = held s /\ r <> Err OutOfFuel /\ (calm s -> r <> Err Panicked) /\
  exists outs, outcomes s' = outcomes s ++ outs /\ Z.of_nat (length outs) <= left /\
    (forall i o, outs !! i = Some o -> (S i < length outs)%nat -> exists e, o = Err e /\ is_transient e = true) /\
    (forall v, r = Ok v <-> last outs = Some (Ok v)) /\
    (forall e, last outs = Some (Err e) -> is_transient e = false \/ Z.of_nat (length outs) = left ->
       r = Err (Fail e)).

(** The run ends with what has been seen so far. *)
Lemma loop_post_end left s s' r outs :
  1 <= left -> held s' = held s -> (r <> Err OutOfFuel) -> (calm s -> r <> Err Panicked) ->
  outcomes s' = outcomes s ++ outs ->
  match r with
  | Ok v => outs = [Ok v]
  | Err x => outs = [] \/ exists e, outs = [Err e] /\ (is_transient e = false \/ left = 1 -> x = Fail e)
  end -> loop_post left s s' r.
Proof.
  intros Hl Hh Hf Hp Ho Hr. split_and!; [done..|]. exists outs. split; [done|].
  assert (outs = [] \/ exists o, outs = [o]) as Hone.
  { destruct r as [v|x]; [by right; eexists|]. destruct Hr as [?|(e & ? & _)]; [by left|right; by eexists]. }
  split_and!.
  - destruct Hone as [->|[o ->]]; simpl; lia.
  - intros i o _ Hi. destruct Hone as [->|[o' ->]]; simpl in Hi; lia.
  - intros v. destruct r as [w|x].
    + subst outs. simpl. split; [by intros [= ->]|by intros [= ->]].
    + destruct Hr as [->|(e & -> & _)]; simpl; split; done.
  - intros e He Hend. destruct r as [w|x]; [subst outs; done|].
    destruct Hr as [->|(e' & -> & Hx)]; [done|]. injection He as ->. simpl in Hend.
    rewrite Hx; [done|]. destruct Hend; [by left|right; lia].
Qed.

(** One attempt that failed transiently, then the rest. *)
Lemma loop_post_again left s s1 s' r e :
  is_transient e = true -> 1 <= left - 1 ->
  held s1 = held s -> outcomes s1 = outcomes s ++ [Err e] -> (calm s -> calm s1) ->
  loop_post (left - 1) s1 s' r -> (forall outs, outcomes s' = outcomes s1 ++ outs -> outs <> [] \/ (exists x, r = Err x)) ->
  loop_post left s s' r.
Proof.
  intros Ht Hl Hh Ho Hc (Hh1 & Hf & Hp & outs & Ho' & Hlen & Hmid & Hok & Hend) Hne.
  split_and!; [congruence|done|by auto|]. exists (Err e :: outs).
  split; [by rewrite Ho', Ho, <- app_assoc|]. split; [simpl; lia|]. split_and!.
  - intros [|i] o Hi Hlt; simpl in *; [injection Hi as <-; eauto|]. eapply Hmid; [done|lia].
  - intros v. rewrite Hok. destruct outs; [|done]. simpl. split; done.
  - intros e' Hlast Hor. destruct outs as [|o outs].
    + injection Hlast as ->. destruct Hor as [?|Hor]; [congruence|]. simpl in Hor. lia.
    + apply Hend; [done|]. destruct Hor as [?|Hor]; [by left|right]. simpl in *. lia.
Qed.

Lemma after_failure_last self model cx n e f s s' r :
  RetrySettings_ok (schedule_settings (schedule s)) ->
  Z.max (max_attempts (schedule_settings (schedule s))) 1 <= n ->
  after_failure self model cx n e f s = (s', r) -> r = Err (Fail e).
Proof.
  intros Hok Hn. unfold after_failure, breaker_failure, bind, modify, schedule_after. simpl.
  unfold backoff_after, BackoffSchedule_max_attempts. rewrite (proj2 (Z.leb_le _ _) Hn).
  by intros [= <- <-].
Qed.

Lemma retry_loop_post fuel self model cx number s s' r :
  let limit := Z.max (max_attempts (schedule_settings (schedule s))) 1 in
  RetrySettings_ok (schedule_settings (schedule s)) -> 0 <= number ->
  Z.of_nat fuel = limit - number -> number < limit ->
  retry_loop fuel self model cx number s = (s', r) -> loop_post (limit - number) s s' r.
Proof.
  cbv zeta. revert number s. induction fuel as [|fuel IH]; intros number s Hok Hn Hfuel Hlt; [lia|].
  cbn [retry_loop]. cbv zeta. unfold bind at 1.
  destruct (try_once self cx s) as [s1 [outcome|x]] eqn:E.
  2: { intros [= <- <-]. apply try_once_spec in E as (Hh & _ & Ho & err & ->).
       apply (loop_post_end _ _ _ _ []); [lia|done..|by rewrite app_nil_r|by left]. }
  apply try_once_spec in E as (Hh & Hset & Ho).
  destruct outcome as [v|e].
  { unfold bind, breaker_success, modify, ret. intros [= <- <-].
    by apply (loop_post_end _ _ _ _ [Ok v]); [lia|..]. }
  destruct (transient_failure e) as [f|] eqn:Ht.
  2: { intros [= <- <-]. apply (loop_post_end _ _ _ _ [Err e]); [lia|done..|]. right. by exists e. }
  assert (is_transient e = true) as Htr by (unfold is_transient; by rewrite Ht).
  unfold bind. destruct (after_failure self model cx (number + 1) e f s1) as [s2 r2] eqn:Ef.
  pose proof (quiet_after_failure self model cx (number + 1) e f ltac:(lia) _ _ _ Ef) as (Hh2 & Ho2 & Hset2 & Hf2 & Hp2).
  assert (calm s -> calm s1) as Hc1 by (unfold calm; by rewrite Hset).
  destruct r2 as [[]|x].
  2: { intros [= <- <-]. apply (loop_post_end _ _ _ _ [Err e]); [lia|congruence|congruence| |congruence|].
       - intros Hc [= ->]. by apply Hp2; [apply Hc1|].
       - right. exists e. split; [done|]. intros [?|Hlast]; [congruence|].
         apply after_failure_last in Ef; [congruence|by rewrite Hset|rewrite Hset; lia]. }
  destruct (decide (number + 1 < Z.max (max_attempts (schedule_settings (schedule s))) 1)) as [Hmore|Hlast].
  2: { apply after_failure_last in Ef; [done|by rewrite Hset|rewrite Hset; lia]. }
  intros Hrest. apply IH in Hrest; rewrite ?Hset2, ?Hset; [|done|lia..].
  rewrite Hset2, Hset in Hrest.
  eapply (loop_post_again _ s s2); [done|lia|congruence|congruence| | |].
  - unfold calm. by rewrite Hset2, Hset.
  - by replace (Z.max _ 1 - number - 1) with (Z.max (max_attempts (schedule_settings (schedule s))) 1 - (number + 1)) by lia.
  - destruct r as [v|x]; [|by right; eexists]. left. intros ->.
    destruct Hrest as (_ & _ & _ & outs & Ho' & _ & _ & Hok' & _).
    pose proof (proj1 (Hok' v) eq_refl) as Hl. rewrite H in Ho'. apply app_inv_head in Ho' as <-. done.
Qed.

(** C7.  A call with retries, on every path: it ends, after at most [max_attempts] attempts
    (at least one is allowed); every attempt but the last failed transiently - a terminal error
    or an answer ends it at once; an answer of the wrapped provider is returned as it is, and
    the error of its last allowed attempt or a terminal one is returned unchanged; it never
    keeps a concurrency permit; and it panics only for a delay cap of the greatest [u64]. *)
Theorem with_retries_correct self model cx s s' r :
  RetrySettings_ok (schedule_settings (schedule s)) ->
  with_retries self model cx s = (s', r) ->
  let limit := Z.max (max_attempts (schedule_settings (schedule s))) 1 in
  held s' = held s /\ r <> Err OutOfFuel /\ (calm s -> r <> Err Panicked) /\
  exists outs, outcomes s' = outcomes s ++ outs /\ Z.of_nat (length outs) <= limit /\
    (forall i o, outs !! i = Some o -> (S i < length outs)%nat -> exists e, o = Err e /\ is_transient e = true) /\
    (forall v, r = Ok v <-> last outs = Some (Ok v)) /\
    (forall e, last outs = Some (Err e) -> is_transient e = false \/ Z.of_nat (length outs) = limit ->
       r = Err (Fail e)).
Proof.
  intros Hok. cbv zeta. unfold with_retries, BackoffSchedule_max_attempts. intros Hrun.
  apply retry_loop_post in Hrun; [|done|lia..]. rewrite Z.sub_0_r in Hrun. exact Hrun.
Qed.
End Resilience.

(** ** Witness: a provider that fails transiently once, then answers *)

Definition overloaded : Error := TransientFailure_wrapped (TransientFailure_new "overloaded") "calling".

Definition flaky (cx : ExecutionContext) (w : Z) : Z * Result nat :=
  (w + 1, if w <=? 0 then Err overloaded else Ok 7%nat).

Definition flaky_provider : ResilientProvider :=
  {| rp_provider := "local"; limit := {| permits := 4; acquire_timeout := 0 |}; has_events := true |}.

Definition flaky_start : State (W := Z) (T := nat) :=
  {| world := 0; breaker := CircuitBreaker_new "local" BreakerSettings_default;
     schedule := {| schedule_settings := RetrySettings_default; jitter := 1 |};
     retries := []; held := 0; outcomes := [] |}.

Definition plain_context : ExecutionContext :=
  {| correlation := "c"; principal := None; deadline := None; cancellation := false; attributes := [] |}.

Definition flaky_run : State (W := Z) (T := nat) * result Exit nat :=
  with_retries (fun w => w) (fun w => (w, true)) (fun w => w) (fun _ _ w => (w, Elapsed))
    (fun _ _ w => (w, false)) flaky flaky_provider "m" plain_context flaky_start.

Example flaky_outcomes : snd flaky_run = Ok 7%nat /\ outcomes (fst flaky_run) = [Err overloaded; Ok 7%nat].
Proof. by vm_compute. Qed.

Lemma with_retries_correct_witness :
  held (fst flaky_run) = 0 /\ snd flaky_run <> Err OutOfFuel.
Proof.
  destruct (with_retries_correct (fun w => w) (fun w => (w, true)) (fun w => w) (fun _ _ w => (w, Elapsed))
    (fun _ _ w => (w, false)) flaky flaky_provider "m" plain_context flaky_start (fst flaky_run) (snd flaky_run))
    as (Hh & Hf & _).
  - unfold RetrySettings_ok. simpl. int_lia.
  - vm_compute. reflexivity.
  - split; [exact Hh|exact Hf].
Defined.
