(* ===== verification/Ledger.v ===== *)
(** * Ledger: usage counters

    [crates/quota/src/ledger.rs], the periods of [crates/quota/src/period.rs] and the
    dimensions of [crates/api/src/quota.rs].  The contract of a ledger is the class
    [UsageLedger] with its laws [UsageLedgerLaws]; the guard (file Quota) is proved against
    the laws and the in-memory ledger discharges them. *)

From S2P Require Import Prelude Base.

Inductive QuotaPeriod := Hour | Day | Week | Month | Total.
#[export] Instance QuotaPeriod_eq_dec : EqDecision QuotaPeriod.
Proof. solve_decision. Defined.

Definition period_prefix (self : QuotaPeriod) : string :=
  match self with
  | Hour => "hour:" | Day => "day:" | Week => "week:" | Month => "month:" | Total => "total"
  end.

Inductive QuotaDimension := Turns | InputTokens | OutputTokens | TotalTokens | CostMicros.

Definition QuotaDimension_fmt (self : QuotaDimension) : string :=
  match self with
  | Turns => "model turns" | InputTokens => "input tokens" | OutputTokens => "output tokens"
  | TotalTokens => "tokens" | CostMicros => "cost (micros)"
  end.

(** ** Counters *)

Record Counters := {
  turns : Z;
  input_tokens : Z;
  output_tokens : Z;
  cost_micros : Z;
}.
#[export] Instance Counters_eq_dec : EqDecision Counters.
Proof. solve_decision. Defined.

Definition Counters_default : Counters :=
  {| turns := 0; input_tokens := 0; output_tokens := 0; cost_micros := 0 |}.

Definition Counters_saturating_add (self other : Counters) : Counters :=
  {| turns := sat_add64 (turns self) (turns other);
     input_tokens := sat_add64 (input_tokens self) (input_tokens other);
     output_tokens := sat_add64 (output_tokens self) (output_tokens other);
     cost_micros := sat_add64 (cost_micros self) (cost_micros other) |}.

Definition Counters_get (self : Counters) (dimension : QuotaDimension) : Z :=
  match dimension with
  | Turns => turns self
  | InputTokens => input_tokens self
  | OutputTokens => output_tokens self
  | TotalTokens => sat_add64 (input_tokens self) (output_tokens self)
  | CostMicros => cost_micros self
  end.

Definition Counters_is_empty (self : Counters) : bool := bool_decide (self = Counters_default).

Definition Counters_ok (c : Counters) : Prop :=
  u64_ok (turns c) /\ u64_ok (input_tokens c) /\ u64_ok (output_tokens c) /\ u64_ok (cost_micros c).

(** ** The contract *)

Class UsageLedger (L : Type) := {
  read : string -> string -> L -> Result Counters;
  add : string -> QuotaPeriod -> string -> Counters -> action L Error unit;
}.

(** The windows a write to [window] may drop: earlier ones of the same period. *)
Definition closed_by (period : QuotaPeriod) (window w : string) : bool :=
  String.leb (period_prefix period) w && String.ltb w window.

(** What the documentation requires: a charge that is recorded adds to its row and only to its
    row, and nothing but a closed window of the same subject may be dropped. *)
Class UsageLedgerLaws (L : Type) `{UsageLedger L} := {
  add_row : forall subject period window delta l l',
    add subject period window delta l = (l', Ok tt) ->
    exists c, read subject window l = Ok c /\ read subject window l' = Ok (Counters_saturating_add c delta);
  add_frame : forall subject period window delta l l' s w,
    add subject period window delta l = (l', Ok tt) -> (s <> subject \/ w <> window) ->
    read s w l' = read s w l \/
    (s = subject /\ closed_by period window w = true /\ read s w l' = Ok Counters_default);
  add_unread : forall subject period window delta l l' e,
    add subject period window delta l = (l', Err e) -> l' = l;
}.

(** ** The in-memory ledger *)

Record InMemoryUsageLedger := { rows : gmap (string * string) Counters }.

Definition InMemoryUsageLedger_new : InMemoryUsageLedger := {| rows := ∅ |}.

Definition row_count (self : InMemoryUsageLedger) : Z := Z.of_nat (size (rows self)).

Definition ledger_read (subject window : string) (self : InMemoryUsageLedger) : Result Counters :=
  Ok (default Counters_default (rows self !! (subject, window))).

(** [rows.range((subject, prefix)..(subject, window))] *)
Definition in_closed_range (subject : string) (period : QuotaPeriod) (window : string)
    (key : string * string) : bool :=
  bool_decide (fst key = subject) && closed_by period window (snd key).

Definition ledger_add (subject : string) (period : QuotaPeriod) (window : string) (delta : Counters) :
    action InMemoryUsageLedger Error unit := fun self =>
  let key := (subject, window) in
  let updated := Counters_saturating_add (default Counters_default (rows self !! key)) delta in
  let inserted := <[key := updated]> (rows self) in
  ({| rows := filter (fun '(k, _) => in_closed_range subject period window k = false) inserted |}, Ok tt).

#[export] Instance InMemory_usage_ledger : UsageLedger InMemoryUsageLedger := {
  read := ledger_read;
  add := ledger_add;
}.

Lemma ltb_irrefl s : String.ltb s s = false.
Proof.
  unfold String.ltb. assert (String.compare s s = Eq) as ->; [|done].
  induction s as [|c s IH]; [done|]. simpl. unfold Ascii.compare. by rewrite N.compare_refl.
Qed.

Lemma ledger_add_lookup subject period window delta l s w :
  rows (fst (ledger_add subject period window delta l)) !! (s, w) =
  if decide (s = subject /\ w = window)
  then Some (Counters_saturating_add (default Counters_default (rows l !! (subject, window))) delta)
  else if bool_decide (s = subject) && closed_by period window w then None else rows l !! (s, w).
Proof.
  unfold ledger_add. simpl. rewrite map_lookup_filter. destruct (decide (s = subject /\ w = window)) as [[-> ->]|Hne].
  - rewrite lookup_insert_eq. simpl. unfold in_closed_range, closed_by. simpl.
    rewrite ltb_irrefl, !andb_false_r. done.
  - rewrite lookup_insert_ne by (intros [= -> ->]; tauto). unfold in_closed_range. simpl.
    destruct (rows l !! (s, w)); simpl; [|by case_match]. by destruct (_ && _).
Qed.

#[export] Instance InMemory_usage_ledger_laws : UsageLedgerLaws InMemoryUsageLedger.
Proof.
  split; simpl.
  - intros subject period window delta l l' Hadd. unfold ledger_read. eexists. split; [done|].
    replace l' with (fst (ledger_add subject period window delta l)) by (by rewrite Hadd).
    rewrite ledger_add_lookup, decide_True by done. done.
  - intros subject period window delta l l' s w Hadd Hor. unfold ledger_read.
    replace l' with (fst (ledger_add subject period window delta l)) by (by rewrite Hadd).
    rewrite ledger_add_lookup, decide_False by tauto. case_bool_decide; simpl; [|by left].
    destruct (closed_by period window w); [by right|by left].
  - done.
Qed.

(**  The in-memory ledger keeps exactly one row per subject and window and forgets only
    what may be forgotten: a charge adds to its own row, saturating; every other subject's rows
    and every window of the subject that is not an earlier one of the same period read as
    before; earlier windows of that period are dropped; and no row ever leaves the range of its counters. *)
Theorem ledger_add_correct subject period window delta l s w :
  let l' := fst (ledger_add subject period window delta l) in
  ledger_read s w l' =
    Ok (if decide (s = subject /\ w = window)
        then Counters_saturating_add (default Counters_default (rows l !! (s, w))) delta
        else if bool_decide (s = subject) && closed_by period window w then Counters_default
        else default Counters_default (rows l !! (s, w))) /\
  (Counters_ok delta -> map_Forall (fun _ => Counters_ok) (rows l) -> map_Forall (fun _ => Counters_ok) (rows l')).
Proof.
  split.
  - unfold ledger_read. rewrite ledger_add_lookup. repeat case_match; try done. by destruct a as [-> ->].
  - intros Hd Hl [s' w'] c. rewrite ledger_add_lookup. case_decide as Heq.
    + intros [= <-].
      assert (Counters_ok (default Counters_default (rows l !! (subject, window)))) as Hc.
      { destruct (rows l !! (subject, window)) eqn:E; simpl; [by eapply Hl|]. unfold Counters_ok. simpl. int_lia. }
      destruct Hc as (? & ? & ? & ?), Hd as (? & ? & ? & ?). unfold Counters_ok, Counters_saturating_add. simpl.
      split_and!; int_lia.
    + case_match; [done|]. by apply Hl.
Qed.
