(* ===== verification/Quota.v ===== *)
(** * Quota: what a principal may spend

    [crates/quota/src/document.rs] (rules, prices and their validation), [period.rs] (which
    window an instant falls in) and [guard.rs] (checking a turn against the ceilings and
    recording what it spent).  Calendar arithmetic and formatting belong to [chrono]: they are
    the class [Chrono]. *)

From S2P Require Import Prelude Base Policy Config Ledger.

(** ** Windows *)

(** The operations of [chrono::DateTime<Utc>] and [NaiveDate] the periods use. *)
Class Chrono := {
  DateTime : Type;
  NaiveDate : Type;
  from_timestamp_millis : Z -> option DateTime;
  timestamp_millis : DateTime -> Z;
  format : string -> DateTime -> string;
  with_minute : Z -> DateTime -> option DateTime;
  with_second : Z -> DateTime -> option DateTime;
  with_nanosecond : Z -> DateTime -> option DateTime;
  date_naive : DateTime -> NaiveDate;
  at_midnight : NaiveDate -> DateTime;
  num_days_from_monday : DateTime -> Z;
  checked_sub_days : Z -> NaiveDate -> option NaiveDate;
  with_day : Z -> NaiveDate -> option NaiveDate;
  checked_add_hours : Z -> DateTime -> option DateTime;
  checked_add_days : Z -> DateTime -> option DateTime;
  checked_add_months : Z -> DateTime -> option DateTime;
}.

(** A format is copied up to its first [%]. *)
Class ChronoLaws `{Chrono} := {
  format_literal : forall literal spec t,
    Forall (fun c => c <> "%"%char) (String.list_ascii_of_string literal) ->
    exists rest, format (literal +:+ spec) t = literal +:+ rest;
}.

Definition i64_max : Z := 2 ^ 63 - 1.

Record Window := { key : string; ends : option Timestamp }.

Definition QuotaPeriod_fmt (self : QuotaPeriod) : string :=
  match self with Hour => "hour" | Day => "day" | Week => "week" | Month => "month" | Total => "total" end.

Definition QuotaPeriod_debug (self : QuotaPeriod) : string :=
  match self with Hour => "Hour" | Day => "Day" | Week => "Week" | Month => "Month" | Total => "Total" end.

Section Period.
  Context `{Chrono}.

Definition utc (at_ : Timestamp) : Result DateTime :=
  ok_or (if at_ <=? i64_max then from_timestamp_millis at_ else None)
    (Error_other ("the clock reported " +:+ fmt_u at_
       +:+ "ms since the epoch, which is not a representable instant")).

Definition timestamp (t : DateTime) : Timestamp :=
  let ms := timestamp_millis t in if 0 <=? ms then ms else u64_max.

Definition truncate_to_hour (t : DateTime) : DateTime :=
  default t (t ← with_minute 0 t; t ← with_second 0 t; with_nanosecond 0 t).

Definition start_of_day (t : DateTime) : DateTime := at_midnight (date_naive t).

Definition start_of_week (t : DateTime) : DateTime :=
  at_midnight (default (date_naive t) (checked_sub_days (num_days_from_monday t) (date_naive t))).

Definition start_of_month (t : DateTime) : DateTime :=
  at_midnight (default (date_naive t) (with_day 1 (date_naive t))).

(** [QuotaPeriod::window] *)
Definition window (self : QuotaPeriod) (at_ : Timestamp) : Result Window :=
  if bool_decide (self = Total) then Ok {| key := period_prefix Total; ends := None |}
  else
    let? now := utc at_ in
    let (key, ends) :=
      match self with
      | Hour => (format "hour:%Y-%m-%dT%H" now, checked_add_hours 1 (truncate_to_hour now))
      | Day => (format "day:%Y-%m-%d" now, checked_add_days 1 (start_of_day now))
      | Week => (format "week:%G-W%V" now, checked_add_days 7 (start_of_week now))
      | Month => (format "month:%Y-%m" now, checked_add_months 1 (start_of_month now))
      | Total => (EmptyString, None)
      end in
    let? ends := ok_or ends
      (Error_other ("the end of the " +:+ QuotaPeriod_debug self +:+ " window containing "
         +:+ fmt_u at_ +:+ "ms is not representable")) in
    Ok {| key := key; ends := Some (timestamp ends) |}.
End Period.

(** ** Prices and rules *)

Record UsageCharge := {
  charge_model : string;
  charge_turns : Z;
  charge_input_tokens : Z;
  charge_output_tokens : Z;
  estimated : bool;
}.

(** [UsageCharge::turn] *)
Definition UsageCharge_turn (model : string) (input output : Z) : UsageCharge :=
  {| charge_model := model; charge_turns := 1; charge_input_tokens := input;
     charge_output_tokens := output; estimated := false |}.

Record ModelPrice := { input_micros_per_million : Z; output_micros_per_million : Z }.

(** [ModelPrice::cost_micros], in [u128]; [u64::try_from(..).unwrap_or(u64::MAX)] *)
Definition ModelPrice_cost_micros (self : ModelPrice) (charge : UsageCharge) : Z :=
  let cost := sat_add u128_max (charge_input_tokens charge * input_micros_per_million self)
                               (charge_output_tokens charge * output_micros_per_million self) in
  let micros := cost `div` 1000000 in
  if micros <=? u64_max then micros else u64_max.

Record QuotaRule := {
  subject : Pattern;
  period : QuotaPeriod;
  max_turns : option Z;
  max_input_tokens : option Z;
  max_output_tokens : option Z;
  max_total_tokens : option Z;
  max_cost_micros : option Z;
  rule_description : option string;
}.

Definition ceilings (self : QuotaRule) : list (QuotaDimension * Z) :=
  omap (fun '(dimension, limit) => (fun limit => (dimension, limit)) <$> limit)
    [(Turns, max_turns self); (InputTokens, max_input_tokens self);
     (OutputTokens, max_output_tokens self); (TotalTokens, max_total_tokens self);
     (CostMicros, max_cost_micros self)].

Definition key_for (dimension : QuotaDimension) : string :=
  match dimension with
  | Turns => "max_turns" | InputTokens => "max_input_tokens" | OutputTokens => "max_output_tokens"
  | TotalTokens => "max_total_tokens" | CostMicros => "max_cost_micros"
  end.

Definition QuotaRule_validate (self : QuotaRule) : Result unit :=
  if Pattern_is_vacuous (subject self) then
    Err (Base.Config "subject" "an empty subject matches nothing; use `*` for every principal")
  else
    let ceilings := ceilings self in
    match ceilings with
    | [] => Err (Base.Config "" "this rule sets no ceiling; give it at least one of max_turns, max_input_tokens, max_output_tokens, max_total_tokens or max_cost_micros")
    | _ =>
        match find_first (fun '(_, limit) => limit =? 0) ceilings with
        | Some (dimension, _) =>
            Err (Base.Config (key_for dimension) ("a ceiling of zero " +:+ QuotaDimension_fmt dimension
              +:+ " would refuse every request from this subject; deny the action in the policy document instead"))
        | None =>
            match rule_description self with
            | Some text => if is_blank text then Err (Base.Config "description" "a blank description says nothing") else Ok tt
            | None => Ok tt
            end
        end
    end.

(** [limits] and [prices]; the price table is in key order, as in its [BTreeMap]. *)
Record QuotaDocument := { limits : list QuotaRule; prices : list (string * ModelPrice) }.

Definition QuotaDocument_is_empty (self : QuotaDocument) : bool :=
  match limits self with [] => true | _ => false end.

Definition join (left right : string) : string :=
  if str_is_empty left then right else if str_is_empty right then left else left +:+ "." +:+ right.

Definition prefix_error (error : Error) (path : string) : Error :=
  match error with Base.Config inner message => Base.Config (join path inner) message | other => other end.

Fixpoint validate_limits (section : string) (index : nat) (l : list QuotaRule) : Result unit :=
  match l with
  | [] => Ok tt
  | rule :: l =>
      let? _ := map_err (fun error => prefix_error error
                          (join section ("limits[" +:+ fmt_u (Z.of_nat index) +:+ "]")))
                  (QuotaRule_validate rule) in
      validate_limits section (S index) l
  end.

Definition QuotaDocument_validate_at (self : QuotaDocument) (section : string) : Result unit :=
  let? _ := validate_limits section 0 (limits self) in
  match find_first (fun '(model, _) => Pattern_is_vacuous (Pattern_parse model)) (prices self) with
  | Some _ => Err (Base.Config (join section "prices")
      "a price keyed by the empty string matches no model; use `*` for every model")
  | None => Ok tt
  end.

(** [QuotaDocument::from_config] *)
Definition QuotaDocument_from_config (from_value : Value -> result string QuotaDocument)
    (config : Config.Config) (path : string) : Result QuotaDocument :=
  let? document := get_or_default from_value {| limits := []; prices := [] |} config path in
  let? _ := QuotaDocument_validate_at document path in
  Ok document.

(** How specific a key of the price table is for a model it is a pattern for. *)
Definition price_candidate (model : string) (entry : string * ModelPrice) : option (Z * ModelPrice) :=
  let (key, price) := entry in
  match Pattern_parse key with
  | Any => Some (0, price)
  | Prefix prefix => if starts_with model prefix then Some (str_len prefix + 1, price) else None
  | Exact _ => None
  end.

(** [max_by_key]: the last of the greatest. *)
Definition max_by_length (l : list (Z * ModelPrice)) : option (Z * ModelPrice) :=
  foldl (fun best c => match best with
                       | Some b => if fst c <? fst b then best else Some c
                       | None => Some c
                       end) None l.

(** [QuotaDocument::price] *)
Definition QuotaDocument_price (self : QuotaDocument) (model : string) : option ModelPrice :=
  match find_first (fun '(key, _) => bool_decide (key = model)) (prices self) with
  | Some (_, price) => Some price
  | None => snd <$> max_by_length (omap (price_candidate model) (prices self))
  end.

(** ** The guard *)

Record QuotaStatus := {
  status_subject : PrincipalId;
  status_window : string;
  dimension : QuotaDimension;
  used : Z;
  status_limit : Z;
  resets_at : option Timestamp;
}.

Section Guard.
  Context `{Chrono} {L : Type} `{UsageLedger L}.

(** [LimitedQuotaGuard]: its document; the ledger and the clock are passed to each call. *)
Record LimitedQuotaGuard := { document : QuotaDocument }.

Definition LimitedQuotaGuard_new (document : QuotaDocument) : Result LimitedQuotaGuard :=
  let? _ := QuotaDocument_validate_at document "" in Ok {| document := document |}.

Definition subjects (p : Principal) : list PrincipalId :=
  principal_id p ::
  match on_behalf_of p with
  | Some owner => if bool_decide (owner = principal_id p) then [] else [owner]
  | None => []
  end.

Definition rules_for (self : LimitedQuotaGuard) (s : PrincipalId) : list QuotaRule :=
  List.filter (fun rule => Pattern_matches (subject rule) s) (limits (document self)).

Definition period_index (p : QuotaPeriod) : nat :=
  match p with Hour => 0 | Day => 1 | Week => 2 | Month => 3 | Total => 4 end.

Definition period_le (p q : QuotaPeriod) : Prop := (period_index p <= period_index q)%nat.
#[local] Instance period_le_dec : RelDecision period_le.
Proof. intros p q. unfold period_le. apply _. Defined.

Definition periods_for (self : LimitedQuotaGuard) (s : PrincipalId) : list QuotaPeriod :=
  dedup (merge_sort period_le (map period (rules_for self s))).

(** [Rows::get]: each row is read once per call. *)
Abbreviation Rows := (gmap (PrincipalId * string) Counters).

Definition rows_get (seen : Rows) (ledger : L) (s : PrincipalId) (w : string) : Result (Rows * Counters) :=
  match seen !! (s, w) with
  | Some counters => Ok (seen, counters)
  | None =>
      let? counters := read s w ledger in
      Ok (<[(s, w) := counters]> seen, counters)
  end.

(** What the refusal says; [format_instant] is how the instant is printed. *)
Definition exhausted (format_instant : Timestamp -> string) (s : PrincipalId) (rule : QuotaRule)
    (w : Window) (d : QuotaDimension) (used limit : Z) : string :=
  "`" +:+ s +:+ "` has used " +:+ fmt_u used +:+ " of " +:+ fmt_u limit +:+ " " +:+ QuotaDimension_fmt d
  +:+ " for this " +:+ QuotaPeriod_fmt (period rule)
  +:+ match rule_description rule with Some text => " (" +:+ text +:+ ")" | None => "" end
  +:+ match ends w with
      | Some e => "; the " +:+ QuotaPeriod_fmt (period rule) +:+ " window `" +:+ key w +:+ "` resets at "
                  +:+ format_instant e
      | None => "; this ceiling is cumulative and does not reset"
      end.

(** [format_instant] *)
Definition format_instant (at_ : Timestamp) : string :=
  match (if at_ <=? i64_max then from_timestamp_millis at_ else None) with
  | Some t => format "%Y-%m-%dT%H:%M:%SZ" t
  | None => fmt_u at_ +:+ "ms since the epoch"
  end.

Definition unpriced (self : LimitedQuotaGuard) (rule : QuotaRule) (model : string) : bool :=
  bool_decide (is_Some (max_cost_micros rule)) && bool_decide (QuotaDocument_price (document self) model = None).

(** One rule of [check]'s loops. *)
Definition check_rule (self : LimitedQuotaGuard) (model : string) (now : Timestamp) (ledger : L)
    (s : PrincipalId) (seen : Rows) (rule : QuotaRule) : Result Rows :=
  if unpriced self rule model then
    Err (PermissionDenied ("`" +:+ s +:+ "` has a cost ceiling but `" +:+ model
      +:+ "` has no price, so what a turn would cost is unknown; add it under `prices` (a model that is genuinely free is priced at zero)"))
  else
    let? w := window (period rule) now in
    let? (seen, counters) := rows_get seen ledger s (key w) in
    match find_first (fun '(d, limit) => limit <=? Counters_get counters d) (ceilings rule) with
    | Some (d, limit) =>
        Err (PermissionDenied (exhausted format_instant s rule w d (Counters_get counters d) limit))
    | None => Ok seen
    end.

Fixpoint check_all (self : LimitedQuotaGuard) (model : string) (now : Timestamp) (ledger : L)
    (seen : Rows) (l : list (PrincipalId * QuotaRule)) : Result unit :=
  match l with
  | [] => Ok tt
  | (s, rule) :: l =>
      let? seen := check_rule self model now ledger s seen rule in
      check_all self model now ledger seen l
  end.

(** The subjects a call is charged to, each with the rules that bind it. *)
Definition bindings (self : LimitedQuotaGuard) (p : Principal) : list (PrincipalId * QuotaRule) :=
  s ← subjects p; (fun rule => (s, rule)) <$> rules_for self s.

(** [LimitedQuotaGuard::check] *)
Definition check (self : LimitedQuotaGuard) (model : string) (cx : ExecutionContext) (now : Timestamp)
    (ledger : L) : Result unit :=
  if QuotaDocument_is_empty (document self) then Ok tt
  else check_all self model now ledger ∅ (bindings self (principal_or_system cx)).

Definition charge_delta (self : LimitedQuotaGuard) (charge : UsageCharge) : Counters :=
  {| turns := charge_turns charge; input_tokens := charge_input_tokens charge;
     output_tokens := charge_output_tokens charge;
     cost_micros := match QuotaDocument_price (document self) (charge_model charge) with
                    | Some price => ModelPrice_cost_micros price charge
                    | None => 0
                    end |}.

Definition record_row (now : Timestamp) (delta : Counters) (sp : PrincipalId * QuotaPeriod) :
    action L Error unit :=
  let (s, p) := sp in
  let! w := lift (window p now) in
  add s p (key w) delta.

(** The rows a call is charged to. *)
Definition charged (self : LimitedQuotaGuard) (p : Principal) : list (PrincipalId * QuotaPeriod) :=
  s ← subjects p; (fun period => (s, period)) <$> periods_for self s.

(** [LimitedQuotaGuard::record] *)
Definition record (self : LimitedQuotaGuard) (charge : UsageCharge) (cx : ExecutionContext)
    (now : Timestamp) : action L Error unit :=
  if QuotaDocument_is_empty (document self) then ret tt
  else for_each (record_row now (charge_delta self charge)) (charged self (principal_or_system cx)).

(** The rows of [status]'s loops. *)
Fixpoint status_all (now : Timestamp) (ledger : L) (seen : Rows) (l : list (PrincipalId * QuotaRule)) :
    Result (list QuotaStatus) :=
  match l with
  | [] => Ok []
  | (s, rule) :: l =>
      let? w := window (period rule) now in
      let? (seen, counters) := rows_get seen ledger s (key w) in
      let? rest := status_all now ledger seen l in
      Ok (map (fun '(d, limit) => {| status_subject := s; status_window := key w; dimension := d;
                                     used := Counters_get counters d; status_limit := limit;
                                     resets_at := ends w |}) (ceilings rule) ++ rest)
  end.

(** [LimitedQuotaGuard::status] *)
Definition status (self : LimitedQuotaGuard) (cx : ExecutionContext) (now : Timestamp) (ledger : L) :
    Result (list QuotaStatus) :=
  if QuotaDocument_is_empty (document self) then Ok []
  else status_all now ledger ∅ (bindings self (principal_or_system cx)).

(** ** Checking *)

(** The rows read so far are what the ledger says. *)
Definition cached (ledger : L) (seen : Rows) : Prop :=
  forall s w c, seen !! (s, w) = Some c -> read s w ledger = Ok c.

Lemma rows_get_spec seen ledger s w :
  cached ledger seen ->
  match rows_get seen ledger s w with
  | Ok (seen', c) => read s w ledger = Ok c /\ cached ledger seen'
  | Err e => read s w ledger = Err e
  end.
Proof.
  intros Hc. unfold rows_get. destruct (seen !! (s, w)) eqn:E; [by eauto|].
  destruct (read s w ledger) as [c|e] eqn:Hr; simpl; [|done]. split; [done|].
  intros s' w' c' [[[= <- <-] <-]|[_ ?]]%lookup_insert_Some; [done|by apply Hc].
Qed.

(** The rule leaves room for a turn of [model] by [s]. *)
Definition has_room (self : LimitedQuotaGuard) (model : string) (now : Timestamp) (ledger : L)
    (s : PrincipalId) (rule : QuotaRule) : Prop :=
  (is_Some (max_cost_micros rule) -> is_Some (QuotaDocument_price (document self) model)) /\
  exists w c, window (period rule) now = Ok w /\ read s (key w) ledger = Ok c /\
    forall d limit, (d, limit) ∈ ceilings rule -> Counters_get c d < limit.

Lemma unpriced_false self rule model :
  unpriced self rule model = false <->
  (is_Some (max_cost_micros rule) -> is_Some (QuotaDocument_price (document self) model)).
Proof.
  unfold unpriced. rewrite andb_false_iff, !bool_decide_eq_false.
  destruct (QuotaDocument_price (document self) model) as [price|].
  - split; [by eauto|by right].
  - destruct (max_cost_micros rule) as [cap|].
    + split; [intros [Hn|Hn]; [destruct Hn; by eexists|done]|]. intros Hp. by destruct (Hp ltac:(by eexists)).
    + split; [intros _ [? [=]]|]. left. by intros [? [=]].
Qed.

Lemma check_rule_spec self model now ledger s seen rule :
  cached ledger seen ->
  match check_rule self model now ledger s seen rule with
  | Ok seen' => has_room self model now ledger s rule /\ cached ledger seen'
  | Err _ => ~ has_room self model now ledger s rule
  end.
Proof.
  intros Hc. unfold check_rule, has_room. destruct (unpriced self rule model) eqn:Hu.
  { intros [Hp _]. apply unpriced_false in Hp. congruence. }
  rewrite unpriced_false in Hu. destruct (window (period rule) now) as [w|e]; simpl.
  2: { by intros (_ & ? & ? & [=] & _). }
  pose proof (rows_get_spec seen ledger s (key w) Hc) as Hr.
  destruct (rows_get seen ledger s (key w)) as [[seen' c]|e]; simpl.
  2: { intros (_ & w' & c & [= <-] & ? & _). congruence. }
  destruct Hr as [Hr Hc']. destruct (find_first _ (ceilings rule)) as [[d limit]|] eqn:Hf.
  - apply find_first_Some in Hf as (i & Hi & Hle & _). apply Z.leb_le in Hle.
    intros (_ & w' & c' & [= <-] & Hr' & Hall). rewrite Hr in Hr'. injection Hr' as <-.
    specialize (Hall d limit (list_elem_of_lookup_2 _ _ _ Hi)). lia.
  - apply find_first_None in Hf. split; [|done]. split; [done|]. exists w, c. split_and!; [done..|].
    intros d limit Hin. rewrite Forall_forall in Hf. specialize (Hf _ Hin). simpl in Hf. lia.
Qed.

Lemma check_all_spec self model now ledger seen l :
  cached ledger seen ->
  check_all self model now ledger seen l = Ok tt <->
  Forall (fun '(s, rule) => has_room self model now ledger s rule) l.
Proof.
  revert seen. induction l as [|[s rule] l IH]; intros seen Hc; simpl; [by split|].
  rewrite Forall_cons. pose proof (check_rule_spec self model now ledger s seen rule Hc) as Hr.
  destruct (check_rule _ _ _ _ _ _ _) as [seen'|e]; simpl.
  - destruct Hr as [Hroom Hc']. rewrite IH by done. tauto.
  - split; [done|]. by intros [? _].
Qed.

Lemma bindings_elem self p s rule :
  (s, rule) ∈ bindings self p <-> s ∈ subjects p /\ rule ∈ limits (document self) /\ Pattern_matches (subject rule) s = true.
Proof.
  unfold bindings. rewrite list_elem_of_bind. split.
  - intros (s' & Hin & Hs). apply list_elem_of_fmap in Hin as (r & [= -> ->] & Hr).
    unfold rules_for in Hr. rewrite list_elem_of_In, filter_In, <- list_elem_of_In in Hr. tauto.
  - intros (Hs & Hr & Hm). exists s. split; [|done]. apply list_elem_of_fmap. exists rule. split; [done|].
    unfold rules_for. rewrite list_elem_of_In, filter_In, <- list_elem_of_In. done.
Qed.

(**  A check passes exactly when every rule that binds the principal, or whoever it acts
    for, leaves room: the model is priced if the rule caps cost, and the counters of the rule's
    current window are strictly below every ceiling it sets.  Anything else - a ceiling
    reached, an unpriced model, an instant with no window, a ledger that cannot be read -
    refuses the turn. *)
Theorem check_spec self model cx now ledger :
  check self model cx now ledger = Ok tt <->
  forall s rule, s ∈ subjects (principal_or_system cx) -> rule ∈ limits (document self) ->
    Pattern_matches (subject rule) s = true -> has_room self model now ledger s rule.
Proof.
  unfold check. destruct (QuotaDocument_is_empty (document self)) eqn:E.
  - split; [|done]. intros _ s rule _ Hr. unfold QuotaDocument_is_empty in E.
    destruct (limits (document self)); [by apply not_elem_of_nil in Hr|done].
  - rewrite check_all_spec by (intros ???; by rewrite lookup_empty). rewrite Forall_forall. split.
    + intros Hall s rule Hs Hr Hm. specialize (Hall (s, rule)). apply Hall, bindings_elem. done.
    + intros Hall [s rule] Hb%bindings_elem. naive_solver.
Qed.
End Guard.

(** ** Recording *)

(** Keys of different periods differ, and writing one never closes the other. *)
Lemma prefix_period p q a b : (period_prefix p +:+ a = period_prefix q +:+ b)%string -> p = q.
Proof. destruct p, q; try done; cbn; intros [=]. Qed.

Lemma closed_by_period p q a b : closed_by p (period_prefix p +:+ a) (period_prefix q +:+ b) = true -> p = q.
Proof. destruct p, q; done. Qed.

Lemma period_index_inj p q : period_index p = period_index q -> p = q.
Proof. by destruct p, q. Qed.

Lemma subjects_NoDup p : NoDup (subjects p).
Proof.
  unfold subjects. destruct (on_behalf_of p) as [o|]; [case_bool_decide|];
    repeat constructor; set_solver.
Qed.

#[local] Instance period_le_trans : Transitive period_le.
Proof. intros p q r. unfold period_le. lia. Qed.
#[local] Instance period_le_total : base.Total period_le.
Proof. intros p q. unfold period_le. lia. Qed.

Lemma periods_for_NoDup self s : NoDup (periods_for self s).
Proof.
  apply (dedup_NoDup period_le).
  { intros p q Hpq Hqp. apply period_index_inj. unfold period_le in *. lia. }
  apply Sorted_StronglySorted; [apply _|apply Sorted_merge_sort, _].
Qed.

Lemma charged_NoDup self p : NoDup (charged self p).
Proof.
  unfold charged. apply NoDup_bind.
  - intros s1 s2 [s q] _ _ H1 H2. apply list_elem_of_fmap in H1 as (? & [= -> ->] & _).
    apply list_elem_of_fmap in H2 as (? & [= -> ->] & _). done.
  - intros s _. apply NoDup_fmap; [by intros ?? [=]|]. apply periods_for_NoDup.
  - apply subjects_NoDup.
Qed.

Lemma charged_elem self p s q : (s, q) ∈ charged self p -> s ∈ subjects p.
Proof.
  unfold charged. rewrite list_elem_of_bind. intros (s' & Hin & Hs).
  by apply list_elem_of_fmap in Hin as (? & [= -> ->] & _).
Qed.

Section Ceilings.
  #[local] Set Default Proof Using "All".
  Context `{ChronoLaws} {L : Type} `{UsageLedgerLaws L}.
  Implicit Types (self : LimitedQuotaGuard).

Lemma window_prefix p now w : window p now = Ok w -> exists rest, key w = period_prefix p +:+ rest.
Proof.
  unfold window. case_bool_decide as Hp; [subst; intros [= <-]; by exists ""%string|].
  rewrite result_bind_ok. intros (t & _ & Hw).
  assert (forall literal spec, Forall (fun c => c <> "%"%char) (String.list_ascii_of_string literal) ->
    exists rest, format (literal +:+ spec) t = literal +:+ rest) as Hf by (intros; by apply format_literal).
  destruct p; try done; cbv iota beta in Hw; apply result_bind_ok in Hw as (e & _ & [= <-]); simpl.
  - apply (Hf "hour:" "%Y-%m-%dT%H")%string. by repeat constructor.
  - apply (Hf "day:" "%Y-%m-%d")%string. by repeat constructor.
  - apply (Hf "week:" "%G-W%V")%string. by repeat constructor.
  - apply (Hf "month:" "%Y-%m")%string. by repeat constructor.
Qed.

(** The counter of one row. *)
Definition turns_at_most (s : PrincipalId) (k : string) (n : Z) (l : L) : Prop :=
  forall c, read s k l = Ok c -> turns c <= n.

Lemma record_row_other now delta s' p l l' r s k n :
  0 <= n -> record_row now delta (s', p) l = (l', r) ->
  ~ (s' = s /\ exists w, window p now = Ok w /\ key w = k) ->
  turns_at_most s k n l -> turns_at_most s k n l'.
Proof.
  intros Hn. unfold record_row, bind, lift. destruct (window p now) as [w|e] eqn:Hw.
  2: { intros [= <- <-]. done. }
  intros Hadd Hne Hl. destruct r as [[]|e].
  - destruct (add_frame _ _ _ _ _ _ s k Hadd) as [Hr|(_ & _ & Hr)].
    + destruct (decide (s = s')) as [->|]; [right|by left]. intros ->. apply Hne. eauto.
    + unfold turns_at_most. by rewrite Hr.
    + intros c. rewrite Hr. by intros [= <-].
  - apply add_unread in Hadd as ->. done.
Qed.

(** A charge of at most one turn, over rows none of which is met twice. *)
Lemma record_rows_bound now delta s q k n (l l' : L) r rows :
  1 <= n -> turns delta <= 1 -> NoDup rows -> (exists rest, k = period_prefix q +:+ rest) ->
  for_each (record_row now delta) rows l = (l', r) ->
  turns_at_most s k n l ->
  ((s, q) ∈ rows -> (exists w, window q now = Ok w /\ key w = k) -> turns_at_most s k (n - 1) l) ->
  turns_at_most s k n l'.
Proof.
  intros Hn Hd Hnd [rest Hk]. revert l. induction rows as [|[s' p] rows IH]; intros l.
  { intros [= <- <-]. done. }
  apply NoDup_cons in Hnd as [Hnew Hnd]. cbn [for_each]. unfold bind at 1.
  destruct (record_row now delta (s', p) l) as [l1 r1] eqn:E. intros Hrest Hl Hroom.
  destruct (decide (s' = s /\ p = q)) as [[-> ->]|Hother].
  - assert (turns_at_most s k n l1) as Hl1.
    { unfold record_row, bind, lift in E. destruct (window q now) as [w|e] eqn:Hw.
      2: { injection E as <- <-. done. }
      destruct (decide (key w = k)) as [<-|Hne].
      - destruct r1 as [[]|e]; [|apply add_unread in E; by subst].
        destruct (add_row _ _ _ _ _ _ E) as (c & Hc & Hc'). intros c'. rewrite Hc'. intros [= <-].
        pose proof (Hroom ltac:(left) ltac:(by eauto) c Hc). simpl. int_lia.
      - eapply (record_row_other now delta s q l l1 r1); [lia| |intros (_ & w' & Hw' & ?); congruence|done].
        unfold record_row, bind, lift. by rewrite Hw. }
    destruct r1 as [[]|e]; [|by injection Hrest as <- <-].
    eapply IH; [done|exact Hrest|done|]. intros Hin. done.
  - assert (~ (s' = s /\ exists w, window p now = Ok w /\ key w = k)) as Hmiss.
    { intros (-> & w & Hw & Hkw). apply Hother. split; [done|].
      destruct (window_prefix _ _ _ Hw) as [rest' Hr']. eapply prefix_period. rewrite <- Hk, <- Hkw. by symmetry. }
    pose proof (record_row_other now delta s' p l l1 r1 s k n ltac:(lia) E Hmiss Hl) as Hl1.
    destruct r1 as [x|e]; [|by injection Hrest as <- <-].
    eapply IH; [done|exact Hrest|done|]. intros Hin Hw.
    apply (record_row_other now delta s' p l l1 (Ok x) s k (n - 1)); [lia|exact E|exact Hmiss|]. apply Hroom; [by right|done].
Qed.

(** ** Turn ceilings *)

(** Turns taken one after another: each passes its check and is then charged. *)
Inductive session_step self : L -> L -> Prop :=
  | Session_turn model cx now charge l l' r :
      check self model cx now l = Ok tt -> charge_turns charge <= 1 ->
      record self charge cx now l = (l', r) -> session_step self l l'.

End Ceilings.

(** ** Prices *)

Lemma cost_exact price charge :
  u64_ok (charge_input_tokens charge) -> u64_ok (charge_output_tokens charge) ->
  u64_ok (input_micros_per_million price) -> u64_ok (output_micros_per_million price) ->
  ModelPrice_cost_micros price charge =
    Z.min ((charge_input_tokens charge * input_micros_per_million price
            + charge_output_tokens charge * output_micros_per_million price) `div` 1000000) u64_max.
Proof.
  intros [Hi _] [Ho _] [Hpi _] [Hpo _]. unfold ModelPrice_cost_micros.
  pose proof (Z.mul_nonneg_nonneg _ _ Hi Hpi) as H1. pose proof (Z.mul_nonneg_nonneg _ _ Ho Hpo) as H2.
  set (a := charge_input_tokens charge * _) in *. set (b := charge_output_tokens charge * _) in *.
  unfold sat_add. destruct (Z.le_gt_cases (a + b) u128_max) as [Hle|Hgt].
  - rewrite Z.min_l by done. case_match eqn:E; lia.
  - rewrite Z.min_r by lia.
    assert (u64_max < u128_max `div` 1000000) as Hbig by (vm_compute; reflexivity).
    pose proof (Z.div_le_mono u128_max (a + b) 1000000 ltac:(lia) ltac:(lia)) as Hmono.
    rewrite (proj2 (Z.leb_gt _ _)) by done. lia.
Qed.

Lemma max_by_length_spec l b :
  max_by_length l = Some b -> b ∈ l /\ forall c, c ∈ l -> fst c <= fst b.
Proof.
  unfold max_by_length.
  assert (forall acc, foldl (fun best c => match best with
             | Some b => if fst c <? fst b then best else Some c
             | None => Some c end) acc l = Some b ->
    (acc = Some b \/ b ∈ l) /\ (forall a, acc = Some a -> fst a <= fst b) /\
    forall c, c ∈ l -> fst c <= fst b) as H.
  { induction l as [|c l IH]; intros acc; simpl.
    - intros ->. split_and!; [by left|by intros a [= <-]|]. intros c Hc. by apply not_elem_of_nil in Hc.
    - intros Hf. destruct (IH _ Hf) as (Hin & Hacc & Hall). clear IH Hf.
      destruct acc as [a|].
      + destruct (Z.ltb_spec (fst c) (fst a)) as [Hlt|Hge]; pose proof (Hacc _ eq_refl).
        * split_and!; [destruct Hin; [by left|right; set_solver]|by intros ? [= <-]|].
          intros c' [->|?]%elem_of_cons; [lia|by apply Hall].
        * split_and!; [right; destruct Hin as [[= ->]|?]; set_solver|intros ? [= <-]; lia|].
          intros c' [->|?]%elem_of_cons; [lia|by apply Hall].
      + pose proof (Hacc _ eq_refl).
        split_and!; [right; destruct Hin as [[= ->]|?]; set_solver|done|].
        intros c' [->|?]%elem_of_cons; [done|by apply Hall]. }
  intros Hm. destruct (H None Hm) as ([[=]|?] & _ & ?). done.
Qed.

Lemma price_candidate_price model key price n price' :
  price_candidate model (key, price) = Some (n, price') -> price' = price.
Proof. unfold price_candidate. repeat case_match; naive_solver. Qed.

(**  What a turn costs is exact: the price per million times the tokens, rounded down to
    a micro, in integers that never wrap - saturating only where the exact cost does not fit a
    [u64].  The price is the model's own entry if the table has one, and otherwise that of a
    pattern that matches it, no matching pattern having a longer prefix. *)
Theorem turn_is_charged_its_price document charge price :
  u64_ok (charge_input_tokens charge) -> u64_ok (charge_output_tokens charge) ->
  u64_ok (input_micros_per_million price) -> u64_ok (output_micros_per_million price) ->
  QuotaDocument_price document (charge_model charge) = Some price ->
  ModelPrice_cost_micros price charge =
    Z.min ((charge_input_tokens charge * input_micros_per_million price
            + charge_output_tokens charge * output_micros_per_million price) `div` 1000000) u64_max /\
  ((charge_model charge, price) ∈ prices document \/
   exists key n, (key, price) ∈ prices document /\
     price_candidate (charge_model charge) (key, price) = Some (n, price) /\
     forall key' price' n', (key', price') ∈ prices document ->
       price_candidate (charge_model charge) (key', price') = Some (n', price') -> n' <= n).
Proof.
  intros Hi Ho Hpi Hpo Hprice. split; [by apply cost_exact|].
  unfold QuotaDocument_price in Hprice. destruct (find_first _ _) as [[k p]|] eqn:Hf.
  - injection Hprice as ->. apply find_first_Some in Hf as (i & Hi' & Hk & _). bools. subst.
    left. by eapply list_elem_of_lookup_2.
  - right. apply fmap_Some in Hprice as ([n p] & Hm & ->).
    apply max_by_length_spec in Hm as [Hin Hall].
    apply list_elem_of_omap in Hin as ([k p'] & Hin & Hc).
    pose proof (price_candidate_price _ _ _ _ _ Hc) as ->. exists k, n. split_and!; [done..|].
    intros k' p2 n2 Hin2 Hc2. apply (Hall (n2, p2)), list_elem_of_omap. by exists (k', p2).
Qed.

(** ** Witnesses: a calendar of thirty-day months with named days *)

Fixpoint literal_part (s : string) : string :=
  match s with
  | EmptyString => EmptyString
  | String c s => if decide (c = "%"%char) then EmptyString else String c (literal_part s)
  end.

#[local] Instance toy_chrono : Chrono := {
  DateTime := Z; NaiveDate := Z;
  from_timestamp_millis := Some; timestamp_millis := fun t => t;
  format := fun spec t => literal_part spec +:+ fmt_u (t `div` 86400000);
  with_minute := fun _ => Some; with_second := fun _ => Some; with_nanosecond := fun _ => Some;
  date_naive := fun t => t `div` 86400000; at_midnight := fun d => d * 86400000;
  num_days_from_monday := fun t => (t `div` 86400000) `mod` 7;
  checked_sub_days := fun n d => Some (d - n); with_day := fun n d => Some (d `div` 30 * 30 + (n - 1));
  checked_add_hours := fun n t => Some (t + n * 3600000);
  checked_add_days := fun n t => Some (t + n * 86400000);
  checked_add_months := fun n t => Some (t + n * 30 * 86400000);
}.

#[local] Instance toy_chrono_laws : ChronoLaws.
Proof.
  split. intros literal spec t Hl. exists (literal_part spec +:+ fmt_u (t `div` 86400000)). simpl.
  rewrite <- str_app_assoc. f_equal. induction literal as [|c literal IH]; [done|].
  apply Forall_cons in Hl as [Hc Hl].
  change (String c literal +:+ spec) with (String c (literal +:+ spec)). cbn [literal_part].
  rewrite decide_False by done. rewrite (IH Hl). done.
Qed.

Definition daily_rule : QuotaRule :=
  {| subject := Pattern_parse "alice"; period := Day; max_turns := Some 2; max_input_tokens := None;
     max_output_tokens := None; max_total_tokens := None; max_cost_micros := None;
     rule_description := None |}.

Definition daily_guard : LimitedQuotaGuard := {| document := {| limits := [daily_rule]; prices := [] |} |}.

Definition alice_cx : ExecutionContext :=
  {| correlation := "c"; principal := Some (Principal_new "alice" User); deadline := None;
     cancellation := false; attributes := [] |}.

Definition one_turn (l : InMemoryUsageLedger) : InMemoryUsageLedger :=
  fst (record daily_guard (UsageCharge_turn "m" 10 20) alice_cx 86400000 l).

(** Two turns pass, the third is refused, and the next day starts afresh. *)
Example daily_ceiling :
  let l := one_turn (one_turn InMemoryUsageLedger_new) in
  is_ok (check daily_guard "m" alice_cx 86400000 (one_turn InMemoryUsageLedger_new)) = true /\
  is_ok (check daily_guard "m" alice_cx 86400000 l) = false /\
  is_ok (check daily_guard "m" alice_cx (2 * 86400000) l) = true.
Proof. by vm_compute. Qed.


Lemma turn_is_charged_its_price_witness :
  ModelPrice_cost_micros {| input_micros_per_million := 3000000; output_micros_per_million := 15000000 |}
    (UsageCharge_turn "gpt-4" 1000 200) = 6000.
Proof.
  refine (eq_trans (proj1 (turn_is_charged_its_price
    {| limits := []; prices := [("gpt-*"%string, {| input_micros_per_million := 3000000; output_micros_per_million := 15000000 |})] |}
    (UsageCharge_turn "gpt-4" 1000 200) _ _ _ _ _ _)) _);
    first [reflexivity | simpl; int_lia].
Defined.
