(* ===== verification/Agent.v ===== *)
(** * Agent: the turn loop

    [crates/agent/src/run.rs] and [agent.rs].  A run alternates model turns and tool calls, one
    step at a time, over everything else in the system: the model, the tools, the conversation,
    the quota guard and the compactor are the class [AgentWorld].  [log] records every call a run
    makes of them and the answer, in order.  The mark of an appended entry says why it was
    appended; the code does not carry it. *)

From S2P Require Import Prelude Base Trust Window ContextStore Tools Quota.

(** ** Requests and answers *)

Abbreviation ModelId := string.

Inductive FinishReason := Finish_Stop | Finish_Length | Finish_ToolCalls | Finish_Filtered | Finish_Cancelled.
#[export] Instance FinishReason_eq_dec : EqDecision FinishReason.
Proof. solve_decision. Defined.

Record Usage := { usage_input : Z; usage_output : Z }.

Definition Usage_default : Usage := {| usage_input := 0; usage_output := 0 |}.

Record ToolDefinition := {
  def_name : ToolName;
  def_description : string;
  def_input_schema : Value;
}.

(** [From<&ToolSpec> for ToolDefinition] *)
Definition ToolDefinition_from (spec : ToolSpec) : ToolDefinition :=
  {| def_name := spec_name spec; def_description := spec_description spec; def_input_schema := spec_input_schema spec |}.

Record CompletionRequest := {
  req_model : ModelId;
  req_messages : list Message;
  req_tools : list ToolDefinition;
  req_parameters : Value;
}.

Record CompletionResponse := {
  resp_message : Message;
  resp_finish_reason : FinishReason;
  resp_usage : option Usage;
}.

Record RequestEstimate := {
  est_system_tokens : Z;
  est_conversation_tokens : Z;
  est_user_input_tokens : option Z;
  est_tool_call_tokens : Z;
  est_tool_result_tokens : Z;
  est_tool_definition_tokens : Z;
  est_tools_offered : Z;
  est_total_tokens : Z;
}.

Record RequestMeasured := {
  rm_correlation : CorrelationId;
  rm_timestamp : Timestamp;
  rm_session : SessionId;
  rm_model : ModelId;
  rm_turn : Z;
  rm_cumulative_tool_calls : Z;
  rm_estimate : RequestEstimate;
  rm_context : ContextUsage;
  rm_provider_usage : option Usage;
  rm_cumulative_provider_usage : option Usage;
  rm_model_latency_ms : Z;
}.

Record Compaction := {
  compaction_summary : option ContextId;
  summarised_records : Z;
  removed_records : Z;
  reclaimed_tokens : Z;
  summary_tokens : Z;
}.

(** [Compaction::is_empty] *)
Definition Compaction_is_empty (self : Compaction) : bool :=
  (removed_records self =? 0) && match compaction_summary self with None => true | Some _ => false end.

Record AgentResponse := {
  response_session : SessionId;
  response_output : list ContentPart;
  response_usage : option Usage;
}.

Inductive AgentUpdate :=
  | Update_Content (part : ContentPart)
  | Update_Status (message : string)
  | Update_ToolCall (call : ToolCall)
  | Update_ToolResult (call_id : string) (outcome : ToolOutcome)
  | Update_Finished (response : AgentResponse).

Record AgentLoopSettings := {
  model : ModelId;
  budget : ContextBudget;
  max_turns : Z;
  max_tool_calls : Z;
  system_prompt : option string;
  parameters : Value;
}.

(** ** The rest of the system *)

Class AgentWorld (W : Type) := {
  (** The token the context shares. *)
  is_cancelled : W -> bool;
  clock_read : W -> W * Timestamp;
  instant_read : W -> W * Z;
  tools_list : ExecutionContext -> W -> W * Result (list ToolSpec);
  tools_invoke : ToolName -> Value -> ExecutionContext -> W -> W * Result ToolOutcome;
  context_stats : SessionId -> ExecutionContext -> W -> W * Result (option ContextStats);
  context_append : SessionId -> ContextEntry -> ExecutionContext -> W -> W * Result ContextRecord;
  context_window : SessionId -> ContextBudget -> ExecutionContext -> W -> W * Result ContextWindow;
  compactor_compact : SessionId -> ContextBudget -> ExecutionContext -> W -> W * Result Compaction;
  models_complete : CompletionRequest -> ExecutionContext -> W -> W * Result CompletionResponse;
  quota_check : ModelId -> ExecutionContext -> W -> W * Result unit;
  quota_record : UsageCharge -> ExecutionContext -> W -> W * Result unit;
}.

(** Why an entry was appended. *)
Inductive Purpose := For_System | For_Input | For_Reply | For_Call (id : string).

Inductive Call :=
  | Listed_tools (answer : Result (list ToolSpec))
  | Read_window (answer : Result ContextWindow)
  | Compacted (answer : Result Compaction)
  | Checked (answer : Result unit)
  | Completed (request : CompletionRequest) (answer : Result CompletionResponse)
  | Measured (event : RequestMeasured)
  | Charged (charge : UsageCharge) (answer : Result unit)
  | Appended (purpose : Purpose) (entry : ContextEntry) (answer : Result ContextRecord)
  | Invoked (tool : ToolName) (arguments : Value) (answer : Result ToolOutcome).

(** ** A run *)

Record Run := {
  input : list ContentPart;
  available : list ToolSpec;
  prepared : bool;
  pending : list ToolCall;
  running : option ToolCall;
  turns : Z;
  tool_calls : Z;
  compacting : bool;
  total_usage : Usage;
  usage_reported : bool;
  current_input_tokens : option Z;
}.

Definition Run_new (input : list ContentPart) : Run :=
  {| input := input; available := []; prepared := false; pending := []; running := None; turns := 0; tool_calls := 0;
     compacting := true; total_usage := Usage_default; usage_reported := false; current_input_tokens := None |}.

Definition set_available v r := {| input := input r; available := v; prepared := prepared r; pending := pending r;
  running := running r; turns := turns r; tool_calls := tool_calls r; compacting := compacting r; total_usage := total_usage r;
  usage_reported := usage_reported r; current_input_tokens := current_input_tokens r |}.
Definition set_prepared r := {| input := input r; available := available r; prepared := true; pending := pending r;
  running := running r; turns := turns r; tool_calls := tool_calls r; compacting := compacting r; total_usage := total_usage r;
  usage_reported := usage_reported r; current_input_tokens := current_input_tokens r |}.
Definition set_calls p c n r := {| input := input r; available := available r; prepared := prepared r; pending := p;
  running := c; turns := turns r; tool_calls := n; compacting := compacting r; total_usage := total_usage r;
  usage_reported := usage_reported r; current_input_tokens := current_input_tokens r |}.
Definition stop_compacting r := {| input := input r; available := available r; prepared := prepared r; pending := pending r;
  running := running r; turns := turns r; tool_calls := tool_calls r; compacting := false; total_usage := total_usage r;
  usage_reported := usage_reported r; current_input_tokens := current_input_tokens r |}.
Definition take_input tokens r := {| input := []; available := available r; prepared := prepared r; pending := pending r;
  running := running r; turns := turns r; tool_calls := tool_calls r; compacting := compacting r; total_usage := total_usage r;
  usage_reported := usage_reported r; current_input_tokens := tokens |}.
Definition take_input_tokens r := {| input := input r; available := available r; prepared := prepared r; pending := pending r;
  running := running r; turns := turns r; tool_calls := tool_calls r; compacting := compacting r; total_usage := total_usage r;
  usage_reported := usage_reported r; current_input_tokens := None |}.

(** A turn taken, with what the provider says it used. *)
Definition count_turn (reported : option Usage) r := {| input := input r; available := available r; prepared := prepared r;
  pending := pending r; running := running r; turns := turns r + 1; tool_calls := tool_calls r; compacting := compacting r;
  total_usage := match reported with
    | Some u => {| usage_input := sat_add64 (usage_input (total_usage r)) (usage_input u);
                   usage_output := sat_add64 (usage_output (total_usage r)) (usage_output u) |}
    | None => total_usage r end;
  usage_reported := match reported with Some _ => true | None => usage_reported r end;
  current_input_tokens := current_input_tokens r |}.

Definition AGENT_ATTRIBUTE : string := "aik.agent".
Definition SESSION_ATTRIBUTE : string := "aik.agent.session".


Section Agent.
  Context {W : Type} {AW : AgentWorld W} {TC : TokenCounter}.
  (** [Display for Error] *)
  Context (error_to_string : Error -> string).
  (** [Wiring]: the settings, the tools this agent is confined to, and which collaborators there are. *)
  Context (settings : AgentLoopSettings) (allowed : option (list ToolName)) (compactor quota events : bool).
  (** The session, the context of the run and when it started. *)
  Context (session : SessionId) (cx : ExecutionContext) (started : Timestamp).

Record RunState := { run : Run; world : W; log : list Call }.

Abbreviation M := (action RunState Error).

Definition on_run (f : Run -> Run) : M unit := modify (fun s => {| run := f (run s); world := world s; log := log s |}).

Definition on_world {A} (f : W -> W * A) : M A := fun s =>
  let (w, a) := f (world s) in ({| run := run s; world := w; log := log s |}, Ok a).

Definition note (c : Call) : M unit := modify (fun s => {| run := run s; world := world s; log := log s ++ [c] |}).

(** A call of a collaborator, and [?]. *)
Definition ask {A} (f : W -> W * Result A) (c : Result A -> Call) : M A :=
  let! answer := on_world f in note (c answer) ;! lift answer.

Definition guard : M unit :=
  let! cancelled := gets (fun s => is_cancelled (world s)) in
  if cancelled : bool then throw Cancelled
  else
    let! now := on_world clock_read in
    match deadline cx with
    | Some deadline => if deadline <=? now then throw (Timeout (Timestamp_saturating_since now started)) else ret tt
    | None => ret tt
    end.

Definition append_entry (purpose : Purpose) (entry : ContextEntry) : M unit :=
  ask (context_append session entry cx) (Appended purpose entry) ;! ret tt.

Definition read_window : M ContextWindow := ask (context_window session (budget settings) cx) Read_window.

Definition classify (kind : ErrorKind) : Value := VString (ErrorKind_lowercase kind).

Definition stops_the_run (kind : ErrorKind) : bool :=
  match kind with Kind_Cancelled | Kind_Timeout => true | _ => false end.

Definition make_room (dropped_records : Z) : M bool :=
  if dropped_records =? 0 then ret false
  else
    let! compacting := gets (fun s => compacting (run s)) in
    if negb (compacting && compactor) then ret false
    else
      let! answer := try (ask (compactor_compact session (budget settings) cx) Compacted) in
      match answer with
      | Ok compaction =>
          if Compaction_is_empty compaction then on_run stop_compacting ;! ret false else ret true
      | Err error =>
          if stops_the_run (Error_kind error) then throw error else on_run stop_compacting ;! ret false
      end.

Definition is_allowed (spec : ToolSpec) : bool :=
  match allowed with Some allowed => bool_decide (spec_name spec ∈ allowed) | None => true end.

Definition pinned (entry : Message) : ContextEntry := {| entry_message := entry; entry_pinned := true |}.
Definition unpinned_entry (entry : Message) : ContextEntry := {| entry_message := entry; entry_pinned := false |}.

Definition prepare_run : M unit :=
  let! specs := ask (tools_list cx) Listed_tools in
  on_run (set_available (List.filter is_allowed specs)) ;!
  (match system_prompt settings with
   | Some prompt =>
       let! known := (let! answer := on_world (context_stats session cx) in lift answer) in
       match known with
       | None => append_entry For_System (pinned (Message_text Role_System prompt))
       | Some _ => ret tt
       end
   | None => ret tt
   end) ;!
  let! compacting := gets (fun s => compacting (run s)) in
  (if compacting && compactor then
     let! w := read_window in
     make_room (dropped_records (usage w)) ;! ret tt
   else ret tt) ;!
  let! parts := gets (fun s => input (run s)) in
  let user_message := {| role := Role_User; content := parts; name := None |} in
  on_run (take_input (Some (count_message user_message))) ;!
  append_entry For_Input (unpinned_entry user_message).

(** One message's share of the estimate. *)
Definition add_message (e : RequestEstimate) (message : Message) : RequestEstimate :=
  let cost := count_message message in
  if decide (role message = Role_System)
  then {| est_system_tokens := est_system_tokens e + cost; est_conversation_tokens := est_conversation_tokens e;
          est_user_input_tokens := est_user_input_tokens e; est_tool_call_tokens := est_tool_call_tokens e;
          est_tool_result_tokens := est_tool_result_tokens e; est_tool_definition_tokens := est_tool_definition_tokens e;
          est_tools_offered := est_tools_offered e; est_total_tokens := est_total_tokens e |}
  else
    let calls := sum_Z (map (fun p => match p with Part_ToolCall _ => count_part p | _ => 0 end) (content message)) in
    let results := sum_Z (map (fun p => match p with ToolResult _ _ _ => count_part p | _ => 0 end) (content message)) in
    {| est_system_tokens := est_system_tokens e; est_conversation_tokens := est_conversation_tokens e + cost;
       est_user_input_tokens := est_user_input_tokens e; est_tool_call_tokens := est_tool_call_tokens e + calls;
       est_tool_result_tokens := est_tool_result_tokens e + results;
       est_tool_definition_tokens := est_tool_definition_tokens e; est_tools_offered := est_tools_offered e;
       est_total_tokens := est_total_tokens e |}.

Definition count_definition (d : ToolDefinition) : Z :=
  count_text (def_name d) + count_text (def_description d) + count_json (def_input_schema d).

Definition estimate_request (l : list Message) (tools : list ToolDefinition) (user_input_tokens : option Z) : RequestEstimate :=
  let e := foldl add_message {| est_system_tokens := 0; est_conversation_tokens := 0; est_user_input_tokens := user_input_tokens;
    est_tool_call_tokens := 0; est_tool_result_tokens := 0; est_tool_definition_tokens := 0; est_tools_offered := 0;
    est_total_tokens := 0 |} l in
  let definitions := sum_Z (map count_definition tools) in
  {| est_system_tokens := est_system_tokens e; est_conversation_tokens := est_conversation_tokens e;
     est_user_input_tokens := est_user_input_tokens e; est_tool_call_tokens := est_tool_call_tokens e;
     est_tool_result_tokens := est_tool_result_tokens e; est_tool_definition_tokens := definitions;
     est_tools_offered := Z.of_nat (length tools);
     est_total_tokens := est_system_tokens e + est_conversation_tokens e + definitions |}.

Definition charge_for (reported : option Usage) (estimate : RequestEstimate) (reply : Message) : UsageCharge :=
  match reported with
  | Some u => UsageCharge_turn (model settings) (usage_input u) (usage_output u)
  | None =>
      let c := UsageCharge_turn (model settings) (est_total_tokens estimate) (count_message reply) in
      {| charge_model := charge_model c; charge_turns := charge_turns c; charge_input_tokens := charge_input_tokens c;
         charge_output_tokens := charge_output_tokens c; estimated := true |}
  end.

Definition charge (reported : option Usage) (estimate : RequestEstimate) (reply : Message) : M unit :=
  if quota then
    let c := charge_for reported estimate reply in
    ask (quota_record c cx) (Charged c)
  else ret tt.

(** [millis] *)
Definition millis (duration : Duration) : Z := Z.min (as_millis duration) u64_max.

Definition publish_measurement (estimate : RequestEstimate) (context : ContextUsage) (reported : option Usage)
    (model_latency : Duration) : M unit :=
  if events then
    let! now := on_world clock_read in
    let! r := gets run in
    note (Measured {| rm_correlation := correlation cx; rm_timestamp := now; rm_session := session; rm_model := model settings;
      rm_turn := turns r; rm_cumulative_tool_calls := tool_calls r; rm_estimate := estimate; rm_context := context;
      rm_provider_usage := reported;
      rm_cumulative_provider_usage := if usage_reported r then Some (total_usage r) else None;
      rm_model_latency_ms := millis model_latency |})
  else ret tt.

Definition turn_limit : Error :=
  Error_other ("agent run in session `" +:+ session +:+ "` reached its limit of " +:+ fmt_u (max_turns settings)
               +:+ " model turns without producing a final response").

Definition as_call (part : ContentPart) : option ToolCall := match part with Part_ToolCall call => Some call | _ => None end.
Definition not_call (part : ContentPart) : bool := match part with Part_ToolCall _ => false | _ => true end.

(** What a reply leaves to do and what it shows. *)
Definition take_reply (parts : list ContentPart) : M (list AgentUpdate) :=
  on_run (fun r => set_calls (pending r ++ omap as_call parts) (running r) (tool_calls r) r) ;!
  let output := List.filter not_call parts in
  let! r := gets run in
  let updates := map Update_Content output in
  ret (if bool_decide (pending r = [])
       then updates ++ [Update_Finished {| response_session := session; response_output := output;
              response_usage := if usage_reported r then Some (total_usage r) else None |}]
       else updates).

Definition turn : M (list AgentUpdate) :=
  let! taken := gets (fun s => turns (run s)) in
  if max_turns settings <=? taken then throw turn_limit
  else
    (if quota then ask (quota_check (model settings) cx) Checked else ret tt) ;!
    let! first := read_window in
    let! compacted := make_room (dropped_records (usage first)) in
    let! w := (if compacted : bool then read_window else ret first) in
    let! definitions := gets (fun s => map ToolDefinition_from (available (run s))) in
    let! input_tokens := gets (fun s => current_input_tokens (run s)) in
    on_run take_input_tokens ;!
    let estimate := estimate_request (messages w) definitions input_tokens in
    let request := {| req_model := model settings; req_messages := messages w; req_tools := definitions;
                      req_parameters := parameters settings |} in
    let! model_started := on_world instant_read in
    let! response := ask (models_complete request (cx_child cx)) (Completed request) in
    let! model_finished := on_world instant_read in
    on_run (count_turn (resp_usage response)) ;!
    publish_measurement estimate (usage w) (resp_usage response) (model_finished - model_started) ;!
    charge (resp_usage response) estimate (resp_message response) ;!
    if decide (resp_finish_reason response = Finish_Cancelled) then throw Cancelled
    else
      append_entry For_Reply (unpinned_entry (resp_message response)) ;!
      take_reply (content (resp_message response)).

Definition call_limit : Error :=
  Error_other ("agent run in session `" +:+ session +:+ "` reached its limit of " +:+ fmt_u (max_tool_calls settings)
               +:+ " tool calls").

(** [announce] a call that was popped, with those left. *)
Definition announce (call : ToolCall) (rest : list ToolCall) : M (list AgentUpdate) :=
  let! made := gets (fun s => tool_calls (run s)) in
  if max_tool_calls settings <=? made then
    on_run (set_calls (call :: rest) None made) ;! throw call_limit
  else
    on_run (set_calls rest (Some call) (made + 1)) ;! ret [Update_ToolCall call].

Definition failed (error : Error) : ToolOutcome :=
  ToolOutcome_error (json_object [("kind", classify (Error_kind error)); ("message", VString (error_to_string error))]).

Definition unavailable (name : ToolName) : ToolOutcome :=
  ToolOutcome_error (json_object [("kind", classify Kind_NotFound);
    ("message", VString ("no tool named `" +:+ name +:+ "` is available to this agent"))]).

(** The message that answers a call. *)
Definition answer_to (id : string) (content : Value) (is_error : bool) : ContextEntry :=
  unpinned_entry {| role := Role_Tool; content := [ToolResult id content is_error]; name := None |}.

(** What a call came to, and why the run stops after it, if it does. *)
Definition outcome_of (call : ToolCall) : M (ToolOutcome * option Error) :=
  let! specs := gets (fun s => available (run s)) in
  if existsb (fun spec => bool_decide (spec_name spec = call_name call)) specs then
    let! answer := try (ask (tools_invoke (call_name call) (arguments call) (cx_child cx)) (Invoked (call_name call) (arguments call))) in
    match answer with
    | Ok outcome => ret (outcome, None)
    | Err error =>
        let! checked := try guard in
        ret (failed error, match checked with Ok _ => None | Err stopped => Some stopped end)
    end
  else ret (unavailable (call_name call), None).

Definition call_tool (call : ToolCall) : M (list AgentUpdate) :=
  let! (outcome, stop) := outcome_of call in
  append_entry (For_Call (call_id call)) (answer_to (call_id call) (output outcome) (is_error outcome)) ;!
  match stop with
  | Some stopped => throw stopped
  | None => ret [Update_ToolResult (call_id call) outcome]
  end.

Definition step : M (list AgentUpdate) :=
  guard ;!
  let! ready := gets (fun s => prepared (run s)) in
  (if ready : bool then ret tt else prepare_run ;! on_run set_prepared) ;!
  let! r := gets run in
  match running r with
  | Some call => on_run (set_calls (pending r) None (tool_calls r)) ;! call_tool call
  | None =>
      match pending r with
      | call :: rest => announce call rest
      | [] => turn
      end
  end.

Definition abandoned (reason : Error) : Value :=
  json_object [("kind", classify (Error_kind reason));
    ("message", VString ("the run stopped before this call was made: " +:+ error_to_string reason))].

Definition abandon_outstanding_calls (reason : Error) : M unit :=
  let! r := gets run in
  let outstanding := option_list (running r) ++ pending r in
  on_run (set_calls [] None (tool_calls r)) ;!
  for_each (fun call =>
    try (append_entry (For_Call (call_id call)) (answer_to (call_id call) (abandoned reason) true)) ;! ret tt) outstanding.

Definition advance : M (list AgentUpdate) :=
  let! r := try step in
  match r with
  | Ok updates => ret updates
  | Err error => abandon_outstanding_calls error ;! throw error
  end.

Definition is_finished (u : AgentUpdate) : bool := match u with Update_Finished _ => true | _ => false end.

(** [stream], polled to its end; [None] is running out of turns of the loop. *)
Fixpoint stream_loop (fuel : nat) (s : RunState) : RunState * option (list (Result AgentUpdate)) :=
  match fuel with
  | O => (s, None)
  | S fuel =>
      match advance s with
      | (s, Ok updates) =>
          if existsb is_finished updates then (s, Some (map Ok updates))
          else let (s, rest) := stream_loop fuel s in (s, app (map Ok updates) <$> rest)
      | (s, Err error) => (s, Some [Err error])
      end
  end.

(** [run] *)
Fixpoint run_loop (fuel : nat) (s : RunState) : RunState * option (Result AgentResponse) :=
  match fuel with
  | O => (s, None)
  | S fuel =>
      match advance s with
      | (s, Ok updates) =>
          match find_first is_finished updates with
          | Some (Update_Finished response) => (s, Some (Ok response))
          | _ => run_loop fuel s
          end
      | (s, Err error) => (s, Some (Err error))
      end
  end.

(** A turn of the loop per model turn, two per tool call, and the last. *)
Definition enough : nat := S (Z.to_nat (max_turns settings) + 2 * Z.to_nat (max_tool_calls settings)).
End Agent.

Record AgentRequest := { request_session : SessionId; request_input : list ContentPart }.

(** [AgentLoop::begin]: the context a run gets. *)
Definition begin_context (agent : string) (request : AgentRequest) (cx : ExecutionContext) : ExecutionContext :=
  with_attribute (with_attribute (cx_child cx) AGENT_ATTRIBUTE (VString agent)) SESSION_ATTRIBUTE (VString (request_session request)).

(** ** What a run does, told by its log *)

(** The calls that are not about turns, tools or the calls of a reply. *)
Definition loud (c : Call) : bool :=
  match c with
  | Checked _ | Completed _ _ | Charged _ _ | Invoked _ _ _ => true
  | Appended (For_Reply | For_Call _) _ _ => true
  | _ => false
  end.

Section Steps.
  Context {W : Type} {AW : AgentWorld W} {TC : TokenCounter}.
  Context (error_to_string : Error -> string).
  Context (settings : AgentLoopSettings) (allowed : option (list ToolName)) (compactor quota events : bool).
  Context (session : SessionId) (cx : ExecutionContext) (started : Timestamp).

#[local] Set Default Proof Using "Type".

Implicit Types s : RunState (W := W).

(** What the steps between the calls of a run leave alone. *)
Definition same_calls (r r' : Run) : Prop :=
  available r' = available r /\ pending r' = pending r /\ running r' = running r /\ turns r' = turns r /\
  tool_calls r' = tool_calls r /\ prepared r' = prepared r.

Definition quiet s s' : Prop :=
  (exists new, log s' = log s ++ new /\ List.filter loud new = []) /\ same_calls (run s) (run s').

#[local] Instance quiet_preorder : PreOrder quiet.
Proof.
  split.
  - intros s. split; [exists []; by rewrite app_nil_r|done].
  - intros a b c [(n1 & E1 & L1) S1] [(n2 & E2 & L2) S2]. split.
    + exists (n1 ++ n2). by rewrite E2, E1, <- app_assoc, List.filter_app, L1, L2.
    + unfold same_calls in *. naive_solver congruence.
Qed.

Lemma keeps_on_world {A} (f : W -> W * A) : keeps quiet (on_world f).
Proof.
  intros s s' r. unfold on_world. destruct (f (world s)). intros [= <- _]. split; [|done]. exists []. by rewrite app_nil_r.
Qed.

Lemma keeps_on_run f : (forall r, same_calls r (f r)) -> keeps quiet (on_run (W := W) f).
Proof. intros Hf s s' r [= <- _]. split; [exists []; by rewrite app_nil_r|apply Hf]. Qed.

Lemma keeps_note c : loud c = false -> keeps quiet (note (W := W) c).
Proof. intros Hc s s' r [= <- _]. split; [|done]. exists [c]. simpl. by rewrite Hc. Qed.

Lemma keeps_ask {A} (f : W -> W * Result A) (c : Result A -> Call) : (forall r, loud (c r) = false) -> keeps quiet (ask f c).
Proof.
  intros Hc. unfold ask. apply keeps_bind; [apply _|apply keeps_on_world|intros a].
  apply keeps_bind; [apply _|by apply keeps_note|intros _]. apply keeps_lift, _.
Qed.

Ltac quietly :=
  repeat first [ apply keeps_on_world | apply keeps_ask; intros ?; reflexivity | apply keeps_on_run; by intros []
               | apply keeps_note; reflexivity | keeps_step ].

Lemma quiet_guard : keeps quiet (guard cx started).
Proof. unfold guard. quietly. Qed.
Lemma quiet_window : keeps quiet (read_window settings session cx).
Proof. unfold read_window. quietly. Qed.
Lemma quiet_make_room n : keeps quiet (make_room settings compactor session cx n).
Proof. unfold make_room. quietly. Qed.
Lemma quiet_publish e c u d : keeps quiet (publish_measurement settings events session cx e c u d).
Proof. unfold publish_measurement. quietly. Qed.

Lemma try_inv {A} (m : action (RunState (W := W)) Error A) s s' r :
  try m s = (s', r) -> exists a, r = Ok a /\ m s = (s', a).
Proof. unfold try. destruct (m s) as [s1 a]. intros [= <- <-]. by exists a. Qed.

(** A call and what it answered. *)
Lemma ask_run {A} (f : W -> W * Result A) c s s' r :
  ask f c s = (s', r) -> run s' = run s /\ log s' = log s ++ [c r].
Proof. unfold ask, bind, on_world, note, lift, modify. destruct (f (world s)) as [w [a|e]]; by intros [= <- <-]. Qed.

Lemma append_entry_run p e s s' r :
  append_entry session cx p e s = (s', r) ->
  exists a, run s' = run s /\ log s' = log s ++ [Appended p e a] /\ r = result_map (fun _ => tt) a.
Proof.
  unfold append_entry, bind. destruct (ask _ _ s) as [s1 a] eqn:E. apply ask_run in E as [Hr Hl]. intros Hs. exists a.
  destruct a as [x|e']; by injection Hs as <- <-.
Qed.

(** The loud calls of a turn, with the parts of its reply if that was recorded. *)
Definition checks : list Call := if quota then [Checked (Ok tt)] else [].
Definition charged (request : CompletionRequest) (resp : CompletionResponse) (answer : Result unit) : list Call :=
  if quota then [Charged (charge_for settings (resp_usage resp)
      (estimate_request (req_messages request) (req_tools request) None) (resp_message resp)) answer] else [].
Definition charges (request : CompletionRequest) (resp : CompletionResponse) (answer : Result unit) : list Call :=
  Completed request (Ok resp) :: charged request resp answer.

Inductive turn_trace (specs : list ToolSpec) : list Call -> option (list ContentPart) -> Prop :=
  | Turn_none : turn_trace specs [] None
  | Turn_refused e : quota = true -> turn_trace specs [Checked (Err e)] None
  | Turn_checked : turn_trace specs checks None
  | Turn_failed request e :
      req_tools request = map ToolDefinition_from specs -> turn_trace specs (checks ++ [Completed request (Err e)]) None
  | Turn_uncharged request resp e :
      quota = true -> req_tools request = map ToolDefinition_from specs ->
      turn_trace specs (checks ++ charges request resp (Err e)) None
  | Turn_unrecorded request resp tail :
      req_tools request = map ToolDefinition_from specs ->
      tail = [] \/ (exists e, tail = [Appended For_Reply (unpinned_entry (resp_message resp)) (Err e)]) ->
      turn_trace specs (checks ++ charges request resp (Ok tt) ++ tail) None
  | Turn_replied request resp rec :
      req_tools request = map ToolDefinition_from specs ->
      turn_trace specs (checks ++ charges request resp (Ok tt) ++ [Appended For_Reply (unpinned_entry (resp_message resp)) (Ok rec)])
        (Some (content (resp_message resp))).

(** The charge does not depend on which tokens were the user's. *)
Lemma charge_input reported l tools i reply :
  charge_for settings reported (estimate_request l tools i) reply = charge_for settings reported (estimate_request l tools None) reply.
Proof.
  assert (Hfold : forall l e e', est_system_tokens e = est_system_tokens e' -> est_conversation_tokens e = est_conversation_tokens e' ->
    est_system_tokens (foldl add_message e l) = est_system_tokens (foldl add_message e' l) /\
    est_conversation_tokens (foldl add_message e l) = est_conversation_tokens (foldl add_message e' l)).
  { clear. induction l as [|m l IH]; intros e e' Hs Hc; [done|]. apply IH; unfold add_message; case_decide; simpl; congruence. }
  unfold charge_for, estimate_request. destruct reported; [done|]. simpl. f_equal.
  edestruct Hfold as [Hs Hc]; [| |rewrite Hs, Hc; reflexivity]; done.
Qed.

(** Steps of a run that said nothing loud, and then something. *)
Definition said (new : list Call) s s' : Prop := exists l, log s' = log s ++ l /\ List.filter loud l = new.

Lemma said_quiet s s' : quiet s s' -> said [] s s'.
Proof. by intros [? _]. Qed.

Lemma said_trans n1 n2 s s1 s2 : said n1 s s1 -> said n2 s1 s2 -> said (n1 ++ n2) s s2.
Proof.
  intros (l1 & E1 & <-) (l2 & E2 & <-). exists (l1 ++ l2). by rewrite E2, E1, <- app_assoc, List.filter_app.
Qed.

Lemma said_one c s s' : log s' = log s ++ [c] -> loud c = true -> said [c] s s'.
Proof. intros E Hc. exists [c]. simpl. by rewrite Hc. Qed.

(** Updates that hold one final answer, the last of them, or none at all. *)
Definition ends_with_answer (updates : list AgentUpdate) (finished : bool) : Prop :=
  if finished then exists front response, updates = front ++ [Update_Finished response] /\ existsb is_finished front = false
  else existsb is_finished updates = false.

Definition turned s s' (r : Result (list AgentUpdate)) (parts : option (list ContentPart)) : Prop :=
  available (run s') = available (run s) /\ prepared (run s') = prepared (run s) /\ running (run s') = running (run s) /\
  tool_calls (run s') = tool_calls (run s) /\ turns (run s) <= turns (run s') <= turns (run s) + 1 /\
  match parts with
  | None => is_ok r = false /\ pending (run s') = pending (run s)
  | Some parts =>
      turns (run s') = turns (run s) + 1 /\ pending (run s') = pending (run s) ++ omap as_call parts /\
      exists updates, r = Ok updates /\ ends_with_answer updates (bool_decide (pending (run s') = []))
  end.

Lemma take_reply_run parts s s' r :
  take_reply session parts s = (s', r) ->
  log s' = log s /\ run s' = set_calls (pending (run s) ++ omap as_call parts) (running (run s)) (tool_calls (run s)) (run s) /\
  exists updates, r = Ok updates /\ ends_with_answer updates (bool_decide (pending (run s') = [])).
Proof.
  intros [= <- <-]. simpl. split_and!; [done..|]. eexists. split; [done|].
  assert (Hn : existsb is_finished (map Update_Content (List.filter not_call parts)) = false).
  { induction (List.filter not_call parts); done. }
  case_bool_decide; [|done]. by do 2 eexists.
Qed.

Lemma publish_run e c u d s s' r :
  publish_measurement settings events session cx e c u d s = (s', r) -> r = Ok tt /\ quiet s s'.
Proof.
  intros H. split; [|by eapply quiet_publish]. revert H. unfold publish_measurement, bind, on_world, gets, note, modify, ret.
  destruct events; [destruct (clock_read (world s))|]; by intros [= _ <-].
Qed.

Lemma charge_run reported i reply request s s' r :
  charge settings quota cx reported (estimate_request (req_messages request) (req_tools request) i) reply s = (s', r) ->
  run s' = run s /\
  said (if quota then [Charged (charge_for settings reported (estimate_request (req_messages request) (req_tools request) None) reply) r]
        else []) s s' /\ (quota = false -> r = Ok tt).
Proof.
  unfold charge. destruct quota.
  - intros H. apply ask_run in H as [-> Hl]. split_and!; [done| |done]. rewrite charge_input in Hl. by apply (said_one _ _ _ Hl).
  - intros [= <- <-]. split_and!; try done. exists []. by rewrite app_nil_r.
Qed.

(** From the model's answer on. *)
Lemma after_answer request resp i u d s s' r :
  (on_run (count_turn (resp_usage resp)) ;!
   publish_measurement settings events session cx (estimate_request (req_messages request) (req_tools request) i) u (resp_usage resp) d ;!
   charge settings quota cx (resp_usage resp) (estimate_request (req_messages request) (req_tools request) i) (resp_message resp) ;!
   if decide (resp_finish_reason resp = Finish_Cancelled) then throw Cancelled
   else
     append_entry session cx For_Reply (unpinned_entry (resp_message resp)) ;!
     take_reply session (content (resp_message resp))) s = (s', r) ->
  exists tail parts, said tail s s' /\ turned s s' r parts /\
   (forall specs, req_tools request = map ToolDefinition_from specs ->
      turn_trace specs (checks ++ [Completed request (Ok resp)] ++ tail) parts).
Proof.
  intros H. unfold on_run in H. peel_pure H. peel H E2; [|by apply publish_run in E2 as [[=] _]].
  apply publish_run in E2 as [_ [Hq2 Hs2]]. destruct Hs2 as (Ha & Hp & Hru & Ht & Htc & Hpr). simpl in *.
  assert (Hq : said [] s s0) by done.
  peel H E3; apply charge_run in E3 as (Er3 & Hs3 & Hnq); fold (charged request resp (Ok a0)) in Hs3 || fold (charged request resp (Err e)) in Hs3.
  2: { exists (charged request resp (Err e)), None. split; [by apply (said_trans [] _ s s0)|split].
       - unfold turned. rewrite Er3. split_and!; try congruence; try lia; done.
       - intros specs Hspecs. apply Turn_uncharged; [|done]. destruct quota; [done|by discriminate Hnq]. }
  destruct a0. assert (Hbad : forall rest s2, run s2 = run s1 -> said rest s1 s2 -> forall e,
    rest = [] \/ (exists e, rest = [Appended For_Reply (unpinned_entry (resp_message resp)) (Err e)]) ->
    exists tail parts, said tail s s2 /\ turned s s2 (Err e) parts /\
      (forall specs, req_tools request = map ToolDefinition_from specs ->
        turn_trace specs (checks ++ Completed request (Ok resp) :: tail) parts)).
  { intros rest s2 Er Hs2 e Hrest. exists (charged request resp (Ok tt) ++ rest), None. split; [|split].
    - apply (said_trans _ _ s s1); [by apply (said_trans [] _ s s0)|done].
    - unfold turned. rewrite Er, Er3. split_and!; try congruence; try lia; done.
    - intros specs Hspecs. by apply (Turn_unrecorded specs request resp rest). }
  case_decide; [injection H as <- <-; apply (Hbad []); [done|by exists []; rewrite app_nil_r|by left]|].
  peel H E4; apply append_entry_run in E4 as (x & Er4 & El4 & Ex).
  2: { destruct x as [|e']; [done|]. injection Ex as ->. eapply Hbad; [done|by apply (said_one _ _ _ El4)|right; by exists e']. }
  destruct x as [x|]; [|done]. apply take_reply_run in H as (El5 & Er5 & updates & -> & Hf).
  exists (charged request resp (Ok tt) ++ [Appended For_Reply (unpinned_entry (resp_message resp)) (Ok x)]), (Some (content (resp_message resp))).
  split; [|split].
  - apply (said_trans _ _ s s1); [by apply (said_trans [] _ s s0)|]. apply (said_one _ _ _) ; [by rewrite El5|done].
  - unfold turned. rewrite Er5 in *. simpl in *. rewrite Er4, Er3 in *. split_and!; try congruence; try lia. by exists updates.
  - intros specs Hspecs. by apply Turn_replied.
Qed.

(** A run that has said something and left its calls as they were. *)
Definition reached (new : list Call) s s' : Prop := said new s s' /\ same_calls (run s) (run s').

Lemma reached_here s : reached [] s s.
Proof. split; [exists []; by rewrite app_nil_r|done]. Qed.

Lemma reached_quiet new s s1 s2 : reached new s s1 -> quiet s1 s2 -> reached new s s2.
Proof.
  intros [Hs Hc] [Hl Hc']. split; [|unfold same_calls in *; naive_solver congruence].
  rewrite <- (app_nil_r new). by eapply said_trans.
Qed.

Lemma reached_one new c s s1 s2 :
  reached new s s1 -> run s2 = run s1 -> log s2 = log s1 ++ [c] -> loud c = true -> reached (new ++ [c]) s s2.
Proof. intros [Hs Hc] Hr Hl Hc'. split; [eapply said_trans; [done|by apply said_one]|by rewrite Hr]. Qed.

Lemma reached_failed new s s' e specs :
  reached new s s' -> turn_trace specs new None ->
  exists new parts, said new s s' /\ turned s s' (Err e) parts /\ turn_trace specs new parts.
Proof.
  intros [Hs (Ha & Hp & Hr & Ht & Hc & Hpr)] Hn. exists new, None. split; [done|split; [|done]].
  unfold turned. split_and!; try congruence; try lia; done.
Qed.

Lemma on_world_ok {A} (f : W -> W * A) s s' r : on_world f s = (s', r) -> exists a, r = Ok a.
Proof. unfold on_world. destruct (f (world s)) as [w a]. intros [= _ <-]. by exists a. Qed.

(** The quota's answer, before anything else. *)
Lemma check_run s s' r :
  (if quota then ask (quota_check (model settings) cx) Checked else ret tt) s = (s', r) ->
  reached (match r with Ok _ => checks | Err e => [Checked (Err e)] end) s s' /\ (is_ok r = false -> quota = true).
Proof.
  unfold checks. destruct quota; [|intros [= <- <-]; split; [apply reached_here|done]].
  intros H. apply ask_run in H as [Er El]. split; [|done].
  assert (Ho := reached_one [] _ s s s' (reached_here s) Er El eq_refl). by destruct r as [[]|].
Qed.

Ltac quiet_on Hp :=
  match goal with E : ?m ?a = (?b, _), Hp' : reached _ _ ?a |- _ =>
    let K := fresh in assert (K : keeps quiet m) by (first [apply quiet_window | apply quiet_make_room | quietly]);
    apply K in E; clear K; apply (reached_quiet _ _ _ _ Hp') in E; clear Hp'; rename E into Hp
  end.

(** A whole turn. *)
Lemma turn_run s s' r :
  turn settings compactor quota events session cx s = (s', r) ->
  exists new parts, said new s s' /\ turned s s' r parts /\ turn_trace (available (run s)) new parts.
Proof.
  intros H. unfold turn in H. peel_pure H. case_match; [injection H as <- <-; apply (reached_failed []); [apply reached_here|constructor]|].
  peel H E1; apply check_run in E1 as [Hp Hq]; [|eapply reached_failed; [done|apply Turn_refused; auto]].
  assert (Hbad : forall s' e, reached checks s s' -> exists new parts, said new s s' /\ turned s s' (Err e) parts /\
    turn_trace (available (run s)) new parts) by (intros; eapply reached_failed; [done|constructor]).
  peel H E2; quiet_on Hp; [|by apply Hbad]. peel H E3; quiet_on Hp; [|by apply Hbad].
  peel H E4; quiet_on Hp; [|by apply Hbad]. do 2 peel_pure H.
  assert (Ha := proj1 (proj2 Hp)). rewrite Ha in H. peel H E5; quiet_on Hp; [|by apply Hbad].
  peel H E6; quiet_on Hp; [|by apply Hbad]. clear Hbad.
  set (request := {| req_model := _; req_messages := _; req_tools := _; req_parameters := _ |}) in H.
  peel H E7; apply ask_run in E7 as [Er El]; apply (reached_one _ _ _ _ _ Hp Er) in El; try done.
  2: { eapply reached_failed; [done|by apply Turn_failed]. }
  clear Hp. rename El into Hp. peel H E8; [|by apply on_world_ok in E8 as [? [=]]]. quiet_on Hp.
  apply (after_answer request) in H as (tail & parts & Hs & Ht & Htr).
  exists ((checks ++ [Completed request (Ok a5)]) ++ tail), parts. split; [eapply said_trans; [apply Hp|done]|]. split.
  - destruct Hp as [_ (? & ? & ? & ? & ? & ?)]. unfold turned in *. destruct parts; destruct_and?; split_and!; try congruence; lia.
  - rewrite <- app_assoc. by apply Htr.
Qed.

Lemma turn_at_limit s :
  max_turns settings <= turns (run s) ->
  turn settings compactor quota events session cx s = (s, Err (turn_limit settings session)).
Proof. intros H. unfold turn, bind, gets. by rewrite (proj2 (Z.leb_le _ _) H). Qed.

(** *** One step *)

(** Whether a tool of this name was offered. *)
Definition offered (specs : list ToolSpec) (name : ToolName) : bool :=
  existsb (fun spec => bool_decide (spec_name spec = name)) specs.

(** The outcome of a call: an offered tool is invoked once, an unknown one never. *)
Inductive outcome_trace (specs : list ToolSpec) (call : ToolCall) : list Call -> ToolOutcome -> Prop :=
  | Outcome_ok outcome :
      offered specs (call_name call) = true ->
      outcome_trace specs call [Invoked (call_name call) (arguments call) (Ok outcome)] outcome
  | Outcome_failed e :
      offered specs (call_name call) = true ->
      outcome_trace specs call [Invoked (call_name call) (arguments call) (Err e)] (failed error_to_string e)
  | Outcome_unavailable :
      offered specs (call_name call) = false -> outcome_trace specs call [] (unavailable (call_name call)).

(** What a step says, and the calls that are outstanding before and after it. *)
Inductive does (specs : list ToolSpec) : list ToolCall -> list Call -> list ToolCall -> Prop :=
  | Does_nothing q : does specs q [] q
  | Does_turn new : turn_trace specs new None -> does specs [] new []
  | Does_reply new parts : turn_trace specs new (Some parts) -> does specs [] new (omap as_call parts)
  | Does_call call q new outcome answer :
      outcome_trace specs call new outcome ->
      does specs (call :: q) (new ++ [Appended (For_Call (call_id call)) (answer_to (call_id call) (output outcome) (is_error outcome)) answer]) q.

Definition outstanding (r : Run) : list ToolCall := option_list (running r) ++ pending r.

Lemma outcome_run call s s' r :
  outcome_of error_to_string cx started call s = (s', r) ->
  exists new outcome stop, r = Ok (outcome, stop) /\ reached new s s' /\ outcome_trace (available (run s)) call new outcome.
Proof.
  unfold outcome_of. intros H. peel_pure H. destruct (existsb _ _) eqn:Ho.
  2: { injection H as <- <-. exists [], (unavailable (call_name call)), None.
       split; [done|split; [apply reached_here|by apply Outcome_unavailable]]. }
  peel H E1; apply try_inv in E1 as (a' & [=] & E2); subst a. apply ask_run in E2 as [Er El]. apply (reached_one [] _ s s _ (reached_here s) Er) in El; [|done]. destruct a' as [outcome|e].
  - injection H as <- <-. exists [Invoked (call_name call) (arguments call) (Ok outcome)], outcome, None.
    split; [done|split; [done|by apply Outcome_ok]].
  - peel H E3; apply try_inv in E3 as (a' & [=] & E4); subst a. apply quiet_guard in E4. injection H as <- <-. do 3 eexists. split; [done|].
    split; [by eapply reached_quiet|by apply Outcome_failed].
Qed.

Lemma call_tool_run call s s' r :
  call_tool error_to_string session cx started call s = (s', r) ->
  exists new outcome answer,
    reached (new ++ [Appended (For_Call (call_id call)) (answer_to (call_id call) (output outcome) (is_error outcome)) answer]) s s' /\
    outcome_trace (available (run s)) call new outcome /\
    (forall updates, r = Ok updates -> ends_with_answer updates false).
Proof.
  unfold call_tool. intros H. peel H E1; apply outcome_run in E1 as (new & outcome & stop & [=] & Hr & Ht). subst a. simpl in H.
  peel H E2; apply append_entry_run in E2 as (answer & Er & El & _); apply (reached_one _ _ _ _ _ Hr Er) in El; try done;
    exists new, outcome, answer; (split; [|split; [done|]]); [|by destruct stop; injection H as _ <-; intros ? [= <-]| |done].
  - by destruct stop; injection H as <- _.
  - done.
Qed.

(** What opens a step: the guard, and once in a run the preparation. *)
Definition opening : action (RunState (W := W)) Error unit :=
  guard cx started ;!
  let! ready := gets (fun s => prepared (run s)) in
  if ready : bool then ret tt else prepare_run settings allowed compactor session cx ;! on_run set_prepared.

(** What a step then does. *)
Definition act : action (RunState (W := W)) Error (list AgentUpdate) :=
  let! r := gets run in
  match running r with
  | Some call => on_run (set_calls (pending r) None (tool_calls r)) ;! call_tool error_to_string session cx started call
  | None =>
      match pending r with
      | call :: rest => announce settings session call rest
      | [] => turn settings compactor quota events session cx
      end
  end.

Lemma step_opening s : step error_to_string settings allowed compactor quota events session cx started s = (opening ;! act) s.
Proof.
  unfold step, opening, act, bind. destruct (guard cx started s) as [s1 [a|e]]; [|done]. unfold gets.
  destruct (prepared (run s1)); [done|]. destruct (prepare_run _ _ _ _ _ s1) as [s2 [b|e]]; [|done]. by destruct (on_run _ s2) as [s3 [|]].
Qed.

(** The tools a list leaves this agent. *)
Definition listed s : Prop :=
  exists all, In (Listed_tools (Ok all)) (log s) /\ available (run s) = List.filter (is_allowed allowed) all.

(** Preparing changes nothing but the tools, and says nothing loud. *)
Lemma prepare_run_spec s s' r :
  prepare_run settings allowed compactor session cx s = (s', r) ->
  said [] s s' /\ same_calls (set_available (available (run s')) (run s)) (run s') /\ (is_ok r = true -> listed s').
Proof.
  intros H. unfold prepare_run in H. peel H E1; apply ask_run in E1 as [Er El].
  2: { split; [exists [Listed_tools (Err e)]; done|]. rewrite Er. by split. }
  peel_pure H. match type of H with ?m _ = _ => assert (Hq : keeps quiet m) end.
  { unfold append_entry. quietly; apply quiet_make_room. }
  apply Hq in H. clear Hq. destruct H as [(l & Hl & Hf) Hc]. simpl in *. rewrite Er in Hc. split; [|split].
  - exists (Listed_tools (Ok a) :: l). split; [by rewrite Hl, El, <- app_assoc|done].
  - unfold same_calls in *. simpl in *. naive_solver congruence.
  - intros _. exists a. split; [rewrite Hl, El; apply in_app_iff; left; apply in_app_iff; right; by left|apply Hc].
Qed.

Definition completions (l : list Call) : nat := length (List.filter (fun c => match c with Completed _ _ => true | _ => false end) l).
Definition invocations (l : list Call) : nat := length (List.filter (fun c => match c with Invoked _ _ _ => true | _ => false end) l).

Definition calling (r : Run) : Z := match running r with Some _ => 1 | None => 0 end.

(** What is left of a run: a turn each, two steps per call, and the call being made. *)
Definition left_over (r : Run) : Z :=
  2 * (max_tool_calls settings - tool_calls r) + (max_turns settings - turns r) + calling r.

(** Every step keeps to the limits and gets nearer to the end. *)
Definition counts (new : list Call) (r r' : Run) (result : Result (list AgentUpdate)) : Prop :=
  turns r <= turns r' <= Z.max (turns r) (max_turns settings) /\
  tool_calls r <= tool_calls r' <= Z.max (tool_calls r) (max_tool_calls settings) /\
  Z.of_nat (completions new) <= Z.max 0 (max_turns settings - turns r) /\
  (is_ok result = true -> turns r' = turns r + Z.of_nat (completions new)) /\
  Z.of_nat (invocations new) + calling r' + tool_calls r <= tool_calls r' + calling r /\
  (forall updates, result = Ok updates ->
     ends_with_answer updates false /\ left_over r' < left_over r \/ ends_with_answer updates true /\ outstanding r' = []).

Lemma counts_app l l' : completions (l ++ l') = (completions l + completions l')%nat /\ invocations (l ++ l') = (invocations l + invocations l')%nat.
Proof. unfold completions, invocations. by rewrite !List.filter_app, !length_app. Qed.

Lemma turn_counts specs new parts :
  turn_trace specs new parts -> (completions new <= 1)%nat /\ (parts <> None -> completions new = 1%nat) /\ invocations new = 0%nat.
Proof.
  intros [ | | | | | request resp tail _ Htail | ]; unfold checks, charges, charged; destruct quota;
    try (destruct Htail as [->|[e ->]]); split_and!; try done; unfold completions; simpl; lia.
Qed.

Lemma act_run s s' r :
  act s = (s', r) ->
  exists new, said new s s' /\ does (available (run s)) (outstanding (run s)) new (outstanding (run s')) /\
    available (run s') = available (run s) /\ prepared (run s') = prepared (run s) /\ counts new (run s) (run s') r.
Proof.
  intros H. unfold act in H. peel_pure H. destruct (running (run s)) as [call|] eqn:Hrun.
  - peel_pure H. apply call_tool_run in H as (new & outcome & answer & [Hs Hc] & Ht & Hf). simpl in *.
    destruct Hc as (Ha & Hp & Hr & Htu & Htc & Hpr). simpl in *. eexists. split; [exact Hs|]. split; [|split; [done|split; [done|]]].
    + unfold outstanding. rewrite Hrun, Hr, Hp. by apply Does_call.
    + assert (Hn : (completions new = 0 /\ invocations new <= 1)%nat) by (destruct Ht; unfold completions, invocations; simpl; lia).
      unfold counts, left_over, calling. rewrite !(proj1 (counts_app _ _)), !(proj2 (counts_app _ _)), Hrun, Hr, Htu, Htc.
      change (completions [_]) with 0%nat. change (invocations [_]) with 0%nat. split_and!; try lia.
      intros updates Hu. left. split; [by apply Hf|lia].
  - destruct (pending (run s)) as [|call rest] eqn:Hpend.
    + destruct (Z.le_gt_cases (max_turns settings) (turns (run s))) as [Hm|Hm].
      { rewrite turn_at_limit in H by done. injection H as <- <-. exists []. split; [exists []; by rewrite app_nil_r|].
        split; [apply Does_nothing|]. unfold counts, completions, invocations. simpl. split_and!; try done; lia. }
      apply turn_run in H as (new & parts & Hs & (Ha & Hpr & Hr & Htc & Htu & Hparts) & Ht). exists new. split; [done|].
      destruct (turn_counts _ _ _ Ht) as (Hc1 & Hc2 & Hi). split; [|split; [done|split; [done|]]].
      * unfold outstanding. rewrite Hr, Hrun, Hpend. destruct parts as [parts|].
        -- destruct Hparts as (_ & -> & _). rewrite Hpend. by apply Does_reply.
        -- destruct Hparts as [_ ->]. rewrite Hpend. by apply Does_turn.
      * unfold counts, left_over, calling, outstanding. rewrite Hr, Hrun, Hi, Htc. destruct parts as [parts|].
        -- destruct Hparts as (Hone & _ & updates & -> & Hfin). rewrite Hc2 by done. split_and!; try lia.
           intros ? [= <-]. case_bool_decide as Hno; [right; by rewrite Hno|left; split; [done|lia]].
        -- destruct Hparts as [Hbad _]. destruct r; [done|]. split_and!; try lia; done.
    + unfold announce in H. peel_pure H. destruct (Z.leb_spec (max_tool_calls settings) (tool_calls (run s))) as [Hm|Hm];
        peel_pure H; injection H as <- <-; exists []; (split; [exists []; by rewrite app_nil_r|]);
        (split; [unfold outstanding; simpl; rewrite Hrun, Hpend; apply Does_nothing|]);
        unfold counts, left_over, calling, completions, invocations; simpl; rewrite Hrun; split_and!; try done; try lia.
      intros ? [= <-]. left. split; [done|simpl; lia].
Qed.

Lemma opening_run s s' r :
  opening s = (s', r) ->
  said [] s s' /\ same_calls (set_available (available (run s')) (if prepared (run s') then set_prepared (run s) else run s)) (run s') /\
  (is_ok r = true -> prepared (run s') = true) /\
  (if prepared (run s) then quiet s s' else prepared (run s') = true -> listed s').
Proof.
  intros H. unfold opening in H. peel H E1; apply quiet_guard in E1 as [Hl1 Hc1].
  2: { split; [done|]. unfold quiet, same_calls in *. destruct (prepared (run s)) eqn:Hp; destruct_and?;
       destruct (prepared (run s')) eqn:Hp'; simpl; split_and!; congruence || done. }
  peel_pure H. destruct (prepared (run s0)) eqn:Hp0.
  { injection H as <- <-. split; [done|]. unfold quiet, same_calls in *. destruct_and?. rewrite Hp0. simpl.
    destruct (prepared (run s)) eqn:Hp; split_and!; congruence || done. }
  assert (Hp : prepared (run s) = false) by (unfold same_calls in Hc1; destruct_and?; congruence). rewrite Hp.
  peel H E2; apply prepare_run_spec in E2 as (Hl2 & Hc2 & Hk).
  - injection H as <- <-. simpl. split; [by apply (said_trans [] [] s s0)|]. unfold same_calls in *. simpl in *.
    destruct_and?. split_and!; try congruence; intros _; by apply Hk.
  - split; [by apply (said_trans [] [] s s0)|]. unfold same_calls in *. simpl in *. destruct_and?.
    assert (prepared (run s') = false) as -> by congruence. simpl. split_and!; congruence || done.
Qed.

(** The answer to a call that is never made. *)
Definition abandoned_answer (reason : Error) (call : ToolCall) (c : Call) : Prop :=
  exists answer, c = Appended (For_Call (call_id call)) (answer_to (call_id call) (abandoned error_to_string reason) true) answer.

Lemma abandon_one reason call s s' r :
  (try (append_entry session cx (For_Call (call_id call)) (answer_to (call_id call) (abandoned error_to_string reason) true)) ;! ret tt) s = (s', r) ->
  r = Ok tt /\ run s' = run s /\ exists c, said [c] s s' /\ abandoned_answer reason call c.
Proof.
  intros H. peel H E; apply try_inv in E as (a' & [=] & E). apply append_entry_run in E as (answer & Er & El & _).
  injection H as <- <-. split; [done|split; [done|]]. eexists. split; [by apply said_one|by exists answer].
Qed.

Lemma abandon_each reason q s s' r :
  for_each (fun call =>
    try (append_entry session cx (For_Call (call_id call)) (answer_to (call_id call) (abandoned error_to_string reason) true)) ;! ret tt) q s = (s', r) ->
  r = Ok tt /\ run s' = run s /\ exists new, said new s s' /\ Forall2 (abandoned_answer reason) q new.
Proof.
  revert s. induction q as [|call q IH]; intros s H; simpl in H.
  { injection H as <- <-. split; [done|split; [done|]]. exists []. split; [by exists []; rewrite app_nil_r|done]. }
  peel H E; apply abandon_one in E as (Hok & Er & c & Hc & Ha); [|done].
  apply IH in H as (-> & Er' & new & Hs & Hf). split; [done|]. rewrite Er', Er. split; [done|].
  exists (c :: new). split; [by eapply (said_trans [c])|by constructor].
Qed.

Lemma abandon_run reason s s' r :
  abandon_outstanding_calls error_to_string session cx reason s = (s', r) ->
  r = Ok tt /\ run s' = set_calls [] None (tool_calls (run s)) (run s) /\
  exists new, said new s s' /\ Forall2 (abandoned_answer reason) (outstanding (run s)) new.
Proof.
  intros H. unfold abandon_outstanding_calls in H. do 2 peel_pure H. by apply abandon_each in H.
Qed.

(** What a run has said so far, and the calls it still has to answer. *)
Inductive run_trace (specs : list ToolSpec) : list Call -> list ToolCall -> Prop :=
  | Trace_start : run_trace specs [] []
  | Trace_step said q new q' : run_trace specs said q -> does specs q new q' -> run_trace specs (said ++ new) q'
  | Trace_abandon said q new reason :
      run_trace specs said q -> Forall2 (abandoned_answer reason) q new -> run_trace specs (said ++ new) [].

Definition following s : Prop :=
  if prepared (run s) then listed s /\ run_trace (available (run s)) (List.filter loud (log s)) (outstanding (run s))
  else List.filter loud (log s) = [] /\ outstanding (run s) = [].

Lemma said_loud new s s' : said new s s' -> List.filter loud (log s') = List.filter loud (log s) ++ new.
Proof. intros (l & -> & <-). by rewrite List.filter_app. Qed.

Lemma listed_said new s s' : said new s s' -> available (run s') = available (run s) -> listed s -> listed s'.
Proof. intros (l & El & _) Ha (all & Hin & Hall). exists all. rewrite El, Ha. split; [|done]. apply in_app_iff. by left. Qed.

Lemma outstanding_same r r' : pending r' = pending r -> running r' = running r -> outstanding r' = outstanding r.
Proof. unfold outstanding. by intros -> ->. Qed.

Lemma counts_refused r r' e : same_calls r r' -> counts [] r r' (Err e).
Proof.
  intros (Ha & Hp & Hr & Ht & Hc & Hpr). unfold counts, calling, completions, invocations. rewrite Hr, Ht, Hc. simpl. split_and!; lia || done.
Qed.

Lemma counts_after a r r0 r' result new :
  same_calls (set_available a r) r0 \/ same_calls (set_available a (set_prepared r)) r0 ->
  counts new r0 r' result -> counts new r r' result.
Proof.
  intros Hs. assert (Hc : running r0 = running r /\ turns r0 = turns r /\ tool_calls r0 = tool_calls r) by (unfold same_calls in Hs; naive_solver).
  destruct Hc as (Hr & Ht & Hc). unfold counts, calling, left_over, calling. by rewrite Hr, Ht, Hc.
Qed.

Lemma opening_follows s s' r : opening s = (s', r) -> following s -> following s'.
Proof.
  intros H Hf. apply opening_run in H as (Hs & Hc & Hr & Hq). unfold following in *. rewrite (said_loud _ _ _ Hs), app_nil_r.
  destruct Hc as (Ha & Hp & Hrun & Ht & Htc & Hpr). assert (Ho : outstanding (run s') = outstanding (run s)).
  { apply outstanding_same; [rewrite Hp|rewrite Hrun]; by destruct (prepared (run s')). }
  rewrite Ho. destruct (prepared (run s)) eqn:Hps.
  - destruct Hq as [_ Hq]. destruct Hq as (Ha' & _ & _ & _ & _ & Hpr'). rewrite Hpr', Hps, Ha'. destruct Hf as [Hl Ht']. split; [|done].
    by eapply listed_said.
  - destruct Hf as [Hl Hn]. rewrite Hn. destruct (prepared (run s')) eqn:Hps'; [|done]. rewrite Hl. split; [by apply Hq|constructor].
Qed.

Lemma act_follows s s' r : act s = (s', r) -> prepared (run s) = true -> following s -> following s'.
Proof.
  intros H Hp Hf. apply act_run in H as (new & Hs & Hd & Ha & Hpr & _). unfold following in *. rewrite Hpr, Hp in *.
  destruct Hf as [Hl Ht]. split; [by eapply listed_said|]. rewrite (said_loud _ _ _ Hs), Ha. by eapply Trace_step.
Qed.

Lemma step_run s s' r :
  step error_to_string settings allowed compactor quota events session cx started s = (s', r) -> following s ->
  following s' /\ exists new, said new s s' /\ counts new (run s) (run s') r.
Proof.
  rewrite step_opening. intros H Hf. peel H E; assert (Hf0 := opening_follows _ _ _ E Hf);
    apply opening_run in E as (Hs & Hc & Hok & _).
  - split; [by eapply act_follows; [| apply Hok|]|]. apply act_run in H as (new & Hs' & _ & _ & _ & Hcs).
    exists new. split; [by apply (said_trans [] new s s0)|]. rewrite Hok in Hc by done. by eapply counts_after; [right|].
  - split; [done|]. exists []. split; [done|].
    eapply (counts_after _ _ (run s')); [destruct (prepared (run s')); eauto|]. by apply counts_refused.
Qed.

(** A step, and the calls it leaves unanswered abandoned if it failed. *)
Lemma advance_run s s' r :
  advance error_to_string settings allowed compactor quota events session cx started s = (s', r) -> following s ->
  following s' /\ (is_ok r = false -> outstanding (run s') = []) /\ exists new, said new s s' /\ counts new (run s) (run s') r.
Proof.
  intros H Hf. unfold advance in H. peel H E; apply try_inv in E as (a' & [=] & E); subst a.
  apply step_run in E as (Hf0 & new & Hs & Hc); [|done]. destruct a' as [updates|e].
  { injection H as <- <-. split; [done|split; [done|by exists new]]. }
  peel H E; apply abandon_run in E as (Hok & Er & last & Hl & Ha); [|done]. injection H as -> <-.
  assert (Ho : outstanding (run s') = []) by (by rewrite Er). split; [|split; [done|]].
  - unfold following in *. rewrite Ho, (said_loud _ _ _ Hl), Er. simpl. destruct (prepared (run s0)) eqn:Hp.
    + destruct Hf0 as [Hls Ht]. split; [|by eapply Trace_abandon]. eapply listed_said; [done| |done]. by rewrite Er.
    + destruct Hf0 as [Hn Hno]. rewrite Hno in Ha. apply Forall2_nil_inv_l in Ha as ->. by rewrite Hn.
  - exists (new ++ last). split; [by eapply said_trans|]. unfold counts in *. rewrite Er. simpl.
    assert (Hz : completions last = 0%nat /\ invocations last = 0%nat).
    { clear -Ha. induction Ha as [|call c q l [answer ->] Ha IH]; [done|exact IH]. }
    rewrite !(proj1 (counts_app _ _)), !(proj2 (counts_app _ _)), (proj1 Hz), (proj2 Hz).
    replace (calling _) with 0 by done. destruct_and?. split_and!; try lia; try done.
    unfold calling in *. destruct (running (run s0)); lia.
Qed.

(** *** A whole run *)

Definition loud_log s : list Call := List.filter loud (log s).

(** Where a run is between two steps. *)
Definition underway s : Prop :=
  following s /\ turns (run s) = Z.of_nat (completions (loud_log s)) /\ turns (run s) <= max_turns settings /\
  Z.of_nat (invocations (loud_log s)) + calling (run s) <= tool_calls (run s) <= max_tool_calls settings.

(** Where it is at its end. *)
Definition over s : Prop :=
  following s /\ outstanding (run s) = [] /\ Z.of_nat (completions (loud_log s)) <= max_turns settings /\
  Z.of_nat (invocations (loud_log s)) <= max_tool_calls settings.

Lemma advance_underway s s' r :
  advance error_to_string settings allowed compactor quota events session cx started s = (s', r) -> underway s ->
  match r with
  | Ok updates => ends_with_answer updates false /\ underway s' /\ left_over (run s') < left_over (run s) \/
                  ends_with_answer updates true /\ over s'
  | Err _ => over s'
  end.
Proof.
  intros H (Hf & Ht & Htm & Hc). apply advance_run in H as (Hf' & Hno & new & Hs & (H1 & H2 & H3 & H4 & H5 & H6)); [|done].
  unfold underway, over, loud_log in *. rewrite (said_loud _ _ _ Hs), (proj1 (counts_app _ _)), (proj2 (counts_app _ _)).
  assert (0 <= calling (run s')) by (unfold calling; by destruct (running (run s'))). destruct r as [updates|e].
  - specialize (H4 eq_refl). destruct (H6 _ eq_refl) as [[He Hl]|[He Ho]]; [left|right]; (split; [done|]); split_and!; try done; lia.
  - specialize (Hno eq_refl). split_and!; try done; lia.
Qed.

(** What the caller of [run] makes of the items of the stream. *)
Definition conclusion (items : list (Result AgentUpdate)) : option (Result AgentResponse) :=
  match last items with
  | Some (Ok (Update_Finished response)) => Some (Ok response)
  | Some (Err error) => Some (Err error)
  | _ => None
  end.

Definition is_last (item : Result AgentUpdate) : bool := match item with Ok u => is_finished u | Err _ => true end.

(** One closing item, the last. *)
Definition closed_stream (items : list (Result AgentUpdate)) : Prop :=
  exists front item, items = front ++ [item] /\ is_last item = true /\ existsb is_last front = false.

Lemma existsb_last_ok updates : existsb is_last (map Ok updates) = existsb is_finished updates.
Proof. induction updates as [|u l IH]; [done|]. simpl. by rewrite IH. Qed.

Lemma find_first_none {A} (p : A -> bool) l : existsb p l = false -> find_first p l = None.
Proof. induction l as [|a l IH]; [done|]. simpl. destruct (p a); [done|apply IH]. Qed.

Lemma find_first_app {A} (p : A -> bool) l a : existsb p l = false -> p a = true -> find_first p (l ++ [a]) = Some a.
Proof. induction l as [|b l IH]; simpl; [by intros _ ->|]. destruct (p b); [done|apply IH]. Qed.

(** Enough turns of the loop end the stream, and [run] answers what the stream ends with. *)
Lemma loops_end fuel s :
  underway s -> left_over (run s) < Z.of_nat fuel ->
  exists s' items answer,
    stream_loop error_to_string settings allowed compactor quota events session cx started fuel s = (s', Some items) /\
    closed_stream items /\ over s' /\ conclusion items = Some answer /\
    run_loop error_to_string settings allowed compactor quota events session cx started fuel s = (s', Some answer).
Proof.
  revert s. induction fuel as [|fuel IH]; intros s Hu Hl.
  { destruct Hu as (_ & _ & Hm & Hc). unfold left_over, calling in *. destruct (running (run s)); lia. }
  simpl. destruct (advance _ _ _ _ _ _ _ _ _ s) as [s1 [updates|e]] eqn:E; apply advance_underway in E; try done.
  2: { exists s1, [Err e], (Err e). split; [done|]. split; [by exists [], (Err e)|done]. }
  destruct E as [(He & Hu1 & Hl1)|[(front & response & -> & He) Ho]].
  - unfold ends_with_answer in He. rewrite He, (find_first_none _ _ He).
    destruct (IH s1) as (s' & items & answer & -> & (front & item & -> & Hi & Hfr) & Ho & Hc & ->); [done|lia|].
    exists s', (map Ok updates ++ front ++ [item]), answer. split; [done|]. split.
    { exists (map Ok updates ++ front), item. by rewrite <- app_assoc, existsb_app, existsb_last_ok, He. }
    split; [done|]. split; [|done]. unfold conclusion in *. rewrite last_snoc in Hc. by rewrite app_assoc, last_snoc.
  - assert (Hx : existsb is_finished (front ++ [Update_Finished response]) = true) by (by rewrite existsb_app, orb_true_r).
    rewrite Hx, (find_first_app _ _ _ He) by done. exists s1, (map Ok (front ++ [Update_Finished response])), (Ok response).
    split; [done|]. split; [|split; [done|split; [|done]]].
    + exists (map Ok front), (Ok (Update_Finished response)). by rewrite map_app, existsb_last_ok.
    + unfold conclusion. rewrite map_app. simpl. by rewrite last_snoc.
Qed.

Definition start (input : list ContentPart) (w : W) : RunState := {| run := Run_new input; world := w; log := [] |}.

Lemma start_underway input w : 0 <= max_turns settings -> 0 <= max_tool_calls settings -> underway (start input w).
Proof. by intros Ht Hc. Qed.

Lemma loud_counts l : completions (List.filter loud l) = completions l /\ invocations (List.filter loud l) = invocations l.
Proof.
  unfold completions, invocations. induction l as [|c l [IHc IHi]]; [done|]. destruct c as [| | | | | | |[]|]; simpl; auto.
Qed.

Lemma over_following s : over s -> following s /\ outstanding (run s) = [].
Proof. by intros (? & ? & _). Qed.

(** The loop of the stream, with every limit of the settings. *)
Lemma stream_over input w :
  0 <= max_turns settings -> 0 <= max_tool_calls settings ->
  exists s' items answer,
    stream_loop error_to_string settings allowed compactor quota events session cx started (enough settings) (start input w) = (s', Some items) /\
    closed_stream items /\ over s' /\ conclusion items = Some answer /\
    run_loop error_to_string settings allowed compactor quota events session cx started (enough settings) (start input w) = (s', Some answer).
Proof.
  intros Ht Hc. apply loops_end; [by apply start_underway|]. unfold left_over, enough, calling. simpl. lia.
Qed.

(** **** The calls *)

(** The calls of the replies that were recorded. *)
Definition asked (l : list Call) : list string :=
  flat_map (fun c => match c with
    | Appended For_Reply entry (Ok _) => map call_id (omap as_call (content (entry_message entry)))
    | _ => [] end) l.

Definition result_id (part : ContentPart) : option string := match part with ToolResult id _ _ => Some id | _ => None end.

(** The answers to calls that the conversation was given. *)
Definition answered (l : list Call) : list string :=
  flat_map (fun c => match c with
    | Appended (For_Call _) entry _ => omap result_id (content (entry_message entry))
    | _ => [] end) l.

Lemma asked_loud l : asked (List.filter loud l) = asked l.
Proof. unfold asked. induction l as [|c l IH]; [done|]. destruct c as [| | | | | | |[]|]; simpl; by rewrite ?IH. Qed.

Lemma answered_loud l : answered (List.filter loud l) = answered l.
Proof. unfold answered. induction l as [|c l IH]; [done|]. destruct c as [| | | | | | |[]|]; simpl; by rewrite ?IH. Qed.

Lemma turn_asks specs new parts :
  turn_trace specs new parts -> asked new = map call_id (omap as_call (default [] parts)) /\ answered new = [].
Proof.
  intros [ | | | | | request resp tail _ Htail | ]; unfold checks, charges, charged; destruct quota;
    try (destruct Htail as [->|[e ->]]); simpl; by rewrite ?app_nil_r.
Qed.

Lemma outcome_asks specs call new outcome : outcome_trace specs call new outcome -> asked new = [] /\ answered new = [].
Proof. by intros []. Qed.

Lemma abandoned_asks reason q new : Forall2 (abandoned_answer reason) q new -> asked new = [] /\ answered new = map call_id q.
Proof.
  induction 1 as [|call c q new [answer ->] _ [IHa IHn]]; [done|]. simpl. by rewrite IHn.
Qed.

Lemma trace_answers specs l q : run_trace specs l q -> asked l = answered l ++ map call_id q.
Proof.
  unfold asked, answered. induction 1 as [|l q new q' _ IH Hd|l q new reason _ IH Ha]; [done|..]; rewrite !flat_map_app, IH.
  - fold (asked new) (answered new). destruct Hd as [q|new Ht|new parts Ht|call q new outcome answer Ho].
    + by rewrite !app_nil_r.
    + apply turn_asks in Ht as [-> ->]. by rewrite !app_nil_r.
    + apply turn_asks in Ht as [-> ->]. by rewrite !app_nil_r.
    + apply outcome_asks in Ho as [Ho1 Ho2]. unfold asked, answered in *. rewrite !flat_map_app, Ho1, Ho2. simpl.
      by rewrite !app_nil_r, <- app_assoc.
  - apply abandoned_asks in Ha as [Ha1 Ha2]. unfold asked, answered in *. by rewrite Ha1, Ha2, !app_nil_r.
Qed.

(** **** The tools *)

(** What a call may be, given the tools that were offered. *)
Definition offers (specs : list ToolSpec) (c : Call) : Prop :=
  match c with
  | Completed request _ => req_tools request = map ToolDefinition_from specs
  | Invoked name _ _ => offered specs name = true
  | _ => True
  end.

Lemma turn_offers specs new parts : turn_trace specs new parts -> Forall (offers specs) new.
Proof.
  intros [ | | | | | request resp tail ? Htail | ]; unfold checks, charges, charged; destruct quota;
    try (destruct Htail as [->|[e ->]]); simpl; repeat constructor; done.
Qed.

Lemma trace_offers specs l q : run_trace specs l q -> Forall (offers specs) l.
Proof.
  induction 1 as [|l q new q' _ IH Hd|l q new reason _ IH Ha]; [done|..]; apply Forall_app; (split; [done|]).
  - destruct Hd as [q|new Ht|new parts Ht|call q new outcome answer Ho]; [done|by eapply turn_offers..|].
    apply Forall_app. split; [destruct Ho|]; by repeat constructor.
  - by induction Ha as [|call c q new [answer ->] _ IHa]; constructor.
Qed.

(** **** The quota *)

Definition is_metering (c : Call) : bool := match c with Checked _ | Completed _ _ | Charged _ _ => true | _ => false end.

(** What is due for an answer of the model. *)
Definition due (request : CompletionRequest) (resp : CompletionResponse) : UsageCharge :=
  charge_for settings (resp_usage resp) (estimate_request (req_messages request) (req_tools request) None) (resp_message resp).

(** One turn, as the quota guard sees it. *)
Inductive metered_turn : list Call -> Prop :=
  | Metered_refused e : metered_turn [Checked (Err e)]
  | Metered_checked : metered_turn [Checked (Ok tt)]
  | Metered_failed request e : metered_turn [Checked (Ok tt); Completed request (Err e)]
  | Metered_charged request resp answer :
      metered_turn [Checked (Ok tt); Completed request (Ok resp); Charged (due request resp) answer].

Definition metered (l : list Call) : Prop := exists turns, l = concat turns /\ Forall metered_turn turns.

Lemma metered_app l l' : metered l -> metered l' -> metered (l ++ l').
Proof.
  intros (t1 & -> & H1) (t2 & -> & H2). exists (t1 ++ t2). split; [by rewrite concat_app|by apply Forall_app].
Qed.

Lemma metered_nil : metered [].
Proof. by exists []. Qed.

Lemma metered_one l : metered_turn l -> metered l.
Proof. intros H. exists [l]. simpl. rewrite app_nil_r. auto. Qed.

Lemma turn_metered specs new parts : turn_trace specs new parts -> quota = true -> metered (List.filter is_metering new).
Proof.
  intros [ | | | | | request resp tail ? Htail | ] Hq; unfold checks, charges, charged; rewrite ?Hq;
    try (destruct Htail as [->|[e ->]]); simpl; first [apply metered_nil | apply metered_one; constructor].
Qed.

Lemma trace_metered specs l q : run_trace specs l q -> quota = true -> metered (List.filter is_metering l).
Proof.
  intros H Hq. induction H as [|l q new q' _ IH Hd|l q new reason _ IH Ha]; [apply metered_nil|..];
    rewrite List.filter_app; apply metered_app; try done.
  - destruct Hd as [q|new Ht|new parts Ht|call q new outcome answer Ho]; [apply metered_nil|by eapply turn_metered..|].
    destruct Ho; apply metered_nil.
  - by induction Ha as [|call c q new [answer ->] _ IHa]; [apply metered_nil|].
Qed.

Lemma metering_loud l : List.filter is_metering (List.filter loud l) = List.filter is_metering l.
Proof. induction l as [|c l IH]; [done|]. destruct c as [| | | | | | |[]|]; simpl; by rewrite ?IH. Qed.

(** What a run that is over has said. *)
Lemma over_said s :
  over s ->
  (exists specs, run_trace specs (loud_log s) [] /\ (loud_log s = [] \/ available (run s) = specs /\ listed s)).
Proof.
  intros [Hf Ho]%over_following. unfold following, loud_log in *. rewrite Ho in *. destruct (prepared (run s)).
  - exists (available (run s)). naive_solver.
  - destruct Hf as [-> _]. exists []. split; [constructor|by left].
Qed.

(** *** The properties *)

Lemma stream_is_over input w s' items :
  0 <= max_turns settings -> 0 <= max_tool_calls settings ->
  stream_loop error_to_string settings allowed compactor quota events session cx started (enough settings) (start input w) = (s', Some items) ->
  over s'.
Proof. intros Ht Hc H. destruct (stream_over input w Ht Hc) as (s1 & i1 & a1 & E & _ & Ho & _). congruence. Qed.

(** C17. A run ends, whatever the model, the tools, the conversation and the quota answer: its
    stream closes with exactly one final answer or error, the last item; [run] answers that very
    item; and by then the model was asked at most [max_turns] times and tools were invoked at
    most [max_tool_calls] times. *)
Theorem agent_run_ends input w :
  0 <= max_turns settings -> 0 <= max_tool_calls settings ->
  exists s' items answer,
    stream_loop error_to_string settings allowed compactor quota events session cx started (enough settings) (start input w) = (s', Some items) /\
    closed_stream items /\ conclusion items = Some answer /\
    run_loop error_to_string settings allowed compactor quota events session cx started (enough settings) (start input w) = (s', Some answer) /\
    Z.of_nat (completions (log s')) <= max_turns settings /\ Z.of_nat (invocations (log s')) <= max_tool_calls settings.
Proof.
  intros Ht Hc. destruct (stream_over input w Ht Hc) as (s' & items & answer & Hs & Hi & (_ & _ & Hn & Hm) & Ha & Hr).
  unfold loud_log in *. rewrite (proj1 (loud_counts _)) in Hn. rewrite (proj2 (loud_counts _)) in Hm. by exists s', items, answer.
Qed.

(** C18. However a run ends, the conversation holds an answer for every call of every reply
    recorded in it, one each and in the order the calls were asked for (as far as the store took
    them): made calls with their outcome, the others with the reason the run stopped. *)
Theorem every_call_is_answered input w s' items :
  0 <= max_turns settings -> 0 <= max_tool_calls settings ->
  stream_loop error_to_string settings allowed compactor quota events session cx started (enough settings) (start input w) = (s', Some items) ->
  answered (log s') = asked (log s').
Proof.
  intros Ht Hc H. apply stream_is_over in H; try done. apply over_said in H as (specs & Hr & _).
  apply trace_answers in Hr. unfold loud_log in Hr. by rewrite asked_loud, answered_loud, app_nil_r in Hr.
Qed.

(** The model is offered the tools that were listed for the run's principal and that this agent
    is confined to, the same ones every turn, and no other tool is ever invoked. *)
Theorem agent_uses_offered_tools input w s' items :
  0 <= max_turns settings -> 0 <= max_tool_calls settings ->
  stream_loop error_to_string settings allowed compactor quota events session cx started (enough settings) (start input w) = (s', Some items) ->
  (completions (log s') = 0%nat /\ invocations (log s') = 0%nat) \/
  exists all, In (Listed_tools (Ok all)) (log s') /\
    forall c, In c (log s') -> match c with
      | Completed request _ => req_tools request = map ToolDefinition_from (List.filter (is_allowed allowed) all)
      | Invoked name _ _ => exists spec, In spec all /\ is_allowed allowed spec = true /\ spec_name spec = name
      | _ => True end.
Proof.
  intros Ht Hc H. apply stream_is_over in H; try done. apply over_said in H as (specs & Hr & [Hn|(Ha & all & Hin & Hall)]).
  { left. unfold loud_log in *. by rewrite <- (proj1 (loud_counts _)), <- (proj2 (loud_counts _)), Hn. }
  right. exists all. split; [done|]. intros c Hcin. apply trace_offers in Hr. rewrite Ha in Hall. subst specs.
  rewrite Forall_forall in Hr. rewrite <- Hall. destruct c as [| | | |request answer| | |purpose entry answer|name args answer]; try done.
  - apply (Hr (Completed request answer)), list_elem_of_In, filter_In. done.
  - assert (Ho : offered (available (run s')) name = true) by (apply (Hr (Invoked name args answer)), list_elem_of_In, filter_In; done).
    apply existsb_exists in Ho as (spec & Hs & Hn%bool_decide_eq_true). rewrite Hall, filter_In in Hs. exists spec. by destruct Hs.
Qed.

(** With a quota guard the model is asked only right after the guard allowed that very turn, and
    each answer of the model is charged right after it, once, at the tokens the provider reports
    or, where it reports none, at the loop's own estimate of the request and the reply. *)
Theorem agent_turns_are_metered input w s' items :
  0 <= max_turns settings -> 0 <= max_tool_calls settings -> quota = true ->
  stream_loop error_to_string settings allowed compactor quota events session cx started (enough settings) (start input w) = (s', Some items) ->
  metered (List.filter is_metering (log s')).
Proof.
  intros Ht Hc Hq H. apply stream_is_over in H; try done. apply over_said in H as (specs & Hr & _).
  apply trace_metered in Hr; [|done]. unfold loud_log in Hr. by rewrite metering_loud in Hr.
Qed.
End Steps.

(** ** A small run *)

Module Demo.
(** The model answers from a script; the tools, the store and the guard always comply. *)
Definition World : Type := list CompletionResponse.

Definition spec (name : string) : ToolSpec :=
  {| spec_name := name; spec_description := ""; spec_input_schema := VNull; spec_output_schema := None;
     spec_required_permissions := []; spec_read_only := true; spec_output_trust := Trusted; spec_reach := Contained |}.

Definition recorded (session : SessionId) (e : ContextEntry) : ContextRecord :=
  {| record_id := "r"; record_session := session; record_sequence := 0; record_message := entry_message e;
     record_pinned := entry_pinned e; record_principal := "p"; record_created_at := 0; record_tokens := 1 |}.

#[export] Instance scripted : AgentWorld World := {|
  is_cancelled _ := false;
  clock_read w := (w, 5);
  instant_read w := (w, 5);
  tools_list _ w := (w, Ok [spec "read"; spec "shell"]);
  tools_invoke _ arguments _ w := (w, Ok {| output := arguments; is_error := false; outcome_trust := Trusted |});
  context_stats _ _ w := (w, Ok None);
  context_append session e _ w := (w, Ok (recorded session e));
  context_window _ _ _ w := (w, Ok ContextWindow_empty);
  compactor_compact _ _ _ w := (w, Err Cancelled);
  models_complete _ _ w := match w with [] => ([], Err Cancelled) | r :: w => (w, Ok r) end;
  quota_check _ _ w := (w, Ok tt);
  quota_record _ _ w := (w, Ok tt);
|}.

#[export] Instance counter : TokenCounter := HeuristicTokenCounter 4 (fun _ => "").

Definition settings : AgentLoopSettings :=
  {| model := "m"; budget := {| max_tokens := None; max_records := None; max_part_tokens := None |}; max_turns := 5;
     max_tool_calls := 2; system_prompt := Some "be brief"; parameters := VNull |}.

Definition reply (parts : list ContentPart) : CompletionResponse :=
  {| resp_message := {| role := Role_Assistant; content := parts; name := None |}; resp_finish_reason := Finish_ToolCalls;
     resp_usage := Some {| usage_input := 10; usage_output := 5 |} |}.

Definition call (id name : string) : ContentPart := Part_ToolCall {| call_id := id; call_name := name; arguments := VNull |}.

(** Three calls in one reply, one of a tool this agent may not use, and the limit before the third. *)
Definition script : World := [reply [call "a" "read"; Text "wait"; call "b" "shell"; call "c" "read"]; reply [Text "done"]].

Definition cx : ExecutionContext :=
  {| correlation := "c"; principal := None; deadline := Some 9; cancellation := false; attributes := [] |}.

Definition streamed := stream_loop (fun _ => "error") settings (Some ["read"]) false true true "s" cx 5 (enough settings) (start [Text "hi"] script).

Lemma agent_run_ends_witness :
  exists s' items answer,
    streamed = (s', Some items) /\ closed_stream items /\ conclusion items = Some answer /\
    run_loop (fun _ => "error") settings (Some ["read"]) false true true "s" cx 5 (enough settings) (start [Text "hi"] script) = (s', Some answer) /\
    Z.of_nat (completions (log s')) <= 5 /\ Z.of_nat (invocations (log s')) <= 2.
Proof. apply agent_run_ends; by vm_compute. Defined.

Lemma every_call_is_answered_witness :
  asked (log (fst streamed)) = ["a"; "b"; "c"] /\ invocations (log (fst streamed)) = 1%nat /\
  answered (log (fst streamed)) = asked (log (fst streamed)).
Proof.
  split; [by vm_compute|]. split; [by vm_compute|].
  apply (every_call_is_answered (fun _ => "error") settings (Some ["read"]) false true true "s" cx 5 [Text "hi"] script) with (items := default [] (snd streamed));
    by vm_compute.
Defined.

Lemma agent_uses_offered_tools_witness :
  (completions (log (fst streamed)) = 0%nat /\ invocations (log (fst streamed)) = 0%nat) \/
  exists all, In (Listed_tools (Ok all)) (log (fst streamed)) /\
    forall c, In c (log (fst streamed)) -> match c with
      | Completed request _ => req_tools request = map ToolDefinition_from (List.filter (is_allowed (Some ["read"])) all)
      | Invoked name _ _ => exists spec, In spec all /\ is_allowed (Some ["read"]) spec = true /\ spec_name spec = name
      | _ => True end.
Proof.
  apply (agent_uses_offered_tools (fun _ => "error") settings (Some ["read"]) false true true "s" cx 5 [Text "hi"] script) with (items := default [] (snd streamed));
    by vm_compute.
Defined.

Lemma agent_turns_are_metered_witness :
  length (List.filter is_metering (log (fst streamed))) = 3%nat /\
  metered settings (List.filter is_metering (log (fst streamed))).
Proof.
  split; [by vm_compute|].
  apply (agent_turns_are_metered (fun _ => "error") settings (Some ["read"]) false true true "s" cx 5 [Text "hi"] script) with (items := default [] (snd streamed));
    by vm_compute.
Defined.
End Demo.
