(* ===== verification/Approval.v ===== *)
(** * Approval: the rendezvous between a permission check and a person

    [crates/approval/src/broker.rs], [gate.rs] and the health of [component.rs].  Questions are
    asked, answered, cancelled, abandoned and refused from any number of tasks at once, so the
    model is a state machine: a [System] holds the broker's shared state, every question's answer
    channel and every call in flight, and a [Label] is one atomic action of one of them.  Each
    function of the code is the sequence of atomic actions its [Phase]s name; other actions may
    come between any two. *)

From S2P Require Import Prelude Base.

Abbreviation ApprovalId := string.

Record PendingApproval := {
  approval_id : ApprovalId;
  approval_request : PermissionRequest;
  approval_prompt : string;
  approval_correlation : CorrelationId;
  requested_at : Timestamp;
  expires_at : Timestamp;
}.

Record ApprovalSettings := { timeout : Duration; max_pending : Z }.

Definition DEFAULT_TIMEOUT : Duration := from_millis (120 * 1000).
Definition DEFAULT_MAX_PENDING : Z := 16.

Definition ApprovalSettings_default : ApprovalSettings := {| timeout := DEFAULT_TIMEOUT; max_pending := DEFAULT_MAX_PENDING |}.

(** The channel of one answer. *)
Inductive Channel := Unsent | Sent (granted : bool) | Hung_up | Unheard.

(** How far a call of [request_approval] has got. *)
Inductive Phase :=
  | Entered
  | Open_checked
  | Token_checked
  | Gate_checked
  | Timed (pending : PendingApproval) (remaining : Duration)
  | Queued (pending : PendingApproval) (remaining : Duration)
  | Waiting (pending : PendingApproval) (remaining : Duration) (since : Z)
  (** The wait is over, or the caller dropped the call; the guard still withdraws the question. *)
  | Leaving (pending : PendingApproval) (result : option (Result bool))
  | Left (pending : option PendingApproval) (result : option (Result bool)).

Record Ask := {
  ask_request : PermissionRequest;
  ask_prompt : string;
  ask_cx : ExecutionContext;
  (** The token of the context. *)
  ask_cancelled : bool;
  phase : Phase;
}.

(** How far a call of [answer] has got; [Holding] is between taking the question and sending. *)
Inductive Answering := Called | Holding | Answered (result : Result unit).

Record Answer := { answer_id : ApprovalId; answer_granted : bool; answering : Answering }.

Record System := {
  waiting : gmap ApprovalId PendingApproval;
  notifications : list PendingApproval;
  gates : Z;
  closed : bool;
  channels : gmap ApprovalId Channel;
  asks : gmap nat Ask;
  answers : gmap nat Answer;
  clock : Timestamp;
  instant : Z;
}.

Definition set_waiting w s := {| waiting := w; notifications := notifications s; gates := gates s; closed := closed s;
  channels := channels s; asks := asks s; answers := answers s; clock := clock s; instant := instant s |}.
Definition notify p s := {| waiting := waiting s; notifications := notifications s ++ [p]; gates := gates s; closed := closed s;
  channels := channels s; asks := asks s; answers := answers s; clock := clock s; instant := instant s |}.
Definition set_gates n s := {| waiting := waiting s; notifications := notifications s; gates := n; closed := closed s;
  channels := channels s; asks := asks s; answers := answers s; clock := clock s; instant := instant s |}.
Definition set_closed s := {| waiting := waiting s; notifications := notifications s; gates := gates s; closed := true;
  channels := channels s; asks := asks s; answers := answers s; clock := clock s; instant := instant s |}.
Definition set_channels c s := {| waiting := waiting s; notifications := notifications s; gates := gates s; closed := closed s;
  channels := c; asks := asks s; answers := answers s; clock := clock s; instant := instant s |}.
Definition set_asks a s := {| waiting := waiting s; notifications := notifications s; gates := gates s; closed := closed s;
  channels := channels s; asks := a; answers := answers s; clock := clock s; instant := instant s |}.
Definition set_answers a s := {| waiting := waiting s; notifications := notifications s; gates := gates s; closed := closed s;
  channels := channels s; asks := asks s; answers := a; clock := clock s; instant := instant s |}.
Definition set_time c i s := {| waiting := waiting s; notifications := notifications s; gates := gates s; closed := closed s;
  channels := channels s; asks := asks s; answers := answers s; clock := c; instant := i |}.

Definition System_new (now : Timestamp) : System :=
  {| waiting := ∅; notifications := []; gates := 0; closed := false; channels := ∅; asks := ∅; answers := ∅; clock := now; instant := 0 |}.

Definition set_channel id c s := set_channels (<[id := c]> (channels s)) s.

(** Dropping the sender of a channel closes it, unless it was used or nobody listens. *)
Definition drop_sender (c : Channel) : Channel := match c with Unsent => Hung_up | c => c end.

Section Approval.
  Context (settings : ApprovalSettings).

(** [Shared::withdraw]: the question, with the sender it carries. *)
Definition withdraw (id : ApprovalId) (s : System) : System * option PendingApproval :=
  (set_waiting (delete id (waiting s)) s, waiting s !! id).

(** [close]: every waiting question loses its sender. *)
Definition close (s : System) : System :=
  set_channels (map_imap (fun id c => Some (match waiting s !! id with Some _ => drop_sender c | None => c end)) (channels s))
    (set_waiting ∅ (set_closed s)).

Definition pending_count (s : System) : Z := Z.of_nat (size (waiting s)).

(** [enqueue], under the lock. *)
Definition enqueue (pending : PendingApproval) (s : System) : System * Result unit :=
  if closed s then (s, Err Cancelled)
  else if max_pending settings <=? pending_count s then
    (s, Err (PermissionDenied (fmt_u (pending_count s) +:+ " approval requests are already awaiting an answer")))
  else (set_waiting (<[approval_id pending := pending]> (waiting s)) s, Ok tt).

Definition expiry (now : Timestamp) (cx : ExecutionContext) : Timestamp :=
  let configured := Timestamp_saturating_add now (timeout settings) in
  match deadline cx with
  | Some deadline => if deadline <? configured then deadline else configured
  | None => configured
  end.

(** ** Asking *)

Definition nobody : Error := PermissionDenied "no approval responder is attached, so nobody can answer".
Definition hung_up : Error := PermissionDenied "the approval mechanism closed before an answer arrived".

(** [tokio::select!], in its order: the token, the timer, the channel. *)
Definition poll (cancelled : bool) (remaining : Duration) (since now : Z) (c : Channel) : option (Result bool) :=
  if cancelled then Some (Err Cancelled)
  else if since + remaining <=? now then Some (Err (Timeout remaining))
  else match c with
    | Sent granted => Some (Ok granted)
    | Hung_up => Some (Err hung_up)
    | Unsent | Unheard => None
    end.

Definition move (a : nat) (ask : Ask) (p : Phase) (s : System) : System :=
  set_asks (<[a := {| ask_request := ask_request ask; ask_prompt := ask_prompt ask; ask_cx := ask_cx ask;
                      ask_cancelled := ask_cancelled ask; phase := p |}]> (asks s)) s.

Definition refuse (a : nat) (ask : Ask) (e : Error) (s : System) : System := move a ask (Left None (Some (Err e))) s.

(** The next atomic action of [request_approval]; [id] is the identifier drawn, if it draws one. *)
Definition request_approval (a : nat) (ask : Ask) (id : ApprovalId) (s : System) : System :=
  match phase ask with
  | Entered => if closed s then refuse a ask Cancelled s else move a ask Open_checked s
  | Open_checked => if ask_cancelled ask then refuse a ask Cancelled s else move a ask Token_checked s
  | Token_checked => if gates s =? 0 then refuse a ask nobody s else move a ask Gate_checked s
  | Gate_checked =>
      let now := clock s in
      let expires := expiry now (ask_cx ask) in
      let remaining := Timestamp_saturating_since expires now in
      if remaining =? 0 then refuse a ask (Timeout 0) s
      else
        let pending := {| approval_id := id; approval_request := ask_request ask; approval_prompt := ask_prompt ask;
          approval_correlation := correlation (ask_cx ask); requested_at := now; expires_at := expires |} in
        set_channel id Unsent (move a ask (Timed pending remaining) s)
  | Timed pending remaining =>
      match enqueue pending s with
      | (s, Ok _) => move a ask (Queued pending remaining) s
      | (s, Err e) => set_channel (approval_id pending) Unheard (move a ask (Left (Some pending) (Some (Err e))) s)
      end
  | Queued pending remaining => move a ask (Waiting pending remaining (instant s)) (notify pending s)
  | Waiting pending remaining since =>
      match poll (ask_cancelled ask) remaining since (instant s) (default Hung_up (channels s !! approval_id pending)) with
      | Some result => set_channel (approval_id pending) Unheard (move a ask (Leaving pending (Some result)) s)
      | None => s
      end
  | Leaving pending result => move a ask (Left (Some pending) result) (fst (withdraw (approval_id pending) s))
  | Left _ _ => s
  end.

(** The caller drops the call: its receiver goes first, then the guard runs. *)
Definition drop_ask (a : nat) (ask : Ask) (s : System) : System :=
  match phase ask with
  | Entered | Open_checked | Token_checked | Gate_checked => move a ask (Left None None) s
  | Timed pending _ => set_channel (approval_id pending) Unheard (move a ask (Left (Some pending) None) s)
  | Queued pending _ | Waiting pending _ _ => set_channel (approval_id pending) Unheard (move a ask (Leaving pending None) s)
  | Leaving _ _ | Left _ _ => s
  end.

(** ** Answering *)

Definition gone (id : ApprovalId) : Error := NotFound "pending approval" id.

Definition resume (g : nat) (call : Answer) (p : Answering) (s : System) : System :=
  set_answers (<[g := {| answer_id := answer_id call; answer_granted := answer_granted call; answering := p |}]> (answers s)) s.

(** The next atomic action of [answer], for [approve] and [deny]. *)
Definition answer (g : nat) (call : Answer) (s : System) : System :=
  match answering call with
  | Called =>
      match withdraw (answer_id call) s with
      | (s, Some _) => resume g call Holding s
      | (s, None) => resume g call (Answered (Err (gone (answer_id call)))) s
      end
  | Holding =>
      match channels s !! answer_id call with
      | Some Unsent => set_channel (answer_id call) (Sent (answer_granted call)) (resume g call (Answered (Ok tt)) s)
      | _ => resume g call (Answered (Err (gone (answer_id call)))) s
      end
  | Answered _ => s
  end.

(** Oldest first. *)
Definition asked_before (p q : PendingApproval) : Prop :=
  requested_at p < requested_at q \/ requested_at p = requested_at q /\ String.leb (approval_id p) (approval_id q) = true.
#[export] Instance asked_before_dec : RelDecision asked_before.
Proof. intros p q. unfold asked_before. apply _. Defined.

(** [ApprovalGate::pending] *)
Definition pending (s : System) : list PendingApproval := merge_sort asked_before (map snd (map_to_list (waiting s))).

(** ** Everything that can happen next *)

Inductive Label :=
  | Ask_begins (a : nat) (request : PermissionRequest) (prompt : string) (cx : ExecutionContext)
  | Ask_runs (a : nat) (id : ApprovalId)
  | Ask_cancelled (a : nat)
  | Ask_dropped (a : nat)
  | Gate_attached
  | Gate_dropped
  | Answer_begins (g : nat) (id : ApprovalId) (granted : bool)
  | Answer_runs (g : nat)
  | Broker_closed
  | Time_passes (clock : Timestamp) (by_ : N).

(** What a label does, where it can happen: calls are fresh, an answer needs a gate, and an
    identifier that is drawn has not been drawn before. *)
Definition step (l : Label) (s : System) : option System :=
  match l with
  | Ask_begins a request prompt cx =>
      match asks s !! a with
      | None => Some (set_asks (<[a := {| ask_request := request; ask_prompt := prompt; ask_cx := cx;
                                         ask_cancelled := cancellation cx; phase := Entered |}]> (asks s)) s)
      | Some _ => None
      end
  | Ask_runs a id =>
      match asks s !! a, channels s !! id with
      | Some ask, None => Some (request_approval a ask id s)
      | _, _ => None
      end
  | Ask_cancelled a =>
      match asks s !! a with
      | Some ask => Some (set_asks (<[a := {| ask_request := ask_request ask; ask_prompt := ask_prompt ask; ask_cx := ask_cx ask;
                                              ask_cancelled := true; phase := phase ask |}]> (asks s)) s)
      | None => None
      end
  | Ask_dropped a => match asks s !! a with Some ask => Some (drop_ask a ask s) | None => None end
  | Gate_attached => Some (set_gates (gates s + 1) s)
  | Gate_dropped => if 0 <? gates s then Some (set_gates (gates s - 1) s) else None
  | Answer_begins g id granted =>
      match answers s !! g with
      | None => if 0 <? gates s then
          Some (set_answers (<[g := {| answer_id := id; answer_granted := granted; answering := Called |}]> (answers s)) s)
        else None
      | Some _ => None
      end
  | Answer_runs g => match answers s !! g with Some call => Some (answer g call s) | None => None end
  | Broker_closed => Some (close s)
  | Time_passes clock by_ => Some (set_time clock (instant s + Z.of_N by_) s)
  end.

(** Any number of steps. *)
Inductive steps : list Label -> System -> System -> Prop :=
  | Steps_none s : steps [] s s
  | Steps_more l ls s s1 s2 : step l s = Some s1 -> steps ls s1 s2 -> steps (l :: ls) s s2.

Definition reachable (s : System) : Prop := exists now ls, steps ls (System_new now) s.

(** [Component::health] *)
Inductive HealthStatus := Up | Degraded | Down.

Definition health (s : System) : HealthStatus :=
  if closed s then Down else if gates s =? 0 then Degraded else Up.

(** ** What holds between any two steps *)

Definition phase_pending (p : Phase) : option PendingApproval :=
  match p with
  | Timed pending _ | Queued pending _ | Waiting pending _ _ | Leaving pending _ => Some pending
  | Left pending _ => pending
  | _ => None
  end.

(** The phases whose question the guard will still withdraw. *)
Definition listed (p : Phase) : option PendingApproval :=
  match p with Queued pending _ | Waiting pending _ _ | Leaving pending _ => Some pending | _ => None end.

Definition result_of (p : Phase) : option (Result bool) :=
  match p with Leaving _ result | Left _ result => result | _ => None end.

(** Calls that took a question and sent its answer, or are about to. *)
Definition claims (s : System) (g : nat) (id : ApprovalId) : Prop :=
  exists call, answers s !! g = Some call /\ answer_id call = id /\ (answering call = Holding \/ answering call = Answered (Ok tt)).

(** A call that answered this question so, and was told it had. *)
Definition accepted (s : System) (g : nat) (id : ApprovalId) (granted : bool) : Prop :=
  answers s !! g = Some {| answer_id := id; answer_granted := granted; answering := Answered (Ok tt) |}.

Record coherent (s : System) : Prop := {
  co_bound : pending_count s <= Z.max 0 (max_pending settings);
  co_closed : closed s = true -> waiting s = ∅;
  co_gates : 0 <= gates s;
  co_waiting id p : waiting s !! id = Some p ->
    approval_id p = id /\ exists a ask, asks s !! a = Some ask /\ listed (phase ask) = Some p;
  co_known a ask p : asks s !! a = Some ask -> phase_pending (phase ask) = Some p ->
    is_Some (channels s !! approval_id p) /\ approval_request p = ask_request ask /\ approval_prompt p = ask_prompt ask;
  co_distinct a b ask ask' p q : asks s !! a = Some ask -> asks s !! b = Some ask' ->
    phase_pending (phase ask) = Some p -> phase_pending (phase ask') = Some q -> approval_id p = approval_id q -> a = b;
  co_timed a ask p remaining g : asks s !! a = Some ask -> phase ask = Timed p remaining ->
    waiting s !! approval_id p = None /\ ~ claims s g (approval_id p);
  co_claimed g id : claims s g id -> is_Some (channels s !! id) /\ waiting s !! id = None;
  co_claims g g' id : claims s g id -> claims s g' id -> g = g';
  co_sent id granted : channels s !! id = Some (Sent granted) -> exists g, accepted s g id granted;
  co_result a ask granted : asks s !! a = Some ask -> result_of (phase ask) = Some (Ok granted) ->
    exists p g, phase_pending (phase ask) = Some p /\ accepted s g (approval_id p) granted;
}.

#[local] Set Default Proof Using "Type".

Ltac lookups :=
  repeat match goal with
  | H : <[_ := _]> _ !! _ = Some _ |- _ => apply lookup_insert_Some in H as [[? ?]|[? H]]; simplify_eq/=
  | H : delete _ _ !! _ = Some _ |- _ => apply lookup_delete_Some in H as [? H]
  end.

Lemma move_coherent a ask p' s :
  coherent s -> asks s !! a = Some ask ->
  (forall p, phase_pending p' = Some p -> phase_pending (phase ask) = Some p) ->
  (forall p, listed (phase ask) = Some p -> waiting s !! approval_id p = Some p -> listed p' = Some p) ->
  (forall p r, p' <> Timed p r) ->
  (forall granted, result_of p' = Some (Ok granted) -> exists p g, phase_pending p' = Some p /\ accepted s g (approval_id p) granted) ->
  coherent (move a ask p' s).
Proof.
  intros Hco Ha Hpend Hlist Htimed Hres. destruct Hco. split; simpl; try done.
  - intros id p Hw. destruct (co_waiting0 _ _ Hw) as (Hid & b & ask' & Hb & Hl). split; [done|].
    destruct (decide (a = b)) as [->|Hab]; [|exists b, ask'; by rewrite lookup_insert_ne].
    eexists b, _. rewrite lookup_insert_eq. split; [done|]. simpl. rewrite Ha in Hb. injection Hb as ->. subst id. by apply Hlist.
  - intros b ask' p Hb Hp. lookups; [|by eapply co_known0]. by apply (co_known0 b ask), Hpend.
  - intros b c ask1 ask2 p q Hb Hc Hp Hq E. lookups; try done; eauto using co_distinct0.
  - intros b ask' p r g Hb Hp. lookups; [by edestruct Htimed|]. by apply (co_timed0 b ask' p r g).
  - intros b ask' granted Hb Hr. lookups; [by apply Hres|]. by apply (co_result0 b ask').
Qed.

Lemma set_channel_coherent id c s :
  coherent s -> is_Some (channels s !! id) -> (forall granted, c = Sent granted -> exists g, accepted s g id granted) ->
  coherent (set_channel id c s).
Proof.
  intros [] Hid Hc. assert (Hsome : forall id', is_Some (channels s !! id') -> is_Some (<[id := c]> (channels s) !! id')).
  { intros id' H. by rewrite lookup_insert_is_Some'; auto. }
  split; simpl; try done.
  - intros a ask p Ha Hp. destruct (co_known0 a ask p) as (? & ? & ?); auto.
  - intros g id' H. destruct (co_claimed0 g id'); auto.
  - intros id' granted H. lookups; eauto.
Qed.

Lemma withdraw_coherent id s : coherent s -> coherent (fst (withdraw id s)).
Proof.
  intros []. split; simpl; try done.
  - unfold pending_count in *. simpl. enough (size (delete id (waiting s)) <= size (waiting s))%nat by lia.
    apply map_subseteq_size, delete_subseteq.
  - intros H. rewrite co_closed0 by done. apply delete_empty.
  - intros id' p H. lookups. eauto.
  - intros a ask p r g Ha Hp. destruct (co_timed0 a ask p r g Ha Hp) as [H1 H2]. split; [|done]. apply lookup_delete_None. auto.
  - intros g id' H. destruct (co_claimed0 g id' H) as [H1 H2]. split; [done|]. apply lookup_delete_None. auto.
Qed.

Lemma begin_coherent a ask s : coherent s -> asks s !! a = None -> phase ask = Entered -> coherent (set_asks (<[a := ask]> (asks s)) s).
Proof.
  intros [] Ha Hp. split; simpl; try done.
  - intros id p Hw. destruct (co_waiting0 _ _ Hw) as (Hid & b & ask' & Hb & Hl). split; [done|]. exists b, ask'.
    rewrite lookup_insert_ne; [done|congruence].
  - intros b ask' p Hb Hpp. lookups; [by rewrite Hp in Hpp|eauto].
  - intros b c ask1 ask2 p q Hb Hc Hp1 Hq E. lookups; rewrite ?Hp in *; try done; eauto.
  - intros b ask' p r g Hb Hp1. lookups; [by rewrite Hp in Hp1|eauto].
  - intros b ask' granted Hb Hr. lookups; [by rewrite Hp in Hr|eauto].
Qed.

Lemma cancel_coherent a ask s : coherent s -> asks s !! a = Some ask ->
  coherent (set_asks (<[a := {| ask_request := ask_request ask; ask_prompt := ask_prompt ask; ask_cx := ask_cx ask;
                              ask_cancelled := true; phase := phase ask |}]> (asks s)) s).
Proof.
  intros [] Ha. split; simpl; try done.
  - intros id p Hw. destruct (co_waiting0 _ _ Hw) as (Hid & b & ask' & Hb & Hl). split; [done|].
    destruct (decide (a = b)) as [->|Hab]; [|exists b, ask'; by rewrite lookup_insert_ne].
    eexists b, _. rewrite lookup_insert_eq. split; [done|]. simpl. congruence.
  - intros b ask' p Hb Hpp. lookups; eauto.
  - intros b c ask1 ask2 p q Hb Hc Hp1 Hq E. lookups; eauto.
  - intros b ask' p r g Hb Hp1. lookups; eauto.
  - intros b ask' granted Hb Hr. lookups; eauto.
Qed.

(** Notifications, the clock and the number of gates do not matter. *)
Lemma aside_coherent s s' :
  coherent s -> waiting s' = waiting s -> closed s' = closed s -> channels s' = channels s -> asks s' = asks s ->
  answers s' = answers s -> 0 <= gates s' -> coherent s'.
Proof.
  intros [] Hw Hc Hch Ha Han Hg. unfold pending_count, claims, accepted in *.
  split; unfold pending_count, claims, accepted; rewrite ?Hw, ?Hc, ?Hch, ?Ha, ?Han; done.
Qed.

Lemma close_coherent s : coherent s -> coherent (close s).
Proof.
  intros []. unfold close. split; simpl; try done.
  - unfold pending_count. simpl. rewrite map_size_empty. lia.
  - intros a ask p Ha Hp. destruct (co_known0 a ask p Ha Hp) as ([c Hc] & ? & ?). rewrite map_lookup_imap, Hc. by split.
  - intros a ask p r g Ha Hp. by destruct (co_timed0 a ask p r g Ha Hp).
  - intros g id H. destruct (co_claimed0 g id H) as [[c Hc] _]. by rewrite map_lookup_imap, Hc.
  - intros id granted H. rewrite map_lookup_imap in H. destruct (channels s !! id) as [c|] eqn:Hc; [|done].
    simpl in H. apply co_sent0. rewrite Hc. destruct (waiting s !! id), c; simplify_eq/=; done.
Qed.

(** A question is drawn and its channel opened. *)
Lemma draw_coherent a ask p remaining s :
  coherent s -> asks s !! a = Some ask -> phase ask = Gate_checked -> channels s !! approval_id p = None ->
  approval_request p = ask_request ask -> approval_prompt p = ask_prompt ask ->
  coherent (set_channel (approval_id p) Unsent (move a ask (Timed p remaining) s)).
Proof.
  intros [] Ha Hph Hid Hr Hpr.
  assert (Hfresh : forall b ask' q, asks s !! b = Some ask' -> phase_pending (phase ask') = Some q -> approval_id q <> approval_id p).
  { intros b ask' q Hb Hq E. destruct (co_known0 _ _ _ Hb Hq) as [Hx _]. rewrite E, Hid in Hx. by destruct Hx. }
  assert (Hnone : waiting s !! approval_id p = None).
  { destruct (waiting s !! approval_id p) as [q|] eqn:Hw; [|done]. destruct (co_waiting0 _ _ Hw) as (Hq & b & ask' & Hb & Hl).
    exfalso. eapply (Hfresh b ask' q); [done| |done]. by destruct (phase ask'). }
  split; simpl; try done.
  - intros id q Hw. destruct (co_waiting0 _ _ Hw) as (Hq & b & ask' & Hb & Hl). split; [done|]. exists b, ask'.
    rewrite lookup_insert_ne; [done|]. intros ->. rewrite Ha in Hb. injection Hb as ->. by rewrite Hph in Hl.
  - intros b ask' q Hb Hq. lookups; [by rewrite lookup_insert_eq|]. destruct (co_known0 b ask' q) as (? & ? & ?); [done..|].
    split; [|done]. by rewrite lookup_insert_is_Some'; auto.
  - intros b c ask1 ask2 q q' Hb Hc Hq Hq' E. lookups; try done; [..|by eapply co_distinct0].
    + by destruct (Hfresh _ _ _ Hb Hq).
    + by destruct (Hfresh _ _ _ Hc Hq').
  - intros b ask' q r g Hb Hq. lookups; [|by eapply co_timed0]. split; [done|]. intros Hcl.
    destruct (co_claimed0 _ _ Hcl) as [[c Hc] _]. congruence.
  - intros g id Hcl. destruct (co_claimed0 _ _ Hcl) as [Hc ?]. split; [|done]. by rewrite lookup_insert_is_Some'; auto.
  - intros id granted H. lookups. eauto.
  - intros b ask' granted Hb Hres. lookups. eauto.
Qed.

(** The question is queued. *)
Lemma queue_coherent a ask p remaining s :
  coherent s -> asks s !! a = Some ask -> phase ask = Timed p remaining -> closed s = false -> pending_count s < max_pending settings ->
  coherent (move a ask (Queued p remaining) (set_waiting (<[approval_id p := p]> (waiting s)) s)).
Proof.
  intros [] Ha Hph Hcl Hmax. assert (Hp : phase_pending (phase ask) = Some p) by (by rewrite Hph).
  split; simpl; try done.
  - unfold pending_count in *. simpl. rewrite map_size_insert. case_match; simpl; lia.
  - by rewrite Hcl.
  - intros id q Hw. lookups.
    + split; [done|]. eexists a, _. by rewrite lookup_insert_eq.
    + destruct (co_waiting0 _ _ Hw) as (Hq & b & ask' & Hb & Hl). split; [done|]. exists b, ask'.
      rewrite lookup_insert_ne; [done|]. intros ->. rewrite Ha in Hb. injection Hb as ->. by rewrite Hph in Hl.
  - intros b ask' q Hb Hq. lookups; eauto.
  - intros b c ask1 ask2 q q' Hb Hc Hq Hq' E. lookups; eauto.
  - intros b ask' q r g Hb Hq. lookups. destruct (co_timed0 b ask' q r g Hb Hq) as [H1 H2]. split; [|done].
    rewrite lookup_insert_ne; [done|]. intros E. assert (b = a); [|done]. eapply co_distinct0; try done. by rewrite Hq.
  - intros g id H. destruct (co_claimed0 _ _ H) as [H1 H2]. split; [done|]. rewrite lookup_insert_ne; [done|].
    intros <-. by apply (co_timed0 a ask p remaining g).
  - intros b ask' granted Hb Hres. lookups. eauto.
Qed.

(** A call of [answer] that has claimed nothing and is told nothing good. *)
Lemma answers_coherent g call p s :
  coherent s -> answers s !! g = None \/ (exists p0, answers s !! g = Some p0 /\ answering p0 <> Answered (Ok tt)) ->
  p <> Holding -> p <> Answered (Ok tt) -> coherent (resume g call p s).
Proof.
  intros [] Hg Hp1 Hp2. assert (Hcl : forall g' id, claims (resume g call p s) g' id -> claims s g' id).
  { intros g' id (call' & H & Hid & Ha). simpl in H. lookups; [|by exists call']. by destruct Ha. }
  assert (Hac : forall g' id b, accepted s g' id b -> accepted (resume g call p s) g' id b).
  { intros g' id b H. unfold accepted in *. simpl. rewrite lookup_insert_ne; [done|]. intros ->.
    destruct Hg as [Hg|(p0 & Hg & Hne)]; [congruence|]. rewrite Hg in H. by injection H as ->. }
  split; simpl; try done; eauto.
  - intros a ask q r g' Ha Hq. destruct (co_timed0 a ask q r g' Ha Hq). auto.
  - intros id granted H. destruct (co_sent0 id granted H) as [g' ?]. eauto.
  - intros a ask granted Ha Hr. destruct (co_result0 a ask granted Ha Hr) as (q & g' & ? & ?). eauto.
Qed.

(** A question is taken from the queue. *)
Lemma take_coherent g call s :
  coherent s -> answers s !! g = Some call -> answering call = Called -> is_Some (waiting s !! answer_id call) ->
  coherent (resume g call Holding (fst (withdraw (answer_id call) s))).
Proof.
  intros Hco Hg Hcalled Hw. pose proof (withdraw_coherent (answer_id call) s Hco) as [].
  set (s1 := fst (withdraw (answer_id call) s)) in *. destruct Hco.
  assert (Hfree : forall g' id, claims s1 g' id -> g' <> g /\ id <> answer_id call).
  { intros g' id Hcl. split.
    - intros ->. destruct Hcl as (call' & H & _ & Ha). simpl in H. rewrite Hg in H. injection H as <-. rewrite Hcalled in Ha. by destruct Ha.
    - intros ->. assert (H : claims s g' (answer_id call)) by done. apply co_claimed in H as [_ H]; [|by split]. destruct Hw; congruence. }
  assert (Hcl : forall g' id, claims (resume g call Holding s1) g' id -> claims s1 g' id /\ g' <> g \/ g' = g /\ id = answer_id call).
  { intros g' id (call' & H & Hid & Ha). simpl in H. lookups; [by right|left]. split; [by exists call'|done]. }
  assert (Hac : forall g' id b, accepted s1 g' id b -> accepted (resume g call Holding s1) g' id b).
  { intros g' id b H. unfold accepted in *. simpl in *. rewrite lookup_insert_ne; [done|]. intros ->. rewrite Hg in H.
    injection H as ->. done. }
  split; try done.
  - intros a ask q r g' Ha Hq. destruct (co_timed0 a ask q r g' Ha Hq) as [H1 H2]. split; [done|].
    intros [[? _]|[-> E]]%Hcl; [done|]. destruct (co_timed1 a ask q r g Ha Hq) as [H3 _]. rewrite E in H3. destruct Hw. congruence.
  - intros g' id [[H _]|[-> ->]]%Hcl; [eauto|]. split; [|apply lookup_delete_eq].
    destruct Hw as [q Hw]. destruct (co_waiting1 _ _ Hw) as (<- & a & ask & Ha & Hl). apply (co_known1 a ask q Ha).
    by destruct (phase ask).
  - intros g' g'' id [[H Hne]|[-> ->]]%Hcl [[H' Hne']|[-> E]]%Hcl; [eauto| |..]; try done.
    + by destruct (Hfree _ _ H).
    + by destruct (Hfree _ _ H').
  - intros id granted H. destruct (co_sent0 id granted H) as [g' ?]. eauto.
  - intros a ask granted Ha Hr. destruct (co_result0 a ask granted Ha Hr) as (q & g' & ? & ?). eauto.
Qed.

(** The answer is sent. *)
Lemma send_coherent g call s :
  coherent s -> answers s !! g = Some call -> answering call = Holding ->
  coherent (set_channel (answer_id call) (Sent (answer_granted call)) (resume g call (Answered (Ok tt)) s)).
Proof.
  intros Hco Hg Hh. pose proof Hco as []. set (s1 := resume g call (Answered (Ok tt)) s).
  assert (Hcall : claims s g (answer_id call)) by (exists call; auto).
  assert (Hcl : forall g' id, claims s1 g' id -> claims s g' id).
  { intros g' id (call' & H & Hid & Ha). simpl in H. lookups; [done|by exists call']. }
  assert (Hac : forall g' id b, accepted s g' id b -> accepted s1 g' id b).
  { intros g' id b H. unfold accepted in *. simpl. rewrite lookup_insert_ne; [done|]. intros ->. rewrite Hg in H. injection H as ->. done. }
  apply set_channel_coherent; [|apply (co_claimed0 g), Hcall|].
  2: { intros granted [= <-]. exists g. unfold accepted. simpl. by rewrite lookup_insert_eq. }
  split; try done; eauto.
  - intros a ask q r g' Ha Hq. destruct (co_timed0 a ask q r g' Ha Hq). auto.
  - intros id granted H. destruct (co_sent0 id granted H) as [g' ?]. eauto.
  - intros a ask granted Ha Hr. destruct (co_result0 a ask granted Ha Hr) as (q & g' & ? & ?). eauto.
Qed.

Lemma request_coherent a ask id s :
  coherent s -> asks s !! a = Some ask -> channels s !! id = None -> coherent (request_approval a ask id s).
Proof.
  intros Hco Ha Hid. pose proof Hco as Hco'. destruct Hco'. unfold request_approval, refuse.
  destruct (phase ask) as [| | | |p rem|p rem|p rem since|p result|p result] eqn:Hph; try done.
  1-3: case_match; apply move_coherent; rewrite ?Hph; done.
  - case_match; [apply move_coherent; rewrite ?Hph; done|].
    apply (draw_coherent a ask {| approval_id := id |} _ s Hco Ha Hph Hid); done.
  - unfold enqueue. destruct (closed s) eqn:Hc; [|destruct (Z.leb_spec (max_pending settings) (pending_count s))].
    1-2: apply set_channel_coherent; [|apply (co_known0 a ask); by rewrite ?Hph|done];
      apply move_coherent; rewrite ?Hph; done.
    by apply queue_coherent.
  - apply aside_coherent with (move a ask (Waiting p rem (instant s)) s); try done. apply move_coherent; rewrite ?Hph; done.
  - destruct (poll _ _ _ _ _) as [r|] eqn:Hpoll; [|done]. apply set_channel_coherent; [|apply (co_known0 a ask); by rewrite ?Hph|done].
    apply move_coherent; rewrite ?Hph; try done. intros granted [= ->]. exists p. unfold poll in Hpoll.
    destruct (ask_cancelled ask); [done|]. case_match; [done|].
    destruct (channels s !! approval_id p) as [[|b| |]|] eqn:Hch; simplify_eq/=. destruct (co_sent0 _ _ Hch) as [g Hg]. by exists g.
  - destruct (withdraw (approval_id p) s) as [s1 w] eqn:E. injection E as E Hw. subst s1.
    assert (H := withdraw_coherent (approval_id p) s Hco). simpl in *. apply move_coherent; rewrite ?Hph; try done.
    + simpl. intros q [= <-]. by rewrite lookup_delete_eq.
    + intros granted Hr. destruct (co_result0 a ask granted Ha) as (q & g & Hq & Hg); rewrite Hph in *; [done|]. by exists q, g.
Qed.

Lemma drop_coherent a ask s : coherent s -> asks s !! a = Some ask -> coherent (drop_ask a ask s).
Proof.
  intros Hco Ha. pose proof Hco as Hco'. destruct Hco'. unfold drop_ask.
  destruct (phase ask) as [| | | |p rem|p rem|p rem since|p result|p result] eqn:Hph; try done.
  1-4: apply move_coherent; rewrite ?Hph; done.
  all: apply set_channel_coherent; [|apply (co_known0 a ask); by rewrite ?Hph|done]; apply move_coherent; rewrite ?Hph; done.
Qed.

Lemma answer_coherent g call s : coherent s -> answers s !! g = Some call -> coherent (answer g call s).
Proof.
  intros Hco Hg. unfold answer. destruct (answering call) eqn:Han; [| |done].
  - destruct (withdraw (answer_id call) s) as [s1 w] eqn:E. injection E as <- <-. destruct (waiting s !! answer_id call) as [p|] eqn:Hw.
    + apply (take_coherent g call s); rewrite ?Hw; done.
    + apply answers_coherent; try done; [by apply (withdraw_coherent (answer_id call))|].
      right. exists call. by rewrite Han.
  - destruct (channels s !! answer_id call) as [[| | |]|] eqn:Hc; [by apply send_coherent|..];
      (apply answers_coherent; try done; right; exists call; by rewrite Han).
Qed.

Lemma step_coherent l s s' : step l s = Some s' -> coherent s -> coherent s'.
Proof.
  intros H Hco. destruct l; simpl in H; repeat case_match; simplify_eq/=;
    eauto using cancel_coherent, drop_coherent, answer_coherent, request_coherent, close_coherent.
  - by apply begin_coherent.
  - eapply aside_coherent; try done. simpl. destruct Hco. lia.
  - eapply aside_coherent; try done. simpl. lia.
  - by apply (answers_coherent g {| answer_id := id; answer_granted := granted; answering := Called |} Called); auto.
  - eapply aside_coherent; try done. by destruct Hco.
Qed.

Lemma start_coherent now : coherent (System_new now).
Proof.
  split; simpl; try done; [unfold pending_count; simpl; rewrite map_size_empty; lia|by intros g id (call & H & _)|].
  by intros g g' id (call & H & _).
Qed.

Lemma steps_coherent ls s s' : steps ls s s' -> coherent s -> coherent s'.
Proof. induction 1; eauto using step_coherent. Qed.

Lemma reachable_coherent s : reachable s -> coherent s.
Proof. intros (now & ls & H). eapply steps_coherent; [done|apply start_coherent]. Qed.

(** ** What the broker promises *)

(** C19. [Ok(true)] means that somebody approved this very question, and [Ok(false)] that somebody
    refused it: the call's question carries its own request and prompt, one answer to it was
    accepted and told so, no other answer ever is, and the question is no other call's. *)
Theorem results_are_answers s a ask granted :
  reachable s -> asks s !! a = Some ask -> result_of (phase ask) = Some (Ok granted) ->
  exists p g, phase_pending (phase ask) = Some p /\ approval_request p = ask_request ask /\ approval_prompt p = ask_prompt ask /\
    accepted s g (approval_id p) granted /\
    (forall g' granted', accepted s g' (approval_id p) granted' -> g' = g /\ granted' = granted) /\
    (forall b ask' q, asks s !! b = Some ask' -> phase_pending (phase ask') = Some q -> approval_id q = approval_id p -> b = a).
Proof.
  intros Hs%reachable_coherent Ha Hr. pose proof Hs as []. destruct (co_result0 _ _ _ Ha Hr) as (p & g & Hp & Hg).
  destruct (co_known0 _ _ _ Ha Hp) as (_ & Hq & Hpr). exists p, g. split_and!; try done.
  - intros g' granted' Hg'. assert (g' = g) as -> by (eapply co_claims0; eexists; eauto).
    split; [done|]. unfold accepted in *. rewrite Hg in Hg'. by injection Hg'.
  - intros b ask' q Hb Hq' E. eapply co_distinct0; done.
Qed.

#[local] Instance asked_before_trans : Transitive asked_before.
Proof. intros p q r. unfold asked_before. pose proof (leb_trans (approval_id p) (approval_id q) (approval_id r)). lia || naive_solver lia. Qed.
#[local] Instance asked_before_total : Total asked_before.
Proof.
  intros p q. unfold asked_before. destruct (Z.lt_trichotomy (requested_at p) (requested_at q)) as [H|[H|H]]; [tauto| |tauto].
  destruct (String.leb_total (approval_id p) (approval_id q)); [left|right]; right; auto.
Qed.

(** However calls, answers, cancellations and the closing of the broker interleave: no more
    questions wait than the settings allow, none once it is closed, each question shown belongs
    to a call that has not returned, and a gate is shown exactly those, oldest first. *)
Theorem waiting_questions_are_bounded s :
  reachable s ->
  pending_count s <= Z.max 0 (max_pending settings) /\ (closed s = true -> pending s = []) /\
  StronglySorted asked_before (pending s) /\
  forall p, p ∈ pending s <-> waiting s !! approval_id p = Some p /\
    exists a ask, asks s !! a = Some ask /\ listed (phase ask) = Some p.
Proof.
  intros []%reachable_coherent. split; [done|]. unfold pending. split; [|split].
  - intros H. by rewrite co_closed0, map_to_list_empty.
  - apply StronglySorted_merge_sort; apply _.
  - intros p. rewrite merge_sort_Permutation, list_elem_of_fmap. split.
    + intros ([id q] & -> & Hin%elem_of_map_to_list). simpl. by destruct (co_waiting0 _ _ Hin) as (<- & ?).
    + intros [H _]. exists (approval_id p, p). split; [done|]. by apply elem_of_map_to_list.
Qed.

(** *** Waiting ends *)

Definition refused (result : option (Result bool)) : Prop := forall granted, result <> Some (Ok granted).

(** A question past its time, with at most [n] of its own actions to go. *)
Definition past (a : nat) (p : PendingApproval) (n : nat) (s : System) : Prop :=
  exists ask, asks s !! a = Some ask /\
  match phase ask with
  | Waiting q remaining since => q = p /\ since + remaining <= instant s /\ (2 <= n)%nat
  | Leaving q result => q = p /\ refused result /\ (1 <= n)%nat
  | Left q result => q = Some p /\ refused result
  | _ => False
  end.

Definition runs (a : nat) (l : Label) : bool := match l with Ask_runs b _ => Nat.eqb a b | _ => false end.

Lemma past_mono a p n n' s : past a p n s -> (n <= n')%nat -> past a p n' s.
Proof. intros (ask & Ha & H) Hn. exists ask. split; [done|]. destruct (phase ask); try done; naive_solver lia. Qed.

Lemma past_frame a p n s s' : past a p n s -> asks s' !! a = asks s !! a -> instant s <= instant s' -> past a p n s'.
Proof.
  intros (ask & Ha & H) E Hi. exists ask. rewrite E. split; [done|]. destruct (phase ask); try done. destruct_and?. split_and!; try done; lia.
Qed.

Lemma request_frame b ask id s : asks (request_approval b ask id s) = asks s \/ (exists ask', asks (request_approval b ask id s) = <[b := ask']> (asks s)).
Proof. unfold request_approval, refuse, enqueue. repeat case_match; simplify_eq/=; eauto. Qed.

Lemma request_instant b ask id s : instant (request_approval b ask id s) = instant s.
Proof. unfold request_approval, refuse, enqueue. repeat case_match; by simplify_eq/=. Qed.

Lemma drop_frame b ask s : instant (drop_ask b ask s) = instant s /\ (asks (drop_ask b ask s) = asks s \/ exists ask', asks (drop_ask b ask s) = <[b := ask']> (asks s)).
Proof. unfold drop_ask. repeat case_match; simplify_eq/=; eauto. Qed.

Lemma answer_frame g call s : asks (answer g call s) = asks s /\ instant (answer g call s) = instant s.
Proof. unfold answer, withdraw. repeat case_match; by simplify_eq/=. Qed.

Lemma past_own a p n id s s' : step (Ask_runs a id) s = Some s' -> past a p n s -> past a p (pred n) s'.
Proof.
  intros H (ask & Ha & Hp). simpl in H. rewrite Ha in H. destruct (channels s !! id); [done|]. injection H as <-.
  unfold request_approval. destruct (phase ask) as [| | | | | |q rem since|q result|q result] eqn:Hph; try done.
  - destruct Hp as (-> & Ht & Hn). unfold poll. rewrite (proj2 (Z.leb_le _ _) Ht).
    destruct (ask_cancelled ask); (eexists; split; [by simpl; rewrite lookup_insert_eq|]); simpl; split_and!; done || lia.
  - destruct Hp as (-> & Hr & Hn). eexists. split; [by simpl; rewrite lookup_insert_eq|]. done.
  - exists ask. by rewrite Ha, Hph.
Qed.

Lemma past_step a p n l s s' : step l s = Some s' -> past a p n s -> past a p (if runs a l then pred n else n) s'.
Proof.
  intros H Hp. destruct (runs a l) eqn:Hrun.
  { destruct l; try done. apply Nat.eqb_eq in Hrun as ->. by eapply past_own. }
  destruct l; simpl in H; repeat case_match; simplify_eq/=; try (by eapply past_frame; [done|simpl; done|simpl; lia]).
  - eapply past_frame; [done| |done]. simpl. destruct Hp as (ask & Ha & _). apply lookup_insert_ne. congruence.
  - apply Nat.eqb_neq in Hrun. eapply past_frame; [done| |by rewrite request_instant].
    destruct (request_frame a0 a1 id s) as [->|[ask' ->]]; [done|]. by rewrite lookup_insert_ne.
  - destruct (decide (a = a0)) as [->|Hne].
    + destruct Hp as (ask & Ha & Hp). rewrite Ha in *. simplify_eq. eexists. simpl. by rewrite lookup_insert_eq.
    + eapply past_frame; [done| |done]. simpl. by rewrite lookup_insert_ne.
  - destruct (decide (a = a0)) as [->|Hne].
    + destruct Hp as (ask & Ha & Hp). rewrite Ha in *. simplify_eq. unfold drop_ask. destruct (phase a1) as [| | | | | |q rem since|q result|q result] eqn:Hph; try done.
      * eexists. simpl. rewrite lookup_insert_eq. split; [done|]. simpl. destruct_and?. split_and!; try done; lia.
      * exists a1. by rewrite Ha, Hph.
      * exists a1. by rewrite Ha, Hph.
    + destruct (drop_frame a0 a1 s) as [Hi Hf]. eapply past_frame; [done| |by rewrite Hi].
      destruct Hf as [->|[ask' ->]]; [done|]. by rewrite lookup_insert_ne.
  - destruct (answer_frame g a0 s) as [Ha Hi]. eapply past_frame; [done|by rewrite Ha|by rewrite Hi].
Qed.

Lemma past_steps a p ls s s' n :
  steps ls s s' -> past a p n s -> past a p (n - length (List.filter (runs a) ls)) s'.
Proof.
  intros H. revert n. induction H as [s|l ls s s1 s2 Hl _ IH]; intros n Hp; simpl.
  - by rewrite Nat.sub_0_r.
  - apply (past_step _ _ _ _ _ _ Hl), IH in Hp. eapply past_mono; [done|]. destruct (runs a l); simpl; lia.
Qed.

(** C20. No question waits for ever: once its time is up, whatever else happens meanwhile, the call
    has returned after two more of its own actions, without a grant and without a refusal that
    nobody gave. *)
Theorem overdue_questions_end a ask p remaining since ls s s' :
  asks s !! a = Some ask -> phase ask = Waiting p remaining since -> since + remaining <= instant s ->
  steps ls s s' -> (2 <= length (List.filter (runs a) ls))%nat ->
  exists ask' result, asks s' !! a = Some ask' /\ phase ask' = Left (Some p) result /\ refused result.
Proof.
  intros Ha Hph Ht Hs Hn. assert (H : past a p 2 s) by (exists ask; rewrite Ha, Hph; auto).
  apply (past_steps _ _ _ _ _ _ Hs) in H as (ask' & Ha' & H). exists ask'.
  destruct (phase ask') as [| | | | | |q rem since'|q result|q result] eqn:Hph'; try done; try (destruct H as (_ & _ & H); lia).
  destruct H as [-> H]. by exists result.
Qed.

(** Running a script of labels. *)
Fixpoint run_labels (ls : list Label) (s : System) : option System :=
  match ls with [] => Some s | l :: ls => match step l s with Some s => run_labels ls s | None => None end end.

Lemma run_labels_steps ls s s' : run_labels ls s = Some s' -> steps ls s s'.
Proof.
  revert s. induction ls as [|l ls IH]; simpl; intros s H; [by injection H as ->; constructor|].
  destruct (step l s) eqn:E; [|done]. econstructor; eauto.
Qed.
End Approval.

(** ** Runs *)

Module Demo.
Definition settings : ApprovalSettings := {| timeout := from_millis 100; max_pending := 2 |}.

Definition request : PermissionRequest :=
  {| req_principal := Principal_system; req_action := "tool.invoke"; req_resource := Some "shell"; req_context := VNull |}.

Definition cx : ExecutionContext :=
  {| correlation := "c"; principal := None; deadline := None; cancellation := false; attributes := [] |}.

(** Call [0] asks until it waits, its question drawn as [q]. *)
Definition asking : list Label :=
  [Gate_attached; Ask_begins 0 request "run it?" cx] ++ replicate 4 (Ask_runs 0 "q") ++ replicate 2 (Ask_runs 0 "_").

Definition after (ls : list Label) : System := default (System_new 0) (run_labels settings ls (System_new 5)).

Lemma after_reachable ls : is_ok (ok_or (run_labels settings ls (System_new 5)) tt) = true -> reachable settings (after ls).
Proof.
  unfold after. destruct (run_labels settings ls (System_new 5)) as [s|] eqn:E; [|done]. intros _. exists 5, ls. by apply run_labels_steps.
Qed.

Definition approving : list Label := [Answer_begins 7 "q" true; Answer_runs 7; Answer_runs 7].

Definition answered_ask (result : option (Result bool)) : Ask :=
  {| ask_request := request; ask_prompt := "run it?"; ask_cx := cx; ask_cancelled := false;
     phase := Left (Some {| approval_id := "q"; approval_request := request; approval_prompt := "run it?"; approval_correlation := "c";
                            requested_at := 5; expires_at := 105 |}) result |}.

Lemma results_are_answers_witness :
  let s := after (asking ++ approving ++ [Ask_runs 0 "_"; Ask_runs 0 "_"]) in
  let ask := answered_ask (Some (Ok true)) in
  exists p g, phase_pending (phase ask) = Some p /\ approval_request p = ask_request ask /\ approval_prompt p = ask_prompt ask /\
    accepted s g (approval_id p) true /\
    (forall g' granted', accepted s g' (approval_id p) granted' -> g' = g /\ granted' = true) /\
    (forall b ask' q, asks s !! b = Some ask' -> phase_pending (phase ask') = Some q -> approval_id q = approval_id p -> b = 0%nat).
Proof. intros s ask. apply (results_are_answers settings); [apply after_reachable|..]; by vm_compute. Defined.

(** Two questions waiting. *)
Lemma waiting_questions_are_bounded_witness :
  let s := after (asking ++ Ask_begins 1 request "and?" cx :: replicate 4 (Ask_runs 1 "r") ++ [Ask_runs 1 "_"]) in
  map approval_id (pending s) = ["q"; "r"] /\
  pending_count s <= Z.max 0 (max_pending settings) /\ (closed s = true -> pending s = []) /\
  StronglySorted asked_before (pending s) /\
  forall p, p ∈ pending s <-> waiting s !! approval_id p = Some p /\
    exists a ask, asks s !! a = Some ask /\ listed (phase ask) = Some p.
Proof. intros s. split; [by vm_compute|]. apply waiting_questions_are_bounded, after_reachable. by vm_compute. Defined.

Lemma overdue_questions_end_witness :
  let ls := approving ++ [Ask_runs 0 "_"; Broker_closed; Ask_runs 0 "_"] in
  exists ask' result, asks (after (asking ++ [Time_passes 5 200000000] ++ ls)) !! 0%nat = Some ask' /\
    phase ask' = Left (phase_pending (phase (answered_ask None))) result /\ refused result.
Proof.
  intros ls. eapply (overdue_questions_end settings 0%nat _ _ _ _ ls (after (asking ++ [Time_passes 5 200000000]))).
  - by vm_compute.
  - by vm_compute.
  - by vm_compute.
  - apply run_labels_steps. by vm_compute.
  - vm_compute. lia.
Defined.

(** An approval can be accepted, and the call that reports it succeed, after the question's time is
    up but before the waiting call looks: the wait's timer comes first, and the request is refused. *)
Lemma accepted_approval_refused :
  let s := after (asking ++ [Time_passes 5 200000000] ++ approving ++ [Ask_runs 0 "_"; Ask_runs 0 "_"]) in
  accepted s 7 "q" true /\ asks s !! 0%nat = Some (answered_ask (Some (Err (Timeout (from_millis 100))))).
Proof. intros s. split; by vm_compute. Qed.

(** A question taken from the queue before the broker closes is still granted after. *)
Lemma granted_after_close :
  let closing := after (asking ++ [Answer_begins 7 "q" true; Answer_runs 7; Broker_closed]) in
  closed closing = true /\ steps settings [Answer_runs 7; Ask_runs 0 "_"; Ask_runs 0 "_"] closing
    (after (asking ++ [Answer_begins 7 "q" true; Answer_runs 7; Broker_closed; Answer_runs 7; Ask_runs 0 "_"; Ask_runs 0 "_"])) /\
  asks (after (asking ++ [Answer_begins 7 "q" true; Answer_runs 7; Broker_closed; Answer_runs 7; Ask_runs 0 "_"; Ask_runs 0 "_"])) !! 0%nat =
    Some (answered_ask (Some (Ok true))).
Proof. intros closing. split; [by vm_compute|split; [apply run_labels_steps|]]; by vm_compute. Qed.
End Demo.
