(* ===== verification/Text.v ===== *)
(** * Text: UTF-8, and the text of a fetched document

    The first part is the standard library's [String::from_utf8_lossy] and its inverse, the
    UTF-8 encoding of a list of Unicode scalar values.  The second is [crates/net/src/extract.rs]:
    markup to readable text, over scalar values. *)

From S2P Require Import Prelude.

(** ** Trimming, on the bytes *)

Fixpoint trim_start_fuel (fuel : nat) (s : string) : string :=
  match fuel with
  | O => s
  | S fuel => match strip_whitespace_char s with Some rest => trim_start_fuel fuel rest | None => s end
  end.

Fixpoint str_trim_end (s : string) : string :=
  if is_blank s then EmptyString else match s with String c s => String c (str_trim_end s) | EmptyString => EmptyString end.

(** [str::trim]; every step at the front shortens the string. *)
Definition trim (s : string) : string := str_trim_end (trim_start_fuel (String.length s) s).

(** [str::trim_matches] with a one-character pattern. *)
Fixpoint trim_start_char (c : ascii) (s : string) : string :=
  match s with String a rest => if decide (a = c) then trim_start_char c rest else s | EmptyString => EmptyString end.
Fixpoint trim_end_char (c : ascii) (s : string) : string :=
  match s with
  | String a rest => match trim_end_char c rest with
                     | EmptyString => if decide (a = c) then EmptyString else String a EmptyString
                     | kept => String a kept
                     end
  | EmptyString => EmptyString
  end.
Definition trim_matches (c : ascii) (s : string) : string := trim_end_char c (trim_start_char c s).

(** [str::ends_with] *)
Definition ends_with (s suffix : string) : bool :=
  (String.length suffix <=? String.length s)%nat &&
  String.eqb (String.substring (String.length s - String.length suffix) (String.length suffix) s) suffix.

Definition byte_of (c : ascii) : Z := Z.of_N (N_of_ascii c).
Definition chr (z : Z) : ascii := ascii_of_N (Z.to_N z).

Lemma byte_of_chr z : (0 <= z < 256)%Z -> byte_of (chr z) = z.
Proof. intros H. unfold byte_of, chr. rewrite N_ascii_embedding; lia. Qed.

(** [str::bytes] *)
Fixpoint bytes_of (s : string) : list Z := match s with EmptyString => [] | String c s => byte_of c :: bytes_of s end.

Open Scope Z_scope.

(** ** UTF-8 *)

(** A scalar value: any code point but a surrogate. *)
Definition is_scalar (c : Z) : Prop := 0 <= c < 55296 \/ 57344 <= c < 1114112.

Definition REPLACEMENT : Z := 65533.

(** [char::is_control] *)
Definition is_control (c : Z) : bool := (c <? 32) || ((127 <=? c) && (c <=? 159)).

Definition is_ascii_alphanumeric (c : Z) : bool :=
  ((48 <=? c) && (c <=? 57)) || ((65 <=? c) && (c <=? 90)) || ((97 <=? c) && (c <=? 122)).

(** One byte of a sequence, within bounds. *)
Definition continuation (lo hi : Z) (s : string) : option (Z * string) :=
  match s with
  | String c s => if (lo <=? byte_of c) && (byte_of c <=? hi) then Some (byte_of c, s) else None
  | EmptyString => None
  end.

(** What a leading byte announces: the bounds of the second byte, how many bytes follow it, and the
    bits it carries. *)
Definition lead (b : Z) : option (Z * Z * nat * Z) :=
  if (194 <=? b) && (b <=? 223) then Some (128, 191, 0%nat, b - 192)
  else if b =? 224 then Some (160, 191, 1%nat, 0)
  else if b =? 237 then Some (128, 159, 1%nat, 13)
  else if (225 <=? b) && (b <=? 239) then Some (128, 191, 1%nat, b - 224)
  else if b =? 240 then Some (144, 191, 2%nat, 0)
  else if (241 <=? b) && (b <=? 243) then Some (128, 191, 2%nat, b - 240)
  else if b =? 244 then Some (128, 143, 2%nat, 4)
  else None.

Fixpoint tails (n : nat) (acc : Z) (s : string) : option Z * string :=
  match n with
  | O => (Some acc, s)
  | S n => match continuation 128 191 s with
           | Some (b, s) => tails n (acc * 64 + (b - 128)) s
           | None => (None, s)
           end
  end.

(** The first scalar value and the rest, or no value and what follows the longest start of one. *)
Definition next_scalar (c : ascii) (s : string) : option Z * string :=
  let b := byte_of c in
  if b <? 128 then (Some b, s)
  else match lead b with
       | None => (None, s)
       | Some (lo, hi, n, bits) =>
           match continuation lo hi s with
           | Some (b, s) => tails n (bits * 64 + (b - 128)) s
           | None => (None, s)
           end
       end.

(** [String::from_utf8_lossy], as scalar values; every step shortens the bytes. *)
Fixpoint from_utf8_fuel (fuel : nat) (s : string) : list Z :=
  match fuel, s with
  | S fuel, String c s => let (v, rest) := next_scalar c s in default REPLACEMENT v :: from_utf8_fuel fuel rest
  | _, _ => []
  end.
Definition from_utf8_lossy (s : string) : list Z := from_utf8_fuel (String.length s) s.

(** [char::len_utf8] *)
Definition len_utf8 (c : Z) : Z := if c <? 128 then 1 else if c <? 2048 then 2 else if c <? 65536 then 3 else 4.

Definition encode (c : Z) (s : string) : string :=
  if c <? 128 then String (chr c) s
  else if c <? 2048 then String (chr (192 + c / 64)) (String (chr (128 + c mod 64)) s)
  else if c <? 65536 then String (chr (224 + c / 4096)) (String (chr (128 + c / 64 mod 64)) (String (chr (128 + c mod 64)) s))
  else String (chr (240 + c / 262144)) (String (chr (128 + c / 4096 mod 64))
         (String (chr (128 + c / 64 mod 64)) (String (chr (128 + c mod 64)) s))).

Definition to_utf8 (l : list Z) : string := foldr encode EmptyString l.

Definition text_len (l : list Z) : Z := sum_Z (map len_utf8 l).

Lemma encode_len c s : str_len (encode c s) = len_utf8 c + str_len s.
Proof. unfold encode, len_utf8, str_len. repeat case_match; simpl; lia. Qed.

Lemma to_utf8_len l : str_len (to_utf8 l) = text_len l.
Proof. unfold text_len. induction l as [|c l IH]; [done|]. simpl. rewrite encode_len. unfold sum_Z in *. simpl. lia. Qed.

Lemma byte_mod x : 0 <= 128 + x mod 64 < 256.
Proof. pose proof (Z.mod_pos_bound x 64). lia. Qed.

Lemma continuation_chr lo hi z s : 0 <= z < 256 -> continuation lo hi (String (chr z) s) = if (lo <=? z) && (z <=? hi) then Some (z, s) else None.
Proof. intros H. simpl. by rewrite byte_of_chr. Qed.

(** One continuation byte that was written is read back. *)
Lemma continuation_mod x lo hi s :
  lo <= 128 + x mod 64 <= hi -> continuation lo hi (String (chr (128 + x mod 64)) s) = Some (128 + x mod 64, s).
Proof.
  intros H. rewrite continuation_chr by apply byte_mod. by rewrite (proj2 (Z.leb_le _ _) (proj1 H)), (proj2 (Z.leb_le _ _) (proj2 H)).
Qed.

Lemma tails_mod n acc x s : tails (S n) acc (String (chr (128 + x mod 64)) s) = tails n (acc * 64 + x mod 64) s.
Proof.
  cbn [tails]. rewrite continuation_mod by (pose proof (Z.mod_pos_bound x 64); lia). f_equal. lia.
Qed.

Ltac tests :=
  repeat match goal with
  | |- context [?a <=? ?b] => destruct (Z.leb_spec a b); try lia
  | |- context [?a =? ?b] => destruct (Z.eqb_spec a b); try lia
  | |- context [?a <? ?b] => destruct (Z.ltb_spec a b); try lia
  end.

(** What the second byte of a sequence may be, and what both say. *)
Lemma lead_spec b : 194 <= b < 245 ->
  exists lo hi n bits, lead b = Some (lo, hi, n, bits) /\
  (b < 224 -> lo = 128 /\ hi = 191 /\ n = 0%nat /\ bits = b - 192) /\
  (224 <= b < 240 -> lo = (if b =? 224 then 160 else 128) /\ hi = (if b =? 237 then 159 else 191) /\ n = 1%nat /\ bits = b - 224) /\
  (240 <= b -> lo = (if b =? 240 then 144 else 128) /\ hi = (if b =? 244 then 143 else 191) /\ n = 2%nat /\ bits = b - 240).
Proof.
  intros H. unfold lead. tests; simpl; do 4 eexists; (split; [done|]); split_and!; intros; split_and!; try done; lia.
Qed.

Lemma next_lead z s lo hi n bits : 128 <= z < 256 -> lead z = Some (lo, hi, n, bits) ->
  next_scalar (chr z) s = match continuation lo hi s with Some (b, s) => tails n (bits * 64 + (b - 128)) s | None => (None, s) end.
Proof. intros Hz Hl. unfold next_scalar. rewrite byte_of_chr, Hl by lia. by rewrite (proj2 (Z.ltb_ge _ _)) by lia. Qed.

(** What is encoded is read back, and the rest is left. *)
Lemma next_encode c s :
  is_scalar c -> match encode c s with String a t => next_scalar a t = (Some c, s) | EmptyString => False end.
Proof.
  intros Hc. unfold is_scalar in Hc. pose proof (Z.mod_pos_bound c 64). pose proof (Z.div_mod c 64).
  pose proof (Z.mod_pos_bound (c / 64) 64). pose proof (Z.div_mod (c / 64) 64).
  pose proof (Z.mod_pos_bound (c / 4096) 64). pose proof (Z.div_mod (c / 4096) 64).
  assert (c / 64 / 64 = c / 4096) by (rewrite Z.div_div by lia; f_equal; lia).
  assert (c / 4096 / 64 = c / 262144) by (rewrite Z.div_div by lia; f_equal; lia).
  unfold encode. destruct (Z.ltb_spec c 128).
  { unfold next_scalar. rewrite byte_of_chr by lia. by rewrite (proj2 (Z.ltb_lt _ _)). }
  destruct (Z.ltb_spec c 2048); [|destruct (Z.ltb_spec c 65536)].
  - destruct (lead_spec (192 + c / 64)) as (lo & hi & n & bits & Hl & Hb & _); [lia|].
    destruct Hb as (-> & -> & -> & ->); [lia|]. erewrite next_lead by (exact Hl || lia). rewrite continuation_mod by lia.
    cbn [tails]. do 2 f_equal. lia.
  - destruct (lead_spec (224 + c / 4096)) as (lo & hi & n & bits & Hl & _ & Hb & _); [lia|].
    destruct Hb as (Hlo & Hhi & -> & ->); [lia|]. erewrite next_lead by (exact Hl || lia).
    rewrite continuation_mod by (subst lo hi; tests). rewrite tails_mod. cbn [tails]. do 2 f_equal. lia.
  - destruct (lead_spec (240 + c / 262144)) as (lo & hi & n & bits & Hl & _ & _ & Hb); [lia|].
    destruct Hb as (Hlo & Hhi & -> & ->); [lia|]. erewrite next_lead by (exact Hl || lia).
    rewrite continuation_mod by (subst lo hi; tests). rewrite !tails_mod. cbn [tails]. do 2 f_equal. lia.
Qed.

Lemma from_utf8_fuel_encode l fuel :
  Forall is_scalar l -> (String.length (to_utf8 l) <= fuel)%nat -> from_utf8_fuel fuel (to_utf8 l) = l.
Proof.
  intros Hl. revert fuel. induction Hl as [|c l Hc Hl IH]; intros fuel Hf; [by destruct fuel|].
  simpl in *. pose proof (next_encode c (to_utf8 l) Hc) as Hn. pose proof (encode_len c (to_utf8 l)) as Hlen.
  unfold str_len in Hlen. assert (1 <= len_utf8 c) by (unfold len_utf8; repeat case_match; lia).
  destruct (encode c (to_utf8 l)) as [|a t]; [done|]. destruct fuel as [|fuel]; [simpl in Hf; lia|].
  simpl. rewrite Hn. simpl. f_equal. apply IH. simpl in *. lia.
Qed.

(** Text that is encoded is decoded to itself: no scalar value is lost, replaced or invented. *)
Theorem utf8_round_trip l : Forall is_scalar l -> from_utf8_lossy (to_utf8 l) = l.
Proof. intros Hl. by apply from_utf8_fuel_encode. Qed.

(** ** What is well formed *)

Lemma continuation_some lo hi s b r : continuation lo hi s = Some (b, r) -> lo <= b <= hi.
Proof. unfold continuation. destruct s as [|c s]; [done|]. case_match eqn:E; [|done]. intros [= <- <-]. bools. lia. Qed.

Lemma tails_some n : forall acc s v r, tails n acc s = (Some v, r) -> acc * 64 ^ Z.of_nat n <= v < (acc + 1) * 64 ^ Z.of_nat n.
Proof.
  induction n as [|n IH]; intros acc s v r; cbn [tails]; [intros [= <- <-]; lia|].
  destruct (continuation 128 191 s) as [[b s']|] eqn:E; [|done]. apply continuation_some in E. intros H%IH.
  rewrite Nat2Z.inj_succ, Z.pow_succ_r by lia. nia.
Qed.

Lemma next_scalar_scalar c s v r : next_scalar c s = (Some v, r) -> is_scalar v.
Proof.
  unfold next_scalar, is_scalar. destruct (Z.ltb_spec (byte_of c) 128) as [Hb|Hb].
  { intros [= <- <-]. unfold byte_of in *. lia. }
  destruct (lead (byte_of c)) as [[[[lo hi] n] bits]|] eqn:El; [|done].
  destruct (continuation lo hi s) as [[b s']|] eqn:Ec; [|done]. apply continuation_some in Ec. intros Ht%tails_some.
  unfold lead in El.
  repeat match type of El with
         | context [?a <=? ?b] => destruct (Z.leb_spec a b)
         | context [?a =? ?b] => destruct (Z.eqb_spec a b)
         end; simplify_eq/=; lia.
Qed.

Lemma from_utf8_scalars s : Forall is_scalar (from_utf8_lossy s).
Proof.
  unfold from_utf8_lossy. generalize (String.length s) as fuel. intros fuel. revert s.
  induction fuel as [|fuel IH]; intros s; [by destruct s; constructor|]. destruct s as [|c s]; simpl; [constructor|].
  destruct (next_scalar c s) as [[v|] rest] eqn:E; constructor; try apply IH; [by eapply next_scalar_scalar|]. unfold is_scalar. simpl. unfold REPLACEMENT. lia.
Qed.

(** Whether [String::from_utf8] takes the bytes as they are. *)
Definition valid_utf8 (s : string) : bool := String.eqb (to_utf8 (from_utf8_lossy s)) s.

Lemma valid_utf8_spec s : valid_utf8 s = true <-> exists l, Forall is_scalar l /\ s = to_utf8 l.
Proof.
  unfold valid_utf8. rewrite String.eqb_eq. split.
  - intros H. exists (from_utf8_lossy s). split; [apply from_utf8_scalars|done].
  - intros [l [Hl ->]]. by rewrite utf8_round_trip.
Qed.

Lemma lossy_valid s : valid_utf8 (to_utf8 (from_utf8_lossy s)) = true.
Proof. apply valid_utf8_spec. exists (from_utf8_lossy s). split; [apply from_utf8_scalars|done]. Qed.

(** ** Bytes *)

(** [bytes().all(...)], and [contains('\0')] *)
Fixpoint all_bytes (p : ascii -> bool) (s : string) : bool := match s with EmptyString => true | String c s => p c && all_bytes p s end.

Definition has_nul (s : string) : bool := negb (all_bytes (fun c => negb (Ascii.eqb c zero)) s).

Lemma all_bytes_app p a b : all_bytes p (a +:+ b) = all_bytes p a && all_bytes p b.
Proof. induction a as [|c a IH]; [done|]. change (String c a +:+ b) with (String c (a +:+ b)). simpl. by rewrite IH, andb_assoc. Qed.

Lemma all_bytes_impl (p q : ascii -> bool) s : (forall c, p c = true -> q c = true) -> all_bytes p s = true -> all_bytes q s = true.
Proof. intros Hpq. induction s as [|c s IH]; [done|]. simpl. rewrite !andb_true_iff. intros [Hc Hs]. auto. Qed.

Lemma split_char_none c s : all_bytes (fun x => negb (Ascii.eqb x c)) s = true -> split_char c s = [s].
Proof.
  induction s as [|x s IH]; [done|]. simpl. rewrite andb_true_iff, negb_true_iff, Ascii.eqb_neq. intros [Hx Hs].
  rewrite decide_False by done. by rewrite IH.
Qed.

(** ** Numbers, written *)

Lemma pretty_digits (p : ascii -> bool) : forallb (fun n => p (pretty_N_char n)) [0; 1; 2; 3; 4; 5; 6; 7; 8; 9]%N = true ->
  forall x s, all_bytes p s = true -> all_bytes p (pretty_N_go x s) = true.
Proof.
  intros Hp x. induction (N.lt_wf_0 x) as [x _ IH]. intros s Hs.
  destruct (decide (0 < x)%N) as [Hx|Hx]; [|by assert (x = 0%N) as -> by lia; rewrite pretty_N_go_0].
  rewrite pretty_N_go_step by done. apply IH; [apply N.div_lt; lia|]. cbn [all_bytes]. rewrite Hs, andb_true_r.
  rewrite forallb_forall in Hp. apply Hp. pose proof (N.mod_lt x 10 ltac:(done)).
  generalize dependent (x mod 10)%N. intros d Hd. clear -Hd.
  destruct d as [|d]; [by left|]. simpl. do 9 (destruct d as [d|d|]; try lia; try naive_solver).
Qed.

Definition ten_digits (p : ascii -> bool) : bool := forallb (fun n => p (pretty_N_char n)) [0; 1; 2; 3; 4; 5; 6; 7; 8; 9]%N.

Lemma fmt_u_digits (p : ascii -> bool) z : ten_digits p = true -> 0 <= z -> all_bytes p (fmt_u z) = true.
Proof.
  intros Hp Hz. unfold fmt_u, pretty, pretty_Z. destruct z as [|n|n]; [|change (all_bytes p (pretty_N (N.pos n)) = true)|lia].
  - cbn. rewrite andb_true_r. by apply andb_true_iff in Hp as [? _].
  - unfold pretty_N. rewrite decide_False by done. by apply pretty_digits.
Qed.

Lemma digit_pretty d : (d < 10)%N -> ascii_digit (pretty_N_char d) = Some (Z.of_N d).
Proof. intros Hd. destruct d as [|d]; [done|]. do 9 (destruct d as [d|d|]; try lia; try reflexivity). Qed.

(** A number is read back from how it is written. *)
Lemma parse_digits_pretty max x : forall s, Z.of_N x <= max -> parse_digits max 0 (pretty_N_go x s) = parse_digits max (Z.of_N x) s.
Proof.
  induction (N.lt_wf_0 x) as [x _ IH]; intros s Hm. destruct (decide (x = 0)%N) as [->|Hx]; [by rewrite pretty_N_go_0|].
  assert (x `div` 10 < x)%N by (apply N.div_lt; lia). assert (x `mod` 10 < 10)%N by (by apply N.mod_lt). pose proof (N.div_mod x 10 ltac:(done)).
  rewrite pretty_N_go_step, IH by lia. cbn [parse_digits].
  rewrite digit_pretty by done. assert (Z.of_N (x `div` 10) * 10 + Z.of_N (x `mod` 10) = Z.of_N x) as -> by lia.
  by rewrite (proj2 (Z.leb_le _ _) Hm).
Qed.

Lemma parse_uint_fmt_u max z : 0 <= z <= max -> parse_uint max (fmt_u z) = Some z.
Proof.
  intros Hz. destruct (decide (z = 0)) as [->|Hne].
  { destruct max; [reflexivity..|lia]. }
  pose proof (fmt_u_digits (fun c => negb (Ascii.eqb c "+")) z eq_refl (proj1 Hz)) as Hd.
  assert (Hp : parse_digits max 0 (fmt_u z) = Some z).
  { destruct z as [|p|p]; [done| |lia]. unfold fmt_u, pretty, pretty_Z, pretty, pretty_positive, pretty, pretty_N. rewrite decide_False by done.
    rewrite parse_digits_pretty by lia. done. }
  unfold parse_uint. destruct (fmt_u z) as [|c s]; [simpl in Hp; congruence|]. cbn [all_bytes] in Hd. apply andb_true_iff in Hd as [Hc _].
  case_decide; [by subst|done].
Qed.
