(* ===== verification/Paths.v ===== *)
(** * Paths: the standard library's paths

    A path is a string; its components are what [Path::components] yields on Unix, where empty
    segments and inner dots vanish, and [join], [starts_with], [file_name] and [parent] are
    those of [std::path]. *)

From S2P Require Import Prelude Text.

Inductive PathComponent := RootDir | CurDir | ParentDir | Normal (name : string).

#[export] Instance PathComponent_eq_dec : EqDecision PathComponent.
Proof. solve_decision. Defined.

Definition SLASH_CHAR : ascii := "/"%char.

Definition is_absolute (p : string) : bool := starts_with p "/".

Definition no_segment (s : string) : bool := bool_decide (s = EmptyString) || bool_decide (s = "."%string).

Definition segment (s : string) : list PathComponent :=
  if no_segment s then [] else if bool_decide (s = ".."%string) then [ParentDir] else [Normal s].

Definition segments (l : list string) : list PathComponent := concat (map segment l).

(** [Path::components] *)
Definition components (p : string) : list PathComponent :=
  if is_absolute p then RootDir :: segments (split_char SLASH_CHAR p)
  else match split_char SLASH_CHAR p with
       | first :: rest => (if bool_decide (first = "."%string) then [CurDir] else segment first) ++ segments rest
       | [] => []
       end.

(** [Path::join] *)
Definition path_join (p q : string) : string :=
  if is_absolute q then q
  else if str_is_empty p || ends_with p "/" then p +:+ q
  else p +:+ String SLASH_CHAR q.

(** [Path::starts_with] *)
Fixpoint is_prefix (a b : list PathComponent) : bool :=
  match a, b with
  | [], _ => true
  | x :: a, y :: b => bool_decide (x = y) && is_prefix a b
  | _ :: _, [] => false
  end.
Definition path_starts_with (p base : string) : bool := is_prefix (components base) (components p).

(** [Path::display], and [to_string_lossy] *)
Definition path_display (p : string) : string := to_utf8 (from_utf8_lossy p).

(** [Path::file_name] *)
Definition file_name (p : string) : option string :=
  match last (components p) with Some (Normal name) => Some name | _ => None end.

(** A path's segments from its last, less those at the end that are no component. *)
Fixpoint trim_segments (l : list string) : list string :=
  match l with
  | [] => []
  | [s] => if str_is_empty s then [] else [s]
  | s :: l' => if no_segment s then trim_segments l' else l
  end.

(** [Path::parent] *)
Definition parent (p : string) : option string :=
  match trim_segments (rev (split_char SLASH_CHAR p)) with
  | [] => None
  | _ :: l =>
      let l := trim_segments l in
      Some (if is_absolute p && bool_decide (l = []) then "/"%string else String.concat "/" (rev l))
  end.

Example components_normalised :
  map components ["a/./b//c/"; "/a/../b"; "./a"; "/"; ""]%string =
  [[Normal "a"; Normal "b"; Normal "c"]; [RootDir; Normal "a"; ParentDir; Normal "b"]; [CurDir; Normal "a"]; [RootDir]; []]%string.
Proof. reflexivity. Qed.

Example parents :
  map parent ["a/b"; "a"; "/a"; "/"; ""; "a/./b/"; "./a"]%string =
  [Some "a"; Some EmptyString; Some "/"; None; None; Some "a"; Some "."]%string.
Proof. reflexivity. Qed.

(** ** Joining and prefixes *)

Lemma split_char_app c a b : split_char c (a +:+ String c b) = split_char c a ++ split_char c b.
Proof.
  induction a as [|x a IH]; simpl; [by rewrite decide_True|]. rewrite IH. destruct (decide (x = c)); [done|].
  pose proof (split_char_nonempty c a). by destruct (split_char c a).
Qed.

Lemma segments_app l k : segments (l ++ k) = segments l ++ segments k.
Proof. unfold segments. by rewrite map_app, concat_app. Qed.

Lemma is_prefix_spec a b : is_prefix a b = true <-> exists k, b = a ++ k.
Proof.
  revert b. induction a as [|x a IH]; intros b; simpl; [split; [by exists b|done]|].
  destruct b as [|y b]; [split; [done|by intros [k [=]]]|]. rewrite andb_true_iff, bool_decide_eq_true, IH. split.
  - intros [-> [k ->]]. by exists k.
  - intros [k [= -> ->]]. split; [done|by exists k].
Qed.

Lemma path_starts_with_refl p : path_starts_with p p = true.
Proof. apply is_prefix_spec. exists []. by rewrite app_nil_r. Qed.

Lemma path_starts_with_trans a b c : path_starts_with a b = true -> path_starts_with b c = true -> path_starts_with a c = true.
Proof.
  unfold path_starts_with. rewrite !is_prefix_spec. intros [k Hk] [m Hm]. exists (m ++ k). by rewrite Hk, Hm, app_assoc.
Qed.

Lemma ends_with_char c p : ends_with p (String c EmptyString) = true -> exists a, p = a +:+ String c EmptyString.
Proof.
  unfold ends_with. rewrite andb_true_iff, Nat.leb_le, String.eqb_eq. simpl. intros [Hl Hs]. clear Hl. revert Hs.
  induction p as [|x p IH]; simpl; [done|]. destruct p as [|y p]; simpl in *.
  - intros [= ->]. by exists EmptyString.
  - intros Hs. destruct IH as [a Ha]; [by rewrite ?Nat.sub_0_r in *|]. exists (String x a). by rewrite Ha.
Qed.

Lemma is_absolute_app p q : p <> EmptyString -> is_absolute (p +:+ q) = is_absolute p.
Proof.
  destruct p as [|x p]; [done|]. intros _. unfold is_absolute, starts_with. change (String x p +:+ q) with (String x (p +:+ q)).
  cbn [String.prefix]. destruct (ascii_dec "/" x); [|done]. by destruct p, q.
Qed.

(** A path whose first component is an ordinary name. *)
Definition plain_start (q : string) : Prop := hd EmptyString (split_char SLASH_CHAR q) <> "."%string.

Lemma components_glue p q : is_absolute q = false -> plain_start q -> p <> EmptyString ->
  components (p +:+ String SLASH_CHAR q) = components p ++ components q.
Proof.
  intros Hq Hp Hne. unfold components. rewrite is_absolute_app, Hq, split_char_app by done. unfold plain_start in Hp.
  pose proof (split_char_nonempty SLASH_CHAR p). destruct (split_char SLASH_CHAR q) as [|f r] eqn:Eq; [by eapply split_char_nonempty in Eq|].
  simpl in Hp. rewrite (bool_decide_eq_false_2 _ Hp). change (segment f ++ segments r) with (segments (f :: r)).
  destruct (is_absolute p); [by rewrite segments_app|]. destruct (split_char SLASH_CHAR p) as [|g l]; [done|]. simpl.
  rewrite segments_app, app_assoc. done.
Qed.

Lemma components_slash a : a <> EmptyString -> components (a +:+ String SLASH_CHAR EmptyString) = components a.
Proof. intros Ha. rewrite components_glue; [by rewrite app_nil_r|done| |done]. by unfold plain_start. Qed.

Lemma components_join p q : is_absolute q = false -> plain_start q -> p <> EmptyString ->
  components (path_join p q) = components p ++ components q.
Proof.
  intros Hq Hp Hne. unfold path_join. rewrite Hq. destruct (str_is_empty p) eqn:E0; [by destruct p|].
  destruct (ends_with p "/") eqn:E; simpl; [|by apply components_glue].
  apply ends_with_char in E as [a ->]. rewrite str_app_assoc. simpl. destruct (decide (a = EmptyString)) as [->|Ha].
  - change (components (String SLASH_CHAR q) = RootDir :: components q). unfold components at 2. rewrite Hq. unfold plain_start in Hp.
    pose proof (split_char_nonempty SLASH_CHAR q). assert (components (String SLASH_CHAR q) = RootDir :: segments (split_char SLASH_CHAR q)) as -> by (clear; by destruct q).
    destruct (split_char SLASH_CHAR q) as [|f r]; [done|]. simpl in Hp. by rewrite (bool_decide_eq_false_2 _ Hp).
  - change (a +:+ "/") with (a +:+ String SLASH_CHAR EmptyString). rewrite components_slash by done. by apply components_glue.
Qed.
