(* ===== verification/Extract.v ===== *)
(** * Extract: markup to readable text

    [crates/net/src/extract.rs].  A document is its Unicode scalar values ([Text.v] says how they
    are bytes); offsets the code takes in bytes are counted in bytes. *)

From S2P Require Import Prelude Text.

Open Scope Z_scope.

Abbreviation text := (list Z).

(** A string literal of the code. *)
Definition lit (s : string) : text := map byte_of (String.list_ascii_of_string s).

Definition OPAQUE : list text := map lit ["script"; "style"; "template"; "noscript"; "svg"].

Definition BLOCK : list text := map lit
  ["p"; "div"; "br"; "hr"; "li"; "ul"; "ol"; "tr"; "table"; "section"; "article"; "header"; "footer"; "nav"; "aside";
   "blockquote"; "pre"; "h1"; "h2"; "h3"; "h4"; "h5"].

Record Extracted := { text_ : text; truncated : bool }.

(** ** Scanning *)

(** [char::is_whitespace] *)
Definition is_whitespace (c : Z) : bool :=
  ((9 <=? c) && (c <=? 13)) || (c =? 32) || (c =? 133) || (c =? 160) || (c =? 5760) ||
  ((8192 <=? c) && (c <=? 8202)) || (c =? 8232) || (c =? 8233) || (c =? 8239) || (c =? 8287) || (c =? 12288).

Definition lower (c : Z) : Z := if (65 <=? c) && (c <=? 90) then c + 32 else c.

Definition LT : Z := 60.
Definition GT : Z := 62.
Definition AMP : Z := 38.
Definition SEMI : Z := 59.
Definition SLASH : Z := 47.
Definition SPACE : Z := 32.
Definition NEWLINE : Z := 10.
Definition is_quote (c : Z) : bool := (c =? 34) || (c =? 39).

(** [str::strip_prefix] *)
Fixpoint strip (pat l : text) : option text :=
  match pat, l with
  | [], _ => Some l
  | p :: pat, c :: l => if c =? p then strip pat l else None
  | _, [] => None
  end.

(** [str::find], as what precedes the first occurrence. *)
Fixpoint find_text (pat l : text) : option text :=
  match strip pat l with
  | Some _ => Some []
  | None => match l with [] => None | c :: l => cons c <$> find_text pat l end
  end.

Definition skip_to (input marker : text) : text :=
  match find_text marker input with Some before => drop (length before + length marker) input | None => [] end.

Fixpoint skip_past_tag_from (quote : option Z) (input : text) : text :=
  match input with
  | [] => []
  | c :: input =>
      match quote with
      | Some open => skip_past_tag_from (if c =? open then None else quote) input
      | None => if is_quote c then skip_past_tag_from (Some c) input else if c =? GT then input else skip_past_tag_from None input
      end
  end.
Definition skip_past_tag (input : text) : text := skip_past_tag_from None input.

Definition skip_element (input name : text) : text :=
  let needle := lit "</" ++ name in
  match find_text needle (map lower input) with
  | Some before => skip_past_tag (drop (length before + length needle) input)
  | None => []
  end.

Fixpoint take_while (p : Z -> bool) (l : text) : text :=
  match l with c :: l => if p c then c :: take_while p l else [] | [] => [] end.

Definition tag_name (input : text) : text := map lower (take_while is_ascii_alphanumeric input).

(** ** Character references *)

Definition named (body : text) : option text :=
  let same s := bool_decide (body = lit s) in
  if same "amp" then Some (lit "&")
  else if same "lt" then Some (lit "<")
  else if same "gt" then Some (lit ">")
  else if same "quot" then Some [34]
  else if same "apos" || same "#39" then Some (lit "'")
  else if same "nbsp" then Some (lit " ")
  else if same "hellip" then Some (lit "...")
  else if same "mdash" || same "ndash" then Some (lit "-")
  else if same "rsquo" || same "lsquo" then Some (lit "'")
  else if same "rdquo" || same "ldquo" then Some [34]
  else None.

Definition digit_value (c : Z) : Z :=
  if (48 <=? c) && (c <=? 57) then c - 48
  else if (97 <=? lower c) && (lower c <=? 122) then lower c - 87
  else 99.

Fixpoint radix_digits (radix acc : Z) (l : text) : option Z :=
  match l with
  | [] => Some acc
  | c :: l =>
      if digit_value c <? radix then
        let acc := acc * radix + digit_value c in if acc <=? u32_max then radix_digits radix acc l else None
      else None
  end.

(** [u32::from_str_radix]: an optional sign, at least one digit, no overflow. *)
Definition from_str_radix (radix : Z) (l : text) : option Z :=
  match match l with c :: rest => if c =? 43 then rest else l | [] => [] end with
  | [] => None
  | digits => radix_digits radix 0 digits
  end.

(** [char::from_u32] *)
Definition from_u32 (code : Z) : option Z :=
  if ((code <? 55296) || (57344 <=? code)) && (code <? 1114112) then Some code else None.

Definition numeric (body : text) : option Z :=
  match body with
  | c :: digits =>
      if c =? 35 then
        code ← match digits with
               | x :: hex => if (x =? 120) || (x =? 88) then from_str_radix 16 hex else from_str_radix 10 digits
               | [] => from_str_radix 10 digits
               end;
        from_u32 code
      else None
  | [] => None
  end.

(** The reference that ends within ten bytes of its [&], replaced, and what follows it. *)
Definition reference (after : text) : text * text :=
  match find_text [SEMI] after with
  | Some body =>
      if text_len body <=? 10 then
        (match named body with
         | Some replacement => replacement
         | None => match numeric body with Some c => [c] | None => AMP :: body ++ [SEMI] end
         end, drop (S (length body)) after)
      else ([AMP], after)
  | None => ([AMP], after)
  end.

(** [decode]; every step shortens the input. *)
Fixpoint decode_fuel (fuel : nat) (rest : text) : text :=
  match fuel with
  | O => rest
  | S fuel =>
      match find_text [AMP] rest with
      | Some before => let (out, rest) := reference (drop (S (length before)) rest) in before ++ out ++ decode_fuel fuel rest
      | None => rest
      end
  end.
Definition decode (input : text) : text := decode_fuel (S (length input)) input.

(** ** The sink *)

(** What was written, last character first. *)
Record Sink := { out : text; limit : Z; cut : bool }.

Definition Sink_new (limit : Z) : Sink := {| out := []; limit := limit; cut := false |}.

Definition full (s : Sink) : bool := limit s <=? text_len (out s).

Definition put (c : Z) (s : Sink) : Sink := {| out := c :: out s; limit := limit s; cut := cut s |}.

Fixpoint pop_spaces (l : text) : text := match l with c :: rest => if c =? SPACE then pop_spaces rest else l | [] => [] end.

Definition push_newline (s : Sink) : Sink :=
  if bool_decide (out s = []) || full s then s
  else
    let s := {| out := pop_spaces (out s); limit := limit s; cut := cut s |} in
    if bool_decide (take 2 (out s) = [NEWLINE; NEWLINE]) then s else put NEWLINE s.

Definition push_char (c : Z) (s : Sink) : Sink :=
  if is_whitespace c then
    match out s with
    | last :: _ => if is_whitespace last then s else put SPACE s
    | [] => s
    end
  else put c s.

Fixpoint push_chars (l : text) (s : Sink) : Sink :=
  match l with
  | [] => s
  | c :: l => if full s then {| out := out s; limit := limit s; cut := true |} else push_chars l (push_char c s)
  end.

Definition push_text (raw : text) (s : Sink) : Sink := push_chars (decode raw) s.

Fixpoint trim_start (l : text) : text := match l with c :: rest => if is_whitespace c then trim_start rest else l | [] => [] end.

Definition finish (s : Sink) : Extracted :=
  {| text_ := trim_start (reverse (trim_start (out s))); truncated := cut s || full s |}.

(** ** The document *)

(** One turn of the loop at a [<]: what is left, and the sink. *)
Definition at_tag (rest : text) (s : Sink) : text * Sink :=
  match strip (lit "<!--") rest with
  | Some after => (skip_to after (lit "-->"), s)
  | None =>
      let after_bracket := drop 1 rest in
      match after_bracket with
      | c :: _ =>
          if (c =? 33) || (c =? 63) then (skip_past_tag after_bracket, s)
          else
            let closing := c =? SLASH in
            let named := if closing then drop 1 after_bracket else after_bracket in
            let name := tag_name named in
            if bool_decide (name = []) then (after_bracket, push_text [LT] s)
            else
              let after_tag := skip_past_tag (drop (length name) named) in
              if negb closing && bool_decide (name ∈ OPAQUE) then (skip_element after_tag name, s)
              else (after_tag, if bool_decide (name ∈ BLOCK) || bool_decide (name = lit "h6") then push_newline s else s)
      | [] => (after_bracket, push_text [LT] s)
      end
  end.

(** [None] is running out of turns. *)
Fixpoint html_loop (fuel : nat) (rest : text) (s : Sink) : option Sink :=
  match rest with
  | [] => Some s
  | _ =>
      if full s then Some s
      else match fuel with
        | O => None
        | S fuel =>
            match find_text [LT] rest with
            | None => Some (push_text rest s)
            | Some before =>
                let (rest, s) := at_tag (drop (length before) rest) (push_text before s) in html_loop fuel rest s
            end
        end
  end.

Definition html_to_text (input : text) (limit : Z) : option Extracted :=
  finish <$> html_loop (length input) input (Sink_new limit).

Definition str (l : text) : string := to_utf8 l.
Example demo : (fun e => str (text_ e)) <$> html_to_text (lit "<p>a &lt; b &#x41;&amp;</p><script>x<y</script> <B c='>'>hi  there</B><br> !<!-- -->") 100 =
  Some ("a < b A&" +:+ String (chr 10) "hi there" +:+ String (chr 10) "!").
Proof. vm_compute. reflexivity. Qed.

(** ** The loop ends *)

Lemma drop_length_le {A} n (l : list A) : (length (drop n l) <= length l)%nat.
Proof. rewrite length_drop. lia. Qed.

Lemma skip_past_tag_length q l : (length (skip_past_tag_from q l) <= length l)%nat.
Proof. revert q. induction l as [|c l IH]; intros q; simpl; [done|]. repeat case_match; try (etrans; [apply IH|]); lia. Qed.

Lemma strip_Some pat l r : strip pat l = Some r <-> l = pat ++ r.
Proof.
  revert l. induction pat as [|p pat IH]; intros l; simpl; [naive_solver|]. destruct l as [|c l]; [done|].
  destruct (Z.eqb_spec c p) as [->|Hne]; [|naive_solver]. rewrite IH. naive_solver.
Qed.

Lemma find_text_Some pat l before : find_text pat l = Some before -> exists after, l = before ++ pat ++ after.
Proof.
  revert before. induction l as [|c l IH]; intros before; simpl; destruct (strip pat _) as [r|] eqn:E;
    try (intros [= <-]; apply strip_Some in E; by exists r); try done.
  destruct (find_text pat l) as [b|]; [|done]. intros [= <-]. destruct (IH b eq_refl) as [after ->]. by exists after.
Qed.

Lemma skip_to_length l marker : (length (skip_to l marker) <= length l)%nat.
Proof. unfold skip_to. case_match; [apply drop_length_le|simpl; lia]. Qed.

Lemma skip_element_length l name : (length (skip_element l name) <= length l)%nat.
Proof.
  unfold skip_element. case_match; [|simpl; lia]. etrans; [apply skip_past_tag_length|apply drop_length_le].
Qed.

Lemma at_tag_length l s : (length (fst (at_tag (LT :: l) s)) <= length l)%nat.
Proof.
  unfold at_tag. destruct (strip (lit "<!--") (LT :: l)) as [after|] eqn:E.
  { apply strip_Some in E. injection E as ->. simpl. etrans; [apply skip_to_length|lia]. }
  destruct l as [|c l]; [done|]. change (drop 1 (LT :: c :: l)) with (c :: l). cbv zeta iota beta. case_match; [apply skip_past_tag_length|]. case_match; [done|].
  assert (Ht : forall m, (length (skip_past_tag (drop m (if (c =? SLASH)%Z then drop 1 (c :: l) else c :: l))) <= length (c :: l))%nat).
  { intros m. etrans; [apply skip_past_tag_length|]. etrans; [apply drop_length_le|]. case_match; [apply drop_length_le|done]. }
  match goal with |- context [if ?a && ?b then _ else _] => destruct (a && b) end; cbn [fst];
    [etrans; [apply skip_element_length|]|]; apply Ht.
Qed.

Lemma html_loop_ends fuel rest s : (length rest <= fuel)%nat -> is_Some (html_loop fuel rest s).
Proof.
  revert rest s. induction fuel as [|fuel IH]; intros rest s Hl; destruct rest as [|c rest]; cbn [html_loop]; try by eexists.
  { simpl in Hl. lia. }
  destruct (full s); [by eexists|]. destruct (find_text [LT] (c :: rest)) as [before|] eqn:E; [|by eexists].
  apply find_text_Some in E as [after E]. rewrite E. rewrite drop_app_length.
  pose proof (at_tag_length after (push_text before s)) as Ht. simpl ([LT] ++ after).
  destruct (at_tag (LT :: after) (push_text before s)) as [rest' s']. apply IH. simpl in *.
  assert (length (c :: rest) = length (before ++ [LT] ++ after)) by (by rewrite E). rewrite !length_app in *. simpl in *. lia.
Qed.

(** ** What is written *)

(** Written text, last character first: white space is a space, a line end or an empty line, and
    comes after something else. *)
Inductive tidy : text -> Prop :=
  | Tidy_nil : tidy []
  | Tidy_char c l : is_whitespace c = false -> tidy l -> tidy (c :: l)
  | Tidy_space c l : is_whitespace c = false -> tidy (c :: l) -> tidy (SPACE :: c :: l)
  | Tidy_line c l : is_whitespace c = false -> tidy (c :: l) -> tidy (NEWLINE :: c :: l)
  | Tidy_blank c l : is_whitespace c = false -> tidy (c :: l) -> tidy (NEWLINE :: NEWLINE :: c :: l).

Definition well_written (s : Sink) : Prop := tidy (out s) /\ text_len (out s) <= limit s + 3.

Lemma len_utf8_bound c : 1 <= len_utf8 c <= 4.
Proof. unfold len_utf8. repeat case_match; lia. Qed.

Lemma text_len_cons c l : text_len (c :: l) = len_utf8 c + text_len l.
Proof. done. Qed.

Lemma full_spec s : full s = false -> text_len (out s) < limit s.
Proof. apply Z.leb_gt. Qed.

(** White space heads only before something else. *)
Lemma tidy_whitespace c l : tidy (c :: l) -> is_whitespace c = true ->
  exists d r, is_whitespace d = false /\ tidy (d :: r) /\ (l = d :: r /\ (c = SPACE \/ c = NEWLINE) \/ c = NEWLINE /\ l = NEWLINE :: d :: r).
Proof. intros H Hc. inversion H; subst; try congruence; do 2 eexists; (split; [done|split; [done|]]); auto. Qed.

Lemma push_char_well c s : well_written s -> full s = false -> well_written (push_char c s) /\ limit (push_char c s) = limit s.
Proof.
  intros [Ht Hl] Hf%full_spec. unfold push_char. destruct (is_whitespace c) eqn:Hc.
  - destruct (out s) as [|d l] eqn:Ho; [by split; [split; rewrite ?Ho|]|]. destruct (is_whitespace d) eqn:Hd; [by split; [split; rewrite ?Ho|]|].
    split; [|done]. split; simpl; rewrite Ho; [by apply Tidy_space|]. rewrite text_len_cons. unfold len_utf8. simpl. lia.
  - split; [|done]. split; simpl; [by apply Tidy_char|]. rewrite text_len_cons. pose proof (len_utf8_bound c). lia.
Qed.

Lemma push_chars_well l s : well_written s -> well_written (push_chars l s) /\ limit (push_chars l s) = limit s.
Proof.
  revert s. induction l as [|c l IH]; intros s Hs; simpl; [done|]. destruct (full s) eqn:Hf; [done|].
  destruct (push_char_well c s Hs Hf) as [H1 H2]. destruct (IH _ H1) as [H3 H4]. by rewrite H4, H2 in *.
Qed.

Lemma pop_spaces_tidy l : tidy l -> l <> [] -> 
  tidy (pop_spaces l) /\ text_len (pop_spaces l) <= text_len l /\ (exists c r, pop_spaces l = c :: r) /\
  forall c r, pop_spaces l = c :: r -> is_whitespace c = true -> c = NEWLINE.
Proof.
  intros Ht Hne. destruct l as [|c l]; [done|]. destruct (is_whitespace c) eqn:Hc.
  - destruct (tidy_whitespace c l Ht Hc) as (d & r & Hd & Hr & [[-> [-> | ->]]|[-> ->]]); cbn [pop_spaces];
      change (SPACE =? SPACE) with true; change (NEWLINE =? SPACE) with false; cbv iota.
    + destruct (Z.eqb_spec d SPACE) as [->|_]; [done|]. rewrite (text_len_cons SPACE). pose proof (len_utf8_bound SPACE).
      split_and!; try done; [lia|eauto|]. intros ? ? [= <- <-]. congruence.
    + split_and!; try done; [eauto|]. by intros ? ? [= <- <-].
    + split_and!; try done; [eauto|]. by intros ? ? [= <- <-].
  - simpl. destruct (Z.eqb_spec c SPACE) as [->|_]; [done|]. split_and!; try done; [eauto|]. intros ? ? [= <- <-]. congruence.
Qed.

Lemma push_newline_well s : well_written s -> well_written (push_newline s) /\ limit (push_newline s) = limit s.
Proof.
  intros [Ht Hl]. unfold push_newline. case_bool_decide as Hne; [done|]. destruct (full s) eqn:Hf; [done|]. simpl. apply full_spec in Hf.
  destruct (pop_spaces_tidy _ Ht Hne) as (Hp & Hpl & (c & r & Hc) & Hws). specialize (Hws c r Hc). rewrite Hc in *.
  case_bool_decide as Hnn; (split; [|done]); split; simpl; rewrite ?Hc; [done|lia| |rewrite text_len_cons; unfold len_utf8; simpl; lia].
  destruct (is_whitespace c) eqn:Hcw; [|by apply Tidy_line]. rewrite Hws in * by done.
  destruct (tidy_whitespace NEWLINE r Hp Hcw) as (d & r' & Hd & Hr & [[-> _]|[_ ->]]); [by apply Tidy_blank|done].
Qed.

Lemma at_tag_well rest s : well_written s -> well_written (snd (at_tag rest s)) /\ limit (snd (at_tag rest s)) = limit s.
Proof.
  intros Hs. unfold at_tag, push_text. repeat case_match; cbn [snd]; try (by apply push_newline_well) ; try (by apply push_chars_well); done.
Qed.

Lemma html_loop_well fuel rest s s' : html_loop fuel rest s = Some s' -> well_written s -> well_written s' /\ limit s' = limit s.
Proof.
  revert rest s. induction fuel as [|fuel IH]; intros rest s H Hs; destruct rest as [|c rest]; cbn [html_loop] in H; try by injection H as <-.
  { destruct (full s); by simplify_eq. }
  destruct (full s); [by simplify_eq|]. destruct (find_text [LT] (c :: rest)) as [before|]; [|injection H as <-; by apply push_chars_well].
  destruct (push_chars_well (decode before) s Hs) as [H1 H2]. fold (push_text before s) in H1, H2.
  destruct (at_tag_well (drop (length before) (c :: rest)) _ H1) as [H3 H4].
  destruct (at_tag (drop (length before) (c :: rest)) (push_text before s)) as [rest' s1]. destruct (IH _ _ H H3) as [H5 H6]. split; [done|].
  simpl in *. congruence.
Qed.

Lemma tidy_last l c : tidy l -> last l = Some c -> is_whitespace c = false.
Proof. induction 1 as [|d l Hd Ht IH|d l Hd Ht IH|d l Hd Ht IH|d l Hd Ht IH]; try done. destruct l as [|e l]; [by intros [= <-]|exact IH]. Qed.

Lemma trim_tidy l : tidy l ->
  tidy (trim_start l) /\ text_len (trim_start l) <= text_len l /\ forall c r, trim_start l = c :: r -> is_whitespace c = false.
Proof.
  intros Ht. destruct l as [|c l]; [done|]. destruct (is_whitespace c) eqn:Hc; cbn [trim_start]; rewrite Hc.
  - assert (Hd : forall d r, is_whitespace d = false -> trim_start (d :: r) = d :: r) by (intros d r Hd; cbn [trim_start]; by rewrite Hd).
    destruct (tidy_whitespace c l Ht Hc) as (d & r & Hd' & Hr & [[-> _]|[-> ->]]).
    + rewrite (Hd d r Hd'). split_and!; [done|rewrite (text_len_cons c); pose proof (len_utf8_bound c); lia|]. by intros ? ? [= <- <-].
    + change (trim_start (NEWLINE :: d :: r)) with (trim_start (d :: r)). rewrite (Hd d r Hd').
      split_and!; [done|rewrite !(text_len_cons NEWLINE); unfold len_utf8; simpl; lia|]. by intros ? ? [= <- <-].
  - split_and!; [done|lia|]. by intros ? ? [= <- <-].
Qed.

Lemma trim_start_id l : (forall c, head l = Some c -> is_whitespace c = false) -> trim_start l = l.
Proof. destruct l as [|c l]; [done|]. intros H. cbn [trim_start]. by rewrite (H c). Qed.

Lemma text_len_app l k : text_len (l ++ k) = text_len l + text_len k.
Proof. unfold text_len. by rewrite map_app, sum_Z_app. Qed.

Lemma text_len_reverse l : text_len (reverse l) = text_len l.
Proof.
  induction l as [|c l IH]; [done|]. rewrite reverse_cons, text_len_app, IH, !text_len_cons. change (text_len []) with 0. lia.
Qed.

(** Extraction ends on every document, however malformed: the text it gives is at most three
    bytes over the limit, neither begins nor ends with white space, and has no white space in it
    but single spaces, line ends and empty lines between words. *)
Theorem html_text_is_bounded_and_tidy input limit :
  0 <= limit ->
  exists e, html_to_text input limit = Some e /\ text_len (text_ e) <= limit + 3 /\ tidy (reverse (text_ e)) /\
    (forall c, head (text_ e) = Some c -> is_whitespace c = false) /\ (forall c, last (text_ e) = Some c -> is_whitespace c = false).
Proof.
  intros Hl. destruct (html_loop_ends (length input) input (Sink_new limit)) as [s Hs]; [done|].
  destruct (html_loop_well _ _ _ _ Hs) as [[Ht Hb] E]; [split; [constructor|unfold text_len; simpl; lia]|]. simpl in E.
  unfold html_to_text. rewrite Hs. eexists. split; [done|]. simpl. destruct (trim_tidy _ Ht) as (Ht' & Hlen & Hhead).
  assert (Hfront : forall c, head (reverse (trim_start (out s))) = Some c -> is_whitespace c = false).
  { intros c Hc. apply (tidy_last _ _ Ht'). rewrite <- (reverse_involutive (trim_start (out s))). by rewrite last_reverse. }
  rewrite (trim_start_id _ Hfront), text_len_reverse, reverse_involutive. split_and!; [lia|done|done|].
  intros c Hc. rewrite last_reverse in Hc. destruct (trim_start (out s)) as [|d r] eqn:E'; [done|]. injection Hc as <-. by eapply Hhead.
Qed.

Lemma html_text_is_bounded_and_tidy_witness :
  exists e, html_to_text (lit "<p>one &amp; two<style>p{}</style></p> three") 10 = Some e /\ text_len (text_ e) <= 10 + 3 /\ tidy (reverse (text_ e)) /\
    (forall c, head (text_ e) = Some c -> is_whitespace c = false) /\ (forall c, last (text_ e) = Some c -> is_whitespace c = false).
Proof. apply html_text_is_bounded_and_tidy. lia. Defined.
