(* ===== verification/Net.v ===== *)
(** * Net: which addresses, which URLs, and the fetch loop

    [crates/net/src/address.rs], [target.rs], [resolver.rs], [settings.rs] and the fetch of
    [tool.rs].  URLs are values of the [url] crate and connections are [reqwest]'s: both are
    parameters.  What the loop does to the outside is its log, in order. *)

From Stdlib Require Import ZifyBool.
From S2P Require Import Prelude Base Trust Tools Text Extract.

(** ** Addresses *)

Inductive IpAddr :=
  | V4 (a b c d : Z)
  | V6 (s0 s1 s2 s3 s4 s5 s6 s7 : Z).
#[export] Instance IpAddr_eq_dec : EqDecision IpAddr.
Proof. solve_decision. Defined.

Definition octet (z : Z) : Prop := 0 <= z < 256.
Definition segment (z : Z) : Prop := 0 <= z < 65536.

Definition address_ok (address : IpAddr) : Prop :=
  match address with
  | V4 a b c d => octet a /\ octet b /\ octet c /\ octet d
  | V6 s0 s1 s2 s3 s4 s5 s6 s7 =>
      segment s0 /\ segment s1 /\ segment s2 /\ segment s3 /\ segment s4 /\ segment s5 /\ segment s6 /\ segment s7
  end.

Inductive AddressClass := Global | Local_ (range : string) | Refused (range : string).

Definition is_reachable (self : AddressClass) (allow_local : bool) : bool :=
  match self with Global => true | Local_ _ => allow_local | Refused _ => false end.

Definition range (self : AddressClass) : string :=
  match self with Global => "a global address" | Local_ range | Refused range => range end.

Definition classify_v4 (a b c d : Z) : AddressClass :=
  if a =? 0 then Refused ("the " +:+ String (ascii_of_nat 34) "this network" +:+ String (ascii_of_nat 34) " range 0.0.0.0/8")
  else if (a =? 255) && (b =? 255) && (c =? 255) && (d =? 255) then Refused "the broadcast address"
  else if (224 <=? a) && (a <=? 239) then Refused "the multicast range 224.0.0.0/4"
  else if (a =? 169) && (b =? 254) then Refused "the link-local range 169.254.0.0/16"
  else if ((a =? 192) && (b =? 0) && (c =? 2)) || ((a =? 198) && (b =? 51) && (c =? 100)) || ((a =? 203) && (b =? 0) && (c =? 113))
    then Refused "a documentation range"
  else if (a =? 192) && (b =? 0) && (c =? 0) then Refused "the IETF protocol assignment range 192.0.0.0/24"
  else if (a =? 198) && ((b =? 18) || (b =? 19)) then Refused "the benchmarking range 198.18.0.0/15"
  else if 240 <=? a then Refused "the reserved range 240.0.0.0/4"
  else if a =? 127 then Local_ "the loopback range 127.0.0.0/8"
  else if (a =? 10) || ((a =? 172) && (16 <=? b) && (b <=? 31)) || ((a =? 192) && (b =? 168)) then Local_ "a private range (RFC 1918)"
  else if (a =? 100) && ((64 <=? b) && (b <? 128)) then Local_ "the carrier-grade NAT range 100.64.0.0/10"
  else Global.

(** [Ipv6Addr::to_ipv4_mapped]: the four octets in [::ffff:0:0/96]. *)
Definition classify_v6 (s0 s1 s2 s3 s4 s5 s6 s7 : Z) : AddressClass :=
  let zeros := (s0 =? 0) && (s1 =? 0) && (s2 =? 0) && (s3 =? 0) && (s4 =? 0) in
  let unspecified := zeros && (s5 =? 0) && (s6 =? 0) && (s7 =? 0) in
  let loopback := zeros && (s5 =? 0) && (s6 =? 0) && (s7 =? 1) in
  if zeros && (s5 =? 65535) then classify_v4 (s6 / 256) (s6 mod 256) (s7 / 256) (s7 mod 256)
  else if zeros && ((s5 =? 0) || (s5 =? 65535)) && negb unspecified && negb loopback
    then Refused "a deprecated IPv4-compatible address"
  else if unspecified then Refused "the unspecified address ::"
  else if Z.land s0 65280 =? 65280 then Refused "the multicast range ff00::/8"
  else if Z.land s0 65472 =? 65152 then Refused "the link-local range fe80::/10"
  else if s0 =? 8194 then Refused "the 6to4 range 2002::/16"
  else if (s0 =? 8193) && (s1 =? 0) then Refused "the Teredo range 2001::/32"
  else if (s0 =? 8193) && (s1 =? 3512) then Refused "the documentation range 2001:db8::/32"
  else if (s0 =? 256) && ((s1 =? 0) && (s2 =? 0) && (s3 =? 0)) then Refused "the discard-only range 100::/64"
  else if loopback then Local_ "the loopback address ::1"
  else if Z.land s0 65024 =? 64512 then Local_ "the unique-local range fc00::/7"
  else Global.

Definition classify (address : IpAddr) : AddressClass :=
  match address with
  | V4 a b c d => classify_v4 a b c d
  | V6 s0 s1 s2 s3 s4 s5 s6 s7 => classify_v6 s0 s1 s2 s3 s4 s5 s6 s7
  end.

(** ** The reference: blocks of addresses *)

(** The first address of a block and the length of its prefix. *)
Definition Block : Type := Z * Z.

Definition v4_bits (a b c d : Z) : Z := ((a * 256 + b) * 256 + c) * 256 + d.
Definition v6_bits (s0 s1 s2 s3 s4 s5 s6 s7 : Z) : Z :=
  ((((((s0 * 65536 + s1) * 65536 + s2) * 65536 + s3) * 65536 + s4) * 65536 + s5) * 65536 + s6) * 65536 + s7.

Definition in_block (width n : Z) (b : Block) : bool := n / 2 ^ (width - snd b) =? fst b / 2 ^ (width - snd b).
Definition in_blocks (width n : Z) (l : list Block) : bool := existsb (in_block width n) l.

Definition v4_block a b c d len : Block := (v4_bits a b c d, len).
Definition v6_block s0 s1 s5 s7 len : Block := (v6_bits s0 s1 0 0 0 s5 0 s7, len).

Definition refused_v4 : list Block :=
  [v4_block 0 0 0 0 8; v4_block 169 254 0 0 16; v4_block 192 0 0 0 24; v4_block 192 0 2 0 24; v4_block 198 18 0 0 15;
   v4_block 198 51 100 0 24; v4_block 203 0 113 0 24; v4_block 224 0 0 0 4; v4_block 240 0 0 0 4].
Definition local_v4 : list Block :=
  [v4_block 10 0 0 0 8; v4_block 100 64 0 0 10; v4_block 127 0 0 0 8; v4_block 172 16 0 0 12; v4_block 192 168 0 0 16].

Definition mapped_v6 : Block := v6_block 0 0 65535 0 96.
Definition loopback_v6 : Block := v6_block 0 0 0 1 128.
(** Addresses that are all zeros but for an IPv4 address. *)
Definition zero_v6 : Block := v6_block 0 0 0 0 96.
Definition refused_v6 : list Block :=
  [v6_block 65280 0 0 0 8; v6_block 65152 0 0 0 10; v6_block 8194 0 0 0 16; v6_block 8193 0 0 0 32;
   v6_block 8193 3512 0 0 32; v6_block 256 0 0 0 64].
Definition local_v6 : list Block := [loopback_v6; v6_block 64512 0 0 0 7].

(** What the blocks say of an address: refused, else local, else global. *)
Definition blocks_say (refused local : bool) (c : AddressClass) : Prop :=
  match c with
  | Refused _ => refused = true
  | Local_ _ => refused = false /\ local = true
  | Global => refused = false /\ local = false
  end.

Lemma div_test n k v : 0 < k -> (n / k =? v) = (v * k <=? n) && (n <? (v + 1) * k).
Proof. intros. apply Bool.eq_iff_eq_true. rewrite andb_true_iff, Z.eqb_eq, Z.leb_le, Z.ltb_lt. Z.to_euclidean_division_equations. nia. Qed.

(** Evaluates the blocks of a table to ranges, leaving the address. *)
Ltac table :=
  repeat match goal with
  | |- context [in_block ?w ?n (?b, ?l)] =>
      let p := eval vm_compute in (2 ^ (w - l)) in let v := eval vm_compute in (b / 2 ^ (w - l)) in
      let lo := eval vm_compute in (v * p) in let hi := eval vm_compute in ((v + 1) * p) in
      replace (in_block w n (b, l)) with ((lo <=? n) && (n <? hi)) by (symmetry; exact (div_test n p v eq_refl))
  end.

(** Case analysis on what an octet or segment is compared with, the rest by arithmetic. *)
Ltac by_value a :=
  repeat match goal with |- context [a =? ?k] =>
    destruct (Z.eqb_spec a k); [subst a; cbn -[Z.mul Z.add Z.land]; try done; repeat case_match; cbn [blocks_say]; first [reflexivity|lia]|] end;
  cbn -[Z.mul Z.add Z.land].

Lemma classify_v4_blocks a b c d :
  octet a -> octet b -> octet c -> octet d ->
  blocks_say (in_blocks 32 (v4_bits a b c d) refused_v4) (in_blocks 32 (v4_bits a b c d) local_v4) (classify_v4 a b c d).
Proof.
  intros Ha Hb Hc Hd. unfold in_blocks, refused_v4, local_v4, v4_block. cbn [existsb]. table. unfold v4_bits, octet in *.
  unfold classify_v4. by_value a. repeat case_match; cbn [blocks_say]; lia.
Qed.

(** Masking the low bits of a segment away. *)
Lemma land_mask s k : segment s -> 0 <= k <= 16 -> Z.land s (Z.shiftl (Z.ones (16 - k)) k) = s / 2 ^ k * 2 ^ k.
Proof.
  intros Hs Hk. rewrite <- Z.shiftr_div_pow2, <- Z.shiftl_mul_pow2 by lia. apply Z.bits_inj'. intros n Hn.
  rewrite Z.land_spec, !Z.shiftl_spec by lia. destruct (Z.lt_ge_cases n k).
  - rewrite (Z.testbit_neg_r (Z.ones _)), (Z.testbit_neg_r (Z.shiftr _ _)) by lia. apply andb_false_r.
  - rewrite Z.shiftr_spec, Z.testbit_ones_nonneg by lia. replace (n - k + k) with n by lia.
    destruct (Z.ltb_spec (n - k) (16 - k)); [apply andb_true_r|]. rewrite andb_false_r. symmetry.
    apply Z.testbit_false; [done|]. rewrite Z.div_small; [done|]. split; [apply Hs|]. eapply Z.lt_le_trans; [apply Hs|].
    change 65536 with (2 ^ 16). apply Z.pow_le_mono_r; lia.
Qed.

Lemma land_test s k v : segment s -> 0 <= k <= 16 -> v mod 2 ^ k = 0 ->
  (Z.land s (Z.shiftl (Z.ones (16 - k)) k) =? v) = (v <=? s) && (s <? v + 2 ^ k).
Proof.
  intros Hs Hk Hv. rewrite land_mask by done. assert (0 < 2 ^ k) by (by apply Z.pow_pos_nonneg; lia).
  apply Bool.eq_iff_eq_true. rewrite andb_true_iff, Z.eqb_eq, Z.leb_le, Z.ltb_lt.
  pose proof (Z.div_mod s (2 ^ k) ltac:(lia)). pose proof (Z.mod_pos_bound s (2 ^ k)). pose proof (Z.div_mod v (2 ^ k) ltac:(lia)).
  split; [intros <-; lia|]. intros [Hl Hh]. set (q := s / 2 ^ k) in *. set (p := v / 2 ^ k) in *. assert (q = p) by nia. nia.
Qed.

(** A segment that is not zero puts an address out of every block that starts with zeros. *)
Ltac zero_or_out s :=
  destruct (Z.eqb_spec s 0) as [->|]; [|cbn -[Z.mul Z.add]; repeat case_match; cbn [blocks_say]; lia].

Lemma classify_v6_blocks s0 s1 s2 s3 s4 s5 s6 s7 :
  address_ok (V6 s0 s1 s2 s3 s4 s5 s6 s7) ->
  let n := v6_bits s0 s1 s2 s3 s4 s5 s6 s7 in
  if in_block 128 n mapped_v6 then classify_v6 s0 s1 s2 s3 s4 s5 s6 s7 = classify_v4 (s6 / 256) (s6 mod 256) (s7 / 256) (s7 mod 256)
  else blocks_say (in_blocks 128 n refused_v6 || in_block 128 n zero_v6 && negb (in_block 128 n loopback_v6))
         (in_blocks 128 n local_v6) (classify_v6 s0 s1 s2 s3 s4 s5 s6 s7).
Proof.
  intros (H0 & H1 & H2 & H3 & H4 & H5 & H6 & H7). cbv zeta. unfold in_blocks, refused_v6, local_v6, mapped_v6, loopback_v6, zero_v6, v6_block.
  cbn [existsb]. table. unfold classify_v6. cbv zeta.
  change (Z.land s0 65280) with (Z.land s0 (Z.shiftl (Z.ones (16 - 8)) 8)). change 65472 with (Z.shiftl (Z.ones (16 - 6)) 6).
  change 65024 with (Z.shiftl (Z.ones (16 - 9)) 9). rewrite !land_test by done. change (2 ^ 8) with 256. change (2 ^ 6) with 64.
  change (2 ^ 9) with 512. unfold segment, v6_bits in *. destruct (Z.eqb_spec s0 0) as [->|Hs0].
  - cbn -[Z.mul Z.add Z.land]. zero_or_out s1. zero_or_out s2. zero_or_out s3. zero_or_out s4. by_value s5.
    repeat case_match; cbn [blocks_say]; lia.
  - by_value s0. set (bits := (_ * 65536 + s7)).
    assert (Hbits : s0 * 2 ^ 112 <= bits < (s0 + 1) * 2 ^ 112).
    { change (2 ^ 112) with (65536 * 65536 * 65536 * 65536 * 65536 * 65536 * 65536). lia. }
    clearbody bits. clear H1 H2 H3 H4 H5 H6 H7. change (2 ^ 112) with 5192296858534827628530496329220096 in Hbits.
    repeat case_match; cbn [blocks_say]; lia.
Qed.

(** The classes are those of the address blocks: an address is refused exactly if it is in a block
    no fetch may reach, otherwise local exactly if it is in a local block, otherwise global; an
    IPv6 address that carries an IPv4 address has that address's class, and every other one in
    [::/96] but [::1] is refused. *)
Theorem classify_follows_blocks address :
  address_ok address ->
  match address with
  | V4 a b c d =>
      blocks_say (in_blocks 32 (v4_bits a b c d) refused_v4) (in_blocks 32 (v4_bits a b c d) local_v4) (classify address)
  | V6 s0 s1 s2 s3 s4 s5 s6 s7 =>
      let n := v6_bits s0 s1 s2 s3 s4 s5 s6 s7 in
      if in_block 128 n mapped_v6 then classify address = classify (V4 (s6 / 256) (s6 mod 256) (s7 / 256) (s7 mod 256))
      else blocks_say (in_blocks 128 n refused_v6 || in_block 128 n zero_v6 && negb (in_block 128 n loopback_v6))
             (in_blocks 128 n local_v6) (classify address)
  end.
Proof.
  destruct address as [a b c d|s0 s1 s2 s3 s4 s5 s6 s7]; [|apply classify_v6_blocks].
  intros (Ha & Hb & Hc & Hd). by apply classify_v4_blocks.
Qed.

(** The address of a cloud's instance credentials, in IPv6 clothes. *)
Lemma classify_follows_blocks_witness :
  let address := V6 0 0 0 0 0 65535 43518 43518 in
  is_reachable (classify address) true = false /\
  classify address = classify (V4 (43518 / 256) (43518 mod 256) (43518 / 256) (43518 mod 256)).
Proof.
  split; [by vm_compute|]. assert (H : address_ok (V6 0 0 0 0 0 65535 43518 43518)) by (vm_compute; intuition discriminate).
  exact (classify_follows_blocks _ H).
Defined.

(** The same address behind the well-known prefix of NAT64, [64:ff9b::/96], is global. *)
Lemma nat64_is_global : classify (V6 100 65435 0 0 0 0 43518 43518) = Global.
Proof. by vm_compute. Qed.

(** ** Settings *)

Record NetSettings := {
  allow_local_addresses : bool;
  allow_http : bool;
  allow_hosts : list string;
  deny_hosts : list string;
  max_bytes_setting : option Z;
  timeout_ms : option Z;
  max_redirects_setting : option Z;
}.

Definition DEFAULT_MAX_BYTES : Z := 512 * 1024.
Definition DEFAULT_MAX_REDIRECTS : Z := 3.
Definition DEFAULT_TIMEOUT : Duration := from_millis 20000.
Definition MAX_URL_BYTES : Z := 2048.

Definition max_bytes (self : NetSettings) : Z := default DEFAULT_MAX_BYTES (max_bytes_setting self).
Definition max_redirects (self : NetSettings) : Z := default DEFAULT_MAX_REDIRECTS (max_redirects_setting self).
Definition fetch_timeout (self : NetSettings) : Duration :=
  match timeout_ms self with Some ms => from_millis ms | None => DEFAULT_TIMEOUT end.

(** ** Targets *)

Inductive Host := Domain (name : string) | HostV4 (address : IpAddr) | HostV6 (address : IpAddr).

(** [url::Url] *)
Class UrlLib (Url : Type) := {
  url_parse : string -> result string Url;
  url_scheme : Url -> string;
  url_username : Url -> string;
  url_password : Url -> option string;
  url_host : Url -> option Host;
  url_port : Url -> option Z;
  url_string : Url -> string;
  url_set_query_none : Url -> Url;
  url_set_fragment_none : Url -> Url;
  url_join : Url -> string -> option Url;
}.

(** [Display for IpAddr] *)
Definition hex_digit (z : Z) : string := String (chr (if z <? 10 then 48 + z else 87 + z)) "".
Definition fmt_hex (z : Z) : string :=
  if z <? 16 then hex_digit z
  else if z <? 256 then hex_digit (z / 16) +:+ hex_digit (z mod 16)
  else if z <? 4096 then hex_digit (z / 256) +:+ hex_digit (z / 16 mod 16) +:+ hex_digit (z mod 16)
  else hex_digit (z / 4096) +:+ hex_digit (z / 256 mod 16) +:+ hex_digit (z / 16 mod 16) +:+ hex_digit (z mod 16).

Definition fmt_v4 (a b c d : Z) : string := String.concat "." (map fmt_u [a; b; c; d]).

(** The first longest run of zeros, where it starts and how long it is: the run being read and the
    longest so far. *)
Fixpoint longest_zeros (i : nat) (run best : nat * nat) (l : list Z) : nat * nat :=
  match l with
  | [] => best
  | z :: l =>
      let run := if z =? 0 then (if (snd run =? 0)%nat then (i, 1%nat) else (fst run, S (snd run))) else (0, 0)%nat in
      longest_zeros (S i) run (if (snd best <? snd run)%nat then run else best) l
  end.

Definition fmt_segments (l : list Z) : string := String.concat ":" (map fmt_hex l).

Definition ip_to_string (address : IpAddr) : string :=
  match address with
  | V4 a b c d => fmt_v4 a b c d
  | V6 s0 s1 s2 s3 s4 s5 s6 s7 =>
      if (s0 =? 0) && (s1 =? 0) && (s2 =? 0) && (s3 =? 0) && (s4 =? 0) && (s5 =? 65535)
      then "::ffff:" +:+ fmt_v4 (s6 / 256) (s6 mod 256) (s7 / 256) (s7 mod 256)
      else
        let l := [s0; s1; s2; s3; s4; s5; s6; s7] in
        let (at_, run) := longest_zeros 0 (0, 0)%nat (0, 0)%nat l in
        if (1 <? run)%nat then fmt_segments (take at_ l) +:+ "::" +:+ fmt_segments (drop (at_ + run) l) else fmt_segments l
  end.

(** A host matches an entry, or for an entry with a leading dot that domain and everything under it. *)
Definition matches (entries : list string) (host : string) : bool :=
  existsb (fun entry =>
    let entry := to_ascii_lowercase (trim entry) in
    match strip_prefix entry "." with
    | Some domain => String.eqb host domain || ends_with host ("." +:+ domain)
    | None => String.eqb host entry
    end) entries.

Section Fetch.
  Context {Url : Type} {UL : UrlLib Url}.

Record Target := { target_url : Url; target_host : string }.

Definition resource (self : Target) : string := url_string (url_set_fragment_none (url_set_query_none (target_url self))).

Definition no_host : Error := InvalidArgument "the URL names no host".

Definition host_of (url : Url) : Result string :=
  match url_host url with
  | Some (Domain domain) => Ok (to_ascii_lowercase domain)
  | Some (HostV4 address | HostV6 address) => Ok (ip_to_string address)
  | None => Err no_host
  end.

Definition validate_url (settings : NetSettings) (url : Url) : Result Target :=
  let? _ := (if String.eqb (url_scheme url) "https" then Ok tt
             else if String.eqb (url_scheme url) "http" then
               if allow_http settings then Ok tt
               else Err (Confinement "`http` URLs are refused unless the deployment sets `allow_http`; the request would leave this machine unencrypted")
             else Err (Confinement ("scheme `" +:+ url_scheme url +:+ "` is not fetchable; only http and https are"))) in
  let? _ := (if negb (str_is_empty (url_username url)) || match url_password url with Some _ => true | None => false end
             then Err (Confinement "a URL carrying a username or password is refused") else Ok tt) in
  let? host := host_of url in
  let? _ := (if str_is_empty host then Err no_host else Ok tt) in
  let? _ := (match url_port url with
             | Some port =>
                 if (port <? 1024) && negb (port =? 80) && negb (port =? 443)
                 then Err (Confinement ("port " +:+ fmt_u port +:+ " is refused; a privileged port other than 80 or 443 is not a fetch target"))
                 else Ok tt
             | None => Ok tt end) in
  let? _ := (if matches (deny_hosts settings) host
             then Err (Confinement ("`" +:+ host +:+ "` is in this deployment's denied hosts")) else Ok tt) in
  let? _ := (if negb (bool_decide (allow_hosts settings = [])) && negb (matches (allow_hosts settings) host)
             then Err (Confinement ("`" +:+ host +:+ "` is not in this deployment's allowed hosts")) else Ok tt) in
  Ok {| target_url := url; target_host := host |}.

Definition validate (settings : NetSettings) (raw : string) : Result Target :=
  if MAX_URL_BYTES <? str_len raw then
    Err (InvalidArgument ("url is " +:+ fmt_u (str_len raw) +:+ " bytes, over the " +:+ fmt_u MAX_URL_BYTES +:+ "-byte limit"))
  else match url_parse raw with
       | Ok url => validate_url settings url
       | Err error => Err (InvalidArgument ("`" +:+ raw +:+ "` is not a valid URL: " +:+ error))
       end.

(** ** The world of a fetch *)

Record Response := {
  status : Z;
  (** [Display for StatusCode] *)
  status_text : string;
  (** The [Location] header, where it is text; the other one, or the empty string. *)
  location : option string;
  content_type : string;
  content_length : option Z;
  (** The body as it arrives; a chunk that fails is the last. *)
  chunks : list (result BoxError string);
}.

Inductive LookupError := Lookup_not_found | Lookup_failed (source : BoxError).

(** Looking names up, the transport of the HTTP client once it has addresses to connect to, and the
    authorizer of the call. *)
Class NetWorld (W : Type) := {
  lookup_host : string -> W -> W * result LookupError (list IpAddr);
  send_get : Url -> list IpAddr -> Duration -> W -> W * result BoxError Response;
  authorize_resource : ActionId -> ResourceId -> W -> W * Result unit;
}.

(** What a fetch does to the outside. *)
Inductive NetCall :=
  | Fetched (url : Url) (addresses : list IpAddr)
  | Authorized (claim : ResourceClaim) (answer : Result unit).

Context {W : Type} {NW : NetWorld W}.
Context (settings : NetSettings) (name : ToolName) (action : ActionId).
(** [Display for Error], and what [serde] says of arguments it refuses. *)
Context (error_to_string : Error -> string) (decode_error : Value -> string).

Record NetState := { net_world : W; net_log : list NetCall }.
Abbreviation M := (Prelude.action NetState Error).

Definition on_world {A} (f : W -> W * A) : M A := fun s =>
  let (w, a) := f (net_world s) in ({| net_world := w; net_log := net_log s |}, Ok a).
Definition note (c : NetCall) : M unit := modify (fun s => {| net_world := net_world s; net_log := net_log s ++ [c] |}).

(** ** Resolving *)

Definition resolve_host (host : string) : M (list IpAddr) :=
  let! answer := on_world (lookup_host host) in
  match answer with
  | Err Lookup_not_found => throw (NotFound "host" host)
  | Err (Lookup_failed source) => throw (Error_wrap ("resolving `" +:+ host +:+ "`") source)
  | Ok [] => throw (NotFound "host" host)
  | Ok addresses => ret addresses
  end.

Definition reachable_here (address : IpAddr) : bool := is_reachable (classify address) (allow_local_addresses settings).

Definition partition (addresses : list IpAddr) : list IpAddr * list IpAddr :=
  (List.filter reachable_here addresses, List.filter (fun a => negb (reachable_here a)) addresses).

Definition detail (refused : list IpAddr) : string :=
  match refused with
  | [] => "no addresses"
  | address :: _ => ip_to_string address +:+ " is in " +:+ range (classify address)
  end.

Definition allowed_addresses (host : string) : M (list IpAddr) :=
  let! resolved := resolve_host host in
  let (allowed, refused) := partition resolved in
  match allowed with
  | [] => throw (Confinement ("`" +:+ host +:+ "` resolves only to addresses this deployment may not reach (" +:+ detail refused +:+ ")"))
  | _ => ret allowed
  end.

(** [GuardedResolver::resolve]: its errors are the client's to wrap. *)
Definition guarded_resolve (host : string) : M (list IpAddr) :=
  let! resolved := resolve_host host in
  let (allowed, refused) := partition resolved in
  match allowed with
  | [] => throw (Error_other ("refusing to connect to `" +:+ host +:+ "`: " +:+ detail refused))
  | _ => ret allowed
  end.

(** The client's [send]: a name goes through the resolver it was built with, an address does not. *)
Definition send (url : Url) (budget : Duration) : M (result BoxError Response) :=
  let! addresses := try (match url_host url with
    | Some (Domain host) => guarded_resolve host
    | Some (HostV4 address | HostV6 address) => ret [address]
    | None => throw no_host end) in
  match addresses with
  | Err error => ret (Err (BoxKernel error))
  | Ok addresses => note (Fetched url addresses) ;! on_world (send_get url addresses budget)
  end.

(** ** The answer *)

Definition refusal (url reason : string) : ToolOutcome :=
  ToolOutcome_error (json_object [("url", VString url); ("error", VString reason)]).

Definition mime_of (content_type : string) : string := trim (default "" (head (split_char ";" content_type))).

(** The charset parameters, in order. *)
Definition charsets (content_type : string) : list string :=
  omap (fun parameter =>
    match split_once "=" parameter with
    | Some (name, value) =>
        if String.eqb (to_ascii_lowercase (trim name)) "charset"
        then Some (to_ascii_lowercase (trim_matches (ascii_of_nat 34) (trim value))) else None
    | None => None
    end) (tail (split_char ";" content_type)).

Definition readable (content_type : string) : result string unit :=
  let mime := to_ascii_lowercase (mime_of content_type) in
  let same := String.eqb mime in
  let textual := str_is_empty mime || starts_with mime "text/" || same "application/json" || same "application/xml" ||
    same "application/xhtml+xml" || ends_with mime "+json" || ends_with mime "+xml" in
  if negb textual then Err ("`" +:+ mime +:+ "` is not a text format; this tool retrieves documents, not binaries")
  else match head (charsets content_type) with
       | None => Ok tt
       | Some charset =>
           if bool_decide (charset ∈ ["utf-8"; "utf8"; "us-ascii"; "ascii"]) then Ok tt
           else Err ("the response is encoded as `" +:+ charset +:+ "`; only UTF-8 is decoded")
       end.

Definition is_html (content_type : string) : bool :=
  let mime := to_ascii_lowercase (mime_of content_type) in
  String.eqb mime "text/html" || String.eqb mime "application/xhtml+xml".

(** The body, and whether it was cut at the limit. *)
Fixpoint read_body (url : Url) (limit : Z) (body : string) (l : list (result BoxError string)) : Result (string * bool) :=
  match l with
  | [] => Ok (body, false)
  | Err error :: _ => Err (Error_wrap ("reading `" +:+ url_string url +:+ "`") error)
  | Ok chunk :: l =>
      let remaining := limit - str_len body in
      if remaining <? str_len chunk then Ok (body +:+ String.substring 0 (Z.to_nat remaining) chunk, true)
      else read_body url limit (body +:+ chunk) l
  end.

(** The content, as text; extraction always ends. *)
Definition content_of (content_type body : string) (cut : bool) : string * bool :=
  let text := from_utf8_lossy body in
  if is_html content_type then
    let extracted := default {| text_ := []; truncated := true |} (html_to_text text (max_bytes settings)) in
    (to_utf8 (text_ extracted), cut || truncated extracted)
  else (to_utf8 text, cut).

Definition read (response : Response) (original : string) (current : Target) (hops : list string) : Result ToolOutcome :=
  match readable (content_type response) with
  | Err reason => Ok (refusal original reason)
  | Ok _ =>
      let limit := max_bytes settings in
      if match content_length response with Some length => limit <? length | None => false end then
        Ok (refusal original ("the response declares " +:+ fmt_u (default 0 (content_length response)) +:+ " bytes, over the "
                              +:+ fmt_u limit +:+ "-byte limit"))
      else
        let? (body, cut) := read_body (target_url current) limit "" (chunks response) in
        let (content, cut) := content_of (content_type response) body cut in
        let entries :=
          [("url", VString original); ("status", VNumber (NInt (status response)));
           ("content_type", VString (content_type response)); ("content", VString content); ("truncated", VBool cut)]
          ++ (if String.eqb (url_string (target_url current)) original then [] else [("final_url", VString (url_string (target_url current)))])
          ++ (if bool_decide (hops = []) then [] else [("redirects", VArray (map VString hops))]) in
        Ok (if (200 <=? status response) && (status response <? 300) then ToolOutcome_ok (json_object entries)
            else ToolOutcome_error (json_object (entries ++ [("error", VString ("the server answered " +:+ status_text response))])))
  end.

(** ** The loop *)

Definition HOST_RESOURCE_PREFIX : string := "host/".
Definition URL_RESOURCE_PREFIX : string := "url/".

Definition claims (target : Target) : list ResourceClaim :=
  [{| claim_action := action; claim_resource := HOST_RESOURCE_PREFIX +:+ target_host target |};
   {| claim_action := action; claim_resource := URL_RESOURCE_PREFIX +:+ resource target |}].

Definition authorize (claim : ResourceClaim) : M unit :=
  let! answer := on_world (authorize_resource (claim_action claim) (claim_resource claim)) in
  note (Authorized claim answer) ;! lift answer.

Definition next_hop (from : Target) (location : string) : M (result string Target) :=
  match url_join (target_url from) location with
  | None => ret (Err ("`" +:+ location +:+ "` is not a resolvable redirect"))
  | Some url =>
      if String.eqb (url_scheme (target_url from)) "https" && negb (String.eqb (url_scheme url) "https") then
        ret (Err ("refusing a redirect from https to `" +:+ url_scheme url +:+ "`: a downgrade nobody asked for"))
      else match validate_url settings url with
           | Err error => ret (Err ("refusing the redirect to `" +:+ url_string url +:+ "`: " +:+ error_to_string error))
           | Ok next => for_each authorize (claims next) ;! ret (Ok next)
           end
  end.

Definition is_redirection (response : Response) : bool := (300 <=? status response) && (status response <? 400).

(** One turn of the loop, [again] being the next. *)
Definition fetch_turn (again : Target -> list string -> M (option ToolOutcome)) (original : string) (current : Target)
    (hops : list string) (budget : Duration) : M (option ToolOutcome) :=
  let! checked := try (allowed_addresses (target_host current)) in
  match checked with
  | Err error => ret (Some (refusal original (error_to_string error)))
  | Ok _ =>
      let! answer := send (target_url current) budget in
      match answer with
      | Err error => throw (Error_wrap ("fetching `" +:+ url_string (target_url current) +:+ "`") error)
      | Ok response =>
          match (if is_redirection response then location response else None) with
          | Some to =>
              if max_redirects settings <=? Z.of_nat (length hops) then
                ret (Some (refusal original ("more than " +:+ fmt_u (max_redirects settings) +:+ " redirects; the last was to `" +:+ to +:+ "`")))
              else
                let! hop := next_hop current to in
                match hop with
                | Ok next => again next (hops ++ [url_string (target_url next)])
                | Err refused => ret (Some (refusal original refused))
                end
          | None => let! outcome := lift (read response original current hops) in ret (Some outcome)
          end
      end
  end.

(** [fetch]; [None] is running out of turns. *)
Fixpoint fetch_loop (fuel : nat) (original : string) (current : Target) (hops : list string) (budget : Duration) :
    M (option ToolOutcome) :=
  match fuel with
  | O => ret None
  | S fuel => fetch_turn (fun next hops => fetch_loop fuel original next hops budget) original current hops budget
  end.

(** A turn for each redirect, and the first. *)
Definition turns : nat := S (Z.to_nat (max_redirects settings)).

Definition fetch (requested : Target) (budget : Duration) : M (option ToolOutcome) :=
  fetch_loop turns (url_string (target_url requested)) requested [] budget.

(** ** The tool *)

(** [parse]: an object with a [url], a string, and nothing else. *)
Definition parse (arguments : Value) : Result string :=
  match arguments with
  | VObject [("url", VString url)] => Ok url
  | _ => Err (InvalidArgument ("invalid arguments for `" +:+ name +:+ "`: " +:+ decode_error arguments))
  end.

Definition planned_resources (arguments : Value) : Result (list ResourceClaim) :=
  let? url := parse arguments in
  let? target := validate settings url in
  Ok (claims target).

(** [remaining_budget]: what is left of the deadline, at most the configured timeout. *)
Definition remaining_budget (cx : ExecutionContext) (now : Timestamp) : Duration :=
  match deadline cx with
  | Some deadline => Z.min (Timestamp_saturating_since deadline now) (fetch_timeout settings)
  | None => fetch_timeout settings
  end.

(** [invoke], left to finish; cancelling the call stops it at one of its waits. *)
Definition invoke (arguments : Value) (cx : ExecutionContext) (now : Timestamp) : M (option ToolOutcome) :=
  let! url := lift (parse arguments) in
  let! target := lift (validate settings url) in
  fetch target (remaining_budget cx now).

(** ** What a fetch may do *)

Definition valid (t : Target) : Prop := validate_url settings (target_url t) = Ok t.

Definition is_https (t : Target) : bool := String.eqb (url_scheme (target_url t)) "https".

Definition granted (l : list ResourceClaim) : list NetCall := map (fun c => Authorized c (Ok tt)) l.

(** What the outside sees of a fetch of a target with so many redirects left. *)
Inductive confined : nat -> Target -> list NetCall -> Prop :=
  | Confined_none n t : confined n t []
  | Confined_fetch n t addresses :
      valid t -> Forall (fun a => reachable_here a = true) addresses -> confined n t [Fetched (target_url t) addresses]
  | Confined_denied n t next addresses before claim after e :
      valid t -> Forall (fun a => reachable_here a = true) addresses -> valid next -> claims next = before ++ claim :: after ->
      confined n t (Fetched (target_url t) addresses :: granted before ++ [Authorized claim (Err e)])
  | Confined_hop n t next addresses l :
      valid t -> Forall (fun a => reachable_here a = true) addresses -> valid next -> (is_https t = true -> is_https next = true) ->
      confined n next l -> confined (S n) t (Fetched (target_url t) addresses :: granted (claims next) ++ l).

(** [getaddrinfo] of the text of an address, where a URL names one, is that address. *)
Hypothesis lookup_literal : forall url address w,
  url_host url = Some (HostV4 address) \/ url_host url = Some (HostV6 address) ->
  snd (lookup_host (ip_to_string address) w) = Ok [address].

#[local] Set Default Proof Using "Type".

Lemma validate_url_ok url t : validate_url settings url = Ok t -> target_url t = url /\ host_of url = Ok (target_host t).
Proof.
  unfold validate_url. intros H. repeat (apply result_bind_ok in H as (? & ? & H)). injection H as <-. done.
Qed.

Lemma validate_url_valid url t : validate_url settings url = Ok t -> valid t.
Proof. intros H. unfold valid. by destruct (validate_url_ok _ _ H) as [-> _]. Qed.

Lemma resolve_host_run host s s' r :
  resolve_host host s = (s', r) -> net_log s' = net_log s /\ forall l, r = Ok l -> snd (lookup_host host (net_world s)) = Ok l.
Proof.
  unfold resolve_host, on_world. intros H. peel H E; cbv beta in E; destruct (lookup_host host (net_world s)) as [w a']; [|by injection E].
  injection E as <- <-. simpl. destruct a' as [[|b l]|[|]]; injection H as <- <-; split; try done. by intros ? [= <-].
Qed.

Lemma partition_allowed addresses : Forall (fun a => reachable_here a = true) (fst (partition addresses)).
Proof. apply Forall_forall. intros a Ha. apply list_elem_of_In, filter_In in Ha. apply Ha. Qed.

(** Either resolver gives reachable addresses only, of those the name has. *)
Lemma allowed_addresses_run host s s' r :
  allowed_addresses host s = (s', r) -> net_log s' = net_log s /\
  forall l, r = Ok l -> Forall (fun a => reachable_here a = true) l /\ l <> [] /\
    exists all, snd (lookup_host host (net_world s)) = Ok all /\ forall a, a ∈ l -> a ∈ all.
Proof.
  unfold allowed_addresses. intros H. peel H E; apply resolve_host_run in E as [El Hl]; [|done].
  unfold partition in H. destruct (List.filter reachable_here a) as [|b l] eqn:Ef; injection H as <- <-; (split; [done|]); [done|].
  intros ? [= <-]. split; [rewrite <- Ef; apply (partition_allowed a)|split; [done|]]. exists a. split; [by apply Hl|].
  intros x Hx. rewrite <- Ef in Hx. apply list_elem_of_In, filter_In in Hx as [Hx _]. by apply list_elem_of_In.
Qed.

Lemma guarded_resolve_run host s s' r :
  guarded_resolve host s = (s', r) -> net_log s' = net_log s /\ forall l, r = Ok l -> Forall (fun a => reachable_here a = true) l.
Proof.
  unfold guarded_resolve. intros H. peel H E; apply resolve_host_run in E as [El Hl]; [|done].
  unfold partition in H. destruct (List.filter reachable_here a) as [|b l] eqn:Ef; injection H as <- <-; (split; [done|]); [done|].
  intros ? [= <-]. rewrite <- Ef. apply (partition_allowed a).
Qed.

(** Whatever a target connects to after it was checked is reachable. *)
Lemma send_run t budget s0 s s' checked r :
  valid t -> snd (allowed_addresses (target_host t) s0) = Ok checked -> send (target_url t) budget s = (s', r) ->
  exists answer, r = Ok answer /\
  (net_log s' = net_log s /\ is_ok answer = false \/
   exists addresses, net_log s' = net_log s ++ [Fetched (target_url t) addresses] /\ Forall (fun a => reachable_here a = true) addresses).
Proof using lookup_literal.
  intros Hv Hc H. destruct (validate_url_ok _ _ Hv) as [_ Hhost]. unfold host_of in Hhost.
  assert (Hlit : forall address, target_host t = ip_to_string address ->
    url_host (target_url t) = Some (HostV4 address) \/ url_host (target_url t) = Some (HostV6 address) -> reachable_here address = true).
  { intros address E Hu. destruct (allowed_addresses (target_host t) s0) as [s1 r1] eqn:Ea. apply allowed_addresses_run in Ea as [_ Ha].
    simpl in Hc. destruct (Ha _ Hc) as (Hr & Hne & all & Hall & Hin). rewrite E, (lookup_literal (target_url t)) in Hall by done. injection Hall as <-.
    destruct checked as [|b l]; [done|]. assert (b = address) as -> by (by apply list_elem_of_singleton, Hin, list_elem_of_here).
    by apply Forall_cons_1 in Hr as [? _]. }
  unfold send in H. peel H E; [|unfold try in E; by destruct ((match url_host (target_url t) with _ => _ end) s)].
  assert (Hs1 : net_log s1 = net_log s /\ forall addresses, a = Ok addresses -> Forall (fun x => reachable_here x = true) addresses).
  { unfold try in E. destruct (url_host (target_url t)) as [[host|address|address]|] eqn:Hu.
    - destruct (guarded_resolve host s) as [s2 r2] eqn:Eg. injection E as <- <-. by apply guarded_resolve_run in Eg.
    - injection E as <- <-. injection Hhost as Hhost. split; [done|]. intros ? [= <-]. constructor; [|done]. apply Hlit; auto.
    - injection E as <- <-. injection Hhost as Hhost. split; [done|]. intros ? [= <-]. constructor; [|done]. apply Hlit; auto.
    - by injection E as <- <-. }
  destruct Hs1 as [El Hr]. destruct a as [addresses|error].
  - unfold bind, note, on_world, modify in H. simpl in H. destruct (send_get _ _ _ (net_world s1)) as [w answer]. injection H as <- <-.
    exists answer. split; [done|]. right. exists addresses. simpl. rewrite El. split; [done|by apply Hr].
  - injection H as <- <-. exists (Err (BoxKernel error)). split; [done|]. by left.
Qed.

Lemma authorize_run claim s s' r : authorize claim s = (s', r) -> net_log s' = net_log s ++ [Authorized claim r].
Proof.
  unfold authorize, bind, on_world, note, lift, modify. destruct (authorize_resource _ _ (net_world s)) as [w [[]|e]]; by intros [= <- <-].
Qed.

Lemma authorize_all_run l s s' r :
  for_each authorize l s = (s', r) ->
  match r with
  | Ok _ => net_log s' = net_log s ++ granted l
  | Err e => exists before claim after, l = before ++ claim :: after /\ net_log s' = net_log s ++ granted before ++ [Authorized claim (Err e)]
  end.
Proof.
  revert s. induction l as [|c l IH]; intros s H; simpl in H; [injection H as <- <-; by rewrite app_nil_r|].
  peel H E; apply authorize_run in E; [|by exists [], c, l].
  destruct a. apply IH in H. destruct r as [[]|e'].
  - rewrite H, E, <- app_assoc. done.
  - destruct H as (before & claim & after & -> & H). exists (c :: before), claim, after. split; [done|]. by rewrite H, E, <- app_assoc.
Qed.

Lemma next_hop_run t to s s' r :
  next_hop t to s = (s', r) ->
  match r with
  | Ok (Ok next) => valid next /\ (is_https t = true -> is_https next = true) /\ net_log s' = net_log s ++ granted (claims next)
  | Ok (Err _) => net_log s' = net_log s
  | Err e => exists next before claim after, valid next /\ claims next = before ++ claim :: after /\
      net_log s' = net_log s ++ granted before ++ [Authorized claim (Err e)]
  end.
Proof.
  unfold next_hop. intros H. destruct (url_join (target_url t) to) as [url|]; [|by injection H as <- <-].
  destruct (String.eqb (url_scheme (target_url t)) "https" && negb (String.eqb (url_scheme url) "https")) eqn:Hdown; [by injection H as <- <-|].
  destruct (validate_url settings url) as [next|e] eqn:Hv; [|by injection H as <- <-].
  assert (Hn := validate_url_valid _ _ Hv). destruct (validate_url_ok _ _ Hv) as [Hu _].
  peel H E; apply authorize_all_run in E.
  - injection H as <- <-. split; [done|]. split; [|done]. unfold is_https. rewrite Hu. intros Hs. rewrite Hs in Hdown. simpl in Hdown.
    by apply negb_false_iff in Hdown.
  - destruct E as (before & claim & after & Hc & E). by exists next, before, claim, after.
Qed.

(** A turn, given what the next one does. *)
Lemma fetch_turn_run again n original t hops budget s s' r :
  valid t ->
  (Z.of_nat (length hops) < max_redirects settings -> exists m, n = S m /\ forall next s s' r,
     valid next -> again next (hops ++ [url_string (target_url next)]) s = (s', r) ->
     r <> Ok None /\ exists l, net_log s' = net_log s ++ l /\ confined m next l) ->
  fetch_turn again original t hops budget s = (s', r) ->
  r <> Ok None /\ exists l, net_log s' = net_log s ++ l /\ confined n t l.
Proof using lookup_literal.
  intros Hv Hagain H. unfold fetch_turn in H. peel H E1; unfold try in E1; destruct (allowed_addresses (target_host t) s) as [s1 a1] eqn:Ea;
    [|done]. injection E1 as <- <-. assert (El1 := proj1 (allowed_addresses_run _ _ _ _ Ea)).
  destruct a1 as [checked|e1]; [|injection H as <- <-; split; [done|]; exists []; rewrite app_nil_r; by split; [|constructor]].
  assert (Hc : snd (allowed_addresses (target_host t) s) = Ok checked) by (by rewrite Ea).
  peel H E2; apply (send_run t budget s _ _ checked _ Hv Hc) in E2 as (answer & Hans & Hlog); [|done]. injection Hans as ->.
  destruct Hlog as [[El2 Hbad]|(addresses & El2 & Hr)]; [destruct answer; [done|]; injection H as <- <-; split; [done|];
    exists []; rewrite app_nil_r, El2; by split; [|constructor]|].
  assert (Hone : exists l, net_log s1 ++ [Fetched (target_url t) addresses] = net_log s ++ l /\ confined n t l).
  { exists [Fetched (target_url t) addresses]. rewrite El1. by split; [|constructor]. }
  destruct answer as [response|error]; [|injection H as <- <-; by rewrite El2].
  destruct (if is_redirection response then location response else None) as [to|].
  2: { peel H E3; injection E3 as <- Hread; [|by rewrite El2]. injection H as <- <-. by rewrite El2. }
  destruct (Z.leb_spec (max_redirects settings) (Z.of_nat (length hops))) as [Hm|Hm]; [injection H as <- <-; by rewrite El2|].
  destruct (Hagain Hm) as (m & -> & Hnext). peel H E3; apply next_hop_run in E3.
  2: { destruct E3 as (next & before & claim & after & Hnv & Hcl & El3). split; [done|].
       exists (Fetched (target_url t) addresses :: granted before ++ [Authorized claim (Err e)]).
       rewrite El3, El2, El1, <- app_assoc. split; [done|]. by apply Confined_denied with next after. }
  destruct a as [next|refused]; [|injection H as <- <-; by rewrite E3, El2].
  destruct E3 as (Hnv & Hdown & El3). apply Hnext in H as [Hne (l & El4 & Hl)]; [|done]. split; [done|].
  exists (Fetched (target_url t) addresses :: granted (claims next) ++ l). rewrite El4, El3, El2, El1, <- !app_assoc. split; [done|].
  by apply Confined_hop.
Qed.

Lemma fetch_loop_run fuel original t hops budget s s' r :
  valid t -> Z.of_nat (length hops) + Z.of_nat fuel = max_redirects settings ->
  fetch_loop (S fuel) original t hops budget s = (s', r) ->
  r <> Ok None /\ exists l, net_log s' = net_log s ++ l /\ confined fuel t l.
Proof using lookup_literal.
  revert t hops s s' r. induction fuel as [|fuel IH]; intros t hops s s' r Hv Hn H; (eapply fetch_turn_run in H; [exact H|done|]); intros Hm.
  - lia.
  - exists fuel. split; [done|]. intros next s1 s2 r2 Hnv H2. eapply IH; [done| |exact H2]. rewrite length_app. simpl. lia.
Qed.

(** C21. A fetch that is left to run ends, and does nothing to the outside but this: it connects to the
    URL it was given and then, at most [max_redirects] times, to one the last answer redirected to.
    Each of these URLs passes the deployment's rules; each connection is to reachable addresses
    only, whatever the name resolves to by then; each redirect is followed only after both its
    claims were granted, and none leaves https. *)
Theorem fetch_is_confined arguments cx now s s' r :
  0 <= max_redirects settings ->
  invoke arguments cx now s = (s', r) ->
  r <> Ok None /\
  (net_log s' = net_log s /\ is_ok r = false \/
   exists raw target l, parse arguments = Ok raw /\ validate settings raw = Ok target /\
     net_log s' = net_log s ++ l /\ confined (Z.to_nat (max_redirects settings)) target l).
Proof using lookup_literal.
  intros Hm H. unfold invoke in H. peel H E1; injection E1 as <- Hp; [|by split; [|left]].
  peel H E2; injection E2 as <- Hval; [|by split; [|left]]. rename a into raw, a0 into target.
  assert (Hv : valid target).
  { unfold validate in Hval. destruct (MAX_URL_BYTES <? str_len raw); [done|]. destruct (url_parse raw); [|done]. by eapply validate_url_valid. }
  unfold fetch, turns in H. apply fetch_loop_run in H as [Hne (l & El & Hl)]; [|done|simpl; lia]. split; [done|]. right. by exists raw, target, l.
Qed.
End Fetch.

(** ** A small web *)

Module Demo.
(** A page that moved, the page it moved to, and a machine of this network. *)
Inductive Page := Old | New | Router.

Definition page_url (p : Page) : string :=
  match p with Old => "https://wiki.example/old" | New => "https://docs.example/new" | Router => "https://10.0.0.1/" end.

#[export] Instance pages : UrlLib Page := {|
  url_parse s := if String.eqb s (page_url Old) then Ok Old else if String.eqb s (page_url Router) then Ok Router else Err "no such page";
  url_scheme _ := "https";
  url_username _ := "";
  url_password _ := None;
  url_host p := match p with Old => Some (Domain "Wiki.example") | New => Some (Domain "docs.example") | Router => Some (HostV4 (V4 10 0 0 1)) end;
  url_port _ := None;
  url_string := page_url;
  url_set_query_none p := p;
  url_set_fragment_none p := p;
  url_join _ to := if String.eqb to "/new" then Some New else None;
|}.

Definition answer (p : Page) : Response :=
  match p with
  | Old => {| status := 301; status_text := "301 Moved Permanently"; location := Some "/new"; content_type := ""; content_length := None; chunks := [] |}
  | _ => {| status := 200; status_text := "200 OK"; location := None; content_type := "text/html; charset=UTF-8"; content_length := None;
            chunks := [Ok "<h1>Guide</h1>"; Ok "<p>Read &amp; learn."] |}
  end.

(** The second name also points at this machine. *)
#[export] Instance web : NetWorld (Url := Page) unit := {|
  lookup_host host w := (w, if String.eqb host "10.0.0.1" then Ok [V4 10 0 0 1] else if String.eqb host "docs.example" then Ok [V4 127 0 0 1; V4 93 184 216 34]
                            else Ok [V4 93 184 216 34]);
  send_get p _ _ w := (w, Ok (answer p));
  authorize_resource _ _ w := (w, Ok tt);
|}.

Definition settings : NetSettings :=
  {| allow_local_addresses := false; allow_http := false; allow_hosts := [".example"; "10.0.0.1"]; deny_hosts := [];
     max_bytes_setting := None; timeout_ms := None; max_redirects_setting := Some 1 |}.

Definition cx : ExecutionContext :=
  {| correlation := "c"; principal := None; deadline := None; cancellation := false; attributes := [] |}.

Definition run (url : string) := invoke settings "web.fetch" "web.fetch" (fun _ => "error") (fun _ => "bad") (VObject [("url", VString url)]) cx 0
  {| net_world := tt; net_log := [] |}.

Lemma literals url address w :
  url_host url = Some (HostV4 address) \/ url_host url = Some (HostV6 address) -> snd (lookup_host (ip_to_string address) w) = Ok [address].
Proof. destruct url; intros [H|H]; try discriminate H. injection H as <-. reflexivity. Qed.

Lemma fetch_is_confined_witness :
  let (s', r) := run (page_url Old) in
  (exists outcome, r = Ok (Some outcome) /\ is_error outcome = false) /\ length (net_log s') = 4%nat /\
  (r <> Ok None /\
   (net_log s' = [] /\ is_ok r = false \/
    exists raw target l, parse "web.fetch" (fun _ => "bad") (VObject [("url", VString (page_url Old))]) = Ok raw /\ validate settings raw = Ok target /\
      net_log s' = [] ++ l /\ confined settings "web.fetch" (Z.to_nat (max_redirects settings)) target l)).
Proof.
  destruct (run (page_url Old)) as [s' r] eqn:E.
  assert (H := fetch_is_confined settings "web.fetch" "web.fetch" (fun _ => "error") (fun _ => "bad") literals _ _ _ _ s' r
    ltac:(by vm_compute) E).
  vm_compute in E. injection E as <- <-. split; [eexists; split; reflexivity|]. split; [reflexivity|exact H].
Defined.

(** An address of this network is refused before anything is sent. *)
Example router_refused : net_log (fst (run (page_url Router))) = [].
Proof. reflexivity. Qed.
End Demo.
