(* ===== verification/AuditTrail.v ===== *)
(** * AuditTrail: the trail of decisions and invocations

    The types of [crates/api/src/audit.rs] and, from [crates/audit/src], the store in memory
    ([store.rs]), the rule of retention ([retention.rs], [settings.rs]) and the task that
    writes the trail down ([sink.rs]).  What the task needs of a store is the class
    [AuditStoreLaws]; the store in memory is one instance, [AuditRedb] is the other. *)

From S2P Require Import Prelude Base Trust Tools.

(** ** Entries and records *)

Record AuditGap := { gap_timestamp : Timestamp; gap_missed : Z }.

Record RetentionApplied := { ra_timestamp : Timestamp; ra_cutoff : Timestamp; ra_removed : Z }.

Inductive AuditEntry :=
  | Authorization (event : AuthorizationDecided)
  | Invocation (event : ToolInvoked)
  | Gap (gap : AuditGap)
  | Retention (applied : RetentionApplied).

Inductive AuditEntryKind := Entry_Authorization | Entry_Invocation | Entry_Gap | Entry_Retention.
#[export] Instance AuditEntryKind_eq_dec : EqDecision AuditEntryKind.
Proof. solve_decision. Defined.

(** [AuditEntryKind::as_str] *)
Definition kind_as_str (self : AuditEntryKind) : string :=
  match self with
  | Entry_Authorization => "authorization"
  | Entry_Invocation => "invocation"
  | Entry_Gap => "gap"
  | Entry_Retention => "retention"
  end.

Definition is_about_the_trail (self : AuditEntryKind) : bool :=
  match self with Entry_Gap | Entry_Retention => true | _ => false end.

Definition entry_kind (self : AuditEntry) : AuditEntryKind :=
  match self with
  | Authorization _ => Entry_Authorization
  | Invocation _ => Entry_Invocation
  | Gap _ => Entry_Gap
  | Retention _ => Entry_Retention
  end.

Definition entry_timestamp (self : AuditEntry) : Timestamp :=
  match self with
  | Authorization event => ad_timestamp event
  | Invocation event => ti_timestamp event
  | Gap gap => gap_timestamp gap
  | Retention applied => ra_timestamp applied
  end.

Definition entry_correlation (self : AuditEntry) : option CorrelationId :=
  match self with
  | Authorization event => Some (ad_correlation event)
  | Invocation event => Some (ti_correlation event)
  | Gap _ | Retention _ => None
  end.

Definition entry_principal (self : AuditEntry) : PrincipalId :=
  match self with
  | Authorization event => ad_principal event
  | Invocation event => ti_principal event
  | Gap _ | Retention _ => Principal_SYSTEM
  end.

Definition entry_principal_kind (self : AuditEntry) : PrincipalKind :=
  match self with
  | Authorization event => ad_principal_kind event
  | Invocation event => ti_principal_kind event
  | Gap _ | Retention _ => System
  end.

Definition entry_on_behalf_of (self : AuditEntry) : option PrincipalId :=
  match self with
  | Authorization event => ad_on_behalf_of event
  | Invocation event => ti_on_behalf_of event
  | Gap _ | Retention _ => None
  end.

Definition entry_tool (self : AuditEntry) : option ToolName :=
  match self with
  | Authorization event => Some (ad_tool event)
  | Invocation event => Some (ti_tool event)
  | Gap _ | Retention _ => None
  end.

Definition entry_resource (self : AuditEntry) : option ResourceId :=
  match self with Authorization event => ad_resource event | _ => None end.

Definition is_refusal (self : AuditEntry) : bool :=
  match self with
  | Authorization event => negb (AuthorizationOutcome_is_allowed (ad_outcome event))
  | Invocation event => match ti_outcome event with InvocationDenied => true | _ => false end
  | Gap _ | Retention _ => false
  end.

Record AuditRecord := { audit_sequence : Z; audit_entry : AuditEntry }.

Definition visible_to (self : AuditRecord) (reader : Principal) : bool :=
  if is_about_the_trail (entry_kind (audit_entry self)) then true
  else may_act_for reader (entry_principal (audit_entry self))
       || bool_decide (entry_on_behalf_of (audit_entry self) = Some (principal_id reader)).

Definition concerns (self : AuditRecord) (principal : PrincipalId) : bool :=
  if is_about_the_trail (entry_kind (audit_entry self)) then true
  else bool_decide (entry_principal (audit_entry self) = principal)
       || bool_decide (entry_on_behalf_of (audit_entry self) = Some principal).

Record AuditQuery := {
  q_principal : option PrincipalId;
  q_correlation : option CorrelationId;
  q_tool : option ToolName;
  q_kinds : list AuditEntryKind;
  q_since : option Timestamp;
  q_until : option Timestamp;
  q_refusals_only : bool;
  q_limit : option Z;
}.

(** A filter the query may leave open. *)
Definition asked {A} (filter : option A) (p : A -> bool) : bool :=
  match filter with Some x => p x | None => true end.

(** [AuditQuery::matches] *)
Definition query_matches (self : AuditQuery) (record : AuditRecord) : bool :=
  let entry := audit_entry record in
  asked (q_principal self) (concerns record)
  && asked (q_correlation self) (fun correlation => bool_decide (entry_correlation entry = Some correlation))
  && asked (q_tool self) (fun tool => bool_decide (entry_tool entry = Some tool))
  && (bool_decide (q_kinds self = []) || bool_decide (entry_kind entry ∈ q_kinds self))
  && asked (q_since self) (fun since => negb (entry_timestamp entry <? since))
  && asked (q_until self) (fun until => negb (until <? entry_timestamp entry))
  && (negb (q_refusals_only self) || is_refusal entry).

(** [query.limit.unwrap_or(usize::MAX)] *)
Definition query_limit (self : AuditQuery) : Z := default u64_max (q_limit self).

(** What a reader is shown of a record. *)
Definition shown (query : AuditQuery) (reader : Principal) (record : AuditRecord) : bool :=
  visible_to record reader && query_matches query record.

(** The answer to a query over a trail, oldest record first: what the reader may see of what was
    asked for, newest first. *)
Definition answer (query : AuditQuery) (reader : Principal) (trail : list AuditRecord) : list AuditRecord :=
  take_Z (query_limit query) (List.filter (shown query reader) (rev trail)).

(** ** The contract of a store *)

Definition out_of_numbers : Error := Error_other "the audit trail has run out of sequence numbers".

(** [u64::checked_add(1)] *)
Definition next_number (issued : Z) : Result Z :=
  if u64_max <? issued + 1 then Err out_of_numbers else Ok (issued + 1).

Class AuditStore (S : Type) := {
  audit_append : AuditEntry -> action S Error Z;
  audit_query : AuditQuery -> ExecutionContext -> action S Error (list AuditRecord);
  audit_last_sequence : action S Error Z;
}.

(** Numbered upwards from one, none above what was given out. *)
Definition numbered (given : Z) (trail : list AuditRecord) : Prop :=
  given <= u64_max /\ StronglySorted Z.lt (map audit_sequence trail) /\
  0 <= given /\ Forall (fun r => 1 <= audit_sequence r <= given) trail.

(** An answer shows nothing it should not, and without a limit leaves nothing out. *)
Definition sound_answer (query : AuditQuery) (reader : Principal) (trail l : list AuditRecord) : Prop :=
  StronglySorted (flip Z.lt) (map audit_sequence l) /\ Z.of_nat (length l) <= Z.max 0 (query_limit query) /\
  (forall r, r ∈ l -> r ∈ trail /\ shown query reader r = true) /\
  (q_limit query = None -> forall r, r ∈ trail -> shown query reader r = true -> r ∈ l).

(** Timestamps are [u64]s. *)
Definition entry_ok (entry : AuditEntry) : Prop := u64_ok (entry_timestamp entry).

(** The trail a store holds, oldest record first, and the last number it gave out. *)
Class AuditStoreLaws (S : Type) `{AuditStore S} := {
  store_ok : S -> Prop;
  held : S -> list AuditRecord;
  given : S -> Z;
  store_numbered s : store_ok s -> numbered (given s) (held s);
  append_law s s' entry r : store_ok s -> entry_ok entry -> audit_append entry s = (s', r) ->
    store_ok s' /\
    match r with
    | Ok sequence => sequence = given s + 1 /\ given s' = sequence /\
                     held s' = held s ++ [{| audit_sequence := sequence; audit_entry := entry |}]
    | Err _ => given s' = given s /\ held s' = held s
    end;
  query_law s s' query cx r : store_ok s -> audit_query query cx s = (s', r) ->
    store_ok s' /\ given s' = given s /\ held s' = held s /\
    match r with Ok l => sound_answer query (principal_or_system cx) (held s) l | Err _ => True end;
  last_law s s' r : store_ok s -> audit_last_sequence s = (s', r) ->
    store_ok s' /\ given s' = given s /\ held s' = held s /\ match r with Ok n => n = given s | Err _ => True end;
}.

(** ** Retention *)

Definition survives_retention (record : AuditRecord) (cutoff : Timestamp) : bool :=
  (cutoff <? entry_timestamp (audit_entry record)) || is_about_the_trail (entry_kind (audit_entry record)).

(** [u64::try_from(retention.as_millis()).unwrap_or(u64::MAX)], taken off the time *)
Definition retention_cutoff (now : Timestamp) (retention : Duration) : Timestamp :=
  sat_sub now (Z.min (as_millis retention) u64_max).

(** [AuditSettings] *)
Record AuditSettings := { retention_days : option Z; sweep_interval_seconds : option Z }.

Definition from_secs (s : Z) : Duration := s * 1000000000.

Definition AuditSettings_retention (self : AuditSettings) (section : string) : Result (option Duration) :=
  match retention_days self with
  | None => Ok None
  | Some days =>
      if days =? 0
      then Err (Config ("components." +:+ section +:+ ".retention_days")
                  ("a retention period of zero days would discard the audit trail as fast as it "
                   +:+ "is written; remove the audit component instead of configuring this"))
      else Ok (Some (from_secs (days * 24 * 60 * 60)))
  end.

Definition AuditSettings_sweep_interval (self : AuditSettings) (section : string) : Result (option Duration) :=
  match sweep_interval_seconds self with
  | None => Ok None
  | Some seconds =>
      if seconds =? 0
      then Err (Config ("components." +:+ section +:+ ".sweep_interval_seconds")
                  "a sweep interval of zero seconds would never yield the database's write slot")
      else Ok (Some (from_secs seconds))
  end.

(** ** The store in memory *)

(** [InMemoryAuditStore] *)
Record InMemoryAuditStore := { memory_records : list AuditRecord; memory_issued : Z }.

Definition InMemoryAuditStore_new : InMemoryAuditStore := {| memory_records := []; memory_issued := 0 |}.

Definition memory_append (entry : AuditEntry) : action InMemoryAuditStore Error Z := fun s =>
  match next_number (memory_issued s) with
  | Ok sequence =>
      ({| memory_records := memory_records s ++ [{| audit_sequence := sequence; audit_entry := entry |}];
          memory_issued := sequence |}, Ok sequence)
  | Err e => (s, Err e)
  end.

Definition memory_query (query : AuditQuery) (cx : ExecutionContext) : action InMemoryAuditStore Error (list AuditRecord) :=
  let reader := principal_or_system cx in
  let! records := gets memory_records in
  ret (take_Z (query_limit query)
         (List.filter (query_matches query) (List.filter (fun record => visible_to record reader) (rev records)))).

Definition memory_last_sequence : action InMemoryAuditStore Error Z := gets memory_issued.

#[export] Instance InMemoryAuditStore_store : AuditStore InMemoryAuditStore :=
  {| audit_append := memory_append; audit_query := memory_query; audit_last_sequence := memory_last_sequence |}.

(** [sweep_older_than]: the lock is let go of between the sweep and the record of it. *)
Definition memory_retain (cutoff : Timestamp) : action InMemoryAuditStore Error nat := fun s =>
  let kept := List.filter (fun record => survives_retention record cutoff) (memory_records s) in
  ({| memory_records := kept; memory_issued := memory_issued s |}, Ok (length (memory_records s) - length kept)%nat).

Definition memory_sweep_older_than (cutoff now : Timestamp) : action InMemoryAuditStore Error nat :=
  let! removed := memory_retain cutoff in
  (if (0 <? removed)%nat
   then memory_append (Retention {| ra_timestamp := now; ra_cutoff := cutoff; ra_removed := Z.of_nat removed |}) ;! ret tt
   else ret tt) ;!
  ret removed.

Definition memory_count_older_than (cutoff : Timestamp) : action InMemoryAuditStore Error nat :=
  gets (fun s => length (List.filter (fun record => negb (survives_retention record cutoff)) (memory_records s))).

(** ** The sink *)

Inductive RecvError := Lagged (count : Z) | Closed.

(** What a subscription hands over, and the time at which it is taken. *)
Record Delivery := { received : result RecvError AuditEvent; taken_at : Timestamp }.

(** [AuditEntry::Authorization] and [AuditEntry::Invocation], by the stream the event came on *)
Definition into_entry (event : AuditEvent) : AuditEntry :=
  match event with DecisionEvent event => Authorization event | InvocationEvent event => Invocation event end.

Section Sink.
  Context {S : Type} `{AuditStore S}.

(** The counters are [AtomicU64]s: [fetch_add] wraps. *)
Record AuditSink := { sink_store : S; sink_failures : Z; sink_missed : Z }.

Definition AuditSink_new (store : S) : AuditSink := {| sink_store := store; sink_failures := 0; sink_missed := 0 |}.

Definition sink_record (entry : AuditEntry) (self : AuditSink) : AuditSink :=
  match audit_append entry (sink_store self) with
  | (s, Ok _) => {| sink_store := s; sink_failures := sink_failures self; sink_missed := sink_missed self |}
  | (s, Err _) => {| sink_store := s; sink_failures := wrap64 (sink_failures self + 1); sink_missed := sink_missed self |}
  end.

Definition record_gap (missed : Z) (now : Timestamp) (self : AuditSink) : AuditSink :=
  sink_record (Gap {| gap_timestamp := now; gap_missed := missed |})
    {| sink_store := sink_store self; sink_failures := sink_failures self; sink_missed := wrap64 (sink_missed self + missed) |}.

(** [accept]: whether the stream may still yield. *)
Definition accept (d : Delivery) (self : AuditSink) : AuditSink * bool :=
  match received d with
  | Ok event => (sink_record (into_entry event) self, true)
  | Err (Lagged count) => (record_gap count (taken_at d) self, true)
  | Err Closed => (self, false)
  end.

(** A loop over what arrives: it stops at a closed stream, or when nothing more is there. *)
Fixpoint accept_all (l : list Delivery) (self : AuditSink) : AuditSink :=
  match l with
  | [] => self
  | d :: l => let (self, more) := accept d self in if more then accept_all l self else self
  end.

(** [drain]: what each stream holds when the task was cancelled. *)
Definition drain (decisions invocations : list Delivery) (self : AuditSink) : AuditSink :=
  accept_all invocations (accept_all decisions self).

(** [spawn_audit_task]: [arrived] is what the two streams delivered, in the order [select!] took
    it, up to the cancellation; then what is left is drained. *)
Definition audit_task (arrived decisions invocations : list Delivery) (self : AuditSink) : AuditSink :=
  drain decisions invocations (accept_all arrived self).
End Sink.
Arguments AuditSink : clear implicits.

(** ** Answers *)

Lemma answer_query_limit query reader trail :
  answer query reader trail = take (Z.to_nat (query_limit query)) (List.filter (shown query reader) (rev trail)).
Proof. apply take_Z_take. Qed.

Lemma filter_filter {A} (f g : A -> bool) l : List.filter f (List.filter g l) = List.filter (fun x => g x && f x) l.
Proof. induction l as [|x l IH]; simpl; [done|]. destruct (g x); simpl; [destruct (f x); by rewrite IH|done]. Qed.

Lemma StronglySorted_rev {A} (R : relation A) l : StronglySorted R l -> StronglySorted (flip R) (rev l).
Proof.
  induction 1 as [|x l _ IH Hx]; simpl; [constructor|]. apply StronglySorted_snoc; [done|].
  apply Forall_rev. exact Hx.
Qed.

Lemma StronglySorted_map {A B} (f : A -> B) (R : relation B) l :
  StronglySorted R (map f l) <-> StronglySorted (fun x y => R (f x) (f y)) l.
Proof.
  induction l as [|x l IH]; simpl; [split; constructor|].
  split; intros [Hs Hx]%StronglySorted_inv; (constructor; [by apply IH|]).
  - exact (proj1 (List.Forall_map _ _ _) Hx).
  - exact (proj2 (List.Forall_map _ _ _) Hx).
Qed.

Lemma numbered_length given trail : numbered given trail -> Z.of_nat (length trail) <= given.
Proof.
  intros (_ & Hs & Hg & Hf).
  assert (Forall (fun n => 1 <= n <= given) (map audit_sequence trail)) as Hb by (by apply List.Forall_map).
  rewrite <- (length_map audit_sequence). generalize dependent (map audit_sequence trail). clear Hf. intros l Hs Hb.
  enough (forall lo, lo <= given -> Forall (fun n => lo < n <= given) l -> Z.of_nat (length l) <= given - lo) as H.
  { specialize (H 0 Hg). rewrite Z.sub_0_r in H. apply H. eapply Forall_impl; [exact Hb|]. simpl. lia. }
  clear Hb Hg. induction Hs as [|x l _ IH Hx]; intros lo Hlo Hl; simpl; [lia|].
  apply Forall_cons in Hl as [Hlx Hl]. assert (Z.of_nat (length l) <= given - x); [|lia].
  apply IH; [lia|]. apply Forall_forall. intros y Hy. rewrite Forall_forall in Hl, Hx.
  specialize (Hl y Hy). specialize (Hx y Hy). lia.
Qed.

Lemma numbered_newest_first given trail (f : AuditRecord -> bool) :
  numbered given trail -> StronglySorted (flip Z.lt) (map audit_sequence (List.filter f (rev trail))).
Proof.
  intros (_ & Hs & _). apply StronglySorted_map. eapply StronglySorted_sublist; [apply filter_sublist|].
  apply (StronglySorted_map audit_sequence), StronglySorted_rev in Hs. exact Hs.
Qed.

Lemma numbered_snoc given trail entry :
  numbered given trail -> given + 1 <= u64_max -> numbered (given + 1) (trail ++ [{| audit_sequence := given + 1; audit_entry := entry |}]).
Proof.
  intros (Hm & Hs & Hg & Hf) Hmax. split_and!; [done| |lia|].
  - rewrite map_app. apply StronglySorted_snoc; [done|]. apply List.Forall_map. eapply Forall_impl; [exact Hf|]. simpl. lia.
  - apply Forall_app. split; [|repeat constructor; simpl; lia]. eapply Forall_impl; [exact Hf|]. simpl. lia.
Qed.

Lemma numbered_sublist given trail l : l `sublist_of` trail -> numbered given trail -> numbered given l.
Proof.
  intros Hl (Hm & Hs & Hg & Hf). split_and!; [done| |done|by eapply Forall_sublist].
  eapply StronglySorted_sublist; [|exact Hs]. by apply fmap_sublist.
Qed.

(** The answer is a sound one. *)
Lemma answer_sound given trail query reader : numbered given trail -> sound_answer query reader trail (answer query reader trail).
Proof.
  intros Hn. unfold sound_answer. rewrite answer_query_limit. set (n := Z.to_nat _). split_and!.
  - eapply StronglySorted_sublist; [|by eapply (numbered_newest_first _ _ (shown query reader))].
    apply (fmap_sublist audit_sequence), sublist_take.
  - rewrite length_take. lia.
  - intros r [Hr Hs]%subseteq_take%list_elem_of_In%filter_In.
    rewrite <- in_rev in Hr. by apply list_elem_of_In in Hr.
  - intros Hnone r Hr Hs. unfold n, query_limit. rewrite Hnone. simpl. rewrite take_ge.
    + apply list_elem_of_In, filter_In. split; [|done]. rewrite <- in_rev. by apply list_elem_of_In.
    + pose proof (numbered_length _ _ Hn) as Hlen. destruct Hn as (Hm & _).
      pose proof (sublist_length _ _ (filter_sublist (shown query reader) (rev trail))) as Hf. rewrite length_rev in Hf. lia.
Qed.

(** ** The store in memory keeps the contract *)

Lemma next_number_spec issued :
  next_number issued = if decide (issued + 1 <= u64_max) then Ok (issued + 1) else Err out_of_numbers.
Proof. unfold next_number. case_decide; destruct (Z.ltb_spec u64_max (issued + 1)); done || lia. Qed.

Lemma memory_query_answers query cx s :
  memory_query query cx s = (s, Ok (answer query (principal_or_system cx) (memory_records s))).
Proof. unfold memory_query, bind, gets, ret, answer. by rewrite filter_filter. Qed.

#[export] Program Instance InMemoryAuditStore_laws : AuditStoreLaws InMemoryAuditStore :=
  {| store_ok s := numbered (memory_issued s) (memory_records s); held := memory_records; given := memory_issued |}.
Next Obligation. done. Qed.
Next Obligation.
  intros s s' entry r Hs _. cbn. unfold memory_append. rewrite next_number_spec. case_decide; intros [= <- <-]; simpl; [|done].
  split; [by apply numbered_snoc|done].
Qed.
Next Obligation.
  intros s s' query cx r Hs H. change (memory_query query cx s = (s', r)) in H.
  rewrite memory_query_answers in H. injection H as <- <-. split; [done|]. split; [done|]. split; [done|].
  exact (answer_sound _ _ _ _ Hs).
Qed.
Next Obligation. intros s s' r Hs [= <- <-]. done. Qed.

(** ** The sink accounts for every event *)

(** What a stream gives rise to, up to its close: an entry for each event and each lag. *)
Fixpoint until_closed (l : list Delivery) : list Delivery :=
  match l with
  | [] => []
  | d :: l => match received d with Err Closed => [] | _ => d :: until_closed l end
  end.

Definition entries_of (l : list Delivery) : list AuditEntry :=
  omap (fun d => match received d with
    | Ok event => Some (into_entry event)
    | Err (Lagged count) => Some (Gap {| gap_timestamp := taken_at d; gap_missed := count |})
    | Err Closed => None end) (until_closed l).

Definition missed_of (l : list Delivery) : Z :=
  sum_Z (map (fun d => match received d with Err (Lagged count) => count | _ => 0 end) (until_closed l)).

Section SinkLaws.
  Context {S : Type} `{AuditStoreLaws S}.

(** Of [entries], those not recorded are counted; the recorded ones follow the trail in order,
    numbered without a break. *)
Record accounted (entries : list AuditEntry) (missed : Z) (before after : AuditSink S) (recorded : list AuditRecord) : Prop := {
  acc_ok : store_ok (sink_store after);
  acc_held : held (sink_store after) = held (sink_store before) ++ recorded;
  acc_entries : map audit_entry recorded `sublist_of` entries;
  acc_numbers : map audit_sequence recorded = seqZ (given (sink_store before) + 1) (Z.of_nat (length recorded));
  acc_given : given (sink_store after) = given (sink_store before) + Z.of_nat (length recorded);
  acc_failures : sink_failures after = wrap64 (sink_failures before + (Z.of_nat (length entries) - Z.of_nat (length recorded)));
  acc_missed : sink_missed after = wrap64 (sink_missed before + missed);
}.

Definition sink_ok (self : AuditSink S) : Prop :=
  store_ok (sink_store self) /\ u64_ok (sink_failures self) /\ u64_ok (sink_missed self).

Lemma accounted_ok es m a b rs : accounted es m a b rs -> sink_ok b.
Proof. intros [? _ _ _ _ Hf Hm]. unfold sink_ok. rewrite Hf, Hm. split_and!; [done|apply wrap64_ok..]. Qed.

Lemma accounted_nil a : sink_ok a -> accounted [] 0 a a [].
Proof. intros (? & ? & ?). split; simpl; rewrite ?app_nil_r, ?Z.add_0_r, ?Z.sub_0_r, ?Z.add_0_r, ?wrap64_small by done; done. Qed.

Lemma wrap64_add a b : wrap64 (wrap64 a + b) = wrap64 (a + b).
Proof. unfold wrap64. by rewrite Zplus_mod_idemp_l. Qed.

Lemma accounted_app es1 es2 m1 m2 a b c rs1 rs2 :
  accounted es1 m1 a b rs1 -> accounted es2 m2 b c rs2 -> accounted (es1 ++ es2) (m1 + m2) a c (rs1 ++ rs2).
Proof.
  intros [Ho1 Hh1 He1 Hn1 Hg1 Hf1 Hm1] [Ho2 Hh2 He2 Hn2 Hg2 Hf2 Hm2]. split.
  - done.
  - by rewrite Hh2, Hh1, app_assoc.
  - rewrite map_app. by apply sublist_app.
  - rewrite map_app, Hn1, Hn2, Hg1, length_app, Nat2Z.inj_add, seqZ_app by lia. do 2 f_equal. lia.
  - rewrite Hg2, Hg1, length_app. lia.
  - rewrite Hf2, Hf1, wrap64_add, !length_app. f_equal. lia.
  - rewrite Hm2, Hm1, wrap64_add. f_equal. lia.
Qed.

Lemma sink_record_accounted entry a : sink_ok a -> entry_ok entry -> exists rs, accounted [entry] 0 a (sink_record entry a) rs.
Proof.
  intros (Ho & Hf & Hm) He. unfold sink_record. destruct (audit_append entry (sink_store a)) as [s [n|e]] eqn:E;
    apply append_law in E as [Ho' E]; try done.
  - destruct E as (-> & Hg & Hh). eexists. split; simpl; [done|exact Hh|..]; simpl.
    + done.
    + by rewrite seqZ_cons, seqZ_nil by lia.
    + lia.
    + by rewrite Z.sub_diag, Z.add_0_r, wrap64_small.
    + by rewrite Z.add_0_r, wrap64_small.
  - destruct E as (Hg & Hh). exists []. split; simpl; [done|by rewrite app_nil_r|apply sublist_nil_l|done|lia|done|].
    by rewrite Z.add_0_r, wrap64_small.
Qed.

Lemma accept_all_accounted l : Forall entry_ok (entries_of l) -> forall a, sink_ok a ->
  exists rs, accounted (entries_of l) (missed_of l) a (accept_all l a) rs.
Proof.
  induction l as [|d l IH]; intros Hl a Ha; [by exists []; apply accounted_nil|]. revert Hl. simpl. unfold entries_of, missed_of. simpl. unfold accept.
  destruct (received d) as [event|[count|]] eqn:E; simpl; [| |by exists []; apply accounted_nil]; rewrite E; intros [He Hl]%Forall_cons.
  - destruct (sink_record_accounted (into_entry event) a Ha He) as [rs1 H1].
    destruct (IH Hl _ (accounted_ok _ _ _ _ _ H1)) as [rs2 H2]. exists (rs1 ++ rs2). exact (accounted_app _ _ _ _ _ _ _ _ _ H1 H2).
  - unfold record_gap. set (g := Gap _). set (a' := Build_AuditSink _ _ _).
    assert (Ha' : sink_ok a') by (destruct Ha as (? & ? & ?); split_and!; [done..|apply wrap64_ok]).
    destruct (sink_record_accounted g a' Ha' He) as [rs1 H1].
    assert (H1' : accounted [g] count a (sink_record g a') rs1).
    { destruct H1 as [? ? ? ? ? ? Hm1]. split; [done..|]. rewrite Hm1. simpl. by rewrite Z.add_0_r, wrap64_small by apply wrap64_ok. }
    destruct (IH Hl _ (accounted_ok _ _ _ _ _ H1)) as [rs2 H2]. exists (rs1 ++ rs2). exact (accounted_app _ _ _ _ _ _ _ _ _ H1' H2).
Qed.

(** no event is lost without trace: whatever the two subscriptions deliver before the task is
    cancelled and hold when it drains them, every event and every lag up to each stream's close
    is either appended to the trail - in the order it was taken, numbered without a break - or
    counted as a failure, and every event a lag skipped is counted as missed. *)
Theorem sink_accounts_for_every_event (s : S) (arrived decisions invocations : list Delivery) :
  store_ok s -> Forall entry_ok (entries_of arrived ++ entries_of decisions ++ entries_of invocations) ->
  exists recorded, accounted (entries_of arrived ++ entries_of decisions ++ entries_of invocations)
                     (missed_of arrived + (missed_of decisions + missed_of invocations))
                     (AuditSink_new s) (audit_task arrived decisions invocations (AuditSink_new s)) recorded.
Proof.
  rewrite !Forall_app. intros Hs (Ht1 & Ht2 & Ht3). unfold audit_task, drain.
  assert (Hnew : sink_ok (AuditSink_new s)) by (split_and!; [done|unfold u64_ok; simpl; unfold u64_max; lia..]).
  destruct (accept_all_accounted arrived Ht1 _ Hnew) as [r1 H1]. set (s1 := accept_all arrived _) in *.
  destruct (accept_all_accounted decisions Ht2 s1 (accounted_ok _ _ _ _ _ H1)) as [r2 H2]. set (s2 := accept_all decisions s1) in *.
  destruct (accept_all_accounted invocations Ht3 s2 (accounted_ok _ _ _ _ _ H2)) as [r3 H3].
  exists (r1 ++ r2 ++ r3). by eapply accounted_app; [|eapply accounted_app].
Qed.
End SinkLaws.

(** A sink over a store in memory that hears of two calls, falls three behind, and is cancelled. *)
Definition a_call (who : PrincipalId) (at_ : Timestamp) (outcome : InvocationOutcome) : ToolInvoked :=
  {| ti_correlation := "c"; ti_timestamp := at_; ti_tool := "fs.read"; ti_principal := who; ti_principal_kind := User;
     ti_on_behalf_of := None; ti_output_trust := None; ti_duration_ms := 0; ti_authorization_duration_ms := None;
     ti_execution_duration_ms := None; ti_outcome := outcome |}.

Definition some_deliveries : list Delivery :=
  [{| received := Ok (InvocationEvent (a_call "alice" 5 Succeeded)); taken_at := 6 |};
   {| received := Err (Lagged 3); taken_at := 7 |}].
Definition some_left : list Delivery :=
  [{| received := Ok (InvocationEvent (a_call "bob" 8 InvocationDenied)); taken_at := 9 |};
   {| received := Err Closed; taken_at := 9 |};
   {| received := Ok (InvocationEvent (a_call "bob" 10 Succeeded)); taken_at := 10 |}].

Lemma sink_accounts_for_every_event_witness :
  let after := audit_task some_deliveries [] some_left (AuditSink_new InMemoryAuditStore_new) in
  map audit_sequence (memory_records (sink_store after)) = [1; 2; 3] /\ sink_missed after = 3 /\
  exists recorded, accounted (entries_of some_deliveries ++ entries_of [] ++ entries_of some_left)
    (missed_of some_deliveries + (missed_of [] + missed_of some_left)) (AuditSink_new InMemoryAuditStore_new) after recorded.
Proof.
  split; [reflexivity|]. split; [reflexivity|]. apply sink_accounts_for_every_event.
  - split; [done|]. split; [constructor|]. split; [done|constructor].
  - by repeat constructor.
Defined.

(** ** Retention in memory *)

Definition stale (cutoff : Timestamp) (record : AuditRecord) : bool := negb (survives_retention record cutoff).

Lemma filter_split_length {A} (f : A -> bool) l :
  (length l - length (List.filter f l))%nat = length (List.filter (fun x => negb (f x)) l).
Proof.
  induction l as [|x l IH]; [done|]. pose proof (sublist_length _ _ (filter_sublist f l)).
  simpl. destruct (f x); simpl; lia.
Qed.

(** A sweep keeps what is young enough or about the trail, in order, and says how much it took. *)
Theorem memory_sweep_correct cutoff now s s' r :
  store_ok s -> memory_sweep_older_than cutoff now s = (s', r) ->
  let survivors := List.filter (fun record => survives_retention record cutoff) (memory_records s) in
  let removed := length (List.filter (stale cutoff) (memory_records s)) in
  store_ok s' /\
  match r with
  | Ok n => n = removed /\
      memory_records s' = survivors ++ (if (0 <? removed)%nat
        then [{| audit_sequence := memory_issued s + 1;
                 audit_entry := Retention {| ra_timestamp := now; ra_cutoff := cutoff; ra_removed := Z.of_nat removed |} |}]
        else [])
  | Err e => e = out_of_numbers /\ memory_issued s = u64_max /\ memory_records s' = survivors
  end.
Proof.
  intros Hs H survivors removed. unfold memory_sweep_older_than in H. peel H E; [|done]. unfold memory_retain in E. injection E as <- Hn.
  rewrite filter_split_length in Hn. fold (stale cutoff) in Hn. change (removed = a) in Hn. subst a. fold survivors in H.
  assert (Hs1 : numbered (memory_issued s) survivors) by (eapply numbered_sublist; [apply filter_sublist|exact Hs]).
  destruct (0 <? removed)%nat eqn:Hr.
  - unfold bind, memory_append in H. cbn [memory_issued memory_records] in H. rewrite next_number_spec in H.
    case_decide; injection H as <- <-.
    + split; [by apply numbered_snoc|done].
    + split; [done|]. split_and!; [done| |done]. destruct Hs as (? & _). lia.
  - injection H as <- <-. split; [done|]. by rewrite app_nil_r.
Qed.
