(* ===== verification/AuditRedb.v ===== *)
(** * AuditRedb: the audit trail kept on disk

    [crates/audit/src/persistent.rs]: the trail as five tables of an embedded database - the
    records, three indexes over them and the counter - each operation a transaction of [Store].
    A row is the entry its bytes decode to. *)

From S2P Require Import Prelude Base Trust Tools AuditTrail Store.

(** ** Tables *)

(** [RECORDS], [BY_TIME], [BY_PRINCIPAL], [BY_CORRELATION], and the counter in [META]. *)
Record AuditTables := {
  AUDIT_RECORDS : gmap Z AuditEntry;
  BY_TIME : gset (Z * Z);
  BY_PRINCIPAL : gset (PrincipalId * Z);
  BY_CORRELATION : gset (Z * Z);
  NEXT_SEQUENCE : option Z;
}.

Definition set_audit_records f t := {| AUDIT_RECORDS := f (AUDIT_RECORDS t); BY_TIME := BY_TIME t;
  BY_PRINCIPAL := BY_PRINCIPAL t; BY_CORRELATION := BY_CORRELATION t; NEXT_SEQUENCE := NEXT_SEQUENCE t |}.
Definition set_by_time f t := {| AUDIT_RECORDS := AUDIT_RECORDS t; BY_TIME := f (BY_TIME t);
  BY_PRINCIPAL := BY_PRINCIPAL t; BY_CORRELATION := BY_CORRELATION t; NEXT_SEQUENCE := NEXT_SEQUENCE t |}.
Definition set_by_principal f t := {| AUDIT_RECORDS := AUDIT_RECORDS t; BY_TIME := BY_TIME t;
  BY_PRINCIPAL := f (BY_PRINCIPAL t); BY_CORRELATION := BY_CORRELATION t; NEXT_SEQUENCE := NEXT_SEQUENCE t |}.
Definition set_by_correlation f t := {| AUDIT_RECORDS := AUDIT_RECORDS t; BY_TIME := BY_TIME t;
  BY_PRINCIPAL := BY_PRINCIPAL t; BY_CORRELATION := f (BY_CORRELATION t); NEXT_SEQUENCE := NEXT_SEQUENCE t |}.
Definition set_next_sequence n t := {| AUDIT_RECORDS := AUDIT_RECORDS t; BY_TIME := BY_TIME t;
  BY_PRINCIPAL := BY_PRINCIPAL t; BY_CORRELATION := BY_CORRELATION t; NEXT_SEQUENCE := Some n |}.

Definition no_audit_tables : AuditTables :=
  {| AUDIT_RECORDS := ∅; BY_TIME := ∅; BY_PRINCIPAL := ∅; BY_CORRELATION := ∅; NEXT_SEQUENCE := None |}.

(** [index.range((key, 0)..=(key, u64::MAX))]: the numbers under a key, in order. *)
Definition range_of {K} `{Countable K} (key : K) (index : gset (K * Z)) : list Z :=
  merge_sort Z.le (omap (fun p => if decide (fst p = key) then Some (snd p) else None) (elements index)).

(** [by_time.range((since, 0)..=(until, u64::MAX))]: in order of time, then of number. *)
Definition time_le (a b : Z * Z) : Prop := fst a < fst b \/ (fst a = fst b /\ snd a <= snd b).
#[export] Instance time_le_dec : RelDecision time_le.
Proof. intros a b. unfold time_le. apply _. Defined.

Definition time_range (since until : Timestamp) (index : gset (Z * Z)) : list (Z * Z) :=
  merge_sort time_le (filter (fun p => since <= fst p <= until) (elements index)).

(** [indexed_principals]: the actor, and whom it acted for. *)
Definition indexed_principals (entry : AuditEntry) : list PrincipalId :=
  entry_principal entry ::
  match entry_on_behalf_of entry with
  | Some delegator => if decide (delegator = entry_principal entry) then [] else [delegator]
  | None => []
  end.

Definition NO_CORRELATION : Z := 0.

(** [scanned_principals] *)
Definition scanned_principals (principal : PrincipalId) : list PrincipalId :=
  if decide (principal = Principal_SYSTEM) then [Principal_SYSTEM] else [principal; Principal_SYSTEM].

(** ** Operations *)

Abbreviation M := (action (Db AuditTables) Error).

Definition open_audit (what : string) : M unit := io ("opening the audit " +:+ what +:+ " table").

Section Redb.
  (** [CorrelationId::as_uuid().as_u128()] *)
  Context (as_u128 : CorrelationId -> Z).

Definition correlation_key (entry : AuditEntry) : Z :=
  match entry_correlation entry with Some correlation => as_u128 correlation | None => NO_CORRELATION end.

Definition create_tables : M unit :=
  write_transaction "beginning the audit schema transaction" "committing the audit schema" (
    open_audit "record" ;! open_audit "time index" ;! open_audit "principal index" ;!
    open_audit "correlation index" ;! open_audit "sequence" ;!
    ret (Committing tt)).

Definition issued_sequence : M Z :=
  open_audit "sequence" ;!
  io "reading the audit sequence counter" ;!
  reads (fun t => default 0 (NEXT_SEQUENCE t)).

(** Inside the caller's transaction. *)
Definition append_blocking (entry : AuditEntry) : M Z :=
  let! issued := issued_sequence in
  let! sequence := lift (next_number issued) in
  open_audit "record" ;!
  io "writing an audit record" ;!
  writes (set_audit_records <[sequence := entry]>) ;!
  open_audit "time index" ;!
  io "updating the audit time index" ;!
  writes (set_by_time (fun s => {[(entry_timestamp entry, sequence)]} ∪ s)) ;!
  open_audit "principal index" ;!
  for_each (fun principal =>
    io "updating the audit principal index" ;!
    writes (set_by_principal (fun s => {[(principal, sequence)]} ∪ s))) (indexed_principals entry) ;!
  open_audit "correlation index" ;!
  io "updating the audit correlation index" ;!
  writes (set_by_correlation (fun s => {[(correlation_key entry, sequence)]} ∪ s)) ;!
  open_audit "sequence" ;!
  io "recording the audit sequence counter" ;!
  writes (set_next_sequence sequence) ;!
  ret sequence.

Definition redb_append (entry : AuditEntry) : M Z :=
  write_transaction "beginning an audit append" "committing an audit append" (
    let! sequence := append_blocking entry in ret (Committing sequence)).

Definition dangling (index : string) (sequence : Z) : Error :=
  Error_other (index +:+ " names audit record " +:+ fmt_u sequence +:+ ", but no record is stored under that "
               +:+ "sequence number").

Definition read_record (sequence : Z) (index : string) : M AuditRecord :=
  io "reading an audit record" ;!
  let! value := reads (fun t => AUDIT_RECORDS t !! sequence) in
  match value with
  | Some entry => ret {| audit_sequence := sequence; audit_entry := entry |}
  | None => throw (dangling index sequence)
  end.

(** [collect_second], over the range read backwards *)
Fixpoint collect_second (index : string) (query : AuditQuery) (reader : Principal) (limit : Z) (rows : list Z)
    (kept : list Z) : M (list Z) :=
  match rows with
  | [] => ret kept
  | sequence :: rows =>
      io ("reading " +:+ index) ;!
      let! record := read_record sequence index in
      if visible_to record reader && query_matches query record then
        let kept := kept ++ [sequence] in
        if limit <=? Z.of_nat (length kept) then ret kept
        else collect_second index query reader limit rows kept
      else collect_second index query reader limit rows kept
  end.

Fixpoint collect_principals (query : AuditQuery) (reader : Principal) (limit : Z) (names : list PrincipalId) : M (list Z) :=
  match names with
  | [] => ret []
  | name :: names =>
      io "scanning the audit principal index" ;!
      let! rows := reads (fun t => rev (range_of name (BY_PRINCIPAL t))) in
      let! found := collect_second "the audit principal index" query reader limit rows [] in
      let! rest := collect_principals query reader limit names in
      ret (found ++ rest)
  end.

Fixpoint read_all (sequences : list Z) : M (list AuditRecord) :=
  match sequences with
  | [] => ret []
  | sequence :: sequences =>
      let! record := read_record sequence "a query" in
      let! rest := read_all sequences in
      ret (record :: rest)
  end.

Definition query_blocking (query : AuditQuery) (reader : Principal) : M (list AuditRecord) :=
  io "beginning an audit query" ;!
  open_audit "record" ;!
  let limit := query_limit query in
  let! sequences :=
    match q_correlation query, q_principal query with
    | Some correlation, _ =>
        open_audit "correlation index" ;!
        io "scanning the audit correlation index" ;!
        let! rows := reads (fun t => rev (range_of (as_u128 correlation) (BY_CORRELATION t))) in
        collect_second "the audit correlation index" query reader limit rows []
    | None, Some principal =>
        open_audit "principal index" ;!
        collect_principals query reader limit (scanned_principals principal)
    | None, None =>
        open_audit "time index" ;!
        io "scanning the audit time index" ;!
        let! rows := reads (fun t =>
          rev (map snd (time_range (default 0 (q_since query)) (default u64_max (q_until query)) (BY_TIME t)))) in
        collect_second "the audit time index" query reader limit rows []
    end in
  let sequences := take_Z limit (dedup (merge_sort Z.ge sequences)) in
  read_all sequences.

Definition redb_query (query : AuditQuery) (cx : ExecutionContext) : M (list AuditRecord) :=
  query_blocking query (principal_or_system cx).

Definition redb_last_sequence : M Z :=
  io "beginning an audit read" ;!
  open_audit "sequence" ;!
  io "reading the audit sequence counter" ;!
  reads (fun t => default 0 (NEXT_SEQUENCE t)).

(** ** Retention *)

(** The first [limit] rows that go, of those the index lists. *)
Fixpoint collect_due (cutoff : Timestamp) (limit : nat) (rows due : list (Z * Z)) : M (list (Z * Z)) :=
  match rows with
  | [] => ret due
  | (timestamp, sequence) :: rows =>
      io "reading the audit time index" ;!
      let! record := read_record sequence "the audit time index" in
      if survives_retention record cutoff then collect_due cutoff limit rows due
      else
        let due := due ++ [(timestamp, sequence)] in
        if (limit <=? length due)%nat then ret due else collect_due cutoff limit rows due
  end.

Definition dangling_time (timestamp sequence : Z) : Error :=
  Error_other ("the audit time index names record " +:+ fmt_u sequence +:+ " at " +:+ fmt_u timestamp
               +:+ "ms, but no record is stored under that sequence number").

Definition remove_due (p : Z * Z) : M unit :=
  let (timestamp, sequence) := p in
  io "removing an audit record" ;!
  let! value := reads (fun t => AUDIT_RECORDS t !! sequence) in
  writes (set_audit_records (delete sequence)) ;!
  match value with
  | None => throw (dangling_time timestamp sequence)
  | Some entry =>
      io "removing an audit time index entry" ;!
      writes (set_by_time (fun s => s ∖ {[(timestamp, sequence)]})) ;!
      for_each (fun principal =>
        io "removing an audit principal index entry" ;!
        writes (set_by_principal (fun s => s ∖ {[(principal, sequence)]}))) (indexed_principals entry) ;!
      io "removing an audit correlation index entry" ;!
      writes (set_by_correlation (fun s => s ∖ {[(correlation_key entry, sequence)]}))
  end.

Definition sweep_batch_blocking (cutoff : Timestamp) (limit : nat) (now : Timestamp) : M nat :=
  write_transaction "beginning an audit sweep" "committing an audit sweep" (
    open_audit "record" ;!
    open_audit "time index" ;!
    io "scanning the audit time index" ;!
    let! rows := reads (fun t => time_range 0 cutoff (BY_TIME t)) in
    let! due := collect_due cutoff limit rows [] in
    match due with
    | [] => ret (Dropping 0%nat)
    | _ =>
        let removed := length due in
        open_audit "record" ;! open_audit "time index" ;! open_audit "principal index" ;! open_audit "correlation index" ;!
        for_each remove_due due ;!
        append_blocking (Retention {| ra_timestamp := now; ra_cutoff := cutoff; ra_removed := Z.of_nat removed |}) ;!
        ret (Committing removed)
    end).

(** The loop over batches, and the clock at the start of each; [None] is running out of turns. *)
Fixpoint sweep_loop (fuel : nat) (cutoff : Timestamp) (batch : nat) (clock : nat -> Timestamp) (total : nat) : M (option nat) :=
  match fuel with
  | O => ret None
  | S fuel =>
      let! removed := sweep_batch_blocking cutoff batch (clock fuel) in
      let total := (total + removed)%nat in
      if (removed <? batch)%nat then ret (Some total) else sweep_loop fuel cutoff batch clock total
  end.

(** A full batch has removed a record at least: a turn for each, and one more. *)
Definition redb_sweep_older_than (cutoff : Timestamp) (batch : nat) (clock : nat -> Timestamp) : M (option nat) := fun s =>
  sweep_loop (S (size (AUDIT_RECORDS (tables s)))) cutoff batch clock 0 s.

Fixpoint count_rows (cutoff : Timestamp) (rows : list (Z * Z)) (due : nat) : M nat :=
  match rows with
  | [] => ret due
  | (_, sequence) :: rows =>
      io "reading the audit time index" ;!
      let! record := read_record sequence "the audit time index" in
      count_rows cutoff rows (if survives_retention record cutoff then due else S due)
  end.

Definition count_due_blocking (cutoff : Timestamp) : M nat :=
  io "beginning an audit count" ;!
  open_audit "record" ;!
  open_audit "time index" ;!
  io "scanning the audit time index" ;!
  let! rows := reads (fun t => time_range 0 cutoff (BY_TIME t)) in
  count_rows cutoff rows 0.

End Redb.

(** ** The tables mirror one trail *)

Definition number_le (a b : Z * AuditEntry) : Prop := fst a <= fst b.
#[export] Instance number_le_dec : RelDecision number_le.
Proof. intros a b. unfold number_le. apply _. Defined.
#[local] Instance number_le_trans : Transitive number_le.
Proof. intros a b c. unfold number_le. lia. Qed.
#[local] Instance number_le_total : base.Total number_le.
Proof. intros a b. unfold number_le. lia. Qed.

#[local] Instance Zge_trans : Transitive Z.ge.
Proof. intros a b c. lia. Qed.
#[local] Instance Zge_total : base.Total Z.ge.
Proof. intros a b. lia. Qed.
#[local] Instance time_le_trans : Transitive time_le.
Proof. intros a b c. unfold time_le. lia. Qed.
#[local] Instance time_le_total : base.Total time_le.
Proof. intros a b. unfold time_le. lia. Qed.

Definition to_record (p : Z * AuditEntry) : AuditRecord := {| audit_sequence := fst p; audit_entry := snd p |}.

(** The records, oldest first, and the last number given out. *)
Definition trail (t : AuditTables) : list AuditRecord := map to_record (merge_sort number_le (map_to_list (AUDIT_RECORDS t))).
Definition issued (t : AuditTables) : Z := default 0 (NEXT_SEQUENCE t).

Section Mirror.
  Context (as_u128 : CorrelationId -> Z).

Record indexed (t : AuditTables) : Prop := {
  ix_time ts n : (ts, n) ∈ BY_TIME t <-> exists e, AUDIT_RECORDS t !! n = Some e /\ ts = entry_timestamp e;
  ix_principal p n : (p, n) ∈ BY_PRINCIPAL t <-> exists e, AUDIT_RECORDS t !! n = Some e /\ p ∈ indexed_principals e;
  ix_correlation k n : (k, n) ∈ BY_CORRELATION t <-> exists e, AUDIT_RECORDS t !! n = Some e /\ k = correlation_key as_u128 e;
  ix_rows n e : AUDIT_RECORDS t !! n = Some e -> 1 <= n <= issued t /\ entry_ok e;
  ix_issued : 0 <= issued t <= u64_max;
}.

Lemma no_tables_indexed : indexed no_audit_tables.
Proof.
  split; cbn; try (intros; rewrite lookup_empty; set_solver).
  - intros n e. by rewrite lookup_empty.
  - unfold issued, u64_max. simpl. lia.
Qed.
End Mirror.

Lemma trail_elem t r : r ∈ trail t <-> AUDIT_RECORDS t !! audit_sequence r = Some (audit_entry r).
Proof.
  unfold trail. rewrite list_elem_of_fmap. split.
  - intros ([n e] & -> & Hp). rewrite merge_sort_Permutation in Hp. by apply elem_of_map_to_list in Hp.
  - intros Hr. exists (audit_sequence r, audit_entry r). split; [by destruct r|].
    rewrite merge_sort_Permutation. by apply elem_of_map_to_list.
Qed.

Lemma trail_sorted t : StronglySorted Z.lt (map audit_sequence (trail t)).
Proof.
  unfold trail. rewrite map_map. apply StronglySorted_map. cbn.
  assert (NoDup (map fst (merge_sort number_le (map_to_list (AUDIT_RECORDS t))))) as Hnd.
  { change (NoDup ((merge_sort number_le (map_to_list (AUDIT_RECORDS t))).*1)). rewrite merge_sort_Permutation. apply NoDup_fst_map_to_list. }
  pose proof (StronglySorted_merge_sort number_le (map_to_list (AUDIT_RECORDS t))) as Hs.
  induction Hs as [|p l _ IH Hp]; [constructor|]. apply NoDup_cons in Hnd as [Hn Hnd]. constructor; [by apply IH|].
  rewrite Forall_forall in *. intros q Hq. specialize (Hp q Hq). unfold number_le in Hp.
  destruct (decide (fst p = fst q)) as [E|]; [|lia]. exfalso. apply Hn. rewrite E. by apply (list_elem_of_fmap_2 fst).
Qed.

Lemma trail_numbered as_u128 t : indexed as_u128 t -> numbered (issued t) (trail t).
Proof.
  intros Hi. pose proof (ix_issued _ _ Hi). split; [lia|]. split; [apply trail_sorted|]. split; [lia|].
  apply Forall_forall. intros r Hr%trail_elem. by apply (ix_rows _ _ Hi) in Hr as [? _].
Qed.

(** Two lists of numbers in descending order are the same when they have the same members; so are
    two trails. *)
Lemma descending_unique (l k : list Z) :
  StronglySorted (flip Z.lt) l -> StronglySorted (flip Z.lt) k -> (forall n, n ∈ l <-> n ∈ k) -> l = k.
Proof.
  assert (Hnd : forall l, StronglySorted (flip Z.lt) l -> NoDup l).
  { induction 1 as [|x m _ IH Hx]; constructor; [|done]. rewrite Forall_forall in Hx. intros Hin%Hx. unfold flip in Hin. lia. }
  intros Hl Hk Hlk. eapply (StronglySorted_unique_strong (flip Z.lt)); [|done..|].
  - unfold flip. intros x y _ _. lia.
  - apply NoDup_Permutation; auto.
Qed.

Lemma trail_unique (l k : list AuditRecord) :
  StronglySorted Z.lt (map audit_sequence l) -> StronglySorted Z.lt (map audit_sequence k) ->
  (forall r, r ∈ l <-> r ∈ k) -> l = k.
Proof.
  assert (Hnd : forall l, StronglySorted Z.lt (map audit_sequence l) -> NoDup l).
  { intros m Hm%(StronglySorted_map audit_sequence). induction Hm as [|x m _ IH Hx]; constructor; [|done].
    rewrite Forall_forall in Hx. intros Hin%Hx. lia. }
  intros Hl Hk Hlk. eapply (StronglySorted_unique_strong (fun x y => audit_sequence x < audit_sequence y)).
  - intros x y _ _. lia.
  - exact (proj1 (StronglySorted_map _ _ _) Hl).
  - exact (proj1 (StronglySorted_map _ _ _) Hk).
  - apply NoDup_Permutation; auto.
Qed.

(** ** Appending *)

Definition with_principals (g : PrincipalId -> gset (PrincipalId * Z) -> gset (PrincipalId * Z)) (l : list PrincipalId) (t : AuditTables) :=
  foldl (fun t p => set_by_principal (g p) t) t l.

Lemma with_principals_eq g l t : with_principals g l t = set_by_principal (fun s => foldl (fun s p => g p s) s l) t.
Proof. revert t. induction l as [|p l IH]; intros t; [by destruct t|]. exact (IH (set_by_principal (g p) t)). Qed.

Lemma elem_of_foldl_union (n : Z) (l : list PrincipalId) (s : gset (PrincipalId * Z)) (q : PrincipalId) (m : Z) :
  (q, m) ∈ foldl (fun s p => {[(p, n)]} ∪ s) s l <-> (q, m) ∈ s \/ (m = n /\ q ∈ l).
Proof. revert s. induction l as [|p l IH]; intros s; simpl; [set_solver|]. rewrite IH. set_solver. Qed.

Lemma elem_of_foldl_difference (n : Z) (l : list PrincipalId) (s : gset (PrincipalId * Z)) (q : PrincipalId) (m : Z) :
  (q, m) ∈ foldl (fun s p => s ∖ {[(p, n)]}) s l <-> (q, m) ∈ s /\ ~ (m = n /\ q ∈ l).
Proof. revert s. induction l as [|p l IH]; intros s; simpl; [set_solver|]. rewrite IH. set_solver. Qed.

Section Append.
  Context (as_u128 : CorrelationId -> Z).

Definition append_tables (entry : AuditEntry) (t : AuditTables) : AuditTables :=
  let n := issued t + 1 in
  set_next_sequence n (set_by_correlation (fun s => {[(correlation_key as_u128 entry, n)]} ∪ s)
    (with_principals (fun p s => {[(p, n)]} ∪ s) (indexed_principals entry)
      (set_by_time (fun s => {[(entry_timestamp entry, n)]} ∪ s) (set_audit_records <[n := entry]> t)))).

Lemma append_blocking_wp entry (s : Db AuditTables) (Q : AuditTables -> nat -> Result Z -> Prop) :
  (issued (tables s) + 1 <= u64_max -> Q (append_tables entry (tables s)) (drawn s) (Ok (issued (tables s) + 1))) ->
  (u64_max < issued (tables s) + 1 -> Q (tables s) (drawn s) (Err out_of_numbers)) ->
  wp (append_blocking as_u128 entry) s Q.
Proof.
  intros Hok Herr. unfold append_blocking, issued_sequence, open_audit. wp_run. fold (issued (tables s)).
  rewrite next_number_spec. case_decide as Hn; [|apply Herr; lia].
  wp_run. eapply (wp_for_each _ (fun p => set_by_principal (fun x => {[(p, issued (tables s) + 1)]} ∪ x))).
  { intros p s' Q' HQ'. wp_run. by wp_here. }
  wp_run. wp_here. by apply Hok.
Qed.

Lemma append_tables_records entry t : AUDIT_RECORDS (append_tables entry t) = <[issued t + 1 := entry]> (AUDIT_RECORDS t).
Proof. unfold append_tables. by rewrite with_principals_eq. Qed.
Lemma append_tables_issued entry t : issued (append_tables entry t) = issued t + 1.
Proof. done. Qed.

Lemma lookup_fresh t : indexed as_u128 t -> AUDIT_RECORDS t !! (issued t + 1) = None.
Proof. intros Hi. destruct (AUDIT_RECORDS t !! _) eqn:E; [|done]. apply (ix_rows _ _ Hi) in E. lia. Qed.

Lemma append_tables_indexed entry t :
  indexed as_u128 t -> entry_ok entry -> issued t + 1 <= u64_max -> indexed as_u128 (append_tables entry t).
Proof.
  intros Hi He Hm. pose proof (lookup_fresh t Hi) as Hf. pose proof (ix_issued _ _ Hi).
  assert (Hlook : forall n (P : AuditEntry -> Prop),
    (exists e, <[issued t + 1 := entry]> (AUDIT_RECORDS t) !! n = Some e /\ P e) <->
    (n = issued t + 1 /\ P entry) \/ (exists e, AUDIT_RECORDS t !! n = Some e /\ P e)).
  { intros n P. destruct (decide (n = issued t + 1)) as [->|Hn].
    - rewrite lookup_insert_eq, Hf. naive_solver.
    - rewrite lookup_insert_ne by done. naive_solver. }
  split.
  - intros ts n. rewrite append_tables_records, Hlook. unfold append_tables. rewrite with_principals_eq. cbn.
    rewrite <- (ix_time _ _ Hi). set_solver.
  - intros p n. rewrite append_tables_records, Hlook. unfold append_tables. rewrite with_principals_eq. cbn -[indexed_principals].
    rewrite <- (ix_principal _ _ Hi). etrans; [apply elem_of_foldl_union|]. tauto.
  - intros k n. rewrite append_tables_records, Hlook. unfold append_tables. rewrite with_principals_eq. cbn.
    rewrite <- (ix_correlation _ _ Hi). set_solver.
  - intros n e. rewrite append_tables_records, append_tables_issued. destruct (decide (n = issued t + 1)) as [->|Hn].
    + rewrite lookup_insert_eq. intros [= <-]. split; [lia|done].
    + rewrite lookup_insert_ne by done. intros Hr%(ix_rows _ _ Hi). destruct Hr. split; [lia|done].
  - rewrite append_tables_issued. lia.
Qed.

Lemma append_tables_trail entry t :
  indexed as_u128 t -> issued t + 1 <= u64_max ->
  trail (append_tables entry t) = trail t ++ [{| audit_sequence := issued t + 1; audit_entry := entry |}].
Proof.
  intros Hi Hm. pose proof (numbered_snoc _ _ entry (trail_numbered _ _ Hi) Hm) as (_ & Hs & _).
  apply trail_unique; [apply trail_sorted|done|]. intros r. rewrite elem_of_app, list_elem_of_singleton, !trail_elem, append_tables_records.
  destruct (decide (audit_sequence r = issued t + 1)) as [E|Hn].
  - rewrite E, lookup_insert_eq, (lookup_fresh t Hi). split; [|by intros [?| ->]].
    intros [= He]. right. destruct r; simpl in *; congruence.
  - rewrite lookup_insert_ne by done. split; [by left|]. by intros [?| ->].
Qed.
End Append.

(** ** Reading *)

Definition present (t : AuditTables) (n : Z) : Prop := is_Some (AUDIT_RECORDS t !! n).

Lemma read_record_wp n index (s : Db AuditTables) (Q : AuditTables -> nat -> Result AuditRecord -> Prop) :
  present (tables s) n ->
  (forall e, AUDIT_RECORDS (tables s) !! n = Some e -> Q (tables s) (drawn s) (Ok {| audit_sequence := n; audit_entry := e |})) ->
  wp (read_record n index) s Q.
Proof.
  intros [e He] HQ. unfold read_record. wp_run. rewrite He. apply wp_ret. wp_here. by apply HQ.
Qed.

Section Query.
  Context (as_u128 : CorrelationId -> Z) (query : AuditQuery) (reader : Principal).

Definition row_shown (t : AuditTables) (n : Z) : bool :=
  match AUDIT_RECORDS t !! n with Some e => shown query reader {| audit_sequence := n; audit_entry := e |} | None => false end.

(** What a scan keeps: the first row always, then as far as the limit. *)
Definition picked (t : AuditTables) (rows : list Z) : list Z :=
  take (Z.to_nat (Z.max 1 (query_limit query))) (List.filter (row_shown t) rows).

Lemma collect_second_wp index rows kept (s : Db AuditTables) (Q : AuditTables -> nat -> Result (list Z) -> Prop) :
  Forall (present (tables s)) rows -> (length kept < Z.to_nat (Z.max 1 (query_limit query)))%nat ->
  Q (tables s) (drawn s)
    (Ok (kept ++ take (Z.to_nat (Z.max 1 (query_limit query)) - length kept) (List.filter (row_shown (tables s)) rows))) ->
  wp (collect_second index query reader (query_limit query) rows kept) s Q.
Proof.
  revert kept s. induction rows as [|n rows IH]; intros kept s Hp Hk HQ; simpl.
  { cbn [List.filter] in HQ. apply wp_ret. by rewrite take_nil, app_nil_r in HQ. }
  apply Forall_cons in Hp as [Hn Hp]. simpl in HQ. wp_run. apply read_record_wp; wp_here; [done|]. intros e He.
  wp_state. assert (Hshow : row_shown (tables s) n = shown query reader {| audit_sequence := n; audit_entry := e |}) by (unfold row_shown; by rewrite He).
  rewrite Hshow in HQ. fold (shown query reader {| audit_sequence := n; audit_entry := e |}). destruct (shown query reader _).
  - destruct (Z.leb_spec (query_limit query) (Z.of_nat (length (kept ++ [n])))) as [Hlim|Hlim]; rewrite length_app in Hlim; simpl in Hlim.
    + apply wp_ret. wp_here. replace (Z.to_nat (Z.max 1 (query_limit query)) - length kept)%nat with 1%nat in HQ by lia.
      simpl in HQ. by rewrite take_0 in HQ.
    + apply IH; wp_here; [done|rewrite length_app; simpl; lia|]. rewrite length_app, <- app_assoc. simpl.
      replace (Z.to_nat (Z.max 1 (query_limit query)) - length kept)%nat with (S (Z.to_nat (Z.max 1 (query_limit query)) - (length kept + 1))) in HQ by lia.
      exact HQ.
  - apply IH; wp_here; done.
Qed.

Lemma collect_picked index rows (s : Db AuditTables) (Q : AuditTables -> nat -> Result (list Z) -> Prop) :
  Forall (present (tables s)) rows -> Q (tables s) (drawn s) (Ok (picked (tables s) rows)) ->
  wp (collect_second index query reader (query_limit query) rows []) s Q.
Proof. intros Hp HQ. apply collect_second_wp; [done|simpl; lia|]. rewrite Nat.sub_0_r. exact HQ. Qed.

Definition principal_rows (t : AuditTables) (name : PrincipalId) : list Z := rev (range_of name (BY_PRINCIPAL t)).

Lemma collect_principals_wp names (s : Db AuditTables) (Q : AuditTables -> nat -> Result (list Z) -> Prop) :
  (forall name, Forall (present (tables s)) (principal_rows (tables s) name)) ->
  Q (tables s) (drawn s) (Ok (concat (map (fun name => picked (tables s) (principal_rows (tables s) name)) names))) ->
  wp (collect_principals query reader (query_limit query) names) s Q.
Proof.
  intros Hp. revert s Hp Q. induction names as [|name names IH]; intros s Hp Q HQ; simpl in *; [by apply wp_ret|].
  wp_run. apply collect_picked; wp_here; [apply Hp|]. wp_state. apply wp_bind, IH; wp_here; [done|].
  wp_state. apply wp_ret. by wp_here.
Qed.

Definition found (t : AuditTables) : list Z :=
  match q_correlation query, q_principal query with
  | Some correlation, _ => picked t (rev (range_of (as_u128 correlation) (BY_CORRELATION t)))
  | None, Some principal => concat (map (fun name => picked t (principal_rows t name)) (scanned_principals principal))
  | None, None =>
      picked t (rev (map snd (time_range (default 0 (q_since query)) (default u64_max (q_until query)) (BY_TIME t))))
  end.

Definition selected (t : AuditTables) : list Z := take_Z (query_limit query) (dedup (merge_sort Z.ge (found t))).

Definition fetched (t : AuditTables) (sequences : list Z) : list AuditRecord :=
  omap (fun n => (fun e => {| audit_sequence := n; audit_entry := e |}) <$> AUDIT_RECORDS t !! n) sequences.

Lemma read_all_wp sequences (s : Db AuditTables) (Q : AuditTables -> nat -> Result (list AuditRecord) -> Prop) :
  Forall (present (tables s)) sequences -> Q (tables s) (drawn s) (Ok (fetched (tables s) sequences)) ->
  wp (read_all sequences) s Q.
Proof.
  revert s Q. induction sequences as [|n l IH]; intros s Q Hp HQ; simpl; [by apply wp_ret|].
  apply Forall_cons in Hp as [Hn Hp]. apply wp_bind, read_record_wp; [done|]. intros e He. simpl in HQ. rewrite He in HQ. simpl in HQ.
  wp_state. apply wp_bind, IH; wp_here; [done|]. wp_state. apply wp_ret. by wp_here.
Qed.

(** *** What an index lists is there *)

Lemma range_of_elem {K} `{Countable K} (key : K) (index : gset (K * Z)) n : n ∈ range_of key index <-> (key, n) ∈ index.
Proof.
  unfold range_of. rewrite merge_sort_Permutation, list_elem_of_omap. split.
  - intros ([k m] & Hin & Hs). simpl in Hs. case_decide; simplify_eq. by apply elem_of_elements.
  - intros Hin. exists (key, n). split; [by apply elem_of_elements|]. simpl. by rewrite decide_True.
Qed.

Lemma time_range_elem since until index p : p ∈ time_range since until index <-> p ∈ index /\ since <= fst p <= until.
Proof. unfold time_range. rewrite merge_sort_Permutation, list_elem_of_filter, elem_of_elements. tauto. Qed.

Lemma rows_present t : indexed as_u128 t ->
  (forall k, Forall (present t) (rev (range_of k (BY_CORRELATION t)))) /\
  (forall name, Forall (present t) (principal_rows t name)) /\
  (forall a b, Forall (present t) (rev (map snd (time_range a b (BY_TIME t))))).
Proof.
  intros Hi. split_and!; intros; unfold principal_rows; apply Forall_rev, Forall_forall; intros n Hn.
  - apply range_of_elem, (ix_correlation _ _ Hi) in Hn as (e & He & _). by exists e.
  - apply range_of_elem, (ix_principal _ _ Hi) in Hn as (e & He & _). by exists e.
  - apply list_elem_of_fmap in Hn as ([ts m] & -> & Hn%time_range_elem). destruct Hn as [Hn _].
    apply (ix_time _ _ Hi) in Hn as (e & He & _). by exists e.
Qed.

Lemma picked_shown t rows n : n ∈ picked t rows -> row_shown t n = true /\ n ∈ rows.
Proof. intros [Hn Hs]%subseteq_take%list_elem_of_In%filter_In. split; [done|by apply list_elem_of_In]. Qed.

Lemma found_shown t n : n ∈ found t -> row_shown t n = true.
Proof.
  unfold found. destruct (q_correlation query); [by intros [? _]%picked_shown|].
  destruct (q_principal query); [|by intros [? _]%picked_shown].
  intros Hn. apply list_elem_of_In, in_concat in Hn as (l & (name & <- & _)%in_map_iff & Hn).
  apply list_elem_of_In in Hn. by apply picked_shown in Hn as [? _].
Qed.

Lemma row_shown_present t n : row_shown t n = true -> present t n.
Proof. unfold row_shown, present. by destruct (AUDIT_RECORDS t !! n). Qed.

Lemma query_blocking_wp (s : Db AuditTables) (Q : AuditTables -> nat -> Result (list AuditRecord) -> Prop) :
  indexed as_u128 (tables s) -> Q (tables s) (drawn s) (Ok (fetched (tables s) (selected (tables s)))) ->
  wp (query_blocking as_u128 query reader) s Q.
Proof.
  intros Hi HQ. destruct (rows_present _ Hi) as (Hc & Hp & Ht).
  assert (Hrest : forall s', tables s' = tables s -> drawn s' = drawn s ->
    wp (read_all (take_Z (query_limit query) (dedup (merge_sort Z.ge (found (tables s)))))) s' Q).
  { intros s' Hts Hds. apply read_all_wp; rewrite ?Hts, ?Hds; [|done]. rewrite take_Z_take. apply Forall_forall.
    intros n Hn%subseteq_take. apply row_shown_present, found_shown.
    pose proof (StronglySorted_merge_sort Z.ge (found (tables s))) as Hsort.
    apply (dedup_sorted Z.ge) in Hsort as [_ Hd]; [|lia]. by rewrite Hd, merge_sort_Permutation in Hn. }
  unfold query_blocking, open_audit. wp_run. unfold found in Hrest.
  destruct (q_correlation query) as [c|]; [|destruct (q_principal query) as [p|]].
  - wp_run. apply collect_picked; wp_here; [apply Hc|]. wp_state. by apply Hrest.
  - wp_run. apply collect_principals_wp; wp_here; [apply Hp|]. wp_state. by apply Hrest.
  - wp_run. apply collect_picked; wp_here; [apply Ht|]. wp_state. by apply Hrest.
Qed.
End Query.

(** ** An index decides what is read *)

Lemma elem_of_take_filter {A} (f : A -> bool) n l x : x ∈ take n l -> f x = true -> x ∈ take n (List.filter f l).
Proof.
  revert n. induction l as [|y l IH]; intros [|n]; simpl; try (by rewrite ?take_nil, ?take_0; intros ?%not_elem_of_nil).
  intros [->|Hx]%elem_of_cons Hf; simpl.
  - rewrite Hf. simpl. left.
  - specialize (IH _ Hx Hf). destruct (f y); simpl; [by right|].
    apply elem_of_take in IH as (i & Hi & Hlt). apply elem_of_take. exists i. split; [done|lia].
Qed.

Lemma take_filter_all {A} (f : A -> bool) n l : Forall (fun x => f x = true) (take n l) -> take n (List.filter f l) = take n l.
Proof.
  revert n. induction l as [|y l IH]; intros [|n] H; simpl; [by rewrite ?take_0..|]. simpl in H.
  apply Forall_cons in H as [Hy H]. rewrite Hy. simpl. f_equal. by apply IH.
Qed.

Lemma filter_descending (f : Z -> bool) l : StronglySorted (flip Z.lt) l -> StronglySorted (flip Z.lt) (List.filter f l).
Proof. intros. by eapply StronglySorted_sublist; [apply filter_sublist|]. Qed.

(** Sorted, without repetition and cut short, what holds the first [n] of a list and nothing but
    members of it comes to its first [n]. *)
Definition sorted_down (l : list Z) : list Z := dedup (merge_sort Z.ge l).

Lemma sorted_down_spec l : StronglySorted (flip Z.lt) (sorted_down l) /\ forall n, n ∈ sorted_down l <-> n ∈ l.
Proof.
  pose proof (StronglySorted_merge_sort Z.ge l) as Hs. apply (dedup_sorted Z.ge) in Hs as [Hs Hd]; [|lia]. split.
  - fold (sorted_down l) in Hs. clear Hd. induction Hs as [|x k _ IH Hx]; constructor; [done|].
    eapply Forall_impl; [exact Hx|]. unfold flip. simpl. lia.
  - intros n. unfold sorted_down. by rewrite Hd, merge_sort_Permutation.
Qed.

Lemma sorted_down_top n (l k : list Z) :
  StronglySorted (flip Z.lt) k -> (forall x, x ∈ l -> x ∈ k) -> (forall x, x ∈ take n k -> x ∈ l) ->
  take n (sorted_down l) = take n k.
Proof.
  intros Hk Hsub Htop. destruct (sorted_down_spec l) as [Hs Hd].
  assert (sorted_down l = List.filter (fun x => bool_decide (x ∈ l)) k) as ->.
  { apply descending_unique; [done|by apply filter_descending|]. intros x.
    rewrite Hd, !list_elem_of_In, filter_In, <- !list_elem_of_In, bool_decide_eq_true. naive_solver. }
  apply take_filter_all, Forall_forall. intros x Hx. apply bool_decide_eq_true. by apply Htop.
Qed.

Section Answers.
  Context (as_u128 : CorrelationId -> Z) (query : AuditQuery) (reader : Principal) (t : AuditTables).
  Hypothesis Hix : indexed as_u128 t.

(** What a complete answer lists, newest first. *)
Definition to_list : list Z := map audit_sequence (List.filter (shown query reader) (rev (trail t))).

Lemma to_list_sorted : StronglySorted (flip Z.lt) to_list.
Proof using Hix. eapply numbered_newest_first, trail_numbered, Hix. Qed.

Lemma to_list_elem n : n ∈ to_list <-> row_shown query reader t n = true.
Proof.
  unfold to_list, row_shown. rewrite list_elem_of_fmap. setoid_rewrite list_elem_of_In. setoid_rewrite filter_In.
  setoid_rewrite <- in_rev. setoid_rewrite <- list_elem_of_In. split.
  - intros (r & -> & Hr%trail_elem & Hs). rewrite Hr. by destruct r.
  - destruct (AUDIT_RECORDS t !! n) as [e|] eqn:E; [|done]. intros Hs. exists {| audit_sequence := n; audit_entry := e |}. split; [done|]. split; [by apply trail_elem|exact Hs].
Qed.

Lemma fetched_cons n l : fetched t (n :: l) =
  match AUDIT_RECORDS t !! n with Some e => {| audit_sequence := n; audit_entry := e |} :: fetched t l | None => fetched t l end.
Proof. unfold fetched. simpl. by destruct (AUDIT_RECORDS t !! n). Qed.

Lemma fetched_trail l : (forall r, r ∈ l -> r ∈ trail t) -> fetched t (map audit_sequence l) = l.
Proof.
  induction l as [|r l IH]; intros Hl; [done|]. cbn [map].
  rewrite fetched_cons, (proj1 (trail_elem t r)) by (apply Hl; left). rewrite IH by (intros; apply Hl; by right). by destruct r.
Qed.

Lemma fetched_top n : fetched t (take n to_list) = take n (List.filter (shown query reader) (rev (trail t))).
Proof.
  unfold to_list. rewrite <- fmap_take. apply fetched_trail. intros r [Hr _]%subseteq_take%list_elem_of_In%filter_In.
  by rewrite <- in_rev, <- list_elem_of_In in Hr.
Qed.

(** A scan that lists in descending order whatever is shown keeps the newest of it. *)
Lemma picked_newest rows :
  StronglySorted (flip Z.lt) rows -> (forall n, n ∈ to_list -> n ∈ rows) ->
  picked query reader t rows = take (Z.to_nat (Z.max 1 (query_limit query))) to_list.
Proof using Hix.
  intros Hs Hall. unfold picked. f_equal. apply descending_unique; [by apply filter_descending|apply to_list_sorted|].
  intros n. rewrite list_elem_of_In, filter_In, <- list_elem_of_In, <- to_list_elem. naive_solver.
Qed.

Lemma range_descending {K} `{Countable K} (key : K) index : StronglySorted (flip Z.lt) (rev (range_of key index)).
Proof.
  apply StronglySorted_rev. unfold range_of. set (l := omap _ _).
  assert (Hnd : NoDup (merge_sort Z.le l)).
  { rewrite merge_sort_Permutation. apply NoDup_omap; [apply NoDup_elements|]. intros [k n] [k' n'] b _ _. simpl.
    intros. repeat case_decide; simplify_eq. done. }
  pose proof (StronglySorted_merge_sort Z.le l) as Hs.
  induction Hs as [|x k _ IH Hx]; [constructor|]. apply NoDup_cons in Hnd as [Hn Hnd]. constructor; [by apply IH|].
  rewrite Forall_forall in *. intros y Hy. specialize (Hx y Hy). simpl in Hx. destruct (decide (x = y)) as [->|]; [done|lia].
Qed.

(** Later numbers are of later times. *)
Definition clock_ordered : Prop :=
  forall r r', r ∈ trail t -> r' ∈ trail t -> audit_sequence r < audit_sequence r' ->
  entry_timestamp (audit_entry r) <= entry_timestamp (audit_entry r').

(** The queries whose answer the newest-by-number is sure to be. *)
Definition settled : Prop := q_correlation query <> None \/ q_principal query <> None \/ q_limit query = None \/ clock_ordered.

Lemma shown_parts r : shown query reader r = true ->
  asked (q_correlation query) (fun c => bool_decide (entry_correlation (audit_entry r) = Some c)) = true /\
  asked (q_principal query) (concerns r) = true /\
  default 0 (q_since query) <= Z.max 0 (entry_timestamp (audit_entry r)) /\
  Z.min u64_max (entry_timestamp (audit_entry r)) <= default u64_max (q_until query).
Proof.
  intros H. unfold shown, query_matches in H. bools. split_and!; [done|done|..].
  - destruct (q_since query); simpl in *; bools; lia.
  - destruct (q_until query); simpl in *; bools; lia.
Qed.

Lemma shown_row n : n ∈ to_list -> exists e, AUDIT_RECORDS t !! n = Some e /\ shown query reader {| audit_sequence := n; audit_entry := e |} = true.
Proof. rewrite to_list_elem. unfold row_shown. destruct (AUDIT_RECORDS t !! n) as [e|]; [|done]. by exists e. Qed.

Lemma correlation_newest c : q_correlation query = Some c ->
  picked query reader t (rev (range_of (as_u128 c) (BY_CORRELATION t))) = take (Z.to_nat (Z.max 1 (query_limit query))) to_list.
Proof using Hix.
  intros Hc. apply picked_newest; [apply range_descending|]. intros n (e & He & Hs)%shown_row.
  apply shown_parts in Hs as (Hq & _). rewrite Hc in Hq. cbn in Hq. apply bool_decide_eq_true in Hq.
  rewrite list_elem_of_In, <- in_rev, <- list_elem_of_In. apply range_of_elem, (ix_correlation _ _ Hix). exists e. split; [done|].
  unfold correlation_key. by rewrite Hq.
Qed.

(** Whatever is shown stands in one of the ranges a principal's query scans. *)
Lemma principal_scanned p n : q_principal query = Some p -> n ∈ to_list ->
  exists name, name ∈ scanned_principals p /\ n ∈ principal_rows t name.
Proof using Hix.
  intros Hp (e & He & Hs)%shown_row. apply shown_parts in Hs as (_ & Hq & _). rewrite Hp in Hq. cbn in Hq.
  assert (Hrow : forall name, name ∈ indexed_principals e -> n ∈ principal_rows t name).
  { intros name Hn. unfold principal_rows. rewrite list_elem_of_In, <- in_rev, <- list_elem_of_In.
    apply range_of_elem, (ix_principal _ _ Hix). by exists e. }
  assert (Hown : forall name, name = entry_principal e \/ entry_on_behalf_of e = Some name -> name ∈ indexed_principals e).
  { intros name [->|Ho]; unfold indexed_principals; [left|]. rewrite Ho. case_decide as E; [rewrite E; left|right; left]. }
  assert (Hself : p ∈ scanned_principals p) by (unfold scanned_principals; case_decide; subst; left).
  unfold concerns in Hq. simpl in Hq. destruct (is_about_the_trail (entry_kind e)) eqn:Ek.
  - exists Principal_SYSTEM. split; [unfold scanned_principals; case_decide; [left|right; left]|].
    apply Hrow, Hown. left. by destruct e.
  - exists p. split; [done|]. apply Hrow, Hown. apply orb_true_iff in Hq. rewrite !bool_decide_eq_true in Hq. naive_solver.
Qed.
(** The time index lists every record of its span once. *)
Lemma time_pair p : p ∈ BY_TIME t -> exists e, AUDIT_RECORDS t !! snd p = Some e /\ fst p = entry_timestamp e.
Proof using Hix. destruct p as [ts n]. intros Hp%(ix_time _ _ Hix). exact Hp. Qed.

Lemma time_pair_inj p q : p ∈ BY_TIME t -> q ∈ BY_TIME t -> snd p = snd q -> p = q.
Proof using Hix.
  intros (e & He & Hp)%time_pair (e' & He' & Hq)%time_pair E. destruct p, q. simpl in *. congruence.
Qed.

Lemma time_range_NoDup since until : NoDup (time_range since until (BY_TIME t)).
Proof. unfold time_range. rewrite merge_sort_Permutation. apply NoDup_filter, NoDup_elements. Qed.

Lemma time_numbers_NoDup since until : NoDup (map snd (time_range since until (BY_TIME t))).
Proof using Hix.
  apply NoDup_fmap_2_strong; [|apply time_range_NoDup].
  intros p q [Hp _]%time_range_elem [Hq _]%time_range_elem. by apply time_pair_inj.
Qed.

Lemma time_listed n : n ∈ to_list ->
  n ∈ rev (map snd (time_range (default 0 (q_since query)) (default u64_max (q_until query)) (BY_TIME t))).
Proof using Hix.
  intros (e & He & Hs)%shown_row. apply shown_parts in Hs as (_ & _ & Hsince & Huntil). simpl in *.
  rewrite list_elem_of_In, <- in_rev, <- list_elem_of_In. apply list_elem_of_fmap. exists (entry_timestamp e, n). split; [done|].
  apply (ix_rows _ _ Hix) in He as Hr. destruct Hr as [_ Hts]. unfold entry_ok, u64_ok in Hts. apply time_range_elem.
  split; [apply (ix_time _ _ Hix); by exists e|simpl; lia].
Qed.

Lemma time_descending since until : clock_ordered -> StronglySorted (flip Z.lt) (rev (map snd (time_range since until (BY_TIME t)))).
Proof using Hix.
  intros Hclock. apply StronglySorted_rev, StronglySorted_map.
  pose proof (time_range_NoDup since until) as Hnd.
  assert (Hin : forall p, p ∈ time_range since until (BY_TIME t) -> p ∈ BY_TIME t) by (intros p Hp; by apply time_range_elem in Hp as [? _]).
  pose proof (StronglySorted_merge_sort time_le (filter (fun p => since <= fst p <= until) (elements (BY_TIME t)))) as Hs.
  fold (time_range since until (BY_TIME t)) in Hs.
  induction Hs as [|p l _ IH Hp]; [constructor|]. apply NoDup_cons in Hnd as [Hn Hnd]. constructor; [apply IH; [done|]; intros q Hq; apply Hin; by right|].
  rewrite Forall_forall in *. intros q Hq. specialize (Hp q Hq).
  pose proof (Hin p ltac:(left)) as Hpt. pose proof (Hin q ltac:(by right)) as Hqt.
  destruct (decide (snd p = snd q)) as [E|Hne]; [apply (time_pair_inj _ _ Hpt Hqt) in E; by subst|].
  destruct (time_pair _ Hpt) as (e & He & Hte). destruct (time_pair _ Hqt) as (e' & He' & Hte').
  pose proof (Hclock {| audit_sequence := snd q; audit_entry := e' |} {| audit_sequence := snd p; audit_entry := e |}) as Hc.
  simpl in Hc. rewrite !trail_elem in Hc. specialize (Hc He' He). unfold time_le in Hp. lia.
Qed.

Lemma to_list_bound : Z.of_nat (length to_list) <= u64_max.
Proof using Hix.
  pose proof (numbered_length _ _ (trail_numbered _ _ Hix)). pose proof (ix_issued _ _ Hix).
  unfold to_list. rewrite length_map. pose proof (sublist_length _ _ (filter_sublist (shown query reader) (rev (trail t)))) as Hl.
  rewrite length_rev in Hl. lia.
Qed.

(** Without a limit a scan keeps all that is shown. *)
Lemma picked_all rows n : q_limit query = None -> NoDup rows -> n ∈ rows -> n ∈ to_list -> n ∈ picked query reader t rows.
Proof using Hix.
  intros Hl Hnd Hn Ht. unfold picked, query_limit. rewrite Hl. simpl. set (k := List.filter _ rows).
  assert (Hk : (length k <= length to_list)%nat).
  { apply submseteq_length, NoDup_submseteq; [by eapply sublist_NoDup; [|apply filter_sublist]|].
    intros m [_ Hm]%list_elem_of_In%filter_In. by apply to_list_elem. }
  pose proof to_list_bound. rewrite take_ge by (unfold u64_max in *; lia).
  apply list_elem_of_In, filter_In. split; [by apply list_elem_of_In|by apply to_list_elem].
Qed.

Lemma elem_of_take_le {A} n m (l : list A) x : (n <= m)%nat -> x ∈ take n l -> x ∈ take m l.
Proof. intros Hle (i & Hi & Hlt)%elem_of_take. apply elem_of_take. exists i. split; [done|lia]. Qed.

Lemma selected_newest : settled -> selected as_u128 query reader t = take (Z.to_nat (query_limit query)) to_list.
Proof using Hix.
  intros Hset. unfold selected. rewrite take_Z_take. apply sorted_down_top; [apply to_list_sorted| |].
  { intros n Hn%found_shown. by apply to_list_elem. }
  intros n Hn. assert (Hm : n ∈ take (Z.to_nat (Z.max 1 (query_limit query))) to_list) by (eapply elem_of_take_le; [|exact Hn]; lia).
  unfold found. destruct (q_correlation query) as [c|] eqn:Ec; [by rewrite correlation_newest|].
  destruct (q_principal query) as [p|] eqn:Ep.
  - destruct (principal_scanned p n Ep (subseteq_take _ _ _ Hm)) as (name & Hname & Hrow).
    apply list_elem_of_In, in_concat. exists (picked query reader t (principal_rows t name)). split; [apply in_map_iff; exists name; split; [done|by apply list_elem_of_In]|].
    apply list_elem_of_In. unfold picked.
    assert (List.filter (row_shown query reader t) (principal_rows t name) = List.filter (fun m => bool_decide (m ∈ principal_rows t name)) to_list) as ->.
    { apply descending_unique; [apply filter_descending, range_descending|apply filter_descending, to_list_sorted|]. intros m.
      rewrite !list_elem_of_In, !filter_In, <- !list_elem_of_In, <- to_list_elem, bool_decide_eq_true. tauto. }
    apply elem_of_take_filter; [done|by apply bool_decide_eq_true].
  - pose proof (time_listed n (subseteq_take _ _ _ Hm)) as Hrow. destruct Hset as [?|[?|[Hl|Hclock]]]; [done..| |].
    + apply picked_all; [done| |done|by eapply subseteq_take]. rewrite <- Permutation_rev. apply time_numbers_NoDup.
    + rewrite picked_newest; [done|by apply time_descending|apply time_listed].
Qed.

Lemma selected_sound : sound_answer query reader (trail t) (fetched t (selected as_u128 query reader t)).
Proof using Hix.
  assert (Hsel : exists l, fetched t (selected as_u128 query reader t) = l /\ map audit_sequence l = selected as_u128 query reader t /\
    forall r, r ∈ l -> r ∈ trail t /\ shown query reader r = true).
  { assert (Hall : forall n, n ∈ selected as_u128 query reader t -> row_shown query reader t n = true).
    { unfold selected. rewrite take_Z_take. intros n Hn%subseteq_take. apply (found_shown as_u128). by apply sorted_down_spec. }
    revert Hall. generalize (selected as_u128 query reader t). intros l Hall. exists (fetched t l). split; [done|].
    induction l as [|n l IH]; [by split; [|intros ? ?%not_elem_of_nil]|].
    rewrite fetched_cons. pose proof (Hall n ltac:(left)) as Hn. unfold row_shown in Hn.
    destruct (AUDIT_RECORDS t !! n) as [e|] eqn:E; [|done]. destruct IH as [Hm Hr]; [intros; apply Hall; by right|].
    simpl. rewrite Hm. split; [done|]. intros r [->|H]%elem_of_cons; [|by apply Hr]. split; [by apply trail_elem|done]. }
  destruct Hsel as (l & -> & Hm & Hr). split; [|split; [|split; [done|]]].
  - rewrite Hm. unfold selected. rewrite take_Z_take.
    eapply StronglySorted_sublist; [apply sublist_take|]. apply sorted_down_spec.
  - rewrite <- (length_map audit_sequence), Hm. unfold selected. rewrite take_Z_take, length_take. lia.
  - intros Hl r Hrt Hs. assert (audit_sequence r ∈ map audit_sequence l) as (r' & Er & Hr')%list_elem_of_fmap.
    { rewrite Hm, selected_newest by (right; right; by left). pose proof to_list_bound.
      rewrite take_ge by (unfold query_limit; rewrite Hl; simpl; unfold u64_max in *; lia).
      apply to_list_elem. unfold row_shown. rewrite (proj1 (trail_elem t r) Hrt). by destruct r. }
    destruct (Hr r' Hr') as [Ht' _]. apply trail_elem in Hrt, Ht'. rewrite Er in Hrt. destruct r, r'; simpl in *. congruence.
Qed.
End Answers.

(** ** The store keeps the contract *)

Section Store.
  Context (as_u128 : CorrelationId -> Z).

#[local] Instance RedbAuditStore_store : AuditStore (Db AuditTables) :=
  {| audit_append := redb_append as_u128; audit_query := redb_query as_u128; audit_last_sequence := redb_last_sequence |}.

Lemma redb_append_wp entry (s : Db AuditTables) (Q : AuditTables -> nat -> Result Z -> Prop) :
  (issued (tables s) + 1 <= u64_max -> Q (append_tables as_u128 entry (tables s)) (drawn s) (Ok (issued (tables s) + 1))) ->
  (u64_max < issued (tables s) + 1 -> Q (tables s) (drawn s) (Err out_of_numbers)) ->
  wp (redb_append as_u128 entry) s Q.
Proof.
  intros Hok Herr. unfold redb_append. wp_run. apply append_blocking_wp; wp_here; [|done].
  intros Hn. wp_run. by apply Hok.
Qed.

Lemma redb_query_wp query cx s : indexed as_u128 (tables s) ->
  wp (redb_query as_u128 query cx) s (fun t _ r =>
    t = tables s /\ r = Ok (fetched (tables s) (selected as_u128 query (principal_or_system cx) (tables s)))).
Proof. intros Hi. by apply query_blocking_wp. Qed.

(** A read leaves the tables alone, whatever fails. *)
Lemma query_keeps query reader : keeps unchanged (query_blocking as_u128 query reader).
Proof.
  assert (Hread : forall n i, keeps unchanged (read_record n i)).
  { intros n i. unfold read_record. repeat first [apply keeps_io|apply keeps_reads|keeps_step]. }
  assert (Hcollect : forall i l rows kept, keeps unchanged (collect_second i query reader l rows kept)).
  { intros i l rows. induction rows as [|n rows IH]; intros kept; simpl; [keeps_step|].
    repeat first [apply keeps_io|apply keeps_reads|apply Hread|apply IH|keeps_step]. }
  assert (Hnames : forall l names, keeps unchanged (collect_principals query reader l names)).
  { intros l names. induction names as [|n names IH]; simpl; [keeps_step|].
    repeat first [apply keeps_io|apply keeps_reads|apply Hcollect|apply IH|keeps_step]. }
  assert (Hall : forall l, keeps unchanged (read_all l)).
  { intros l. induction l as [|n l IH]; simpl; [keeps_step|]. repeat first [apply Hread|apply IH|keeps_step]. }
  unfold query_blocking, open_audit.
  repeat first [apply keeps_io|apply keeps_reads|apply Hcollect|apply Hnames|apply Hall|keeps_step].
Qed.

(** C15. the trail on disk answers as promised: a query changes nothing, and - whatever other
    calls fail - an answer it gives shows only records the reader may see and asked for, newest
    first and within the limit, and all of them when there is no limit.  Where the query names
    a correlation or a principal, has no limit, or the clock never stepped back along the
    trail, it is exactly the answer of a scan of the whole trail, as the store in memory gives
    it; it fails only when the disk does. *)
Theorem redb_query_answers (query : AuditQuery) (cx : ExecutionContext) (s s' : Db AuditTables) (r : Result (list AuditRecord)) :
  indexed as_u128 (tables s) -> redb_query as_u128 query cx s = (s', r) ->
  let reader := principal_or_system cx in
  tables s' = tables s /\ (is_ok r = false -> ~ healthy s) /\
  forall l, r = Ok l ->
    sound_answer query reader (trail (tables s)) l /\
    (settled query (tables s) -> l = answer query reader (trail (tables s))).
Proof.
  intros Hi H reader. pose proof (redb_query_wp query cx s Hi) as Hwp. unfold wp in Hwp. rewrite H in Hwp.
  destruct Hwp as (_ & _ & Hwp). split; [apply (query_keeps _ _ _ _ _ H)|]. split.
  - intros Hr. destruct Hwp as [[_ ->]|[_ ?]]; done.
  - intros l ->. destruct Hwp as [[_ [= ->]]|[[=] _]]. split; [by apply selected_sound|].
    intros Hset. rewrite selected_newest by done. rewrite answer_query_limit. apply fetched_top.
Qed.

#[local] Program Instance RedbAuditStore_laws : AuditStoreLaws (Db AuditTables) :=
  {| store_ok s := indexed as_u128 (tables s); held s := trail (tables s); given s := issued (tables s) |}.
Next Obligation. intros s Hs. exact (trail_numbered _ _ Hs). Qed.
Next Obligation.
  intros s s' entry r Hs He H. change (redb_append as_u128 entry s = (s', r)) in H.
  pose proof (redb_append_wp entry s (fun t d r =>
    (issued (tables s) + 1 <= u64_max /\ t = append_tables as_u128 entry (tables s) /\ r = Ok (issued (tables s) + 1)) \/
    (t = tables s /\ r = Err out_of_numbers)) ltac:(by left) ltac:(by right)) as Hwp.
  unfold wp in Hwp. rewrite H in Hwp. destruct Hwp as (_ & _ & Hwp).
  destruct r as [n|e].
  - destruct Hwp as [[(Hn & Ht & [= ->])|[_ [=]]]|[[=] _]]. rewrite Ht.
    split; [by apply append_tables_indexed|]. split; [done|]. split; [apply append_tables_issued|by eapply append_tables_trail].
  - unfold redb_append in H. apply transaction_atomic in H. by rewrite H.
Qed.
Next Obligation.
  intros s s' query cx r Hs H. change (redb_query as_u128 query cx s = (s', r)) in H.
  pose proof (redb_query_wp query cx s Hs) as Hwp. unfold wp in Hwp. rewrite H in Hwp. destruct Hwp as (_ & _ & Hwp).
  destruct (query_keeps _ _ _ _ _ H) as [Hk _]. rewrite Hk. do 3 (split; [done|]).
  destruct r as [l|]; [|done]. destruct Hwp as [[_ [= ->]]|[[=] _]]. by apply selected_sound.
Qed.
Next Obligation.
  intros s s' r Hs H. change (redb_last_sequence s = (s', r)) in H.
  assert (Hk : unchanged s s').
  { revert H. unfold redb_last_sequence, open_audit. generalize s s' r. fold (keeps (S := Db AuditTables) (E := Error) unchanged (A := Z)).
    repeat first [apply keeps_io|apply keeps_reads|keeps_step]. }
  destruct Hk as [Hk _]. cbn. rewrite Hk. do 3 (split; [done|]).
  unfold redb_last_sequence, open_audit in H. peel H E1; [|done]. peel H E2; [|done]. peel H E3; [|done].
  apply io_inv in E1, E2, E3. apply reads_inv in H as [-> ->]. unfold issued. by rewrite E3, E2, E1.
Qed.
End Store.

(** Two records whose numbers and times disagree: the sink took the later event first. *)
Definition hash (c : CorrelationId) : Z := 1 + str_len c.
Definition two_records : AuditTables :=
  append_tables hash (Invocation (a_call "alice" 5 Succeeded))
    (append_tables hash (Invocation (a_call "alice" 9 Succeeded)) no_audit_tables).
Definition the_latest : AuditQuery :=
  {| q_principal := None; q_correlation := None; q_tool := None; q_kinds := []; q_since := None; q_until := None;
     q_refusals_only := false; q_limit := Some 1 |}.
Definition of_alice : AuditQuery :=
  {| q_principal := Some "alice"; q_correlation := None; q_tool := None; q_kinds := []; q_since := None; q_until := None;
     q_refusals_only := false; q_limit := Some 1 |}.
Definition as_alice : ExecutionContext :=
  {| correlation := "c"; principal := Some (Principal_new "alice" User); deadline := None; cancellation := false; attributes := [] |}.

Lemma two_records_indexed : indexed hash two_records.
Proof.
  apply append_tables_indexed; [|done|done].
  apply append_tables_indexed; [apply no_tables_indexed|done|done].
Qed.

(** With a limit and no index of its own the disk answers with the newest by time, memory with the
    newest by number. *)
Example newest_by_time_under_limit :
  snd (redb_query hash the_latest as_alice (Build_Db two_records 0 [])) = Ok [{| audit_sequence := 1; audit_entry := Invocation (a_call "alice" 9 Succeeded) |}] /\
  answer the_latest (principal_or_system as_alice) (trail two_records) = [{| audit_sequence := 2; audit_entry := Invocation (a_call "alice" 5 Succeeded) |}].
Proof. split; vm_compute; reflexivity. Qed.

Lemma redb_query_answers_witness :
  let s := Build_Db two_records 0 [] in
  snd (redb_query hash of_alice as_alice s) = Ok [{| audit_sequence := 2; audit_entry := Invocation (a_call "alice" 5 Succeeded) |}] /\
  tables (fst (redb_query hash of_alice as_alice s)) = tables s.
Proof.
  split; [vm_compute; reflexivity|].
  refine (proj1 (redb_query_answers hash of_alice as_alice _ _ _ _ (surjective_pairing _))). apply two_records_indexed.
Defined.

(** ** Sweeping *)

Section Sweep.
  Context (as_u128 : CorrelationId -> Z) (cutoff : Timestamp).

Definition row_stale (t : AuditTables) (p : Z * Z) : bool :=
  match AUDIT_RECORDS t !! snd p with Some e => stale cutoff {| audit_sequence := snd p; audit_entry := e |} | None => false end.

(** The rows a batch takes. *)
Definition due_rows (limit : nat) (t : AuditTables) : list (Z * Z) :=
  take limit (List.filter (row_stale t) (time_range 0 cutoff (BY_TIME t))).

Lemma collect_due_wp limit rows due (s : Db AuditTables) (Q : AuditTables -> nat -> Result (list (Z * Z)) -> Prop) :
  Forall (fun p => present (tables s) (snd p)) rows -> (length due < limit)%nat ->
  Q (tables s) (drawn s) (Ok (due ++ take (limit - length due) (List.filter (row_stale (tables s)) rows))) ->
  wp (collect_due cutoff limit rows due) s Q.
Proof.
  revert due s. induction rows as [|[ts n] rows IH]; intros due s Hp Hk HQ; simpl.
  { cbn [List.filter] in HQ. apply wp_ret. by rewrite take_nil, app_nil_r in HQ. }
  apply Forall_cons in Hp as [Hn Hp]. simpl in HQ, Hn. wp_run. apply read_record_wp; wp_here; [done|]. intros e He. wp_state.
  assert (Hrow : row_stale (tables s) (ts, n) = stale cutoff {| audit_sequence := n; audit_entry := e |}) by (unfold row_stale; simpl; by rewrite He).
  rewrite Hrow in HQ. unfold stale in HQ. destruct (survives_retention _ cutoff); simpl in HQ; [apply IH; wp_here; done|].
  destruct (Nat.leb_spec limit (length (due ++ [(ts, n)]))) as [Hlim|Hlim]; rewrite length_app in Hlim; simpl in Hlim.
  - apply wp_ret. wp_here. replace (limit - length due)%nat with 1%nat in HQ by lia. simpl in HQ. by rewrite take_0 in HQ.
  - apply IH; wp_here; [done|rewrite length_app; simpl; lia|]. rewrite length_app, <- app_assoc. simpl.
    replace (limit - length due)%nat with (S (limit - (length due + 1))) in HQ by lia. exact HQ.
Qed.

(** Taking one record away, with what the indexes say of it. *)
Definition drop_row (n : Z) (t : AuditTables) : AuditTables :=
  match AUDIT_RECORDS t !! n with
  | None => t
  | Some e =>
      set_by_correlation (fun s => s ∖ {[(correlation_key as_u128 e, n)]})
        (with_principals (fun p s => s ∖ {[(p, n)]}) (indexed_principals e)
          (set_by_time (fun s => s ∖ {[(entry_timestamp e, n)]}) (set_audit_records (delete n) t)))
  end.

Definition drop_rows (l : list (Z * Z)) (t : AuditTables) : AuditTables := foldl (fun t p => drop_row (snd p) t) t l.

Lemma drop_row_records n t : AUDIT_RECORDS (drop_row n t) = delete n (AUDIT_RECORDS t).
Proof. unfold drop_row. destruct (AUDIT_RECORDS t !! n) eqn:E; [by rewrite with_principals_eq|by rewrite delete_id]. Qed.

Lemma drop_row_issued n t : issued (drop_row n t) = issued t.
Proof. unfold drop_row. destruct (AUDIT_RECORDS t !! n); [by rewrite with_principals_eq|done]. Qed.

Lemma drop_row_indexed n t : indexed as_u128 t -> indexed as_u128 (drop_row n t).
Proof.
  intros Hi. destruct (AUDIT_RECORDS t !! n) as [e|] eqn:E; [|by unfold drop_row; rewrite E].
  assert (Hlook : forall m (P : AuditEntry -> Prop), (exists e, delete n (AUDIT_RECORDS t) !! m = Some e /\ P e) <->
    m <> n /\ exists e, AUDIT_RECORDS t !! m = Some e /\ P e).
  { intros m P. destruct (decide (m = n)) as [->|Hm].
    - rewrite lookup_delete_eq. naive_solver.
    - rewrite lookup_delete_ne by done. naive_solver. }
  split.
  - intros ts m. rewrite drop_row_records, Hlook, <- (ix_time _ _ Hi). unfold drop_row. rewrite E, with_principals_eq. cbn.
    rewrite elem_of_difference, elem_of_singleton. split; [intros [Ht Hne]|intros [Hm Ht]; split; [done|congruence]].
    split; [|done]. intros ->. apply Hne. apply (ix_time _ _ Hi) in Ht as (e' & He' & ->). congruence.
  - intros p m. rewrite drop_row_records, Hlook, <- (ix_principal _ _ Hi). unfold drop_row. rewrite E, with_principals_eq.
    cbn -[indexed_principals]. etrans; [apply elem_of_foldl_difference|]. split; [intros [Hp Hne]|intros [Hm Hp]; split; [done|tauto]].
    split; [|done]. intros ->. apply Hne. apply (ix_principal _ _ Hi) in Hp as (e' & He' & Hp). split; [done|congruence].
  - intros k m. rewrite drop_row_records, Hlook, <- (ix_correlation _ _ Hi). unfold drop_row. rewrite E, with_principals_eq. cbn.
    rewrite elem_of_difference, elem_of_singleton. split; [intros [Hk Hne]|intros [Hm Hk]; split; [done|congruence]].
    split; [|done]. intros ->. apply Hne. apply (ix_correlation _ _ Hi) in Hk as (e' & He' & ->). congruence.
  - intros m e'. rewrite drop_row_records, drop_row_issued. intros [_ He']%lookup_delete_Some. by apply (ix_rows _ _ Hi).
  - rewrite drop_row_issued. apply (ix_issued _ _ Hi).
Qed.

Lemma drop_rows_records l t n : AUDIT_RECORDS (drop_rows l t) !! n = if decide (n ∈ map snd l) then None else AUDIT_RECORDS t !! n.
Proof.
  revert t. induction l as [|p l IH]; intros t; simpl; [done|].
  rewrite IH, drop_row_records. destruct (decide (n = snd p)) as [->|Hn].
  { rewrite (decide_True (P := snd p ∈ snd p :: _)) by left. rewrite lookup_delete_eq. by case_decide. }
  rewrite lookup_delete_ne by done. apply decide_ext. rewrite elem_of_cons. tauto.
Qed.

Lemma drop_rows_issued l t : issued (drop_rows l t) = issued t.
Proof. revert t. induction l as [|p l IH]; intros t; simpl; [done|]. by rewrite IH, drop_row_issued. Qed.

Lemma drop_rows_indexed l t : indexed as_u128 t -> indexed as_u128 (drop_rows l t).
Proof. revert t. induction l as [|p l IH]; intros t Hi; simpl; [done|]. by apply IH, drop_row_indexed. Qed.

Definition without (gone : list Z) (trail : list AuditRecord) : list AuditRecord :=
  List.filter (fun r => negb (bool_decide (audit_sequence r ∈ gone))) trail.

Lemma elem_of_without gone l r : r ∈ without gone l <-> r ∈ l /\ audit_sequence r ∉ gone.
Proof.
  unfold without. rewrite list_elem_of_In, filter_In, <- list_elem_of_In, negb_true_iff, bool_decide_eq_false. done.
Qed.

Lemma drop_rows_trail l t : trail (drop_rows l t) = without (map snd l) (trail t).
Proof.
  apply trail_unique; [apply trail_sorted| |].
  - eapply StronglySorted_sublist; [|apply trail_sorted]. apply (fmap_sublist audit_sequence), filter_sublist.
  - intros r. rewrite trail_elem, elem_of_without, trail_elem, drop_rows_records. case_decide; naive_solver.
Qed.

Lemma remove_due_wp p (s : Db AuditTables) (Q : AuditTables -> nat -> Result unit -> Prop) :
  p ∈ BY_TIME (tables s) -> indexed as_u128 (tables s) ->
  Q (drop_row (snd p) (tables s)) (drawn s) (Ok tt) -> wp (remove_due as_u128 p) s Q.
Proof.
  destruct p as [ts n]. intros Hin Hi HQ. apply (ix_time _ _ Hi) in Hin as (e & He & ->). simpl in HQ. unfold drop_row in HQ. rewrite He in HQ.
  unfold remove_due. wp_run. rewrite He. wp_run.
  eapply (wp_for_each _ (fun p => set_by_principal (fun x => x ∖ {[(p, n)]}))).
  { intros p s' Q' HQ'. wp_run. by wp_here. }
  wp_run. by wp_here.
Qed.

Lemma remove_all_wp l (s : Db AuditTables) (Q : AuditTables -> nat -> Result unit -> Prop) :
  Forall (fun p => p ∈ BY_TIME (tables s)) l -> NoDup (map snd l) -> indexed as_u128 (tables s) ->
  Q (drop_rows l (tables s)) (drawn s) (Ok tt) -> wp (for_each (remove_due as_u128) l) s Q.
Proof.
  revert s. induction l as [|p l IH]; intros s Hin Hnd Hi HQ; simpl in *; [by apply wp_ret|].
  apply Forall_cons in Hin as [Hp Hin]. apply NoDup_cons in Hnd as [Hn Hnd].
  apply wp_bind, remove_due_wp; [done|done|]. wp_state. apply IH; wp_here; [|done|by apply drop_row_indexed|done].
  rewrite Forall_forall in *. intros [ts n] Hq. apply (ix_time as_u128); [by apply drop_row_indexed|].
  specialize (Hin _ Hq). apply (ix_time _ _ Hi) in Hin as (e & He & ->). exists e. split; [|done].
  rewrite drop_row_records, lookup_delete_ne; [done|]. intros E. apply Hn. rewrite E.
  by apply (list_elem_of_fmap_2 snd) in Hq.
Qed.
(** ** What a sweep does to the trail *)

(** [gone] were taken and [markers] account for them. *)
Record swept (t t' : AuditTables) (gone : list Z) (markers : list AuditRecord) : Prop := {
  sw_indexed : indexed as_u128 t';
  sw_trail : trail t' = without gone (trail t) ++ markers;
  sw_stale n : n ∈ gone -> exists e, AUDIT_RECORDS t !! n = Some e /\ stale cutoff {| audit_sequence := n; audit_entry := e |} = true;
  sw_NoDup : NoDup gone;
  sw_markers : Forall (fun r => exists at_ removed, audit_entry r = Retention {| ra_timestamp := at_; ra_cutoff := cutoff; ra_removed := removed |}) markers;
  sw_counted : sum_Z (map (fun r => match audit_entry r with Retention a => ra_removed a | _ => 0 end) markers) = Z.of_nat (length gone);
  sw_numbers : map audit_sequence markers = seqZ (issued t + 1) (Z.of_nat (length markers));
  sw_issued : issued t' = issued t + Z.of_nat (length markers);
}.

Lemma without_nil l : without [] l = l.
Proof. unfold without. induction l as [|r l IH]; simpl; [done|]. by f_equal. Qed.

Lemma swept_nothing t : indexed as_u128 t -> swept t t [] [].
Proof. intros Hi. split; simpl; rewrite ?without_nil, ?app_nil_r; [done|done|by intros n ?%not_elem_of_nil|constructor|constructor|done|done|lia]. Qed.

Lemma without_app gone gone' l : without gone' (without gone l) = without (gone ++ gone') l.
Proof.
  unfold without. rewrite filter_filter. apply List.filter_ext. intros r.
  rewrite <- negb_orb. f_equal. apply eq_true_iff_eq. rewrite orb_true_iff, !bool_decide_eq_true, elem_of_app. done.
Qed.

Lemma without_disjoint gone l : (forall r, r ∈ l -> audit_sequence r ∉ gone) -> without gone l = l.
Proof.
  unfold without. induction l as [|r l IH]; intros H; simpl; [done|].
  rewrite bool_decide_eq_false_2 by (apply H; left). simpl. rewrite IH; [done|]. intros r' Hr. apply H. by right.
Qed.

Lemma marker_fresh at_ removed n : stale cutoff {| audit_sequence := n; audit_entry := Retention {| ra_timestamp := at_; ra_cutoff := cutoff; ra_removed := removed |} |} = false.
Proof. unfold stale, survives_retention. simpl. by rewrite orb_true_r. Qed.

Lemma swept_elem t t' gone markers n e : swept t t' gone markers ->
  AUDIT_RECORDS t' !! n = Some e -> stale cutoff {| audit_sequence := n; audit_entry := e |} = true ->
  AUDIT_RECORDS t !! n = Some e /\ n ∉ gone.
Proof.
  intros Hsw He Hst. assert (Hr : {| audit_sequence := n; audit_entry := e |} ∈ trail t') by by apply trail_elem.
  rewrite (sw_trail _ _ _ _ Hsw) in Hr. apply elem_of_app in Hr as [Hr|Hr].
  - apply elem_of_without in Hr as [Hr%trail_elem Hn]. done.
  - pose proof (sw_markers _ _ _ _ Hsw) as Hm. rewrite Forall_forall in Hm. destruct (Hm _ Hr) as (a & k & Ea). simpl in Ea. subst e.
    by rewrite marker_fresh in Hst.
Qed.

Lemma swept_trans t1 t2 t3 gone gone' markers markers' :
  swept t1 t2 gone markers -> swept t2 t3 gone' markers' -> swept t1 t3 (gone ++ gone') (markers ++ markers').
Proof.
  intros H1 H2. assert (Hback : forall n, n ∈ gone' -> (n ∉ gone) /\ (exists e, AUDIT_RECORDS t1 !! n = Some e /\
    stale cutoff {| audit_sequence := n; audit_entry := e |} = true)).
  { intros n (e & He & Hst)%(sw_stale _ _ _ _ H2). destruct (swept_elem _ _ _ _ _ _ H1 He Hst) as [He1 Hn].
    split; [done|]. by exists e. }
  split.
  - apply (sw_indexed _ _ _ _ H2).
  - rewrite (sw_trail _ _ _ _ H2), (sw_trail _ _ _ _ H1). unfold without at 1. rewrite List.filter_app. fold (without gone' (without gone (trail t1))).
    rewrite without_app, <- app_assoc. do 2 f_equal. apply without_disjoint. intros r Hr Hg.
    apply (sw_stale _ _ _ _ H2) in Hg as (e & He & Hst).
    assert (Hr2 : r ∈ trail t2) by (rewrite (sw_trail _ _ _ _ H1); apply elem_of_app; by right).
    apply trail_elem in Hr2. rewrite Hr2 in He. injection He as <-.
    pose proof (sw_markers _ _ _ _ H1) as Hm. rewrite Forall_forall in Hm. destruct (Hm _ Hr) as (a & k & Ea).
    by rewrite Ea, marker_fresh in Hst.
  - intros n [Hn|Hn]%elem_of_app; [by apply (sw_stale _ _ _ _ H1)|by apply Hback].
  - apply NoDup_app. split; [apply (sw_NoDup _ _ _ _ H1)|]. split; [|apply (sw_NoDup _ _ _ _ H2)].
    intros n Hn Hn'. by apply Hback in Hn' as [? _].
  - apply Forall_app. split; [apply (sw_markers _ _ _ _ H1)|apply (sw_markers _ _ _ _ H2)].
  - rewrite map_app, sum_Z_app, length_app, (sw_counted _ _ _ _ H1), (sw_counted _ _ _ _ H2). lia.
  - rewrite map_app, length_app, Nat2Z.inj_add, seqZ_app, (sw_numbers _ _ _ _ H1), (sw_numbers _ _ _ _ H2), (sw_issued _ _ _ _ H1) by lia.
    do 2 f_equal. lia.
  - rewrite (sw_issued _ _ _ _ H2), (sw_issued _ _ _ _ H1), length_app. lia.
Qed.

(** What is left to take. *)
Definition stale_count (t : AuditTables) : nat := length (List.filter (stale cutoff) (trail t)).

Lemma filter_shorter {A} (f g : A -> bool) l x :
  x ∈ l -> f x = true -> g x = false -> (length (List.filter f (List.filter g l)) < length (List.filter f l))%nat.
Proof.
  intros Hx Hf Hg. induction l as [|y l IH]; [by apply not_elem_of_nil in Hx|]. simpl.
  assert (Hle : (length (List.filter f (List.filter g l)) <= length (List.filter f l))%nat).
  { rewrite filter_filter. clear. induction l as [|y l IH]; simpl; [done|]. destruct (g y), (f y); simpl; lia. }
  apply elem_of_cons in Hx as [<-|Hx].
  - rewrite Hg, Hf. simpl. lia.
  - specialize (IH Hx). destruct (g y); simpl; destruct (f y); simpl; lia.
Qed.

Lemma swept_fewer t t' gone markers : gone <> [] -> swept t t' gone markers -> (stale_count t' < stale_count t)%nat.
Proof.
  intros Hne Hsw. unfold stale_count. rewrite (sw_trail _ _ _ _ Hsw), List.filter_app, length_app.
  assert (List.filter (stale cutoff) markers = []) as ->.
  { pose proof (sw_markers _ _ _ _ Hsw) as Hm. clear - Hm. induction Hm as [|r l (a & k & E) _ IH]; [done|]. simpl.
    destruct r as [n e]. simpl in E. subst e. by rewrite marker_fresh. }
  destruct gone as [|n gone']; [done|]. destruct (sw_stale _ _ _ _ Hsw n ltac:(left)) as (e & He & Hst).
  rewrite Nat.add_0_r. apply (filter_shorter _ _ _ {| audit_sequence := n; audit_entry := e |}); [by apply trail_elem|done|].
  simpl. rewrite bool_decide_eq_true_2 by left. done.
Qed.

(** *** A batch *)

Lemma due_rows_in limit t p : p ∈ due_rows limit t -> p ∈ BY_TIME t /\ row_stale t p = true.
Proof.
  intros [Hp Hs]%subseteq_take%list_elem_of_In%filter_In. split; [|done].
  apply list_elem_of_In, time_range_elem in Hp. by destruct Hp.
Qed.

Lemma due_rows_NoDup limit t : indexed as_u128 t -> NoDup (map snd (due_rows limit t)).
Proof.
  intros Hi. eapply sublist_NoDup; [|apply (fmap_sublist snd)]; [by eapply (time_numbers_NoDup as_u128 t Hi 0 cutoff)|].
  unfold due_rows. etrans; [apply sublist_take|apply filter_sublist].
Qed.

Definition marker (now : Timestamp) (removed : nat) : AuditEntry :=
  Retention {| ra_timestamp := now; ra_cutoff := cutoff; ra_removed := Z.of_nat removed |}.

(** Between the records' going and the marker's coming the tables are those of a shorter trail. *)
Definition batch_tables (limit : nat) (now : Timestamp) (t : AuditTables) : AuditTables :=
  let due := due_rows limit t in append_tables as_u128 (marker now (length due)) (drop_rows due t).

Lemma batch_wp limit now (s : Db AuditTables) (Q : AuditTables -> nat -> Result nat -> Prop) :
  (0 < limit)%nat -> indexed as_u128 (tables s) ->
  let due := due_rows limit (tables s) in
  (due = [] -> Q (tables s) (drawn s) (Ok 0%nat)) ->
  (due <> [] -> issued (tables s) + 1 <= u64_max -> Q (batch_tables limit now (tables s)) (drawn s) (Ok (length due))) ->
  (u64_max < issued (tables s) + 1 -> Q (tables s) (drawn s) (Err out_of_numbers)) ->
  wp (sweep_batch_blocking as_u128 cutoff limit now) s Q.
Proof.
  intros Hlim Hi due Hnone Hsome Herr. unfold batch_tables in Hsome. fold due in Hsome. unfold sweep_batch_blocking, open_audit. wp_run.
  apply collect_due_wp; wp_here; [|done|].
  { apply Forall_forall. intros [ts n] [Hp _]%time_range_elem. apply (ix_time _ _ Hi) in Hp as (e & He & _). by exists e. }
  simpl. rewrite Nat.sub_0_r. fold (due_rows limit (tables s)). fold due. wp_state.
  destruct due as [|p due'] eqn:Edue; [apply wp_ret; wp_here; by apply Hnone|]. rewrite <- Edue. wp_run.
  apply remove_all_wp; wp_here; [|by apply due_rows_NoDup|done|].
  { apply Forall_forall. intros q Hq. by apply due_rows_in in Hq as [? _]. }
  wp_run. fold (marker now (length due)). apply append_blocking_wp; wp_here; rewrite drop_rows_issued; [|done].
  intros Hn. wp_run. rewrite Edue in *. by apply Hsome.
Qed.

Lemma batch_swept limit now t :
  indexed as_u128 t -> u64_ok now -> issued t + 1 <= u64_max ->
  swept t (batch_tables limit now t) (map snd (due_rows limit t))
    [{| audit_sequence := issued t + 1; audit_entry := marker now (length (due_rows limit t)) |}].
Proof.
  intros Hi Hnow Hm. unfold batch_tables. set (due := due_rows limit t). pose proof (drop_rows_indexed due t Hi) as Hi'. split.
  - apply append_tables_indexed; [done|done|by rewrite drop_rows_issued].
  - rewrite append_tables_trail, drop_rows_trail, drop_rows_issued; [done|done|by rewrite drop_rows_issued].
  - intros n ([ts m] & -> & [Hp Hs]%due_rows_in)%list_elem_of_fmap. unfold row_stale in Hs. simpl in *.
    destruct (AUDIT_RECORDS t !! m) as [e|]; [|done]. by exists e.
  - by apply due_rows_NoDup.
  - repeat constructor. by eexists _, _.
  - simpl. rewrite length_map. lia.
  - simpl. by rewrite seqZ_cons, seqZ_nil by lia.
  - rewrite append_tables_issued, drop_rows_issued. simpl. lia.
Qed.

(** A batch that is not full has left nothing. *)
Lemma batch_short limit t : indexed as_u128 t -> (length (due_rows limit t) < limit)%nat ->
  forall r, r ∈ trail t -> stale cutoff r = true -> audit_sequence r ∈ map snd (due_rows limit t).
Proof.
  intros Hi Hlen [n e] Hr%trail_elem Hst. simpl in *. unfold due_rows in *. rewrite length_take in Hlen. rewrite take_ge by lia.
  apply list_elem_of_fmap. exists (entry_timestamp e, n). split; [done|]. apply list_elem_of_In, filter_In. split.
  - apply list_elem_of_In, time_range_elem. split; [apply (ix_time _ _ Hi); by exists e|].
    apply (ix_rows _ _ Hi) in Hr as [_ Hts]. unfold entry_ok, u64_ok in Hts. unfold stale, survives_retention in Hst. bools. simpl in *. lia.
  - unfold row_stale. simpl. by rewrite Hr.
Qed.
(** *** The sweep *)

Lemma batch_outcome limit now (s s' : Db AuditTables) r :
  (0 < limit)%nat -> u64_ok now -> indexed as_u128 (tables s) -> sweep_batch_blocking as_u128 cutoff limit now s = (s', r) ->
  exists gone markers, swept (tables s) (tables s') gone markers /\
    match r with
    | Ok n => n = length gone /\ ((n < limit)%nat -> stale_count (tables s') = 0%nat)
    | Err _ => ~ healthy s \/ issued (tables s') = u64_max
    end /\ (healthy s -> healthy s').
Proof.
  intros Hlim Hnow Hi H. set (t := tables s) in *.
  assert (Hdone : (length (due_rows limit t) < limit)%nat -> forall t' gone markers, gone = map snd (due_rows limit t) -> swept t t' gone markers -> stale_count t' = 0%nat).
  { intros Hlen t' gone markers -> Hsw. unfold stale_count. apply length_zero_iff_nil. destruct (List.filter _ _) as [|r0 l] eqn:E; [done|].
    assert (Hr : r0 ∈ List.filter (stale cutoff) (trail t')) by (rewrite E; left).
    apply list_elem_of_In, filter_In in Hr as [Hr Hst]. apply list_elem_of_In, trail_elem in Hr.
    destruct r0 as [n e]. destruct (swept_elem _ _ _ _ _ _ Hsw Hr Hst) as [Hr' Hn].
    by pose proof (batch_short limit t Hi Hlen _ (proj2 (trail_elem t _) Hr') Hst). }
  pose proof (batch_wp limit now s (fun t' _ r =>
    (t' = t /\ r = Ok 0%nat /\ due_rows limit t = []) \/
    (issued t + 1 <= u64_max /\ t' = batch_tables limit now t /\ r = Ok (length (due_rows limit t))) \/
    (t' = t /\ r = Err out_of_numbers /\ u64_max < issued t + 1)) Hlim Hi ltac:(by left) ltac:(by (right; left)) ltac:(by (right; right))) as Hwp.
  unfold wp in Hwp. rewrite H in Hwp. destruct Hwp as ([k Hk] & _ & Hwp).
  assert (Hhealthy : healthy s -> healthy s') by (unfold healthy; rewrite Hk, Forall_app; tauto).
  destruct Hwp as [[(Ht & -> & E)|[(Hm & Ht & ->)|(Ht & -> & Hm)]]|[Hr Hs]].
  - exists [], []. rewrite Ht. split; [by apply swept_nothing|]. split; [|done]. split; [done|]. intros _.
    apply (Hdone ltac:(rewrite E; simpl; lia) t [] []); [by rewrite E|by apply swept_nothing].
  - eexists _, _. rewrite Ht. split; [by apply batch_swept|]. split; [|done]. split; [by rewrite length_map|]. intros Hlen.
    eapply Hdone; [done|done|by apply batch_swept].
  - exists [], []. rewrite Ht. split; [by apply swept_nothing|]. split; [|done]. right. pose proof (ix_issued _ _ Hi). fold t in Hm. lia.
  - destruct r as [|e]; [done|]. exists [], []. unfold sweep_batch_blocking in H. apply transaction_atomic in H. rewrite H.
    split; [by apply swept_nothing|]. split; [by left|done].
Qed.

Lemma sweep_loop_outcome limit clock fuel : (0 < limit)%nat -> (forall i, u64_ok (clock i)) ->
  forall total (s s' : Db AuditTables) r, indexed as_u128 (tables s) -> (stale_count (tables s) < fuel)%nat ->
  sweep_loop as_u128 fuel cutoff limit clock total s = (s', r) ->
  exists gone markers, swept (tables s) (tables s') gone markers /\
    match r with
    | Ok o => o = Some (total + length gone)%nat /\ stale_count (tables s') = 0%nat
    | Err _ => ~ healthy s \/ issued (tables s') = u64_max
    end.
Proof.
  intros Hlim Hclock. induction fuel as [|fuel IH]; intros total s s' r Hi Hf H; [lia|]. simpl in H. peel H E.
  - destruct (batch_outcome _ _ _ _ _ Hlim (Hclock fuel) Hi E) as (gone & markers & Hsw & [Hn Hshort] & Hh). subst a.
    destruct (Nat.ltb_spec (length gone) limit) as [Hlt|Hge].
    + injection H as <- <-. exists gone, markers. split; [done|]. split; [done|by apply Hshort].
    + assert (Hne : gone <> []) by (intros ->; simpl in Hge; lia).
      pose proof (swept_fewer _ _ _ _ Hne Hsw) as Hfew.
      destruct (IH _ _ _ _ (sw_indexed _ _ _ _ Hsw) ltac:(lia) H) as (gone' & markers' & Hsw' & Hr).
      exists (gone ++ gone'), (markers ++ markers'). split; [by eapply swept_trans|].
      destruct r; [|naive_solver]. rewrite length_app. destruct Hr as [-> Hz]. split; [f_equal; lia|done].
  - destruct (batch_outcome _ _ _ _ _ Hlim (Hclock fuel) Hi E) as (gone & markers & Hsw & Hr & _). by exists gone, markers.
Qed.

Lemma stale_count_bound t : (stale_count t <= size (AUDIT_RECORDS t))%nat.
Proof.
  unfold stale_count. etrans; [apply sublist_length, filter_sublist|]. unfold trail. rewrite length_map, merge_sort_Permutation.
  by rewrite length_map_to_list.
Qed.

(** C16. a sweep accounts for what it takes: it ends, and however it ends - even half-way, on a
    failing disk - the trail is what it was without some records past the cutoff, none of them
    about the trail itself, followed by markers of this sweep, numbered on without a break,
    whose counts add up to exactly the number of records gone; the indexes still mirror it.  A
    sweep that succeeds reports that number and has left nothing past the cutoff; it fails only
    when the disk does or the numbers have run out. *)
Theorem sweep_accounts_for_removals (batch : nat) (clock : nat -> Timestamp) (s s' : Db AuditTables) (r : Result (option nat)) :
  (0 < batch)%nat -> (forall i, u64_ok (clock i)) -> indexed as_u128 (tables s) ->
  redb_sweep_older_than as_u128 cutoff batch clock s = (s', r) ->
  exists gone markers, swept (tables s) (tables s') gone markers /\
    match r with
    | Ok o => o = Some (length gone) /\ (forall r, r ∈ trail (tables s') -> survives_retention r cutoff = true)
    | Err _ => ~ healthy s \/ issued (tables s') = u64_max
    end.
Proof.
  intros Hb Hclock Hi H. pose proof (stale_count_bound (tables s)).
  assert (Hf : (stale_count (tables s) < S (size (AUDIT_RECORDS (tables s))))%nat) by lia.
  destruct (sweep_loop_outcome _ _ _ Hb Hclock _ _ _ _ Hi Hf H) as (gone & markers & Hsw & Hr).
  exists gone, markers. split; [done|]. destruct r as [o|]; [|done]. destruct Hr as [-> Hz]. split; [done|]. intros r Hr.
  destruct (survives_retention r cutoff) eqn:E; [done|]. unfold stale_count in Hz. apply length_zero_iff_nil in Hz.
  assert (Hin : r ∈ List.filter (stale cutoff) (trail (tables s'))).
  { apply list_elem_of_In, filter_In. split; [by apply list_elem_of_In|]. unfold stale. by rewrite E. }
  rewrite Hz in Hin. by apply not_elem_of_nil in Hin.
Qed.
End Sweep.

(** Three calls, two of them old; a batch of one at a time. *)
Definition three_records : AuditTables := append_tables hash (Invocation (a_call "bob" 70 InvocationDenied)) two_records.

Lemma sweep_accounts_for_removals_witness :
  let run := redb_sweep_older_than hash 50 1 (fun _ => 100) (Build_Db three_records 0 []) in
  snd run = Ok (Some 2%nat) /\ map audit_sequence (trail (tables (fst run))) = [3; 4; 5] /\
  exists gone markers, swept hash 50 three_records (tables (fst run)) gone markers.
Proof.
  split; [vm_compute; reflexivity|]. split; [vm_compute; reflexivity|].
  assert (Hi : indexed hash three_records) by (apply append_tables_indexed; [apply two_records_indexed|done|done]).
  destruct (sweep_accounts_for_removals hash 50 1 (fun _ => 100) (Build_Db three_records 0 []) _ _ ltac:(lia)
    ltac:(done) Hi (surjective_pairing _)) as (gone & markers & Hsw & _). by exists gone, markers.
Defined.
