(* ===== verification/Frame.v ===== *)
(** * Frame: messages on a stream of bytes

    [crates/ipc/src/frame.rs]: four bytes of length, then that many bytes of JSON.  [serde_json]
    and the types' derived instances are a library: the class [Wire] is what is used of them. *)

From S2P Require Import Prelude Base Text.

(** ** The two ends of a stream *)

(** [std::io::Error], as far as [frame::read] looks at it. *)
Inductive IoError := UnexpectedEof | OtherIo (error : BoxError).

Definition io_box (error : IoError) : BoxError :=
  match error with UnexpectedEof => BoxForeign "early eof" None | OtherIo error => error end.

(** What becomes of a read that has used up what arrived: the peer closed, the stream broke, or
    the peer has not written more yet. *)
Inductive Ending := Eof | Broken (error : BoxError) | Quiet.

(** [buffers] are the sizes of the bodies room was made for. *)
Record Reader := { incoming : string; ending : Ending; buffers : list Z }.

(** The first [n] bytes and what follows them. *)
Fixpoint split_bytes (n : Z) (s : string) : option (string * string) :=
  if n <=? 0 then Some (EmptyString, s)
  else match s with
       | EmptyString => None
       | String c s => prod_map (String c) id <$> split_bytes (n - 1) s
       end.

(** [AsyncReadExt::read_exact] *)
Definition read_exact (n : Z) (self : Reader) : Reader * Reading (result IoError string) :=
  match split_bytes n (incoming self) with
  | Some (bytes, rest) => ({| incoming := rest; ending := ending self; buffers := buffers self |}, Ready (Ok bytes))
  | None =>
      ({| incoming := EmptyString; ending := ending self; buffers := buffers self |},
       match ending self with
       | Eof => Ready (Err UnexpectedEof)
       | Broken error => Ready (Err (OtherIo error))
       | Quiet => Waiting
       end)
  end.

(** A sink that takes [room] bytes more before it fails. *)
Record Writer := { written : string; room : option (Z * BoxError); flushing : option BoxError }.

Definition Writer_new : Writer := {| written := EmptyString; room := None; flushing := None |}.

(** [AsyncWriteExt::write_all]: it writes until it fails. *)
Definition write_all (bytes : string) (self : Writer) : Writer * result BoxError unit :=
  match room self with
  | None => ({| written := written self +:+ bytes; room := None; flushing := flushing self |}, Ok tt)
  | Some (n, error) =>
      if str_len bytes <=? n
      then ({| written := written self +:+ bytes; room := Some (n - str_len bytes, error); flushing := flushing self |}, Ok tt)
      else ({| written := written self +:+ (default bytes (fst <$> split_bytes n bytes)); room := Some (0, error);
               flushing := flushing self |}, Err error)
  end.

Definition flush (self : Writer) : result BoxError unit :=
  match flushing self with None => Ok tt | Some error => Err error end.

(** ** The codec *)

Definition MAX_FRAME_BYTES : Z := 1024 * 1024.
Definition LENGTH_PREFIX_BYTES : nat := 4.

(** [u32::to_be_bytes] *)
Fixpoint to_be_bytes (k : nat) (n : Z) : string :=
  match k with O => EmptyString | S k => String (chr ((n `div` 256 ^ Z.of_nat k) `mod` 256)) (to_be_bytes k n) end.

(** [u32::from_be_bytes] *)
Fixpoint from_be_bytes (acc : Z) (s : string) : Z :=
  match s with EmptyString => acc | String c s => from_be_bytes (acc * 256 + byte_of c) s end.

(** [serde_json::to_vec] and [serde_json::from_slice] *)
Class Wire (T : Type) := {
  to_vec : T -> result BoxError string;
  from_slice : string -> result BoxError T;
}.

(** What is written reads back, and is never empty. *)
Class WireLaws (T : Type) `{Wire T} := {
  from_to_vec v bytes : to_vec v = Ok bytes -> from_slice bytes = Ok v;
  to_vec_nonempty v bytes : to_vec v = Ok bytes -> bytes <> EmptyString;
}.

Definition too_large (n : Z) : Error :=
  InvalidArgument ("a " +:+ fmt_u n +:+ "-byte message is larger than the " +:+ fmt_u MAX_FRAME_BYTES +:+ "-byte frame limit").

Definition framed (body : string) : string := to_be_bytes LENGTH_PREFIX_BYTES (str_len body) +:+ body.

(** [frame::write] *)
Definition write `{Wire T} (value : T) (self : Writer) : Writer * Result unit :=
  match to_vec value with
  | Err error => (self, Err (Serialization error))
  | Ok body =>
      if MAX_FRAME_BYTES <? str_len body then (self, Err (too_large (str_len body)))
      else
        match write_all (framed body) self with
        | (self, Err error) => (self, Err (Error_wrap "writing a frame" error))
        | (self, Ok _) => (self, map_err (Error_wrap "flushing a frame") (flush self))
        end
  end.

Definition empty_frame : Error := InvalidArgument "a frame must carry a message; a zero-length one carries nothing".
Definition announced (n : Z) : Error :=
  InvalidArgument ("a peer announced a " +:+ fmt_u n +:+ "-byte frame, over the " +:+ fmt_u MAX_FRAME_BYTES +:+ "-byte limit").

(** [vec![0u8; length]] *)
Definition make_room (length : Z) (self : Reader) : Reader :=
  {| incoming := incoming self; ending := ending self; buffers := buffers self ++ [length] |}.

(** [frame::read] *)
Definition read `{Wire T} (self : Reader) : Reader * Reading (Result (option T)) :=
  match read_exact (Z.of_nat LENGTH_PREFIX_BYTES) self with
  | (self, Waiting) => (self, Waiting)
  | (self, Ready (Err UnexpectedEof)) => (self, Ready (Ok None))
  | (self, Ready (Err error)) => (self, Ready (Err (Error_wrap "reading a frame length" (io_box error))))
  | (self, Ready (Ok prefix)) =>
      let length := from_be_bytes 0 prefix in
      if length =? 0 then (self, Ready (Err empty_frame))
      else if MAX_FRAME_BYTES <? length then (self, Ready (Err (announced length)))
      else
        match read_exact length (make_room length self) with
        | (self, Waiting) => (self, Waiting)
        | (self, Ready (Err error)) => (self, Ready (Err (Error_wrap "reading a frame body" (io_box error))))
        | (self, Ready (Ok body)) => (self, Ready (map_err Serialization (result_map Some (from_slice body))))
        end
  end.

(** ** Both ends over a whole conversation *)

Fixpoint write_each `{Wire T} (l : list T) (self : Writer) : Writer * Result unit :=
  match l with
  | [] => (self, Ok tt)
  | v :: l => match write v self with (self, Ok _) => write_each l self | failed => failed end
  end.

(** The messages read until something else happens, and what that was. *)
Fixpoint read_each `{Wire T} (fuel : nat) (self : Reader) : list T * option (Reading (Result unit)) :=
  match fuel with
  | O => ([], None)
  | S fuel =>
      match read self with
      | (self, Ready (Ok (Some v))) => let (l, last) := read_each fuel self in (v :: l, last)
      | (_, Ready (Ok None)) => ([], Some (Ready (Ok tt)))
      | (_, Ready (Err error)) => ([], Some (Ready (Err error)))
      | (_, Waiting) => ([], Some Waiting)
      end
  end.

(** A frame takes five bytes at least. *)
Definition read_to_end `{Wire T} (self : Reader) : list T * option (Reading (Result unit)) :=
  read_each (S (String.length (incoming self))) self.

(** What a read says where nothing more arrives between frames. *)
Definition at_end (ending : Ending) : Reading (Result unit) :=
  match ending with
  | Eof => Ready (Ok tt)
  | Broken error => Ready (Err (Error_wrap "reading a frame length" error))
  | Quiet => Waiting
  end.

(** ** Bytes *)

Lemma split_bytes_some n s a b : split_bytes n s = Some (a, b) -> s = a +:+ b /\ str_len a = Z.max 0 n.
Proof.
  revert n a. induction s as [|c s IH]; intros n a; simpl; destruct (Z.leb_spec n 0); try done.
  - intros [= <- <-]. split; [done|]. unfold str_len. simpl. lia.
  - intros [= <- <-]. split; [done|]. unfold str_len. simpl. lia.
  - intros ([a' b'] & Hs & [= -> ->])%fmap_Some. apply IH in Hs as [-> Hl]. split; [done|]. unfold str_len in *. simpl. lia.
Qed.

Lemma split_bytes_app a b : split_bytes (str_len a) (a +:+ b) = Some (a, b).
Proof.
  induction a as [|c a IH]; [by destruct b|].
  replace (str_len (String c a)) with (str_len a + 1) by (unfold str_len; simpl; lia). pose proof (str_len_nonneg a).
  simpl. destruct (Z.leb_spec (str_len a + 1) 0); [lia|].
  replace (str_len a + 1 - 1) with (str_len a) by lia. by rewrite IH.
Qed.

Lemma split_bytes_none n s : split_bytes n s = None <-> str_len s < n.
Proof.
  split.
  - revert n. induction s as [|c s IH]; intros n; simpl; destruct (Z.leb_spec n 0); try done.
    intros Hs%fmap_None%IH. unfold str_len in *. simpl. lia.
  - intros Hn. destruct (split_bytes n s) as [[a b]|] eqn:E; [|done]. apply split_bytes_some in E as [-> Hl].
    rewrite str_len_app in Hn. pose proof (str_len_nonneg b). lia.
Qed.

Lemma to_be_bytes_len k n : str_len (to_be_bytes k n) = Z.of_nat k.
Proof. induction k as [|k IH]; [done|]. unfold str_len in *. simpl. lia. Qed.

Lemma from_to_be_bytes k n acc : from_be_bytes acc (to_be_bytes k n) = acc * 256 ^ Z.of_nat k + n mod 256 ^ Z.of_nat k.
Proof.
  revert acc. induction k as [|k IH]; intros acc; cbn [to_be_bytes from_be_bytes].
  { rewrite Z.mod_1_r. simpl. lia. }
  rewrite byte_of_chr by (pose proof (Z.mod_pos_bound (n `div` 256 ^ Z.of_nat k) 256); lia). rewrite IH.
  rewrite Nat2Z.inj_succ, Z.pow_succ_r by lia. set (p := 256 ^ Z.of_nat k). assert (0 < p) by (apply Z.pow_pos_nonneg; lia).
  rewrite (Z.mul_comm 256 p), Z.rem_mul_r by lia. lia.
Qed.

Lemma prefix_read body : str_len body <= MAX_FRAME_BYTES -> from_be_bytes 0 (to_be_bytes LENGTH_PREFIX_BYTES (str_len body)) = str_len body.
Proof.
  intros Hl. rewrite from_to_be_bytes. pose proof (str_len_nonneg body). unfold MAX_FRAME_BYTES in Hl.
  change (256 ^ Z.of_nat LENGTH_PREFIX_BYTES) with 4294967296. rewrite Z.mod_small; lia.
Qed.

(** ** What a read obtains *)

Section Progress.
  Context {T : Type} `{Wire T}.

(** A message takes bytes off the stream, so reading on ends. *)
Lemma read_progress (r r' : Reader) (v : T) : read r = (r', Ready (Ok (Some v))) -> str_len (incoming r') < str_len (incoming r).
Proof.
  unfold read, read_exact, make_room. change (Z.of_nat LENGTH_PREFIX_BYTES) with 4.
  destruct (split_bytes 4 (incoming r)) as [[prefix s]|] eqn:Ep; [|by destruct (ending r)].
  apply split_bytes_some in Ep as [-> Hp]. cbn [incoming ending buffers]. set (n := from_be_bytes 0 prefix).
  destruct (n =? 0); [done|]. destruct (MAX_FRAME_BYTES <? n); [done|].
  destruct (split_bytes n s) as [[body rest]|] eqn:Eb; [|by destruct (ending r)]. apply split_bytes_some in Eb as [-> Hb].
  intros [= <- _]. cbn [incoming]. rewrite !str_len_app. pose proof (str_len_nonneg body). lia.
Qed.

Lemma read_each_ends fuel (r : Reader) : str_len (incoming r) < Z.of_nat fuel -> is_Some (snd (read_each (T := T) fuel r)).
Proof.
  revert r. induction fuel as [|fuel IH]; intros r Hf; [pose proof (str_len_nonneg (incoming r)); lia|]. cbn [read_each].
  destruct (read r) as [r' [[[v|]|e]|]] eqn:E; try (by eexists). apply read_progress in E. specialize (IH r' ltac:(lia)).
  by destruct (read_each fuel r').
Qed.

End Progress.

Section Codec.
  Context {T : Type} `{WireLaws T}.
  #[local] Set Default Proof Using "All".

Definition fits (v : T) (body : string) : Prop := to_vec v = Ok body /\ str_len body <= MAX_FRAME_BYTES.

Lemma fits_pos v body : fits v body -> 0 < str_len body.
Proof.
  intros [Hv _]. apply to_vec_nonempty in Hv. destruct body; [done|]. unfold str_len. simpl. lia.
Qed.

Lemma framed_len body : str_len (framed body) = 4 + str_len body.
Proof. unfold framed. by rewrite str_len_app, to_be_bytes_len. Qed.

Lemma read_exact_app bytes rest e bs : 
  read_exact (str_len bytes) {| incoming := bytes +:+ rest; ending := e; buffers := bs |}
  = ({| incoming := rest; ending := e; buffers := bs |}, Ready (Ok bytes)).
Proof. unfold read_exact. simpl. by rewrite split_bytes_app. Qed.

Lemma prefix_len body : str_len (to_be_bytes LENGTH_PREFIX_BYTES (str_len body)) = Z.of_nat LENGTH_PREFIX_BYTES.
Proof. apply to_be_bytes_len. Qed.

(** Past the length prefix of a frame, what is left to do is to read its body. *)
Lemma read_prefixed v body rest e bs : fits v body ->
  read (T := T) {| incoming := to_be_bytes LENGTH_PREFIX_BYTES (str_len body) +:+ rest; ending := e; buffers := bs |} =
  match read_exact (str_len body) {| incoming := rest; ending := e; buffers := bs ++ [str_len body] |} with
  | (self, Waiting) => (self, Waiting)
  | (self, Ready (Err error)) => (self, Ready (Err (Error_wrap "reading a frame body" (io_box error))))
  | (self, Ready (Ok body)) => (self, Ready (map_err Serialization (result_map Some (from_slice body))))
  end.
Proof.
  intros Hf. pose proof (fits_pos _ _ Hf). destruct Hf as [Hv Hl]. unfold read. rewrite <- (prefix_len body), read_exact_app.
  cbn beta iota zeta. rewrite prefix_read by done. destruct (Z.eqb_spec (str_len body) 0); [lia|].
  destruct (Z.ltb_spec MAX_FRAME_BYTES (str_len body)); [lia|]. done.
Qed.

Lemma read_framed v body rest e bs : fits v body ->
  read {| incoming := framed body +:+ rest; ending := e; buffers := bs |}
  = ({| incoming := rest; ending := e; buffers := bs ++ [str_len body] |}, Ready (Ok (Some v))).
Proof.
  intros Hf. unfold framed. rewrite str_app_assoc, (read_prefixed v) by done. rewrite read_exact_app.
  destruct Hf as [Hv _]. by rewrite (from_to_vec _ _ Hv).
Qed.

Definition no_message (o : Reading (Result (option T))) : Prop := forall v, o <> Ready (Ok (Some v)).

Lemma read_short p e bs : str_len p < 4 ->
  snd (read (T := T) {| incoming := p; ending := e; buffers := bs |}) =
  match e with Eof => Ready (Ok None) | Broken error => Ready (Err (Error_wrap "reading a frame length" error)) | Quiet => Waiting end.
Proof.
  intros Hp. unfold read, read_exact. simpl incoming. rewrite (proj2 (split_bytes_none _ _)) by exact Hp. by destruct e.
Qed.

Lemma app_split (p q a b : string) : p +:+ q = a +:+ b -> str_len a <= str_len p -> exists p', p = a +:+ p' /\ p' +:+ q = b.
Proof.
  revert p. induction a as [|c a IH]; intros p Heq Hl; [by exists p|]. destruct p as [|c' p].
  { pose proof (str_len_nonneg a). unfold str_len in *. simpl in Hl. lia. }
  injection Heq as -> Heq. destruct (IH p Heq) as (p' & -> & Hq); [unfold str_len in *; simpl in Hl; lia|]. by exists p'.
Qed.

(** A frame that was not finished is no message. *)
Lemma read_torn v body p q e bs : fits v body -> p +:+ q = framed body -> q <> EmptyString ->
  no_message (snd (read {| incoming := p; ending := e; buffers := bs |})).
Proof.
  intros Hf Heq Hq w. destruct (Z.lt_ge_cases (str_len p) 4) as [Hp|Hp].
  { rewrite read_short by done. by destruct e. }
  destruct (app_split p q _ _ Heq) as (p' & -> & Hb); [by rewrite to_be_bytes_len|]. rewrite (read_prefixed v) by done.
  unfold read_exact. cbn [incoming]. rewrite (proj2 (split_bytes_none _ _)); [by destruct e|].
  rewrite <- Hb, str_len_app. destruct q; [done|]. pose proof (str_len_nonneg q). unfold str_len in *. simpl. lia.
Qed.

(** ** What a write leaves *)

(** Of a message, the whole frame, or less. *)
Definition torn (v : T) (p : string) : Prop :=
  p = EmptyString \/ exists body q, fits v body /\ p +:+ q = framed body /\ q <> EmptyString.

Lemma str_len_zero (a : string) : str_len a = 0 -> a = EmptyString.
Proof. destruct a; [done|]. unfold str_len. simpl. lia. Qed.

Lemma write_spec v w w' r : write v w = (w', r) ->
  (exists body, fits v body /\ written w' = written w +:+ framed body) \/
  (is_ok r = false /\ exists p, torn v p /\ written w' = written w +:+ p).
Proof.
  assert (Hnone : is_ok r = false -> (is_ok r = false /\ exists p, torn v p /\ written w = written w +:+ p)).
  { intros Hr. split; [done|]. exists EmptyString. split; [by left|by rewrite str_app_nil]. }
  unfold write. destruct (to_vec v) as [body|e] eqn:Hv; [|intros [= <- <-]; right; by apply Hnone].
  destruct (Z.ltb_spec MAX_FRAME_BYTES (str_len body)) as [|Hl]; [intros [= <- <-]; right; by apply Hnone|].
  assert (Hf : fits v body) by done. remember (framed body) as fb eqn:Hfb. unfold write_all.
  destruct (room w) as [[n error]|]; [|intros [= <- <-]; left; exists body; by rewrite <- Hfb].
  destruct (Z.leb_spec (str_len fb) n) as [|Hn]; intros [= <- <-]; [left; exists body; by rewrite <- Hfb|].
  right. split; [done|]. cbn [written]. destruct (split_bytes n fb) as [[a b]|] eqn:E.
  - apply split_bytes_some in E as [Eq Hla]. exists a. split; [|done]. right. exists body, b. rewrite <- Hfb.
    split; [done|]. split; [done|]. intros ->. rewrite str_app_nil in Eq. pose proof (framed_len body). pose proof (str_len_nonneg body).
    subst a. rewrite Hfb in *. lia.
  - apply split_bytes_none in E. lia.
Qed.

Lemma write_healthy v w body : fits v body -> room w = None -> flushing w = None ->
  write v w = ({| written := written w +:+ framed body; room := None; flushing := None |}, Ok tt).
Proof.
  intros [Hv Hl] Hr Hf. unfold write. rewrite Hv. destruct (Z.ltb_spec MAX_FRAME_BYTES (str_len body)); [lia|].
  unfold write_all. rewrite Hr. unfold flush. simpl. by rewrite Hf.
Qed.

(** The frames of some messages, one after the other. *)
Inductive frames : list T -> string -> Prop :=
  | frames_nil : frames [] EmptyString
  | frames_cons v body l s : fits v body -> frames l s -> frames (v :: l) (framed body +:+ s).

Lemma frames_len l s : frames l s -> Z.of_nat (length l) <= str_len s.
Proof.
  induction 1 as [|v body l s Hf _ IH]; [done|]. rewrite str_len_app, framed_len. pose proof (str_len_nonneg body). simpl. lia.
Qed.

Lemma write_each_spec l : forall w w' r, write_each l w = (w', r) ->
  exists n s p, frames (take n l) s /\ written w' = written w +:+ (s +:+ p) /\
    (r = Ok tt -> take n l = l /\ p = EmptyString) /\ (p = EmptyString \/ exists v, torn v p).
Proof.
  induction l as [|v l IH]; intros w w' r; simpl.
  { intros [= <- <-]. exists O, EmptyString, EmptyString. split_and!; [constructor|by rewrite str_app_nil|done|by left]. }
  destruct (write v w) as [w1 [[]|e]] eqn:E; apply write_spec in E; intros Hrest.
  - destruct E as [(body & Hf & E)|[[=] _]]. destruct (IH _ _ _ Hrest) as (n & s & p & Hfr & Hw & Hok & Hp).
    exists (S n), (framed body +:+ s), p. split_and!; [by constructor|by rewrite Hw, E, !str_app_assoc| |done].
    intros ->. destruct Hok as [Ht ->]; [done|]. simpl. by rewrite Ht.
  - injection Hrest as <- <-. destruct E as [(body & Hf & E)|(_ & p & Ht & E)].
    + exists 1%nat, (framed body), EmptyString. rewrite str_app_nil. split_and!; [|done|done|by left].
      simpl. rewrite take_0, <- (str_app_nil (framed body)). by constructor; [|constructor].
    + exists 0%nat, EmptyString, p. split_and!; [constructor|done|done|]. right. by exists v.
Qed.

Lemma read_each_frames l s p e : frames l s ->
  (p = EmptyString \/ exists v, torn v p) -> forall bs fuel, (length l < fuel)%nat ->
  exists last, read_each (T := T) fuel {| incoming := s +:+ p; ending := e; buffers := bs |} = (l, Some last) /\
    (p = EmptyString -> last = at_end e).
Proof.
  intros Hfr Hp. induction Hfr as [|v body l s Hf Hfr IH]; intros bs [|fuel] Hfuel; simpl in Hfuel; try lia; cbn [read_each].
  - change (EmptyString +:+ p) with p.
    assert (Hmsg : no_message (snd (read {| incoming := p; ending := e; buffers := bs |}))).
    { assert (Hempty : no_message (snd (read {| incoming := EmptyString; ending := e; buffers := bs |}))).
      { rewrite read_short by done. intros v. by destruct e. }
      destruct Hp as [->|(v & [->|(body & q & Hf & Hq & Hne)])]; [done|done|]. by eapply read_torn. }
    destruct (read {| incoming := p; ending := e; buffers := bs |}) as [r o] eqn:E. simpl in Hmsg.
    assert (Hend : p = EmptyString -> o = match e with Eof => Ready (Ok None)
      | Broken error => Ready (Err (Error_wrap "reading a frame length" error)) | Quiet => Waiting end).
    { intros ->. pose proof (read_short EmptyString e bs ltac:(done)) as Hs. rewrite E in Hs. exact Hs. }
    destruct o as [[[v|]|error]|]; [by destruct (Hmsg v)|eexists; split; [done|]..]; intros Hpe; specialize (Hend Hpe); by destruct e; simplify_eq/=.
  - rewrite str_app_assoc, (read_framed v) by done. destruct (IH (bs ++ [str_len body]) fuel ltac:(lia)) as (last & -> & Hl). by exists last.
Qed.

(** C22. messages cross a stream whole and in order: whatever is written one after the other, and
    wherever the stream breaks - in a length, in a body, or at a message that does not fit - the
    reader obtains a first part of the messages that were sent, each as it was, and nothing
    else.  When the writes succeed it obtains all of them and then sees how the stream ended, and
    they succeed when the stream holds and every message fits. *)
Theorem messages_cross_whole (l : list T) (w w' : Writer) (r : Result unit) (e : Ending) :
  written w = EmptyString -> write_each l w = (w', r) ->
  exists n last, read_to_end {| incoming := written w'; ending := e; buffers := [] |} = (take n l, Some last) /\
    (r = Ok tt -> take n l = l /\ last = at_end e) /\
    (room w = None -> flushing w = None -> Forall (fun v => exists body, fits v body) l -> r = Ok tt).
Proof.
  intros Hw Hwr. destruct (write_each_spec l _ _ _ Hwr) as (n & s & p & Hfr & Hw' & Hok & Hp). rewrite Hw in Hw'. change (EmptyString +:+ ?x) with x in Hw'.
  pose proof (frames_len _ _ Hfr) as Hlen.
  destruct (read_each_frames _ _ _ e Hfr Hp [] (S (String.length (written w')))) as (last & Hread & Hlast).
  { rewrite Hw'. pose proof (str_len_app s p). pose proof (str_len_nonneg p). unfold str_len in *. lia. }
  exists n, last. unfold read_to_end. cbn [incoming]. rewrite <- Hw' in Hread. split; [exact Hread|]. split.
  - intros Hr. destruct (Hok Hr) as [Ht ->]. split; [done|by apply Hlast].
  - clear - H0 Hwr. revert w Hwr. induction l as [|v l IH]; intros w Hwr Hr Hf Hall; [by injection Hwr|]. simpl in Hwr.
    apply Forall_cons in Hall as [[body Hv] Hall]. rewrite (write_healthy v w body) in Hwr by done. by eapply IH.
Qed.

(** a peer cannot make the reader hold more than a frame: whatever bytes arrive, a read makes room for
    at most one body, of at most [MAX_FRAME_BYTES] bytes, and takes no more than a frame off the
    stream; a message it reports is what a well-formed frame of that size carried. *)
Theorem reads_are_bounded (r r' : Reader) (o : Reading (Result (option T))) :
  read r = (r', o) ->
  (exists body, buffers r' = buffers r ++ body /\ (length body <= 1)%nat /\ Forall (fun n => 1 <= n <= MAX_FRAME_BYTES) body) /\
  str_len (incoming r) - str_len (incoming r') <= 4 + MAX_FRAME_BYTES /\
  match o with
  | Ready (Ok (Some v)) => exists prefix body, incoming r = prefix +:+ (body +:+ incoming r') /\ str_len prefix = 4 /\
      str_len body = from_be_bytes 0 prefix /\ 1 <= str_len body <= MAX_FRAME_BYTES /\ from_slice body = Ok v
  | _ => True
  end.
Proof using Type.
  assert (Hlen : forall n s a b, split_bytes n s = Some (a, b) -> 0 <= n -> s = a +:+ b /\ str_len a = n /\ str_len s = n + str_len b).
  { intros n s a b Hs Hn. apply split_bytes_some in Hs as [-> Hl]. rewrite str_len_app. split; [done|]. lia. }
  unfold read, read_exact, make_room. change (Z.of_nat LENGTH_PREFIX_BYTES) with 4.
  destruct (split_bytes 4 (incoming r)) as [[prefix s]|] eqn:Ep; cbn [incoming ending buffers].
  2: { apply split_bytes_none in Ep. intros Hr. assert (buffers r' = buffers r /\ incoming r' = EmptyString /\ match o with Ready (Ok (Some _)) => False | _ => True end)
         as (-> & -> & Ho) by (destruct (ending r); injection Hr as <- <-; done).
       split; [exists []; rewrite app_nil_r; split_and!; [done|simpl; lia|constructor]|].
       split; [unfold MAX_FRAME_BYTES; unfold str_len at 2; simpl; lia|]. by destruct o as [[[]|]|]. }
  apply Hlen in Ep as (Hin & Hpl & Hsl); [|lia]. set (n := from_be_bytes 0 prefix). pose proof (str_len_nonneg s).
  assert (Hkeep : exists body, buffers r = buffers r ++ body /\ (length body <= 1)%nat /\ Forall (fun n => 1 <= n <= MAX_FRAME_BYTES) body).
  { exists []. rewrite app_nil_r. split_and!; [done|simpl; lia|constructor]. }
  destruct (Z.eqb_spec n 0) as [|Hn0]; [intros [= <- <-]; split; [exact Hkeep|]; split; [unfold MAX_FRAME_BYTES; simpl; lia|done]|].
  destruct (Z.ltb_spec MAX_FRAME_BYTES n) as [|Hnm]; [intros [= <- <-]; split; [exact Hkeep|]; split; [unfold MAX_FRAME_BYTES; simpl; lia|done]|].
  assert (Hpos : 0 <= n).
  { clear. unfold n. assert (forall acc, 0 <= acc -> 0 <= from_be_bytes acc prefix) as Hp; [|by apply Hp].
    induction prefix as [|c p IH]; intros acc Ha; simpl; [done|]. apply IH. unfold byte_of. lia. }
  assert (Hroom : exists body, buffers r ++ [n] = buffers r ++ body /\ (length body <= 1)%nat /\ Forall (fun n => 1 <= n <= MAX_FRAME_BYTES) body).
  { exists [n]. split_and!; [done|simpl; lia|]. constructor; [lia|constructor]. }
  destruct (split_bytes n s) as [[body rest]|] eqn:Eb.
  - apply Hlen in Eb as (Hs & Hbl & Hrl); [|done]. intros [= <- <-]. split; [exact Hroom|]. split; [simpl; lia|].
    destruct (from_slice body) as [v|e] eqn:Ev; simpl; [|done]. exists prefix, body. rewrite <- Hs. split_and!; [done|lia|done|lia|lia|done].
  - apply split_bytes_none in Eb. intros Hr. assert (buffers r' = buffers r ++ [n] /\ incoming r' = EmptyString /\ match o with Ready (Ok (Some _)) => False | _ => True end)
      as (-> & -> & Ho) by (destruct (ending r); injection Hr as <- <-; done).
    split; [exact Hroom|]. split; [unfold str_len at 2; simpl; lia|]. by destruct o as [[[]|]|].
Qed.
End Codec.

(** ** A wire of quoted strings *)

#[local] Instance quoted : Wire string :=
  {| to_vec s := Ok (String "q" s); from_slice s := match s with String "q" s => Ok s | _ => Err (BoxForeign "unquoted" None) end |}.
#[local] Instance quoted_laws : WireLaws string.
Proof. split; by intros v b [= <-]. Qed.

(** The stream breaks in the middle of the second message. *)
Definition breaking : Writer := {| written := EmptyString; room := Some (13, BoxForeign "reset" None); flushing := None |}.

Lemma messages_cross_whole_witness :
  let (w, r) := write_each ["first"; "second"]%string breaking in
  str_len (written w) = 13 /\
  exists n last, read_to_end {| incoming := written w; ending := Eof; buffers := [] |} = (take n ["first"; "second"]%string, Some last).
Proof.
  destruct (write_each ["first"; "second"]%string breaking) as [w r] eqn:E. split.
  - vm_compute in E. injection E as <- _. reflexivity.
  - destruct (messages_cross_whole _ breaking w r Eof eq_refl E) as (n & last & Hr & _). by exists n, last.
Defined.

(** A length of four gigabytes, and nothing else. *)
Definition greedy : Reader := {| incoming := String "255" (String "255" (String "255" (String "255" EmptyString))); ending := Quiet; buffers := [] |}.

Lemma reads_are_bounded_witness :
  exists r' o, read (T := string) greedy = (r', o) /\ buffers r' = [] /\
  str_len (incoming greedy) - str_len (incoming r') <= 4 + MAX_FRAME_BYTES.
Proof.
  exists (fst (read (T := string) greedy)), (snd (read (T := string) greedy)). split; [reflexivity|]. split; [vm_compute; reflexivity|].
  apply (reads_are_bounded (T := string) greedy _ (snd (read (T := string) greedy))). reflexivity.
Defined.

(** A connection cut off inside the four bytes of a length reads as one closed between frames. *)
Example cut_length_is_a_clean_close :
  snd (read (T := string) {| incoming := String "000" (String "000" EmptyString); ending := Eof; buffers := [] |}) = Ready (Ok None).
Proof. reflexivity. Qed.
