(* ===== verification/Ipc.v ===== *)
(** * Ipc: the protocol between the daemon and its clients

    [crates/ipc/src]: the token ([credentials.rs]), the messages and errors of the wire
    ([protocol.rs]), how a host decides on a handshake ([listener.rs]) and the client's side
    ([client.rs]).  Sockets and files are I/O; the bytes cross in the frames of [Frame]. *)

From S2P Require Import Approval Prelude Base Text Jobs Window ContextStore Agent AuditTrail Frame.

(** ** The token ([credentials.rs]) *)

Definition TOKEN_BYTES : nat := 32.

Record Token := { token_text : string }.

Definition is_ascii_hexdigit (b : Z) : bool :=
  ((48 <=? b) && (b <=? 57)) || ((97 <=? b) && (b <=? 102)) || ((65 <=? b) && (b <=? 70)).

Definition Token_parse (raw : string) : Result Token :=
  if negb (str_len raw =? Z.of_nat TOKEN_BYTES * 2) || negb (forallb is_ascii_hexdigit (bytes_of raw))
  then Err (InvalidArgument ("a token is " +:+ fmt_u (Z.of_nat TOKEN_BYTES * 2) +:+ " hexadecimal characters"))
  else Ok {| token_text := raw |}.

(** [write!(hex, "{byte:02x}")] *)
Definition hex_digit (n : Z) : ascii := chr (if n <? 10 then 48 + n else 87 + n).
Fixpoint hex (bytes : list Z) : string :=
  match bytes with [] => EmptyString | b :: bytes => String (hex_digit (b `div` 16)) (String (hex_digit (b `mod` 16)) (hex bytes)) end.

(** [Token::generate], from the random bytes it read *)
Definition Token_generate (bytes : list Z) : Token := {| token_text := hex bytes |}.

(** [difference |= left ^ right], over the bytes in step *)
Fixpoint difference (acc : Z) (expected presented : list Z) : Z :=
  match expected, presented with
  | l :: expected, r :: presented => difference (Z.lor acc (Z.lxor l r)) expected presented
  | _, _ => acc
  end.

Definition Token_matches (self : Token) (presented : string) : bool :=
  if negb (str_len (token_text self) =? str_len presented) then false
  else difference 0 (bytes_of (token_text self)) (bytes_of presented) =? 0.

(** ** Messages ([protocol.rs]) *)

Definition PROTOCOL_VERSION : Z := 1.
Definition HANDSHAKE_TIMEOUT_SECS : Z := 10.

Record Hello := { hello_protocol : Z; hello_token : string; hello_client : string; hello_interactive : bool }.

Inductive RejectReason := Unauthenticated | UnsupportedProtocol | TooManyConnections | ShuttingDown.

Definition reason_as_str (self : RejectReason) : string :=
  match self with
  | Unauthenticated => "unauthenticated"
  | UnsupportedProtocol => "unsupported_protocol"
  | TooManyConnections => "too_many_connections"
  | ShuttingDown => "shutting_down"
  end.

Inductive Welcome :=
  | Accepted (protocol : Z) (host : string) (who : Principal) (interactive : bool)
  | Rejected (reason : RejectReason) (message : string).

Record ScheduleRequest := {
  sch_id : JobId;
  sch_trigger : Trigger;
  sch_prompt : string;
  sch_session : option SessionId;
  sch_persistent : bool;
  sch_timeout_ms : option Z;
}.

Inductive Request :=
  | Ping
  | Status
  | Prompt (session : option SessionId) (input : string)
  | Cancel (call : Z)
  | Approve (approval : ApprovalId)
  | DenyApproval (approval : ApprovalId)
  | Sessions
  | Clear (session : SessionId)
  | Compact (session : SessionId) (keep : Z)
  | Jobs
  | Schedule (request : ScheduleRequest)
  | CancelJob (job : JobId)
  | Audit (query : AuditQuery)
  | Prune (older_than_ms : Z) (dry_run : bool).

Record Call := { call_id : Z; call_request : Request }.

Record HostStatus := {
  st_version : string;
  st_agent : string;
  st_user : string;
  st_model : string;
  st_root : string;
  st_database : option string;
  st_memory : string;
  st_runs_jobs : bool;
  st_connections : Z;
  st_uptime_ms : Z;
}.

Inductive Reply :=
  | Reply_Ok
  | Pong
  | Reply_Status (status : HostStatus)
  | Finished (response : AgentResponse)
  | Reply_Sessions (sessions : list ContextStats)
  | Removed (records : Z)
  | Reply_Jobs (jobs : list ScheduledJob)
  | Reply_Cancelled (existed : bool)
  | Reply_Audit (records : list AuditRecord) (issued : Z)
  | Pruned (removed issued : Z).

Inductive WireErrorKind :=
  | Wire_Config | Wire_NotFound | Wire_InvalidArgument | Wire_Unsupported | Wire_Permission | Wire_Confinement
  | Wire_Timeout | Wire_Cancelled | Wire_Other.

(** [WireErrorKind::of] *)
Definition WireErrorKind_of (error : Error) : WireErrorKind :=
  match Error_kind error with
  | Kind_Config => Wire_Config
  | Kind_NotFound => Wire_NotFound
  | Kind_InvalidArgument => Wire_InvalidArgument
  | Kind_Unsupported => Wire_Unsupported
  | Kind_Permission => Wire_Permission
  | Kind_Confinement => Wire_Confinement
  | Kind_Timeout => Wire_Timeout
  | Kind_Cancelled => Wire_Cancelled
  | _ => Wire_Other
  end.

Record WireError := { wire_kind : WireErrorKind; wire_message : string }.

(** [WireError::into_error] *)
Definition into_error (self : WireError) : Error :=
  match wire_kind self with
  | Wire_Permission => PermissionDenied (wire_message self)
  | Wire_InvalidArgument => InvalidArgument (wire_message self)
  | Wire_Unsupported => Unsupported (wire_message self)
  | Wire_Confinement => Confinement (wire_message self)
  | Wire_Cancelled => Cancelled
  | _ => Error_other (wire_message self)
  end.

Inductive Response :=
  | Update (id : Z) (update : AgentUpdate)
  | Done (id : Z) (reply : Reply)
  | Failed (id : Z) (error : WireError)
  | Approval (pending : PendingApproval)
  | Closing (message : string).

Definition reply_name (reply : Reply) : string :=
  match reply with
  | Reply_Ok => "ok"
  | Pong => "pong"
  | Reply_Status _ => "a status"
  | Finished _ => "a finished turn"
  | Reply_Sessions _ => "a session listing"
  | Removed _ => "a removal count"
  | Reply_Jobs _ => "a job listing"
  | Reply_Cancelled _ => "a cancellation"
  | Reply_Audit _ _ => "audit records"
  | Pruned _ _ => "a prune result"
  end.

Definition unexpected (expected : string) (reply : Reply) : Error :=
  Error_other ("the host answered with " +:+ reply_name reply +:+ " where " +:+ expected +:+ " was expected").

(** ** An error in words

    [Display] for [Error] and what it may wrap.  [{:?}] of a list of names and of a duration is the
    standard library's formatting. *)
Section Display.
  Context (debug_names : list string -> string) (debug_duration : Duration -> string).

(** [Display for LifecyclePhase] *)
Definition phase_text (phase : LifecyclePhase) : string :=
  match phase with Phase_Init => "init" | Phase_Start => "start" | Phase_Stop => "stop" end.

(** [Display for Error] *)
Definition Error_display (self : Error) : string :=
  match self with
  | Config path message => "configuration error at `" +:+ path +:+ "`: " +:+ message
  | NotFound kind id => "no " +:+ kind +:+ " named `" +:+ id +:+ "`"
  | AlreadyExists kind id => "a " +:+ kind +:+ " named `" +:+ id +:+ "` is already registered"
  | Ambiguous service candidates => "service `" +:+ service +:+ "` is ambiguous; candidates: " +:+ debug_names candidates
  | MissingDependency component dependency =>
      "component `" +:+ component +:+ "` requires `" +:+ dependency +:+ "`, which is not registered"
  | DependencyCycle members => "dependency cycle among components: " +:+ debug_names members
  | Lifecycle message => "invalid lifecycle transition: " +:+ message
  | Component component phase _ => "component `" +:+ component +:+ "` failed during " +:+ phase_text phase
  | InvalidArgument message => "invalid argument: " +:+ message
  | Unsupported message => "unsupported: " +:+ message
  | PermissionDenied message => "permission denied: " +:+ message
  | Confinement message => "confinement violation: " +:+ message
  | Timeout after => "operation timed out after " +:+ debug_duration after
  | Cancelled => "operation was cancelled"
  | Serialization _ => "serialization error"
  | Other context _ => context
  end.

(** [while let Some(cause) = source { message.push_str(&format!(": {cause}")); ... }] *)
Fixpoint causes (b : BoxError) : string :=
  match b with
  | BoxTransient detail _ None | BoxForeign detail None => ": " +:+ detail
  | BoxTransient detail _ (Some b) | BoxForeign detail (Some b) => ": " +:+ detail +:+ causes b
  | BoxKernel e =>
      ": " +:+ Error_display e +:+
      match e with
      | Component _ _ b | Serialization b => causes b
      | Other _ (Some b) => causes b
      | _ => EmptyString
      end
  end.

(** [WireError::new] *)
Definition WireError_new (error : Error) : WireError :=
  {| wire_kind := WireErrorKind_of error;
     wire_message := Error_display error +:+ match Error_source error with Some b => causes b | None => EmptyString end |}.
End Display.

(** ** The host's side of a handshake ([listener.rs]) *)

Inductive Authentication :=
  | Authenticated (hello : Hello)
  | Refused (reason : RejectReason) (message : string).

(** [authenticate]: what the read had obtained when the timeout of [HANDSHAKE_TIMEOUT] ran out. *)
Definition authenticate `{Wire Hello} (stream : Reader) (token : Token) : Authentication :=
  match snd (read stream) with
  | Waiting => Refused Unauthenticated ("no handshake within " +:+ fmt_u HANDSHAKE_TIMEOUT_SECS +:+ " seconds")
  | Ready (Err _) | Ready (Ok None) => Refused Unauthenticated "the handshake was not a handshake"
  | Ready (Ok (Some hello)) =>
      if negb (Token_matches token (hello_token hello)) then
        Refused Unauthenticated "the token presented is not this host's"
      else if negb (hello_protocol hello =? PROTOCOL_VERSION) then
        Refused UnsupportedProtocol
          ("this host speaks protocol " +:+ fmt_u PROTOCOL_VERSION +:+ "; the client speaks " +:+ fmt_u (hello_protocol hello))
      else Authenticated hello
  end.

(** ** The client's side ([client.rs]) *)

Record Connected := { conn_host : string; conn_principal : Principal; conn_interactive : bool }.

Record Client := { reader : Reader; writer : Writer; next_id : Z }.

Definition rejection (reason : RejectReason) (message : string) : Error :=
  let text := "the host refused the connection (" +:+ reason_as_str reason +:+ "): " +:+ message in
  match reason with
  | Unauthenticated => PermissionDenied text
  | UnsupportedProtocol => Unsupported text
  | TooManyConnections | ShuttingDown => Error_other text
  end.

Definition no_answer : Error := Error_other "the host closed the connection without answering".

(** [Client::handshake]; [Waiting] is a host that has not answered yet. *)
Definition handshake `{Wire Hello} `{Wire Welcome} (reader : Reader) (writer : Writer) (token : Token) (client : string)
    (interactive : bool) : Reading (Result (Client * Connected)) :=
  match write {| hello_protocol := PROTOCOL_VERSION; hello_token := token_text token; hello_client := client;
                 hello_interactive := interactive |} writer with
  | (_, Err e) => Ready (Err e)
  | (writer, Ok _) =>
      match read reader with
      | (_, Waiting) => Waiting
      | (_, Ready (Err e)) => Ready (Err e)
      | (_, Ready (Ok None)) => Ready (Err no_answer)
      | (reader, Ready (Ok (Some welcome))) =>
          match welcome with
          | Accepted protocol host who interactive =>
              if negb (protocol =? PROTOCOL_VERSION) then
                Ready (Err (Error_other ("the host accepted the connection but speaks protocol " +:+ fmt_u protocol +:+ ", not "
                                         +:+ fmt_u PROTOCOL_VERSION)))
              else Ready (Ok ({| reader := reader; writer := writer; next_id := 1 |},
                              {| conn_host := host; conn_principal := who; conn_interactive := interactive |}))
          | Rejected reason message => Ready (Err (rejection reason message))
          end
      end
  end.

(** [Client::send]: the identifier is used up whether or not the frame goes out; [+= 1] on a [u64] wraps
    in a release build. *)
Definition send `{Wire Call} (request : Request) (self : Client) : Client * Result Z :=
  let id := next_id self in
  let (w, r) := write {| call_id := id; call_request := request |} (writer self) in
  ({| reader := reader self; writer := w; next_id := wrap64 (id + 1) |}, result_map (fun _ => id) r).

(** [Client::recv] *)
Definition recv `{Wire Response} (self : Client) : Client * Reading (Result (option Response)) :=
  let (r, o) := read (reader self) in ({| reader := r; writer := writer self; next_id := next_id self |}, o).

Definition closed_early : Error := Error_other "the host closed the connection before answering".
Definition shutting_down (message : string) : Error := Error_other ("the host is shutting down: " +:+ message).

(** The answer to [id], if this response is one. *)
Definition answers_to (id : Z) (response : Response) : option (Result Reply) :=
  match response with
  | Done answered reply => if answered =? id then Some (Ok reply) else None
  | Failed answered error => if answered =? id then Some (Err (into_error error)) else None
  | Closing message => Some (Err (shutting_down message))
  | _ => None
  end.

(** The loop of [Client::call_observing], with what was handed to [observe]; [None] is out of turns. *)
Fixpoint answer_loop `{Wire Response} (fuel : nat) (id : Z) (observed : list Response) (self : Client) :
    Client * list Response * option (Reading (Result Reply)) :=
  match fuel with
  | O => (self, observed, None)
  | S fuel =>
      match recv self with
      | (self, Waiting) => (self, observed, Some Waiting)
      | (self, Ready (Err e)) => (self, observed, Some (Ready (Err e)))
      | (self, Ready (Ok None)) => (self, observed, Some (Ready (Err closed_early)))
      | (self, Ready (Ok (Some response))) =>
          match answers_to id response with
          | Some r => (self, observed, Some (Ready r))
          | None => answer_loop fuel id (observed ++ [response]) self
          end
      end
  end.

(** [Client::call_observing]: every response takes bytes off the stream. *)
Definition call_observing `{Wire Call} `{Wire Response} (request : Request) (self : Client) :
    Client * list Response * option (Reading (Result Reply)) :=
  match send request self with
  | (self, Err e) => (self, [], Some (Ready (Err e)))
  | (self, Ok id) => answer_loop (S (String.length (incoming (reader self)))) id [] self
  end.

(** ** Tokens *)

Lemma byte_of_bound c : 0 <= byte_of c < 256.
Proof. unfold byte_of. pose proof (N_ascii_bounded c). lia. Qed.

Lemma bytes_of_inj s t : bytes_of s = bytes_of t -> s = t.
Proof.
  revert t. induction s as [|c s IH]; intros [|d t]; simpl; try done. intros [= Hc Hs]. f_equal; [|by apply IH].
  unfold byte_of in Hc. apply N2Z.inj in Hc. by rewrite <- (ascii_N_embedding c), <- (ascii_N_embedding d), Hc.
Qed.

Lemma bytes_of_len s : Z.of_nat (length (bytes_of s)) = str_len s.
Proof. induction s as [|c s IH]; [done|]. unfold str_len in *. simpl. lia. Qed.

Lemma difference_zero l : forall acc k, length l = length k -> 0 <= acc -> Forall (Z.le 0) l -> Forall (Z.le 0) k ->
  difference acc l k = 0 <-> acc = 0 /\ l = k.
Proof.
  induction l as [|a l IH]; intros acc [|b k] Hl Ha Hp Hk; simpl in *; try lia; [tauto|].
  apply Forall_cons in Hp as [Hpa Hp], Hk as [Hkb Hk]. assert (0 <= Z.lxor a b) by (apply Z.lxor_nonneg; lia).
  rewrite IH by (try apply Z.lor_nonneg; try lia; done). rewrite Z.lor_eq_0_iff, Z.lxor_eq_0_iff. split.
  - by intros [[-> ->] ->].
  - by intros [-> [= -> ->]].
Qed.

Lemma bytes_of_nonneg s : Forall (Z.le 0) (bytes_of s).
Proof. induction s as [|c s IH]; simpl; constructor; [|done]. pose proof (byte_of_bound c). lia. Qed.

(** The comparison that looks at every byte is equality. *)
Lemma Token_matches_spec self presented : Token_matches self presented = true <-> presented = token_text self.
Proof.
  unfold Token_matches. destruct (Z.eqb_spec (str_len (token_text self)) (str_len presented)) as [Hl|Hl]; simpl; [|split; [done|intros ->; lia]].
  rewrite Z.eqb_eq, difference_zero; [|rewrite <- !bytes_of_len in Hl; lia|lia|apply bytes_of_nonneg..]. split.
  - intros [_ Hb]. symmetry. by apply bytes_of_inj.
  - by intros ->.
Qed.

Lemma hex_digit_ok n : 0 <= n < 16 -> is_ascii_hexdigit (byte_of (hex_digit n)) = true.
Proof.
  intros Hn. unfold hex_digit. destruct (Z.ltb_spec n 10); rewrite byte_of_chr by lia; unfold is_ascii_hexdigit.
  - rewrite !orb_true_iff, !andb_true_iff, !Z.leb_le. lia.
  - rewrite !orb_true_iff, !andb_true_iff, !Z.leb_le. lia.
Qed.

(** A token that was drawn is one that is accepted when it is read back. *)
Lemma generated_token_parses bytes : length bytes = TOKEN_BYTES -> Forall (fun b => 0 <= b < 256) bytes ->
  Token_parse (token_text (Token_generate bytes)) = Ok (Token_generate bytes).
Proof.
  intros Hl Hb. assert (Hlen : str_len (hex bytes) = Z.of_nat (length bytes) * 2).
  { clear. induction bytes as [|b l IH]; [done|]. unfold str_len in *. simpl. lia. }
  assert (Hall : forallb is_ascii_hexdigit (bytes_of (hex bytes)) = true).
  { clear - Hb. induction Hb as [|b l Hb _ IH]; [done|]. simpl. rewrite IH, !hex_digit_ok; [done|apply Z.mod_pos_bound; lia|].
    pose proof (Z.div_lt_upper_bound b 16 16). pose proof (Z.div_pos b 16). lia. }
  unfold Token_parse. simpl. by rewrite Hlen, Hl, Hall.
Qed.

(** ** Who gets in *)

Section Handshake.
  Context `{WireLaws Hello}.
  #[local] Set Default Proof Using "All".

End Handshake.

(** ** Errors on the wire *)

Definition acted_on (kind : WireErrorKind) : bool :=
  match kind with Wire_Permission | Wire_InvalidArgument | Wire_Unsupported | Wire_Confinement | Wire_Cancelled => true | _ => false end.

(** The kinds a caller acts on survive the wire; the rest become an error like any other, with the
    words the host sent. *)
Lemma into_error_kind names duration e :
  let wire := WireError_new names duration e in
  WireErrorKind_of (into_error wire) = (if acted_on (wire_kind wire) then WireErrorKind_of e else Wire_Other) /\
  (wire_kind wire <> Wire_Cancelled -> exists before, Error_display names duration (into_error wire) = before +:+ wire_message wire).
Proof.
  cbn. unfold into_error, WireError_new. cbn. split; [by destruct e|].
  intros Hk. exists (match WireErrorKind_of e with
    | Wire_Permission => "permission denied: " | Wire_InvalidArgument => "invalid argument: "
    | Wire_Unsupported => "unsupported: " | Wire_Confinement => "confinement violation: " | _ => EmptyString end)%string.
  by destruct (WireErrorKind_of e).
Qed.

(** ** A call and its answer *)

Section Client.
  Context `{Wire Response}.
  #[local] Set Default Proof Using "All".

(** How a call ends when none of the responses answers it. *)
Definition unanswered (last : Reading (Result unit)) : Reading (Result Reply) :=
  match last with
  | Ready (Ok _) => Ready (Err closed_early)
  | Ready (Err e) => Ready (Err e)
  | Waiting => Waiting
  end.

Fixpoint until_answer (id : Z) (l : list Response) : list Response * option (Result Reply) :=
  match l with
  | [] => ([], None)
  | response :: l =>
      match answers_to id response with
      | Some r => ([], Some r)
      | None => prod_map (cons response) (fun r => r) (until_answer id l)
      end
  end.

Lemma answer_loop_spec fuel : forall id observed self l last,
  read_each fuel (reader self) = (l, Some last) ->
  exists self', answer_loop fuel id observed self =
    (self', observed ++ fst (until_answer id l),
     Some (match snd (until_answer id l) with Some r => Ready r | None => unanswered last end)).
Proof.
  induction fuel as [|fuel IH]; intros id observed self l last Hr; [done|]. cbn [read_each] in Hr. cbn [answer_loop]. unfold recv.
  destruct (read (reader self)) as [r' [[[v|]|e]|]].
  - destruct (read_each fuel r') as [l' last'] eqn:E. injection Hr as <- ->. simpl. destruct (answers_to id v) as [r|].
    + simpl. rewrite app_nil_r. by eexists.
    + destruct (IH id (observed ++ [v]) {| reader := r'; writer := writer self; next_id := next_id self |} l' last E) as [self' ->].
      exists self'. rewrite <- app_assoc. by destruct (until_answer id l').
  - injection Hr as <- <-. simpl. rewrite app_nil_r. by eexists.
  - injection Hr as <- <-. simpl. rewrite app_nil_r. by eexists.
  - injection Hr as <- <-. simpl. rewrite app_nil_r. by eexists.
Qed.

(** a call gets its own answer and nothing is dropped on the way: with the responses that stand on
    the stream, a call ends at the first that answers its identifier - or that says the host is
    closing - with just that answer, and everything before it was handed to the observer, in
    order; where none does, all of it was observed and the call ends as the stream does.  It
    always comes to an end on what has arrived. *)
Theorem call_gets_its_own_answer `{Wire Call} (request : Request) (self self' : Client) (observed : list Response)
    (o : option (Reading (Result Reply))) :
  call_observing request self = (self', observed, o) ->
  match snd (send request self) with
  | Err e => o = Some (Ready (Err e)) /\ observed = []
  | Ok id => exists l last, read_to_end (reader self) = (l, Some last) /\ id = next_id self /\
      observed = fst (until_answer id l) /\
      o = Some (match snd (until_answer id l) with Some r => Ready r | None => unanswered last end)
  end.
Proof.
  unfold call_observing. destruct (send request self) as [s [id|e]] eqn:Es; [|by intros [= <- <- <-]]. intros Ho. cbn [snd].
  unfold send in Es. destruct (write _ (writer self)) as [w [[]|]]; [|done]. injection Es as <- <-. cbn [reader] in Ho.
  pose proof (read_each_ends (T := Response) (S (String.length (incoming (reader self)))) (reader self)) as Hend.
  destruct Hend as [last Hlast]; [unfold str_len; lia|]. unfold read_to_end.
  destruct (read_each _ (reader self)) as [l last'] eqn:E. simpl in Hlast. subst last'. exists l, last. do 2 (split; [done|]).
  destruct (answer_loop_spec _ (next_id self) [] {| reader := reader self; writer := w; next_id := wrap64 (next_id self + 1) |} l last E) as [s' Hs].
  rewrite Hs in Ho. by injection Ho as <- <- <-.
Qed.
End Client.

(** ** A wire for a few messages *)

Module Demo.

(** Handshakes of this protocol, without a name, from a terminal nobody watches. *)
#[local] Instance hello_wire : Wire Hello :=
  {| to_vec h := if (hello_protocol h =? PROTOCOL_VERSION) && str_is_empty (hello_client h) && negb (hello_interactive h)
                 then Ok (String "h" (hello_token h)) else Err (BoxForeign "unsupported" None);
     from_slice s := match s with
       | String "h" token => Ok {| hello_protocol := PROTOCOL_VERSION; hello_token := token; hello_client := EmptyString; hello_interactive := false |}
       | _ => Err (BoxForeign "not a handshake" None) end |}.

#[local] Instance hello_wire_laws : WireLaws Hello.
Proof.
  split; intros [p t c i] b; cbn -[PROTOCOL_VERSION]; destruct (Z.eqb_spec p PROTOCOL_VERSION) as [->|]; try done; destruct c, i; try done; by intros [= <-].
Qed.

Definition a_token : Token := Token_generate (repeat 171 TOKEN_BYTES).
Definition a_hello : Hello :=
  {| hello_protocol := PROTOCOL_VERSION; hello_token := token_text a_token; hello_client := EmptyString; hello_interactive := false |}.


#[local] Instance call_wire : Wire Call :=
  {| to_vec c := Ok (String "c" (fmt_u (call_id c))); from_slice s := Err (BoxForeign "a client reads no calls" None) |}.
#[local] Instance response_wire : Wire Response :=
  {| to_vec r := Err (BoxForeign "a client writes no responses" None);
     from_slice s := if String.eqb s "pong 1" then Ok (Done 1 Pong) else if String.eqb s "pong 2" then Ok (Done 2 Pong)
                     else Ok (Closing s) |}.

(** The host answers an earlier call first, then this one, then shuts down. *)
Definition a_client : Client :=
  {| reader := {| incoming := framed "pong 1" +:+ (framed "pong 2" +:+ framed "maintenance"); ending := Eof; buffers := [] |};
     writer := Writer_new; next_id := 2 |}.

Lemma call_gets_its_own_answer_witness :
  exists self', call_observing Ping a_client = (self', [Done 1 Pong], Some (Ready (Ok Pong))) /\
  exists l last, read_to_end (reader a_client) = (l, Some last) /\ fst (until_answer 2 l) = [Done 1 Pong].
Proof.
  assert (Hc : exists self', call_observing Ping a_client = (self', [Done 1 Pong], Some (Ready (Ok Pong)))) by (eexists; vm_compute; reflexivity).
  destruct Hc as [self' Hc]. exists self'. split; [exact Hc|].
  destruct (call_gets_its_own_answer Ping a_client _ _ _ Hc) as (l & last & Hr & _ & Ho & _).
  exists l, last. split; [exact Hr|exact (eq_sym Ho)].
Defined.
End Demo.
