(* ===== verification/Daemon.v ===== *)
(** * Daemon: what a host does for its clients

    [crates/daemon/src]: the operations of a host ([host.rs]) and the life of a connection
    ([connection.rs]); and the job handler that runs an agent turn ([crates/runtime/src/jobs.rs]).
    The services a host calls are trait objects there: the class [HostWorld] here. *)

From S2P Require Import Approval Prelude Base Text Jobs Window ContextStore Agent AuditTrail Frame Ipc.

(** ** The host ([host.rs]) *)

Inductive JobExecution := Jobs_Disabled | Jobs_Agent.

(** [RuntimeSettings], as far as the host reads it. *)
Record RuntimeSettings := {
  set_agent : string;
  set_user : PrincipalId;
  set_root : string;
  set_database : option string;
  set_memory : string;
  set_jobs : JobExecution;
}.

(** [RuntimeSettings::principal]: the agent, for the user. *)
Definition settings_principal (self : RuntimeSettings) : Principal :=
  Principal_on_behalf_of (Principal_new (set_agent self) Base.Agent) (set_user self).

(** [RuntimeSettings::operator]: the user in person. *)
Definition settings_operator (self : RuntimeSettings) : Principal := Principal_new (set_user self) User.

Class HostWorld (W : Type) := {
  host_stream : AgentRequest -> ExecutionContext -> W -> W * Result (list (Result AgentUpdate));
  host_sessions : ExecutionContext -> W -> W * Result (list ContextStats);
  host_clear : SessionId -> ExecutionContext -> W -> W * Result Z;
  host_compact : SessionId -> Z -> ExecutionContext -> W -> W * Result Z;
  host_jobs : ExecutionContext -> W -> W * Result (list ScheduledJob);
  host_schedule : JobSpec -> ExecutionContext -> W -> W * Result unit;
  host_cancel : JobId -> ExecutionContext -> W -> W * Result bool;
  host_audit : AuditQuery -> ExecutionContext -> W -> W * Result (list AuditRecord);
  host_issued : W -> W * Result Z;
  host_sweep : Timestamp -> W -> W * Result Z;
  host_count : Timestamp -> W -> W * Result Z;
  host_clock : W -> W * Timestamp;
  (** A fresh session, and a fresh correlation for a context. *)
  host_session : W -> W * SessionId;
  host_correlation : W -> W * CorrelationId;
  host_uptime_ms : W -> W * Z;
  host_connections : W -> W * Z;
}.

(** A service that was called, and the context it was called with. *)
Inductive ServiceCall :=
  | Called_Agent (request : AgentRequest) (cx : ExecutionContext)
  | Called_Context (cx : ExecutionContext)
  | Called_Scheduler (spec : option JobSpec) (cx : ExecutionContext)
  | Called_Audit (query : AuditQuery) (cx : ExecutionContext)
  | Called_Sweeper (cutoff : Timestamp) (dry_run : bool).

Definition AGENT_JOBS : ComponentId := "agent.jobs".

Definition DEFAULT_BACKOFF : Duration := from_millis 1000.
Definition DEFAULT_MAX_BACKOFF : Duration := from_millis (5 * 60 * 1000).
(** [RetryPolicy::none] *)
Definition RetryPolicy_none : RetryPolicy := {| attempts := 0; backoff := DEFAULT_BACKOFF; max_backoff := DEFAULT_MAX_BACKOFF |}.

(** The spec a request turns into: [JobSpec::new], [with_payload], [persistent], [with_timeout]. *)
Definition job_of (request : ScheduleRequest) : JobSpec :=
  {| spec_id := sch_id request; trigger := sch_trigger request; handler := AGENT_JOBS;
     payload := json_object (("prompt"%string, VString (sch_prompt request)) ::
       match sch_session request with Some session => [("session"%string, VString session)] | None => [] end);
     persistent := sch_persistent request; retry := RetryPolicy_none;
     Jobs.timeout := from_millis <$> sch_timeout_ms request |}.

Section Host.
  Context `{HostWorld W} (settings : RuntimeSettings) (version model : string).

Record HostState := { host_world : W; host_log : list ServiceCall }.
Abbreviation M := (action HostState Error).

(** Something the world says without being able to fail. *)
Definition tell {A} (f : W -> W * A) : M A := fun s =>
  let (w, a) := f (host_world s) in ({| host_world := w; host_log := host_log s |}, Ok a).

Definition service {A} (f : W -> W * Result A) : M A := fun s =>
  let (w, r) := f (host_world s) in ({| host_world := w; host_log := host_log s |}, r).

Definition logged (call : ServiceCall) : M unit := modify (fun s => {| host_world := host_world s; host_log := host_log s ++ [call] |}).

(** [Host::context_for]: a context for [principal], with the call's own token. *)
Definition context_for (principal : Principal) (cancelled : bool) : M ExecutionContext :=
  let! correlation := tell host_correlation in
  ret {| correlation := correlation; principal := Some principal; deadline := None; cancellation := cancelled; attributes := [] |}.

Definition host_cx (cancelled : bool) : M ExecutionContext := context_for (settings_principal settings) cancelled.
Definition review_cx (cancelled : bool) : M ExecutionContext := context_for (settings_operator settings) cancelled.

Definition host_status : M HostStatus :=
  let! connections := tell host_connections in
  let! uptime := tell host_uptime_ms in
  ret {| st_version := version; st_agent := set_agent settings; st_user := set_user settings; st_model := model;
         st_root := set_root settings; st_database := set_database settings; st_memory := set_memory settings;
         st_runs_jobs := match set_jobs settings with Jobs_Agent => true | Jobs_Disabled => false end;
         st_connections := connections; st_uptime_ms := uptime |}.

Definition no_jobs_here : Error :=
  Unsupported ("this host does not run scheduled jobs, so accepting one would mean storing "
               +:+ "something that never fires").
Definition nothing_to_ask : Error := InvalidArgument "a scheduled job needs something to ask".

(** [Host::schedule] *)
Definition host_schedule_request (request : ScheduleRequest) (cancelled : bool) : M unit :=
  match set_jobs settings with
  | Jobs_Disabled => throw no_jobs_here
  | Jobs_Agent =>
      if str_is_empty (trim (sch_prompt request)) then throw nothing_to_ask
      else
        let! cx := host_cx cancelled in
        logged (Called_Scheduler (Some (job_of request)) cx) ;! service (host_schedule (job_of request) cx)
  end.

Definition before_the_trail : Error := InvalidArgument "that retention period reaches back before there was a trail".

(** [Host::prune] *)
Definition prune (older_than_ms : Z) (dry_run : bool) : M Reply :=
  let! now := tell host_clock in
  if now <? older_than_ms then throw before_the_trail
  else
    let cutoff := now - older_than_ms in
    logged (Called_Sweeper cutoff dry_run) ;!
    let! removed := (if dry_run then service (host_count cutoff) else service (host_sweep cutoff)) in
    let! issued := service host_issued in
    ret (Pruned removed issued).

Definition for_the_connection : Error := Error_other "this request is answered by the connection, not by the host".
Definition for_the_asked : Error := Error_other "an approval is answered through the connection that was asked".

(** [Host::handle] *)
Definition handle (request : Request) (cancelled : bool) : M Reply :=
  match request with
  | Ping => ret Pong
  | Status => let! status := host_status in ret (Reply_Status status)
  | Sessions =>
      let! cx := host_cx cancelled in
      logged (Called_Context cx) ;! let! sessions := service (host_sessions cx) in ret (Reply_Sessions sessions)
  | Clear session =>
      let! cx := host_cx cancelled in
      logged (Called_Context cx) ;! let! records := service (host_clear session cx) in ret (Removed records)
  | Compact session keep =>
      let! cx := host_cx cancelled in
      logged (Called_Context cx) ;! let! records := service (host_compact session keep cx) in ret (Removed records)
  | Jobs =>
      let! cx := host_cx cancelled in
      logged (Called_Scheduler None cx) ;! let! jobs := service (host_jobs cx) in ret (Reply_Jobs jobs)
  | Schedule request => host_schedule_request request cancelled ;! ret Reply_Ok
  | CancelJob job =>
      let! cx := host_cx cancelled in
      logged (Called_Scheduler None cx) ;! let! existed := service (host_cancel job cx) in ret (Reply_Cancelled existed)
  | Audit query =>
      let! cx := review_cx cancelled in
      logged (Called_Audit query cx) ;!
      let! records := service (host_audit query cx) in
      let! issued := service host_issued in
      ret (Reply_Audit records issued)
  | Prune older_than_ms dry_run => prune older_than_ms dry_run
  | Prompt _ _ | Cancel _ => throw for_the_connection
  | Approve _ | DenyApproval _ => throw for_the_asked
  end.

Definition unfinished : Error := Error_other "the agent ended its stream without finishing the turn".

(** The loop over the agent's updates: what was reported, and the turn's response. *)
Fixpoint relay (updates : list (Result AgentUpdate)) (finished : option AgentResponse) (reported : list AgentUpdate) :
    list AgentUpdate * Result Reply :=
  match updates with
  | [] => (reported, match finished with Some response => Ok (Finished response) | None => Err unfinished end)
  | Err e :: _ => (reported, Err e)
  | Ok update :: updates =>
      relay updates (match update with Update_Finished response => Some response | _ => finished end) (reported ++ [update])
  end.

(** [Host::prompt] *)
Definition prompt (session : option SessionId) (input : string) (cancelled : bool) : M (list AgentUpdate * Result Reply) :=
  let! cx := host_cx cancelled in
  let! session := match session with Some session => ret session | None => tell host_session end in
  let request := {| request_session := session; request_input := [Text input] |} in
  logged (Called_Agent request cx) ;!
  let! updates := service (host_stream request cx) in
  ret (relay updates None []).
End Host.
Arguments HostState : clear implicits.

(** ** A scheduled prompt ([crates/runtime/src/jobs.rs]) *)

Record AgentJobPayload := { job_prompt : string; job_session : option SessionId }.

(** The quotation mark, which a message quotes an example with. *)
Definition QUOTE : string := String "034" EmptyString.

Definition no_payload : Error :=
  InvalidArgument ("an agent job needs a payload naming what to ask, e.g. {" +:+ QUOTE +:+ "prompt" +:+ QUOTE +:+ ": " +:+ QUOTE +:+ "..." +:+ QUOTE +:+ "}").
Definition empty_prompt : Error := InvalidArgument "an agent job's `prompt` must not be empty".

Section Payload.
  (** Reading a session's textual form, and [serde_json]'s words for a value it refuses. *)
  Context (session_from_str : string -> option SessionId) (serde_refusal : Value -> string).

(** [Option<SessionId>] from a value *)
Definition session_field (v : Value) : option (option SessionId) :=
  match v with VNull => Some None | VString s => Some <$> session_from_str s | _ => None end.

(** The derived [Deserialize] of [AgentJobPayload]: the object's fields and no others, or the
    fields in order. *)
Definition payload_from_value (payload : Value) : option AgentJobPayload :=
  match payload with
  | VObject m =>
      if forallb (fun kv => bool_decide (kv.1 = "prompt") || bool_decide (kv.1 = "session"))%string m then
        match Map_get "prompt" m, (match Map_get "session" m with Some v => session_field v | None => Some None end) with
        | Some (VString prompt), Some session => Some {| job_prompt := prompt; job_session := session |}
        | _, _ => None
        end
      else None
  | VArray [VString prompt] => Some {| job_prompt := prompt; job_session := None |}
  | VArray [VString prompt; v] => (fun session => {| job_prompt := prompt; job_session := session |}) <$> session_field v
  | _ => None
  end.

(** [AgentJobPayload::parse] *)
Definition payload_parse (payload : Value) : Result AgentJobPayload :=
  if Value_is_null payload then Err no_payload
  else
    match payload_from_value payload with
    | None => Err (InvalidArgument ("this agent job's payload " +:+ serde_refusal payload))
    | Some parsed => if str_is_empty (trim (job_prompt parsed)) then Err empty_prompt else Ok parsed
    end.

(** [AgentJobHandler::run], up to the agent: what it is asked. *)
Definition job_request (fresh : SessionId) (job : JobSpec) : Result AgentRequest :=
  let? parsed := payload_parse (payload job) in
  Ok {| request_session := default fresh (job_session parsed); request_input := [Text (job_prompt parsed)] |}.
End Payload.

(** ** A connection ([connection.rs])

    The reader dispatches calls; each call that is not answered at once runs in a task of its own
    under a token; the writer sends responses in the order they are queued, which is all that
    the bound of its channel leaves to see.  [Reading] ends when the client does: then every
    token is cancelled, tasks may still report for a while ([Draining]), and what is left of
    them is dropped. *)

Inductive ConnPhase := Reading_calls | Draining | Closed_down.

Record Task := { task_call : Z; task_request : Request }.

Record Conn := {
  phase : ConnPhase;
  gate : bool;
  in_flight : gmap Z nat;
  tasks : gmap nat Task;
  cancelled : gset nat;
  next_token : nat;
  outbound : list Response;
}.

Definition Conn_new (interactive : bool) : Conn :=
  {| phase := Reading_calls; gate := interactive; in_flight := ∅; tasks := ∅; cancelled := ∅; next_token := 0; outbound := [] |}.

Section Connection.
  Context (names : list string -> string) (duration : Duration -> string) (max_calls : Z).

Abbreviation wire := (WireError_new names duration).

(** [outbound.send] *)
Definition queue (response : Response) (self : Conn) : Conn :=
  {| phase := phase self; gate := gate self; in_flight := in_flight self; tasks := tasks self; cancelled := cancelled self;
     next_token := next_token self; outbound := outbound self ++ [response] |}.

Definition no_gate : Error :=
  PermissionDenied ("this connection did not say a human was present, so it holds no approval gate "
                    +:+ "and cannot answer questions").

(** [answer], [verdict] being what the gate says when it is asked. *)
Definition answer (gate : bool) (verdict : Result unit) : Result unit := if gate then verdict else Err no_gate.

(** [answered] *)
Definition answered (id : Z) (gate : bool) (verdict : Result unit) : Response :=
  match answer gate verdict with Ok _ => Done id Reply_Ok | Err e => Failed id (wire e) end.

Definition at_limit : Error :=
  Unsupported ("this connection already has " +:+ fmt_u max_calls +:+ " requests in flight, which is the limit").

(** [dispatch] *)
Definition dispatch (call : Call) (verdict : Result unit) (self : Conn) : Conn :=
  let id := Ipc.call_id call in
  match call_request call with
  | Cancel target =>
      queue (Done id Reply_Ok)
        match in_flight self !! target with
        | Some token =>
            {| phase := phase self; gate := gate self; in_flight := in_flight self; tasks := tasks self;
               cancelled := {[token]} ∪ cancelled self; next_token := next_token self; outbound := outbound self |}
        | None => self
        end
  | Approve _ | DenyApproval _ => queue (answered id (gate self) verdict) self
  | request =>
      if max_calls <=? Z.of_nat (size (in_flight self)) then queue (Failed id (wire at_limit)) self
      else
        let token := next_token self in
        {| phase := phase self; gate := gate self; in_flight := <[id := token]> (in_flight self);
           tasks := <[token := {| task_call := id; task_request := request |}]> (tasks self);
           cancelled := cancelled self; next_token := S token; outbound := outbound self |}
  end.

(** What a task sends when its call is over. *)
Definition final (id : Z) (result : Result Reply) : Response :=
  match result with Ok reply => Done id reply | Err e => Failed id (wire e) end.

(** The end of a task: the call's entry goes first, then the response. *)
Definition finish (token : nat) (result : Result Reply) (self : Conn) : Conn :=
  match tasks self !! token with
  | None => self
  | Some task =>
      queue (final (task_call task) result)
        {| phase := phase self; gate := gate self; in_flight := delete (task_call task) (in_flight self);
           tasks := delete token (tasks self); cancelled := cancelled self; next_token := next_token self;
           outbound := outbound self |}
  end.

(** The reader is done: [connection.cancel()], which every token is a child of, and the gate goes. *)
Definition hang_up (closing : option string) (self : Conn) : Conn :=
  let self := match closing with Some message => queue (Closing message) self | None => self end in
  {| phase := Draining; gate := false; in_flight := in_flight self; tasks := tasks self;
     cancelled := cancelled self ∪ dom (tasks self); next_token := next_token self; outbound := outbound self |}.

(** [tasks.shutdown()] *)
Definition drop_tasks (self : Conn) : Conn :=
  {| phase := Closed_down; gate := gate self; in_flight := in_flight self; tasks := ∅; cancelled := cancelled self;
     next_token := next_token self; outbound := outbound self |}.

Inductive Label :=
  | Arrives (call : Call) (verdict : Result unit)
  | Reports (token : nat) (update : AgentUpdate)
  | Finishes (token : nat) (result : Result Reply)
  | Questions (pending : PendingApproval)
  | Ends (closing : option string)
  | Drops.

Definition step (label : Label) (self : Conn) : option Conn :=
  match label, phase self with
  | Arrives call verdict, Reading_calls => Some (dispatch call verdict self)
  | Reports token update, (Reading_calls | Draining) =>
      (fun task => queue (Update (task_call task) update) self) <$> tasks self !! token
  | Finishes token result, (Reading_calls | Draining) =>
      (fun _ => finish token result self) <$> tasks self !! token
  | Questions pending, Reading_calls => if gate self then Some (queue (Approval pending) self) else None
  | Ends closing, Reading_calls => Some (hang_up closing self)
  | Drops, Draining => Some (drop_tasks self)
  | _, _ => None
  end.

Fixpoint steps (labels : list Label) (self : Conn) : option Conn :=
  match labels with
  | [] => Some self
  | label :: labels => self ← step label self; steps labels self
  end.
End Connection.

(** [describe]: a client's name, for the log. *)
Definition CLIENT_NAME_LIMIT : nat := 64.

Definition describe (name : list Z) : list Z :=
  match name with
  | [] => bytes_of "unnamed"
  | _ => map (fun c => if is_control c then 63 else c) (take CLIENT_NAME_LIMIT name)
  end.

(** ** Under whose name *)

Section Identity.
  Context {W : Type} `{HostWorld W} (settings : RuntimeSettings) (version model : string) (cancelled : bool).

Definition acts_as (p : Principal) (cx : ExecutionContext) : Prop :=
  principal cx = Some p /\ deadline cx = None /\ attributes cx = [] /\ cancellation cx = cancelled.

(** The agent's principal for everything but the trail, which the user in person reads. *)
Definition rightly_called (call : ServiceCall) : Prop :=
  match call with
  | Called_Agent _ cx | Called_Context cx | Called_Scheduler None cx => acts_as (settings_principal settings) cx
  | Called_Scheduler (Some spec) cx =>
      acts_as (settings_principal settings) cx /\ set_jobs settings = Jobs_Agent /\ handler spec = AGENT_JOBS /\ retry spec = RetryPolicy_none
  | Called_Audit _ cx => acts_as (settings_operator settings) cx
  | Called_Sweeper _ _ => True
  end.

Definition only_rightly (s s' : HostState W) : Prop := exists calls, host_log s' = host_log s ++ calls /\ Forall rightly_called calls.

#[local] Instance only_rightly_pre : PreOrder only_rightly.
Proof.
  split; [intros s; exists []; by rewrite app_nil_r|]. intros a b c (l & Hl & Hf) (k & Hk & Hg).
  exists (l ++ k). rewrite Hk, Hl, app_assoc. split; [done|by apply Forall_app].
Qed.

Lemma keeps_tell {A} (f : W -> W * A) : keeps only_rightly (tell f).
Proof. intros s s' r. unfold tell. destruct (f _). intros [= <- _]. exists []. by rewrite app_nil_r. Qed.

Lemma keeps_service {A} (f : W -> W * Result A) : keeps only_rightly (service f).
Proof. intros s s' r. unfold service. destruct (f _). intros [= <- _]. exists []. by rewrite app_nil_r. Qed.

Lemma keeps_logged call : rightly_called call -> keeps only_rightly (logged call).
Proof. intros Hc s s' r [= <- _]. exists [call]. split; [done|by constructor]. Qed.

Lemma keeps_context {A} p (k : ExecutionContext -> action (HostState W) Error A) :
  (forall cx, acts_as p cx -> keeps only_rightly (k cx)) -> keeps only_rightly (bind (context_for p cancelled) k).
Proof.
  intros Hk s s' r. unfold context_for, bind, tell, ret. destruct (host_correlation (host_world s)) as [w c]. intros Hr.
  apply Hk in Hr; [|done]. destruct Hr as (calls & Hl & Hf). by exists calls.
Qed.

Ltac rightly :=
  repeat first
    [ done
    | apply keeps_context; intros ? ?
    | apply keeps_tell | apply keeps_service
    | apply keeps_logged; simpl; tauto
    | keeps_step ].

Lemma schedule_rightly request : keeps only_rightly (host_schedule_request settings request cancelled).
Proof.
  unfold host_schedule_request, host_cx. destruct (set_jobs settings) eqn:Ej; [rightly|]. destruct (str_is_empty _); rightly.
Qed.

(** C24. a client does not choose who it is: whatever it asks, every service the host calls for it is
    called in a context of the host's own making - the agent acting for the configured user, or
    that user in person to read the trail - with no deadline or attribute of the client's and
    the cancellation of that call alone; a job it schedules runs under the agent's handler, and
    only where jobs are enabled. *)
Theorem clients_do_not_choose_identity (s s' : HostState W) :
  (forall request r, handle settings version model request cancelled s = (s', r) -> only_rightly s s') /\
  (forall session input r, prompt settings session input cancelled s = (s', r) -> only_rightly s s').
Proof.
  split.
  - intros request r. revert s s' r. change (keeps only_rightly (handle settings version model request cancelled)).
    destruct request; simpl; unfold host_status, host_cx, review_cx, prune; rightly; try apply schedule_rightly; rightly.
  - intros session input r. revert s s' r. change (keeps only_rightly (prompt settings session input cancelled)).
    unfold prompt, host_cx. rightly.
Qed.
End Identity.

(** ** A scheduled prompt is what the agent is asked *)

Section Scheduled.
  Context (session_from_str : string -> option SessionId) (serde_refusal : Value -> string).

Lemma payload_reads p session : (forall id, session = Some id -> session_from_str id = Some id) ->
  payload_from_value session_from_str (json_object (("prompt"%string, VString p) ::
    match session with Some session => [("session"%string, VString session)] | None => [] end)) =
  Some {| job_prompt := p; job_session := session |}.
Proof.
  destruct session as [id|]; intros Hs; [|reflexivity]. specialize (Hs id eq_refl). vm_compute. by rewrite Hs.
Qed.

(** what a client schedules is what the agent will be asked: where the host takes the request, the
    job it stores asks the agent, each time it fires, for the very prompt that was given, in the
    session that was named or a fresh one; a request whose job could not be run is refused when
    it is made. *)
Theorem scheduled_prompt_is_asked {W : Type} `{HostWorld W} (settings : RuntimeSettings) (request : ScheduleRequest) (cancelled : bool)
    (s s' : HostState W) (r : Result unit) (fresh : SessionId) :
  (** A session's textual form reads back as that session. *)
  (forall session, sch_session request = Some session -> session_from_str session = Some session) ->
  host_schedule_request settings request cancelled s = (s', r) ->
  (is_ok r = true ->
     job_request session_from_str serde_refusal fresh (job_of request) =
       Ok {| request_session := default fresh (sch_session request); request_input := [Text (sch_prompt request)] |}) /\
  (is_ok (job_request session_from_str serde_refusal fresh (job_of request)) = false -> is_ok r = false /\ host_log s' = host_log s).
Proof.
  intros session_text. assert (Hjob : job_request session_from_str serde_refusal fresh (job_of request) =
    if str_is_empty (trim (sch_prompt request)) then Err empty_prompt
    else Ok {| request_session := default fresh (sch_session request); request_input := [Text (sch_prompt request)] |}).
  { unfold job_request, payload_parse, job_of. cbn [payload]. rewrite payload_reads by done. simpl.
    by destruct (str_is_empty _). }
  rewrite Hjob. unfold host_schedule_request. destruct (set_jobs settings); [by intros [= <- <-]|].
  destruct (str_is_empty (trim (sch_prompt request))); [by intros [= <- <-]|done].
Qed.
End Scheduled.

(** ** Every call is answered once *)

Section Answers.
  Context (names : list string -> string) (duration : Duration -> string) (max_calls : Z).

Abbreviation do_step := (step names duration max_calls).
Abbreviation do_steps := (steps names duration max_calls).

(** The responses that answer a call, and the tasks that still will. *)
Definition answers_call (id : Z) (response : Response) : bool :=
  match response with Done answered _ | Failed answered _ => answered =? id | _ => false end.
Definition answered_times (id : Z) (self : Conn) : nat := length (List.filter (answers_call id) (outbound self)).
Definition running (id : Z) (self : Conn) : nat := size (filter (fun p => task_call p.2 = id) (tasks self)).
Definition arrived_times (id : Z) (labels : list Label) : nat :=
  length (List.filter (fun label => match label with Arrives call _ => Ipc.call_id call =? id | _ => false end) labels).

(** Every call of [id] that arrived was answered, or runs. *)
Record tidy (arrived : Z -> nat) (self : Conn) : Prop := {
  ti_accounted id : phase self <> Closed_down -> (arrived id = answered_times id self + running id self)%nat;
  ti_answered id : (answered_times id self <= arrived id)%nat;
  ti_tokens token task : tasks self !! token = Some task -> (token < next_token self)%nat;
  ti_limit : Z.of_nat (size (in_flight self)) <= Z.max 0 max_calls;
}.

Lemma answered_queue id response self :
  answered_times id (queue response self) = (answered_times id self + if answers_call id response then 1 else 0)%nat.
Proof. unfold answered_times, queue. simpl. rewrite List.filter_app, length_app. simpl. by destruct (answers_call id response). Qed.

Lemma running_insert id token task self : tasks self !! token = None ->
  size (filter (fun p => task_call p.2 = id) (<[token := task]> (tasks self))) = (running id self + if decide (task_call task = id) then 1 else 0)%nat.
Proof.
  intros Hf. unfold running. destruct (decide (task_call task = id)).
  - rewrite map_filter_insert_True by done. rewrite map_size_insert_None; [lia|]. apply map_lookup_filter_None. by left.
  - rewrite map_filter_insert_False by done. rewrite delete_id by done. lia.
Qed.

Lemma running_delete id token task self : tasks self !! token = Some task ->
  (size (filter (fun p => task_call p.2 = id) (delete token (tasks self))) + (if decide (task_call task = id) then 1 else 0) = running id self)%nat.
Proof.
  intros Ht. unfold running. rewrite map_filter_delete. destruct (decide (task_call task = id)) as [E|E].
  - rewrite map_size_delete_Some by (eexists; apply map_lookup_filter_Some; by split).
    enough (size (filter (fun p => task_call p.2 = id) (tasks self)) <> 0)%nat by lia.
    intros Hz%map_size_empty_inv. eapply map_filter_empty_not_lookup in Hz; [by apply (Hz Ht)|exact E].
  - rewrite delete_id; [lia|]. apply map_lookup_filter_None. right. intros t Ht'. simpl. by simplify_eq.
Qed.

Lemma size_insert_le (m : gmap Z nat) k v : (size (<[k:=v]> m) <= S (size m))%nat.
Proof. rewrite map_size_insert. destruct (m !! k); simpl; lia. Qed.

Lemma size_delete_le (m : gmap Z nat) k : (size (delete k m) <= size m)%nat.
Proof. rewrite map_size_delete. destruct (m !! k); simpl; lia. Qed.

Lemma eqb_decide (a b : Z) : (if a =? b then 1%nat else 0%nat) = (if decide (a = b) then 1%nat else 0%nat).
Proof. destruct (Z.eqb_spec a b); case_decide; done. Qed.

(** An arrival that is answered at once. *)
Lemma tidy_at_once arrived id response self :
  (forall i, answers_call i response = (id =? i)) -> tidy arrived self ->
  tidy (fun i => (arrived i + if (id =? i)%Z then 1 else 0)%nat) (queue response self).
Proof.
  intros Ha [H1 H2 H3 H4]. split; [| |exact H3|exact H4]; intros i; rewrite answered_queue, Ha; [|specialize (H2 i); lia].
  intros Hp. change (running i (queue response self)) with (running i self). specialize (H1 i Hp). lia.
Qed.

(** A response that answers no call. *)
Lemma tidy_aside arrived response self : (forall i, answers_call i response = false) -> tidy arrived self -> tidy arrived (queue response self).
Proof.
  intros Ha [H1 H2 H3 H4]. split; [| |exact H3|exact H4]; intros i; rewrite answered_queue, Ha, Nat.add_0_r; [|apply H2]. apply H1.
Qed.

Lemma tidy_dispatch arrived call verdict self : phase self = Reading_calls -> tidy arrived self ->
  tidy (fun i => (arrived i + if (Ipc.call_id call =? i)%Z then 1 else 0)%nat) (dispatch names duration max_calls call verdict self).
Proof.
  intros Hph Ht. destruct call as [id request]. cbn [Ipc.call_id].
  assert (Hcancel : forall token, tidy arrived
    {| phase := phase self; gate := gate self; in_flight := in_flight self; tasks := tasks self;
       cancelled := {[token]} ∪ cancelled self; next_token := next_token self; outbound := outbound self |})
    by (intros token; destruct Ht as [H1 H2 H3 H4]; by split).
  assert (Hverdict : forall a : Result unit, (forall i, answers_call i (match a with Ok _ => Done id Reply_Ok | Err e => Failed id (WireError_new names duration e) end) = (id =? i)))
    by (by intros [[]|]).
  assert (Hrun : forall request, tidy (fun i => (arrived i + if (id =? i)%Z then 1 else 0)%nat)
    (if max_calls <=? Z.of_nat (size (in_flight self)) then queue (Failed id (WireError_new names duration (at_limit max_calls))) self
     else {| phase := phase self; gate := gate self; in_flight := <[id := next_token self]> (in_flight self);
             tasks := <[next_token self := {| task_call := id; task_request := request |}]> (tasks self);
             cancelled := cancelled self; next_token := S (next_token self); outbound := outbound self |})).
  { intros req. destruct (Z.leb_spec max_calls (Z.of_nat (size (in_flight self)))) as [|Hlt]; [by apply tidy_at_once|].
    destruct Ht as [H1 H2 H3 H4].
    assert (Hfresh : tasks self !! next_token self = None) by (destruct (tasks self !! next_token self) eqn:E; [apply H3 in E; lia|done]).
    split.
    - intros i Hp. unfold running. cbn [tasks]. rewrite running_insert by done. cbn [task_call]. rewrite eqb_decide. specialize (H1 i).
      rewrite Hph in H1. specialize (H1 ltac:(done)). unfold answered_times in *. simpl. lia.
    - intros i. specialize (H2 i). unfold answered_times in *. simpl. lia.
    - intros token task. cbn [tasks next_token]. rewrite lookup_insert_Some. intros [[<- _]|[_ Hl]]; [lia|]. apply H3 in Hl. lia.
    - cbn [in_flight]. pose proof (size_insert_le (in_flight self) id (next_token self)). lia. }
  unfold dispatch. cbn [call_request Ipc.call_id]. destruct request; try apply Hrun.
  - destruct (in_flight self !! call) as [token|]; by apply tidy_at_once.
  - apply tidy_at_once; [apply Hverdict|done].
  - apply tidy_at_once; [apply Hverdict|done].
Qed.

Lemma tidy_finish arrived token result self : tidy arrived self -> phase self <> Closed_down ->
  tidy arrived (finish names duration token result self).
Proof.
  intros Ht Hp. unfold finish. destruct (tasks self !! token) as [task|] eqn:E; [|done]. destruct Ht as [H1 H2 H3 H4].
  assert (Hf : forall i, answers_call i (final names duration (task_call task) result) = (task_call task =? i)) by (by destruct result).
  assert (Hacc : forall i, (arrived i = answered_times i self + (if (task_call task =? i)%Z then 1 else 0) +
    size (filter (fun p => task_call p.2 = i) (delete token (tasks self))))%nat).
  { intros i. rewrite (H1 i Hp), <- (running_delete i token task self E), eqb_decide. lia. }
  split.
  - intros i _. rewrite answered_queue, Hf. unfold running, answered_times. simpl. rewrite (Hacc i). unfold answered_times. lia.
  - intros i. rewrite answered_queue, Hf. unfold answered_times at 1. simpl. rewrite (Hacc i). unfold answered_times. lia.
  - intros t k. cbn [tasks next_token queue]. intros [_ Hl]%lookup_delete_Some. by eapply H3.
  - cbn [in_flight queue]. pose proof (size_delete_le (in_flight self) (task_call task)). lia.
Qed.

Lemma tidy_step arrived label self self' : tidy arrived self -> do_step label self = Some self' ->
  tidy (fun i => (arrived i + arrived_times i [label])%nat) self'.
Proof.
  intros Ht. assert (Hnone : forall s, tidy arrived s -> tidy (fun i => (arrived i + 0)%nat) s).
  { intros s [H1 H2 H3 H4]. split; [| |done|done]; intros i; rewrite Nat.add_0_r; [apply H1|apply H2]. }
  unfold step. destruct label as [call verdict|token update|token result|pending|closing|]; destruct (phase self) eqn:Hp; try done; cbn [arrived_times List.filter length].
  - intros [= <-]. pose proof (tidy_dispatch arrived call verdict self Hp Ht) as Hd. destruct Hd as [H1 H2 H3 H4].
    assert (Hcount : forall i, length (if Ipc.call_id call =? i then [Arrives call verdict] else []) = if Ipc.call_id call =? i then 1%nat else 0%nat)
      by (intros i; by destruct (_ =? _)).
    split; [| |done|done]; intros i; unfold arrived_times; simpl; rewrite Hcount; [apply H1|apply H2].
  - intros (task & _ & ->)%fmap_Some. apply Hnone. by apply tidy_aside.
  - intros (task & _ & ->)%fmap_Some. apply Hnone. by apply tidy_aside.
  - intros (task & _ & ->)%fmap_Some. apply Hnone. apply tidy_finish; [done|by rewrite Hp].
  - intros (task & _ & ->)%fmap_Some. apply Hnone. apply tidy_finish; [done|by rewrite Hp].
  - destruct (gate self); [|done]. intros [= <-]. apply Hnone. by apply tidy_aside.
  - intros [= <-]. apply Hnone. unfold hang_up.
    assert (Hc : tidy arrived (match closing with Some message => queue (Closing message) self | None => self end)) by (destruct closing; [by apply tidy_aside|done]).
    assert (Hpc : phase (match closing with Some message => queue (Closing message) self | None => self end) = Reading_calls) by (by destruct closing).
    destruct Hc as [H1 H2 H3 H4]. split; [|done..]. intros i _. apply H1. by rewrite Hpc.
  - intros [= <-]. apply Hnone. destruct Ht as [H1 H2 H3 H4]. split; [by intros i ?|done|intros t k; cbn; by rewrite lookup_empty|done].
Qed.

Lemma tidy_steps labels : forall arrived self self', tidy arrived self -> do_steps labels self = Some self' ->
  tidy (fun i => (arrived i + arrived_times i labels)%nat) self'.
Proof.
  induction labels as [|label labels IH]; intros arrived self self' Ht.
  - intros [= <-]. destruct Ht as [H1 H2 H3 H4]. split; [| |done|done]; intros i; unfold arrived_times; simpl; rewrite Nat.add_0_r; [apply H1|apply H2].
  - simpl. intros (mid & Hm & Hrest)%bind_Some. pose proof (tidy_step _ _ _ _ Ht Hm) as Hmid. destruct (IH _ _ _ Hmid Hrest) as [H1 H2 H3 H4].
    assert (Hc : forall i, arrived_times i (label :: labels) = (arrived_times i [label] + arrived_times i labels)%nat).
    { intros i. unfold arrived_times. simpl. destruct label as [call ?| | | | |]; simpl; try lia. by destruct (Ipc.call_id call =? i). }
    split; [| |done|done]; intros i; rewrite Hc, Nat.add_assoc; [apply H1|apply H2].
Qed.

Lemma tidy_run interactive labels self : do_steps labels (Conn_new interactive) = Some self ->
  tidy (fun id => arrived_times id labels) self.
Proof.
  intros Hs. assert (H0 : tidy (fun _ => 0%nat) (Conn_new interactive)).
  { split; [by intros id _|by intros id|intros t k; cbn; by rewrite lookup_empty|cbn; rewrite map_size_empty; lia]. }
  by pose proof (tidy_steps _ _ _ _ H0 Hs).
Qed.

End Answers.

(** ** What is in flight, for a client that keeps its word

    [Call::id] is documented as unique among a client's own in-flight calls. *)

Section InFlight.
  Context (names : list string -> string) (duration : Duration -> string) (max_calls : Z).

Definition id_free (label : Label) (self : Conn) : Prop :=
  match label with Arrives call _ => forall token task, tasks self !! token = Some task -> task_call task <> Ipc.call_id call | _ => True end.

Fixpoint ids_apart (labels : list Label) (self : Conn) : Prop :=
  match labels with
  | [] => True
  | label :: labels => id_free label self /\ forall self', step names duration max_calls label self = Some self' -> ids_apart labels self'
  end.

Record mirrored (self : Conn) : Prop := {
  mi_entry id token : in_flight self !! id = Some token -> exists task, tasks self !! token = Some task /\ task_call task = id;
  mi_task token task : tasks self !! token = Some task -> phase self <> Closed_down /\ in_flight self !! task_call task = Some token;
  mi_tokens token task : tasks self !! token = Some task -> (token < next_token self)%nat;
  mi_cancelled token : token ∈ cancelled self -> (token < next_token self)%nat;
}.

Definition mirrored_or_closed (self : Conn) : Prop := phase self = Closed_down /\ tasks self = ∅ \/ mirrored self.

Lemma mirrored_queue response self : mirrored self -> mirrored (queue response self).
Proof. by intros []. Qed.

Lemma mirrored_dispatch call verdict self :
  phase self = Reading_calls -> id_free (Arrives call verdict) self -> mirrored self ->
  mirrored (dispatch names duration max_calls call verdict self).
Proof.
  intros Hp Hfree Hm. pose proof Hm as [M1 M2 M3 M4]. destruct call as [id request]. simpl in Hfree.
  assert (Hrun : forall request, mirrored
    (if max_calls <=? Z.of_nat (size (in_flight self)) then queue (Failed id (WireError_new names duration (at_limit max_calls))) self
     else {| phase := phase self; gate := gate self; in_flight := <[id := next_token self]> (in_flight self);
             tasks := <[next_token self := {| task_call := id; task_request := request |}]> (tasks self);
             cancelled := cancelled self; next_token := S (next_token self); outbound := outbound self |})).
  { intros req. destruct (_ <=? _); [by apply mirrored_queue|]. split; cbn [in_flight tasks phase next_token cancelled].
    - intros i token. rewrite lookup_insert_Some. intros [[<- <-]|[Hne Hi]]; [rewrite lookup_insert_eq; by eexists|].
      apply M1 in Hi as (task & Ht & E). exists task. split; [|done]. rewrite lookup_insert_ne; [done|]. apply M3 in Ht. lia.
    - intros token task. rewrite lookup_insert_Some. intros [[<- <-]|[Hne Ht]]; [split; [by rewrite Hp|by rewrite lookup_insert_eq]|].
      split; [by rewrite Hp|]. rewrite lookup_insert_ne; [by apply M2|]. intros E. by apply (Hfree _ _ Ht).
    - intros token task. rewrite lookup_insert_Some. intros [[<- _]|[_ Ht]]; [lia|]. apply M3 in Ht. lia.
    - intros token Ht. apply M4 in Ht. lia. }
  unfold dispatch. cbn [call_request Ipc.call_id]. destruct request; try apply Hrun; try by apply mirrored_queue.
  apply mirrored_queue. destruct (in_flight self !! call) as [token|] eqn:E; [|done]. split; cbn; [done|done|done|].
  intros t [->%elem_of_singleton|Ht]%elem_of_union; [|by apply M4]. apply M1 in E as (task & Ht & _). by eapply M3.
Qed.

Lemma mirrored_finish token result self : mirrored self -> mirrored (finish names duration token result self).
Proof.
  intros Hm. pose proof Hm as [M1 M2 M3 M4]. unfold finish. destruct (tasks self !! token) as [task|] eqn:E; [|done].
  apply mirrored_queue. split; cbn [in_flight tasks phase next_token cancelled].
  - intros i t. rewrite lookup_delete_Some. intros [Hne Hi]. apply M1 in Hi as (k & Hk & Ei). exists k. split; [|done].
    rewrite lookup_delete_ne; [done|]. intros <-. simplify_eq.
  - intros t k [Hne Hk]%lookup_delete_Some. destruct (M2 _ _ Hk) as [Hph Hi]. split; [done|]. rewrite lookup_delete_ne; [done|].
    intros Ec. destruct (M2 _ _ E) as [_ He]. rewrite Ec in He. by simplify_eq.
  - intros t k [_ Hk]%lookup_delete_Some. by eapply M3.
  - done.
Qed.

Lemma mirrored_step label self self' :
  mirrored_or_closed self -> id_free label self -> step names duration max_calls label self = Some self' -> mirrored_or_closed self'.
Proof.
  intros [[Hc Ht]|Hm] Hfree.
  { unfold step. rewrite Hc. by destruct label. }
  unfold step. destruct label as [call verdict|token update|token result|pending|closing|]; destruct (phase self) eqn:Hp; try done.
  - intros [= <-]. right. by apply mirrored_dispatch.
  - intros (task & _ & ->)%fmap_Some. right. by apply mirrored_queue.
  - intros (task & _ & ->)%fmap_Some. right. by apply mirrored_queue.
  - intros (task & _ & ->)%fmap_Some. right. by apply mirrored_finish.
  - intros (task & _ & ->)%fmap_Some. right. by apply mirrored_finish.
  - destruct (gate self); [|done]. intros [= <-]. right. by apply mirrored_queue.
  - intros [= <-]. right. unfold hang_up. assert (Hq : mirrored (match closing with Some message => queue (Closing message) self | None => self end))
      by (destruct closing; [by apply mirrored_queue|done]). destruct Hq as [M1 M2 M3 M4]. split; cbn; [done| |done|].
    + intros t k Hk. split; [done|]. by apply M2.
    + intros t [Ht|Ht]%elem_of_union; [by apply M4|]. apply elem_of_dom in Ht as [k Hk]. by eapply M3.
  - intros [= <-]. left. done.
Qed.

Lemma mirrored_steps labels : forall self self', mirrored_or_closed self -> ids_apart labels self ->
  steps names duration max_calls labels self = Some self' -> mirrored_or_closed self'.
Proof.
  induction labels as [|label labels IH]; intros self self' Hm Hids; simpl; [by intros [= <-]|].
  intros (mid & Hmid & Hrest)%bind_Some. destruct Hids as [Hfree Hids]. eapply IH; [|by apply Hids|exact Hrest]. by eapply mirrored_step.
Qed.

(** No more tasks than entries: they are named by different calls, each in the table. *)
Lemma mirrored_size self : mirrored self -> (size (tasks self) <= size (in_flight self))%nat.
Proof.
  intros [_ M2 _ _]. rewrite <- !length_map_to_list.
  rewrite <- (length_fmap fst (map_to_list (tasks self))), <- (length_fmap snd (map_to_list (in_flight self))).
  apply submseteq_length, NoDup_submseteq; [apply NoDup_fst_map_to_list|]. intros token (p & -> & Hp)%list_elem_of_fmap.
  apply elem_of_map_to_list' in Hp. apply M2 in Hp as [_ Hi]. apply list_elem_of_fmap. exists (task_call p.2, p.1).
  split; [done|]. by apply elem_of_map_to_list'.
Qed.

(** for a client that gives its calls in flight identifiers of their own, what is in flight is what
    runs: the connection's table and its running tasks are each other's mirror, so no more tasks
    run than the limit; a cancellation cancels the task of the call it names, and no other, or
    does nothing when there is none. *)
Theorem in_flight_is_what_runs (interactive : bool) (labels : list Label) (self : Conn) :
  0 <= max_calls -> steps names duration max_calls labels (Conn_new interactive) = Some self -> ids_apart labels (Conn_new interactive) ->
  phase self <> Closed_down ->
  (forall id token, in_flight self !! id = Some token <-> exists task, tasks self !! token = Some task /\ task_call task = id) /\
  Z.of_nat (size (tasks self)) <= max_calls /\
  (forall id target verdict token, (token < next_token self)%nat ->
     token ∈ cancelled (dispatch names duration max_calls {| Ipc.call_id := id; call_request := Cancel target |} verdict self) <->
     token ∈ cancelled self \/ exists task, tasks self !! token = Some task /\ task_call task = target).
Proof.
  intros Hmax Hs Hids Hp. pose proof (ti_limit _ _ _ (tidy_run names duration _ _ _ _ Hs)) as Hsize.
  assert (H0 : mirrored_or_closed (Conn_new interactive)).
  { right. split; cbn; intros *; rewrite ?lookup_empty; try done; set_solver. }
  destruct (mirrored_steps labels _ _ H0 Hids Hs) as [[? _]|[M1 M2 M3 M4]]; [done|].
  assert (Hiff : forall id token, in_flight self !! id = Some token <-> exists task, tasks self !! token = Some task /\ task_call task = id).
  { intros id token. split; [apply M1|]. intros (task & Ht & <-). by apply M2. }
  split; [done|]. split.
  - enough (size (tasks self) <= size (in_flight self))%nat by lia.
    by apply mirrored_size.
  - intros id target verdict token Hlt. unfold dispatch. cbn [call_request Ipc.call_id]. unfold queue. cbn [cancelled].
    destruct (in_flight self !! target) as [t|] eqn:E; cbn [cancelled].
    + rewrite elem_of_union, elem_of_singleton, <- Hiff, E. naive_solver.
    + rewrite <- Hiff, E. naive_solver.
Qed.
End InFlight.

(** ** A connection nobody watches *)

(** A connection that did not say a human was present is shown no question, and a verdict it sends
    is refused whatever the gate would have said. *)
Lemma unattended_connection_cannot_approve names duration max_calls call verdict pending (self : Conn) :
  gate self = false ->
  step names duration max_calls (Questions pending) self = None /\
  ((exists a, call_request call = Approve a \/ call_request call = DenyApproval a) ->
   dispatch names duration max_calls call verdict self =
   queue (Failed (Ipc.call_id call) (WireError_new names duration no_gate)) self).
Proof.
  intros Hg. split.
  - simpl. rewrite Hg. by destruct (phase self).
  - intros (a & [E|E]); unfold dispatch, answered, answer; by rewrite E, Hg.
Qed.

(** Hanging up takes the gate away for good: no step gives it back. *)
Lemma gate_stays_shut names duration max_calls label (self self' : Conn) :
  gate self = false -> step names duration max_calls label self = Some self' -> gate self' = false.
Proof.
  intros Hg. destruct label as [call verdict| | | | |]; simpl; destruct (phase self); try done.
  - intros [= <-]. unfold dispatch. destruct (call_request call); try (destruct (_ <=? _)); try done.
    by destruct (in_flight self !! _).
  - intros (task & _ & ->)%fmap_Some. done.
  - intros (task & _ & ->)%fmap_Some. done.
  - intros (task & _ & ->)%fmap_Some. unfold finish. by destruct (tasks self !! _).
  - intros (task & _ & ->)%fmap_Some. unfold finish. by destruct (tasks self !! _).
  - by rewrite Hg.
  - intros [= <-]. done.
  - intros [= <-]. done.
Qed.

(** A client's name is logged in at most 64 characters, none of which drives a terminal, and is
    never empty. *)
Lemma describe_is_printable name :
  describe name <> [] /\ (length (describe name) <= CLIENT_NAME_LIMIT)%nat /\
  Forall (fun c => is_control c = false) (describe name).
Proof.
  unfold describe. destruct name as [|c name]; [split_and!; [done|by vm_compute; lia|]; by repeat constructor|].
  split_and!; [done|rewrite length_map, length_take; lia|].
  apply Forall_forall. intros x Hx. apply list_elem_of_In, in_map_iff in Hx as (y & <- & _). by destruct (is_control y) eqn:E.
Qed.

Module Demo.

Definition no_names (l : list string) : string := EmptyString.
Definition no_duration (d : Duration) : string := EmptyString.

Definition asks (id : Z) : Label := Arrives {| Ipc.call_id := id; call_request := Prompt None "hello" |} (Ok tt).

(** Calls that share an identifier share one entry, so the limit does not see them: three turns run
    on a connection that may have two, and a cancellation reaches only the last. *)
Example duplicate_ids_pass_the_limit :
  exists self, steps no_names no_duration 2 [asks 1; asks 1; asks 1] (Conn_new true) = Some self /\
    size (tasks self) = 3%nat /\ size (in_flight self) = 1%nat /\
    cancelled (dispatch no_names no_duration 2 {| Ipc.call_id := 2; call_request := Cancel 1 |} (Ok tt) self) = {[2%nat]}.
Proof. eexists. split; [reflexivity|]. vm_compute. split_and!; reflexivity. Qed.


Lemma in_flight_is_what_runs_witness :
  exists self, steps no_names no_duration 2 [asks 1; asks 2] (Conn_new false) = Some self /\ Z.of_nat (size (tasks self)) <= 2.
Proof.
  assert (Hs : exists self, steps no_names no_duration 2 [asks 1; asks 2] (Conn_new false) = Some self /\ phase self = Reading_calls)
    by (eexists; split; reflexivity).
  destruct Hs as (self & Hs & Hp). exists self. split; [exact Hs|].
  apply (in_flight_is_what_runs no_names no_duration 2 false [asks 1; asks 2] self); [lia|exact Hs| |rewrite Hp; discriminate].
  split; [intros token task Ht; cbn in Ht; by rewrite lookup_empty in Ht|].
  intros mid [= <-]. split; [|done]. intros token task Ht.
  change (tasks _) with (<[0%nat := {| task_call := 1; task_request := Prompt None "hello" |}]> (∅ : gmap nat Task)) in Ht.
  apply lookup_insert_Some in Ht as [[_ <-]|[_ Ht]]; [done|].
  by rewrite lookup_empty in Ht.
Defined.

(** A host whose services answer, and which counts the contexts it makes. *)
#[local] Instance counting : HostWorld nat := {|
  host_stream := fun request cx w => (w, Ok [Err (Error_other "no model")]);
  host_sessions := fun cx w => (w, Ok []);
  host_clear := fun session cx w => (w, Ok 0);
  host_compact := fun session keep cx w => (w, Ok 0);
  host_jobs := fun cx w => (w, Ok []);
  host_schedule := fun spec cx w => (w, Ok tt);
  host_cancel := fun job cx w => (w, Ok false);
  host_audit := fun query cx w => (w, Ok []);
  host_issued := fun w => (w, Ok 0);
  host_sweep := fun cutoff w => (w, Ok 0);
  host_count := fun cutoff w => (w, Ok 0);
  host_clock := fun w => (w, 1000);
  host_session := fun w => (w, "session"%string);
  host_correlation := fun w => (S w, fmt_u (Z.of_nat w));
  host_uptime_ms := fun w => (w, 0);
  host_connections := fun w => (w, 1) |}.

Definition a_host : RuntimeSettings :=
  {| set_agent := "assistant"; set_user := "minos"; set_root := "/srv"; set_database := None; set_memory := "memory"; set_jobs := Jobs_Agent |}.

Definition a_request : ScheduleRequest :=
  {| sch_id := "morning"; sch_trigger := Every (from_millis 60000); sch_prompt := "what is new?"; sch_session := Some "news"%string;
     sch_persistent := true; sch_timeout_ms := None |}.

Lemma clients_do_not_choose_identity_witness :
  exists s', fst (handle a_host "1" "model" (Schedule a_request) false {| host_world := 0%nat; host_log := [] |}) = s' /\
    length (host_log s') = 1%nat /\ Forall (rightly_called a_host false) (host_log s').
Proof.
  eexists. split; [reflexivity|]. split; [reflexivity|].
  pose proof (clients_do_not_choose_identity a_host "1" "model" false {| host_world := 0%nat; host_log := [] |}) as H.
  specialize (H (fst (handle a_host "1" "model" (Schedule a_request) false {| host_world := 0%nat; host_log := [] |}))).
  destruct H as [H _]. destruct (H (Schedule a_request) _ (surjective_pairing _)) as (calls & E & Hf).
  rewrite E. exact Hf.
Defined.

Lemma scheduled_prompt_is_asked_witness :
  job_request Some (fun _ => EmptyString) "fresh" (job_of a_request) =
    Ok {| request_session := "news"; request_input := [Text "what is new?"] |}.
Proof.
  apply (scheduled_prompt_is_asked Some (fun _ => EmptyString) a_host a_request false {| host_world := 0%nat; host_log := [] |}
           _ _ "fresh" (fun session _ => eq_refl) (surjective_pairing _)).
  reflexivity.
Defined.
End Demo.
