(* ===== verification/Memory.v ===== *)
(** * Memory: what is remembered, and how it is recalled

    [crates/api/src/memory.rs] and [crates/memory/src]: records, queries ([query.rs]), similarity
    ([semantic.rs]), expiry and ownership, and the store in memory ([store.rs]).  An [f32] or an
    [f64] is the IEEE 754 number the standard library specifies; the embedding model behind
    [Embedder] is a class, and JSON as text and a UUID as text are arguments. *)

From Stdlib Require Import SpecFloat.
From S2P Require Import Prelude Base.

(** ** Records and queries *)

(** A [Uuid] by its 128 bits, which order it. *)
Abbreviation MemoryId := Z.
Abbreviation MemoryKind := string.
Abbreviation ModelId := string.
Abbreviation f32 := spec_float.

Record MemoryRecord := {
  m_id : MemoryId;
  m_owner : PrincipalId;
  m_kind : MemoryKind;
  m_content : Value;
  m_metadata : Map;
  m_created_at : Timestamp;
  m_expires_at : option Timestamp;
  m_embedding : option (list f32);
}.

Record MemoryQuery := {
  mq_kinds : list MemoryKind;
  mq_text : option string;
  mq_embedding : option (list f32);
  mq_metadata : Map;
  mq_limit : option Z;
  mq_min_score : option f32;
}.

Record MemoryMatch := { match_record : MemoryRecord; match_score : option f32 }.

Definition with_owner (owner : PrincipalId) (r : MemoryRecord) : MemoryRecord :=
  {| m_id := m_id r; m_owner := owner; m_kind := m_kind r; m_content := m_content r; m_metadata := m_metadata r;
     m_created_at := m_created_at r; m_expires_at := m_expires_at r; m_embedding := m_embedding r |}.
Definition with_embedding (v : list f32) (r : MemoryRecord) : MemoryRecord :=
  {| m_id := m_id r; m_owner := m_owner r; m_kind := m_kind r; m_content := m_content r; m_metadata := m_metadata r;
     m_created_at := m_created_at r; m_expires_at := m_expires_at r; m_embedding := Some v |}.

(** [is_live] *)
Definition is_live (expires_at : option Timestamp) (now : Timestamp) : bool :=
  match expires_at with Some expires_at => now <? expires_at | None => true end.

(** [requested_kinds]: sorted, and each once. *)
Definition requested_kinds (query : MemoryQuery) : list MemoryKind := dedup (sort_by String.compare (mq_kinds query)).

Definition matches_metadata (record : MemoryRecord) (wanted : Map) : bool :=
  forallb (fun kv => bool_decide (Map_get kv.1 (m_metadata record) = Some kv.2)) wanted.

(** [Vec::truncate] *)
Definition truncate {A} (limit : option Z) (l : list A) : list A :=
  match limit with Some limit => take_Z limit l | None => l end.

(** [b.created_at.cmp(&a.created_at).then_with(|| b.id.cmp(&a.id))] *)
Definition newest_first (a b : MemoryRecord) : comparison :=
  then_with (m_created_at b ?= m_created_at a) (m_id b ?= m_id a).

Definition rank (candidates : list MemoryRecord) (limit : option Z) : list MemoryMatch :=
  map (fun record => {| match_record := record; match_score := None |}) (truncate limit (sort_by newest_first candidates)).

(** ** Similarity ([semantic.rs]) *)

Module F64.
Definition prec : Z := 53.
Definition emax : Z := 1024.
Definition add := SFadd prec emax.
Definition mul := SFmul prec emax.
Definition div := SFdiv prec emax.
Definition sqrt := SFsqrt prec emax.
Definition zero : spec_float := S754_zero false.
Definition one : spec_float := S754_finite false 4503599627370496 (-52).

(** A number rounded to a format: [f64::from] an [f32], which is exact, and [as f32]. *)
Definition round_to (prec emax : Z) (x : spec_float) : spec_float :=
  match x with
  | S754_finite s m e => binary_normalize prec emax (cond_Zopp s (Z.pos m)) e s
  | _ => x
  end.

Definition is_finite (x : spec_float) : bool := match x with S754_zero _ | S754_finite _ _ _ => true | _ => false end.

(** [f64::clamp] *)
Definition clamp (lo hi x : spec_float) : spec_float :=
  let x := if SFltb x lo then lo else x in if SFltb hi x then hi else x.
End F64.

Definition f64_from (x : f32) : spec_float := F64.round_to F64.prec F64.emax x.
Definition as_f32 (x : spec_float) : f32 := F64.round_to 24 128 x.

(** The sums [cosine] accumulates: the dot product and the squares of the two norms. *)
Fixpoint accumulate (a b : list f32) (dot norm_a norm_b : spec_float) : spec_float * spec_float * spec_float :=
  match a, b with
  | x :: a, y :: b =>
      let x := f64_from x in
      let y := f64_from y in
      accumulate a b (F64.add dot (F64.mul x y)) (F64.add norm_a (F64.mul x x)) (F64.add norm_b (F64.mul y y))
  | _, _ => (dot, norm_a, norm_b)
  end.

Definition cosine (a b : list f32) : option f32 :=
  if negb (length a =? length b)%nat || (length a =? 0)%nat then None
  else
    let '(dot, norm_a, norm_b) := accumulate a b F64.zero F64.zero F64.zero in
    if SFeqb norm_a F64.zero || SFeqb norm_b F64.zero || negb (F64.is_finite dot) then None
    else
      let similarity := F64.div dot (F64.mul (F64.sqrt norm_a) (F64.sqrt norm_b)) in
      if negb (F64.is_finite similarity) then None
      else Some (as_f32 (F64.clamp (SFopp F64.one) F64.one similarity)).

(** [partial_cmp(..).unwrap_or(Equal)] *)
Definition partial_cmp (x y : f32) : comparison := default Eq (SFcompare x y).

Definition best_first (a b : f32 * MemoryRecord) : comparison :=
  then_with (partial_cmp b.1 a.1) (newest_first a.2 b.2).

(** The score of a record against [query], where it has one that is high enough. *)
Definition scored (query : list f32) (min_score : option f32) (record : MemoryRecord) : option (f32 * MemoryRecord) :=
  embedding ← m_embedding record;
  score ← cosine query embedding;
  match min_score with
  | Some minimum => if SFltb score minimum then None else Some (score, record)
  | None => Some (score, record)
  end.

Definition rank_by_similarity (candidates : list MemoryRecord) (query : list f32) (min_score : option f32) (limit : option Z) :
    list MemoryMatch :=
  map (fun p => {| match_record := p.2; match_score := Some p.1 |})
    (truncate limit (sort_by best_first (omap (scored query min_score) candidates))).

(** ** The embedding model *)

Class Embedder (W : Type) :=
  embed_texts : ModelId -> list string -> ExecutionContext -> W -> W * Result (list (list f32)).

Inductive QueryMode := Exact | Semantic (vector : list f32) (min_score : option f32).

Definition rank_for (mode : QueryMode) (candidates : list MemoryRecord) (limit : option Z) : list MemoryMatch :=
  match mode with
  | Exact => rank candidates limit
  | Semantic vector min_score => rank_by_similarity candidates vector min_score limit
  end.

Definition both_given : Error :=
  InvalidArgument "a memory query carries both `text` and `embedding`; supply one or the other".
Definition empty_embedding : Error := InvalidArgument "a memory query's `embedding` is empty".
Definition no_embedder : Error :=
  Unsupported ("this memory store has no embedding model, so it cannot search by `text`; "
               +:+ "supply a pre-computed `embedding`, or query by kind and metadata").
Definition nothing_to_score : Error :=
  Unsupported "`min_score` needs something to score; supply `text` or `embedding` with it".
Definition wrong_vectors (model : ModelId) (n : nat) : Error :=
  Error_other ("embedding with `" +:+ model +:+ "` returned " +:+ fmt_u (Z.of_nat n) +:+ " vectors for one input").

(** [embedding_text]; [value_to_string] is [Value::to_string]. *)
Definition embedding_text (value_to_string : Value -> string) (content : Value) : string :=
  match content with VString text => text | other => value_to_string other end.

Section Semantic.
  Context {W : Type} `{Embedder W} (value_to_string : Value -> string).

(** [SemanticIndex::embed] *)
Definition embed (model : ModelId) (text : string) (cx : ExecutionContext) : action W Error (list f32) :=
  let! vectors := embed_texts model [text] cx in
  match vectors with [vector] => ret vector | _ => throw (wrong_vectors model (length vectors)) end.

Definition resolve_mode (query : MemoryQuery) (semantic : option ModelId) (cx : ExecutionContext) : action W Error QueryMode :=
  match mq_text query, mq_embedding query with
  | Some _, Some _ => throw both_given
  | text, given =>
      let! vector :=
        match given, text with
        | Some embedding, _ => match embedding with [] => throw empty_embedding | _ => ret (Some embedding) end
        | None, Some text =>
            match semantic with
            | None => throw no_embedder
            | Some model => let! vector := embed model text cx in ret (Some vector)
            end
        | None, None => ret None
        end in
      match vector, mq_min_score query with
      | Some vector, min_score => ret (Semantic vector min_score)
      | None, Some _ => throw nothing_to_score
      | None, None => ret Exact
      end
  end.

(** What a record is embedded by, where the store embeds and the caller did not. *)
Definition with_its_embedding (semantic : option ModelId) (record : MemoryRecord) (cx : ExecutionContext) : action W Error MemoryRecord :=
  match semantic, m_embedding record with
  | Some model, None =>
      let! vector := embed model (embedding_text value_to_string (m_content record)) cx in ret (with_embedding vector record)
  | _, _ => ret record
  end.
End Semantic.

(** ** The store in memory ([store.rs]) *)

(** What a caller asks of a store, and what it is told. *)
Inductive MemoryRequest :=
  | Memory_Put (record : MemoryRecord)
  | Memory_Get (id : MemoryId)
  | Memory_Delete (id : MemoryId)
  | Memory_Query (query : MemoryQuery)
  | Memory_Sweep.

Inductive MemoryAnswer :=
  | Stored
  | Fetched (record : option MemoryRecord)
  | Existed (existed : bool)
  | Matched (matches : list MemoryMatch)
  | Swept (records : Z).

(** [authorize]; [id_text] is a UUID's textual form. *)
Definition not_yours (id_text : MemoryId -> string) (id : MemoryId) (owner : PrincipalId) (principal : Principal) : Error :=
  PermissionDenied ("memory record `" +:+ id_text id +:+ "` belongs to `" +:+ owner +:+ "`, not to `" +:+ principal_id principal +:+ "`").

Definition authorize (id_text : MemoryId -> string) (id : MemoryId) (owner : PrincipalId) (principal : Principal) : Result unit :=
  if may_act_for principal owner then Ok tt else Err (not_yours id_text id owner principal).

Record InMemoryMemoryStore (W : Type) := { mem_records : gmap MemoryId MemoryRecord; mem_world : W }.
Arguments mem_records {W}.
Arguments mem_world {W}.
Arguments Build_InMemoryMemoryStore {W}.

Section Store.
  Context {W : Type} `{Embedder W} (value_to_string : Value -> string) (id_text : MemoryId -> string) (semantic : option ModelId).

Abbreviation M := (action (InMemoryMemoryStore W) Error).

Definition with_world {A} (m : action W Error A) : M A := fun s =>
  let (w, r) := m (mem_world s) in (Build_InMemoryMemoryStore (mem_records s) w, r).
Definition set_mem (f : gmap MemoryId MemoryRecord -> gmap MemoryId MemoryRecord) : M unit :=
  modify (fun s => Build_InMemoryMemoryStore (f (mem_records s)) (mem_world s)).

(** Who a record written by [principal] under an identifier belongs to. *)
Definition owner_for (id : MemoryId) (existing : option PrincipalId) (principal : Principal) : Result PrincipalId :=
  match existing with
  | Some owner => let? _ := authorize id_text id owner principal in Ok owner
  | None => Ok (principal_id principal)
  end.

Definition mem_put (record : MemoryRecord) (cx : ExecutionContext) : M unit :=
  let! record := with_world (with_its_embedding value_to_string semantic record cx) in
  let! existing := gets (fun s => mem_records s !! m_id record) in
  let! owner := lift (owner_for (m_id record) (m_owner <$> existing) (principal_or_system cx)) in
  set_mem <[m_id record := with_owner owner record]>.

Definition mem_get (id : MemoryId) (cx : ExecutionContext) : M (option MemoryRecord) :=
  let! found := gets (fun s => mem_records s !! id) in
  match found with
  | None => ret None
  | Some record => lift (authorize id_text id (m_owner record) (principal_or_system cx)) ;! ret (Some record)
  end.

Definition mem_delete (id : MemoryId) (cx : ExecutionContext) : M bool :=
  let! found := gets (fun s => mem_records s !! id) in
  match found with
  | None => ret false
  | Some record =>
      lift (authorize id_text id (m_owner record) (principal_or_system cx)) ;! set_mem (delete id) ;! ret true
  end.

(** The records a query looks at. *)
Definition wanted (query : MemoryQuery) (principal : Principal) (now : Timestamp) (record : MemoryRecord) : bool :=
  may_act_for principal (m_owner record) &&
  (bool_decide (requested_kinds query = []) || bool_decide (m_kind record ∈ requested_kinds query)) &&
  is_live (m_expires_at record) now && matches_metadata record (mq_metadata query).

Definition mem_query (query : MemoryQuery) (cx : ExecutionContext) (now : Timestamp) : M (list MemoryMatch) :=
  let! mode := with_world (resolve_mode query semantic cx) in
  let! records := gets (fun s => map snd (map_to_list (mem_records s))) in
  ret (rank_for mode (List.filter (wanted query (principal_or_system cx) now) records) (mq_limit query)).

Definition mem_sweep_expired (now : Timestamp) : M Z :=
  let! before := gets (fun s => size (mem_records s)) in
  set_mem (filter (fun p => is_live (m_expires_at p.2) now)) ;!
  let! after := gets (fun s => size (mem_records s)) in
  ret (Z.of_nat before - Z.of_nat after).

Definition mem_serve (request : MemoryRequest) (cx : ExecutionContext) (now : Timestamp) : M MemoryAnswer :=
  match request with
  | Memory_Put record => mem_put record cx ;! ret Stored
  | Memory_Get id => let! record := mem_get id cx in ret (Fetched record)
  | Memory_Delete id => let! existed := mem_delete id cx in ret (Existed existed)
  | Memory_Query query => let! matches := mem_query query cx now in ret (Matched matches)
  | Memory_Sweep => let! n := mem_sweep_expired now in ret (Swept n)
  end.
End Store.

(** ** Scores can be ordered *)

Definition not_nan (x : spec_float) : Prop := x <> S754_nan.

(** Where a number stands among the others: by sign and size, then exponent, then mantissa. *)
Definition fkey (x : spec_float) : list Z :=
  match x with
  | S754_nan => []
  | S754_infinity s => [if s then -2 else 2; 0; 0]
  | S754_zero _ => [0; 0; 0]
  | S754_finite false m e => [1; e; Z.pos m]
  | S754_finite true m e => [-1; - e; Z.neg m]
  end.

Lemma then_with_eq c : then_with c Eq = c.
Proof. by destruct c. Qed.

Lemma fkey_compare x y : not_nan x -> not_nan y -> SFcompare x y = Some (lex (fkey x) (fkey y)).
Proof.
  destruct x as [[]|[]| |[] m e], y as [[]|[]| |[] n f]; try done; intros _ _; simpl; rewrite ?then_with_eq.
  - rewrite Z.compare_opp, (Z.compare_antisym e f). by destruct (e ?= f).
  - by destruct (e ?= f).
Qed.

Lemma partial_cmp_key x y : not_nan x -> not_nan y -> partial_cmp x y = lex (fkey x) (fkey y).
Proof. intros. unfold partial_cmp. by rewrite fkey_compare. Qed.

(** Rounding shifts a non-negative mantissa, which stays one. *)
Lemma shr_nonneg r e n : 0 <= shr_m r -> 0 <= shr_m (fst (shr r e n)).
Proof.
  unfold shr. destruct n as [|p|p]; try done. simpl. intros Hr.
  assert (H1 : forall r, 0 <= shr_m r -> 0 <= shr_m (shr_1 r)) by (intros [m b s]; simpl; by destruct m as [|[]|[]]).
  revert r Hr. induction p as [p IH|p IH|]; intros r Hr; simpl; [by apply IH, IH, H1|by apply IH, IH|by apply H1].
Qed.

Lemma shr_fexp_nonneg prec emax m e l : 0 <= m -> 0 <= shr_m (fst (shr_fexp prec emax m e l)).
Proof. intros Hm. unfold shr_fexp. apply shr_nonneg. by destruct l as [|[]]. Qed.

Lemma round_not_nan prec emax s m e l : 0 <= m -> not_nan (binary_round_aux prec emax s m e l).
Proof.
  intros Hm. unfold binary_round_aux. pose proof (shr_fexp_nonneg prec emax m e l Hm) as H1.
  destruct (shr_fexp prec emax m e l) as [r e'] eqn:E1. simpl in H1.
  assert (Hr : 0 <= round_nearest_even (shr_m r) (loc_of_shr_record r)).
  { unfold round_nearest_even. destruct (loc_of_shr_record r) as [|[]]; try done; try (destruct (Z.even _)); lia. }
  pose proof (shr_fexp_nonneg prec emax _ e' loc_Exact Hr) as H2. destruct (shr_fexp _ _ _ e' loc_Exact) as [r2 e2]. simpl in H2.
  destruct (shr_m r2); try done. by destruct (_ <=? _).
Qed.

Lemma round_to_not_nan prec emax x : not_nan x -> not_nan (F64.round_to prec emax x).
Proof.
  destruct x as [| | |s m e]; try done. intros _. unfold F64.round_to, binary_normalize.
  destruct s; simpl; unfold binary_round; destruct (shl_align _ _ _); by apply round_not_nan.
Qed.

Lemma cosine_not_nan a b s : cosine a b = Some s -> not_nan s.
Proof.
  unfold cosine. destruct (_ || _); [done|]. destruct (accumulate _ _ _ _ _) as [[dot na] nb]. destruct (_ || _); [done|].
  destruct (F64.is_finite (F64.div dot (F64.mul (F64.sqrt na) (F64.sqrt nb)))) eqn:E; [|done]. simpl. intros [= <-]. apply round_to_not_nan.
  revert E. generalize (F64.div dot (F64.mul (F64.sqrt na) (F64.sqrt nb))) as x. intros x E. unfold F64.clamp.
  destruct (SFltb x _); destruct (SFltb F64.one _); try done; by intros ->.
Qed.

(** ** What a query recalls *)

Definition record_key (r : MemoryRecord) : list Z := [- m_created_at r; - m_id r].

(** Matches come best score first, then newest, then by identifier. *)
Definition match_key (m : MemoryMatch) : list Z :=
  match match_score m with Some s => map Z.opp (fkey s) | None => [] end ++ record_key (match_record m).

Definition ranks_before (a b : MemoryMatch) : Prop := lex (match_key a) (match_key b) = Lt.

(** What a record scores in a mode; [None] is not to be shown. *)
Definition scores (mode : QueryMode) (r : MemoryRecord) (score : option f32) : Prop :=
  match mode with
  | Exact => score = None
  | Semantic vector min_score => exists s, score = Some s /\ scored vector min_score r = Some (s, r)
  end.

Lemma lex_opp a b : length a = length b -> lex (map Z.opp a) (map Z.opp b) = lex b a.
Proof. revert b. induction a as [|x a IH]; intros [|y b]; simpl; try done. intros [= Hl]. by rewrite Z.compare_opp, IH. Qed.

Lemma lex_app a b c d : length a = length b -> lex (a ++ c) (b ++ d) = then_with (lex a b) (lex c d).
Proof. revert b. induction a as [|x a IH]; intros [|y b]; simpl; try done. intros [= Hl]. rewrite IH by done. by destruct (x ?= y). Qed.

Lemma newest_first_key a b : newest_first a b = lex (record_key a) (record_key b).
Proof. unfold newest_first, record_key. simpl. by rewrite !Z.compare_opp, then_with_eq. Qed.

Lemma fkey_length x : not_nan x -> length (fkey x) = 3%nat.
Proof. by destruct x as [| | |[]]. Qed.

Definition as_match (p : f32 * MemoryRecord) : MemoryMatch := {| match_record := p.2; match_score := Some p.1 |}.
Definition plain (r : MemoryRecord) : MemoryMatch := {| match_record := r; match_score := None |}.

Lemma best_first_key a b : not_nan a.1 -> not_nan b.1 -> best_first a b = lex (match_key (as_match a)) (match_key (as_match b)).
Proof.
  intros Ha Hb. unfold best_first, match_key. simpl match_score. simpl match_record.
  rewrite lex_app by (rewrite !length_map, !fkey_length; done). by rewrite lex_opp, partial_cmp_key, newest_first_key by (rewrite ?fkey_length; done).
Qed.

Lemma truncate_map {A B} (f : A -> B) limit l : map f (truncate limit l) = truncate limit (map f l).
Proof. destruct limit as [n|]; simpl; [|done]. rewrite !take_Z_take. by rewrite firstn_map. Qed.

Lemma scored_self vector min_score r p : scored vector min_score r = Some p -> p.2 = r /\ not_nan p.1.
Proof.
  unfold scored. intros (v & _ & (s & Hs & H)%bind_Some)%bind_Some. apply cosine_not_nan in Hs.
  destruct min_score as [m|]; [destruct (SFltb s m); [done|]|]; by injection H as <-.
Qed.

Lemma key_id a b : match_key a = match_key b -> m_id (match_record a) = m_id (match_record b).
Proof.
  unfold match_key. intros E. apply (f_equal (@rev Z)) in E. rewrite !rev_app_distr in E. unfold record_key in E. simpl in E.
  injection E as E _. lia.
Qed.

(** Sorted without two of the same key is strictly sorted. *)
Lemma strictly_sorted (l : list MemoryMatch) :
  NoDup (map (fun m => m_id (match_record m)) l) -> StronglySorted (fun x y => lex (match_key x) (match_key y) <> Gt) l -> StronglySorted ranks_before l.
Proof.
  intros Hnd Hs. induction Hs as [|x k Hs IH Hx]; [constructor|]. simpl in Hnd. apply NoDup_cons in Hnd as [Hin Hnd].
  constructor; [by apply IH|]. rewrite Forall_forall in *. intros y Hy. specialize (Hx y Hy). unfold ranks_before.
  destruct (lex (match_key x) (match_key y)) eqn:E; try done. destruct Hin. apply lex_eq, key_id in E. rewrite E.
  by apply (list_elem_of_fmap_2 (fun m => m_id (match_record m))).
Qed.

(** Every candidate that has a score, in order. *)
Definition ranked (mode : QueryMode) (candidates : list MemoryRecord) : list MemoryMatch := rank_for mode candidates None.

Lemma rank_for_truncates mode candidates limit : rank_for mode candidates limit = truncate limit (ranked mode candidates).
Proof. destruct mode; unfold ranked, rank_for, rank, rank_by_similarity; simpl; by rewrite <- truncate_map. Qed.

Lemma scored_in vector min_score (candidates : list MemoryRecord) p :
  p ∈ omap (scored vector min_score) candidates -> p.2 ∈ candidates /\ not_nan p.1.
Proof. intros (r & Hr & Hs)%list_elem_of_omap. by apply scored_self in Hs as [<- Hs]. Qed.

Lemma ranked_members mode candidates m :
  m ∈ ranked mode candidates <-> match_record m ∈ candidates /\ scores mode (match_record m) (match_score m).
Proof.
  destruct mode as [|vector min_score]; unfold ranked, rank_for, rank, rank_by_similarity; simpl; rewrite list_elem_of_fmap.
  - setoid_rewrite sort_by_Permutation. split; [by intros (r & -> & Hr)|]. destruct m as [r sc]; simpl. intros [Hr ->]. by exists r.
  - setoid_rewrite sort_by_Permutation. setoid_rewrite list_elem_of_omap. split.
    + intros (p & -> & r & Hr & Hs). simpl. destruct (scored_self _ _ _ _ Hs) as [<- _]. split; [done|]. exists p.1. by destruct p.
    + intros [Hr (s & E & Hs)]. exists (s, match_record m). split; [destruct m; simpl in *; by subst|]. by exists (match_record m).
Qed.

Lemma ranked_sorted mode candidates : NoDup (map m_id candidates) -> StronglySorted ranks_before (ranked mode candidates).
Proof.
  intros Hnd. apply strictly_sorted.
  - destruct mode as [|vector min_score]; unfold ranked, rank_for, rank, rank_by_similarity; simpl; rewrite map_map; simpl.
    + by rewrite sort_by_Permutation.
    + rewrite sort_by_Permutation. clear -Hnd. induction candidates as [|r l IH]; simpl in *; [constructor|].
      apply NoDup_cons in Hnd as [Hin Hnd]. destruct (scored vector min_score r) as [p|] eqn:E; simpl; [|by apply IH].
      apply NoDup_cons. split; [|by apply IH]. apply scored_self in E as [-> _].
      intros (q & Hq & [Hl _]%scored_in)%list_elem_of_fmap. apply Hin. rewrite Hq. by apply list_elem_of_fmap_2.
  - destruct mode as [|vector min_score]; unfold ranked, rank_for, rank, rank_by_similarity; simpl.
    + assert (Hs := sort_by_sorted record_key newest_first candidates (fun x y _ _ => newest_first_key x y)).
      induction Hs as [|x k Hs IH Hx]; simpl; constructor; [done|]. by rewrite List.Forall_map.
    + assert (Hs := sort_by_sorted (fun p => match_key (as_match p)) best_first (omap (scored vector min_score) candidates)
                      (fun x y Hx Hy => best_first_key x y (proj2 (scored_in _ _ _ _ Hx)) (proj2 (scored_in _ _ _ _ Hy)))).
      induction Hs as [|x k Hs IH Hx]; simpl; constructor; [done|]. by rewrite List.Forall_map.
Qed.

(** The order candidates are found in does not matter. *)
Lemma ranked_unordered mode candidates candidates' limit :
  NoDup (map m_id candidates) -> candidates ≡ₚ candidates' -> rank_for mode candidates limit = rank_for mode candidates' limit.
Proof.
  intros Hnd Hp. rewrite !rank_for_truncates. f_equal. apply (StronglySorted_unique_strong ranks_before).
  - intros x y _ _ Hxy Hyx. unfold ranks_before in *. rewrite lex_antisym, Hxy in Hyx. done.
  - by apply ranked_sorted.
  - apply ranked_sorted. by rewrite <- Hp.
  - destruct mode as [|vector min_score]; unfold ranked, rank_for, rank, rank_by_similarity; simpl; rewrite !sort_by_Permutation; by rewrite Hp.
Qed.

(** A prefix of a sorted list: what is left out comes after all that is shown. *)
Lemma truncated (limit : option Z) (l : list MemoryMatch) : StronglySorted ranks_before l ->
  (forall n, limit = Some n -> Z.of_nat (length (truncate limit l)) <= Z.max 0 n) /\
  StronglySorted ranks_before (truncate limit l) /\
  (forall m, m ∈ truncate limit l -> m ∈ l) /\
  (forall m, m ∈ l -> m ∈ truncate limit l \/
     exists n, limit = Some n /\ Z.of_nat (length (truncate limit l)) = Z.max 0 n /\ Forall (fun x => ranks_before x m) (truncate limit l)).
Proof.
  intros Hs. destruct limit as [n|]; simpl; [|split_and!; [done|done|done|by left]].
  rewrite take_Z_take. split_and!.
  - intros ? [= <-]. rewrite length_take. lia.
  - eapply StronglySorted_sublist; [apply sublist_take|done].
  - intros m. apply subseteq_take.
  - intros m Hm. rewrite <- (take_drop (Z.to_nat n) l) in Hm. apply elem_of_app in Hm as [Hm|Hm]; [by left|right]. exists n. split; [done|]. split.
    + rewrite length_take. destruct (decide (Z.to_nat n < length l)%nat); [lia|]. rewrite drop_ge in Hm by lia. by apply not_elem_of_nil in Hm.
    + rewrite <- (take_drop (Z.to_nat n) l) in Hs. apply Forall_forall. intros x Hx. by eapply StronglySorted_app_1_elem_of.
Qed.

Section Recall.
  Context {W : Type} {EW : Embedder W} (value_to_string : Value -> string) (id_text : MemoryId -> string) (semantic : option ModelId).

(** Every record is filed under its own identifier. *)
Definition mem_well_formed (m : gmap MemoryId MemoryRecord) : Prop := map_Forall (fun id r => m_id r = id) m.

(** The records a query looks at, each under the identifier it is filed by. *)
Definition candidates (query : MemoryQuery) (principal : Principal) (now : Timestamp) (m : gmap MemoryId MemoryRecord) : list MemoryRecord :=
  List.filter (wanted query principal now) (map snd (map_to_list m)).

Lemma filed_NoDup (m : gmap MemoryId MemoryRecord) : mem_well_formed m -> NoDup (map m_id (map snd (map_to_list m))).
Proof.
  intros Hwf. rewrite map_map. erewrite map_ext_in; [apply (NoDup_fst_map_to_list m)|].
  intros [id r] Hin. apply list_elem_of_In, elem_of_map_to_list in Hin. by apply Hwf.
Qed.

Lemma candidates_NoDup query principal now m : mem_well_formed m -> NoDup (map m_id (candidates query principal now m)).
Proof. intros Hwf. eapply sublist_NoDup; [by apply filed_NoDup|]. apply (fmap_sublist m_id), filter_sublist. Qed.

Lemma candidates_members query principal now m r : mem_well_formed m ->
  r ∈ candidates query principal now m <-> m !! m_id r = Some r /\ wanted query principal now r = true.
Proof.
  intros Hwf. unfold candidates. rewrite list_elem_of_In, filter_In, <- list_elem_of_In, list_elem_of_fmap. split.
  - intros [([id r'] & -> & Hin%elem_of_map_to_list) Hw]. simpl in *. by rewrite (Hwf _ _ Hin).
  - intros [Hr Hw]. split; [|done]. exists (m_id r, r). split; [done|]. by apply elem_of_map_to_list.
Qed.

(** What a query of [principal] at [now] may show of [m]. *)
Definition recallable (m : gmap MemoryId MemoryRecord) (mode : QueryMode) (query : MemoryQuery) (principal : Principal) (now : Timestamp)
    (x : MemoryMatch) : Prop :=
  let r := match_record x in
  m !! m_id r = Some r /\ may_act_for principal (m_owner r) = true /\ is_live (m_expires_at r) now = true /\
  (mq_kinds query = [] \/ m_kind r ∈ mq_kinds query) /\
  (forall k v, (k, v) ∈ mq_metadata query -> Map_get k (m_metadata r) = Some v) /\
  scores mode r (match_score x).

Lemma requested_kinds_spec query : requested_kinds query = [] <-> mq_kinds query = [].
Proof.
  unfold requested_kinds. split; [|by intros ->]. destruct (mq_kinds query) as [|k l]; [done|].
  assert (H : sort_by String.compare (k :: l) <> []).
  { intros E. pose proof (sort_by_Permutation String.compare (k :: l)) as Hp. rewrite E in Hp. by apply Permutation_nil_cons in Hp. }
  destruct (sort_by _ _) as [|x s]; [done|]. simpl. destruct (dedup s); [done|]. by case_decide.
Qed.

Lemma dedup_members {A} `{EqDecision A} (l : list A) x : x ∈ dedup l <-> x ∈ l.
Proof.
  induction l as [|y l IH]; simpl; [done|]. rewrite elem_of_cons, <- IH. destruct (dedup l) as [|z k]; [by rewrite list_elem_of_singleton, elem_of_nil; tauto|].
  case_decide; subst; rewrite ?elem_of_cons; tauto.
Qed.

Lemma requested_kinds_members query k : k ∈ requested_kinds query <-> k ∈ mq_kinds query.
Proof. unfold requested_kinds. by rewrite dedup_members, sort_by_Permutation. Qed.

Lemma recallable_candidate m mode query principal now x : mem_well_formed m ->
  recallable m mode query principal now x <-> match_record x ∈ candidates query principal now m /\ scores mode (match_record x) (match_score x).
Proof.
  intros Hwf. rewrite candidates_members by done. unfold recallable, wanted, matches_metadata.
  rewrite !andb_true_iff, orb_true_iff, !bool_decide_eq_true, requested_kinds_spec, requested_kinds_members, forallb_forall.
  setoid_rewrite <- list_elem_of_In. split.
  - intros (? & ? & ? & ? & Hm & ?). split_and!; try done. intros [k v] Hkv. by apply bool_decide_eq_true, Hm.
  - intros ((? & ((? & ?) & ?) & Hm) & ?). split_and!; try done. intros k v Hkv. by apply Hm, bool_decide_eq_true in Hkv.
Qed.

(** A query resolves how to search, then ranks its candidates. *)
Lemma query_run query cx now (s s' : InMemoryMemoryStore W) r :
  mem_query semantic query cx now s = (s', r) ->
  mem_records s' = mem_records s /\
  exists resolved, resolve_mode query semantic cx (mem_world s) = (mem_world s', resolved) /\
    r = result_map (fun mode => truncate (mq_limit query) (ranked mode (candidates query (principal_or_system cx) now (mem_records s)))) resolved.
Proof.
  unfold mem_query, with_world, bind, gets, ret. destruct (resolve_mode query semantic cx (mem_world s)) as [w [mode|e]];
    simpl; intros [= <- <-]; (split; [done|]); [exists (Ok mode)|by exists (Err e)]. split; [done|]. simpl. by rewrite rank_for_truncates.
Qed.

Lemma candidate_matches query principal now m mode x : mem_well_formed m ->
  x ∈ truncate (mq_limit query) (ranked mode (candidates query principal now m)) -> recallable m mode query principal now x.
Proof.
  intros Hwf Hx. apply recallable_candidate; [done|]. apply ranked_members.
  by apply (truncated (mq_limit query) _ (ranked_sorted mode _ (candidates_NoDup query principal now _ Hwf))).
Qed.

(** recall is exact: a query answers with records that are stored, alive, of a kind and with the
    metadata it asks for, and whose owner the caller may act for - each scored, in a search by
    similarity, by its own embedding and never below the least score - in strict order of score,
    age and identifier, within the limit; and whatever it leaves out for the limit comes after
    everything it shows.  It fails only where it cannot tell how to search, and changes no
    record. *)
Theorem recall_is_exact (query : MemoryQuery) (cx : ExecutionContext) (now : Timestamp)
    (s s' : InMemoryMemoryStore W) (r : Result (list MemoryMatch)) :
  mem_well_formed (mem_records s) -> mem_query semantic query cx now s = (s', r) ->
  mem_records s' = mem_records s /\
  exists resolved, resolve_mode query semantic cx (mem_world s) = (mem_world s', resolved) /\
    match resolved with
    | Err e => r = Err e
    | Ok mode => exists matches, r = Ok matches /\
        let may_show := recallable (mem_records s) mode query (principal_or_system cx) now in
        Forall may_show matches /\ StronglySorted ranks_before matches /\
        (forall n, mq_limit query = Some n -> Z.of_nat (length matches) <= Z.max 0 n) /\
        (forall x, may_show x -> x ∈ matches \/
           exists n, mq_limit query = Some n /\ Z.of_nat (length matches) = Z.max 0 n /\ Forall (fun y => ranks_before y x) matches)
    end.
Proof.
  intros Hwf (Hs & resolved & Hr & ->)%query_run. split; [done|]. exists resolved. split; [done|]. destruct resolved as [mode|e]; [|done].
  eexists. split; [done|].
  destruct (truncated (mq_limit query) _ (ranked_sorted mode _ (candidates_NoDup query (principal_or_system cx) now _ Hwf))) as (Hlim & Hsort & _ & Hout).
  split_and!; [|done|done|].
  - apply Forall_forall. intros x Hx. by apply candidate_matches.
  - intros x Hx. apply Hout, ranked_members. by apply recallable_candidate.
Qed.

(** ** Ownership *)

(** The records an answer shows. *)
Definition shown_records (answer : Result MemoryAnswer) : list MemoryRecord :=
  match answer with
  | Ok (Fetched (Some record)) => [record]
  | Ok (Matched matches) => map match_record matches
  | _ => []
  end.

Record Visit := { visit_request : MemoryRequest; visit_cx : ExecutionContext; visit_at : Timestamp }.

Fixpoint mem_run (visits : list Visit) (s : InMemoryMemoryStore W) : InMemoryMemoryStore W * list (Result MemoryAnswer) :=
  match visits with
  | [] => (s, [])
  | v :: visits =>
      let (s, answer) := mem_serve value_to_string id_text semantic (visit_request v) (visit_cx v) (visit_at v) s in
      let (s, answers) := mem_run visits s in (s, answer :: answers)
  end.

(** What one request does to the records. *)
Definition changed (v : Visit) (answer : Result MemoryAnswer) (m m' : gmap MemoryId MemoryRecord) : Prop :=
  let p := principal_or_system (visit_cx v) in
  match visit_request v, answer with
  | Memory_Put record, Ok _ => exists vector owner,
      owner_for id_text (m_id record) (m_owner <$> m !! m_id record) p = Ok owner /\
      m' = <[m_id record := with_owner owner (match vector with Some e => with_embedding e record | None => record end)]> m
  | Memory_Delete id, Ok (Existed true) => m' = delete id m /\ exists r, m !! id = Some r /\ may_act_for p (m_owner r) = true
  | Memory_Sweep, Ok _ => m' = filter (fun q => is_live (m_expires_at q.2) (visit_at v)) m
  | _, _ => m' = m
  end.

Lemma with_its_embedding_inv record cx w w' record' :
  with_its_embedding value_to_string semantic record cx w = (w', Ok record') ->
  exists vector, record' = match vector with Some e => with_embedding e record | None => record end.
Proof.
  unfold with_its_embedding. intros H. destruct semantic as [model|]; [|injection H as <- <-; by exists None].
  destruct (m_embedding record); [injection H as <- <-; by exists None|]. peel H E. injection H as <- <-. by eexists (Some _).
Qed.

Lemma with_owner_embedding owner e record : with_owner owner (with_embedding e record) = with_embedding e (with_owner owner record).
Proof. done. Qed.

Lemma embedded_id vector record : m_id (match vector with Some e => with_embedding e record | None => record end) = m_id record.
Proof. by destruct vector. Qed.

Lemma serve_changes v s s' answer :
  mem_serve value_to_string id_text semantic (visit_request v) (visit_cx v) (visit_at v) s = (s', answer) ->
  changed v answer (mem_records s) (mem_records s').
Proof.
  unfold changed. destruct v as [request cx now]. simpl. destruct request as [record|id|id|query|]; simpl; unfold mem_put, mem_get, mem_delete, mem_query, mem_sweep_expired.
  - unfold bind at 1. intros H. unfold with_world, bind, gets, lift, set_mem, modify, ret in H.
    destruct (with_its_embedding value_to_string semantic record cx (mem_world s)) as [w [record'|e]] eqn:E; [|by injection H as <- <-].
    apply with_its_embedding_inv in E as [vector ->]. rewrite embedded_id in H. simpl in H.
    destruct (owner_for id_text (m_id record) (m_owner <$> mem_records s !! m_id record) (principal_or_system cx)) as [owner|e] eqn:Eo; injection H as <- <-; [|done].
    by exists vector, owner.
  - unfold bind, gets, lift, ret. destruct (mem_records s !! id); [destruct (authorize _ _ _ _)|]; by intros [= <- <-].
  - unfold bind, gets, lift, ret, set_mem, modify, authorize. destruct (mem_records s !! id) as [r|] eqn:E; [|by intros [= <- <-]].
    destruct (may_act_for _ _) eqn:Ea; intros [= <- <-]; [|done]. simpl. split; [done|]. by exists r.
  - unfold bind, with_world, gets, ret. destruct (resolve_mode _ _ _ _) as [w [mode|e]]; by intros [= <- <-].
  - unfold bind, gets, ret, set_mem, modify. by intros [= <- <-].
Qed.

Lemma changed_keeps v answer m m' id r :
  changed v answer m m' -> m !! id = Some r -> may_act_for (principal_or_system (visit_cx v)) (m_owner r) = false ->
  (visit_request v = Memory_Sweep -> is_live (m_expires_at r) (visit_at v) = true) -> m' !! id = Some r.
Proof.
  unfold changed. intros Hc Hr Hp Hl. destruct (visit_request v) as [record|i|i|query|]; try by subst.
  - destruct answer as [a|]; [|by subst]. destruct Hc as (vector & owner & Ho & ->). destruct (decide (m_id record = id)) as [<-|Hne]; [|by rewrite lookup_insert_ne].
    rewrite Hr in Ho. simpl in Ho. unfold authorize in Ho. by rewrite Hp in Ho.
  - destruct answer as [[| |[]| |]|]; try by subst. destruct Hc as (-> & r' & Hr' & Hp'). destruct (decide (i = id)) as [<-|Hne]; [|by rewrite lookup_delete_ne].
    rewrite Hr in Hr'. injection Hr' as <-. congruence.
  - destruct answer as [a|]; subst; [|done]. apply map_lookup_filter_Some. split; [done|]. simpl. by apply Is_true_true, Hl.
Qed.

Lemma changed_well_formed v answer m m' : changed v answer m m' -> mem_well_formed m -> mem_well_formed m'.
Proof.
  unfold changed. intros Hc Hwf. destruct (visit_request v) as [record|i|i|query|]; try by subst.
  - destruct answer as [a|]; [|by subst]. destruct Hc as (vector & owner & _ & ->). apply map_Forall_insert_2; [by destruct vector|done].
  - destruct answer as [[| |[]| |]|]; try by subst. destruct Hc as [-> _]. by apply map_Forall_delete.
  - destruct answer as [a|]; subst; [|done]. intros k r [Hr _]%map_lookup_filter_Some. by apply Hwf.
Qed.

Lemma serve_shows v s s' answer r :
  mem_well_formed (mem_records s) ->
  mem_serve value_to_string id_text semantic (visit_request v) (visit_cx v) (visit_at v) s = (s', answer) ->
  r ∈ shown_records answer -> mem_records s !! m_id r = Some r /\ may_act_for (principal_or_system (visit_cx v)) (m_owner r) = true.
Proof.
  intros Hwf. destruct v as [request cx now]. simpl. destruct request as [record|id|id|query|]; simpl; intros H Hr; unfold bind in H.
  - destruct (mem_put _ _ _ _ _ _) as [s1 [a|e]]; injection H as <- <-; by apply not_elem_of_nil in Hr.
  - unfold mem_get, bind, gets, lift, ret, authorize in H. destruct (mem_records s !! id) as [r'|] eqn:E; [|injection H as <- <-; by apply not_elem_of_nil in Hr].
    destruct (may_act_for _ _) eqn:Ea; injection H as <- <-; [|by apply not_elem_of_nil in Hr].
    apply list_elem_of_singleton in Hr as ->. by rewrite (Hwf _ _ E).
  - destruct (mem_delete _ _ _ _) as [s1 [a|e]]; injection H as <- <-; by apply not_elem_of_nil in Hr.
  - destruct (mem_query semantic query cx now s) as [s1 q] eqn:Eq. apply query_run in Eq as (_ & resolved & _ & ->).
    destruct resolved as [mode|e]; injection H as <- <-; [|by apply not_elem_of_nil in Hr].
    apply list_elem_of_fmap in Hr as (x & -> & Hx). apply candidate_matches in Hx as (? & ? & _); [|done]. by split.
  - destruct (mem_sweep_expired _ _) as [s1 [a|e]]; injection H as <- <-; by apply not_elem_of_nil in Hr.
Qed.

(** C26. memories are private: over any run of requests, whoever makes them, an answer shows only records
    whose owner its caller may act for; and a record stays, unchanged, for as long as nobody who may
    act for its owner asks and no sweep comes at or after its expiry. *)
Theorem memories_are_private (visits : list Visit) : forall (s s' : InMemoryMemoryStore W) (answers : list (Result MemoryAnswer)),
  mem_well_formed (mem_records s) -> mem_run visits s = (s', answers) ->
  mem_well_formed (mem_records s') /\
  Forall2 (fun v answer => forall r, r ∈ shown_records answer -> may_act_for (principal_or_system (visit_cx v)) (m_owner r) = true) visits answers /\
  forall id r, mem_records s !! id = Some r ->
    Forall (fun v => may_act_for (principal_or_system (visit_cx v)) (m_owner r) = false /\
                     (visit_request v = Memory_Sweep -> is_live (m_expires_at r) (visit_at v) = true)) visits ->
    mem_records s' !! id = Some r.
Proof.
  induction visits as [|v visits IH]; intros s s' answers Hwf; simpl; [intros [= <- <-]; by split_and!|].
  destruct (mem_serve _ _ _ _ _ _ s) as [s1 answer] eqn:E. destruct (mem_run visits s1) as [s2 rest] eqn:Er. intros [= <- <-].
  pose proof (serve_changes _ _ _ _ E) as Hc. destruct (IH _ _ _ (changed_well_formed _ _ _ _ Hc Hwf) Er) as (Hwf2 & Hall & Hkeep).
  split_and!; [done| |].
  - constructor; [|done]. intros r Hr. exact (proj2 (serve_shows _ _ _ _ _ Hwf E Hr)).
  - intros id r Hr [[Hp Hl] Hvs]%Forall_cons. apply Hkeep; [|done]. by eapply changed_keeps.
Qed.
End Recall.

Module Demo.

(** 1, 0 and -1 in single precision. *)
Definition one32 : f32 := S754_finite false 8388608 (-23).
Definition zero32 : f32 := S754_zero false.
Definition minus32 : f32 := S754_finite true 8388608 (-23).

(** A model that puts every text in the same place. *)
#[local] Instance constant_model : Embedder nat := fun model texts cx calls => (S calls, Ok (map (fun _ => [one32; zero32]) texts)).

Definition remembered (id : MemoryId) (owner : PrincipalId) (at_ : Timestamp) (v : list f32) : MemoryRecord :=
  {| m_id := id; m_owner := owner; m_kind := "fact"; m_content := VString "text"; m_metadata := []; m_created_at := at_;
     m_expires_at := None; m_embedding := Some v |}.

Definition a_store : InMemoryMemoryStore nat :=
  Build_InMemoryMemoryStore (<[1 := remembered 1 "minos" 10 [one32; one32]]> (<[2 := remembered 2 "minos" 20 [one32; zero32]]>
    (<[3 := remembered 3 "minos" 30 [minus32; zero32]]> (<[4 := remembered 4 "ada" 40 [one32; zero32]]> ∅)))) 0%nat.

Definition as_user (who : PrincipalId) : ExecutionContext :=
  {| correlation := "c"; principal := Some (Principal_new who User); deadline := None; cancellation := false; attributes := [] |}.

Definition a_query : MemoryQuery :=
  {| mq_kinds := []; mq_text := Some "anything"%string; mq_embedding := None; mq_metadata := []; mq_limit := Some 2; mq_min_score := None |}.

Lemma a_store_well_formed : mem_well_formed (mem_records a_store).
Proof. repeat (apply map_Forall_insert_2; [reflexivity|]). apply map_Forall_empty. Qed.

(** The two closest of the caller's own, the closest first: 1, then cos 45. *)
Lemma recall_is_exact_witness :
  exists matches, snd (mem_query (Some "model"%string) a_query (as_user "minos") 50 a_store) = Ok matches /\
    map (fun m => m_id (match_record m)) matches = [2; 1] /\ StronglySorted ranks_before matches.
Proof.
  destruct (recall_is_exact (Some "model"%string) a_query (as_user "minos") 50 a_store _ _ a_store_well_formed (surjective_pairing _))
    as (_ & resolved & Hr & Hm).
  assert (Hmode : resolve_mode a_query (Some "model"%string) (as_user "minos") (mem_world a_store) = (1%nat, Ok (Semantic [one32; zero32] None))) by reflexivity.
  rewrite Hmode in Hr. apply (f_equal snd) in Hr. cbn in Hr. rewrite <- Hr in Hm. destruct Hm as (matches & Hm & _ & Hs & _). exists matches. split; [exact Hm|]. split; [|exact Hs].
  assert (Hc : result_map (map (fun m => m_id (match_record m))) (snd (mem_query (Some "model"%string) a_query (as_user "minos") 50 a_store)) = Ok [2; 1])
    by (vm_compute; reflexivity).
  rewrite Hm in Hc. injection Hc as Hc. exact Hc.
Defined.

Definition pries : list Visit :=
  [{| visit_request := Memory_Delete 1; visit_cx := as_user "ada"; visit_at := 50 |};
   {| visit_request := Memory_Query a_query; visit_cx := as_user "ada"; visit_at := 51 |};
   {| visit_request := Memory_Sweep; visit_cx := as_user "ada"; visit_at := 52 |}].

Lemma memories_are_private_witness :
  mem_records (fst (mem_run (fun _ => EmptyString) fmt_u (Some "model"%string) pries a_store)) !! 1 = Some (remembered 1 "minos" 10 [one32; one32]).
Proof.
  apply (memories_are_private (fun _ => EmptyString) fmt_u (Some "model"%string) pries a_store _ _ a_store_well_formed (surjective_pairing _)).
  - reflexivity.
  - repeat constructor; reflexivity.
Defined.
End Demo.
