(* ===== verification/MemoryRedb.v ===== *)
(** * MemoryRedb: memories kept on disk

    [crates/memory/src/persistent.rs]: the operations of [Memory] over four tables of an embedded
    database, each one a transaction of [Store].  A row is the value its bytes were written from;
    [serde_json] writes a number that is not finite as [null], which no [f32] is read from, and
    otherwise reads back what it wrote. *)

From Stdlib Require Import SpecFloat.
From S2P Require Import Prelude Base Store Memory.

(** ** Rows and tables *)

Record StoredRecord := {
  sr_owner : PrincipalId;
  sr_kind : MemoryKind;
  sr_content : Value;
  sr_metadata : Map;
  sr_created_at : Timestamp;
  sr_expires_at : option Timestamp;
  sr_embedding : option (list f32);
}.

(** [StoredRecord::from_record], which is given the record's identifier apart. *)
Definition from_record (r : MemoryRecord) : MemoryId * StoredRecord :=
  (m_id r, {| sr_owner := m_owner r; sr_kind := m_kind r; sr_content := m_content r; sr_metadata := m_metadata r;
              sr_created_at := m_created_at r; sr_expires_at := m_expires_at r; sr_embedding := m_embedding r |}).

Definition into_record (self : StoredRecord) (id : MemoryId) : MemoryRecord :=
  {| m_id := id; m_owner := sr_owner self; m_kind := sr_kind self; m_content := sr_content self; m_metadata := sr_metadata self;
     m_created_at := sr_created_at self; m_expires_at := sr_expires_at self; m_embedding := sr_embedding self |}.

Definition owned_by (owner : PrincipalId) (self : StoredRecord) : StoredRecord :=
  {| sr_owner := owner; sr_kind := sr_kind self; sr_content := sr_content self; sr_metadata := sr_metadata self;
     sr_created_at := sr_created_at self; sr_expires_at := sr_expires_at self; sr_embedding := sr_embedding self |}.

(** [decode] of what [encode] wrote. *)
Definition finite_embedding (v : option (list f32)) : bool := forallb F64.is_finite (default [] v).
Definition no_number : Error := Error_wrap "decoding the memory record" (BoxForeign "invalid type: null, expected f32" None).
Definition decode (row : StoredRecord) : Result StoredRecord := if finite_embedding (sr_embedding row) then Ok row else Err no_number.

(** [RECORDS], [BY_KIND], [BY_EXPIRY] and [BY_OWNER]. *)
Record MemoryTables := {
  RECORDS : gmap MemoryId StoredRecord;
  BY_KIND : gset (MemoryKind * MemoryId);
  BY_EXPIRY : gset (Timestamp * MemoryId);
  BY_OWNER : gset (PrincipalId * MemoryId);
}.

Definition set_records f t := {| RECORDS := f (RECORDS t); BY_KIND := BY_KIND t; BY_EXPIRY := BY_EXPIRY t; BY_OWNER := BY_OWNER t |}.
Definition set_by_kind f t := {| RECORDS := RECORDS t; BY_KIND := f (BY_KIND t); BY_EXPIRY := BY_EXPIRY t; BY_OWNER := BY_OWNER t |}.
Definition set_by_expiry f t := {| RECORDS := RECORDS t; BY_KIND := BY_KIND t; BY_EXPIRY := f (BY_EXPIRY t); BY_OWNER := BY_OWNER t |}.
Definition set_by_owner f t := {| RECORDS := RECORDS t; BY_KIND := BY_KIND t; BY_EXPIRY := BY_EXPIRY t; BY_OWNER := f (BY_OWNER t) |}.
Definition no_tables : MemoryTables := {| RECORDS := ∅; BY_KIND := ∅; BY_EXPIRY := ∅; BY_OWNER := ∅ |}.

Definition adding {A} `{Countable A} (x : A) (s : gset A) : gset A := {[x]} ∪ s.
Definition removing {A} `{Countable A} (x : A) (s : gset A) : gset A := s ∖ {[x]}.

(** [index.range((name, 0)..=(name, u128::MAX))]: the identifiers under a name, in order. *)
Definition under (name : string) (index : gset (string * MemoryId)) : list MemoryId :=
  merge_sort Z.le (omap (fun p => if decide (p.1 = name) then Some p.2 else None) (elements index)).

(** [by_expiry.range(..=(now, u128::MAX))] *)
Definition expiry_le (a b : Timestamp * MemoryId) : Prop := a.1 < b.1 \/ (a.1 = b.1 /\ a.2 <= b.2).
#[export] Instance expiry_le_dec : RelDecision expiry_le.
Proof. intros a b. unfold expiry_le. apply _. Defined.
Definition all_due (now : Timestamp) (t : MemoryTables) : list (Timestamp * MemoryId) :=
  merge_sort expiry_le (filter (fun p => p.1 <= now) (elements (BY_EXPIRY t))).

(** ** Operations *)

Abbreviation M := (action (Db MemoryTables) Error).

Definition open_table (what : string) : M unit := io ("opening the memory " +:+ what +:+ " table").

Definition create_tables : M unit :=
  write_transaction "beginning the memory schema transaction" "committing the memory schema" (
    io "creating the memory record table" ;!
    io "creating the memory kind index" ;!
    io "creating the memory expiry index" ;!
    io "creating the memory owner index" ;!
    ret (Committing tt)).

Section Redb.
  Context (id_text : MemoryId -> string).

Definition read_row (key : MemoryId) : M (option StoredRecord) :=
  io "reading a memory record" ;!
  let! row := reads (fun t => RECORDS t !! key) in
  match row with None => ret None | Some row => let! stored := lift (decode row) in ret (Some stored) end.

Definition put_blocking (record : MemoryRecord) (principal : Principal) : M unit :=
  let (key, stored) := from_record record in
  write_transaction "beginning a memory write" "committing a memory write" (
    open_table "record" ;!
    let! previous := read_row key in
    let! owner := lift (owner_for id_text key (sr_owner <$> previous) principal) in
    let stored := owned_by owner stored in
    io "writing a memory record" ;!
    writes (set_records <[key := stored]>) ;!
    (match previous with
     | None => open_table "owner index" ;! io "updating the memory owner index" ;! writes (set_by_owner (adding (owner, key)))
     | Some _ => ret tt
     end) ;!
    open_table "kind index" ;!
    (match previous with
     | Some previous => io "updating the memory kind index" ;! writes (set_by_kind (removing (sr_kind previous, key)))
     | None => ret tt
     end) ;!
    io "updating the memory kind index" ;! writes (set_by_kind (adding (sr_kind stored, key))) ;!
    open_table "expiry index" ;!
    (match (previous ← previous; sr_expires_at previous) with
     | Some previous_expiry => io "updating the memory expiry index" ;! writes (set_by_expiry (removing (previous_expiry, key)))
     | None => ret tt
     end) ;!
    (match sr_expires_at stored with
     | Some expires_at => io "updating the memory expiry index" ;! writes (set_by_expiry (adding (expires_at, key)))
     | None => ret tt
     end) ;!
    ret (Committing tt)).

Definition get_blocking (id : MemoryId) (principal : Principal) : M (option MemoryRecord) :=
  io "beginning a memory read" ;!
  open_table "record" ;!
  let! found := read_row id in
  match found with
  | None => ret None
  | Some stored => lift (authorize id_text id (sr_owner stored) principal) ;! ret (Some (into_record stored id))
  end.

Definition delete_blocking (id : MemoryId) (principal : Principal) : M bool :=
  write_transaction "beginning a memory delete" "committing a memory delete" (
    open_table "record" ;!
    let! found := read_row id in
    match found with
    | None => ret (Dropping false)
    | Some stored =>
        lift (authorize id_text id (sr_owner stored) principal) ;!
        io "removing a memory record" ;! writes (set_records (delete id)) ;!
        open_table "kind index" ;!
        io "removing a memory kind index entry" ;! writes (set_by_kind (removing (sr_kind stored, id))) ;!
        open_table "owner index" ;!
        io "removing a memory owner index entry" ;! writes (set_by_owner (removing (sr_owner stored, id))) ;!
        (match sr_expires_at stored with
         | Some expires_at =>
             open_table "expiry index" ;!
             io "removing a memory expiry index entry" ;! writes (set_by_expiry (removing (expires_at, id)))
         | None => ret tt
         end) ;!
        ret (Committing true)
    end).

Definition accessible_owners (principal : Principal) : list PrincipalId :=
  principal_id principal ::
  match on_behalf_of principal with
  | Some delegator => if decide (delegator = principal_id principal) then [] else [delegator]
  | None => []
  end.

(** An index names a record that is not there. *)
Definition dangling (index name : string) (id : MemoryId) : Error :=
  Error_other ("the memory " +:+ index +:+ " index names record `" +:+ id_text id +:+ "` under " +:+ index +:+ " `" +:+ name
               +:+ "`, but no record is stored under that id").

(** The records an index files under a name. *)
Fixpoint read_filed (index name : string) (keys : list MemoryId) : M (list MemoryRecord) :=
  match keys with
  | [] => ret []
  | key :: keys =>
      io ("reading the memory " +:+ index +:+ " index") ;!
      let! found := read_row key in
      match found with
      | None => throw (dangling index name key)
      | Some stored => let! rest := read_filed index name keys in ret (into_record stored key :: rest)
      end
  end.

Fixpoint read_names (index : string) (get : MemoryTables -> gset (string * MemoryId)) (names : list string) : M (list MemoryRecord) :=
  match names with
  | [] => ret []
  | name :: names =>
      io ("scanning the memory " +:+ index +:+ " index") ;!
      let! keys := reads (fun t => under name (get t)) in
      let! filed := read_filed index name keys in
      let! rest := read_names index get names in
      ret (filed ++ rest)
  end.

Definition query_blocking (query : MemoryQuery) (mode : QueryMode) (now : Timestamp) (principal : Principal) : M (list MemoryMatch) :=
  io "beginning a memory query" ;!
  open_table "record" ;!
  let kinds := requested_kinds query in
  let! found :=
    (if bool_decide (kinds = [])
     then open_table "owner index" ;! read_names "owner" BY_OWNER (accessible_owners principal)
     else open_table "kind index" ;! read_names "kind" BY_KIND kinds) in
  let found := List.filter (fun r => may_act_for principal (m_owner r)) found in
  let found := List.filter (fun r => is_live (m_expires_at r) now) found in
  let found := List.filter (fun r => matches_metadata r (mq_metadata query)) found in
  ret (rank_for mode found (mq_limit query)).

Definition dangling_expiry (id : MemoryId) (expires_at : Timestamp) : Error :=
  Error_other ("the memory expiry index names record `" +:+ id_text id +:+ "` at " +:+ fmt_u expires_at
               +:+ "ms, but no record is stored under that id").

(** The entries of the expiry index that are read: up to [limit], each a call. *)
Definition collect_due (limit : nat) (now : Timestamp) : M (list (Timestamp * MemoryId)) :=
  open_table "expiry index" ;!
  io "scanning the memory expiry index" ;!
  let! due := reads (fun t => take (Nat.max 1 limit) (all_due now t)) in
  for_each (fun _ => io "reading the memory expiry index") due ;!
  ret due.

Definition remove_expired (entry : Timestamp * MemoryId) : M unit :=
  let (expires_at, key) := entry in
  io "removing an expired memory record" ;!
  let! row := reads (fun t => RECORDS t !! key) in
  writes (set_records (delete key)) ;!
  match row with
  | None => throw (dangling_expiry key expires_at)
  | Some row =>
      let! stored := lift (decode row) in
      io "removing a memory kind index entry" ;! writes (set_by_kind (removing (sr_kind stored, key))) ;!
      io "removing a memory owner index entry" ;! writes (set_by_owner (removing (sr_owner stored, key))) ;!
      io "removing a memory expiry index entry" ;! writes (set_by_expiry (removing (expires_at, key)))
  end.

Definition sweep_batch_blocking (now : Timestamp) (limit : nat) : M nat :=
  write_transaction "beginning a memory sweep" "committing a memory sweep" (
    let! due := collect_due limit now in
    match due with
    | [] => ret (Dropping 0%nat)
    | _ =>
        open_table "record" ;! open_table "kind index" ;! open_table "owner index" ;! open_table "expiry index" ;!
        for_each remove_expired due ;!
        ret (Committing (length due))
    end).

(** The batches of a sweep; [None] is out of turns. *)
Fixpoint sweep_loop (batch fuel : nat) (now : Timestamp) (total : nat) : M (option nat) :=
  match fuel with
  | O => ret None
  | S fuel =>
      let! removed := sweep_batch_blocking now batch in
      if (removed <? batch)%nat then ret (Some (total + removed)%nat) else sweep_loop batch fuel now (total + removed)
  end.

(** A batch that is full has removed a record at least: a turn for each, and one more. *)
Definition redb_sweep_expired (batch : nat) (now : Timestamp) : M (option nat) := fun s =>
  sweep_loop batch (S (size (RECORDS (tables s)))) now 0 s.
End Redb.

(** ** The store *)

Record RedbMemoryStore (W : Type) := { redb_db : Db MemoryTables; redb_world : W }.
Arguments redb_db {W}.
Arguments redb_world {W}.
Arguments Build_RedbMemoryStore {W}.

Section Serve.
  Context {W : Type} `{Embedder W} (value_to_string : Value -> string) (id_text : MemoryId -> string) (semantic : option ModelId).
  Context (sweep_batch : nat).

Abbreviation S := (action (RedbMemoryStore W) Error).

Definition on_db {A} (m : M A) : S A := fun s => let (d, r) := m (redb_db s) in (Build_RedbMemoryStore d (redb_world s), r).
Definition on_world {A} (m : action W Error A) : S A := fun s => let (w, r) := m (redb_world s) in (Build_RedbMemoryStore (redb_db s) w, r).

(** [None] is a sweep out of turns. *)
Definition redb_serve (request : MemoryRequest) (cx : ExecutionContext) (now : Timestamp) : S (option MemoryAnswer) :=
  let principal := principal_or_system cx in
  match request with
  | Memory_Put record =>
      let! record := on_world (with_its_embedding value_to_string semantic record cx) in
      on_db (put_blocking id_text record principal) ;! ret (Some Stored)
  | Memory_Get id => let! record := on_db (get_blocking id_text id principal) in ret (Some (Fetched record))
  | Memory_Delete id => let! existed := on_db (delete_blocking id_text id principal) in ret (Some (Existed existed))
  | Memory_Query query =>
      let! mode := on_world (resolve_mode query semantic cx) in
      let! matches := on_db (query_blocking id_text query mode now principal) in
      ret (Some (Matched matches))
  | Memory_Sweep =>
      let! n := on_db (redb_sweep_expired id_text sweep_batch now) in ret ((fun n => Swept (Z.of_nat n)) <$> n)
  end.
End Serve.

(** ** The tables of a store *)

Definition row_of (r : MemoryRecord) : StoredRecord := (from_record r).2.

(** The tables that stand for the records [m]. *)
Record related (m : gmap MemoryId MemoryRecord) (t : MemoryTables) : Prop := {
  rel_rows id : RECORDS t !! id = row_of <$> m !! id;
  rel_kind k id : (k, id) ∈ BY_KIND t <-> exists r, m !! id = Some r /\ m_kind r = k;
  rel_expiry e id : (e, id) ∈ BY_EXPIRY t <-> exists r, m !! id = Some r /\ m_expires_at r = Some e;
  rel_owner o id : (o, id) ∈ BY_OWNER t <-> exists r, m !! id = Some r /\ m_owner r = o;
}.

(** Every record is filed under its own identifier, and can be read back. *)
Definition readable (m : gmap MemoryId MemoryRecord) : Prop :=
  map_Forall (fun id r => m_id r = id /\ finite_embedding (m_embedding r) = true) m.

Lemma memory_related_empty : related ∅ no_tables.
Proof. split; intros; simpl; rewrite ?lookup_empty; split; try set_solver; naive_solver. Qed.

Lemma into_row r : into_record (row_of r) (m_id r) = r.
Proof. by destruct r. Qed.

Lemma decode_row r : finite_embedding (m_embedding r) = true -> decode (row_of r) = Ok (row_of r).
Proof. unfold decode. simpl. by intros ->. Qed.

(** One record written, another's entries gone where it replaces one. *)
Lemma memory_related_update m t t' id r :
  related m t -> RECORDS t' = <[id := row_of r]> (RECORDS t) ->
  (forall k j, (k, j) ∈ BY_KIND t' <-> if decide (j = id) then m_kind r = k else (k, j) ∈ BY_KIND t) ->
  (forall e j, (e, j) ∈ BY_EXPIRY t' <-> if decide (j = id) then m_expires_at r = Some e else (e, j) ∈ BY_EXPIRY t) ->
  (forall o j, (o, j) ∈ BY_OWNER t' <-> if decide (j = id) then m_owner r = o else (o, j) ∈ BY_OWNER t) ->
  related (<[id := r]> m) t'.
Proof.
  intros [Hr Hk He Ho] Er Ek Ee Eo. split.
  - intros j. rewrite Er. destruct (decide (j = id)) as [->|Hj]; [by rewrite !lookup_insert_eq|by rewrite !lookup_insert_ne].
  - intros k j. rewrite Ek. case_decide as Hj; [subst; rewrite lookup_insert_eq; naive_solver|by rewrite lookup_insert_ne].
  - intros e j. rewrite Ee. case_decide as Hj; [subst; rewrite lookup_insert_eq; naive_solver|by rewrite lookup_insert_ne].
  - intros o j. rewrite Eo. case_decide as Hj; [subst; rewrite lookup_insert_eq; naive_solver|by rewrite lookup_insert_ne].
Qed.

Definition without (id : MemoryId) (r : MemoryRecord) (t : MemoryTables) : MemoryTables :=
  {| RECORDS := delete id (RECORDS t); BY_KIND := removing (m_kind r, id) (BY_KIND t);
     BY_EXPIRY := match m_expires_at r with Some e => removing (e, id) (BY_EXPIRY t) | None => BY_EXPIRY t end;
     BY_OWNER := removing (m_owner r, id) (BY_OWNER t) |}.

Lemma memory_related_delete m t id r : related m t -> m !! id = Some r -> related (delete id m) (without id r t).
Proof.
  intros [Hr Hk He Ho] Hm. split; simpl.
  - intros j. destruct (decide (j = id)) as [->|Hj]; [by rewrite !lookup_delete_eq|by rewrite !lookup_delete_ne].
  - intros k j. unfold removing. rewrite elem_of_difference, Hk, elem_of_singleton. destruct (decide (j = id)) as [->|Hj];
      [rewrite lookup_delete_eq|rewrite lookup_delete_ne by done]; naive_solver.
  - intros e j. destruct (decide (j = id)) as [->|Hj]; [rewrite lookup_delete_eq|rewrite lookup_delete_ne by done].
    + split; [|naive_solver]. destruct (m_expires_at r) as [e'|] eqn:Ee; unfold removing; rewrite ?elem_of_difference, He, ?elem_of_singleton; naive_solver.
    + destruct (m_expires_at r) as [e'|] eqn:Ee; unfold removing; rewrite ?elem_of_difference, He, ?elem_of_singleton; naive_solver.
  - intros o j. unfold removing. rewrite elem_of_difference, Ho, elem_of_singleton. destruct (decide (j = id)) as [->|Hj];
      [rewrite lookup_delete_eq|rewrite lookup_delete_ne by done]; naive_solver.
Qed.

(** ** The operations, against the store in memory *)

Section Operations.
  Context (id_text : MemoryId -> string) (m : gmap MemoryId MemoryRecord).
  Context (Hread : readable m).

#[local] Set Default Proof Using "Type*".

Lemma read_row_wp key (s : Db MemoryTables) (Q : MemoryTables -> nat -> Result (option StoredRecord) -> Prop) :
  related m (tables s) -> Q (tables s) (drawn s) (Ok (row_of <$> m !! key)) -> wp (read_row key) s Q.
Proof.
  intros Hrel HQ. unfold read_row. wp_run. rewrite (rel_rows _ _ Hrel). destruct (m !! key) as [r|] eqn:E; simpl in *; [|by wp_run].
  rewrite decode_row by (by apply (Hread key)). by wp_run.
Qed.

(** Membership of an index after an operation, from what its entries were. *)
Ltac index_entries Hrel :=
  intros; case_decide; subst; unfold adding, removing;
  rewrite ?elem_of_union, ?elem_of_difference, ?elem_of_singleton, ?(rel_owner _ _ Hrel), ?(rel_kind _ _ Hrel), ?(rel_expiry _ _ Hrel);
  naive_solver.

Lemma put_wp record principal (s : Db MemoryTables) (Q : MemoryTables -> nat -> Result unit -> Prop) :
  related m (tables s) ->
  match owner_for id_text (m_id record) (m_owner <$> m !! m_id record) principal with
  | Ok owner => forall t, related (<[m_id record := with_owner owner record]> m) t -> Q t (drawn s) (Ok tt)
  | Err e => Q (tables s) (drawn s) (Err e)
  end -> wp (put_blocking id_text record principal) s Q.
Proof.
  intros Hrel HQ. unfold put_blocking, open_table. cbn -[wp owner_for write_transaction]. wp_run.
  apply (read_row_wp (m_id record)); [by wp_here|]. wp_run.
  replace (sr_owner <$> (row_of <$> m !! m_id record)) with (m_owner <$> m !! m_id record) by (by destruct (m !! m_id record)).
  destruct (owner_for _ _ _ _) as [owner|e] eqn:Eo; wp_run; [|done].
  assert (Hown : forall r, m !! m_id record = Some r -> owner = m_owner r).
  { intros r Hr. rewrite Hr in Eo. simpl in Eo. destruct (authorize _ _ _ _); [by injection Eo|done]. }
  destruct (m !! m_id record) as [r|] eqn:Em; simpl; wp_run.
  - rewrite (Hown r eq_refl) in *. destruct (m_expires_at r) as [e|] eqn:Ee; simpl; wp_run; destruct (m_expires_at record) as [e'|] eqn:Ee'; simpl; wp_run;
      (apply HQ; apply (memory_related_update _ (tables s)); [done|by unfold row_of; simpl; rewrite Ee'|..]; simpl; rewrite ?Ee'; index_entries Hrel).
  - destruct (m_expires_at record) as [e'|] eqn:Ee'; simpl; wp_run;
      (apply HQ; apply (memory_related_update _ (tables s)); [done|by unfold row_of; simpl; rewrite Ee'|..]; simpl; rewrite ?Ee'; index_entries Hrel).
Qed.

Lemma get_wp id principal (s : Db MemoryTables) (Q : MemoryTables -> nat -> Result (option MemoryRecord) -> Prop) :
  related m (tables s) ->
  Q (tables s) (drawn s) (match m !! id with
    | Some r => let? _ := authorize id_text id (m_owner r) principal in Ok (Some r)
    | None => Ok None end) -> wp (get_blocking id_text id principal) s Q.
Proof.
  intros Hrel HQ. unfold get_blocking, open_table. wp_run. apply (read_row_wp id); [by wp_here|]. wp_run.
  destruct (m !! id) as [r|] eqn:E; simpl in *; wp_run; [|done].
  destruct (authorize _ _ _ _); wp_run; [|done]. destruct (Hread id r E) as [<- _]. by rewrite into_row.
Qed.

Lemma delete_wp id principal (s : Db MemoryTables) (Q : MemoryTables -> nat -> Result bool -> Prop) :
  related m (tables s) ->
  match m !! id with
  | Some r => match authorize id_text id (m_owner r) principal with
              | Ok _ => forall t, related (delete id m) t -> Q t (drawn s) (Ok true)
              | Err e => Q (tables s) (drawn s) (Err e) end
  | None => Q (tables s) (drawn s) (Ok false)
  end -> wp (delete_blocking id_text id principal) s Q.
Proof.
  intros Hrel HQ. unfold delete_blocking, open_table. wp_run. apply (read_row_wp id); [by wp_here|]. wp_run.
  destruct (m !! id) as [r|] eqn:E; simpl in *; wp_run; [|done].
  destruct (authorize _ _ _ _); wp_run; [|done]. pose proof (memory_related_delete _ _ _ _ Hrel E) as Hd. unfold without in Hd.
  destruct (m_expires_at r); simpl; wp_run; by apply HQ.
Qed.
End Operations.

(** ** Recall *)

#[export] Instance expiry_le_trans : Transitive expiry_le.
Proof. intros a b c [H|[H H']] [K|[K K']]; unfold expiry_le; [left; lia..|right]; lia. Qed.
#[export] Instance expiry_le_total : Total expiry_le.
Proof. intros a b. unfold expiry_le. lia. Qed.

Lemma under_members name index id : id ∈ under name index <-> (name, id) ∈ index.
Proof.
  unfold under. rewrite merge_sort_Permutation, list_elem_of_omap. split.
  - intros ([n i] & Hin%elem_of_elements & H). simpl in *. case_decide; [|done]. by injection H as <-; subst.
  - intros H. exists (name, id). rewrite elem_of_elements. simpl. by rewrite decide_True.
Qed.

Lemma under_NoDup name index : NoDup (under name index).
Proof.
  unfold under. rewrite merge_sort_Permutation. apply NoDup_omap; [apply NoDup_elements|].
  intros [o1 k1] [o2 k2] b _ _. simpl. repeat case_decide; try done. intros [= <-] [= <-]. by subst.
Qed.

Lemma memory_accessible_owners_spec p o : o ∈ accessible_owners p <-> may_act_for p o = true.
Proof.
  rewrite may_act_for_spec. unfold accessible_owners. rewrite elem_of_cons.
  destruct (on_behalf_of p) as [d|]; [case_decide|]; rewrite ?list_elem_of_singleton; set_solver.
Qed.

Lemma memory_accessible_owners_NoDup p : NoDup (accessible_owners p).
Proof. unfold accessible_owners. destruct (on_behalf_of p) as [d|]; [case_decide|]; repeat constructor; set_solver. Qed.

Section Query.
  Context (id_text : MemoryId -> string) (m : gmap MemoryId MemoryRecord).
  Context (Hread : readable m).

#[local] Set Default Proof Using "Type*".

Definition filed (keys : list MemoryId) : list MemoryRecord := omap (fun key => m !! key) keys.

Lemma filed_members keys r : r ∈ filed keys <-> m_id r ∈ keys /\ m !! m_id r = Some r.
Proof.
  unfold filed. rewrite list_elem_of_omap. split.
  - intros (k & Hk & Hr). by destruct (Hread k r Hr) as [-> _].
  - intros [Hk Hr]. by exists (m_id r).
Qed.

Lemma keys_NoDup keys : NoDup keys -> NoDup (filed keys).
Proof.
  intros Hk. apply NoDup_omap; [done|]. intros x y r _ _ Hx Hy. destruct (Hread x r Hx) as [<- _], (Hread y r Hy) as [<- _]. done.
Qed.

Lemma read_filed_wp index name keys (s : Db MemoryTables) (Q : MemoryTables -> nat -> Result (list MemoryRecord) -> Prop) :
  related m (tables s) -> Forall (fun key => is_Some (m !! key)) keys ->
  Q (tables s) (drawn s) (Ok (filed keys)) -> wp (read_filed id_text index name keys) s Q.
Proof.
  intros Hrel Hk. revert s Q Hrel. induction Hk as [|k keys [r Hr] _ IH]; intros s Q Hrel HQ; simpl; [by wp_run|].
  wp_run. apply (read_row_wp m Hread k); [by wp_here|]. wp_run. rewrite Hr. simpl. wp_run. apply IH; [by wp_here|]. wp_run.
  simpl in HQ. rewrite Hr in HQ. destruct (Hread k r Hr) as [<- _]. by rewrite into_row.
Qed.

Lemma read_names_wp index get names (s : Db MemoryTables) (Q : MemoryTables -> nat -> Result (list MemoryRecord) -> Prop) :
  related m (tables s) -> (forall name key, (name, key) ∈ get (tables s) -> is_Some (m !! key)) ->
  Q (tables s) (drawn s) (Ok (concat (map (fun name => filed (under name (get (tables s)))) names))) ->
  wp (read_names id_text index get names) s Q.
Proof.
  revert s Q. induction names as [|name names IH]; intros s Q Hrel Hget HQ; simpl; [by wp_run|]. wp_run.
  apply read_filed_wp; [by wp_here| |].
  - apply Forall_forall. intros k Hk%under_members. by apply (Hget name).
  - wp_run. apply IH; [by wp_here|by wp_here|]. by wp_run.
Qed.

(** Records filed under distinct names by what [f] says of them. *)
Lemma names_members (f : MemoryRecord -> string) index names r :
  (forall name key, (name, key) ∈ index <-> exists r, m !! key = Some r /\ f r = name) ->
  r ∈ concat (map (fun name => filed (under name index)) names) <-> m !! m_id r = Some r /\ f r ∈ names.
Proof.
  intros Hi. rewrite list_elem_of_In, in_concat. split.
  - intros (l & Hl & Hr). apply list_elem_of_In, list_elem_of_fmap in Hl as (name & -> & Hn).
    apply list_elem_of_In, filed_members in Hr as [Hu%under_members Hr]. split; [done|].
    apply Hi in Hu as (r' & Hr' & <-). rewrite Hr in Hr'. by injection Hr' as <-.
  - intros [Hr Hn]. exists (filed (under (f r) index)). rewrite <- !list_elem_of_In. split.
    + by apply (list_elem_of_fmap_2 (fun name => filed (under name index))).
    + apply filed_members. split; [|done]. apply under_members, Hi. by exists r.
Qed.

Lemma names_NoDup (f : MemoryRecord -> string) index names :
  (forall name key, (name, key) ∈ index <-> exists r, m !! key = Some r /\ f r = name) -> NoDup names ->
  NoDup (concat (map (fun name => filed (under name index)) names)).
Proof.
  intros Hi Hn. apply concat_NoDup; [done|intros name; apply keys_NoDup, under_NoDup|].
  intros a a' r [Ha%under_members Hr]%filed_members [Ha'%under_members _]%filed_members.
  apply Hi in Ha as (r1 & Hr1 & <-), Ha' as (r2 & Hr2 & <-). congruence.
Qed.

Lemma filter_andb {A} (f g : A -> bool) l : List.filter g (List.filter f l) = List.filter (fun x => f x && g x) l.
Proof using. induction l as [|x l IH]; simpl; [done|]. destruct (f x); simpl; [|done]. by rewrite IH. Qed.

Lemma sort_by_kinds query : NoDup (requested_kinds query).
Proof using.
  unfold requested_kinds. apply (dedup_NoDup (fun a b => String.leb a b = true)); [intros x y; apply String.leb_antisym|].
  induction (mq_kinds query) as [|k l IH]; simpl; [constructor|]. clear -IH. revert IH. generalize (sort_by String.compare l) as s. intros s Hs.
  induction Hs as [|y s Hs IHs Hy]; simpl; [by repeat constructor|].
  assert (Hle : String.compare k y <> Gt -> String.leb k y = true) by (unfold String.leb; by destruct (String.compare k y)).
  destruct (String.compare k y) eqn:E.
  1,2: constructor; [by constructor|]; constructor; [by apply Hle|]; eapply Forall_impl; [exact Hy|]; simpl; intros z Hz; eapply leb_trans; [by apply Hle|done].
  constructor; [done|]. apply Forall_forall. intros z Hz. rewrite insert_by_Permutation in Hz.
  apply elem_of_cons in Hz as [->|Hz]; [|by rewrite Forall_forall in Hy; apply Hy]. unfold String.leb. rewrite String.compare_antisym, E. done.
Qed.

Lemma query_wp query mode now principal (s : Db MemoryTables) (Q : MemoryTables -> nat -> Result (list MemoryMatch) -> Prop) :
  related m (tables s) -> Q (tables s) (drawn s) (Ok (rank_for mode (candidates query principal now m) (mq_limit query))) ->
  wp (query_blocking id_text query mode now principal) s Q.
Proof.
  intros Hrel HQ. unfold query_blocking, open_table. wp_run. set (kinds := requested_kinds query) in *.
  assert (Hwf : mem_well_formed m) by (intros k r Hr; by apply Hread).
  assert (Hend : forall l, NoDup l ->
    (forall r, wanted query principal now r = true -> r ∈ l <-> m !! m_id r = Some r) -> (forall r, r ∈ l -> m !! m_id r = Some r) ->
    (forall r, r ∈ l -> kinds = [] \/ m_kind r ∈ kinds) ->
    rank_for mode (List.filter (fun r => matches_metadata r (mq_metadata query)) (List.filter (fun r => is_live (m_expires_at r) now)
      (List.filter (fun r => may_act_for principal (m_owner r)) l))) (mq_limit query)
    = rank_for mode (candidates query principal now m) (mq_limit query)).
  { intros l Hnd Hin Hm Hkinds. symmetry. apply ranked_unordered; [by apply candidates_NoDup|]. rewrite !filter_andb. apply NoDup_Permutation.
    - eapply (NoDup_fmap_1 m_id). by apply candidates_NoDup.
    - eapply sublist_NoDup; [exact Hnd|apply filter_sublist].
    - intros r. rewrite candidates_members by done. rewrite (list_elem_of_In (List.filter _ l)), filter_In, <- list_elem_of_In. split.
      + intros [Hr Hw]. split; [by apply Hin|]. unfold wanted in Hw. rewrite !andb_true_iff in *. tauto.
      + intros [Hr Hw]. split; [by apply Hm|]. unfold wanted. specialize (Hkinds r Hr). fold kinds.
        rewrite !andb_true_iff, orb_true_iff, !bool_decide_eq_true in *. tauto. }
  case_bool_decide as Hk; wp_run.
  - apply read_names_wp; [by wp_here|wp_here; intros name key (r & Hr & _)%(rel_owner _ _ Hrel); by exists r|]. wp_run.
    rewrite Hend; [done|..].
    + apply (names_NoDup m_owner); [apply (rel_owner _ _ Hrel)|apply memory_accessible_owners_NoDup].
    + intros r Hw. rewrite (names_members m_owner) by (apply (rel_owner _ _ Hrel)). rewrite memory_accessible_owners_spec.
      unfold wanted in Hw. rewrite !andb_true_iff in Hw. tauto.
    + intros r. rewrite (names_members m_owner) by (apply (rel_owner _ _ Hrel)). tauto.
    + by left.
  - apply read_names_wp; [by wp_here|wp_here; intros name key (r & Hr & _)%(rel_kind _ _ Hrel); by exists r|]. wp_run.
    rewrite Hend; [done|..].
    + apply (names_NoDup m_kind); [apply (rel_kind _ _ Hrel)|apply sort_by_kinds].
    + intros r Hw. rewrite (names_members m_kind) by (apply (rel_kind _ _ Hrel)).
      unfold wanted in Hw. fold kinds in Hw. rewrite !andb_true_iff, orb_true_iff, !bool_decide_eq_true in Hw. tauto.
    + intros r. rewrite (names_members m_kind) by (apply (rel_kind _ _ Hrel)). tauto.
    + intros r. rewrite (names_members m_kind) by (apply (rel_kind _ _ Hrel)). tauto.
Qed.
End Query.

(** ** The expiry sweep *)

Section Sweep.
  Context (now : Timestamp).

Definition live (m : gmap MemoryId MemoryRecord) := filter (fun p => is_live (m_expires_at p.2) now) m.

(** An entry of a record whose time has come. *)
Definition expired (m : gmap MemoryId MemoryRecord) (p : Timestamp * MemoryId) : Prop :=
  exists r, m !! p.2 = Some r /\ m_expires_at r = Some p.1 /\ p.1 <= now.

Lemma all_due_members m t p : related m t -> p ∈ all_due now t <-> expired m p.
Proof.
  intros Hrel. unfold all_due. rewrite merge_sort_Permutation, list_elem_of_filter, elem_of_elements.
  destruct p as [e k]. rewrite (rel_expiry _ _ Hrel). unfold expired. simpl. naive_solver.
Qed.

Lemma all_due_NoDup m t : related m t -> NoDup (map snd (all_due now t)).
Proof.
  intros Hrel. apply (NoDup_map_map id).
  - rewrite map_id. unfold all_due. rewrite merge_sort_Permutation. apply NoDup_filter, NoDup_elements.
  - intros [e k] [e' k'] Hx Hy E. simpl in E. subst. apply (all_due_members _ _ _ Hrel) in Hx as (r & Hr & He & _), Hy as (r' & Hr' & He' & _).
    simpl in *. rewrite Hr in Hr'. injection Hr' as <-. rewrite He in He'. by injection He' as ->.
Qed.

Lemma expired_dead m p r : expired m p -> m !! p.2 = Some r -> is_live (m_expires_at r) now = false.
Proof. intros (r' & Hr' & He & Hle) Hr. rewrite Hr in Hr'. injection Hr' as <-. unfold is_live. rewrite He. lia. Qed.

Lemma expired_there m due : Forall (expired m) due -> Forall (fun p => is_Some (m !! p.2)) due.
Proof. intros H. eapply Forall_impl; [exact H|]. simpl. intros p (r & Hr & _). by exists r. Qed.

Lemma memory_gone_live m due : Forall (expired m) due -> live (gone m due) = live m.
Proof.
  intros Hdue. apply map_eq. intros j. apply option_eq. intros r. unfold live. rewrite !map_lookup_filter_Some, gone_lookup.
  case_decide as Hj; [|done]. split; [by intros [? _]|]. intros [Hr Hlive]. apply list_elem_of_fmap in Hj as (p & -> & Hp).
  rewrite Forall_forall in Hdue. simpl in Hlive. rewrite (expired_dead _ _ _ (Hdue p Hp) Hr) in Hlive. done.
Qed.

Lemma memory_gone_all m t : related m t -> gone m (all_due now t) = live m.
Proof.
  intros Hrel. apply map_eq. intros j. apply option_eq. intros r. unfold live. rewrite map_lookup_filter_Some, gone_lookup. simpl.
  case_decide as Hj.
  - apply list_elem_of_fmap in Hj as (p & -> & Hp). apply (all_due_members _ _ _ Hrel) in Hp.
    split; [done|]. intros [Hr Hl]. rewrite (expired_dead _ _ _ Hp Hr) in Hl. done.
  - split; [|by intros [? _]]. intros Hr. split; [done|]. destruct (is_live (m_expires_at r) now) eqn:El; [done|]. destruct Hj.
    unfold is_live in El. destruct (m_expires_at r) as [e|] eqn:Ee; [|done]. apply list_elem_of_fmap. exists (e, j). split; [done|].
    apply (all_due_members _ _ _ Hrel). exists r. split_and!; [done|done|simpl; lia].
Qed.

Lemma readable_gone m (due : list (Timestamp * MemoryId)) : readable m -> readable (gone m due).
Proof. intros Hread k r. rewrite gone_lookup. case_decide; [done|]. apply Hread. Qed.

  Context (id_text : MemoryId -> string).

Lemma remove_expired_wp m p (s : Db MemoryTables) (Q : MemoryTables -> nat -> Result unit -> Prop) :
  readable m -> related m (tables s) -> expired m p ->
  (forall t, related (delete p.2 m) t -> Q t (drawn s) (Ok tt)) -> wp (remove_expired id_text p) s Q.
Proof.
  intros Hread Hrel (r & Hr & He & _) HQ. destruct p as [e k]. simpl in *. unfold remove_expired. wp_run.
  rewrite (rel_rows _ _ Hrel), Hr. simpl. wp_run. rewrite decode_row by (by apply (Hread k)). wp_run. apply HQ.
  pose proof (memory_related_delete _ _ _ _ Hrel Hr) as Hdel. unfold without in Hdel. by rewrite He in Hdel.
Qed.

Lemma remove_each_wp m due (s : Db MemoryTables) (Q : MemoryTables -> nat -> Result unit -> Prop) :
  readable m -> related m (tables s) -> NoDup (map snd due) -> Forall (expired m) due ->
  (forall t, related (gone m due) t -> Q t (drawn s) (Ok tt)) -> wp (for_each (remove_expired id_text) due) s Q.
Proof.
  revert m s Q. induction due as [|p due IH]; intros m s Q Hread Hrel Hnd Hdue HQ; simpl; [apply wp_ret; by apply HQ|].
  simpl in Hnd. apply NoDup_cons in Hnd as [Hp Hnd]. apply Forall_cons in Hdue as [Hp' Hdue].
  apply wp_bind, (remove_expired_wp m); [done..|]. intros t Ht. wp_state. apply (IH (delete p.2 m)).
  - by apply map_Forall_delete.
  - by wp_here.
  - done.
  - rewrite Forall_forall in *. intros q Hq. destruct (Hdue q Hq) as (r' & Hr' & ?). exists r'. rewrite lookup_delete_ne; [done|].
    intros E. apply Hp. rewrite E. by apply list_elem_of_fmap_2.
  - wp_here. exact HQ.
Qed.

Lemma memory_sweep_batch_wp m limit (s : Db MemoryTables) (Q : MemoryTables -> nat -> Result nat -> Prop) :
  readable m -> related m (tables s) -> let due := take (Nat.max 1 limit) (all_due now (tables s)) in
  (forall t, related (gone m due) t -> Q t (drawn s) (Ok (length due))) -> wp (sweep_batch_blocking id_text now limit) s Q.
Proof.
  intros Hread Hrel due HQ. unfold sweep_batch_blocking, collect_due, open_table. wp_run. fold due.
  apply (wp_for_each _ (fun _ t => t)); [intros x s' Q' HQ'; by wp_run|]. rewrite foldl_id. wp_run.
  assert (Hdue : Forall (expired m) due).
  { apply (Forall_sublist _ _ (all_due now (tables s))); [|apply sublist_take]. apply Forall_forall. intros p. by apply all_due_members. }
  assert (Hnd : NoDup (map snd due)).
  { eapply sublist_NoDup; [by apply (all_due_NoDup m)|]. apply (fmap_sublist snd), sublist_take. }
  destruct due as [|p rest] eqn:E; [wp_run; by apply HQ|]. wp_run.
  apply (remove_each_wp m); [done|by wp_here|done|done|]. wp_here. intros t Ht'. wp_run. by apply HQ.
Qed.

(** The batches add up to everything that has expired, whatever their size. *)
Lemma memory_sweep_loop_wp batch fuel m total (s : Db MemoryTables) (Q : MemoryTables -> nat -> Result (option nat) -> Prop) :
  (0 < batch)%nat -> readable m -> related m (tables s) -> (size m < fuel)%nat ->
  (forall t, related (live m) t -> Q t (drawn s) (Ok (Some (total + (size m - size (live m)))%nat))) ->
  wp (sweep_loop id_text batch fuel now total) s Q.
Proof.
  intros Hbatch. revert m total s. induction fuel as [|fuel IH]; intros m total s Hread Hrel Hfuel HQ; [lia|]. simpl.
  apply wp_bind, (memory_sweep_batch_wp m); [done..|]. replace (Nat.max 1 batch) with batch by lia. intros t Hrel'. wp_state.
  set (due := take batch (all_due now (tables s))) in *.
  assert (Hdue : Forall (expired m) due).
  { apply (Forall_sublist _ _ (all_due now (tables s))); [|apply sublist_take]. apply Forall_forall. intros p. by apply all_due_members. }
  assert (Hnd : NoDup (map snd due)).
  { eapply sublist_NoDup; [by apply (all_due_NoDup m)|]. apply (fmap_sublist snd), sublist_take. }
  pose proof (gone_size m due Hnd (expired_there _ _ Hdue)) as Hsize. pose proof (memory_gone_live m due Hdue) as Hlive.
  destruct (Nat.ltb_spec (length due) batch) as [Hlt|Hge].
  - wp_run. assert (Hall : gone m due = live m).
    { unfold due in *. rewrite length_take in Hlt. rewrite take_ge by lia. by apply memory_gone_all. }
    rewrite Hall in *. replace (total + length due)%nat with (total + (size m - size (live m)))%nat by lia. by apply HQ.
  - apply (IH (gone m due)); [by apply readable_gone|by wp_here|lia|]. wp_here. intros t' Ht'. rewrite Hlive in *.
    replace (total + length due + (size (gone m due) - size (live m)))%nat with (total + (size m - size (live m)))%nat; [by apply HQ|].
    assert (size (live (gone m due)) <= size (gone m due))%nat; [apply map_size_filter|]. rewrite Hlive in *. lia.
Qed.

Lemma memory_related_size m t : related m t -> size (RECORDS t) = size m.
Proof.
  intros Hrel. rewrite <- !size_dom. f_equal. apply set_eq. intros k. rewrite !elem_of_dom, (rel_rows _ _ Hrel). by rewrite fmap_is_Some.
Qed.
End Sweep.

(** ** The refinement *)

(** A model whose vectors are made of numbers. *)
Class FiniteEmbedder {W : Type} (E : Embedder W) : Prop :=
  embeds_numbers model texts cx w w' vectors :
    embed_texts model texts cx w = (w', Ok vectors) -> Forall (fun v => forallb F64.is_finite v = true) vectors.

Definition finite_request (request : MemoryRequest) : Prop :=
  match request with Memory_Put record => finite_embedding (m_embedding record) = true | _ => True end.

Ltac reading := repeat first [apply keeps_io | apply keeps_reads | keeps_step].

Lemma row_reads key : keeps unchanged (read_row key).
Proof. unfold read_row. reading. Qed.

Lemma get_safe id_text id p : safe (get_blocking id_text id p).
Proof. apply reads_safe. unfold get_blocking, open_table. repeat first [apply row_reads | apply keeps_io | keeps_step]. Qed.

Lemma names_reads id_text index get names : keeps unchanged (read_names id_text index get names).
Proof.
  assert (Hf : forall name keys, keeps unchanged (read_filed id_text index name keys)).
  { intros name keys. induction keys as [|k keys IH]; simpl; repeat first [done | apply row_reads | apply keeps_io | keeps_step]. }
  induction names as [|n names IH]; simpl; repeat first [done | apply Hf | apply keeps_io | apply keeps_reads | keeps_step].
Qed.

Lemma query_safe id_text query mode now p : safe (query_blocking id_text query mode now p).
Proof.
  apply reads_safe. unfold query_blocking, open_table. case_bool_decide; repeat first [apply names_reads | apply keeps_io | keeps_step].
Qed.

(** An operation against what it should come to. *)
Lemma op_runs {A} (op : M A) m m2 d d' r r2 :
  related m (tables d) -> safe op -> wp op d (fun t _ r => r = r2 /\ related m2 t) -> op d = (d', r) ->
  (r = r2 /\ related m2 (tables d')) \/ (exists e, r = Err e /\ ~ healthy d /\ related m (tables d')).
Proof.
  intros Hrel Hsafe Hwp H. unfold wp in Hwp. rewrite H in Hwp. destruct Hwp as (_ & _ & [Hq|[Hf Hh]]); [by left|].
  right. destruct r as [|e]; [done|]. exists e. split_and!; [done|done|]. by rewrite (Hsafe _ _ _ H).
Qed.

Section Refinement.
  Context {W : Type} {E : Embedder W} {FE : FiniteEmbedder E} (value_to_string : Value -> string) (id_text : MemoryId -> string).
  Context (semantic : option ModelId) (sweep_batch : nat).

Abbreviation serve_memory := (mem_serve value_to_string id_text semantic).
Abbreviation serve_redb := (redb_serve value_to_string id_text semantic sweep_batch).

(** The two stores hold the same records, and the same model answers both. *)
Definition linked (m : InMemoryMemoryStore W) (s : RedbMemoryStore W) : Prop :=
  readable (mem_records m) /\ related (mem_records m) (tables (redb_db s)) /\ mem_world m = redb_world s.

(** The same answer and linked stores; or a failure of the disk, and then an error over the records
    as they were, which only a sweep may have begun to change. *)
Definition outcome (request : MemoryRequest) (m m' : InMemoryMemoryStore W) (r' : Result MemoryAnswer)
    (s s' : RedbMemoryStore W) (r : Result (option MemoryAnswer)) : Prop :=
  (r = result_map Some r' /\ linked m' s') \/
  (exists e m'', r = Err e /\ ~ healthy (redb_db s) /\ linked m'' s' /\ (request <> Memory_Sweep -> mem_records m'' = mem_records m)).

Lemma embed_finite model text cx w w' vector : embed model text cx w = (w', Ok vector) -> forallb F64.is_finite vector = true.
Proof using FE.
  unfold embed. intros H. peel H Ev. apply embeds_numbers in Ev. destruct a as [|v [|]]; try done. injection H as <- <-.
  by apply Forall_cons in Ev as [? _].
Qed.

Lemma its_embedding_finite record cx w w' record' :
  finite_embedding (m_embedding record) = true -> with_its_embedding value_to_string semantic record cx w = (w', Ok record') ->
  finite_embedding (m_embedding record') = true.
Proof using FE.
  unfold with_its_embedding. intros Hf H. destruct semantic as [model|]; [|by injection H as <- <-].
  destruct (m_embedding record) eqn:Em; [injection H as <- <-; by rewrite Em|]. peel H Ee. injection H as <- <-. simpl. by eapply embed_finite.
Qed.

Lemma put_outcome record cx now m s :
  finite_embedding (m_embedding record) = true -> linked m s ->
  let (m', r') := serve_memory (Memory_Put record) cx now m in
  let (s', r) := serve_redb (Memory_Put record) cx now s in outcome (Memory_Put record) m m' r' s s' r.
Proof using FE.
  intros Hf (Hread & Hrel & Hw). unfold mem_serve, redb_serve, mem_put, with_world, on_world, on_db, bind, gets, lift, set_mem, modify, ret.
  rewrite <- Hw. destruct (with_its_embedding value_to_string semantic record cx (mem_world m)) as [w [record'|e]] eqn:Ew; simpl; [|left; by split_and!].
  apply its_embedding_finite in Ew; [|done].
  destruct (put_blocking id_text record' (principal_or_system cx) (redb_db s)) as [d rd] eqn:Ed.
  destruct (owner_for id_text (m_id record') (m_owner <$> mem_records m !! m_id record') (principal_or_system cx)) as [owner|e] eqn:Eo.
  - eapply (op_runs _ (mem_records m) (<[m_id record' := with_owner owner record']> (mem_records m)) _ _ _ (Ok tt)) in Ed;
      [|done|unfold put_blocking; simpl; apply transaction_safe|by apply (put_wp id_text _ Hread); [done|]; rewrite Eo; intros t Ht].
    destruct Ed as [[-> Hrel']|(e & -> & Hh & Hrel')]; [left|right].
    + split; [done|]. split_and!; [|done|done]. by apply map_Forall_insert_2.
    + exists e, (Build_InMemoryMemoryStore (mem_records m) w). by split_and!.
  - eapply (op_runs _ (mem_records m) (mem_records m) _ _ _ (Err e)) in Ed;
      [|done|unfold put_blocking; simpl; apply transaction_safe|by apply (put_wp id_text _ Hread); [done|]; rewrite Eo].
    destruct Ed as [[-> Hrel']|(e' & -> & Hh & Hrel')]; [left; by split_and!|right].
    exists e', (Build_InMemoryMemoryStore (mem_records m) w). by split_and!.
Qed.

Lemma get_outcome id cx now m s : linked m s ->
  let (m', r') := serve_memory (Memory_Get id) cx now m in
  let (s', r) := serve_redb (Memory_Get id) cx now s in outcome (Memory_Get id) m m' r' s s' r.
Proof using.
  intros (Hread & Hrel & Hw). unfold mem_serve, redb_serve, mem_get, on_db, bind, gets, lift, ret.
  destruct (get_blocking id_text id (principal_or_system cx) (redb_db s)) as [d rd] eqn:Ed.
  eapply (op_runs _ (mem_records m) (mem_records m) _ _ _ (match mem_records m !! id with
    | Some r => let? _ := authorize id_text id (m_owner r) (principal_or_system cx) in Ok (Some r)
    | None => Ok None end)) in Ed; [|done|apply get_safe|by apply (get_wp id_text _ Hread)].
  destruct Ed as [[-> Hrel']|(e & -> & Hh & Hrel')].
  - destruct (mem_records m !! id); [destruct (authorize _ _ _ _)|]; left; by split_and!.
  - destruct (mem_records m !! id); [destruct (authorize _ _ _ _)|]; right; exists e, m; by split_and!.
Qed.

Lemma delete_outcome id cx now m s : linked m s ->
  let (m', r') := serve_memory (Memory_Delete id) cx now m in
  let (s', r) := serve_redb (Memory_Delete id) cx now s in outcome (Memory_Delete id) m m' r' s s' r.
Proof using.
  intros (Hread & Hrel & Hw). unfold mem_serve, redb_serve, mem_delete, on_db, bind, gets, lift, ret, set_mem, modify.
  destruct (delete_blocking id_text id (principal_or_system cx) (redb_db s)) as [d rd] eqn:Ed.
  set (spec := match mem_records m !! id with
    | Some r => match authorize id_text id (m_owner r) (principal_or_system cx) with
                | Ok _ => (delete id (mem_records m), Ok true) | Err e => (mem_records m, Err e) end
    | None => (mem_records m, Ok false) end).
  eapply (op_runs _ (mem_records m) (spec.1) _ _ _ (spec.2)) in Ed; [|done|apply transaction_safe|].
  2: { apply (delete_wp id_text _ Hread); [done|]. unfold spec. destruct (mem_records m !! id); [destruct (authorize _ _ _ _)|]; simpl; by try intros t Ht. }
  unfold spec in Ed. clear spec. destruct Ed as [[-> Hrel']|(e & -> & Hh & Hrel')].
  - destruct (mem_records m !! id); [destruct (authorize _ _ _ _)|]; left; (split; [done|]); split_and!; try done.
    by apply map_Forall_delete.
  - destruct (mem_records m !! id); [destruct (authorize _ _ _ _)|]; right; exists e, m; by split_and!.
Qed.

Lemma query_outcome query cx now m s : linked m s ->
  let (m', r') := serve_memory (Memory_Query query) cx now m in
  let (s', r) := serve_redb (Memory_Query query) cx now s in outcome (Memory_Query query) m m' r' s s' r.
Proof using.
  intros (Hread & Hrel & Hw). unfold mem_serve, redb_serve, mem_query, with_world, on_world, on_db, bind, gets, ret. rewrite <- Hw.
  destruct (resolve_mode query semantic cx (mem_world m)) as [w [mode|e]]; simpl; [|left; by split_and!].
  destruct (query_blocking id_text query mode now (principal_or_system cx) (redb_db s)) as [d rd] eqn:Ed.
  eapply (op_runs _ (mem_records m) (mem_records m) _ _ _ (Ok _)) in Ed; [|done|apply query_safe|by apply (query_wp id_text _ Hread)].
  destruct Ed as [[-> Hrel']|(e & -> & Hh & Hrel')]; [left; by split_and!|right].
  exists e, (Build_InMemoryMemoryStore (mem_records m) w). by split_and!.
Qed.

(** A sweep that fails part-way has done some of the work, whole records at a time. *)
Lemma memory_sweep_partial fuel now total m d d' r :
  readable m -> related m (tables d) -> sweep_loop id_text sweep_batch fuel now total d = (d', r) ->
  exists m', readable m' /\ related m' (tables d').
Proof using.
  revert m total d. induction fuel as [|fuel IH]; intros m total d Hread Hrel; simpl; [intros [= <- _]; by exists m|].
  intros H. assert (Hbatch : forall d1 r1, sweep_batch_blocking id_text now sweep_batch d = (d1, r1) -> exists m', readable m' /\ related m' (tables d1)).
  { intros d1 r1 Eb. pose proof (memory_sweep_batch_wp now id_text m sweep_batch d (fun t _ r => related (gone m (take (Nat.max 1 sweep_batch) (all_due now (tables d)))) t) Hread Hrel) as Hb.
    specialize (Hb ltac:(by intros)). unfold wp in Hb. rewrite Eb in Hb. destruct Hb as (_ & _ & [Hr|[Hf _]]).
    - eexists. split; [|exact Hr]. by apply readable_gone.
    - exists m. destruct r1 as [|e]; [done|]. by rewrite (transaction_atomic _ _ _ _ _ _ Eb). }
  apply bind_inv in H as [(d1 & n & Eb & H)|(e & Eb & ->)]; destruct (Hbatch _ _ Eb) as (m1 & Hr1 & Hw1); [|by exists m1].
  destruct (n <? sweep_batch)%nat; [injection H as <- _; by exists m1|]. by eapply IH.
Qed.

Lemma memory_sweep_outcome cx now m s : (0 < sweep_batch)%nat -> linked m s ->
  let (m', r') := serve_memory Memory_Sweep cx now m in
  let (s', r) := serve_redb Memory_Sweep cx now s in outcome Memory_Sweep m m' r' s s' r.
Proof using.
  intros Hbatch (Hread & Hrel & Hw). unfold mem_serve, redb_serve, mem_sweep_expired, on_db, bind, gets, ret, set_mem, modify. simpl.
  destruct (redb_sweep_expired id_text sweep_batch now (redb_db s)) as [d rd] eqn:Ed.
  pose proof (memory_sweep_loop_wp now id_text sweep_batch (S (size (mem_records m))) (mem_records m) 0 (redb_db s)
    (fun t _ r => r = Ok (Some (size (mem_records m) - size (live now (mem_records m)))%nat) /\ related (live now (mem_records m)) t)
    Hbatch Hread Hrel ltac:(lia) ltac:(intros t Ht; by rewrite Nat.add_0_l)) as Hwp.
  unfold redb_sweep_expired in Ed. rewrite (memory_related_size _ _ Hrel) in Ed. unfold wp in Hwp. rewrite Ed in Hwp.
  destruct Hwp as (_ & _ & [[-> Hrel']|[Hf Hh]]).
  - left. unfold live in *. split; [simpl; do 3 f_equal; pose proof (map_size_filter (fun p => is_live (m_expires_at p.2) now) (mem_records m)); lia|].
    split_and!; [|done|done]. simpl. intros k r [Hr _]%map_lookup_filter_Some. by apply Hread.
  - destruct rd as [|e]; [done|]. right. destruct (memory_sweep_partial _ _ _ _ _ _ _ Hread Hrel Ed) as (m1 & Hr1 & Hw1).
    exists e, (Build_InMemoryMemoryStore m1 (mem_world m)). by split_and!.
Qed.

End Refinement.

Module Demo.
Import Memory.Demo.
#[local] Existing Instance constant_model.

#[local] Instance constant_finite : FiniteEmbedder constant_model.
Proof.
  intros model texts cx w w' vectors [= <- <-]. apply Forall_forall. intros v Hv. apply list_elem_of_In, in_map_iff in Hv as (t & <- & _). reflexivity.
Qed.

Definition an_empty_disk (disk : list (option RedbError)) : RedbMemoryStore nat := Build_RedbMemoryStore (Build_Db no_tables 0 disk) 0%nat.

(** A record stored by an address of its own, and one whose vector has a component too large for an [f32]. *)
Definition a_memory : MemoryRecord := remembered 1 "anyone" 10 [one32; zero32].
Definition an_overflow : MemoryRecord :=
  {| m_id := 2; m_owner := "anyone"; m_kind := "fact"; m_content := VNull; m_metadata := []; m_created_at := 20; m_expires_at := Some 30;
     m_embedding := Some [S754_infinity false] |}.

Abbreviation run_redb := (redb_serve (fun _ => EmptyString) fmt_u (Some "model"%string) 1).


Definition ask_all : MemoryQuery :=
  {| mq_kinds := []; mq_text := None; mq_embedding := None; mq_metadata := []; mq_limit := None; mq_min_score := None |}.

(** A vector that is not made of numbers is stored, and then cannot be read: the record can be neither
    fetched, replaced nor deleted, every recall of its owner's fails, and so does every sweep once
    it has expired - where the store in memory goes on. *)
Example unreadable_embedding_blocks_its_owner :
  let minos := as_user "minos" in
  let (s, stored) := run_redb (Memory_Put an_overflow) minos 20 (an_empty_disk []) in
  let (s, _) := run_redb (Memory_Put a_memory) minos 20 s in
  stored = Ok (Some Stored) /\
  snd (run_redb (Memory_Query ask_all) minos 25 s) = Err no_number /\
  snd (run_redb (Memory_Get 2) minos 25 s) = Err no_number /\
  snd (run_redb (Memory_Put an_overflow) minos 25 s) = Err no_number /\
  snd (run_redb (Memory_Delete 2) minos 25 s) = Err no_number /\
  snd (run_redb Memory_Sweep minos 40 s) = Err no_number.
Proof. vm_compute. split_and!; reflexivity. Qed.
End Demo.
