(* ===== verification/MemoryTools.v ===== *)
(** * MemoryTools: what an agent may do with a memory store

    [crates/memory/src/tools]: the four tools - put, get, query and delete - with what they claim
    before they run and what they do when they do.  They are written against the contract of a
    store, the class [MemoryStore] with its laws, which the store in memory and the store on
    disk both keep. *)

From Stdlib Require Import SpecFloat.
From S2P Require Import Prelude Base Trust Tools Text Store Serde Memory MemoryRedb.

(** ** The contract of a store ([api/src/memory.rs]) *)

(** A query is given what the store's clock says. *)
Class MemoryStore (S : Type) := {
  store_put : MemoryRecord -> ExecutionContext -> action S Error unit;
  store_get : MemoryId -> ExecutionContext -> action S Error (option MemoryRecord);
  store_delete : MemoryId -> ExecutionContext -> action S Error bool;
  store_query : MemoryQuery -> ExecutionContext -> Timestamp -> action S Error (list MemoryMatch);
  semantic_text : bool;
}.

(** What a record says, apart from whose it is and where it is in a space of meanings. *)
Definition same_words (a b : MemoryRecord) : Prop :=
  m_id a = m_id b /\ m_kind a = m_kind b /\ m_content a = m_content b /\ m_metadata a = m_metadata b /\
  m_created_at a = m_created_at b /\ m_expires_at a = m_expires_at b.

(** What the tools rely on: a store holds records by their identifiers; putting one replaces what
    was there and nothing else, deleting removes it, reading changes nothing and shows what is
    held, of the kinds and within the limit that were asked for. *)
Class MemoryStoreLaws (S : Type) `{MemoryStore S} := {
  holds : S -> gmap MemoryId MemoryRecord;
  store_ok : S -> Prop;
  put_holds record cx s s' r : store_ok s -> finite_embedding (m_embedding record) = true -> store_put record cx s = (s', r) ->
    store_ok s' /\
    match r with
    | Ok _ => exists stored, same_words stored record /\ holds s' = <[m_id record := stored]> (holds s)
    | Err _ => holds s' = holds s
    end;
  get_holds id cx s s' r : store_ok s -> store_get id cx s = (s', r) ->
    store_ok s' /\ holds s' = holds s /\ forall record, r = Ok (Some record) -> holds s !! id = Some record /\ m_id record = id;
  delete_holds id cx s s' r : store_ok s -> store_delete id cx s = (s', r) ->
    store_ok s' /\ holds s' = match r with Ok true => delete id (holds s) | _ => holds s end;
  query_holds query cx now s s' r : store_ok s -> store_query query cx now s = (s', r) ->
    store_ok s' /\ holds s' = holds s /\
    forall matches, r = Ok matches ->
      Forall (fun x => holds s !! m_id (match_record x) = Some (match_record x) /\
                       (mq_kinds query = [] \/ m_kind (match_record x) ∈ mq_kinds query)) matches /\
      (forall n, mq_limit query = Some n -> Z.of_nat (length matches) <= Z.max 0 n);
}.

(** ** Shared by the tools ([tools/mod.rs]) *)

Definition KIND_RESOURCE_PREFIX : string := "kind/".
Definition RECORD_RESOURCE_PREFIX : string := "record/".
Definition ANY_KIND_RESOURCE : string := "kind/*".
Definition MAX_KIND_LENGTH : Z := 128.

Definition parse_kind (raw : string) : Result MemoryKind :=
  if str_is_empty raw then Err (InvalidArgument "`kind` must not be empty")
  else if negb (String.eqb (trim raw) raw) then Err (InvalidArgument "`kind` must not begin or end with whitespace")
  else if MAX_KIND_LENGTH <? str_len raw
       then Err (InvalidArgument ("`kind` must be at most " +:+ fmt_u MAX_KIND_LENGTH +:+ " bytes, got " +:+ fmt_u (str_len raw)))
  else if existsb is_control (from_utf8_lossy raw) then Err (InvalidArgument "`kind` must not contain control characters")
  else Ok raw.

Definition kind_resource (kind : MemoryKind) : ResourceId := KIND_RESOURCE_PREFIX +:+ kind.
Definition record_resource (id_text : MemoryId -> string) (id : MemoryId) : ResourceId := RECORD_RESOURCE_PREFIX +:+ id_text id.

(** [json!] of an [f32], which is written as the double it is. *)
Fixpoint odd_part (m : positive) (e : Z) : Z * Z := match m with xO m => odd_part m (e + 1) | _ => (Z.pos m, e) end.
Definition value_of_f32 (x : f32) : Value :=
  match x with
  | S754_finite s m e => let (m, e) := odd_part m e in VNumber (NFloat (cond_Zopp s m) e)
  | S754_zero _ => VNumber (NFloat 0 0)
  | _ => VNull
  end.

Definition render_record (id_text : MemoryId -> string) (record : MemoryRecord) : Value :=
  json_object
    ([("id", VString (id_text (m_id record))); ("kind", VString (m_kind record)); ("content", m_content record);
      ("metadata", VObject (m_metadata record)); ("created_at", VNumber (NInt (m_created_at record)))]%string
     ++ match m_expires_at record with Some expires_at => [("expires_at"%string, VNumber (NInt expires_at))] | None => [] end).

Definition TRUST_METADATA_KEY : string := TRUST_ATTRIBUTE.

(** What a string attribute says of trust: [trusted], or else the worse. *)
Definition trust_said (v : option Value) : Trust :=
  match (v ← v; Value_as_str v) with
  | Some value => if String.eqb value (Trust_as_str Trusted) then Trusted else Untrusted
  | None => Untrusted
  end.

Definition stamp_trust (metadata : Map) (cx : ExecutionContext) : Map :=
  Map_insert TRUST_METADATA_KEY (VString (Trust_as_str (trust_said (Map_get TRUST_ATTRIBUTE (attributes cx))))) metadata.

Definition record_trust (record : MemoryRecord) : Trust := trust_said (Map_get TRUST_METADATA_KEY (m_metadata record)).

Definition ensure_live (cx : ExecutionContext) (now : Timestamp) : Result unit :=
  if cancellation cx then Err Cancelled
  else match deadline cx with Some deadline => if deadline <=? now then Err (Timeout 0) else Ok tt | None => Ok tt end.

(** ** Arguments *)

(** A number as an [f32], from an integer or from a double. *)
Definition as_f32_number (v : Value) : option f32 :=
  match v with
  | VNumber (NInt z) => Some (binary_normalize 24 128 z 0 false)
  | VNumber (NFloat m e) => Some (binary_normalize 24 128 m e false)
  | _ => None
  end.

Record PutInput := { put_kind : string; put_content : Value; put_metadata : Map; put_ttl : option Z; put_id : option MemoryId }.
Record QueryInput := {
  qi_kinds : list string; qi_metadata : Map; qi_limit : option Z; qi_text : option string; qi_min_score : option f32;
}.

Section Arguments.
  Context (parse_id : string -> option MemoryId).

Definition id_of (v : Value) : option MemoryId := s ← Value_as_str v; parse_id s.

Definition put_input (v : Value) : option PutInput :=
  fields ← struct_fields ["kind"; "content"; "metadata"; "ttl_seconds"; "id"] v;
  match fields with
  | [Some kind; Some content; metadata; ttl; id] =>
      kind ← Value_as_str kind;
      metadata ← defaulted as_object [] metadata;
      ttl ← optional as_u64 ttl;
      id ← optional id_of id;
      Some {| put_kind := kind; put_content := content; put_metadata := metadata; put_ttl := ttl; put_id := id |}
  | _ => None
  end.

Definition id_input (v : Value) : option MemoryId :=
  fields ← struct_fields ["id"] v;
  match fields with [Some id] => id_of id | _ => None end.

Definition query_input (v : Value) : option QueryInput :=
  fields ← struct_fields ["kinds"; "metadata"; "limit"; "text"; "min_score"] v;
  match fields with
  | [kinds; metadata; limit; text; min_score] =>
      kinds ← defaulted as_strings [] kinds;
      metadata ← defaulted as_object [] metadata;
      limit ← optional as_u64 limit;
      text ← optional Value_as_str text;
      min_score ← optional as_f32_number min_score;
      Some {| qi_kinds := kinds; qi_metadata := metadata; qi_limit := limit; qi_text := text; qi_min_score := min_score |}
  | _ => None
  end.
End Arguments.

(** ** The tools *)

Definition DEFAULT_PUT_NAME : string := "memory.put".
Definition DEFAULT_DELETE_NAME : string := "memory.delete".
Definition DEFAULT_GET_NAME : string := "memory.get".
Definition DEFAULT_QUERY_NAME : string := "memory.query".
Definition DEFAULT_MAX_RECORD_BYTES : Z := 16 * 1024.
Definition MAX_TTL_SECONDS : Z := 100 * 365 * 24 * 60 * 60.
Definition DEFAULT_RESULTS : Z := 10.
Definition MAX_QUERY_TEXT_LENGTH : Z := 1024.
Definition DEFAULT_MAX_RESULTS : Z := 50.

Definition from_secs (s : Z) : Duration := s * 1000000000.

(** What the tools share: the store, once it is bound, and the kernel's clock, which is read more
    than once; [drawn] counts the identifiers drawn. *)
Record ToolWorld (S : Type) := { bound : option S; clock : list Timestamp; drawn : nat }.
Arguments bound {S}.
Arguments clock {S}.
Arguments drawn {S}.
Arguments Build_ToolWorld {S}.

Definition not_bound : Error := Lifecycle "memory tools are not bound to a store; add `MemoryToolsComponent` to the kernel".
Definition already_bound : Error := Lifecycle "memory tools are already bound to a store".

Section Tools.
  Context {S : Type} `{MemoryStore S}.
  Context (id_text : MemoryId -> string) (parse_id : string -> option MemoryId) (fresh_id : nat -> MemoryId).
  Context (serde_refusal : Value -> string) (value_bytes : Value -> Z) (f32_text : f32 -> string).

Abbreviation M := (action (ToolWorld S) Error).

(** [MemoryToolBinding::bind] *)
Definition bind_store (store : S) : M unit := fun w =>
  match bound w with
  | Some _ => (w, Err already_bound)
  | None => (Build_ToolWorld (Some store) (clock w) (drawn w), Ok tt)
  end.

(** [binding.store()?], [binding.clock()?] and a call to the store. *)
Definition store_bound : M unit := fun w => match bound w with Some _ => (w, Ok tt) | None => (w, Err not_bound) end.

Definition read_clock : M Timestamp := fun w =>
  match bound w, clock w with
  | None, _ => (w, Err not_bound)
  | Some _, [] => (w, Ok 0)
  | Some _, now :: later => (Build_ToolWorld (bound w) (match later with [] => [now] | _ => later end) (drawn w), Ok now)
  end.

Definition on_store {A} (m : action S Error A) : M A := fun w =>
  match bound w with
  | None => (w, Err not_bound)
  | Some s => let (s', r) := m s in (Build_ToolWorld (Some s') (clock w) (drawn w), r)
  end.

(** [MemoryId::new] *)
Definition draw_id : M MemoryId := fun w => (Build_ToolWorld (bound w) (clock w) (Datatypes.S (drawn w)), Ok (fresh_id (drawn w))).

Definition arguments_error (name : ToolName) (arguments : Value) : Error :=
  InvalidArgument ("invalid arguments for `" +:+ name +:+ "`: " +:+ serde_refusal arguments).

Definition live : ExecutionContext -> M unit := fun cx => let! now := read_clock in lift (ensure_live cx now).

(** [MemoryPutTool] *)
Record MemoryPutTool := { put_name : ToolName; put_action : ActionId; max_record_bytes : Z }.

Definition put_parse (self : MemoryPutTool) (arguments : Value) : Result PutInput :=
  ok_or (put_input parse_id arguments) (arguments_error (put_name self) arguments).

Definition payload_bytes (input : PutInput) : Z := value_bytes (put_content input) + value_bytes (VObject (put_metadata input)).

Definition put_planned (self : MemoryPutTool) (arguments : Value) : Result (list ResourceClaim) :=
  let? input := put_parse self arguments in
  let? kind := parse_kind (put_kind input) in
  Ok [{| claim_action := put_action self; claim_resource := kind_resource kind |}].

Definition too_many_bytes (self : MemoryPutTool) (bytes : Z) : ToolOutcome :=
  ToolOutcome_error (json_object [("error"%string,
    VString ("memory is " +:+ fmt_u bytes +:+ " bytes; the limit is " +:+ fmt_u (max_record_bytes self) +:+ " — store a summary instead"))]).
Definition ttl_range : Error := InvalidArgument ("`ttl_seconds` must be between 1 and " +:+ fmt_u MAX_TTL_SECONDS).

Definition put_invoke (self : MemoryPutTool) (arguments : Value) (cx : ExecutionContext) : M ToolOutcome :=
  let! input := lift (put_parse self arguments) in
  let! kind := lift (parse_kind (put_kind input)) in
  store_bound ;!
  live cx ;!
  let input := {| put_kind := put_kind input; put_content := put_content input; put_metadata := stamp_trust (put_metadata input) cx;
                  put_ttl := put_ttl input; put_id := put_id input |} in
  let bytes := payload_bytes input in
  if max_record_bytes self <? bytes then ret (too_many_bytes self bytes)
  else if match put_ttl input with Some ttl => (ttl =? 0) || (MAX_TTL_SECONDS <? ttl) | None => false end then throw ttl_range
  else
    let! created_at := read_clock in
    let! drawn := draw_id in
    let id := default drawn (put_id input) in
    let expires_at := (fun ttl => Timestamp_saturating_add created_at (from_secs ttl)) <$> put_ttl input in
    let record := {| m_id := id; m_owner := Principal_SYSTEM; m_kind := kind; m_content := put_content input; m_metadata := put_metadata input;
                     m_created_at := created_at; m_expires_at := expires_at; m_embedding := None |} in
    on_store (store_put record cx) ;!
    ret (ToolOutcome_ok (json_object
      ([("id", VString (id_text id)); ("kind", VString kind); ("created_at", VNumber (NInt created_at))]%string
       ++ match expires_at with Some e => [("expires_at"%string, VNumber (NInt e))] | None => [] end))).

(** [MemoryDeleteTool] *)
Record MemoryDeleteTool := { delete_name : ToolName; delete_action : ActionId }.

Definition id_parse (name : ToolName) (arguments : Value) : Result MemoryId :=
  ok_or (id_input parse_id arguments) (arguments_error name arguments).

Definition delete_planned (self : MemoryDeleteTool) (arguments : Value) : Result (list ResourceClaim) :=
  let? id := id_parse (delete_name self) arguments in
  Ok [{| claim_action := delete_action self; claim_resource := record_resource id_text id |}].

Definition delete_invoke (self : MemoryDeleteTool) (arguments : Value) (cx : ExecutionContext) : M ToolOutcome :=
  let! id := lift (id_parse (delete_name self) arguments) in
  store_bound ;!
  live cx ;!
  let! deleted := on_store (store_delete id cx) in
  ret (ToolOutcome_ok (json_object [("id", VString (id_text id)); ("deleted", VBool deleted)]%string)).

(** [MemoryGetTool] *)
Record MemoryGetTool := { get_name : ToolName; get_action : ActionId }.

Definition get_planned (self : MemoryGetTool) (arguments : Value) : Result (list ResourceClaim) :=
  let? id := id_parse (get_name self) arguments in
  Ok [{| claim_action := get_action self; claim_resource := record_resource id_text id |}].

(** [ToolOutcome::with_trust] *)
Definition with_trust (trust : Trust) (outcome : ToolOutcome) : ToolOutcome :=
  {| output := output outcome; is_error := is_error outcome; outcome_trust := trust |}.

Definition get_invoke (self : MemoryGetTool) (arguments : Value) (cx : ExecutionContext) : M ToolOutcome :=
  let! id := lift (id_parse (get_name self) arguments) in
  store_bound ;!
  live cx ;!
  let! found := on_store (store_get id cx) in
  ret match found with
      | Some record => with_trust (record_trust record)
          (ToolOutcome_ok (json_object [("found", VBool true); ("record", render_record id_text record)]%string))
      | None => ToolOutcome_ok (json_object [("found"%string, VBool false)])
      end.

(** [MemoryQueryTool] *)
Record MemoryQueryTool := { query_name : ToolName; query_action : ActionId; default_results : Z; max_results : Z }.

Definition MemoryQueryTool_new : MemoryQueryTool :=
  {| query_name := DEFAULT_QUERY_NAME; query_action := DEFAULT_QUERY_NAME; default_results := DEFAULT_RESULTS; max_results := DEFAULT_MAX_RESULTS |}.
Definition with_max_results (max : Z) (self : MemoryQueryTool) : MemoryQueryTool :=
  {| query_name := query_name self; query_action := query_action self; default_results := Z.min (default_results self) max; max_results := max |}.
Definition with_default_results (default : Z) (self : MemoryQueryTool) : MemoryQueryTool :=
  {| query_name := query_name self; query_action := query_action self; default_results := Z.min default (max_results self);
     max_results := max_results self |}.

Definition query_parse (self : MemoryQueryTool) (arguments : Value) : Result QueryInput :=
  ok_or (query_input arguments) (arguments_error (query_name self) arguments).

(** A tool that is not bound offers no search by meaning. *)
Definition semantic_now (w : ToolWorld S) : bool := match bound w with Some _ => semantic_text | None => false end.

Definition empty_text : Error := InvalidArgument "`text` is empty; omit it to list by kind and metadata instead".
Definition long_text (text : string) : Error :=
  InvalidArgument ("`text` must be at most " +:+ fmt_u MAX_QUERY_TEXT_LENGTH +:+ " bytes, got " +:+ fmt_u (str_len text)).
Definition needs_text : Error :=
  InvalidArgument ("`min_score` filters similarity scores, so it needs a `text` to score " +:+ "against").
Definition score_range (minimum : f32) : Error :=
  InvalidArgument ("`min_score` is a cosine similarity and must be between -1 and 1; got " +:+ f32_text minimum).
Definition no_semantic (self : MemoryQueryTool) : Error :=
  InvalidArgument ("`" +:+ query_name self +:+ "` has no `text` or `min_score` argument: the memory store it is bound to "
                   +:+ "has no embedding model, so it cannot search by meaning").

(** 1 and -1, in single precision. *)
Definition f32_one : f32 := S754_finite false 8388608 (-23).

Definition check_text (text : option string) : Result unit :=
  match text with
  | Some text =>
      if str_is_empty (trim text) then Err empty_text
      else if MAX_QUERY_TEXT_LENGTH <? str_len text then Err (long_text text) else Ok tt
  | None => Ok tt
  end.

Definition check_score (input : QueryInput) : Result unit :=
  match qi_min_score input, qi_text input with
  | Some _, None => Err needs_text
  | Some minimum, Some _ => if SFleb (SFopp f32_one) minimum && SFleb minimum f32_one then Ok tt else Err (score_range minimum)
  | None, _ => Ok tt
  end.

Definition is_given {A} (o : option A) : bool := match o with Some _ => true | None => false end.

Definition check_semantic (self : MemoryQueryTool) (semantic : bool) (input : QueryInput) : Result unit :=
  let? _ := check_text (qi_text input) in
  let? _ := check_score input in
  if (is_given (qi_text input) || is_given (qi_min_score input)) && negb semantic then Err (no_semantic self) else Ok tt.

(** [collect::<Result<Vec<_>>>()]: the first failure. *)
Fixpoint collect {A B} (f : A -> Result B) (l : list A) : Result (list B) :=
  match l with
  | [] => Ok []
  | x :: l => let? y := f x in let? ys := collect f l in Ok (y :: ys)
  end.

Definition query_kinds (input : QueryInput) : Result (list MemoryKind) :=
  let? kinds := collect parse_kind (qi_kinds input) in Ok (dedup (sort_by String.compare kinds)).

Definition query_limit (self : MemoryQueryTool) (requested : option Z) : Result Z :=
  match requested with
  | Some limit => if limit =? 0 then Err (InvalidArgument "`limit` must be at least 1") else Ok (Z.min limit (max_results self))
  | None => Ok (Z.min (default_results self) (max_results self))
  end.

Definition query_planned (self : MemoryQueryTool) (arguments : Value) : Result (list ResourceClaim) :=
  let? input := query_parse self arguments in
  let? kinds := query_kinds input in
  Ok match kinds with
     | [] => [{| claim_action := query_action self; claim_resource := ANY_KIND_RESOURCE |}]
     | _ => map (fun kind => {| claim_action := query_action self; claim_resource := kind_resource kind |}) kinds
     end.

Definition query_output (limit : Z) (matches : list MemoryMatch) : Value :=
  json_object
    ([("count", VNumber (NInt (Z.of_nat (length matches)))); ("limit", VNumber (NInt limit));
      ("records", VArray (map (fun x => render_record id_text (match_record x)) matches))]%string
     ++ match mapM match_score matches with
        | Some scores => [("scores"%string, VArray (map value_of_f32 scores))]
        | None => []
        end).

Definition query_trust (matches : list MemoryMatch) : Trust :=
  foldl (fun trust x => min_with trust (record_trust (match_record x))) Trusted matches.

Definition query_invoke (self : MemoryQueryTool) (arguments : Value) (cx : ExecutionContext) : M ToolOutcome :=
  let! input := lift (query_parse self arguments) in
  let! semantic := gets semantic_now in
  lift (check_semantic self semantic input) ;!
  let! kinds := lift (query_kinds input) in
  let! limit := lift (query_limit self (qi_limit input)) in
  store_bound ;!
  live cx ;!
  let query := {| mq_kinds := kinds; mq_text := qi_text input; mq_embedding := None; mq_metadata := qi_metadata input;
                  mq_limit := Some limit; mq_min_score := qi_min_score input |} in
  let! now := read_clock in
  let! matches := on_store (store_query query cx now) in
  ret (with_trust (query_trust matches) (ToolOutcome_ok (query_output limit matches))).
End Tools.

(** ** Specifications *)

Local Notation "k =: v" := (k%string, v) (at level 60, only parsing).

Definition record_schema : Value :=
  closed_object (json_object ["id" =: jtype "string"; "kind" =: jtype "string"; "content" =: VObject []; "metadata" =: jtype "object";
                              "created_at" =: jtype "integer"; "expires_at" =: jtype "integer"])
    [jrequired ["id"; "kind"; "content"; "metadata"; "created_at"]].

Definition put_spec (self : MemoryPutTool) : ToolSpec :=
  {| spec_name := put_name self;
     spec_description :=
       "Remembers something for later, outside the current conversation: a " +:+
       "fact, a preference, a summary worth keeping. `kind` classifies the " +:+
       "memory and is what a later search filters on. The memory belongs to " +:+
       "whoever this call is running as; that is decided by the system and " +:+
       "cannot be set here. Pass `id` to replace one of your own existing " +:+ "memories.";
     spec_input_schema := closed_object (json_object
       ["kind" =: json_object ["type" =: VString "string"; "description" =: VString "Classifier, e.g. `fact`, `preference`, `summary`.";
                                "maxLength" =: jint MAX_KIND_LENGTH];
        "content" =: json_object ["description" =: VString "The memory itself. Any JSON value."];
        "metadata" =: json_object ["type" =: VString "object";
          "description" =: VString ("Filterable annotations, e.g. subject or source. " +:+ "Matched exactly by a later search.")];
        "ttl_seconds" =: json_object ["type" =: VString "integer"; "minimum" =: jint 1; "maximum" =: jint MAX_TTL_SECONDS;
          "description" =: VString ("Forget this memory after that many seconds. Omit to " +:+ "keep it indefinitely.")];
        "id" =: jstring ("Id of an existing memory of yours to replace. Omit to " +:+ "record a new one.")])
       [jrequired ["kind"; "content"]];
     spec_output_schema := Some (closed_object (json_object
       ["id" =: jtype "string"; "kind" =: jtype "string"; "created_at" =: jtype "integer"; "expires_at" =: jtype "integer";
        "error" =: jtype "string"]) []);
     spec_required_permissions := [put_action self]; spec_read_only := false; spec_output_trust := Trusted; spec_reach := Mutating |}.

Definition delete_spec (self : MemoryDeleteTool) : ToolSpec :=
  {| spec_name := delete_name self;
     spec_description :=
       "Forgets one of your stored memories, by id. Reports whether there " +:+
       "was one to forget. Memories belonging to anyone else cannot be " +:+ "deleted.";
     spec_input_schema := closed_object (json_object ["id" =: jstring "Id of the memory to forget."]) [jrequired ["id"]];
     spec_output_schema := Some (closed_object (json_object ["id" =: jtype "string"; "deleted" =: jtype "boolean"]) [jrequired ["id"; "deleted"]]);
     spec_required_permissions := [delete_action self]; spec_read_only := false; spec_output_trust := Trusted; spec_reach := Mutating |}.

Definition get_spec (self : MemoryGetTool) : ToolSpec :=
  {| spec_name := get_name self;
     spec_description :=
       "Fetches one of your stored memories by id, as returned when it was " +:+
       "stored or found. Reports `found: false` if there is no such memory.";
     spec_input_schema := closed_object (json_object ["id" =: jstring "Id of the memory to fetch."]) [jrequired ["id"]];
     spec_output_schema := Some (closed_object (json_object ["found" =: jtype "boolean"; "record" =: record_schema]) [jrequired ["found"]]);
     spec_required_permissions := [get_action self]; spec_read_only := true; spec_output_trust := Untrusted; spec_reach := Contained |}.

Definition query_description (semantic : bool) : string :=
  if semantic then
    "Searches your stored memories. Give `text` to find the memories that mean the " +:+
    "most similar thing, best match first; omit it to list the most recent instead. " +:+
    "Filter either kind of search by `kinds` and by exact `metadata` values. Only " +:+ "your own memories are searched."
  else
    "Searches your stored memories, most recent first. Filter by `kinds` and by " +:+
    "exact `metadata` values; omit both to see the most recent of everything you " +:+
    "remember. Only your own memories are searched. Matching is exact, not semantic.".

Definition query_spec (semantic : bool) (self : MemoryQueryTool) : ToolSpec :=
  {| spec_name := query_name self;
     spec_description := query_description semantic;
     spec_input_schema := closed_object (json_object
       (["kinds" =: json_object ["type" =: VString "array";
           "items" =: json_object ["type" =: VString "string"; "maxLength" =: jint MAX_KIND_LENGTH];
           "description" =: VString "Kinds to restrict the search to. Omit for all kinds."];
         "metadata" =: json_object ["type" =: VString "object"; "description" =: VString "Metadata keys that must be present and exactly equal."];
         "limit" =: json_object ["type" =: VString "integer"; "minimum" =: jint 1; "maximum" =: jint (max_results self);
           "description" =: VString "Maximum records to return."]] ++
        (if semantic then
           ["text" =: json_object ["type" =: VString "string"; "maxLength" =: jint MAX_QUERY_TEXT_LENGTH;
              "description" =: VString ("What to search for. Results are ordered by how close " +:+ "their meaning is to this.")];
            "min_score" =: json_object ["type" =: VString "number"; "minimum" =: jint (-1); "maximum" =: jint 1;
              "description" =: VString ("Drop results less similar than this. Needs `text`. " +:+ "1 is identical, 0 is unrelated.")]]
         else []))) [];
     spec_output_schema := Some (closed_object (json_object
       ["count" =: jtype "integer"; "limit" =: jtype "integer";
        "records" =: json_object ["type" =: VString "array"; "items" =: record_schema];
        "scores" =: json_object ["type" =: VString "array"; "items" =: jtype "number";
          "description" =: VString ("Similarity of each record, in the same order. " +:+ "Present only for a `text` search.")]])
       [jrequired ["count"; "limit"; "records"]]);
     spec_required_permissions := [query_action self]; spec_read_only := true; spec_output_trust := Untrusted; spec_reach := Contained |}.

(** ** The two stores keep the contract *)

Section Instances.
  Context {W : Type} {E : Embedder W} {FE : FiniteEmbedder E} (value_to_string : Value -> string) (id_text : MemoryId -> string).
  Context (semantic : option ModelId).

#[export] Instance memory_store : MemoryStore (InMemoryMemoryStore W) := {|
  store_put := mem_put value_to_string id_text semantic;
  store_get := mem_get id_text;
  store_delete := mem_delete id_text;
  store_query := mem_query semantic;
  semantic_text := is_given semantic |}.

#[export] Instance redb_store : MemoryStore (RedbMemoryStore W) := {|
  store_put record cx := let! record := on_world (with_its_embedding value_to_string semantic record cx) in
                         on_db (put_blocking id_text record (principal_or_system cx));
  store_get id cx := on_db (get_blocking id_text id (principal_or_system cx));
  store_delete id cx := on_db (delete_blocking id_text id (principal_or_system cx));
  store_query query cx now := let! mode := on_world (resolve_mode query semantic cx) in
                              on_db (query_blocking id_text query mode now (principal_or_system cx));
  semantic_text := is_given semantic |}.

Lemma embedded_words vector record owner :
  same_words (with_owner owner (match vector with Some e => with_embedding e record | None => record end)) record.
Proof. by destruct vector. Qed.

#[export] Program Instance memory_store_laws : MemoryStoreLaws (InMemoryMemoryStore W) :=
  {| holds s := mem_records s; store_ok s := mem_well_formed (mem_records s) |}.
Next Obligation.
  intros record cx s s' r Hok _ H. pose proof (serve_changes value_to_string id_text semantic {| visit_request := Memory_Put record; visit_cx := cx; visit_at := 0 |} s s'
    (match r with Ok _ => Ok Stored | Err e => Err e end)) as Hc. simpl in Hc, H. unfold bind at 1 in Hc. rewrite H in Hc. specialize (Hc ltac:(by destruct r as [[]|])).
  split; [by eapply changed_well_formed|]. unfold changed in Hc. simpl in Hc. destruct r as [[]|e]; [|done].
  destruct Hc as (vector & owner & _ & Hm). eexists. split; [|exact Hm]. apply embedded_words.
Qed.
Next Obligation.
  intros id cx s s' r Hok H. simpl in H. unfold mem_get, bind, gets, lift, ret in H. destruct (mem_records s !! id) as [record|] eqn:Er.
  - destruct (authorize _ _ _ _); injection H as <- <-; (split_and!; [done|done|]); intros record' [= <-]. split; [done|]. by apply Hok.
  - injection H as <- <-. by split_and!.
Qed.
Next Obligation.
  intros id cx s s' r Hok H. simpl in H. unfold mem_delete, bind, gets, lift, ret, set_mem, modify in H. destruct (mem_records s !! id) as [record|] eqn:Er.
  - destruct (authorize _ _ _ _); injection H as <- <-; simpl; [|by split]. split; [|done]. by apply map_Forall_delete.
  - injection H as <- <-. by split.
Qed.
Next Obligation.
  intros query cx now s s' r Hok (Hs & resolved & _ & ->)%query_run. split_and!; [by rewrite Hs|done|].
  destruct resolved as [mode|e]; [|done]. intros matches [= <-]. split.
  - apply Forall_forall. intros x Hx. apply candidate_matches in Hx as (? & _ & _ & ? & _); [|done]. by split.
  - by apply (truncated (mq_limit query) _ (ranked_sorted mode _ (candidates_NoDup query (principal_or_system cx) now _ Hok))).
Qed.

(** The records on disk. *)
Definition redb_holds (s : RedbMemoryStore W) : gmap MemoryId MemoryRecord :=
  map_imap (fun id row => Some (into_record row id)) (RECORDS (tables (redb_db s))).
Definition redb_ok (s : RedbMemoryStore W) : Prop := exists m, readable m /\ related m (tables (redb_db s)).

Lemma redb_holds_related m (s : RedbMemoryStore W) : readable m -> related m (tables (redb_db s)) -> redb_holds s = m.
Proof.
  intros Hread Hrel. apply map_eq. intros id. unfold redb_holds. rewrite map_lookup_imap, (rel_rows _ _ Hrel).
  destruct (m !! id) as [r|] eqn:Em; simpl; [|done]. destruct (Hread id r Em) as [<- _]. by rewrite into_row.
Qed.

(** A call that comes to [m2] and [r2], or fails and leaves things as they were. *)
Lemma redb_call {A} (op : M A) m m2 (s : RedbMemoryStore W) s' r r2 :
  readable m -> related m (tables (redb_db s)) -> readable m2 -> safe op -> wp op (redb_db s) (fun t _ r => r = r2 /\ related m2 t) ->
  on_db op s = (s', r) -> redb_ok s' /\ ((r = r2 /\ redb_holds s' = m2) \/ (is_ok r = false /\ redb_holds s' = m)).
Proof.
  intros Hread Hrel Hread2 Hsafe Hwp H. unfold on_db in H. destruct (op (redb_db s)) as [d rd] eqn:Ed. injection H as <- <-.
  destruct (op_runs op m m2 _ _ _ _ Hrel Hsafe Hwp Ed) as [[-> Hrel']|(e & -> & _ & Hrel')].
  - split; [by exists m2|]. left. split; [done|]. by apply redb_holds_related.
  - split; [by exists m|]. right. split; [done|]. by apply redb_holds_related.
Qed.

#[export] Program Instance redb_store_laws : MemoryStoreLaws (RedbMemoryStore W) :=
  {| holds s := redb_holds s; store_ok s := redb_ok s |}.
Next Obligation.
  intros record cx s s' r (m & Hread & Hrel) Hf H. rewrite (redb_holds_related m s Hread Hrel). simpl in H. unfold bind, on_world in H.
  destruct (with_its_embedding value_to_string semantic record cx (redb_world s)) as [w [record'|e]] eqn:Ew.
  - pose proof (its_embedding_finite _ _ _ _ _ _ _ Hf Ew) as Hf'. apply with_its_embedding_inv in Ew as [vector ->].
    set (record' := match vector with Some e => with_embedding e record | None => record end) in *.
    assert (Hid : m_id record' = m_id record) by apply embedded_id.
    destruct (owner_for id_text (m_id record') (m_owner <$> m !! m_id record') (principal_or_system cx)) as [owner|e] eqn:Eo.
    + eapply (redb_call _ m (<[m_id record' := with_owner owner record']> m) _ _ _ (Ok tt)) in H;
        [|done|done|by apply map_Forall_insert_2|unfold put_blocking; simpl; apply transaction_safe|by apply (put_wp id_text _ Hread); [done|]; rewrite Eo; intros t Ht].
      destruct H as [Hok [[-> ->]|[Hr ->]]]; (split; [done|]); [|by destruct r]. exists (with_owner owner record'). rewrite Hid. split; [apply embedded_words|done].
    + eapply (redb_call _ m m _ _ _ (Err e)) in H;
        [|done|done|done|unfold put_blocking; simpl; apply transaction_safe|by apply (put_wp id_text _ Hread); [done|]; rewrite Eo].
      destruct H as [Hok [[-> ->]|[Hr ->]]]; (split; [done|]); [done|by destruct r].
  - injection H as <- <-. split; [by exists m|]. by apply redb_holds_related.
Qed.
Next Obligation.
  intros id cx s s' r (m & Hread & Hrel) H. rewrite (redb_holds_related m s Hread Hrel). simpl in H.
  eapply (redb_call _ m m) in H; [|done|done|done|apply get_safe|apply (get_wp id_text _ Hread); [done|split; [reflexivity|done]]].
  destruct H as [Hok [[-> ->]|[Hr ->]]]; (split_and!; [done|done|]); [|by intros record ->].
  intros record Hr. destruct (m !! id) as [r|] eqn:Em; [|done]. destruct (authorize _ _ _ _); [|done]. injection Hr as <-.
  split; [done|]. by apply Hread.
Qed.
Next Obligation.
  intros id cx s s' r (m & Hread & Hrel) H. rewrite (redb_holds_related m s Hread Hrel). simpl in H.
  set (spec := match m !! id with
    | Some r => match authorize id_text id (m_owner r) (principal_or_system cx) with Ok _ => (delete id m, Ok true) | Err e => (m, Err e) end
    | None => (m, Ok false) end).
  eapply (redb_call _ m (spec.1) _ _ _ (spec.2)) in H; [|done|done| |apply transaction_safe|].
  - destruct H as [Hok [[-> ->]|[Hr ->]]]; (split; [done|]); [|by destruct r]. unfold spec. destruct (m !! id); [destruct (authorize _ _ _ _)|]; done.
  - unfold spec. destruct (m !! id); [destruct (authorize _ _ _ _)|]; try done. by apply map_Forall_delete.
  - apply (delete_wp id_text _ Hread); [done|]. unfold spec. destruct (m !! id); [destruct (authorize _ _ _ _)|]; simpl; by try intros t Ht.
Qed.
Next Obligation.
  intros query cx now s s' r (m & Hread & Hrel) H. rewrite (redb_holds_related m s Hread Hrel). simpl in H. unfold bind, on_world in H.
  destruct (resolve_mode query semantic cx (redb_world s)) as [w [mode|e]].
  - eapply (redb_call _ m m) in H; [|done|done|done|apply query_safe|apply (query_wp id_text _ Hread); [done|split; [reflexivity|done]]].
    destruct H as [Hok [[-> ->]|[Hr ->]]]; (split_and!; [done|done|]); [|by intros matches ->]. intros matches [= <-].
    assert (Hwf : mem_well_formed m) by (intros k x Hx; by apply Hread). rewrite rank_for_truncates. split.
    + apply Forall_forall. intros x Hx. apply candidate_matches in Hx as (? & _ & _ & ? & _); [|done]. by split.
    + by apply (truncated (mq_limit query) _ (ranked_sorted mode _ (candidates_NoDup query (principal_or_system cx) now _ Hwf))).
  - injection H as <- <-. split_and!; [by exists m|by apply redb_holds_related|done].
Qed.
End Instances.

(** ** What a use of a tool comes to *)

Section Uses.
  Context {S : Type} {MS : MemoryStore S} {ML : MemoryStoreLaws S}.
  Context (id_text : MemoryId -> string) (parse_id : string -> option MemoryId) (fresh_id : nat -> MemoryId).
  Context (serde_refusal : Value -> string) (value_bytes : Value -> Z) (f32_text : f32 -> string).

Abbreviation do_put := (put_invoke id_text parse_id fresh_id serde_refusal value_bytes).
Abbreviation do_delete := (delete_invoke id_text parse_id serde_refusal).
Abbreviation do_get := (get_invoke id_text parse_id serde_refusal).
Abbreviation do_query := (query_invoke id_text serde_refusal f32_text).

(** The store the tools are bound to, in good order. *)
Definition over (w : ToolWorld S) (m : gmap MemoryId MemoryRecord) : Prop :=
  exists s, bound w = Some s /\ store_ok s /\ holds s = m.

Lemma clock_over w w' now m : over w m -> read_clock w = (w', now) -> over w' m.
Proof. intros (s & Hs & Hok & Hm). unfold read_clock. rewrite Hs. destruct (clock w); intros [= <- _]; by exists s. Qed.

Lemma live_over cx w w' r m : over w m -> live cx w = (w', r) -> over w' m.
Proof.
  intros Hw. unfold live, bind, lift. destruct (read_clock w) as [w1 [now|e]] eqn:E; intros [= <- _]; by eapply clock_over.
Qed.

Lemma bound_over w w' r m : over w m -> store_bound w = (w', r) -> w' = w /\ r = Ok tt.
Proof. intros (s & Hs & _). unfold store_bound. rewrite Hs. by intros [= <- <-]. Qed.

(** What a successful put has done: one record written, no bigger than is allowed, with the words it was
    given under the kind it was given, marked with the trust of the conversation. *)
Definition has_put (self : MemoryPutTool) (arguments : Value) (cx : ExecutionContext) (m m' : gmap MemoryId MemoryRecord) : Prop :=
  exists input stored,
    put_parse parse_id serde_refusal self arguments = Ok input /\ parse_kind (put_kind input) = Ok (m_kind stored) /\
    m_content stored = put_content input /\ m_metadata stored = stamp_trust (put_metadata input) cx /\
    value_bytes (m_content stored) + value_bytes (VObject (m_metadata stored)) <= max_record_bytes self /\
    m' = <[m_id stored := stored]> m.

Lemma put_use self arguments cx w w' r m :
  over w m -> do_put self arguments cx w = (w', r) ->
  exists m', over w' m' /\ (m' = m \/ has_put self arguments cx m m') /\
    forall out, r = Ok out -> is_error out = false -> has_put self arguments cx m m'.
Proof.
  intros Hw. unfold put_invoke. unfold bind at 1, lift at 1. destruct (put_parse _ _ self arguments) as [input|e] eqn:Ei; [|intros [= <- <-]; exists m; split_and!; auto; done].
  unfold bind at 1, lift at 1. destruct (parse_kind (put_kind input)) as [kind|e] eqn:Ek; [|intros [= <- <-]; exists m; split_and!; auto; done].
  intros [(w1 & [] & E1 & H)|(e & E1 & ->)]%bind_inv; apply (bound_over _ _ _ _ Hw) in E1 as [-> E1]; [clear E1|done].
  apply bind_inv in H as [(w2 & [] & E2 & H)|(e & E2 & ->)]; apply (live_over _ _ _ _ _ Hw) in E2; [|exists m; split_and!; auto; done].
  cbn [put_kind put_content put_metadata put_ttl put_id] in H.
  destruct (Z.ltb_spec (max_record_bytes self) (payload_bytes value_bytes {| put_kind := put_kind input; put_content := put_content input;
    put_metadata := stamp_trust (put_metadata input) cx; put_ttl := put_ttl input; put_id := put_id input |})) as [|Hb].
  { injection H as <- <-. exists m. split_and!; auto. by intros out [= <-]. }
  destruct (match put_ttl input with Some ttl => _ | None => _ end); [injection H as <- <-; exists m; split_and!; auto; done|].
  apply bind_inv in H as [(w3 & now & E3 & H)|(e & E3 & ->)]; apply (clock_over _ _ _ _ E2) in E3; [|exists m; split_and!; auto; done].
  unfold bind at 1, draw_id in H. simpl in H. destruct E3 as (s & Hs & Hok & Hm).
  apply bind_inv in H as [(w4 & [] & E4 & H)|(e & E4 & ->)].
  - unfold on_store in E4. simpl in E4. rewrite Hs in E4.
    match goal with E : (let (_, _) := store_put ?rec ?c ?st in _) = _ |- _ => destruct (store_put rec c st) as [s' r'] eqn:Ep; injection E as <- -> end.
    apply put_holds in Ep as (Hok' & stored & Hsame & Hh); [|done|done]. injection H as <- <-. rewrite Hm in Hh.
    assert (Hput : has_put self arguments cx m (holds s')).
    { destruct Hsame as (Hid & Hkind & Hcontent & Hmeta & _). simpl in *. exists input, stored.
      rewrite Hkind, Hcontent, Hmeta, Hid. split_and!; done. }
    exists (holds s'). split; [by exists s'|]. split; [by right|done].
  - unfold on_store in E4. simpl in E4. rewrite Hs in E4.
    match goal with E : (let (_, _) := store_put ?rec ?c ?st in _) = _ |- _ => destruct (store_put rec c st) as [s' r'] eqn:Ep; injection E as <- -> end.
    apply put_holds in Ep as (Hok' & Hh); [|done|done]. exists m. split; [exists s'; split_and!; simpl; congruence|]. split; [by left|done].
Qed.

Lemma delete_use self arguments cx w w' r m :
  over w m -> do_delete self arguments cx w = (w', r) ->
  exists m', over w' m' /\ (m' = m \/ exists id, id_parse parse_id serde_refusal (delete_name self) arguments = Ok id /\ m' = delete id m).
Proof.
  intros Hw. unfold delete_invoke. unfold bind at 1, lift at 1. destruct (id_parse _ _ _ arguments) as [id|e] eqn:Ei; [|intros [= <- <-]; exists m; auto].
  intros [(w1 & [] & E1 & H)|(e & E1 & ->)]%bind_inv; apply (bound_over _ _ _ _ Hw) in E1 as [-> E1]; [clear E1|done].
  apply bind_inv in H as [(w2 & [] & E2 & H)|(e & E2 & ->)]; apply (live_over _ _ _ _ _ Hw) in E2; [|exists m; auto].
  destruct E2 as (s & Hs & Hok & Hm). unfold bind, on_store in H. rewrite Hs in H. destruct (store_delete id cx s) as [s' rd] eqn:Ed.
  apply delete_holds in Ed as [Hok' Hh]; [|done]. rewrite Hm in Hh. destruct rd as [[]|e]; injection H as <- <-; exists (holds s'); (split; [by exists s'|]); auto.
  right. by exists id.
Qed.

Lemma get_use self arguments cx w w' r m :
  over w m -> do_get self arguments cx w = (w', r) ->
  over w' m /\ forall out, r = Ok out -> exists id, id_parse parse_id serde_refusal (get_name self) arguments = Ok id /\
    (out = ToolOutcome_ok (json_object [("found"%string, VBool false)]) \/
     exists record, m !! id = Some record /\ m_id record = id /\
       out = with_trust (record_trust record) (ToolOutcome_ok (json_object [("found", VBool true); ("record", render_record id_text record)]%string))).
Proof.
  intros Hw. unfold get_invoke. unfold bind at 1, lift at 1. destruct (id_parse _ _ _ arguments) as [id|e] eqn:Ei; [|by intros [= <- <-]].
  intros [(w1 & [] & E1 & H)|(e & E1 & ->)]%bind_inv; apply (bound_over _ _ _ _ Hw) in E1 as [-> E1]; [clear E1|done].
  apply bind_inv in H as [(w2 & [] & E2 & H)|(e & E2 & ->)]; apply (live_over _ _ _ _ _ Hw) in E2; [|done].
  destruct E2 as (s & Hs & Hok & Hm). unfold bind, on_store in H. rewrite Hs in H. destruct (store_get id cx s) as [s' rd] eqn:Ed.
  apply get_holds in Ed as (Hok' & Hh & Hr); [|done]. rewrite Hm in *. destruct rd as [found|e]; injection H as <- <-; (split; [by exists s'|]); [|done].
  intros out [= <-]. exists id. split; [done|]. destruct found as [record|]; [right|by left]. destruct (Hr record eq_refl). by exists record.
Qed.

Lemma query_use self arguments cx w w' r m :
  over w m -> do_query self arguments cx w = (w', r) ->
  over w' m /\ forall out, r = Ok out -> exists input kinds limit matches,
    query_parse serde_refusal self arguments = Ok input /\ query_kinds input = Ok kinds /\ query_limit self (qi_limit input) = Ok limit /\
    Forall (fun x => m !! m_id (match_record x) = Some (match_record x) /\ (kinds = [] \/ m_kind (match_record x) ∈ kinds)) matches /\
    Z.of_nat (length matches) <= Z.max 0 limit /\
    out = with_trust (query_trust matches) (ToolOutcome_ok (query_output id_text limit matches)).
Proof.
  intros Hw. unfold query_invoke. unfold bind at 1, lift at 1. destruct (query_parse _ self arguments) as [input|e] eqn:Ei; [|by intros [= <- <-]].
  unfold bind at 1, gets at 1. unfold bind at 1, lift at 1. destruct (check_semantic _ _ _ _) as [[]|e]; [|by intros [= <- <-]].
  unfold bind at 1, lift at 1. destruct (query_kinds input) as [kinds|e] eqn:Ek; [|by intros [= <- <-]].
  unfold bind at 1, lift at 1. destruct (query_limit self (qi_limit input)) as [limit|e] eqn:El; [|by intros [= <- <-]].
  intros [(w1 & [] & E1 & H)|(e & E1 & ->)]%bind_inv; apply (bound_over _ _ _ _ Hw) in E1 as [-> E1]; [clear E1|done].
  apply bind_inv in H as [(w2 & [] & E2 & H)|(e & E2 & ->)]; apply (live_over _ _ _ _ _ Hw) in E2; [|done].
  apply bind_inv in H as [(w3 & now & E3 & H)|(e & E3 & ->)]; apply (clock_over _ _ _ _ E2) in E3; [|done].
  destruct E3 as (s & Hs & Hok & Hm). unfold bind, on_store in H. rewrite Hs in H.
  match goal with E : context [store_query ?q ?c ?n ?st] |- _ => destruct (store_query q c n st) as [s' rd] eqn:Ed end.
  apply query_holds in Ed as (Hok' & Hh & Hr); [|done]. rewrite Hm in *. destruct rd as [matches|e]; injection H as <- <-; (split; [by exists s'|]); [|done].
  intros out [= <-]. destruct (Hr matches eq_refl) as [Hall Hlim]. exists input, kinds, limit, matches. split_and!; try done. by apply Hlim.
Qed.
(** ** Claims *)

(** The only record that differs between two states, if any does. *)
Definition only_differs (id : MemoryId) (m m' : gmap MemoryId MemoryRecord) : Prop := forall j, j <> id -> m' !! j = m !! j.

(** a memory tool touches what it claims: where the arguments are understood - and no tool does a
    thing with arguments it would claim nothing for - putting writes at most one record, of the
    kind that was claimed; deleting removes at most the record that was claimed; fetching shows
    no other record; and searching shows records of the claimed kinds only, or had claimed them
    all, and no more of them than the tool's limit.  Fetching and searching change nothing. *)
Theorem memory_tools_touch_what_they_claim (put : MemoryPutTool) (delete_tool : MemoryDeleteTool) (get : MemoryGetTool) (query : MemoryQueryTool)
    (arguments : Value) (cx : ExecutionContext) (w w' : ToolWorld S) (r : Result ToolOutcome) (m : gmap MemoryId MemoryRecord) :
  over w m ->
  (do_put put arguments cx w = (w', r) ->
     match put_planned parse_id serde_refusal put arguments with
     | Err e => r = Err e /\ w' = w
     | Ok claims => exists m', over w' m' /\
         (m' = m \/ exists stored, m' = <[m_id stored := stored]> m /\
            claims = [{| claim_action := put_action put; claim_resource := kind_resource (m_kind stored) |}])
     end) /\
  (do_delete delete_tool arguments cx w = (w', r) ->
     match delete_planned id_text parse_id serde_refusal delete_tool arguments with
     | Err e => r = Err e /\ w' = w
     | Ok claims => exists id m', over w' m' /\ only_differs id m m' /\
         claims = [{| claim_action := delete_action delete_tool; claim_resource := record_resource id_text id |}]
     end) /\
  (do_get get arguments cx w = (w', r) ->
     match get_planned id_text parse_id serde_refusal get arguments with
     | Err e => r = Err e /\ w' = w
     | Ok claims => over w' m /\ forall out, r = Ok out ->
         Value_get (output out) "found" = Some (VBool false) \/
         exists record, m !! m_id record = Some record /\ Value_get (output out) "record" = Some (render_record id_text record) /\
           claims = [{| claim_action := get_action get; claim_resource := record_resource id_text (m_id record) |}]
     end) /\
  (do_query query arguments cx w = (w', r) ->
     match query_planned serde_refusal query arguments with
     | Err e => is_ok r = false /\ w' = w
     | Ok claims => over w' m /\ forall out, r = Ok out -> exists records,
         Value_get (output out) "records" = Some (VArray (map (render_record id_text) records)) /\
         Z.of_nat (length records) <= Z.max 0 (max_results query) /\
         Forall (fun record => m !! m_id record = Some record /\
           ({| claim_action := query_action query; claim_resource := ANY_KIND_RESOURCE |} ∈ claims \/
            {| claim_action := query_action query; claim_resource := kind_resource (m_kind record) |} ∈ claims)) records
     end).
Proof.
  intros Hw. split_and!.
  - intros H. pose proof (put_use _ _ _ _ _ _ _ Hw H) as (m' & Hw' & Hm & _). unfold put_planned, has_put in *.
    unfold put_invoke, bind at 1, lift at 1 in H. destruct (put_parse _ _ put arguments) as [input|e]; simpl; [|by injection H as <- <-].
    unfold bind at 1, lift at 1 in H. destruct (parse_kind (put_kind input)) as [kind|e] eqn:Ek; simpl; [|by injection H as <- <-].
    exists m'. split; [done|]. destruct Hm as [->|(i & stored & [= <-] & Hk & _ & _ & _ & ->)]; [by left|right].
    exists stored. split; [done|]. rewrite Ek in Hk. by injection Hk as <-.
  - intros H. pose proof (delete_use _ _ _ _ _ _ _ Hw H) as (m' & Hw' & Hm). unfold delete_planned in *.
    unfold delete_invoke, bind at 1, lift at 1 in H. destruct (id_parse _ _ (delete_name delete_tool) arguments) as [id|e]; simpl; [|by injection H as <- <-].
    exists id, m'. split_and!; [done| |done]. destruct Hm as [->|(i & [= <-] & ->)]; [by intros|]. intros j Hj. by apply lookup_delete_ne.
  - intros H. pose proof (get_use _ _ _ _ _ _ _ Hw H) as (Hw' & Hr). unfold get_planned.
    unfold get_invoke, bind at 1, lift at 1 in H. destruct (id_parse _ _ (get_name get) arguments) as [id|e]; simpl; [|by injection H as <- <-].
    split; [done|]. intros out Hout. destruct (Hr out Hout) as (i & [= <-] & [->|(record & Hm & Hid & ->)]); [by left|right].
    exists record. rewrite Hid. split_and!; done.
  - intros H. pose proof (query_use _ _ _ _ _ _ _ Hw H) as (Hw' & Hr). unfold query_planned.
    unfold query_invoke, bind at 1, lift at 1 in H. destruct (query_parse _ query arguments) as [input|e]; simpl; [|by injection H as <- <-].
    unfold bind at 1, gets at 1 in H. unfold bind at 1, lift at 1 in H. destruct (check_semantic f32_text query (semantic_now w) input) as [[]|e] eqn:Ec.
    2: { injection H as <- <-. destruct (query_kinds input) as [kinds|e']; [|done]. by split. }
    unfold bind at 1, lift at 1 in H. destruct (query_kinds input) as [kinds|e] eqn:Ek; simpl; [|by injection H as <- <-].
    split; [done|]. intros out Hout. destruct (Hr out Hout) as (i & ks & limit & matches & [= <-] & Hks & Hl & Hall & Hlen & ->).
    rewrite Ek in Hks. injection Hks as <-. exists (map match_record matches). split_and!.
    + simpl. rewrite map_map. unfold query_output. by destruct (mapM match_score matches).
    + rewrite length_map. unfold query_limit in Hl. destruct (qi_limit input) as [n|]; [destruct (n =? 0); [done|]|]; injection Hl as <-; lia.
    + apply Forall_map. eapply Forall_impl; [exact Hall|]. simpl. intros x [Hx Hkind]. split; [done|]. destruct kinds as [|k kinds]; [left; by left|].
      right. destruct Hkind as [?|Hkind]; [done|].
      by apply (list_elem_of_fmap_2 (fun kind => {| claim_action := query_action query; claim_resource := kind_resource kind |})).
Qed.

(** ** Trust *)

Inductive MemoryTool :=
  | Tool_put (tool : MemoryPutTool)
  | Tool_delete (tool : MemoryDeleteTool)
  | Tool_get (tool : MemoryGetTool)
  | Tool_query (tool : MemoryQueryTool).

Record Use := { use_tool : MemoryTool; use_arguments : Value; use_cx : ExecutionContext }.

Definition use (u : Use) : action (ToolWorld S) Error ToolOutcome :=
  match use_tool u with
  | Tool_put tool => do_put tool (use_arguments u) (use_cx u)
  | Tool_delete tool => do_delete tool (use_arguments u) (use_cx u)
  | Tool_get tool => do_get tool (use_arguments u) (use_cx u)
  | Tool_query tool => do_query tool (use_arguments u) (use_cx u)
  end.

Fixpoint uses (l : list Use) (w : ToolWorld S) : ToolWorld S * list (Result ToolOutcome) :=
  match l with
  | [] => (w, [])
  | u :: l => let (w, r) := use u w in let (w, rs) := uses l w in (w, r :: rs)
  end.

(** The words of a record, put by a conversation that had read nothing untrusted. *)
Definition put_in_trust (l : list Use) (record : MemoryRecord) : Prop :=
  exists u tool input, u ∈ l /\ use_tool u = Tool_put tool /\ put_parse parse_id serde_refusal tool (use_arguments u) = Ok input /\
    put_content input = m_content record /\ Map_get TRUST_ATTRIBUTE (attributes (use_cx u)) = Some (VString (Trust_as_str Trusted)).

Lemma trust_said_trusted v : trust_said v = Trusted -> v = Some (VString (Trust_as_str Trusted)).
Proof. unfold trust_said. destruct v as [[]|]; simpl; try done. destruct (String.eqb_spec s "trusted"); [by subst|done]. Qed.

Lemma stamped record metadata cx : m_metadata record = stamp_trust metadata cx ->
  record_trust record = trust_said (Map_get TRUST_ATTRIBUTE (attributes cx)).
Proof.
  unfold record_trust, stamp_trust. intros ->. rewrite Map_get_insert_eq. unfold trust_said at 1. simpl.
  by destruct (trust_said (Map_get TRUST_ATTRIBUTE (attributes cx))).
Qed.

(** Every record that says it can be trusted was put in trust. *)
Definition trust_accounted (l : list Use) (m : gmap MemoryId MemoryRecord) : Prop :=
  forall id record, m !! id = Some record -> record_trust record = Trusted -> put_in_trust l record.

Lemma put_in_trust_more l u record : put_in_trust l record -> put_in_trust (l ++ [u]) record.
Proof. intros (u' & tool & input & Hu & H). exists u', tool, input. split; [|done]. apply elem_of_app. by left. Qed.

Lemma use_accounted u past w w' r m : over w m -> trust_accounted past m -> use u w = (w', r) ->
  exists m', over w' m' /\ trust_accounted (past ++ [u]) m'.
Proof.
  intros Hw Hacc. assert (Hmore : trust_accounted (past ++ [u]) m) by (intros id record Hr Ht; apply put_in_trust_more; by apply (Hacc id)).
  unfold use. destruct u as [[tool|tool|tool|tool] arguments cx]; simpl; intros H.
  - destruct (put_use _ _ _ _ _ _ _ Hw H) as (m' & Hw' & Hm & _). exists m'. split; [done|].
    destruct Hm as [->|(input & stored & Hi & _ & Hcontent & Hmeta & _ & ->)]; [done|].
    intros id record. rewrite lookup_insert_Some. intros [[_ <-]|[_ Hr]]; [|by apply (Hmore id)]. intros Ht.
    rewrite (stamped _ _ _ Hmeta) in Ht. apply trust_said_trusted in Ht.
    eexists _, tool, input. split; [apply elem_of_app; right; by left|]. by split_and!.
  - destruct (delete_use _ _ _ _ _ _ _ Hw H) as (m' & Hw' & Hm). exists m'. split; [done|].
    destruct Hm as [->|(id & _ & ->)]; [done|]. intros j record [_ Hr]%lookup_delete_Some. by apply (Hmore j).
  - destruct (get_use _ _ _ _ _ _ _ Hw H) as [Hw' _]. by exists m.
  - destruct (query_use _ _ _ _ _ _ _ Hw H) as [Hw' _]. by exists m.
Qed.

(** What an outcome of a reading tool may say of trust, after [l]. *)
Definition says_trust (u : Use) (l : list Use) (r : Result ToolOutcome) : Prop :=
  forall out, r = Ok out -> outcome_trust out = Trusted ->
    match use_tool u with
    | Tool_get _ => Value_get (output out) "found" = Some (VBool false) \/
        exists record, Value_get (output out) "record" = Some (render_record id_text record) /\ put_in_trust l record
    | Tool_query _ => exists records, Value_get (output out) "records" = Some (VArray (map (render_record id_text) records)) /\
        Forall (put_in_trust l) records
    | _ => True
    end.

Lemma query_trust_trusted matches : query_trust matches = Trusted -> Forall (fun x => record_trust (match_record x) = Trusted) matches.
Proof.
  unfold query_trust. assert (Hu : forall l, foldl (fun trust x => min_with trust (record_trust (match_record x))) Untrusted l = Untrusted)
    by (induction l as [|x l IH]; simpl; [done|exact IH]).
  induction matches as [|x l IH]; simpl; [constructor|]. destruct (record_trust (match_record x)) eqn:E; simpl; [|by rewrite Hu].
  intros H. constructor; [done|by apply IH].
Qed.

Lemma use_says u w w' r m l : over w m -> trust_accounted l m -> use u w = (w', r) -> says_trust u l r.
Proof.
  intros Hw Hacc. unfold use, says_trust. destruct u as [[tool|tool|tool|tool] arguments cx]; simpl; intros H out Hout Ht; try done.
  - destruct (get_use _ _ _ _ _ _ _ Hw H) as [_ Hr]. destruct (Hr out Hout) as (id & _ & [->|(record & Hm & _ & ->)]); [by left|right].
    exists record. split; [done|]. by apply (Hacc id).
  - destruct (query_use _ _ _ _ _ _ _ Hw H) as [_ Hr]. destruct (Hr out Hout) as (i & ks & limit & matches & _ & _ & _ & Hall & _ & ->).
    exists (map match_record matches). simpl in Ht. apply query_trust_trusted in Ht. split.
    + simpl. rewrite map_map. unfold query_output. by destruct (mapM match_score matches).
    + apply Forall_map. rewrite Forall_forall in *. intros x Hx. simpl. destruct (Hall x Hx) as [Hm _]. eapply Hacc; [exact Hm|by apply Ht].
Qed.

(** C28. memory does not launder what it is told: over any run of the tools, whatever arguments they are
    given, a fetched or searched-for result that calls itself trusted shows only words that were put
    by a conversation which had read nothing untrusted when it put them. *)
Theorem memory_does_not_launder (l : list Use) : forall (past : list Use) (w : ToolWorld S) (m : gmap MemoryId MemoryRecord),
  over w m -> trust_accounted past m ->
  Forall2 (fun u r => says_trust u (past ++ l) r) l (snd (uses l w)).
Proof.
  induction l as [|u l IH]; intros past w m Hw Hacc; simpl; [constructor|].
  destruct (use u w) as [w1 r] eqn:E. destruct (uses l w1) as [w2 rs] eqn:Er. simpl.
  destruct (use_accounted _ _ _ _ _ _ Hw Hacc E) as (m1 & Hw1 & Hacc1). specialize (IH (past ++ [u]) w1 m1 Hw1 Hacc1).
  rewrite Er in IH. simpl in IH. rewrite <- app_assoc in IH. constructor; [|exact IH].
  assert (Hmono : trust_accounted (past ++ u :: l) m).
  { intros id record Hr Ht. destruct (Hacc id record Hr Ht) as (u' & tool & input & Hu & H). exists u', tool, input. split; [|done].
    apply elem_of_app. by left. }
  exact (use_says _ _ _ _ _ _ Hw Hmono E).
Qed.
End Uses.

(** ** The tools behind the registry *)

Section Behind.
  Context {S : Type} {MS : MemoryStore S}.
  Context (id_text : MemoryId -> string) (parse_id : string -> option MemoryId) (serde_refusal : Value -> string) (f32_text : f32 -> string).

(** An action of a tool as its body: all its effects are on the world outside the registry. *)
Definition as_body (act : action (ToolWorld S) Error ToolOutcome) : ToolBody (ToolWorld S) :=
  Effect (fun w => fst (act w)) (fun w => Return (snd (act w))).

Definition get_tool (self : MemoryGetTool) : Tool (ToolWorld S) :=
  {| tool_spec := get_spec self; planned_resources := fun arguments _ => get_planned id_text parse_id serde_refusal self arguments;
     tool_invoke := fun arguments cx => as_body (get_invoke id_text parse_id serde_refusal self arguments cx) |}.

Definition query_tool (semantic : bool) (self : MemoryQueryTool) : Tool (ToolWorld S) :=
  {| tool_spec := query_spec semantic self; planned_resources := fun arguments _ => query_planned serde_refusal self arguments;
     tool_invoke := fun arguments cx => as_body (query_invoke id_text serde_refusal f32_text self arguments cx) |}.

(** Both reading tools declare their output untrusted, and the registry takes the lower of what a tool
    declares and what an outcome says: a recall that succeeds always marks the conversation, even
    where it shows only trusted records, and even where it shows nothing. *)
Lemma recall_always_taints {L : Type} `{TrustLedgerLaws L} clock_now instant error_to_string (self : InProcessToolRegistry (ToolWorld S))
    (name : ToolName) (arguments : Value) (cx : ExecutionContext) (s s' : State (ToolWorld S) L) (out : ToolOutcome) :
  (exists tool, tools self !! name = Some (get_tool tool)) \/ (exists semantic tool, tools self !! name = Some (query_tool semantic tool)) ->
  Tools.invoke clock_now instant error_to_string self name arguments cx s = (s', Ok out) ->
  trust_of (scope_of cx) (ledger s') = Ok Untrusted.
Proof.
  intros [(tool & Ht)|(semantic & tool & Ht)] Hi; (eapply (call_taints clock_now instant error_to_string self); [exact Hi|exact Ht|by left]).
Qed.
End Behind.

Module Demo.
Import Memory.Demo.
#[local] Existing Instance constant_model.

#[local] Instance demo_store : MemoryStore (InMemoryMemoryStore nat) := memory_store (fun _ => EmptyString) fmt_u None.
#[local] Instance demo_laws : MemoryStoreLaws (InMemoryMemoryStore nat) := memory_store_laws (fun _ => EmptyString) fmt_u None.

Definition parse_number (s : string) : option MemoryId := parse_uint u64_max s.

Definition a_world : ToolWorld (InMemoryMemoryStore nat) :=
  Build_ToolWorld (Some (Build_InMemoryMemoryStore ∅ 0%nat)) [100; 100; 200; 300] 0.

Lemma a_world_empty : over a_world ∅.
Proof. eexists. split; [reflexivity|]. split; [apply map_Forall_empty|reflexivity]. Qed.

Definition put_tool : MemoryPutTool := {| put_name := DEFAULT_PUT_NAME; put_action := DEFAULT_PUT_NAME; max_record_bytes := DEFAULT_MAX_RECORD_BYTES |}.
Definition delete_tool : MemoryDeleteTool := {| delete_name := DEFAULT_DELETE_NAME; delete_action := DEFAULT_DELETE_NAME |}.
Definition get_tool_ : MemoryGetTool := {| get_name := DEFAULT_GET_NAME; get_action := DEFAULT_GET_NAME |}.

Definition in_trust (trust : Trust) : ExecutionContext :=
  {| correlation := "c"; principal := Some (Principal_new "minos" User); deadline := None; cancellation := false;
     attributes := [(TRUST_ATTRIBUTE, VString (Trust_as_str trust))] |}.

(** A put that claims trust for itself in its metadata. *)
Definition put_arguments : Value :=
  json_object [("kind", VString "fact"); ("content", VString "the sky is green"); ("id", VString "7");
               ("metadata", VObject [(TRUST_METADATA_KEY, VString "trusted")])]%string.

Lemma memory_tools_touch_what_they_claim_witness :
  let run := put_invoke fmt_u parse_number Z.of_nat (fun _ => EmptyString) (fun _ => 16) put_tool put_arguments (in_trust Trusted) a_world in
  exists m', over (fst run) m' /\
    (m' = ∅ \/ exists stored, m' = <[m_id stored := stored]> ∅ /\
       [{| claim_action := DEFAULT_PUT_NAME; claim_resource := "kind/fact" |}] =
       [{| claim_action := DEFAULT_PUT_NAME; claim_resource := kind_resource (m_kind stored) |}]).
Proof.
  exact (proj1 (memory_tools_touch_what_they_claim fmt_u parse_number Z.of_nat (fun _ => EmptyString) (fun _ => 16) (fun _ => EmptyString)
    put_tool delete_tool get_tool_ MemoryQueryTool_new put_arguments (in_trust Trusted) a_world _ _ ∅ a_world_empty) (surjective_pairing _)).
Defined.

Definition get_arguments : Value := json_object [("id"%string, VString "7")].

(** Told in trust and fetched; told again, by a conversation that had read a page, and fetched. *)
Definition a_day : list Use :=
  [{| use_tool := Tool_put put_tool; use_arguments := put_arguments; use_cx := in_trust Trusted |};
   {| use_tool := Tool_get get_tool_; use_arguments := get_arguments; use_cx := in_trust Trusted |};
   {| use_tool := Tool_put put_tool; use_arguments := put_arguments; use_cx := in_trust Untrusted |};
   {| use_tool := Tool_get get_tool_; use_arguments := get_arguments; use_cx := in_trust Trusted |}].

Lemma memory_does_not_launder_witness :
  let rs := snd (uses fmt_u parse_number Z.of_nat (fun _ => EmptyString) (fun _ => 16) (fun _ => EmptyString) a_day a_world) in
  map (result_map outcome_trust) rs = [Ok Trusted; Ok Trusted; Ok Trusted; Ok Untrusted] /\
  Forall2 (fun u r => says_trust fmt_u parse_number (fun _ => EmptyString) u a_day r) a_day rs.
Proof.
  split; [vm_compute; reflexivity|].
  apply (memory_does_not_launder fmt_u parse_number Z.of_nat (fun _ => EmptyString) (fun _ => 16) (fun _ => EmptyString) a_day [] a_world ∅ a_world_empty).
  intros id record Hr. rewrite lookup_empty in Hr. discriminate.
Defined.

(** A search that finds nothing carries a list of scores, whether or not it was a search by meaning. *)
Example scores_without_text :
  exists out, snd (query_invoke fmt_u (fun _ => EmptyString) (fun _ => EmptyString) MemoryQueryTool_new (json_object []) (in_trust Trusted) a_world) = Ok out /\
    Value_get (output out) "scores" = Some (VArray []).
Proof. eexists. split; vm_compute; reflexivity. Qed.
End Demo.
