(* ===== verification/Exec.v ===== *)
(** * Exec: running one allowed program ([crates/exec])

    The line a command is shown and authorised as, the allow-list and the search path, the
    sandbox's argument vector, the resource limits, one run of a child, and the tool.  The
    host - its files, its clock and what the children do - is a class; the commands that were
    started and the groups that were killed are recorded with it. *)

From S2P Require Import Prelude Base Trust Tools Serde Text Paths.

(** ** The line of a command ([command_line.rs]) *)

Definition QUOTE_CHAR : ascii := "'"%char.
Definition BLANK : ascii := " "%char.
Definition BACKSLASH : ascii := chr 92.

Definition is_one_of (c : ascii) (set : string) : bool := existsb (Ascii.eqb c) (String.list_ascii_of_string set).

Definition is_bare (c : ascii) : bool := is_ascii_alphanumeric (byte_of c) || is_one_of c "_-./=:,+@%".

(** [str::replace] of the quotation mark *)
Fixpoint replace_quotes (s : string) : string :=
  match s with
  | EmptyString => EmptyString
  | String c s =>
      if Ascii.eqb c QUOTE_CHAR then String QUOTE_CHAR (String BACKSLASH (String QUOTE_CHAR (String QUOTE_CHAR (replace_quotes s))))
      else String c (replace_quotes s)
  end.

Definition quote (argument : string) : string :=
  if negb (str_is_empty argument) && all_bytes is_bare argument then argument
  else String QUOTE_CHAR (replace_quotes argument +:+ String QUOTE_CHAR EmptyString).

Fixpoint push_arguments (line : string) (arguments : list string) : string :=
  match arguments with
  | [] => line
  | argument :: arguments => push_arguments (line +:+ String BLANK EmptyString +:+ quote argument) arguments
  end.

Definition render (program : string) (arguments : list string) : string := push_arguments (quote program) arguments.

(** ** Programs ([program.rs]) *)

Definition is_name_char (c : ascii) : bool := is_ascii_alphanumeric (byte_of c) || is_one_of c "_-.+".

Definition unusable (raw why : string) : Error := InvalidArgument ("`" +:+ raw +:+ "` is not a usable program name: " +:+ why).

Definition validate_name (raw : string) : Result string :=
  if str_is_empty raw then Err (unusable raw "it is empty")
  else if bool_decide (raw = "."%string) || bool_decide (raw = ".."%string) then Err (unusable raw "it names a directory, not a program")
  else if starts_with raw "-" then Err (unusable raw "it starts with `-`")
  else if negb (all_bytes is_name_char raw) then
    Err (unusable raw "only ASCII letters, digits, `_`, `-`, `.` and `+` are allowed, and a program is named, never given as a path")
  else Ok raw.

(** [parse_search_path] *)
Definition parse_search_path (raw : string) : list string :=
  List.filter is_absolute (List.filter (fun entry => negb (str_is_empty entry)) (split_char ":" raw)).

(** ** Limits ([limits.rs]) *)

Record Limits := {
  cpu_seconds : option Z; file_size_bytes : option Z; open_files : option Z; address_space_bytes : option Z; processes : option Z;
}.

Definition DEFAULT_FILE_SIZE_BYTES : Z := 64 * 1024 * 1024.
Definition DEFAULT_OPEN_FILES : Z := 256.

Definition as_secs (d : Duration) : Z := d `div` 1000000000.

Definition for_budget (budget : Duration) : Limits :=
  {| cpu_seconds := Some (sat_add u64_max (as_secs budget) 2); file_size_bytes := Some DEFAULT_FILE_SIZE_BYTES;
     open_files := Some DEFAULT_OPEN_FILES; address_space_bytes := None; processes := None |}.

Inductive Resource := RLIMIT_CPU | RLIMIT_FSIZE | RLIMIT_NOFILE | RLIMIT_AS | RLIMIT_NPROC | RLIMIT_CORE.

#[export] Instance Resource_eq_dec : EqDecision Resource.
Proof. solve_decision. Defined.

Definition RLIM_INFINITY : Z := u64_max.

Record Rlimit := { rlim_cur : Z; rlim_max : Z }.

(** The forked child, before it executes anything. *)
Class Forked (C : Type) := {
  getrlimit : Resource -> C -> C * result BoxError Rlimit;
  setrlimit : Resource -> Rlimit -> C -> C * result BoxError unit;
  setsid : C -> C * result BoxError unit;
}.

Section Apply.
  Context {C : Type} `{Forked C}.
  Abbreviation M := (action C BoxError).

Definition ceiling (requested : Z) (current : Rlimit) : Z :=
  if rlim_max current =? RLIM_INFINITY then requested else Z.min requested (rlim_max current).

Definition set (resource : Resource) (value : option Z) : M unit :=
  match value with
  | None => ret tt
  | Some value =>
      let! current := (fun c => getrlimit resource c) in
      (fun c => setrlimit resource {| rlim_cur := ceiling value current; rlim_max := ceiling value current |} c)
  end.

Definition apply_limits (limits : Limits) : M unit :=
  set RLIMIT_CPU (cpu_seconds limits) ;!
  set RLIMIT_FSIZE (file_size_bytes limits) ;!
  set RLIMIT_NOFILE (open_files limits) ;!
  set RLIMIT_AS (address_space_bytes limits) ;!
  set RLIMIT_NPROC (processes limits) ;!
  set RLIMIT_CORE (Some 0) ;!
  (fun c => setsid c).
End Apply.

(** ** The sandbox ([sandbox.rs]) *)

Definition WORKSPACE : string := "/workspace".
Definition SANDBOX_SEARCH_PATH : string := "/usr/bin:/bin:/usr/local/bin".
Definition READ_ONLY_ROOTS : list string := ["/usr"; "/bin"; "/sbin"; "/lib"; "/lib32"; "/lib64"]%string.
Definition READ_ONLY_FILES : list string :=
  ["/etc/ld.so.cache"; "/etc/ld.so.conf"; "/etc/ld.so.conf.d"; "/etc/alternatives"; "/etc/localtime"]%string.
Definition NETWORK_FILES : list string :=
  ["/etc/resolv.conf"; "/etc/hosts"; "/etc/nsswitch.conf"; "/etc/ssl"; "/etc/pki"; "/etc/ca-certificates"]%string.
Definition DEFAULT_TMPFS_BYTES : Z := 64 * 1024 * 1024.

Inductive Sandbox := Bubblewrap (binary : string) | Unconfined.

Definition is_enforcing (self : Sandbox) : bool := match self with Bubblewrap _ => true | Unconfined => false end.

Record Plan := {
  plan_program : string; plan_arguments : list string; plan_workspace : string; plan_writable : bool; plan_network : bool;
  plan_environment : list (string * string); plan_tmpfs_bytes : Z;
}.

(** A command as it was built: the program, its arguments, and what was said of its directory and
    its environment, in order. *)
Record Command := {
  cmd_program : string; cmd_args : list string; current_dir : option string; env_cleared : bool; cmd_env : list (string * string);
}.

Definition Command_new (program : string) (args : list string) : Command :=
  {| cmd_program := program; cmd_args := args; current_dir := None; env_cleared := false; cmd_env := [] |}.

Definition setenv_arguments (environment : list (string * string)) : list string :=
  concat (map (fun kv => ["--setenv"%string; fst kv; snd kv]) environment).

Definition namespace_arguments (plan : Plan) : list string :=
  ["--unshare-user"; "--unshare-ipc"; "--unshare-pid"; "--unshare-uts"; "--unshare-cgroup-try"]%string ++
  (if plan_network plan then [] else ["--unshare-net"%string]) ++
  ["--hostname"; "aik-sandbox"; "--die-with-parent"; "--new-session"; "--cap-drop"; "ALL"; "--clearenv"]%string ++
  setenv_arguments (plan_environment plan).

Definition ro_bind_try (paths : list string) : list string := concat (map (fun p => ["--ro-bind-try"%string; p; p]) paths).

Definition filesystem_arguments (plan : Plan) : list string :=
  ro_bind_try READ_ONLY_ROOTS ++ ro_bind_try READ_ONLY_FILES ++
  (if plan_network plan then ro_bind_try NETWORK_FILES else []) ++
  ["--proc"; "/proc"; "--dev"; "/dev"; "--perms"; "01777"; "--size"; fmt_u (plan_tmpfs_bytes plan); "--tmpfs"; "/tmp"]%string ++
  [if plan_writable plan then "--bind" else "--ro-bind"; plan_workspace plan; WORKSPACE; "--chdir"; WORKSPACE]%string.

(** [Sandbox::command] *)
Definition command (self : Sandbox) (plan : Plan) : Command :=
  match self with
  | Bubblewrap binary =>
      Command_new binary
        (namespace_arguments plan ++ filesystem_arguments plan ++ ["--"%string; plan_program plan] ++ plan_arguments plan)
  | Unconfined =>
      {| cmd_program := plan_program plan; cmd_args := plan_arguments plan; current_dir := Some (plan_workspace plan);
         env_cleared := true; cmd_env := plan_environment plan |}
  end.

Definition workspace_as_seen (self : Sandbox) (workspace : string) : string :=
  match self with Bubblewrap _ => WORKSPACE | Unconfined => path_display workspace end.

(** ** The host *)

(** How a process ended, and what reading each of its streams gave, read by read. *)
Record Ended := {
  status : result BoxError (option Z * option Z);
  out_reads : list (result BoxError string);
  err_reads : list (result BoxError string);
}.

(** A child as it will turn out, times counted from its start: when its caller cancels; when its
    streams close and it exits by itself, and how; and the same, counted from then, if its group
    is killed - a process that left the group may keep the streams open for good. *)
Record Process := {
  pid : Z;
  cancelled_at : option Duration;
  finishes : option Duration;
  by_itself : Ended;
  closes_after_kill : option Duration;
  killed : Ended;
}.

(** What is started: the command, whether its input is a pipe, and the limits it puts on itself. *)
Record Spawn := { sp_command : Command; sp_stdin : option string; sp_limits : Limits }.

Class ProcessHost (W : Type) := {
  canonicalize : string -> W -> W * result BoxError string;
  is_dir : string -> W -> W * bool;
  (** [metadata]: whether it is a regular file, and its mode *)
  metadata : string -> W -> W * option (bool * Z);
  host_now : W -> W * Timestamp;
  spawn : Spawn -> W -> W * result BoxError Process;
  (** [Command::output] of the sandbox itself: success, the words for its status, and its streams *)
  run_output : string -> list string -> W -> W * result BoxError (bool * string * string * string);
}.

Inductive HostEvent := Spawned (s : Spawn) (p : Process) | Killed_group (pid : Z).

Record Host (W : Type) := { host : W; events : list HostEvent }.
Arguments host {W}.
Arguments events {W}.
Arguments Build_Host {W}.

Section OnHost.
  (** [Display] of an error, and of the boxed error of a system call *)
  Context {W : Type} `{ProcessHost W} (error_text : Error -> string) (io_text : BoxError -> string).
  Abbreviation M := (action (Host W) Error).

Definition ask {A} (f : W -> W * A) : M A := fun s =>
  let (w, a) := f (host s) in (Build_Host w (events s), Ok a).
Definition happened (e : HostEvent) : M unit := modify (fun s => Build_Host (host s) (events s ++ [e])).

(** [is_executable_file] *)
Definition is_executable_file (path : string) : M bool :=
  let! found := ask (metadata path) in
  ret match found with Some (is_file, mode) => is_file && negb (Z.land mode 73 =? 0) | None => false end.

(** [program::resolve] *)
Fixpoint resolve (name : string) (search_path : list string) : M string :=
  match search_path with
  | [] => throw (NotFound "program" name)
  | directory :: search_path =>
      let candidate := path_join directory name in
      let! executable := is_executable_file candidate in
      if negb executable then resolve name search_path
      else
        let! real := ask (canonicalize candidate) in
        lift (map_err (Error_wrap ("resolving `" +:+ path_display candidate +:+ "`")) real)
  end.

(** *** Making a sandbox *)

Definition probe_plan (binary : string) : Plan :=
  {| plan_program := binary; plan_arguments := ["--version"%string]; plan_workspace := "/usr"; plan_writable := false; plan_network := false;
     plan_environment := []; plan_tmpfs_bytes := DEFAULT_TMPFS_BYTES |}.

Definition sandbox_error (message : string) : Error := Config "aik-exec.sandbox" message.

(** [Sandbox::probe] *)
Definition probe (self : Sandbox) : M unit :=
  match self with
  | Unconfined => ret tt
  | Bubblewrap binary =>
      let plan := probe_plan binary in
      let! output := ask (run_output binary
        (namespace_arguments plan ++ filesystem_arguments plan ++ ["--ro-bind"; binary; binary; "--"; binary; "--version"]%string)) in
      match output with
      | Err error => throw (sandbox_error ("cannot run `" +:+ path_display binary +:+ "`: " +:+ io_text error))
      | Ok (success, status_text, stdout, stderr) =>
          if success && starts_with (to_utf8 (from_utf8_lossy stdout)) "bubblewrap" then ret tt
          else throw (sandbox_error ("`" +:+ path_display binary +:+ "` cannot start a sandbox on this host (" +:+ status_text +:+ "): " +:+
                                     trim (to_utf8 (from_utf8_lossy stderr))))
      end
  end.

Definition bubblewrap_at (binary : string) : M Sandbox := probe (Bubblewrap binary) ;! ret (Bubblewrap binary).

Definition no_bwrap : Error :=
  sandbox_error ("no `bwrap` on `" +:+ SANDBOX_SEARCH_PATH +:+ "`; install bubblewrap, or name it explicitly, or configure an unconfined deployment knowing what that means").

Definition bubblewrap : M Sandbox :=
  let! found := try (resolve "bwrap" (parse_search_path SANDBOX_SEARCH_PATH)) in
  match found with Ok binary => bubblewrap_at binary | Err _ => throw no_bwrap end.

(** ** One run ([runner.rs]) *)

Record Captured := { cap_text : string; cap_truncated : bool; cap_lossy : bool }.

Record Completed := { code : option Z; signal : option Z; stdout : Captured; stderr : Captured; timed_out : bool }.

Definition succeeded (self : Completed) : bool := negb (timed_out self) && bool_decide (code self = Some 0).

(** The first [n] bytes *)
Fixpoint take_bytes (n : Z) (s : string) : string :=
  match s with
  | EmptyString => EmptyString
  | String c s => if n <=? 0 then EmptyString else String c (take_bytes (n - 1) s)
  end.

Fixpoint capture_loop (reads : list (result BoxError string)) (cap : Z) (kept : string) (truncated : bool) : string * bool :=
  match reads with
  | [] | Err _ :: _ | Ok EmptyString :: _ => (kept, truncated)
  | Ok chunk :: reads =>
      let room := sat_sub cap (str_len kept) in
      if room =? 0 then capture_loop reads cap kept true
      else capture_loop reads cap (kept +:+ take_bytes (Z.min (str_len chunk) room) chunk) (truncated || (room <? str_len chunk))
  end.

(** [capture] *)
Definition capture (reads : list (result BoxError string)) (cap : Z) : Captured :=
  let (kept, truncated) := capture_loop reads cap EmptyString false in
  if valid_utf8 kept then {| cap_text := kept; cap_truncated := truncated; cap_lossy := false |}
  else {| cap_text := to_utf8 (from_utf8_lossy kept); cap_truncated := truncated; cap_lossy := true |}.

(** Which branch of the [select!] is taken: they are polled in order, so of several that are ready
    at once the first one is. *)
Inductive Race := Race_cancelled | Race_timeout | Race_finished.

Definition before (a : Duration) (b : option Duration) : bool := match b with Some b => a <=? b | None => true end.

Definition race (cancelled_at : option Duration) (budget : Duration) (finishes : option Duration) : Race :=
  match cancelled_at with
  | Some t => if (t <=? budget) && before t finishes then Race_cancelled else if before budget finishes then Race_timeout else Race_finished
  | None => if before budget finishes then Race_timeout else Race_finished
  end.

Definition completed (ended : Ended) (max_output_bytes : Z) (timed_out : bool) : Result Completed :=
  result_map (fun s => {| code := fst s; signal := snd s; stdout := capture (out_reads ended) max_output_bytes;
                          stderr := capture (err_reads ended) max_output_bytes; timed_out := timed_out |})
    (map_err (Error_wrap "waiting for the child process") (status ended)).

(** [runner::run]: what it returns and after how long, or that it never does. *)
Definition run (sandbox : Sandbox) (plan : Plan) (limits : Limits) (stdin : option string) (max_output_bytes : Z) (budget : Duration)
    (cx : ExecutionContext) : M (Reading (Result Completed * Duration)) :=
  let sp := {| sp_command := command sandbox plan; sp_stdin := stdin; sp_limits := limits |} in
  let! started := ask (spawn sp) in
  match started with
  | Err error => throw (Error_wrap ("starting `" +:+ path_display (plan_program plan) +:+ "`") error)
  | Ok p =>
      happened (Spawned sp p) ;!
      let cancelled_at := if cancellation cx then Some 0 else cancelled_at p in
      match race cancelled_at budget (finishes p) with
      | Race_cancelled => happened (Killed_group (pid p)) ;! ret (Ready (Err Cancelled, default 0 cancelled_at))
      | Race_timeout =>
          happened (Killed_group (pid p)) ;!
          match closes_after_kill p with
          | Some d => ret (Ready (completed (killed p) max_output_bytes true, budget + d))
          | None => ret Waiting
          end
      | Race_finished => ret (Ready (completed (by_itself p) max_output_bytes false, default 0 (finishes p)))
      end
  end.
End OnHost.

(** ** The tool ([tool.rs]) *)

Definition DEFAULT_NAME : ToolName := "process.execute".
Definition DEFAULT_PERMISSION : ActionId := "process.execute".
Definition PROGRAM_RESOURCE_PREFIX : string := "program/".
Definition COMMAND_RESOURCE_PREFIX : string := "command/".
Definition DEFAULT_TIMEOUT : Duration := 30 * 1000000000.
Definition DEFAULT_MAX_OUTPUT_BYTES : Z := 64 * 1024.
Definition DEFAULT_SEARCH_PATH : string := "/usr/bin:/bin".
Definition DEFAULT_MAX_ARGUMENTS : Z := 64.
Definition DEFAULT_MAX_ARGUMENT_BYTES : Z := 16 * 1024.
Definition DEFAULT_MAX_STDIN_BYTES : Z := 64 * 1024.

Record ExecInput := { in_program : string; in_arguments : list string; in_stdin : option string }.

(** The derived [Deserialize] *)
Definition exec_input (v : Value) : option ExecInput :=
  fields ← open_fields ["program"; "arguments"; "stdin"] v;
  match fields with
  | [Some program; arguments; stdin] =>
      program ← Value_as_str program;
      arguments ← defaulted as_strings [] arguments;
      stdin ← optional Value_as_str stdin;
      Some {| in_program := program; in_arguments := arguments; in_stdin := stdin |}
  | _ => None
  end.

(** [programs] is a [BTreeSet]: without duplicates, in order. *)
Record ExecTool := {
  name : ToolName; action_id : ActionId; workspace : string; programs : list string; sandbox : Sandbox; search_path : list string;
  search_path_raw : string; writable : bool; network : bool; timeout : Duration; max_output_bytes : Z; max_arguments : Z;
  max_argument_bytes : Z; max_stdin_bytes : Z; tmpfs_bytes : Z; limits : option Limits; environment : list (string * string);
}.

Definition BTreeSet_insert (x : string) (l : list string) : list string := if bool_decide (x ∈ l) then l else insert_by String.compare x l.

Section Tool.
  Context {W : Type} `{ProcessHost W} (error_text : Error -> string) (io_text : BoxError -> string) (serde_refusal : Value -> string).
  Abbreviation M := (action (Host W) Error).

Definition no_programs : Error :=
  Config "aik-exec.programs" "no programs are allowed, so this tool could never run anything; leave it unregistered instead".

Fixpoint allow (allowed : list string) (names : list string) : Result (list string) :=
  match names with
  | [] => Ok allowed
  | name :: names =>
      let? name := map_err (fun error => Config "aik-exec.programs" (error_text error)) (validate_name name) in
      allow (BTreeSet_insert name allowed) names
  end.

(** [ExecTool::new] *)
Definition ExecTool_new (requested : string) (sandbox : Sandbox) (names : list string) : M ExecTool :=
  let! real := ask (canonicalize requested) in
  let! workspace := lift (map_err (fun error =>
    Config "aik-exec.workspace" ("cannot resolve `" +:+ path_display requested +:+ "`: " +:+ io_text error)) real) in
  let! directory := ask (is_dir workspace) in
  if negb directory then throw (Config "aik-exec.workspace" ("`" +:+ path_display requested +:+ "` is not a directory"))
  else
    let! allowed := lift (allow [] names) in
    if bool_decide (allowed = []) then throw no_programs
    else
      ret {| name := DEFAULT_NAME; action_id := DEFAULT_PERMISSION; workspace := workspace; programs := allowed; sandbox := sandbox;
             search_path := parse_search_path DEFAULT_SEARCH_PATH; search_path_raw := DEFAULT_SEARCH_PATH; writable := false;
             network := false; timeout := DEFAULT_TIMEOUT; max_output_bytes := DEFAULT_MAX_OUTPUT_BYTES;
             max_arguments := DEFAULT_MAX_ARGUMENTS; max_argument_bytes := DEFAULT_MAX_ARGUMENT_BYTES;
             max_stdin_bytes := DEFAULT_MAX_STDIN_BYTES; tmpfs_bytes := DEFAULT_TMPFS_BYTES; limits := None; environment := [] |}.

(** [with_search_path] *)
Definition with_search_path (path : string) (self : ExecTool) : ExecTool :=
  {| name := name self; action_id := action_id self; workspace := workspace self; programs := programs self; sandbox := sandbox self;
     search_path := parse_search_path path; search_path_raw := path; writable := writable self; network := network self;
     timeout := timeout self; max_output_bytes := max_output_bytes self; max_arguments := max_arguments self;
     max_argument_bytes := max_argument_bytes self; max_stdin_bytes := max_stdin_bytes self; tmpfs_bytes := tmpfs_bytes self;
     limits := limits self; environment := environment self |}.

(** [str::replace] of a NUL by what is written for it *)
Fixpoint show_nul (s : string) : string :=
  match s with
  | EmptyString => EmptyString
  | String c s => if Ascii.eqb c zero then String BACKSLASH (String "0" (show_nul s)) else String c (show_nul s)
  end.

Definition programs_text (self : ExecTool) : string := String.concat ", " (programs self).

Definition total_bytes (arguments : list string) : Z := sum_Z (map str_len arguments).

(** [validate] *)
Definition validate (self : ExecTool) (input : ExecInput) : Result unit :=
  let? name := validate_name (in_program input) in
  if negb (bool_decide (name ∈ programs self)) then
    Err (InvalidArgument ("`" +:+ name +:+ "` is not one of the programs this tool runs (" +:+ programs_text self +:+ ")"))
  else if max_arguments self <? Z.of_nat (length (in_arguments input)) then
    Err (InvalidArgument (fmt_u (Z.of_nat (length (in_arguments input))) +:+ " arguments exceeds the limit of " +:+ fmt_u (max_arguments self)))
  else if max_argument_bytes self <? total_bytes (in_arguments input) then
    Err (InvalidArgument ("arguments total " +:+ fmt_u (total_bytes (in_arguments input)) +:+ " bytes, over the limit of " +:+
                          fmt_u (max_argument_bytes self)))
  else
    match find_first has_nul (in_arguments input) with
    | Some argument => Err (InvalidArgument ("an argument contains a NUL byte and cannot be passed: `" +:+ show_nul argument +:+ "`"))
    | None =>
        match in_stdin input with
        | Some stdin =>
            if max_stdin_bytes self <? str_len stdin then
              Err (InvalidArgument ("standard input is " +:+ fmt_u (str_len stdin) +:+ " bytes, over the limit of " +:+ fmt_u (max_stdin_bytes self)))
            else Ok tt
        | None => Ok tt
        end
    end.

Definition parse (self : ExecTool) (arguments : Value) : Result ExecInput :=
  match exec_input arguments with
  | None => Err (InvalidArgument ("invalid arguments for `" +:+ name self +:+ "`: " +:+ serde_refusal arguments))
  | Some input => let? _ := validate self input in Ok input
  end.

(** [environment] *)
Definition full_environment (self : ExecTool) : list (string * string) :=
  [("PATH", search_path_raw self); ("HOME", workspace_as_seen (sandbox self) (workspace self)); ("TMPDIR", "/tmp");
   ("LANG", "C.UTF-8"); ("LC_ALL", "C.UTF-8")]%string ++ environment self.

(** [budget], and whether it is the caller's *)
Definition budget (self : ExecTool) (cx : ExecutionContext) (now : Timestamp) : Duration * bool :=
  match deadline cx with
  | Some deadline =>
      let remaining := Timestamp_saturating_since deadline now in
      if remaining <? timeout self then (remaining, true) else (timeout self, false)
  | None => (timeout self, false)
  end.

Local Notation "k =: v" := (k%string, v) (at level 60, only parsing).

Definition jopt (o : option Z) : Value := match o with Some z => jint z | None => VNull end.

(** [report] *)
Definition report (self : ExecTool) (program command : string) (completed : Completed) : ToolOutcome :=
  let output := [
    "program" =: VString program; "command" =: VString command; "exit_code" =: jopt (code completed); "signal" =: jopt (signal completed);
    "timed_out" =: VBool (timed_out completed); "sandboxed" =: VBool (is_enforcing (sandbox self));
    "stdout" =: VString (cap_text (stdout completed)); "stderr" =: VString (cap_text (stderr completed));
    "stdout_truncated" =: VBool (cap_truncated (stdout completed)); "stderr_truncated" =: VBool (cap_truncated (stderr completed));
    "stdout_lossy" =: VBool (cap_lossy (stdout completed)); "stderr_lossy" =: VBool (cap_lossy (stderr completed))] in
  if succeeded completed then ToolOutcome_ok (json_object output)
  else
    let reason :=
      if timed_out completed then "`" +:+ program +:+ "` was killed after " +:+ fmt_u (as_secs (timeout self)) +:+ " seconds without finishing"
      else match signal completed with
           | Some signal => "`" +:+ program +:+ "` was killed by signal " +:+ fmt_u signal
           | None => "`" +:+ program +:+ "` exited with status " +:+ fmt_u (default (-1) (code completed))
           end in
    ToolOutcome_error (json_object (output ++ ["error" =: VString reason])).

Definition planned (self : ExecTool) (arguments : Value) : Result (list ResourceClaim) :=
  let? input := parse self arguments in
  let command := render (in_program input) (in_arguments input) in
  Ok [{| claim_action := action_id self; claim_resource := PROGRAM_RESOURCE_PREFIX +:+ in_program input |};
      {| claim_action := action_id self; claim_resource := COMMAND_RESOURCE_PREFIX +:+ command |}].

Definition plan_of (self : ExecTool) (program : string) (input : ExecInput) : Plan :=
  {| plan_program := program; plan_arguments := in_arguments input; plan_workspace := workspace self; plan_writable := writable self;
     plan_network := network self; plan_environment := full_environment self; plan_tmpfs_bytes := tmpfs_bytes self |}.

(** [invoke], up to what it makes of the run's end; [Waiting] where the run never ends. *)
Definition invoke (self : ExecTool) (arguments : Value) (cx : ExecutionContext) : M (Reading ToolOutcome) :=
  let! input := lift (parse self arguments) in
  let command := render (in_program input) (in_arguments input) in
  let! program := resolve (in_program input) (search_path self) in
  let! now := ask host_now in
  let (budget, from_deadline) := budget self cx now in
  let limits := match limits self with Some limits => limits | None => for_budget budget end in
  let! ended := run (sandbox self) (plan_of self program input) limits (in_stdin input) (max_output_bytes self) budget cx in
  match ended with
  | Waiting => ret Waiting
  | Ready (completed, _) =>
      let! completed := lift completed in
      if timed_out completed && from_deadline then throw (Timeout budget)
      else ret (Ready (report self (in_program input) command completed))
  end.

Definition EXEC_PROPERTIES (self : ExecTool) : Value :=
  json_object [
    "program" =: json_object ["type" =: VString "string"; "description" =: VString "The program to run: one bare name from the allowed list.";
                              "enum" =: VArray (map VString (programs self))];
    "arguments" =: json_object ["type" =: VString "array"; "items" =: jtype "string";
                                "description" =: VString "Each argument as its own string, unquoted and unsplit."];
    "stdin" =: jstring "Text to write to the command's standard input, if it reads any."].

Definition jnullable : Value := json_object ["type" =: VArray [VString "integer"; VString "null"]].

Definition spec (self : ExecTool) : ToolSpec :=
  {| spec_name := name self;
     spec_description :=
       "Runs one of a fixed set of programs and returns what it printed. The available programs are: " +:+ programs_text self +:+
       ". `program` is a bare name from that list, never a path; `arguments` is a list of separate arguments, not a command line — there is no shell, so quoting, globs, pipes, redirection and `&&` mean nothing here and must not be used. The command runs in the project working directory. " +:+
       (if writable self then "The working directory is writable." else "The working directory is read-only.") +:+ " " +:+
       (if network self then "The command has network access." else "The command has no network access.") +:+
       " Output over the size limit is truncated, and a command that does not finish in time is killed.";
     spec_input_schema := closed_object (EXEC_PROPERTIES self) [jrequired ["program"%string]];
     spec_output_schema := Some (closed_object
       (json_object (["program" =: jtype "string"; "command" =: jtype "string"; "exit_code" =: jnullable; "signal" =: jnullable;
                      "timed_out" =: jtype "boolean"; "sandboxed" =: jtype "boolean"; "stdout" =: jtype "string"; "stderr" =: jtype "string";
                      "stdout_truncated" =: jtype "boolean"; "stderr_truncated" =: jtype "boolean"; "stdout_lossy" =: jtype "boolean";
                      "stderr_lossy" =: jtype "boolean"; "error" =: jtype "string"]))
       [jrequired ["program"; "command"; "timed_out"]%string]);
     spec_required_permissions := [action_id self]; spec_read_only := false; spec_output_trust := Untrusted; spec_reach := ReachExternal |}.
End Tool.

(** ** A command's line says what will run *)

(** How a POSIX shell splits a line into words, for lines of plain characters, single quotes and
    escapes; any other character outside quotes means something to a shell, and no line of ours
    has one there. *)
Fixpoint words (quoted : bool) (word : option string) (s : string) : option (list string) :=
  match s with
  | EmptyString => if quoted then None else Some (match word with Some w => [w] | None => [] end)
  | String c s =>
      let extended := Some (default EmptyString word +:+ String c EmptyString) in
      if quoted then if Ascii.eqb c QUOTE_CHAR then words false word s else words true extended s
      else if Ascii.eqb c QUOTE_CHAR then words true (Some (default EmptyString word)) s
      else if Ascii.eqb c BLANK then match word with Some w => cons w <$> words false None s | None => words false None s end
      else if Ascii.eqb c BACKSLASH then
        match s with String d s => words false (Some (default EmptyString word +:+ String d EmptyString)) s | EmptyString => None end
      else if is_bare c then words false extended s else None
  end.

Definition shell_words (line : string) : option (list string) := words false None line.

Lemma words_quoted a : forall w s,
  words true (Some w) (replace_quotes a +:+ String QUOTE_CHAR s) = words false (Some (w +:+ a)) s.
Proof.
  induction a as [|c a IH]; intros w s; simpl; [by rewrite str_app_nil|]. destruct (Ascii.eqb_spec c QUOTE_CHAR) as [->|Hc]; simpl.
  - rewrite IH. by rewrite str_app_assoc.
  - rewrite (proj2 (Ascii.eqb_neq _ _) Hc), IH. by rewrite str_app_assoc.
Qed.

Lemma bare_plain c : is_bare c = true -> Ascii.eqb c QUOTE_CHAR = false /\ Ascii.eqb c BLANK = false /\ Ascii.eqb c BACKSLASH = false.
Proof. destruct c as [[] [] [] [] [] [] [] []]; vm_compute; intros; done. Qed.

Lemma words_bare a : forall w s, all_bytes is_bare a = true -> a <> EmptyString ->
  words false w (a +:+ s) = words false (Some (default EmptyString w +:+ a)) s.
Proof.
  induction a as [|c a IH]; intros w s; [done|]. simpl. rewrite andb_true_iff. intros [Hc Ha] _.
  destruct (bare_plain c Hc) as (-> & -> & ->). rewrite Hc. destruct (decide (a = EmptyString)) as [->|Hne]; [done|].
  rewrite IH by done. simpl. by rewrite str_app_assoc.
Qed.

(** A quoted word is read as a word of its own. *)
Lemma words_quote a s : words false None (quote a +:+ s) = words false (Some a) s.
Proof.
  unfold quote. destruct (negb (str_is_empty a) && all_bytes is_bare a) eqn:E.
  - apply andb_true_iff in E as [Hne Ha]. rewrite words_bare; [done|done|]. by destruct a.
  - change (String QUOTE_CHAR (replace_quotes a +:+ String QUOTE_CHAR EmptyString) +:+ s)
      with (String QUOTE_CHAR ((replace_quotes a +:+ String QUOTE_CHAR EmptyString) +:+ s)).
    rewrite str_app_assoc. change (String QUOTE_CHAR EmptyString +:+ s) with (String QUOTE_CHAR s). simpl. by rewrite words_quoted.
Qed.

Lemma words_finished w s : words false (Some w) (String BLANK s) = cons w <$> words false None s.
Proof. done. Qed.

(** What a line with some arguments already on it goes on to say. *)
Lemma words_pushed arguments : forall line before last,
  (forall s, words false None (line +:+ s) = app before <$> words false (Some last) s) ->
  words false None (push_arguments line arguments) = Some (before ++ last :: arguments).
Proof.
  induction arguments as [|a arguments IH]; intros line before last Hl; cbn [push_arguments].
  - rewrite <- (str_app_nil line), Hl. done.
  - rewrite (IH _ (before ++ [last]) a); [by rewrite <- app_assoc|]. intros s. rewrite str_app_assoc, Hl, str_app_assoc.
    change (words false (Some last) (String BLANK EmptyString +:+ (quote a +:+ s))) with (cons last <$> words false None (quote a +:+ s)).
    rewrite words_quote. destruct (words false (Some a) s); [simpl|done]. by rewrite <- app_assoc.
Qed.

Lemma render_words program arguments : shell_words (render program arguments) = Some (program :: arguments).
Proof. apply (words_pushed arguments (quote program) []). intros s. rewrite words_quote. by destruct (words false (Some program) s). Qed.

(** the line a command is shown and authorised as says what will run: read back the way a shell
    reads words, it is the program and its arguments, each as it was, with nothing outside the
    quotes a shell would act on.  So different commands have different lines. *)
Theorem line_reads_back (program : string) (arguments : list string) :
  shell_words (render program arguments) = Some (program :: arguments) /\
  forall program' arguments', render program arguments = render program' arguments' -> program = program' /\ arguments = arguments'.
Proof.
  split; [apply render_words|]. intros p l Heq. pose proof (render_words program arguments) as H. rewrite Heq, render_words in H. by injection H.
Qed.

(** ** What a sandbox is told

    The arguments of [bwrap] are options, each a word that takes a number of operands, up to a
    [--] or the first word that is no option. *)

(** The options in use, with the number of operands they are documented to take. *)
Definition OPTIONS : list (string * nat) :=
  [("--unshare-user", 0); ("--unshare-ipc", 0); ("--unshare-pid", 0); ("--unshare-uts", 0); ("--unshare-cgroup-try", 0);
   ("--unshare-net", 0); ("--hostname", 1); ("--die-with-parent", 0); ("--new-session", 0); ("--cap-drop", 1); ("--clearenv", 0);
   ("--setenv", 2); ("--ro-bind-try", 2); ("--ro-bind", 2); ("--bind", 2); ("--proc", 1); ("--dev", 1); ("--perms", 1); ("--size", 1);
   ("--tmpfs", 1); ("--chdir", 1)]%string%nat.

Section Reading.
  (** How many operands a word takes, if it is an option. *)
  Context (operands : string -> option nat).

Fixpoint read_options (wanted : option (string * list string * nat)) (args : list string) : option (list (string * list string) * list string) :=
  match args, wanted with
  | [], None => Some ([], [])
  | [], Some _ => None
  | arg :: args, Some (name, got, missing) =>
      match missing with
      | S (S missing) => read_options (Some (name, got ++ [arg], S missing)) args
      | _ => prod_map (cons (name, got ++ [arg])) id <$> read_options None args
      end
  | arg :: args', None =>
      if bool_decide (arg = "--"%string) then Some ([], args')
      else match operands arg with
           | None => Some ([], args)
           | Some O => prod_map (cons (arg, [])) id <$> read_options None args'
           | Some (S n) => read_options (Some (arg, [], S n)) args'
           end
  end.

Definition option_words (options : list (string * list string)) : list string := concat (map (fun o => fst o :: snd o) options).

Definition takes (o : string * list string) : Prop := operands (fst o) = Some (length (snd o)) /\ fst o <> "--"%string.

Lemma read_operands name l : forall got rest, l <> [] ->
  read_options (Some (name, got, length l)) (l ++ rest) = prod_map (cons (name, got ++ l)) id <$> read_options None rest.
Proof.
  induction l as [|x l IH]; intros got rest Hl; [done|]. destruct l as [|y l]; [done|].
  change (read_options (Some (name, got ++ [x], length (y :: l))) ((y :: l) ++ rest) = prod_map (cons (name, got ++ x :: y :: l)) id <$> read_options None rest).
  rewrite IH by done. by rewrite <- app_assoc.
Qed.

Lemma read_option o rest : takes o -> read_options None (fst o :: snd o ++ rest) = prod_map (cons o) id <$> read_options None rest.
Proof.
  destruct o as [name l]. intros [Ho Hn]. simpl in *. rewrite (bool_decide_eq_false_2 _ Hn), Ho. destruct l as [|x l]; [done|].
  exact (read_operands name (x :: l) [] rest ltac:(done)).
Qed.

Lemma read_words options rest : Forall takes options -> read_options None (option_words options ++ "--"%string :: rest) = Some (options, rest).
Proof.
  induction 1 as [|o options Ho _ IH]; [done|]. unfold option_words in *. cbn [map concat]. rewrite <- !app_comm_cons, <- app_assoc.
  rewrite read_option by done. by rewrite IH.
Qed.
End Reading.

(** What the options are. *)
Definition setenv_options (environment : list (string * string)) : list (string * list string) :=
  map (fun kv => ("--setenv"%string, [fst kv; snd kv])) environment.
Definition ro_options (paths : list string) : list (string * list string) := map (fun p => ("--ro-bind-try"%string, [p; p])) paths.

Local Abbreviation flag o := (o%string, []).

Definition planned_options (plan : Plan) : list (string * list string) :=
  [flag "--unshare-user"; flag "--unshare-ipc"; flag "--unshare-pid"; flag "--unshare-uts"; flag "--unshare-cgroup-try"] ++
  (if plan_network plan then [] else [flag "--unshare-net"]) ++
  [("--hostname", ["aik-sandbox"])%string; flag "--die-with-parent"; flag "--new-session"; ("--cap-drop", ["ALL"])%string; flag "--clearenv"] ++
  setenv_options (plan_environment plan) ++ ro_options (READ_ONLY_ROOTS ++ READ_ONLY_FILES ++ if plan_network plan then NETWORK_FILES else []) ++
  [("--proc", ["/proc"]); ("--dev", ["/dev"]); ("--perms", ["01777"]); ("--size", [fmt_u (plan_tmpfs_bytes plan)]); ("--tmpfs", ["/tmp"])]%string ++
  [(if plan_writable plan then "--bind" else "--ro-bind", [plan_workspace plan; WORKSPACE]); ("--chdir", [WORKSPACE])]%string.

Lemma option_words_app a b : option_words (a ++ b) = option_words a ++ option_words b.
Proof. unfold option_words. by rewrite map_app, concat_app. Qed.

Lemma setenv_words environment : setenv_arguments environment = option_words (setenv_options environment).
Proof. unfold setenv_arguments, option_words, setenv_options. by rewrite map_map. Qed.

Lemma ro_words paths : ro_bind_try paths = option_words (ro_options paths).
Proof. unfold ro_bind_try, option_words, ro_options. by rewrite map_map. Qed.

Lemma planned_words plan : namespace_arguments plan ++ filesystem_arguments plan = option_words (planned_options plan).
Proof.
  unfold namespace_arguments, filesystem_arguments, planned_options. rewrite !option_words_app, <- setenv_words.
  unfold ro_options. rewrite !map_app. fold (ro_options READ_ONLY_ROOTS). fold (ro_options READ_ONLY_FILES).
  rewrite !option_words_app, <- !ro_words. rewrite <- !app_assoc. by destruct (plan_network plan), (plan_writable plan).
Qed.

(** What an option shows of the host: the source, where it appears, and whether it can be written. *)
Definition shown_by (o : string * list string) : option (string * string * bool) :=
  match snd o with
  | [source; target] =>
      if bool_decide (fst o = "--bind"%string) then Some (source, target, true)
      else if bool_decide (fst o ∈ ["--ro-bind"; "--ro-bind-try"]%string) then Some (source, target, false) else None
  | _ => None
  end.

(** The variable an option sets. *)
Definition set_by (o : string * list string) : option (string * string) :=
  match snd o with [k; v] => if bool_decide (fst o = "--setenv"%string) then Some (k, v) else None | _ => None end.

Definition system_paths (network : bool) : list string := READ_ONLY_ROOTS ++ READ_ONLY_FILES ++ if network then NETWORK_FILES else [].

Lemma omap_shown_ro paths : omap shown_by (ro_options paths) = map (fun p => (p, p, false)) paths.
Proof. induction paths as [|p paths IH]; [done|]. exact (f_equal (cons (p, p, false)) IH). Qed.

Lemma omap_shown_setenv environment : omap shown_by (setenv_options environment) = [].
Proof. induction environment as [|kv environment IH]; [done|]. exact IH. Qed.

Lemma omap_set_ro paths : omap set_by (ro_options paths) = [].
Proof. induction paths as [|p paths IH]; [done|]. exact IH. Qed.

Lemma omap_set_setenv environment : omap set_by (setenv_options environment) = environment.
Proof. induction environment as [|[k v] environment IH]; [done|]. exact (f_equal (cons (k, v)) IH). Qed.

Lemma shown_planned plan : omap shown_by (planned_options plan) =
  map (fun p => (p, p, false)) (system_paths (plan_network plan)) ++ [(plan_workspace plan, WORKSPACE, plan_writable plan)].
Proof.
  unfold planned_options. rewrite !omap_app, omap_shown_setenv, omap_shown_ro. unfold system_paths.
  by destruct (plan_network plan), (plan_writable plan).
Qed.

Lemma set_planned plan : omap set_by (planned_options plan) = plan_environment plan.
Proof.
  unfold planned_options. rewrite !omap_app, omap_set_setenv, omap_set_ro. destruct (plan_network plan), (plan_writable plan); by rewrite app_nil_r.
Qed.

Lemma planned_flag plan name : (name, []) ∈ planned_options plan ->
  name ∈ ["--unshare-user"; "--unshare-ipc"; "--unshare-pid"; "--unshare-uts"; "--unshare-cgroup-try"; "--die-with-parent"; "--new-session"; "--clearenv"]%string \/
  plan_network plan = false /\ name = "--unshare-net"%string.
Proof.
  unfold planned_options, setenv_options, ro_options. rewrite !elem_of_app, !list_elem_of_fmap.
  destruct (plan_network plan) eqn:En; intros Ho; destruct_or?; destruct_and?;
    repeat match goal with H : exists _, _ |- _ => destruct H as [? [? ?]]; simplify_eq | H : _ ∈ [] |- _ => by apply not_elem_of_nil in H end;
    try (rewrite !elem_of_cons, elem_of_nil in *; set_solver).
Qed.
Section Sandboxed.
  Context (operands : string -> option nat).
  (** The manual of [bwrap] *)
  Context (documented : Forall (fun p => operands (fst p) = Some (snd p)) OPTIONS).

Lemma takes_documented o : bool_decide ((fst o, length (snd o)) ∈ OPTIONS) = true -> takes operands o.
Proof using documented.
  intros Ho%bool_decide_eq_true. rewrite Forall_forall in documented. split; [exact (documented _ Ho)|]. intros Hn. rewrite Hn in Ho.
  assert (Hno : Forall (fun p => fst p <> "--"%string) OPTIONS) by (by repeat constructor). rewrite Forall_forall in Hno. exact (Hno _ Ho eq_refl).
Qed.

Lemma planned_takes plan : Forall (takes operands) (planned_options plan).
Proof using documented.
  unfold planned_options, setenv_options, ro_options. rewrite !Forall_app, !Forall_map.
  split_and!; try (apply Forall_true; intros x; by apply takes_documented);
    destruct (plan_network plan), (plan_writable plan); repeat constructor; by apply takes_documented.
Qed.

Lemma command_reads binary plan :
  read_options operands None (cmd_args (command (Bubblewrap binary) plan)) = Some (planned_options plan, plan_program plan :: plan_arguments plan).
Proof using documented.
  change (cmd_args _) with (namespace_arguments plan ++ filesystem_arguments plan ++ ["--"%string; plan_program plan] ++ plan_arguments plan).
  rewrite app_assoc, planned_words. apply read_words, planned_takes.
Qed.

(** a sandbox is told what was planned, and nothing else: whatever the words of the plan are, its
    arguments read back as the options they were meant as, and then the program with its
    arguments.  The child is shown the system paths read-only - those of the network only if it
    has one - and the workspace, last and at its place, which is the one thing it can write, if
    it may; its environment is cleared and then holds what was planned; and it shares the network
    only if it was granted, and none of the other namespaces. *)
Theorem sandbox_is_as_planned (binary : string) (plan : Plan) :
  exists options,
    read_options operands None (cmd_args (command (Bubblewrap binary) plan)) = Some (options, plan_program plan :: plan_arguments plan) /\
    (forall source target w, (source, target, w) ∈ omap shown_by options <->
       (target = source /\ w = false /\ source ∈ system_paths (plan_network plan)) \/
       (source = plan_workspace plan /\ target = WORKSPACE /\ w = plan_writable plan)) /\
    last (omap shown_by options) = Some (plan_workspace plan, WORKSPACE, plan_writable plan) /\
    (exists cleared rest, options = cleared ++ ("--clearenv"%string, []) :: rest /\ omap set_by cleared = [] /\
       omap set_by rest = plan_environment plan) /\
    (forall name, name ∈ ["--unshare-user"; "--unshare-ipc"; "--unshare-pid"; "--unshare-uts"; "--die-with-parent"; "--new-session"]%string ->
       (name, []) ∈ options) /\
    (("--unshare-net"%string, []) ∈ options <-> plan_network plan = false) /\
    ("--cap-drop", ["ALL"])%string ∈ options /\ ("--chdir"%string, [WORKSPACE]) ∈ options.
Proof using documented.
  exists (planned_options plan). split; [apply command_reads|]. rewrite shown_planned, last_snoc. split_and!.
  - intros source target w. rewrite elem_of_app, list_elem_of_fmap, list_elem_of_singleton. split.
    + intros [(p & [= -> -> ->] & Hp)|[= -> -> ->]]; [left|right]; done.
    + intros [(-> & -> & Hp)|(-> & -> & ->)]; [left; by exists source|by right].
  - done.
  - pose proof (set_planned plan) as Hset. unfold planned_options in *. destruct (plan_network plan).
    + by eexists [_; _; _; _; _; _; _; _; _], _.
    + by eexists [_; _; _; _; _; _; _; _; _; _], _.
  - intros name Hname. unfold planned_options. rewrite !elem_of_app. set_solver.
  - split; [by intros [Hin|[? _]]%planned_flag; [set_solver|]|]. intros Hn. unfold planned_options. rewrite Hn. set_solver.
  - unfold planned_options. rewrite !elem_of_app. set_solver.
  - unfold planned_options. rewrite !elem_of_app. set_solver.
Qed.
End Sandboxed.

(** ** What is kept of a stream *)

(** What a stream carries until it ends or breaks. *)
Fixpoint carried (reads : list (result BoxError string)) : string :=
  match reads with
  | [] | Err _ :: _ | Ok EmptyString :: _ => EmptyString
  | Ok chunk :: reads => chunk +:+ carried reads
  end.

Lemma take_bytes_len s : forall n, 0 <= n -> str_len (take_bytes n s) = Z.min n (str_len s).
Proof.
  induction s as [|c s IH]; intros n Hn; simpl; [unfold str_len; simpl; lia|]. destruct (Z.leb_spec n 0); [unfold str_len; simpl; lia|].
  unfold str_len in *. simpl. rewrite Nat2Z.inj_succ, IH by lia. lia.
Qed.

Lemma take_bytes_app a : forall n b, 0 <= n -> take_bytes n (a +:+ b) = take_bytes n a +:+ take_bytes (n - str_len a) b.
Proof.
  induction a as [|c a IH]; intros n b Hn; [by rewrite Z.sub_0_r|]. change (String c a +:+ b) with (String c (a +:+ b)). simpl.
  destruct (Z.leb_spec n 0).
  - assert (n - str_len (String c a) <= 0) by (unfold str_len; simpl; lia). destruct b; simpl; [done|]. by rewrite (proj2 (Z.leb_le _ _)).
  - rewrite IH by lia. change (String c (take_bytes (n - 1) a) +:+ ?x) with (String c (take_bytes (n - 1) a +:+ x)).
    do 3 f_equal. unfold str_len. simpl. lia.
Qed.

Lemma take_bytes_all s n : str_len s <= n -> take_bytes n s = s.
Proof.
  revert n. induction s as [|c s IH]; intros n Hn; [done|]. unfold str_len in *. simpl in *. rewrite (proj2 (Z.leb_gt _ _)) by lia.
  f_equal. apply IH. lia.
Qed.

Lemma capture_loop_spec cap reads : 0 <= cap -> forall kept truncated, str_len kept <= cap ->
  capture_loop reads cap kept truncated =
  (kept +:+ take_bytes (cap - str_len kept) (carried reads), truncated || (cap <? str_len kept + str_len (carried reads))).
Proof.
  intros Hcap. assert (Hend : forall kept truncated, str_len kept <= cap ->
    (kept, truncated) = (kept +:+ take_bytes (cap - str_len kept) EmptyString, truncated || (cap <? str_len kept + str_len EmptyString))).
  { intros kept truncated Hk. rewrite str_app_nil, (proj2 (Z.ltb_ge _ _)), orb_false_r by (unfold str_len at 2; simpl; lia). done. }
  induction reads as [|[chunk|e] reads IH]; intros kept truncated Hk; [by apply Hend| |by apply Hend].
  destruct chunk as [|c chunk]; [by apply Hend|]. set (data := String c chunk).
  assert (Hd : 1 <= str_len data) by (unfold str_len, data; simpl; lia). change (carried (Ok data :: reads)) with (data +:+ carried reads).
  cbn [capture_loop]. change (match data with EmptyString => ?a | String _ _ => ?b end) with b. clearbody data. unfold sat_sub. pose proof (str_len_nonneg (carried reads)) as Hc.
  rewrite (Z.max_l (cap - str_len kept)) by lia. destruct (Z.eqb_spec (cap - str_len kept) 0) as [H0|H0].
  - rewrite IH by done. rewrite str_len_app. rewrite (proj2 (Z.ltb_lt cap (str_len kept + (_ + _)))) by lia. rewrite !orb_true_r.
    rewrite H0. by destruct (carried reads), data.
  - rewrite IH by (rewrite str_len_app, take_bytes_len; lia). rewrite str_app_assoc, !str_len_app, take_bytes_len by lia. f_equal.
    + f_equal. rewrite (take_bytes_app data) by lia. destruct (Z.le_gt_cases (str_len data) (cap - str_len kept)).
      * rewrite Z.min_l, Z.min_id, (take_bytes_all data (str_len data)), (take_bytes_all data (cap - _)) by lia. do 2 f_equal; lia.
      * rewrite Z.min_r by lia. f_equal. rewrite Z.min_l by lia. destruct (carried reads); [done|]. simpl.
        by rewrite !(proj2 (Z.leb_le _ 0)) by lia.
    + rewrite <- orb_assoc. f_equal. destruct (Z.ltb_spec (cap - str_len kept) (str_len data)).
      * by rewrite (proj2 (Z.ltb_lt cap (str_len kept + (_ + _)))) by lia.
      * simpl. f_equal. lia.
Qed.

(** a child's output costs no more than the cap: what is kept of a stream is its first [cap] bytes,
    it is called truncated exactly when there was more, and lossy exactly when those bytes are
    not text; and what is shown is always text, and the very bytes where it is not called lossy. *)
Theorem capture_keeps_the_first (reads : list (result BoxError string)) (cap : Z) :
  0 <= cap ->
  let kept := take_bytes cap (carried reads) in
  let captured := capture reads cap in
  str_len kept = Z.min cap (str_len (carried reads)) /\
  cap_truncated captured = (cap <? str_len (carried reads)) /\
  cap_lossy captured = negb (valid_utf8 kept) /\
  valid_utf8 (cap_text captured) = true /\
  (cap_lossy captured = false -> cap_text captured = kept).
Proof.
  intros Hcap kept captured. unfold captured, capture. rewrite capture_loop_spec by done. rewrite Z.sub_0_r.
  change (EmptyString +:+ ?x) with x. change (str_len EmptyString + ?x) with (0 + x). rewrite Z.add_0_l. fold kept.
  split; [by apply take_bytes_len|]. destruct (valid_utf8 kept) eqn:E; split_and!; try done. apply lossy_valid.
Qed.

(** ** Limits only close in *)

Class ForkedLaws (C : Type) `{Forked C} := {
  limit_of : Resource -> C -> Rlimit;
  in_own_session : C -> bool;
  getrlimit_law r c c' l : getrlimit r c = (c', Ok l) -> l = limit_of r c /\ (forall r, limit_of r c' = limit_of r c);
  setrlimit_law r l c c' : setrlimit r l c = (c', Ok tt) -> limit_of r c' = l /\ (forall r', r' <> r -> limit_of r' c' = limit_of r' c);
  setsid_law c c' : setsid c = (c', Ok tt) -> in_own_session c' = true /\ (forall r, limit_of r c' = limit_of r c);
}.

Section Closing.
  Context {C : Type} `{ForkedLaws C}.

Definition limit_for (limits : Limits) (r : Resource) : option Z :=
  match r with
  | RLIMIT_CPU => cpu_seconds limits
  | RLIMIT_FSIZE => file_size_bytes limits
  | RLIMIT_NOFILE => open_files limits
  | RLIMIT_AS => address_space_bytes limits
  | RLIMIT_NPROC => processes limits
  | RLIMIT_CORE => Some 0
  end.

(** A limit after it was set, from before. *)
Definition lowered (value : option Z) (before : Rlimit) : Rlimit :=
  match value with Some v => {| rlim_cur := ceiling v before; rlim_max := ceiling v before |} | None => before end.

Lemma set_limit r value c c' : set r value c = (c', Ok tt) ->
  limit_of r c' = lowered value (limit_of r c) /\ forall r', r' <> r -> limit_of r' c' = limit_of r' c.
Proof.
  unfold set. destruct value as [v|]; [|by intros [= <-]]. unfold bind. destruct (getrlimit r c) as [c1 [l|e]] eqn:Eg; [|done].
  apply getrlimit_law in Eg as [-> Hg]. intros [Hs Ho]%setrlimit_law. rewrite Hs. split; [done|]. intros r' Hr. by rewrite Ho, Hg.
Qed.

(** a child that starts is held to its limits: when all of them could be set, every resource
    that was to be limited has one limit, hard and soft, which is neither more than was asked nor more than the
    hard limit it had; nothing else has changed, no core is written, and the child is in a session of its own. *)
Theorem limits_are_applied (limits : Limits) (c c' : C) :
  apply_limits limits c = (c', Ok tt) ->
  in_own_session c' = true /\
  forall r, limit_of r c' = lowered (limit_for limits r) (limit_of r c) /\
    (forall v, limit_for limits r = Some v -> 0 <= rlim_max (limit_of r c) <= RLIM_INFINITY -> 0 <= v <= u64_max ->
       rlim_cur (limit_of r c') = rlim_max (limit_of r c') /\ 0 <= rlim_max (limit_of r c') <= Z.min v (rlim_max (limit_of r c))).
Proof.
  intros Ha. assert (Hl : in_own_session c' = true /\ forall r, limit_of r c' = lowered (limit_for limits r) (limit_of r c)).
  { unfold apply_limits in Ha. repeat (let c1 := fresh "c" in let r1 := fresh "r" in let E := fresh "E" in
      unfold bind at 1 in Ha; match type of Ha with context [set ?r ?v ?c0] => destruct (set r v c0) as [c1 [[]|r1]] eqn:E end; [|done];
      apply set_limit in E as [? E]).
    apply setsid_law in Ha as [Hs Hr]. split; [done|]. intros r. rewrite Hr.
    destruct r; simpl; repeat match goal with E : forall r', r' <> _ -> limit_of r' ?c = _ |- context [limit_of ?r ?c] => rewrite (E r) by done
      | E : limit_of ?r ?c = _ |- context [limit_of ?r ?c] => rewrite E end; reflexivity. }
  destruct Hl as [Hs Hl]. split; [done|]. intros r. split; [apply Hl|]. intros v Hv Hmax Hu. rewrite Hl, Hv. simpl. split; [done|].
  unfold ceiling. unfold RLIM_INFINITY in *. destruct (Z.eqb_spec (rlim_max (limit_of r c)) u64_max); lia.
Qed.
End Closing.

(** ** One run ends, and leaves nothing behind *)

Section Runs.
  Context {W : Type} `{ProcessHost W}.

Definition cancel_time (cx : ExecutionContext) (p : Process) : option Duration := if cancellation cx then Some 0 else cancelled_at p.

Lemma race_spec cancelled_at budget finishes :
  match race cancelled_at budget finishes with
  | Race_cancelled => exists t, cancelled_at = Some t /\ t <= budget /\ before t finishes = true
  | Race_timeout => before budget finishes = true /\ forall t, cancelled_at = Some t -> budget < t
  | Race_finished => exists t, finishes = Some t /\ t < budget /\ forall t', cancelled_at = Some t' -> t < t'
  end.
Proof.
  assert (Hf : forall t, before t finishes = false -> exists u, finishes = Some u /\ u < t).
  { intros t Ht. destruct finishes as [u|]; [|done]. exists u. split; [done|]. simpl in Ht. by apply Z.leb_gt. }
  unfold race. destruct cancelled_at as [t|].
  - destruct (Z.leb_spec t budget), (before t finishes) eqn:Et; simpl.
    + by exists t.
    + apply Hf in Et as (u & -> & Hu). simpl. rewrite (proj2 (Z.leb_gt _ _)) by lia. exists u. split_and!; [done|lia|intros ? [= <-]; lia].
    + destruct (before budget finishes) eqn:Eb; [split; [done|intros ? [= <-]; lia]|].
      apply Hf in Eb as (u & -> & Hu). exists u. split_and!; [done|lia|intros ? [= <-]; lia].
    + destruct (before budget finishes) eqn:Eb; [split; [done|intros ? [= <-]; lia]|].
      apply Hf in Eb as (u & -> & Hu). exists u. split_and!; [done|lia|intros ? [= <-]; lia].
  - destruct (before budget finishes) eqn:Eb; [done|]. apply Hf in Eb as (u & -> & Hu). by exists u.
Qed.

Lemma run_events sandbox plan limits stdin max_output budget cx (s s' : Host W) r :
  run sandbox plan limits stdin max_output budget cx s = (s', r) ->
  events s' = events s \/
  exists p tail, events s' = events s ++ Spawned {| sp_command := command sandbox plan; sp_stdin := stdin; sp_limits := limits |} p :: tail /\
    (tail = [] \/ tail = [Killed_group (pid p)]).
Proof.
  unfold run. set (sp := {| sp_command := _ |}). unfold ask, bind at 1. destruct (spawn sp (host s)) as [w [p|e]]; [|by intros [= <- <-]; left].
  unfold happened, modify, bind, ret. intros Hr. right. exists p.
  destruct (race _ _ _); [|destruct (closes_after_kill p)|]; simpl in Hr; injection Hr as <- <-; simpl; rewrite <- ?app_assoc; eauto.
Qed.

(** a run is supervised to its end: a child that could be started finishes by itself before its budget
    and its caller's patience run out, and is reported as it ended; or its whole group is killed,
    as soon as the caller cancels - who is told no more than that - or the budget is used up, and
    then the report says so.  The call returns within its budget and the time the streams take to
    close once the group is dead, and only a process that left the group and keeps them open can
    hold it up. *)
Theorem run_is_supervised (sandbox : Sandbox) (plan : Plan) (limits : Limits) (stdin : option string) (max_output : Z) (budget : Duration)
    (cx : ExecutionContext) (s s' : Host W) (r : Result (Reading (Result Completed * Duration))) :
  run sandbox plan limits stdin max_output budget cx s = (s', r) ->
  let sp := {| sp_command := command sandbox plan; sp_stdin := stdin; sp_limits := limits |} in
  match spawn sp (host s) with
  | (w, Err e) => events s' = events s /\ r = Err (Error_wrap ("starting `" +:+ path_display (plan_program plan) +:+ "`") e)
  | (w, Ok p) =>
      (exists t, finishes p = Some t /\ t < budget /\ (forall u, cancel_time cx p = Some u -> t < u) /\
         events s' = events s ++ [Spawned sp p] /\ r = Ok (Ready (completed (by_itself p) max_output false, t))) \/
      (exists t, cancel_time cx p = Some t /\ t <= budget /\ before t (finishes p) = true /\
         events s' = events s ++ [Spawned sp p; Killed_group (pid p)] /\ r = Ok (Ready (Err Cancelled, t))) \/
      ((forall u, cancel_time cx p = Some u -> budget < u) /\ before budget (finishes p) = true /\
         events s' = events s ++ [Spawned sp p; Killed_group (pid p)] /\
         r = Ok match closes_after_kill p with
                | Some d => Ready (completed (killed p) max_output true, budget + d)
                | None => Waiting
                end)
  end.
Proof.
  intros Hr sp. unfold run in Hr. fold sp in Hr. unfold ask, bind at 1 in Hr. destruct (spawn sp (host s)) as [w [p|e]] eqn:Es; [|by injection Hr as <- <-].
  unfold happened, modify, bind, ret in Hr. fold (cancel_time cx p) in Hr. pose proof (race_spec (cancel_time cx p) budget (finishes p)) as Hs.
  destruct (race _ _ _); [|destruct (closes_after_kill p)|]; simpl in Hr; injection Hr as <- <-; simpl; rewrite <- ?app_assoc.
  - destruct Hs as (t & Ht & Hb & Hf). right; left. exists t. by rewrite Ht.
  - destruct Hs as [Hb Hc]. by right; right.
  - destruct Hs as [Hb Hc]. by right; right.
  - destruct Hs as (t & Ht & Hb & Hc). left. exists t. by rewrite Ht.
Qed.
End Runs.

(** ** What runs is what was claimed *)

(** A usable name is one component of a path, whatever it is joined to. *)
Lemma name_is_component raw name : validate_name raw = Ok name ->
  name = raw /\ forall directory, is_absolute directory = true -> components (path_join directory raw) = components directory ++ [Normal raw].
Proof.
  unfold validate_name. destruct (str_is_empty raw) eqn:Ee; [done|]. destruct (bool_decide (raw = "."%string)) eqn:E1; [done|]. simpl.
  destruct (bool_decide (raw = ".."%string)) eqn:E2; [done|]. destruct (starts_with raw "-"); [done|].
  destruct (all_bytes is_name_char raw) eqn:Ea; [|done]. intros [= <-]. split; [done|]. intros directory Hd.
  apply bool_decide_eq_false in E1, E2.
  assert (Hs : split_char SLASH_CHAR raw = [raw]).
  { apply split_char_none. eapply all_bytes_impl, Ea. intros c. destruct c as [[] [] [] [] [] [] [] []]; vm_compute; done. }
  assert (Habs : is_absolute raw = false).
  { unfold is_absolute. destruct (starts_with raw "/") eqn:E; [|done]. apply starts_with_spec in E as [t ->].
    rewrite all_bytes_app in Ea. done. }
  assert (Hne : raw <> EmptyString) by (by destruct raw).
  rewrite components_join; [|done|by unfold plain_start; rewrite Hs|by destruct directory]. f_equal. unfold components. rewrite Habs, Hs.
  unfold segment, no_segment. by rewrite !bool_decide_eq_false_2.
Qed.

Section Claimed.
  Context {W : Type} `{ProcessHost W} (error_text : Error -> string) (io_text : BoxError -> string) (serde_refusal : Value -> string).

Lemma resolve_run name path : forall (s s' : Host W) r, resolve name path s = (s', r) -> events s' = events s /\
  match r with
  | Ok program => exists directory w w', directory ∈ path /\ canonicalize (path_join directory name) w = (w', Ok program)
  | Err _ => True
  end.
Proof.
  induction path as [|directory path IH]; intros s s' r Hr; cbn [resolve] in Hr; [by injection Hr as <- <-|].
  unfold is_executable_file, ask, bind in Hr. destruct (metadata _ (host s)) as [w found]. cbn [ret] in Hr.
  destruct (negb _) in Hr.
  - apply IH in Hr as [He Hr]. split; [done|]. destruct r as [program|e]; [|done]. destruct Hr as (d & w1 & w2 & Hd & Hc). exists d, w1, w2. by split; [right|].
  - simpl in Hr. destruct (canonicalize _ w) as [w' [program|e]] eqn:Ec; injection Hr as <- <-; simpl; (split; [done|]); [|done].
    exists directory, w, w'. split; [left|done].
Qed.

Lemma parse_input self arguments input : parse serde_refusal self arguments = Ok input ->
  exec_input arguments = Some input /\ in_program input ∈ programs self /\ validate_name (in_program input) = Ok (in_program input).
Proof.
  unfold parse. destruct (exec_input arguments) as [i|]; [|done]. intros Hp. apply result_bind_ok in Hp as ([] & Hv & [= ->]). split; [done|].
  unfold validate in Hv. apply result_bind_ok in Hv as (name & Hn & Hv). pose proof (proj1 (name_is_component _ _ Hn)) as ->.
  case_bool_decide; [|done]. done.
Qed.

End Claimed.

(** ** Where a name is found, and what is reported *)

Section Found.
  Context {W : Type} `{ProcessHost W}.

(** A host that does not change while it is looked at. *)
Definition steady : Prop := forall path w, fst (metadata path w) = w.

Definition executable (w : W) (path : string) : bool :=
  match snd (metadata path w) with Some (is_file, mode) => is_file && negb (Z.land mode 73 =? 0) | None => false end.

(** a name means the first executable file of that name along the search path, links resolved; and
    where there is none the call is refused. *)
Theorem first_executable_is_found (name : string) (path : list string) (s : Host W) :
  steady ->
  snd (resolve name path s) =
    match List.find (fun directory => executable (host s) (path_join directory name)) path with
    | Some directory =>
        map_err (Error_wrap ("resolving `" +:+ path_display (path_join directory name) +:+ "`"))
          (snd (canonicalize (path_join directory name) (host s)))
    | None => Err (NotFound "program" name)
    end.
Proof.
  intros Hsteady. induction path as [|directory path IH]; [done|]. cbn [resolve List.find]. unfold is_executable_file, ask, bind at 2.
  unfold executable at 1. pose proof (Hsteady (path_join directory name) (host s)) as Hw. unfold bind at 1.
  destruct (metadata _ (host s)) as [w found]. simpl in Hw. subst w. cbn [snd ret].
  destruct (match found with Some (is_file, mode) => _ | None => false end); cbn [negb].
  - unfold bind, lift. simpl. by destruct (canonicalize _ (host s)) as [w r].
  - rewrite <- IH. by destruct s.
Qed.
End Found.

(** a report says how the command ended: it is an error exactly when the command was killed for its
    time, was ended by a signal, or exited with another status than zero; and it shows the
    line that was authorised, the status, and what was kept of each stream, marked where it was
    cut or mended. *)
Theorem report_says_how_it_ended (self : ExecTool) (program line : string) (completed : Completed) :
  let outcome := report self program line completed in
  (is_error outcome = false <-> timed_out completed = false /\ code completed = Some 0) /\
  Value_get (output outcome) "command" = Some (VString line) /\
  Value_get (output outcome) "exit_code" = Some (jopt (code completed)) /\
  Value_get (output outcome) "signal" = Some (jopt (signal completed)) /\
  Value_get (output outcome) "timed_out" = Some (VBool (timed_out completed)) /\
  Value_get (output outcome) "stdout" = Some (VString (cap_text (stdout completed))) /\
  Value_get (output outcome) "stderr" = Some (VString (cap_text (stderr completed))) /\
  Value_get (output outcome) "stdout_truncated" = Some (VBool (cap_truncated (stdout completed))) /\
  Value_get (output outcome) "stderr_truncated" = Some (VBool (cap_truncated (stderr completed))) /\
  (Value_get (output outcome) "error" = None <-> is_error outcome = false).
Proof.
  intros outcome. unfold outcome, report, succeeded. destruct (timed_out completed); simpl;
    [|case_bool_decide as Hc; simpl]; (split; [split; [done|by intros [? ?]]|]); split_and!; (reflexivity || done).
Qed.

Module Demo.

Definition quick : Process :=
  {| pid := 7; cancelled_at := None; finishes := Some 5;
     by_itself := {| status := Ok (Some 0, None); out_reads := [Ok "hello"%string]; err_reads := [] |};
     closes_after_kill := None; killed := {| status := Ok (None, Some 9); out_reads := []; err_reads := [] |} |}.

(** It left its group, and keeps its streams open. *)
Definition escaped : Process :=
  {| pid := 7; cancelled_at := None; finishes := None; by_itself := by_itself quick; closes_after_kill := None; killed := killed quick |}.

(** A host whose [ls] and [busybox] are one file, and whose children all turn out alike. *)
Definition toolbox (p : Process) : ProcessHost unit := {|
  canonicalize path w := (w, Ok (if starts_with path "/usr/bin/" then "/bin/busybox" else path)%string);
  is_dir _ w := (w, true);
  metadata path w := (w, if starts_with path "/usr/bin/" then Some (true, 493) else None);
  host_now w := (w, 0);
  spawn _ w := (w, Ok p);
  run_output _ _ w := (w, Ok (true, EmptyString, "bubblewrap 0.9.0", EmptyString)%string);
|}.

#[local] Instance quick_toolbox : ProcessHost unit := toolbox quick.

Definition box (names : list string) : ExecTool :=
  match snd (ExecTool_new (fun _ => EmptyString) (fun _ => EmptyString) "/home/me" (Bubblewrap "/usr/bin/bwrap") names (Build_Host tt [])) with
  | Ok tool => tool
  | Err _ => {| name := EmptyString; action_id := EmptyString; workspace := EmptyString; programs := []; sandbox := Unconfined; search_path := [];
                search_path_raw := EmptyString; writable := false; network := false; timeout := 0; max_output_bytes := 0; max_arguments := 0;
                max_argument_bytes := 0; max_stdin_bytes := 0; tmpfs_bytes := 0; limits := None; environment := [] |}
  end.

Definition a_call (program : string) : Value :=
  json_object [("program", VString program); ("arguments", VArray [VString "sh"; VString "-c"; VString "rm -r ."])]%string.

Definition a_context : ExecutionContext := {| correlation := "c"; principal := None; deadline := Some 20; cancellation := false; attributes := [] |}.

Definition started (names : list string) (program : string) : Host unit * Result (Reading ToolOutcome) :=
  invoke (fun _ => EmptyString) (box names) (a_call program) a_context (Build_Host tt []).

Definition spawns (l : list HostEvent) : list Spawn := omap (fun e => match e with Spawned s _ => Some s | Killed_group _ => None end) l.

(** A name that is a link is run under the name of what it links to: on a host where one binary
    is many programs, the first argument then says which of them runs, and a tool that allows
    [ls] alone starts what a tool that allows all of them would. *)
Lemma link_runs_another_program :
  programs (box ["ls"%string]) = ["ls"%string] /\
  spawns (events (fst (started ["ls"%string] "ls"))) = spawns (events (fst (started ["busybox"%string] "busybox"))) /\
  map (fun s => rev (take 4 (rev (cmd_args (sp_command s))))) (spawns (events (fst (started ["ls"%string] "ls")))) = [["/bin/busybox"; "sh"; "-c"; "rm -r ."]%string].
Proof. vm_compute. done. Qed.

(** The search path is cleaned for looking programs up, and given to the child as it was. *)
Lemma relative_path_reaches_child :
  let tool := with_search_path "bin:/usr/bin" (box ["ls"%string]) in
  search_path tool = ["/usr/bin"%string] /\ ("PATH", "bin:/usr/bin")%string ∈ full_environment tool.
Proof. split; [reflexivity|]. by left. Qed.

(** A forked child: its limits, and whether it has a session of its own. *)
Definition Child : Type := (Resource -> Rlimit) * bool.

#[local] Instance forked : Forked Child := {
  getrlimit r c := (c, Ok (fst c r));
  setrlimit r l c := ((fun r' => if decide (r' = r) then l else fst c r', snd c), Ok tt);
  setsid c := ((fst c, true), Ok tt);
}.

#[local, refine] Instance forked_laws : ForkedLaws Child := { limit_of r c := fst c r; in_own_session c := snd c }.
Proof.
  - by intros r c c' l [= <- <-].
  - intros r l c c' [= <-]. simpl. split; [by rewrite decide_True|]. intros r' Hr. by rewrite decide_False.
  - by intros c c' [= <-].
Defined.

Definition a_child : Child := (fun _ => {| rlim_cur := 128; rlim_max := 4096 |}, false).

(** A parent that has lowered its own soft limit does not stay lower: the soft limit is set to
    what was asked, under the hard limit only. *)
Lemma soft_limit_is_raised :
  rlim_cur (limit_of RLIMIT_NOFILE a_child) = 128 /\
  rlim_cur (limit_of RLIMIT_NOFILE (fst (apply_limits (for_budget 1500000000) a_child))) = 256.
Proof. vm_compute. done. Qed.

Definition a_plan : Plan := plan_of (box ["ls"%string]) "/usr/bin/ls" {| in_program := "ls"; in_arguments := ["--"; "--bind"]%string; in_stdin := None |}.

(** The wait for the streams after the kill has no end of its own: a process that has left the group
    and holds one open keeps the call from returning, long past its budget. *)
Lemma escaped_process_holds_the_call :
  snd (run (H := toolbox escaped) Unconfined a_plan (for_budget 5) None 10 5 a_context (Build_Host tt [])) = Ok Waiting.
Proof. reflexivity. Qed.

Lemma line_reads_back_example : render "git" ["commit"; "-m"; "it's done"; EmptyString]%string = ("git commit -m 'it'" +:+ String BACKSLASH "''s done' ''")%string.
Proof. reflexivity. Qed.

(** The documented operands, for every option in use. *)
Definition manual (word : string) : option nat := snd <$> List.find (fun p => String.eqb (fst p) word) OPTIONS.

Lemma sandbox_is_as_planned_witness :
  Forall (fun p => manual (fst p) = Some (snd p)) OPTIONS /\
  exists options, read_options manual None (cmd_args (command (Bubblewrap "/usr/bin/bwrap") a_plan)) = Some (options, ["/usr/bin/ls"; "--"; "--bind"]%string).
Proof.
  assert (Hm : Forall (fun p => manual (fst p) = Some (snd p)) OPTIONS) by (by repeat constructor). split; [done|].
  destruct (sandbox_is_as_planned manual Hm "/usr/bin/bwrap" a_plan) as (options & Ho & _). by exists options.
Defined.

Lemma capture_keeps_the_first_witness :
  0 <= 4 /\ cap_truncated (capture [Ok "abc"; Ok "def"]%string 4) = true /\ cap_text (capture [Ok "abc"; Ok "def"]%string 4) = "abcd"%string.
Proof.
  split; [lia|]. destruct (capture_keeps_the_first [Ok "abc"; Ok "def"]%string 4 ltac:(lia)) as (_ & Ht & Hl & _ & Hk).
  split; [exact Ht|]. apply Hk. rewrite Hl. reflexivity.
Defined.

Lemma limits_are_applied_witness :
  apply_limits (for_budget 1500000000) a_child = (fst (apply_limits (for_budget 1500000000) a_child), Ok tt) /\
  in_own_session (fst (apply_limits (for_budget 1500000000) a_child)) = true.
Proof. split; [reflexivity|]. by apply (limits_are_applied (for_budget 1500000000) a_child). Defined.

Lemma run_is_supervised_witness :
  exists s' r, run (H := toolbox escaped) Unconfined a_plan (for_budget 5) None 10 5 a_context (Build_Host tt []) = (s', r) /\
    events s' = [Spawned {| sp_command := command Unconfined a_plan; sp_stdin := None; sp_limits := for_budget 5 |} escaped; Killed_group 7] /\ r = Ok Waiting.
Proof.
  eexists _, _. split; [apply surjective_pairing|].
  pose proof (run_is_supervised (H := toolbox escaped) Unconfined a_plan (for_budget 5) None 10 5 a_context (Build_Host tt []) _ _ (surjective_pairing _)) as Hs.
  simpl in Hs. destruct Hs as [(t & ? & _)|[(t & ? & _)|(_ & _ & He & Hr)]]; [done|done|]. by split.
Defined.


Lemma first_executable_is_found_witness :
  steady (W := unit) /\ snd (resolve "ls" ["/bin"; "/usr/bin"]%string (Build_Host tt [])) = Ok "/bin/busybox"%string.
Proof.
  assert (Hs : steady (W := unit)) by (by intros path []). split; [done|]. rewrite (first_executable_is_found _ _ _ Hs). reflexivity.
Defined.
End Demo.
