(* ===== verification/Fs.v ===== *)
(** * Fs: the filesystem tools ([crates/fs])

    Reading, listing and writing under one root.  The file system is a class of system calls over
    a world that may change between any two of them; every call that succeeded is recorded, so
    that the theorems can say what was looked at before anything was read or written. *)

From S2P Require Import Prelude Base Trust Tools Serde Text Paths.

(** ** System calls *)

Inductive IoKind := Io_NotFound | Io_NotADirectory | Io_Loop | Io_IsADirectory | Io_Other.

Record IoFailure := { io_kind : IoKind; io_error : BoxError }.

Record Stat := { st_is_file : bool; st_len : Z; st_nlink : Z }.

Inductive FileType := Type_Symlink | Type_Directory | Type_File | Type_Other.

Record DirEntry := { entry_file_name : string; entry_id : Z }.

(** How the [select!] around a blocking task turned out. *)
Inductive Selected := Sel_cancelled | Sel_timeout | Sel_joined.

Class FileSystem (W : Type) := {
  canonicalize : string -> W -> W * result IoFailure string;
  is_dir : string -> W -> W * bool;
  (** [O_RDONLY | O_NOFOLLOW | O_CLOEXEC], and the same with [O_DIRECTORY] *)
  open_read : string -> W -> W * result IoFailure Z;
  open_directory : string -> W -> W * result IoFailure Z;
  (** [openat] with [O_WRONLY | O_CREAT | O_NOFOLLOW | O_CLOEXEC | O_NONBLOCK] *)
  open_at : Z -> string -> Z -> W -> W * result IoFailure Z;
  (** [read_link("/proc/self/fd/...")] *)
  real_path : Z -> W -> W * result IoFailure string;
  fstat : Z -> W -> W * result IoFailure Stat;
  (** [take(n).read_to_end] *)
  read_up_to : Z -> Z -> W -> W * result IoFailure string;
  write_all : Z -> string -> W -> W * result IoFailure unit;
  set_len : Z -> Z -> W -> W * result IoFailure unit;
  sync_all : Z -> W -> W * result IoFailure unit;
  (** [read_dir("/proc/self/fd/...")] *)
  read_dir : Z -> W -> W * result IoFailure (list DirEntry);
  file_type : DirEntry -> W -> W * result IoFailure FileType;
  entry_len : DirEntry -> W -> W * option Z;
  fs_now : W -> W * Timestamp;
  select : Duration -> W -> W * Selected;
}.

Inductive FsCall :=
  | Resolved (path real : string)
  | Opened (path : string) (fd : Z)
  | Opened_dir (path : string) (fd : Z)
  | Opened_at (dir : Z) (name : string) (mode fd : Z)
  | Located (fd : Z) (real : string)
  | Statted (fd : Z) (stat : Stat)
  | Was_read (fd : Z) (content : string)
  | Was_written (fd : Z) (content : string)
  | Was_cut (fd len : Z)
  | Was_synced (fd : Z)
  | Was_listed (fd : Z) (entries : list DirEntry).

Record Disk (W : Type) := { disk : W; calls : list FsCall }.
Arguments disk {W}.
Arguments calls {W}.
Arguments Build_Disk {W}.

(** ** Confinement ([common.rs]) *)

Definition empty_path : Error := InvalidArgument "path must not be empty".
Definition nul_path : Error := InvalidArgument "path must not contain a NUL byte".
Definition absolute_path : Error := InvalidArgument "path must be relative to the tool's allowed root, not absolute".
Definition not_plain : Error := InvalidArgument "path must contain only plain segments (no `.`, `..`, or root prefixes)".
Definition outside : Error := Confinement "path resolves outside the tool's allowed root".
Definition opened_outside : Error := Confinement "the opened file resolves outside the tool's allowed root".

Definition is_normal (c : PathComponent) : bool := match c with Normal _ => true | _ => false end.

Definition validate_relative (requested : string) : Result string :=
  if str_is_empty requested then Err empty_path
  else if has_nul requested then Err nul_path
  else if is_absolute requested then Err absolute_path
  else if negb (forallb is_normal (components requested)) then Err not_plain
  else Ok requested.

Definition confine (canonical root : string) : Result string :=
  if path_starts_with canonical root then Ok canonical else Err outside.

Section Calls.
  Context {W : Type} `{FileSystem W}.
  Abbreviation M := (action (Disk W) Error).

(** A system call that is recorded when it succeeds. *)
Definition sys {A} (f : W -> W * result IoFailure A) (record : A -> list FsCall) (wrap : IoFailure -> Error) : M A := fun s =>
  match f (disk s) with
  | (w, Ok a) => (Build_Disk w (calls s ++ record a), Ok a)
  | (w, Err e) => (Build_Disk w (calls s), Err (wrap e))
  end.

Definition look {A} (f : W -> W * A) : M A := fun s => let (w, a) := f (disk s) in (Build_Disk w (calls s), Ok a).

Definition wrapping (context : string) (e : IoFailure) : Error := Error_wrap context (io_error e).

Definition not_found_or (error : Error) (context : string) (e : IoFailure) : Error :=
  match io_kind e with Io_NotFound => error | _ => wrapping context e end.

Definition resolve_within (root requested : string) : M string :=
  let! candidate := lift (validate_relative requested) in
  let joined := path_join root candidate in
  let! canonical := sys (canonicalize joined) (fun real => [Resolved joined real])
    (not_found_or (NotFound "file" requested) ("resolving `" +:+ requested +:+ "`")) in
  lift (confine canonical root).

Definition resolve_parent_within (root requested : string) : M (string * string) :=
  let! candidate := lift (validate_relative requested) in
  let! name := lift (ok_or (file_name candidate) (InvalidArgument "path must name a file")) in
  let parent := default EmptyString (parent candidate) in
  let joined := path_join root parent in
  let! canonical := sys (canonicalize joined) (fun real => [Resolved joined real])
    (not_found_or (NotFound "directory" (path_display parent)) ("resolving the parent of `" +:+ requested +:+ "`")) in
  let! canonical := lift (confine canonical root) in
  ret (canonical, name).

Definition resolve_dir_within (root requested : string) : M string :=
  if str_is_empty requested then ret root else resolve_within root requested.

Definition verify_handle_within (fd : Z) (root : string) : M unit :=
  let! real := sys (real_path fd) (fun real => [Located fd real]) (wrapping "verifying the opened file's resolved path") in
  if path_starts_with real root then ret tt else throw opened_outside.

Definition symlink_target : Error := Confinement "the path's final component is a symlink; this tool never writes through one".
Definition directory_target : Error := InvalidArgument "the path names a directory, not a regular file".

Definition openat_error (e : IoFailure) : Error :=
  match io_kind e with
  | Io_Loop => symlink_target
  | Io_IsADirectory => directory_target
  | _ => wrapping "opening the target file for writing" e
  end.

Definition create_within (parent name root : string) (mode : Z) : M Z :=
  let! directory := sys (open_directory parent) (fun fd => [Opened_dir parent fd]) (wrapping "opening the target directory") in
  verify_handle_within directory root ;!
  (if has_nul name then throw nul_path else ret tt) ;!
  let! fd := sys (open_at directory name mode) (fun fd => [Opened_at directory name mode fd]) openat_error in
  verify_handle_within fd root ;!
  ret fd.

Definition remaining_budget (cx : ExecutionContext) (default_timeout : Duration) (now : Timestamp) : Duration :=
  match deadline cx with Some deadline => Z.min (Timestamp_saturating_since deadline now) default_timeout | None => default_timeout end.

(** ** Reading ([tool.rs]) *)

Inductive FileContent := Content_Text (text : string) | NotUtf8 | TooLarge (limit : Z).

Definition not_regular (requested : string) : Error := InvalidArgument ("`" +:+ requested +:+ "` is not a regular file").

(** [take(max_bytes + 1)]: the addition is of [u64]s. *)
Definition read_confined (root requested : string) (max_bytes : Z) : M FileContent :=
  let! canonical := resolve_within root requested in
  let! fd := sys (open_read canonical) (fun fd => [Opened canonical fd])
    (not_found_or (NotFound "file" requested) ("opening `" +:+ requested +:+ "`")) in
  verify_handle_within fd root ;!
  let! stat := sys (fstat fd) (fun stat => [Statted fd stat]) (wrapping ("reading metadata for `" +:+ requested +:+ "`")) in
  if negb (st_is_file stat) then throw (not_regular requested)
  else if max_bytes <? st_len stat then ret (TooLarge max_bytes)
  else
    let! buffer := sys (read_up_to fd (wrap64 (max_bytes + 1))) (fun content => [Was_read fd content]) (wrapping ("reading `" +:+ requested +:+ "`")) in
    if max_bytes <? str_len buffer then ret (TooLarge max_bytes)
    else ret (if valid_utf8 buffer then Content_Text buffer else NotUtf8).

(** The [select!] around a blocking task: what the task does it does, whoever is still waiting for it. *)
Definition raced {A} (budget : Duration) (cx : ExecutionContext) (task : M A) : M A :=
  let! done_ := try task in
  let! selected := look (select budget) in
  match (if cancellation cx then Sel_cancelled else selected) with
  | Sel_cancelled => throw Cancelled
  | Sel_timeout => throw (Timeout budget)
  | Sel_joined => lift done_
  end.

Section Tools.
  (** [serde_json]'s words for arguments it refuses, and the words of a system call's error *)
  Context (serde_refusal : Value -> string) (io_text : BoxError -> string).

Definition invalid_arguments (name : ToolName) (arguments : Value) : Error :=
  InvalidArgument ("invalid arguments for `" +:+ name +:+ "`: " +:+ serde_refusal arguments).

Definition root_error (message : string) : Error := Config "aik-fs.root" message.

(** The root of a new tool: it must be a directory, and is kept as it resolves. *)
Definition tool_root (requested : string) : M string :=
  let! root := sys (canonicalize requested) (fun real => [Resolved requested real])
    (fun e => root_error ("cannot resolve `" +:+ path_display requested +:+ "`: " +:+ io_text (io_error e))) in
  let! directory := look (is_dir root) in
  if negb directory then throw (root_error ("`" +:+ path_display requested +:+ "` is not a directory")) else ret root.

Definition DEFAULT_NAME : ToolName := "filesystem.read".
Definition DEFAULT_PERMISSION : ActionId := "filesystem.read".
Definition DEFAULT_MAX_BYTES : Z := 1024 * 1024.
Definition DEFAULT_TIMEOUT : Duration := 5 * 1000000000.

Record FsReadTool := { read_name : ToolName; read_action : ActionId; read_root : string; read_max_bytes : Z; read_timeout : Duration }.

Definition FsReadTool_new (requested : string) : M FsReadTool :=
  let! root := tool_root requested in
  ret {| read_name := DEFAULT_NAME; read_action := DEFAULT_PERMISSION; read_root := root; read_max_bytes := DEFAULT_MAX_BYTES; read_timeout := DEFAULT_TIMEOUT |}.

(** The derived [Deserialize] of [FsReadInput] *)
Definition read_input (v : Value) : option string :=
  fields ← open_fields ["path"%string] v;
  match fields with [Some path] => Value_as_str path | _ => None end.

Definition read_parse (self : FsReadTool) (arguments : Value) : Result string :=
  ok_or (read_input arguments) (invalid_arguments (read_name self) arguments).

Definition read_planned (self : FsReadTool) (arguments : Value) : M (list ResourceClaim) :=
  let! path := lift (read_parse self arguments) in
  let! canonical := resolve_within (read_root self) path in
  ret [{| claim_action := read_action self; claim_resource := path_display canonical |}].

Definition failure (path reason : string) : ToolOutcome := ToolOutcome_error (json_object [("path", VString path); ("error", VString reason)]%string).

Definition read_outcome (path : string) (content : FileContent) : ToolOutcome :=
  match content with
  | Content_Text content => ToolOutcome_ok (json_object [("path", VString path); ("content", VString content)]%string)
  | NotUtf8 => failure path "file is not valid UTF-8 text"
  | TooLarge limit => failure path ("file exceeds the " +:+ fmt_u limit +:+ "-byte read limit")
  end.

Definition read_invoke (self : FsReadTool) (arguments : Value) (cx : ExecutionContext) : M ToolOutcome :=
  let! path := lift (read_parse self arguments) in
  let! now := look fs_now in
  let budget := remaining_budget cx (read_timeout self) now in
  let! content := raced budget cx (read_confined (read_root self) path (read_max_bytes self)) in
  ret (read_outcome path content).

(** ** Writing ([write.rs]) *)

Definition DEFAULT_WRITE_NAME : ToolName := "filesystem.write".
Definition DEFAULT_WRITE_PERMISSION : ActionId := "filesystem.write".
Definition DEFAULT_MAX_WRITE_BYTES : Z := 1024 * 1024.
Definition DEFAULT_CREATE_MODE : Z := 384.

Record FsWriteTool := {
  write_name : ToolName; write_action : ActionId; write_root : string; write_max_bytes : Z; create_mode : Z; write_timeout : Duration;
}.

Definition FsWriteTool_new (requested : string) : M FsWriteTool :=
  let! root := tool_root requested in
  ret {| write_name := DEFAULT_WRITE_NAME; write_action := DEFAULT_WRITE_PERMISSION; write_root := root;
         write_max_bytes := DEFAULT_MAX_WRITE_BYTES; create_mode := DEFAULT_CREATE_MODE; write_timeout := DEFAULT_TIMEOUT |}.

Record FsWriteInput := { wi_path : string; wi_content : string }.

Definition write_input (v : Value) : option FsWriteInput :=
  fields ← open_fields ["path"; "content"]%string v;
  match fields with
  | [Some path; Some content] =>
      path ← Value_as_str path; content ← Value_as_str content; Some {| wi_path := path; wi_content := content |}
  | _ => None
  end.

Definition write_parse (self : FsWriteTool) (arguments : Value) : Result FsWriteInput :=
  ok_or (write_input arguments) (invalid_arguments (write_name self) arguments).

Inductive WriteResult := Written (bytes : Z) | Write_TooLarge (limit : Z).

Definition no_regular_file : Error := InvalidArgument "the path does not name a regular file".
Definition linked_elsewhere : Error :=
  Confinement "the target file has more than one hard link, so writing it could modify a file outside the tool's allowed root".

Definition check_target (fd : Z) : M unit :=
  let! stat := sys (fstat fd) (fun stat => [Statted fd stat]) (wrapping "reading the target file's metadata") in
  if negb (st_is_file stat) then throw no_regular_file
  else if 1 <? st_nlink stat then throw linked_elsewhere else ret tt.

Definition write_confined (root requested content : string) (max_bytes mode : Z) : M WriteResult :=
  if max_bytes <? str_len content then ret (Write_TooLarge max_bytes)
  else
    let! target := resolve_parent_within root requested in
    let (parent, name) := target in
    let! fd := create_within parent name root mode in
    check_target fd ;!
    sys (write_all fd content) (fun _ => [Was_written fd content]) (wrapping ("writing `" +:+ requested +:+ "`")) ;!
    sys (set_len fd (str_len content)) (fun _ => [Was_cut fd (str_len content)]) (wrapping ("truncating `" +:+ requested +:+ "`")) ;!
    sys (sync_all fd) (fun _ => [Was_synced fd]) (wrapping ("flushing `" +:+ requested +:+ "`")) ;!
    ret (Written (str_len content)).

(** [FsWriteTool::target] *)
Definition target (self : FsWriteTool) (requested : string) : M string :=
  let! found := resolve_parent_within (write_root self) requested in
  let (parent, name) := found in
  ret (path_join parent name).

Definition write_planned (self : FsWriteTool) (arguments : Value) : M (list ResourceClaim) :=
  let! input := lift (write_parse self arguments) in
  let! target := target self (wi_path input) in
  ret [{| claim_action := write_action self; claim_resource := path_display target |}].

(** The check before any work starts, of the tools that make one *)
Definition before_work (cx : ExecutionContext) (timeout : Duration) : M Duration :=
  if cancellation cx then throw Cancelled
  else
    let! now := look fs_now in
    let budget := remaining_budget cx timeout now in
    if budget =? 0 then throw (Timeout budget) else ret budget.

Definition write_outcome (path : string) (result : WriteResult) : ToolOutcome :=
  match result with
  | Written bytes => ToolOutcome_ok (json_object [("path", VString path); ("bytes_written", jint bytes)]%string)
  | Write_TooLarge limit => failure path ("content exceeds the " +:+ fmt_u limit +:+ "-byte write limit")
  end.

Definition write_invoke (self : FsWriteTool) (arguments : Value) (cx : ExecutionContext) : M ToolOutcome :=
  let! input := lift (write_parse self arguments) in
  let! budget := before_work cx (write_timeout self) in
  let! result := raced budget cx (write_confined (write_root self) (wi_path input) (wi_content input) (write_max_bytes self) (create_mode self)) in
  ret (write_outcome (wi_path input) result).

(** ** Listing ([list.rs]) *)

Definition DEFAULT_LIST_NAME : ToolName := "filesystem.list".
Definition DEFAULT_LIST_PERMISSION : ActionId := "filesystem.list".
Definition DEFAULT_MAX_ENTRIES : Z := 1000.

Record FsListTool := { list_name : ToolName; list_action : ActionId; list_root : string; max_entries : Z; list_timeout : Duration }.

Definition FsListTool_new (requested : string) : M FsListTool :=
  let! root := tool_root requested in
  ret {| list_name := DEFAULT_LIST_NAME; list_action := DEFAULT_LIST_PERMISSION; list_root := root; max_entries := DEFAULT_MAX_ENTRIES;
         list_timeout := DEFAULT_TIMEOUT |}.

(** The derived [Deserialize] of [FsListInput] *)
Definition list_input (v : Value) : option (option string) :=
  fields ← open_fields ["path"%string] v;
  match fields with [path] => optional Value_as_str path | _ => None end.

Definition list_parse (self : FsListTool) (arguments : Value) : Result string :=
  result_map (default EmptyString) (ok_or (list_input arguments) (invalid_arguments (list_name self) arguments)).

Inductive EntryKind := Entry_File | Entry_Directory | Entry_Symlink | Entry_Other.

Definition kind_as_str (self : EntryKind) : string :=
  match self with Entry_File => "file" | Entry_Directory => "directory" | Entry_Symlink => "symlink" | Entry_Other => "other" end.

Definition classify (t : FileType) : EntryKind :=
  match t with Type_Symlink => Entry_Symlink | Type_Directory => Entry_Directory | Type_File => Entry_File | Type_Other => Entry_Other end.

Record RawEntry := { raw_name : string; raw_path : string; raw_kind : EntryKind; raw_size : option Z }.

Inductive ScanOutcome := Scan_Entries (entries : list RawEntry) | Scan_TooMany (limit : Z).

Definition open_error (requested : string) (e : IoFailure) : Error :=
  match io_kind e with
  | Io_NotFound => NotFound "directory" requested
  | Io_NotADirectory => InvalidArgument ("`" +:+ requested +:+ "` is not a directory")
  | _ => wrapping ("opening `" +:+ requested +:+ "`") e
  end.

Definition raw_entry (dir : string) (entry : DirEntry) : M RawEntry :=
  let! file_type := sys (file_type entry) (fun _ => []) (wrapping "reading a directory entry's type") in
  let kind := classify file_type in
  let! size := match kind with Entry_File => look (entry_len entry) | _ => ret None end in
  ret {| raw_name := path_display (entry_file_name entry); raw_path := path_join dir (entry_file_name entry); raw_kind := kind; raw_size := size |}.

Fixpoint raw_entries (dir : string) (raw : list DirEntry) : M (list RawEntry) :=
  match raw with
  | [] => ret []
  | entry :: raw =>
      let! first := raw_entry dir entry in
      let! others := raw_entries dir raw in
      ret (first :: others)
  end.

Definition by_name (a b : RawEntry) : comparison := String.compare (raw_name a) (raw_name b).

Definition build_outcome (dir : string) (raw : list DirEntry) (max_entries : Z) : M ScanOutcome :=
  if max_entries <? Z.of_nat (length raw) then ret (Scan_TooMany max_entries)
  else let! entries := raw_entries dir raw in ret (Scan_Entries (sort_by by_name entries)).

Definition list_confined (root requested : string) (max_entries : Z) : M ScanOutcome :=
  let! dir := resolve_dir_within root requested in
  let! fd := sys (open_directory dir) (fun fd => [Opened_dir dir fd]) (open_error requested) in
  verify_handle_within fd root ;!
  let! raw := sys (read_dir fd) (fun entries => [Was_listed fd entries]) (wrapping ("reading the entries of `" +:+ requested +:+ "`")) in
  build_outcome dir raw max_entries.

Definition list_planned (self : FsListTool) (arguments : Value) : M (list ResourceClaim) :=
  let! requested := lift (list_parse self arguments) in
  let! dir := resolve_dir_within (list_root self) requested in
  ret [{| claim_action := list_action self; claim_resource := path_display dir |}].

Section Authorizer.
  (** The registry's authorizer, which is asked for each entry *)
  Context (authorizer : ActionId -> ResourceId -> W -> W * Result unit).

Definition authorize_entry (action_ : ActionId) (resource : ResourceId) (cx : ExecutionContext) (default_timeout : Duration) : M unit :=
  let! now := look fs_now in
  let budget := remaining_budget cx default_timeout now in
  if budget =? 0 then throw (Timeout budget)
  else raced budget cx (fun s => let (w, r) := authorizer action_ resource (disk s) in (Build_Disk w (calls s), r)).

Definition entry_value (entry : RawEntry) : Value :=
  json_object [("name", VString (raw_name entry)); ("kind", VString (kind_as_str (raw_kind entry)));
               ("size", match raw_size entry with Some n => jint n | None => VNull end)]%string.

Definition ends_the_call (e : Error) : bool := match Error_kind e with Kind_Cancelled | Kind_Timeout => true | _ => false end.

Fixpoint visible (action_ : ActionId) (timeout : Duration) (cx : ExecutionContext) (entries : list RawEntry) (shown : list RawEntry) : M (list RawEntry) :=
  match entries with
  | [] => ret shown
  | entry :: entries =>
      let! allowed := try (authorize_entry action_ (path_display (raw_path entry)) cx timeout) in
      match allowed with
      | Ok _ => visible action_ timeout cx entries (shown ++ [entry])
      | Err e => if ends_the_call e then throw e else visible action_ timeout cx entries shown
      end
  end.

Definition list_invoke (self : FsListTool) (arguments : Value) (cx : ExecutionContext) : M ToolOutcome :=
  let! requested := lift (list_parse self arguments) in
  let! budget := before_work cx (list_timeout self) in
  let! scanned := raced budget cx (list_confined (list_root self) requested (max_entries self)) in
  match scanned with
  | Scan_TooMany limit => ret (failure requested ("directory has more than the " +:+ fmt_u limit +:+ "-entry listing limit"))
  | Scan_Entries entries =>
      let! shown := visible (list_action self) (list_timeout self) cx entries [] in
      ret (ToolOutcome_ok (json_object [("path", VString requested); ("entries", VArray (map entry_value shown))]%string))
  end.
End Authorizer.
End Tools.
End Calls.

(** ** Specifications *)

Local Notation "k =: v" := (k%string, v) (at level 60, only parsing).

Definition read_spec (self : FsReadTool) : ToolSpec :=
  {| spec_name := read_name self;
     spec_description := "Reads a UTF-8 text file from within this tool's configured root directory. `path` is always relative to that root; absolute paths, `..`, and anything that resolves outside the root are refused. Binary files and files over the configured size limit are reported as an error rather than read.";
     spec_input_schema := closed_object (json_object ["path" =: jstring "Path to the file, relative to the tool's allowed root."]) [jrequired ["path"%string]];
     spec_output_schema := Some (closed_object (json_object ["path" =: jtype "string"; "content" =: jtype "string"; "error" =: jtype "string"]) [jrequired ["path"%string]]);
     spec_required_permissions := [read_action self]; spec_read_only := true; spec_output_trust := Untrusted; spec_reach := Contained |}.

Definition write_spec (self : FsWriteTool) : ToolSpec :=
  {| spec_name := write_name self;
     spec_description := "Writes a UTF-8 text file inside this tool's configured root directory, creating it or replacing its contents entirely. `path` is always relative to that root; absolute paths, `..`, and anything that resolves outside the root are refused, as is a path whose parent directory does not already exist. Content over the configured size limit is reported as an error rather than written.";
     spec_input_schema := closed_object (json_object ["path" =: jstring "Path to the file, relative to the tool's allowed root.";
                                                      "content" =: jstring "The complete new contents of the file."]) [jrequired ["path"; "content"]%string];
     spec_output_schema := Some (closed_object (json_object ["path" =: jtype "string"; "bytes_written" =: jtype "integer"; "error" =: jtype "string"]) [jrequired ["path"%string]]);
     spec_required_permissions := [write_action self]; spec_read_only := false; spec_output_trust := Trusted; spec_reach := Mutating |}.

Definition entry_schema : Value :=
  closed_object (json_object ["name" =: jtype "string";
                              "kind" =: json_object ["type" =: VString "string"; "enum" =: VArray (map VString ["file"; "directory"; "symlink"; "other"]%string)];
                              "size" =: json_object ["type" =: VArray [VString "integer"; VString "null"]]]) [jrequired ["name"; "kind"]%string].

Definition list_spec (self : FsListTool) : ToolSpec :=
  {| spec_name := list_name self;
     spec_description := "Lists the immediate entries of a directory within this tool's configured root. `path` is relative to that root and may be omitted, or given as an empty string, to list the root itself; absolute paths, `..`, and anything that resolves outside the root are refused. Each entry reports its name and kind (`file`, `directory`, `symlink`, or `other`); regular files also report their size. This tool never descends into subdirectories, never follows symlinks, and never reads file contents.";
     spec_input_schema := closed_object (json_object ["path" =: jstring "Directory to list, relative to the tool's allowed root. Omit or use an empty string to list the root itself."]) [];
     spec_output_schema := Some (closed_object (json_object ["path" =: jtype "string"; "entries" =: json_object ["type" =: VString "array"; "items" =: entry_schema]; "error" =: jtype "string"]) [jrequired ["path"%string]]);
     spec_required_permissions := [list_action self]; spec_read_only := true; spec_output_trust := Untrusted; spec_reach := Contained |}.

(** ** Reasoning about the calls that were made *)

Section Logs.
  Context {W : Type} `{FileSystem W}.
  Abbreviation M := (action (Disk W) Error).

(** However [m] runs, the calls it makes and how it ends satisfy [Q]. *)
Definition logs {A} (m : M A) (Q : list FsCall -> Result A -> Prop) : Prop :=
  forall s s' r, m s = (s', r) -> exists l, calls s' = calls s ++ l /\ Q l r.

Lemma logs_weaken {A} (m : M A) (P Q : list FsCall -> Result A -> Prop) : logs m P -> (forall l r, P l r -> Q l r) -> logs m Q.
Proof. intros Hm HPQ s s' r Hr. destruct (Hm _ _ _ Hr) as (l & Hl & HP). exists l. auto. Qed.

Lemma logs_ret {A} (a : A) (Q : list FsCall -> Result A -> Prop) : Q [] (Ok a) -> logs (ret a) Q.
Proof. intros HQ s s' r [= <- <-]. exists []. by rewrite app_nil_r. Qed.

Lemma logs_throw {A} e (Q : list FsCall -> Result A -> Prop) : Q [] (Err e) -> logs (throw e) Q.
Proof. intros HQ s s' r [= <- <-]. exists []. by rewrite app_nil_r. Qed.

Lemma logs_lift {A} (x : Result A) (Q : list FsCall -> Result A -> Prop) : Q [] x -> logs (lift x) Q.
Proof. intros HQ s s' r [= <- <-]. exists []. by rewrite app_nil_r. Qed.

Lemma logs_look {A} (f : W -> W * A) (Q : list FsCall -> Result A -> Prop) : (forall a, Q [] (Ok a)) -> logs (look f) Q.
Proof. intros HQ s s' r. unfold look. destruct (f (disk s)) as [w a]. intros [= <- <-]. exists []. by rewrite app_nil_r. Qed.

Lemma logs_sys {A} (f : W -> W * result IoFailure A) record wrap (Q : list FsCall -> Result A -> Prop) :
  (forall a, Q (record a) (Ok a)) -> (forall e, Q [] (Err (wrap e))) -> logs (sys f record wrap) Q.
Proof.
  intros Ha He s s' r. unfold sys. destruct (f (disk s)) as [w [a|e]]; intros [= <- <-]; [by exists (record a)|].
  exists []. by rewrite app_nil_r.
Qed.

Lemma logs_bind {A B} (m : M A) (k : A -> M B) (Q : list FsCall -> Result B -> Prop) :
  logs m (fun l r => match r with Ok a => logs (k a) (fun l' r' => Q (l ++ l') r') | Err e => Q l (Err e) end) -> logs (bind m k) Q.
Proof.
  intros Hm s s' r Hr. apply bind_inv in Hr as [(s1 & a & E & Hk)|(e & E & ->)].
  - destruct (Hm _ _ _ E) as (l & Hl & HQ). destruct (HQ _ _ _ Hk) as (l' & Hl' & HQ'). exists (l ++ l'). split; [|done]. by rewrite Hl', Hl, app_assoc.
  - destruct (Hm _ _ _ E) as (l & Hl & HQ). by exists l.
Qed.

Lemma logs_try {A} (m : M A) (Q : list FsCall -> Result (Result A) -> Prop) : logs m (fun l r => Q l (Ok r)) -> logs (try m) Q.
Proof. intros Hm s s' r. unfold try. destruct (m s) as [s1 r1] eqn:E. intros [= <- <-]. by apply Hm in E. Qed.

(** A race changes at most how the call ends. *)
Lemma logs_raced {A} budget cx (task : M A) (Q : list FsCall -> Result A -> Prop) :
  logs task Q -> logs (raced budget cx task) (fun l r => exists r0, Q l r0 /\ (r = r0 \/ r = Err Cancelled \/ r = Err (Timeout budget))).
Proof.
  intros Ht. unfold raced. apply logs_bind, logs_try. eapply logs_weaken; [exact Ht|]. intros l r0 HQ.
  apply logs_bind, logs_look. intros selected. rewrite ?app_nil_r. destruct (if cancellation cx then _ else _);
    [apply logs_throw|apply logs_throw|apply logs_lift]; rewrite ?app_nil_r; exists r0; auto.
Qed.

End Logs.

Ltac lstep :=
  lazymatch goal with
  | |- logs (bind _ _) _ => apply logs_bind
  | |- logs (sys _ _ _) _ => apply logs_sys; intros ?
  | |- logs (look _) _ => apply logs_look; intros ?
  | |- logs (lift _) _ => apply logs_lift
  | |- logs (ret _) _ => apply logs_ret
  | |- logs (throw _) _ => apply logs_throw
  | |- logs (if ?b then _ else _) _ => let E := fresh "E" in destruct b eqn:E
  end; rewrite ?app_nil_l; cbn [app].

(** Settles what a given list of calls amounts to. *)
Ltac lend :=
  repeat match goal with H : path_starts_with ?p ?r = true |- _ => rewrite H in * end; simpl;
  repeat match goal with
  | |- context [path_starts_with ?p ?r] => let E := fresh "Ep" in destruct (path_starts_with p r) eqn:E
  | |- _ /\ _ => split
  end; try done; try (by repeat constructor); try set_solver.

(** What may be done, with the handles that were last found under the root: nothing is read,
    written, cut or listed but through one of these, nothing is created but in one, and nothing
    is opened by a path outside the root. *)
Fixpoint confined (root : string) (good : list Z) (l : list FsCall) : Prop :=
  match l with
  | [] => True
  | c :: l =>
      match c with
      | Located fd real => confined root (if path_starts_with real root then fd :: good else List.filter (fun x => negb (x =? fd)) good) l
      | Opened path fd | Opened_dir path fd => path_starts_with path root = true /\ confined root (List.filter (fun x => negb (x =? fd)) good) l
      | Opened_at dir _ _ fd => dir ∈ good /\ confined root (List.filter (fun x => negb (x =? fd)) good) l
      | Was_read fd _ | Was_written fd _ | Was_cut fd _ | Was_listed fd _ | Was_synced fd => fd ∈ good /\ confined root good l
      | Resolved _ _ | Statted _ _ => confined root good l
      end
  end.

Definition is_change (c : FsCall) : bool :=
  match c with Opened_at _ _ _ _ | Was_written _ _ | Was_cut _ _ | Was_synced _ => true | _ => false end.

Definition harmless (l : list FsCall) : Prop := Forall (fun c => is_change c = false) l.

Section Tasks.
  Context {W : Type} `{FileSystem W}.

(** What reading one file came to. *)
Definition has_read (root requested : string) (max_bytes : Z) (l : list FsCall) (content : FileContent) : Prop :=
  exists canonical fd real stat, validate_relative requested = Ok requested /\
    path_starts_with canonical root = true /\ path_starts_with real root = true /\ st_is_file stat = true /\
    let front := [Resolved (path_join root requested) canonical; Opened canonical fd; Located fd real; Statted fd stat] in
    (l = front /\ content = TooLarge max_bytes /\ max_bytes < st_len stat) \/
    (exists buffer, l = front ++ [Was_read fd buffer] /\
       content = (if max_bytes <? str_len buffer then TooLarge max_bytes else if valid_utf8 buffer then Content_Text buffer else NotUtf8)).

Lemma validate_same requested candidate : validate_relative requested = Ok candidate -> candidate = requested.
Proof. unfold validate_relative. repeat case_match; by intros [= <-]. Qed.

Lemma read_confined_logs root requested max_bytes :
  logs (read_confined root requested max_bytes) (fun l r => confined root [] l /\ harmless l /\
    match r with Ok content => has_read root requested max_bytes l content | Err _ => True end).
Proof.
  unfold read_confined, resolve_within, verify_handle_within. lstep. lstep. lstep.
  destruct (validate_relative requested) as [candidate|e] eqn:Ev; [|by repeat constructor]. pose proof (validate_same _ _ Ev) as ->.
  lstep. lstep; [|by repeat constructor]. lstep. unfold confine. destruct (path_starts_with a root) eqn:Ec; [|by repeat constructor].
  lstep. lstep; [|by lend]. lstep. lstep. lstep; [|by lend]. lstep; lstep; [|by lend].
  lstep. lstep; [|by lend]. lstep; [lstep; by lend|]. apply negb_false_iff in E0.
  lstep; [lstep; apply Z.ltb_lt in E1; lend; exists a, a0, a1, a2; split_and!; auto|].
  lstep. lstep; [|by lend].
  assert (Hread : forall content, content = (if max_bytes <? str_len a3 then TooLarge max_bytes else if valid_utf8 a3 then Content_Text a3 else NotUtf8) ->
    has_read root requested max_bytes [Resolved (path_join root requested) a; Opened a a0; Located a0 a1; Statted a0 a2; Was_read a0 a3] content).
  { intros content ->. exists a, a0, a1, a2. split_and!; auto. right. by exists a3. }
  lstep; lstep; (split_and!; [by lend|by repeat constructor|]); by apply Hread.
Qed.

(** What writing one file came to. *)
Definition has_written (root requested content : string) (mode : Z) (l : list FsCall) : Prop :=
  exists dir real_dir name d fd real stat, validate_relative requested = Ok requested /\ file_name requested = Some name /\
    path_starts_with dir root = true /\ path_starts_with real_dir root = true /\ path_starts_with real root = true /\
    st_is_file stat = true /\ st_nlink stat <= 1 /\
    l = [Resolved (path_join root (default EmptyString (parent requested))) dir; Opened_dir dir d; Located d real_dir; Opened_at d name mode fd;
         Located fd real; Statted fd stat; Was_written fd content; Was_cut fd (str_len content); Was_synced fd].

Lemma write_confined_logs root requested content max_bytes mode :
  logs (write_confined root requested content max_bytes mode) (fun l r => confined root [] l /\
    match r with
    | Ok (Written n) => n = str_len content /\ n <= max_bytes /\ has_written root requested content mode l
    | Ok (Write_TooLarge n) => n = max_bytes /\ max_bytes < str_len content /\ l = []
    | Err _ => True
    end).
Proof.
  unfold write_confined, resolve_parent_within, create_within, check_target, verify_handle_within.
  lstep; [lstep; apply Z.ltb_lt in E; by lend|]. apply Z.ltb_ge in E. lstep. lstep. lstep.
  destruct (validate_relative requested) as [candidate|e] eqn:Ev; [|by lend]. pose proof (validate_same _ _ Ev) as ->.
  lstep. lstep. destruct (file_name requested) as [name|] eqn:En; [|by lend]. cbn [ok_or].
  lstep. lstep; [|by lend]. lstep. lstep. unfold confine. destruct (path_starts_with a root) eqn:Ec; [|by lend].
  lstep. lstep. lstep. lstep; [|by lend]. lstep. lstep. lstep; [|by lend]. lstep; lstep; [|by lend].
  lstep. lstep; lstep; [by lend|]. lstep. lstep; [|by lend]. lstep. lstep. lstep; [|by lend]. lstep; lstep; [|by lend]. lstep.
  lstep. lstep. lstep; [|by lend]. lstep; [lstep; by lend|]. apply negb_false_iff in E3. lstep; lstep; [by lend|]. apply Z.ltb_ge in E4.
  lstep. lstep; [|by lend]. lstep. lstep; [|by lend]. lstep. lstep; [|by lend]. lstep. split; [by lend|]. split_and!; [done|done|].
  exists a, a1, name, a0, a2, a3, a4. by split_and!.
Qed.

Lemma raw_entries_logs (P : list FsCall -> Result (list RawEntry) -> Prop) dir raw :
  (forall r, match r with
             | Ok entries => Forall2 (fun d e => raw_name e = path_display (entry_file_name d) /\ raw_path e = path_join dir (entry_file_name d)) raw entries
             | Err _ => True
             end -> P [] r) -> logs (raw_entries dir raw) P.
Proof.
  revert P. induction raw as [|d raw IH]; intros P HP; cbn [raw_entries]; [by lstep; apply HP; constructor|].
  unfold raw_entry. lstep. lstep. lstep; [|by apply HP]. lstep.
  assert (Hrest : forall size, logs (let! others := raw_entries dir raw in
      ret ({| raw_name := path_display (entry_file_name d); raw_path := path_join dir (entry_file_name d); raw_kind := classify a; raw_size := size |} :: others)) P).
  { intros size. lstep. apply IH. intros [entries|e] Hr; [|by apply HP]. lstep. apply HP. by constructor. }
  destruct (classify a); lstep; lstep; apply Hrest.
Qed.

(** What scanning one directory came to. *)
Definition has_scanned (root requested : string) (max : Z) (l : list FsCall) (scanned : ScanOutcome) : Prop :=
  exists dir fd real raw, path_starts_with dir root = true /\ path_starts_with real root = true /\
    (requested = EmptyString /\ dir = root /\ l = [Opened_dir dir fd; Located fd real; Was_listed fd raw] \/
     validate_relative requested = Ok requested /\
       l = [Resolved (path_join root requested) dir; Opened_dir dir fd; Located fd real; Was_listed fd raw]) /\
    match scanned with
    | Scan_TooMany n => n = max /\ max < Z.of_nat (length raw)
    | Scan_Entries entries => Z.of_nat (length raw) <= max /\ exists unsorted, entries = sort_by by_name unsorted /\
        Forall2 (fun d e => raw_name e = path_display (entry_file_name d) /\ raw_path e = path_join dir (entry_file_name d)) raw unsorted
    end.

Lemma list_confined_logs root requested max :
  logs (list_confined root requested max) (fun l r => confined root [] l /\ harmless l /\
    match r with Ok scanned => has_scanned root requested max l scanned | Err _ => True end).
Proof.
  unfold list_confined, resolve_dir_within, resolve_within, verify_handle_within, build_outcome.
  assert (Hscan : forall dir pre, path_starts_with dir root = true ->
    (requested = EmptyString /\ dir = root /\ pre = [] \/ validate_relative requested = Ok requested /\ pre = [Resolved (path_join root requested) dir]) ->
    logs (let! fd := sys (open_directory dir) (fun fd => [Opened_dir dir fd]) (open_error requested) in
          (let! real := sys (real_path fd) (fun real => [Located fd real]) (wrapping "verifying the opened file's resolved path") in
           if path_starts_with real root then ret tt else throw opened_outside) ;!
          let! raw := sys (read_dir fd) (fun entries => [Was_listed fd entries]) (wrapping ("reading the entries of `" +:+ requested +:+ "`")) in
          if max <? Z.of_nat (length raw) then ret (Scan_TooMany max)
          else let! entries := raw_entries dir raw in ret (Scan_Entries (sort_by by_name entries)))
      (fun l r => confined root [] (pre ++ l) /\ harmless (pre ++ l) /\
        match r with Ok scanned => has_scanned root requested max (pre ++ l) scanned | Err _ => True end)).
  { intros dir pre Hdir Hpre.
    assert (Hp : forall l, confined root [] l -> confined root [] (pre ++ l)) by (destruct Hpre as [(_ & _ & ->)|[_ ->]]; intros l Hl; exact Hl).
    assert (Hh : forall l, harmless l -> harmless (pre ++ l)) by (destruct Hpre as [(_ & _ & ->)|[_ ->]]; [done|]; intros l Hl; by constructor).
    lstep. lstep; [|by split_and!; [apply Hp|apply Hh|]; lend]. lstep. lstep. lstep; [|by split_and!; [apply Hp|apply Hh|]; lend].
    lstep; lstep; [|by split_and!; [apply Hp|apply Hh|]; lend]. lstep. lstep; [|by split_and!; [apply Hp|apply Hh|]; lend].
    assert (Hhas : forall scanned, match scanned with
        | Scan_TooMany n => n = max /\ max < Z.of_nat (length a1)
        | Scan_Entries entries => Z.of_nat (length a1) <= max /\ exists unsorted, entries = sort_by by_name unsorted /\
            Forall2 (fun d e => raw_name e = path_display (entry_file_name d) /\ raw_path e = path_join dir (entry_file_name d)) a1 unsorted
        end -> has_scanned root requested max (pre ++ [Opened_dir dir a; Located a a0; Was_listed a a1]) scanned).
    { intros scanned Hs. exists dir, a, a0, a1. split_and!; try done. destruct Hpre as [(? & ? & ->)|[? ->]]; [by left|by right]. }
    lstep; [lstep; apply Z.ltb_lt in E0; split_and!; [apply Hp; lend|apply Hh; lend|by apply Hhas]|]. apply Z.ltb_ge in E0. lstep.
    apply raw_entries_logs. intros [entries|e] Hr; [|split_and!; [apply Hp; lend|apply Hh; lend|done]]. lstep.
    split_and!; [apply Hp; lend|apply Hh; lend|]. apply Hhas. split; [done|]. by exists entries. }
  lstep. destruct (str_is_empty requested) eqn:Er.
  - assert (requested = EmptyString) as Hreq by (by destruct requested). lstep. apply (Hscan root []); [apply path_starts_with_refl|by left].
  - lstep. lstep. destruct (validate_relative requested) as [candidate|e] eqn:Ev; [|by repeat constructor]. pose proof (validate_same _ _ Ev) as ->.
    lstep. lstep; [|by repeat constructor]. lstep. unfold confine. destruct (path_starts_with a root) eqn:Ec; [|by repeat constructor].
    apply (Hscan a [Resolved (path_join root requested) a]); [done|by right].
Qed.
End Tasks.

(** ** What the tools touch *)

Section Confinement.
  Context {W : Type} `{FileSystem W} (serde_refusal : Value -> string).

Lemma read_invoke_logs (self : FsReadTool) (arguments : Value) (cx : ExecutionContext) :
  logs (read_invoke serde_refusal self arguments cx) (fun l r => confined (read_root self) [] l /\ harmless l /\
    forall outcome, r = Ok outcome -> exists path content, read_input arguments = Some path /\
      has_read (read_root self) path (read_max_bytes self) l content /\ outcome = read_outcome path content).
Proof.
  unfold read_invoke, read_parse. lstep. lstep. destruct (read_input arguments) as [path|] eqn:Ei; [|by repeat constructor].
  cbn [ok_or]. lstep. lstep. lstep. eapply logs_weaken; [apply logs_raced, read_confined_logs|].
  intros l r (r0 & (Hc & Hh & Hr) & Hcases). destruct r as [content|e]; [|by split_and!]. destruct Hcases as [<-|[?|?]]; [|done|done].
  lstep. rewrite app_nil_r. split_and!; [done|done|]. intros outcome [= <-]. by exists path, content.
Qed.

(** C33. a file that is read is under the root, and is what was asked for: whatever else happens to the
    file system meanwhile, the tool changes nothing, reads nothing but through a handle whose
    real path was found under the root, and succeeds only with the whole of a regular file
    within the limit - shown if it is text - at the place where its own root and the plain
    relative path it was given resolve to. *)
Theorem reads_are_confined (self : FsReadTool) (arguments : Value) (cx : ExecutionContext) (s s' : Disk W) (r : Result ToolOutcome) :
  read_invoke serde_refusal self arguments cx s = (s', r) ->
  exists l, calls s' = calls s ++ l /\ confined (read_root self) [] l /\ harmless l /\
    forall outcome, r = Ok outcome -> exists path content, read_input arguments = Some path /\
      has_read (read_root self) path (read_max_bytes self) l content /\ outcome = read_outcome path content.
Proof. apply read_invoke_logs. Qed.

Lemma before_work_logs (cx : ExecutionContext) (timeout : Duration) (s s' : Disk W) (r : Result Duration) : before_work cx timeout s = (s', r) ->
  calls s' = calls s /\ (cancellation cx = true \/ remaining_budget cx timeout (snd (fs_now (disk s))) = 0 -> exists e, r = Err e).
Proof.
  unfold before_work. destruct (cancellation cx); [intros [= <- <-]; split; [done|by eexists]|]. unfold look, bind.
  destruct (fs_now (disk s)) as [w now]. cbn [snd]. destruct (Z.eqb_spec (remaining_budget cx timeout now) 0) as [E|E]; intros [= <- <-]; (split; [done|]).
  - by eexists.
  - by intros [?|?].
Qed.

Lemma write_invoke_run (self : FsWriteTool) (arguments : Value) (cx : ExecutionContext) (s s' : Disk W) (r : Result ToolOutcome) :
  write_invoke serde_refusal self arguments cx s = (s', r) ->
  exists l, calls s' = calls s ++ l /\ confined (write_root self) [] l /\
    (cancellation cx = true \/ remaining_budget cx (write_timeout self) (snd (fs_now (disk s))) = 0 -> l = [] /\ is_ok r = false) /\
    forall outcome, r = Ok outcome -> exists input, write_input arguments = Some input /\
      (str_len (wi_content input) <= write_max_bytes self /\ has_written (write_root self) (wi_path input) (wi_content input) (create_mode self) l /\
         outcome = write_outcome (wi_path input) (Written (str_len (wi_content input))) \/
       write_max_bytes self < str_len (wi_content input) /\ l = [] /\ is_error outcome = true).
Proof.
  unfold write_invoke, write_parse. destruct (write_input arguments) as [input|]; cbn [ok_or].
  2: { intros [= <- <-]. exists []. rewrite app_nil_r. by split_and!. }
  unfold lift at 1, bind at 1. intros Hr. peel Hr Eb.
  2: { apply before_work_logs in Eb as [Hc _]. exists []. rewrite app_nil_r. by split_and!. }
  apply before_work_logs in Eb as [Hc He]. assert (Hlog : logs (let! result := raced a cx (write_confined (write_root self) (wi_path input) (wi_content input)
      (write_max_bytes self) (create_mode self)) in ret (write_outcome (wi_path input) result))
    (fun l r => confined (write_root self) [] l /\ forall outcome, r = Ok outcome -> exists input', Some input = Some input' /\
      (str_len (wi_content input') <= write_max_bytes self /\ has_written (write_root self) (wi_path input') (wi_content input') (create_mode self) l /\
         outcome = write_outcome (wi_path input') (Written (str_len (wi_content input'))) \/
       write_max_bytes self < str_len (wi_content input') /\ l = [] /\ is_error outcome = true))).
  { lstep. eapply logs_weaken; [apply logs_raced, write_confined_logs|]. intros l r1 (r0 & (Hconf & Hres) & Hcases).
    destruct r1 as [result|e]; [|by split]. destruct Hcases as [<-|[?|?]]; [|done|done]. lstep. rewrite app_nil_r. split; [done|].
    intros outcome [= <-]. exists input. split; [done|]. destruct result as [n|n]; [left|right]; destruct Hres as (-> & ? & ?); by split_and!. }
  destruct (Hlog _ _ _ Hr) as (l & Hl & Hconf & Hout). exists l. split_and!; [by rewrite Hl, Hc|done| |done].
  intros Hdead. destruct (He Hdead) as [e He']. done.
Qed.
(** a file that is written is under the root, and is what was named: nothing is written or cut but
    through a handle found under the root, created in a directory found under the root; success
    means that exactly the given content was written to a regular file with no other link, under
    the last name of the plain relative path that was given, and has reached the disk; and a call
    that is cancelled or out of time before it starts, or whose content is too large, touches nothing. *)
Theorem writes_are_confined (self : FsWriteTool) (arguments : Value) (cx : ExecutionContext) (s s' : Disk W) (r : Result ToolOutcome) :
  write_invoke serde_refusal self arguments cx s = (s', r) ->
  exists l, calls s' = calls s ++ l /\ confined (write_root self) [] l /\
    (cancellation cx = true \/ remaining_budget cx (write_timeout self) (snd (fs_now (disk s))) = 0 -> l = [] /\ is_ok r = false) /\
    forall outcome, r = Ok outcome -> exists input, write_input arguments = Some input /\
      (str_len (wi_content input) <= write_max_bytes self /\ has_written (write_root self) (wi_path input) (wi_content input) (create_mode self) l /\
         outcome = write_outcome (wi_path input) (Written (str_len (wi_content input))) \/
       write_max_bytes self < str_len (wi_content input) /\ l = [] /\ is_error outcome = true).
Proof. apply write_invoke_run. Qed.
End Confinement.

(** ** What a listing shows *)

Section Listing.
  Context {W : Type} `{FileSystem W} (serde_refusal : Value -> string) (authorizer : ActionId -> ResourceId -> W -> W * Result unit).

(** The authorizer's own word for a path, at some moment. *)
Definition was_allowed (act : ActionId) (path : string) : Prop := exists w w', authorizer act path w = (w', Ok tt).

Lemma authorize_entry_run act resource cx timeout (s s' : Disk W) r : authorize_entry authorizer act resource cx timeout s = (s', r) ->
  calls s' = calls s /\ (r = Ok tt -> was_allowed act resource).
Proof.
  unfold authorize_entry, look, bind at 1. destruct (fs_now (disk s)) as [w now]. destruct (_ =? 0); [by intros [= <- <-]|].
  unfold raced, bind, try, look, lift, throw. cbn [disk calls]. destruct (authorizer act resource w) as [w1 [[]|e]] eqn:E; cbn [disk calls];
    destruct (select _ w1) as [w2 sel]; destruct (if cancellation cx then _ else sel); intros [= <- <-]; (split; [done|]); try done.
  intros _. by exists w, w1.
Qed.

Lemma visible_run act timeout cx entries : forall shown (s s' : Disk W) r, visible authorizer act timeout cx entries shown s = (s', r) ->
  calls s' = calls s /\
  forall l, r = Ok l -> exists verdicts, length verdicts = length entries /\
    l = shown ++ map fst (List.filter snd (combine entries verdicts)) /\
    Forall (fun p => snd p = true -> was_allowed act (path_display (raw_path (fst p)))) (combine entries verdicts).
Proof.
  induction entries as [|entry entries IH]; intros shown s s' r Hv; cbn [visible] in Hv.
  { injection Hv as <- <-. split; [done|]. intros l [= <-]. exists []. by rewrite app_nil_r. }
  unfold try, bind at 1 in Hv. destruct (authorize_entry _ _ _ _ _ s) as [s1 [[]|e]] eqn:Ea; apply authorize_entry_run in Ea as [Hc Ha].
  - apply IH in Hv as [Hc' Hv]. split; [by rewrite Hc'|]. intros l Hl. destruct (Hv l Hl) as (verdicts & Hlen & -> & Hall).
    exists (true :: verdicts). split_and!; [simpl; by rewrite Hlen|simpl; by rewrite <- app_assoc|]. constructor; [|done]. intros _. by apply Ha.
  - destruct (ends_the_call e); [injection Hv as <- <-; by split|]. apply IH in Hv as [Hc' Hv]. split; [by rewrite Hc'|].
    intros l Hl. destruct (Hv l Hl) as (verdicts & Hlen & -> & Hall). exists (false :: verdicts).
    split_and!; [simpl; by rewrite Hlen|done|]. by constructor.
Qed.

(** a listing shows what its reader may see: the tool changes nothing and lists nothing but a
    directory that was found under the root; a directory with more entries than the limit is not
    shown at all; otherwise the entries are those the directory had, in the order of their names, and of these exactly
    the ones the authorizer allowed for the entry's own path, each of which it was asked about. *)
Theorem listings_are_confined (self : FsListTool) (arguments : Value) (cx : ExecutionContext) (s s' : Disk W) (r : Result ToolOutcome) :
  list_invoke serde_refusal authorizer self arguments cx s = (s', r) ->
  exists l, calls s' = calls s ++ l /\ confined (list_root self) [] l /\ harmless l /\
    forall outcome, r = Ok outcome -> exists requested scanned, list_parse serde_refusal self arguments = Ok requested /\
      has_scanned (list_root self) requested (max_entries self) l scanned /\
      match scanned with
      | Scan_TooMany n => is_error outcome = true
      | Scan_Entries entries => exists verdicts, length verdicts = length entries /\
          outcome = ToolOutcome_ok (json_object [("path", VString requested);
            ("entries", VArray (map entry_value (map fst (List.filter snd (combine entries verdicts)))))]%string) /\
          Forall (fun p => snd p = true -> was_allowed (list_action self) (path_display (raw_path (fst p)))) (combine entries verdicts)
      end.
Proof.
  unfold list_invoke. destruct (list_parse serde_refusal self arguments) as [requested|e].
  2: { intros [= <- <-]. exists []. rewrite app_nil_r. split_and!; [done|done|constructor|done]. }
  unfold lift at 1, bind at 1. intros Hr. peel Hr Eb.
  2: { apply before_work_logs in Eb as [Hc _]. exists []. rewrite app_nil_r. split_and!; [done|done|constructor|done]. }
  apply before_work_logs in Eb as [Hc _]. peel Hr El; apply (logs_raced _ _ _ _ (list_confined_logs _ _ _)) in El as (l & Hl & r0 & (Hconf & Hh & Hres) & Hcases).
  2: { exists l. split_and!; [by rewrite Hl, Hc|done|done|done]. }
  destruct Hcases as [<-|[?|?]]; [|done|done]. destruct a0 as [entries|n].
  - peel Hr Ev; apply visible_run in Ev as [Hc' Hv].
    + injection Hr as <- <-. exists l. split_and!; [by rewrite Hc', Hl, Hc|done|done|]. intros outcome [= <-].
      destruct (Hv _ eq_refl) as (verdicts & Hlen & -> & Hall). exists requested, (Scan_Entries entries). split_and!; [done|done|]. by exists verdicts.
    + exists l. split_and!; [by rewrite Hc', Hl, Hc|done|done|done].
  - injection Hr as <- <-. exists l. split_and!; [by rewrite Hl, Hc|done|done|]. intros outcome [= <-]. by exists requested, (Scan_TooMany n).
Qed.
End Listing.

(** ** What is claimed is what is touched, where the file system stands still *)

Section Claims.
  Context {W : Type} `{FileSystem W} (serde_refusal : Value -> string).
  (** Where every path leads. *)
  Context (leads : string -> result IoFailure string).

Definition still : Prop := forall w path, snd (canonicalize path w) = leads path.

Definition truthful (l : list FsCall) : Prop := Forall (fun c => match c with Resolved path real => leads path = Ok real | _ => True end) l.

Definition tells {A} (m : action (Disk W) Error A) : Prop := still -> logs m (fun l _ => truthful l).

Lemma tells_bind {A B} (m : action (Disk W) Error A) (k : A -> action (Disk W) Error B) : tells m -> (forall a, tells (k a)) -> tells (bind m k).
Proof.
  intros Hm Hk Hs. apply logs_bind. eapply logs_weaken; [by apply Hm|]. intros l [a|e] Hl; [|done].
  eapply logs_weaken; [by apply Hk|]. intros l' r Hl'. by apply Forall_app.
Qed.

Lemma tells_canonicalize path wrap : tells (sys (canonicalize path) (fun real => [Resolved path real]) wrap).
Proof.
  intros Hs s s' r. unfold sys. specialize (Hs (disk s) path). destruct (canonicalize path (disk s)) as [w [real|e]]; intros [= <- <-].
  - exists [Resolved path real]. split; [done|]. by constructor.
  - exists []. rewrite app_nil_r. by split; [|constructor].
Qed.

Lemma tells_sys {A} (f : W -> W * result IoFailure A) record wrap : (forall a, truthful (record a)) -> tells (sys f record wrap).
Proof. intros Hr _. apply logs_sys; [done|constructor]. Qed.

Lemma tells_look {A} (f : W -> W * A) : tells (look f).
Proof. intros _. apply logs_look. constructor. Qed.

Lemma tells_ret {A} (a : A) : tells (ret a).
Proof. intros _. apply logs_ret. constructor. Qed.

Lemma tells_throw {A} e : tells (A := A) (throw e).
Proof. intros _. apply logs_throw. constructor. Qed.

Lemma tells_lift {A} (x : Result A) : tells (lift x).
Proof. intros _. apply logs_lift. constructor. Qed.

Lemma tells_raced {A} budget cx (task : action (Disk W) Error A) : tells task -> tells (raced budget cx task).
Proof. intros Ht Hs. eapply logs_weaken; [by apply logs_raced, Ht|]. by intros l r (r0 & Hl & _). Qed.
End Claims.

Ltac tells_step :=
  match goal with
  | |- tells _ (bind _ _) => apply tells_bind; [|intros ?]
  | |- tells _ (sys (canonicalize _) _ _) => apply tells_canonicalize
  | |- tells _ (sys _ _ _) => apply tells_sys; intros ?; repeat constructor
  | |- tells _ (look _) => apply tells_look
  | |- tells _ (ret _) => apply tells_ret
  | |- tells _ (throw _) => apply tells_throw
  | |- tells _ (lift _) => apply tells_lift
  | |- tells _ (raced _ _ _) => apply tells_raced
  | |- tells _ (if ?b then _ else _) => destruct b
  | |- tells _ (let (_, _) := ?p in _) => destruct p
  | |- tells _ (match ?x with _ => _ end) => destruct x
  end.

Section Claimed.
  Context {W : Type} `{FileSystem W} (serde_refusal : Value -> string) (leads : string -> result IoFailure string).

Lemma read_tells self arguments cx : tells leads (read_invoke serde_refusal self arguments cx).
Proof. unfold read_invoke, read_confined, resolve_within, verify_handle_within. repeat tells_step. Qed.

Lemma write_tells self arguments cx : tells leads (write_invoke serde_refusal self arguments cx).
Proof.
  unfold write_invoke, before_work, write_confined, resolve_parent_within, create_within, check_target, verify_handle_within. repeat tells_step.
Qed.

Lemma resolve_within_leads root requested (s s' : Disk W) canonical : still leads ->
  resolve_within root requested s = (s', Ok canonical) -> leads (path_join root requested) = Ok canonical.
Proof.
  intros Hs. unfold resolve_within, lift, bind, sys. destruct (validate_relative requested) as [c|e] eqn:E; [|done].
  rewrite (validate_same _ _ E). rewrite <- (Hs (disk s)). destruct (canonicalize _ (disk s)) as [w [real|e]]; [|done].
  unfold confine. destruct (path_starts_with real root); by intros [= _ <-].
Qed.

Lemma resolve_parent_leads root requested (s s' : Disk W) dir name : still leads ->
  resolve_parent_within root requested s = (s', Ok (dir, name)) ->
  leads (path_join root (default EmptyString (parent requested))) = Ok dir /\ file_name requested = Some name.
Proof.
  intros Hs. unfold resolve_parent_within, lift, bind, sys, ret. destruct (validate_relative requested) as [c|e] eqn:E; [|done].
  rewrite (validate_same _ _ E). destruct (file_name requested) as [n|]; cbn [ok_or]; [|done]. rewrite <- (Hs (disk s)).
  destruct (canonicalize _ (disk s)) as [w [real|e]]; [|done]. unfold confine. destruct (path_starts_with real root); by intros [= _ <- <-].
Qed.

(** What [m] is known of in two ways is known of the same calls. *)
Lemma same_calls {A} (m : action (Disk W) Error A) P Q s s' r :
  (exists l, calls s' = calls s ++ l /\ P l) -> logs m Q -> m s = (s', r) -> exists l, calls s' = calls s ++ l /\ P l /\ Q l r.
Proof.
  intros (l & Hl & HP) HQ Hr. destruct (HQ _ _ _ Hr) as (l' & Hl' & HQ'). rewrite Hl in Hl'. apply app_inv_head in Hl' as <-. by exists l.
Qed.

(** in a file system that stands still the file that is touched is the file that was claimed: what
    the reading and the writing tool ask to be authorised for is the very path they then open,
    or create the file at. *)
Theorem claims_are_what_is_touched :
  still leads ->
  (forall self arguments cx (s s1 t t' : Disk W) claims outcome,
     read_planned serde_refusal self arguments s = (s1, Ok claims) -> read_invoke serde_refusal self arguments cx t = (t', Ok outcome) ->
     exists l canonical, calls t' = calls t ++ l /\ claims = [{| claim_action := read_action self; claim_resource := path_display canonical |}] /\
       path_starts_with canonical (read_root self) = true /\ (exists fd, Opened canonical fd ∈ l) /\ forall path fd, Opened path fd ∈ l -> path = canonical) /\
  (forall self arguments cx (s s1 t t' : Disk W) claims outcome,
     write_planned serde_refusal self arguments s = (s1, Ok claims) -> write_invoke serde_refusal self arguments cx t = (t', Ok outcome) ->
     exists l dir name, calls t' = calls t ++ l /\
       claims = [{| claim_action := write_action self; claim_resource := path_display (path_join dir name) |}] /\
       forall d n mode fd, Opened_at d n mode fd ∈ l -> n = name /\ Opened_dir dir d ∈ l).
Proof.
  intros Hs. split; intros self arguments cx s s1 t t' claims outcome Hp Hi.
  - destruct (same_calls _ _ _ _ _ _ (read_invoke_logs _ _ _ _ _ _ _ Hi) (read_tells self arguments cx Hs) Hi) as (l & Hl & (_ & _ & Hout) & Ht).
    destruct (Hout _ eq_refl) as (path & content & Hpath & (canonical & fd & real & stat & _ & Hroot & _ & _ & Hcalls) & _).
    unfold read_planned, read_parse in Hp. rewrite Hpath in Hp. unfold lift at 1, bind at 1 in Hp. cbn [ok_or] in Hp. peel Hp Er.
    apply resolve_within_leads in Er; [|done]. injection Hp as _ <-. exists l, canonical.
    assert (a = canonical) as ->.
    { assert (Hin : Resolved (path_join (read_root self) path) canonical ∈ l) by (destruct Hcalls as [[-> _]|(buffer & -> & _)]; left).
      unfold truthful in Ht. rewrite Forall_forall in Ht. specialize (Ht _ Hin). simpl in Ht. congruence. }
    split_and!; try done; destruct Hcalls as [[-> _]|(buffer & -> & _)]; try (exists fd; set_solver); set_solver.
  - destruct (same_calls _ _ _ _ _ _ (write_invoke_run _ _ _ _ _ _ _ Hi) (write_tells self arguments cx Hs) Hi) as (l & Hl & (_ & _ & Hout) & Ht).
    destruct (Hout _ eq_refl) as (input & Hin & Hcases).
    unfold write_planned, write_parse in Hp. rewrite Hin in Hp. unfold lift at 1, bind at 1 in Hp. cbn [ok_or] in Hp. unfold target in Hp. peel Hp Ew. peel Ew Et.
    destruct a0 as [dir name]. injection Ew as <- <-. injection Hp as _ <-. apply resolve_parent_leads in Et as [Hdir Hname]; [|done].
    exists l, dir, name. split_and!; try done. destruct Hcases as [(_ & Hw & _)|(_ & -> & _)]; [|set_solver].
    destruct Hw as (dir' & real_dir & name' & d & fd & real & stat & _ & Hname' & _ & _ & _ & _ & _ & ->).
    unfold truthful in Ht. apply Forall_inv in Ht. simpl in Ht. rewrite Hdir in Ht. injection Ht as ->. rewrite Hname in Hname'. injection Hname' as ->. set_solver.
Qed.
End Claimed.

(** ** Plain relative paths *)

(** a path that is accepted leads below the root, as far as its words go: exactly the paths that are
    not empty, hold no NUL and consist of ordinary names are accepted, before the file system is
    asked anything, and joined to a root each adds its names below it. *)
Theorem accepted_paths_lead_below (requested : string) :
  (validate_relative requested = Ok requested <->
     requested <> EmptyString /\ has_nul requested = false /\ is_absolute requested = false /\
     Forall (fun c => is_normal c = true) (components requested)) /\
  (forall root, root <> EmptyString -> is_ok (validate_relative requested) = true ->
     components (path_join root requested) = components root ++ components requested /\
     path_starts_with (path_join root requested) root = true /\
     forall c, c ∈ components requested -> exists name, c = Normal name).
Proof.
  assert (Hiff : is_ok (validate_relative requested) = true <-> requested <> EmptyString /\ has_nul requested = false /\ is_absolute requested = false /\
     Forall (fun c => is_normal c = true) (components requested)).
  { unfold validate_relative. destruct (str_is_empty requested) eqn:Ee; [split; [done|]; intros (? & _); by destruct requested|].
    destruct (has_nul requested); [split; [done|by intros (_ & ? & _)]|]. destruct (is_absolute requested); [split; [done|by intros (_ & _ & ? & _)]|].
    destruct (forallb is_normal (components requested)) eqn:Ef; simpl.
    - split; [|done]. intros _. split_and!; [by destruct requested|done|done|]. rewrite Forall_forall. intros c Hc.
      rewrite forallb_forall in Ef. apply Ef. by apply list_elem_of_In.
    - split; [done|]. intros (_ & _ & _ & Hall). enough (forallb is_normal (components requested) = true) by congruence.
      apply forallb_forall. intros c Hc. rewrite Forall_forall in Hall. apply Hall. by apply list_elem_of_In. }
  split.
  - rewrite <- Hiff. split; [by intros ->|]. destruct (validate_relative requested) as [c|e] eqn:E; [|done]. intros _. by rewrite (validate_same _ _ E).
  - intros root Hroot Hok. apply Hiff in Hok as (Hne & _ & Habs & Hall).
    assert (Hjoin : components (path_join root requested) = components root ++ components requested).
    { apply components_join; [done| |done]. unfold plain_start. intros Hdot. unfold components in Hall. rewrite Habs in Hall.
      destruct (split_char SLASH_CHAR requested) as [|first rest]; [done|]. simpl in Hdot. subst first. by apply Forall_inv in Hall. }
    split_and!; [done|unfold path_starts_with; rewrite Hjoin; apply is_prefix_spec; by eexists|].
    intros c Hc. rewrite Forall_forall in Hall. specialize (Hall c Hc). destruct c; try done. by eexists.
Qed.

Module Demo.

Inductive Node := File (content : string) | Directory | Link (target : string).

(** Nodes by their path, and the paths that are open. *)
Record Toy := { nodes : gmap string Node; fds : list string }.

Definition gone : IoFailure := {| io_kind := Io_NotFound; io_error := BoxForeign "no such file" None |}.
Definition a_loop : IoFailure := {| io_kind := Io_Loop; io_error := BoxForeign "too many links" None |}.

Definition open_node (path : string) (w : Toy) : Toy * result IoFailure Z :=
  match nodes w !! path with
  | None => (w, Err gone)
  | Some (Link _) => (w, Err a_loop)
  | Some _ => ({| nodes := nodes w; fds := fds w ++ [path] |}, Ok (Z.of_nat (length (fds w))))
  end.

Definition path_of (fd : Z) (w : Toy) : string := default EmptyString (fds w !! Z.to_nat fd).

#[local] Instance toy : FileSystem Toy := {
  canonicalize path w := (w, let path := trim_end_char SLASH_CHAR path in
                             match nodes w !! path with Some (Link target) => Ok target | Some _ => Ok path | None => Err gone end);
  is_dir path w := (w, match nodes w !! path with Some Directory => true | _ => false end);
  open_read := open_node;
  open_directory := open_node;
  open_at dir name mode w :=
    let path := path_join (path_of dir w) name in
    match nodes w !! path with
    | None => open_node path {| nodes := <[path := File EmptyString]> (nodes w); fds := fds w |}
    | Some _ => open_node path w
    end;
  real_path fd w := (w, Ok (path_of fd w));
  fstat fd w := (w, Ok match nodes w !! path_of fd w with
                       | Some (File content) => {| st_is_file := true; st_len := str_len content; st_nlink := 1 |}
                       | _ => {| st_is_file := false; st_len := 0; st_nlink := 1 |}
                       end);
  read_up_to fd n w := (w, Ok match nodes w !! path_of fd w with Some (File content) => String.substring 0 (Z.to_nat n) content | _ => EmptyString end);
  write_all fd content w := ({| nodes := <[path_of fd w := File content]> (nodes w); fds := fds w |}, Ok tt);
  set_len fd n w := (w, Ok tt);
  sync_all fd w := (w, Ok tt);
  read_dir fd w := (w, Ok [{| entry_file_name := "b"; entry_id := 1 |}; {| entry_file_name := "a"; entry_id := 2 |}]%string);
  file_type e w := (w, Ok Type_File);
  entry_len e w := (w, Some (entry_id e));
  fs_now w := (w, 5);
  select _ w := (w, Sel_joined);
}.

Definition tree : gmap string Node :=
  list_to_map [("/r", Directory); ("/r/notes", File "hello"); ("/r/secret", File "key"); ("/r/link", Link "/r/notes"); ("/r/out", Link "/etc/passwd")]%string.

(** The same tree, after somebody has pointed the link elsewhere. *)
Definition swapped : gmap string Node := <["/r/link"%string := Link "/r/secret"]> tree.

Definition on (nodes : gmap string Node) : Disk Toy := Build_Disk {| nodes := nodes; fds := [] |} [].

Definition reader (limit : Z) : FsReadTool :=
  {| read_name := DEFAULT_NAME; read_action := DEFAULT_PERMISSION; read_root := "/r"; read_max_bytes := limit; read_timeout := DEFAULT_TIMEOUT |}.
Definition writer : FsWriteTool :=
  {| write_name := DEFAULT_WRITE_NAME; write_action := DEFAULT_WRITE_PERMISSION; write_root := "/r"; write_max_bytes := 100; create_mode := DEFAULT_CREATE_MODE;
     write_timeout := DEFAULT_TIMEOUT |}.
Definition lister : FsListTool :=
  {| list_name := DEFAULT_LIST_NAME; list_action := DEFAULT_LIST_PERMISSION; list_root := "/r"; max_entries := 10; list_timeout := DEFAULT_TIMEOUT |}.

Definition no_words (v : Value) : string := EmptyString.
Definition named (path : string) : Value := json_object [("path"%string, VString path)].
Definition written (path content : string) : Value := json_object [("path", VString path); ("content", VString content)]%string.
Definition a_context : ExecutionContext := {| correlation := "c"; principal := None; deadline := None; cancellation := false; attributes := [] |}.
Definition reading (limit : Z) (path : string) (nodes : gmap string Node) := read_invoke no_words (reader limit) (named path) a_context (on nodes).

(** A link is followed again when the file is read: between the claim and the reading it may
    come to lead elsewhere under the root, and a file is read that nobody was asked about. *)
Lemma swapped_link_reads_unclaimed_file :
  snd (read_planned no_words (reader 100) (named "link") (on tree)) = Ok [{| claim_action := DEFAULT_PERMISSION; claim_resource := "/r/notes" |}]%string /\
  snd (reading 100 "link" swapped) = Ok (read_outcome "link" (Content_Text "key")).
Proof. vm_compute. done. Qed.

(** One byte more than the greatest limit is no byte at all. *)
Lemma greatest_limit_reads_nothing : snd (reading u64_max "notes" tree) = Ok (read_outcome "notes" (Content_Text EmptyString)).
Proof. vm_compute. done. Qed.

(** Inner dots and empty segments are normalised away, not refused. *)
Lemma inner_dots_are_accepted : map validate_relative ["a/./b"; "a//b/."]%string = [Ok "a/./b"; Ok "a//b/."]%string.
Proof. reflexivity. Qed.

Lemma links_out_are_refused : snd (reading 100 "out" tree) = Err outside.
Proof. vm_compute. done. Qed.

Lemma reads_are_confined_witness :
  exists s' r, reading 100 "link" tree = (s', r) /\ exists l, calls s' = l /\ confined "/r" [] l /\ harmless l.
Proof.
  eexists _, _. split; [apply surjective_pairing|].
  destruct (reads_are_confined no_words (reader 100) (named "link") a_context (on tree) _ _ (surjective_pairing _)) as (l & Hl & Hc & Hh & _).
  exists l. split_and!; [exact Hl|exact Hc|exact Hh].
Defined.

Lemma writes_are_confined_witness :
  exists s' r, write_invoke no_words writer (written "new" "text") a_context (on tree) = (s', r) /\
    is_ok r = true /\ nodes (disk s') !! "/r/new"%string = Some (File "text") /\ exists l, calls s' = l /\ confined "/r" [] l.
Proof.
  eexists _, _. split; [apply surjective_pairing|].
  destruct (writes_are_confined no_words writer (written "new" "text") a_context (on tree) _ _ (surjective_pairing _)) as (l & Hl & Hc & _).
  split_and!; [vm_compute; reflexivity|vm_compute; reflexivity|]. exists l. split; [exact Hl|exact Hc].
Defined.

Definition only_a (act : ActionId) (path : ResourceId) (w : Toy) : Toy * Result unit :=
  (w, if bool_decide (path = "/r/a"%string) then Ok tt else Err (PermissionDenied path)).

Lemma listings_are_confined_witness :
  exists s' r, list_invoke no_words only_a lister (VObject []) a_context (on tree) = (s', r) /\
    r = Ok (ToolOutcome_ok (json_object [("path", VString EmptyString);
              ("entries", VArray [entry_value {| raw_name := "a"; raw_path := "/r/a"; raw_kind := Entry_File; raw_size := Some 2 |}])]%string)) /\
    exists l, calls s' = l /\ confined "/r" [] l.
Proof.
  eexists _, _. split; [apply surjective_pairing|].
  destruct (listings_are_confined no_words only_a lister (VObject []) a_context (on tree) _ _ (surjective_pairing _)) as (l & Hl & Hc & _).
  split; [vm_compute; reflexivity|]. exists l. split; [exact Hl|exact Hc].
Defined.

(** A file system whose paths always lead to themselves. *)
#[local] Instance fixed : FileSystem Toy := {
  canonicalize path w := (w, Ok path); is_dir path w := (w, true); open_read := open_node; open_directory := open_node;
  open_at := @open_at _ toy; real_path := @real_path _ toy; fstat := @fstat _ toy; read_up_to := @read_up_to _ toy; write_all := @write_all _ toy;
  set_len := @set_len _ toy; sync_all := @sync_all _ toy; read_dir := @read_dir _ toy; file_type := @file_type _ toy; entry_len := @entry_len _ toy;
  fs_now := @fs_now _ toy; select := @select _ toy;
}.

Lemma claims_are_what_is_touched_witness :
  still (H := fixed) Ok /\
  exists claims outcome s1 t', read_planned (H := fixed) no_words (reader 100) (named "notes") (on tree) = (s1, Ok claims) /\
    read_invoke (H := fixed) no_words (reader 100) (named "notes") a_context (on tree) = (t', Ok outcome) /\
    exists l canonical, calls t' = l /\ claims = [{| claim_action := DEFAULT_PERMISSION; claim_resource := path_display canonical |}].
Proof.
  assert (Hs : still (H := fixed) Ok) by done. split; [exact Hs|].
  destruct (claims_are_what_is_touched (H := fixed) no_words Ok Hs) as [Hr _].
  destruct (read_planned (H := fixed) no_words (reader 100) (named "notes") (on tree)) as [s1 [claims|e]] eqn:Ep; [|vm_compute in Ep; discriminate].
  destruct (read_invoke (H := fixed) no_words (reader 100) (named "notes") a_context (on tree)) as [t' [outcome|e]] eqn:Ei; [|vm_compute in Ei; discriminate].
  destruct (Hr _ _ _ _ _ _ _ _ _ Ep Ei) as (l & canonical & Hl & Hc & _).
  exists claims, outcome, s1, t'. split_and!; [done|done|]. exists l, canonical. split; [exact Hl|exact Hc].
Defined.
End Demo.
