(* ===== verification/Providers.v ===== *)
(** * Providers: what the clients of the model services have in common

    The answers of [api/src/model.rs], the deadline of a call ([deadline.rs]), the failures of
    HTTP ([http.rs], [api/src/resilience.rs]) and the loop that takes a stream of bytes apart
    into lines ([stream.rs]), which the three crates write out each for its own format.  The fields
    of a request, what of a conversation has to be replayed as it was, and keys and endpoints as
    far as the crates share them are here too.  HTTP itself and the JSON parser are parameters; an error of the client library is what the code
    asks of it. *)

From S2P Require Import Prelude Base Text Serde Window Agent Net.

(** ** Answers in pieces *)

Inductive CompletionChunk :=
  | Delta (part : ContentPart)
  | Chunk_ToolCall (call : ToolCall)
  | Done (finish_reason : FinishReason) (usage : option Usage).

Definition ModelCapabilities_STREAMING : string := "streaming".
Definition ModelCapabilities_TOOLS : string := "tools".

Record ModelDescriptor := {
  model_id : ModelId;
  display_name : option string;
  context_window : option Z;
  max_output_tokens : option Z;
  capabilities : list string;
}.

(** [ModelCapabilities::has] *)
Definition has_capability (self : list string) (capability : string) : bool := existsb (fun name => bool_decide (name = capability)) self.

(** ** Deadlines *)

Record Deadline := { instant : Timestamp; budget : Duration }.

(** [Deadline::compute]; the runtime's clock reads what the kernel's does. *)
Definition Deadline_compute (now : Timestamp) (default_timeout : Duration) (cx : ExecutionContext) : Deadline :=
  let default_deadline := Timestamp_saturating_add now default_timeout in
  let deadline := match deadline cx with
                  | Some requested => if requested <? default_deadline then requested else default_deadline
                  | None => default_deadline
                  end in
  {| instant := deadline; budget := Timestamp_saturating_since deadline now |}.

(** [race]: what is seen first, cancellation before the deadline before the answer. *)
Definition race {A} (cancelled overdue : bool) (deadline : Deadline) (future : Result A) : Result A :=
  if cancelled then Err Cancelled else if overdue then Err (Timeout (budget deadline)) else future.

(** ** HTTP *)

Record ReqwestError := { is_connect : bool; is_timeout : bool; is_body : bool; reqwest_display : string }.

Definition reqwest_box (error : ReqwestError) : BoxError := BoxForeign (reqwest_display error) None.

(** [TransientFailure::caused_by] *)
Definition TransientFailure_caused_by (self : TransientFailure) (source : BoxError) : TransientFailure :=
  {| tf_detail := tf_detail self; tf_retry_after := tf_retry_after self; tf_source := Some source |}.

Definition map_reqwest_error (context : string) (error : ReqwestError) : Error :=
  if is_connect error || is_timeout error || is_body error then
    TransientFailure_wrapped (TransientFailure_caused_by (TransientFailure_new (reqwest_display error)) (reqwest_box error)) context
  else Error_wrap context (reqwest_box error).

Definition transient_status (status : Z) : bool := existsb (Z.eqb status) [408; 409; 429; 500; 502; 503; 504; 529].

(** A response: its status, the text of [Retry-After] where there is one and it is text, and
    what reading the body comes to. *)
Record Response := { status : Z; retry_after_text : option string; body : result ReqwestError string }.

Definition is_success (response : Response) : bool := (200 <=? status response) && (status response <=? 299).

Definition from_secs (secs : Z) : Duration := secs * 1000000000.

Definition retry_after (response : Response) : option Duration :=
  match retry_after_text response with
  | Some value => option_map from_secs (parse_uint u64_max (trim value))
  | None => None
  end.

(** How a failed status is reported: the error of the service, which may pass or not. *)
Definition refused (context display : string) (response : Response) : Error :=
  let source := BoxForeign display None in
  if negb (transient_status (status response)) then Error_wrap context source
  else
    let failure := TransientFailure_caused_by (TransientFailure_new display) source in
    let failure := match retry_after response with Some after => TransientFailure_after failure after | None => failure end in
    TransientFailure_wrapped failure context.

(** [response.text().await.unwrap_or_default()] *)
Definition text_or_default (response : Response) : string := match body response with Ok text => text | Err _ => EmptyString end.

(** ** Lines *)

Definition NEWLINE : ascii := chr 10.

Fixpoint cut_line (buffer : string) : option (string * string) :=
  match buffer with
  | EmptyString => None
  | String c rest =>
      if Ascii.eqb c NEWLINE then Some (EmptyString, rest)
      else match cut_line rest with Some (line, rest) => Some (String c line, rest) | None => None end
  end.

(** What a line's last character is dropped for. *)
Fixpoint strip_carriage_return (line : string) : string :=
  match line with
  | EmptyString => EmptyString
  | String c EmptyString => if Ascii.eqb c (chr 13) then EmptyString else String c EmptyString
  | String c rest => String c (strip_carriage_return rest)
  end.

(** One time the loop waits: whether it is cancelled or late, and what arrives where it is
    neither - bytes, an error, or the end. *)
Record Wait := { cancelled : bool; overdue : bool; next : option (result ReqwestError string) }.

Section Lines.
  (** What a line means - what is yielded for it and whether that is the end -, what the end of
      the bytes yields, and what is buffered at most. *)
  Context {State : Type} (line : string -> State -> State * list (Result CompletionChunk) * bool).
  Context (closed : string -> State -> list (Result CompletionChunk)) (cap : option (Z * Error)).
  Context (timeout : Duration) (context : string).

(** The inner loop: every complete line of the buffer, until one ends the stream. *)
Fixpoint drain (fuel : nat) (buffer : string) (state : State) : State * string * list (Result CompletionChunk) * bool :=
  match fuel with
  | O => (state, buffer, [], false)
  | S fuel =>
      match cut_line buffer with
      | None => (state, buffer, [], false)
      | Some (l, rest) =>
          let '(state, yielded, stop) := line l state in
          if stop then (state, rest, yielded, true)
          else let '(state, rest, more, stop) := drain fuel rest state in (state, rest, yielded ++ more, stop)
      end
  end.

Definition over_cap (buffer : string) : option Error :=
  match cap with Some (max, error) => if max <? str_len buffer then Some error else None | None => None end.

(** The stream, from a buffer on, over the times it waits: what it yields, and whether it has
    ended with them.  A line takes a byte of the buffer at least. *)
Fixpoint chunks (waits : list Wait) (buffer : string) (state : State) : list (Result CompletionChunk) * bool :=
  let '(state, buffer, yielded, stop) := drain (String.length buffer) buffer state in
  if stop then (yielded, true)
  else match over_cap buffer with
       | Some error => (yielded ++ [Err error], true)
       | None =>
           match waits with
           | [] => (yielded, false)
           | w :: waits =>
               if cancelled w then (yielded ++ [Err Cancelled], true)
               else if overdue w then (yielded ++ [Err (Timeout timeout)], true)
               else match next w with
                    | Some (Ok bytes) => let (more, ended) := chunks waits (buffer +:+ bytes) state in (yielded ++ more, ended)
                    | Some (Err error) => (yielded ++ [Err (map_reqwest_error context error)], true)
                    | None => (yielded ++ closed buffer state, true)
                    end
           end
       end.
End Lines.

(** ** Lines, whole *)

(** The lines of a text that are complete, and what is left. *)
Fixpoint split_lines (text : string) : list string * string :=
  match text with
  | EmptyString => ([], EmptyString)
  | String c text =>
      let (lines, rest) := split_lines text in
      if Ascii.eqb c NEWLINE then (EmptyString :: lines, rest)
      else match lines with [] => ([], String c rest) | l :: lines => (String c l :: lines, rest) end
  end.

Lemma cut_line_spec buffer :
  match cut_line buffer with
  | None => split_lines buffer = ([], buffer)
  | Some (l, rest) => split_lines buffer = (l :: (split_lines rest).1, (split_lines rest).2) /\ (String.length rest < String.length buffer)%nat
  end.
Proof.
  induction buffer as [|c buffer IH]; [done|]. cbn [cut_line split_lines]. destruct (Ascii.eqb c NEWLINE).
  - destruct (split_lines buffer). split; [done|]. simpl. lia.
  - destruct (cut_line buffer) as [[l rest]|]; [|by rewrite IH]. destruct IH as [-> Hl]. split; [done|]. simpl. lia.
Qed.

Lemma split_lines_app a b :
  split_lines (a +:+ b) = let (la, ra) := split_lines a in let (lb, rb) := split_lines (ra +:+ b) in (la ++ lb, rb).
Proof.
  induction a as [|c a IH].
  - cbn [split_lines]. change (EmptyString +:+ b) with b. by destruct (split_lines b).
  - change (String c a +:+ b) with (String c (a +:+ b)). cbn [split_lines]. rewrite IH. destruct (split_lines a) as [la ra].
    destruct (Ascii.eqb c NEWLINE) eqn:Ec.
    + by destruct (split_lines (ra +:+ b)).
    + destruct la as [|l la].
      * change (String c ra +:+ b) with (String c (ra +:+ b)). cbn [split_lines]. destruct (split_lines (ra +:+ b)) as [lb rb].
        rewrite Ec. by destruct lb.
      * by destruct (split_lines (ra +:+ b)).
Qed.

Lemma concat_cons (a : string) l : String.concat EmptyString (a :: l) = a +:+ String.concat EmptyString l.
Proof. destruct l; [cbn [String.concat]; by rewrite str_app_nil|done]. Qed.

Section Whole.
  Context {State : Type} (line : string -> State -> State * list (Result CompletionChunk) * bool).
  Context (closed : string -> State -> list (Result CompletionChunk)) (cap : option (Z * Error)).
  Context (timeout : Duration) (context : string).

#[local] Abbreviation chunks := (chunks line closed cap timeout context).

(** The lines one after the other, until one ends the stream. *)
Fixpoint run_lines (lines : list string) (state : State) : State * list (Result CompletionChunk) * bool :=
  match lines with
  | [] => (state, [], false)
  | l :: lines =>
      let '(state, yielded, stop) := line l state in
      if stop then (state, yielded, true)
      else let '(state, more, stop) := run_lines lines state in (state, yielded ++ more, stop)
  end.

Lemma drain_spec fuel buffer state : (String.length buffer <= fuel)%nat ->
  let '(state', rest, yielded, stop) := drain line fuel buffer state in
  run_lines (split_lines buffer).1 state = (state', yielded, stop) /\ (stop = false -> rest = (split_lines buffer).2).
Proof using.
  revert buffer state. induction fuel as [|fuel IH]; intros buffer state Hf.
  { destruct buffer; [|simpl in Hf; lia]. by split. }
  cbn [drain]. pose proof (cut_line_spec buffer) as Hc. destruct (cut_line buffer) as [[l rest]|]; [|by rewrite Hc].
  destruct Hc as [-> Hl]. cbn [fst snd run_lines]. destruct (line l state) as [[st yielded] stop] eqn:E. destruct stop; [done|].
  specialize (IH rest st ltac:(lia)). destruct (drain line fuel rest st) as [[[st' rest'] more] stop]. destruct IH as [-> Hr]. by split.
Qed.

Lemma run_lines_app a b state :
  run_lines (a ++ b) state =
  let '(st, yielded, stop) := run_lines a state in
  if stop then (st, yielded, true) else let '(st, more, stop) := run_lines b st in (st, yielded ++ more, stop).
Proof using.
  revert state. induction a as [|l a IH]; intros state; cbn [app run_lines].
  { by destruct (run_lines b state) as [[? ?] ?]. }
  destruct (line l state) as [[st yielded] [|]]; [done|]. rewrite IH. destruct (run_lines a st) as [[st1 y1] [|]]; [done|].
  destruct (run_lines b st1) as [[st2 y2] stop]. by rewrite app_assoc.
Qed.

Lemma split_rest t : split_lines (split_lines t).2 = ([], (split_lines t).2).
Proof using.
  induction t as [|c t IH]; [done|]. cbn [split_lines]. destruct (split_lines t) as [lines rest]. cbn [fst snd] in IH.
  destruct (Ascii.eqb c NEWLINE) eqn:Ec; [done|]. destruct lines; [|done]. cbn [snd split_lines]. by rewrite IH, Ec.
Qed.

(** One time round, where the buffer holds no complete line. *)
Lemma chunks_wait waits rest state : split_lines rest = ([], rest) ->
  chunks waits rest state =
  match over_cap cap rest with
  | Some error => ([Err error], true)
  | None => match waits with
            | [] => ([], false)
            | w :: waits =>
                if cancelled w then ([Err Cancelled], true)
                else if overdue w then ([Err (Timeout timeout)], true)
                else match next w with
                     | Some (Ok bytes) => chunks waits (rest +:+ bytes) state
                     | Some (Err error) => ([Err (map_reqwest_error context error)], true)
                     | None => (closed rest state, true)
                     end
            end
  end.
Proof using.
  intros Hr. pose proof (drain_spec (String.length rest) rest state (Nat.le_refl _)) as H.
  destruct waits as [|w waits]; cbn [Providers.chunks]; destruct (drain line _ rest state) as [[[st' rest'] yielded'] stop];
    rewrite Hr in H; destruct H as [Heq Hr']; injection Heq as <- <- <-; rewrite (Hr' eq_refl); cbn [snd app]; destruct (over_cap cap _); try done.
  destruct (cancelled w); [done|]. destruct (overdue w); [done|]. destruct (next w) as [[bytes|e]|]; [|done|done].
  by destruct (chunks waits _ state).
Qed.

(** The stream in terms of the lines of its buffer. *)
Lemma chunks_lines waits buffer state :
  chunks waits buffer state =
  let '(st, yielded, stop) := run_lines (split_lines buffer).1 state in
  if stop then (yielded, true)
  else let (more, ended) := chunks waits (split_lines buffer).2 st in (yielded ++ more, ended).
Proof using.
  destruct (run_lines (split_lines buffer).1 state) as [[st yielded] stop] eqn:E.
  rewrite (chunks_wait waits (split_lines buffer).2) by apply split_rest. pose proof (drain_spec _ buffer state (Nat.le_refl _)) as H.
  destruct waits as [|w waits]; cbn [Providers.chunks]; destruct (drain line _ buffer state) as [[[st1 rest] yielded1] stop1];
    destruct H as [H Hr]; rewrite E in H; injection H as -> -> ->; (destruct stop1; [done|]); rewrite (Hr eq_refl).
  - destruct (over_cap cap _); [done|]. by rewrite app_nil_r.
  - destruct (over_cap cap _); [done|]. destruct (cancelled w); [done|]. destruct (overdue w); [done|].
    destruct (next w) as [[bytes|e]|]; [|done|done]. by destruct (chunks waits _ st1).
Qed.

Definition arrives (bytes : string) : Wait := {| cancelled := false; overdue := false; next := Some (Ok bytes) |}.

(** No line, and no rest of one, is longer than what is buffered. *)
Definition within_cap (text : string) : Prop :=
  match cap with
  | Some (max, _) => Forall (fun l => str_len l <= max) ((split_lines text).1 ++ [(split_lines text).2])
  | None => True
  end.

Lemma head_line_longer rest text : split_lines rest = ([], rest) ->
  exists l, head ((split_lines (rest +:+ text)).1 ++ [(split_lines (rest +:+ text)).2]) = Some l /\ str_len rest <= str_len l.
Proof using.
  revert text. induction rest as [|c rest IH]; intros text Hr.
  { destruct (split_lines (EmptyString +:+ text)) as [[|l lines] r]; eexists; (split; [reflexivity|]); apply str_len_nonneg. }
  cbn [split_lines] in Hr. destruct (split_lines rest) as [lines r] eqn:E. destruct (Ascii.eqb c NEWLINE) eqn:Ec; [done|].
  destruct lines; [|done]. injection Hr as ->. destruct (IH text eq_refl) as (l & Hl & Hle).
  change (String c rest +:+ text) with (String c (rest +:+ text)). cbn [split_lines]. rewrite Ec.
  destruct (split_lines (rest +:+ text)) as [[|l' lines] r']; simpl in Hl; injection Hl as ->; simpl; eexists; (split; [reflexivity|]);
    unfold str_len in *; simpl; lia.
Qed.

Lemma over_cap_rest rest text : split_lines rest = ([], rest) -> within_cap (rest +:+ text) -> over_cap cap rest = None.
Proof using.
  intros Hr. unfold within_cap, over_cap. destruct cap as [[max error]|]; [|done]. intros Hw.
  destruct (head_line_longer rest text Hr) as (l & Hl & Hle). destruct ((split_lines _).1 ++ _); [done|]. injection Hl as ->.
  inversion_clear Hw. destruct (Z.ltb_spec max (str_len rest)); [lia|done].
Qed.

Lemma within_cap_rest buffer text : within_cap (buffer +:+ text) -> within_cap ((split_lines buffer).2 +:+ text).
Proof using.
  unfold within_cap. destruct cap as [[max error]|]; [|done]. rewrite split_lines_app. destruct (split_lines buffer) as [la ra].
  cbn [snd]. destruct (split_lines (ra +:+ text)) as [lb rb]. cbn [fst snd]. rewrite <- app_assoc. by intros [_ ?]%Forall_app.
Qed.

Lemma chunks_app waits buffer text state :
  chunks waits (buffer +:+ text) state =
  let '(st, yielded, stop) := run_lines (split_lines buffer).1 state in
  if stop then (yielded, true)
  else let (more, ended) := chunks waits ((split_lines buffer).2 +:+ text) st in (yielded ++ more, ended).
Proof using.
  rewrite (chunks_lines waits (buffer +:+ text)). rewrite split_lines_app. destruct (split_lines buffer) as [la ra]. cbn [fst snd].
  destruct (split_lines (ra +:+ text)) as [lb rb] eqn:E. cbn [fst snd]. rewrite run_lines_app.
  destruct (run_lines la state) as [[st yielded] [|]]; [done|]. rewrite (chunks_lines waits (ra +:+ text)), E. cbn [fst snd].
  destruct (run_lines lb st) as [[st' more] [|]]; [done|]. destruct (chunks waits rb st'). by rewrite app_assoc.
Qed.

(** How the bytes were cut on their way does not matter. *)
Lemma cuts_do_not_matter pieces waits buffer state :
  within_cap (buffer +:+ String.concat EmptyString pieces) ->
  chunks (map arrives pieces ++ waits) buffer state = chunks waits (buffer +:+ String.concat EmptyString pieces) state.
Proof using.
  revert buffer state. induction pieces as [|b pieces IH]; intros buffer state Hw; [simpl; by rewrite str_app_nil|].
  rewrite concat_cons in *. rewrite chunks_app, chunks_lines. destruct (run_lines _ state) as [[st yielded] [|]]; [done|].
  apply within_cap_rest in Hw. cbn [map app]. rewrite chunks_wait by apply split_rest.
  rewrite (over_cap_rest _ (b +:+ String.concat EmptyString pieces)) by (by try apply split_rest). cbn [arrives cancelled overdue next].
  rewrite IH; rewrite str_app_assoc; done.
Qed.

(** ** Ends *)

(** An answer, or the failure of one, ends a stream; all else is a piece of it. *)
Definition piece (r : Result CompletionChunk) : bool := match r with Err _ | Ok (Done _ _) => false | Ok _ => true end.

(** Pieces, and behind them at most one end, which only a stream that has ended has. *)
Definition ends_once (yielded : list (Result CompletionChunk)) (ended : bool) : Prop :=
  exists pieces last, yielded = pieces ++ last /\ Forall (fun r => piece r = true) pieces /\
    (last = [] \/ ended = true /\ exists r, last = [r] /\ piece r = false).

Lemma ends_pieces l ended : Forall (fun r => piece r = true) l -> ends_once l ended.
Proof using. intros Hl. exists l, []. rewrite app_nil_r. split_and!; [done|done|by left]. Qed.

Lemma ends_with l r : Forall (fun r => piece r = true) l -> piece r = false -> ends_once (l ++ [r]) true.
Proof using. intros Hl Hr. exists l, [r]. split_and!; [done|done|right]. split; [done|by exists r]. Qed.

Lemma ends_app l more ended : Forall (fun r => piece r = true) l -> ends_once more ended -> ends_once (l ++ more) ended.
Proof using.
  intros Hl (pieces & last & -> & Hp & Hlast). exists (l ++ pieces), last. rewrite app_assoc. split_and!; [done| |done]. by apply Forall_app.
Qed.

Lemma ends_not_yet l : ends_once l false -> Forall (fun r => piece r = true) l.
Proof using. intros (pieces & last & -> & Hp & [->|[[=] _]]). by rewrite app_nil_r. Qed.

Section Ends.
  Context (line_ends : forall l st, let '(_, yielded, stop) := line l st in ends_once yielded stop).
  Context (closed_ends : forall rest st, ends_once (closed rest st) true).

Lemma run_lines_ends lines state : let '(_, yielded, stop) := run_lines lines state in ends_once yielded stop.
Proof using line_ends.
  revert state. induction lines as [|l lines IH]; intros state; cbn [run_lines]; [by apply ends_pieces|].
  pose proof (line_ends l state) as Hl. destruct (line l state) as [[st yielded] [|]]; [done|].
  specialize (IH st). destruct (run_lines lines st) as [[st' more] stop]. apply ends_app; [by apply ends_not_yet|done].
Qed.

Lemma chunks_end waits buffer state : let (yielded, ended) := chunks waits buffer state in ends_once yielded ended.
Proof using line_ends closed_ends.
  revert buffer state. induction waits as [|w waits IH]; intros buffer state; rewrite chunks_lines;
    pose proof (run_lines_ends (split_lines buffer).1 state) as Hl; destruct (run_lines _ state) as [[st yielded] [|]]; try done;
    apply ends_not_yet in Hl; rewrite chunks_wait by apply split_rest.
  - destruct (over_cap cap _); [by apply ends_with|]. rewrite app_nil_r. by apply ends_pieces.
  - destruct (over_cap cap _); [by apply ends_with|]. destruct (cancelled w); [by apply ends_with|].
    destruct (overdue w); [by apply ends_with|]. destruct (next w) as [[bytes|e]|].
    + specialize (IH ((split_lines buffer).2 +:+ bytes) st). destruct (chunks waits _ st). by apply ends_app.
    + by apply ends_with.
    + by apply ends_app.
Qed.
End Ends.

(** The bytes that arrive over some waits. *)
Definition arrived (waits : list Wait) : string :=
  String.concat EmptyString (map (fun w => match next w with Some (Ok bytes) => bytes | _ => EmptyString end) waits).

(** What holds of everything a stream yields, by what holds of the states between its lines. *)
Lemma chunks_all (L : string -> Prop) (I : State -> Prop) (Q : Result CompletionChunk -> Prop) waits buffer state :
  (forall l st, L l -> I st -> let '(st', yielded, stop) := line l st in (stop = false -> I st') /\ Forall Q yielded) ->
  (forall rest st, I st -> Forall Q (closed rest st)) -> (forall e, Q (Err e)) -> I state ->
  Forall L (split_lines (buffer +:+ arrived waits)).1 -> Forall Q (chunks waits buffer state).1.
Proof using.
  intros Hline Hclosed He. assert (Hrun : forall lines st, Forall L lines -> I st ->
    let '(st', yielded, stop) := run_lines lines st in (stop = false -> I st') /\ Forall Q yielded).
  { induction lines as [|l lines IH]; intros st HL Hst; cbn [run_lines]; [by split|]. apply Forall_cons in HL as [Hl HL]. specialize (Hline l st Hl Hst).
    destruct (line l st) as [[st' yielded] [|]]; [destruct Hline; by split|]. destruct Hline as [Hst' Hy]. specialize (IH st' HL (Hst' eq_refl)).
    destruct (run_lines lines st') as [[st'' more] stop]. destruct IH. split; [done|]. by apply Forall_app. }
  revert buffer state. induction waits as [|w waits IH]; intros buffer state Hs HL; rewrite chunks_lines; rewrite split_lines_app in HL;
    destruct (split_lines buffer) as [la ra] eqn:Ela; destruct (split_lines (ra +:+ _)) as [lb rb] eqn:Elb in HL; cbn [fst snd] in *;
    apply Forall_app in HL as [HLa HLb]; specialize (Hrun la state HLa Hs); destruct (run_lines la state) as [[st yielded] [|]]; try apply Hrun;
    destruct Hrun as [Hst Hy]; specialize (Hst eq_refl);
    assert (Hra : split_lines ra = ([], ra)) by (pose proof (split_rest buffer) as Hr; by rewrite Ela in Hr);
    rewrite chunks_wait by done; (destruct (over_cap cap _); [apply Forall_app; by split; [|constructor]|]).
  - apply Forall_app. by split.
  - destruct (cancelled w); [apply Forall_app; by split; [|constructor]|]. destruct (overdue w); [apply Forall_app; by split; [|constructor]|].
    destruct (next w) as [[bytes|e]|] eqn:En; [|apply Forall_app; by split; [|constructor]|apply Forall_app; by split; [|apply Hclosed]].
    assert (Htext : arrived (w :: waits) = bytes +:+ arrived waits) by (unfold arrived; cbn [map]; by rewrite concat_cons, En).
    rewrite Htext, <- str_app_assoc in Elb. specialize (IH (ra +:+ bytes) st Hst). rewrite Elb in IH. specialize (IH HLb).
    destruct (chunks waits _ st). apply Forall_app. by split.
Qed.
End Whole.

(** ** The library of JSON, as far as it is not values *)

Class Json := {
  (** [serde_json::from_str] and [from_slice], of a [Value]: a text parsed, or the refusal. *)
  from_str : string -> result BoxError Value;
  (** [Value::to_string] *)
  to_string : Value -> string;
  (** What the client library reports of a body that does not decode, and what
      [serde_json::from_value] says of a value. *)
  undecodable : string -> ReqwestError;
  (** [{:?}] of a content part *)
  debug_part : ContentPart -> string;
}.

(** [response.json()] *)
Definition decode_body `{Json} {A} (decode : Value -> option A) (response : Response) : result ReqwestError A :=
  match body response with
  | Err error => Err error
  | Ok text => match from_str text with
               | Ok value => match decode value with Some a => Ok a | None => Err (undecodable text) end
               | Err _ => Err (undecodable text)
               end
  end.

Definition debug_role (role : Role) : string :=
  match role with Role_System => "System" | Role_User => "User" | Role_Assistant => "Assistant" | Role_Tool => "Tool" end.

(** A list of what [f] decodes. *)
Definition as_list {A} (f : Value -> option A) (v : Value) : option (list A) := match v with VArray items => mapM f items | _ => None end.

(** [event_data]: the payload of a [data:] line. *)
Definition event_data (line : string) : option string :=
  match strip_prefix line "data:" with
  | Some (String " " rest) => Some rest
  | Some rest => Some rest
  | None => None
  end.

(** ** Requests and answers as JSON *)

Definition present {A} (key : string) (f : A -> Value) (v : option A) : list (string * Value) :=
  match v with Some a => [(key, f a)] | None => [] end.

(** [skip_serializing_if = "Vec::is_empty"] *)
Definition array_unless_empty {A} (key : string) (f : A -> Value) (l : list A) : list (string * Value) :=
  match l with [] => [] | _ => [(key, VArray (map f l))] end.

Definition find_key (keys : list string) (map : Map) : option string := find (fun key => bool_decide (is_Some (Map_get key map))) keys.

Definition BLANK_LINE : string := String (chr 10) (String (chr 10) EmptyString).

(** The parts in turn, up to the first that is refused. *)
Fixpoint collect {A B} (f : A -> Result (list B)) (l : list A) : Result (list B) :=
  match l with
  | [] => Ok []
  | a :: l => let? b := f a in let? bs := collect f l in Ok (b ++ bs)
  end.

Definition option_list {A} (o : option A) : list A := match o with Some a => [a] | None => [] end.

Definition nonempty (s : option string) : option string := match s with Some s => if str_is_empty s then None else Some s | None => None end.

Definition field (value : Value) (name : string) : Z := default 0 (Value_get value name ≫= as_u64).

(** ** Keys and endpoints *)

(** [u8::is_ascii_graphic], or a space *)
Definition visible (c : ascii) : bool := let n := Z.of_N (N_of_ascii c) in (32 <=? n) && (n <=? 126).

Record ApiKey := { expose : string }.

(** A file as the code asks about it: what it is and its mode, and its text. *)
Record KeyFile := { metadata : result string (bool * Z); contents : result string string }.

(** A parsed URL, as far as it is asked. *)
Record Url := { scheme : string; host_str : option string }.

(** [IpAddr::is_loopback] *)
Definition ip_is_loopback (address : IpAddr) : bool :=
  match address with
  | V4 a _ _ _ => a =? 127
  | V6 s0 s1 s2 s3 s4 s5 s6 s7 => bool_decide (V6 s0 s1 s2 s3 s4 s5 s6 s7 = V6 0 0 0 0 0 0 0 1)
  end.

Lemma find_key_none keys map key : find_key keys map = None -> key ∈ keys -> Map_get key map = None.
Proof.
  unfold find_key. intros Hf Hk. apply list_elem_of_In in Hk. pose proof (find_none _ _ Hf key Hk) as H. cbv beta in H.
  apply bool_decide_eq_false in H. by apply eq_None_not_Some.
Qed.

Lemma Map_get_none key map : Map_get key map = None <-> key ∉ List.map fst map.
Proof.
  induction map as [|[k v] map IH]; simpl; [by split; [intros _ H; inversion H|]|]. destruct (decide (key = k)) as [->|Hne].
  - split; [done|]. intros H. destruct H. by left.
  - rewrite IH, not_elem_of_cons. naive_solver.
Qed.

(** ** Calls and their answers *)

(** What has to be replayed as it was: a call the model made, and the answer to one, with their
    contents as they are sent. *)
Inductive Event (A B : Type) := Called (id name : string) (arguments : A) | Answered (id : string) (answer : B).
Arguments Called {A B}.
Arguments Answered {A B}.

Section Events.
  Context {A B : Type} (sent : Value -> A) (answer : Value -> bool -> B).

Definition part_event (part : ContentPart) : option (Event A B) :=
  match part with
  | Part_ToolCall call => Some (Called (call_id call) (call_name call) (sent (arguments call)))
  | ToolResult id content is_error => Some (Answered id (answer content is_error))
  | _ => None
  end.

(** Every answer is to a call before it. *)
Fixpoint events_answered (before : gset string) (events : list (Event A B)) : Prop :=
  match events with
  | [] => True
  | Called id _ _ :: events => events_answered ({[id]} ∪ before) events
  | Answered id _ :: events => id ∈ before /\ events_answered before events
  end.

Lemma answers_events before parts : answers before parts <-> events_answered before (omap part_event parts).
Proof using.
  revert before. induction parts as [|part parts IH]; intros before; [done|]. destruct part; simpl; rewrite ?IH; done.
Qed.

(** In the window a model is shown, every answer is to a call that is shown before it. *)
Lemma window_events_answered `{T : TokenCounter} {TL : TokenCounterLaws T} records budget :
  events_answered ∅ (omap part_event (concat (map content (messages (assemble records budget))))).
Proof using.
  apply answers_events. destruct (assemble_spec records budget) as (j & kept & _ & Hrep & Hans & _ & _ & -> & _).
  by rewrite concat_live by (apply Forall2_length in Hrep; by rewrite length_map in Hrep).
Qed.
End Events.

Lemma omap_concat {A B} (f : A -> option B) l : omap f l = concat (map (fun a => option_list (f a)) l).
Proof. induction l as [|a l IH]; [done|]. simpl. rewrite <- IH. by destruct (f a). Qed.

(** What each element says is what is collected of it. *)
Lemma collect_says {A B E} (f : A -> Result (list B)) (here : A -> list E) (there : B -> list E) l bs :
  (forall a b, f a = Ok b -> concat (map there b) = here a) -> collect f l = Ok bs -> concat (map there bs) = concat (map here l).
Proof.
  intros Hf. revert bs. induction l as [|a l IH]; intros bs; cbn [collect]; [by intros [= <-]|].
  destruct (f a) as [b|] eqn:Ea; [|done]. simpl. destruct (collect f l) as [bs'|]; [|done]. simpl. intros [= <-].
  by rewrite map_app, concat_app, (Hf a b Ea), (IH bs' eq_refl).
Qed.
