(* ===== verification/OpenAi.v ===== *)
(** * OpenAi: the chat-completions client ([crates/openai])

    The translation of conversations and answers ([protocol.rs]), the assembly of a streamed
    answer ([stream.rs]), the calls ([provider.rs], [http.rs]) and where the key comes from and
    may go ([credentials.rs], [settings.rs]). *)

From S2P Require Import Prelude Base Config Text Serde Window Agent Net Providers.

(** ** Wire types ([protocol.rs]) *)

Definition RESERVED_PARAMETERS : list string := ["model"; "messages"; "tools"; "stream"; "stream_options"].
Definition UNSUPPORTED_PARAMETERS : list string := ["n"].

Inductive Part := Part_Text (text : string) | Part_ImageUrl (url : string).
Inductive Content := Content_Text (text : string) | Content_Parts (parts : list Part).

Record WireToolCall := { wc_id : string; wc_name : string; wc_arguments : string }.

Record WireMessage := {
  wire_role : string;
  wire_content : option Content;
  wire_name : option string;
  wire_tool_calls : list WireToolCall;
  wire_tool_call_id : option string;
}.

(** [WireMessage::new] *)
Definition WireMessage_new (role : string) : WireMessage :=
  {| wire_role := role; wire_content := None; wire_name := None; wire_tool_calls := []; wire_tool_call_id := None |}.

Record WireTool := { wt_name : string; wt_description : string; wt_parameters : Value }.

Record ChatRequest := {
  cr_model : string;
  cr_messages : list WireMessage;
  cr_tools : list WireTool;
  cr_stream : bool;
  cr_stream_options : bool;
  cr_extra : Map;
}.

(** *** As JSON: [#[derive(Serialize)]] *)

Definition part_json (p : Part) : Value :=
  match p with
  | Part_Text text => json_object [("type", VString "text"); ("text", VString text)]
  | Part_ImageUrl url => json_object [("type", VString "image_url"); ("image_url", json_object [("url", VString url)])]
  end.

Definition content_json (c : Content) : Value :=
  match c with Content_Text text => VString text | Content_Parts parts => VArray (map part_json parts) end.

Definition tool_call_json (c : WireToolCall) : Value :=
  json_object [("id", VString (wc_id c)); ("type", VString "function");
               ("function", json_object [("name", VString (wc_name c)); ("arguments", VString (wc_arguments c))])].

Definition message_json (m : WireMessage) : Value :=
  json_object ([("role", VString (wire_role m))] ++ present "content" content_json (wire_content m) ++ present "name" VString (wire_name m) ++
    array_unless_empty "tool_calls" tool_call_json (wire_tool_calls m) ++
    present "tool_call_id" VString (wire_tool_call_id m)).

Definition tool_json (t : WireTool) : Value :=
  json_object [("type", VString "function");
    ("function", json_object [("name", VString (wt_name t)); ("description", VString (wt_description t)); ("parameters", wt_parameters t)])].

Definition own_entries (r : ChatRequest) : list (string * Value) :=
  [("model", VString (cr_model r)); ("messages", VArray (map message_json (cr_messages r)))] ++ array_unless_empty "tools" tool_json (cr_tools r) ++
  [("stream", VBool (cr_stream r))] ++
  (if cr_stream_options r then [("stream_options", json_object [("include_usage", VBool true)])] else []).

(** The entries of the request's object, in the order they are written: [extra] is flattened
    into it, so nothing but its keys keeps an entry from being written twice. *)
Definition request_entries (r : ChatRequest) : list (string * Value) := own_entries r ++ cr_extra r.

(** *** As read: [#[derive(Deserialize)]] *)

Record ResponseFunction := { rf_name : option string; rf_arguments : option string }.
Record ResponseToolCall := { rtc_id : option string; rtc_function : ResponseFunction }.
Record ResponseMessage := { rm_content : option string; rm_tool_calls : list ResponseToolCall }.
Record Choice := { choice_message : ResponseMessage; choice_finish_reason : option string }.
Record ChatResponse := { cres_choices : list Choice; cres_usage : option Usage }.

Definition ResponseFunction_default : ResponseFunction := {| rf_name := None; rf_arguments := None |}.
Definition ResponseMessage_default : ResponseMessage := {| rm_content := None; rm_tool_calls := [] |}.

Definition response_function (v : Value) : option ResponseFunction :=
  match open_fields ["name"; "arguments"] v with
  | Some [n; a] => n ← optional Value_as_str n; a ← optional Value_as_str a; Some {| rf_name := n; rf_arguments := a |}
  | _ => None
  end.

Definition response_tool_call (v : Value) : option ResponseToolCall :=
  match open_fields ["id"; "function"] v with
  | Some [i; f] => i ← optional Value_as_str i; f ← defaulted response_function ResponseFunction_default f; Some {| rtc_id := i; rtc_function := f |}
  | _ => None
  end.

Definition response_message (v : Value) : option ResponseMessage :=
  match open_fields ["content"; "tool_calls"] v with
  | Some [c; t] => c ← optional Value_as_str c; t ← defaulted (as_list response_tool_call) [] t; Some {| rm_content := c; rm_tool_calls := t |}
  | _ => None
  end.

Definition choice (v : Value) : option Choice :=
  match open_fields ["message"; "finish_reason"] v with
  | Some [m; f] =>
      m ← defaulted response_message ResponseMessage_default m; f ← optional Value_as_str f;
      Some {| choice_message := m; choice_finish_reason := f |}
  | _ => None
  end.

(** [WireUsage], and [From<WireUsage> for Usage] *)
Definition wire_usage (v : Value) : option Usage :=
  match open_fields ["prompt_tokens"; "completion_tokens"] v with
  | Some [p; c] => p ← defaulted as_u64 0 p; c ← defaulted as_u64 0 c; Some {| usage_input := p; usage_output := c |}
  | _ => None
  end.

Definition chat_response (v : Value) : option ChatResponse :=
  match open_fields ["choices"; "usage"] v with
  | Some [c; u] => c ← defaulted (as_list choice) [] c; u ← optional wire_usage u; Some {| cres_choices := c; cres_usage := u |}
  | _ => None
  end.

(** [ModelsResponse]: the ids. *)
Definition model_entry (v : Value) : option string :=
  match open_fields ["id"] v with Some [Some id] => Value_as_str id | _ => None end.
Definition models_response (v : Value) : option (list string) :=
  match open_fields ["data"] v with Some [d] => defaulted (as_list model_entry) [] d | _ => None end.

(** ** Requests *)

Definition kind_of (value : Value) : string :=
  match value with
  | VNull => "null" | VBool _ => "a boolean" | VNumber _ => "a number" | VString _ => "a string" | VArray _ => "an array" | VObject _ => "an object"
  end.

Definition extra_parameters (parameters : Value) : Result Map :=
  match parameters with
  | VNull => Ok []
  | VObject map =>
      match find_key RESERVED_PARAMETERS map with
      | Some key => Err (InvalidArgument ("`" +:+ key +:+ "` is set from the request itself and cannot be overridden through parameters"))
      | None =>
          match find_key UNSUPPORTED_PARAMETERS map with
          | Some key => Err (Unsupported ("the OpenAI provider does not support `" +:+ key +:+
              "`: it reads one choice per response, so the others would be paid for and discarded"))
          | None => Ok map
          end
      end
  | _ => Err (InvalidArgument "the OpenAI provider expects request parameters to be a JSON object")
  end.

Definition convert_tool (definition : ToolDefinition) : WireTool :=
  {| wt_name := def_name definition; wt_description := def_description definition; wt_parameters := def_input_schema definition |}.

Definition image_part (mime_type data : string) : Result Part :=
  if negb (starts_with mime_type "image/") then
    Err (Unsupported ("the OpenAI provider cannot send `" +:+ mime_type +:+ "` content; only images have an inline form here"))
  else if negb (all_bytes (fun c => negb (Ascii.eqb c ";") && negb (Ascii.eqb c ",")) mime_type) then
    Err (Unsupported ("`" +:+ mime_type +:+ "` cannot be expressed as a data URL media type"))
  else Ok (Part_ImageUrl ("data:" +:+ mime_type +:+ ";base64," +:+ data)).

Definition part_text (p : Part) : option string := match p with Part_Text text => Some text | Part_ImageUrl _ => None end.

(** Texts alone are one text. *)
Definition condense (parts : list Part) : Content :=
  match mapM part_text parts with
  | None => Content_Parts parts
  | Some texts => Content_Text (String.concat BLANK_LINE texts)
  end.

Section Protocol.
  Context `{J : Json}.

Definition plain_part (role : Role) (wire_role : string) (part : ContentPart) : Result (list Part) :=
  match part with
  | Text text => if str_is_empty text then Ok [] else Ok [Part_Text text]
  | Blob mime_type data =>
      if bool_decide (wire_role = "user") then result_map (fun p => [p]) (image_part mime_type data)
      else Err (Unsupported ("the OpenAI provider does not support `" +:+ debug_part part +:+ "` content parts on a `" +:+ debug_role role +:+ "` message"))
  | other => Err (Unsupported ("the OpenAI provider does not support `" +:+ debug_part other +:+ "` content parts on a `" +:+ debug_role role +:+ "` message"))
  end.

Definition plain_message (message : Message) (wire_role : string) : Result (option WireMessage) :=
  let? parts := collect (plain_part (role message) wire_role) (content message) in
  match parts with
  | [] => Ok None
  | _ => Ok (Some {| wire_role := wire_role; wire_content := Some (condense parts); wire_name := name message; wire_tool_calls := [];
                     wire_tool_call_id := None |})
  end.

Inductive Item := Item_Part (p : Part) | Item_Call (c : WireToolCall).
Definition item_part (i : Item) : option Part := match i with Item_Part p => Some p | Item_Call _ => None end.
Definition item_call (i : Item) : option WireToolCall := match i with Item_Part _ => None | Item_Call c => Some c end.

Definition assistant_part (part : ContentPart) : Result (list Item) :=
  match part with
  | Text text => if str_is_empty text then Ok [] else Ok [Item_Part (Part_Text text)]
  | Part_ToolCall call => Ok [Item_Call {| wc_id := call_id call; wc_name := call_name call; wc_arguments := to_string (arguments call) |}]
  | other => Err (Unsupported ("the OpenAI provider does not support `" +:+ debug_part other +:+ "` content parts on an assistant message"))
  end.

Definition assistant_message (message : Message) : Result (option WireMessage) :=
  let? items := collect assistant_part (content message) in
  let parts := omap item_part items in
  let calls := omap item_call items in
  match items with
  | [] => Ok None
  | _ => Ok (Some {| wire_role := "assistant"; wire_content := match parts with [] => None | _ => Some (condense parts) end;
                     wire_name := name message; wire_tool_calls := calls; wire_tool_call_id := None |})
  end.

Definition tool_result_content (content : Value) (is_error : bool) : string :=
  match is_error, content with
  | false, VString text => text
  | false, other => to_string other
  | true, other => to_string (json_object [("is_error", VBool true); ("result", other)])
  end.

Definition tool_part (part : ContentPart) : Result (list WireMessage) :=
  match part with
  | ToolResult call_id content is_error =>
      Ok [{| wire_role := "tool"; wire_content := Some (Content_Text (tool_result_content content is_error)); wire_name := None; wire_tool_calls := [];
             wire_tool_call_id := Some call_id |}]
  | other => Err (Unsupported ("the OpenAI provider does not support `" +:+ debug_part other +:+
      "` content parts on a tool message; a tool message carries exactly one result"))
  end.

Definition tool_messages (message : Message) : Result (list WireMessage) := collect tool_part (content message).

Definition convert_message (message : Message) : Result (list WireMessage) :=
  match role message with
  | Role_Tool => tool_messages message
  | Role_System => result_map option_list (plain_message message "system")
  | Role_User => result_map option_list (plain_message message "user")
  | Role_Assistant => result_map option_list (assistant_message message)
  end.

Definition convert_messages (messages : list Message) : Result (list WireMessage) := collect convert_message messages.

Definition build_request (request : CompletionRequest) (stream : bool) : Result ChatRequest :=
  let? extra := extra_parameters (req_parameters request) in
  let? messages := convert_messages (req_messages request) in
  Ok {| cr_model := req_model request; cr_messages := messages; cr_tools := map convert_tool (req_tools request); cr_stream := stream;
        cr_stream_options := stream; cr_extra := extra |}.

(** ** Answers *)

(** [OpenAiApiError] as an error's source *)
Definition api_error (kind message : string) : BoxError := BoxForeign (kind +:+ ": " +:+ message) None.

Definition parse_arguments (raw name : string) : Result Value :=
  if str_is_empty (trim raw) then Ok (VObject [])
  else match from_str raw with
       | Err error => Err (Error_wrap ("the OpenAI API sent arguments for `" +:+ name +:+ "` that are not valid JSON") error)
       | Ok (VObject entries) => Ok (VObject entries)
       | Ok other => Err (Error_other ("the OpenAI API sent arguments for `" +:+ name +:+ "` that are " +:+ kind_of other +:+ " rather than an object"))
       end.

Definition convert_tool_call (call : ResponseToolCall) : Result ToolCall :=
  match nonempty (rtc_id call) with
  | None => Err (Error_other "a tool call arrived without an id, so its result could not be matched to it")
  | Some id =>
      match nonempty (rf_name (rtc_function call)) with
      | None => Err (Error_other "a tool call arrived without a name")
      | Some name =>
          let? arguments := parse_arguments (default EmptyString (rf_arguments (rtc_function call))) name in
          Ok {| call_id := id; call_name := name; arguments := arguments |}
      end
  end.

Definition map_finish_reason (reason : option string) : FinishReason :=
  match reason with
  | Some reason =>
      if bool_decide (reason = "length") then Finish_Length
      else if bool_decide (reason = "tool_calls" \/ reason = "function_call") then Finish_ToolCalls
      else if bool_decide (reason = "content_filter") then Finish_Filtered
      else Finish_Stop
  | None => Finish_Stop
  end.

Definition convert_response (body : ChatResponse) : Result CompletionResponse :=
  match cres_choices body with
  | [] => Err (Error_wrap "decoding an OpenAI completion response" (api_error "http" "the response carried no choices"))
  | choice :: _ =>
      let? calls := collect (fun call => result_map (fun c => [Part_ToolCall c]) (convert_tool_call call)) (rm_tool_calls (choice_message choice)) in
      let texts := match nonempty (rm_content (choice_message choice)) with Some text => [Text text] | None => [] end in
      let content := texts ++ calls in
      let asked_for_tools := existsb (fun part => match part with Part_ToolCall _ => true | _ => false end) content in
      Ok {| resp_message := {| role := Role_Assistant; content := content; name := None |};
            resp_finish_reason := if asked_for_tools then Finish_ToolCalls else map_finish_reason (choice_finish_reason choice);
            resp_usage := cres_usage body |}
  end.

Definition stream_error (value : Value) : Error :=
  let kind := match Value_get value "type" with Some v => Some v | None => Value_get value "code" end in
  let kind := default "error" (kind ≫= Value_as_str) in
  let message := default "the OpenAI API reported an error" (Value_get value "message" ≫= Value_as_str) in
  Error_wrap "the OpenAI API reported an error mid-stream" (api_error kind message).

Definition convert_models (ids : list string) : list ModelDescriptor :=
  map (fun id => {| model_id := id; display_name := None; context_window := None; max_output_tokens := None; capabilities := [] |}) ids.

(** ** Embeddings *)

Section Embeddings.
  (** A component of a vector. *)
  Context {F : Type} (as_f32 : Value -> option F).

Record EmbedEntry := { entry_index : Z; entry_embedding : list F }.

Definition embed_entry (v : Value) : option EmbedEntry :=
  match open_fields ["index"; "embedding"] v with
  | Some [i; e] => i ← defaulted as_u64 0 i; e ← defaulted (as_list as_f32) [] e; Some {| entry_index := i; entry_embedding := e |}
  | _ => None
  end.

(** [EmbedResponse] *)
Definition embed_response (v : Value) : option (list EmbedEntry) :=
  match open_fields ["data"] v with Some [d] => defaulted (as_list embed_entry) [] d | _ => None end.

Definition embed_fail (message : string) : Error := Error_wrap "decoding an OpenAI embedding response" (api_error "embeddings" message).

(** Each vector in the slot its entry claims. *)
Fixpoint fill (slots : list (option (list F))) (data : list EmbedEntry) : Result (list (option (list F))) :=
  match data with
  | [] => Ok slots
  | entry :: data =>
      match slots !! Z.to_nat (entry_index entry) with
      | None => Err (embed_fail ("an embedding claimed index " +:+ fmt_u (entry_index entry)))
      | Some (Some _) => Err (embed_fail ("two embeddings claimed index " +:+ fmt_u (entry_index entry)))
      | Some None => fill (<[Z.to_nat (entry_index entry) := Some (entry_embedding entry)]> slots) data
      end
  end.

Fixpoint taken_all (slots : list (option (list F))) : Result (list (list F)) :=
  match slots with
  | [] => Ok []
  | None :: _ => Err (embed_fail "the server left a gap in the batch")
  | Some e :: slots => let? es := taken_all slots in Ok (e :: es)
  end.

Definition convert_embeddings (data : list EmbedEntry) (inputs : nat) : Result (list (list F)) :=
  if negb (length data =? inputs)%nat then
    Err (embed_fail ("asked for " +:+ fmt_u (Z.of_nat inputs) +:+ " embeddings and got " +:+ fmt_u (Z.of_nat (length data))))
  else
    let? slots := fill (replicate inputs None) data in
    let? embeddings := taken_all slots in
    match embeddings with
    | [] => Ok []
    | first :: _ =>
        if (length first =? 0)%nat then Err (embed_fail "the server returned empty vectors")
        else match find (fun e => negb (length e =? length first)%nat) embeddings with
             | Some other => Err (embed_fail ("the server returned vectors of differing widths: " +:+ fmt_u (Z.of_nat (length first)) +:+ " and " +:+
                                              fmt_u (Z.of_nat (length other))))
             | None => Ok embeddings
             end
    end.
End Embeddings.
End Protocol.

(** ** Streams ([stream.rs]) *)

Definition MAX_EVENT_BYTES : Z := 4 * 1024 * 1024.
Definition MAX_TOOL_INPUT_BYTES : Z := 4 * 1024 * 1024.
Definition DONE : string := "[DONE]".

Record PendingCall := { pending_id : option string; pending_name : option string; pending_arguments : string }.
Definition PendingCall_default : PendingCall := {| pending_id := None; pending_name := None; pending_arguments := EmptyString |}.

(** The calls being assembled are in the order of their indices. *)
Record StreamState := {
  pending : list (Z * PendingCall);
  input_tokens : Z;
  output_tokens : Z;
  finish_reason : option string;
  saw_tool_call : bool;
}.
Definition StreamState_default : StreamState :=
  {| pending := []; input_tokens := 0; output_tokens := 0; finish_reason := None; saw_tool_call := false |}.

Definition with_pending (p : list (Z * PendingCall)) (s : StreamState) : StreamState :=
  {| pending := p; input_tokens := input_tokens s; output_tokens := output_tokens s; finish_reason := finish_reason s; saw_tool_call := saw_tool_call s |}.

Definition stream_usage (self : StreamState) : option Usage :=
  if (input_tokens self =? 0) && (output_tokens self =? 0) then None
  else Some {| usage_input := input_tokens self; usage_output := output_tokens self |}.

Definition done (self : StreamState) : CompletionChunk :=
  Done (if saw_tool_call self then Finish_ToolCalls else map_finish_reason (finish_reason self)) (stream_usage self).

(** [BTreeMap::entry]: the value at a key, a default one where there is none, changed. *)
Fixpoint at_entry (index : Z) (f : PendingCall -> PendingCall) (l : list (Z * PendingCall)) : list (Z * PendingCall) :=
  match l with
  | [] => [(index, f PendingCall_default)]
  | (i, call) :: l =>
      if index =? i then (i, f call) :: l
      else if index <? i then (index, f PendingCall_default) :: (i, call) :: l
      else (i, call) :: at_entry index f l
  end.

Fixpoint entry_at (index : Z) (l : list (Z * PendingCall)) : PendingCall :=
  match l with [] => PendingCall_default | (i, call) :: l => if index =? i then call else entry_at index l end.

Definition not_null (v : option Value) : option Value := match v with Some VNull => None | _ => v end.

Section Streams.
  Context `{J : Json}.

Definition complete_call (index : Z) (call : PendingCall) : Result ToolCall :=
  match pending_id call with
  | None => Err (Error_other ("the OpenAI stream never sent an id for the tool call at index " +:+ fmt_u index +:+
                              ", so its result could not be matched to it"))
  | Some id =>
      match pending_name call with
      | None => Err (Error_other ("the OpenAI stream never sent a name for the tool call at index " +:+ fmt_u index))
      | Some name =>
          let? arguments := parse_arguments (pending_arguments call) name in
          Ok {| call_id := id; call_name := name; arguments := arguments |}
      end
  end.

Definition flush (self : StreamState) : Result (StreamState * list CompletionChunk) :=
  let? chunks := collect (fun p => result_map (fun call => [Chunk_ToolCall call]) (complete_call (fst p) (snd p))) (pending self) in
  Ok ({| pending := []; input_tokens := input_tokens self; output_tokens := output_tokens self; finish_reason := finish_reason self;
         saw_tool_call := saw_tool_call self || negb (length (pending self) =? 0)%nat |}, chunks).

(** [value.pointer("/function/..")] *)
Definition function_field (call : Value) (name : string) : option string := 
  (f ← Value_get call "function"; Value_get f name) ≫= Value_as_str.

Definition first_of (known new : option string) : option string := match known with Some _ => known | None => new end.

Definition accumulate (state : StreamState) (call : Value) : Result StreamState :=
  match Value_get call "index" ≫= as_u64 with
  | None => Err (Error_other "an OpenAI stream sent a tool call fragment without an index")
  | Some index =>
      let known := entry_at index (pending state) in
      let id := first_of (pending_id known) (nonempty (Value_get call "id" ≫= Value_as_str)) in
      let name := first_of (pending_name known) (nonempty (function_field call "name")) in
      match function_field call "arguments" with
      | Some fragment =>
          if MAX_TOOL_INPUT_BYTES <? str_len (pending_arguments known) + str_len fragment then
            Err (Error_other "a streamed tool call's arguments exceeded the size this provider will buffer")
          else Ok (with_pending (at_entry index (fun call =>
                 {| pending_id := id; pending_name := name; pending_arguments := pending_arguments call +:+ fragment |}) (pending state)) state)
      | None => Ok (with_pending (at_entry index (fun call =>
                 {| pending_id := id; pending_name := name; pending_arguments := pending_arguments call |}) (pending state)) state)
      end
  end.

Fixpoint accumulate_all (state : StreamState) (calls : list Value) : Result StreamState :=
  match calls with
  | [] => Ok state
  | call :: calls => let? state := accumulate state call in accumulate_all state calls
  end.

Definition read_usage (event : Value) (state : StreamState) : StreamState :=
  match not_null (Value_get event "usage") with
  | None => state
  | Some usage =>
      let input := field usage "prompt_tokens" in
      let output := field usage "completion_tokens" in
      {| pending := pending state; input_tokens := if 0 <? input then input else input_tokens state;
         output_tokens := if 0 <? output then output else output_tokens state; finish_reason := finish_reason state;
         saw_tool_call := saw_tool_call state |}
  end.

Definition first_choice (event : Value) : option Value :=
  match Value_get event "choices" with Some (VArray (choice :: _)) => Some choice | _ => None end.

(** [Step::Emit] of nothing is [Step::Continue]. *)
Definition step (event : Value) (state : StreamState) : Result (StreamState * list CompletionChunk) :=
  match not_null (Value_get event "error") with
  | Some error => Err (stream_error error)
  | None =>
      let state := read_usage event state in
      match first_choice event with
      | None => Ok (state, [])
      | Some choice =>
          let delta := default VNull (Value_get choice "delta") in
          let emitted := match nonempty (Value_get delta "content" ≫= Value_as_str) with Some text => [Delta (Text text)] | None => [] end in
          let? state := match Value_get delta "tool_calls" with Some (VArray calls) => accumulate_all state calls | _ => Ok state end in
          match Value_get choice "finish_reason" ≫= Value_as_str with
          | None => Ok (state, emitted)
          | Some reason =>
              let? flushed := flush {| pending := pending state; input_tokens := input_tokens state; output_tokens := output_tokens state;
                                       finish_reason := Some reason; saw_tool_call := saw_tool_call state |} in
              Ok (fst flushed, emitted ++ snd flushed)
          end
      end
  end.

(** The body of the loop over the lines: the state after, what is yielded, whether it ends. *)
Definition on_line (line : string) (state : StreamState) : StreamState * list (Result CompletionChunk) * bool :=
  match event_data (strip_carriage_return line) with
  | None => (state, [], false)
  | Some data =>
      if bool_decide (data = DONE) then
        match flush state with
        | Ok (state, chunks) => (state, map Ok chunks ++ [Ok (done state)], true)
        | Err error => (state, [Err error], true)
        end
      else
        match from_str data with
        | Err error => (state, [Err (Error_wrap "decoding an OpenAI stream event" error)], true)
        | Ok event =>
            match step event state with
            | Ok (state, chunks) => (state, map Ok chunks, false)
            | Err error => (state, [Err error], true)
            end
        end
  end.

(** The bytes ended: a turn that got as far as a finish reason is complete. *)
Definition on_close (rest : string) (state : StreamState) : list (Result CompletionChunk) :=
  match finish_reason state with Some _ => [Ok (done state)] | None => [] end.

Definition event_cap : option (Z * Error) :=
  Some (MAX_EVENT_BYTES, Error_other "the OpenAI stream sent an event larger than this provider will buffer").

Definition sse_chunks (deadline : Deadline) (waits : list Wait) : list (Result CompletionChunk) * bool :=
  chunks on_line on_close event_cap (budget deadline) "reading the OpenAI response stream" waits EmptyString StreamState_default.
End Streams.

(** ** The key, and where it may go ([credentials.rs], [settings.rs]) *)

Definition MAX_KEY_BYTES : Z := 4096.
Definition DEFAULT_KEY_VARIABLE : string := "OPENAI_API_KEY".

Definition ApiKey_new (raw source : string) : Result ApiKey :=
  let trimmed := trim raw in
  if str_is_empty trimmed then Err (Base.Config source "the OpenAI API key is empty")
  else if MAX_KEY_BYTES <? str_len trimmed then Err (Base.Config source ("the OpenAI API key is longer than " +:+ fmt_u MAX_KEY_BYTES +:+ " bytes"))
  else if negb (all_bytes visible trimmed) then
    Err (Base.Config source ("the OpenAI API key contains characters that cannot appear in an HTTP header; " +:+
      "check for a stray newline or a shell-quoting mistake"))
  else Ok {| expose := trimmed |}.

Section Credentials.
  (** A file of the system, the environment, and [{mode:04o}]. *)
  Context (file_at : string -> KeyFile) (lookup : string -> option string) (octal : Z -> string).

Definition check_permissions (mode : Z) (source : string) : Result unit :=
  let mode := Z.land mode 511 in
  if negb (Z.land mode 63 =? 0) then
    Err (Base.Config source ("the OpenAI API key file is readable by other users (mode " +:+ octal mode +:+ "); run `chmod 600` on it"))
  else Ok tt.

Definition from_file (path : string) : Result ApiKey :=
  let file := file_at path in
  match metadata file with
  | Err error => Err (Base.Config path ("cannot read the OpenAI API key file: " +:+ error))
  | Ok (is_file, mode) =>
      if negb is_file then Err (Base.Config path "the OpenAI API key path is not a regular file")
      else
        let? _ := check_permissions mode path in
        match contents file with
        | Err error => Err (Base.Config path ("cannot read the OpenAI API key file: " +:+ error))
        | Ok text => ApiKey_new text path
        end
  end.

Definition resolve (file : option string) (variable : string) (required : bool) : Result (option ApiKey) :=
  match file with
  | Some path => result_map Some (from_file path)
  | None =>
      match lookup variable with
      | Some value => result_map Some (ApiKey_new value variable)
      | None =>
          if negb required then Ok None
          else Err (Base.Config variable ("no OpenAI API key: set `" +:+ variable +:+ "` in the environment, point `api_key_file` at a file " +:+
            "containing one, or set `api_key_required = false` for a loopback endpoint that takes no credential"))
      end
  end.
End Credentials.

Definition key_source_hint : string := "`api_key_env` (default `" +:+ DEFAULT_KEY_VARIABLE +:+ "`) or `api_key_file`".

Definition SECRET_KEYS : list string := ["api_key"; "apikey"; "auth_token"; "token"; "secret"; "key"]%string.
Definition NOT_OURS_RETRY_KEY : string := "max_retries".

Record OpenAiSettings := {
  endpoint : string;
  api_key_env : string;
  api_key_file : option string;
  api_key_required : bool;
  organization : option string;
  project : option string;
  request_timeout_ms : Z;
}.

Definition OpenAiSettings_default : OpenAiSettings :=
  {| endpoint := "https://api.openai.com/v1"; api_key_env := DEFAULT_KEY_VARIABLE; api_key_file := None; api_key_required := true;
     organization := None; project := None; request_timeout_ms := 300000 |}.

Section Settings.
  (** [Url::parse] of the URL library, the text of an address read, [serde_json::from_value]. *)
  Context (Url_parse : string -> result string Url) (parse_ip : string -> option IpAddr) (from_value : Value -> result string OpenAiSettings).

Definition is_loopback (url : Url) : bool :=
  match host_str url with
  | Some host =>
      if bool_decide (host = "localhost") then true
      else match parse_ip (trim_end_char "]" (trim_start_char "[" host)) with Some address => ip_is_loopback address | None => false end
  | None => false
  end.

Definition validate_endpoint (endpoint : string) : Result Url :=
  match Url_parse endpoint with
  | Err error => Err (Base.Config "endpoint" ("not a URL: " +:+ error))
  | Ok url =>
      if bool_decide (scheme url = "https") then Ok url
      else if bool_decide (scheme url = "http") then
        if is_loopback url then Ok url
        else Err (Base.Config "endpoint" "refusing to send an API key over plain HTTP to a host that is not loopback; use https")
      else Err (Base.Config "endpoint" ("`" +:+ scheme url +:+ "` is not an HTTP scheme"))
  end.

Definition header_safe (value field : string) : Result unit :=
  if str_is_empty value || negb (all_bytes visible value) then Err (Base.Config field "must be non-empty, visible ASCII text") else Ok tt.

Definition header_safe_if (value : option string) (field : string) : Result unit :=
  match value with Some value => header_safe value field | None => Ok tt end.

Definition validate (self : OpenAiSettings) : Result unit :=
  let? url := validate_endpoint (endpoint self) in
  if str_is_empty (trim (api_key_env self)) then
    Err (Base.Config "api_key_env" "the environment variable holding the API key cannot be an empty name")
  else if negb (api_key_required self) && negb (is_loopback url) then
    Err (Base.Config "api_key_required" ("refusing to send a conversation to a host that is not loopback without a credential; " +:+
      "a gateway that authenticates some other way can still be given any key it accepts"))
  else
    let? _ := header_safe_if (organization self) "organization" in
    header_safe_if (project self) "project".

(** [OpenAiSettings::base_url] *)
Definition settings_base_url (self : OpenAiSettings) : string := trim_end_char "/" (endpoint self).

Definition read (section : Config) : Result OpenAiSettings :=
  match find (contains section) SECRET_KEYS with
  | Some key => Err (Base.Config key ("an API key must not be written into the configuration tree, which is cloned, merged and printed " +:+
      "throughout the process; name where the key lives instead, with " +:+ key_source_hint))
  | None =>
      if contains section NOT_OURS_RETRY_KEY then
        Err (Base.Config NOT_OURS_RETRY_KEY ("retrying is not a provider's own concern; it is configured once for every provider under " +:+
          "`components.model.resilient.retry`"))
      else
        let? settings := get_or_default from_value OpenAiSettings_default section EmptyString in
        let? _ := validate settings in
        Ok settings
  end.
End Settings.

(** ** HTTP ([http.rs]) *)

(** [ErrorEnvelope]: kind, message and code *)
Definition error_body (v : Value) : option (option string * option string * option string) :=
  match open_fields ["type"; "message"; "code"] v with
  | Some [k; m; c] => k ← optional Value_as_str k; m ← optional Value_as_str m; c ← optional Value_as_str c; Some (k, m, c)
  | _ => None
  end.
Definition error_envelope (v : Value) : option (option string * option string * option string) :=
  match open_fields ["error"] v with Some [Some e] => error_body e | _ => None end.

Section Client.
  Context `{J : Json}.
  (** [StatusCode]'s text, and whether a text may be a header's value *)
  Context (status_text : Z -> string) (header_value : string -> bool).

Definition parse_error_body (body : string) : string * string :=
  match from_str body with
  | Ok v => match error_envelope v with
            | Some (kind, message, code) =>
                (default "error" (match kind with Some kind => Some kind | None => code end), default EmptyString message)
            | None => ("http", body)
            end
  | Err _ => ("http", body)
  end.

Definition ensure_success (response : Response) : Result Response :=
  if is_success response then Ok response
  else
    let (kind, message) := parse_error_body (text_or_default response) in
    Err (refused ("the OpenAI API returned HTTP " +:+ status_text (status response)) (kind +:+ ": " +:+ message) response).

(** The headers of every request: the key is marked sensitive. *)
Definition optional_header (name : string) (value : option string) : Result (list (string * string)) :=
  match value with
  | None => Ok []
  | Some value => if header_value value then Ok [(name, value)] else Err (Base.Config name "cannot be sent as an HTTP header")
  end.

Definition headers (key organization project : option string) : Result (list (string * string)) :=
  let? authorization := match key with
                        | None => Ok []
                        | Some key => if header_value ("Bearer " +:+ key) then Ok [("authorization", "Bearer " +:+ key)]
                                      else Err (Base.Config "api key" "the API key cannot be sent as an HTTP header")
                        end in
  let? organization := optional_header "openai-organization" organization in
  let? project := optional_header "openai-project" project in
  Ok (authorization ++ organization ++ project).

(** ** The calls ([provider.rs]) *)

Record OpenAiProvider := { base_url : string; default_timeout : Duration }.

(** [OpenAiProvider::new]; the client it builds holds the headers. *)
Definition OpenAiProvider_new (Url_parse : string -> result string Url) (parse_ip : string -> option IpAddr) (settings : OpenAiSettings)
    (key : option ApiKey) : Result (OpenAiProvider * list (string * string)) :=
  let? _ := validate Url_parse parse_ip settings in
  let? headers := headers (option_map expose key) (organization settings) (project settings) in
  Ok ({| base_url := settings_base_url settings; default_timeout := from_millis (request_timeout_ms settings) |}, headers).

Definition url (self : OpenAiProvider) (path : string) : string := base_url self +:+ "/" +:+ trim_start_char "/" path.

(** What [reqwest] makes of a request: its URL and body. *)
Context (post : string -> list (string * Value) -> result ReqwestError Response) (get : string -> result ReqwestError Response).

Definition models (self : OpenAiProvider) : Result (list ModelDescriptor) :=
  let? response := map_err (map_reqwest_error "listing OpenAI models") (get (url self "models")) in
  let? response := ensure_success response in
  let? ids := map_err (map_reqwest_error "decoding the OpenAI model list") (decode_body models_response response) in
  Ok (convert_models ids).

(** The time is [now] when a call begins; [cancelled] and [overdue] say what is seen before the
    answer is. *)
Definition complete (self : OpenAiProvider) (request : CompletionRequest) (cx : ExecutionContext) (now : Timestamp) (cancelled overdue : bool) :
    Result CompletionResponse :=
  let deadline := Deadline_compute now (default_timeout self) cx in
  let? wire := build_request request false in
  race cancelled overdue deadline
    (let? response := map_err (map_reqwest_error "sending a completion request to the OpenAI API")
                        (post (url self "chat/completions") (request_entries wire)) in
     let? response := ensure_success response in
     let? body := map_err (map_reqwest_error "decoding the OpenAI completion response") (decode_body chat_response response) in
     convert_response body).

(** A stream that was opened, with what it yields over the times it waits. *)
Definition stream (self : OpenAiProvider) (request : CompletionRequest) (cx : ExecutionContext) (now : Timestamp) (cancelled overdue : bool)
    (waits : list Wait) : Result (list (Result CompletionChunk) * bool) :=
  let deadline := Deadline_compute now (default_timeout self) cx in
  let? wire := build_request request true in
  let? response := race cancelled overdue deadline
    (map_err (map_reqwest_error "opening an OpenAI stream") (post (url self "chat/completions") (request_entries wire))) in
  let? _ := ensure_success response in
  Ok (sse_chunks deadline waits).

Definition embed {F} (as_f32 : Value -> option F) (self : OpenAiProvider) (model : ModelId) (inputs : list string) (cx : ExecutionContext)
    (now : Timestamp) (cancelled overdue : bool) : Result (list (list F)) :=
  match inputs with
  | [] => Ok []
  | _ =>
      let deadline := Deadline_compute now (default_timeout self) cx in
      race cancelled overdue deadline
        (let? response := map_err (map_reqwest_error "sending an embedding request to the OpenAI API")
           (post (url self "embeddings") [("model", VString model); ("input", VArray (map VString inputs)); ("encoding_format", VString "float")]) in
         let? response := ensure_success response in
         let? data := map_err (map_reqwest_error "decoding the OpenAI embedding response") (decode_body (embed_response as_f32) response) in
         convert_embeddings data (length inputs))
  end.
End Client.

(** ** What a request says *)

Lemma own_once r : NoDup (map fst (own_entries r)).
Proof.
  unfold own_entries. destruct (cr_tools r), (cr_stream_options r); cbn; repeat (apply NoDup_cons; split; [set_solver|]); constructor.
Qed.

Lemma own_reserved r key : key ∈ map fst (own_entries r) -> key ∈ RESERVED_PARAMETERS.
Proof. unfold own_entries, RESERVED_PARAMETERS. destruct (cr_tools r), (cr_stream_options r); cbn; set_solver. Qed.

Lemma own_spec r key v : In (key, v) (own_entries r) <->
  (key = "model"%string /\ v = VString (cr_model r)) \/ (key = "messages"%string /\ v = VArray (map message_json (cr_messages r))) \/
  (key = "tools"%string /\ cr_tools r <> [] /\ v = VArray (map tool_json (cr_tools r))) \/ (key = "stream"%string /\ v = VBool (cr_stream r)) \/
  (key = "stream_options"%string /\ cr_stream_options r = true /\ v = json_object [("include_usage"%string, VBool true)]).
Proof. unfold own_entries. destruct (cr_tools r), (cr_stream_options r); simpl; naive_solver. Qed.

Section Requests.
  Context {J : Json}.

(** what a request's parameters hold never stands in for what the request itself says: whatever
    they are, the object that is sent has every key once - its model, its messages, whether it
    streams and its tools are the request's -, and every parameter is sent as it was given. *)
Theorem parameters_never_override (request : CompletionRequest) (is_stream : bool) (r : ChatRequest) :
  NoDup (match req_parameters request with VObject m => map fst m | _ => [] end) ->
  build_request request is_stream = Ok r ->
  NoDup (map fst (request_entries r)) /\
  In ("model", VString (req_model request)) (request_entries r) /\
  In ("stream", VBool is_stream) (request_entries r) /\
  (forall v, In ("tools", v) (request_entries r) <-> req_tools request <> [] /\ v = VArray (map (fun d => tool_json (convert_tool d)) (req_tools request))) /\
  (exists messages, convert_messages (req_messages request) = Ok messages /\ In ("messages", VArray (map message_json messages)) (request_entries r)) /\
  (forall key v, (exists m, req_parameters request = VObject m /\ In (key, v) m) -> In (key, v) (request_entries r)).
Proof using.
  unfold build_request. intros Hnd Hr. destruct (extra_parameters (req_parameters request)) as [extra|] eqn:Ee; [|done]. simpl in Hr.
  destruct (convert_messages (req_messages request)) as [messages|] eqn:Em; [|done]. injection Hr as <-.
  assert (He : (forall key, key ∈ RESERVED_PARAMETERS -> key ∉ map fst extra) /\ NoDup (map fst extra) /\
               (forall m, req_parameters request = VObject m -> extra = m)).
  { unfold extra_parameters in Ee. destruct (req_parameters request) as [| | | | |m]; try done.
    - injection Ee as <-. split_and!; [intros key _ Hin; inversion Hin|constructor|done].
    - destruct (find_key RESERVED_PARAMETERS m) eqn:Ek; [done|]. destruct (find_key UNSUPPORTED_PARAMETERS m); [done|]. injection Ee as <-.
      split_and!; [|done|by intros ? [= ->]]. intros key Hkey. apply Map_get_none. by eapply find_key_none. }
  destruct He as (Hres & Hnde & Hsame). set (r := Build_ChatRequest _ _ _ _ _ _).
  assert (Hr : forall key v, key ∈ RESERVED_PARAMETERS -> ~ In (key, v) extra).
  { intros key v Hk Hin. apply (Hres key Hk). apply list_elem_of_In. by apply (in_map fst) in Hin. }
  assert (Hin : forall p, In p (request_entries r) <-> In p (own_entries r) \/ In p extra) by (intros p; apply in_app_iff).
  assert (Hkeys : NoDup (map fst (request_entries r))).
  { unfold request_entries. rewrite map_app. apply NoDup_app. split_and!; [apply own_once| |done].
    intros key Hkey. apply Hres. revert Hkey. apply own_reserved. }
  revert Hin Hkeys. generalize (request_entries r). intros entries Hin Hkeys. split; [done|].
  rewrite !Hin, !own_spec. split; [naive_solver|]. split; [naive_solver|]. split; [|split].
  - intros v. rewrite Hin, own_spec. cbn [r cr_tools]. rewrite map_map. destruct (req_tools request) as [|t ts]; split.
    + intros [Hv|Hin']; [naive_solver|]. exfalso. eapply Hr; [|exact Hin']. unfold RESERVED_PARAMETERS. set_solver.
    + by intros [? _].
    + intros [Hv|Hin']; [naive_solver|]. exfalso. eapply Hr; [|exact Hin']. unfold RESERVED_PARAMETERS. set_solver.
    + intros [_ ->]. left. naive_solver.
  - exists messages. rewrite Hin, own_spec. naive_solver.
  - intros key v (m & Hm & Hkv). rewrite Hin. right. by rewrite (Hsame m Hm).
Qed.

(** *** Calls and their answers *)

#[local] Abbreviation part_event := (part_event to_string tool_result_content).

Definition call_event (call : WireToolCall) : Event string string := Called (wc_id call) (wc_name call) (wc_arguments call).

Definition wire_events (m : WireMessage) : list (Event string string) :=
  map call_event (wire_tool_calls m) ++
  match wire_tool_call_id m, wire_content m with Some id, Some (Content_Text text) => [Answered id text] | _, _ => [] end.

Lemma plain_message_events m wire r : role m <> Role_Assistant -> role m <> Role_Tool -> plain_message m wire = Ok r ->
  concat (map wire_events (option_list r)) = [] /\ omap part_event (content m) = [].
Proof using.
  intros _ _. unfold plain_message. destruct (collect _ (content m)) as [parts|] eqn:E; [|done]. simpl. intros Hr. split.
  - destruct parts; injection Hr as <-; done.
  - rewrite omap_concat. rewrite <- (collect_says (plain_part (role m) wire) (fun a => option_list (part_event a)) (fun _ => []) (content m) parts); [|clear|exact E].
    + clear. induction parts; [done|]. done.
    + intros a b. unfold plain_part. destruct a; try done; [destruct (str_is_empty _)|destruct (bool_decide _); [destruct (image_part _ _)|]]; intros [= <-]; done.
Qed.

Lemma assistant_message_events m r : assistant_message m = Ok r ->
  concat (map wire_events (option_list r)) = omap part_event (content m).
Proof using.
  unfold assistant_message. destruct (collect _ (content m)) as [items|] eqn:E; [|done]. simpl. intros Hr.
  rewrite omap_concat.
  rewrite <- (collect_says assistant_part (fun a => option_list (part_event a)) (fun i => map call_event (option_list (item_call i))) (content m) items); [| |exact E].
  - assert (Hc : concat (map (fun i => map call_event (option_list (item_call i))) items) = map call_event (omap item_call items)).
    { clear. induction items as [|[p|c] items IH]; [done| |]; simpl; by rewrite IH. }
    rewrite Hc. destruct items; injection Hr as <-; [done|]. simpl. unfold wire_events. simpl. by rewrite !app_nil_r.
  - intros a b. unfold assistant_part. destruct a; try done; [destruct (str_is_empty _)|]; intros [= <-]; done.
Qed.

Lemma convert_messages_events (messages : list Message) (wire : list WireMessage) :
  convert_messages messages = Ok wire -> concat (map wire_events wire) = omap part_event (concat (map content messages)).
Proof using.
  intros Hc. assert (Ho : omap part_event (concat (map content messages)) = concat (map (fun m => omap part_event (content m)) messages)).
  { clear. induction messages as [|m messages IH]; [done|]. simpl. by rewrite omap_app, IH. }
  rewrite Ho. revert Hc. apply collect_says. clear. intros m b. unfold convert_message. destruct (role m) eqn:Er.
  - destruct (plain_message m "system") as [r|] eqn:E; [|done]. intros [= <-].
    apply plain_message_events in E as [-> ->]; [done|by rewrite Er|by rewrite Er].
  - destruct (plain_message m "user") as [r|] eqn:E; [|done]. intros [= <-].
    apply plain_message_events in E as [-> ->]; [done|by rewrite Er|by rewrite Er].
  - destruct (assistant_message m) as [r|] eqn:E; [|done]. intros [= <-]. by apply assistant_message_events.
  - unfold tool_messages. intros E. rewrite omap_concat. revert E. apply collect_says. clear. intros a b. unfold tool_part.
    destruct a; try done. by intros [= <-].
Qed.

(** a conversation is sent with every call in it and every answer to one, whole, in order and
    once, or it is refused; and where it is the window a model is shown of any records under any
    budget, every answer sent is to a call that was sent before it. *)
Theorem conversation_is_sent_whole `{T : TokenCounter} {TL : TokenCounterLaws T} (l : list Message) (wire : list WireMessage) :
  convert_messages l = Ok wire ->
  concat (map wire_events wire) = omap part_event (concat (map content l)) /\
  (forall records budget, l = messages (assemble records budget) -> events_answered ∅ (concat (map wire_events wire))).
Proof using.
  intros Hc. apply convert_messages_events in Hc as ->. split; [done|]. intros records budget ->. by apply window_events_answered.
Qed.
End Requests.

(** ** Embeddings *)

Section Vectors.
  Context {F : Type}.

(** Each input's vector is that of the entry that names its place; all have one width. *)
Definition aligned (data : list (EmbedEntry (F := F))) (embeddings : list (list F)) : Prop :=
  length data = length embeddings /\ NoDup (map entry_index data) /\
  Forall (fun e => embeddings !! Z.to_nat (entry_index e) = Some (entry_embedding e)) data /\
  exists width, (0 < width)%nat /\ Forall (fun v => length v = width) embeddings.

Lemma fill_spec (data : list (EmbedEntry (F := F))) : forall slots filled, Forall (fun e => 0 <= entry_index e) data -> fill slots data = Ok filled ->
  length filled = length slots /\ NoDup (map entry_index data) /\
  Forall (fun e => slots !! Z.to_nat (entry_index e) = Some None /\ filled !! Z.to_nat (entry_index e) = Some (Some (entry_embedding e))) data /\
  (forall i v, slots !! i = Some (Some v) -> filled !! i = Some (Some v)).
Proof using.
  induction data as [|e data IH]; intros slots filled Hpos; cbn [fill]; [intros [= <-]; split_and!; [done|constructor|constructor|done]|].
  apply Forall_cons in Hpos as [He Hpos]. destruct (slots !! Z.to_nat (entry_index e)) as [[v|]|] eqn:E; try done. intros Hf.
  apply IH in Hf as (Hlen & Hnd & Hall & Hkeep); [|done]. rewrite length_insert in Hlen.
  assert (Hlt : (Z.to_nat (entry_index e) < length slots)%nat) by (apply lookup_lt_is_Some; by eexists).
  split_and!; [done| | |].
  - cbn [map]. apply NoDup_cons. split; [|done]. intros (e' & Heq & Hin)%list_elem_of_fmap. rewrite Forall_forall in Hall.
    destruct (Hall e' Hin) as [Hs _]. rewrite <- Heq, list_lookup_insert_eq in Hs by done. done.
  - constructor; [split; [done|]; apply Hkeep; by rewrite list_lookup_insert_eq|]. eapply Forall_impl; [exact Hall|]. intros e' [Hs Hv].
    split; [|done]. destruct (decide (Z.to_nat (entry_index e') = Z.to_nat (entry_index e))) as [Heq|Hne].
    + rewrite Heq, list_lookup_insert_eq in Hs by done. done.
    + by rewrite list_lookup_insert_ne in Hs by done.
  - intros i v Hv. apply Hkeep. destruct (decide (i = Z.to_nat (entry_index e))) as [->|Hne]; [congruence|]. by rewrite list_lookup_insert_ne.
Qed.

Lemma taken_all_spec (slots : list (option (list F))) es : taken_all slots = Ok es -> slots = map Some es.
Proof using.
  revert es. induction slots as [|[e|] slots IH]; intros es; cbn [taken_all]; [by intros [= <-]| |done].
  destruct (taken_all slots) as [es'|]; [|done]. intros [= <-]. cbn [map]. by rewrite (IH es').
Qed.

(** the vectors of a batch are returned in the order of the inputs, whatever order the service
    sent them in: exactly one for each input, the one that names its place, all of one width that
    is not zero - or the answer is refused. *)
Theorem embeddings_are_aligned (data : list (EmbedEntry (F := F))) (inputs : nat) (embeddings : list (list F)) :
  Forall (fun e => 0 <= entry_index e) data -> (0 < inputs)%nat ->
  convert_embeddings data inputs = Ok embeddings -> length embeddings = inputs /\ aligned data embeddings.
Proof using.
  intros Hpos Hi. unfold convert_embeddings. destruct (Nat.eqb_spec (length data) inputs) as [Hlen|]; [|done]. cbn [negb].
  destruct (fill (replicate inputs None) data) as [slots|] eqn:Ef; [|done]. simpl.
  destruct (taken_all slots) as [es|] eqn:Et; [|done]. simpl. apply taken_all_spec in Et as ->.
  apply fill_spec in Ef as (Hl & Hnd & Hall & _); [|done]. rewrite length_map, length_replicate in Hl.
  destruct es as [|first es]; [simpl in Hl; lia|]. destruct (Nat.eqb_spec (length first) 0); [done|]. destruct (find _ _) eqn:Eq; [done|].
  intros [= <-]. split; [done|]. unfold aligned. split_and!; [lia|done| |].
  - eapply Forall_impl; [exact Hall|]. intros e [_ He]. change (map Some (first :: es)) with (Some <$> (first :: es)) in He.
    rewrite list_lookup_fmap in He. destruct ((first :: es) !! Z.to_nat (entry_index e)); [|done]. by injection He as ->.
  - exists (length first). split; [lia|]. apply Forall_forall. intros v Hv%list_elem_of_In. pose proof (find_none _ _ Eq v Hv) as Hn.
    cbv beta in Hn. apply negb_false_iff, Nat.eqb_eq in Hn. done.
Qed.
End Vectors.

(** ** What a stream yields *)

Section Streamed.
  Context {J : Json}.

Lemma flush_pieces st st' chunks : flush st = Ok (st', chunks) -> Forall (fun c => piece (Ok c) = true) chunks.
Proof using.
  unfold flush. destruct (collect _ (pending st)) as [cs|] eqn:E; [|done]. intros [= _ <-]. revert cs E.
  induction (pending st) as [|p l IH]; intros cs; cbn [collect]; [by intros [= <-]|]. destruct (complete_call _ _); [|done]. simpl.
  destruct (collect _ l) as [cs'|]; [|done]. intros [= <-]. constructor; [done|by apply IH].
Qed.

Lemma step_pieces event st st' chunks : step event st = Ok (st', chunks) -> Forall (fun c => piece (Ok c) = true) chunks.
Proof using.
  unfold step. destruct (not_null _); [done|]. destruct (first_choice event) as [choice|]; [|intros [= _ <-]; constructor].
  set (emitted := match nonempty _ with Some _ => _ | None => _ end).
  assert (He : Forall (fun c => piece (Ok c) = true) emitted) by (unfold emitted; destruct (nonempty _); repeat constructor).
  clearbody emitted.
  destruct (match Value_get _ "tool_calls" with Some _ => _ | None => _ end) as [st1|]; [|done]. simpl.
  destruct (Value_get choice "finish_reason" ≫= Value_as_str); [|intros H; by injection H as _ <-].
  destruct (flush _) as [[st2 flushed]|] eqn:Ef; [|done]. simpl. intros H. injection H as _ <-.
  apply Forall_app. split; [done|]. by eapply flush_pieces.
Qed.

Lemma on_line_ends l st : let '(_, yielded, stop) := on_line l st in ends_once yielded stop.
Proof using.
  unfold on_line. assert (Herr : forall e, ends_once [Err e] true) by (intros e; by apply (ends_with [])).
  destruct (event_data _); [|by apply ends_pieces]. case_bool_decide.
  - destruct (flush st) as [[st' chunks]|] eqn:E; [|done]. apply ends_with; [|done]. apply Forall_map. by eapply flush_pieces.
  - destruct (from_str _) as [event|]; [|done]. destruct (step event st) as [[st' chunks]|] eqn:E; [|done].
    apply ends_pieces, Forall_map. by eapply step_pieces.
Qed.

Lemma on_close_ends rest st : ends_once (on_close rest st) true.
Proof using. unfold on_close. destruct (finish_reason st); [by apply (ends_with [])|by apply ends_pieces]. Qed.


(** A line that says the answer is over. *)
Definition says_finished (l : string) : bool :=
  match event_data (strip_carriage_return l) with
  | None => false
  | Some data =>
      bool_decide (data = DONE) ||
      match from_str data with
      | Ok event => match first_choice event with Some choice => bool_decide (is_Some (Value_get choice "finish_reason" ≫= Value_as_str)) | None => false end
      | Err _ => false
      end
  end.

Lemma accumulate_finish st call st' : accumulate st call = Ok st' -> finish_reason st' = finish_reason st.
Proof using.
  unfold accumulate. destruct (_ ≫= as_u64); [|done]. destruct (function_field call "arguments"); [destruct (_ <? _); [done|]|]; by intros [= <-].
Qed.

Lemma accumulate_all_finish calls : forall st st', accumulate_all st calls = Ok st' -> finish_reason st' = finish_reason st.
Proof using.
  induction calls as [|call calls IH]; intros st st'; cbn [accumulate_all]; [by intros [= <-]|].
  destruct (accumulate st call) as [st1|] eqn:E; [|done]. simpl. intros H. by rewrite (IH _ _ H), (accumulate_finish _ _ _ E).
Qed.

(** C31. a turn that was cut is not reported as complete: where no line that arrived says the answer
    is over, neither a finish reason nor the closing mark, the stream ends without an end of the
    answer, however it ends. *)
Theorem cut_turn_is_not_done (deadline : Deadline) (waits : list Wait) :
  Forall (fun l => says_finished l = false) (split_lines (arrived waits)).1 ->
  Forall (fun r => match r with Ok (Done _ _) => False | _ => True end) (sse_chunks deadline waits).1.
Proof using.
  intros HL. apply (chunks_all _ _ _ _ _ (fun l => says_finished l = false) (fun st => finish_reason st = None)); try done.
  2: { intros rest st Hst. unfold on_close. by rewrite Hst. }
  clear. intros l st Hl Hst. unfold on_line, says_finished in *. destruct (event_data _) as [data|]; [|by split].
  apply orb_false_iff in Hl as [Hd Hl]. rewrite Hd. destruct (from_str data) as [event|]; [|by split; [|repeat constructor]].
  destruct (step event st) as [[st' chunks]|] eqn:E; [|by split; [|repeat constructor]]. split.
  - intros _. unfold step in E. destruct (not_null (Value_get event "error")); [done|].
    assert (Hu : finish_reason (read_usage event st) = None) by (unfold read_usage; by destruct (not_null _)).
    destruct (first_choice event) as [choice|]; [|by injection E as <- _].
    destruct (match Value_get _ "tool_calls" with Some _ => _ | None => _ end) as [st1|] eqn:Ea; [|done]. simpl in E.
    apply bool_decide_eq_false in Hl. destruct (_ ≫= Value_as_str); [destruct Hl; by eexists|]. injection E as <- _.
    destruct (Value_get _ "tool_calls") as [[]|]; try (injection Ea as <-; done). by rewrite (accumulate_all_finish _ _ _ Ea).
  - apply Forall_map. eapply Forall_impl; [by eapply step_pieces|]. intros []; done.
Qed.

(** *** Calls in pieces *)

Definition call_index (call : Value) : option Z := Value_get call "index" ≫= as_u64.

Definition fragments (i : Z) (calls : list Value) : list Value := List.filter (fun c => bool_decide (call_index c = Some i)) calls.

Definition fragment_text (call : Value) : string := default EmptyString (function_field call "arguments").

(** The call whose pieces are those of an index: the first id and the first name that are not
    empty, and the texts one behind the other. *)
Definition assembled (i : Z) (calls : list Value) : PendingCall :=
  {| pending_id := head (omap (fun c => nonempty (Value_get c "id" ≫= Value_as_str)) (fragments i calls));
     pending_name := head (omap (fun c => nonempty (function_field c "name")) (fragments i calls));
     pending_arguments := String.concat EmptyString (map fragment_text (fragments i calls)) |}.

Definition add (known : PendingCall) (call : Value) : PendingCall :=
  {| pending_id := first_of (pending_id known) (nonempty (Value_get call "id" ≫= Value_as_str));
     pending_name := first_of (pending_name known) (nonempty (function_field call "name"));
     pending_arguments := pending_arguments known +:+ fragment_text call |}.

Lemma add_all calls known :
  foldl add known calls =
  {| pending_id := first_of (pending_id known) (head (omap (fun c => nonempty (Value_get c "id" ≫= Value_as_str)) calls));
     pending_name := first_of (pending_name known) (head (omap (fun c => nonempty (function_field c "name")) calls));
     pending_arguments := pending_arguments known +:+ String.concat EmptyString (map fragment_text calls) |}.
Proof using.
  revert known. induction calls as [|c calls IH]; intros [id name text].
  - cbn. rewrite str_app_nil. by destruct id, name.
  - cbn [foldl]. rewrite IH. cbn [map omap list_omap]. rewrite concat_cons, <- str_app_assoc. cbn [add pending_id pending_name pending_arguments].
    f_equal; [destruct id; [done|]; cbn [first_of]; by destruct (nonempty _)|destruct name; [done|]; cbn [first_of]; by destruct (nonempty _)].
Qed.


Definition ordered (l : list (Z * PendingCall)) : Prop := StronglySorted Z.lt (map fst l).

Lemma entry_at_missing i l : i ∉ map fst l -> entry_at i l = PendingCall_default.
Proof using.
  induction l as [|[j call] l IH]; [done|]. cbn [map fst entry_at]. intros [Hij Hi]%not_elem_of_cons.
  destruct (Z.eqb_spec i j); [done|by apply IH].
Qed.

Lemma at_entry_spec i f l : ordered l ->
  ordered (at_entry i f l) /\ (forall j, j ∈ map fst (at_entry i f l) <-> j = i \/ j ∈ map fst l) /\
  (forall j, entry_at j (at_entry i f l) = if j =? i then f (entry_at i l) else entry_at j l).
Proof using.
  unfold ordered. induction l as [|[k call] l IH]; cbn [at_entry map fst entry_at]; intros Hs.
  - split_and!; [repeat constructor|intros j; set_solver|]. intros j. cbn. destruct (Z.eqb_spec j i); [|by destruct (Z.eqb_spec j i)]. done.
  - apply StronglySorted_inv in Hs as [Hs Hk]. destruct (Z.eqb_spec i k) as [->|Hik].
    { split_and!; [by constructor|set_solver|]. intros j. cbn [entry_at]. by destruct (Z.eqb_spec j k). }
    destruct (Z.ltb_spec i k) as [Hlt|Hge].
    + split_and!; [constructor; [by constructor|]|set_solver|].
      * constructor; [done|]. eapply Forall_impl; [exact Hk|]. simpl. lia.
      * assert (Hi : i ∉ map fst l) by (intros Hin; rewrite Forall_forall in Hk; specialize (Hk i Hin); lia).
        intros j. cbn [entry_at]. destruct (Z.eqb_spec j i) as [->|]; [|done]. by rewrite (entry_at_missing i l).
    + destruct (IH Hs) as (Hs' & Hin & He). split_and!.
      * cbn [map fst]. constructor; [done|]. apply Forall_forall. intros j [->|Hj]%Hin; [lia|]. rewrite Forall_forall in Hk. by apply Hk.
      * intros j. cbn [map fst]. rewrite !elem_of_cons, Hin. tauto.
      * intros j. cbn [entry_at]. rewrite He. destruct (Z.eqb_spec j k) as [->|]; [|done]. by destruct (Z.eqb_spec k i).
Qed.

Lemma accumulate_spec st call st' : ordered (pending st) -> accumulate st call = Ok st' ->
  exists i, call_index call = Some i /\ ordered (pending st') /\ (forall j, j ∈ map fst (pending st') <-> j = i \/ j ∈ map fst (pending st)) /\
    (forall j, entry_at j (pending st') = if j =? i then add (entry_at i (pending st)) call else entry_at j (pending st)) /\
    ((forall j, str_len (pending_arguments (entry_at j (pending st))) <= MAX_TOOL_INPUT_BYTES) ->
      forall j, str_len (pending_arguments (entry_at j (pending st'))) <= MAX_TOOL_INPUT_BYTES).
Proof using.
  intros Ho. unfold accumulate. fold (call_index call). destruct (call_index call) as [i|]; [|done]. intros H. exists i. split; [done|].
  assert (Hadd : exists f, pending st' = at_entry i f (pending st) /\ f (entry_at i (pending st)) = add (entry_at i (pending st)) call /\
    (str_len (pending_arguments (entry_at i (pending st))) <= MAX_TOOL_INPUT_BYTES ->
     str_len (pending_arguments (f (entry_at i (pending st)))) <= MAX_TOOL_INPUT_BYTES)).
  { unfold add, fragment_text. destruct (function_field call "arguments") as [fragment|].
    - destruct (Z.ltb_spec MAX_TOOL_INPUT_BYTES (str_len (pending_arguments (entry_at i (pending st))) + str_len fragment)); [done|].
      injection H as <-. eexists. split; [done|]. split; [done|]. cbn [pending_arguments]. intros _. rewrite str_len_app. lia.
    - injection H as <-. eexists. split; [done|]. cbn [default pending_arguments]. by rewrite str_app_nil. }
  destruct Hadd as (f & Hf & Hadd & Hlen). destruct (at_entry_spec i f (pending st) Ho) as (Ho' & Hin & He). rewrite Hf. split_and!; [done|done| |].
  - intros j. by rewrite He, Hadd.
  - intros Hb j. rewrite He. destruct (j =? i); [by apply Hlen|done].
Qed.

Lemma accumulate_all_spec calls : forall st st', ordered (pending st) -> accumulate_all st calls = Ok st' ->
  ordered (pending st') /\ (forall j, j ∈ map fst (pending st') <-> j ∈ map fst (pending st) \/ exists c, c ∈ calls /\ call_index c = Some j) /\
  (forall j, entry_at j (pending st') = foldl add (entry_at j (pending st)) (fragments j calls)) /\
  ((forall j, str_len (pending_arguments (entry_at j (pending st))) <= MAX_TOOL_INPUT_BYTES) ->
    forall j, str_len (pending_arguments (entry_at j (pending st'))) <= MAX_TOOL_INPUT_BYTES).
Proof using.
  induction calls as [|call calls IH]; intros st st' Ho; cbn [accumulate_all].
  { intros [= <-]. split_and!; [done|set_solver|done|done]. }
  destruct (accumulate st call) as [st1|] eqn:E; [|done]. simpl. intros H.
  destruct (accumulate_spec _ _ _ Ho E) as (i & Hi & Ho1 & Hin1 & He1 & Hb1). destruct (IH _ _ Ho1 H) as (Ho' & Hin & He & Hb).
  split_and!; [done| | |].
  - intros j. rewrite Hin, Hin1. split.
    + intros [[->|?]|(c & ? & ?)]; [right; exists call; by split; [left|]|by left|right; exists c; by split; [right|]].
    + intros [?|(c & [->|?]%elem_of_cons & Hc)]; [tauto| |right; by exists c]. left. left. congruence.
  - intros j. rewrite He, He1. unfold fragments. cbn [List.filter]. rewrite Hi. destruct (Z.eqb_spec j i) as [->|Hne].
    + by rewrite bool_decide_true.
    + by rewrite bool_decide_false by congruence.
  - intros Hj. by apply Hb, Hb1.
Qed.

Lemma entry_at_ordered l i call : ordered l -> (i, call) ∈ l -> entry_at i l = call.
Proof using.
  unfold ordered. induction l as [|[k c] l IH]; cbn [map fst entry_at]; intros Ho Hin; [by apply not_elem_of_nil in Hin|].
  apply StronglySorted_inv in Ho as [Ho Hk]. apply elem_of_cons in Hin as [[= <- <-]|Hin]; [by rewrite Z.eqb_refl|].
  rewrite Forall_forall in Hk. specialize (Hk i ltac:(by apply (list_elem_of_fmap_2 fst) in Hin)). destruct (Z.eqb_spec i k); [lia|by apply IH].
Qed.

(** A chunk that is a whole call. *)
Definition whole (p : PendingCall) (chunk : CompletionChunk) : Prop :=
  exists id name arguments, chunk = Chunk_ToolCall {| call_id := id; call_name := name; arguments := arguments |} /\
    pending_id p = Some id /\ pending_name p = Some name /\ parse_arguments (pending_arguments p) name = Ok arguments.

Lemma flush_spec st st' chunks : flush st = Ok (st', chunks) -> pending st' = [] /\ Forall2 whole (map snd (pending st)) chunks.
Proof using.
  unfold flush. destruct (collect _ (pending st)) as [cs|] eqn:E; [|done]. simpl. intros H. injection H as <- <-. split; [done|]. revert cs E.
  induction (pending st) as [|[i p] l IH]; intros cs; cbn [collect map snd]; [by intros [= <-]; constructor|].
  destruct (complete_call _ _) as [call|] eqn:Ec; [|done]. simpl. destruct (collect _ l) as [cs'|]; [|done]. simpl. intros [= <-].
  constructor; [|by apply IH]. unfold complete_call in Ec. cbn [fst snd] in Ec. destruct (pending_id p) as [id|] eqn:Hid; [|done].
  destruct (pending_name p) as [name|] eqn:Hname; [|done]. destruct (parse_arguments _ name) as [arguments|] eqn:Ha; [|done].
  injection Ec as <-. exists id, name, arguments. by rewrite Hid, Hname.
Qed.

(** a streamed tool call is handed over whole or not at all: the calls that come of the pieces
    received are one for each index, in the order of the indices, each with the first id and the
    first name its pieces gave and with its arguments parsed from all the texts of its pieces, in
    the order they came and of a bounded length; one without id or name, or whose text does not
    parse to an object, is an error. *)
Theorem streamed_calls_are_whole (st st' st'' : StreamState) (calls : list Value) (chunks : list CompletionChunk) :
  pending st = [] -> accumulate_all st calls = Ok st' -> flush st' = Ok (st'', chunks) ->
  pending st'' = [] /\
  exists indices, StronglySorted Z.lt indices /\ (forall i, i ∈ indices <-> exists c, c ∈ calls /\ call_index c = Some i) /\
    Forall2 (fun i chunk => whole (assembled i calls) chunk /\ str_len (pending_arguments (assembled i calls)) <= MAX_TOOL_INPUT_BYTES) indices chunks.
Proof using.
  intros Hst Hacc Hflush. destruct (accumulate_all_spec calls st st') as (Ho & Hin & He & Hb); [unfold ordered; rewrite Hst; constructor|done|].
  apply flush_spec in Hflush as [-> Hw]. split; [done|]. exists (map fst (pending st')). split; [done|]. split.
  { intros i. rewrite Hin, Hst. split; [intros [H|?]; [by apply not_elem_of_nil in H|done]|by right]. }
  assert (Hsame : Forall (fun p => snd p = assembled (fst p) calls) (pending st')).
  { apply Forall_forall. intros [i p] Hp. cbn [fst snd]. rewrite <- (entry_at_ordered _ _ _ Ho Hp), He, Hst, add_all. done. }
  assert (Hlen : Forall (fun p => str_len (pending_arguments (snd p)) <= MAX_TOOL_INPUT_BYTES) (pending st')).
  { apply Forall_forall. intros [i p] Hp. cbn [snd]. rewrite <- (entry_at_ordered _ _ _ Ho Hp). apply Hb. intros j. by rewrite Hst. }
  revert Hsame Hlen Hw. clear. revert chunks. induction (pending st') as [|[i p] l IH]; intros chunks Hs Hl Hw.
  - inversion Hw. constructor.
  - cbn [map snd fst] in *. inversion Hw as [|? ? ? ? Hp Hrest]; subst. apply Forall_cons in Hs as [Hp1 Hs], Hl as [Hl1 Hl]. cbn [fst snd] in *. subst p.
    by constructor; [split|apply IH].
Qed.
End Streamed.

(** ** Where a key goes *)

Section Keys.
  Context (Url_parse : string -> result string Url) (parse_ip : string -> option IpAddr) (from_value : Value -> result string OpenAiSettings).
  Context (file_at : string -> KeyFile) (lookup : string -> option string) (octal : Z -> string) (header_value : string -> bool).

(** A place a conversation may be sent to. *)
Definition safe_place (with_key : bool) (url : Url) : Prop :=
  (scheme url = "https"%string \/ scheme url = "http"%string /\ is_loopback parse_ip url = true) /\ (with_key = false -> is_loopback parse_ip url = true).

Lemma validate_spec settings : validate Url_parse parse_ip settings = Ok tt ->
  exists url, Url_parse (endpoint settings) = Ok url /\ safe_place (api_key_required settings) url.
Proof using.
  unfold validate, validate_endpoint. destruct (Url_parse (endpoint settings)) as [url|]; [|done]. intros H. exists url. split; [done|].
  assert (Hu : exists u, (if bool_decide (scheme url = "https"%string) then Ok url
    else if bool_decide (scheme url = "http"%string) then if is_loopback parse_ip url then Ok url
      else Err (Base.Config "endpoint" "refusing to send an API key over plain HTTP to a host that is not loopback; use https")
    else Err (Base.Config "endpoint" ("`" +:+ scheme url +:+ "` is not an HTTP scheme"))) = u) by eauto.
  destruct Hu as [u Hu]. rewrite Hu in H. destruct u as [u|]; [|done]. simpl in H.
  assert (Hs : u = url /\ (scheme url = "https"%string \/ scheme url = "http"%string /\ is_loopback parse_ip url = true)).
  { case_bool_decide; [injection Hu as ->; by split; [|left]|]. case_bool_decide; [|done]. destruct (is_loopback parse_ip url); [|done].
    injection Hu as ->. by split; [|right]. }
  destruct Hs as [-> Hs]. split; [done|]. intros Hr. rewrite Hr in H. destruct (str_is_empty _); [done|].
  by destruct (is_loopback parse_ip url).
Qed.

Definition good_key (k : string) : Prop := all_bytes visible k = true /\ 0 < str_len k <= MAX_KEY_BYTES.

Lemma ApiKey_new_spec raw source k : ApiKey_new raw source = Ok k -> expose k = trim raw /\ good_key (expose k).
Proof using.
  unfold ApiKey_new. destruct (str_is_empty (trim raw)) eqn:Ee; [done|]. destruct (Z.ltb_spec MAX_KEY_BYTES (str_len (trim raw))); [done|].
  destruct (all_bytes visible (trim raw)) eqn:Ev; [|done]. intros [= <-]. split; [done|]. split; [done|]. cbn [expose].
  destruct (trim raw); [done|]. split; [|lia]. unfold str_len. simpl. lia.
Qed.

(** Where a key was found. *)
Definition kept_where (file : option string) (variable : string) (k : ApiKey) : Prop :=
  match file with
  | Some path => exists mode text, metadata (file_at path) = Ok (true, mode) /\ Z.land (Z.land mode 511) 63 = 0 /\
                   contents (file_at path) = Ok text /\ expose k = trim text
  | None => exists value, lookup variable = Some value /\ expose k = trim value
  end.

Lemma resolve_spec file variable required key : resolve file_at lookup octal file variable required = Ok key ->
  match key with Some k => good_key (expose k) /\ kept_where file variable k | None => required = false /\ file = None end.
Proof using.
  unfold resolve, kept_where. destruct file as [path|].
  - destruct (from_file file_at octal path) as [k|] eqn:E; [|done]. intros [= <-]. unfold from_file in E.
    destruct (metadata (file_at path)) as [[[] mode]|] eqn:Em; try done. cbn [negb] in E. unfold check_permissions in E.
    destruct (Z.eqb_spec (Z.land (Z.land mode 511) 63) 0); [|done]. simpl in E.
    destruct (contents (file_at path)) as [text|] eqn:Ec; [|done]. apply ApiKey_new_spec in E as [Ht Hk]. split; [done|]. by exists mode, text.
  - destruct (lookup variable) as [value|]; [|destruct required; [done|]; by intros [= <-]].
    destruct (ApiKey_new value variable) as [k|] eqn:E; [|done]. intros [= <-]. apply ApiKey_new_spec in E as [Ht Hk]. split; [done|]. by exists value.
Qed.

(** a key is neither in the configuration nor sent where it can be read: a provider that is set
    up from a section has one without any entry named like a secret; its key came of the
    environment, or of a file nobody else may read, is visible text of a bounded length, and is
    in the authorization header as it stands; the service is reached over HTTPS or on this
    machine, and without a key on this machine only. *)
Theorem keys_go_only_where_they_may (section : Config) (settings : OpenAiSettings) (key : option ApiKey) (p : OpenAiProvider)
    (hs : list (string * string)) :
  read Url_parse parse_ip from_value section = Ok settings ->
  resolve file_at lookup octal (api_key_file settings) (api_key_env settings) (api_key_required settings) = Ok key ->
  OpenAiProvider_new header_value Url_parse parse_ip settings key = Ok (p, hs) ->
  Forall (fun name => contains section name = false) SECRET_KEYS /\
  (exists url, Url_parse (endpoint settings) = Ok url /\ safe_place (bool_decide (is_Some key)) url) /\
  base_url p = trim_end_char "/" (endpoint settings) /\
  (forall value, In ("authorization"%string, value) hs <-> exists k, key = Some k /\ value = "Bearer " +:+ expose k) /\
  (forall k, key = Some k -> good_key (expose k) /\ kept_where (api_key_file settings) (api_key_env settings) k).
Proof using.
  unfold read. destruct (find (contains section) SECRET_KEYS) as [name|] eqn:Ef; [done|]. destruct (contains section NOT_OURS_RETRY_KEY); [done|].
  destruct (get_or_default _ _ section EmptyString) as [settings'|]; [|done]. simpl.
  destruct (validate Url_parse parse_ip settings') as [[]|] eqn:Ev; [|done]. simpl. intros [= ->] Hkey Hnew.
  apply validate_spec in Ev as (url & Hurl & Hsafe & Hno). apply resolve_spec in Hkey. unfold OpenAiProvider_new, headers in Hnew.
  destruct (validate _ _ _); [|done]. simpl in Hnew. set (auth := match option_map expose key with Some _ => _ | None => _ end) in Hnew.
  assert (Ha : auth = Ok (match key with Some k => [("authorization"%string, "Bearer " +:+ expose k)] | None => [] end) \/ exists e, auth = Err e).
  { unfold auth. destruct key as [k|]; [|by left]. cbn [option_map]. destruct (header_value _); [by left|]. right. by eexists. }
  destruct Ha as [Ha|[e Ha]]; rewrite Ha in Hnew; [|done]. simpl in Hnew. clear Ha auth.
  assert (Ho : forall name v l, optional_header header_value name v = Ok l -> name <> "authorization"%string -> forall value, ~ In ("authorization"%string, value) l).
  { intros name v l. unfold optional_header. destruct v as [v|]; [destruct (header_value v)|]; intros [= <-] Hne value; [|by intros []].
    intros [[= H _]|[]]. by apply Hne. }
  destruct (optional_header _ "openai-organization" _) as [l1|] eqn:E1; [|done]. destruct (optional_header _ "openai-project" _) as [l2|] eqn:E2; [|done].
  simpl in Hnew. injection Hnew as <- <-. refine (conj _ (conj _ (conj _ (conj _ _)))).
  - apply Forall_forall. intros name Hn%list_elem_of_In. by apply (find_none _ _ Ef).
  - exists url. split; [done|]. split; [done|]. intros Hk%bool_decide_eq_false. destruct key as [k|]; [by destruct Hk|]. apply Hno, Hkey.
  - done.
  - intros value. rewrite !in_app_iff. split.
    + intros [H|[H|H]]; [|by apply (Ho _ _ _ E1) in H|by apply (Ho _ _ _ E2) in H]. destruct key as [k|]; [|done]. exists k. simpl in H. naive_solver.
    + intros (k & -> & ->). left. by left.
  - by intros k ->.
Qed.
End Keys.

(** ** An example *)

Module Demo.
(** A parser of two texts. *)
#[local] Instance json : Json :=
  {| from_str text :=
       if bool_decide (text = "hello") then Ok (VObject [("choices", VArray [VObject [("delta", VObject [("content", VString "Hi")])]])])
       else if bool_decide (text = "bye") then Ok (VObject [("choices", VArray [VObject [("finish_reason", VString "stop")]])])
       else Err (BoxForeign "expected value" None);
     to_string v := "{}"; undecodable t := {| is_connect := false; is_timeout := false; is_body := false; reqwest_display := "error decoding" |};
     debug_part p := "part" |}.

Definition line (text : string) : string := "data: " +:+ text +:+ String (chr 10) EmptyString.
Definition deadline : Deadline := {| instant := 100; budget := from_millis 100 |}.
Definition closes : Wait := {| cancelled := false; overdue := false; next := None |}.

Example a_stream : sse_chunks deadline [arrives (line "hello" +:+ line "bye"); arrives (line "[DONE]"); closes] =
  ([Ok (Delta (Text "Hi")); Ok (Done Finish_Stop None)], true).
Proof. vm_compute. reflexivity. Qed.

(** A mark that is cut off is none, and a turn with a finish reason needs none. *)
Example a_missing_mark : sse_chunks deadline [arrives (line "bye" +:+ "data: [DO"); closes] = ([Ok (Done Finish_Stop None)], true).
Proof. vm_compute. reflexivity. Qed.

Definition whole_lines : list string := [line "hello"; "x"%string].
Definition cut_lines : list string := ["data: he"%string; "llo" +:+ String (chr 10) EmptyString; "x"%string].


Lemma cut_turn_is_not_done_witness :
  Forall (fun r => match r with Ok (Done _ _) => False | _ => True end) (sse_chunks deadline [arrives (line "hello"); closes]).1.
Proof.
  apply cut_turn_is_not_done.
  assert (H : split_lines (arrived [arrives (line "hello"); closes]) = (["data: hello"%string], EmptyString)) by (vm_compute; reflexivity).
  rewrite H. repeat constructor.
Defined.

(** Two calls in five pieces, mixed. *)
Definition piece_of (index : Z) (entries : list (string * Value)) : Value := VObject (entries ++ [("index"%string, VNumber (NInt index))]).
Definition named (id name : string) : list (string * Value) := [("id"%string, VString id); ("function"%string, VObject [("name"%string, VString name)])].
Definition two_calls : list Value := [piece_of 1 (named "b" "second"); piece_of 0 (named "a" "first"); piece_of 1 []].

Lemma streamed_calls_are_whole_witness :
  exists st' st'' chunks, accumulate_all StreamState_default two_calls = Ok st' /\ flush st' = Ok (st'', chunks) /\
    chunks = [Chunk_ToolCall {| call_id := "a"; call_name := "first"; arguments := VObject [] |};
              Chunk_ToolCall {| call_id := "b"; call_name := "second"; arguments := VObject [] |}] /\ pending st'' = [].
Proof.
  eexists _, _, _. split; [vm_compute; reflexivity|]. split; [vm_compute; reflexivity|]. split; [reflexivity|].
  eapply (streamed_calls_are_whole StreamState_default _ _ two_calls); [reflexivity|vm_compute; reflexivity|vm_compute; reflexivity].
Defined.

Definition asks : CompletionRequest :=
  {| req_model := "m"; req_messages := [Message_text Role_User "Hi"]; req_tools := []; req_parameters := VObject [("temperature"%string, VNumber (NInt 1))] |}.

Lemma parameters_never_override_witness :
  exists r, build_request asks false = Ok r /\ In ("model"%string, VString "m") (request_entries r) /\ NoDup (map fst (request_entries r)).
Proof.
  destruct (build_request asks false) as [r|] eqn:E; [|vm_compute in E; discriminate]. exists r. split; [reflexivity|].
  destruct (parameters_never_override asks false r) as (H & Hm & _); [repeat constructor; set_solver|exact E|]. by split.
Defined.

(** A call and its answer, in a window. *)
Definition turns : list Message :=
  [Message_text Role_User "Hi";
   {| role := Role_Assistant; content := [Part_ToolCall {| call_id := "a"; call_name := "first"; arguments := VObject [] |}]; name := None |};
   {| role := Role_Tool; content := [ToolResult "a" (VString "done") false]; name := None |}].

Lemma conversation_is_sent_whole_witness :
  exists wire, convert_messages turns = Ok wire /\ concat (map wire_events wire) = [Called "a" "first" "{}"; Answered "a" "done"].
Proof.
  destruct (convert_messages turns) as [wire|] eqn:E; [|vm_compute in E; discriminate]. exists wire. split; [reflexivity|].
  destruct (conversation_is_sent_whole (TL := heuristic_laws 4 (fun _ => "{}"%string) ltac:(lia)) turns wire E) as [H _].
  rewrite H. vm_compute. reflexivity.
Defined.

Lemma embeddings_are_aligned_witness :
  let data := [{| entry_index := 1; entry_embedding := [3%nat] |}; {| entry_index := 0; entry_embedding := [5%nat] |}] in
  aligned data [[5%nat]; [3%nat]].
Proof. cbv zeta. apply (embeddings_are_aligned _ 2 [[5%nat]; [3%nat]]); [repeat constructor; discriminate|lia|vm_compute; reflexivity]. Defined.

Definition at_home (text : string) : result string Url := Ok {| scheme := "http"; host_str := Some "localhost"%string |}.
Definition configured : OpenAiSettings :=
  {| endpoint := "http://localhost/v1/"; api_key_env := "KEY"; api_key_file := None; api_key_required := true; organization := None; project := None;
     request_timeout_ms := 1000 |}.

Lemma keys_go_only_where_they_may_witness :
  exists p hs, OpenAiProvider_new (fun _ => true) at_home (fun _ => None) configured (Some {| expose := "sk-1" |}) = Ok (p, hs) /\
    base_url p = "http://localhost/v1"%string /\ In ("authorization"%string, "Bearer sk-1"%string) hs.
Proof.
  eexists _, _. split; [vm_compute; reflexivity|].
  edestruct (keys_go_only_where_they_may at_home (fun _ => None) (fun _ => Ok configured)
    (fun _ => {| metadata := Err "none"%string; contents := Err "none"%string |}) (fun _ => Some " sk-1 "%string) (fun _ => EmptyString) (fun _ => true)
    (Config_from_value (VObject [])) configured (Some {| expose := "sk-1" |})) as (_ & _ & Hb & Ha & _);
    [vm_compute; reflexivity|vm_compute; reflexivity|vm_compute; reflexivity|].
  split; [reflexivity|]. apply Ha. exists {| expose := "sk-1" |}. by split.
Defined.
End Demo.
