(* ===== verification/Anthropic.v ===== *)
(** * Anthropic: the messages client ([crates/anthropic])

    The translation of conversations and answers ([protocol.rs]), the assembly of a streamed
    answer ([stream.rs]), the calls ([provider.rs], [http.rs]) and where the key comes from and
    may go ([credentials.rs], [settings.rs]). *)

From S2P Require Import Prelude Base Config Text Serde Window Agent Net Providers.

(** ** Wire types ([protocol.rs]) *)

Definition RESERVED_PARAMETERS : list string := ["model"; "messages"; "system"; "tools"; "stream"].
Definition UNSUPPORTED_PARAMETERS : list string := ["thinking"].

Record Source := { source_kind : string; media_type : string; source_data : string }.

Inductive Block :=
  | Block_Text (text : string)
  | Block_Image (source : Source)
  | Block_Document (source : Source)
  | Block_ToolUse (id name : string) (input : Value)
  | Block_ToolResult (tool_use_id : string) (content : Value) (is_error : bool).

Record WireMessage := { wire_role : string; wire_content : list Block }.
Record WireTool := { wt_name : string; wt_description : string; wt_input_schema : Value }.

Record MessagesRequest := {
  mr_model : string;
  mr_max_tokens : Z;
  mr_system : option string;
  mr_messages : list WireMessage;
  mr_tools : list WireTool;
  mr_stream : bool;
  mr_extra : Map;
}.

(** *** As JSON: [#[derive(Serialize)]] *)

Definition source_json (s : Source) : Value :=
  json_object [("type", VString (source_kind s)); ("media_type", VString (media_type s)); ("data", VString (source_data s))].

Definition block_json (b : Block) : Value :=
  match b with
  | Block_Text text => json_object [("type", VString "text"); ("text", VString text)]
  | Block_Image source => json_object [("type", VString "image"); ("source", source_json source)]
  | Block_Document source => json_object [("type", VString "document"); ("source", source_json source)]
  | Block_ToolUse id name input => json_object [("type", VString "tool_use"); ("id", VString id); ("name", VString name); ("input", input)]
  | Block_ToolResult id content is_error =>
      json_object ([("type", VString "tool_result"); ("tool_use_id", VString id); ("content", content)] ++
                   (if is_error then [("is_error", VBool true)] else []))
  end.

Definition message_json (m : WireMessage) : Value :=
  json_object [("role", VString (wire_role m)); ("content", VArray (map block_json (wire_content m)))].

Definition tool_json (t : WireTool) : Value :=
  json_object [("name", VString (wt_name t)); ("description", VString (wt_description t)); ("input_schema", wt_input_schema t)].

Definition own_entries (r : MessagesRequest) : list (string * Value) :=
  [("model", VString (mr_model r)); ("max_tokens", VNumber (NInt (mr_max_tokens r)))] ++ present "system" VString (mr_system r) ++
  [("messages", VArray (map message_json (mr_messages r)))] ++ array_unless_empty "tools" tool_json (mr_tools r) ++ [("stream", VBool (mr_stream r))].

(** The entries of the request's object, in the order they are written: [extra] is flattened
    into it. *)
Definition request_entries (r : MessagesRequest) : list (string * Value) := own_entries r ++ mr_extra r.

(** *** As read: [#[derive(Deserialize)]] *)

Record MessageResponse := { mres_content : list Value; mres_stop_reason : option string; mres_usage : option Usage }.

(** [WireUsage], and [From<WireUsage> for Usage] *)
Definition wire_usage (v : Value) : option Usage :=
  match open_fields ["input_tokens"; "output_tokens"] v with
  | Some [i; o] => i ← defaulted as_u64 0 i; o ← defaulted as_u64 0 o; Some {| usage_input := i; usage_output := o |}
  | _ => None
  end.

Definition message_response (v : Value) : option MessageResponse :=
  match open_fields ["content"; "stop_reason"; "usage"] v with
  | Some [c; s; u] =>
      c ← defaulted (as_list Some) [] c; s ← optional Value_as_str s; u ← optional wire_usage u;
      Some {| mres_content := c; mres_stop_reason := s; mres_usage := u |}
  | _ => None
  end.

(** [ModelEntry]: id and display name *)
Definition model_entry (v : Value) : option (string * option string) :=
  match open_fields ["id"; "display_name"] v with
  | Some [Some i; d] => i ← Value_as_str i; d ← optional Value_as_str d; Some (i, d)
  | _ => None
  end.
Definition models_response (v : Value) : option (list (string * option string)) :=
  match open_fields ["data"] v with Some [d] => defaulted (as_list model_entry) [] d | _ => None end.

(** ** Requests *)

Definition extra_parameters (parameters : Value) : Result Map :=
  match parameters with
  | VNull => Ok []
  | VObject map =>
      match find_key RESERVED_PARAMETERS map with
      | Some key => Err (InvalidArgument ("`" +:+ key +:+ "` is set from the request itself and cannot be overridden through parameters"))
      | None =>
          match find_key UNSUPPORTED_PARAMETERS map with
          | Some key => Err (Unsupported ("the Anthropic provider does not support `" +:+ key +:+
              "`, because it cannot replay the blocks it produces on a later turn"))
          | None => Ok map
          end
      end
  | _ => Err (InvalidArgument "the Anthropic provider expects request parameters to be a JSON object")
  end.

(** A positive [u32]. *)
Definition positive_u32 (v : Value) : option Z :=
  match as_u64 v with Some tokens => if (tokens <=? u32_max) && (0 <? tokens) then Some tokens else None | None => None end.

(** [Map::remove] *)
Definition Map_remove (key : string) (m : Map) : Map := List.filter (fun p => negb (bool_decide (fst p = key))) m.

Definition convert_tool (definition : ToolDefinition) : WireTool :=
  {| wt_name := def_name definition; wt_description := def_description definition; wt_input_schema := def_input_schema definition |}.

Definition blob_block (mime_type data : string) : Result Block :=
  let source := {| source_kind := "base64"; media_type := mime_type; source_data := data |} in
  if bool_decide (mime_type = "application/pdf") then Ok (Block_Document source)
  else if starts_with mime_type "image/" then Ok (Block_Image source)
  else Err (Unsupported ("the Anthropic provider cannot send `" +:+ mime_type +:+ "` content")).

Section Protocol.
  Context `{J : Json}.

Definition system_part (part : ContentPart) : Result (list string) :=
  match part with
  | Text text => Ok [text]
  | other => Err (Unsupported ("a system message may only contain text; got `" +:+ debug_part other +:+ "`"))
  end.

Definition system_text (message : Message) : Result string := result_map (String.concat EmptyString) (collect system_part (content message)).

(** A result is sent as text. *)
Definition result_content (content : Value) : Value := match content with VString text => VString text | other => VString (to_string other) end.

Definition convert_part (r : Role) (part : ContentPart) : Result (list Block) :=
  let refused := Err (Unsupported ("the Anthropic provider does not support `" +:+ debug_part part +:+ "` content parts on a `" +:+ debug_role r +:+
                                   "` message")) in
  match part with
  | Text text => if str_is_empty text then Ok [] else Ok [Block_Text text]
  | Blob mime_type data => result_map (fun b => [b]) (blob_block mime_type data)
  | Part_ToolCall call =>
      if bool_decide (r = Role_Assistant) then Ok [Block_ToolUse (call_id call) (call_name call) (arguments call)] else refused
  | ToolResult call_id content is_error =>
      if bool_decide (r = Role_Tool) then Ok [Block_ToolResult call_id (result_content content) is_error] else refused
  | Part_Other _ => refused
  end.

Definition convert_blocks (message : Message) : Result (list Block) := collect (convert_part (role message)) (content message).

Definition role_name (r : Role) : string := match r with Role_Assistant => "assistant" | _ => "user" end.

(** [wire.last_mut()]: blocks are added to the last message where it has their role. *)
Fixpoint add_blocks (role : string) (blocks : list Block) (wire : list WireMessage) : list WireMessage :=
  match wire with
  | [] => [{| wire_role := role; wire_content := blocks |}]
  | [previous] =>
      if bool_decide (wire_role previous = role) then [{| wire_role := wire_role previous; wire_content := wire_content previous ++ blocks |}]
      else [previous; {| wire_role := role; wire_content := blocks |}]
  | m :: wire => m :: add_blocks role blocks wire
  end.

(** The loop over the messages, from what it has gathered. *)
Fixpoint convert_from (system : list string) (wire : list WireMessage) (messages : list Message) : Result (list string * list WireMessage) :=
  match messages with
  | [] => Ok (system, wire)
  | message :: messages =>
      if bool_decide (role message = Role_System) then
        let? text := system_text message in convert_from (system ++ [text]) wire messages
      else
        let? blocks := convert_blocks message in
        match blocks with
        | [] => convert_from system wire messages
        | _ => convert_from system (add_blocks (role_name (role message)) blocks wire) messages
        end
  end.

Definition convert_messages (messages : list Message) : Result (option string * list WireMessage) :=
  let? gathered := convert_from [] [] messages in
  Ok (match fst gathered with [] => None | system => Some (String.concat BLANK_LINE system) end, snd gathered).

Definition build_request (request : CompletionRequest) (default_max_tokens : Z) (stream : bool) : Result MessagesRequest :=
  let? extra := extra_parameters (req_parameters request) in
  let? max_tokens := match Map_get "max_tokens" extra with
                     | Some value =>
                         match positive_u32 value with
                         | Some tokens => Ok tokens
                         | None => Err (InvalidArgument "`max_tokens` in the request parameters must be a positive integer")
                         end
                     | None => Ok default_max_tokens
                     end in
  let extra := Map_remove "max_tokens" extra in
  let? converted := convert_messages (req_messages request) in
  Ok {| mr_model := req_model request; mr_max_tokens := max_tokens; mr_system := fst converted; mr_messages := snd converted;
        mr_tools := map convert_tool (req_tools request); mr_stream := stream; mr_extra := extra |}.
End Protocol.

(** ** Answers *)

Definition type_of (v : Value) : option string := Value_get v "type" ≫= Value_as_str.

(** [AnthropicApiError] as an error's source *)
Definition api_error (kind message : string) : BoxError := BoxForeign (kind +:+ ": " +:+ message) None.

Definition convert_block (block : Value) : Result ContentPart :=
  if bool_decide (type_of block = Some "text"%string) then Ok (Text (default EmptyString (Value_get block "text" ≫= Value_as_str)))
  else if bool_decide (type_of block = Some "tool_use"%string) then
    match Value_get block "id" ≫= Value_as_str with
    | None => Err (Error_other "a tool_use block arrived without an id, so its result could not be matched to it")
    | Some id =>
        match Value_get block "name" ≫= Value_as_str with
        | None => Err (Error_other "a tool_use block arrived without a name")
        | Some name => Ok (Part_ToolCall {| call_id := id; call_name := name; arguments := default (VObject []) (Value_get block "input") |})
        end
    end
  else Ok (Part_Other block).

Definition map_stop_reason (reason : option string) : FinishReason :=
  match reason with
  | Some reason =>
      if bool_decide (reason = "max_tokens") then Finish_Length
      else if bool_decide (reason = "tool_use") then Finish_ToolCalls
      else if bool_decide (reason = "refusal") then Finish_Filtered
      else Finish_Stop
  | None => Finish_Stop
  end.

Definition is_call (part : ContentPart) : bool := match part with Part_ToolCall _ => true | _ => false end.

Definition convert_response (body : MessageResponse) : Result CompletionResponse :=
  let? content := collect (fun b => result_map (fun p => [p]) (convert_block b)) (mres_content body) in
  let asked_for_tools := existsb is_call content in
  Ok {| resp_message := {| role := Role_Assistant; content := content; name := None |};
        resp_finish_reason := if asked_for_tools then Finish_ToolCalls else map_stop_reason (mres_stop_reason body);
        resp_usage := mres_usage body |}.

Definition stream_error (value : Value) : Error :=
  let kind := default "error" (type_of value) in
  let message := default "the Anthropic API reported an error" (Value_get value "message" ≫= Value_as_str) in
  Error_wrap "the Anthropic API reported an error mid-stream" (api_error kind message).

Definition convert_models (entries : list (string * option string)) : list ModelDescriptor :=
  map (fun entry => {| model_id := fst entry; display_name := snd entry; context_window := None; max_output_tokens := None;
                       capabilities := [ModelCapabilities_STREAMING; ModelCapabilities_TOOLS] |}) entries.

(** ** Streams ([stream.rs]) *)

Definition MAX_EVENT_BYTES : Z := 4 * 1024 * 1024.
Definition MAX_TOOL_INPUT_BYTES : Z := 4 * 1024 * 1024.

Record PendingCall := { pending_id : string; pending_name : string; pending_arguments : string }.

(** With [saw_tool_call], which the loop keeps beside it. *)
Record StreamState := {
  pending : gmap Z PendingCall;
  input_tokens : Z;
  output_tokens : Z;
  stop_reason : option string;
  saw_tool_call : bool;
}.
Definition StreamState_default : StreamState :=
  {| pending := ∅; input_tokens := 0; output_tokens := 0; stop_reason := None; saw_tool_call := false |}.

Definition with_pending (p : gmap Z PendingCall) (s : StreamState) : StreamState :=
  {| pending := p; input_tokens := input_tokens s; output_tokens := output_tokens s; stop_reason := stop_reason s; saw_tool_call := saw_tool_call s |}.

Definition stream_usage (self : StreamState) : option Usage :=
  if (input_tokens self =? 0) && (output_tokens self =? 0) then None
  else Some {| usage_input := input_tokens self; usage_output := output_tokens self |}.

Definition stream_finish_reason (self : StreamState) (saw_tool_call : bool) : FinishReason :=
  if saw_tool_call then Finish_ToolCalls else map_stop_reason (stop_reason self).

Inductive Step := Emit (chunks : list CompletionChunk) | End | Continue.

Definition index_of (event : Value) : Result Z :=
  match Value_get event "index" ≫= as_u64 with
  | Some index => Ok index
  | None => Err (Error_other "an Anthropic stream event arrived without a block index")
  end.

(** A text that is not empty is emitted. *)
Definition emit_text (v : Value) : Step :=
  match nonempty (Value_get v "text" ≫= Value_as_str) with Some text => Emit [Delta (Text text)] | None => Continue end.

Definition message_start (event : Value) (state : StreamState) : StreamState :=
  match (m ← Value_get event "message"; Value_get m "usage") with
  | Some usage => {| pending := pending state; input_tokens := field usage "input_tokens"; output_tokens := field usage "output_tokens";
                     stop_reason := stop_reason state; saw_tool_call := saw_tool_call state |}
  | None => state
  end.

Definition content_block_start (event : Value) (state : StreamState) : Result (StreamState * Step) :=
  let? index := index_of event in
  let block := default VNull (Value_get event "content_block") in
  if bool_decide (type_of block = Some "tool_use"%string) then
    match Value_get block "id" ≫= Value_as_str with
    | None => Err (Error_other "a streamed tool call arrived without an id")
    | Some id =>
        match Value_get block "name" ≫= Value_as_str with
        | None => Err (Error_other "a streamed tool call arrived without a name")
        | Some name =>
            Ok (with_pending (<[index := {| pending_id := id; pending_name := name; pending_arguments := EmptyString |}]> (pending state)) state, Continue)
        end
    end
  else if bool_decide (type_of block = Some "text"%string) then Ok (state, emit_text block)
  else Ok (state, Continue).

Definition content_block_delta (event : Value) (state : StreamState) : Result (StreamState * Step) :=
  let? index := index_of event in
  let delta := default VNull (Value_get event "delta") in
  if bool_decide (type_of delta = Some "text_delta"%string) then Ok (state, emit_text delta)
  else if bool_decide (type_of delta = Some "input_json_delta"%string) then
    let fragment := default EmptyString (Value_get delta "partial_json" ≫= Value_as_str) in
    match pending state !! index with
    | Some call =>
        if MAX_TOOL_INPUT_BYTES <? str_len (pending_arguments call) + str_len fragment then
          Err (Error_other "a streamed tool call's arguments exceeded the size this provider will buffer")
        else
          Ok (with_pending (<[index := {| pending_id := pending_id call; pending_name := pending_name call;
                                          pending_arguments := pending_arguments call +:+ fragment |}]> (pending state)) state, Continue)
    | None => Err (Error_other "the Anthropic stream sent tool arguments for a block that was never opened")
    end
  else Ok (state, Continue).

Definition message_delta (event : Value) (state : StreamState) : StreamState :=
  let stop_reason := match (d ← Value_get event "delta"; Value_get d "stop_reason") ≫= Value_as_str with
                     | Some reason => Some reason
                     | None => stop_reason state
                     end in
  match Value_get event "usage" with
  | Some usage =>
      let output := field usage "output_tokens" in
      let input := field usage "input_tokens" in
      {| pending := pending state; input_tokens := if 0 <? input then input else input_tokens state;
         output_tokens := if 0 <? output then output else output_tokens state; stop_reason := stop_reason; saw_tool_call := saw_tool_call state |}
  | None => {| pending := pending state; input_tokens := input_tokens state; output_tokens := output_tokens state; stop_reason := stop_reason;
               saw_tool_call := saw_tool_call state |}
  end.

Section Streams.
  Context `{J : Json}.

(** Any value of JSON will do for the arguments. *)
Definition complete_call (call : PendingCall) : Result ToolCall :=
  let? arguments := if str_is_empty (trim (pending_arguments call)) then Ok (VObject [])
                    else map_err (Error_wrap ("the Anthropic stream sent arguments for `" +:+ pending_name call +:+ "` that are not valid JSON"))
                           (from_str (pending_arguments call)) in
  Ok {| call_id := pending_id call; call_name := pending_name call; arguments := arguments |}.

Definition content_block_stop (event : Value) (state : StreamState) : Result (StreamState * Step) :=
  let? index := index_of event in
  match pending state !! index with
  | Some call => let? call := complete_call call in Ok (with_pending (delete index (pending state)) state, Emit [Chunk_ToolCall call])
  | None => Ok (state, Continue)
  end.

Definition step (event : Value) (state : StreamState) : Result (StreamState * Step) :=
  match type_of event with
  | None => Ok (state, Continue)
  | Some kind =>
      if bool_decide (kind = "message_start") then Ok (message_start event state, Continue)
      else if bool_decide (kind = "content_block_start") then content_block_start event state
      else if bool_decide (kind = "content_block_delta") then content_block_delta event state
      else if bool_decide (kind = "content_block_stop") then content_block_stop event state
      else if bool_decide (kind = "message_delta") then Ok (message_delta event state, Continue)
      else if bool_decide (kind = "message_stop") then Ok (state, End)
      else if bool_decide (kind = "error") then Err (stream_error (default event (Value_get event "error")))
      else Ok (state, Continue)
  end.

Definition chunk_is_call (c : CompletionChunk) : bool := match c with Chunk_ToolCall _ => true | _ => false end.

Definition see_calls (chunks : list CompletionChunk) (s : StreamState) : StreamState :=
  {| pending := pending s; input_tokens := input_tokens s; output_tokens := output_tokens s; stop_reason := stop_reason s;
     saw_tool_call := saw_tool_call s || existsb chunk_is_call chunks |}.

(** The body of the loop over the lines: the state after, what is yielded, whether it ends. *)
Definition on_line (line : string) (state : StreamState) : StreamState * list (Result CompletionChunk) * bool :=
  match event_data (strip_carriage_return line) with
  | None => (state, [], false)
  | Some data =>
      match from_str data with
      | Err error => (state, [Err (Error_wrap "decoding an Anthropic stream event" error)], true)
      | Ok event =>
          match step event state with
          | Ok (state, Emit chunks) => (see_calls chunks state, map Ok chunks, false)
          | Ok (state, End) => (state, [Ok (Done (stream_finish_reason state (saw_tool_call state)) (stream_usage state))], true)
          | Ok (state, Continue) => (state, [], false)
          | Err error => (state, [Err error], true)
          end
      end
  end.

Definition event_cap : option (Z * Error) :=
  Some (MAX_EVENT_BYTES, Error_other "the Anthropic stream sent an event larger than this provider will buffer").

(** The end of the bytes yields nothing. *)
Definition sse_chunks (deadline : Deadline) (waits : list Wait) : list (Result CompletionChunk) * bool :=
  chunks on_line (fun _ _ => []) event_cap (budget deadline) "reading the Anthropic response stream" waits EmptyString StreamState_default.
End Streams.

(** ** The key, and where it may go ([credentials.rs], [settings.rs]) *)

Definition MAX_KEY_BYTES : Z := 512.
Definition DEFAULT_KEY_VARIABLE : string := "ANTHROPIC_API_KEY".

Definition ApiKey_new (raw source : string) : Result ApiKey :=
  let trimmed := trim raw in
  if str_is_empty trimmed then Err (Base.Config source "the Anthropic API key is empty")
  else if MAX_KEY_BYTES <? str_len trimmed then Err (Base.Config source ("the Anthropic API key is longer than " +:+ fmt_u MAX_KEY_BYTES +:+ " bytes"))
  else if negb (all_bytes visible trimmed) then
    Err (Base.Config source ("the Anthropic API key contains characters that cannot appear in an HTTP header; " +:+
      "check for a stray newline or a shell-quoting mistake"))
  else Ok {| expose := trimmed |}.

Section Credentials.
  (** A file of the system, the environment, and [{mode:04o}]. *)
  Context (file_at : string -> KeyFile) (lookup : string -> option string) (octal : Z -> string).

Definition check_permissions (mode : Z) (source : string) : Result unit :=
  let mode := Z.land mode 511 in
  if negb (Z.land mode 63 =? 0) then
    Err (Base.Config source ("the Anthropic API key file is readable by other users (mode " +:+ octal mode +:+ "); run `chmod 600` on it"))
  else Ok tt.

Definition from_file (path : string) : Result ApiKey :=
  let file := file_at path in
  match metadata file with
  | Err error => Err (Base.Config path ("cannot read the Anthropic API key file: " +:+ error))
  | Ok (is_file, mode) =>
      if negb is_file then Err (Base.Config path "the Anthropic API key path is not a regular file")
      else
        let? _ := check_permissions mode path in
        match contents file with
        | Err error => Err (Base.Config path ("cannot read the Anthropic API key file: " +:+ error))
        | Ok text => ApiKey_new text path
        end
  end.

Definition resolve (file : option string) (variable : string) : Result ApiKey :=
  match file with
  | Some path => from_file path
  | None =>
      match lookup variable with
      | Some value => ApiKey_new value variable
      | None => Err (Base.Config variable ("no Anthropic API key: set `" +:+ variable +:+ "` in the environment, or point `api_key_file` at a file " +:+
                                           "containing one"))
      end
  end.
End Credentials.

Definition key_source_hint : string := "`api_key_env` (default `" +:+ DEFAULT_KEY_VARIABLE +:+ "`) or `api_key_file`".

Definition MOVED_RETRY_KEY : string := "max_retries".
Definition SECRET_KEYS : list string := ["api_key"; "apikey"; "auth_token"; "token"; "secret"; "key"]%string.

Record AnthropicSettings := {
  endpoint : string;
  api_version : string;
  api_key_env : string;
  api_key_file : option string;
  request_timeout_ms : Z;
  settings_max_output_tokens : Z;
}.

Definition AnthropicSettings_default : AnthropicSettings :=
  {| endpoint := "https://api.anthropic.com"; api_version := "2023-06-01"; api_key_env := DEFAULT_KEY_VARIABLE; api_key_file := None;
     request_timeout_ms := 300000; settings_max_output_tokens := 4096 |}.

Section Settings.
  (** [Url::parse] of the URL library, the text of an address read, [serde_json::from_value]. *)
  Context (Url_parse : string -> result string Url) (parse_ip : string -> option IpAddr) (from_value : Value -> result string AnthropicSettings).

Definition is_loopback (url : Url) : bool :=
  match host_str url with
  | Some host =>
      if bool_decide (host = "localhost") then true
      else match parse_ip (trim_end_char "]" (trim_start_char "[" host)) with Some address => ip_is_loopback address | None => false end
  | None => false
  end.

Definition validate_endpoint (endpoint : string) : Result unit :=
  match Url_parse endpoint with
  | Err error => Err (Base.Config "endpoint" ("not a URL: " +:+ error))
  | Ok url =>
      if bool_decide (scheme url = "https") then Ok tt
      else if bool_decide (scheme url = "http") then
        if is_loopback url then Ok tt
        else Err (Base.Config "endpoint" "refusing to send an API key over plain HTTP to a host that is not loopback; use https")
      else Err (Base.Config "endpoint" ("`" +:+ scheme url +:+ "` is not an HTTP scheme"))
  end.

Definition header_safe (value field : string) : Result unit :=
  if str_is_empty value || negb (all_bytes visible value) then Err (Base.Config field "must be non-empty, visible ASCII text") else Ok tt.

Definition validate (self : AnthropicSettings) : Result unit :=
  let? _ := validate_endpoint (endpoint self) in
  let? _ := header_safe (api_version self) "api_version" in
  if str_is_empty (trim (api_key_env self)) then
    Err (Base.Config "api_key_env" "the environment variable holding the API key cannot be an empty name")
  else if settings_max_output_tokens self =? 0 then
    Err (Base.Config "max_output_tokens" "a request that may produce no tokens has nothing to return")
  else Ok tt.

(** [AnthropicSettings::base_url] *)
Definition settings_base_url (self : AnthropicSettings) : string := trim_end_char "/" (endpoint self).

Definition read (section : Config) : Result AnthropicSettings :=
  match find (contains section) SECRET_KEYS with
  | Some key => Err (Base.Config key ("an API key must not be written into the configuration tree, which is cloned, merged and printed " +:+
      "throughout the process; name where the key lives instead, with " +:+ key_source_hint))
  | None =>
      if contains section MOVED_RETRY_KEY then
        Err (Base.Config MOVED_RETRY_KEY ("retrying is no longer this provider's own concern; it is configured once for every provider under " +:+
          "`components.model.resilient.retry`"))
      else
        let? settings := get_or_default from_value AnthropicSettings_default section EmptyString in
        let? _ := validate settings in
        Ok settings
  end.
End Settings.

(** ** HTTP ([http.rs]) *)

(** [ErrorEnvelope]: kind and message *)
Definition error_body (v : Value) : option (string * string) :=
  match open_fields ["type"; "message"] v with
  | Some [k; m] => k ← defaulted Value_as_str EmptyString k; m ← defaulted Value_as_str EmptyString m; Some (k, m)
  | _ => None
  end.
Definition error_envelope (v : Value) : option (string * string) :=
  match open_fields ["error"] v with Some [Some e] => error_body e | _ => None end.

Section Client.
  Context `{J : Json}.
  (** [StatusCode]'s text, and whether a text may be a header's value *)
  Context (status_text : Z -> string) (header_value : string -> bool).

Definition read_error (body : string) : string * string :=
  match from_str body with
  | Ok v => match error_envelope v with Some error => error | None => ("http", body) end
  | Err _ => ("http", body)
  end.

Definition ensure_success (response : Response) : Result Response :=
  if is_success response then Ok response
  else
    let (kind, message) := read_error (text_or_default response) in
    Err (refused ("the Anthropic API returned HTTP " +:+ status_text (status response)) (kind +:+ ": " +:+ message) response).

(** The headers of every request: the key is marked sensitive. *)
Definition headers (key : ApiKey) (api_version : string) : Result (list (string * string)) :=
  if negb (header_value (expose key)) then Err (Base.Config "api key" "the API key cannot be sent as an HTTP header")
  else if negb (header_value api_version) then Err (Base.Config "api_version" "cannot be sent as an HTTP header")
  else Ok [("x-api-key", expose key); ("anthropic-version", api_version)].

(** ** The calls ([provider.rs]) *)

Record AnthropicProvider := { base_url : string; max_output_tokens : Z; default_timeout : Duration }.

(** [AnthropicProvider::new]; the client it builds holds the headers and follows no redirect. *)
Definition AnthropicProvider_new (settings : AnthropicSettings) (key : ApiKey) : Result (AnthropicProvider * list (string * string)) :=
  let? headers := headers key (api_version settings) in
  Ok ({| base_url := settings_base_url settings; max_output_tokens := settings_max_output_tokens settings;
         default_timeout := from_millis (request_timeout_ms settings) |}, headers).

Definition url (self : AnthropicProvider) (path : string) : string := base_url self +:+ "/" +:+ trim_start_char "/" path.

(** What [reqwest] makes of a request: its URL and body. *)
Context (post : string -> list (string * Value) -> result ReqwestError Response) (get : string -> result ReqwestError Response).

Definition models (self : AnthropicProvider) : Result (list ModelDescriptor) :=
  let? response := map_err (map_reqwest_error "listing Anthropic models") (get (url self "v1/models?limit=1000")) in
  let? response := ensure_success response in
  let? entries := map_err (map_reqwest_error "decoding the Anthropic model list") (decode_body models_response response) in
  Ok (convert_models entries).

(** The time is [now] when a call begins; [cancelled] and [overdue] say what is seen before the
    answer is. *)
Definition complete (self : AnthropicProvider) (request : CompletionRequest) (cx : ExecutionContext) (now : Timestamp) (cancelled overdue : bool) :
    Result CompletionResponse :=
  let deadline := Deadline_compute now (default_timeout self) cx in
  let? wire := build_request request (max_output_tokens self) false in
  race cancelled overdue deadline
    (let? response := map_err (map_reqwest_error "sending a completion request to the Anthropic API")
                        (post (url self "v1/messages") (request_entries wire)) in
     let? response := ensure_success response in
     let? body := map_err (map_reqwest_error "decoding the Anthropic completion response") (decode_body message_response response) in
     convert_response body).

(** A stream that was opened, with what it yields over the times it waits. *)
Definition stream (self : AnthropicProvider) (request : CompletionRequest) (cx : ExecutionContext) (now : Timestamp) (cancelled overdue : bool)
    (waits : list Wait) : Result (list (Result CompletionChunk) * bool) :=
  let deadline := Deadline_compute now (default_timeout self) cx in
  let? wire := build_request request (max_output_tokens self) true in
  let? response := race cancelled overdue deadline
    (map_err (map_reqwest_error "opening an Anthropic stream") (post (url self "v1/messages") (request_entries wire))) in
  let? _ := ensure_success response in
  Ok (sse_chunks deadline waits).
End Client.

(** ** What a request says *)

Lemma messages_own_once r : NoDup (map fst (own_entries r)).
Proof.
  unfold own_entries. destruct (mr_system r), (mr_tools r); cbn; repeat (apply NoDup_cons; split; [set_solver|]); constructor.
Qed.

Lemma messages_own_reserved r key : key ∈ map fst (own_entries r) -> key = "max_tokens"%string \/ key ∈ RESERVED_PARAMETERS.
Proof. unfold own_entries, RESERVED_PARAMETERS. destruct (mr_system r), (mr_tools r); cbn; set_solver. Qed.

Lemma messages_own_spec r key v : In (key, v) (own_entries r) <->
  (key = "model"%string /\ v = VString (mr_model r)) \/ (key = "max_tokens"%string /\ v = VNumber (NInt (mr_max_tokens r))) \/
  (key = "system"%string /\ exists text, mr_system r = Some text /\ v = VString text) \/
  (key = "messages"%string /\ v = VArray (map message_json (mr_messages r))) \/
  (key = "tools"%string /\ mr_tools r <> [] /\ v = VArray (map tool_json (mr_tools r))) \/ (key = "stream"%string /\ v = VBool (mr_stream r)).
Proof. unfold own_entries. destruct (mr_system r), (mr_tools r); simpl; naive_solver. Qed.

Lemma Map_remove_in key m k v : In (k, v) (Map_remove key m) <-> In (k, v) m /\ k <> key.
Proof. unfold Map_remove. rewrite filter_In. cbn [fst]. by rewrite negb_true_iff, bool_decide_eq_false. Qed.

Lemma Map_remove_once key m : NoDup (map fst m) -> NoDup (map fst (Map_remove key m)).
Proof.
  induction m as [|[k v] m IH]; [done|]. cbn [map fst]. intros [Hk Hm]%NoDup_cons. unfold Map_remove. cbn [List.filter fst].
  case_bool_decide; [by apply IH|]. cbn [negb map fst]. apply NoDup_cons. split; [|by apply IH].
  intros ([k' v'] & -> & Hin)%list_elem_of_fmap. apply Hk. apply list_elem_of_In, filter_In in Hin as [Hin _].
  apply list_elem_of_fmap. exists (k', v'). by rewrite list_elem_of_In.
Qed.

Section Requests.
  Context {J : Json}.

(** no parameter of a request stands in for what the request says: the object that is sent has
    every key once - its model, its conversation, its tools and whether it streams are the
    request's, and its bound on tokens is the parameter's, a positive 32-bit number, or the
    provider's where there is none -, and every other parameter is sent as it was given. *)
Theorem parameters_stay_parameters (request : CompletionRequest) (default_max : Z) (is_stream : bool) (r : MessagesRequest) :
  NoDup (match req_parameters request with VObject m => map fst m | _ => [] end) ->
  build_request request default_max is_stream = Ok r ->
  NoDup (map fst (request_entries r)) /\
  In ("model", VString (req_model request)) (request_entries r) /\ In ("stream", VBool is_stream) (request_entries r) /\
  (exists tokens, In ("max_tokens", VNumber (NInt tokens)) (request_entries r) /\
     match Map_get "max_tokens" (match req_parameters request with VObject m => m | _ => [] end) with
     | Some value => value = VNumber (NInt tokens) /\ 0 < tokens <= u32_max
     | None => tokens = default_max
     end) /\
  (exists system messages, convert_messages (req_messages request) = Ok (system, messages) /\
     In ("messages", VArray (map message_json messages)) (request_entries r) /\
     (forall v, In ("system", v) (request_entries r) <-> exists text, system = Some text /\ v = VString text)) /\
  (forall v, In ("tools", v) (request_entries r) <-> req_tools request <> [] /\ v = VArray (map (fun d => tool_json (convert_tool d)) (req_tools request))) /\
  (forall key v, key <> "max_tokens"%string -> (exists m, req_parameters request = VObject m /\ In (key, v) m) -> In (key, v) (request_entries r)).
Proof using.
  unfold build_request. intros Hnd Hr. destruct (extra_parameters (req_parameters request)) as [extra|] eqn:Ee; [|done]. simpl in Hr.
  destruct (match Map_get "max_tokens" extra with Some _ => _ | None => _ end) as [tokens|] eqn:Et; [|done]. simpl in Hr.
  destruct (convert_messages (req_messages request)) as [[system messages]|] eqn:Em; [|done]. injection Hr as <-.
  assert (He : (forall key, key ∈ RESERVED_PARAMETERS -> key ∉ map fst extra) /\ extra = match req_parameters request with VObject m => m | _ => [] end).
  { unfold extra_parameters in Ee. destruct (req_parameters request) as [| | | | |m]; try done.
    - injection Ee as <-. split; [intros key _ Hin; inversion Hin|done].
    - destruct (find_key RESERVED_PARAMETERS m) eqn:Ek; [done|]. destruct (find_key UNSUPPORTED_PARAMETERS m); [done|]. injection Ee as <-.
      split; [|done]. intros key Hkey. apply Map_get_none. by eapply find_key_none. }
  destruct He as (Hres & Hsame). assert (Hnde : NoDup (map fst extra)) by (rewrite Hsame; by destruct (req_parameters request)).
  rewrite <- Hsame. set (r := Build_MessagesRequest _ _ _ _ _ _ _).
  assert (Hr : forall key v, key = "max_tokens"%string \/ key ∈ RESERVED_PARAMETERS -> ~ In (key, v) (mr_extra r)).
  { intros key v Hk [Hin Hne]%Map_remove_in. destruct Hk as [|Hk]; [done|]. apply (Hres key Hk). apply list_elem_of_In. by apply (in_map fst) in Hin. }
  assert (Hin : forall p, In p (request_entries r) <-> In p (own_entries r) \/ In p (mr_extra r)) by (intros p; apply in_app_iff).
  assert (Hkeys : NoDup (map fst (request_entries r))).
  { unfold request_entries. rewrite map_app. apply NoDup_app. split_and!; [apply messages_own_once| |by apply Map_remove_once].
    intros key Hkey%messages_own_reserved ([k v] & -> & Hkv)%list_elem_of_fmap. by apply (Hr k v Hkey), list_elem_of_In. }
  revert Hin Hkeys. generalize (request_entries r). intros entries Hin Hkeys. split; [done|].
  rewrite !Hin, !messages_own_spec. split; [naive_solver|]. split; [naive_solver|]. split; [|split; [|split]].
  - exists tokens. split; [rewrite Hin, messages_own_spec; naive_solver|]. destruct (Map_get "max_tokens" extra) as [value|]; [|by injection Et as <-].
    unfold positive_u32, as_u64 in Et. destruct value as [| |[z|?]| | |]; try done. destruct ((0 <=? z) && _); [|done].
    destruct ((z <=? u32_max) && (0 <? z)) eqn:Ez; [|done]. injection Et as <-. split; [done|]. lia.
  - exists system, messages. split; [done|]. split; [rewrite Hin, messages_own_spec; naive_solver|]. intros v. rewrite Hin, messages_own_spec. split.
    + intros [H|H]; [naive_solver|]. exfalso. eapply Hr; [|exact H]. right. unfold RESERVED_PARAMETERS. set_solver.
    + intros (text & -> & ->). left. naive_solver.
  - intros v. rewrite Hin, messages_own_spec. cbn [r mr_tools]. rewrite map_map. destruct (req_tools request) as [|t ts]; split.
    + intros [Hv|Hin']; [naive_solver|]. exfalso. eapply Hr; [|exact Hin']. right. unfold RESERVED_PARAMETERS. set_solver.
    + by intros [? _].
    + intros [Hv|Hin']; [naive_solver|]. exfalso. eapply Hr; [|exact Hin']. right. unfold RESERVED_PARAMETERS. set_solver.
    + intros [_ ->]. left. naive_solver.
  - intros key v Hne (m & Hm & Hkv). rewrite Hin. right. apply Map_remove_in. rewrite Hsame, Hm. by split.
Qed.

(** *** The conversation *)

(** A block with the role it is sent in. *)
Definition said (wire : list WireMessage) : list (string * Block) := concat (map (fun m => map (pair (wire_role m)) (wire_content m)) wire).

Definition says (message : Message) : Result (list (string * Block)) :=
  result_map (map (pair (role_name (role message)))) (convert_blocks message).

Definition is_system (message : Message) : bool := bool_decide (role message = Role_System).

(** Messages follow one another in different roles. *)
Fixpoint alternates (wire : list WireMessage) : Prop :=
  match wire with
  | m :: ((m' :: _) as wire) => wire_role m <> wire_role m' /\ alternates wire
  | _ => True
  end.

Lemma add_blocks_said r blocks wire : said (add_blocks r blocks wire) = said wire ++ map (pair r) blocks.
Proof using.
  induction wire as [|m wire IH]; [unfold said; simpl; by rewrite app_nil_r|]. destruct wire as [|m' wire].
  - cbn [add_blocks]. case_bool_decide as Hr; unfold said; simpl; rewrite !app_nil_r; [|done]. by rewrite map_app, <- Hr.
  - change (add_blocks r blocks (m :: m' :: wire)) with (m :: add_blocks r blocks (m' :: wire)).
    change (said (?a :: ?l)) with (map (pair (wire_role a)) (wire_content a) ++ said l). by rewrite IH, app_assoc.
Qed.

Lemma add_blocks_alternates r blocks wire : alternates wire -> blocks <> [] -> Forall (fun m => wire_content m <> []) wire ->
  alternates (add_blocks r blocks wire) /\ Forall (fun m => wire_content m <> []) (add_blocks r blocks wire) /\
  (forall m, head wire = Some m -> option_map wire_role (head (add_blocks r blocks wire)) = Some (wire_role m)).
Proof using.
  intros Ha Hb. induction wire as [|m wire IH]; intros Hw; [by split_and!; [|constructor|]|]. destruct wire as [|m' wire].
  - cbn [add_blocks]. apply Forall_cons in Hw as [Hm _]. case_bool_decide as Hr.
    + split_and!; [done| |by intros ? [= <-]]. constructor; [|done]. cbn [wire_content]. intros [H _]%app_eq_nil. done.
    + split_and!; [done| |by intros ? [= <-]]. repeat constructor; done.
  - change (add_blocks r blocks (m :: m' :: wire)) with (m :: add_blocks r blocks (m' :: wire)). destruct Ha as [Hne Ha].
    apply Forall_cons in Hw as [Hm Hw]. destruct (IH Ha Hw) as (Ha' & Hw' & Hh). split_and!; [|by constructor|by intros ? [= <-]].
    specialize (Hh m' eq_refl). destruct (add_blocks r blocks (m' :: wire)) as [|m'' wire']; [done|]. split; [|done].
    injection Hh as ->. done.
Qed.

Lemma convert_from_spec messages : forall system wire system' wire',
  convert_from system wire messages = Ok (system', wire') -> alternates wire -> Forall (fun m => wire_content m <> []) wire ->
  alternates wire' /\ Forall (fun m => wire_content m <> []) wire' /\
  (exists texts, collect (fun m => result_map (fun t => [t]) (system_text m)) (List.filter is_system messages) = Ok texts /\ system' = system ++ texts) /\
  (exists blocks, collect says (List.filter (fun m => negb (is_system m)) messages) = Ok blocks /\ said wire' = said wire ++ blocks).
Proof using.
  induction messages as [|m messages IH]; intros system wire system' wire' Hc Ha Hw; cbn [convert_from List.filter] in *.
  { injection Hc as <- <-. split_and!; [done|done|exists []|exists []]; by rewrite app_nil_r. }
  change (bool_decide (role m = Role_System)) with (is_system m) in Hc. destruct (is_system m); cbn [negb].
  - destruct (system_text m) as [text|] eqn:Et; [|done]. simpl in Hc. destruct (IH _ _ _ _ Hc Ha Hw) as (Ha' & Hw' & (texts & Hts & ->) & Hs).
    split_and!; [done|done| |done]. exists (text :: texts). cbn [collect]. rewrite Et, Hts. by rewrite <- app_assoc.
  - destruct (convert_blocks m) as [blocks|] eqn:Eb; [|done]. simpl in Hc.
    assert (Hs : says m = Ok (map (pair (role_name (role m))) blocks)) by (unfold says; by rewrite Eb). cbn [collect]. rewrite Hs.
    destruct blocks as [|b blocks].
    + destruct (IH _ _ _ _ Hc Ha Hw) as (Ha' & Hw' & Ht & (bs & Hbs & Hsaid)). split_and!; [done|done|done|]. exists bs. by rewrite Hbs.
    + destruct (add_blocks_alternates (role_name (role m)) (b :: blocks) wire Ha) as (Ha1 & Hw1 & _); [done|done|].
      destruct (IH _ _ _ _ Hc Ha1 Hw1) as (Ha' & Hw' & Ht & (bs & Hbs & Hsaid)). split_and!; [done|done|done|].
      eexists. rewrite Hbs. split; [reflexivity|]. by rewrite Hsaid, add_blocks_said, <- app_assoc.
Qed.

Definition block_event (b : Block) : option (Event Value (Value * bool)) :=
  match b with
  | Block_ToolUse id name input => Some (Called id name input)
  | Block_ToolResult id content is_error => Some (Answered id (content, is_error))
  | _ => None
  end.

#[local] Abbreviation part_event := (part_event (fun v => v) (fun content is_error => (result_content content, is_error))).

Lemma convert_part_event r part blocks : convert_part r part = Ok blocks -> omap block_event blocks = option_list (part_event part).
Proof using.
  destruct part; cbn [convert_part].
  - destruct (str_is_empty _); by intros [= <-].
  - unfold blob_block. case_bool_decide; [by intros [= <-]|]. destruct (starts_with _ _); [by intros [= <-]|done].
  - case_bool_decide; [by intros [= <-]|done].
  - case_bool_decide; [by intros [= <-]|done].
  - done.
Qed.

Lemma omap_concat_map {A B C} (f : B -> option C) (g : A -> list B) l : omap f (concat (map g l)) = concat (map (fun a => omap f (g a)) l).
Proof using. induction l as [|a l IH]; [done|]. simpl. by rewrite omap_app, IH. Qed.

Lemma says_events m blocks : says m = Ok blocks -> omap block_event (map snd blocks) = omap part_event (content m).
Proof using.
  unfold says. destruct (convert_blocks m) as [bs|] eqn:E; [|done]. intros [= <-]. rewrite map_map. cbn [snd]. rewrite map_id.
  rewrite (omap_concat part_event), (omap_concat block_event). revert E. apply collect_says. intros part b Hb. apply convert_part_event in Hb.
  by rewrite <- Hb, omap_concat.
Qed.

Lemma system_events m text : system_text m = Ok text -> omap part_event (content m) = [].
Proof using.
  unfold system_text. destruct (collect system_part (content m)) as [ts|] eqn:E; [|done]. intros _. rewrite omap_concat.
  rewrite <- (collect_says system_part (fun a => option_list (part_event a)) (fun _ => []) (content m) ts); [|clear|exact E].
  - clear. by induction ts.
  - intros a b. destruct a; try done. by intros [= <-].
Qed.

End Requests.

(** ** What a stream yields *)

Section Streamed.
  Context {J : Json}.

Definition step_chunks (s : Step) : list CompletionChunk := match s with Emit chunks => chunks | _ => [] end.

Lemma emit_text_pieces v : Forall (fun c => piece (Ok c) = true) (step_chunks (emit_text v)) /\ emit_text v <> End.
Proof using. unfold emit_text. destruct (nonempty _); by repeat constructor. Qed.

Lemma step_spec event st st' s : step event st = Ok (st', s) ->
  Forall (fun c => piece (Ok c) = true) (step_chunks s) /\ (s = End -> type_of event = Some "message_stop"%string /\ st' = st).
Proof using.
  unfold step. destruct (type_of event) as [kind|]; [|by intros [= _ <-]]. repeat case_bool_decide; subst; try (by intros [= <- <-]).
  - unfold content_block_start. destruct (index_of event); [|done]. simpl. case_bool_decide.
    + destruct (_ ≫= _); [|done]. destruct (_ ≫= _); [|done]. by intros [= _ <-].
    + case_bool_decide; intros [= _ <-]; [|done]. destruct (emit_text_pieces (default VNull (Value_get event "content_block"))). by split.
  - unfold content_block_delta. destruct (index_of event); [|done]. simpl. case_bool_decide.
    { intros [= _ <-]. destruct (emit_text_pieces (default VNull (Value_get event "delta"))). by split. }
    case_bool_decide; [|by intros [= _ <-]]. destruct (pending st !! _); [|done]. destruct (_ <? _); [done|]. by intros [= _ <-].
  - unfold content_block_stop. destruct (index_of event); [|done]. simpl. destruct (pending st !! _); [|by intros [= _ <-]].
    destruct (complete_call _); [|done]. intros [= _ <-]. by repeat constructor.
Qed.

Lemma messages_on_line_ends l st : let '(_, yielded, stop) := on_line l st in ends_once yielded stop.
Proof using.
  unfold on_line. assert (Herr : forall e, ends_once [Err e] true) by (intros e; by apply (ends_with [])).
  destruct (event_data _); [|by apply ends_pieces]. destruct (from_str _) as [event|]; [|done].
  destruct (step event st) as [[st' what]|] eqn:E; [|done]. apply step_spec in E as [E _]. destruct what.
  - by apply ends_pieces, Forall_map.
  - by apply (ends_with []).
  - by apply ends_pieces.
Qed.

(** a streamed answer does not depend on how its bytes were cut on their way: any two ways of
    delivering the same bytes yield the same chunks; and whatever arrives, what is yielded are
    pieces and behind them at most one end, after which nothing follows. *)
Theorem events_are_cut_independent (deadline : Deadline) (pieces pieces' : list string) (waits : list Wait) :
  let text := String.concat EmptyString pieces in
  (text = String.concat EmptyString pieces' -> within_cap event_cap text ->
   sse_chunks deadline (map arrives pieces ++ waits) = sse_chunks deadline (map arrives pieces' ++ waits)) /\
  (let (yielded, ended) := sse_chunks deadline waits in ends_once yielded ended).
Proof using.
  cbv zeta. split.
  - intros Heq Hw. unfold sse_chunks. rewrite !cuts_do_not_matter by (unfold String.append; by rewrite <- ?Heq). by rewrite Heq.
  - apply chunks_end; [apply messages_on_line_ends|]. intros rest st. by apply ends_pieces.
Qed.

(** What a line says: an event. *)
Definition event_of (line : string) : option Value :=
  match event_data (strip_carriage_return line) with
  | Some data => match from_str data with Ok event => Some event | Err _ => None end
  | None => None
  end.

(** an answer is reported as complete only where the service said so: where no event that arrived
    closes the message, the stream ends without an end of the answer, however it ends. *)
Theorem only_a_stop_is_an_end (deadline : Deadline) (waits : list Wait) :
  Forall (fun l => forall event, event_of l = Some event -> type_of event <> Some "message_stop"%string) (split_lines (arrived waits)).1 ->
  Forall (fun r => match r with Ok (Done _ _) => False | _ => True end) (sse_chunks deadline waits).1.
Proof using.
  intros HL. eapply (chunks_all _ _ _ _ _ _ (fun _ => True)); [|done|done|done|exact HL].
  clear. intros l st Hl _. unfold on_line, event_of in *. destruct (event_data _) as [data|]; [|by split].
  destruct (from_str data) as [event|]; [|by split; [|repeat constructor]].
  destruct (step event st) as [[st' s]|] eqn:E; [|by split; [|repeat constructor]]. apply step_spec in E as [Hp Hend]. destruct s.
  - split; [done|]. apply Forall_map. eapply Forall_impl; [exact Hp|]. by intros [].
  - by destruct (Hl event eq_refl), Hend.
  - by split.
Qed.

(** *** Calls in pieces *)

Definition BLOCK_EVENTS : list string := ["content_block_start"; "content_block_delta"; "content_block_stop"]%string.

(** An event of the block at an index. *)
Definition of_block (i : Z) (event : Value) : bool :=
  match type_of event with Some kind => existsb (String.eqb kind) BLOCK_EVENTS | None => false end && bool_decide (Value_get event "index" ≫= as_u64 = Some i).

Definition block_events (i : Z) (lines : list string) : list Value := List.filter (of_block i) (omap event_of lines).

Definition opens_call (event : Value) (id name : string) : Prop :=
  type_of event = Some "content_block_start"%string /\
  exists block, Value_get event "content_block" = Some block /\ type_of block = Some "tool_use"%string /\
    Value_get block "id" ≫= Value_as_str = Some id /\ Value_get block "name" ≫= Value_as_str = Some name.

Definition fragment (event : Value) : string :=
  let delta := default VNull (Value_get event "delta") in
  if bool_decide (type_of delta = Some "input_json_delta"%string) then default EmptyString (Value_get delta "partial_json" ≫= Value_as_str) else EmptyString.

Lemma of_block_index i event : of_block i event = true -> index_of event = Ok i.
Proof using. unfold of_block, index_of. rewrite andb_true_iff, bool_decide_eq_true. by intros [_ ->]. Qed.

Lemma other_index i event kind index : of_block i event = false -> type_of event = Some kind -> kind ∈ BLOCK_EVENTS -> index_of event = Ok index -> index <> i.
Proof using.
  unfold of_block, index_of. intros Hb Ht Hk Hi ->. rewrite Ht in Hb. destruct (Value_get event "index" ≫= as_u64) as [index|]; [|done].
  injection Hi as ->. rewrite bool_decide_true, andb_true_r in Hb by done. apply not_true_iff_false in Hb. destruct Hb.
  apply existsb_exists. exists kind. split; [by apply list_elem_of_In|apply String.eqb_refl].
Qed.

Lemma step_other i event st st' s : step event st = Ok (st', s) -> of_block i event = false -> pending st' !! i = pending st !! i.
Proof using.
  intros Hs Ho. unfold step in Hs. destruct (type_of event) as [kind|] eqn:Et; [|by injection Hs as <- _]. pose proof (other_index i event kind) as Hne.
  repeat case_bool_decide; subst; try done; try (by injection Hs as <- _).
  - injection Hs as <- _. unfold message_start. by destruct (m ← _; _).
  - unfold content_block_start in Hs. destruct (index_of event) as [index|]; [|done]. specialize (Hne index Ho Et ltac:(set_solver) eq_refl). simpl in Hs.
    case_bool_decide; [|case_bool_decide; by injection Hs as <- _]. destruct (_ ≫= _); [|done]. destruct (_ ≫= _); [|done].
    injection Hs as <- _. cbn. by rewrite lookup_insert_ne.
  - unfold content_block_delta in Hs. destruct (index_of event) as [index|]; [|done]. specialize (Hne index Ho Et ltac:(set_solver) eq_refl). simpl in Hs.
    case_bool_decide; [by injection Hs as <- _|]. case_bool_decide; [|by injection Hs as <- _].
    destruct (pending st !! index); [|done]. destruct (_ <? _); [done|]. injection Hs as <- _. cbn. by rewrite lookup_insert_ne.
  - unfold content_block_stop in Hs. destruct (index_of event) as [index|]; [|done]. specialize (Hne index Ho Et ltac:(set_solver) eq_refl). simpl in Hs.
    destruct (pending st !! index); [|by injection Hs as <- _]. destruct (complete_call _); [|done]. injection Hs as <- _. cbn. by rewrite lookup_delete_ne.
  - injection Hs as <- _. unfold message_delta. by destruct (Value_get event "usage").
Qed.

Lemma on_line_spec l st st' y : on_line l st = (st', y, false) ->
  match event_of l with
  | None => st' = st
  | Some event => exists st1 what, step event st = Ok (st1, what) /\ pending st' = pending st1 /\ y = map Ok (step_chunks what)
  end.
Proof using.
  unfold on_line, event_of. destruct (event_data _); [|by intros [= <- _]]. destruct (from_str _) as [event|]; [|done].
  destruct (step event st) as [[st1 what]|]; [|done]. intros H. exists st1, what. split; [done|].
  destruct what; [injection H as <- <-; done|done|injection H as <- <-; done].
Qed.

(** The first event of a block among some lines. *)
Lemma run_first i lines : forall st st' y, run_lines on_line lines st = (st', y, false) ->
  match block_events i lines with
  | [] => pending st' !! i = pending st !! i
  | event :: events => exists st1 st2 st3 what after y1 y2,
      pending st1 !! i = pending st !! i /\ step event st1 = Ok (st2, what) /\ pending st3 = pending st2 /\
      run_lines on_line after st3 = (st', y2, false) /\ block_events i after = events /\ y = y1 ++ map Ok (step_chunks what) ++ y2
  end.
Proof using.
  unfold block_events. induction lines as [|l lines IH]; intros st st' y; cbn [run_lines]; [by intros [= <- _]|].
  destruct (on_line l st) as [[st1 y1] [|]] eqn:El; [done|]. destruct (run_lines on_line lines st1) as [[st1' y2] stop] eqn:Er. intros [= <- <- ->].
  apply on_line_spec in El. specialize (IH _ _ _ Er). cbn [omap list_omap]. destruct (event_of l) as [event|].
  - destruct El as (st2 & what & Hs & Hp & ->). cbn [List.filter]. destruct (of_block i event) eqn:Eb.
    + exists st, st2, st1, what, lines, [], y2. split_and!; done.
    + apply (step_other i) in Hs; [|done]. destruct (List.filter (of_block i) (omap event_of lines)) as [|e es]; [by rewrite IH, Hp|].
      destruct IH as (sa & sb & sc & w & after & ya & yb & Ha & Hb & Hc & Hrun & Haf & ->).
      exists sa, sb, sc, w, after, (map Ok (step_chunks what) ++ ya), yb. split_and!; [by rewrite Ha, Hp|done|done|done|done|by rewrite <- app_assoc].
  - subst st1. destruct (List.filter (of_block i) (omap event_of lines)) as [|e es]; [done|].
    destruct IH as (sa & sb & sc & w & after & ya & yb & Ha & Hb & Hc & Hrun & Haf & ->).
    exists sa, sb, sc, w, after, (y1 ++ ya), yb. split_and!; try done. by rewrite <- app_assoc.
Qed.

Lemma run_pieces i stop deltas : forall lines st st' y call, run_lines on_line lines st = (st', y, false) ->
  block_events i lines = deltas ++ [stop] -> Forall (fun e => type_of e = Some "content_block_delta"%string) deltas ->
  type_of stop = Some "content_block_stop"%string -> pending st !! i = Some call -> str_len (pending_arguments call) <= MAX_TOOL_INPUT_BYTES ->
  let whole := pending_arguments call +:+ String.concat EmptyString (map fragment deltas) in
  str_len whole <= MAX_TOOL_INPUT_BYTES /\ pending st' !! i = None /\
  exists made, complete_call {| pending_id := pending_id call; pending_name := pending_name call; pending_arguments := whole |} = Ok made /\
    In (Ok (Chunk_ToolCall made)) y.
Proof using.
  induction deltas as [|e deltas IH]; intros lines st st' y call Hrun Hev Hd Hstop Hp Hlen; pose proof (run_first i _ _ _ _ Hrun) as H;
    assert (Hin : forall e, e ∈ block_events i lines -> index_of e = Ok i) by
      (intros ? Hx; apply of_block_index; apply list_elem_of_In, filter_In in Hx; apply Hx); rewrite Hev in H, Hin; cbn [app] in H;
    destruct H as (sa & sb & sc & what & after & ya & yb & Ha & Hs & Hc & Hrun' & Hafter & ->).
  - specialize (Hin stop ltac:(by left)). unfold step in Hs. rewrite Hstop in Hs. simpl in Hs. unfold content_block_stop in Hs. rewrite Hin in Hs. simpl in Hs.
    rewrite Ha, Hp in Hs. cbn [map String.concat]. rewrite str_app_nil. destruct call as [id name args]. cbn [pending_id pending_name pending_arguments] in *.
    destruct (complete_call _) as [made|] eqn:Em; [|done]. injection Hs as <- <-. split; [done|].
    pose proof (run_first i _ _ _ _ Hrun') as H. rewrite Hafter in H. split; [rewrite H, Hc; apply lookup_delete_eq|]. exists made.
    split; [done|]. apply in_app_iff. right. by left.
  - specialize (Hin e ltac:(by left)). apply Forall_cons in Hd as [He Hd]. unfold step in Hs. rewrite He in Hs. simpl in Hs.
    unfold content_block_delta in Hs. rewrite Hin in Hs. simpl in Hs. cbn [map]. rewrite concat_cons, <- str_app_assoc.
    assert (Hstep : exists call', pending sc !! i = Some call' /\ str_len (pending_arguments call') <= MAX_TOOL_INPUT_BYTES /\
      call' = {| pending_id := pending_id call; pending_name := pending_name call; pending_arguments := pending_arguments call +:+ fragment e |}).
    { unfold fragment. case_bool_decide as Ht.
      - injection Hs as <- _. rewrite Ht, bool_decide_false by done. rewrite Hc, Ha, Hp, str_app_nil. exists call. by destruct call.
      - case_bool_decide as Hj; [|injection Hs as <- _; rewrite Hc, Ha, Hp, str_app_nil; exists call; by destruct call].
        rewrite Ha, Hp in Hs. destruct (Z.ltb_spec MAX_TOOL_INPUT_BYTES (str_len (pending_arguments call) +
          str_len (default EmptyString (Value_get (default VNull (Value_get e "delta")) "partial_json" ≫= Value_as_str)))); [done|].
        injection Hs as <- _. rewrite Hc. cbn. rewrite lookup_insert_eq. eexists. split; [done|]. split; [|done]. cbn. rewrite str_len_app. lia. }
    destruct Hstep as (call' & Hp' & Hlen' & Hcall'). destruct (IH after sc st' yb call' Hrun' Hafter Hd Hstop Hp' Hlen') as (Hl & Hn & made & Hm & Hy).
    rewrite Hcall' in Hl, Hm. cbn [pending_id pending_name pending_arguments] in Hl, Hm. split; [done|]. split; [done|]. exists made. split; [done|].
    apply in_app_iff. right. apply in_app_iff. by right.
Qed.

(** a streamed tool call is handed over whole, however the pieces of several blocks are mixed:
    where the events of one block are the start of a call, its pieces and its end, with anything
    of other blocks between, the call is yielded with the id and the name of its start and with
    arguments parsed from all the texts of its pieces, in order and of a bounded length; a text
    that does not parse is an error, never an empty argument. *)
Theorem blocks_are_whole (deadline : Deadline) (pieces : list string) (waits : list Wait) (lines before : list string) (st : StreamState)
    (y : list (Result CompletionChunk)) (i : Z) (start stop : Value) (deltas : list Value) (id name : string) :
  let text := String.concat EmptyString pieces in
  within_cap event_cap text -> lines = (split_lines text).1 -> before `prefix_of` lines ->
  run_lines on_line before StreamState_default = (st, y, false) ->
  block_events i before = start :: deltas ++ [stop] -> opens_call start id name ->
  Forall (fun e => type_of e = Some "content_block_delta"%string) deltas -> type_of stop = Some "content_block_stop"%string ->
  let whole := String.concat EmptyString (map fragment deltas) in
  str_len whole <= MAX_TOOL_INPUT_BYTES /\
  exists made, complete_call {| pending_id := id; pending_name := name; pending_arguments := whole |} = Ok made /\
    call_id made = id /\ call_name made = name /\
    (if str_is_empty (trim whole) then arguments made = VObject [] else from_str whole = Ok (arguments made)) /\
    In (Ok (Chunk_ToolCall made)) (sse_chunks deadline (map arrives pieces ++ waits)).1.
Proof using.
  cbv zeta. intros Hcap -> [rest Hrest] Hrun Hev (Ht & block & Hblock & Hbt & Hid & Hname) Hd Hstop.
  pose proof (run_first i _ _ _ _ Hrun) as H. rewrite Hev in H. destruct H as (sa & sb & sc & what & after & ya & yb & _ & Hs & Hc & Hrun' & Hafter & Hy).
  assert (Hix : index_of start = Ok i).
  { apply of_block_index. assert (Hin : start ∈ block_events i before) by (rewrite Hev; by left). apply list_elem_of_In, filter_In in Hin. apply Hin. }
  unfold step in Hs. rewrite Ht in Hs. simpl in Hs. unfold content_block_start in Hs. rewrite Hix, Hblock in Hs. simpl in Hs. rewrite bool_decide_true in Hs by done.
  rewrite Hid, Hname in Hs. injection Hs as <- _.
  edestruct (run_pieces i stop deltas after sc st yb {| pending_id := id; pending_name := name; pending_arguments := EmptyString |} Hrun' Hafter Hd Hstop)
    as (Hlen & _ & made & Hm & Hin); [rewrite Hc; apply lookup_insert_eq|vm_compute; discriminate|].
  cbn [pending_id pending_name pending_arguments] in Hlen, Hm. change (EmptyString +:+ ?x) with x in Hlen, Hm. split; [done|]. exists made. split; [done|].
  unfold complete_call in Hm. cbn [pending_id pending_name pending_arguments] in Hm. split; [|split; [|split]].
  - destruct (str_is_empty _); [by injection Hm as <-|]. destruct (from_str _); [|done]. by injection Hm as <-.
  - destruct (str_is_empty _); [by injection Hm as <-|]. destruct (from_str _); [|done]. by injection Hm as <-.
  - destruct (str_is_empty _); [by injection Hm as <-|]. destruct (from_str _); [|done]. by injection Hm as <-.
  - unfold sse_chunks. rewrite cuts_do_not_matter by done. change (EmptyString +:+ ?x) with x. rewrite chunks_lines, Hrest, run_lines_app, Hrun.
    assert (Hiny : In (Ok (Chunk_ToolCall made)) y) by (rewrite Hy; apply in_app_iff; right; apply in_app_iff; by right).
    destruct (run_lines on_line rest st) as [[st2 more] [|]]; [apply in_app_iff; by left|]. destruct (chunks _ _ _ _ _ waits _ st2).
    apply in_app_iff. left. apply in_app_iff. by left.
Qed.
End Streamed.

(** ** Where a key goes *)

Section Keys.
  Context (Url_parse : string -> result string Url) (parse_ip : string -> option IpAddr) (from_value : Value -> result string AnthropicSettings).
  Context (file_at : string -> KeyFile) (lookup : string -> option string) (octal : Z -> string) (header_value : string -> bool).

Lemma messages_validate_spec settings : validate Url_parse parse_ip settings = Ok tt ->
  (exists url, Url_parse (endpoint settings) = Ok url /\ (scheme url = "https"%string \/ scheme url = "http"%string /\ is_loopback parse_ip url = true)) /\
  settings_max_output_tokens settings <> 0.
Proof using.
  unfold validate, validate_endpoint. destruct (Url_parse (endpoint settings)) as [url|]; [|done].
  assert (Hs : forall k, (let? _ := (if bool_decide (scheme url = "https"%string) then Ok tt else if bool_decide (scheme url = "http"%string) then
      if is_loopback parse_ip url then Ok tt
      else Err (Base.Config "endpoint" "refusing to send an API key over plain HTTP to a host that is not loopback; use https")
    else Err (Base.Config "endpoint" ("`" +:+ scheme url +:+ "` is not an HTTP scheme"))) in k) = Ok tt ->
    (scheme url = "https"%string \/ scheme url = "http"%string /\ is_loopback parse_ip url = true) /\ k = Ok tt).
  { intros k. case_bool_decide; [by split; [left|]|]. case_bool_decide; [|done]. destruct (is_loopback parse_ip url); [|done]. by split; [right|]. }
  intros [Hsafe H]%Hs. destruct (header_safe _ _); [|done]. simpl in H. destruct (str_is_empty _); [done|].
  destruct (Z.eqb_spec (settings_max_output_tokens settings) 0); [done|]. split; [|done]. by exists url.
Qed.

Definition good_key (k : string) : Prop := all_bytes visible k = true /\ 0 < str_len k <= MAX_KEY_BYTES.

Lemma messages_ApiKey_new_spec raw source k : ApiKey_new raw source = Ok k -> expose k = trim raw /\ good_key (expose k).
Proof using.
  unfold ApiKey_new. destruct (str_is_empty (trim raw)) eqn:Ee; [done|]. destruct (Z.ltb_spec MAX_KEY_BYTES (str_len (trim raw))); [done|].
  destruct (all_bytes visible (trim raw)) eqn:Ev; [|done]. intros [= <-]. split; [done|]. split; [done|]. cbn [expose].
  destruct (trim raw); [done|]. split; [|lia]. unfold str_len. simpl. lia.
Qed.

(** Where a key was found. *)
Definition kept_where (file : option string) (variable : string) (k : ApiKey) : Prop :=
  match file with
  | Some path => exists mode text, metadata (file_at path) = Ok (true, mode) /\ Z.land (Z.land mode 511) 63 = 0 /\
                   contents (file_at path) = Ok text /\ expose k = trim text
  | None => exists value, lookup variable = Some value /\ expose k = trim value
  end.

Lemma messages_resolve_spec file variable k : resolve file_at lookup octal file variable = Ok k -> good_key (expose k) /\ kept_where file variable k.
Proof using.
  unfold resolve, kept_where. destruct file as [path|].
  - intros E. unfold from_file in E. destruct (metadata (file_at path)) as [[[] mode]|] eqn:Em; try done. cbn [negb] in E. unfold check_permissions in E.
    destruct (Z.eqb_spec (Z.land (Z.land mode 511) 63) 0); [|done]. simpl in E.
    destruct (contents (file_at path)) as [text|] eqn:Ec; [|done]. apply messages_ApiKey_new_spec in E as [Ht Hk]. split; [done|]. by exists mode, text.
  - destruct (lookup variable) as [value|]; [|done]. intros E. apply messages_ApiKey_new_spec in E as [Ht Hk]. split; [done|]. by exists value.
Qed.

(** a key is neither in the configuration nor sent where it can be read: a provider that is set
    up from a section has one without any entry named like a secret; its key came of the
    environment, or of a file nobody else may read, is visible text of a bounded length and is
    sent in one header as it stands; and the service is reached over HTTPS or on this machine. *)
Theorem the_key_goes_only_where_it_may (section : Config) (settings : AnthropicSettings) (key : ApiKey) (p : AnthropicProvider)
    (hs : list (string * string)) :
  read Url_parse parse_ip from_value section = Ok settings ->
  resolve file_at lookup octal (api_key_file settings) (api_key_env settings) = Ok key ->
  AnthropicProvider_new header_value settings key = Ok (p, hs) ->
  Forall (fun name => contains section name = false) SECRET_KEYS /\
  (exists url, Url_parse (endpoint settings) = Ok url /\ (scheme url = "https"%string \/ scheme url = "http"%string /\ is_loopback parse_ip url = true)) /\
  base_url p = trim_end_char "/" (endpoint settings) /\ max_output_tokens p <> 0 /\
  hs = [("x-api-key"%string, expose key); ("anthropic-version"%string, api_version settings)] /\
  good_key (expose key) /\ kept_where (api_key_file settings) (api_key_env settings) key.
Proof using.
  unfold read. destruct (find (contains section) SECRET_KEYS) as [name|] eqn:Ef; [done|]. destruct (contains section MOVED_RETRY_KEY); [done|].
  destruct (get_or_default _ _ section EmptyString) as [settings'|]; [|done]. simpl.
  destruct (validate Url_parse parse_ip settings') as [[]|] eqn:Ev; [|done]. simpl. intros [= ->] Hkey Hnew.
  apply messages_validate_spec in Ev as [Hsafe Hmax]. apply messages_resolve_spec in Hkey as [Hgood Hkept]. unfold AnthropicProvider_new, headers in Hnew.
  destruct (header_value (expose key)); [|done]. destruct (header_value (api_version settings)); [|done]. injection Hnew as <- <-.
  split_and!; try done. apply Forall_forall. intros name Hn%list_elem_of_In. by apply (find_none _ _ Ef).
Qed.
End Keys.

(** ** An example *)

Module Demo.
(** A parser of the texts of five events. *)
Definition event (kind : string) (entries : list (string * Value)) : Value := VObject (("type"%string, VString kind) :: entries).
Definition at_index (i : Z) : string * Value := ("index"%string, VNumber (NInt i)).
Definition opening (i : Z) (id name : string) : Value :=
  event "content_block_start" [at_index i; ("content_block"%string, event "tool_use" [("id"%string, VString id); ("name"%string, VString name)])].
Definition piece_at (i : Z) (text : string) : Value :=
  event "content_block_delta" [at_index i; ("delta"%string, event "input_json_delta" [("partial_json"%string, VString text)])].
Definition closing (i : Z) : Value := event "content_block_stop" [at_index i].

Definition texts : list (string * Value) :=
  [("a0", opening 0 "a" "first"); ("a1", piece_at 0 "{"); ("a2", piece_at 0 "}"); ("a3", closing 0);
   ("b0", opening 1 "b" "second"); ("b3", closing 1); ("end", event "message_stop" []); ("{}", VObject [])]%string.

#[local] Instance json : Json :=
  {| from_str text := match Map_get text texts with Some v => Ok v | None => Err (BoxForeign "expected value" None) end;
     to_string v := "{}"; undecodable t := {| is_connect := false; is_timeout := false; is_body := false; reqwest_display := "error decoding" |};
     debug_part p := "part" |}.

Definition line (text : string) : string := "data: " +:+ text +:+ String (chr 10) EmptyString.
Definition deadline : Deadline := {| instant := 100; budget := from_millis 100 |}.
Definition closes : Wait := {| cancelled := false; overdue := false; next := None |}.
Definition call (id name : string) : CompletionChunk := Chunk_ToolCall {| call_id := id; call_name := name; arguments := VObject [] |}.

(** Two calls, mixed. *)
Definition mixed : list string := map line ["a0"; "b0"; "a1"; "b3"; "a2"; "a3"]%string.
Example two_calls : sse_chunks deadline [arrives (String.concat EmptyString mixed); arrives (line "end")] =
  ([Ok (call "b" "second"); Ok (call "a" "first"); Ok (Done Finish_ToolCalls None)], true).
Proof. vm_compute. reflexivity. Qed.

(** A block that is open at the end of the message is dropped: the answer is complete, and its call
    is missing. *)
Example an_open_block_is_dropped :
  sse_chunks deadline [arrives (line "a0" +:+ line "a1" +:+ line "end")] = ([Ok (Done Finish_Stop None)], true).
Proof. vm_compute. reflexivity. Qed.

Lemma mixed_lines : split_lines (String.concat EmptyString mixed) = (map (fun t => "data: " +:+ t) ["a0"; "b0"; "a1"; "b3"; "a2"; "a3"]%string, EmptyString).
Proof. vm_compute. reflexivity. Qed.

Lemma mixed_within : within_cap event_cap (String.concat EmptyString mixed).
Proof. unfold within_cap, event_cap. rewrite mixed_lines. repeat constructor; discriminate. Qed.

Lemma mixed_run : run_lines on_line (split_lines (String.concat EmptyString mixed)).1 StreamState_default =
  (see_calls [call "a" "first"] (see_calls [call "b" "second"] StreamState_default), [Ok (call "b" "second"); Ok (call "a" "first")], false).
Proof. vm_compute. reflexivity. Qed.

Lemma mixed_block : block_events 0 (split_lines (String.concat EmptyString mixed)).1 =
  opening 0 "a" "first" :: [piece_at 0 "{"; piece_at 0 "}"] ++ [closing 0].
Proof. vm_compute. reflexivity. Qed.

Lemma opening_opens : opens_call (opening 0 "a" "first") "a" "first".
Proof. split; [reflexivity|]. eexists. split_and!; reflexivity. Qed.

Lemma blocks_are_whole_witness :
  exists made, call_id made = "a"%string /\ call_name made = "first"%string /\
    In (Ok (Chunk_ToolCall made)) (sse_chunks deadline (map arrives mixed ++ [closes])).1.
Proof.
  destruct (blocks_are_whole deadline mixed [closes] _ _ _ _ 0 _ (closing 0) _ "a" "first" mixed_within eq_refl (PreOrder_Reflexive _) mixed_run mixed_block
    opening_opens) as (_ & made & _ & Hid & Hname & _ & Hin); [repeat constructor|reflexivity|].
  exists made. split; [exact Hid|]. split; [exact Hname|exact Hin].
Defined.

Lemma mixed_has_no_end : Forall (fun l => forall event, event_of l = Some event -> type_of event <> Some "message_stop"%string)
  (split_lines (arrived [arrives (String.concat EmptyString mixed)])).1.
Proof.
  assert (H : split_lines (arrived [arrives (String.concat EmptyString mixed)]) = split_lines (String.concat EmptyString mixed)) by (vm_compute; reflexivity).
  rewrite H, mixed_lines. repeat (constructor; [intros e He; vm_compute in He; injection He as <-; discriminate|]). constructor.
Qed.

Lemma only_a_stop_is_an_end_witness :
  Forall (fun r => match r with Ok (Done _ _) => False | _ => True end) (sse_chunks deadline [arrives (String.concat EmptyString mixed)]).1.
Proof. apply only_a_stop_is_an_end. exact mixed_has_no_end. Defined.

Definition asks : CompletionRequest :=
  {| req_model := "m"; req_messages := [Message_text Role_User "Hi"]; req_tools := [];
     req_parameters := VObject [("max_tokens"%string, VNumber (NInt 9)); ("temperature"%string, VNumber (NInt 1))] |}.

Lemma asks_once : NoDup (map fst [("max_tokens"%string, VNumber (NInt 9)); ("temperature"%string, VNumber (NInt 1))]).
Proof. cbn. apply NoDup_cons. split; [set_solver|]. apply NoDup_singleton. Qed.

Lemma parameters_stay_parameters_witness :
  exists r, build_request asks 4096 false = Ok r /\ In ("model"%string, VString "m") (request_entries r) /\ NoDup (map fst (request_entries r)).
Proof.
  destruct (build_request asks 4096 false) as [r|] eqn:E; [|vm_compute in E; discriminate]. exists r. split; [reflexivity|].
  destruct (parameters_stay_parameters asks 4096 false r asks_once E) as (H & Hm & _). by split.
Defined.

(** Instructions, two calls made together and their answers, as two messages. *)
Definition turns : list Message :=
  [Message_text Role_System "Be brief.";
   Message_text Role_User "Hi";
   {| role := Role_Assistant; content := [Part_ToolCall {| call_id := "a"; call_name := "first"; arguments := VObject [] |};
                                          Part_ToolCall {| call_id := "b"; call_name := "second"; arguments := VObject [] |}]; name := None |};
   {| role := Role_Tool; content := [ToolResult "a" (VString "done") false]; name := None |};
   {| role := Role_Tool; content := [ToolResult "b" (VString "failed") true]; name := None |}].

Example answers_are_one_message : exists b1 b2 b3, convert_messages turns = Ok (Some "Be brief."%string,
  [{| wire_role := "user"; wire_content := [b1] |}; {| wire_role := "assistant"; wire_content := [b2; b3] |};
   {| wire_role := "user"; wire_content := [Block_ToolResult "a" (VString "done") false; Block_ToolResult "b" (VString "failed") true] |}]).
Proof. eexists _, _, _. vm_compute. reflexivity. Qed.


Definition at_home (text : string) : result string Url := Ok {| scheme := "http"; host_str := Some "localhost"%string |}.
Definition configured : AnthropicSettings :=
  {| endpoint := "http://localhost/"; api_version := "2023-06-01"; api_key_env := "KEY"; api_key_file := None; request_timeout_ms := 1000;
     settings_max_output_tokens := 64 |}.

Lemma the_key_goes_only_where_it_may_witness :
  exists p hs, AnthropicProvider_new (fun _ => true) configured {| expose := "sk-1" |} = Ok (p, hs) /\
    base_url p = "http://localhost"%string /\ In ("x-api-key"%string, "sk-1"%string) hs.
Proof.
  eexists _, _. split; [vm_compute; reflexivity|].
  edestruct (the_key_goes_only_where_it_may at_home (fun _ => None) (fun _ => Ok configured)
    (fun _ => {| metadata := Err "none"%string; contents := Err "none"%string |}) (fun _ => Some " sk-1 "%string) (fun _ => EmptyString) (fun _ => true)
    (Config_from_value (VObject [])) configured {| expose := "sk-1" |}) as (_ & _ & Hb & _ & Hh & _);
    [vm_compute; reflexivity|vm_compute; reflexivity|vm_compute; reflexivity|].
  split; [reflexivity|]. by left.
Defined.
End Demo.
