(* ===== verification/Ollama.v ===== *)
(** * Ollama: the client of a local server ([crates/ollama])

    The translation of conversations and answers ([protocol.rs]), a streamed answer, one object
    of JSON a line ([stream.rs]), and the calls ([provider.rs], [http.rs], [settings.rs]). *)

From S2P Require Import Prelude Base Text Serde Window Agent Net Providers.

(** ** Wire types ([protocol.rs]) *)

(** [OllamaApiError] as an error's source *)
Definition api_error (message : string) : BoxError := BoxForeign message None.

(** [WireToolCall] with its [WireToolCallFunction] *)
Record WireToolCall := { wc_id : option string; wc_index : option Z; wc_name : string; wc_arguments : Value }.

Record WireMessage := {
  wire_role : string;
  wire_content : string;
  wire_tool_calls : list WireToolCall;
  wire_tool_call_id : option string;
}.

(** [WireMessage::new] *)
Definition WireMessage_new (role : string) : WireMessage :=
  {| wire_role := role; wire_content := EmptyString; wire_tool_calls := []; wire_tool_call_id := None |}.

Record WireTool := { wt_name : string; wt_description : string; wt_parameters : Value }.

Record ChatRequest := {
  cr_model : string;
  cr_messages : list WireMessage;
  cr_stream : bool;
  cr_tools : list WireTool;
  cr_options : Value;
}.

(** *** As JSON: [#[derive(Serialize)]] *)

Definition tool_call_json (c : WireToolCall) : Value :=
  json_object (present "id" VString (wc_id c) ++
    [("function"%string, json_object (present "index" (fun i => VNumber (NInt i)) (wc_index c) ++
                                      [("name", VString (wc_name c)); ("arguments", wc_arguments c)]%string))]).

Definition message_json (m : WireMessage) : Value :=
  json_object ([("role", VString (wire_role m)); ("content", VString (wire_content m))]%string ++
    array_unless_empty "tool_calls" tool_call_json (wire_tool_calls m) ++ present "tool_call_id" VString (wire_tool_call_id m)).

Definition tool_json (t : WireTool) : Value :=
  json_object [("type"%string, VString "function");
    ("function"%string, json_object [("name", VString (wt_name t)); ("description", VString (wt_description t)); ("parameters", wt_parameters t)]%string)].

Definition request_entries (r : ChatRequest) : list (string * Value) :=
  [("model", VString (cr_model r)); ("messages", VArray (map message_json (cr_messages r))); ("stream", VBool (cr_stream r))]%string ++
  array_unless_empty "tools" tool_json (cr_tools r) ++
  match cr_options r with VNull => [] | options => [("options"%string, options)] end.

(** *** As read: [#[derive(Deserialize)]] *)

Record WireResponseMessage := { rm_content : string; rm_tool_calls : list WireToolCall }.
Definition WireResponseMessage_default : WireResponseMessage := {| rm_content := EmptyString; rm_tool_calls := [] |}.

Record ChatResponseLine := {
  line_message : option WireResponseMessage;
  line_done : bool;
  done_reason : option string;
  prompt_eval_count : option Z;
  eval_count : option Z;
  line_error : option string;
}.

Definition as_u32 (v : Value) : option Z := z ← as_u64 v; if z <=? 2 ^ 32 - 1 then Some z else None.
Definition as_bool (v : Value) : option bool := match v with VBool b => Some b | _ => None end.

(** [WireToolCallFunction]: index, name, arguments *)
Definition tool_call_function (v : Value) : option (option Z * string * Value) :=
  match open_fields ["index"; "name"; "arguments"] v with
  | Some [i; n; a] => i ← optional as_u32 i; n ← defaulted Value_as_str EmptyString n; a ← defaulted Some VNull a; Some (i, n, a)
  | _ => None
  end.

Definition wire_tool_call (v : Value) : option WireToolCall :=
  match open_fields ["id"; "function"] v with
  | Some [i; f] =>
      i ← optional Value_as_str i; f ← defaulted tool_call_function (None, EmptyString, VNull) f;
      Some {| wc_id := i; wc_index := f.1.1; wc_name := f.1.2; wc_arguments := f.2 |}
  | _ => None
  end.

Definition response_message (v : Value) : option WireResponseMessage :=
  match open_fields ["content"; "tool_calls"] v with
  | Some [c; t] => c ← defaulted Value_as_str EmptyString c; t ← defaulted (as_list wire_tool_call) [] t; Some {| rm_content := c; rm_tool_calls := t |}
  | _ => None
  end.

Definition chat_response_line (v : Value) : option ChatResponseLine :=
  match open_fields ["message"; "done"; "done_reason"; "prompt_eval_count"; "eval_count"; "error"] v with
  | Some [m; d; r; p; e; error] =>
      m ← optional response_message m; d ← defaulted as_bool false d; r ← optional Value_as_str r; p ← optional as_u64 p; e ← optional as_u64 e;
      error ← optional Value_as_str error;
      Some {| line_message := m; line_done := d; done_reason := r; prompt_eval_count := p; eval_count := e; line_error := error |}
  | _ => None
  end.

Definition tag_model (v : Value) : option string := match open_fields ["name"] v with Some [Some n] => Value_as_str n | _ => None end.
Definition tags_response (v : Value) : option (list string) :=
  match open_fields ["models"] v with Some [m] => defaulted (as_list tag_model) [] m | _ => None end.

(** ** Requests *)

Definition convert_tool (definition : ToolDefinition) : WireTool :=
  {| wt_name := def_name definition; wt_description := def_description definition; wt_parameters := def_input_schema definition |}.

Definition role_name (r : Role) : string :=
  match r with Role_System => "system" | Role_User => "user" | Role_Assistant => "assistant" | Role_Tool => "tool" end.

Section Protocol.
  Context `{J : Json}.

Definition result_text (content : Value) (is_error : bool) : string :=
  match is_error, content with
  | true, content => to_string (json_object [("error"%string, content)])
  | false, VString text => text
  | false, other => to_string other
  end.

(** One part, added to the message. *)
Definition convert_part (r : Role) (wire : WireMessage) (part : ContentPart) : Result WireMessage :=
  let refused := Err (Unsupported ("the Ollama provider does not support `" +:+ debug_part part +:+ "` content parts on a `" +:+ role_name r +:+
                                   "` message")) in
  match part with
  | Text text => Ok {| wire_role := wire_role wire; wire_content := wire_content wire +:+ text; wire_tool_calls := wire_tool_calls wire;
                       wire_tool_call_id := wire_tool_call_id wire |}
  | Part_ToolCall call =>
      if bool_decide (r = Role_Assistant) then
        Ok {| wire_role := wire_role wire; wire_content := wire_content wire;
              wire_tool_calls := wire_tool_calls wire ++
                [{| wc_id := Some (call_id call); wc_index := None; wc_name := call_name call; wc_arguments := arguments call |}];
              wire_tool_call_id := wire_tool_call_id wire |}
      else refused
  | ToolResult call_id content is_error =>
      if bool_decide (r = Role_Tool) then
        Ok {| wire_role := wire_role wire; wire_content := wire_content wire +:+ result_text content is_error; wire_tool_calls := wire_tool_calls wire;
              wire_tool_call_id := Some call_id |}
      else refused
  | Blob _ _ | Part_Other _ => refused
  end.

Fixpoint convert_parts (r : Role) (wire : WireMessage) (parts : list ContentPart) : Result WireMessage :=
  match parts with
  | [] => Ok wire
  | part :: parts => let? wire := convert_part r wire part in convert_parts r wire parts
  end.

Definition convert_message (message : Message) : Result WireMessage :=
  convert_parts (role message) (WireMessage_new (role_name (role message))) (content message).

Definition build_chat_request (request : CompletionRequest) (stream : bool) : Result ChatRequest :=
  let? messages := collect (fun m => result_map (fun w => [w]) (convert_message m)) (req_messages request) in
  Ok {| cr_model := req_model request; cr_messages := messages; cr_stream := stream; cr_tools := map convert_tool (req_tools request);
        cr_options := req_parameters request |}.

(** ** Answers *)

Definition convert_tool_call (call : WireToolCall) (position : Z) : ToolCall :=
  let index := default position (wc_index call) in
  {| call_id := match nonempty (wc_id call) with Some id => id | None => wc_name call +:+ "-" +:+ fmt_u index end;
     call_name := wc_name call; arguments := wc_arguments call |}.

(** [enumerate] *)
Fixpoint convert_calls (position : Z) (calls : list WireToolCall) : list ToolCall :=
  match calls with [] => [] | call :: calls => convert_tool_call call position :: convert_calls (position + 1) calls end.

Definition map_done_reason (reason : option string) : FinishReason :=
  match reason with Some reason => if bool_decide (reason = "length"%string) then Finish_Length else Finish_Stop | None => Finish_Stop end.

Definition extract_usage (parsed : ChatResponseLine) : option Usage :=
  match prompt_eval_count parsed, eval_count parsed with
  | None, None => None
  | input, output => Some {| usage_input := default 0 input; usage_output := default 0 output |}
  end.

Definition reported (message : string) : Error := Error_wrap "Ollama reported an error" (api_error message).

(** [std::str::from_utf8]'s refusal, and [serde_json]'s of a text that is JSON and no line. *)
Context (utf8_error mismatch : string -> BoxError).

Definition read_line (line : string) : Result ChatResponseLine :=
  if negb (valid_utf8 line) then Err (Error_wrap "decoding an Ollama response line" (utf8_error line))
  else match from_str line with
       | Err error => Err (Serialization error)
       | Ok value => match chat_response_line value with Some parsed => Ok parsed | None => Err (Serialization (mismatch line)) end
       end.

Definition line_chunks (parsed : ChatResponseLine) : Result (list CompletionChunk) :=
  match line_error parsed with
  | Some message => Err (reported message)
  | None =>
      if line_done parsed then Ok [Done (map_done_reason (done_reason parsed)) (extract_usage parsed)]
      else match line_message parsed with
           | None => Ok []
           | Some message =>
               Ok ((if str_is_empty (rm_content message) then [] else [Delta (Text (rm_content message))]) ++
                   map Chunk_ToolCall (convert_calls 0 (rm_tool_calls message)))
           end
  end.

Definition parse_line (line : string) : Result (list CompletionChunk) := let? parsed := read_line line in line_chunks parsed.

Definition convert_response (parsed : ChatResponseLine) : Result CompletionResponse :=
  match line_error parsed with
  | Some message => Err (reported message)
  | None =>
      let message := default WireResponseMessage_default (line_message parsed) in
      let asked_for_tools := negb (length (rm_tool_calls message) =? 0)%nat in
      let texts := if negb asked_for_tools || negb (str_is_empty (rm_content message)) then [Text (rm_content message)] else [] in
      Ok {| resp_message := {| role := Role_Assistant; content := texts ++ map Part_ToolCall (convert_calls 0 (rm_tool_calls message)); name := None |};
            resp_finish_reason := if asked_for_tools then Finish_ToolCalls else map_done_reason (done_reason parsed);
            resp_usage := extract_usage parsed |}
  end.

Definition convert_tags (names : list string) : list ModelDescriptor :=
  map (fun name => {| model_id := name; display_name := None; context_window := None; max_output_tokens := None;
                      capabilities := [ModelCapabilities_STREAMING] |}) names.

(** ** Embeddings *)

Section Embeddings.
  (** A component of a vector. *)
  Context {F : Type} (as_f32 : Value -> option F).

(** [EmbedResponse] *)
Definition embed_response (v : Value) : option (list (list F)) :=
  match open_fields ["embeddings"] v with Some [e] => defaulted (as_list (as_list as_f32)) [] e | _ => None end.

Definition embed_fail (message : string) : Error := Error_wrap "decoding an Ollama embedding response" (api_error message).

Definition convert_embeddings (embeddings : list (list F)) (inputs : nat) : Result (list (list F)) :=
  if negb (length embeddings =? inputs)%nat then
    Err (embed_fail ("asked for " +:+ fmt_u (Z.of_nat inputs) +:+ " embeddings and got " +:+ fmt_u (Z.of_nat (length embeddings))))
  else
    match embeddings with
    | [] => Ok []
    | first :: _ =>
        if (length first =? 0)%nat then Err (embed_fail "the server returned empty vectors")
        else match find (fun e => negb (length e =? length first)%nat) embeddings with
             | Some other => Err (embed_fail ("the server returned vectors of differing widths: " +:+ fmt_u (Z.of_nat (length first)) +:+ " and " +:+
                                              fmt_u (Z.of_nat (length other))))
             | None => Ok embeddings
             end
    end.
End Embeddings.

(** ** Streams ([stream.rs]) *)

(** [u8::is_ascii_whitespace] *)
Definition is_ascii_whitespace (c : ascii) : bool := existsb (Z.eqb (byte_of c)) [32; 9; 10; 12; 13].

(** The chunks of a line up to the end of the answer, and whether it is there. *)
Fixpoint until_done (chunks : list CompletionChunk) : list CompletionChunk * bool :=
  match chunks with
  | [] => ([], false)
  | Done reason usage :: _ => ([Done reason usage], true)
  | chunk :: chunks => let (more, stop) := until_done chunks in (chunk :: more, stop)
  end.

(** The body of the loop over the lines, which keeps nothing between them. *)
Definition on_line (line : string) (state : unit) : unit * list (Result CompletionChunk) * bool :=
  if all_bytes is_ascii_whitespace line then (tt, [], false)
  else match parse_line line with
       | Ok parsed => let (chunks, stop) := until_done parsed in (tt, map Ok chunks, stop)
       | Err error => (tt, [Err error], true)
       end.

(** The bytes ended: what is left is a line where it is one. *)
Definition on_close (rest : string) (state : unit) : list (Result CompletionChunk) :=
  if all_bytes is_ascii_whitespace rest then []
  else match parse_line rest with Ok parsed => map Ok parsed | Err _ => [] end.

(** The buffer is not bounded, and being late is told without the time there was. *)
Definition ndjson_chunks (waits : list Wait) : list (Result CompletionChunk) * bool :=
  chunks on_line on_close None 0 "reading the Ollama response stream" waits EmptyString tt.
End Protocol.

(** ** HTTP and settings ([http.rs], [settings.rs]) *)

Record OllamaSettings := { endpoint : string; request_timeout_ms : Z }.
Definition OllamaSettings_default : OllamaSettings := {| endpoint := "http://localhost:11434"; request_timeout_ms := 60000 |}.

(** [ErrorBody] *)
Definition error_body (v : Value) : option string := match open_fields ["error"] v with Some [Some e] => Value_as_str e | _ => None end.

Section Client.
  Context `{J : Json} (status_text : Z -> string) (utf8_error mismatch : string -> BoxError).

Definition read_error (body : string) : string :=
  match from_str body with Ok v => default body (error_body v) | Err _ => body end.

Definition ensure_success (response : Response) : Result Response :=
  if is_success response then Ok response
  else Err (refused ("Ollama returned HTTP " +:+ status_text (status response)) (read_error (text_or_default response)) response).

(** ** The calls ([provider.rs]) *)

Record OllamaProvider := { base_url : string; default_timeout : Duration }.

(** [OllamaProvider::new] *)
Definition OllamaProvider_new (settings : OllamaSettings) : OllamaProvider :=
  {| base_url := trim_end_char "/" (endpoint settings); default_timeout := from_millis (request_timeout_ms settings) |}.

Definition url (self : OllamaProvider) (path : string) : string := base_url self +:+ "/" +:+ trim_start_char "/" path.

(** What [reqwest] makes of a request: its URL and body. *)
Context (post : string -> list (string * Value) -> result ReqwestError Response) (get : string -> result ReqwestError Response).

Definition models (self : OllamaProvider) : Result (list ModelDescriptor) :=
  let? response := map_err (map_reqwest_error "listing Ollama models") (get (url self "api/tags")) in
  let? response := ensure_success response in
  let? names := map_err (map_reqwest_error "decoding the Ollama model list") (decode_body tags_response response) in
  Ok (convert_tags names).

(** The time is [now] when a call begins; [cancelled] and [overdue] say what is seen before the
    answer is. *)
Definition complete (self : OllamaProvider) (request : CompletionRequest) (cx : ExecutionContext) (now : Timestamp) (cancelled overdue : bool) :
    Result CompletionResponse :=
  let deadline := Deadline_compute now (default_timeout self) cx in
  let? wire := build_chat_request request false in
  race cancelled overdue deadline
    (let? response := map_err (map_reqwest_error "sending a completion request to Ollama") (post (url self "api/chat") (request_entries wire)) in
     let? response := ensure_success response in
     let? body := map_err (map_reqwest_error "decoding the Ollama completion response") (decode_body chat_response_line response) in
     convert_response body).

(** A stream that was opened, with what it yields over the times it waits. *)
Definition stream (self : OllamaProvider) (request : CompletionRequest) (cx : ExecutionContext) (now : Timestamp) (cancelled overdue : bool)
    (waits : list Wait) : Result (list (Result CompletionChunk) * bool) :=
  let deadline := Deadline_compute now (default_timeout self) cx in
  let? wire := build_chat_request request true in
  let? response := race cancelled overdue deadline
    (map_err (map_reqwest_error "opening an Ollama stream") (post (url self "api/chat") (request_entries wire))) in
  let? _ := ensure_success response in
  Ok (ndjson_chunks utf8_error mismatch waits).

Definition embed {F} (as_f32 : Value -> option F) (self : OllamaProvider) (model : ModelId) (inputs : list string) (cx : ExecutionContext)
    (now : Timestamp) (cancelled overdue : bool) : Result (list (list F)) :=
  match inputs with
  | [] => Ok []
  | _ =>
      let deadline := Deadline_compute now (default_timeout self) cx in
      race cancelled overdue deadline
        (let? response := map_err (map_reqwest_error "sending an embedding request to Ollama")
           (post (url self "api/embed") [("model", VString model); ("input", VArray (map VString inputs))]%string) in
         let? response := ensure_success response in
         let? body := map_err (map_reqwest_error "decoding the Ollama embedding response") (decode_body (embed_response as_f32) response) in
         convert_embeddings body (length inputs))
  end.
End Client.

(** ** What a request says *)

Section Requests.
  Context {J : Json}.

(** A tool's message is one result. *)
Definition one_result (m : Message) : Prop := role m = Role_Tool -> exists id c e, content m = [ToolResult id c e].

Definition wire_event (call : WireToolCall) : option (Event Value string) :=
  match wc_id call with Some id => Some (Called id (wc_name call) (wc_arguments call)) | None => None end.

Definition wire_events (m : WireMessage) : list (Event Value string) :=
  omap wire_event (wire_tool_calls m) ++ match wire_tool_call_id m with Some id => [Answered id (wire_content m)] | None => [] end.

#[local] Abbreviation part_event := (part_event (fun v => v) result_text).

Definition said_text (part : ContentPart) : string := match part with Text text => text | _ => EmptyString end.

Lemma convert_parts_spec r parts : forall wire wire', r <> Role_Tool -> convert_parts r wire parts = Ok wire' ->
  wire_role wire' = wire_role wire /\ wire_tool_call_id wire' = wire_tool_call_id wire /\
  wire_content wire' = wire_content wire +:+ String.concat EmptyString (map said_text parts) /\
  exists calls, wire_tool_calls wire' = wire_tool_calls wire ++ calls /\ omap wire_event calls = omap part_event parts.
Proof using.
  induction parts as [|part parts IH]; intros wire wire' Hr H; cbn [convert_parts] in H.
  - injection H as <-. cbn. rewrite str_app_nil. split_and!; try done. exists []. by rewrite app_nil_r.
  - destruct (convert_part r wire part) as [w|] eqn:E; [|done].
    destruct (IH w wire' Hr H) as (H1 & H2 & H3 & calls & H4 & H5). cbn [map]. rewrite concat_cons, <- str_app_assoc.
    destruct part as [text| |call|id c e|]; cbn [convert_part] in E; try done.
    + injection E as <-. cbn [wire_role wire_content wire_tool_calls wire_tool_call_id said_text] in *. split_and!; try done. by exists calls.
    + case_bool_decide; [|done]. injection E as <-. cbn [wire_role wire_content wire_tool_calls wire_tool_call_id said_text] in *. rewrite str_app_nil.
      split_and!; try done. eexists (_ :: calls). rewrite H4, <- app_assoc. split; [reflexivity|]. cbn. f_equal. exact H5.
    + by rewrite bool_decide_false in E.
Qed.

(** a conversation is sent one message for one, in the same roles, with its texts, and with every
    call and every answer in it whole, in order and once, where a tool's message is one result, as
    the agent's are; and where it is the window a model is shown, every answer is to a call
    that was sent before it. *)
Theorem conversation_is_sent_in_order `{T : TokenCounter} {TL : TokenCounterLaws T} (request : CompletionRequest) (is_stream : bool) (r : ChatRequest) :
  build_chat_request request is_stream = Ok r -> Forall one_result (req_messages request) ->
  Forall2 (fun m w => wire_role w = role_name (role m) /\
                      (role m <> Role_Tool -> wire_content w = String.concat EmptyString (map said_text (content m)) /\ wire_tool_call_id w = None))
    (req_messages request) (cr_messages r) /\
  concat (map wire_events (cr_messages r)) = omap part_event (concat (map content (req_messages request))) /\
  (forall records budget, req_messages request = messages (assemble records budget) -> events_answered ∅ (concat (map wire_events (cr_messages r)))).
Proof using.
  unfold build_chat_request. destruct (collect _ (req_messages request)) as [wire|] eqn:E; [|done]. simpl. intros [= <-] Hone. cbn [cr_messages].
  generalize dependent (req_messages request). intros l E Hone.
  assert (Hm : Forall2 (fun m w => convert_message m = Ok w) l wire).
  { clear Hone. revert wire E. induction l as [|m l IH]; intros wire; cbn [collect]; [by intros [= <-]|].
    destruct (convert_message m) as [w|] eqn:Em; [|done]. simpl. destruct (collect _ l) as [ws|]; [|done]. intros [= <-]. constructor; [done|by apply IH]. }
  assert (Hspec : forall m w, one_result m -> convert_message m = Ok w ->
    wire_role w = role_name (role m) /\ (role m <> Role_Tool -> wire_content w = String.concat EmptyString (map said_text (content m)) /\ wire_tool_call_id w = None) /\
    wire_events w = omap part_event (content m)).
  { intros m w Ho Hc. unfold convert_message in Hc. destruct (decide (role m = Role_Tool)) as [Ht|Ht].
    - destruct (Ho Ht) as (id & c & e & Hcont). rewrite Hcont, Ht in *. cbn in Hc. injection Hc as <-. by split_and!.
    - destruct (convert_parts_spec _ _ _ _ Ht Hc) as (H1 & H2 & H3 & calls & H4 & H5). split_and!; [done|done|].
      unfold wire_events. rewrite H2, H4. cbn. by rewrite app_nil_r. }
  assert (Hev : concat (map wire_events wire) = omap part_event (concat (map content l))).
  { clear E. induction Hm as [|m w l wire Hmw Hm IH]; [done|]. apply Forall_cons in Hone as [Ho Hone]. cbn [map concat].
    rewrite omap_app, IH by done. f_equal. by apply Hspec. }
  split_and!; [|done|intros records budget ->; rewrite Hev; by apply window_events_answered].
  clear E Hev. induction Hm as [|m w l wire Hmw Hm IH]; [done|]. apply Forall_cons in Hone as [Ho Hone]. constructor; [|by apply IH].
  destruct (Hspec m w Ho Hmw) as (H1 & H2 & _). by split.
Qed.
End Requests.

(** ** What an answer says *)

Definition no_dash (c : ascii) : bool := negb (Ascii.eqb c "-").

(** A text is cut at its last dash in one way. *)
Lemma last_dash (a b s t : string) : all_bytes no_dash s = true -> all_bytes no_dash t = true -> a +:+ "-" +:+ s = b +:+ "-" +:+ t -> a = b /\ s = t.
Proof.
  assert (Hno : forall (x y : string), all_bytes no_dash (x +:+ "-" +:+ y) = false).
  { induction x as [|c x IH]; intros y; [done|]. change (String c x +:+ ?z) with (String c (x +:+ z)). cbn [all_bytes]. rewrite IH. apply andb_false_r. }
  intros Hs Ht. revert b. induction a as [|c a IH]; intros [|d b] H.
  - change (String "-" s = String "-" t) in H. injection H as ->. done.
  - exfalso. change (String d b +:+ ?z) with (String d (b +:+ z)) in H. change (EmptyString +:+ "-" +:+ s) with (String "-" s) in H. injection H as _ ->. by rewrite Hno in Hs.
  - exfalso. change (String c a +:+ ?z) with (String c (a +:+ z)) in H. change (EmptyString +:+ "-" +:+ t) with (String "-" t) in H. injection H as _ <-. by rewrite Hno in Ht.
  - change (String c a +:+ ?z) with (String c (a +:+ z)) in H. change (String d b +:+ ?z) with (String d (b +:+ z)) in H. injection H as -> H.
    by destruct (IH b H) as [-> ->].
Qed.

Lemma convert_calls_at calls : forall position i, convert_calls position calls !! i = (fun c => convert_tool_call c (position + Z.of_nat i)) <$> calls !! i.
Proof.
  induction calls as [|c calls IH]; intros position i; [done|]. destruct i as [|i]; cbn [convert_calls lookup list_lookup].
  - cbn. by rewrite Z.add_0_r.
  - change (convert_calls (position + 1) calls !! i = (fun c => convert_tool_call c (position + Z.of_nat (S i))) <$> calls !! i).
    rewrite IH. destruct (calls !! i); [|done]. cbn. by replace (position + 1 + Z.of_nat i) with (position + Z.of_nat (S i)) by lia.
Qed.

Definition unnumbered (call : WireToolCall) : Prop := nonempty (wc_id call) = None /\ wc_index call = None.

(** the ids that stand in for those a server did not give are different for the calls of one
    message, whatever their names are. *)
Theorem stand_ins_differ (calls : list WireToolCall) (i j : nat) (c d : WireToolCall) :
  calls !! i = Some c -> calls !! j = Some d -> unnumbered c -> unnumbered d ->
  call_id <$> convert_calls 0 calls !! i = call_id <$> convert_calls 0 calls !! j -> i = j.
Proof.
  intros Hc Hd [Hci Hcn] [Hdi Hdn]. rewrite !convert_calls_at, Hc, Hd. cbn. unfold convert_tool_call. rewrite Hci, Hcn, Hdi, Hdn. cbn.
  intros [= H]. apply last_dash in H as [_ H]; [|apply fmt_u_digits; [done|lia]..]. unfold fmt_u in H. apply (inj pretty) in H. lia.
Qed.

(** ** Embeddings *)

(** the vectors of a batch are returned as they were sent, one for each input and all of one width
    that is not zero, or the answer is refused. *)
Theorem vectors_fit_the_inputs {F} (sent : list (list F)) (inputs : nat) (embeddings : list (list F)) :
  convert_embeddings sent inputs = Ok embeddings ->
  embeddings = sent /\ length embeddings = inputs /\ exists width, ((0 < inputs)%nat -> (0 < width)%nat) /\ Forall (fun v => length v = width) embeddings.
Proof.
  unfold convert_embeddings. destruct (Nat.eqb_spec (length sent) inputs) as [Hlen|]; [|done]. cbn [negb].
  destruct sent as [|first es]; [intros [= <-]; split_and!; [done|done|exists 0%nat; simpl in Hlen; split; [lia|done]]|].
  destruct (Nat.eqb_spec (length first) 0); [done|]. destruct (find _ _) eqn:Eq; [done|]. intros [= <-]. split_and!; [done|done|].
  exists (length first). split; [lia|]. apply Forall_forall. intros v Hv%list_elem_of_In. pose proof (find_none _ _ Eq v Hv) as Hn.
  cbv beta in Hn. by apply negb_false_iff, Nat.eqb_eq in Hn.
Qed.

(** ** What a stream yields *)

Section Streamed.
  Context {J : Json} (utf8_error mismatch : string -> BoxError).

#[local] Abbreviation parse_line := (parse_line utf8_error mismatch).
#[local] Abbreviation on_line := (on_line utf8_error mismatch).
#[local] Abbreviation on_close := (on_close utf8_error mismatch).
#[local] Abbreviation ndjson_chunks := (ndjson_chunks utf8_error mismatch).

(** A line is the end of the answer, or pieces of it. *)
Lemma parse_line_spec l parsed : parse_line l = Ok parsed ->
  (exists reason usage, parsed = [Done reason usage]) \/ Forall (fun c => piece (Ok c) = true) parsed.
Proof using.
  unfold Ollama.parse_line. destruct (read_line _ _ l) as [p|]; [|done]. simpl. unfold line_chunks. destruct (line_error p); [done|].
  destruct (line_done p); [intros [= <-]; left; by eexists _, _|]. intros H. right. destruct (line_message p) as [m|]; [|by injection H as <-].
  injection H as <-. apply Forall_app. split; [by destruct (str_is_empty _); repeat constructor|]. apply Forall_map, Forall_forall. done.
Qed.

Lemma until_done_pieces chunks : Forall (fun c => piece (Ok c) = true) chunks -> until_done chunks = (chunks, false).
Proof using. induction chunks as [|c chunks IH]; [done|]. intros [Hc Hcs]%Forall_cons. destruct c; [by cbn; rewrite IH..|done]. Qed.

Lemma parsed_ends parsed : (exists reason usage, parsed = [Done reason usage]) \/ Forall (fun c => piece (Ok c) = true) parsed ->
  ends_once (map Ok (until_done parsed).1) (until_done parsed).2 /\ ends_once (map Ok parsed) true.
Proof using.
  intros [(reason & usage & ->)|Hp]; [split; by apply (ends_with [])|]. rewrite until_done_pieces by done. split; by apply ends_pieces, Forall_map.
Qed.

Lemma ndjson_on_line_ends l st : let '(_, yielded, stop) := on_line l st in ends_once yielded stop.
Proof using.
  unfold Ollama.on_line. destruct (all_bytes _ l); [by apply ends_pieces|]. destruct (parse_line l) as [parsed|] eqn:E; [|by apply (ends_with [])].
  apply parse_line_spec, parsed_ends in E as [E _]. by destruct (until_done parsed).
Qed.

Lemma ndjson_on_close_ends rest st : ends_once (on_close rest st) true.
Proof using.
  unfold Ollama.on_close. destruct (all_bytes _ rest); [by apply ends_pieces|]. destruct (parse_line rest) as [parsed|] eqn:E; [|by apply ends_pieces].
  by apply parse_line_spec, parsed_ends in E as [_ E].
Qed.

(** a streamed answer does not depend on how its bytes were cut on their way, and a last line that
    was not ended is read as if it had been: any two ways of delivering the same bytes yield the
    same chunks, and what is yielded are pieces and behind them at most one end, after which
    nothing follows. *)
Theorem lines_are_cut_independent (pieces pieces' : list string) (waits : list Wait) :
  (String.concat EmptyString pieces = String.concat EmptyString pieces' ->
   ndjson_chunks (map arrives pieces ++ waits) = ndjson_chunks (map arrives pieces' ++ waits)) /\
  (let (yielded, ended) := ndjson_chunks waits in ends_once yielded ended).
Proof using.
  split.
  - intros Heq. unfold Ollama.ndjson_chunks. rewrite !cuts_do_not_matter by done. by rewrite Heq.
  - apply chunks_end; [apply ndjson_on_line_ends|apply ndjson_on_close_ends].
Qed.
End Streamed.

(** ** Examples *)

Module Demo.
Definition call_of (name : string) : Value := VObject [("function"%string, VObject [("name"%string, VString name)])].
Definition saying (message : list (string * Value)) : Value := VObject [("message"%string, VObject message)].

Definition texts : list (string * Value) :=
  [("f", saying [("tool_calls"%string, VArray [call_of "f"])]); ("fg", saying [("tool_calls"%string, VArray [call_of "f"; call_of "g"])]);
   ("hi", saying [("content"%string, VString "Hi")]); ("done", VObject [("done"%string, VBool true)]);
   ("error", VObject [("error"%string, VString "out of memory")])]%string.

#[local] Instance json : Json :=
  {| from_str text := match Map_get text texts with Some v => Ok v | None => Err (BoxForeign "expected value" None) end;
     to_string v := "{}"; undecodable t := {| is_connect := false; is_timeout := false; is_body := false; reqwest_display := "error decoding" |};
     debug_part p := "part" |}.

Definition no_error (text : string) : BoxError := BoxForeign text None.
Definition ndjson (waits : list Wait) := ndjson_chunks no_error no_error waits.
Definition line (text : string) : string := text +:+ String (chr 10) EmptyString.
Definition closes : Wait := {| cancelled := false; overdue := false; next := None |}.
Definition call (id name : string) : CompletionChunk := Chunk_ToolCall {| call_id := id; call_name := name; arguments := VNull |}.

Example a_local_stream : ndjson [arrives "h"; arrives (line "i" +:+ line "fg"); arrives (line "done"); closes] =
  ([Ok (Delta (Text "Hi")); Ok (call "f-0" "f"); Ok (call "g-1" "g"); Ok (Done Finish_Stop None)], true).
Proof. vm_compute. reflexivity. Qed.

(** Two calls of one answer that come in two lines have one id. *)
Example stand_ins_repeat : ndjson [arrives (line "f" +:+ line "f" +:+ line "done")] =
  ([Ok (call "f-0" "f"); Ok (call "f-0" "f"); Ok (Done Finish_Stop None)], true).
Proof. vm_compute. reflexivity. Qed.

(** Being late is told as no time at all. *)
Example late : ndjson [{| cancelled := false; overdue := true; next := None |}] = ([Err (Timeout 0)], true).
Proof. vm_compute. reflexivity. Qed.

(** A failure on a line is reported, and on a last line that was not ended it is not. *)
Example a_failure : ndjson [arrives (line "error"); closes] = ([Err (reported "out of memory")], true) /\ ndjson [arrives "error"; closes] = ([], true).
Proof. split; vm_compute; reflexivity. Qed.

(** Of two results in one message the first is sent as part of the second. *)
Example two_results_are_one :
  convert_message {| role := Role_Tool; content := [ToolResult "a" (VString "one") false; ToolResult "b" (VString "two") false]; name := None |} =
  Ok {| wire_role := "tool"; wire_content := "onetwo"; wire_tool_calls := []; wire_tool_call_id := Some "b"%string |}.
Proof. vm_compute. reflexivity. Qed.

Lemma lines_are_cut_independent_witness :
  ndjson (map arrives ["h"; "i" +:+ String (chr 10) EmptyString]%string ++ [closes]) = ndjson (map arrives [line "hi"] ++ [closes]).
Proof. apply (proj1 (lines_are_cut_independent no_error no_error _ _ [closes])). vm_compute. reflexivity. Defined.

Definition two_calls : list WireToolCall :=
  [{| wc_id := None; wc_index := None; wc_name := "f-1"; wc_arguments := VNull |}; {| wc_id := None; wc_index := None; wc_name := "f"; wc_arguments := VNull |}].

Lemma stand_ins_differ_witness : call_id <$> convert_calls 0 two_calls !! 0%nat <> call_id <$> convert_calls 0 two_calls !! 1%nat.
Proof. intros H. discriminate (stand_ins_differ two_calls 0 1 _ _ eq_refl eq_refl (conj eq_refl eq_refl) (conj eq_refl eq_refl) H). Defined.

Lemma vectors_fit_the_inputs_witness : exists width, (0 < width)%nat /\ Forall (fun v => length v = width) [[5%nat]; [3%nat]].
Proof. destruct (vectors_fit_the_inputs [[5%nat]; [3%nat]] 2 _ eq_refl) as (_ & _ & width & Hw & Hv). exists width. split; [apply Hw; lia|exact Hv]. Defined.

Definition turns : CompletionRequest :=
  {| req_model := "m";
     req_messages :=
       [Message_text Role_User "Hi";
        {| role := Role_Assistant; content := [Part_ToolCall {| call_id := "a"; call_name := "first"; arguments := VObject [] |}]; name := None |};
        {| role := Role_Tool; content := [ToolResult "a" (VString "done") false]; name := None |}];
     req_tools := []; req_parameters := VNull |}.

Lemma turns_one : Forall one_result (req_messages turns).
Proof. repeat constructor; unfold one_result; cbn; try discriminate. intros _. by eexists _, _, _. Qed.

Lemma conversation_is_sent_in_order_witness :
  exists r, build_chat_request turns false = Ok r /\ concat (map wire_events (cr_messages r)) = [Called "a" "first" (VObject []); Answered "a" "done"].
Proof.
  destruct (build_chat_request turns false) as [r|] eqn:E; [|vm_compute in E; discriminate]. exists r. split; [reflexivity|].
  destruct (conversation_is_sent_in_order (TL := heuristic_laws 4 (fun _ => "{}"%string) ltac:(lia)) turns false r E turns_one) as (_ & Hev & _).
  rewrite Hev. vm_compute. reflexivity.
Defined.
End Demo.
