(* ===== verification/Mcp.v ===== *)
(** * Mcp: tools that live in another program ([crates/mcp])

    What is read of a server's messages and what is refused ([protocol.rs]), which server is
    configured ([settings.rs]), the listing and the calling of its tools ([client.rs]), and the
    catalogue that puts the tools of several servers in one name space ([catalog.rs]).  The
    conversation itself is the file McpSession: here a call to a server is an action on a world
    that is a parameter. *)

From S2P Require Import Prelude Base Trust Tools Serde Text Paths Exec Providers.

(** ** Text from a server ([protocol.rs]) *)

(** A character as it is kept: what could redraw a terminal becomes a space. *)
Definition kept_char (c : Z) : Z := if (c =? 10) || (c =? 9) then c else if is_control c then 32 else c.

Fixpoint sanitize_from (max len : Z) (chars : list Z) : list Z :=
  match chars with
  | [] => []
  | c :: chars =>
      let keep := kept_char c in
      if max <? len + len_utf8 keep then [] else keep :: sanitize_from max (len + len_utf8 keep) chars
  end.

Definition sanitize (raw : string) (max_bytes : Z) : string := to_utf8 (sanitize_from max_bytes 0 (from_utf8_lossy raw)).

(** ** Messages *)

Definition JSONRPC_VERSION : string := "2.0".
Definition DEFAULT_PROTOCOL_VERSION : string := "2025-06-18".
Definition SUPPORTED_PROTOCOL_VERSIONS : list string := ["2025-06-18"; "2025-03-26"; "2024-11-05"].
Definition MAX_DESCRIPTION_BYTES : Z := 8 * 1024.
Definition MAX_TOOL_NAME_BYTES : Z := 128.
Definition METHOD_NOT_FOUND : Z := -32601.

Abbreviation RequestId := Z.

Record RpcError := { rpc_code : Z; rpc_message : string }.

(** [Display for RpcError] *)
Definition RpcError_display (e : RpcError) : string := rpc_message e +:+ " (code " +:+ fmt_u (rpc_code e) +:+ ")".

Inductive Incoming :=
  | Incoming_Response (id : RequestId) (result : option Value) (error : option RpcError)
  | Incoming_Request (id : RequestId) (method : string)
  | Incoming_Notification (method : string).

Definition as_i64 (v : Value) : option Z :=
  match v with VNumber (NInt z) => if (- 2 ^ 63 <=? z) && (z <? 2 ^ 63) then Some z else None | _ => None end.

(** [from_value::<RpcError>] *)
Definition rpc_error (v : Value) : option RpcError :=
  match open_fields ["code"; "message"] v with
  | Some [Some c; Some m] => c ← as_i64 c; m ← Value_as_str m; Some {| rpc_code := c; rpc_message := m |}
  | _ => None
  end.

Definition get_present (v : Value) (key : string) : option Value := match Value_get v key with Some VNull => None | o => o end.

Definition classify (frame : Value) : Result Incoming :=
  let method := Value_get frame "method" ≫= Value_as_str in
  let? id := match get_present frame "id" with
             | None => Ok None
             | Some value => match as_u64 value with
                             | Some id => Ok (Some id)
                             | None => Err (Error_other "the server used a request id this client cannot have issued")
                             end
             end in
  match id, method with
  | Some id, Some method => Ok (Incoming_Request id (sanitize method 128))
  | Some id, None =>
      let? error := match get_present frame "error" with
                    | None => Ok None
                    | Some value => match rpc_error value with
                                    | Some error => Ok (Some error)
                                    | None => Err (Error_other "the server sent a malformed JSON-RPC error")
                                    end
                    end in
      let result := get_present frame "result" in
      match result, error with
      | None, None => Err (Error_other "the server answered with neither a result nor an error")
      | _, _ => Ok (Incoming_Response id result error)
      end
  | None, Some method => Ok (Incoming_Notification (sanitize method 128))
  | None, None => Err (Error_other "the server sent a frame that is neither a response, a request nor a notification")
  end.

Definition request (id : RequestId) (method : string) (params : Value) : Value :=
  json_object [("jsonrpc", VString JSONRPC_VERSION); ("id", VNumber (NInt id)); ("method", VString method); ("params", params)].

Definition notification (method : string) (params : Value) : Value :=
  json_object [("jsonrpc", VString JSONRPC_VERSION); ("method", VString method); ("params", params)].

Definition method_not_found (id : RequestId) (method : string) : Value :=
  json_object [("jsonrpc", VString JSONRPC_VERSION); ("id", VNumber (NInt id));
    ("error", json_object [("code", VNumber (NInt METHOD_NOT_FOUND));
      ("message", VString ("this client advertises no capabilities, so `" +:+ method +:+ "` is not available to a server"))])].

(** The package's version is the build's. *)
Definition initialize_params (package_version protocol_version client_name : string) : Value :=
  json_object [("protocolVersion", VString protocol_version); ("capabilities", VObject []);
    ("clientInfo", json_object [("name", VString client_name); ("version", VString package_version)])].

Record ServerHello := { protocol_version : string; server_name : option string; server_version : option string; serves_tools : bool }.

Fixpoint join_with (sep : string) (l : list string) : string :=
  match l with [] => EmptyString | [a] => a | a :: l => a +:+ sep +:+ join_with sep l end.

Definition parse_hello (result : Value) : Result ServerHello :=
  match Value_get result "protocolVersion" ≫= Value_as_str with
  | None => Err (Error_other "the server's `initialize` result names no `protocolVersion`")
  | Some version =>
      if negb (bool_decide (version ∈ SUPPORTED_PROTOCOL_VERSIONS)) then
        Err (Unsupported ("the server speaks MCP revision `" +:+ sanitize version 64 +:+ "`, and this client speaks " +:+
                          join_with ", " SUPPORTED_PROTOCOL_VERSIONS))
      else
        let info := Value_get result "serverInfo" in
        Ok {| protocol_version := version;
              server_name := (fun name => sanitize name 128) <$> ((i ← info; Value_get i "name") ≫= Value_as_str);
              server_version := (fun version => sanitize version 64) <$> ((i ← info; Value_get i "version") ≫= Value_as_str);
              serves_tools := bool_decide (is_Some (c ← Value_get result "capabilities"; Value_get c "tools")) |}
  end.

(** ** Tools a server describes *)

Record RemoteToolDefinition := {
  remote_name : string;
  rt_description : string;
  rt_input_schema : Value;
  rt_output_schema : option Value;
}.

(** [is_name_char], and [is_label_char] of [settings.rs] *)
Definition is_plain_char (c : ascii) : bool := is_ascii_alphanumeric (byte_of c) || is_one_of c "_-".

Definition validate_remote_name (raw : string) : Result unit :=
  let refuse why := Err (InvalidArgument ("`" +:+ sanitize raw 64 +:+ "` is not a usable tool name: " +:+ why)) in
  if str_is_empty raw then refuse "it is empty"
  else if MAX_TOOL_NAME_BYTES <? str_len raw then refuse "it is longer than this client accepts"
  else if negb (all_bytes is_plain_char raw) then
    refuse ("only ASCII letters, digits, `_` and `-` are allowed, so that a name cannot " +:+
            "punctuate the namespace it is placed in or render as a different name than it is")
  else Ok tt.

Definition validate_schema (tool field : string) (schema : Value) : Result Value :=
  match schema with
  | VObject object =>
      match Map_get "type" object ≫= Value_as_str with
      | Some other =>
          if bool_decide (other = "object"%string) then Ok schema
          else Err (Error_other ("tool `" +:+ tool +:+ "`'s `" +:+ field +:+ "` describes a `" +:+ sanitize other 32 +:+
                                 "`, and a tool's arguments are an object"))
      | None => Ok (VObject (Map_insert "type" (VString "object") object))
      end
  | _ => Err (Error_other ("tool `" +:+ tool +:+ "`'s `" +:+ field +:+ "` is not a JSON object"))
  end.

Definition parse_tool_definition (value : Value) : Result RemoteToolDefinition :=
  match Value_get value "name" ≫= Value_as_str with
  | None => Err (Error_other "a tool in `tools/list` has no `name`")
  | Some name =>
      let? _ := validate_remote_name name in
      match Value_get value "inputSchema" with
      | None => Err (Error_other ("tool `" +:+ name +:+ "` declares no `inputSchema`"))
      | Some schema =>
          let? input_schema := validate_schema name "inputSchema" schema in
          let? output_schema := match get_present value "outputSchema" with
                                | None => Ok None
                                | Some schema => result_map Some (validate_schema name "outputSchema" schema)
                                end in
          Ok {| remote_name := name;
                rt_description := default EmptyString ((fun text => sanitize text MAX_DESCRIPTION_BYTES) <$> (Value_get value "description" ≫= Value_as_str));
                rt_input_schema := input_schema; rt_output_schema := output_schema |}
      end
  end.

(** [Value::as_array] *)
Definition as_array (v : Value) : option (list Value) := match v with VArray items => Some items | _ => None end.

Definition parse_tool_list (result : Value) : Result (list RemoteToolDefinition * option string) :=
  match Value_get result "tools" ≫= as_array with
  | None => Err (Error_other "the server's `tools/list` result carries no `tools` array")
  | Some tools =>
      let? definitions := collect (fun v => result_map (fun d => [d]) (parse_tool_definition v)) tools in
      Ok (definitions, (fun cursor => sanitize cursor 1024) <$> nonempty (Value_get result "nextCursor" ≫= Value_as_str))
  end.

(** ** Results *)

Record RemoteToolResult := { rr_output : Value; rr_is_error : bool }.

Definition kind_of_block (block : Value) : string := default "unknown"%string (Value_get block "type" ≫= Value_as_str).

Definition described (kind : string) (block : Value) : Value :=
  json_object [("type", VString (sanitize kind 32));
    ("encoded_bytes", VNumber (NInt (default 0 (str_len <$> (Value_get block "data" ≫= Value_as_str)))));
    ("omitted", VString "non-text content is described rather than carried")].

Definition LINE_FEED : string := String (chr 10) EmptyString.

(** The loop over the blocks: the text, the other blocks, and whether it was cut. *)
Fixpoint flatten_from (max_bytes : Z) (text : string) (others : list Value) (content : list Value) : string * list Value * bool :=
  match content with
  | [] => (text, others, false)
  | block :: content =>
      if bool_decide (kind_of_block block = "text"%string) then
        match Value_get block "text" ≫= Value_as_str with
        | None => flatten_from max_bytes text others content
        | Some chunk =>
            let text := if str_is_empty text then text else text +:+ LINE_FEED in
            let remaining := sat_sub max_bytes (str_len text) in
            if remaining <? str_len chunk then (text +:+ sanitize chunk remaining, others, true)
            else flatten_from max_bytes (text +:+ sanitize chunk remaining) others content
        end
      else flatten_from max_bytes text (others ++ [described (kind_of_block block) block]) content
  end.

Definition TRUNCATED : string := LINE_FEED +:+ "[truncated: the server returned more than this deployment accepts]".

Definition flatten_content (content : list Value) (max_bytes : Z) : string * list Value :=
  let '(text, others, truncated) := flatten_from max_bytes EmptyString [] content in
  (if truncated then text +:+ TRUNCATED else text, others).

Section Results.
  Context `{J : Json}.

Definition bounded_json (value : Value) (max_bytes : Z) : option Value := if str_len (to_string value) <=? max_bytes then Some value else None.

Definition parse_tool_result (result : Value) (max_bytes : Z) : RemoteToolResult :=
  let is_error := match Value_get result "isError" with Some (VBool b) => b | _ => false end in
  let output := match Value_get result "content" ≫= as_array with
                | Some content =>
                    let (text, blocks) := flatten_content content max_bytes in
                    let output := Map_insert "text" (VString text) [] in
                    match blocks with [] => output | _ => Map_insert "content" (VArray blocks) output end
                | None => []
                end in
  let output := match get_present result "structuredContent" with
                | Some structured =>
                    Map_insert "structuredContent"
                      (match bounded_json structured max_bytes with
                       | Some value => value
                       | None => json_object [("omitted"%string, VString "the server's structured result was larger than this deployment accepts")]
                       end) output
                | None => output
                end in
  let output := match output with [] => Map_insert "text" (VString EmptyString) [] | _ => output end in
  {| rr_output := VObject output; rr_is_error := is_error |}.
End Results.

(** ** Which servers there are ([settings.rs]) *)

Definition DEFAULT_PERMISSION : string := "mcp.invoke".
Definition RESOURCE_PREFIX : string := "mcp:".
Definition NAME_PREFIX : string := "mcp".
Definition DEFAULT_SETTINGS_PATH : string := "mcp.servers".
Definition DEFAULT_SEARCH_PATH : string := "/usr/bin:/bin:/usr/local/bin".
Definition DEFAULT_CALL_TIMEOUT : Duration := from_secs 60.
Definition DEFAULT_STARTUP_TIMEOUT : Duration := from_secs 20.
Definition DEFAULT_MAX_FRAME_BYTES : Z := 4 * 1024 * 1024.
Definition DEFAULT_MAX_RESULT_BYTES : Z := 64 * 1024.
Definition DEFAULT_MAX_TOOLS : Z := 128.
Definition DEFAULT_MAX_LIST_PAGES : nat := 16.

(** The environment in the order of its names. *)
Record ServerSettings := {
  set_label : string;
  set_command : string;
  set_args : list string;
  set_env : list (string * string);
  set_cwd : option string;
  set_search_path : option string;
  set_permission : option string;
  set_call_timeout_ms : option Z;
  set_startup_timeout_ms : option Z;
  set_max_frame_bytes : option Z;
  set_max_result_bytes : option Z;
  set_max_tools : option Z;
  set_tools : list string;
}.

Record ResolvedServer := {
  label : string;
  command : string;
  args : list string;
  env : list (string * string);
  cwd : option string;
  srv_search_path : list string;
  permission : string;
  call_timeout : Duration;
  startup_timeout : Duration;
  max_frame_bytes : Z;
  max_result_bytes : Z;
  max_tools : Z;
  tools : list string;
  settings_path : string;
}.

Definition setting_of (settings_path label field : string) : string := settings_path +:+ "[" +:+ label +:+ "]." +:+ field.

(** [ResolvedServer::setting], [exposes], [tool_name], [resource_id] *)
Definition setting (self : ResolvedServer) (field : string) : string := setting_of (settings_path self) (label self) field.
Definition exposes (self : ResolvedServer) (remote : string) : bool :=
  match tools self with [] => true | l => existsb (fun allowed => bool_decide (allowed = remote)) l end.
Definition tool_name (self : ResolvedServer) (remote : string) : string := NAME_PREFIX +:+ "." +:+ label self +:+ "." +:+ remote.
Definition resource_id (self : ResolvedServer) (remote : string) : string := RESOURCE_PREFIX +:+ label self +:+ "/" +:+ remote.

Definition positive (value : option Z) (default_value : Z) (setting : string) : Result Z :=
  match value with
  | None => Ok default_value
  | Some value => if value =? 0 then Err (Config setting "zero is not a limit; leave the setting out for the default, or name a real one") else Ok value
  end.

Definition duration_or (millis : option Z) (default_value : Duration) : Duration :=
  match millis with Some millis => if millis =? 0 then default_value else from_millis millis | None => default_value end.

Definition usable_variable (name : string) : bool :=
  negb (str_is_empty name) && all_bytes (fun c => negb (Ascii.eqb c "=")) name && negb (has_nul name).

Section Resolve.
  (** [Display for Error] *)
  Context (error_text : Error -> string).

Fixpoint check_tools (at_setting : string) (l : list string) : Result unit :=
  match l with
  | [] => Ok tt
  | tool :: l => let? _ := map_err (fun error => Config at_setting (error_text error)) (validate_remote_name tool) in check_tools at_setting l
  end.

(** [ServerSettings::resolve_at] *)
Definition resolve_at (self : ServerSettings) (root settings_path : string) : Result ResolvedServer :=
  let at_setting := setting_of settings_path (set_label self) in
  if str_is_empty (set_label self) then
    Err (Config (settings_path +:+ "[].label") "every tool server needs a label; it is what its tools are named after")
  else if negb (all_bytes is_plain_char (set_label self)) then
    Err (Config (at_setting "label") ("only ASCII letters, digits, `_` and `-` are allowed, so that a label cannot " +:+
                                      "punctuate the tool namespace it is placed in"))
  else
    let? _ := map_err (fun error => Config (at_setting "command") (error_text error +:+ "; a server is named, never given as a path"))
                (validate_name (set_command self)) in
    let search_path := parse_search_path (default DEFAULT_SEARCH_PATH (set_search_path self)) in
    match search_path with
    | [] => Err (Config (at_setting "search_path") ("no absolute directory to look for the server in; relative entries are dropped, " +:+
                   "because a program a name resolves to must not depend on where the kernel was started"))
    | _ =>
        match find (fun name => negb (usable_variable name)) (map fst (set_env self)) with
        | Some name => Err (Config (at_setting "env") ("`" +:+ name +:+ "` is not a usable environment variable name"))
        | None =>
            if existsb has_nul (set_args self ++ map snd (set_env self)) then
              Err (Config (at_setting "args") "an argument or environment value contains a NUL, which cannot be passed to a process")
            else
              let? _ := check_tools (at_setting "tools") (set_tools self) in
              let permission := match set_permission self with
                                | Some permission => if str_is_empty (trim permission) then DEFAULT_PERMISSION else permission
                                | None => DEFAULT_PERMISSION
                                end in
              let? max_tools := positive (set_max_tools self) DEFAULT_MAX_TOOLS (at_setting "max_tools") in
              let? max_frame_bytes := positive (set_max_frame_bytes self) DEFAULT_MAX_FRAME_BYTES (at_setting "max_frame_bytes") in
              let? max_result_bytes := positive (set_max_result_bytes self) DEFAULT_MAX_RESULT_BYTES (at_setting "max_result_bytes") in
              Ok {| label := set_label self; command := set_command self; args := set_args self; env := set_env self;
                    cwd := Some (default root (set_cwd self)); srv_search_path := search_path; permission := permission;
                    call_timeout := duration_or (set_call_timeout_ms self) DEFAULT_CALL_TIMEOUT;
                    startup_timeout := duration_or (set_startup_timeout_ms self) DEFAULT_STARTUP_TIMEOUT;
                    max_frame_bytes := max_frame_bytes; max_result_bytes := max_result_bytes; max_tools := max_tools; tools := set_tools self;
                    settings_path := settings_path |}
        end
    end.
End Resolve.

(** ** One server ([client.rs]) *)

Definition CLIENT_NAME : string := "aik".

(** What a client and the catalogue use of a process: starting it, its session, and its end. *)
Class McpHost (W : Type) := {
  Process : Type;
  spawn : ResolvedServer -> W -> W * Result Process;
  session_call : Process -> string -> Value -> Duration -> ExecutionContext -> W -> W * Result Value;
  session_notify : Process -> string -> Value -> W -> W * Result unit;
  process_shutdown : Process -> W -> W;
}.

(** What was done to the server of a label. *)
Inductive McpEvent :=
  | Started (label : string) (ok : bool)
  | Requested (label method : string) (params : Value)
  | Notified (label method : string)
  | Stopped (label : string).

Record Entry := { entry_server : ResolvedServer; entry_definition : RemoteToolDefinition }.

Section Client.
  Context {W : Type} `{McpHost W} `{J : Json} (package_version proposed_version : string).

Record Connection := { process : Process; hello : ServerHello }.

(** Every client's connection by the client's label, and the catalogue's listing. *)
Record McpState := {
  world : W;
  connections : gmap string Connection;
  listed : option (gmap ToolName Entry);
  trace : list McpEvent;
}.

Abbreviation M := (action McpState Error).

Definition on_world {A} (event : bool -> McpEvent) (f : W -> W * Result A) : M A := fun s =>
  let (w, r) := f (world s) in ({| world := w; connections := connections s; listed := listed s; trace := trace s ++ [event (is_ok r)] |}, r).

Definition set_connections (f : gmap string Connection -> gmap string Connection) : M unit :=
  modify (fun s => {| world := world s; connections := f (connections s); listed := listed s; trace := trace s |}).

Definition set_listed (l : option (gmap ToolName Entry)) : M unit :=
  modify (fun s => {| world := world s; connections := connections s; listed := l; trace := trace s |}).

Definition call (server : ResolvedServer) (p : Process) (method : string) (params : Value) (budget : Duration) (cx : ExecutionContext) : M Value :=
  on_world (fun _ => Requested (label server) method params) (session_call p method params budget cx).

Definition stop (server : ResolvedServer) (p : Process) : M unit := on_world (fun _ => Stopped (label server)) (fun w => (process_shutdown p w, Ok tt)).

Definition handshake (server : ResolvedServer) (p : Process) (cx : ExecutionContext) : M ServerHello :=
  let! result := call server p "initialize" (initialize_params package_version proposed_version CLIENT_NAME) (startup_timeout server) cx in
  let! hello := lift (parse_hello result) in
  if negb (serves_tools hello) then
    throw (Unsupported ("MCP server `" +:+ label server +:+ "` declares no `tools` capability, so it has nothing this kernel can expose"))
  else
    let! _ := on_world (fun _ => Notified (label server) "notifications/initialized") (session_notify p "notifications/initialized" (VObject [])) in
    ret hello.

(** The lock is held throughout. *)
Definition connect (server : ResolvedServer) (cx : ExecutionContext) : M Process :=
  let! slot := gets (fun s => connections s !! label server) in
  match slot with
  | Some connection => ret (process connection)
  | None =>
      let! p := on_world (Started (label server)) (spawn server) in
      let! greeted := try (handshake server p cx) in
      match greeted with
      | Err error => let! _ := stop server p in throw error
      | Ok hello => let! _ := set_connections <[label server := {| process := p; hello := hello |}]> in ret p
      end
  end.

Definition page_params (cursor : option string) : Value :=
  match cursor with Some cursor => json_object [("cursor"%string, VString cursor)] | None => VObject [] end.

(** The loop over the pages, [turns] of them at most. *)
Fixpoint list_pages (server : ResolvedServer) (p : Process) (cx : ExecutionContext) (turns : nat) (offered : list RemoteToolDefinition)
    (cursor : option string) (seen : list string) : M (list RemoteToolDefinition) :=
  match turns with
  | O => ret offered
  | S turns =>
      let! result := call server p "tools/list" (page_params cursor) (startup_timeout server) cx in
      let! page := lift (parse_tool_list result) in
      let offered := offered ++ fst page in
      if max_tools server <? Z.of_nat (length offered) then
        throw (InvalidArgument ("MCP server `" +:+ label server +:+ "` offers more than the " +:+ fmt_u (max_tools server) +:+
                                " tools this deployment accepts"))
      else match snd page with
           | None => ret offered
           | Some next =>
               if existsb (fun c => bool_decide (c = next)) seen then ret offered
               else list_pages server p cx turns offered (Some next) (seen ++ [next])
           end
  end.

Definition missing_tool (server : ResolvedServer) (exposed : list RemoteToolDefinition) : option string :=
  find (fun named => negb (existsb (fun tool => bool_decide (remote_name tool = named)) exposed)) (tools server).

Definition list_tools (server : ResolvedServer) (cx : ExecutionContext) : M (list RemoteToolDefinition) :=
  let! p := connect server cx in
  let! offered := list_pages server p cx DEFAULT_MAX_LIST_PAGES [] None [] in
  let exposed := List.filter (fun tool => exposes server (remote_name tool)) offered in
  match missing_tool server exposed with
  | Some named => throw (Config (setting server "tools") ("`" +:+ named +:+ "` is not a tool this server offers"))
  | None => ret exposed
  end.

Definition call_tool (server : ResolvedServer) (remote : string) (arguments : Value) (cx : ExecutionContext) : M RemoteToolResult :=
  if negb (exposes server remote) then
    throw (PermissionDenied ("`" +:+ remote +:+ "` is not a tool MCP server `" +:+ label server +:+ "` exposes in this deployment"))
  else
    let! p := connect server cx in
    let! result := call server p "tools/call" (json_object [("name", VString remote); ("arguments", arguments)]%string) (call_timeout server) cx in
    ret (parse_tool_result result (max_result_bytes server)).

Definition client_shutdown (server : ResolvedServer) : M unit :=
  let! slot := gets (fun s => connections s !! label server) in
  match slot with
  | Some connection => let! _ := set_connections (delete (label server)) in stop server (process connection)
  | None => ret tt
  end.

(** ** Every server ([catalog.rs]) *)

(** [McpCatalog::new], of the sorted labels *)
Fixpoint twice (labels : list string) : option string :=
  match labels with
  | a :: ((b :: _) as labels) => if bool_decide (a = b) then Some a else twice labels
  | _ => None
  end.

Definition McpCatalog_new (clients : list ResolvedServer) : Result (list ResolvedServer) :=
  match twice (sort_by String.compare (map label clients)) with
  | Some duplicate => Err (AlreadyExists "MCP server label" duplicate)
  | None => Ok clients
  end.

Fixpoint insert_all (server : ResolvedServer) (entries : gmap ToolName Entry) (l : list RemoteToolDefinition) : Result (gmap ToolName Entry) :=
  match l with
  | [] => Ok entries
  | definition :: l =>
      let name := tool_name server (remote_name definition) in
      match entries !! name with
      | Some _ => Err (AlreadyExists "MCP tool" name)
      | None => insert_all server (<[name := {| entry_server := server; entry_definition := definition |}]> entries) l
      end
  end.

Fixpoint list_all (cx : ExecutionContext) (entries : gmap ToolName Entry) (clients : list ResolvedServer) : M (gmap ToolName Entry) :=
  match clients with
  | [] => ret entries
  | server :: clients =>
      let! l := list_tools server cx in
      let! entries := lift (insert_all server entries l) in
      list_all cx entries clients
  end.

(** [McpCatalog::entries]: the lock is held throughout. *)
Definition entries (clients : list ResolvedServer) (cx : ExecutionContext) : M (gmap ToolName Entry) :=
  let! slot := gets listed in
  match slot with
  | Some l => ret l
  | None => let! l := list_all cx ∅ clients in let! _ := set_listed (Some l) in ret l
  end.

Definition spec_for (name : ToolName) (entry : Entry) : ToolSpec :=
  {| spec_name := name; spec_description := rt_description (entry_definition entry); spec_input_schema := rt_input_schema (entry_definition entry);
     spec_output_schema := rt_output_schema (entry_definition entry); spec_required_permissions := [permission (entry_server entry)];
     spec_read_only := false; spec_output_trust := Untrusted; spec_reach := ReachExternal |}.

Definition by_name (a b : ToolSpec) : comparison := String.compare (spec_name a) (spec_name b).

(** [McpCatalog::list], [get] *)
Definition list_specs (clients : list ResolvedServer) (cx : ExecutionContext) : M (list ToolSpec) :=
  let! l := entries clients cx in
  ret (sort_by by_name (map (fun p => spec_for (fst p) (snd p)) (map_to_list l))).

Definition get_tool (clients : list ResolvedServer) (name : ToolName) (cx : ExecutionContext) : M (option Entry) :=
  let! l := entries clients cx in ret (l !! name).

Fixpoint shutdown_all (clients : list ResolvedServer) : M unit :=
  match clients with [] => ret tt | server :: clients => let! _ := client_shutdown server in shutdown_all clients end.

Definition catalog_shutdown (clients : list ResolvedServer) : M unit := let! _ := shutdown_all clients in set_listed None.

(** [RemoteTool] *)
Definition remote_planned_resources (entry : Entry) (arguments : Value) : Result (list ResourceClaim) :=
  Ok [{| claim_action := permission (entry_server entry); claim_resource := resource_id (entry_server entry) (remote_name (entry_definition entry)) |}].

Definition kind_of (value : Value) : string :=
  match value with
  | VNull => "null" | VBool _ => "boolean" | VNumber _ => "number" | VString _ => "string" | VArray _ => "array" | VObject _ => "object"
  end.

Definition remote_invoke (name : ToolName) (entry : Entry) (arguments : Value) (cx : ExecutionContext) : M ToolOutcome :=
  let! arguments := match arguments with
                    | VNull => ret (VObject [])
                    | VObject o => ret (VObject o)
                    | other => throw (InvalidArgument ("`" +:+ name +:+ "` takes an object of arguments, not a " +:+ kind_of other))
                    end in
  let! result := call_tool (entry_server entry) (remote_name (entry_definition entry)) arguments cx in
  ret {| output := rr_output result; is_error := rr_is_error result; outcome_trust := Untrusted |}.
End Client.

(** ** What is kept of a server's text *)

Lemma kept_char_scalar c : is_scalar c -> is_scalar (kept_char c).
Proof. unfold kept_char, is_scalar. intros Hc. destruct ((c =? 10) || (c =? 9)); [done|]. destruct (is_control c); [lia|done]. Qed.

Lemma kept_char_shown c : is_control (kept_char c) = false \/ kept_char c = 10 \/ kept_char c = 9.
Proof.
  unfold kept_char. destruct (Z.eqb_spec c 10) as [->|]; [by right; left|]. destruct (Z.eqb_spec c 9) as [->|]; [by right; right|].
  cbn [orb]. destruct (is_control c) eqn:E; by left.
Qed.

Lemma sanitize_from_spec max chars : forall len, len <= max ->
  len + text_len (sanitize_from max len chars) <= max /\ sanitize_from max len chars `prefix_of` map kept_char chars.
Proof.
  induction chars as [|c chars IH]; intros len Hlen; cbn [sanitize_from map]; [split; [unfold text_len; simpl; lia|done]|].
  destruct (Z.ltb_spec max (len + len_utf8 (kept_char c))); [split; [unfold text_len; simpl; lia|apply prefix_nil]|].
  destruct (IH (len + len_utf8 (kept_char c))) as [H1 H2]; [done|]. split; [|by apply prefix_cons].
  unfold text_len in *. cbn [map sum_Z foldr] in *. fold (sum_Z (map len_utf8 (sanitize_from max (len + len_utf8 (kept_char c)) chars))) in *. lia.
Qed.

(** What a server says is shown as it is but for control characters, of which only line feeds and
    tabs are left, and no more of it than was asked for, cut between two characters. *)
Theorem sanitized_text_is_tame (raw : string) (max_bytes : Z) : 0 <= max_bytes ->
  str_len (sanitize raw max_bytes) <= max_bytes /\ valid_utf8 (sanitize raw max_bytes) = true /\
  Forall (fun c => is_control c = false \/ c = 10 \/ c = 9) (from_utf8_lossy (sanitize raw max_bytes)) /\
  from_utf8_lossy (sanitize raw max_bytes) `prefix_of` map kept_char (from_utf8_lossy raw).
Proof.
  intros Hmax. destruct (sanitize_from_spec max_bytes (from_utf8_lossy raw) 0 Hmax) as [Hlen Hpre]. unfold sanitize. rewrite to_utf8_len.
  assert (Hs : Forall is_scalar (sanitize_from max_bytes 0 (from_utf8_lossy raw))).
  { destruct Hpre as [rest Hpre]. assert (Hall : Forall is_scalar (map kept_char (from_utf8_lossy raw))).
    { apply Forall_map. eapply Forall_impl; [apply from_utf8_scalars|apply kept_char_scalar]. }
    rewrite Hpre in Hall. by apply Forall_app in Hall as [? _]. }
  rewrite utf8_round_trip by done. split_and!; [lia| | |done].
  - apply valid_utf8_spec. by eexists.
  - destruct Hpre as [rest Hpre]. assert (Hall : Forall (fun c => is_control c = false \/ c = 10 \/ c = 9) (map kept_char (from_utf8_lossy raw))).
    { apply Forall_map, Forall_forall. intros c _. apply kept_char_shown. }
    rewrite Hpre in Hall. by apply Forall_app in Hall as [? _].
Qed.

Lemma sanitize_len raw max_bytes : 0 <= max_bytes -> str_len (sanitize raw max_bytes) <= max_bytes.
Proof. intros. by apply sanitized_text_is_tame. Qed.

Lemma flatten_from_len max content : forall text others, 0 <= max ->
  str_len (flatten_from max text others content).1.1 <= Z.max (str_len text) max + Z.of_nat (length content).
Proof.
  induction content as [|block content IH]; intros text others Hmax; cbn [flatten_from length]; [cbn [fst]; lia|].
  case_bool_decide; [|specialize (IH text (others ++ [described (kind_of_block block) block]) Hmax); lia].
  destruct (Value_get block "text" ≫= Value_as_str) as [chunk|]; [|specialize (IH text others Hmax); lia].
  set (text' := if str_is_empty text then text else text +:+ LINE_FEED).
  assert (Hlen : str_len text' <= str_len text + 1).
  { unfold text'. destruct (str_is_empty text); [lia|]. rewrite str_len_app. change (str_len LINE_FEED) with 1. lia. }
  set (remaining := sat_sub max (str_len text')). assert (Hr : 0 <= remaining) by (unfold remaining, sat_sub; lia).
  pose proof (sanitize_len chunk remaining Hr) as Hs. assert (Happ : str_len (text' +:+ sanitize chunk remaining) <= Z.max (str_len text + 1) max).
  { rewrite str_len_app. unfold remaining, sat_sub in *. lia. }
  destruct (remaining <? str_len chunk); cbn [fst]; [lia|]. specialize (IH (text' +:+ sanitize chunk remaining) others Hmax). lia.
Qed.

(** The text of a result is bounded by what the deployment accepts, but for a byte for each block
    and the note that it was cut. *)
Theorem results_are_bounded (content : list Value) (max_bytes : Z) : 0 <= max_bytes ->
  str_len (flatten_content content max_bytes).1 <= max_bytes + Z.of_nat (length content) + str_len TRUNCATED.
Proof.
  intros Hmax. unfold flatten_content. pose proof (flatten_from_len max_bytes content EmptyString [] Hmax) as H.
  destruct (flatten_from max_bytes EmptyString [] content) as [[text others] truncated]. cbn [fst] in *. change (str_len EmptyString) with 0 in H.
  pose proof (str_len_nonneg TRUNCATED). destruct truncated; [rewrite str_len_app|]; lia.
Qed.

(** ** Names *)

Definition no_dot (c : ascii) : bool := negb (Ascii.eqb c ".").

Lemma plain_no p : (forall c, is_plain_char c = true -> p c = true) -> forall s, all_bytes is_plain_char s = true -> all_bytes p s = true.
Proof. intros Hp s. by apply all_bytes_impl. Qed.

(** A text is cut in one way at its first character of a kind. *)
Lemma first_cut (stop : ascii) (a b s t : string) :
  all_bytes (fun c => negb (Ascii.eqb c stop)) a = true -> all_bytes (fun c => negb (Ascii.eqb c stop)) b = true ->
  a +:+ String stop s = b +:+ String stop t -> a = b /\ s = t.
Proof.
  revert b. induction a as [|c a IH]; intros [|d b] Ha Hb Heq.
  - change (String stop s = String stop t) in Heq. by injection Heq as ->.
  - change (String stop s = String d (b +:+ String stop t)) in Heq. injection Heq as <- _. cbn in Hb. by rewrite Ascii.eqb_refl in Hb.
  - change (String c (a +:+ String stop s) = String stop t) in Heq. injection Heq as -> _. cbn in Ha. by rewrite Ascii.eqb_refl in Ha.
  - change (String c (a +:+ String stop s) = String d (b +:+ String stop t)) in Heq. injection Heq as -> Heq.
    cbn in Ha, Hb. apply andb_true_iff in Ha as [_ Ha], Hb as [_ Hb]. by destruct (IH b Ha Hb Heq) as [-> ->].
Qed.

Lemma plain_not (stop : ascii) s : is_plain_char stop = false -> all_bytes is_plain_char s = true -> all_bytes (fun c => negb (Ascii.eqb c stop)) s = true.
Proof.
  intros Hstop. apply all_bytes_impl. intros c Hc. destruct (Ascii.eqb_spec c stop) as [->|]; [|done]. congruence.
Qed.

Definition plain_label (server : ResolvedServer) : Prop := all_bytes is_plain_char (label server) = true.

Lemma tool_name_inj server server' remote remote' : plain_label server -> plain_label server' ->
  tool_name server remote = tool_name server' remote' -> label server = label server' /\ remote = remote'.
Proof.
  unfold tool_name, NAME_PREFIX. intros Hl Hl' Heq. apply (inj (String.append "mcp")) in Heq. injection Heq as Heq.
  by apply (first_cut "."); [apply plain_not|apply plain_not|].
Qed.

Lemma resource_id_inj server server' remote remote' : plain_label server -> plain_label server' ->
  resource_id server remote = resource_id server' remote' -> label server = label server' /\ remote = remote'.
Proof.
  unfold resource_id, RESOURCE_PREFIX. intros Hl Hl' Heq. apply (inj (String.append "mcp:")) in Heq.
  by apply (first_cut "/"); [apply plain_not|apply plain_not|].
Qed.

Lemma compare_bytes x y : String.compare x y = lex (bytes_of x) (bytes_of y).
Proof.
  revert y. induction x as [|c x IH]; intros [|d y]; try done. cbn [String.compare bytes_of lex]. rewrite <- IH. unfold byte_of, Ascii.compare.
  rewrite N2Z.inj_compare. by destruct (N_of_ascii c ?= N_of_ascii d)%N.
Qed.

Lemma compare_eq x y : lex (bytes_of x) (bytes_of y) = Eq -> x = y.
Proof. rewrite <- compare_bytes. apply String.compare_eq_iff. Qed.

Lemma twice_none l : StronglySorted (fun x y => lex (bytes_of x) (bytes_of y) <> Gt) l -> twice l = None -> NoDup l.
Proof.
  induction l as [|a l IH]; intros Hs Ht; [constructor|]. apply StronglySorted_inv in Hs as [Hs Ha]. destruct l as [|b l]; [apply NoDup_singleton|].
  cbn [twice] in Ht. case_bool_decide as Hab; [done|]. constructor; [|by apply IH]. intros Hin. apply Hab.
  apply Forall_cons in Ha as [Hle _]. apply elem_of_cons in Hin as [|Hin]; [done|]. apply StronglySorted_inv in Hs as [_ Hb].
  rewrite Forall_forall in Hb. specialize (Hb a Hin). rewrite lex_antisym in Hb. apply compare_eq. by destruct (lex (bytes_of a) (bytes_of b)).
Qed.

Lemma McpCatalog_new_distinct clients l : McpCatalog_new clients = Ok l -> l = clients /\ NoDup (map label clients).
Proof.
  unfold McpCatalog_new. destruct (twice _) eqn:E; [done|]. intros [= <-]. split; [done|].
  rewrite <- (sort_by_Permutation String.compare (map label clients)). apply twice_none; [|done].
  apply (sort_by_sorted bytes_of). intros x y _ _. apply compare_bytes.
Qed.

Section Settings.
  Context (error_text : Error -> string).

Lemma check_tools_spec at_setting l : check_tools error_text at_setting l = Ok tt -> Forall (fun t => validate_remote_name t = Ok tt) l.
Proof using.
  induction l as [|t l IH]; cbn [check_tools]; [constructor|]. destruct (validate_remote_name t) as [[]|] eqn:E; [|done]. simpl. intros H.
  constructor; [done|by apply IH].
Qed.

Lemma positive_spec v d at_setting z : positive v d at_setting = Ok z -> z = default d v /\ (v = Some 0 -> False).
Proof using. unfold positive. destruct v as [v|]; [destruct (Z.eqb_spec v 0); [done|]|]; intros [= <-]; [split; [done|congruence]|done]. Qed.

(** A server is run only as it is configured: under a label that can punctuate no name, as a program
    named on a search path of absolute directories, with an environment that is passed as it is
    written, and with no limit of zero. *)
Theorem servers_are_resolved_safely (self : ServerSettings) (root path : string) (r : ResolvedServer) :
  resolve_at error_text self root path = Ok r ->
  plain_label r /\ label r = set_label self /\ 0 < str_len (label r) /\
  validate_name (command r) = Ok (command r) /\ srv_search_path r <> [] /\ Forall (fun d => is_absolute d = true) (srv_search_path r) /\
  Forall (fun p => usable_variable (fst p) = true /\ has_nul (snd p) = false) (env r) /\ Forall (fun a => has_nul a = false) (args r) /\
  max_tools r <> 0 /\ max_frame_bytes r <> 0 /\ max_result_bytes r <> 0 /\ trim (permission r) <> EmptyString /\
  Forall (fun t => validate_remote_name t = Ok tt) (tools r).
Proof using.
  unfold resolve_at. destruct (str_is_empty (set_label self)) eqn:El; [done|]. destruct (all_bytes is_plain_char (set_label self)) eqn:Ep; [|done]. cbn [negb].
  destruct (validate_name (set_command self)) as [name|] eqn:En; [|done]. cbn [map_err result_bind].
  destruct (parse_search_path _) as [|dir dirs] eqn:Es; [done|]. destruct (find _ (map fst (set_env self))) eqn:Ef; [done|].
  destruct (existsb has_nul _) eqn:Ex; [done|]. destruct (check_tools _ _ _) as [[]|] eqn:Ec; [|done]. cbn [result_bind].
  destruct (positive (set_max_tools self) _ _) as [mt|] eqn:E1; [|done]. cbn [result_bind].
  destruct (positive (set_max_frame_bytes self) _ _) as [mf|] eqn:E2; [|done]. cbn [result_bind].
  destruct (positive (set_max_result_bytes self) _ _) as [mr|] eqn:E3; [|done]. cbn [result_bind]. intros [= <-]. unfold plain_label.
  cbn [label command args env srv_search_path permission max_frame_bytes max_result_bytes max_tools tools].
  assert (Hz : forall v d at_setting z, d <> 0 -> positive v d at_setting = Ok z -> z <> 0).
  { intros v d a z Hd [-> Hv]%positive_spec. destruct v; cbn; [congruence|done]. }
  assert (Hname : set_command self = name).
  { revert En. unfold validate_name. repeat (match goal with |- context [if ?b then _ else _] => destruct b; [done|] end). by intros [= ->]. }
  assert (Hnul : forall a, In a (set_args self ++ map snd (set_env self)) -> has_nul a = false).
  { intros a Ha. apply not_true_iff_false. intros Hn. apply not_true_iff_false in Ex. apply Ex. apply existsb_exists. by exists a. }
  split_and!; [done|done| |by rewrite <- Hname in En|done| | | |by apply (Hz _ DEFAULT_MAX_TOOLS _ _ ltac:(done) E1)|by apply (Hz _ DEFAULT_MAX_FRAME_BYTES _ _ ltac:(done) E2)|
    by apply (Hz _ DEFAULT_MAX_RESULT_BYTES _ _ ltac:(done) E3)| |by eapply check_tools_spec].
  - destruct (set_label self); [done|]. unfold str_len. simpl. lia.
  - rewrite <- Es. unfold parse_search_path. apply Forall_forall. intros d Hd%list_elem_of_In. by apply filter_In in Hd as [_ ?].
  - apply Forall_forall. intros [n v] Hin%list_elem_of_In. cbn [fst snd]. split.
    + pose proof (find_none _ _ Ef n (in_map fst _ _ Hin)) as H. cbv beta in H. by apply negb_false_iff in H.
    + apply Hnul. apply in_app_iff. right. apply (in_map snd _ _ Hin).
  - apply Forall_forall. intros a Ha%list_elem_of_In. apply Hnul. apply in_app_iff. by left.
  - destruct (set_permission self) as [perm|]; [|done]. destruct (str_is_empty (trim perm)) eqn:Et; [done|]. intros H. by rewrite H in Et.
Qed.
End Settings.

(** ** What is done to servers, told by the trace *)

(** Where the process of a label is: not there, started, asked to initialise, in use. *)
Inductive Phase := Absent | Fresh | Greeted | Ready.

Definition phase_step (l : string) (phase : option Phase) (event : McpEvent) : option Phase :=
  match phase with
  | None => None
  | Some phase =>
      match event with
      | Started l' ok => if bool_decide (l' = l) then match phase with Absent => Some (if ok then Fresh else Absent) | _ => None end else Some phase
      | Requested l' method _ =>
          if bool_decide (l' = l) then
            match phase with
            | Fresh => if bool_decide (method = "initialize"%string) then Some Greeted else None
            | Ready => if bool_decide (method = "tools/list"%string \/ method = "tools/call"%string) then Some Ready else None
            | _ => None
            end
          else Some phase
      | Notified l' _ => if bool_decide (l' = l) then match phase with Greeted => Some Ready | _ => None end else Some phase
      | Stopped l' => if bool_decide (l' = l) then match phase with Greeted | Ready => Some Absent | _ => None end else Some phase
      end
  end.

Definition phase_after (l : string) (trace : list McpEvent) : option Phase := foldl (phase_step l) (Some Absent) trace.

Section Trace.
  Context {W : Type} {H : McpHost W} {J : Json} (package_version proposed_version : string).

Abbreviation State := (@McpState W H).
#[local] Abbreviation connect := (connect package_version proposed_version).
#[local] Abbreviation list_tools := (list_tools package_version proposed_version).
#[local] Abbreviation call_tool := (call_tool package_version proposed_version).

(** The trace follows the protocol, and a connection is kept for the servers in use. *)
Definition consistent (s : State) : Prop :=
  forall l, phase_after l (trace s) = Some (if bool_decide (is_Some (connections s !! l)) then Ready else Absent).

Lemma on_world_spec {A} event (f : W -> W * Result A) (s s' : State) r : on_world event f s = (s', r) ->
  connections s' = connections s /\ listed s' = listed s /\ trace s' = trace s ++ [event (is_ok r)].
Proof using. unfold on_world. destruct (f (world s)). by intros [= <- <-]. Qed.

Definition event_label (event : McpEvent) : string :=
  match event with Started l _ | Requested l _ _ | Notified l _ | Stopped l => l end.

Lemma phase_step_other l phase event : event_label event <> l -> phase_step l phase event = phase.
Proof using. intros Hne. destruct phase as [phase|]; [|done]. destruct event; cbn in *; by rewrite bool_decide_false. Qed.

Lemma snoc_two {A} (l : list A) a b : l ++ [a; b] = (l ++ [a]) ++ [b].
Proof using. by rewrite <- app_assoc. Qed.

Lemma phase_after_snoc l tr event : phase_after l (tr ++ [event]) = phase_step l (phase_after l tr) event.
Proof using. unfold phase_after. by rewrite foldl_app. Qed.

Lemma handshake_spec server p cx (s s' : State) r : handshake package_version proposed_version server p cx s = (s', r) ->
  connections s' = connections s /\ listed s' = listed s /\
  exists method params, method = "initialize"%string /\
    (trace s' = trace s ++ [Requested (label server) method params] /\ is_ok r = false \/
     exists notified, trace s' = trace s ++ [Requested (label server) method params; Notified (label server) notified]).
Proof using.
  unfold handshake, bind at 1. destruct (call server p "initialize" _ _ cx s) as [s1 r1] eqn:E1. unfold call in E1. apply on_world_spec in E1 as (Hc1 & Hl1 & Ht1).
  destruct r1 as [result|e]; [|intros [= <- <-]; split_and!; [done|done|]; eexists _, _; split; [done|]; by left].
  unfold bind at 1, lift. destruct (parse_hello result) as [h|e]; [|intros [= <- <-]; split_and!; [done|done|]; eexists _, _; split; [done|]; by left].
  destruct (serves_tools h); cbn [negb]; [|intros [= <- <-]; split_and!; [done|done|]; eexists _, _; split; [done|]; by left].
  unfold bind. destruct (on_world _ _ s1) as [s2 r2] eqn:E2. apply on_world_spec in E2 as (Hc2 & Hl2 & Ht2). intros Hend.
  assert (s' = s2) as -> by (destruct r2; by injection Hend). split_and!; [by rewrite Hc2|by rewrite Hl2|]. eexists _, _. split; [done|]. right.
  eexists. rewrite Ht2, Ht1, <- app_assoc. reflexivity.
Qed.

Lemma connect_spec server cx (s s' : State) r : consistent s -> connect server cx s = (s', r) ->
  consistent s' /\ listed s' = listed s /\ (forall l, l <> label server -> connections s' !! l = connections s !! l) /\
  (is_ok r = true -> is_Some (connections s' !! label server)).
Proof using.
  intros Hs. unfold Mcp.connect, bind at 1, gets. destruct (connections s !! label server) as [c|] eqn:Ec.
  { intros [= <- <-]. split_and!; [done|done|done|by rewrite Ec]. }
  unfold bind at 1. destruct (on_world _ (spawn server) s) as [s1 r1] eqn:E1. apply on_world_spec in E1 as (Hc1 & Hl1 & Ht1).
  pose proof (Hs (label server)) as Hl. rewrite Ec, bool_decide_false in Hl by (intros [? [=]]).
  destruct r1 as [p|e].
  2: { intros [= <- <-]. split_and!; [|done|by rewrite Hc1|done]. intros l. rewrite Ht1, phase_after_snoc, Hc1, (Hs l). cbn.
       case_bool_decide as Hd; [|done]. subst l. by rewrite Ec. }
  unfold bind at 1, try. destruct (handshake _ _ server p cx s1) as [s2 r2] eqn:E2.
  destruct (handshake_spec _ _ _ _ _ _ E2) as (Hc2 & Hl2 & method & params & -> & Ht2).
  assert (Hother : forall l, l <> label server -> phase_after l (trace s2) = phase_after l (trace s)).
  { intros l Hne. destruct Ht2 as [[-> _]|[notified ->]]; [|rewrite snoc_two];
      rewrite Ht1, !phase_after_snoc, !phase_step_other by (cbn; congruence); done. }
  assert (Hhere : phase_after (label server) (trace s2) = Some Greeted /\ is_ok r2 = false \/ phase_after (label server) (trace s2) = Some Ready).
  { destruct Ht2 as [[-> Hr]|[notified ->]]; [left; split; [|done]|right; rewrite snoc_two];
      rewrite Ht1, !phase_after_snoc, Hl; cbn; by repeat (rewrite bool_decide_true by done; cbn). }
  destruct r2 as [h|e].
  - unfold bind, set_connections, modify, ret. intros [= <- <-]. cbn. split_and!; [|by rewrite Hl2, Hl1| |by rewrite lookup_insert_eq].
    + intros l. cbn [trace connections]. destruct (decide (l = label server)) as [->|Hne].
      * rewrite lookup_insert_eq, bool_decide_true by (by eexists). by destruct Hhere as [[_ [=]]|].
      * rewrite lookup_insert_ne, Hother, Hc2, Hc1 by done. apply Hs.
    + intros l Hne. rewrite lookup_insert_ne by done. by rewrite Hc2, Hc1.
  - unfold bind, throw. destruct (stop server p s2) as [s3 r3] eqn:E3. unfold stop in E3. apply on_world_spec in E3 as (Hc3 & Hl3 & Ht3). intros Hend.
    assert (s' = s3 /\ is_ok r = false) as [-> Hr] by (destruct r3; by injection Hend as <- <-). split_and!; [|by rewrite Hl3, Hl2, Hl1|by intros l _; rewrite Hc3, Hc2, Hc1|by rewrite Hr].
    intros l. rewrite Ht3, phase_after_snoc, Hc3, Hc2, Hc1. destruct (decide (l = label server)) as [->|Hne].
    + rewrite Ec, (bool_decide_false (is_Some None)) by (intros [? [=]]). destruct Hhere as [[-> _]| ->]; cbn; by rewrite bool_decide_true.
    + rewrite phase_step_other, Hother by (cbn; congruence). apply Hs.
Qed.

(** A request of the server in use. *)
Definition asks_tools (server : ResolvedServer) (event : McpEvent) : Prop :=
  exists method params, event = Requested (label server) method params /\ (method = "tools/list"%string \/ method = "tools/call"%string).

Lemma consistent_requests server new (s s' : State) : consistent s -> is_Some (connections s !! label server) ->
  connections s' = connections s -> trace s' = trace s ++ new -> Forall (asks_tools server) new -> consistent s'.
Proof using.
  intros Hs Hc Hcs Ht Hnew l. rewrite Ht, Hcs. unfold phase_after. rewrite foldl_app. change (foldl _ _ (trace s)) with (phase_after l (trace s)).
  rewrite (Hs l). clear Ht. induction Hnew as [|event new (method & params & -> & Hm) Hnew IH]; [done|]. cbn [foldl].
  destruct (decide (label server = l)) as [<-|Hne]; [|rewrite phase_step_other by done; apply IH].
  rewrite bool_decide_true in * by done. cbn. rewrite !bool_decide_true by done. apply IH.
Qed.

(** A definition that was read. *)
Definition read_well (d : RemoteToolDefinition) : Prop :=
  validate_remote_name (remote_name d) = Ok tt /\
  (exists o, rt_input_schema d = VObject o /\ Map_get "type" o = Some (VString "object")) /\
  str_len (rt_description d) <= MAX_DESCRIPTION_BYTES.

Lemma validate_schema_spec tool at_field schema v : validate_schema tool at_field schema = Ok v ->
  exists o, v = VObject o /\ Map_get "type" o = Some (VString "object").
Proof using.
  unfold validate_schema. destruct schema as [| | | | |o]; try done. destruct (Map_get "type" o ≫= Value_as_str) as [t|] eqn:E.
  - case_bool_decide; [|done]. subst t. intros [= <-]. exists o. split; [done|]. destruct (Map_get "type" o) as [[]|]; try done. by injection E as ->.
  - intros [= <-]. eexists. split; [done|]. apply Map_get_insert_eq.
Qed.

Lemma parse_tool_definition_spec v d : parse_tool_definition v = Ok d -> read_well d.
Proof using.
  unfold parse_tool_definition. destruct (Value_get v "name" ≫= Value_as_str) as [name|]; [|done].
  destruct (validate_remote_name name) as [[]|] eqn:En; [|done]. cbn [result_bind]. destruct (Value_get v "inputSchema") as [schema|]; [|done].
  destruct (validate_schema name "inputSchema" schema) as [input|] eqn:Es; [|done]. cbn [result_bind].
  destruct (match get_present v "outputSchema" with Some _ => _ | None => _ end); [|done]. cbn [result_bind]. intros [= <-].
  unfold read_well. cbn [remote_name rt_input_schema rt_description]. split_and!; [done|by eapply validate_schema_spec|].
  destruct (Value_get v "description" ≫= Value_as_str); cbn; [by apply sanitize_len|done].
Qed.

Lemma parse_tool_list_spec result l next : parse_tool_list result = Ok (l, next) -> Forall read_well l.
Proof using.
  unfold parse_tool_list. destruct (Value_get result "tools" ≫= as_array) as [items|]; [|done]. destruct (collect _ items) as [ds|] eqn:E; [|done].
  intros [= <- _]. revert ds E. induction items as [|v items IH]; intros ds; cbn [collect]; [by intros [= <-]|].
  destruct (parse_tool_definition v) as [d|] eqn:Ed; [|done]. cbn [result_map result_bind]. destruct (collect _ items) as [ds'|]; [|done]. intros [= <-].
  constructor; [by eapply parse_tool_definition_spec|by apply IH].
Qed.

Lemma list_pages_spec server p cx turns : forall offered cursor seen (s s' : State) r,
  list_pages server p cx turns offered cursor seen s = (s', r) ->
  connections s' = connections s /\ listed s' = listed s /\
  (exists new, trace s' = trace s ++ new /\ (length new <= turns)%nat /\ Forall (asks_tools server) new) /\
  (forall l, r = Ok l -> Z.of_nat (length offered) <= max_tools server -> Forall read_well offered -> Z.of_nat (length l) <= max_tools server /\ Forall read_well l).
Proof using.
  induction turns as [|turns IH]; intros offered cursor seen s s' r; cbn [list_pages].
  { intros [= <- <-]. split_and!; [done|done|exists []; rewrite app_nil_r; by split_and!|by intros l [= <-]]. }
  unfold bind at 1, call. destruct (on_world _ _ s) as [s1 r1] eqn:E1. apply on_world_spec in E1 as (Hc1 & Hl1 & Ht1).
  assert (Hasks : Forall (asks_tools server) [Requested (label server) "tools/list" (page_params cursor)]).
  { constructor; [|done]. eexists _, _. split; [done|by left]. }
  assert (Hdone : forall l, connections s1 = connections s /\ listed s1 = listed s /\
    (exists new, trace s1 = trace s ++ new /\ (length new <= S turns)%nat /\ Forall (asks_tools server) new) /\
    (forall l', @Ok Error _ l = Ok l' -> Z.of_nat (length l) <= max_tools server -> Forall read_well l -> Z.of_nat (length l') <= max_tools server /\ Forall read_well l')).
  { intros l. split_and!; [done|done|eexists; split; [done|]; split; [cbn; lia|done]|by intros l' [= <-]]. }
  destruct r1 as [result|e].
  2: { intros [= <- <-]. destruct (Hdone []) as (? & ? & ? & _). by split_and!. }
  unfold bind, lift. destruct (parse_tool_list result) as [[page next]|e] eqn:Ep.
  2: { intros [= <- <-]. destruct (Hdone []) as (? & ? & ? & _). by split_and!. }
  cbn [fst snd]. apply parse_tool_list_spec in Ep. destruct (Z.ltb_spec (max_tools server) (Z.of_nat (length (offered ++ page)))).
  { intros [= <- <-]. destruct (Hdone []) as (? & ? & ? & _). by split_and!. }
  assert (Hend : (s1, Ok (offered ++ page)) = (s', r) -> connections s' = connections s /\ listed s' = listed s /\
    (exists new, trace s' = trace s ++ new /\ (length new <= S turns)%nat /\ Forall (asks_tools server) new) /\
    (forall l, r = Ok l -> Z.of_nat (length offered) <= max_tools server -> Forall read_well offered -> Z.of_nat (length l) <= max_tools server /\ Forall read_well l)).
  { intros [= <- <-]. destruct (Hdone []) as (? & ? & ? & _). split_and!; [done..|]. intros l [= <-] _ Ho. split; [done|by apply Forall_app]. }
  destruct next as [next|]; [|done]. destruct (existsb _ seen); [done|]. intros Hrec.
  destruct (IH _ _ _ _ _ _ Hrec) as (Hc & Hl & (new & Ht & Hn & Hnew) & Hr). split_and!; [by rewrite Hc|by rewrite Hl| |].
  - exists (Requested (label server) "tools/list" (page_params cursor) :: new). rewrite Ht, Ht1, <- app_assoc. split; [done|]. split; [cbn; lia|].
    by apply (Forall_app_2 _ [_]).
  - intros l Hl' Ho Hwell. apply Hr; [done|done|by apply Forall_app].
Qed.

Lemma validate_remote_plain name : validate_remote_name name = Ok tt -> all_bytes is_plain_char name = true /\ 0 < str_len name <= MAX_TOOL_NAME_BYTES.
Proof using.
  unfold validate_remote_name. destruct (str_is_empty name) eqn:Ee; [done|]. destruct (Z.ltb_spec MAX_TOOL_NAME_BYTES (str_len name)); [done|].
  destruct (all_bytes is_plain_char name); [|done]. intros _. split; [done|]. split; [|done]. destruct name; [done|]. unfold str_len. simpl. lia.
Qed.

Lemma missing_tool_none server l : missing_tool server l = None -> Forall (fun named => exists d, d ∈ l /\ remote_name d = named) (tools server).
Proof using.
  unfold missing_tool. intros Hf. apply Forall_forall. intros named Hin%list_elem_of_In. pose proof (find_none _ _ Hf named Hin) as Hn. cbv beta in Hn.
  apply negb_false_iff, existsb_exists in Hn as (d & Hd & Heq%bool_decide_eq_true). exists d. by rewrite list_elem_of_In.
Qed.

(** A listing ends and is what the deployment allows: at most sixteen requests, whatever the server
    answers; no more tools than the deployment accepts; each of them exposed by the deployment,
    under a name that punctuates nothing, with an object for its arguments; and every tool the
    deployment names is there, or the listing is refused. *)
Theorem listings_are_bounded (server : ResolvedServer) (cx : ExecutionContext) (s s1 s' : State) (p : Process) (r : Result (list RemoteToolDefinition)) :
  0 <= max_tools server -> connect server cx s = (s1, Ok p) -> list_tools server cx s = (s', r) ->
  (exists asked, trace s' = trace s1 ++ asked /\ (length asked <= DEFAULT_MAX_LIST_PAGES)%nat /\ Forall (asks_tools server) asked) /\
  (forall l, r = Ok l ->
     Z.of_nat (length l) <= max_tools server /\
     Forall (fun d => exposes server (remote_name d) = true /\ read_well d /\ all_bytes is_plain_char (remote_name d) = true) l /\
     Forall (fun named => exists d, d ∈ l /\ remote_name d = named) (tools server)).
Proof using.
  intros Hmax Hconn. unfold Mcp.list_tools, bind at 1. rewrite Hconn. unfold bind at 1.
  destruct (list_pages server p cx DEFAULT_MAX_LIST_PAGES [] None [] s1) as [s2 r2] eqn:E2. destruct (list_pages_spec _ _ _ _ _ _ _ _ _ _ E2) as (_ & _ & Hnew & Hr).
  destruct r2 as [offered|e]; [|intros [= <- <-]; by split]. destruct (missing_tool server _) as [named|] eqn:Em; intros [= <- <-]; (split; [done|]); [done|].
  intros l [= <-]. destruct (Hr offered eq_refl) as [Hlen Hwell]; [cbn; lia|constructor|]. split; [|split].
  - pose proof (filter_length_le (fun tool => exposes server (remote_name tool)) offered). lia.
  - apply Forall_forall. intros d Hd%list_elem_of_In. apply filter_In in Hd as [Hd He]. rewrite Forall_forall in Hwell.
    apply list_elem_of_In in Hd. specialize (Hwell d Hd). split; [done|]. split; [done|]. by apply validate_remote_plain, Hwell.
  - by apply missing_tool_none.
Qed.

(** *** Operations one after the other *)

(** What an operation leaves of a consistent state. *)
Definition keeps_order {A} (m : action State Error A) : Prop := forall s s' r, consistent s -> m s = (s', r) -> consistent s'.

Lemma keeps_order_bind {A B} (m : action State Error A) (k : A -> action State Error B) : keeps_order m -> (forall a, keeps_order (k a)) -> keeps_order (bind m k).
Proof using.
  intros Hm Hk s s' r Hs. unfold bind. destruct (m s) as [s1 [a|e]] eqn:E; [intros Hr; by eapply Hk, Hr; eapply Hm|]. intros [= <- _]. by eapply Hm.
Qed.

Lemma keeps_order_pure {A} (r : Result A) : keeps_order (lift r).
Proof using. by intros s s' r' Hs [= <- _]. Qed.

Lemma keeps_order_gets {A} (f : State -> A) : keeps_order (gets f).
Proof using. by intros s s' r' Hs [= <- _]. Qed.

Lemma keeps_connect server cx : keeps_order (connect server cx).
Proof using. intros s s' r Hs Hc. by eapply connect_spec. Qed.

(** A request of a server that was connected to. *)
Lemma keeps_after_connect {B} server cx (k : Process -> action State Error B) :
  (forall p s s' r, is_Some (connections s !! label server) -> k p s = (s', r) ->
     connections s' = connections s /\ exists new, trace s' = trace s ++ new /\ Forall (asks_tools server) new) ->
  keeps_order (bind (connect server cx) k).
Proof using.
  intros Hk s s' r Hs. unfold bind. destruct (connect server cx s) as [s1 [p|e]] eqn:E; destruct (connect_spec _ _ _ _ _ Hs E) as (Hs1 & _ & _ & Hc).
  - intros Hr. destruct (Hk p s1 s' r (Hc eq_refl) Hr) as (Hcs & new & Ht & Hnew). by eapply consistent_requests; [exact Hs1|apply Hc| | |].
  - by intros [= <- _].
Qed.

Lemma keeps_list_tools server cx : keeps_order (list_tools server cx).
Proof using.
  apply keeps_after_connect. intros p s s' r _. unfold bind at 1. destruct (list_pages server p cx _ [] None [] s) as [s2 r2] eqn:E2.
  destruct (list_pages_spec _ _ _ _ _ _ _ _ _ _ E2) as (Hc & _ & (new & Ht & _ & Hnew) & _). intros Hend.
  assert (s' = s2) as ->.
  { destruct r2 as [offered|]; [|by injection Hend]. destruct (missing_tool _ _); by injection Hend. }
  split; [done|]. by exists new.
Qed.

Lemma keeps_call_tool server remote arguments cx : keeps_order (call_tool server remote arguments cx).
Proof using.
  unfold Mcp.call_tool. destruct (exposes server remote); [|by intros s s' r Hs [= <- _]]. cbn [negb]. apply keeps_after_connect.
  intros p s s' r _. unfold bind, call. destruct (on_world _ _ s) as [s2 r2] eqn:E2. apply on_world_spec in E2 as (Hc & _ & Ht). intros Hend.
  assert (s' = s2) as -> by (destruct r2; by injection Hend). split; [done|]. eexists. split; [done|]. constructor; [|done]. eexists _, _. split; [done|by right].
Qed.

Lemma keeps_client_shutdown server : keeps_order (client_shutdown server).
Proof using.
  intros s s' r Hs. unfold client_shutdown, bind at 1, gets. destruct (connections s !! label server) as [c|] eqn:Ec; [|by intros [= <- _]].
  unfold bind, set_connections, modify, stop. destruct (on_world _ _ _) as [s1 r1] eqn:E1. apply on_world_spec in E1 as (Hc & _ & Ht). intros [= <- <-] l.
  rewrite Ht, Hc. cbn [trace connections]. rewrite phase_after_snoc, (Hs l). destruct (decide (l = label server)) as [->|Hne].
  - rewrite Ec, lookup_delete_eq, bool_decide_true by (by eexists). rewrite (bool_decide_false (is_Some None)) by (intros [? [=]]). cbn. by rewrite bool_decide_true.
  - rewrite phase_step_other by (cbn; congruence). by rewrite lookup_delete_ne.
Qed.

Lemma keeps_set_listed l : keeps_order (set_listed l).
Proof using. by intros s s' r Hs [= <- _]. Qed.

Lemma keeps_list_all cx clients : forall found, keeps_order (list_all package_version proposed_version cx found clients).
Proof using.
  induction clients as [|server clients IH]; intros found; [apply (keeps_order_pure (Ok found))|]. cbn [list_all].
  apply keeps_order_bind; [apply keeps_list_tools|]. intros l. apply keeps_order_bind; [apply keeps_order_pure|]. intros found'. apply IH.
Qed.

Lemma keeps_entries clients cx : keeps_order (entries package_version proposed_version clients cx).
Proof using.
  apply keeps_order_bind; [apply keeps_order_gets|]. intros [l|]; [apply (keeps_order_pure (Ok l))|]. apply keeps_order_bind; [apply keeps_list_all|]. intros l.
  apply keeps_order_bind; [apply keeps_set_listed|]. intros _. apply (keeps_order_pure (Ok l)).
Qed.

Lemma keeps_shutdown_all clients : keeps_order (shutdown_all clients).
Proof using.
  induction clients as [|server clients IH]; [apply (keeps_order_pure (Ok tt))|]. cbn [shutdown_all]. apply keeps_order_bind; [apply keeps_client_shutdown|]. by intros _.
Qed.

(** What a deployment does with its catalogue. *)
Inductive Operation :=
  | Lists (cx : ExecutionContext)
  | Gets (name : ToolName) (cx : ExecutionContext)
  | Invokes (name : ToolName) (entry : Entry) (arguments : Value) (cx : ExecutionContext)
  | Shuts_down.

Definition operate (clients : list ResolvedServer) (o : Operation) : action State Error unit :=
  match o with
  | Lists cx => let! _ := list_specs package_version proposed_version clients cx in ret tt
  | Gets name cx => let! _ := get_tool package_version proposed_version clients name cx in ret tt
  | Invokes name entry arguments cx => let! _ := remote_invoke package_version proposed_version name entry arguments cx in ret tt
  | Shuts_down => catalog_shutdown clients
  end.

Lemma keeps_operate clients o : keeps_order (operate clients o).
Proof using.
  assert (Hret : forall A (a : A), keeps_order (ret a)) by (intros A a; apply (keeps_order_pure (Ok a))).
  destruct o as [cx|name cx|name entry arguments cx|]; cbn [operate].
  - apply keeps_order_bind; [|intros _; apply Hret]. apply keeps_order_bind; [apply keeps_entries|]. intros l. apply Hret.
  - apply keeps_order_bind; [|intros _; apply Hret]. apply keeps_order_bind; [apply keeps_entries|]. intros l. apply Hret.
  - apply keeps_order_bind; [|intros _; apply Hret]. unfold remote_invoke. apply keeps_order_bind.
    + destruct arguments; try apply Hret; by intros t t' r Ht [= <- _].
    + intros a. apply keeps_order_bind; [apply keeps_call_tool|]. intros result. apply Hret.
  - apply keeps_order_bind; [apply keeps_shutdown_all|]. intros _. apply keeps_set_listed.
Qed.

(** The operations in turn, whatever each comes to. *)
Definition operate_all (clients : list ResolvedServer) (l : list Operation) (s : State) : State := foldl (fun s o => (operate clients o s).1) s l.

Definition at_rest (w : W) : State := {| world := w; connections := ∅; listed := None; trace := [] |}.

(** Shutting a client down leaves no connection of its label, and no new one of another's. *)
Lemma client_shutdown_clears c (s s' : State) r : client_shutdown c s = (s', r) ->
  connections s' !! label c = None /\ (forall l, connections s !! l = None -> connections s' !! l = None) /\ r = Ok tt.
Proof using.
  unfold client_shutdown, bind at 1, gets. destruct (connections s !! label c) as [conn|] eqn:Ec; [|intros [= <- <-]; by split_and!].
  unfold bind, set_connections, modify, stop, on_world. intros [= <- <-]. cbn. split_and!; [apply lookup_delete_eq| |done].
  intros l Hl. by apply lookup_delete_None; right.
Qed.

Lemma shutdown_all_clears clients : forall (s s' : State) r, shutdown_all clients s = (s', r) ->
  (forall l, l ∈ map label clients -> connections s' !! l = None) /\ (forall l, connections s !! l = None -> connections s' !! l = None) /\ r = Ok tt.
Proof using.
  induction clients as [|c clients IH]; intros s s' r; cbn [shutdown_all]; [intros [= <- <-]; split_and!; [intros l Hl; by apply not_elem_of_nil in Hl|done|done]|].
  unfold bind at 1. destruct (client_shutdown c s) as [s1 r1] eqn:E1. destruct (client_shutdown_clears c s s1 r1 E1) as (Hone & Hkeep & ->).
  intros Hs. destruct (IH s1 s' r Hs) as (H1 & H2 & H3). split_and!; [|intros l Hl; by apply H2, Hkeep|done].
  intros l [->|Hl]%elem_of_cons; [by apply H2|by apply H1].
Qed.


(** *** The catalogue's names *)

(** A tool of one of some servers, under its name. *)
Definition filed (clients : list ResolvedServer) (name : ToolName) (e : Entry) : Prop :=
  entry_server e ∈ clients /\ name = tool_name (entry_server e) (remote_name (entry_definition e)) /\
  exposes (entry_server e) (remote_name (entry_definition e)) = true.

Lemma insert_all_spec clients server l : server ∈ clients -> Forall (fun d => exposes server (remote_name d) = true) l ->
  forall found found', map_Forall (filed clients) found -> insert_all server found l = Ok found' -> map_Forall (filed clients) found' /\ found ⊆ found'.
Proof using.
  intros Hin. induction l as [|d l IH]; intros Hl found found' Hf; cbn [insert_all]; [by intros [= <-]|]. apply Forall_cons in Hl as [Hd Hl].
  destruct (found !! tool_name server (remote_name d)) eqn:E; [done|]. intros Hi. apply IH in Hi as [Hf' Hsub]; [|done|].
  - split; [done|]. etrans; [by apply insert_subseteq|done].
  - by apply map_Forall_insert_2.
Qed.

Lemma list_tools_exposed server cx (s s' : State) l : list_tools server cx s = (s', Ok l) -> Forall (fun d => exposes server (remote_name d) = true) l.
Proof using.
  unfold Mcp.list_tools, bind at 1. destruct (connect server cx s) as [s1 [p|e]]; [|done]. unfold bind. destruct (list_pages _ _ _ _ _ _ _ s1) as [s2 [offered|e]]; [|done].
  destruct (missing_tool _ _); [done|]. intros [= _ <-]. apply Forall_forall. intros d Hd%list_elem_of_In. by apply filter_In in Hd as [_ ?].
Qed.

Lemma list_all_spec clients cx rest : rest ⊆ clients -> forall found (s s' : State) m, map_Forall (filed clients) found ->
  list_all package_version proposed_version cx found rest s = (s', Ok m) -> map_Forall (filed clients) m.
Proof using.
  induction rest as [|server rest IH]; intros Hsub found s s' m Hf; cbn [list_all]; [by intros [= _ <-]|].
  unfold bind at 1. destruct (Mcp.list_tools _ _ server cx s) as [s1 [l|e]] eqn:E; [|done]. unfold bind at 1, lift.
  destruct (insert_all server found l) as [found'|] eqn:Ei; [|done]. apply list_tools_exposed in E.
  destruct (insert_all_spec clients server l ltac:(set_solver) E found found' Hf Ei) as [Hf' _]. by apply IH; [set_solver|].
Qed.

(** A tool's name, and the resource a call of it claims, tell which server and which of its tools are
    meant: of every name in the catalogue the tool is one that its server's deployment exposes,
    and no other tool of any configured server, offered or not, has the name or the resource;
    whatever the server says of it, its output is untrusted, it reaches outside, is not
    read-only, and needs the permission the deployment gave its server. *)
Theorem catalogue_names_are_unambiguous (configured clients : list ResolvedServer) (cx : ExecutionContext) (s s' : State) (m : gmap ToolName Entry) (name : ToolName) (e : Entry) :
  McpCatalog_new configured = Ok clients -> Forall plain_label clients -> listed s = None ->
  entries package_version proposed_version clients cx s = (s', Ok m) -> m !! name = Some e ->
  filed clients name e /\
  (forall server remote, server ∈ clients ->
     tool_name server remote = name \/ (exists c, remote_planned_resources e VNull = Ok [c] /\ claim_resource c = resource_id server remote) ->
     server = entry_server e /\ remote = remote_name (entry_definition e)) /\
  spec_output_trust (spec_for name e) = Untrusted /\ spec_reach (spec_for name e) = ReachExternal /\ spec_read_only (spec_for name e) = false /\
  (forall arguments, exists c, remote_planned_resources e arguments = Ok [c] /\ spec_required_permissions (spec_for name e) = [claim_action c] /\
     claim_action c = permission (entry_server e)).
Proof using.
  intros Hnew Hplain Hlist He Hm. apply McpCatalog_new_distinct in Hnew as [-> Hnd]. unfold entries, bind at 1, gets in He. rewrite Hlist in He.
  unfold bind at 1 in He. destruct (list_all _ _ cx ∅ configured s) as [s1 [l|er]] eqn:E; [|done]. injection He as _ <-.
  assert (Hf : filed configured name e) by (eapply (list_all_spec configured cx configured); [done| |exact E|exact Hm]; apply map_Forall_empty).
  destruct Hf as (Hin & Hname & Hexp). split; [by split_and!|]. split; [|split; [done|]; split; [done|]; split; [done|]; intros a; eexists; by split_and!].
  assert (Hsame : forall server, server ∈ configured -> label server = label (entry_server e) -> server = entry_server e).
  { intros server Hs Hl. apply list_elem_of_lookup in Hs as [i Hi], Hin as [j Hj].
    assert (i = j) as ->; [|congruence]. eapply (NoDup_lookup (map label configured)); [done| |].
    - change (map label configured) with (label <$> configured). rewrite list_lookup_fmap, Hi. reflexivity.
    - change (map label configured) with (label <$> configured). rewrite list_lookup_fmap, Hj. cbn. by rewrite Hl. }
  rewrite Forall_forall in Hplain. intros server remote Hs [Ht|(c & Hc & Hr)].
  - rewrite Hname in Ht. apply tool_name_inj in Ht as [Hl Hr]; [|by apply Hplain|by apply Hplain]. split; [by apply Hsame|done].
  - injection Hc as <-. cbn in Hr. apply resource_id_inj in Hr as [Hl Hr]; [|by apply Hplain|by apply Hplain]. split; [by apply Hsame|done].
Qed.

Lemma connect_trace server cx (s s' : State) r : connect server cx s = (s', r) ->
  exists new, trace s' = trace s ++ new /\ Forall (fun e => event_label e = label server /\ forall l params, e <> Requested l "tools/call" params) new.
Proof using.
  unfold Mcp.connect, bind at 1, gets. destruct (connections s !! label server) as [c|]; [intros [= <- <-]; exists []; by rewrite app_nil_r|].
  unfold bind at 1. destruct (on_world _ (spawn server) s) as [s1 r1] eqn:E1. apply on_world_spec in E1 as (_ & _ & Ht1).
  destruct r1 as [p|e]; [|intros [= <- <-]; eexists; split; [exact Ht1|by repeat constructor]].
  unfold bind at 1, try. destruct (handshake _ _ server p cx s1) as [s2 r2] eqn:E2. destruct (handshake_spec _ _ _ _ _ _ E2) as (_ & _ & method & params & -> & Ht2).
  assert (Hnew : exists new, trace s2 = trace s ++ new /\ Forall (fun e => event_label e = label server /\ forall l params, e <> Requested l "tools/call" params) new).
  { destruct Ht2 as [[-> _]|[notified ->]]; rewrite Ht1, <- app_assoc; eexists; (split; [reflexivity|]); by repeat constructor. }
  destruct Hnew as (new & Ht & Hnew). destruct r2 as [h|e].
  - unfold bind, set_connections, modify. intros [= <- <-]. by exists new.
  - unfold bind, throw. destruct (stop server p s2) as [s3 r3] eqn:E3. unfold stop in E3. apply on_world_spec in E3 as (_ & _ & Ht3). intros Hend.
    assert (s' = s3) as -> by (destruct r3; by injection Hend). rewrite Ht3, Ht, <- app_assoc. eexists. split; [reflexivity|].
    apply Forall_app. split; [done|by repeat constructor].
Qed.

(** Invoking a remote tool touches its server alone and calls that one tool at most, by its own name
    and with the arguments that were given; a tool that the deployment does not expose, or
    arguments that are no object, touch nothing. *)
Theorem remote_tools_call_what_they_name (name : ToolName) (e : Entry) (args : Value) (cx : ExecutionContext) (s s' : State) (r : Result ToolOutcome) :
  remote_invoke package_version proposed_version name e args cx s = (s', r) ->
  let calls := json_object [("name", VString (remote_name (entry_definition e))); ("arguments", match args with VNull => VObject [] | a => a end)]%string in
  (exists new, trace s' = trace s ++ new /\
     Forall (fun event => event_label event = label (entry_server e) /\
                          forall l params, event = Requested l "tools/call" params -> params = calls) new) /\
  (exposes (entry_server e) (remote_name (entry_definition e)) = false \/ (args <> VNull /\ forall o, args <> VObject o) -> s' = s /\ is_ok r = false) /\
  (forall o, r = Ok o -> outcome_trust o = Untrusted).
Proof using.
  cbv zeta. unfold remote_invoke, bind at 1. set (given := match args with VNull => ret (VObject []) | VObject o => ret (VObject o) | _ => _ end).
  assert (Hg : (exists o, (args = VNull /\ o = [] \/ args = VObject o) /\ given s = (s, Ok (VObject o))) \/
               ((args <> VNull /\ forall o, args <> VObject o) /\ exists er, given s = (s, Err er))).
  { unfold given. destruct args; try (right; split; [by split|by eexists]); left; eexists; (split; [first [by left|by right]|reflexivity]). }
  destruct Hg as [(o & Ho & ->)|[Hno [er ->]]].
  2: { intros [= <- <-]. split_and!; [exists []; by rewrite app_nil_r|done|done]. }
  assert (Hargs : match args with VNull => VObject [] | a => a end = VObject o) by (by destruct Ho as [[-> ->]| ->]). rewrite Hargs.
  assert (Hyes : args <> VNull /\ (forall o, args <> VObject o) -> False) by (intros [H1 H2]; destruct Ho as [[-> _]| ->]; [done|by eapply H2]).
  unfold bind at 1. destruct (call_tool _ _ _ cx s) as [s1 r1] eqn:E. intros Hend.
  assert (Hs : s' = s1 /\ is_ok r = is_ok r1) by (destruct r1; by injection Hend as <- <-). destruct Hs as [-> Hok].
  assert (Ht : forall o, r = Ok o -> outcome_trust o = Untrusted) by (intros o' Hr; rewrite Hr in Hend; destruct r1; by inversion Hend).
  unfold Mcp.call_tool in E. destruct (exposes (entry_server e) (remote_name (entry_definition e))) eqn:Ex; cbn [negb] in E.
  2: { injection E as <- <-. split_and!; [exists []; by rewrite app_nil_r|done|done]. }
  unfold bind at 1 in E. destruct (connect (entry_server e) cx s) as [s2 r2] eqn:E2. apply connect_trace in E2 as (new & Htr & Hnew).
  assert (Hnew' : Forall (fun event => event_label event = label (entry_server e) /\ forall l params, event = Requested l "tools/call" params ->
    params = json_object [("name", VString (remote_name (entry_definition e))); ("arguments", VObject o)]%string) new).
  { eapply Forall_impl; [exact Hnew|]. intros event [Hl Hne]. split; [done|]. intros l params He. by destruct (Hne l params). }
  destruct r2 as [p|er]; [|injection E as <- <-; split_and!; [by exists new|intros [|Hx]; [done|by destruct (Hyes Hx)]|done]].
  unfold bind, call in E. destruct (on_world _ _ s2) as [s3 r3] eqn:E3. apply on_world_spec in E3 as (_ & _ & Ht3).
  assert (s1 = s3) as -> by (destruct r3; by injection E). split_and!; [|intros [|Hx]; [done|by destruct (Hyes Hx)]|done].
  rewrite Ht3, Htr, <- app_assoc. eexists. split; [reflexivity|]. apply Forall_app. split; [done|]. constructor; [|done]. split; [done|]. by intros l params [= _ <-].
Qed.
End Trace.

(** ** A concrete server *)

Module Demo.

Definition settings (label : string) : ServerSettings :=
  {| set_label := label; set_command := "server"; set_args := ["--stdio"%string]; set_env := [("MODE", "safe")%string]; set_cwd := None; set_search_path := None;
     set_permission := None; set_call_timeout_ms := None; set_startup_timeout_ms := Some 0; set_max_frame_bytes := None; set_max_result_bytes := Some 10;
     set_max_tools := Some 2; set_tools := ["read"%string] |}.

Definition resolved (label : string) : Result ResolvedServer := resolve_at (fun _ => "error"%string) (settings label) "/work" DEFAULT_SETTINGS_PATH.

Definition server (l : string) : ResolvedServer :=
  {| label := l; command := "server"; args := ["--stdio"%string]; env := [("MODE", "safe")%string]; cwd := Some "/work"%string;
     srv_search_path := ["/usr/bin"; "/bin"; "/usr/local/bin"]%string; permission := DEFAULT_PERMISSION; call_timeout := DEFAULT_CALL_TIMEOUT;
     startup_timeout := DEFAULT_STARTUP_TIMEOUT; max_frame_bytes := DEFAULT_MAX_FRAME_BYTES; max_result_bytes := 10; max_tools := 2; tools := ["read"%string];
     settings_path := DEFAULT_SETTINGS_PATH |}.

Lemma files_resolved : resolve_at (fun _ => "error"%string) (settings "files") "/work" DEFAULT_SETTINGS_PATH = Ok (server "files").
Proof. vm_compute. reflexivity. Qed.

Example a_dotted_label_is_refused : is_ok (resolved "files.read") = false.
Proof. vm_compute. reflexivity. Qed.

Lemma servers_are_resolved_safely_witness : plain_label (server "files") /\ 0 < str_len (label (server "files")).
Proof.
  destruct (servers_are_resolved_safely (fun _ => "error"%string) (settings "files") "/work" DEFAULT_SETTINGS_PATH (server "files") files_resolved) as (H1 & _ & H2 & _).
  by split.
Defined.

Lemma sanitized_text_is_tame_witness : 0 <= 3 /\ str_len (sanitize ("a" +:+ String (chr 27) "[2J") 3) <= 3 /\ sanitize ("a" +:+ String (chr 27) "[2J") 3 = "a ["%string.
Proof. split; [lia|]. split; [apply sanitized_text_is_tame; lia|vm_compute; reflexivity]. Defined.

Definition text_block (text : string) : Value := json_object [("type", VString "text"); ("text", VString text)]%string.

Lemma results_are_bounded_witness : str_len (flatten_content [text_block "hello"; text_block "world!"] 10).1 <= 10 + 2 + str_len TRUNCATED.
Proof. apply (results_are_bounded [text_block "hello"; text_block "world!"] 10). lia. Defined.

(** More than the limit is kept: the line feed between two blocks is not counted against it once it
    is reached, nor is the note. *)
Lemma the_limit_is_exceeded : exists content, 10 + str_len TRUNCATED < str_len (flatten_content content 10).1.
Proof. exists [text_block "0123456789"; text_block ""; text_block ""; text_block "x"]. vm_compute. reflexivity. Qed.

(** Two servers that offer the same tool; the world counts what was started. *)
Definition tool (name : string) : Value := json_object [("name", VString name); ("inputSchema", VObject [])]%string.

#[local] Instance host : McpHost nat :=
  {| Process := string;
     spawn server w := (S w, Ok (label server));
     session_call p method params budget cx w :=
       (w, if bool_decide (method = "initialize"%string) then
             Ok (json_object [("protocolVersion", VString DEFAULT_PROTOCOL_VERSION); ("capabilities", json_object [("tools"%string, VObject [])])]%string)
           else if bool_decide (method = "tools/list"%string) then
             Ok (json_object [("tools", VArray [tool "read"; tool "erase"]); ("nextCursor", if bool_decide (p = "again"%string) then VString "more" else VNull)]%string)
           else Ok (json_object [("content"%string, VArray [text_block "done"])]));
     session_notify p method params w := (w, Ok tt);
     process_shutdown p w := w |}.

#[local] Instance json : Json :=
  {| from_str text := Err (BoxForeign "expected value" None); to_string v := "{}";
     undecodable t := {| is_connect := false; is_timeout := false; is_body := false; reqwest_display := "error decoding" |}; debug_part p := "part" |}.

Definition cx : ExecutionContext :=
  {| correlation := "c"; principal := None; deadline := None; cancellation := false; attributes := [] |}.

Definition idle : @McpState nat host := at_rest 0%nat.
Definition both : list ResolvedServer := [server "files"; server "notes"].
Definition connected := connect "1" DEFAULT_PROTOCOL_VERSION (server "files") cx idle.
Definition listing := list_tools "1" DEFAULT_PROTOCOL_VERSION (server "files") cx idle.
Definition catalogue := entries "1" DEFAULT_PROTOCOL_VERSION both cx idle.
Definition read_tool (l : string) : Entry :=
  {| entry_server := server l;
     entry_definition := {| remote_name := "read"; rt_description := EmptyString; rt_input_schema := json_object [("type", VString "object")]%string; rt_output_schema := None |} |}.
Definition read_files : Entry := read_tool "files".
Definition invoked := remote_invoke "1" DEFAULT_PROTOCOL_VERSION "mcp.files.read" read_files VNull cx idle.

Lemma connected_ok : connected = (connected.1, Ok "files"%string).
Proof. vm_compute. reflexivity. Qed.

Lemma listings_are_bounded_witness : exists l, listing.2 = Ok l /\ Z.of_nat (length l) <= 2.
Proof.
  destruct (listings_are_bounded "1" DEFAULT_PROTOCOL_VERSION (server "files") cx idle connected.1 listing.1 "files" listing.2 ltac:(done) connected_ok (surjective_pairing _)) as [_ H].
  assert (Hl : listing.2 = Ok [entry_definition read_files]) by (vm_compute; reflexivity). eexists. split; [exact Hl|]. by apply (H _ Hl).
Defined.


(** Both are started, greeted and listed before the call. *)
Example events_in_order :
  trace (operate_all "1" DEFAULT_PROTOCOL_VERSION [server "files"] [Lists cx; Invokes "mcp.files.read" read_files VNull cx; Shuts_down] idle) =
  [Started "files" true; Requested "files" "initialize" (initialize_params "1" DEFAULT_PROTOCOL_VERSION CLIENT_NAME); Notified "files" "notifications/initialized";
   Requested "files" "tools/list" (VObject []); Requested "files" "tools/call" (json_object [("name", VString "read"); ("arguments", VObject [])]%string); Stopped "files"].
Proof. vm_compute. reflexivity. Qed.

Definition found : gmap ToolName Entry := <["mcp.notes.read"%string := read_tool "notes"]> {["mcp.files.read"%string := read_files]}.

Lemma catalogue_found : catalogue.2 = Ok found.
Proof. vm_compute. reflexivity. Qed.

Lemma catalogue_names_are_unambiguous_witness : filed both "mcp.notes.read" (read_tool "notes") /\
  (forall s remote, s ∈ both -> tool_name s remote = "mcp.notes.read"%string -> s = server "notes" /\ remote = "read"%string).
Proof.
  assert (He : catalogue = (catalogue.1, Ok found)) by (rewrite <- catalogue_found; apply surjective_pairing).
  destruct (catalogue_names_are_unambiguous "1" DEFAULT_PROTOCOL_VERSION both both cx idle catalogue.1 found "mcp.notes.read" (read_tool "notes")) as (Hf & Hu & _);
    [reflexivity|by repeat constructor|reflexivity|exact He|reflexivity|].
  split; [exact Hf|]. intros s remote Hs Hn. apply (Hu s remote Hs). by left.
Defined.

Lemma remote_tools_call_what_they_name_witness : exists o, invoked.2 = Ok o /\ outcome_trust o = Untrusted.
Proof.
  destruct (remote_tools_call_what_they_name "1" DEFAULT_PROTOCOL_VERSION "mcp.files.read" read_files VNull cx idle invoked.1 invoked.2 (surjective_pairing _)) as (_ & _ & H).
  assert (Ho : is_ok invoked.2 = true) by (vm_compute; reflexivity). destruct invoked.2 as [o|]; [|done]. exists o. split; [done|]. by apply H.
Defined.

(** A server that answers every page with the same cursor is asked twice. *)
Example the_same_cursor_ends_a_listing :
  length (trace (list_tools "1" DEFAULT_PROTOCOL_VERSION (server "again") cx idle).1) = 5%nat.
Proof. vm_compute. reflexivity. Qed.

End Demo.
