(* ===== verification/McpSession.v ===== *)
(** * McpSession: one conversation with a tool server ([crates/mcp/src/session.rs])

    A session is a reader, which takes frames off a stream of bytes, and any number of calls, each
    a request with an id and a wait for its answer.  They run at once, so the model is a state
    machine: a [Session] holds what is shared, where every call is and where the reader is, and a
    [Label] is one atomic action of one of them.  Other actions may come between any two. *)

From S2P Require Import Prelude Base Text Providers Mcp.

(** ** Frames *)

(** What the source gives when it is read: bytes, none at its end, or a failure. *)
Abbreviation Read := (result string string).

Inductive FrameRead := A_frame (line : string) | No_frame | Refused (reason : string).

Definition too_large (max_bytes : Z) : FrameRead := Refused ("an MCP server sent a frame larger than the " +:+ fmt_u max_bytes +:+ "-byte limit").

Definition end_of (line : string) : FrameRead := if str_is_empty line then No_frame else A_frame line.

(** The loop of [read_frame]: the frame, what of the buffer is left, and the source. *)
Fixpoint read_more (max_bytes : Z) (line : string) (source : list Read) : FrameRead * string * list Read :=
  match source with
  | [] => (end_of line, EmptyString, [])
  | Err error :: source => (Refused ("reading from an MCP server failed: " +:+ error), EmptyString, source)
  | Ok EmptyString :: source => (end_of line, EmptyString, source)
  | Ok available :: source =>
      match cut_line available with
      | Some (before, rest) =>
          if max_bytes <? str_len line + str_len before then (too_large max_bytes, available, source)
          else (A_frame (strip_carriage_return (line +:+ before)), rest, source)
      | None =>
          if max_bytes <? str_len line + str_len available then (too_large max_bytes, available, source)
          else read_more max_bytes (line +:+ available) source
      end
  end.

(** [read_frame], from a buffer that may hold bytes. *)
Definition read_frame (max_bytes : Z) (buffer : string) (source : list Read) : FrameRead * string * list Read :=
  read_more max_bytes EmptyString (if str_is_empty buffer then source else Ok buffer :: source).

(** The frames one after the other, [n] of them at most, and how it ended. *)
Fixpoint read_frames (n : nat) (max_bytes : Z) (buffer : string) (source : list Read) : list string * option FrameRead :=
  match n with
  | O => ([], None)
  | S n =>
      match read_frame max_bytes buffer source with
      | (A_frame line, buffer, source) => let (lines, last) := read_frames n max_bytes buffer source in (line :: lines, last)
      | (last, _, _) => ([], Some last)
      end
  end.

(** ** The session *)

Abbreviation CallId := nat.
Abbreviation Answer := (Result Value).

Inductive Pending := Open (waiting : gset RequestId) | Closed (reason : string).

(** What was put on the stream to the server. *)
Inductive Written :=
  | Wrote_request (id : RequestId) (method : string) (params : Value)
  | Wrote_refusal (id : RequestId) (method : string)
  | Wrote_cancelled (id : RequestId).

(** The frame that is written. *)
Definition frame_of (w : Written) : Value :=
  match w with
  | Wrote_request id method params => request id method params
  | Wrote_refusal id method => method_not_found id method
  | Wrote_cancelled id => notification "notifications/cancelled" (json_object [("requestId"%string, VNumber (NInt id))])
  end.

(** Where a call is: about to register, to write, waiting, to forget its id before it fails, to tell
    the server of it, and done. *)
Inductive Phase :=
  | Registers (id : RequestId) (method : string) (params : Value)
  | Writes (id : RequestId) (method : string) (params : Value)
  | Waits (id : RequestId)
  | Forgets (id : RequestId) (error : Error) (tells : bool)
  | Tells (id : RequestId) (error : Error)
  | Ends (id : RequestId) (outcome : Answer).

(** Where the reader is: at the stream, with an answer in hand, about to refuse a server's request,
    at its end, and gone. *)
Inductive Reader :=
  | Reads
  | Hands (id : RequestId) (answer : Answer)
  | Refuses (id : RequestId) (method : string)
  | Stops (reason : string)
  | Gone.

(** The answer channels are [answers]: what was sent to the call with an id.  [received] are the
    frames that were read. *)
Record Session := {
  label : string;
  calls_made : Z;
  pending : Pending;
  answers : gmap RequestId Answer;
  calls : gmap CallId Phase;
  reader : Reader;
  aborted : bool;
  received : list Value;
  written : list Written;
}.

(** [Session::start] *)
Definition start (name : string) : Session :=
  {| label := name; calls_made := 0; pending := Open ∅; answers := ∅; calls := ∅; reader := Reads; aborted := false; received := []; written := [] |}.

Definition with_call (k : CallId) (phase : Phase) (s : Session) : Session :=
  {| label := label s; calls_made := calls_made s; pending := pending s; answers := answers s; calls := <[k := phase]> (calls s); reader := reader s;
     aborted := aborted s; received := received s; written := written s |}.
Definition with_pending (p : Pending) (s : Session) : Session :=
  {| label := label s; calls_made := calls_made s; pending := p; answers := answers s; calls := calls s; reader := reader s;
     aborted := aborted s; received := received s; written := written s |}.
Definition with_reader (r : Reader) (s : Session) : Session :=
  {| label := label s; calls_made := calls_made s; pending := pending s; answers := answers s; calls := calls s; reader := r;
     aborted := aborted s; received := received s; written := written s |}.
Definition writes (w : Written) (s : Session) : Session :=
  {| label := label s; calls_made := calls_made s; pending := pending s; answers := answers s; calls := calls s; reader := reader s;
     aborted := aborted s; received := received s; written := written s ++ [w] |}.
Definition sends (id : RequestId) (a : Answer) (s : Session) : Session :=
  {| label := label s; calls_made := calls_made s; pending := pending s; answers := <[id := a]> (answers s); calls := calls s; reader := reader s;
     aborted := aborted s; received := received s; written := written s |}.
Definition receives (frame : Value) (s : Session) : Session :=
  {| label := label s; calls_made := calls_made s; pending := pending s; answers := answers s; calls := calls s; reader := reader s;
     aborted := aborted s; received := received s ++ [frame]; written := written s |}.

(** The first id is 1, and the counter wraps. *)
Definition next_id (s : Session) : RequestId := wrap64 (1 + calls_made s).

(** [Shared::register] *)
Definition register (id : RequestId) (s : Session) : Session * result Error unit :=
  match pending s with
  | Closed reason => (s, Err (Error_other reason))
  | Open waiting => (with_pending (Open ({[id]} ∪ waiting)) s, Ok tt)
  end.

(** [Shared::forget] *)
Definition forget (id : RequestId) (s : Session) : Session :=
  match pending s with Open waiting => with_pending (Open (waiting ∖ {[id]})) s | Closed _ => s end.

(** [Shared::take]: whether the id was waiting. *)
Definition take (id : RequestId) (s : Session) : Session * bool :=
  match pending s with Open waiting => (with_pending (Open (waiting ∖ {[id]})) s, bool_decide (id ∈ waiting)) | Closed _ => (s, false) end.

(** [Shared::close]: every call that waits is answered with the reason, the first time. *)
Definition close (reason : string) (s : Session) : Session :=
  match pending s with
  | Open waiting =>
      {| label := label s; calls_made := calls_made s; pending := Closed reason;
         answers := set_to_map (fun id => (id, Err (Error_other reason) : Answer)) waiting ∪ answers s; calls := calls s; reader := reader s;
         aborted := aborted s; received := received s; written := written s |}
  | Closed _ => s
  end.

(** What a response is to its call. *)
Definition answer_of (label : string) (result : option Value) (error : option RpcError) : Answer :=
  match error with
  | Some error => Err (Error_other ("MCP server `" +:+ label +:+ "` refused the call: " +:+ RpcError_display error))
  | None => match result with Some result => Ok result | None => Err (Error_other "unreachable") end
  end.

(** What the reader does with a frame. *)
Definition on_frame (frame : Value) (s : Session) : Session :=
  let s := receives frame s in
  match classify frame with
  | Ok (Incoming_Response id result error) =>
      let (s, waiting) := take id s in
      if waiting then with_reader (Hands id (answer_of (label s) result error)) s else s
  | Ok (Incoming_Request id method) => with_reader (Refuses id method) s
  | Ok (Incoming_Notification _) | Err _ => s
  end.

Inductive Label :=
  | Calls (k : CallId) (method : string) (params : Value)
  | Goes_on (k : CallId)
  | Writes_request (k : CallId) (written : result Error unit)
  | Sees (k : CallId) (cancelled overdue : bool) (budget : Duration)
  | Tells_server (k : CallId) (written : bool)
  | Frame (frame : Value)
  | Hands_over
  | Writes_refusal (written : result string unit)
  | Source_ends (reason : string)
  | Reader_closes
  | Aborts
  | Closes.

(** One action, where it can be taken.  A reader that was aborted may still come some way, to the
    next point it is suspended at, or not: its actions are never owed.  A call whose channel is
    dropped without an answer would report that the server stopped answering; the channels are
    held by [pending] and by the reader, and are not dropped while a call waits. *)
Definition step (l : Label) (s : Session) : option Session :=
  match l with
  | Calls k method params =>
      match calls s !! k with
      | Some _ => None
      | None =>
          let id := next_id s in
          Some (with_call k (Registers id method params)
                  {| label := label s; calls_made := calls_made s + 1; pending := pending s; answers := answers s; calls := calls s; reader := reader s;
                     aborted := aborted s; received := received s; written := written s |})
      end
  | Goes_on k =>
      match calls s !! k with
      | Some (Registers id method params) =>
          let (s, registered) := register id s in
          Some (with_call k (match registered with Ok _ => Writes id method params | Err error => Ends id (Err error) end) s)
      | Some (Forgets id error tells) => Some (with_call k (if tells then Tells id error else Ends id (Err error)) (forget id s))
      | _ => None
      end
  | Writes_request k result =>
      match calls s !! k with
      | Some (Writes id method params) =>
          match result with
          | Ok _ => Some (with_call k (Waits id) (writes (Wrote_request id method params) s))
          | Err error => Some (with_call k (Forgets id error false) s)
          end
      | _ => None
      end
  | Sees k cancelled overdue budget =>
      match calls s !! k with
      | Some (Waits id) =>
          if cancelled then Some (with_call k (Forgets id Cancelled true) s)
          else match answers s !! id with
               | Some (Ok value) => Some (with_call k (Ends id (Ok value)) s)
               | Some (Err error) => Some (with_call k (Forgets id error true) s)
               | None => if overdue then Some (with_call k (Forgets id (Timeout budget) true) s) else None
               end
      | _ => None
      end
  | Tells_server k result =>
      match calls s !! k with
      | Some (Tells id error) => Some (with_call k (Ends id (Err error)) (if result then writes (Wrote_cancelled id) s else s))
      | _ => None
      end
  | Frame frame => match reader s with Reads => Some (on_frame frame s) | _ => None end
  | Hands_over => match reader s with Hands id answer => Some (with_reader Reads (sends id answer s)) | _ => None end
  | Writes_refusal result =>
      match reader s with
      | Refuses id method =>
          match result with
          | Ok _ => Some (with_reader Reads (writes (Wrote_refusal id method) s))
          | Err error => Some (with_reader (Stops ("could not answer MCP server `" +:+ label s +:+ "`: " +:+ error)) s)
          end
      | _ => None
      end
  | Source_ends reason => match reader s with Reads => Some (with_reader (Stops reason) s) | _ => None end
  | Reader_closes => match reader s with Stops reason => Some (with_reader Gone (close reason s)) | _ => None end
  | Aborts =>
      Some {| label := label s; calls_made := calls_made s; pending := pending s; answers := answers s; calls := calls s; reader := reader s;
              aborted := true; received := received s; written := written s |}
  | Closes => if aborted s then Some (close ("the session with MCP server `" +:+ label s +:+ "` was closed") s) else None
  end.

Fixpoint run (l : list Label) (s : Session) : option Session :=
  match l with [] => Some s | a :: l => s ← step a s; run l s end.

(** ** What holds of a session *)

Definition id_of (phase : Phase) : RequestId :=
  match phase with Registers id _ _ | Writes id _ _ | Waits id | Forgets id _ _ | Tells id _ | Ends id _ => id end.

Definition unregistered (phase : Phase) : bool := match phase with Registers _ _ _ => true | _ => false end.

Definition waiting_ids (s : Session) : gset RequestId := match pending s with Open waiting => waiting | Closed _ => ∅ end.

Definition in_hand (s : Session) (id : RequestId) : Prop := exists a, reader s = Hands id a.

(** An answer that a frame with the id carries. *)
Definition from_frame (s : Session) (id : RequestId) (a : Answer) : Prop :=
  exists frame result error, frame ∈ received s /\ classify frame = Ok (Incoming_Response id result error) /\ a = answer_of (label s) result error.

Definition asked (s : Session) : list (RequestId * string) :=
  omap (fun frame => match classify frame with Ok (Incoming_Request id method) => Some (id, method) | _ => None end) (received s).
Definition refused (s : Session) : list (RequestId * string) :=
  omap (fun w => match w with Wrote_refusal id method => Some (id, method) | _ => None end) (written s).

(** An id is in one place: with the calls that wait, in the reader's hand, or answered. *)
Record invariant (s : Session) : Prop := {
  inv_made : 0 <= calls_made s;
  inv_ids : forall k phase, calls s !! k = Some phase -> 1 <= id_of phase <= calls_made s;
  inv_unique : forall k k' phase phase', calls s !! k = Some phase -> calls s !! k' = Some phase' -> id_of phase = id_of phase' -> k = k';
  inv_owner : forall id, id ∈ waiting_ids s \/ is_Some (answers s !! id) \/ in_hand s id ->
    exists k phase, calls s !! k = Some phase /\ id_of phase = id /\ unregistered phase = false;
  inv_waiting : forall id, id ∈ waiting_ids s -> answers s !! id = None /\ ~ in_hand s id;
  inv_hand : forall id a, reader s = Hands id a -> answers s !! id = None /\ from_frame s id a;
  inv_answers : forall id a, answers s !! id = Some a -> from_frame s id a \/ exists reason, pending s = Closed reason /\ a = Err (Error_other reason);
  inv_waits : forall k id, (exists method params, calls s !! k = Some (Writes id method params)) \/ calls s !! k = Some (Waits id) ->
    id ∈ waiting_ids s \/ is_Some (answers s !! id) \/ in_hand s id;
  inv_ends : forall k id v, calls s !! k = Some (Ends id (Ok v)) -> answers s !! id = Some (Ok v);
  inv_refused : match reader s with
                | Reads | Hands _ _ => asked s = refused s
                | Refuses id method => asked s = refused s ++ [(id, method)]
                | Stops _ | Gone => refused s `prefix_of` asked s /\ (length (asked s) <= S (length (refused s)))%nat
                end;
}.

Lemma start_invariant name : invariant (start name).
Proof.
  split; cbn; try done; unfold waiting_ids, in_hand; cbn.
  - intros id [H|[[a H]|[a [=]]]]; [set_solver|by rewrite lookup_empty in H].
  - intros k id [(method & params & H)|H]; by rewrite lookup_empty in H.
Qed.

(** A call goes on to a phase with the same id. *)
Lemma with_call_invariant s k old new : invariant s -> calls s !! k = Some old -> id_of new = id_of old -> unregistered new = false ->
  (forall id, (exists method params, new = Writes id method params) \/ new = Waits id -> id ∈ waiting_ids s \/ is_Some (answers s !! id) \/ in_hand s id) ->
  (forall id v, new = Ends id (Ok v) -> answers s !! id = Some (Ok v)) -> invariant (with_call k new s).
Proof.
  intros I Hk Hid Hreg Hw He. split; cbn [with_call calls_made calls answers pending reader label received written aborted];
    change (waiting_ids (with_call k new s)) with (waiting_ids s); change (in_hand (with_call k new s)) with (in_hand s).
  - apply (inv_made s I).
  - intros k' ph [[<- <-]|[_ H]]%lookup_insert_Some; [rewrite Hid|]; by eapply inv_ids.
  - intros k1 k2 p1 p2 [[<- <-]|[N1 H1]]%lookup_insert_Some [[<- <-]|[N2 H2]]%lookup_insert_Some Heq; [done| | |by eapply (inv_unique s I)].
    + eapply (inv_unique s I); [exact Hk|exact H2|congruence].
    + eapply (inv_unique s I); [exact H1|exact Hk|congruence].
  - intros id Hin. destruct (inv_owner s I id Hin) as (k' & ph & H & Hi & Hr). destruct (decide (k = k')) as [<-|Hne].
    + exists k, new. rewrite lookup_insert_eq. split_and!; [done|congruence|done].
    + exists k', ph. by rewrite lookup_insert_ne.
  - apply (inv_waiting s I).
  - apply (inv_hand s I).
  - apply (inv_answers s I).
  - intros k' id [(m & p & H)|H]; apply lookup_insert_Some in H as [[<- H]|[_ H]]; [apply Hw; left; by eexists _, _| |apply Hw; by right|];
      eapply (inv_waits s I); [left; by eexists _, _|by right].
  - intros k' id v H. apply lookup_insert_Some in H as [[<- H]|[_ H]]; [by apply He|by eapply (inv_ends s I)].
  - apply (inv_refused s I).
Qed.

(** An id that no call waits with is forgotten. *)
Lemma forget_invariant s id : invariant s ->
  (forall k phase, calls s !! k = Some phase -> id_of phase = id -> match phase with Writes _ _ _ | Waits _ => False | _ => True end) -> invariant (forget id s).
Proof.
  intros I Hno. unfold forget. destruct (pending s) as [w|reason] eqn:Ep; [|done].
  assert (Hw : waiting_ids s = w) by (unfold waiting_ids; by rewrite Ep).
  split; cbn [with_pending calls_made calls answers pending reader label received written aborted];
    change (waiting_ids (with_pending (Open (w ∖ {[id]})) s)) with (w ∖ {[id]}); change (in_hand (with_pending (Open (w ∖ {[id]})) s)) with (in_hand s).
  - apply (inv_made s I).
  - apply (inv_ids s I).
  - apply (inv_unique s I).
  - intros i Hin. apply (inv_owner s I). rewrite Hw. set_solver.
  - intros i Hin. apply (inv_waiting s I). rewrite Hw. set_solver.
  - apply (inv_hand s I).
  - intros i a Ha. destruct (inv_answers s I i a Ha) as [|(reason & Hr & _)]; [by left|]. by rewrite Ep in Hr.
  - intros k i H. destruct (inv_waits s I k i H) as [Hi|Hi]; [|by right]. left. rewrite Hw in Hi. apply elem_of_difference. split; [done|].
    intros ->%elem_of_singleton. destruct H as [(m & p & H)|H]; by apply (Hno k _ H).
  - apply (inv_ends s I).
  - apply (inv_refused s I).
Qed.

(** Another frame, or more written, changes nothing else. *)
Lemma from_frame_receives s frame id a : from_frame s id a -> from_frame (receives frame s) id a.
Proof. intros (f & r & e & Hf & H). exists f, r, e. cbn. split; [set_solver|done]. Qed.

Lemma asked_receives frame s : asked (receives frame s) =
  asked s ++ match classify frame with Ok (Incoming_Request id method) => [(id, method)] | _ => [] end.
Proof. unfold asked. cbn [receives received]. rewrite omap_app. cbn. by destruct (classify frame) as [[]|]. Qed.

Lemma refused_writes w s : refused (writes w s) = refused s ++ match w with Wrote_refusal id method => [(id, method)] | _ => [] end.
Proof. unfold refused. cbn [writes written]. rewrite omap_app. by destruct w. Qed.

Lemma writes_invariant s w : invariant s -> (forall id method, w <> Wrote_refusal id method) -> invariant (writes w s).
Proof.
  intros I Hw. split; try apply I. change (asked (writes w s)) with (asked s). cbn [writes reader]. rewrite refused_writes.
  replace (match w with Wrote_refusal id method => [(id, method)] | _ => [] end) with (@nil (RequestId * string)) by (destruct w; try done; by edestruct Hw).
  rewrite app_nil_r. apply (inv_refused s I).
Qed.

Lemma close_invariant s reason : invariant s -> invariant (close reason s).
Proof.
  intros I. unfold close. destruct (pending s) as [w|r] eqn:Ep; [|done]. assert (Hw : waiting_ids s = w) by (unfold waiting_ids; by rewrite Ep).
  assert (Hlook : forall id, (set_to_map (fun id => (id, Err (Error_other reason) : Answer)) w : gmap RequestId Answer) !! id =
    if decide (id ∈ w) then Some (Err (Error_other reason)) else None).
  { intros id. case_decide as Hd.
    - apply lookup_set_to_map; [done|]. by exists id.
    - apply eq_None_not_Some. intros [a (i & Hi & [= -> _])%lookup_set_to_map]; done. }
  set (s' := Build_Session _ _ _ _ _ _ _ _ _). assert (Hans : forall id, answers s' !! id = if decide (id ∈ w) then Some (Err (Error_other reason)) else answers s !! id).
  { intros id. unfold s'. cbn [answers]. rewrite lookup_union, Hlook. case_decide; [by destruct (answers s !! id)|]. by destruct (answers s !! id). }
  assert (Hsome : forall id, is_Some (answers s' !! id) <-> id ∈ w \/ is_Some (answers s !! id)).
  { intros id. rewrite Hans. case_decide; [split; [by left|by eexists]|]. split; [by right|by intros []]. }
  split; try apply I; change (waiting_ids s') with (∅ : gset RequestId); change (in_hand s') with (in_hand s); change (calls s') with (calls s).
  - intros id [H|[H|H]]; [set_solver| |apply (inv_owner s I); tauto]. apply Hsome in H as [H|H]; apply (inv_owner s I); [left; by rewrite Hw|tauto].
  - intros id H. set_solver.
  - intros id a H. destruct (inv_hand s I id a H) as [Hn Hf]. split; [|exact Hf]. rewrite Hans, decide_False; [done|].
    intros Hin. rewrite <- Hw in Hin. destruct (inv_waiting s I id Hin) as [_ Hh]. apply Hh. by exists a.
  - intros id a Ha. rewrite Hans in Ha. case_decide; [injection Ha as <-; right; by exists reason|].
    destruct (inv_answers s I id a Ha) as [|(r & Hr & _)]; [by left|]. by rewrite Ep in Hr.
  - intros k id H. destruct (inv_waits s I k id H) as [Hi|[Hi|Hi]]; [right; left; apply Hsome; left; by rewrite <- Hw|right; left; apply Hsome; by right|by right; right].
  - intros k id v H. rewrite Hans, decide_False; [by eapply (inv_ends s I)|]. intros Hin. rewrite <- Hw in Hin. apply (inv_waiting s I) in Hin as [Hn _].
    by rewrite (inv_ends s I k id v H) in Hn.
Qed.

Lemma with_reader_invariant s r : invariant s -> (forall id a, r <> Hands id a) -> (forall id, ~ in_hand s id) ->
  (match r with
   | Reads | Hands _ _ => asked s = refused s
   | Refuses id method => asked s = refused s ++ [(id, method)]
   | Stops _ | Gone => refused s `prefix_of` asked s /\ (length (asked s) <= S (length (refused s)))%nat
   end) -> invariant (with_reader r s).
Proof.
  intros I Hr Hno Hl. assert (Hin : forall id, in_hand (with_reader r s) id -> False) by (intros id [a Ha]; by apply (Hr id a)).
  split; try apply I; change (waiting_ids (with_reader r s)) with (waiting_ids s); change (calls (with_reader r s)) with (calls s);
    change (answers (with_reader r s)) with (answers s).
  - intros id [H|[H|H]]; [apply (inv_owner s I); tauto|apply (inv_owner s I); tauto|by destruct (Hin id)].
  - intros id H. split; [by apply (inv_waiting s I)|intros Hx; exact (Hin id Hx)].
  - intros id a Ha. by destruct (Hr id a).
  - intros k id H. destruct (inv_waits s I k id H) as [Hi|[Hi|Hi]]; [by left|by right; left|by destruct (Hno id)].
  - exact Hl.
Qed.

(** A frame that asks nothing is read. *)
Lemma receives_invariant s frame : invariant s -> (forall id method, classify frame <> Ok (Incoming_Request id method)) -> invariant (receives frame s).
Proof.
  intros I Hc. assert (Ha : asked (receives frame s) = asked s).
  { rewrite asked_receives. destruct (classify frame) as [[| id method|]|] eqn:E; rewrite ?app_nil_r; try done. by destruct (Hc id method). }
  split; try apply I.
  - intros id a H. destruct (inv_hand s I id a H) as [? Hf]. split; [done|by apply from_frame_receives].
  - intros id a H. destruct (inv_answers s I id a H) as [Hf|]; [left; by apply from_frame_receives|by right].
  - change (refused (receives frame s)) with (refused s). rewrite Ha. apply (inv_refused s I).
Qed.

Lemma take_hands s id a : invariant s -> reader s = Reads -> id ∈ waiting_ids s -> from_frame s id a ->
  invariant (with_reader (Hands id a) (forget id s)).
Proof.
  intros I Hr Hin Hf. unfold forget. destruct (pending s) as [w|reason] eqn:Ep; [|unfold waiting_ids in Hin; rewrite Ep in Hin; set_solver].
  assert (Hw : waiting_ids s = w) by (unfold waiting_ids; by rewrite Ep).
  assert (Hhand : forall i, in_hand (with_reader (Hands id a) (with_pending (Open (w ∖ {[id]})) s)) i <-> i = id).
  { intros i. unfold in_hand. cbn. split; [by intros [x [= ->]]|intros ->; by exists a]. }
  set (s' := with_reader _ _) in *. split; try apply I; change (waiting_ids s') with (w ∖ {[id]}); change (calls s') with (calls s);
    change (answers s') with (answers s).
  - intros i [H|[H|H%Hhand]]; apply (inv_owner s I); [left; set_solver|tauto|subst; by left].
  - intros i [Hi Hne]%elem_of_difference. split; [apply (inv_waiting s I); by rewrite Hw|]. rewrite Hhand. set_solver.
  - intros i x Hx. assert (Hi : i = id) by (apply Hhand; by exists x). subst i. cbn in Hx. injection Hx as <-. split; [by apply (inv_waiting s I)|exact Hf].
  - intros i x Hx. destruct (inv_answers s I i x Hx) as [|(reason & Hp & _)]; [by left|]. by rewrite Ep in Hp.
  - intros k i H. rewrite Hhand. destruct (inv_waits s I k i H) as [Hi|[Hi|[x Hi]]]; [|by right; left|by rewrite Hr in Hi].
    rewrite Hw in Hi. destruct (decide (i = id)) as [->|]; [by right; right|left; set_solver].
  - cbn. pose proof (inv_refused s I) as H. by rewrite Hr in H.
Qed.

Lemma sends_invariant s id a : invariant s -> reader s = Hands id a -> invariant (with_reader Reads (sends id a s)).
Proof.
  intros I Hr. destruct (inv_hand s I id a Hr) as [Hnone Hf]. set (s' := with_reader _ _).
  assert (Hans : forall i, answers s' !! i = if decide (i = id) then Some a else answers s !! i).
  { intros i. unfold s'. cbn. case_decide as Hd; [subst; apply lookup_insert_eq|by rewrite lookup_insert_ne]. }
  assert (Hno : forall i, in_hand s' i -> False) by (by intros i [x Hx]).
  split; try apply I; change (waiting_ids s') with (waiting_ids s); change (calls s') with (calls s).
  - intros i [H|[H|H]]; [apply (inv_owner s I); by left| |by destruct (Hno i)]. rewrite Hans in H. case_decide as Hd; [|apply (inv_owner s I); tauto].
    subst i. apply (inv_owner s I). right. right. by exists a.
  - intros i Hi. destruct (inv_waiting s I i Hi) as [Hn Hh]. split; [|intros Hx; exact (Hno i Hx)]. rewrite Hans, decide_False; [done|].
    intros ->. apply Hh. by exists a.
  - intros i x Hx. by destruct (Hno i); exists x.
  - intros i x Hx. rewrite Hans in Hx. case_decide as Hd; [|by apply (inv_answers s I)]. injection Hx as <-. subst i. by left.
  - intros k i H. rewrite Hans. case_decide as Hd; [right; left; by eexists|]. destruct (inv_waits s I k i H) as [Hi|[Hi|[x Hi]]]; [by left|by right; left|].
    rewrite Hr in Hi. by injection Hi as <- _.
  - intros k i v Hk. rewrite Hans. pose proof (inv_ends s I k i v Hk) as He. case_decide as Hd; [|done]. subst i. by rewrite Hnone in He.
  - cbn. pose proof (inv_refused s I) as H. by rewrite Hr in H.
Qed.

Lemma refuses_invariant s frame id method : invariant s -> reader s = Reads -> classify frame = Ok (Incoming_Request id method) ->
  invariant (with_reader (Refuses id method) (receives frame s)).
Proof.
  intros I Hr Hc. set (s' := with_reader _ _). assert (Hno : forall i, in_hand s' i -> False) by (by intros i [x Hx]).
  split; try apply I; change (waiting_ids s') with (waiting_ids s); change (calls s') with (calls s); change (answers s') with (answers s).
  - intros i [H|[H|H]]; [apply (inv_owner s I); by left|apply (inv_owner s I); tauto|by destruct (Hno i)].
  - intros i Hi. split; [by apply (inv_waiting s I)|intros Hx; exact (Hno i Hx)].
  - intros i x Hx. by destruct (Hno i); exists x.
  - intros i x Hx. destruct (inv_answers s I i x Hx) as [Hf|]; [left; by apply (from_frame_receives s frame)|by right].
  - intros k i H. destruct (inv_waits s I k i H) as [Hi|[Hi|[x Hi]]]; [by left|by right; left|]. by rewrite Hr in Hi.
  - change (asked s') with (asked (receives frame s)). change (refused s') with (refused s). cbn [s' with_reader reader]. rewrite asked_receives, Hc.
    pose proof (inv_refused s I) as H. rewrite Hr in H. by rewrite H.
Qed.

Lemma on_frame_invariant s frame : invariant s -> reader s = Reads -> invariant (on_frame frame s).
Proof.
  intros I Hr. unfold on_frame. destruct (classify frame) as [[id result error|id method|method]|e] eqn:E;
    [|by apply refuses_invariant|apply receives_invariant; [done|by rewrite E]..].
  assert (I1 : invariant (receives frame s)) by (apply receives_invariant; [done|by rewrite E]).
  unfold take. change (pending (receives frame s)) with (pending s). destruct (pending s) as [w|reason] eqn:Ep; [|done].
  assert (Hw : waiting_ids (receives frame s) = w) by (unfold waiting_ids; cbn; by rewrite Ep). case_bool_decide as Hin.
  - pose proof (take_hands (receives frame s) id (answer_of (label s) result error) I1 Hr) as H. unfold forget in H.
    change (pending (receives frame s)) with (pending s) in H. rewrite Ep in H. apply H; [by rewrite Hw|].
    exists frame, result, error. cbn. split; [set_solver|done].
  - assert (Hsame : w ∖ {[id]} = w) by (apply leibniz_equiv; set_solver). rewrite Hsame, <- Ep. by destruct s.
Qed.

(** A call that is new, and one that registers. *)
Lemma calls_invariant s s' k method params : invariant s -> step (Calls k method params) s = Some s' -> calls_made s' <= u64_max -> invariant s'.
Proof.
  intros I. cbn [step]. destruct (calls s !! k) as [|] eqn:Hk; [done|]. intros [= <-]. cbn [with_call calls_made]. intros Hmax.
  assert (Hid : next_id s = 1 + calls_made s) by (unfold next_id, wrap64; apply Z.mod_small; pose proof (inv_made s I); unfold u64_max in Hmax; lia).
  set (s' := with_call _ _ _). split; try apply I; change (in_hand s') with (in_hand s); change (waiting_ids s') with (waiting_ids s);
    change (answers s') with (answers s); unfold s'; cbn [with_call calls calls_made].
  - pose proof (inv_made s I). lia.
  - intros k' ph [[<- <-]|[_ H]]%lookup_insert_Some; cbn; [rewrite Hid; pose proof (inv_made s I); lia|]. pose proof (inv_ids s I k' ph H). lia.
  - intros k1 k2 p1 p2 [[<- <-]|[N1 H1]]%lookup_insert_Some [[<- <-]|[N2 H2]]%lookup_insert_Some Heq; [done| | |by eapply (inv_unique s I)]; exfalso.
    + pose proof (inv_ids s I k2 p2 H2) as Hb. cbn in Heq. rewrite Hid in Heq. lia.
    + pose proof (inv_ids s I k1 p1 H1) as Hb. cbn in Heq. rewrite Hid in Heq. lia.
  - intros id Hin. destruct (inv_owner s I id Hin) as (k' & ph & H & Hi & Hr). exists k', ph. rewrite lookup_insert_ne by congruence. done.
  - intros k' id [(m & p & H)|H]; apply lookup_insert_Some in H as [[_ [=]]|[_ H]]; eapply (inv_waits s I); [left; by eexists _, _|by right].
  - intros k' id v H. apply lookup_insert_Some in H as [[_ [=]]|[_ H]]. by eapply (inv_ends s I).
Qed.

Lemma registers_invariant s k id method params w : invariant s -> calls s !! k = Some (Registers id method params) -> pending s = Open w ->
  invariant (with_call k (Writes id method params) (with_pending (Open ({[id]} ∪ w)) s)).
Proof.
  intros I Hk Ep. assert (Hw : waiting_ids s = w) by (unfold waiting_ids; by rewrite Ep).
  assert (Hfree : ~ (id ∈ waiting_ids s \/ is_Some (answers s !! id) \/ in_hand s id)).
  { intros Hin. destruct (inv_owner s I id Hin) as (k' & ph & H & Hi & Hr). assert (k' = k) as -> by (by eapply (inv_unique s I); [exact H|exact Hk|]).
    rewrite Hk in H. injection H as <-. done. }
  set (s' := with_call _ _ _). split; try apply I; change (in_hand s') with (in_hand s); change (waiting_ids s') with ({[id]} ∪ w);
    change (answers s') with (answers s); unfold s'; cbn [with_call with_pending calls calls_made pending].
  - intros k' ph [[<- <-]|[_ H]]%lookup_insert_Some; [exact (inv_ids s I _ _ Hk)|exact (inv_ids s I _ _ H)].
  - intros k1 k2 p1 p2 [[<- <-]|[N1 H1]]%lookup_insert_Some [[<- <-]|[N2 H2]]%lookup_insert_Some Heq; [done| | |by eapply (inv_unique s I)].
    + by eapply (inv_unique s I); [exact Hk|exact H2|].
    + by eapply (inv_unique s I); [exact H1|exact Hk|].
  - intros i Hin. destruct (decide (i = id)) as [->|Hne]; [exists k, (Writes id method params); by rewrite lookup_insert_eq|].
    destruct (inv_owner s I i) as (k' & ph & H & Hi & Hr); [rewrite Hw; set_solver|]. exists k', ph. rewrite lookup_insert_ne; [done|].
    intros <-. rewrite Hk in H. by injection H as <-.
  - intros i [->%elem_of_singleton|Hi]%elem_of_union; [|apply (inv_waiting s I); by rewrite Hw]. split; [|tauto].
    apply eq_None_not_Some. tauto.
  - intros i a Ha. destruct (inv_answers s I i a Ha) as [|(r & Hp & _)]; [by left|]. by rewrite Ep in Hp.
  - intros k' i H. assert (Hor : i = id \/ (exists m p, calls s !! k' = Some (Writes i m p)) \/ calls s !! k' = Some (Waits i)).
    { destruct H as [(m & p & H)|H]; apply lookup_insert_Some in H as [[_ H]|[_ H]]; [left; by injection H|right; left; by eexists _, _|done|by right; right]. }
    destruct Hor as [->|Hor]; [left; set_solver|]. destruct (inv_waits s I k' i Hor) as [Hi|Hi]; [left; rewrite <- Hw; set_solver|by right].
  - intros k' i v H. apply lookup_insert_Some in H as [[_ [=]]|[_ H]]. by eapply (inv_ends s I).
Qed.

Lemma refusal_invariant s id method : invariant s -> reader s = Refuses id method -> invariant (with_reader Reads (writes (Wrote_refusal id method) s)).
Proof.
  intros I Hr. set (s' := with_reader _ _). assert (Hno : forall i, in_hand s' i -> False) by (by intros i [x Hx]).
  split; try apply I; change (waiting_ids s') with (waiting_ids s); change (calls s') with (calls s); change (answers s') with (answers s).
  - intros i [H|[H|H]]; [apply (inv_owner s I); by left|apply (inv_owner s I); tauto|by destruct (Hno i)].
  - intros i Hi. split; [by apply (inv_waiting s I)|intros Hx; exact (Hno i Hx)].
  - intros i x Hx. by destruct (Hno i); exists x.
  - intros k i H. destruct (inv_waits s I k i H) as [Hi|[Hi|[x Hi]]]; [by left|by right; left|]. by rewrite Hr in Hi.
  - change (asked s = refused (writes (Wrote_refusal id method) s)). rewrite refused_writes. pose proof (inv_refused s I) as H. by rewrite Hr in H.
Qed.

Lemma step_invariant l s s' : invariant s -> step l s = Some s' -> calls_made s' <= u64_max -> invariant s'.
Proof.
  intros I Hs Hmax. destruct l as [k method params|k|k r|k cancelled overdue budget|k r|frame| |r|reason| | |]; cbn [step] in Hs.
  - by eapply calls_invariant.
  - destruct (calls s !! k) as [[id method params|id method params|id|id e tells|id e|id o]|] eqn:Hk; try done.
    + unfold register in Hs. destruct (pending s) as [w|reason] eqn:Ep; injection Hs as <-; [by apply registers_invariant|].
      by eapply with_call_invariant; [done|exact Hk|done|done|intros ? [(? & ? & [=])|[=]]|].
    + injection Hs as <-. assert (I1 : invariant (forget id s)).
      { apply forget_invariant; [done|]. intros k' ph H Hid. assert (k' = k) as -> by (by eapply (inv_unique s I); [exact H|exact Hk|]).
        rewrite Hk in H. by injection H as <-. }
      assert (Hk' : calls (forget id s) !! k = Some (Forgets id e tells)) by (unfold forget; by destruct (pending s)).
      destruct tells; by eapply with_call_invariant; [done|exact Hk'|done|done|intros ? [(? & ? & [=])|[=]]|].
  - destruct (calls s !! k) as [[id method params|id method params|id|id e tells|id e|id o]|] eqn:Hk; try done. destruct r as [u|e]; injection Hs as <-.
    + eapply with_call_invariant; [by apply writes_invariant|exact Hk|done|done| |done]. intros i [(? & ? & [=])|[= <-]].
      apply (inv_waits s I k). left. by eexists _, _.
    + by eapply with_call_invariant; [done|exact Hk|done|done|intros ? [(? & ? & [=])|[=]]|].
  - destruct (calls s !! k) as [[id method params|id method params|id|id e tells|id e|id o]|] eqn:Hk; try done.
    assert (Hf : forall e, invariant (with_call k (Forgets id e true) s)).
    { intros e. by eapply with_call_invariant; [done|exact Hk|done|done|intros ? [(? & ? & [=])|[=]]|]. }
    destruct cancelled; [injection Hs as <-; apply Hf|]. destruct (answers s !! id) as [[v|e]|] eqn:Ea.
    + injection Hs as <-. eapply with_call_invariant; [done|exact Hk|done|done|intros ? [(? & ? & [=])|[=]]|]. by intros ? ? [= <- <-].
    + injection Hs as <-. apply Hf.
    + destruct overdue; [|done]. injection Hs as <-. apply Hf.
  - destruct (calls s !! k) as [[id method params|id method params|id|id e tells|id e|id o]|] eqn:Hk; try done. injection Hs as <-.
    destruct r; (eapply with_call_invariant; [first [by apply writes_invariant|done]|exact Hk|done|done|intros ? [(? & ? & [=])|[=]]|done]).
  - destruct (reader s) eqn:Er; try done. injection Hs as <-. by apply on_frame_invariant.
  - destruct (reader s) as [|id a| | |] eqn:Er; try done. injection Hs as <-. by apply sends_invariant.
  - destruct (reader s) as [| |id method| |] eqn:Er; try done. assert (Hno : forall i, ~ in_hand s i) by (intros i [a Ha]; by rewrite Er in Ha).
    pose proof (inv_refused s I) as Hq. rewrite Er in Hq. destruct r as [u|e]; injection Hs as <-.
    + by apply refusal_invariant.
    + apply with_reader_invariant; [done|done|done|]. rewrite Hq. split; [by eexists|]. rewrite length_app. simpl. lia.
  - destruct (reader s) eqn:Er; try done. injection Hs as <-. apply with_reader_invariant; [done|done|intros i [a Ha]; by rewrite Er in Ha|].
    pose proof (inv_refused s I) as Hq. rewrite Er in Hq. rewrite Hq. split; [done|lia].
  - destruct (reader s) eqn:Er; try done. injection Hs as <-. assert (Hr : reader (close reason s) = reader s) by (unfold close; by destruct (pending s)).
    apply with_reader_invariant; [by apply close_invariant|done|intros i [a Ha]; by rewrite Hr, Er in Ha|].
    pose proof (inv_refused _ (close_invariant s reason I)) as Hq. by rewrite Hr, Er in Hq.
  - injection Hs as <-. destruct I. by split.
  - destruct (aborted s); [|done]. injection Hs as <-. by apply close_invariant.
Qed.

Lemma close_made reason s : calls_made (close reason s) = calls_made s.
Proof. unfold close. by destruct (pending s). Qed.

Lemma step_made l s s' : step l s = Some s' -> calls_made s <= calls_made s'.
Proof.
  destruct l; cbn [step]; unfold register, forget, on_frame, take; intros Hs; repeat case_match; simplify_eq; cbn; rewrite ?close_made; try lia.
Qed.

Lemma run_made l : forall s s', run l s = Some s' -> calls_made s <= calls_made s'.
Proof.
  induction l as [|a l IH]; intros s s'; cbn [run]; [intros [= <-]; lia|]. destruct (step a s) as [s1|] eqn:E; [|done]. cbn.
  intros Hr%IH. pose proof (step_made a s s1 E). lia.
Qed.

(** The counter has not wrapped at the end, so it had not before. *)
Lemma run_invariant l : forall s s', invariant s -> run l s = Some s' -> calls_made s' <= u64_max -> invariant s'.
Proof.
  induction l as [|a l IH]; intros s s' I; cbn [run]; [by intros [= <-]|]. destruct (step a s) as [s1|] eqn:E; [|done]. cbn. intros Hr Hmax.
  pose proof (run_made l s1 s' Hr). apply (IH s1); [|done..]. eapply step_invariant; [done|done|lia].
Qed.

Definition reachable (s : Session) : Prop := exists name l, run l (start name) = Some s /\ calls_made s <= u64_max.

Lemma reachable_invariant s : reachable s -> invariant s.
Proof. intros (name & l & Hr & Hmax). by apply (run_invariant l _ _ (start_invariant name) Hr). Qed.

(** ** What is promised *)

(** C35. A call that succeeds was given the result of a frame the server sent, an answer to the call's
    own id, which no other call has: of all the calls that run at once, none gets another's answer. *)
Theorem answers_reach_their_callers (s : Session) (k : CallId) (id : RequestId) (v : Value) :
  reachable s -> calls s !! k = Some (Ends id (Ok v)) ->
  (exists frame, frame ∈ received s /\ classify frame = Ok (Incoming_Response id (Some v) None)) /\
  (forall k' phase, calls s !! k' = Some phase -> id_of phase = id -> k' = k).
Proof.
  intros I%reachable_invariant Hk. split.
  - destruct (inv_answers s I id (Ok v) (inv_ends s I k id v Hk)) as [(frame & result & error & Hf & Hc & Ha)|(reason & _ & [=])].
    exists frame. split; [done|]. rewrite Hc. unfold answer_of in Ha. destruct error; [done|]. destruct result; [|done]. by injection Ha as ->.
  - intros k' phase H Hid. by eapply (inv_unique s I); [exact H|exact Hk|].
Qed.


(** A server that asks is refused: while the reader reads on, every request it took in was answered
    with "method not found", by its id and in the order they came, and nothing else was; when the
    session has ended all were, but possibly one whose refusal could not be written. *)
Theorem servers_are_refused_in_order (s : Session) : reachable s ->
  match reader s with
  | Reads | Hands _ _ => refused s = asked s
  | Refuses id method => asked s = refused s ++ [(id, method)]
  | Stops _ | Gone => refused s `prefix_of` asked s /\ (length (asked s) <= S (length (refused s)))%nat
  end.
Proof. intros I%reachable_invariant. pose proof (inv_refused s I). by destruct (reader s). Qed.

(** ** Frames, whole *)

(** What is read of a text, if it came in one piece. *)
Fixpoint frames (n : nat) (max_bytes : Z) (text : string) : list string * option FrameRead :=
  match n with
  | O => ([], None)
  | S n =>
      match cut_line text with
      | Some (before, rest) =>
          if max_bytes <? str_len before then ([], Some (too_large max_bytes))
          else let (lines, last) := frames n max_bytes rest in (strip_carriage_return before :: lines, last)
      | None =>
          if max_bytes <? str_len text then ([], Some (too_large max_bytes))
          else if str_is_empty text then ([], Some No_frame)
          else let (lines, last) := frames n max_bytes EmptyString in (text :: lines, last)
      end
  end.

Lemma cut_line_before a b : cut_line a = None -> cut_line (a +:+ b) = (fun '(l, rest) => (a +:+ l, rest)) <$> cut_line b.
Proof.
  induction a as [|c a IH]; cbn [cut_line]; [intros _; change (EmptyString +:+ b) with b; by destruct (cut_line b) as [[]|]|].
  change (String c a +:+ b) with (String c (a +:+ b)). cbn [cut_line]. destruct (Ascii.eqb c NEWLINE); [done|].
  destruct (cut_line a) as [[]|]; [done|]. intros _. rewrite IH by done. by destruct (cut_line b) as [[]|].
Qed.

Lemma cut_line_after a b l rest : cut_line a = Some (l, rest) -> cut_line (a +:+ b) = Some (l, rest +:+ b).
Proof.
  revert l. induction a as [|c a IH]; intros l; cbn [cut_line]; [done|]. change (String c a +:+ b) with (String c (a +:+ b)). cbn [cut_line].
  destruct (Ascii.eqb c NEWLINE); [by intros [= <- <-]|]. destruct (cut_line a) as [[l' rest']|]; [|done]. intros [= <- <-]. by rewrite (IH l').
Qed.

Abbreviation pieces := (Forall (fun piece : string => piece <> EmptyString)).

Lemma read_more_spec max_bytes chunks : pieces chunks -> forall line, cut_line line = None -> str_len line <= max_bytes ->
  let text := line +:+ String.concat EmptyString chunks in
  exists buffer rest, pieces rest /\
    match cut_line text with
    | Some (before, after) =>
        read_more max_bytes line (map Ok chunks) = (if max_bytes <? str_len before then too_large max_bytes else A_frame (strip_carriage_return before), buffer, map Ok rest) /\
        (str_len before <= max_bytes -> buffer +:+ String.concat EmptyString rest = after)
    | None =>
        read_more max_bytes line (map Ok chunks) = (if max_bytes <? str_len text then too_large max_bytes else end_of text, buffer, map Ok rest) /\
        (str_len text <= max_bytes -> buffer = EmptyString /\ rest = [])
    end.
Proof.
  induction 1 as [|piece chunks Hp Hc IH]; intros line Hl Hle text; unfold text; clear text.
  - change (String.concat EmptyString []) with EmptyString. rewrite str_app_nil, Hl. exists EmptyString, []. split; [done|].
    split; [|done]. cbn. by rewrite (proj2 (Z.ltb_ge _ _)).
  - rewrite concat_cons, cut_line_before by done. cbn [map read_more]. destruct piece as [|c piece]; [done|]. set (available := String c piece) in *.
    destruct (cut_line available) as [[before after]|] eqn:Ea.
    + rewrite (cut_line_after available _ before after) by done. cbn [fmap option_fmap option_map]. rewrite str_len_app.
      destruct (Z.ltb_spec max_bytes (str_len line + str_len before)); [exists available, chunks|exists after, chunks]; (split; [done|]; split; [done|by try lia]).
    + assert (Hcut : cut_line (line +:+ available) = None) by (by rewrite cut_line_before, Ea). rewrite <- (str_len_app line available).
      assert (Hsame : (fun '(l, rest) => (line +:+ l, rest)) <$> cut_line (available +:+ String.concat EmptyString chunks) =
        cut_line ((line +:+ available) +:+ String.concat EmptyString chunks)) by (by rewrite str_app_assoc, (cut_line_before line)).
      rewrite Hsame, <- str_app_assoc. destruct (Z.ltb_spec max_bytes (str_len (line +:+ available))) as [Hlong|Hshort]; [|by apply IH].
      exists available, chunks. split; [done|]. rewrite (cut_line_before (line +:+ available)) by done.
      pose proof (str_len_nonneg (String.concat EmptyString chunks)).
      destruct (cut_line (String.concat EmptyString chunks)) as [[l r]|]; cbn [fmap option_fmap option_map].
      * pose proof (str_len_nonneg l). rewrite (str_len_app (line +:+ available)), (proj2 (Z.ltb_lt _ _)) by lia. split; [done|lia].
      * rewrite (str_len_app (line +:+ available)), (proj2 (Z.ltb_lt _ _)) by lia. split; [done|lia].
Qed.

Lemma read_frames_from n max_bytes chunks buffer : 0 <= max_bytes -> pieces chunks ->
  read_frames n max_bytes buffer (map Ok chunks) = frames n max_bytes (buffer +:+ String.concat EmptyString chunks).
Proof.
  intros Hmax. revert chunks buffer. induction n as [|n IH]; intros chunks buffer Hc; [done|]. cbn [read_frames frames]. unfold read_frame.
  assert (Hsrc : (if str_is_empty buffer then map Ok chunks else Ok buffer :: map Ok chunks) = map (Ok : _ -> Read) (if str_is_empty buffer then chunks else buffer :: chunks)) by (by destruct buffer).
  assert (Hps : pieces (if str_is_empty buffer then chunks else buffer :: chunks)) by (destruct buffer; [done|by constructor]).
  assert (Ht : String.concat EmptyString (if str_is_empty buffer then chunks else buffer :: chunks) = buffer +:+ String.concat EmptyString chunks)
    by (destruct buffer; [done|by rewrite <- concat_cons]).
  rewrite Hsrc. destruct (read_more_spec max_bytes _ Hps EmptyString (eq_refl _) Hmax) as (b & rest & Hr & H).
  change (EmptyString +:+ ?x) with x in H. rewrite Ht in H. clear Hsrc Hps Ht. destruct (cut_line (buffer +:+ _)) as [[before after]|]; destruct H as [-> Hb].
  - destruct (Z.ltb_spec max_bytes (str_len before)); [done|]. by rewrite IH, Hb.
  - destruct (Z.ltb_spec max_bytes (str_len (buffer +:+ String.concat EmptyString chunks))); [done|]. destruct Hb as [-> ->]; [done|].
    unfold end_of. destruct (str_is_empty _); [done|]. by rewrite IH.
Qed.

(** The frames are the lines of the bytes, however these arrive: cut anywhere they make the same
    frames and end the same way, with a line longer than the limit refused where it would be if
    all had come at once. *)
Theorem frames_are_lines (n : nat) (max_bytes : Z) (chunks : list string) : 0 <= max_bytes -> pieces chunks ->
  read_frames n max_bytes EmptyString (map Ok chunks) = frames n max_bytes (String.concat EmptyString chunks).
Proof. exact (read_frames_from n max_bytes chunks EmptyString). Qed.

(** ** Concrete sessions *)

Module Demo.

Definition answers_with (id : Z) (v : string) : Value :=
  json_object [("jsonrpc", VString "2.0"); ("id", VNumber (NInt id)); ("result", VString v)].
Definition asks (id : Value) : Value := json_object [("jsonrpc", VString "2.0"); ("id", id); ("method", VString "roots/list")].

(** Two calls at once: the second is answered first, the server asks in between, and the first is
    answered too. *)
Definition two_calls : list Label :=
  [Calls 0%nat "tools/list" VNull; Calls 1%nat "tools/call" VNull; Goes_on 1%nat; Goes_on 0%nat; Writes_request 0%nat (Ok tt); Writes_request 1%nat (Ok tt);
   Frame (answers_with 2 "second"); Hands_over; Frame (asks (VNumber (NInt 7))); Writes_refusal (Ok tt); Frame (answers_with 9 "nobody's");
   Frame (answers_with 1 "first"); Sees 1%nat false false 0; Hands_over; Sees 0%nat false false 0].

Definition after (l : list Label) : Session := default (start "s") (run l (start "s")).

Lemma two_calls_reachable : reachable (after two_calls).
Proof. exists "s"%string, two_calls. by vm_compute. Qed.

Lemma answers_reach_their_callers_witness :
  (exists frame, frame ∈ received (after two_calls) /\ classify frame = Ok (Incoming_Response 2 (Some (VString "second")) None)) /\
  (forall k' phase, calls (after two_calls) !! k' = Some phase -> id_of phase = 2 -> k' = 1%nat).
Proof. apply (answers_reach_their_callers (after two_calls)); [exact two_calls_reachable|vm_compute; reflexivity]. Defined.

Lemma servers_are_refused_in_order_witness : refused (after two_calls) = asked (after two_calls) /\ asked (after two_calls) = [(7, "roots/list"%string)].
Proof. split; [exact (servers_are_refused_in_order (after two_calls) two_calls_reachable)|vm_compute; reflexivity]. Defined.

(** A server that exits while a call waits and another is about to register. *)
Definition exits : list Label :=
  [Calls 0%nat "tools/list" VNull; Goes_on 0%nat; Writes_request 0%nat (Ok tt); Calls 1%nat "tools/list" VNull; Source_ends "gone"; Reader_closes].

Lemma exits_reachable : reachable (after exits).
Proof. exists "s"%string, exits. by vm_compute. Qed.


(** A request whose id is a string, as JSON-RPC allows, is not refused: it is taken for a frame
    that cannot be routed and the server is left waiting. *)
Lemma string_ids_are_never_refused :
  exists reason, classify (asks (VString "7")) = Err (Error_other reason) /\
    refused (after [Frame (asks (VString "7"))]) = [] /\ reader (after [Frame (asks (VString "7"))]) = Reads.
Proof. eexists. vm_compute. split_and!; reflexivity. Qed.

Definition CR : string := String (chr 13) EmptyString.
Definition LF : string := String NEWLINE EmptyString.

Lemma frames_are_lines_witness :
  read_frames 5 10 EmptyString (map Ok ["ab"; "c" +:+ CR; LF +:+ "d"; LF; "tail"]%string) = (["abc"; "d"; "tail"]%string, Some No_frame).
Proof. rewrite (frames_are_lines 5 10); [vm_compute; reflexivity|lia|by repeat constructor]. Defined.

End Demo.
