(* ===== verification/JobsRedb.v ===== *)
(** * JobsRedb: the schedule kept on disk

    [crates/scheduler/src/persistent.rs]: the operations of [RedbJobStore] over one table of an
    embedded database, each one a transaction of [Store], and that they keep the laws the
    scheduler is proved against.  A row is what its bytes decode to, which is a stored job with
    durations of a whole number of milliseconds, or a failure where they are not what this build
    writes. *)

From S2P Require Import Prelude Base Cron Jobs Scheduler Store.

(** ** Rows *)

Definition typed (j : StoredJob) : bool :=
  match sto_next_run j with Some n => 0 <=? n | None => true end &&
  match sto_timeout_ms j with Some ms => (0 <=? ms) && (ms <=? u64_max) | None => true end &&
  match sto_trigger j with After d | Every d => whole_millis_b d | _ => true end &&
  whole_millis_b (backoff (sto_retry j)) && whole_millis_b (max_backoff (sto_retry j)).

Record Row := { row : StoredJob; row_typed : typed row = true }.

(** What the bytes of a job decode to.  A time that is no [u64] is none that the code has. *)
Definition no_time : string := "invalid value, expected u64".
Definition encoded (stored : StoredJob) : result string Row :=
  match decide (typed (read_back stored) = true) with
  | left H => Ok {| row := read_back stored; row_typed := H |}
  | right _ => Err no_time
  end.

(** [JOBS] *)
Abbreviation Jobs_table := (gmap JobId (result string Row)).
Abbreviation M := (action (Db Jobs_table) Error).

Definition decode (id : JobId) (bytes : result string Row) : Result StoredJob :=
  match bytes with
  | Ok r => Ok (row r)
  | Err error => Err (Error_wrap ("decoding the scheduled job `" +:+ id +:+ "`") (BoxForeign error None))
  end.

(** ** Operations *)

Definition create_tables : M unit :=
  write_transaction "beginning the schedule schema transaction" "committing the schedule schema" (
    io "creating the scheduled job table" ;! ret (Committing tt)).

Definition in_key_order (t : Jobs_table) : list (JobId * result string Row) :=
  merge_sort (fun a b => String.le (fst a) (fst b)) (map_to_list t).

(** The loop over the rows. *)
Fixpoint read_rows (rows : list (JobId * result string Row)) : M (list JobState) :=
  match rows with
  | [] => ret []
  | (id, bytes) :: rows =>
      io "reading a scheduled job" ;!
      let! stored := lift (decode id bytes) in
      let! jobs := read_rows rows in
      ret (into_state stored id :: jobs)
  end.

Definition load_blocking : M (list JobState) :=
  io "beginning a schedule read" ;!
  io "opening the scheduled job table" ;!
  io "scanning the scheduled job table" ;!
  let! rows := reads in_key_order in
  read_rows rows.

Definition put_blocking (id : JobId) (job : StoredJob) : M unit :=
  write_transaction "beginning a schedule write" "committing a schedule write" (
    io "opening the scheduled job table" ;!
    io "writing a scheduled job" ;!
    writes <[id := encoded job]> ;!
    ret (Committing tt)).

Definition remove_blocking (id : JobId) : M unit :=
  write_transaction "beginning a schedule removal" "committing a schedule removal" (
    io "opening the scheduled job table" ;!
    io "removing a scheduled job" ;!
    writes (delete id) ;!
    ret (Committing tt)).

(** [impl JobStore for RedbJobStore] *)
#[export] Instance RedbJobStore : JobStore (Db Jobs_table) := {
  load := load_blocking;
  put state := put_blocking (spec_id (spec state)) (from_state state);
  remove := remove_blocking;
}.

(** ** The laws *)

Definition job_of_row (id : JobId) (bytes : result string Row) : option JobState :=
  match bytes with Ok r => Some (into_state (row r) id) | Err _ => None end.

Definition jobs_on_disk (d : Db Jobs_table) : gmap JobId JobState := map_imap job_of_row (tables d).

Lemma jobs_lookup d id : jobs_on_disk d !! id = tables d !! id ≫= job_of_row id.
Proof. apply map_lookup_imap. Qed.

Lemma typed_storable r id : storable (into_state (row r) id).
Proof.
  destruct r as [j H]. cbn [row]. unfold typed in H. rewrite !andb_true_iff in H. destruct H as [[[[Hn Ht] Htr] Hb] Hm].
  apply whole_millis_b_spec in Hb, Hm. unfold storable, durations_ok, into_state. cbn [spec persistent next_run_at timeout trigger retry].
  split_and!; [done| | | |done|done].
  - intros n E. rewrite E in Hn. by apply Z.leb_le.
  - intros d. destruct (sto_timeout_ms j) as [ms|]; [|done]. intros [= <-]. exists ms. split; [|done].
    rewrite andb_true_iff, !Z.leb_le in Ht. int_lia.
  - by destruct (sto_trigger j); try done; apply whole_millis_b_spec.
Qed.

Lemma encoded_storable st : storable st -> exists r, encoded (from_state st) = Ok r /\ into_state (row r) (spec_id (spec st)) = st.
Proof.
  intros Hst. pose proof (stored_job_roundtrip st Hst) as Hrt. unfold encoded. case_decide as Ht.
  - eexists. split; [done|exact Hrt].
  - destruct Ht. destruct Hst as (_ & Hn & Ho & Htr & Hb & Hm). unfold typed, read_back, from_state, rewritten_retry.
    cbn [sto_next_run sto_timeout_ms sto_trigger sto_retry backoff max_backoff]. rewrite !andb_true_iff, !whole_millis_b_spec.
    split_and!; [|destruct (timeout (spec st)) as [d|]; [|done]|destruct (trigger (spec st)); try done; cbn; apply whole_millis_b_spec| |];
      try apply rewritten_is_whole.
    + destruct (next_run_at st) as [n|]; [|done]. apply Z.leb_le. by apply Hn.
    + cbn. unfold u64_of_duration. destruct (Ho d eq_refl) as (ms & Hms & ->). rewrite as_millis_from_millis. rewrite andb_true_iff, !Z.leb_le. int_lia.
Qed.

Lemma read_rows_inv rows : forall (s s' : Db Jobs_table) jobs, read_rows rows s = (s', Ok jobs) ->
  tables s' = tables s /\ Forall2 (fun p st => job_of_row p.1 p.2 = Some st) rows jobs.
Proof.
  induction rows as [|[id bytes] rows IH]; intros s s' jobs; cbn [read_rows]; [intros [= <- <-]; by split|].
  intros H. peel H E1. apply io_inv in E1. peel H E2. unfold lift in E2. injection E2 as <- E2. peel H E3. injection H as <- <-.
  apply IH in E3 as [Ht Hrows]. split; [congruence|]. constructor; [|done]. destruct bytes as [r|]; [|done]. by injection E2 as <-.
Qed.

Lemma load_inv (s s' : Db Jobs_table) jobs : load_blocking s = (s', Ok jobs) ->
  tables s' = tables s /\ Forall2 (fun p st => job_of_row p.1 p.2 = Some st) (in_key_order (tables s)) jobs.
Proof.
  unfold load_blocking. intros H. peel H E1. peel H E2. peel H E3. apply io_inv in E1, E2, E3. peel H E4. apply reads_inv in E4 as [-> [= ->]].
  apply read_rows_inv in H as [Ht Hrows]. rewrite E3, E2, E1 in Hrows. split; [congruence|done].
Qed.

Lemma write_inv b c l1 l2 f (s s' : Db Jobs_table) u :
  write_transaction b c (io l1 ;! io l2 ;! writes f ;! ret (Committing tt)) s = (s', Ok u) -> tables s' = f (tables s).
Proof.
  intros (s1 & s2 & x & H1 & H & Hx)%transaction_ok. peel H E1. peel H E2. apply io_inv in E1, E2. peel H E3. injection E3 as <- _.
  injection H as <- <-. destruct Hx as [[_ ->]|[[=] _]]. cbn. congruence.
Qed.

Lemma load_exact_jobs (d d' : Db Jobs_table) l : load_blocking d = (d', Ok l) ->
  jobs_on_disk d' = jobs_on_disk d /\ NoDup (map (fun st => spec_id (spec st)) l) /\
  forall st, st ∈ l <-> jobs_on_disk d !! spec_id (spec st) = Some st.
Proof.
  intros [Ht Hrows]%load_inv. split; [unfold jobs_on_disk; by rewrite Ht|].
  assert (Hperm : in_key_order (tables d) ≡ₚ map_to_list (tables d)) by apply merge_sort_Permutation.
  assert (Hids : map (fun st => spec_id (spec st)) l = map fst (in_key_order (tables d))).
  { clear Hperm. induction Hrows as [|[id [r|e]] st rows jobs Hr _ IH]; [done| |done]. injection Hr as <-. cbn. by rewrite IH. }
  split.
  - rewrite Hids. change (map fst (in_key_order (tables d))) with ((in_key_order (tables d)).*1). rewrite Hperm. apply NoDup_fst_map_to_list.
  - intros st. rewrite jobs_lookup. split.
    + intros [i Hi]%list_elem_of_lookup. destruct (Forall2_lookup_r _ _ _ _ _ Hrows Hi) as ([id bytes] & Hp & Hj). cbn in Hj.
      assert (Hin : (id, bytes) ∈ map_to_list (tables d)) by (rewrite <- Hperm; by eapply list_elem_of_lookup_2).
      apply elem_of_map_to_list in Hin. assert (Hid : spec_id (spec st) = id) by (destruct bytes; [by injection Hj as <-|done]). by rewrite Hid, Hin.
    + destruct (tables d !! spec_id (spec st)) as [bytes|] eqn:E; [|done]. cbn. intros Hj. apply elem_of_map_to_list in E. rewrite <- Hperm in E.
      apply list_elem_of_lookup in E as [i Hi]. destruct (Forall2_lookup_l _ _ _ _ _ Hrows Hi) as (st' & Hst & Hj'). cbn in Hj'.
      rewrite Hj in Hj'. injection Hj' as <-. by eapply list_elem_of_lookup_2.
Qed.

Lemma put_exact st (d d' : Db Jobs_table) u : storable st -> put_blocking (spec_id (spec st)) (from_state st) d = (d', Ok u) ->
  jobs_on_disk d' = <[spec_id (spec st) := st]> (jobs_on_disk d).
Proof.
  intros Hst H%write_inv. destruct (encoded_storable st Hst) as (r & Hr & Hst').
  apply map_eq. intros i. rewrite jobs_lookup, H, Hr. destruct (decide (spec_id (spec st) = i)) as [<-|Hne].
  - rewrite !lookup_insert_eq. cbn. by rewrite Hst'.
  - rewrite !lookup_insert_ne by done. by rewrite jobs_lookup.
Qed.

Lemma remove_exact id (d d' : Db Jobs_table) u : remove_blocking id d = (d', Ok u) -> jobs_on_disk d' = delete id (jobs_on_disk d).
Proof.
  intros H%write_inv. apply map_eq. intros i. rewrite jobs_lookup, H. destruct (decide (id = i)) as [<-|Hne]; [by rewrite !lookup_delete_eq|].
  rewrite !lookup_delete_ne by done. by rewrite jobs_lookup.
Qed.

(** The laws of a store that the scheduler is proved against. *)
#[export] Instance RedbJobStore_laws : JobStoreLaws (Db Jobs_table).
Proof.
  refine {| durable := jobs_on_disk |}; cbn [load put remove RedbJobStore].
  - apply load_exact_jobs.
  - intros d id st. rewrite jobs_lookup. destruct (tables d !! id) as [[r|]|]; [|done..]. intros [= <-]. by split; [apply typed_storable|].
  - intros st d d' Hst. by apply put_exact.
  - intros st d d' e H. unfold put_blocking in H. apply transaction_atomic in H. unfold jobs_on_disk. by rewrite H.
  - intros id d d'. apply remove_exact.
  - intros id d d' e H. unfold remove_blocking in H. apply transaction_atomic in H. unfold jobs_on_disk. by rewrite H.
Defined.

(** Once writing a job has returned, a reading that returns - of whatever process - finds the job
    as it was and every other job that was there, and no more; a write that fails leaves nothing
    of itself; and where one row does not decode, no reading returns, rather than one without it. *)
Theorem stored_jobs_read_back (st : JobState) (d d1 d2 : Db Jobs_table) (r : Result unit) (jobs : list JobState) :
  storable st -> put st d = (d1, r) -> load d1 = (d2, Ok jobs) ->
  (forall st', st' ∈ jobs <-> (if is_ok r then <[spec_id (spec st) := st]> (jobs_on_disk d) else jobs_on_disk d) !! spec_id (spec st') = Some st') /\
  map_Forall (fun _ bytes => is_ok bytes = true) (tables d1).
Proof.
  cbn [load put RedbJobStore]. intros Hst Hput Hload. split.
  - intros st'. destruct (load_exact_jobs _ _ _ Hload) as (_ & _ & Hin). rewrite Hin. destruct r as [u|e]; cbn [is_ok].
    + by rewrite (put_exact _ _ _ _ Hst Hput).
    + unfold put_blocking in Hput. apply transaction_atomic in Hput. unfold jobs_on_disk. by rewrite Hput.
  - apply load_inv in Hload as [_ Hrows]. intros id bytes Hb%elem_of_map_to_list. assert (Hperm : in_key_order (tables d1) ≡ₚ map_to_list (tables d1)) by apply merge_sort_Permutation.
    rewrite <- Hperm in Hb. apply list_elem_of_lookup in Hb as [i Hi]. destruct (Forall2_lookup_l _ _ _ _ _ Hrows Hi) as (st' & _ & Hj). by destruct bytes.
Qed.

(** ** Jobs on a concrete disk *)

Module Demo.

Definition job (id : JobId) (t : Trigger) : JobState :=
  {| spec := {| spec_id := id; trigger := t; handler := "agent.jobs"; payload := VNull; persistent := true;
                retry := {| attempts := 0; backoff := from_millis 1000; max_backoff := from_millis 60000 |}; timeout := Some (from_millis 5000) |};
     owner := Principal_new "alice" User; next_run_at := Some 1000; last_run := None |}.

Definition nightly : JobState := job "nightly" (Every (from_millis 86400000)).
Definition empty : Db Jobs_table := Build_Db ∅ 0 [].
Definition with_nightly : Db Jobs_table := (put nightly empty).1.

Lemma nightly_storable : storable nightly.
Proof. apply storable_b_spec. vm_compute. reflexivity. Qed.

Lemma stored_jobs_read_back_witness : nightly ∈ [nightly].
Proof.
  destruct (stored_jobs_read_back nightly empty with_nightly (load with_nightly).1 (put nightly empty).2 [nightly] nightly_storable (surjective_pairing _)) as [H _].
  - vm_compute. reflexivity.
  - apply H. vm_compute. reflexivity.
Defined.

(** An interval of 2^64 milliseconds is accepted and comes back as none: it is cast to 64 bits. *)
Definition aeons : JobState := job "aeons" (Every (from_millis (2 ^ 64))).
Lemma a_long_interval_is_lost :
  validate (fun _ => EmptyString) (spec aeons) true = Some (Ok tt) /\
  (load (put aeons empty).1).2 = Ok [job "aeons" (Every 0)] /\ validate (fun _ => EmptyString) (spec (job "aeons" (Every 0))) true <> Some (Ok tt).
Proof. split; [vm_compute; reflexivity|]. split; [vm_compute; reflexivity|]. vm_compute. discriminate. Qed.

(** A row that is not what this build writes fails the reading. *)
Example garbage_is_not_skipped : is_ok (load (Build_Db (<["bad"%string := Err "expected value"%string]> (tables with_nightly)) 0 [])).2 = false.
Proof. vm_compute. reflexivity. Qed.

End Demo.
