(* ===== verification/ScheduleTools.v ===== *)
(** * ScheduleTools: an agent's reminders

    [crates/runtime/src/schedule_tools.rs]: the tools with which a conversation schedules a prompt
    for later, lists what it has scheduled and cancels it, over the [Scheduler].  The handler such
    a job runs, which asks the agent, is [job_request] of [Daemon]. *)

From S2P Require Import Prelude Base Agent Daemon Trust Window Tools Text Serde Store Cron Jobs Scheduler JobsRedb.

Local Notation "k =: v" := (k%string, v) (at level 60, only parsing).

(** ** Shared by the tools *)

Definition DEFAULT_CREATE_NAME : string := "schedule.create".
Definition DEFAULT_LIST_NAME : string := "schedule.list".
Definition DEFAULT_CANCEL_NAME : string := "schedule.cancel".
Definition JOB_RESOURCE_PREFIX : string := "job/".
Definition ANY_JOB_RESOURCE : string := "job/*".
Definition MAX_JOB_ID_LENGTH : Z := 128.
Definition MAX_PROMPT_BYTES : Z := 8 * 1024.

Definition parse_job_id (raw : string) : Result JobId :=
  if str_is_empty raw then Err (InvalidArgument "`id` must not be empty")
  else if negb (String.eqb (trim raw) raw) then Err (InvalidArgument "`id` must not begin or end with whitespace")
  else if MAX_JOB_ID_LENGTH <? str_len raw
       then Err (InvalidArgument ("`id` must be at most " +:+ fmt_u MAX_JOB_ID_LENGTH +:+ " bytes, got " +:+ fmt_u (str_len raw)))
  else if existsb is_control (from_utf8_lossy raw) then Err (InvalidArgument "`id` must not contain control characters")
  else Ok raw.

Definition job_resource (id : JobId) : ResourceId := JOB_RESOURCE_PREFIX +:+ id.

Definition from_secs (s : Z) : Duration := s * 1000000000.

(** *** When ([TriggerInput]) *)

Inductive TriggerInput :=
  | Input_At (unix_seconds : Z)
  | Input_After (delay_seconds : Z)
  | Input_Every (interval_seconds : Z)
  | Input_Cron (expression : string).

(** The variant of a tag, and its one field, which is read from what the tag was taken out of. *)
Definition variant {A} (field : string) (read : Value -> option A) (rest : Value) : option A :=
  fields ← struct_fields [field] rest; match fields with [Some v] => read v | _ => None end.

Definition tagged (tag : string) (rest : Value) : option TriggerInput :=
  if bool_decide (tag = "at"%string) then Input_At <$> variant "unix_seconds" as_u64 rest
  else if bool_decide (tag = "after"%string) then Input_After <$> variant "delay_seconds" as_u64 rest
  else if bool_decide (tag = "every"%string) then Input_Every <$> variant "interval_seconds" as_u64 rest
  else if bool_decide (tag = "cron"%string) then Input_Cron <$> variant "expression" Value_as_str rest
  else None.

Definition trigger_input (v : Value) : option TriggerInput :=
  match v with
  | VObject m => tag ← Map_get "type" m; tag ← Value_as_str tag; tagged tag (VObject (List.filter (fun kv => negb (bool_decide (kv.1 = "type"%string))) m))
  | VArray (tag :: rest) => tag ← Value_as_str tag; tagged tag (VArray rest)
  | _ => None
  end.

(** [TriggerInput::into_trigger] *)
Definition into_trigger (self : TriggerInput) : Result Trigger :=
  match self with
  | Input_At unix_seconds =>
      if u64_max <? unix_seconds * 1000 then Err (InvalidArgument "`unix_seconds` is too far in the future to represent")
      else Ok (At (unix_seconds * 1000))
  | Input_After delay_seconds => Ok (After (from_secs delay_seconds))
  | Input_Every interval_seconds => Ok (Every (from_secs interval_seconds))
  | Input_Cron expression => Ok (Cron expression)
  end.

(** [Serialize for Trigger] of [api/src/scheduler.rs] *)
Definition trigger_json (t : Trigger) : Value :=
  match t with
  | At timestamp => json_object ["type" =: VString "at"; "timestamp" =: jint timestamp]
  | After delay => json_object ["type" =: VString "after"; "delay" =: jint (wrap64 (as_millis delay))]
  | Every interval => json_object ["type" =: VString "every"; "interval" =: jint (wrap64 (as_millis interval))]
  | Cron expression => json_object ["type" =: VString "cron"; "expression" =: VString expression]
  | OnEvent event => json_object ["type" =: VString "on_event"; "event" =: VString event]
  end.

(** *** Arguments *)

Definition as_session (parse_session : string -> option SessionId) (v : Value) : option SessionId := s ← Value_as_str v; parse_session s.
Definition as_bool (v : Value) : option bool := match v with VBool b => Some b | _ => None end.

Record CreateInput := { ci_id : string; ci_trigger : TriggerInput; ci_prompt : string; ci_session : option SessionId; ci_persistent : bool }.

Definition create_input (parse_session : string -> option SessionId) (v : Value) : option CreateInput :=
  fields ← struct_fields ["id"; "trigger"; "prompt"; "session"; "persistent"] v;
  match fields with
  | [Some id; Some trigger; Some prompt; session; persistent] =>
      id ← Value_as_str id;
      trigger ← trigger_input trigger;
      prompt ← Value_as_str prompt;
      session ← optional (as_session parse_session) session;
      persistent ← defaulted as_bool true persistent;
      Some {| ci_id := id; ci_trigger := trigger; ci_prompt := prompt; ci_session := session; ci_persistent := persistent |}
  | _ => None
  end.

Definition id_input (v : Value) : option string :=
  fields ← struct_fields ["id"] v;
  match fields with [Some id] => Value_as_str id | _ => None end.

(** ** The tools *)

(** What the tools are bound to, whether it is there still, and the scheduler, whose trace counts
    the readings of the kernel's clock. *)
Record Binding (D : Type) := { bound : bool; running_still : bool; scheduler : State D }.
Arguments bound {D}. Arguments running_still {D}. Arguments scheduler {D}. Arguments Build_Binding {D}.

Definition not_bound : Error := Lifecycle "schedule tools are not bound to a scheduler; add `ScheduleToolsComponent` to the kernel".
Definition already_bound : Error := Lifecycle "schedule tools are already bound".
Definition no_longer_running : Error := Lifecycle "the scheduler this tool was bound to is no longer running".

Section Tools.
  Context {C : Calendar} {D : Type} `{JobStore D}.
  Context (duration_debug : Duration -> string) (clock : nat -> Timestamp).
  Context (parse_session : string -> option SessionId) (serde_refusal : Value -> string).

Abbreviation M := (action (Binding D) Interrupt).

Definition failing {A} (r : Result A) : M A := lift (map_err Fail r).

(** [ScheduleToolBinding::bind], [scheduler], [clock] *)
Definition bind_scheduler (s : State D) : M unit := fun b =>
  if bound b then (b, Err (Fail already_bound)) else (Build_Binding true true s, Ok tt).

Definition check_bound : M unit := let! is_bound := gets bound in if is_bound : bool then ret tt else throw (Fail not_bound).

Definition check_scheduler : M unit :=
  check_bound ;! let! there := gets running_still in if there : bool then ret tt else throw (Fail no_longer_running).

Definition on_scheduler {A} (m : action (State D) Interrupt A) : M A := fun b =>
  let (s, r) := m (scheduler b) in (Build_Binding (bound b) (running_still b) s, r).

(** [ensure_live], of the binding's clock *)
Definition ensure_live (cx : ExecutionContext) : M unit :=
  check_bound ;!
  if cancellation cx then throw (Fail Cancelled)
  else match deadline cx with
       | None => ret tt
       | Some deadline => let! now := on_scheduler (now clock) in if deadline <=? now then throw (Fail (Timeout 0)) else ret tt
       end.

Definition arguments_error (name : ToolName) (arguments : Value) : Error :=
  InvalidArgument ("invalid arguments for `" +:+ name +:+ "`: " +:+ serde_refusal arguments).

(** [ScheduleCreateTool] *)
Record ScheduleCreateTool := { create_name : ToolName; create_action : ActionId; create_handler : ComponentId; max_prompt_bytes : Z }.

Definition ScheduleCreateTool_new (handler : ComponentId) : ScheduleCreateTool :=
  {| create_name := DEFAULT_CREATE_NAME; create_action := DEFAULT_CREATE_NAME; create_handler := handler; max_prompt_bytes := MAX_PROMPT_BYTES |}.

Definition create_parse (self : ScheduleCreateTool) (arguments : Value) : Result CreateInput :=
  ok_or (create_input parse_session arguments) (arguments_error (create_name self) arguments).

Definition create_planned (self : ScheduleCreateTool) (arguments : Value) : Result (list ResourceClaim) :=
  let? input := create_parse self arguments in
  let? id := parse_job_id (ci_id input) in
  Ok [{| claim_action := create_action self; claim_resource := job_resource id |}].

Definition create_payload (prompt : string) (session : option SessionId) : Value :=
  VObject (let payload := Map_insert "prompt" (VString prompt) [] in
           match session with Some session => Map_insert "session" (VString session) payload | None => payload end).

(** [JobSpec::new], [with_payload], [persistent] *)
Definition create_job (self : ScheduleCreateTool) (id : JobId) (t : Trigger) (input : CreateInput) : JobSpec :=
  {| spec_id := id; trigger := t; handler := create_handler self; payload := create_payload (ci_prompt input) (ci_session input);
     persistent := ci_persistent input; retry := RetryPolicy_none; timeout := None |}.

Definition too_long (self : ScheduleCreateTool) (prompt : string) : ToolOutcome :=
  ToolOutcome_error (json_object ["error" =: VString ("prompt is " +:+ fmt_u (str_len prompt) +:+ " bytes; the limit is " +:+
    fmt_u (max_prompt_bytes self) +:+ " — ask for something shorter")]).

Definition create_invoke (self : ScheduleCreateTool) (arguments : Value) (cx : ExecutionContext) : M ToolOutcome :=
  let! input := failing (create_parse self arguments) in
  let! id := failing (parse_job_id (ci_id input)) in
  ensure_live cx ;!
  if str_is_empty (trim (ci_prompt input)) then throw (Fail (InvalidArgument "`prompt` must not be empty"))
  else if max_prompt_bytes self <? str_len (ci_prompt input) then ret (too_long self (ci_prompt input))
  else
    let! t := failing (into_trigger (ci_trigger input)) in
    check_scheduler ;!
    on_scheduler (schedule_job duration_debug clock (create_job self id t input) cx) ;!
    ret (ToolOutcome_ok (json_object ["id" =: VString id; "persistent" =: VBool (ci_persistent input)])).

(** [ScheduleListTool] *)
Record ScheduleListTool := { list_name : ToolName; list_action : ActionId }.

Definition list_planned (self : ScheduleListTool) (arguments : Value) : Result (list ResourceClaim) :=
  Ok [{| claim_action := list_action self; claim_resource := ANY_JOB_RESOURCE |}].

Definition render_job (job : ScheduledJob) : Value :=
  json_object
    (["id" =: VString (spec_id (sj_spec job)); "trigger" =: trigger_json (trigger (sj_spec job)); "payload" =: payload (sj_spec job);
      "persistent" =: VBool (persistent (sj_spec job))]
     ++ match sj_next_run job with Some next_run => ["next_run" =: jint next_run] | None => [] end
     ++ match sj_last_run job with Some last_run => ["last_run" =: jint last_run] | None => [] end).

Definition list_output (jobs : list ScheduledJob) : Value :=
  json_object ["count" =: jint (Z.of_nat (length jobs)); "jobs" =: VArray (map render_job jobs)].

Definition list_invoke (cx : ExecutionContext) : M ToolOutcome :=
  ensure_live cx ;!
  check_scheduler ;!
  let! jobs := on_scheduler (gets (list_jobs cx)) in
  ret (ToolOutcome_ok (list_output jobs)).

(** [ScheduleCancelTool] *)
Record ScheduleCancelTool := { cancel_name : ToolName; cancel_action : ActionId }.

Definition cancel_parse (self : ScheduleCancelTool) (arguments : Value) : Result string :=
  ok_or (id_input arguments) (arguments_error (cancel_name self) arguments).

Definition cancel_planned (self : ScheduleCancelTool) (arguments : Value) : Result (list ResourceClaim) :=
  let? raw := cancel_parse self arguments in
  let? id := parse_job_id raw in
  Ok [{| claim_action := cancel_action self; claim_resource := job_resource id |}].

Definition cancel_invoke (self : ScheduleCancelTool) (arguments : Value) (cx : ExecutionContext) : M ToolOutcome :=
  let! raw := failing (cancel_parse self arguments) in
  let! id := failing (parse_job_id raw) in
  ensure_live cx ;!
  check_scheduler ;!
  let! cancelled := on_scheduler (cancel id cx) in
  ret (ToolOutcome_ok (json_object ["id" =: VString id; "cancelled" =: VBool cancelled])).
End Tools.

(** ** Specifications *)

Definition bounded_string (description : string) (max : Z) : Value :=
  json_object ["type" =: VString "string"; "description" =: VString description; "maxLength" =: jint max].

Definition natural (minimum : Z) : Value := json_object ["type" =: VString "integer"; "minimum" =: jint minimum].
Definition trigger_schema (tag field : string) (field_schema : Value) : Value :=
  json_object ["type" =: VString "object"; "properties" =: json_object ["type" =: json_object ["const" =: VString tag]; (field, field_schema)];
               jrequired ["type"%string; field]].

Definition trigger_schemas : Value :=
  json_object ["type" =: VString "object"; "description" =: VString "When to fire.";
    "oneOf" =: VArray [trigger_schema "at" "unix_seconds" (natural 0); trigger_schema "after" "delay_seconds" (natural 0);
                       trigger_schema "every" "interval_seconds" (natural 1); trigger_schema "cron" "expression" (jtype "string")]].

Definition create_spec (self : ScheduleCreateTool) : ToolSpec :=
  {| spec_name := create_name self;
     spec_description :=
       "Schedules a prompt to be asked of you later, once or repeatedly, " +:+
       "without anybody there to type it. `id` names the reminder, so " +:+
       "scheduling again with the same `id` replaces it. `persistent` " +:+
       "(default true) asks for it to survive a restart; some deployments " +:+
       "cannot offer that and will refuse rather than silently forgetting.";
     spec_input_schema := closed_object (json_object
       ["id" =: bounded_string "Name for this reminder. Reusing an id replaces it." MAX_JOB_ID_LENGTH;
        "trigger" =: trigger_schemas;
        "prompt" =: bounded_string "What to ask yourself when this fires." (max_prompt_bytes self);
        "session" =: jstring ("Id of an existing conversation to append the firing " +:+ "to. Omit for a fresh one each time.");
        "persistent" =: json_object ["type" =: VString "boolean"; "description" =: VString "Survive a restart. Defaults to true."]])
       [jrequired ["id"; "trigger"; "prompt"]];
     spec_output_schema := Some (closed_object (json_object ["id" =: jtype "string"; "persistent" =: jtype "boolean"; "error" =: jtype "string"]) []);
     spec_required_permissions := [create_action self]; spec_read_only := false; spec_output_trust := Trusted; spec_reach := Mutating |}.

Definition list_spec (self : ScheduleListTool) : ToolSpec :=
  {| spec_name := list_name self;
     spec_description := "Lists your scheduled prompts: what they ask, when they next fire, " +:+ "and whether they survive a restart.";
     spec_input_schema := closed_object (VObject []) [];
     spec_output_schema := Some (closed_object (json_object
       ["count" =: jtype "integer";
        "jobs" =: json_object ["type" =: VString "array"; "items" =: closed_object (json_object
          ["id" =: jtype "string"; "trigger" =: jtype "object"; "payload" =: VObject []; "persistent" =: jtype "boolean"; "next_run" =: jtype "integer";
           "last_run" =: jtype "integer"]) [jrequired ["id"; "trigger"; "payload"; "persistent"]]]])
       [jrequired ["count"; "jobs"]]);
     spec_required_permissions := [list_action self]; spec_read_only := true; spec_output_trust := Untrusted; spec_reach := Contained |}.

Definition cancel_spec (self : ScheduleCancelTool) : ToolSpec :=
  {| spec_name := cancel_name self;
     spec_description := "Cancels one of your scheduled prompts, by id. Reports whether " +:+ "there was one to cancel.";
     spec_input_schema := closed_object (json_object ["id" =: jstring "Id of the reminder to cancel."]) [jrequired ["id"]];
     spec_output_schema := Some (closed_object (json_object ["id" =: jtype "string"; "cancelled" =: jtype "boolean"]) [jrequired ["id"; "cancelled"]]);
     spec_required_permissions := [cancel_action self]; spec_read_only := false; spec_output_trust := Trusted; spec_reach := Mutating |}.

(** ** What a call comes to *)

Lemma parse_job_id_ok raw id : parse_job_id raw = Ok id -> id = raw /\ 0 < str_len id <= MAX_JOB_ID_LENGTH.
Proof.
  unfold parse_job_id. destruct raw as [|c raw]; [done|]. cbn [str_is_empty]. destruct (negb _); [done|]. destruct (Z.ltb_spec MAX_JOB_ID_LENGTH (str_len (String c raw))); [done|].
  destruct (existsb _ _); [done|]. intros [= <-]. split; [done|]. unfold str_len in *. simpl in *. lia.
Qed.

Section Effects.
  Context {C : Calendar} {D : Type} `{JobStore D}.
  Context (duration_debug : Duration -> string) (clock : nat -> Timestamp).
  Context (parse_session : string -> option SessionId) (serde_refusal : Value -> string).

Implicit Types s : State D.

(** Who may replace a job, and whose the new one is. *)
Definition owner_of (p : Principal) (id : JobId) s (st : JobState) : Prop :=
  match schedule s !! id with
  | Some previous => owner st = owner previous /\ may_act_for p (principal_id (owner previous)) = true
  | None => owner st = p
  end.

Lemma with_store_schedule (op : D -> D * Result unit) : keeps (fun s s' => schedule s' = schedule s) (with_store op).
Proof using. intros s s' r. unfold with_store. destruct (store s) as [d|]; [|by intros [= <- _]]. destruct (op d). by intros [= <- _]. Qed.

Lemma install_schedule st was s s' r : install st was s = (s', r) ->
  schedule s' = if is_ok r then <[spec_id (spec st) := st]> (schedule s) else schedule s.
Proof using.
  unfold install. intros Hi. peel Hi E.
  - peel_pure Hi. unfold notify_one in Hi. injection Hi as <- <-. cbn. f_equal.
    destruct (persistent (spec st)); [by apply with_store_schedule in E|]. destruct was; [by apply with_store_schedule in E|by injection E as <- _].
  - cbn. destruct (persistent (spec st)); [by apply with_store_schedule in E|]. destruct was; [by apply with_store_schedule in E|by injection E as <- _].
Qed.

(** Scheduling replaces one entry, or none. *)
Lemma schedule_job_schedule sp cx s s' r : schedule_job duration_debug clock sp cx s = (s', r) ->
  match r with
  | Ok _ => exists st, spec st = sp /\ owner_of (principal_or_system cx) (spec_id sp) s st /\ schedule s' = <[spec_id sp := st]> (schedule s)
  | Err _ => schedule s' = schedule s
  end.
Proof using.
  unfold schedule_job, owner_of. intros Hs. peel_pure Hs. destruct (tasks_cancelled s); [by injection Hs as <- <-|]. peel_pure Hs.
  peel Hs Ev; unfold no_panic, lift in Ev; injection Ev as <- _; [|done]. peel Hs Ev; unfold fallible, lift in Ev; injection Ev as <- _; [|done].
  peel Hs En; unfold now in En; [injection En as <- _|done]. set (s1 := set_trace _ s) in Hs. peel_pure Hs. change (schedule s1) with (schedule s) in Hs.
  assert (Hown : forall s2 o, (match schedule s !! spec_id sp with
      | Some previous => let! _ := fallible (authorize (spec_id sp) (principal_id (owner previous)) (principal_or_system cx)) in ret (owner previous)
      | None => ret (principal_or_system cx) end) s1 = (s2, o) -> s2 = s1 /\ forall p, o = Ok p ->
      match schedule s !! spec_id sp with
      | Some previous => p = owner previous /\ may_act_for (principal_or_system cx) (principal_id (owner previous)) = true
      | None => p = principal_or_system cx end).
  { intros s2 o. destruct (schedule s !! spec_id sp) as [previous|]; [|intros [= <- <-]; split; [done|by intros p [= ->]]].
    unfold bind, fallible, lift. destruct (authorize_cases (spec_id sp) (principal_id (owner previous)) (principal_or_system cx)) as [[-> Hm]|(m & -> & _)];
      cbn; intros [= <- <-]; split; try done. by intros p [= <-]. }
  peel Hs Eo; apply Hown in Eo as [-> Hp]; [|done]. specialize (Hp _ eq_refl). clear Hown. peel Hs En; unfold no_panic, lift in En; injection En as <- _; [|done].
  apply install_schedule in Hs. destruct r as [u|e]; [|done]. eexists. split; [|split; [|exact Hs]]; [done|]. by destruct (schedule s !! spec_id sp).
Qed.

Lemma ensure_live_schedule cx (b b' : Binding D) r : ensure_live clock cx b = (b', r) ->
  schedule (scheduler b') = schedule (scheduler b) /\ running (scheduler b') = running (scheduler b) /\ cancelled_runs (scheduler b') = cancelled_runs (scheduler b).
Proof using.
  unfold ensure_live, check_bound, bind, gets. destruct (bound b); [|by intros [= <- _]]. cbn. destruct (cancellation cx); [by intros [= <- _]|].
  destruct (deadline cx) as [deadline|]; [|by intros [= <- _]]. unfold on_scheduler, now. cbn. by destruct (deadline <=? _); intros [= <- _].
Qed.

Lemma check_scheduler_same (b b' : Binding D) r : check_scheduler b = (b', r) -> b' = b.
Proof using.
  unfold check_scheduler, check_bound, bind, gets. destruct (bound b); [|by intros [= <- _]]. cbn. by destruct (running_still b); intros [= <- _].
Qed.

(** The payload is read back by the handler as it was given. *)
Lemma create_payload_reads prompt session : str_is_empty (trim prompt) = false ->
  (forall t, session = Some t -> parse_session t = Some t) ->
  payload_parse parse_session serde_refusal (create_payload prompt session) = Ok {| job_prompt := prompt; job_session := session |}.
Proof using.
  intros Hp Hs. assert (H1 : payload_from_value parse_session (create_payload prompt session) =
    (fun o => {| job_prompt := prompt; job_session := o |}) <$> (match session with Some t => Some <$> parse_session t | None => Some None end)).
  { destruct session as [t|]; [|reflexivity].
    change (payload_from_value parse_session (create_payload prompt (Some t))) with
      (match (Some <$> parse_session t) with Some o => Some {| job_prompt := prompt; job_session := o |} | None => None end). by destruct (parse_session t). }
  unfold payload_parse. rewrite H1. destruct session as [t|]; [rewrite (Hs t eq_refl)|]; cbn [fmap option_fmap option_map job_prompt]; rewrite Hp; reflexivity.
Qed.

Lemma into_trigger_plain input t : into_trigger input = Ok t -> forall event, t <> OnEvent event.
Proof using. destruct input; cbn; [destruct (_ <? _); [done|]|..]; intros [= <-] event; done. Qed.

Lemma create_input_session v input : (forall raw t, parse_session raw = Some t -> parse_session t = Some t) ->
  create_input parse_session v = Some input -> forall t, ci_session input = Some t -> parse_session t = Some t.
Proof using.
  intros Hcanon. unfold create_input. destruct (struct_fields _ v) as [fields|]; [|done]. cbn.
  destruct fields as [|[id|] [|[trig|] [|[pr|] [|se [|pe [|]]]]]]; try done.
  destruct (Value_as_str id) as [?|]; [|done]. destruct (trigger_input trig) as [?|]; [|done]. destruct (Value_as_str pr) as [?|]; [|done]. cbn.
  destruct (optional (as_session parse_session) se) as [sess|] eqn:Es; [|done]. cbn. destruct (defaulted _ _ _); [|done]. intros [= <-]. cbn. intros t0 ->.
  unfold optional, as_session in Es. destruct se as [[]|]; cbn in Es; try done. destruct (parse_session _) as [t'|] eqn:Et; [|done]. injection Es as <-. by eapply Hcanon.
Qed.


(** A listing changes no job and shows the caller every job it may act for, and no other. *)
Theorem listings_show_whose_they_are (cx : ExecutionContext) (b b' : Binding D) (r : result Interrupt ToolOutcome) :
  list_invoke clock cx b = (b', r) ->
  schedule (scheduler b') = schedule (scheduler b) /\
  forall o, r = Ok o -> exists jobs, output o = list_output jobs /\
    forall j, j ∈ jobs <-> exists id st, schedule (scheduler b) !! id = Some st /\ j = to_scheduled st /\
      may_act_for (principal_or_system cx) (principal_id (owner st)) = true.
Proof using.
  unfold list_invoke. intros Hl. peel Hl E; apply ensure_live_schedule in E as (El & _ & _); [|by split].
  peel Hl E; apply check_scheduler_same in E as ->; [|by split]. unfold bind, on_scheduler, gets in Hl. injection Hl as <- <-.
  split; [exact El|]. intros o [= <-]. eexists. split; [reflexivity|]. intros j. unfold list_jobs, values. rewrite El, list_elem_of_fmap.
  split.
  - intros (st & -> & [Hin Hm]%list_elem_of_In%filter_In). apply list_elem_of_In, list_elem_of_fmap in Hin as ([id st'] & -> & Hin).
    rewrite merge_sort_Permutation in Hin. apply elem_of_map_to_list in Hin. by exists id, st'.
  - intros (id & st & Hst & -> & Hm). exists st. split; [done|]. apply list_elem_of_In, filter_In. split; [|done].
    apply list_elem_of_In, list_elem_of_fmap. exists (id, st). split; [done|]. rewrite merge_sort_Permutation. by apply elem_of_map_to_list.
Qed.

(** A call that cancels removes the one job it claimed, and stops the run of it that is going on,
    if it may act for whoever each of them belongs to; any other call changes nothing, and says so
    where there was nothing to cancel. *)
Theorem cancellations_are_what_was_claimed `{!JobStoreLaws D} (self : ScheduleCancelTool) (args : Value) (cx : ExecutionContext) (b b' : Binding D) (r : result Interrupt ToolOutcome) :
  cancel_invoke clock serde_refusal self args cx b = (b', r) ->
  (schedule (scheduler b') = schedule (scheduler b) /\ cancelled_runs (scheduler b') = cancelled_runs (scheduler b) /\
   forall o, r = Ok o -> exists id, Value_get (output o) "cancelled" = Some (VBool false) /\ schedule (scheduler b) !! id = None) \/
  exists id o, r = Ok o /\ Value_get (output o) "cancelled" = Some (VBool true) /\
    cancel_planned serde_refusal self args = Ok [{| claim_action := cancel_action self; claim_resource := job_resource id |}] /\
    may_cancel (principal_or_system cx) id (scheduler b) /\
    schedule (scheduler b') = delete id (schedule (scheduler b)) /\
    (forall run, run ∈ cancelled_runs (scheduler b') -> run ∈ cancelled_runs (scheduler b) \/
       exists slot, running (scheduler b) !! id = Some slot /\ run = slot_run slot).
Proof using.
  unfold cancel_invoke, failing. intros Hc. peel Hc E; unfold lift in E; injection E as <- Ei; [|by left].
  destruct (cancel_parse _ self args) as [raw|] eqn:Ep; [|done]. injection Ei as <-. peel Hc E; injection E as <- Ej; [|by left].
  destruct (parse_job_id raw) as [id|] eqn:Eid; [|done]. injection Ej as <-.
  assert (Hplan : cancel_planned serde_refusal self args = Ok [{| claim_action := cancel_action self; claim_resource := job_resource id |}])
    by (unfold cancel_planned; rewrite Ep; cbn; by rewrite Eid).
  peel Hc E; apply ensure_live_schedule in E as (El & Er & Et); [|by left]. peel Hc E; apply check_scheduler_same in E; [|left; by subst]. subst.
  assert (Hmay : may_cancel (principal_or_system cx) id (scheduler s) -> may_cancel (principal_or_system cx) id (scheduler b)) by (unfold may_cancel; by rewrite El, Er).
  unfold bind, on_scheduler in Hc. destruct (cancel id cx (scheduler s)) as [s' r'] eqn:Es. apply cancel_cancelled in Es. cbn in Es.
  destruct Es as [s' e (Hs & _ & _ & _ & Ht & _) _|Hs Hrun|s' Hm _ Hs _ Ht _]; injection Hc as <- <-; cbn.
  - left. split_and!; [congruence|congruence|done].
  - left. split_and!; [done|done|]. intros o [= <-]. exists id. split; [done|]. by rewrite <- El.
  - right. exists id. eexists. split_and!; [done|reflexivity|done|by apply Hmay|congruence|]. intros run. rewrite Ht, Er, Et.
    destruct (running (scheduler b) !! id) as [slot|]; [|by left]. intros [->%elem_of_singleton|]%elem_of_union; [right; by exists slot|by left].
Qed.
End Effects.

(** ** Reminders over the schedule on disk *)

Module Demo.
#[local] Existing Instance banker_calendar.

Definition clock (n : nat) : Timestamp := 1000 + Z.of_nat n.
Definition debug (d : Duration) : string := EmptyString.
Definition words_of (v : Value) : string := "refused".
(** The identifiers of this example are the strings of four characters. *)
Definition read_session (raw : string) : option SessionId := if str_len raw =? 4 then Some raw else None.

Definition as_user (name : string) : ExecutionContext :=
  {| correlation := "c"; principal := Some (Principal_new name User); deadline := None; cancellation := false; attributes := [] |}.

Definition create : ScheduleCreateTool := ScheduleCreateTool_new "agent.jobs".
Definition cancel_tool : ScheduleCancelTool := {| cancel_name := DEFAULT_CANCEL_NAME; cancel_action := DEFAULT_CANCEL_NAME |}.

Definition arguments (when : list (string * Value)) : Value :=
  json_object ["id" =: VString "standup"; "trigger" =: json_object when; "prompt" =: VString "what is open?"; "session" =: VString "abcd"].
Definition each_minute : list (string * Value) := ["type" =: VString "every"; "interval_seconds" =: jint 60].

Definition unused : Binding (Db Jobs_table) := Build_Binding true true (build (Some (Build_Db ∅ 0 []))).
Definition creates (name : string) (when : list (string * Value)) (b : Binding (Db Jobs_table)) :=
  create_invoke debug clock read_session words_of create (arguments when) (as_user name) b.
Definition cancels (name : string) (b : Binding (Db Jobs_table)) :=
  cancel_invoke clock words_of cancel_tool (json_object ["id" =: VString "standup"]) (as_user name) b.

Definition scheduled : Binding (Db Jobs_table) := (creates "alice" each_minute unused).1.

(** Alice's reminder is on the disk; Bob can neither replace nor cancel it. *)
Definition on_disk (b : Binding (Db Jobs_table)) : list (JobId * Principal) :=
  match store (scheduler b) with Some d => map (fun p => (p.1, owner p.2)) (map_to_list (jobs_on_disk d)) | None => [] end.

Example whose_it_is :
  on_disk scheduled = [("standup", Principal_new "alice" User)]%string /\
  is_ok (creates "bob" each_minute scheduled).2 = false /\ is_ok (cancels "bob" scheduled).2 = false /\ on_disk (cancels "alice" scheduled).1 = [].
Proof. vm_compute. split_and!; reflexivity. Qed.

Lemma read_session_canonical raw t : read_session raw = Some t -> read_session t = Some t.
Proof. unfold read_session. destruct (str_len raw =? 4) eqn:E; [|done]. intros [= <-]. by rewrite E. Qed.

Lemma reminder_scheduled : schedule (scheduler scheduled) <> schedule (scheduler unused).
Proof.
  assert (Hs : schedule (scheduler scheduled) !! "standup"%string = None -> False) by (vm_compute; discriminate).
  intros H. apply Hs. by rewrite H.
Qed.


Lemma cancellations_are_what_was_claimed_witness :
  cancelled_runs (scheduler (cancels "bob" scheduled).1) = cancelled_runs (scheduler scheduled).
Proof.
  assert (Hr : is_ok (cancels "bob" scheduled).2 = false) by (vm_compute; reflexivity).
  destruct (cancellations_are_what_was_claimed clock words_of cancel_tool (json_object ["id" =: VString "standup"]) (as_user "bob") scheduled
    (cancels "bob" scheduled).1 (cancels "bob" scheduled).2 (surjective_pairing _)) as [(_ & H & _)|(id & o & Ho & _)]; [exact H|].
  by rewrite Ho in Hr.
Defined.

Lemma listings_show_whose_they_are_witness : schedule (scheduler (list_invoke clock (as_user "bob") scheduled).1) = schedule (scheduler scheduled).
Proof. apply (listings_show_whose_they_are clock (as_user "bob") scheduled (list_invoke clock (as_user "bob") scheduled).1 (list_invoke clock (as_user "bob") scheduled).2 (surjective_pairing _)). Defined.

(** An expression is not bounded as a prompt is: one of forty thousand bytes is stored. *)
Fixpoint zeros (n : nat) : string := match n with O => "0" | S n => "0," +:+ zeros n end.
Definition long_expression : string := zeros (20 * 1000) +:+ " * * * *".

Lemma an_expression_is_not_bounded :
  MAX_PROMPT_BYTES < str_len long_expression /\
  on_disk (creates "alice" ["type" =: VString "cron"; "expression" =: VString long_expression] unused).1 = [("standup", Principal_new "alice" User)]%string.
Proof. vm_compute. split; reflexivity. Qed.

(** A wait of more seconds than 64 bits hold milliseconds is accepted, shown as none, and over at
    once: the clock, whose first reading is 1000, adds none. *)
Lemma a_long_wait_is_none :
  match (list_invoke clock (as_user "alice") (creates "alice" ["type" =: VString "every"; "interval_seconds" =: jint (2 ^ 61)] unused).1).2 with
  | Ok o => Value_get (output o) "jobs" = Some (VArray [json_object
      ["id" =: VString "standup"; "trigger" =: json_object ["type" =: VString "every"; "interval" =: jint 0];
       "payload" =: create_payload "what is open?" (Some "abcd"%string); "persistent" =: VBool true; "next_run" =: jint 1000]])
  | Err _ => False
  end.
Proof. vm_compute. reflexivity. Qed.

End Demo.
