(* ===== verification/Args.v ===== *)
(** * Args: what the command lines mean

    [crates/cli/src/args.rs] and [crates/daemon/src/args.rs]: the flags of [aik] and [aikd], with
    the choices they name ([crates/runtime/src/settings.rs]).  The two programs share most of
    their flags: [Options] holds what both take, and each program's own options hold one of it. *)

From S2P Require Import Prelude Base Text AuditTrail.

Local Open Scope string_scope.

(** ** The choices ([runtime/src/settings.rs]) *)

Inductive Provider := Provider_Ollama | Provider_Anthropic | Provider_OpenAi.
Inductive ToolSet := Tools_None | Tools_ReadOnly | Tools_ReadWrite.
Inductive MemorySet := Memory_Off | Memory_Recall | Memory_Remember | Memory_Full.
Inductive ExecSet := Exec_Off | Exec_Sandboxed | Exec_Unconfined.
Inductive McpSet := Mcp_Off | Mcp_On.
Inductive NetSet := Net_Off | Net_On.

(** The name among some that is meant. *)
Fixpoint named {A} (names : list (string * A)) (raw : string) : option A :=
  match names with [] => None | (name, a) :: names => if String.eqb raw name then Some a else named names raw end.

Definition Provider_names := [("ollama", Provider_Ollama); ("anthropic", Provider_Anthropic); ("openai", Provider_OpenAi)].
Definition MemorySet_names := [("off", Memory_Off); ("recall", Memory_Recall); ("remember", Memory_Remember); ("full", Memory_Full)].
Definition ExecSet_names := [("off", Exec_Off); ("sandboxed", Exec_Sandboxed); ("unconfined", Exec_Unconfined)].
Definition McpSet_names := [("off", Mcp_Off); ("on", Mcp_On)].
Definition NetSet_names := [("off", Net_Off); ("on", Net_On)].

Definition Provider_parse (raw : string) : Result Provider :=
  ok_or (named Provider_names (trim raw)) (InvalidArgument ("provider takes one of ollama, anthropic, openai; got `" +:+ trim raw +:+ "`")).
Definition MemorySet_parse (raw : string) : Result MemorySet :=
  ok_or (named MemorySet_names raw) (InvalidArgument ("memory takes one of off, recall, remember, full; got `" +:+ raw +:+ "`")).
Definition ExecSet_parse (raw : string) : Result ExecSet :=
  ok_or (named ExecSet_names raw) (InvalidArgument ("exec takes one of off, sandboxed, unconfined; got `" +:+ raw +:+ "`")).
Definition McpSet_parse (raw : string) : Result McpSet :=
  ok_or (named McpSet_names raw) (InvalidArgument ("unknown MCP mode `" +:+ raw +:+ "`; expected one of off, on")).
Definition NetSet_parse (raw : string) : Result NetSet :=
  ok_or (named NetSet_names raw) (InvalidArgument ("unknown network mode `" +:+ raw +:+ "`; expected one of off, on")).

(** [as_str] *)
Definition Provider_as_str (self : Provider) : string :=
  match self with Provider_Ollama => "ollama" | Provider_Anthropic => "anthropic" | Provider_OpenAi => "openai" end.
Definition MemorySet_as_str (self : MemorySet) : string :=
  match self with Memory_Off => "off" | Memory_Recall => "recall" | Memory_Remember => "remember" | Memory_Full => "full" end.
Definition ExecSet_as_str (self : ExecSet) : string :=
  match self with Exec_Off => "off" | Exec_Sandboxed => "sandboxed" | Exec_Unconfined => "unconfined" end.
Definition McpSet_as_str (self : McpSet) : string := match self with Mcp_Off => "off" | Mcp_On => "on" end.
Definition NetSet_as_str (self : NetSet) : string := match self with Net_Off => "off" | Net_On => "on" end.

(** ** What both programs take *)

Record Options := {
  o_socket : option string;
  o_model : option string;
  o_embedding_model : option string;
  o_provider : option Provider;
  o_agent : option string;
  o_user : option string;
  o_root : option string;
  o_config : option string;
  o_policy : option string;
  o_write : bool;
  o_no_tools : bool;
  o_exec : option ExecSet;
  o_mcp : option McpSet;
  o_net : option NetSet;
  o_memory : option MemorySet;
  o_database : option string;
  o_ephemeral : bool;
}.

Definition Options_default : Options :=
  {| o_socket := None; o_model := None; o_embedding_model := None; o_provider := None; o_agent := None; o_user := None; o_root := None; o_config :=
     None; o_policy := None; o_write := false; o_no_tools := false; o_exec := None; o_mcp := None; o_net := None; o_memory := None; o_database :=
     None; o_ephemeral := false |}.

Definition set_socket (v : option string) (o : Options) : Options :=
  {| o_socket := v; o_model := o_model o; o_embedding_model := o_embedding_model o; o_provider := o_provider o; o_agent := o_agent o; o_user := o_user
     o; o_root := o_root o; o_config := o_config o; o_policy := o_policy o; o_write := o_write o; o_no_tools := o_no_tools o; o_exec := o_exec o;
     o_mcp := o_mcp o; o_net := o_net o; o_memory := o_memory o; o_database := o_database o; o_ephemeral := o_ephemeral o |}.
Definition set_model (v : option string) (o : Options) : Options :=
  {| o_socket := o_socket o; o_model := v; o_embedding_model := o_embedding_model o; o_provider := o_provider o; o_agent := o_agent o; o_user :=
     o_user o; o_root := o_root o; o_config := o_config o; o_policy := o_policy o; o_write := o_write o; o_no_tools := o_no_tools o; o_exec := o_exec
     o; o_mcp := o_mcp o; o_net := o_net o; o_memory := o_memory o; o_database := o_database o; o_ephemeral := o_ephemeral o |}.
Definition set_embedding_model (v : option string) (o : Options) : Options :=
  {| o_socket := o_socket o; o_model := o_model o; o_embedding_model := v; o_provider := o_provider o; o_agent := o_agent o; o_user := o_user o;
     o_root := o_root o; o_config := o_config o; o_policy := o_policy o; o_write := o_write o; o_no_tools := o_no_tools o; o_exec := o_exec o; o_mcp
     := o_mcp o; o_net := o_net o; o_memory := o_memory o; o_database := o_database o; o_ephemeral := o_ephemeral o |}.
Definition set_provider (v : option Provider) (o : Options) : Options :=
  {| o_socket := o_socket o; o_model := o_model o; o_embedding_model := o_embedding_model o; o_provider := v; o_agent := o_agent o; o_user := o_user
     o; o_root := o_root o; o_config := o_config o; o_policy := o_policy o; o_write := o_write o; o_no_tools := o_no_tools o; o_exec := o_exec o;
     o_mcp := o_mcp o; o_net := o_net o; o_memory := o_memory o; o_database := o_database o; o_ephemeral := o_ephemeral o |}.
Definition set_agent (v : option string) (o : Options) : Options :=
  {| o_socket := o_socket o; o_model := o_model o; o_embedding_model := o_embedding_model o; o_provider := o_provider o; o_agent := v; o_user :=
     o_user o; o_root := o_root o; o_config := o_config o; o_policy := o_policy o; o_write := o_write o; o_no_tools := o_no_tools o; o_exec := o_exec
     o; o_mcp := o_mcp o; o_net := o_net o; o_memory := o_memory o; o_database := o_database o; o_ephemeral := o_ephemeral o |}.
Definition set_user (v : option string) (o : Options) : Options :=
  {| o_socket := o_socket o; o_model := o_model o; o_embedding_model := o_embedding_model o; o_provider := o_provider o; o_agent := o_agent o; o_user
     := v; o_root := o_root o; o_config := o_config o; o_policy := o_policy o; o_write := o_write o; o_no_tools := o_no_tools o; o_exec := o_exec o;
     o_mcp := o_mcp o; o_net := o_net o; o_memory := o_memory o; o_database := o_database o; o_ephemeral := o_ephemeral o |}.
Definition set_root (v : option string) (o : Options) : Options :=
  {| o_socket := o_socket o; o_model := o_model o; o_embedding_model := o_embedding_model o; o_provider := o_provider o; o_agent := o_agent o; o_user
     := o_user o; o_root := v; o_config := o_config o; o_policy := o_policy o; o_write := o_write o; o_no_tools := o_no_tools o; o_exec := o_exec o;
     o_mcp := o_mcp o; o_net := o_net o; o_memory := o_memory o; o_database := o_database o; o_ephemeral := o_ephemeral o |}.
Definition set_config (v : option string) (o : Options) : Options :=
  {| o_socket := o_socket o; o_model := o_model o; o_embedding_model := o_embedding_model o; o_provider := o_provider o; o_agent := o_agent o; o_user
     := o_user o; o_root := o_root o; o_config := v; o_policy := o_policy o; o_write := o_write o; o_no_tools := o_no_tools o; o_exec := o_exec o;
     o_mcp := o_mcp o; o_net := o_net o; o_memory := o_memory o; o_database := o_database o; o_ephemeral := o_ephemeral o |}.
Definition set_policy (v : option string) (o : Options) : Options :=
  {| o_socket := o_socket o; o_model := o_model o; o_embedding_model := o_embedding_model o; o_provider := o_provider o; o_agent := o_agent o; o_user
     := o_user o; o_root := o_root o; o_config := o_config o; o_policy := v; o_write := o_write o; o_no_tools := o_no_tools o; o_exec := o_exec o;
     o_mcp := o_mcp o; o_net := o_net o; o_memory := o_memory o; o_database := o_database o; o_ephemeral := o_ephemeral o |}.
Definition set_write (v : bool) (o : Options) : Options :=
  {| o_socket := o_socket o; o_model := o_model o; o_embedding_model := o_embedding_model o; o_provider := o_provider o; o_agent := o_agent o; o_user
     := o_user o; o_root := o_root o; o_config := o_config o; o_policy := o_policy o; o_write := v; o_no_tools := o_no_tools o; o_exec := o_exec o;
     o_mcp := o_mcp o; o_net := o_net o; o_memory := o_memory o; o_database := o_database o; o_ephemeral := o_ephemeral o |}.
Definition set_no_tools (v : bool) (o : Options) : Options :=
  {| o_socket := o_socket o; o_model := o_model o; o_embedding_model := o_embedding_model o; o_provider := o_provider o; o_agent := o_agent o; o_user
     := o_user o; o_root := o_root o; o_config := o_config o; o_policy := o_policy o; o_write := o_write o; o_no_tools := v; o_exec := o_exec o; o_mcp
     := o_mcp o; o_net := o_net o; o_memory := o_memory o; o_database := o_database o; o_ephemeral := o_ephemeral o |}.
Definition set_exec (v : option ExecSet) (o : Options) : Options :=
  {| o_socket := o_socket o; o_model := o_model o; o_embedding_model := o_embedding_model o; o_provider := o_provider o; o_agent := o_agent o; o_user
     := o_user o; o_root := o_root o; o_config := o_config o; o_policy := o_policy o; o_write := o_write o; o_no_tools := o_no_tools o; o_exec := v;
     o_mcp := o_mcp o; o_net := o_net o; o_memory := o_memory o; o_database := o_database o; o_ephemeral := o_ephemeral o |}.
Definition set_mcp (v : option McpSet) (o : Options) : Options :=
  {| o_socket := o_socket o; o_model := o_model o; o_embedding_model := o_embedding_model o; o_provider := o_provider o; o_agent := o_agent o; o_user
     := o_user o; o_root := o_root o; o_config := o_config o; o_policy := o_policy o; o_write := o_write o; o_no_tools := o_no_tools o; o_exec :=
     o_exec o; o_mcp := v; o_net := o_net o; o_memory := o_memory o; o_database := o_database o; o_ephemeral := o_ephemeral o |}.
Definition set_net (v : option NetSet) (o : Options) : Options :=
  {| o_socket := o_socket o; o_model := o_model o; o_embedding_model := o_embedding_model o; o_provider := o_provider o; o_agent := o_agent o; o_user
     := o_user o; o_root := o_root o; o_config := o_config o; o_policy := o_policy o; o_write := o_write o; o_no_tools := o_no_tools o; o_exec :=
     o_exec o; o_mcp := o_mcp o; o_net := v; o_memory := o_memory o; o_database := o_database o; o_ephemeral := o_ephemeral o |}.
Definition set_memory (v : option MemorySet) (o : Options) : Options :=
  {| o_socket := o_socket o; o_model := o_model o; o_embedding_model := o_embedding_model o; o_provider := o_provider o; o_agent := o_agent o; o_user
     := o_user o; o_root := o_root o; o_config := o_config o; o_policy := o_policy o; o_write := o_write o; o_no_tools := o_no_tools o; o_exec :=
     o_exec o; o_mcp := o_mcp o; o_net := o_net o; o_memory := v; o_database := o_database o; o_ephemeral := o_ephemeral o |}.
Definition set_database (v : option string) (o : Options) : Options :=
  {| o_socket := o_socket o; o_model := o_model o; o_embedding_model := o_embedding_model o; o_provider := o_provider o; o_agent := o_agent o; o_user
     := o_user o; o_root := o_root o; o_config := o_config o; o_policy := o_policy o; o_write := o_write o; o_no_tools := o_no_tools o; o_exec :=
     o_exec o; o_mcp := o_mcp o; o_net := o_net o; o_memory := o_memory o; o_database := v; o_ephemeral := o_ephemeral o |}.
Definition set_ephemeral (v : bool) (o : Options) : Options :=
  {| o_socket := o_socket o; o_model := o_model o; o_embedding_model := o_embedding_model o; o_provider := o_provider o; o_agent := o_agent o; o_user
     := o_user o; o_root := o_root o; o_config := o_config o; o_policy := o_policy o; o_write := o_write o; o_no_tools := o_no_tools o; o_exec :=
     o_exec o; o_mcp := o_mcp o; o_net := o_net o; o_memory := o_memory o; o_database := o_database o; o_ephemeral := v |}.

(** [Options::tools], [exec], [mcp], [net], [memory] *)
Definition tools (self : Options) : ToolSet := if o_no_tools self then Tools_None else if o_write self then Tools_ReadWrite else Tools_ReadOnly.
Definition exec (self : Options) : ExecSet := if o_no_tools self then Exec_Off else default Exec_Off (o_exec self).
Definition mcp (self : Options) : McpSet := if o_no_tools self then Mcp_Off else default Mcp_Off (o_mcp self).
Definition net (self : Options) : NetSet := if o_no_tools self then Net_Off else default Net_Off (o_net self).
Definition memory (self : Options) : MemorySet := if o_no_tools self then Memory_Off else default Memory_Remember (o_memory self).

(** What a flag does: sets something, takes a value, shows something and ends, makes everything
    after it words, is a word itself, or is not known. *)
Inductive Shown := Shows_help | Shows_version.
Inductive Taken (O : Type) :=
  | Sets (f : O -> O)
  | Wants (f : string -> O -> Result O)
  | Shows (what : Shown)
  | Literal
  | Word
  | Unknown.
Arguments Sets {O}. Arguments Wants {O}. Arguments Shows {O}. Arguments Literal {O}. Arguments Word {O}. Arguments Unknown {O}.

(** A flag and the value given with it. *)
Definition split_flag (argument : string) : string * option string :=
  match split_once "=" argument with
  | Some (flag, value) => if starts_with flag "-" then (flag, Some value) else (argument, None)
  | None => (argument, None)
  end.

Definition is_flag (flag : string) (names : list string) : bool := existsb (String.eqb flag) names.

Definition given {A} (o : option A) : bool := match o with Some _ => true | None => false end.

(** The first pair that is there, and what is said of it. *)
Fixpoint first_given {A} (l : list (bool * A)) : option A :=
  match l with [] => None | (b, a) :: l => if b then Some a else first_given l end.

Section Flags.
  (** [usage], and what is said where a choice is not one. *)
  Context (usage : string -> Error) (wrong : string -> string -> Error -> string).

Definition choice {A} (flag : string) (parse : string -> Result A) (set : option A -> Options -> Options) : Taken Options :=
  Wants (fun raw o => let? a := map_err (fun error => usage (wrong flag raw error)) (parse raw) in Ok (set (Some a) o)).
Definition text (set : option string -> Options -> Options) : Taken Options := Wants (fun raw o => Ok (set (Some raw) o)).

Definition shared_flag (flag : string) : Taken Options :=
  if is_flag flag ["-h"; "--help"] then Shows Shows_help
  else if is_flag flag ["-V"; "--version"] then Shows Shows_version
  else if is_flag flag ["-s"; "--socket"] then text set_socket
  else if is_flag flag ["-m"; "--model"] then text set_model
  else if is_flag flag ["--embedding-model"] then text set_embedding_model
  else if is_flag flag ["--provider"] then choice "--provider" Provider_parse set_provider
  else if is_flag flag ["-a"; "--agent"] then text set_agent
  else if is_flag flag ["-u"; "--user"] then text set_user
  else if is_flag flag ["-r"; "--root"] then text set_root
  else if is_flag flag ["-c"; "--config"] then text set_config
  else if is_flag flag ["-p"; "--policy"] then text set_policy
  else if is_flag flag ["--write"] then Sets (set_write true)
  else if is_flag flag ["--no-tools"] then Sets (set_no_tools true)
  else if is_flag flag ["--exec"] then choice "--exec" ExecSet_parse set_exec
  else if is_flag flag ["--mcp"] then choice "--mcp" McpSet_parse set_mcp
  else if is_flag flag ["--net"] then choice "--net" NetSet_parse set_net
  else if is_flag flag ["--memory"] then choice "--memory" MemorySet_parse set_memory
  else if is_flag flag ["--db"] then text set_database
  else if is_flag flag ["--ephemeral"] then Sets (set_ephemeral true)
  else Unknown.

(** The checks both programs make of what was read. *)
Definition contradictions (o : Options) : list (bool * Error) :=
  let contradict a b := usage ("`" +:+ a +:+ "` and `" +:+ b +:+ "` contradict each other") in
  [(o_no_tools o && o_write o, contradict "--no-tools" "--write"); (o_no_tools o && given (o_memory o), contradict "--no-tools" "--memory");
   (o_no_tools o && given (o_exec o), contradict "--no-tools" "--exec"); (o_no_tools o && given (o_mcp o), contradict "--no-tools" "--mcp");
   (o_no_tools o && given (o_net o), contradict "--no-tools" "--net"); (o_ephemeral o && given (o_database o), contradict "--ephemeral" "--db")].

Section Loop.
  (** Of which command a flag is not known. *)
  Context {O : Type} (take : string -> Taken O) (of_command : string).

Inductive Read := Read_all (o : O) (words : list string) (literal : bool) | Read_shows (what : Shown).

(** The loop over the arguments.  A flag's value is what was given with it or the next argument. *)
Fixpoint read_arguments (literal : bool) (o : O) (words rest : list string) : Result Read :=
  match rest with
  | [] => Ok (Read_all o words literal)
  | argument :: rest =>
      if literal then read_arguments true o (words ++ [argument]) rest
      else
        let '(flag, inline) := split_flag argument in
        match take flag with
        | Sets f => read_arguments false (f o) words rest
        | Wants f =>
            match inline with
            | Some value => let? o := f value o in read_arguments false o words rest
            | None =>
                match rest with
                | [] => Err (usage ("`" +:+ flag +:+ "` needs a value"))
                | value :: rest => let? o := f value o in read_arguments false o words rest
                end
            end
        | Shows what => Ok (Read_shows what)
        | Literal => read_arguments true o words rest
        | Word => read_arguments false o (words ++ [argument]) rest
        | Unknown => Err (usage ("unknown option `" +:+ flag +:+ "`" +:+ of_command))
        end
  end.
End Loop.
End Flags.
Arguments Read : clear implicits.
Arguments Read_all {O}. Arguments Read_shows {O}.

(** ** [aik] ([cli/src/args.rs]) *)

Abbreviation SessionId := string.
Abbreviation CorrelationId := string.

Record CliOptions := { cli : Options; prompt : option string; session : option SessionId; verbose : bool; record : option string }.
Definition CliOptions_default : CliOptions := {| cli := Options_default; prompt := None; session := None; verbose := false; record := None |}.

Definition set_cli (f : Options -> Options) (o : CliOptions) : CliOptions :=
  {| cli := f (cli o); prompt := prompt o; session := session o; verbose := verbose o; record := record o |}.
Definition set_prompt (v : option string) (o : CliOptions) : CliOptions :=
  {| cli := cli o; prompt := v; session := session o; verbose := verbose o; record := record o |}.
Definition set_session (v : option SessionId) (o : CliOptions) : CliOptions :=
  {| cli := cli o; prompt := prompt o; session := v; verbose := verbose o; record := record o |}.
Definition set_verbose (v : bool) (o : CliOptions) : CliOptions :=
  {| cli := cli o; prompt := prompt o; session := session o; verbose := v; record := record o |}.
Definition set_record (v : option string) (o : CliOptions) : CliOptions :=
  {| cli := cli o; prompt := prompt o; session := session o; verbose := verbose o; record := v |}.

Definition is_one_shot (self : CliOptions) : bool := given (prompt self).

Definition AUDIT_COMMAND : string := "audit".
Definition PRUNE_COMMAND : string := "prune".
Definition DEFAULT_AUDIT_LIMIT : Z := 50.

Record AuditFilters := {
  f_principal : option string;
  f_tool : option string;
  f_correlation : option CorrelationId;
  f_since : option Duration;
  f_kind : option AuditEntryKind;
  f_refusals : bool;
  f_limit : option Z;
  f_json : bool;
}.
Definition AuditFilters_default : AuditFilters :=
  {| f_principal := None; f_tool := None; f_correlation := None; f_since := None; f_kind := None; f_refusals := false; f_limit := None; f_json := false |}.

Inductive AuditCommand := Review (filters : AuditFilters) | Prune (older_than : Duration) (dry_run : bool).
Record AuditOptions := {
  audit_command : AuditCommand;
  audit_database : option string;
  audit_config : option string;
  audit_user : option string;
  audit_socket : option string;
}.

Inductive Invocation := Run (options : CliOptions) | Audit (options : AuditOptions) | Help | AuditHelp | Version.

Definition NEWLINES : string := String (chr 10) (String (chr 10) EmptyString).
Definition usage (message : string) : Error := InvalidArgument (message +:+ NEWLINES +:+ "Run `aik --help` for usage.").
Definition audit_usage (message : string) : Error := InvalidArgument (message +:+ NEWLINES +:+ "Run `aik audit --help` for usage.").

(** What the next loop reads into. *)
Record AuditRead := { ar_options : AuditOptions; ar_filters : AuditFilters; ar_older_than : option Duration; ar_dry_run : bool }.

Section Parse.
  (** [Display for Error], and reading identifiers. *)
  Context (error_text : Error -> string) (parse_session_id : string -> option SessionId) (parse_correlation_id : string -> option CorrelationId).

Definition wrong_choice (flag raw : string) (error : Error) : string :=
  if String.eqb flag "--provider" then "`--provider` is wrong: " +:+ error_text error
  else "`" +:+ flag +:+ "` takes one of " +:+
       (if String.eqb flag "--exec" then "off, sandboxed, unconfined" else if String.eqb flag "--memory" then "off, recall, remember, full" else "off, on") +:+
       "; got `" +:+ raw +:+ "` (" +:+ error_text error +:+ ")".

Definition parse_session (raw : string) : Result SessionId :=
  ok_or (parse_session_id raw) (usage ("`--session` takes the id of an existing session; `" +:+ raw +:+ "` is not one")).

(** The same flag, of a record that holds another. *)
Definition within {O P} (lift : (O -> O) -> P -> P) (read : P -> O) (t : Taken O) : Taken P :=
  match t with
  | Sets f => Sets (lift f)
  | Wants f => Wants (fun raw p => let? o := f raw (read p) in Ok (lift (fun _ => o) p))
  | Shows what => Shows what
  | Literal => Literal
  | Word => Word
  | Unknown => Unknown
  end.

Definition cli_flag (flag : string) : Taken CliOptions :=
  if is_flag flag ["--"] then Literal
  else if is_flag flag ["--session"] then Wants (fun raw o => let? id := parse_session raw in Ok (set_session (Some id) o))
  else if is_flag flag ["-v"; "--verbose"] then Sets (set_verbose true)
  else if is_flag flag ["-R"; "--record"] then Wants (fun raw o => Ok (set_record (Some raw) o))
  else match within set_cli cli (shared_flag usage wrong_choice flag) with
       | Unknown => if starts_with flag "-" && (1 <? str_len flag)%Z then Unknown else Word
       | taken => taken
       end.

(** What a client of a host process may not be told. *)
Definition assembles (o : CliOptions) : list (bool * string) :=
  [(o_write (cli o), "--write"); (o_no_tools (cli o), "--no-tools"); (given (o_memory (cli o)), "--memory"); (given (o_exec (cli o)), "--exec");
   (given (o_mcp (cli o)), "--mcp"); (given (o_net (cli o)), "--net"); (given (o_database (cli o)), "--db"); (o_ephemeral (cli o), "--ephemeral");
   (given (o_policy (cli o)), "--policy"); (given (o_root (cli o)), "--root"); (given (o_model (cli o)), "--model");
   (given (o_embedding_model (cli o)), "--embedding-model"); (given (o_provider (cli o)), "--provider"); (given (o_agent (cli o)), "--agent");
   (given (o_user (cli o)), "--user"); (given (record o), "--record")].

Definition client_contradiction (name : string) : Error :=
  usage ("`--socket` and `" +:+ name +:+ "` contradict each other: a client assembles nothing, " +:+
         "so what it may reach is the host process's configuration and not this " +:+ "command's").

Definition cli_contradictions (o : CliOptions) : list (bool * Error) :=
  contradictions usage (cli o) ++
  [(o_ephemeral (cli o) && given (session o),
    usage ("`--ephemeral` and `--session` contradict each other: an ephemeral run keeps no " +:+ "session to resume"))] ++
  (if given (o_socket (cli o)) then map (fun p => (fst p, client_contradiction (snd p))) (assembles o) else []).

Fixpoint joined (words : list string) : string :=
  match words with [] => EmptyString | [word] => word | word :: words => word +:+ " " +:+ joined words end.

(** [parse], of the words that are no audit *)
Definition finish (o : CliOptions) (words : list string) : Result Invocation :=
  match first_given (cli_contradictions o) with
  | Some error => Err error
  | None => Ok (Run (match words with [] => o | _ => set_prompt (Some (joined words)) o end))
  end.

Definition parse_run (args : list string) : Result Invocation :=
  let? read := read_arguments usage cli_flag EmptyString false CliOptions_default [] args in
  match read with
  | Read_shows Shows_help => Ok Help
  | Read_shows Shows_version => Ok Version
  | Read_all o words _ => finish o words
  end.

(** *** Auditing *)

Definition parse_correlation (raw : string) : Result CorrelationId :=
  ok_or (parse_correlation_id raw) (audit_usage ("`--correlation` takes the id of an operation; `" +:+ raw +:+ "` is not one")).

Definition kind_names := [("authorization", Entry_Authorization); ("invocation", Entry_Invocation); ("gap", Entry_Gap); ("retention", Entry_Retention)].
Definition parse_kind (raw : string) : Result AuditEntryKind :=
  ok_or (named kind_names raw) (audit_usage ("`--kind` takes one of authorization, invocation, gap, retention; got `" +:+ raw +:+ "`")).

Definition parse_limit (raw : string) : Result Z :=
  match parse_uint u64_max raw with
  | Some limit => if (limit =? 0)%Z then Err (audit_usage ("`--limit` takes a positive number of records; got `" +:+ raw +:+ "`")) else Ok limit
  | None => Err (audit_usage ("`--limit` takes a positive number of records; got `" +:+ raw +:+ "`"))
  end.

(** The digits a period begins with, and what follows them. *)
Fixpoint split_digits (raw : string) : option (string * string) :=
  match raw with
  | EmptyString => None
  | String c rest =>
      if given (ascii_digit c) then match split_digits rest with Some (digits, unit) => Some (String c digits, unit) | None => None end
      else Some (EmptyString, raw)
  end.

Definition unit_seconds := [("s", 1); ("m", 60); ("h", 60 * 60); ("d", 24 * 60 * 60); ("w", 7 * 24 * 60 * 60)]%Z.

Definition parse_duration (raw flag : string) : Result Duration :=
  let not_a_period := audit_usage ("`" +:+ flag +:+ "` takes a period with a unit, such as 30m, 12h, 7d or 4w; got " +:+ "`" +:+ raw +:+ "`") in
  match split_digits raw with
  | None => Err not_a_period
  | Some (digits, unit) =>
      match named unit_seconds unit with
      | None => Err (audit_usage ("`" +:+ flag +:+ "` takes a unit of s, m, h, d or w; got `" +:+ unit +:+ "`"))
      | Some seconds_per_unit =>
          match parse_uint u64_max digits with
          | None => Err not_a_period
          | Some count =>
              if (count =? 0)%Z then Err (audit_usage ("`" +:+ flag +:+ "` takes a period longer than zero"))
              else if (u64_max <? count * seconds_per_unit)%Z then Err (audit_usage ("`" +:+ flag +:+ "`: `" +:+ raw +:+ "` is longer than any period can be"))
              else Ok (count * seconds_per_unit * 1000000000)%Z
          end
      end
  end.

Definition set_options (f : AuditOptions -> AuditOptions) (r : AuditRead) : AuditRead :=
  {| ar_options := f (ar_options r); ar_filters := ar_filters r; ar_older_than := ar_older_than r; ar_dry_run := ar_dry_run r |}.
Definition set_filters (f : AuditFilters -> AuditFilters) (r : AuditRead) : AuditRead :=
  {| ar_options := ar_options r; ar_filters := f (ar_filters r); ar_older_than := ar_older_than r; ar_dry_run := ar_dry_run r |}.

Definition audit_flag (flag : string) : Taken AuditRead :=
  let option_text f := Wants (fun raw r => Ok (set_options (fun o => f o raw) r)) in
  let filter {A} (parse : string -> Result A) f := Wants (fun raw r => let? a := parse raw in Ok (set_filters (fun s => f s a) r)) in
  if is_flag flag ["-h"; "--help"] then Shows Shows_help
  else if is_flag flag ["--db"] then
    option_text (fun o v => {| audit_command := audit_command o; audit_database := Some v; audit_config := audit_config o; audit_user := audit_user o; audit_socket := audit_socket o |})
  else if is_flag flag ["-c"; "--config"] then
    option_text (fun o v => {| audit_command := audit_command o; audit_database := audit_database o; audit_config := Some v; audit_user := audit_user o; audit_socket := audit_socket o |})
  else if is_flag flag ["-u"; "--user"] then
    option_text (fun o v => {| audit_command := audit_command o; audit_database := audit_database o; audit_config := audit_config o; audit_user := Some v; audit_socket := audit_socket o |})
  else if is_flag flag ["-s"; "--socket"] then
    option_text (fun o v => {| audit_command := audit_command o; audit_database := audit_database o; audit_config := audit_config o; audit_user := audit_user o; audit_socket := Some v |})
  else if is_flag flag ["--principal"] then
    filter (fun raw => Ok raw) (fun f v => {| f_principal := Some v; f_tool := f_tool f; f_correlation := f_correlation f; f_since := f_since f; f_kind := f_kind f; f_refusals := f_refusals f; f_limit := f_limit f; f_json := f_json f |})
  else if is_flag flag ["--tool"] then
    filter (fun raw => Ok raw) (fun f v => {| f_principal := f_principal f; f_tool := Some v; f_correlation := f_correlation f; f_since := f_since f; f_kind := f_kind f; f_refusals := f_refusals f; f_limit := f_limit f; f_json := f_json f |})
  else if is_flag flag ["--correlation"] then
    filter parse_correlation (fun f v => {| f_principal := f_principal f; f_tool := f_tool f; f_correlation := Some v; f_since := f_since f; f_kind := f_kind f; f_refusals := f_refusals f; f_limit := f_limit f; f_json := f_json f |})
  else if is_flag flag ["--since"] then
    filter (fun raw => parse_duration raw "--since") (fun f v => {| f_principal := f_principal f; f_tool := f_tool f; f_correlation := f_correlation f; f_since := Some v; f_kind := f_kind f; f_refusals := f_refusals f; f_limit := f_limit f; f_json := f_json f |})
  else if is_flag flag ["--kind"] then
    filter parse_kind (fun f v => {| f_principal := f_principal f; f_tool := f_tool f; f_correlation := f_correlation f; f_since := f_since f; f_kind := Some v; f_refusals := f_refusals f; f_limit := f_limit f; f_json := f_json f |})
  else if is_flag flag ["--refused"] then
    Sets (set_filters (fun f => {| f_principal := f_principal f; f_tool := f_tool f; f_correlation := f_correlation f; f_since := f_since f; f_kind := f_kind f; f_refusals := true; f_limit := f_limit f; f_json := f_json f |}))
  else if is_flag flag ["--limit"] then
    filter parse_limit (fun f v => {| f_principal := f_principal f; f_tool := f_tool f; f_correlation := f_correlation f; f_since := f_since f; f_kind := f_kind f; f_refusals := f_refusals f; f_limit := Some v; f_json := f_json f |})
  else if is_flag flag ["--json"] then
    Sets (set_filters (fun f => {| f_principal := f_principal f; f_tool := f_tool f; f_correlation := f_correlation f; f_since := f_since f; f_kind := f_kind f; f_refusals := f_refusals f; f_limit := f_limit f; f_json := true |}))
  else if is_flag flag ["--older-than"] then
    Wants (fun raw r => let? d := parse_duration raw "--older-than" in
             Ok {| ar_options := ar_options r; ar_filters := ar_filters r; ar_older_than := Some d; ar_dry_run := ar_dry_run r |})
  else if is_flag flag ["--dry-run"] then
    Sets (fun r => {| ar_options := ar_options r; ar_filters := ar_filters r; ar_older_than := ar_older_than r; ar_dry_run := true |})
  else Unknown.

Definition AuditRead_default : AuditRead :=
  {| ar_options := {| audit_command := Review AuditFilters_default; audit_database := None; audit_config := None; audit_user := None; audit_socket := None |};
     ar_filters := AuditFilters_default; ar_older_than := None; ar_dry_run := false |}.

Definition filters_given (f : AuditFilters) : bool :=
  given (f_principal f) || given (f_tool f) || given (f_correlation f) || given (f_since f) || given (f_kind f) || f_refusals f || given (f_limit f) || f_json f.

Definition with_command (c : AuditCommand) (o : AuditOptions) : AuditOptions :=
  {| audit_command := c; audit_database := audit_database o; audit_config := audit_config o; audit_user := audit_user o; audit_socket := audit_socket o |}.

(** What is to be done, of what was read. *)
Definition audit_command_of (prune : bool) (r : AuditRead) : Result AuditCommand :=
  if prune then
    if filters_given (ar_filters r) then
      Err (audit_usage ("`aik audit prune` takes only --older-than, " +:+ "--dry-run, --db, --config, --socket and --user"))
    else match ar_older_than r with
         | None => Err (audit_usage ("`aik audit prune` needs `--older-than <PERIOD>`; " +:+
                                     "there is no default, because the default for destroying an audit trail is " +:+ "not to"))
         | Some older_than => Ok (Prune older_than (ar_dry_run r))
         end
  else if given (ar_older_than r) || ar_dry_run r then
    Err (audit_usage ("`--older-than` and `--dry-run` belong to `aik audit " +:+ "prune`"))
  else Ok (Review (ar_filters r)).

Definition audit_contradictions (o : AuditOptions) : list (bool * Error) :=
  [(given (audit_socket o) && given (audit_database o),
    audit_usage ("`--socket` and `--db` contradict each other: the host holds the database, and " +:+ "which one that is is its configuration rather than this command's"));
   (given (audit_socket o) && given (audit_user o),
    audit_usage ("`--socket` and `--user` contradict each other: a review through a host reads " +:+ "as the identity that host was configured with"))].

Definition parse_audit (args : list string) : Result Invocation :=
  let (prune, args) := match args with
                       | word :: rest => if String.eqb word PRUNE_COMMAND then (true, rest) else (false, args)
                       | [] => (false, [])
                       end in
  let? read := read_arguments audit_usage audit_flag " for `aik audit`" false AuditRead_default [] args in
  match read with
  | Read_shows _ => Ok AuditHelp
  | Read_all r _ _ =>
      let? command := audit_command_of prune r in
      let options := with_command command (ar_options r) in
      match first_given (audit_contradictions options) with Some error => Err error | None => Ok (Audit options) end
  end.

Definition parse (args : list string) : Result Invocation :=
  match args with
  | word :: rest => if String.eqb word AUDIT_COMMAND then parse_audit rest else parse_run args
  | [] => parse_run []
  end.
End Parse.

(** ** [aikd] ([daemon/src/args.rs]) *)

Record DaemonOptions := { host : Options; max_connections : option Z }.
Definition DaemonOptions_default : DaemonOptions := {| host := Options_default; max_connections := None |}.
Definition set_host (f : Options -> Options) (o : DaemonOptions) : DaemonOptions := {| host := f (host o); max_connections := max_connections o |}.

Inductive DaemonInvocation := Serve (options : DaemonOptions) | DaemonHelp | DaemonVersion.

Definition daemon_usage (message : string) : Error := InvalidArgument (message +:+ NEWLINES +:+ "Run `aikd --help` for usage.").

Definition parse_count (raw : string) : Result Z :=
  match parse_uint u64_max raw with
  | Some count =>
      if (count =? 0)%Z then Err (daemon_usage ("`--max-clients` must be at least 1; a host that serves nobody is a host that is " +:+ "not running"))
      else Ok count
  | None => Err (daemon_usage ("`--max-clients` takes a number of clients; `" +:+ raw +:+ "` is not one"))
  end.

Section Daemon.
  Context (error_text : Error -> string).

Definition daemon_wrong (flag raw : string) (error : Error) : string := "`" +:+ flag +:+ "` is wrong: " +:+ error_text error.

Definition daemon_flag (flag : string) : Taken DaemonOptions :=
  if is_flag flag ["--max-clients"] then Wants (fun raw o => let? count := parse_count raw in Ok {| host := host o; max_connections := Some count |})
  else within set_host host (shared_flag daemon_usage daemon_wrong flag).

Definition daemon_parse (args : list string) : Result DaemonInvocation :=
  let? read := read_arguments daemon_usage daemon_flag EmptyString false DaemonOptions_default [] args in
  match read with
  | Read_shows Shows_help => Ok DaemonHelp
  | Read_shows Shows_version => Ok DaemonVersion
  | Read_all o _ _ => match first_given (contradictions daemon_usage (host o)) with Some error => Err error | None => Ok (Serve o) end
  end.
End Daemon.

Local Close Scope string_scope.

(** ** What is read of a list of arguments *)

Section Loop_lemmas.
  Context (usage : string -> Error) {O : Type} (take : string -> Taken O) (of_command : string).

#[local] Abbreviation reading := (read_arguments usage take of_command).

Lemma reading_words (o : O) rest : forall words, reading true o words rest = Ok (Read_all o (words ++ rest) true).
Proof using. induction rest as [|word rest IH]; intros words; cbn [read_arguments]; [by rewrite app_nil_r|]. by rewrite IH, <- app_assoc. Qed.

(** Where no argument is a bare [--] or what looks like one, one that is ends the options. *)
Lemma reading_dashes args rest : take "--" = Literal ->
  forall (o o' : O) words words', reading false o words args = Ok (Read_all o' words' false) ->
  reading false o words (args ++ "--"%string :: rest) = Ok (Read_all o' (words' ++ rest) true).
Proof using.
  intros Hd. induction args as [args IH] using (induction_ltof1 _ (@length string)). unfold ltof in IH.
  intros o o' words words'. destruct args as [|argument args]; cbn [read_arguments app].
  { intros [= <- <-]. change (split_flag "--") with ("--"%string, None : option string). cbn iota beta. rewrite Hd. apply reading_words. }
  destruct (split_flag argument) as [flag inline]. destruct (take flag) as [f|f|what| | |]; try done.
  - apply IH. simpl. lia.
  - destruct inline as [value|].
    + destruct (f value o) as [o1|]; [|done]. apply IH. simpl. lia.
    + destruct args as [|value args]; [done|]. cbn [app]. destruct (f value o) as [o1|]; [|done]. apply IH. simpl. lia.
  - by rewrite reading_words.
  - apply IH. simpl. lia.
Qed.

Lemma split_flag_value name value : split_once "=" name = None -> starts_with name "-" = true -> split_flag (name +:+ "=" +:+ value) = (name, Some value).
Proof using.
  intros Hn Hs. unfold split_flag. assert (split_once "=" (name +:+ "=" +:+ value) = Some (name, value)) as ->; [|by rewrite Hs].
  clear Hs. revert Hn. induction name as [|c name IH]; intros Hn; [reflexivity|]. change (String c name +:+ "=" +:+ value) with (String c (name +:+ "=" +:+ value)).
  cbn [split_once] in *. case_decide; [done|]. destruct (split_once "=" name) as [[]|]; [done|]. by rewrite IH.
Qed.

(** A flag that is among the arguments, alone or with a value. *)
Definition given_in (flag : string) (v : option string) (args : list string) : Prop :=
  match v with
  | None => Exists (fun a => fst (split_flag a) = flag) args
  | Some raw => exists pre post, args = pre ++ (flag +:+ "=" +:+ raw)%string :: post \/ args = pre ++ flag :: raw :: post
  end.

Lemma given_in_app flag v pre args : given_in flag v args -> given_in flag v (pre ++ args).
Proof using.
  destruct v as [raw|]; cbn [given_in]; [|rewrite Exists_app; by right].
  intros (l & r & [->| ->]); exists (pre ++ l), r; rewrite <- !app_assoc; [by left|by right].
Qed.

Lemma given_in_none flag v args : given_in flag v args -> split_once "=" flag = None -> starts_with flag "-" = true -> given_in flag None args.
Proof using.
  destruct v as [raw|]; [|done]. intros (pre & post & [->| ->]) Hn Hs; cbn [given_in]; apply Exists_app; right; constructor.
  - by rewrite split_flag_value.
  - unfold split_flag. by rewrite Hn.
Qed.

Lemma split_once_back c s before after : split_once c s = Some (before, after) -> s = before +:+ String c after.
Proof using.
  revert before. induction s as [|a s IH]; intros before; cbn [split_once]; [done|]. case_decide as Ha.
  - intros [= <- <-]. by subst.
  - destruct (split_once c s) as [[b r]|]; [|done]. intros [= <- <-]. change (String a s = String a (b +:+ String c r)). f_equal. by apply IH.
Qed.

Lemma split_flag_inv a flag inline : split_flag a = (flag, inline) ->
  match inline with Some value => a = flag +:+ "=" +:+ value | None => a = flag end.
Proof using.
  unfold split_flag. destruct (split_once "=" a) as [[f v]|] eqn:E; [|by intros [= <- <-]].
  destruct (starts_with f "-"); intros [= <- <-]; [|done]. by apply split_once_back.
Qed.

(** What is observed of what was read is what was there before, or what a flag among the arguments
    says. *)
Lemma reading_observes {X} (obs : O -> X) (says : string -> option string -> X -> Prop) :
  (forall flag f o, take flag = Sets f -> obs (f o) = obs o \/ says flag None (obs (f o))) ->
  (forall flag f raw o o', take flag = Wants f -> f raw o = Ok o' -> obs o' = obs o \/ says flag (Some raw) (obs o')) ->
  forall args o words o' words' literal literal', reading literal o words args = Ok (Read_all o' words' literal') ->
  obs o' = obs o \/ exists flag v, given_in flag v args /\ says flag v (obs o').
Proof using.
  intros Hsets Hwants args. induction args as [args IH] using (induction_ltof1 _ (@length string)). unfold ltof in IH.
  intros o words o' words' literal literal'. destruct args as [|a args]; cbn [read_arguments]; [intros [= <- _ _]; by left|].
  assert (Hrest : forall pre rest o1 w l, a :: args = pre ++ rest -> (length rest < length (a :: args))%nat -> reading l o1 w rest = Ok (Read_all o' words' literal') ->
    (obs o1 = obs o \/ exists flag v, given_in flag v (a :: args) /\ says flag v (obs o1)) ->
    obs o' = obs o \/ exists flag v, given_in flag v (a :: args) /\ says flag v (obs o')).
  { intros pre rest o1 w l Heq Hlt Hr H1. destruct (IH rest Hlt _ _ _ _ _ _ Hr) as [->|(flag & v & Hin & Hs)]; [done|].
    right. exists flag, v. split; [|done]. rewrite Heq. by apply given_in_app. }
  destruct literal; [intros Hr; eapply (Hrest [a] args); [done|simpl; lia|exact Hr|by left]|].
  destruct (split_flag a) as [flag inline] eqn:Ea. pose proof (split_flag_inv _ _ _ Ea) as Hinv.
  destruct (take flag) as [f|f|what| | |] eqn:Et; try done.
  - intros Hr. eapply (Hrest [a] args); [done|simpl; lia|exact Hr|]. destruct (Hsets flag f o Et) as [?|Hs]; [by left|].
    right. exists flag, None. split; [|done]. constructor. by rewrite Ea.
  - destruct inline as [value|].
    + destruct (f value o) as [o1|] eqn:Ef; [|done]. intros Hr. eapply (Hrest [a] args); [done|simpl; lia|exact Hr|].
      destruct (Hwants flag f value o o1 Et Ef) as [?|Hs]; [by left|]. right. exists flag, (Some value). split; [|done].
      exists [], args. left. by rewrite Hinv.
    + destruct args as [|value args]; [done|]. destruct (f value o) as [o1|] eqn:Ef; [|done]. intros Hr.
      eapply (Hrest [a; value] args); [done|simpl; lia|exact Hr|].
      destruct (Hwants flag f value o o1 Et Ef) as [?|Hs]; [by left|]. right. exists flag, (Some value). split; [|done].
      exists [], args. right. by rewrite Hinv.
  - intros Hr. eapply (Hrest [a] args); [done|simpl; lia|exact Hr|by left].
  - intros Hr. eapply (Hrest [a] args); [done|simpl; lia|exact Hr|by left].
Qed.

(** A flag as it is written, with its value or without. *)
Definition argument {A} (name : string) (show : A -> string) (v : option A) : list string :=
  match v with Some a => [name +:+ "=" +:+ show a] | None => [] end.
Definition switch (name : string) (b : bool) : list string := if b then [name] else [].

Lemma reading_argument {A} name (show : A -> string) (v : option A) f (g : option A -> O) (o : O) words rest :
  split_once "=" name = None -> starts_with name "-" = true -> take name = Wants f -> (forall a, v = Some a -> f (show a) o = Ok (g (Some a))) -> g None = o ->
  reading false o words (argument name show v ++ rest) = reading false (g v) words rest.
Proof using.
  intros Hn Hs Ht Hf Hg. destruct v as [a|]; cbn [argument app read_arguments]; [|by rewrite Hg].
  rewrite split_flag_value by done. rewrite Ht. by rewrite (Hf a).
Qed.

Lemma reading_switch name b f (g : bool -> O) (o : O) words rest :
  split_flag name = (name, None) -> take name = Sets f -> f o = g true -> g false = o ->
  reading false o words (switch name b ++ rest) = reading false (g b) words rest.
Proof using. intros Hn Ht Hf Hg. destruct b; cbn [switch app read_arguments]; [|by rewrite Hg]. by rewrite Hn, Ht, Hf. Qed.
End Loop_lemmas.

Lemma first_given_none {A} (l : list (bool * A)) : first_given l = None <-> Forall (fun p => fst p = false) l.
Proof.
  induction l as [|[[] a] l IH]; cbn [first_given]; [by split|split; [done|by intros [? _]%Forall_cons]|].
  rewrite IH, Forall_cons. tauto.
Qed.

(** A choice's name is the only way to name it. *)
Lemma named_in {A} (names : list (string * A)) raw a : named names raw = Some a -> (raw, a) ∈ names.
Proof.
  induction names as [|[n b] names IH]; cbn [named]; [done|]. destruct (String.eqb_spec raw n) as [->|_].
  - intros [= ->]. by left.
  - intros H. right. by apply IH.
Qed.

Ltac by_name := match goal with H : ok_or (named ?l ?raw) _ = Ok _ |- _ =>
  let E := fresh "E" in destruct (named l raw) eqn:E; cbn [ok_or] in H; [|discriminate H]; injection H as ->; apply named_in in E;
  repeat (apply elem_of_cons in E as [E|E]; [by injection E as -> ->|]); by apply elem_of_nil in E end.

Lemma ExecSet_parse_name raw e : ExecSet_parse raw = Ok e -> raw = ExecSet_as_str e.
Proof. unfold ExecSet_parse. intros H. by_name. Qed.
Lemma McpSet_parse_name raw m : McpSet_parse raw = Ok m -> raw = McpSet_as_str m.
Proof. unfold McpSet_parse. intros H. by_name. Qed.
Lemma NetSet_parse_name raw n : NetSet_parse raw = Ok n -> raw = NetSet_as_str n.
Proof. unfold NetSet_parse. intros H. by_name. Qed.

(** The flag that makes a choice. *)
Definition chooses {A} (name : string) (show : A -> string) (flag : string) (v : option string) (chosen : option A) : Prop :=
  exists a, chosen = Some a /\ flag = name /\ v = Some (show a).

(** What a run may reach, each part by its flag alone: [--write] for the first. *)
Definition writes (flag : string) (v : option string) (write : bool) : Prop := flag = "--write"%string.

Lemma is_flag_one flag name : is_flag flag [name] = true -> flag = name.
Proof. unfold is_flag. cbn [existsb]. rewrite orb_false_r. apply String.eqb_eq. Qed.

Ltac each_flag H := match type of H with
  | (if is_flag ?flag ?names then _ else ?rest) = _ =>
      let E := fresh "E" in destruct (is_flag flag names) eqn:E; [try discriminate H; try (apply is_flag_one in E; subst flag)|clear E; each_flag H]
  | _ => try discriminate H
  end.

Section Reach.
  Context (usage : string -> Error) (wrong : string -> string -> Error -> string).

Lemma shared_sets flag f o : shared_flag usage wrong flag = Sets f ->
  (o_write (f o) = o_write o \/ writes flag None (o_write (f o))) /\ o_exec (f o) = o_exec o /\ o_mcp (f o) = o_mcp o /\ o_net (f o) = o_net o.
Proof using. unfold shared_flag, writes. intros H. each_flag H; injection H as <-; split_and!; solve [reflexivity|by left|by right]. Qed.

Lemma shared_wants flag f raw o o' : shared_flag usage wrong flag = Wants f -> f raw o = Ok o' ->
  o_write o' = o_write o /\
  (o_exec o' = o_exec o \/ chooses "--exec" ExecSet_as_str flag (Some raw) (o_exec o')) /\
  (o_mcp o' = o_mcp o \/ chooses "--mcp" McpSet_as_str flag (Some raw) (o_mcp o')) /\
  (o_net o' = o_net o \/ chooses "--net" NetSet_as_str flag (Some raw) (o_net o')).
Proof using.
  unfold shared_flag, text, choice. intros H Hf.
  each_flag H; injection H as <-; try (injection Hf as <-; split_and!; solve [reflexivity|by left]).
  all: match type of Hf with result_bind _ (map_err _ ?parsed) = _ => destruct parsed as [a|] eqn:Ea; cbn [map_err result_bind] in Hf; [|done]; injection Hf as <- end.
  all: split_and!; try solve [reflexivity|by left].
  - right. exists a. split_and!; [done|done|]. by rewrite (ExecSet_parse_name _ _ Ea).
  - right. exists a. split_and!; [done|done|]. by rewrite (McpSet_parse_name _ _ Ea).
  - right. exists a. split_and!; [done|done|]. by rewrite (NetSet_parse_name _ _ Ea).
Qed.
End Reach.

(** Whether the options both programs take may be given together. *)
Definition options_agree (o : Options) : Prop :=
  (o_no_tools o = true -> o_write o = false /\ o_memory o = None /\ o_exec o = None /\ o_mcp o = None /\ o_net o = None) /\
  (o_ephemeral o = true -> o_database o = None).

Lemma given_none {A} (o : option A) : given o = false <-> o = None.
Proof. by destruct o. Qed.

Lemma false_or (b : bool) (P : Prop) : b = false \/ P <-> (b = true -> P).
Proof. destruct b; [split; [intros [[=]|]; auto|intros ?; right; auto]|split; [intros _ [=]|by left]]. Qed.

Lemma shared_agree usage o : Forall (fun p => fst p = false) (contradictions usage o) <-> options_agree o.
Proof. unfold contradictions, options_agree. rewrite !Forall_cons, Forall_nil. cbn [fst]. rewrite !andb_false_iff, !given_none, !false_or. tauto. Qed.

(** The options as flags. *)
Definition shown (s : string) : string := s.
Definition written (o : CliOptions) : list string :=
  argument "--socket" shown (o_socket (cli o)) ++ argument "--model" shown (o_model (cli o)) ++
  argument "--embedding-model" shown (o_embedding_model (cli o)) ++ argument "--provider" Provider_as_str (o_provider (cli o)) ++
  argument "--agent" shown (o_agent (cli o)) ++ argument "--user" shown (o_user (cli o)) ++ argument "--root" shown (o_root (cli o)) ++
  argument "--config" shown (o_config (cli o)) ++ argument "--policy" shown (o_policy (cli o)) ++ switch "--write" (o_write (cli o)) ++
  switch "--no-tools" (o_no_tools (cli o)) ++ argument "--exec" ExecSet_as_str (o_exec (cli o)) ++ argument "--mcp" McpSet_as_str (o_mcp (cli o)) ++
  argument "--net" NetSet_as_str (o_net (cli o)) ++ argument "--memory" MemorySet_as_str (o_memory (cli o)) ++
  argument "--db" shown (o_database (cli o)) ++ switch "--ephemeral" (o_ephemeral (cli o)) ++ argument "--session" shown (session o) ++
  switch "--verbose" (verbose o) ++ argument "--record" shown (record o).

(** Periods. *)
Definition is_digit (c : ascii) : bool := given (ascii_digit c).

Lemma split_digits_back raw digits unit : split_digits raw = Some (digits, unit) -> raw = digits +:+ unit.
Proof.
  revert digits. induction raw as [|c raw IH]; intros digits; cbn [split_digits]; [done|]. destruct (given (ascii_digit c)); [|by intros [= <- <-]].
  destruct (split_digits raw) as [[ds u]|]; [|done]. intros [= <- <-]. change (String c raw = String c (ds +:+ u)). f_equal. by apply IH.
Qed.

Lemma split_digits_app digits unit : all_bytes is_digit digits = true ->
  match unit with EmptyString => False | String c _ => is_digit c = false end -> split_digits (digits +:+ unit) = Some (digits, unit).
Proof.
  intros Hd Hu. induction digits as [|c digits IH].
  - change (EmptyString +:+ unit) with unit. destruct unit as [|c unit]; [done|]. cbn [split_digits]. fold (is_digit c). by rewrite Hu.
  - cbn [all_bytes] in Hd. apply andb_true_iff in Hd as [Hc Hd]. change (String c digits +:+ unit) with (String c (digits +:+ unit)).
    cbn [split_digits]. fold (is_digit c). by rewrite Hc, IH.
Qed.

Lemma unit_known unit per : named unit_seconds unit = Some per -> match unit with EmptyString => False | String c _ => is_digit c = false end /\ 0 < per.
Proof.
  intros H%named_in. repeat (apply elem_of_cons in H as [H|H]; [by injection H as -> ->|]). by apply elem_of_nil in H.
Qed.

Lemma written_dashed (o : CliOptions) : Forall (fun a => starts_with a "-" = true) (written o).
Proof.
  assert (Ha : forall A n (show : A -> string) v, Forall (fun a => starts_with a "-" = true) (argument (String "-" n) show v)).
  { intros A n show [a|]; [|constructor]. apply Forall_singleton. apply starts_with_spec. by exists (n +:+ "=" +:+ show a). }
  assert (Hs : forall n b, Forall (fun a => starts_with a "-" = true) (switch (String "-" n) b)) by (intros n []; [|constructor]; apply Forall_singleton, starts_with_spec; by exists n).
  unfold written. rewrite !Forall_app. split_and!; first [apply Ha|apply Hs].
Qed.

Section Promises.
  Context (error_text : Error -> string) (parse_session_id : string -> option SessionId) (parse_correlation_id : string -> option CorrelationId).

#[local] Abbreviation cli_flag := (cli_flag error_text parse_session_id).

Lemma choices_read_back :
  (forall p, Provider_parse (Provider_as_str p) = Ok p) /\ (forall e, ExecSet_parse (ExecSet_as_str e) = Ok e) /\ (forall m, McpSet_parse (McpSet_as_str m) = Ok m) /\
  (forall n, NetSet_parse (NetSet_as_str n) = Ok n) /\ (forall m, MemorySet_parse (MemorySet_as_str m) = Ok m).
Proof using. split_and!; intros []; vm_compute; reflexivity. Qed.

(** The options that were read so far, as a record. *)
Ltac settle := cbv beta iota delta [CliOptions_default Options_default set_cli set_session set_verbose set_record cli prompt session verbose record
    set_socket set_model set_embedding_model set_provider set_agent set_user set_root set_config set_policy set_write set_no_tools set_exec set_mcp set_net set_memory set_database set_ephemeral
    o_socket o_model o_embedding_model o_provider o_agent o_user o_root o_config o_policy o_write o_no_tools o_exec o_mcp o_net o_memory o_database o_ephemeral].

(** Reads one written flag: its name and its setter. *)
Ltac read_flag name set :=
  match goal with |- read_arguments ?u ?t ?c false ?o ?w (argument _ ?show ?v ++ ?rest) = _ =>
    etransitivity; [eapply (reading_argument u t c name show v _ (fun x => set x o) o w rest); [reflexivity|reflexivity|reflexivity| |reflexivity]|settle]
  end.
Ltac read_switch name set :=
  match goal with |- read_arguments ?u ?t ?c false ?o ?w (switch _ ?b ++ ?rest) = _ =>
    etransitivity; [eapply (reading_switch u t c name b _ (fun x => set x o) o w rest); reflexivity|settle]
  end.

Lemma written_reads (o : CliOptions) rest : prompt o = None -> (forall s, session o = Some s -> parse_session_id s = Some s) ->
  read_arguments usage cli_flag EmptyString false CliOptions_default [] (written o ++ "--"%string :: rest) = Ok (Read_all o rest true).
Proof using.
  destruct o as [[socket model emb prov agent user root conf pol wr nt ex mc ne me db eph] pr se ve re]. cbn [prompt]. intros -> Hs.
  destruct choices_read_back as (Hp & He & Hm & Hn & Hme).
  unfold written. rewrite <- !app_assoc. cbn [cli o_socket o_model o_embedding_model o_provider o_agent o_user o_root o_config o_policy o_write o_no_tools o_exec o_mcp o_net o_memory
    o_database o_ephemeral session verbose record].
  settle.
  read_flag "--socket"%string (fun v => set_cli (set_socket v)); [by intros a _|].
  read_flag "--model"%string (fun v => set_cli (set_model v)); [by intros a _|].
  read_flag "--embedding-model"%string (fun v => set_cli (set_embedding_model v)); [by intros a _|].
  read_flag "--provider"%string (fun v => set_cli (set_provider v)); [intros a _; cbn -[Provider_parse Provider_as_str]; by rewrite Hp|].
  read_flag "--agent"%string (fun v => set_cli (set_agent v)); [by intros a _|].
  read_flag "--user"%string (fun v => set_cli (set_user v)); [by intros a _|].
  read_flag "--root"%string (fun v => set_cli (set_root v)); [by intros a _|].
  read_flag "--config"%string (fun v => set_cli (set_config v)); [by intros a _|].
  read_flag "--policy"%string (fun v => set_cli (set_policy v)); [by intros a _|].
  read_switch "--write"%string (fun v => set_cli (set_write v)).
  read_switch "--no-tools"%string (fun v => set_cli (set_no_tools v)).
  read_flag "--exec"%string (fun v => set_cli (set_exec v)); [intros a _; cbn -[ExecSet_parse ExecSet_as_str]; by rewrite He|].
  read_flag "--mcp"%string (fun v => set_cli (set_mcp v)); [intros a _; cbn -[McpSet_parse McpSet_as_str]; by rewrite Hm|].
  read_flag "--net"%string (fun v => set_cli (set_net v)); [intros a _; cbn -[NetSet_parse NetSet_as_str]; by rewrite Hn|].
  read_flag "--memory"%string (fun v => set_cli (set_memory v)); [intros a _; cbn -[MemorySet_parse MemorySet_as_str]; by rewrite Hme|].
  read_flag "--db"%string (fun v => set_cli (set_database v)); [by intros a _|].
  read_switch "--ephemeral"%string (fun v => set_cli (set_ephemeral v)).
  read_flag "--session"%string set_session; [intros a ->; cbn; unfold parse_session, shown; by rewrite (Hs a eq_refl)|].
  read_switch "--verbose"%string set_verbose.
  read_flag "--record"%string set_record; [by intros a _|].
  apply (reading_dashes usage cli_flag EmptyString [] rest eq_refl _ _ [] []). reflexivity.
Qed.

#[local] Abbreviation parse := (parse error_text parse_session_id parse_correlation_id).
#[local] Abbreviation parse_run := (parse_run error_text parse_session_id).
#[local] Abbreviation audit_flag := (audit_flag parse_correlation_id).

(** Whether the command's options may be given together. *)
Definition agrees (o : CliOptions) : Prop :=
  options_agree (cli o) /\ (o_ephemeral (cli o) = true -> session o = None) /\
  (is_Some (o_socket (cli o)) -> Forall (fun p => fst p = false) (assembles o)).

Lemma contradictions_agree o : first_given (cli_contradictions o) = None <-> agrees o.
Proof using.
  rewrite first_given_none. unfold cli_contradictions, agrees. rewrite !Forall_app, shared_agree, Forall_singleton. cbn [fst]. rewrite andb_false_iff, given_none, false_or.
  assert (Hs : Forall (fun p => fst p = false) (if given (o_socket (cli o)) then map (fun p => (fst p, client_contradiction (snd p))) (assembles o) else []) <->
    (is_Some (o_socket (cli o)) -> Forall (fun p => fst p = false) (assembles o))).
  { destruct (o_socket (cli o)) as [socket|]; cbn [given]; [|split; [by intros _ [? [=]]|by intros _; constructor]].
    rewrite Forall_map. split; [by intros H _|intros H; by apply H; eexists]. }
  by rewrite Hs.
Qed.

Lemma finish_run o words i : finish o words = Ok i -> agrees o /\ i = Run (match words with [] => o | _ => set_prompt (Some (joined words)) o end).
Proof using. unfold finish. destruct (first_given _) eqn:E; [done|]. intros [= <-]. split; [by apply contradictions_agree|done]. Qed.

Lemma parse_run_inv args o : parse_run args = Ok (Run o) ->
  exists o' words literal, read_arguments usage cli_flag EmptyString false CliOptions_default [] args = Ok (Read_all o' words literal) /\
    agrees o' /\ o = match words with [] => o' | _ => set_prompt (Some (joined words)) o' end.
Proof using.
  unfold Args.parse_run. destruct (read_arguments _ _ _ _ _ _ args) as [[o' words literal|[]]|] eqn:E; cbn [result_bind]; try done.
  intros [Ha [= Ho]]%finish_run. by exists o', words, literal.
Qed.

Lemma parse_is_run args o : parse args = Ok (Run o) -> parse_run args = Ok (Run o).
Proof using.
  unfold Args.parse. destruct args as [|word rest]; [done|]. destruct (String.eqb word AUDIT_COMMAND); [|done].
  unfold parse_audit. destruct rest as [|w r]; [|destruct (String.eqb w PRUNE_COMMAND)]; destruct (read_arguments _ _ _ _ _ _ _) as [[]|]; cbn [result_bind];
    try done; destruct (audit_command_of _ _); cbn [result_bind]; try done; by destruct (first_given _).
Qed.

Lemma parse_is_audit args o : parse args = Ok (Audit o) -> exists rest, args = AUDIT_COMMAND :: rest /\ parse_audit parse_correlation_id rest = Ok (Audit o).
Proof using.
  assert (Hrun : forall args, parse_run args <> Ok (Audit o)).
  { intros l. unfold Args.parse_run. destruct (read_arguments _ _ _ _ _ _ l) as [[o1 words literal|[]]|]; cbn [result_bind]; try done.
    unfold finish. by destruct (first_given _). }
  unfold Args.parse. destruct args as [|word rest]; [by intros ?%Hrun|]. destruct (String.eqb_spec word AUDIT_COMMAND) as [->|]; [|by intros ?%Hrun].
  intros H. by exists rest.
Qed.

(** Options that are accepted agree: a run without tools offers none of any kind, a run that keeps
    nothing neither names a database nor resumes a conversation, and a client of a host names
    nothing that only the host decides. *)
Theorem accepted_options_agree (args : list string) (o : CliOptions) : parse args = Ok (Run o) ->
  agrees o /\
  (o_no_tools (cli o) = true -> tools (cli o) = Tools_None /\ exec (cli o) = Exec_Off /\ mcp (cli o) = Mcp_Off /\ net (cli o) = Net_Off /\ memory (cli o) = Memory_Off).
Proof using.
  intros Hp. split; [|intros Hn; unfold tools, exec, mcp, net, memory; by rewrite Hn].
  by apply parse_is_run, parse_run_inv in Hp as (o' & words & literal & _ & Ha & ->); destruct words.
Qed.
(** A flag of the command, of what it shares with the host. *)
Lemma cli_sets flag f o : cli_flag flag = Sets f ->
  (o_write (cli (f o)) = o_write (cli o) \/ writes flag None (o_write (cli (f o)))) /\
  o_exec (cli (f o)) = o_exec (cli o) /\ o_mcp (cli (f o)) = o_mcp (cli o) /\ o_net (cli (f o)) = o_net (cli o).
Proof using.
  unfold Args.cli_flag. destruct (is_flag flag ["--"%string]); [done|]. destruct (is_flag flag ["--session"%string]); [done|].
  destruct (is_flag flag _); [intros [= <-]; by split_and!; try left|]. destruct (is_flag flag _); [done|].
  destruct (shared_flag usage (wrong_choice error_text) flag) as [g|g|what| | |] eqn:E; cbn [within]; try done; [|by destruct (_ && _)].
  intros [= <-]. by apply (shared_sets _ _ _ _ (cli o) E).
Qed.

Lemma cli_wants flag f raw o o' : cli_flag flag = Wants f -> f raw o = Ok o' ->
  o_write (cli o') = o_write (cli o) /\
  (o_exec (cli o') = o_exec (cli o) \/ chooses "--exec" ExecSet_as_str flag (Some raw) (o_exec (cli o'))) /\
  (o_mcp (cli o') = o_mcp (cli o) \/ chooses "--mcp" McpSet_as_str flag (Some raw) (o_mcp (cli o'))) /\
  (o_net (cli o') = o_net (cli o) \/ chooses "--net" NetSet_as_str flag (Some raw) (o_net (cli o'))).
Proof using.
  unfold Args.cli_flag. destruct (is_flag flag ["--"%string]); [done|]. destruct (is_flag flag ["--session"%string]).
  { intros [= <-]. destruct (parse_session parse_session_id raw); cbn [result_bind]; [|done]. intros [= <-]. by split_and!; try left. }
  destruct (is_flag flag _); [done|]. destruct (is_flag flag _); [intros [= <-] [= <-]; by split_and!; try left|].
  destruct (shared_flag usage (wrong_choice error_text) flag) as [g|g|what| | |] eqn:E; cbn [within]; try done; [|by destruct (_ && _)].
  intros [= <-]. destruct (g raw (cli o)) as [o1|] eqn:Eg; cbn [result_bind]; [|done]. intros [= <-]. by apply (shared_wants _ _ _ _ _ (cli o) o1 E).
Qed.

Lemma chosen_is_given {A} (obs : CliOptions -> option A) name (show : A -> string) :
  (forall flag f o, cli_flag flag = Sets f -> obs (f o) = obs o) ->
  (forall flag f raw o o', cli_flag flag = Wants f -> f raw o = Ok o' -> obs o' = obs o \/ chooses name show flag (Some raw) (obs o')) ->
  forall args o words literal a, read_arguments usage cli_flag EmptyString false CliOptions_default [] args = Ok (Read_all o words literal) ->
  obs CliOptions_default = None -> obs o = Some a -> given_in name (Some (show a)) args.
Proof using.
  intros Hs Hw args o words literal a Hr Hd Ha.
  destruct (reading_observes _ _ _ obs (chooses name show) (fun _ _ _ H => or_introl (Hs _ _ _ H)) Hw _ _ _ _ _ _ _ Hr) as [H|(flag & v & Hin & b & Hb & -> & ->)].
  - by rewrite Ha, Hd in H.
  - rewrite Ha in Hb. by injection Hb as ->.
Qed.


(** Every deployment that may be asked for can be: the options written as flags, and a prompt after
    [--], are read as just these options and that prompt, whatever the prompt's words look like. *)
Theorem written_options_are_read (o : CliOptions) (words : list string) :
  agrees o -> prompt o = None -> (forall s, session o = Some s -> parse_session_id s = Some s) ->
  parse (written o ++ "--"%string :: words) = Ok (Run (match words with [] => o | _ => set_prompt (Some (joined words)) o end)).
Proof using.
  intros Ha Hp Hs. assert (Hrun : parse_run (written o ++ "--"%string :: words) = Ok (Run (match words with [] => o | _ => set_prompt (Some (joined words)) o end))).
  { unfold Args.parse_run. rewrite (written_reads o words Hp Hs). cbn [result_bind]. unfold finish. by rewrite (proj2 (contradictions_agree o) Ha). }
  pose proof (written_dashed o) as Hd. unfold Args.parse. destruct (written o) as [|word rest]; cbn [app] in *; [done|].
  apply Forall_cons in Hd as [Hd _]. destruct (String.eqb_spec word AUDIT_COMMAND) as [->|_]; [done|exact Hrun].
Qed.

(** Nothing after [--] is an option: where the arguments before it are read and none of them is one,
    what follows is only added to the prompt. *)
Theorem words_after_dashes_are_words (args rest : list string) (o : CliOptions) :
  Forall (fun a => fst (split_flag a) <> "--"%string) args -> parse_run args = Ok (Run o) ->
  exists o' words, o = (match words with [] => o' | _ => set_prompt (Some (joined words)) o' end) /\
    parse_run (args ++ "--"%string :: rest) = Ok (Run (match words ++ rest with [] => o' | l => set_prompt (Some (joined l)) o' end)).
Proof using.
  intros Hno (o' & words & literal & Hr & Ha & ->)%parse_run_inv. exists o', words. split; [done|].
  assert (literal = false) as ->.
  { clear Ha. revert Hr. generalize CliOptions_default as o0. generalize (@nil string) as w0. induction args as [args IH] using (induction_ltof1 _ (@length string)).
    unfold ltof in IH. intros w0 o0. destruct args as [|a args]; cbn [read_arguments]; [by intros [= _ _ <-]|]. apply Forall_cons in Hno as [Hne Hno].
    destruct (split_flag a) as [flag inline]. cbn [fst] in Hne. destruct (cli_flag flag) as [f|f|what| | |] eqn:Ef; try done.
    - apply IH; [simpl; lia|done].
    - destruct inline as [value|]; [|destruct args as [|value args]; [done|]; apply Forall_cons in Hno as [_ Hno]];
        (destruct (f value o0); [|done]); (apply IH; [simpl; lia|done]).
    - exfalso. unfold Args.cli_flag, is_flag in Ef. cbn [existsb] in Ef. destruct (String.eqb_spec flag "--"); [done|]. cbn [orb] in Ef.
      repeat (match type of Ef with (if ?b then _ else _) = _ => destruct b; [done|] end).
      unfold shared_flag, within in Ef. repeat (match type of Ef with context [if ?b then _ else _] => destruct b; try done end).
    - apply IH; [simpl; lia|done]. }
  unfold Args.parse_run. rewrite (reading_dashes usage cli_flag EmptyString args rest eq_refl _ _ _ _ Hr). cbn [result_bind]. unfold finish.
  rewrite (proj2 (contradictions_agree o') Ha). by destruct (words ++ rest).
Qed.

Lemma parse_duration_ok raw flag d : parse_duration raw flag = Ok d -> exists digits unit n per, raw = digits +:+ unit /\ named unit_seconds unit = Some per /\
  parse_uint u64_max digits = Some n /\ 0 < n /\ n * per <= u64_max /\ d = n * per * 1000000000.
Proof using.
  unfold parse_duration. destruct (split_digits raw) as [[digits unit]|] eqn:Es; [|done].
  destruct (named unit_seconds unit) as [per|] eqn:Eu; [|done]. destruct (parse_uint u64_max digits) as [n|] eqn:En; [|done].
  destruct (Z.eqb_spec n 0); [done|]. destruct (Z.ltb_spec u64_max (n * per)); [done|]. intros [= <-].
  apply parse_uint_bounds in En as Hb; [|done]. exists digits, unit, n, per. split_and!; try done; [by apply split_digits_back|lia].
Qed.

(** A period is what its digits count of its unit, neither nothing nor more seconds than 64 bits
    hold; what is written as a count and a unit is read as that, or refused for being either. *)
Theorem periods_are_exact (flag : string) :
  (forall raw d, parse_duration raw flag = Ok d -> exists digits unit n per, raw = digits +:+ unit /\ named unit_seconds unit = Some per /\
     parse_uint u64_max digits = Some n /\ 0 < n /\ n * per <= u64_max /\ d = n * per * 1000000000) /\
  (forall n unit per, 0 <= n <= u64_max -> named unit_seconds unit = Some per ->
     match parse_duration (fmt_u n +:+ unit) flag with
     | Ok d => d = n * per * 1000000000 /\ 0 < n /\ n * per <= u64_max
     | Err _ => n = 0 \/ u64_max < n * per
     end).
Proof using.
  split; [intros raw d; apply parse_duration_ok|].
  intros n unit per Hn Hu. unfold parse_duration. apply unit_known in Hu as Hk. destruct Hk as [Hc _].
  rewrite (split_digits_app (fmt_u n) unit (fmt_u_digits is_digit n eq_refl (proj1 Hn)) Hc), Hu, parse_uint_fmt_u by done.
  destruct (Z.eqb_spec n 0); [by left|]. destruct (Z.ltb_spec u64_max (n * per)); [by right|]. split_and!; [done|lia|done].
Qed.

Lemma audit_asks flag : (forall f r, audit_flag flag = Sets f -> ar_older_than (f r) = ar_older_than r) /\
  (forall f raw r r', audit_flag flag = Wants f -> f raw r = Ok r' -> ar_older_than r' = ar_older_than r \/
     flag = "--older-than"%string /\ exists d, parse_duration raw "--older-than" = Ok d /\ ar_older_than r' = Some d).
Proof using.
  unfold Args.audit_flag. split.
  - intros f r H. each_flag H; by injection H as <-.
  - intros f raw r r' H Hf. each_flag H; injection H as <-; try (injection Hf as <-; by left).
    all: try match type of Hf with result_bind _ ?parsed = _ => destruct parsed as [a|] eqn:Ea; cbn [result_bind] in Hf; [|done]; injection Hf as <- end.
    all: try by left.
    right. split; [done|]. by exists a.
Qed.

(** Records are removed only where that was asked for, by name and with a period: the one that is
    used was given to [--older-than], and it is not nothing. *)
Theorem pruning_is_asked_for (args : list string) (o : AuditOptions) (older_than : Duration) (dry_run : bool) :
  parse args = Ok (Audit o) -> audit_command o = Prune older_than dry_run ->
  exists rest raw, args = AUDIT_COMMAND :: PRUNE_COMMAND :: rest /\ given_in "--older-than" (Some raw) rest /\
    parse_duration raw "--older-than" = Ok older_than /\ 0 < older_than.
Proof using.
  intros Hp Hc. apply parse_is_audit in Hp as (rest & -> & Hp). unfold Args.parse_audit in Hp.
  destruct (match rest with [] => _ | _ => _ end) as [prune rest'] eqn:Ep.
  destruct (read_arguments _ _ _ _ _ _ rest') as [[r words literal|]|] eqn:Er; cbn [result_bind] in Hp; try done.
  destruct (audit_command_of prune r) as [c|] eqn:Ec; cbn [result_bind] in Hp; [|done]. destruct (first_given _); [done|]. injection Hp as <-. cbn in Hc. subst c.
  unfold audit_command_of in Ec. destruct prune; [|by destruct (_ || _)]. destruct (filters_given _); [done|].
  destruct (ar_older_than r) as [d|] eqn:Ed; [|done]. injection Ec as -> _.
  destruct (reading_observes _ _ _ ar_older_than
    (fun flag v x => flag = "--older-than"%string /\ exists raw d, v = Some raw /\ parse_duration raw "--older-than" = Ok d /\ x = Some d)
    (fun flag f o H => or_introl (proj1 (audit_asks flag) f o H))
    (fun flag f raw o o' H H' => match proj2 (audit_asks flag) f raw o o' H H' with
       | or_introl E => or_introl E | or_intror (conj E (ex_intro _ d (conj E1 E2))) => or_intror (conj E (ex_intro _ raw (ex_intro _ d (conj eq_refl (conj E1 E2))))) end)
    _ _ _ _ _ _ _ Er) as [H|(flag & v & Hin & -> & raw & d & -> & Hd & Hx)]; [by rewrite Ed in H|].
  rewrite Ed in Hx. injection Hx as <-. exists rest', raw. split_and!; [|done|done|].
  - destruct rest as [|w rest]; [done|]. destruct (String.eqb_spec w PRUNE_COMMAND) as [->|]; [by injection Ep as ->|done].
  - apply parse_duration_ok in Hd as (digits & unit & n & per & _ & Hu & _ & Hn & _ & ->). apply unit_known in Hu as [_ Hu]. nia.
Qed.
End Promises.

(** ** What a host is told *)

Section Daemon_promises.
  Context (error_text : Error -> string).

#[local] Abbreviation daemon_flag := (daemon_flag error_text).

Lemma daemon_sets flag f o : daemon_flag flag = Sets f ->
  max_connections (f o) = max_connections o /\ (o_write (host (f o)) = o_write (host o) \/ writes flag None (o_write (host (f o)))) /\ o_exec (host (f o)) = o_exec (host o).
Proof using.
  unfold Args.daemon_flag. destruct (is_flag flag _); [done|].
  destruct (shared_flag daemon_usage (daemon_wrong error_text) flag) as [g|g|what| | |] eqn:E; cbn [within]; try done.
  intros [= <-]. by apply (shared_sets _ _ _ _ (host o)) in E as (? & ? & _).
Qed.

Lemma daemon_wants flag f raw o o' : daemon_flag flag = Wants f -> f raw o = Ok o' ->
  (max_connections o' = max_connections o \/ exists n, max_connections o' = Some n /\ 1 <= n <= u64_max) /\
  o_write (host o') = o_write (host o) /\
  (o_exec (host o') = o_exec (host o) \/ chooses "--exec" ExecSet_as_str flag (Some raw) (o_exec (host o'))).
Proof using.
  unfold Args.daemon_flag. destruct (is_flag flag _).
  - intros [= <-]. destruct (parse_count raw) as [n|] eqn:Ec; cbn [result_bind]; [|done]. intros [= <-]. split_and!; [|done|by left].
    right. exists n. split; [done|]. unfold parse_count in Ec. destruct (parse_uint u64_max raw) as [m|] eqn:Em; [|done].
    apply parse_uint_bounds in Em; [|done]. destruct (Z.eqb_spec m 0); [done|]. injection Ec as <-. lia.
  - destruct (shared_flag daemon_usage (daemon_wrong error_text) flag) as [g|g|what| | |] eqn:E; cbn [within]; try done.
    intros [= <-]. destruct (g raw (host o)) as [o1|] eqn:Eg; cbn [result_bind]; [|done]. intros [= <-].
    apply (shared_wants _ _ _ _ _ (host o) o1 E) in Eg as (? & ? & _). by split_and!; [left| |].
Qed.

(** A host that serves was told nothing that contradicts itself, serves at least one client where it
    was told how many, and writes or runs programs only where a flag says so. *)
Theorem hosts_are_told_plainly (args : list string) (o : DaemonOptions) : daemon_parse error_text args = Ok (Serve o) ->
  options_agree (host o) /\ (forall n, max_connections o = Some n -> 1 <= n <= u64_max) /\
  (tools (host o) = Tools_ReadWrite -> given_in "--write" None args) /\
  (forall e, exec (host o) = e -> e <> Exec_Off -> given_in "--exec" (Some (ExecSet_as_str e)) args).
Proof using.
  unfold daemon_parse. destruct (read_arguments _ _ _ _ _ _ args) as [[o' words literal|[]]|] eqn:Er; cbn [result_bind]; try done.
  destruct (first_given _) eqn:Ec; [done|]. intros [= ->]. split; [by apply first_given_none, shared_agree in Ec|]. split_and!.
  - intros n Hn. destruct (reading_observes _ _ _ max_connections (fun _ _ m => exists n, m = Some n /\ 1 <= n <= u64_max)
      (fun _ _ _ H => or_introl (proj1 (daemon_sets _ _ _ H))) (fun _ _ _ _ _ H H' => proj1 (daemon_wants _ _ _ _ _ H H')) _ _ _ _ _ _ _ Er) as [H|(_ & _ & _ & m & Hm & Hb)].
    + by rewrite Hn in H.
    + rewrite Hn in Hm. by injection Hm as <-.
  - unfold tools. intros Ht. destruct (reading_observes _ _ _ (fun o => o_write (host o)) writes
      (fun _ _ _ H => proj1 (proj2 (daemon_sets _ _ _ H))) (fun _ _ _ _ _ H H' => or_introl (proj1 (proj2 (daemon_wants _ _ _ _ _ H H')))) _ _ _ _ _ _ _ Er)
      as [H|(flag & v & Hin & ->)]; [|by apply (given_in_none _ v)].
    rewrite H in Ht. by destruct (o_no_tools (host o)).
  - unfold exec. intros e He Hoff. destruct (reading_observes _ _ _ (fun o => o_exec (host o)) (chooses "--exec" ExecSet_as_str)
      (fun _ _ _ H => or_introl (proj2 (proj2 (daemon_sets _ _ _ H)))) (fun _ _ _ _ _ H H' => proj2 (proj2 (daemon_wants _ _ _ _ _ H H'))) _ _ _ _ _ _ _ Er)
      as [H|(flag & v & Hin & a & Ha & -> & ->)].
    + rewrite H in He. by destruct (o_no_tools (host o)).
    + rewrite Ha in He. destruct (o_no_tools (host o)); simpl in He; by subst.
Qed.
End Daemon_promises.

(** ** On concrete arguments *)

Module ArgsDemo.
Local Open Scope string_scope.

Definition any_id (raw : string) : option string := if str_is_empty raw then None else Some raw.
Definition said (error : Error) : string := "wrong".
Definition of_aik : list string -> Result Invocation := parse said any_id any_id.
Definition of_aikd : list string -> Result DaemonInvocation := daemon_parse said.

Definition careful : CliOptions :=
  {| cli := set_exec (Some Exec_Sandboxed) (set_root (Some "/srv") (set_write true Options_default)); prompt := None; session := Some "s-1";
     verbose := true; record := None |}.

Lemma careful_agrees : agrees careful.
Proof. unfold agrees, options_agree. split_and!; try (vm_compute; discriminate). intros [? H]. discriminate H. Qed.

Lemma careful_read : of_aik ["--write"; "--exec"; "sandboxed"; "-r=/srv"; "--session"; "s-1"; "-v"] = Ok (Run careful).
Proof. vm_compute. reflexivity. Qed.

Example what_is_read :
  written careful = ["--root=/srv"; "--write"; "--exec=sandboxed"; "--session=s-1"; "--verbose"] /\
  of_aik ["explain"; "--model"; "--write"; "src"] = Ok (Run (set_prompt (Some "explain src") (set_cli (set_model (Some "--write")) CliOptions_default))) /\
  is_ok (of_aik ["--no-tools"; "--write"]) = false /\ is_ok (of_aik ["--socket"; "/run/aik.sock"; "--write"]) = false /\
  of_aik ["--"; "audit"; "--write"] = Ok (Run (set_prompt (Some "audit --write") CliOptions_default)).
Proof. vm_compute. split_and!; reflexivity. Qed.

Definition a_month : list string := ["audit"; "prune"; "--older-than"; "30d"; "--dry-run"].
Definition pruning : AuditOptions := with_command (Prune (30 * 86400 * 1000000000) true) (ar_options AuditRead_default).
Lemma a_month_read : of_aik a_month = Ok (Audit pruning).
Proof. vm_compute. reflexivity. Qed.

Definition serving : DaemonOptions := {| host := set_exec (Some Exec_Unconfined) Options_default; max_connections := Some 4%Z |}.
Lemma serving_read : of_aikd ["--exec=unconfined"; "--max-clients"; "4"] = Ok (Serve serving).
Proof. vm_compute. reflexivity. Qed.

Lemma accepted_options_agree_witness : agrees careful.
Proof. exact (proj1 (accepted_options_agree said any_id any_id _ careful careful_read)). Defined.


Lemma careful_session : forall s, session careful = Some s -> any_id s = Some s.
Proof. intros s [= <-]. reflexivity. Qed.

Lemma written_options_are_read_witness : of_aik (written careful ++ ["--"; "--no-tools"; "now"]) = Ok (Run (set_prompt (Some "--no-tools now") careful)).
Proof. exact (written_options_are_read said any_id any_id careful ["--no-tools"; "now"] careful_agrees eq_refl careful_session). Defined.

Lemma words_after_dashes_are_words_witness : exists o' (words : list string),
  parse_run said any_id (["-v"] ++ "--" :: ["--write"])%list = Ok (Run (match (words ++ ["--write"])%list with [] => o' | l => set_prompt (Some (joined l)) o' end)).
Proof.
  destruct (words_after_dashes_are_words said any_id ["-v"] ["--write"] (set_verbose true CliOptions_default)
    ltac:(repeat constructor; discriminate) eq_refl) as (o' & words & _ & H). by exists o', words.
Defined.

Lemma pruning_is_asked_for_witness : exists rest, a_month = AUDIT_COMMAND :: PRUNE_COMMAND :: rest.
Proof.
  destruct (pruning_is_asked_for said any_id any_id a_month pruning (30 * 86400 * 1000000000) true a_month_read eq_refl) as (rest & raw & H & _).
  by exists rest.
Defined.

Lemma hosts_are_told_plainly_witness : given_in "--exec" (Some "unconfined") ["--exec=unconfined"; "--max-clients"; "4"].
Proof. apply (proj2 (proj2 (proj2 (hosts_are_told_plainly said _ serving serving_read))) Exec_Unconfined); [reflexivity|discriminate]. Defined.

Lemma periods_are_exact_witness : parse_duration "4w" "--since" = Ok (4 * 604800 * 1000000000)%Z /\ 4 * 604800 <= u64_max.
Proof. pose proof (proj2 (periods_are_exact "--since") 4 "w" 604800 ltac:(done) eq_refl) as H. split; [reflexivity|apply H]. Defined.

(** A flag that takes no value takes one nonetheless, and what it says is not looked at. *)
Lemma false_is_true : of_aik ["--write=false"] = of_aik ["--write"] /\ of_aik ["audit"; "prune"; "--older-than=30d"; "--dry-run=false"] = Ok (Audit pruning).
Proof. vm_compute. split; reflexivity. Qed.
End ArgsDemo.
