(* ===== verification/Settings.v ===== *)
(** * Settings: what a command line, a configuration file and the environment come to

    [crates/runtime/src/settings.rs], which both programs resolve their deployment with;
    [crates/cli/src/settings.rs] and [crates/daemon/src/settings.rs], what each adds to it;
    [crates/store/src/settings.rs] and [crates/ipc/src/endpoint.rs], where a database and a socket
    are when nothing says.  [serde]'s conversions and the file system are arguments. *)

From S2P Require Import Prelude Base Text Paths Config Trust Summary Net Mcp Args.

Local Open Scope string_scope.

Abbreviation Vars := (list (string * string)).

(** ** Where the database is ([store/src/settings.rs]) *)

Definition DEFAULT_FILE_NAME : string := "aik.redb".
Definition DEFAULT_DIRECTORY_NAME : string := "aik".

(** The last of some variables that is not empty. *)
Fixpoint last_set (name : string) (vars : Vars) (found : option string) : option string :=
  match vars with
  | [] => found
  | (key, value) :: vars => last_set name vars (if String.eqb key name && negb (str_is_empty value) then Some value else found)
  end.

Definition default_path (vars : Vars) : Result string :=
  let xdg_data_home := last_set "XDG_DATA_HOME" vars None in
  let home := last_set "HOME" vars None in
  let root := match xdg_data_home with
              | Some path => if is_absolute path then Some path else None
              | None => None
              end in
  let root := match root with
              | Some root => Some root
              | None => option_map (fun home => path_join (path_join home ".local") "share") home
              end in
  match root with
  | Some root => Ok (path_join (path_join root DEFAULT_DIRECTORY_NAME) DEFAULT_FILE_NAME)
  | None => Err (Base.Config "components.store.db.path" ("neither XDG_DATA_HOME nor HOME is set, so there is no default location for " +:+
                                                         "the database; set the path explicitly"))
  end.

(** [StoreSettings], and [resolve_path_from] *)
Record StoreSettings := { store_path : option string }.
Definition resolve_path_from (self : StoreSettings) (vars : Vars) : Result string :=
  match store_path self with Some path => Ok path | None => default_path vars end.

(** ** Where the socket is ([ipc/src/endpoint.rs]) *)

Definition RUNTIME_SUBDIRECTORY : string := "aik".
Definition SOCKET_NAME : string := "aikd.sock".
Definition SOCKET_ENV : string := "AIK_SOCKET".
Definition RUNTIME_DIR_ENV : string := "XDG_RUNTIME_DIR".

(** [Path::file_stem] of a name: what comes before its last dot, unless that begins it. *)
Fixpoint before_last_dot (name : string) : option string :=
  match name with
  | EmptyString => None
  | String c rest =>
      match before_last_dot rest with
      | Some before => Some (String c before)
      | None => if decide (c = "."%char) then Some EmptyString else None
      end
  end.
Definition stem (name : string) : string :=
  match before_last_dot name with Some EmptyString | None => name | Some before => before end.

(** [Path::with_extension] *)
Definition with_extension (path extension : string) : string :=
  match file_name path with
  | None => path
  | Some name =>
      match trim_segments (rev (split_char SLASH_CHAR path)) with
      | _ :: ((_ :: _) as before) => String.concat "/" (rev before) +:+ "/"
      | _ => EmptyString
      end +:+ stem name +:+ "." +:+ extension
  end.

Record Endpoint := { socket : string; token : string }.

Definition Endpoint_at (socket : string) : Endpoint := {| socket := socket; token := with_extension socket "token" |}.

Definition Endpoint_resolve (explicit : option string) (vars : Vars) : Result Endpoint :=
  match explicit with
  | Some socket => Ok (Endpoint_at socket)
  | None =>
      match last_set SOCKET_ENV vars None with
      | Some socket => Ok (Endpoint_at socket)
      | None =>
          match last_set RUNTIME_DIR_ENV vars None with
          | Some runtime_dir => Ok (Endpoint_at (path_join (path_join runtime_dir RUNTIME_SUBDIRECTORY) SOCKET_NAME))
          | None =>
              Err (Base.Config SOCKET_ENV ("there is no default location for the socket: neither $AIK_SOCKET nor " +:+
                   "$XDG_RUNTIME_DIR is set, and a socket in a shared temporary directory " +:+ "could be created by another account before this one gets there"))
          end
      end
  end.

Definition Endpoint_directory (self : Endpoint) : string := default "." (parent (socket self)).

(** What [symlink_metadata] tells. *)
Record Metadata := { is_symlink : bool; uid : Z; raw_mode : Z }.

Definition octal (z : Z) : string := String "0" (fmt_u (z / 64 mod 8) +:+ fmt_u (z / 8 mod 8) +:+ fmt_u (z mod 8)).

Definition verify_private (symlink_metadata : string -> result BoxError Metadata) (current_uid : Z) (path what : string) : Result unit :=
  let? metadata := map_err (fun error => Error_wrap ("inspecting " +:+ path) error) (symlink_metadata path) in
  if is_symlink metadata then
    Err (PermissionDenied (what +:+ " `" +:+ path +:+ "` is a symbolic link; it is refused rather than followed, because a " +:+
                           "link is how a path that looks like this one names a file that is not"))
  else if negb (uid metadata =? current_uid)%Z then
    Err (PermissionDenied (what +:+ " `" +:+ path +:+ "` belongs to uid " +:+ fmt_u (uid metadata) +:+ ", not to uid " +:+ fmt_u current_uid))
  else
    let mode := Z.land (raw_mode metadata) 511 in
    if negb (Z.land mode 63 =? 0)%Z then
      Err (PermissionDenied (what +:+ " `" +:+ path +:+ "` is mode " +:+ octal mode +:+ ", which lets other accounts reach it; " +:+
                             "it must be private to this account"))
    else Ok tt.

(** ** The deployment ([runtime/src/settings.rs]) *)

Definition DATABASE_PATH_KEY : string := "components.store.db.path".
Definition AGENT_SECTION : string := "agent".
Definition ENV_PREFIX : string := "AIK_".
Definition DEFAULT_AGENT : string := "assistant".
Definition DEFAULT_USER : string := "user".

(** [Provider::component_id], [embedder_component_id] *)
Definition component_id (self : Provider) : ComponentId :=
  match self with Provider_Ollama => "model.ollama" | Provider_Anthropic => "model.anthropic" | Provider_OpenAi => "model.openai" end.
Definition embedder_component_id (self : Provider) : option ComponentId :=
  match self with Provider_Ollama => Some "model.ollama" | Provider_OpenAi => Some "model.openai" | Provider_Anthropic => None end.

Record ExecSettings := {
  exec_programs : list string;
  exec_writable : bool;
  exec_network : bool;
  exec_timeout_ms : option Z;
  exec_search_path : option string;
}.
Record McpSettings := { mcp_servers : list ServerSettings }.
Record TrustSettings := { trust_enforcement : TrustEnforcement }.

(** [SummarySettings] of a deployment, and what they come to for a model. *)
Record DeploymentSummary := { ds_enabled : option bool; ds_model : option string; ds_keep_recent : option Z }.
Definition non_blank (value : string) : bool := negb (str_is_empty (trim value)).
Definition not_blank (value : option string) : option string := match value with Some v => if non_blank v then Some v else None | None => None end.
Definition summary_is_enabled (self : DeploymentSummary) : bool := default true (ds_enabled self).
Definition summary_resolve (self : DeploymentSummary) (answering : string) : SummarySettings :=
  let settings := SummarySettings_new (default answering (not_blank (ds_model self))) in
  match ds_keep_recent self with
  | None => settings
  | Some keep_recent =>
      {| summary_model := summary_model settings; keep_recent_records := keep_recent; min_retained_records := min_retained_records settings;
         min_summarised_records := min_summarised_records settings; retain_percent := retain_percent settings; max_part_chars := max_part_chars settings;
         max_excerpt_chars := max_excerpt_chars settings; max_summary_chars := max_summary_chars settings; instructions := instructions settings;
         summary_parameters := summary_parameters settings |}
  end.

Inductive JobExecution := Jobs_Disabled | Jobs_Agent.

Inductive Storage := Ephemeral | Persistent (path : string).
Definition storage_path (self : Storage) : option string := match self with Ephemeral => None | Persistent path => Some path end.

(** [Storage::resolve] *)
Definition Storage_resolve (ephemeral : bool) (explicit : option string) (config : Config) (vars : Vars) : Result Storage :=
  if ephemeral then Ok Ephemeral
  else match explicit with
       | Some path => Ok (Persistent path)
       | None =>
           match (value ← Config_value config DATABASE_PATH_KEY; Value_as_str value) with
           | Some path => Ok (Persistent path)
           | None => result_map Persistent (default_path vars)
           end
       end.

Definition pinned (config : Config) (value : Value) : Config := build (set (layer ConfigBuilder_new (Config.root config)) DATABASE_PATH_KEY value).

Definition pin_database_path (config : Config) (storage : Storage) : Result Config :=
  match storage_path storage with
  | None => Ok (pinned config VNull)
  | Some path =>
      if valid_utf8 path then Ok (pinned config (VString path))
      else Err (Base.Config DATABASE_PATH_KEY ("the database path `" +:+ path_display path +:+ "` is not valid UTF-8, and configuration cannot carry it " +:+
                                               "unchanged; use a path that is"))
  end.

Record AgentSection := {
  as_agent : option string;
  as_user : option string;
  as_root : option string;
  as_model : option string;
  as_embedding_model : option string;
  as_provider : option string;
  as_system_prompt : option string;
  as_exec : ExecSettings;
  as_mcp : McpSettings;
  as_net : NetSettings;
  as_summary : DeploymentSummary;
  as_trust : TrustSettings;
}.

Definition AgentSection_default : AgentSection :=
  {| as_agent := None; as_user := None; as_root := None; as_model := None; as_embedding_model := None; as_provider := None; as_system_prompt := None;
     as_exec := {| exec_programs := []; exec_writable := false; exec_network := false; exec_timeout_ms := None; exec_search_path := None |};
     as_mcp := {| mcp_servers := [] |};
     as_net := {| allow_local_addresses := false; allow_http := false; allow_hosts := []; deny_hosts := []; max_bytes_setting := None; Net.timeout_ms := None;
                  max_redirects_setting := None |};
     as_summary := {| ds_enabled := None; ds_model := None; ds_keep_recent := None |}; as_trust := {| trust_enforcement := TrustEnforcement_default |} |}.

Inductive StorageChoice := Choice_Resolve (ephemeral : bool) (explicit : option string) | Choice_None.

Record Deployment := {
  d_agent : option string;
  d_user : option string;
  d_root : option string;
  d_model : option string;
  d_embedding_model : option string;
  d_provider : option Provider;
  d_tools : ToolSet;
  d_memory : MemorySet;
  d_exec : ExecSet;
  d_mcp : McpSet;
  d_net : NetSet;
  d_jobs : JobExecution;
  d_storage : StorageChoice;
}.

Record RuntimeSettings := {
  rs_agent : string;
  rs_user : PrincipalId;
  rs_root : string;
  rs_tools : ToolSet;
  rs_memory : MemorySet;
  rs_exec : ExecSet;
  rs_exec_settings : ExecSettings;
  rs_mcp : McpSet;
  rs_mcp_settings : McpSettings;
  rs_net : NetSet;
  rs_net_settings : NetSettings;
  rs_summary : DeploymentSummary;
  rs_trust : TrustSettings;
  rs_storage : Storage;
  rs_jobs : JobExecution;
  rs_system_prompt : option string;
  rs_model : option string;
  rs_embedding_model : option string;
  rs_config : Config;
  rs_provider : Provider;
  rs_model_component : ComponentId;
}.

(** [RuntimeSettings::principal], [operator], [database], [has_policy] *)
Definition principal (self : RuntimeSettings) : Principal := Principal_on_behalf_of (Principal_new (rs_agent self) Base.Agent) (rs_user self).
Definition operator (self : RuntimeSettings) : Principal := Principal_new (rs_user self) Base.User.
Definition database (self : RuntimeSettings) : option string := storage_path (rs_storage self).
Definition has_policy (self : RuntimeSettings) : bool :=
  match Config_value (rs_config self) "policy.rules" with Some (VArray (_ :: _)) => true | _ => false end.

Definition or_else {A} (first second : option A) : option A := match first with Some a => Some a | None => second end.
Definition pick (flag file : option string) (fallback : string) : string := default fallback (or_else flag file).

Section Resolve.
  (** [serde]: reading the agent's section, and parsing a value with the text of its error. *)
  Context (section_from_value : Value -> result string AgentSection) (from_str : string -> result string Value).
  (** [std::fs] and [std::env]. *)
  Context (read_to_string : string -> result BoxError string) (canonicalize : string -> option string) (current_dir : result BoxError string).

Definition AgentSection_read (config : Config) : Result AgentSection :=
  match Config_value config AGENT_SECTION with
  | Some value =>
      if negb (Value_is_null value) && negb (is_object value) then
        Err (Base.Config AGENT_SECTION ("`agent` is the deployment's own section, not a single value; " +:+
                                        "name the setting inside it (`agent.agent`), or use the " +:+ "environment variable `AIK_AGENT__AGENT`"))
      else get_or_default section_from_value AgentSection_default config AGENT_SECTION
  | None => get_or_default section_from_value AgentSection_default config AGENT_SECTION
  end.

(** [settings::system_prompt] *)
Definition configured_system_prompt (config : Config) : Result (option string) :=
  let? section := AgentSection_read config in Ok (not_blank (as_system_prompt section)).

Definition read_json (path kind : string) : Result Value :=
  let? text := map_err (fun error => Error_wrap ("reading the " +:+ kind +:+ " file `" +:+ path +:+ "`") error) (read_to_string path) in
  map_err (fun error => Base.Config path error) (from_str text).

Definition load_config (config policy : option string) (vars : Vars) : Result Config :=
  let builder := ConfigBuilder_new in
  let? builder := match config with
                  | Some path => let? value := read_json path "configuration" in Ok (layer builder value)
                  | None => Ok builder
                  end in
  let? builder := match policy with
                  | Some path => let? value := read_json path "policy" in Ok (layer builder (json_object [("policy", value)]))
                  | None => Ok builder
                  end in
  Ok (build (env_from (fun raw => match from_str raw with Ok value => Some value | Err _ => None end) builder ENV_PREFIX vars)).

Definition resolve_root (configured : option string) : Result string :=
  let? root := match configured with
               | Some root => Ok root
               | None => map_err (fun error => Error_wrap "resolving the current directory" error) current_dir
               end in
  Ok (default root (canonicalize root)).

(** [Deployment::resolve] *)
Definition resolve (self : Deployment) (config : Config) (vars : Vars) : Result RuntimeSettings :=
  let? section := AgentSection_read config in
  let? provider := match d_provider self, as_provider section with
                   | Some provider, _ => Ok provider
                   | None, Some name => Provider_parse name
                   | None, None => Ok Provider_Ollama
                   end in
  let? storage := match d_storage self with
                  | Choice_None => Ok Ephemeral
                  | Choice_Resolve ephemeral explicit => Storage_resolve ephemeral explicit config vars
                  end in
  let? config := pin_database_path config storage in
  let? root := resolve_root (or_else (d_root self) (as_root section)) in
  Ok {| rs_agent := pick (d_agent self) (as_agent section) DEFAULT_AGENT; rs_user := pick (d_user self) (as_user section) DEFAULT_USER; rs_root := root;
        rs_tools := d_tools self; rs_memory := d_memory self; rs_exec := d_exec self; rs_exec_settings := as_exec section; rs_mcp := d_mcp self;
        rs_mcp_settings := as_mcp section; rs_net := d_net self; rs_net_settings := as_net section; rs_summary := as_summary section;
        rs_trust := as_trust section; rs_storage := storage; rs_jobs := d_jobs self; rs_system_prompt := not_blank (as_system_prompt section);
        rs_model := not_blank (or_else (d_model self) (as_model section));
        rs_embedding_model := not_blank (or_else (d_embedding_model self) (as_embedding_model section)); rs_config := config; rs_provider := provider;
        rs_model_component := component_id provider |}.

(** ** [aik] ([cli/src/settings.rs]) *)

(** [FileSettings] *)
Record CliFile := { file_socket : option string }.

Definition resolve_socket (options : Options) (file : CliFile) (vars : Vars) : option string :=
  or_else (o_socket options) (or_else (file_socket file)
    (option_map snd (find (fun p => String.eqb (fst p) SOCKET_ENV && negb (str_is_empty (snd p))) vars))).

(** [cli::Settings]; the fields that are carried through are those of the options. *)
Record CliSettings := { cs_runtime : RuntimeSettings; cs_options : CliOptions; cs_socket : option string }.

Definition cli_deployment (options : Options) (socket : option string) : Deployment :=
  {| d_agent := o_agent options; d_user := o_user options; d_root := o_root options; d_model := o_model options; d_embedding_model := o_embedding_model options;
     d_provider := o_provider options; d_tools := tools options; d_memory := memory options; d_exec := exec options; d_mcp := mcp options; d_net := net options;
     d_jobs := Jobs_Disabled;
     d_storage := match socket with Some _ => Choice_None | None => Choice_Resolve (o_ephemeral options) (o_database options) end |}.

Definition cli_resolve (file_from_value : Value -> result string CliFile) (options : CliOptions) (vars : Vars) : Result CliSettings :=
  let? config := load_config (o_config (cli options)) (o_policy (cli options)) vars in
  let? file := get_or_default file_from_value {| file_socket := None |} config "cli" in
  let socket := resolve_socket (cli options) file vars in
  let? runtime := resolve (cli_deployment (cli options) socket) config vars in
  Ok {| cs_runtime := runtime; cs_options := options; cs_socket := socket |}.

(** [audit::resolve] ([cli/src/audit.rs]), and which trail is read. *)
Definition audit_as_run (options : AuditOptions) : CliOptions :=
  set_cli (fun o => set_database (audit_database options) (set_config (audit_config options) (set_user (audit_user options) (set_socket (audit_socket options) o)))) CliOptions_default.

Inductive Trail := Trail_File (path : string) | Trail_Host (socket : string).
Definition Trail_open (settings : CliSettings) : Result Trail :=
  match cs_socket settings with
  | Some socket => Ok (Trail_Host socket)
  | None =>
      match database (cs_runtime settings) with
      | Some path => Ok (Trail_File path)
      | None => Err (Error_other ("there is no database to review; audit records are only kept when one is " +:+ "configured"))
      end
  end.

(** ** [aikd] ([daemon/src/settings.rs]) *)

Definition DEFAULT_MAX_CONNECTIONS : Z := 16.

Record DaemonFile := { df_socket : option string; df_max_connections : option Z }.
Record DaemonSettings := { ds_runtime : RuntimeSettings; ds_endpoint : Endpoint; ds_max_connections : Z }.

Definition daemon_deployment (options : Options) : Deployment :=
  {| d_agent := o_agent options; d_user := o_user options; d_root := o_root options; d_model := o_model options; d_embedding_model := o_embedding_model options;
     d_provider := o_provider options; d_tools := tools options; d_memory := memory options; d_exec := exec options; d_mcp := mcp options; d_net := net options;
     d_jobs := Jobs_Agent; d_storage := Choice_Resolve (o_ephemeral options) (o_database options) |}.

Definition daemon_resolve (file_from_value : Value -> result string DaemonFile) (options : DaemonOptions) (vars : Vars) : Result DaemonSettings :=
  let? config := load_config (o_config (host options)) (o_policy (host options)) vars in
  let? file := get_or_default file_from_value {| df_socket := None; df_max_connections := None |} config "daemon" in
  let? runtime := resolve (daemon_deployment (host options)) config vars in
  let? endpoint := Endpoint_resolve (or_else (o_socket (host options)) (df_socket file)) vars in
  Ok {| ds_runtime := runtime; ds_endpoint := endpoint;
        ds_max_connections := default DEFAULT_MAX_CONNECTIONS (or_else (max_connections options) (df_max_connections file)) |}.
End Resolve.

Local Close Scope string_scope.

(** ** Where things are *)

Lemma pinned_reads config value : Config_value (pinned config value) DATABASE_PATH_KEY = Some value.
Proof. unfold pinned, Config_value. cbn [Config.root build set Config_from_value builder_root layer]. apply value_at_set, split_char_nonempty. Qed.

Lemma pinned_elsewhere config value q : wf (Config.root config) -> ~ split_char "." DATABASE_PATH_KEY `prefix_of` q -> ~ q `prefix_of` split_char "." DATABASE_PATH_KEY ->
  get_in q (Config.root (pinned config value)) = get_in q (Config.root config).
Proof.
  intros Hwf Hp Hq. unfold pinned. cbn [Config.root build set Config_from_value builder_root layer]. unfold set_path.
  replace (str_is_empty DATABASE_PATH_KEY) with false by reflexivity. rewrite get_in_set_other by done.
  cbn [builder_root ConfigBuilder_new]. rewrite merge_get_in by done. destruct q as [|k q]; [destruct Hq; apply prefix_nil|].
  destruct (get_in (k :: q) (Config.root config)) as [v|] eqn:E; [done|]. by destruct (decides _ _).
Qed.

Lemma pin_ok config storage config' : pin_database_path config storage = Ok config' ->
  config' = pinned config (match storage_path storage with Some path => VString path | None => VNull end) /\
  (forall path, storage_path storage = Some path -> valid_utf8 path = true).
Proof.
  unfold pin_database_path. destruct (storage_path storage) as [path|]; [|by intros [= <-]].
  destruct (valid_utf8 path) eqn:E; [|done]. intros [= <-]. split; [done|]. by intros p [= <-].
Qed.

Lemma last_set_app name vars found : last_set name vars found = or_else (last_set name vars None) found.
Proof.
  revert found. induction vars as [|[k v] vars IH]; intros found; [done|]. cbn [last_set]. rewrite (IH (if _ : bool then Some v else found)), (IH (if _ : bool then Some v else None)).
  destruct (last_set name vars None); [done|]. by destruct (_ && _).
Qed.

Lemma last_set_absent name vars : name ∉ map fst vars -> last_set name vars None = None.
Proof.
  induction vars as [|[k v] vars IH]; [done|]. cbn [last_set map fst]. intros [Hk Hv]%not_elem_of_cons.
  destruct (String.eqb_spec k name) as [->|]; [done|]. by apply IH.
Qed.

(** The first and the last are one where no variable is there twice. *)
Lemma last_set_find name vars : NoDup (map fst vars) ->
  last_set name vars None = option_map snd (find (fun p => String.eqb (fst p) name && negb (str_is_empty (snd p))) vars).
Proof.
  induction vars as [|[k v] vars IH]; [done|]. cbn [map fst snd last_set find]. intros [Hk Hv]%NoDup_cons.
  destruct (String.eqb_spec k name) as [->|]; cbn [andb]; [|by apply IH].
  destruct (negb (str_is_empty v)); [|by apply IH]. rewrite last_set_app, last_set_absent by done. done.
Qed.

Lemma join_absolute p q : is_absolute p = true -> is_absolute (path_join p q) = true.
Proof.
  intros Hp. unfold path_join. destruct (is_absolute q) eqn:Eq; [done|]. assert (p <> EmptyString) by (intros ->; done).
  by destruct (_ || _); rewrite is_absolute_app.
Qed.

(** A default location does not depend on where the process was started, provided [HOME] does not. *)
Theorem default_path_is_absolute (vars : Vars) (path : string) : (forall home, last_set "HOME" vars None = Some home -> is_absolute home = true) ->
  default_path vars = Ok path -> is_absolute path = true.
Proof.
  intros Hh. unfold default_path. destruct (last_set "XDG_DATA_HOME" vars None) as [xdg|]; [destruct (is_absolute xdg) eqn:E|].
  1: intros [= <-]; by apply join_absolute, join_absolute.
  all: destruct (last_set "HOME" vars None) as [home|]; [|done]; intros [= <-]; apply join_absolute, join_absolute, join_absolute, join_absolute; by apply Hh.
Qed.

(** What is taken for private is no link, belongs to this account, and no other may touch it. *)
Theorem private_is_private (symlink_metadata : string -> result BoxError Metadata) (current_uid : Z) (path what : string) :
  verify_private symlink_metadata current_uid path what = Ok tt <->
  exists m, symlink_metadata path = Ok m /\ is_symlink m = false /\ uid m = current_uid /\ forall i, 0 <= i < 6 -> Z.testbit (raw_mode m) i = false.
Proof.
  assert (Hbits : forall m, Z.land (Z.land m 511) 63 = 0 <-> forall i, 0 <= i < 6 -> Z.testbit m i = false).
  { intros m. rewrite <- Z.land_assoc. change (Z.land 511 63) with (Z.ones 6). split.
    - intros H i Hi. assert (Hb : Z.testbit (Z.land m (Z.ones 6)) i = false) by (rewrite H; apply Z.testbit_0_l).
      by rewrite Z.land_spec, Z.ones_spec_low, andb_true_r in Hb by lia.
    - intros H. apply Z.bits_inj'. intros i Hi. rewrite Z.land_spec, Z.testbit_0_l. destruct (Z.lt_ge_cases i 6); [by rewrite H|].
      by rewrite Z.ones_spec_high, andb_false_r by lia. }
  unfold verify_private. destruct (symlink_metadata path) as [m|e]; cbn [map_err result_bind]; [|split; [done|by intros (? & ? & _)]].
  split.
  - destruct (is_symlink m) eqn:El; [done|]. destruct (Z.eqb_spec (uid m) current_uid); [|done]. cbn [negb].
    destruct (Z.eqb_spec (Z.land (Z.land (raw_mode m) 511) 63) 0) as [E|]; [|done]. intros _. exists m. by rewrite <- Hbits.
  - intros (m' & [= <-] & Hl & Hu & Hb). rewrite Hl, Hu, Z.eqb_refl. cbn [negb]. apply Hbits in Hb. by rewrite Hb.
Qed.

(** ** One deployment *)

Section Deployments.
  Context (section_from_value : Value -> result string AgentSection) (from_str : string -> result string Value).
  Context (read_to_string : string -> result BoxError string) (canonicalize : string -> option string) (current_dir : result BoxError string).
  Context (cli_file : Value -> result string CliFile) (daemon_file : Value -> result string DaemonFile).

#[local] Abbreviation resolve := (resolve section_from_value canonicalize current_dir).
#[local] Abbreviation cli_resolve := (cli_resolve section_from_value from_str read_to_string canonicalize current_dir cli_file).
#[local] Abbreviation daemon_resolve := (daemon_resolve section_from_value from_str read_to_string canonicalize current_dir daemon_file).

Definition chosen (choice : StorageChoice) (config : Config) (vars : Vars) : Result Storage :=
  match choice with Choice_None => Ok Ephemeral | Choice_Resolve ephemeral explicit => Storage_resolve ephemeral explicit config vars end.

Lemma resolve_ok d config vars s : resolve d config vars = Ok s ->
  exists section storage, AgentSection_read section_from_value config = Ok section /\ chosen (d_storage d) config vars = Ok storage /\
    rs_storage s = storage /\ pin_database_path config storage = Ok (rs_config s) /\
    rs_agent s = pick (d_agent d) (as_agent section) DEFAULT_AGENT /\ rs_user s = pick (d_user d) (as_user section) DEFAULT_USER /\ rs_jobs s = d_jobs d.
Proof using.
  unfold Settings.resolve. intros H.
  apply result_bind_ok in H as (section & Hs & H). apply result_bind_ok in H as (provider & _ & H). apply result_bind_ok in H as (storage & Hst & H).
  apply result_bind_ok in H as (config' & Hc & H). apply result_bind_ok in H as (root & _ & [= <-]). by exists section, storage.
Qed.

(** The database a program says it keeps is the one its store is configured to open: the
    configuration names the same path, or none, and is otherwise what it was. *)
Theorem the_database_is_the_one_reported (d : Deployment) (config : Config) (vars : Vars) (s : RuntimeSettings) :
  resolve d config vars = Ok s ->
  Config_value (rs_config s) DATABASE_PATH_KEY = Some (match database s with Some path => VString path | None => VNull end) /\
  (forall path, database s = Some path -> valid_utf8 path = true) /\
  (wf (Config.root config) -> forall q, ~ split_char "." DATABASE_PATH_KEY `prefix_of` q -> ~ q `prefix_of` split_char "." DATABASE_PATH_KEY ->
     get_in q (Config.root (rs_config s)) = get_in q (Config.root config)) /\
  match d_storage d with
  | Choice_None => database s = None
  | Choice_Resolve true _ => database s = None
  | Choice_Resolve false (Some path) => database s = Some path
  | Choice_Resolve false None => is_Some (database s)
  end.
Proof using.
  intros (section & storage & _ & Hst & <- & Hc & _)%resolve_ok. apply pin_ok in Hc as [-> Hv]. unfold database. split_and!.
  - apply pinned_reads.
  - exact Hv.
  - intros Hwf q. by apply pinned_elsewhere.
  - unfold chosen, Storage_resolve in Hst. destruct (d_storage d) as [[] [path|]|]; try (by injection Hst as <-).
    destruct (Config_value config DATABASE_PATH_KEY ≫= Value_as_str) as [path|]; [injection Hst as <-; by eexists|].
    destruct (default_path vars) as [path|]; [injection Hst as <-; by eexists|done].
Qed.

(** A terminal and a host that are given the same options, files and environment are the same
    assistant: the same identities, tools, model and database, read as the same principal.  Only
    the host runs the schedule. *)
Theorem terminal_and_host_are_one_assistant (o : CliOptions) (d : DaemonOptions) (vars : Vars) (listens : option string) (t : CliSettings) (h : DaemonSettings) :
  host d = set_socket listens (cli o) -> cli_resolve o vars = Ok t -> cs_socket t = None -> daemon_resolve d vars = Ok h ->
  let s := cs_runtime t in
  ds_runtime h = {| rs_agent := rs_agent s; rs_user := rs_user s; rs_root := rs_root s; rs_tools := rs_tools s; rs_memory := rs_memory s; rs_exec := rs_exec s;
    rs_exec_settings := rs_exec_settings s; rs_mcp := rs_mcp s; rs_mcp_settings := rs_mcp_settings s; rs_net := rs_net s; rs_net_settings := rs_net_settings s;
    rs_summary := rs_summary s; rs_trust := rs_trust s; rs_storage := rs_storage s; rs_jobs := Jobs_Agent; rs_system_prompt := rs_system_prompt s;
    rs_model := rs_model s; rs_embedding_model := rs_embedding_model s; rs_config := rs_config s; rs_provider := rs_provider s;
    rs_model_component := rs_model_component s |} /\ rs_jobs s = Jobs_Disabled /\ principal (ds_runtime h) = principal s /\ database (ds_runtime h) = database s.
Proof using.
  intros Hd Ht Hn Hh. unfold Settings.daemon_resolve in Hh. rewrite Hd in Hh. cbn [o_config o_policy set_socket] in Hh. unfold Settings.cli_resolve in Ht.
  apply result_bind_ok in Ht as (config & Hc & Ht). rewrite Hc in Hh. cbn [result_bind] in Hh.
  apply result_bind_ok in Ht as (file & _ & Ht). apply result_bind_ok in Hh as (file' & _ & Hh).
  apply result_bind_ok in Ht as (s & Hs & [= <-]). apply result_bind_ok in Hh as (s' & Hs' & Hh). apply result_bind_ok in Hh as (endpoint & _ & [= <-]).
  cbn [cs_socket cs_runtime ds_runtime] in *. rewrite Hn in Hs. unfold Settings.resolve in Hs, Hs'.
  apply result_bind_ok in Hs as (section & H1 & Hs). rewrite H1 in Hs'. cbn [result_bind] in Hs'.
  apply result_bind_ok in Hs as (provider & H2 & Hs). change (d_provider (daemon_deployment (set_socket listens (cli o)))) with (d_provider (cli_deployment (cli o) None)) in Hs'.
  rewrite H2 in Hs'. cbn [result_bind] in Hs'.
  apply result_bind_ok in Hs as (storage & H3 & Hs). change (d_storage (daemon_deployment (set_socket listens (cli o)))) with (d_storage (cli_deployment (cli o) None)) in Hs'.
  rewrite H3 in Hs'. cbn [result_bind] in Hs'.
  apply result_bind_ok in Hs as (config' & H4 & Hs). rewrite H4 in Hs'. cbn [result_bind] in Hs'.
  apply result_bind_ok in Hs as (root & H5 & [= <-]). change (d_root (daemon_deployment (set_socket listens (cli o)))) with (d_root (cli_deployment (cli o) None)) in Hs'.
  rewrite H5 in Hs'. cbn [result_bind] in Hs'. injection Hs' as <-. by split_and!.
Qed.

(** A run is a client exactly where a flag, the file or the environment names a socket, and a client
    holds no database, whatever it was told; any other keeps nothing where it was told to. *)
Theorem clients_hold_nothing (o : CliOptions) (vars : Vars) (t : CliSettings) : cli_resolve o vars = Ok t ->
  (is_Some (cs_socket t) -> database (cs_runtime t) = None /\ Config_value (rs_config (cs_runtime t)) DATABASE_PATH_KEY = Some VNull) /\
  (is_Some (o_socket (cli o)) -> cs_socket t = o_socket (cli o)) /\
  (o_socket (cli o) = None -> last_set SOCKET_ENV vars None <> None -> is_Some (cs_socket t)) /\
  (cs_socket t = None -> o_ephemeral (cli o) = true -> database (cs_runtime t) = None) /\
  (forall path, cs_socket t = None -> o_ephemeral (cli o) = false -> o_database (cli o) = Some path -> database (cs_runtime t) = Some path).
Proof using.
  unfold Settings.cli_resolve. intros H. apply result_bind_ok in H as (config & _ & H). apply result_bind_ok in H as (file & _ & H).
  apply result_bind_ok in H as (s & Hs & [= <-]). cbn [cs_socket cs_runtime]. apply resolve_ok in Hs as (section & storage & _ & Hst & <- & Hc & _).
  apply pin_ok in Hc as [Hc _]. unfold database. cbn [d_storage cli_deployment chosen] in Hst. split_and!.
  - intros [socket Hk]. rewrite Hk in Hst. injection Hst as Hst. rewrite Hc, <- Hst. split; [done|]. apply pinned_reads.
  - intros [socket Hk]. unfold resolve_socket. by rewrite Hk.
  - intros Hk Henv. unfold resolve_socket. rewrite Hk. cbn [or_else]. destruct (file_socket file); [by eexists|]. cbn [or_else].
    destruct (find _ vars) as [p|] eqn:Ef; [by eexists|]. destruct Henv.
    assert (Hnone : forall l found, (forall p, In p l -> (String.eqb (fst p) SOCKET_ENV && negb (str_is_empty (snd p))) = false) -> last_set SOCKET_ENV l found = found).
    { induction l as [|[k v] l IH]; intros found Hl; [done|]. cbn [last_set]. pose proof (Hl (k, v) ltac:(by left)) as Hkv. cbn [fst snd] in Hkv. rewrite Hkv. apply IH. intros p Hp. apply Hl. by right. }
    apply Hnone. intros p Hp. by apply (find_none _ _ Ef).
  - intros Hk He. rewrite Hk in Hst. cbn [chosen] in Hst. rewrite He in Hst. by injection Hst as <-.
  - intros path Hk He Hp. rewrite Hk in Hst. cbn [chosen] in Hst. rewrite He, Hp in Hst. by injection Hst as <-.
Qed.

(** Where neither a flag nor a file names a socket and the environment does, a client and a host that
    share it name the same one. *)
Theorem clients_and_hosts_meet (options : Options) (vars : Vars) (path : string) (e : Endpoint) :
  NoDup (map fst vars) -> o_socket options = None -> resolve_socket options {| file_socket := None |} vars = Some path ->
  Endpoint_resolve None vars = Ok e -> e = Endpoint_at path.
Proof using.
  intros Hn Ho. unfold resolve_socket, Endpoint_resolve. rewrite Ho. cbn [or_else file_socket]. rewrite <- last_set_find by done.
  destruct (last_set SOCKET_ENV vars None) as [p|]; [|done]. by intros [= ->] [= <-].
Qed.
End Deployments.

(** ** On concrete settings *)

Module SettingsDemo.
Local Open Scope string_scope.

Definition text_at (key : string) (v : Value) : option string := match v with VObject m => m' ← Map_get key m; Value_as_str m' | _ => None end.
Definition read_section (v : Value) : result string AgentSection :=
  Ok {| as_agent := text_at "agent" v; as_user := text_at "user" v; as_root := None; as_model := text_at "model" v; as_embedding_model := None;
        as_provider := text_at "provider" v; as_system_prompt := None; as_exec := as_exec AgentSection_default; as_mcp := as_mcp AgentSection_default;
        as_net := as_net AgentSection_default; as_summary := as_summary AgentSection_default; as_trust := as_trust AgentSection_default |}.
Definition no_json (raw : string) : result string Value := Err "not JSON".
Definition no_file (path : string) : result BoxError string := Err (BoxForeign "no such file" None).
Definition as_it_is (path : string) : option string := Some path.
Definition here : result BoxError string := Ok "/work".
Definition read_cli (v : Value) : result string CliFile := Ok {| file_socket := text_at "socket" v |}.
Definition read_daemon (v : Value) : result string DaemonFile := Ok {| df_socket := text_at "socket" v; df_max_connections := None |}.

Definition terminal : CliOptions -> Vars -> Result CliSettings := cli_resolve read_section no_json no_file as_it_is here read_cli.
Definition hosted : DaemonOptions -> Vars -> Result DaemonSettings := daemon_resolve read_section no_json no_file as_it_is here read_daemon.

Definition home : Vars := [("HOME", "/home/alice"); ("AIK_AGENT__AGENT", "scribe"); ("XDG_RUNTIME_DIR", "/run/user/1000")].
Definition served : Vars := ("AIK_SOCKET", "/run/aik/aikd.sock") :: home.

Definition shows {A} (r : Result A) (f : A -> string) : string := match r with Ok a => f a | Err _ => "refused" end.
Definition kept (t : CliSettings) : string := default "nowhere" (database (cs_runtime t)).

Example where_it_is_kept :
  shows (terminal CliOptions_default home) kept = "/home/alice/.local/share/aik/aik.redb" /\ shows (terminal CliOptions_default served) kept = "nowhere" /\
  shows (hosted DaemonOptions_default home) (fun h => token (ds_endpoint h)) = "/run/user/1000/aik/aikd.token" /\
  shows (terminal CliOptions_default home) (fun t => rs_agent (cs_runtime t)) = "scribe".
Proof. vm_compute. split_and!; reflexivity. Qed.

Lemma where_it_is_kept_facts : exists t, terminal CliOptions_default home = Ok t /\ cs_socket t = None /\ database (cs_runtime t) = Some "/home/alice/.local/share/aik/aik.redb".
Proof. eexists. split; [vm_compute; reflexivity|]. by split. Qed.

Definition deployment : Deployment := cli_deployment (set_database (Some "/srv/aik.redb") Options_default) None.
Definition resolved : Result RuntimeSettings := resolve read_section as_it_is here deployment Config_empty home.
Lemma resolved_ok : exists s, resolved = Ok s.
Proof. eexists. vm_compute. reflexivity. Qed.

Lemma the_database_is_the_one_reported_witness : exists s, resolved = Ok s /\ Config_value (rs_config s) DATABASE_PATH_KEY = Some (VString "/srv/aik.redb").
Proof.
  destruct resolved_ok as [s Hs]. exists s. split; [exact Hs|].
  destruct (the_database_is_the_one_reported read_section as_it_is here deployment Config_empty home s Hs) as (H & _ & _ & Hd). cbv iota beta delta [deployment cli_deployment d_storage o_ephemeral o_database set_database Options_default] in Hd.
  rewrite H, Hd. reflexivity.
Defined.

Definition hosts : Result DaemonSettings := hosted {| host := set_socket (Some "/tmp/s") Options_default; max_connections := None |} home.
Lemma hosts_ok : exists h, hosts = Ok h.
Proof. eexists. vm_compute. reflexivity. Qed.

Lemma terminal_and_host_are_one_assistant_witness : exists t h, hosts = Ok h /\ terminal CliOptions_default home = Ok t /\ principal (ds_runtime h) = principal (cs_runtime t).
Proof.
  destruct where_it_is_kept_facts as (t & Ht & Hn & _), hosts_ok as [h Hh]. exists t, h. split; [exact Hh|]. split; [exact Ht|].
  apply (terminal_and_host_are_one_assistant read_section no_json no_file as_it_is here read_cli read_daemon CliOptions_default
    {| host := set_socket (Some "/tmp/s") Options_default; max_connections := None |} home (Some "/tmp/s") t h eq_refl Ht Hn Hh).
Defined.

Lemma clients_hold_nothing_witness : exists t, terminal CliOptions_default home = Ok t /\ (is_Some (cs_socket t) -> database (cs_runtime t) = None).
Proof.
  destruct where_it_is_kept_facts as (t & Ht & _ & _). exists t. split; [exact Ht|]. intros Hs.
  apply (proj1 (clients_hold_nothing read_section no_json no_file as_it_is here read_cli CliOptions_default home t Ht)), Hs.
Defined.

Lemma clients_and_hosts_meet_witness : Endpoint_at "/run/aik/aikd.sock" = Endpoint_at "/run/aik/aikd.sock".
Proof.
  apply (clients_and_hosts_meet Options_default served "/run/aik/aikd.sock" (Endpoint_at "/run/aik/aikd.sock")).
  - apply (bool_decide_unpack _). vm_compute. exact I.
  - reflexivity.
  - reflexivity.
  - reflexivity.
Defined.

Lemma default_path_is_absolute_witness : is_absolute "/home/alice/.local/share/aik/aik.redb" = true.
Proof. apply (default_path_is_absolute home); [|reflexivity]. vm_compute. intros h [= <-]. reflexivity. Defined.

(** What the command line refuses next to [--socket] is accepted, and ignored, next to [AIK_SOCKET]:
    a run that was to leave nothing behind speaks to the host, and a sweep of one database's trail
    goes to another's. *)
Definition any_id (raw : string) : option string := Some raw.
Definition said (error : Error) : string := "wrong".
Definition opened (args : list string) (vars : Vars) : option Trail :=
  match parse said any_id any_id args with
  | Ok (Run options) => match terminal options vars with Ok t => match cs_socket t with Some socket => Some (Trail_Host socket) | None => None end | Err _ => None end
  | Ok (Audit options) => match (let? t := terminal (audit_as_run options) vars in Trail_open t) with Ok trail => Some trail | Err _ => None end
  | _ => None
  end.

Lemma a_socket_in_the_environment_overrides :
  opened ["--ephemeral"; "a secret"] served = Some (Trail_Host "/run/aik/aikd.sock") /\
  opened ["audit"; "prune"; "--older-than"; "1d"; "--db"; "/srv/old.redb"] served = Some (Trail_Host "/run/aik/aikd.sock") /\
  opened ["audit"; "prune"; "--older-than"; "1d"; "--db"; "/srv/old.redb"] home = Some (Trail_File "/srv/old.redb") /\
  is_ok (parse said any_id any_id ["--socket"; "/run/aik/aikd.sock"; "--ephemeral"; "a secret"]) = false /\
  is_ok (parse said any_id any_id ["audit"; "prune"; "--older-than"; "1d"; "--db"; "/srv/old.redb"; "--socket"; "/run/aik/aikd.sock"]) = false.
Proof. vm_compute. split_and!; reflexivity. Qed.

(** Two sockets of one name but for what follows its last dot have one token. *)
Lemma sockets_may_share_a_token : map (fun p => token (Endpoint_at p)) ["/run/aik/aikd.sock"; "/run/aik/host.1"; "/run/aik/host.2"; "/run/aik.d/sock/"] =
  ["/run/aik/aikd.token"; "/run/aik/host.token"; "/run/aik/host.token"; "/run/aik.d/sock.token"].
Proof. vm_compute. reflexivity. Qed.

(** What is configured as the database's path and is no text is passed over. *)
Lemma a_path_that_is_no_text_is_passed_over :
  Storage_resolve false None {| Config.root := json_object [("components", json_object [("store", json_object [("db", json_object [("path", VNumber (NInt 7))])])])] |} home =
  Ok (Persistent "/home/alice/.local/share/aik/aik.redb").
Proof. vm_compute. reflexivity. Qed.
End SettingsDemo.
