(* ===== verification/Terminal.v ===== *)
(** * Terminal: what a person is shown, and what a run records

    [crates/cli/src/render.rs], [approval.rs], [audit.rs] and [recorder.rs].  What is printed is
    a list of texts; text is a UTF-8 string, whose scalars [Text] reads.  Deriving [Debug],
    [serde_json]'s printer and the derived serialisation of a message's parts are arguments. *)

From S2P Require Import Prelude Base Text Args Trust Window ContextStore Tools Agent Approval AuditTrail.

Local Open Scope string_scope.

(** ** Text that is safe to print ([render.rs]) *)

Definition MAX_INLINE : nat := 240.

Definition hex_digit (z : Z) : Z := if (z <? 10)%Z then (48 + z)%Z else (87 + z)%Z.

(** [\u{{{:04x}}}]; no control character takes more than four digits. *)
Definition escaped (c : Z) : list Z :=
  [92; 117; 123; hex_digit (c / 4096 mod 16); hex_digit (c / 256 mod 16); hex_digit (c / 16 mod 16); hex_digit (c mod 16); 125]%Z.

Definition safe_char (c : Z) : list Z :=
  if (c =? 10)%Z || (c =? 9)%Z then [c] else if is_control c || ((128 <=? c) && (c <=? 159))%Z then escaped c else [c].

Definition safe (text : string) : string := to_utf8 (concat (map safe_char (from_utf8_lossy text))).

Definition chars_count (text : string) : Z := Z.of_nat (length (from_utf8_lossy text)).

Definition truncate (text : string) : string :=
  if (length (from_utf8_lossy text) <=? MAX_INLINE)%nat then text
  else to_utf8 (firstn MAX_INLINE (from_utf8_lossy text)) +:+ "… (" +:+ fmt_u (chars_count text) +:+ " characters total)".

(** [str::replace] of a newline by a space. *)
Definition on_one_line (text : string) : string := to_utf8 (map (fun c => if (c =? 10)%Z then 32%Z else c) (from_utf8_lossy text)).

Section Render.
  (** [Display for Value], and [serde_json::to_value] of a part. *)
  Context (json_text : Value -> string) (part_to_value : ContentPart -> option Value).
  (** [Debug for str] *)
  Context (debug_str : string -> string).

Definition inline (value : Value) : string :=
  truncate (on_one_line (safe (match value with VString text => text | other => json_text other end))).

Record TurnStats := { ts_tool_calls : Z; ts_window_tokens : Z; ts_dropped_records : Z; ts_turns : Z }.
Definition TurnStats_default : TurnStats := {| ts_tool_calls := 0; ts_window_tokens := 0; ts_dropped_records := 0; ts_turns := 0 |}.

(** [TurnStats::record] *)
Definition turn_record (event : ContextAssembled) (self : TurnStats) : TurnStats :=
  {| ts_tool_calls := ts_tool_calls self; ts_window_tokens := included_tokens (assembled_usage event);
     ts_dropped_records := Window.dropped_records (assembled_usage event); ts_turns := (ts_turns self + 1)%Z |}.

Record SessionStats := {
  ss_turns : Z;
  ss_tool_calls : Z;
  ss_provider_input_tokens : option Z;
  ss_provider_output_tokens : option Z;
  ss_estimated_total_tokens : Z;
  ss_model_latency_ms : Z;
  ss_tool_execution_latency_ms : Z;
  ss_authorization_latency_ms : Z;
  ss_approval_latency_ms : Z;
}.
Definition SessionStats_default : SessionStats :=
  {| ss_turns := 0; ss_tool_calls := 0; ss_provider_input_tokens := None; ss_provider_output_tokens := None; ss_estimated_total_tokens := 0;
     ss_model_latency_ms := 0; ss_tool_execution_latency_ms := 0; ss_authorization_latency_ms := 0; ss_approval_latency_ms := 0 |}.

Definition record_measurement (event : RequestMeasured) (self : SessionStats) : SessionStats :=
  let add f old := match rm_provider_usage event with Some usage => Some (default 0 old + f usage)%Z | None => old end in
  {| ss_turns := (ss_turns self + 1)%Z; ss_tool_calls := ss_tool_calls self;
     ss_provider_input_tokens := add usage_input (ss_provider_input_tokens self); ss_provider_output_tokens := add usage_output (ss_provider_output_tokens self);
     ss_estimated_total_tokens := (ss_estimated_total_tokens self + est_total_tokens (rm_estimate event))%Z;
     ss_model_latency_ms := (ss_model_latency_ms self + rm_model_latency_ms event)%Z;
     ss_tool_execution_latency_ms := ss_tool_execution_latency_ms self; ss_authorization_latency_ms := ss_authorization_latency_ms self;
     ss_approval_latency_ms := ss_approval_latency_ms self |}.

Definition record_invocation (event : ToolInvoked) (self : SessionStats) : SessionStats :=
  {| ss_turns := ss_turns self; ss_tool_calls := (ss_tool_calls self + 1)%Z; ss_provider_input_tokens := ss_provider_input_tokens self;
     ss_provider_output_tokens := ss_provider_output_tokens self; ss_estimated_total_tokens := ss_estimated_total_tokens self;
     ss_model_latency_ms := ss_model_latency_ms self;
     ss_tool_execution_latency_ms := (ss_tool_execution_latency_ms self + default 0 (ti_execution_duration_ms event))%Z;
     ss_authorization_latency_ms := ss_authorization_latency_ms self; ss_approval_latency_ms := ss_approval_latency_ms self |}.

Definition record_authorization (event : AuthorizationDecided) (self : SessionStats) : SessionStats :=
  {| ss_turns := ss_turns self; ss_tool_calls := ss_tool_calls self; ss_provider_input_tokens := ss_provider_input_tokens self;
     ss_provider_output_tokens := ss_provider_output_tokens self; ss_estimated_total_tokens := ss_estimated_total_tokens self;
     ss_model_latency_ms := ss_model_latency_ms self; ss_tool_execution_latency_ms := ss_tool_execution_latency_ms self;
     ss_authorization_latency_ms := (ss_authorization_latency_ms self + ad_duration_ms event)%Z;
     ss_approval_latency_ms := (ss_approval_latency_ms self + default 0 (ad_approval_wait_ms event))%Z |}.

Definition NL : string := String (chr 10) EmptyString.

(** [render::summary] *)
Definition turn_summary (usage : Usage) (stats : TurnStats) : string :=
  NL +:+ "  [" +:+ fmt_u (Z.max (ts_turns stats) 1) +:+ " turns, " +:+ fmt_u (ts_tool_calls stats) +:+ " tool calls, " +:+ fmt_u (usage_input usage) +:+ " in / " +:+
  fmt_u (usage_output usage) +:+ " out tokens, window " +:+ fmt_u (ts_window_tokens stats) +:+ " tokens]".

(** [render::content] *)
Definition content_shown (part : ContentPart) : string :=
  match part with
  | Text text => safe text
  | Blob mime_type data => "  [" +:+ safe mime_type +:+ " blob, " +:+ fmt_u (str_len data) +:+ " base64 characters]"
  | other => "  " +:+ inline (default VNull (part_to_value other))
  end.

(** [render::update], and what it prints. *)
Definition update (u : AgentUpdate) (stats : TurnStats) : TurnStats * list string :=
  match u with
  | Update_Content part => (stats, [content_shown part])
  | Update_Status message => (stats, ["  · " +:+ safe message])
  | Update_ToolCall call =>
      ({| ts_tool_calls := (ts_tool_calls stats + 1)%Z; ts_window_tokens := ts_window_tokens stats; ts_dropped_records := ts_dropped_records stats;
          ts_turns := ts_turns stats |}, ["  → " +:+ safe (call_name call) +:+ " " +:+ inline (arguments call)])
  | Update_ToolResult _ outcome => (stats, ["  " +:+ (if is_error outcome then "✗" else "←") +:+ " " +:+ inline (output outcome)])
  | Update_Finished response => (stats, match response_usage response with Some usage => [turn_summary usage stats] | None => [] end)
  end.

(** What [Debug] derives. *)
Definition kind_debug (kind : PrincipalKind) : string :=
  match kind with Base.User => "User" | Base.Agent => "Agent" | Base.Plugin => "Plugin" | Base.System => "System" | Base.External => "External" end.
Definition phase_debug (phase : AuthorizationPhase) : string :=
  match phase with Phase_Tool => "Tool" | Phase_Resource => "Resource" | Phase_DiscoveredResource => "DiscoveredResource" | Phase_Trust => "Trust" end.
Definition authorization_debug (outcome : AuthorizationOutcome) : string :=
  match outcome with
  | Allowed => "Allowed"
  | Denied reason => "Denied { reason: " +:+ debug_str reason +:+ " }"
  | ApprovalGranted => "ApprovalGranted"
  | ApprovalRefused => "ApprovalRefused"
  | ApprovalUnavailable => "ApprovalUnavailable"
  | PolicyUnavailable => "PolicyUnavailable"
  end.
Definition invocation_debug (outcome : InvocationOutcome) : string :=
  match outcome with
  | Succeeded => "Succeeded"
  | ReportedError => "ReportedError"
  | Failed kind => "Failed { kind: " +:+ debug_str kind +:+ " }"
  | InvocationDenied => "Denied"
  | InvocationNotFound => "NotFound"
  end.

(** [render::principal] *)
Definition principal_shown (id : PrincipalId) (kind : PrincipalKind) (on_behalf_of : option PrincipalId) : string :=
  match on_behalf_of with
  | Some delegator => safe id +:+ " (" +:+ kind_debug kind +:+ ", on behalf of " +:+ safe delegator +:+ ")"
  | None => safe id +:+ " (" +:+ kind_debug kind +:+ ")"
  end.

Definition authorization_shown (event : AuthorizationDecided) : string :=
  let resource := match ad_resource event with Some resource => " on " +:+ safe resource | None => EmptyString end in
  let wait := match ad_approval_wait_ms event with
              | Some wait => " (" +:+ fmt_u (ad_duration_ms event) +:+ "ms, " +:+ fmt_u wait +:+ "ms of it waiting on approval)"
              | None => " (" +:+ fmt_u (ad_duration_ms event) +:+ "ms)"
              end in
  "  [auth] " +:+ principal_shown (ad_principal event) (ad_principal_kind event) (ad_on_behalf_of event) +:+ " " +:+ phase_debug (ad_phase event) +:+ " " +:+
  safe (ad_action event) +:+ resource +:+ " → " +:+ authorization_debug (ad_outcome event) +:+ wait.

Definition invocation_shown (event : ToolInvoked) : string :=
  let timing := match ti_authorization_duration_ms event, ti_execution_duration_ms event with
                | Some auth, Some exec => " (" +:+ fmt_u exec +:+ "ms exec, " +:+ fmt_u auth +:+ "ms auth)"
                | Some auth, None => " (" +:+ fmt_u auth +:+ "ms auth)"
                | _, _ => EmptyString
                end in
  "  [tool] " +:+ principal_shown (ti_principal event) (ti_principal_kind event) (ti_on_behalf_of event) +:+ " " +:+ safe (ti_tool event) +:+ " → " +:+
  invocation_debug (ti_outcome event) +:+ timing.
(** [render::measurement], [session_totals], [assembled] *)
Definition measurement_shown (event : RequestMeasured) : list string :=
  let estimate := rm_estimate event in
  ["  [req]  turn " +:+ fmt_u (rm_turn event) +:+ " — system " +:+ fmt_u (est_system_tokens estimate) +:+ ", tools " +:+ fmt_u (est_tool_definition_tokens estimate) +:+
   " (" +:+ fmt_u (est_tools_offered estimate) +:+ " offered), conversation " +:+ fmt_u (est_conversation_tokens estimate) +:+ ", total " +:+
   fmt_u (est_total_tokens estimate) +:+ " (estimated)";
   match rm_provider_usage event with
   | Some usage => "  [req]  provider usage: " +:+ fmt_u (usage_input usage) +:+ " in / " +:+ fmt_u (usage_output usage) +:+ " out (exact, as reported)"
   | None => "  [req]  provider usage: not reported by this provider"
   end;
   "  [req]  model latency: " +:+ fmt_u (rm_model_latency_ms event) +:+ "ms"].

Definition session_totals (stats : SessionStats) : list string :=
  let provider := match ss_provider_input_tokens stats, ss_provider_output_tokens stats with
                  | Some input, Some output => fmt_u input +:+ " in / " +:+ fmt_u output +:+ " out (exact)"
                  | _, _ => "not reported"
                  end in
  ["  [session] " +:+ fmt_u (ss_turns stats) +:+ " turns, " +:+ fmt_u (ss_tool_calls stats) +:+ " tool calls, " +:+ fmt_u (ss_estimated_total_tokens stats) +:+
   " estimated tokens total, provider " +:+ provider;
   "  [session] latency — model " +:+ fmt_u (ss_model_latency_ms stats) +:+ "ms, tools " +:+ fmt_u (ss_tool_execution_latency_ms stats) +:+ "ms, authorization " +:+
   fmt_u (ss_authorization_latency_ms stats) +:+ "ms (approval " +:+ fmt_u (ss_approval_latency_ms stats) +:+ "ms)"].

Definition assembled_shown (event : ContextAssembled) : string :=
  let usage := assembled_usage event in
  "  [ctx]  stored " +:+ fmt_u (total_tokens usage) +:+ " — included " +:+ fmt_u (included_tokens usage) +:+ " (" +:+ fmt_u (included_records usage) +:+
  " records), elided " +:+ fmt_u (elided_tokens usage) +:+ " (" +:+ fmt_u (elided_parts usage) +:+ " parts), evicted " +:+ fmt_u (dropped_tokens usage) +:+
  " (" +:+ fmt_u (Window.dropped_records usage) +:+ " records)" +:+ (if over_budget usage then " [over budget: pinned records alone exceed it]" else EmptyString).
End Render.

(** ** Answering a question ([approval.rs]) *)

Definition granted (answer : option string) : bool :=
  match answer with
  | Some text => let text := to_ascii_lowercase (trim text) in String.eqb text "y" || String.eqb text "yes"
  | None => false
  end.

Definition question (pending : PendingApproval) : string :=
  let request := approval_request pending in
  let resource := match req_resource request with Some resource => NL +:+ "    resource: " +:+ safe resource | None => EmptyString end in
  NL +:+ "  ⚠ " +:+ safe (approval_prompt pending) +:+ NL +:+ "    action:   " +:+ safe (req_action request) +:+ resource +:+ NL +:+ "    asked by: " +:+
  safe (principal_id (req_principal request)) +:+ " (for " +:+ match on_behalf_of (req_principal request) with Some id => safe id | None => "nobody" end +:+ ")" +:+
  NL +:+ "  allow? [y/N] ".

(** ** Reviewing the trail ([audit.rs]) *)

Definition cutoff (now : Timestamp) (older_than : Duration) : Timestamp :=
  let millis := if (as_millis older_than <=? u64_max)%Z then as_millis older_than else u64_max in
  Z.max 0 (now - millis).

Definition build_query (filters : AuditFilters) (now : Timestamp) : AuditQuery :=
  {| q_principal := f_principal filters; q_correlation := f_correlation filters; q_tool := f_tool filters;
     q_kinds := match f_kind filters with Some kind => [kind] | None => [] end; q_since := option_map (cutoff now) (f_since filters); q_until := None;
     q_refusals_only := f_refusals filters; q_limit := Some (default DEFAULT_AUDIT_LIMIT (f_limit filters)) |}.

(** [civil_from_days]: Rust's division truncates, and everything here is positive. *)
Definition civil_from_days (days : Z) : Z * Z * Z :=
  let z := (days + 719468)%Z in
  let era := (z / 146097)%Z in
  let day_of_era := (z mod 146097)%Z in
  let year_of_era := ((day_of_era - day_of_era / 1460 + day_of_era / 36524 - day_of_era / 146096) / 365)%Z in
  let year := (year_of_era + era * 400)%Z in
  let day_of_year := (day_of_era - (365 * year_of_era + year_of_era / 4 - year_of_era / 100))%Z in
  let shifted_month := ((5 * day_of_year + 2) / 153)%Z in
  let day := (day_of_year - (153 * shifted_month + 2) / 5 + 1)%Z in
  let month := (if shifted_month <? 10 then shifted_month + 3 else shifted_month - 9)%Z in
  ((if month <=? 2 then year + 1 else year)%Z, month, day).

(** A number in at least so many digits. *)
Fixpoint zeros (n : nat) : string := match n with O => EmptyString | S n => String "0" (zeros n) end.
Definition fmt_pad (width : nat) (z : Z) : string := zeros (width - String.length (fmt_u z)) +:+ fmt_u z.

Definition format_timestamp (timestamp : Timestamp) : string :=
  let seconds := (timestamp / 1000)%Z in
  let days := (seconds / 86400)%Z in
  let time := (seconds mod 86400)%Z in
  let '(year, month, day) := civil_from_days days in
  fmt_pad 4 year +:+ "-" +:+ fmt_pad 2 month +:+ "-" +:+ fmt_pad 2 day +:+ "T" +:+ fmt_pad 2 (time / 3600) +:+ ":" +:+ fmt_pad 2 (time mod 3600 / 60) +:+ ":" +:+
  fmt_pad 2 (time mod 60) +:+ "Z".

Definition actor (record : AuditRecord) : string :=
  match entry_on_behalf_of (audit_entry record) with
  | Some delegator => entry_principal (audit_entry record) +:+ " for " +:+ delegator
  | None => entry_principal (audit_entry record)
  end.

Definition authorization_outcome (outcome : AuthorizationOutcome) : string :=
  match outcome with
  | Allowed => "allowed"
  | Denied reason => "DENIED (" +:+ reason +:+ ")"
  | ApprovalGranted => "approved"
  | ApprovalRefused => "REFUSED"
  | ApprovalUnavailable => "DENIED (nobody could be asked)"
  | PolicyUnavailable => "DENIED (no policy)"
  end.

Definition invocation_outcome (outcome : InvocationOutcome) : string :=
  match outcome with
  | Succeeded => "ok"
  | ReportedError => "tool error"
  | Failed kind => "FAILED (" +:+ kind +:+ ")"
  | InvocationDenied => "DENIED"
  | InvocationNotFound => "no such tool"
  end.

(** [{seq:<6}] *)
Fixpoint spaces (n : nat) : string := match n with O => EmptyString | S n => String " " (spaces n) end.
Definition fmt_left (width : nat) (z : Z) : string := fmt_u z +:+ spaces (width - String.length (fmt_u z)).

Definition line (record : AuditRecord) : string :=
  let when := format_timestamp (entry_timestamp (audit_entry record)) in
  let who := actor record in
  let seq := fmt_left 6 (audit_sequence record) in
  match audit_entry record with
  | Authorization event =>
      "#" +:+ seq +:+ " " +:+ when +:+ "  authorization  " +:+ who +:+ "  " +:+ ad_tool event +:+ "  " +:+ authorization_outcome (ad_outcome event) +:+
      match ad_resource event with Some resource => "  " +:+ resource | None => EmptyString end
  | Invocation event =>
      "#" +:+ seq +:+ " " +:+ when +:+ "  invocation     " +:+ who +:+ "  " +:+ ti_tool event +:+ "  " +:+ invocation_outcome (ti_outcome event) +:+ "  " +:+
      fmt_u (ti_duration_ms event) +:+ "ms"
  | Gap gap =>
      "#" +:+ seq +:+ " " +:+ when +:+ "  gap            *** " +:+ fmt_u (gap_missed gap) +:+ " event(s) were dropped and are not in this trail ***"
  | Retention applied =>
      "#" +:+ seq +:+ " " +:+ when +:+ "  retention      *** " +:+ fmt_u (ra_removed applied) +:+ " record(s) at or before " +:+
      format_timestamp (ra_cutoff applied) +:+ " were removed ***"
  end.

(** [review], of what the query found, as a table. *)
Definition review (records : list AuditRecord) (total : Z) (user : PrincipalId) : list string :=
  let gaps := Z.of_nat (length (filter (fun record => is_about_the_trail (entry_kind (audit_entry record)) = true) records)) in
  match records with [] => ["no audit records match."] | _ => map line records end ++
  [NL +:+ fmt_u (Z.of_nat (length records)) +:+ " record(s) shown as `" +:+ user +:+ "`; " +:+ fmt_u total +:+ " issued in total."] ++
  (if (0 <? gaps)%Z then [fmt_u gaps +:+ " of them say the trail is incomplete — see the `gap` and `retention` lines."] else []).

(** ** Recording a run ([recorder.rs]) *)

Section Recorder.
  (** The file, [write_all] on it, which may fail having written some, and the printers. *)
  Context {F : Type} (write_all : string -> F -> F * option string) (json_text : Value -> string).

Record Recorder := { rec_file : F; rec_path : string; rec_disabled : bool }.

(** [Recorder::write], and what it says on the standard error. *)
Definition write (value : Value) (self : Recorder) : Recorder * list string :=
  if rec_disabled self then (self, [])
  else
    let (file, failed) := write_all (json_text value +:+ NL) (rec_file self) in
    match failed with
    | Some error =>
        ({| rec_file := file; rec_path := rec_path self; rec_disabled := true |},
         ["aik: recording: failed to write to `" +:+ rec_path self +:+ "`: " +:+ error +:+ "; disabling recording for the rest of this run"])
    | None => ({| rec_file := file; rec_path := rec_path self; rec_disabled := false |}, [])
    end.
End Recorder.

Local Notation "k =: v" := (k, v) (at level 60, only parsing).

Definition jnum (z : Z) : Value := VNumber (NInt z).
Definition jnum_opt (z : option Z) : Value := match z with Some z => jnum z | None => VNull end.
Definition jusage (usage : option Usage) : Value :=
  match usage with
  | Some usage => json_object ["input_tokens" =: jnum (usage_input usage); "output_tokens" =: jnum (usage_output usage)]
  | None => VNull
  end.

Definition phase_name (phase : AuthorizationPhase) : string :=
  match phase with Phase_Tool => "tool" | Phase_Resource => "resource" | Phase_DiscoveredResource => "discovered_resource" | Phase_Trust => "trust" end.

Definition outcome_name (outcome : AuthorizationOutcome) : string :=
  match outcome with
  | Allowed => "allowed"
  | Denied _ => "denied"
  | ApprovalGranted => "approval_granted"
  | ApprovalRefused => "approval_refused"
  | ApprovalUnavailable => "approval_unavailable"
  | PolicyUnavailable => "policy_unavailable"
  end.

(** What each event is recorded as. *)
Definition context_entry (event : ContextAssembled) : Value :=
  let usage := assembled_usage event in
  json_object ["timestamp" =: jnum (assembled_timestamp event); "session" =: VString (assembled_session event);
    "correlation" =: VString (assembled_correlation event); "event" =: VString "context_assembled"; "included_records" =: jnum (included_records usage);
    "included_tokens" =: jnum (included_tokens usage); "dropped_records" =: jnum (Window.dropped_records usage); "dropped_tokens" =: jnum (dropped_tokens usage);
    "elided_parts" =: jnum (elided_parts usage); "elided_tokens" =: jnum (elided_tokens usage); "over_budget" =: VBool (over_budget usage)].

Definition authorization_entry (event : AuthorizationDecided) : Value :=
  json_object ["timestamp" =: jnum (ad_timestamp event); "correlation" =: VString (ad_correlation event); "event" =: VString "authorization_decided";
    "tool" =: VString (ad_tool event); "phase" =: VString (phase_name (ad_phase event)); "decision" =: VString (outcome_name (ad_outcome event));
    "duration_ms" =: jnum (ad_duration_ms event); "approval_wait_ms" =: jnum_opt (ad_approval_wait_ms event)].

Definition invocation_entry (event : ToolInvoked) : Value :=
  let '(result, error_kind) := match ti_outcome event with
                               | Succeeded => ("succeeded", None)
                               | ReportedError => ("reported_error", None)
                               | Failed kind => ("failed", Some kind)
                               | InvocationDenied => ("denied", None)
                               | InvocationNotFound => ("not_found", None)
                               end in
  json_object ["timestamp" =: jnum (ti_timestamp event); "correlation" =: VString (ti_correlation event); "event" =: VString "tool_invoked";
    "tool" =: VString (ti_tool event); "result" =: VString result; "error_kind" =: match error_kind with Some kind => VString kind | None => VNull end;
    "duration_ms" =: jnum (ti_duration_ms event); "authorization_duration_ms" =: jnum_opt (ti_authorization_duration_ms event);
    "execution_duration_ms" =: jnum_opt (ti_execution_duration_ms event)].

Definition measurement_entry (event : RequestMeasured) : Value :=
  let estimate := rm_estimate event in
  json_object ["timestamp" =: jnum (rm_timestamp event); "session" =: VString (rm_session event); "correlation" =: VString (rm_correlation event);
    "event" =: VString "request_measured"; "model" =: VString (rm_model event); "turn" =: jnum (rm_turn event);
    "cumulative_tool_calls" =: jnum (rm_cumulative_tool_calls event);
    "estimate" =: json_object ["system_tokens" =: jnum (est_system_tokens estimate); "conversation_tokens" =: jnum (est_conversation_tokens estimate);
      "user_input_tokens" =: jnum_opt (est_user_input_tokens estimate); "tool_call_tokens" =: jnum (est_tool_call_tokens estimate);
      "tool_result_tokens" =: jnum (est_tool_result_tokens estimate); "tool_definition_tokens" =: jnum (est_tool_definition_tokens estimate);
      "tools_offered" =: jnum (est_tools_offered estimate); "total_tokens" =: jnum (est_total_tokens estimate)];
    "context" =: json_object ["included_tokens" =: jnum (included_tokens (rm_context event)); "dropped_tokens" =: jnum (dropped_tokens (rm_context event));
      "elided_tokens" =: jnum (elided_tokens (rm_context event))];
    "provider_usage" =: jusage (rm_provider_usage event); "cumulative_provider_usage" =: jusage (rm_cumulative_provider_usage event);
    "model_latency_ms" =: jnum (rm_model_latency_ms event)].

Local Close Scope string_scope.

(** ** Nothing that is shown drives the terminal *)

(** Text made of scalars of a kind. *)
Definition made_of (p : Z -> bool) (s : string) : Prop := exists l, Forall (fun c => is_scalar c /\ p c = true) l /\ s = to_utf8 l.

Definition harmless (c : Z) : bool := negb (is_control c) || (c =? 10) || (c =? 9).
Definition in_line (c : Z) : bool := negb (is_control c) || (c =? 9).

Lemma encode_app c s t : encode c (s +:+ t) = encode c s +:+ t.
Proof. unfold encode. repeat case_match; reflexivity. Qed.

Lemma to_utf8_app a b : to_utf8 (a ++ b) = to_utf8 a +:+ to_utf8 b.
Proof. induction a as [|c a IH]; [reflexivity|]. cbn [app to_utf8 foldr]. fold (to_utf8 (a ++ b)). by rewrite IH, encode_app. Qed.

Section Made.
  Context (p : Z -> bool).

Lemma made_of_chars s : made_of p s -> Forall (fun c => p c = true) (from_utf8_lossy s).
Proof using.
  intros (l & Hl & ->). rewrite utf8_round_trip; [|by eapply Forall_impl; [exact Hl|intros c [? _]]]. by eapply Forall_impl; [exact Hl|intros c [_ ?]].
Qed.

Lemma made_of_app a b : made_of p a -> made_of p b -> made_of p (a +:+ b).
Proof using. intros (l & Hl & ->) (k & Hk & ->). exists (l ++ k). rewrite Forall_app. by rewrite to_utf8_app. Qed.

Lemma made_of_literal s : valid_utf8 s && forallb p (from_utf8_lossy s) = true -> made_of p s.
Proof using.
  rewrite andb_true_iff. unfold valid_utf8. rewrite String.eqb_eq. intros [Hs Hp]. exists (from_utf8_lossy s). split; [|done].
  pose proof (from_utf8_scalars s) as Hc. rewrite Forall_forall in *. rewrite forallb_forall in Hp. intros c Hin. split; [by apply Hc|].
  apply Hp. by apply list_elem_of_In.
Qed.

Lemma made_of_ascii s : (forall z, 32 <= z < 127 -> p z = true) -> all_bytes (fun c => (32 <=? byte_of c) && (byte_of c <? 127)) s = true -> made_of p s.
Proof using.
  intros Hp. induction s as [|c s IH]; cbn [all_bytes]; [intros _; by exists []|]. intros [Hc Hs]%andb_true_iff. bools.
  destruct (IH Hs) as (l & Hl & ->). exists (byte_of c :: l). split.
  - constructor; [|done]. split; [left; lia|apply Hp; lia].
  - cbn [to_utf8 foldr]. unfold encode at 1. rewrite (proj2 (Z.ltb_lt _ _)) by lia. f_equal. unfold chr, byte_of. by rewrite N2Z.id, ascii_N_embedding.
Qed.
End Made.

Lemma printable z : 32 <= z < 127 -> harmless z = true /\ in_line z = true.
Proof. intros Hz. unfold harmless, in_line, is_control. by rewrite (proj2 (Z.ltb_ge z 32)), (proj2 (Z.leb_gt 127 z)) by lia. Qed.

Lemma fmt_u_ascii z : all_bytes (fun c => (32 <=? byte_of c) && (byte_of c <? 127)) (fmt_u z) = true.
Proof.
  destruct (Z.le_gt_cases 0 z); [by apply fmt_u_digits|]. destruct z as [|n|n]; [lia..|].
  change (fmt_u (Z.neg n)) with (String "-" (fmt_u (Z.pos n))). cbn [all_bytes]. by rewrite fmt_u_digits.
Qed.

Lemma number_harmless z : made_of harmless (fmt_u z).
Proof. apply made_of_ascii; [|apply fmt_u_ascii]. intros c Hc. by apply printable. Qed.

Lemma escaped_harmless c : Forall (fun c => is_scalar c /\ harmless c = true) (escaped c).
Proof.
  assert (Hh : forall z, is_scalar (hex_digit (z mod 16)) /\ harmless (hex_digit (z mod 16)) = true).
  { intros z. pose proof (Z.mod_pos_bound z 16 eq_refl). unfold hex_digit.
    destruct (Z.ltb_spec (z mod 16) 10); (split; [unfold is_scalar; lia|apply printable; lia]). }
  unfold escaped. repeat (apply Forall_cons; split; [try apply Hh; try (split; [unfold is_scalar; lia|reflexivity])|]). constructor.
Qed.

Lemma safe_harmless s : made_of harmless (safe s).
Proof.
  eexists. split; [|reflexivity]. apply Forall_concat, Forall_map. eapply Forall_impl; [apply from_utf8_scalars|]. intros c Hc. unfold safe_char.
  destruct ((c =? 10) || (c =? 9)) eqn:E1; [|destruct (is_control c) eqn:E2; [apply escaped_harmless|destruct (_ && _)%bool; [apply escaped_harmless|]]];
    (constructor; [|constructor]); (split; [done|]); unfold harmless.
  - by rewrite <- orb_assoc, E1, orb_true_r.
  - by rewrite E2.
Qed.

(** What drives nothing is left as it is. *)
Lemma safe_plain s : made_of harmless s -> safe s = s.
Proof.
  intros (l & Hl & ->). unfold safe. rewrite utf8_round_trip; [|by eapply Forall_impl; [exact Hl|intros c [? _]]]. f_equal.
  induction Hl as [|c l [_ Hc] Hl IH]; [done|]. cbn [map concat]. rewrite IH. unfold safe_char, harmless in *. destruct ((c =? 10) || (c =? 9)) eqn:E1; [done|].
  rewrite <- orb_assoc, E1, orb_false_r in Hc. apply negb_true_iff in Hc. rewrite Hc. unfold is_control in Hc.
  destruct ((128 <=? c) && (c <=? 159)) eqn:E2; [|done]. bools. lia.
Qed.

Lemma one_line_in_line s : made_of harmless s -> made_of in_line (on_one_line s).
Proof.
  intros (l & Hl & ->). unfold on_one_line. rewrite utf8_round_trip; [|by eapply Forall_impl; [exact Hl|intros c [? _]]].
  eexists. split; [|reflexivity]. apply Forall_map. eapply Forall_impl; [exact Hl|]. intros c [Hc Hh]. unfold harmless, in_line in *.
  destruct (Z.eqb_spec c 10); [by split; [left; lia|]|]. split; [done|]. by rewrite orb_false_r in Hh.
Qed.

Lemma truncate_in_line s : made_of in_line s -> made_of in_line (truncate s).
Proof.
  intros Hs. unfold truncate. destruct (_ <=? _)%nat; [done|]. destruct Hs as (l & Hl & ->).
  rewrite utf8_round_trip; [|by eapply Forall_impl; [exact Hl|intros c [? _]]]. repeat apply made_of_app.
  - exists (firstn MAX_INLINE l). split; [|done]. by apply Forall_take.
  - by apply made_of_literal.
  - apply made_of_ascii; [|apply fmt_u_ascii]. intros c Hc. by apply printable.
  - by apply made_of_literal.
Qed.

Lemma in_line_harmless s : made_of in_line s -> made_of harmless s.
Proof.
  intros (l & Hl & ->). exists l. split; [|done]. eapply Forall_impl; [exact Hl|]. intros c [? Hc]. split; [done|]. unfold harmless, in_line in *.
  destruct (negb (is_control c)); [done|]. simpl in *. by rewrite Hc, orb_true_r.
Qed.

Create HintDb shown.
#[export] Hint Resolve number_harmless safe_harmless : shown.

(** Text put together of what is harmless. *)
Ltac shown := repeat first
  [ progress auto with shown
  | match goal with |- made_of _ (_ +:+ _) => apply made_of_app end
  | match goal with |- made_of _ (match ?x with _ => _ end) => destruct x end
  | apply made_of_literal; vm_compute; reflexivity ].

Section Shown.
  Context (json_text : Value -> string) (part_to_value : ContentPart -> option Value) (debug_str : string -> string).

Lemma inline_in_line v : made_of in_line (inline json_text v).
Proof using. unfold inline. apply truncate_in_line, one_line_in_line, safe_harmless. Qed.

Lemma inline_harmless v : made_of harmless (inline json_text v).
Proof using. apply in_line_harmless, inline_in_line. Qed.

#[local] Hint Resolve inline_harmless : shown.

Lemma update_harmless u stats : Forall (made_of harmless) (snd (update json_text part_to_value u stats)).
Proof using.
  destruct u as [part|message|call|call_id outcome|response]; cbn [update snd]; [| | | |destruct (response_usage response); [|constructor]]; (constructor; [|constructor]);
    unfold content_shown, turn_summary, NL; shown.
Qed.

Lemma question_harmless pending : made_of harmless (question pending).
Proof using. unfold question, NL. shown. Qed.

(** [Debug] of a string escapes what it may not print. *)
Hypothesis debug_harmless : forall s, made_of harmless (debug_str s).
#[local] Hint Resolve debug_harmless : shown.

Lemma authorization_harmless event : made_of harmless (authorization_shown debug_str event).
Proof using debug_harmless. unfold authorization_shown, principal_shown, kind_debug, phase_debug, authorization_debug. shown. Qed.

Lemma invocation_harmless event : made_of harmless (invocation_shown debug_str event).
Proof using debug_harmless. unfold invocation_shown, principal_shown, kind_debug, invocation_debug. shown. Qed.

Lemma verbose_harmless : (forall event, Forall (made_of harmless) (measurement_shown event)) /\ (forall stats, Forall (made_of harmless) (session_totals stats)) /\
  (forall event, made_of harmless (assembled_shown event)).
Proof using.
  split_and!; [intros event; unfold measurement_shown; repeat constructor; shown|intros stats; unfold session_totals; repeat constructor; shown|].
  intros event. unfold assembled_shown. shown.
Qed.
End Shown.

(** ** Dates *)

(** The calendar, a day at a time. *)
Definition leap (year : Z) : bool := (year mod 4 =? 0) && (negb (year mod 100 =? 0) || (year mod 400 =? 0)).
Definition month_length (leap_year : bool) (month : Z) : Z :=
  if month =? 2 then (if leap_year then 29 else 28) else if (month =? 4) || (month =? 6) || (month =? 9) || (month =? 11) then 30 else 31.
Definition next_day (date : Z * Z * Z) : Z * Z * Z :=
  let '(year, month, day) := date in
  if day <? month_length (leap year) month then (year, month, day + 1) else if month <? 12 then (year, month + 1, 1) else (year + 1, 1, 1).
Fixpoint days_after_epoch (n : nat) : Z * Z * Z := match n with O => (1970, 1, 1) | S n => next_day (days_after_epoch n) end.

(** A year that begins in March, its days, and the day of the month of one. *)
Definition march_start (year : Z) : Z := 365 * year + year / 4 - year / 100.
Definition march_length (year : Z) : Z := if leap (year + 1) then 366 else 365.
Definition month_day (day_of_year : Z) : Z * Z :=
  let shifted_month := (5 * day_of_year + 2) / 153 in
  (if shifted_month <? 10 then shifted_month + 3 else shifted_month - 9, day_of_year - (153 * shifted_month + 2) / 5 + 1).
Definition march_date (year day_of_year : Z) : Z * Z * Z :=
  let (month, day) := month_day day_of_year in (if month <=? 2 then year + 1 else year, month, day).

Lemma march_start_next year : 0 <= year < 400 -> march_start (year + 1) = march_start year + march_length year - (if year =? 399 then 1 else 0).
Proof.
  intros Hy. unfold march_start, march_length, leap.
  destruct (Z.eqb_spec ((year + 1) mod 4) 0), (Z.eqb_spec ((year + 1) mod 100) 0), (Z.eqb_spec ((year + 1) mod 400) 0), (Z.eqb_spec year 399); cbn [andb orb negb];
    Z.to_euclidean_division_equations; lia.
Qed.

Lemma year_of_era year day : 0 <= year < 400 -> 0 <= day < march_length year ->
  let day_of_era := march_start year + day in (day_of_era - day_of_era / 1460 + day_of_era / 36524 - day_of_era / 146096) / 365 = year.
Proof.
  intros Hy Hd. cbn zeta. unfold march_start, march_length, leap in *.
  destruct (Z.eqb_spec ((year + 1) mod 4) 0), (Z.eqb_spec ((year + 1) mod 100) 0), (Z.eqb_spec ((year + 1) mod 400) 0); cbn [andb orb negb] in *;
    Z.to_euclidean_division_equations; lia.
Qed.

Definition days_of_year : list Z := map Z.of_nat (seq 0 366).
Definition next_month_day (leap_year : bool) (date : Z * Z) : Z * Z :=
  let (month, day) := date in
  if day <? month_length leap_year month then (month, day + 1) else if month <? 12 then (month + 1, 1) else (1, 1).

(** The days of a year that begins in March, one after the other, with February last. *)
Definition follows (leap_year : bool) (day : Z) : bool :=
  let '(month, of_month) := month_day day in
  let length := if leap_year then 366 else 365 in
  negb (day <? length) ||
  (1 <=? month) && (month <=? 12) && (1 <=? of_month) && (of_month <=? month_length leap_year month) &&
  bool_decide (next_month_day leap_year (month_day day) = if day + 1 <? length then month_day (day + 1) else (3, 1)) &&
  Bool.eqb ((month =? 2) && (of_month =? month_length leap_year 2)) (day + 1 =? length).

Lemma days_follow : forallb (fun day : Z => (follows true day && follows false day)%bool) days_of_year = true.
Proof. vm_compute. reflexivity. Qed.

Lemma day_follows (leap_year : bool) (day : Z) : 0 <= day < (if leap_year then 366 else 365) ->
  exists month of_month, month_day day = (month, of_month) /\ 1 <= month <= 12 /\ 1 <= of_month <= month_length leap_year month /\
    next_month_day leap_year (month, of_month) = (if day + 1 <? (if leap_year then 366 else 365) then month_day (day + 1) else (3, 1)) /\
    (month = 2 /\ of_month = month_length leap_year 2 <-> day + 1 = if leap_year then 366 else 365).
Proof.
  intros Hd. pose proof days_follow as H. rewrite forallb_forall in H. specialize (H day).
  assert (Hin : In day days_of_year).
  { unfold days_of_year. apply in_map_iff. exists (Z.to_nat day). split; [lia|]. apply in_seq. destruct leap_year; lia. }
  apply H, andb_true_iff in Hin as [Ht Hf]. assert (Hb : follows leap_year day = true) by (by destruct leap_year). clear H Ht Hf. unfold follows in Hb.
  destruct (month_day day) as [month of_month] eqn:E. rewrite (proj2 (Z.ltb_lt _ _) (proj2 Hd)) in Hb. cbn [negb orb] in Hb. bools.
  match goal with H : Bool.eqb _ _ = true |- _ => apply eqb_prop in H end. exists month, of_month. split_and!; try lia; try done.
Qed.

Lemma month_length_leap (a b : bool) month : (month = 2 -> a = b) -> month_length a month = month_length b month.
Proof. intros H. unfold month_length. destruct (Z.eqb_spec month 2) as [->|]; [by rewrite H|done]. Qed.

Lemma march_follows year day : 0 <= day < march_length year ->
  next_day (march_date year day) = if day + 1 <? march_length year then march_date year (day + 1) else march_date (year + 1) 0.
Proof.
  intros Hd. unfold march_length in *. destruct (day_follows _ _ Hd) as (month & of_month & Em & Hm & Ho & Hn & Hend). unfold march_date. rewrite Em. cbn [next_day].
  rewrite (month_length_leap _ (leap (year + 1)) month) by (intros ->; done). unfold next_month_day in Hn.
  destruct (Z.ltb_spec (day + 1) (if leap (year + 1) then 366 else 365)).
  - rewrite <- Hn. destruct (Z.ltb_spec of_month (month_length (leap (year + 1)) month)); [done|].
    assert (month <> 2) by (intros ->; destruct Hend as [Hend _]; specialize (Hend ltac:(split; [done|lia])); lia).
    destruct (Z.ltb_spec month 12); [|assert (month = 12) as -> by lia; done].
    destruct (Z.leb_spec month 2), (Z.leb_spec (month + 1) 2); [done|lia|lia|done].
  - destruct Hend as [_ Hend]. destruct Hend as [-> ->]; [lia|]. rewrite Z.ltb_irrefl. reflexivity.
Qed.

(** A day, in its 400 years. *)
Definition placed (days era year day : Z) : Prop :=
  0 <= era /\ 0 <= year < 400 /\ 0 <= day < march_length year /\ days + 719468 = era * 146097 + march_start year + day.

Lemma march_bounds year day : 0 <= year < 400 -> 0 <= day < march_length year -> 0 <= march_start year + day < 146097.
Proof.
  intros Hy Hd. unfold march_start, march_length, leap in *.
  destruct (Z.eqb_spec ((year + 1) mod 4) 0), (Z.eqb_spec ((year + 1) mod 100) 0), (Z.eqb_spec ((year + 1) mod 400) 0); cbn [andb orb negb] in *;
    Z.to_euclidean_division_equations; lia.
Qed.

Lemma placed_civil days era year day : placed days era year day -> civil_from_days days = march_date (year + era * 400) day.
Proof.
  intros (He & Hy & Hd & Heq). pose proof (march_bounds _ _ Hy Hd) as Hb. unfold civil_from_days. rewrite Heq.
  assert ((era * 146097 + march_start year + day) / 146097 = era) as -> by (Z.to_euclidean_division_equations; lia).
  assert ((era * 146097 + march_start year + day) mod 146097 = march_start year + day) as -> by (Z.to_euclidean_division_equations; lia).
  cbv zeta. rewrite (year_of_era year day Hy Hd). fold (march_start year).
  assert (march_start year + day - march_start year = day) as -> by lia. reflexivity.
Qed.

Lemma leap_era year era : leap (year + era * 400) = leap year.
Proof.
  unfold leap. assert (Hm : forall k, (k | 400) -> 0 < k -> (year + era * 400) mod k = year mod k).
  { intros k [q Hq] Hk. rewrite Hq, Z.mul_assoc, Z.mod_add by lia. done. }
  rewrite !Hm; [done|..]; first [lia|by exists 1|by exists 4|by exists 100].
Qed.

Lemma placed_next days era year day : placed days era year day ->
  exists era' year' day', placed (days + 1) era' year' day' /\ march_date (year' + era' * 400) day' = next_day (march_date (year + era * 400) day).
Proof.
  intros (He & Hy & Hd & Heq). assert (Hl : march_length (year + era * 400) = march_length year).
  { unfold march_length. replace (year + era * 400 + 1) with (year + 1 + era * 400) by lia. by rewrite leap_era. }
  rewrite march_follows by (by rewrite Hl). rewrite Hl. pose proof (march_start_next year Hy) as Hs. destruct (Z.ltb_spec (day + 1) (march_length year)).
  - exists era, year, (day + 1). split; [|done]. unfold placed. lia.
  - destruct (Z.eqb_spec year 399) as [->|].
    + exists (era + 1), 0, 0. split; [|f_equal; lia]. assert (march_length 399 = 366) by reflexivity. assert (march_start 399 = 145731) by reflexivity.
      unfold placed. change (march_start 0) with 0. change (march_length 0) with 365. lia.
    + exists era, (year + 1), 0. split; [|f_equal; lia]. unfold placed. assert (0 < march_length (year + 1)) by (unfold march_length; by destruct (leap _)). lia.
Qed.

Lemma civil_counts (n : nat) : civil_from_days (Z.of_nat n) = days_after_epoch n.
Proof.
  assert (H : exists era year day, placed (Z.of_nat n) era year day /\ march_date (year + era * 400) day = days_after_epoch n).
  { induction n as [|n (era & year & day & Hp & Hd)].
    - exists 4, 369, 306. split; [|reflexivity]. unfold placed. change (march_length 369) with 365. change (march_start 369) with 134774. lia.
    - destruct (placed_next _ _ _ _ Hp) as (era' & year' & day' & Hp' & Hd'). exists era', year', day'. rewrite Nat2Z.inj_succ. cbn [days_after_epoch].
      by rewrite Hd', Hd. }
  destruct H as (era & year & day & Hp & <-). by apply placed_civil.
Qed.

(** Later days have later dates. *)
Definition real_date (date : Z * Z * Z) : Prop := let '(year, month, day) := date in 1970 <= year /\ 1 <= month <= 12 /\ 1 <= day <= 31.
Definition date_key (date : Z * Z * Z) : Z := let '(year, month, day) := date in (year * 12 + month) * 32 + day.

Lemma next_day_later date : real_date date -> real_date (next_day date) /\ date_key date < date_key (next_day date).
Proof.
  destruct date as [[year month] day]. unfold real_date, date_key, next_day. intros (Hy & Hm & Hd).
  assert (month_length (leap year) month <= 31) by (unfold month_length; repeat case_match; lia).
  destruct (Z.ltb_spec day (month_length (leap year) month)); [lia|]. destruct (Z.ltb_spec month 12); lia.
Qed.

Lemma days_real n : real_date (days_after_epoch n).
Proof. induction n as [|n IH]; [unfold real_date; simpl; lia|]. by apply next_day_later. Qed.

Lemma days_later n m : (n < m)%nat -> date_key (days_after_epoch n) < date_key (days_after_epoch m).
Proof.
  induction 1 as [|m Hm IH]; cbn [days_after_epoch]; [apply next_day_later, days_real|]. etransitivity; [exact IH|]. apply next_day_later, days_real.
Qed.

Lemma civil_from_days_inj a b : 0 <= a -> 0 <= b -> civil_from_days a = civil_from_days b -> a = b.
Proof.
  intros Ha Hb. rewrite <- (Z2Nat.id a Ha), <- (Z2Nat.id b Hb), !civil_counts. intros H.
  destruct (Nat.lt_trichotomy (Z.to_nat a) (Z.to_nat b)) as [Hl|[->|Hl]]; [|done|]; apply days_later in Hl; rewrite H in Hl; lia.
Qed.

(** ** Times, written *)

Lemma parse_digits_fmt_u max z : 0 <= z <= max -> parse_digits max 0 (fmt_u z) = Some z.
Proof.
  intros Hz. pose proof (parse_uint_fmt_u max z Hz) as Hp. pose proof (fmt_u_digits is_digit z eq_refl (proj1 Hz)) as Hd. unfold parse_uint in Hp.
  destruct (fmt_u z) as [|c s]; [done|]. cbn [all_bytes] in Hd. apply andb_true_iff in Hd as [Hc _]. destruct (decide (c = "+"%char)) as [->|]; [done|exact Hp].
Qed.

Lemma fmt_pad_digits width z : 0 <= z -> all_bytes is_digit (fmt_pad width z) = true.
Proof.
  intros Hz. unfold fmt_pad. rewrite all_bytes_app, (fmt_u_digits is_digit z eq_refl Hz), andb_true_r.
  induction (width - String.length (fmt_u z))%nat as [|n IH]; [done|]. cbn [zeros all_bytes]. by rewrite IH.
Qed.

Lemma fmt_pad_value width z max : 0 <= z <= max -> parse_digits max 0 (fmt_pad width z) = Some z.
Proof.
  intros Hz. unfold fmt_pad. induction (width - String.length (fmt_u z))%nat as [|n IH]; [by apply parse_digits_fmt_u|].
  change (zeros (S n) +:+ fmt_u z) with (String "0" (zeros n +:+ fmt_u z)). cbn [parse_digits]. change (ascii_digit "0") with (Some 0). cbn iota beta zeta.
  change (0 * 10 + 0) with 0. rewrite (proj2 (Z.leb_le 0 max)) by lia. exact IH.
Qed.

Lemma fmt_pad_inj width z z' : 0 <= z -> 0 <= z' -> fmt_pad width z = fmt_pad width z' -> z = z'.
Proof. intros Hz Hz' H. pose proof (fmt_pad_value width z (z + z') ltac:(lia)) as Hv. rewrite H, fmt_pad_value in Hv by lia. by injection Hv. Qed.

(** Digits up to what is not one. *)
Lemma digits_split a b c x y : all_bytes is_digit a = true -> all_bytes is_digit b = true -> is_digit c = false ->
  a +:+ String c x = b +:+ String c y -> a = b /\ x = y.
Proof.
  intros Ha Hb Hc. revert b Hb. induction a as [|d a IH]; intros [|e b] Hb.
  - by intros [= ->].
  - cbn [all_bytes] in Hb. apply andb_true_iff in Hb as [He _]. intros [= -> _]. by rewrite He in Hc.
  - cbn [all_bytes] in Ha. apply andb_true_iff in Ha as [Hd _]. intros [= -> _]. by rewrite Hd in Hc.
  - cbn [all_bytes] in Ha, Hb. apply andb_true_iff in Ha as [_ Ha], Hb as [_ Hb]. change (String d a +:+ ?t) with (String d (a +:+ t)).
    change (String e b +:+ ?t) with (String e (b +:+ t)). intros [= -> H]. by destruct (IH Ha b Hb H) as [-> ->].
Qed.

Lemma field_split width z z' c x y : 0 <= z -> 0 <= z' -> is_digit c = false ->
  fmt_pad width z +:+ String c x = fmt_pad width z' +:+ String c y -> z = z' /\ x = y.
Proof.
  intros Hz Hz' Hc H. apply digits_split in H as [H ->]; [|by apply fmt_pad_digits..|done]. split; [by eapply fmt_pad_inj|done].
Qed.

Lemma format_timestamp_inj t t' : 0 <= t -> 0 <= t' -> format_timestamp t = format_timestamp t' -> t / 1000 = t' / 1000.
Proof.
  intros Ht Ht'. unfold format_timestamp.
  assert (Hreal : forall t, 0 <= t -> real_date (civil_from_days (t / 1000 / 86400))).
  { intros u Hu. assert (0 <= u / 1000 / 86400) by (Z.to_euclidean_division_equations; lia). rewrite <- (Z2Nat.id (u / 1000 / 86400)), civil_counts by done. apply days_real. }
  pose proof (Hreal t Ht) as Hr. pose proof (Hreal t' Ht') as Hr'.
  destruct (civil_from_days (t / 1000 / 86400)) as [[year month] day] eqn:E, (civil_from_days (t' / 1000 / 86400)) as [[year' month'] day'] eqn:E'.
  unfold real_date in Hr, Hr'.
  assert (Hn : forall u, 0 <= u mod 86400 / 3600 /\ 0 <= u mod 86400 mod 3600 / 60 /\ 0 <= u mod 86400 mod 60) by (intros u; Z.to_euclidean_division_equations; lia).
  destruct (Hn (t / 1000)) as (? & ? & ?), (Hn (t' / 1000)) as (? & ? & ?).
  intros Hf. repeat match type of Hf with fmt_pad _ _ +:+ (String ?c EmptyString +:+ ?x) = _ +:+ (_ +:+ ?y) =>
    change (String c EmptyString +:+ x) with (String c x) in Hf; change (String c EmptyString +:+ y) with (String c y) in Hf;
    apply field_split in Hf as [? Hf]; [|lia|lia|reflexivity] end.
  apply field_split in Hf as [? _]; [|lia|lia|reflexivity].
  assert (t / 1000 / 86400 = t' / 1000 / 86400) by (apply civil_from_days_inj; [Z.to_euclidean_division_equations; lia..|]; rewrite E, E'; congruence).
  Z.to_euclidean_division_equations; lia.
Qed.

(** ** What the terminal's parts are for *)

(** C40. Whatever a model, a tool or a file put into an update, a decision, a call or a question, what is
    printed of it holds no control character but line ends and tabs, so that it cannot move the
    cursor, erase what is shown or begin an escape; a value takes one line; and text that held none
    is shown as it is. *)
Theorem what_is_shown_drives_nothing (json_text : Value -> string) (part_to_value : ContentPart -> option Value) (debug_str : string -> string) :
  (forall s, made_of harmless (debug_str s)) ->
  (forall u stats, Forall (made_of harmless) (snd (update json_text part_to_value u stats))) /\
  (forall pending, made_of harmless (question pending)) /\
  (forall event, made_of harmless (authorization_shown debug_str event)) /\
  (forall event, made_of harmless (invocation_shown debug_str event)) /\
  (forall value, made_of in_line (inline json_text value)) /\
  (forall text, made_of harmless text -> safe text = text).
Proof.
  intros Hd. split_and!; intros.
  - apply update_harmless.
  - apply question_harmless.
  - by apply authorization_harmless.
  - by apply invocation_harmless.
  - apply inline_in_line.
  - by apply safe_plain.
Qed.

(** A day is shown as the date that counting days from 1970-01-01 arrives at, and instants shown
    alike are within one second. *)
Theorem instants_are_dated :
  (forall n, civil_from_days (Z.of_nat n) = days_after_epoch n) /\
  (forall t t', 0 <= t -> 0 <= t' -> format_timestamp t = format_timestamp t' -> t / 1000 = t' / 1000).
Proof. split; [apply civil_counts|apply format_timestamp_inj]. Qed.

Section Recording.
  Context {F : Type} (write_all : string -> F -> F * option string) (json_text : Value -> string).

#[local] Abbreviation write := (write write_all json_text).

(** Events, one after the other, and all that is said meanwhile. *)
Fixpoint write_each (entries : list Value) (self : Recorder (F := F)) : Recorder * list string :=
  match entries with
  | [] => (self, [])
  | entry :: entries => let (self, said) := write entry self in let (self, more) := write_each entries self in (self, said ++ more)
  end.

(** The file, where every line could be written. *)
Fixpoint lines_written (entries : list Value) (file : F) : F :=
  match entries with [] => file | entry :: entries => lines_written entries (fst (write_all (json_text entry +:+ NL) file)) end.

Lemma write_each_disabled entries self : rec_disabled self = true -> write_each entries self = (self, []).
Proof using. intros Hd. induction entries as [|entry entries IH]; [done|]. cbn [write_each]. unfold Terminal.write. by rewrite Hd, IH. Qed.

(** Recording fails once and says so: either every line was written, one after the other, and
    nothing was said; or those up to the first that failed were, one message was, and nothing after
    it was tried. *)
Theorem recording_fails_once (entries : list Value) (self : Recorder) : rec_disabled self = false ->
  let (self', said) := write_each entries self in
  (said = [] /\ rec_disabled self' = false /\ rec_file self' = lines_written entries (rec_file self)) \/
  (exists before failed after message, entries = before ++ failed :: after /\ said = [message] /\ rec_disabled self' = true /\
     snd (write_all (json_text failed +:+ NL) (lines_written before (rec_file self))) <> None /\
     rec_file self' = fst (write_all (json_text failed +:+ NL) (lines_written before (rec_file self)))).
Proof using.
  revert self. induction entries as [|entry entries IH]; intros self Hd; cbn [write_each]; [by left|]. unfold Terminal.write. rewrite Hd.
  destruct (write_all (json_text entry +:+ NL) (rec_file self)) as [file [error|]] eqn:E.
  - rewrite write_each_disabled by done. right. exists [], entry, entries. eexists. cbn [lines_written rec_disabled rec_file app]. rewrite E. by split_and!.
  - specialize (IH {| rec_file := file; rec_path := rec_path self; rec_disabled := false |} eq_refl). destruct (write_each entries _) as [self' said].
    cbn [rec_file lines_written app] in *. rewrite E. destruct IH as [IH|(before & failed & after & message & -> & Hs & Hrest)]; [by left|].
    right. exists (entry :: before), failed, after, message. cbn [lines_written]. by rewrite E.
Qed.
End Recording.

(** A decision is recorded without what was asked for: two that differ in the resource, the action,
    who asked and the reasons given leave the same line. *)
Lemma decisions_are_recorded_without_content (event event' : AuthorizationDecided) :
  ad_timestamp event = ad_timestamp event' -> ad_correlation event = ad_correlation event' -> ad_tool event = ad_tool event' -> ad_phase event = ad_phase event' ->
  ad_duration_ms event = ad_duration_ms event' -> ad_approval_wait_ms event = ad_approval_wait_ms event' -> outcome_name (ad_outcome event) = outcome_name (ad_outcome event') ->
  authorization_entry event = authorization_entry event'.
Proof. unfold authorization_entry. by intros -> -> -> -> -> -> ->. Qed.

(** ** On concrete values *)

Module TerminalDemo.
Local Open Scope string_scope.

Definition ESC : string := String (chr 27) EmptyString.
Definition quoted (s : string) : string := "'" +:+ safe s +:+ "'".
Definition json (v : Value) : string := "{}".
Definition no_part (part : ContentPart) : option Value := None.

Lemma quoted_harmless s : made_of harmless (quoted s).
Proof. unfold quoted. shown. Qed.

Example shown_safely :
  safe (ESC +:+ "[2J") = "\u{001b}[2J" /\ map granted [Some " YES"; Some "y"; Some "yes please"; None] = [true; true; false; false] /\
  format_timestamp 1755882000000 = "2025-08-22T17:00:00Z" /\ format_timestamp 1709164800000 = "2024-02-29T00:00:00Z".
Proof. vm_compute. split_and!; reflexivity. Qed.

Lemma what_is_shown_drives_nothing_witness : made_of harmless (question {| approval_id := "a"; approval_request := {| req_principal := Principal_new "x" Base.Agent;
    req_action := "fs.write"; req_resource := Some (ESC +:+ "[1A"); req_context := VNull |}; approval_prompt := "write?"; approval_correlation := "c";
    requested_at := 0; expires_at := 1 |}).
Proof. apply (what_is_shown_drives_nothing json no_part quoted quoted_harmless). Defined.

Lemma instants_are_dated_witness : 1755882000 = 1755882000999 / 1000.
Proof. exact (proj2 instants_are_dated 1755882000000 1755882000999 ltac:(lia) ltac:(lia) ltac:(vm_compute; reflexivity)). Defined.

(** A disk that takes two lines. *)
Definition small_disk (line : string) (file : list string) : list string * option string :=
  if (length file <? 2)%nat then ((file ++ [line])%list, None) else (file, Some "full").
Definition fresh : Recorder (F := list string) := {| rec_file := []; rec_path := "run.jsonl"; rec_disabled := false |}.

Lemma recording_fails_once_witness :
  let (self, said) := write_each small_disk json [VNull; VNull; VNull; VNull] fresh in length (rec_file self) = 2%nat /\ length said = 1%nat.
Proof.
  pose proof (recording_fails_once small_disk json [VNull; VNull; VNull; VNull] fresh eq_refl) as H. vm_compute in H |- *. by split.
Defined.

(** A tool that is not there, named by a model. *)
Definition called : AuditRecord :=
  {| audit_sequence := 7; audit_entry := Invocation {| ti_correlation := "c"; ti_timestamp := 0; ti_tool := ESC +:+ "[2J"; ti_principal := "agent";
     ti_principal_kind := Base.Agent; ti_on_behalf_of := None; ti_output_trust := None; ti_duration_ms := 0; ti_authorization_duration_ms := None;
     ti_execution_duration_ms := None; ti_outcome := InvocationNotFound |} |}.

(** What the review prints of it drives the terminal. *)
Lemma a_reviewed_line_is_not_safe : ~ made_of harmless (line called) /\ safe (line called) <> line called.
Proof.
  split; [|vm_compute; discriminate]. intros H%made_of_chars. rewrite Forall_forall in H. specialize (H 27).
  assert (Hf : harmless 27 = true -> False) by (vm_compute; discriminate). apply Hf, H.
  assert (Hin : existsb (Z.eqb 27) (from_utf8_lossy (line called)) = true) by (vm_compute; reflexivity).
  apply existsb_exists in Hin as (c & Hc & ->%Z.eqb_eq). by apply list_elem_of_In.
Qed.

(** A name with a line end in it puts a line of its own into a question, before the one it imitates. *)
Definition asked_for (resource : string) : PendingApproval :=
  {| approval_id := "a"; approval_request := {| req_principal := Principal_new "agent" Base.Agent; req_action := "fs.read"; req_resource := Some resource; req_context := VNull |};
     approval_prompt := "Read the file?"; approval_correlation := "c"; requested_at := 0; expires_at := 1 |}.

Lemma a_question_can_be_imitated : split_char (chr 10) (question (asked_for ("/srv/a" +:+ NL +:+ "    asked by: root (for root)"))) =
  [""; "  ⚠ Read the file?"; "    action:   fs.read"; "    resource: /srv/a"; "    asked by: root (for root)"; "    asked by: agent (for nobody)"; "  allow? [y/N] "].
Proof. vm_compute. reflexivity. Qed.
End TerminalDemo.

